(* ===== verification/_CoqProject ===== *)
-Q . S2P
Prelude.v
RustStr.v
Utf8.v
PatchTypes.v
SeekSequence.v
TextFile.v
FileUpdate.v
PatchParser.v
PatchPrinter.v
StateM.v
ExecutorFs.v
PathUri.v
ApiPath.v
PathUriSpec.v
FileUrls.v
PathUriProps.v
SandboxPolicy.v
SandboxPolicyProps.v
WorkspacePolicy.v
ReadDeny.v
PatchApply.v
PatchApplySpec.v
Invocation.v
AbsolutePath.v
ExecRules.v
ExecPolicy.v
PolicyBuiltins.v
HeadTail.v
PolicyFiles.v
ExecAmend.v
SandboxMigration.v
RequiredRules.v
ShellTree.v
PowerShell.v
DangerousCommand.v
ExecApproval.v
ExecApprovalProps.v
ConfigLayers.v
PolicyLoading.v
ExecManager.v
NetworkDecision.v
ToolApproval.v
ToolOrchestrator.v
ToolOrchestratorSpec.v
Truncate.v
StreamText.v
Utf8Stream.v
TaggedLines.v
ResponseItem.v
HistoryNormalize.v
HistoryPairing.v
WorldState.v
RolloutReplay.v
RolloutReplayProps.v
HistoryRebuild.v
TurnDiff.v
TurnDiffSpec.v
PermissionTransforms.v
PermissionTransformsProps.v
PermissionGrants.v
PermissionGrantsProps.v
PatchSafety.v
AgentPath.v
AgentRegistry.v
Residency.v
Wildcard.v
ShellEnvironment.v
IpAddr.v
NetworkHost.v
NetworkPatterns.v
NetworkConfig.v
MitmHook.v
NetworkConstraints.v
NetworkProxy.v
NetworkProxyProps.v
ProxyServer.v
ProxyServerProps.v
NetworkSpec.v
NetworkSpecProps.v
NetworkDemo.v
