(* ===== verification/Prelude.v ===== *)
(** * A verification library for the Codex command-line agent (codex-rs)

    Codex is an agent that edits files and runs commands for a language model.
    The development follows the parts of the Rust workspace src/codex-rs that
    decide what such an edit or command does and what stands in its way: the
    patch language and its application, the rules and reviews that say which
    commands may run, the policy that says which paths may be read and written,
    the environment a command gets, the proxy between it and the network, the
    agents that run next to each other, and the texts that go to the model and
    come back from it.  File names below are under src/codex-rs.

    ** How to read it

    A [&str] is the list of its Unicode scalar values (RustStr.v), bytes are
    numbers below 256 (Utf8.v), a [Result] is the type [result] of this file
    with [let?] for the operator [?], a possible panic is an [option] or the
    third case of [outcome].  Stateful code threads its state explicitly; async
    code over a file system is in the monad of StateM.v, with a Hoare triple
    that also specifies the state after an error; tasks and processes that run
    at the same time are step relations, with what a task holds between its
    steps as part of the state.  Code that is not in the repository (crates such
    as url, globset, starlark, serde_json; grammars; operating-system calls) is
    a class or an argument, with what the code relies on as a class of laws, and
    a concrete model discharges the laws so that the theorems can be applied.
    Definitions keep the names of the source where they do not clash.

    ** Parts, files and sources

    Shared: Prelude.v (results, options, lists, automation), RustStr.v (the
    string functions of the standard library), Utf8.v (encoding and decoding),
    StateM.v (the monad), PolicyFiles.v (files on disk with faults), Wildcard.v
    (the case-insensitive patterns of the crate wildmatch), NetworkDecision.v
    (the decisions of core and of the proxy on a connection).

    - Patches.  PatchTypes.v, SeekSequence.v, TextFile.v, FileUpdate.v,
      PatchParser.v, PatchApply.v and Invocation.v follow the files of
      apply-patch/src; PatchPrinter.v is the grammar as a syntax tree with its
      printer; ExecutorFs.v the file-system interface (file-system/src/lib.rs) as
      a class with laws and an in-memory instance; PatchApplySpec.v the
      abstract effect of a patch and the theorems against it.  A patch text is parsed line by line, its hunks located in the file by
      four comparisons of decreasing strictness, turned into replacements, and
      applied file by file with an account (delta) of what was committed.
      TurnDiff.v (core/src/turn_diff_tracker.rs) folds the deltas of a turn into
      one diff, TurnDiffSpec.v relates it to the files; PatchSafety.v
      (core/src/safety.rs, apply_patch.rs) decides whether a patch is applied
      unasked.
    - Paths.  AbsolutePath.v (utils/absolute-path) for paths of the local host;
      PathUri.v, ApiPath.v (utils/path-uri) for executor paths as [file:] URLs of
      either convention; PathUriSpec.v the laws of the crates, FileUrls.v a model
      of them, PathUriProps.v the theorems.  PathUri is also an
      instance of the path interface apply-patch is proved against.
    - Sandbox policies.  SandboxPolicy.v (protocol/src/permissions.rs,
      permissions/target.rs) on those paths, SandboxPolicyProps.v
      the theorems on access, WorkspacePolicy.v on
      workspace roots, ReadDeny.v the matcher and the validator of denials
      (also permissions/deny_read_validator.rs).
    - Permissions on request.  PermissionTransforms.v
      (sandboxing/src/policy_transforms.rs) joins and cuts down additional
      permissions and the profile a command runs with; PermissionGrants.v
      (core/src/session/mod.rs, state, tools/handlers) is the way from a request
      of the model over its answer to what a turn and the session remember and a
      command is given, as a transition system; PermissionTransformsProps.v and
      PermissionGrantsProps.v have the theorems.
    - Execution policy.  ExecRules.v, ExecPolicy.v, PolicyBuiltins.v,
      ExecAmend.v, SandboxMigration.v follow execpolicy/src.  A policy file is evaluated to rules, a
      command is matched against them, approved prefixes are appended to the
      file by several processes under a lock, and a migration rewrites it once.
      ConfigLayers.v and RequiredRules.v (config/src) are the stack the files
      come from and the rules an administrator requires; PolicyLoading.v and
      ExecManager.v (core/src/exec_policy.rs) load the files and keep the policy.
    - Commands.  ShellTree.v (shell-command/src/bash.rs, command_safety) reads a
      script's syntax tree as commands; PowerShell.v the
      literal subset of PowerShell; DangerousCommand.v the heuristics;
      ExecApproval.v (core/src/exec_policy.rs) turns a
      command into a requirement (run, ask, refuse), with ExecApprovalProps.v.
      ToolApproval.v (core/src/tools/sandboxing.rs) keeps the approvals of the
      session; ToolOrchestrator.v (core/src/tools/orchestrator.rs) reviews and
      runs a tool, at most twice, with ToolOrchestratorSpec.v.  ShellEnvironment.v
      (protocol/src/shell_environment.rs, config/src, core/src/exec_env.rs)
      is the environment a command gets.
    - Agents.  AgentPath.v (protocol/src/agent_path.rs), AgentRegistry.v
      (core/src/agent/registry.rs) name the agents and count them,
      Residency.v (core/src/agent/control/residency.rs) unloads idle ones to make
      place, by reservations that interleave.
    - Network.  IpAddr.v, NetworkHost.v, NetworkPatterns.v
      (network-proxy/src/policy.rs) are addresses, hosts and domain patterns;
      MitmHook.v (authorization_path.rs, mitm_hook.rs)
      the hooks on intercepted requests; NetworkConfig.v
      and NetworkConstraints.v (config.rs, state.rs) the settings and what an
      administrator fixed of them;
      NetworkProxy.v (runtime.rs, network_policy.rs, connect_policy.rs,
      upstream.rs) the running proxy as a
      transition system, with NetworkProxyProps.v; ProxyServer.v (http_proxy.rs, socks5.rs, mitm.rs,
      brokered_tunnel.rs, responses.rs) the handlers of connections, with ProxyServerProps.v;
      NetworkSpec.v (core/src/config/network_proxy_spec.rs, core/src/session)
      the settings a session starts and refreshes its proxies with, from the
      requirements, the saved rules and the environments, with
      NetworkSpecProps.v; NetworkDemo.v runs the proxy on concrete settings.
    - Command output.  HeadTail.v (core/src/unified_exec/head_tail_buffer.rs)
      captures it, Truncate.v (utils/string/src/truncate.rs,
      utils/output-truncation) cuts it to a budget.
    - Streamed text.  StreamText.v, Utf8Stream.v, TaggedLines.v follow
      utils/stream-parser/src: a class of streaming parsers, the byte decoder
      over any of them, hidden tags, plan blocks, and their composition for the
      assistant's text.
    - History.  ResponseItem.v (protocol/src/models.rs, history/src/lib.rs) the
      items of a conversation, HistoryNormalize.v
      (core/src/context_manager/normalize.rs, history.rs) their preparation for
      the model, HistoryPairing.v the theorems.
    - Resuming.  WorldState.v (core/src/context/world_state/mod.rs) is what the
      model was told of its surroundings, recorded as merge patches;
      RolloutReplay.v (core/src/session/rollout_reconstruction.rs) reads the log
      of a session from its end, RolloutReplayProps.v compares that with
      following its turns; HistoryRebuild.v (context_manager/history.rs,
      compact.rs, thread_rollout_truncation.rs) records the items again, with
      rollbacks and compactions.

    ** What the theorems show

    - Patches: application refines the effect of the hunks on the texts, an exact
      delta accounts for every change even after an error; parsing inverts
      printing; the diff of a turn compares its start with its end; a patch
      applied unasked asks, whatever fails, to change only files that may be
      written.  Lemmas: what
      verification showed is what is applied, replacements are ordered and
      disjoint, the search returns the earliest strictest match.
    - Paths and policies: operations keep the invariant of the type; access is
      that of the most specific entry, denial before write before read; a write
      needs a grant, metadata directories need their own; denied reads fail
      closed.
    - Permissions on request: an answer is cut down to its request, for reads
      path by path and with the glob denials of both; in every reachable state a
      command that asks for nothing uses only what its profile gives or what was
      asked and agreed; what runs without a question adds nothing to what was
      agreed.
    - Commands: the strictest decision wins, a program resolved by name is a
      listed one, a required rule is never loosened, the heuristic for dangerous
      commands is an inductive notion; a command runs unasked, is asked about or
      refused exactly as rules, heuristics and approval settings say, a
      proposed rule answers the request it came from; an amendment that
      succeeded is saved and active, appending processes all return, whatever
      fails; an approval
      of the session stands for exactly its keys; a tool runs after the reviews
      it needs and outside the sandbox only when denied reads allow it; the
      launch context stays out of the environment of a command, and an executor
      rebuilds that environment, managed proxy and restored shells included.
    - Agents: their number never exceeds the limit; reservations of places, in
      any interleaving, unload only idle agents, least recently used first, one
      per refusal at most, exceed the capacity by a bound, and end.
    - Network: a domain entry the constraints let through matches only hosts
      that a managed entry matches; a path matched by a hook has one reading, the first matching hook decides; an
      address that is not public is reached only as a literal, if not through a
      proxy of the environment; nothing leaves a handler that no policy allowed,
      limited mode only reads, hosts with hooks see only what a hook accepted,
      streams after an upgrade included; the proxy of a
      session meets the requirements of the administrator in every state it can
      reach, and that of an environment stays below its controller.  Lemmas: the
      addresses that are not public are the listed ranges, listeners stay local,
      a committed update is the one asked for under every interleaving, refusals
      are recorded.
    - Output and text: the byte buffer of the decoder is bounded.  Lemmas:
      captured output is a function of the whole stream, truncation keeps the
      longest ends that fit, streaming parsers give the same result for every
      way of cutting the input.
    - History: a prepared history is the recorded one with its calls and
      outputs paired and unsupported media replaced, and stable.
    - Resuming: replaying the records of the world gives what the running session
      compares with; reading a log from its end with an early stop restores what
      its surviving turns leave; the rebuilt history has the turns no rollback
      dropped.  Lemmas: a compaction made again keeps the newest messages that
      fit, a fork keeps the messages before its cut.

    ** Loops, fuel and integers

    Recursion is structural wherever the code walks a list.  Loops with no
    structural measure take fuel, and a theorem shows that the fuel given is
    enough: the turns of the inline tag parser (StreamText.v,
    inline_push_terminates: every turn shortens the pending text), the parents
    of a path (PathUriProps.v, ancestors_end: at most one per segment of the
    URL), the lossy decoder of ApiPath.v (PathUriProps.v, utf8_lossy_fuel: every
    step consumes a byte), the walk over a syntax tree (ShellTree.v: as many
    turns as the tree has nodes).  A reservation of Residency.v that is left alone
    ends within [work] steps, and an append of ExecAmend.v within its six
    operations.  The depth of wrappers the heuristic for
    dangerous commands follows is a bound of the source.  [usize] is [nat] or
    [N]: sizes of things in memory; where the code saturates, so do the
    definitions, and Truncate.v keeps its conversions between widths.

    ** Not modelled, and why

    Everything that is an adapter to the operating system, the network, a
    terminal or a database: the terminal interface, the application server and
    its protocol types, model clients, MCP, login, thread storage, the
    executors of the sandboxes, the loop that drives the model.  Of the
    modelled parts: the rendering of unified diffs (crate similar), parsing of
    shell scripts (tree-sitter grammar), evaluation of Starlark, the floating
    point product of [with_serialization_allowance], serde round trips, the
    policy functions that inspect the disk of the local host (symlinks, git
    directories, home), and the legacy policy conversions; who answers a
    question about a command (hooks, guardian, user) is an argument of the
    orchestrator; sockets, TLS, certificates and the credentials injected by
    the broker are left out of the proxy, and so is what a server answers;
    which texts of messages are context, and what reviews retain of a history,
    are arguments or left out of resuming.

    ** What is left

    The routing of approvals to hooks, guardian and user
    (core/src/tools/sandboxing.rs and the reviewers behind it); the requests for
    compaction and the token estimates of core/src/context_manager/history.rs;
    the legacy conversions of protocol/src/permissions.rs; the projection of a
    log to turns (app-server-protocol/src/protocol/thread_history.rs) and the
    forks by turn that use it. *)

From Stdlib Require Export ZArith NArith Lia List Sorted Permutation.
From stdpp Require Export base tactics list option numbers gmap strings.
Export ListNotations.


(** ** Fallible code

    [Result<A, E>] of the standard library.  [let?] is the [?] operator: it
    returns the error of its argument unchanged. *)

Inductive result (A E : Type) : Type :=
| Ok (a : A)
| Err (e : E).
Arguments Ok {A E} a.
Arguments Err {A E} e.

Declare Scope rust_scope.
Delimit Scope rust_scope with rust.
Open Scope rust_scope.

Notation "'let?' x ':=' c 'in' k" :=
  (match c with Ok x => k | Err e => Err e end)
  (at level 10, x pattern, c at level 200, k at level 200,
   format "'[v' 'let?'  x  ':='  c  'in' '/' k ']'") : rust_scope.

Definition is_ok {A E} (r : result A E) : bool :=
  match r with Ok _ => true | Err _ => false end.

(** [Result::ok]. *)
Definition res_ok {A E} (r : result A E) : option A :=
  match r with Ok a => Some a | Err _ => None end.

(** [Result::map_err]. *)
Definition map_err {A E F} (f : E -> F) (r : result A E) : result A F :=
  match r with Ok a => Ok a | Err e => Err (f e) end.

Definition is_none {A} (o : option A) : bool :=
  match o with None => true | Some _ => false end.

Definition is_some {A} (o : option A) : bool := negb (is_none o).

(** [Option::ok_or]. *)
Definition ok_or {A E} (o : option A) (e : E) : result A E :=
  match o with Some a => Ok a | None => Err e end.

(** [iter().map(f).collect::<Result<Vec<_>, _>>()]: the first error wins. *)
Fixpoint collect_results {A B E} (f : A -> result B E) (l : list A)
  : result (list B) E :=
  match l with
  | [] => Ok []
  | x :: l' => let? y := f x in let? ys := collect_results f l' in Ok (y :: ys)
  end.

(** Every element succeeded, or one failed. *)
Lemma collect_results_all {A B E} (f : A -> result B E) (l : list A) :
  match collect_results f l with
  | Ok ys => Forall2 (fun x y => f x = Ok y) l ys
  | Err _ => exists x e, In x l /\ f x = Err e
  end.
Proof.
  induction l as [|x l IH]; simpl; [constructor|].
  destruct (f x) as [y|e] eqn:Hx; [|exists x, e; by split; [left|]].
  destruct (collect_results f l) as [ys|e]; [by constructor|].
  destruct IH as (z & e' & Hz & He). exists z, e'. by split; [right|].
Qed.

(** [Iterator::find_map]. *)
Fixpoint find_map {A B} (f : A -> option B) (l : list A) : option B :=
  match l with
  | [] => None
  | x :: l' => match f x with Some y => Some y | None => find_map f l' end
  end.

Lemma find_map_Some {A B} (f : A -> option B) l y :
  find_map f l = Some y -> exists x, In x l /\ f x = Some y.
Proof.
  induction l as [|x l IH]; simpl; [done|]. destruct (f x) eqn:E; [intros [= <-]|intros H].
  - exists x. by split; [left|].
  - destruct (IH H) as (z & Hz & Hf). exists z. by split; [right|].
Qed.

Lemma find_map_None {A B} (f : A -> option B) l :
  find_map f l = None <-> forall x, In x l -> f x = None.
Proof.
  induction l as [|x l IH]; simpl; [by split|]. destruct (f x) eqn:E.
  - split; [done|]. intros H. rewrite H in E by (by left). done.
  - rewrite IH. split; [intros H y [<-|Hy]; [done|by apply H]|]. intros H y Hy. apply H. by right.
Qed.

Lemma find_map_ext {A B} (f g : A -> option B) l :
  (forall x, f x = g x) -> find_map f l = find_map g l.
Proof. intros H. induction l as [|x l IH]; simpl; [done|]. by rewrite H, IH. Qed.

Lemma Forall2_In_l {A B} (P : A -> B -> Prop) l k x :
  Forall2 P l k -> In x l -> exists y, In y k /\ P x y.
Proof.
  induction 1 as [|a b l k Hab _ IH]; [done|]. intros [<-|Hx]; [by exists b; split; [left|]|].
  destruct (IH Hx) as (y & Hy & HP). exists y. by split; [right|].
Qed.

Lemma Forall2_In_r {A B} (P : A -> B -> Prop) l k y :
  Forall2 P l k -> In y k -> exists x, In x l /\ P x y.
Proof.
  induction 1 as [|a b l k Hab _ IH]; [done|]. intros [<-|Hy]; [by exists a; split; [left|]|].
  destruct (IH Hy) as (x & Hx & HP). exists x. by split; [right|].
Qed.

(** A computation that may also panic (slice out of range, arithmetic overflow,
    failed [expect]).  [let!] sequences, propagating errors and panics. *)
Inductive outcome (A E : Type) : Type :=
| Done (a : A)
| Fail (e : E)
| Panic.
Arguments Done {A E} a.
Arguments Fail {A E} e.
Arguments Panic {A E}.

Notation "'let!' x ':=' c 'in' k" :=
  (match c with Done x => k | Fail e => Fail e | Panic => Panic end)
  (at level 10, x pattern, c at level 200, k at level 200,
   format "'[v' 'let!'  x  ':='  c  'in' '/' k ']'") : rust_scope.

(** A partial operation of the language: [None] is its panic. *)
Definition or_panic {A E} (o : option A) : outcome A E :=
  match o with Some a => Done a | None => Panic end.

Definition of_result {A E} (r : result A E) : outcome A E :=
  match r with Ok a => Done a | Err e => Fail e end.

#[export] Instance outcome_eq_dec {A E} `{EqDecision A, EqDecision E} :
  EqDecision (outcome A E).
Proof. solve_decision. Defined.

#[export] Instance result_eq_dec {A E} `{EqDecision A, EqDecision E} :
  EqDecision (result A E).
Proof. solve_decision. Defined.

(** ** Machine integers

    [usize] is 64 bits wide on every platform the program ships for; the
    counters below saturate there. *)

Definition usize_max : N := (2 ^ 64 - 1)%N.
Definition u64_max : N := (2 ^ 64 - 1)%N.

(** [usize::saturating_add]; [N.sub] is already [saturating_sub]. *)
Definition sat_add (a b : N) : N := N.min usize_max (a + b).
Definition sat_mul (a b : N) : N := N.min usize_max (a * b).

Lemma sat_add_small (a b : N) : (a + b <= usize_max)%N -> sat_add a b = (a + b)%N.
Proof. unfold sat_add. lia. Qed.

Lemma sat_add_le (a b : N) : (sat_add a b <= usize_max)%N.
Proof. unfold sat_add. lia. Qed.

(** ** Tactics *)

(** Case analysis on the scrutinee of the first match of a hypothesis that
    equates a computation with a result, dropping the impossible branches. *)
Ltac inv_match H :=
  repeat (case_match; simplify_eq/=; try done);
  idtac H.

(** Case analysis on the condition of a conditional of the goal. *)
Ltac case_if :=
  match goal with |- context [if ?b then _ else _] => destruct b end.

(** Splits every boolean connective of the hypotheses into propositions. *)
Ltac bool_hyps :=
  repeat match goal with
  | H : (_ && _)%bool = true |- _ => apply andb_prop in H as [? ?]
  | H : (_ || _)%bool = false |- _ => apply orb_false_elim in H as [? ?]
  | H : negb _ = true |- _ => apply negb_true_iff in H
  | H : negb _ = false |- _ => apply negb_false_iff in H
  | H : bool_decide _ = true |- _ => apply bool_decide_eq_true in H
  | H : bool_decide _ = false |- _ => apply bool_decide_eq_false in H
  end.

(** ** Lists *)

(** [last().is_some_and(p)]. *)
Definition last_is {A} (p : A -> bool) (l : list A) : bool :=
  match last l with Some x => p x | None => false end.

(** [last_mut()] followed by an assignment through it. *)
Definition update_last {A} (f : A -> A) (l : list A) : list A :=
  match rev l with [] => [] | x :: r => rev (f x :: r) end.

Definition is_empty {A} (l : list A) : bool :=
  match l with [] => true | _ :: _ => false end.

(** [Iterator::max] keeps the last maximal element; over a linear order it is
    the fold of the binary maximum. *)
Definition fold_max {A} (maxf : A -> A -> A) (l : list A) : option A :=
  match l with [] => None | x :: l' => Some (fold_left maxf l' x) end.

Section lists.
Context {A : Type}.
Implicit Types l : list A.

Lemma update_last_snoc (f : A -> A) l x : update_last f (l ++ [x]) = l ++ [f x].
Proof. unfold update_last. rewrite rev_app_distr; simpl. by rewrite rev_involutive. Qed.

Lemma last_is_snoc (p : A -> bool) l x : last_is p (l ++ [x]) = p x.
Proof. unfold last_is. by rewrite last_snoc. Qed.

Lemma is_empty_true l : is_empty l = true <-> l = [].
Proof. by destruct l. Qed.

Lemma is_empty_false l : is_empty l = false <-> l <> [].
Proof. by destruct l. Qed.

Lemma Forall_snoc (P : A -> Prop) l x : Forall P l -> P x -> Forall P (l ++ [x]).
Proof. intros. apply Forall_app. auto. Qed.

Lemma snoc_cases l : l = [] \/ exists l' x, l = l' ++ [x].
Proof. destruct l as [|x l'] using rev_ind; eauto. Qed.

Lemma take_drop_slice (i n : nat) l :
  take i l ++ take n (drop i l) ++ drop (i + n) l = l.
Proof. by rewrite <- drop_drop, take_drop, take_drop. Qed.

Lemma Forall_rev_iff (P : A -> Prop) l : Forall P (rev l) <-> Forall P l.
Proof.
  split; intros H; [rewrite <- (rev_involutive l)|]; by apply Forall_rev.
Qed.
End lists.

Lemma filter_flat_map {A B} (p : B -> bool) (f : A -> list B) (l : list A) :
  List.filter p (flat_map f l) = flat_map (fun x => List.filter p (f x)) l.
Proof. induction l as [|x l IH]; simpl; [done|]. by rewrite List.filter_app, IH. Qed.

(** ** Slices and vectors *)

(** [&l[a..b]], which panics unless [a <= b <= len]. *)
Definition slice_range {A} (l : list A) (a b : nat) : option (list A) :=
  if (a <=? b) && (b <=? length l) then Some (take (b - a) (drop a l)) else None.

(** [Vec::insert], which panics past the end. *)
Definition vec_insert {A} (i : nat) (x : A) (l : list A) : option (list A) :=
  if i <=? length l then Some (take i l ++ x :: drop i l) else None.

Lemma slice_range_Some {A} (l : list A) a b :
  a <= b -> b <= length l -> slice_range l a b = Some (take (b - a) (drop a l)).
Proof.
  intros. unfold slice_range.
  by rewrite (proj2 (Nat.leb_le a b)), (proj2 (Nat.leb_le b _)).
Qed.

(** ** Stable sorting

    [sort_by_key] is stable, so its result is the one of any stable sort. *)

Section sorting.
Context {A : Type} (key : A -> nat).

Fixpoint insert_by_key (x : A) (l : list A) : list A :=
  match l with
  | [] => [x]
  | y :: l' => if key x <=? key y then x :: l else y :: insert_by_key x l'
  end.

Definition sort_by_key (l : list A) : list A := fold_right insert_by_key [] l.

Lemma insert_by_key_perm x l : Permutation (insert_by_key x l) (x :: l).
Proof.
  induction l as [|y l IH]; simpl; [done|]. destruct (key x <=? key y); [done|].
  rewrite IH. apply perm_swap.
Qed.

Lemma sort_by_key_perm l : Permutation (sort_by_key l) l.
Proof. induction l as [|x l IH]; simpl; [done|]. by rewrite insert_by_key_perm, IH. Qed.

Lemma Forall_sort_by_key (P : A -> Prop) l : Forall P l -> Forall P (sort_by_key l).
Proof. intros H. by rewrite sort_by_key_perm. Qed.

(** If every pair [x] before [y] of the input satisfies [Q x y], and [Q]
    gives [R] in the order the sort leaves the pair in, then all pairs of the
    output satisfy [R]. *)
Context (Q R : A -> A -> Prop)
  (Hkeep : forall x y, Q x y -> key x <= key y -> R x y)
  (Hswap : forall x y, Q x y -> key y < key x -> R y x).

Lemma insert_by_key_sorted x l :
  Forall (Q x) l -> StronglySorted (fun a b => key a <= key b /\ R a b) l ->
  StronglySorted (fun a b => key a <= key b /\ R a b) (insert_by_key x l).
Proof.
  induction l as [|y l IH]; simpl; intros HQ HS; [by repeat constructor|].
  apply Forall_cons in HQ as [Hxy HQ]. apply StronglySorted_inv in HS as [HS Hy].
  destruct (Nat.leb_spec (key x) (key y)) as [Hle|Hlt].
  - constructor; [by constructor|]. constructor; [by auto|].
    rewrite Forall_forall in *. intros z Hz. destruct (Hy z Hz). split; [lia|].
    apply Hkeep; [by apply HQ|lia].
  - constructor; [by apply IH|]. rewrite insert_by_key_perm. constructor; [|done].
    split; [lia|]. by apply Hswap.
Qed.

Lemma sort_by_key_pairs l :
  ForallOrdPairs Q l ->
  StronglySorted (fun a b => key a <= key b /\ R a b) (sort_by_key l).
Proof.
  induction 1 as [|x l Hx _ IH]; simpl; [constructor|].
  apply insert_by_key_sorted; [by apply Forall_sort_by_key|done].
Qed.
End sorting.

Lemma StronglySorted_impl {A} (R1 R2 : A -> A -> Prop) l :
  (forall x y, R1 x y -> R2 x y) -> StronglySorted R1 l -> StronglySorted R2 l.
Proof.
  intros HR. induction 1 as [|x l _ IH Hx]; constructor; [done|].
  eapply Forall_impl; [exact Hx|]. auto.
Qed.

Lemma StronglySorted_rev {A} (R : A -> A -> Prop) l :
  StronglySorted R l -> StronglySorted (fun x y => R y x) (rev l).
Proof.
  induction 1 as [|x l _ IH Hx]; simpl; [constructor|].
  clear -IH Hx. apply Forall_rev in Hx. induction (rev l) as [|y l' IHl]; simpl.
  - repeat constructor.
  - apply Forall_cons in Hx as [Hy Hx]. apply StronglySorted_inv in IH as [HS Hall].
    constructor; [by apply IHl|]. apply Forall_app. split; [done|]. by repeat constructor.
Qed.

Lemma ForallOrdPairs_app {A} (Q : A -> A -> Prop) l1 l2 :
  ForallOrdPairs Q l1 -> ForallOrdPairs Q l2 -> Forall (fun x => Forall (Q x) l2) l1 ->
  ForallOrdPairs Q (l1 ++ l2).
Proof.
  induction 1 as [|x l1 Hx _ IH]; intros H2 H; simpl; [done|].
  apply Forall_cons in H as [Hx2 H]. constructor; [by apply Forall_app|by apply IH].
Qed.

(** The generic facts every component may use to finish a list goal. *)
Create HintDb codex.
#[export] Hint Resolve sat_add_le : codex.
#[export] Hint Rewrite @update_last_snoc @last_is_snoc : codex.
