(* ===== verification/RustStr.v ===== *)
(** * Rust strings

    A [&str]/[String] of the program is the list of its Unicode scalar values,
    a [char] its code point as an [N].  The functions below are the ones of
    Rust's standard library the modelled code calls, with the lemmas the
    components share.  Positions are counted in characters; where the code
    observes byte lengths, [byte_len] gives the UTF-8 length. *)

From Stdlib Require Import DecimalString Ascii String.
From S2P Require Import Prelude.

Abbreviation char := N (only parsing).
Abbreviation str := (list N) (only parsing).

(** ASCII literals. *)
Definition lit (s : string) : str := map N_of_ascii (list_ascii_of_string s).
Notation "$ s" := (lit s%string) (at level 5, s at level 0, format "$ s") : rust_scope.

Definition LF : char := 10%N.
Definition CR : char := 13%N.
Definition DQUOTE : char := 34%N.

(** Decimal rendering of an unsigned integer, as [{}] prints it. *)
Definition show_N (n : N) : str := lit (NilEmpty.string_of_uint (N.to_uint n)).
Definition show_nat (n : nat) : str := show_N (N.of_nat n).

(** ** Characters *)

(** [char::is_whitespace]: the Unicode White_Space property. *)
Definition is_whitespace (c : char) : bool :=
  ((9 <=? c) && (c <=? 13) || (c =? 32) || (c =? 133) || (c =? 160)
   || (c =? 5760) || ((8192 <=? c) && (c <=? 8202)) || (c =? 8232)
   || (c =? 8233) || (c =? 8239) || (c =? 8287) || (c =? 12288))%N.

(** [char::is_ascii_digit]. *)
Definition is_ascii_digit (c : char) : bool := ((48 <=? c) && (c <=? 57))%N.

Definition is_ascii_upper (c : char) : bool := ((65 <=? c) && (c <=? 90))%N.

(** [char::to_ascii_lowercase]. *)
Definition char_to_ascii_lowercase (c : char) : char :=
  if is_ascii_upper c then (c + 32)%N else c.

(** [str::to_ascii_lowercase]. *)
Definition to_ascii_lowercase (s : str) : str := map char_to_ascii_lowercase s.

(** [char::len_utf8]. *)
Definition len_utf8 (c : char) : nat :=
  if (c <? 128)%N then 1 else if (c <? 2048)%N then 2
  else if (c <? 65536)%N then 3 else 4.

(** [str::len]. *)
Definition byte_len (s : str) : nat := sum_list (map len_utf8 s).

(** ** Trimming *)

Fixpoint trim_start (s : str) : str :=
  match s with
  | c :: s' => if is_whitespace c then trim_start s' else s
  | [] => []
  end.

Definition trim_end (s : str) : str := rev (trim_start (rev s)).

Definition trim (s : str) : str := trim_end (trim_start s).

Fixpoint trim_start_matches (c : char) (s : str) : str :=
  match s with
  | d :: s' => if bool_decide (d = c) then trim_start_matches c s' else s
  | [] => []
  end.

(** [str::trim_end_matches] with a character pattern. *)
Definition trim_end_matches (c : char) (s : str) : str :=
  rev (trim_start_matches c (rev s)).

(** ** Prefixes and suffixes *)

Fixpoint strip_prefix (p s : str) : option str :=
  match p, s with
  | [], _ => Some s
  | c :: p', d :: s' => if bool_decide (c = d) then strip_prefix p' s' else None
  | _ :: _, [] => None
  end.

Definition strip_suffix (p s : str) : option str :=
  (@rev char) <$> strip_prefix (rev p) (rev s).

Definition starts_with (s p : str) : bool :=
  match strip_prefix p s with Some _ => true | None => false end.

Definition ends_with (s p : str) : bool :=
  match strip_suffix p s with Some _ => true | None => false end.

(** [contains] with a character. *)
Definition contains_char (c : char) (s : str) : bool := existsb (fun d => bool_decide (d = c)) s.

(** [str::find] with a string pattern: the position of the first occurrence. *)
Fixpoint find_str (needle s : str) : option nat :=
  if starts_with s needle then Some 0
  else match s with [] => None | _ :: s' => S <$> find_str needle s' end.

Definition contains_str (needle s : str) : bool :=
  match find_str needle s with Some _ => true | None => false end.

(** ** Splitting and joining *)

(** [str::split] with a character pattern; the result is never empty. *)
Fixpoint split_char (c : char) (s : str) : list str :=
  match s with
  | [] => [[]]
  | d :: s' =>
      if bool_decide (d = c) then [] :: split_char c s'
      else match split_char c s' with
           | w :: ws => (d :: w) :: ws
           | [] => [[d]]
           end
  end.

(** [str::split_once] with a character. *)
Fixpoint split_once (c : char) (s : str) : option (str * str) :=
  match s with
  | [] => None
  | d :: s' =>
      if bool_decide (d = c) then Some ([], s')
      else match split_once c s' with
           | Some (a, b) => Some (d :: a, b)
           | None => None
           end
  end.

(** [str::split_once] with a string. *)
Definition split_once_str (sep s : str) : option (str * str) :=
  i ← find_str sep s; Some (take i s, drop (i + length sep) s).

(** [str::rsplit_once] with a character. *)
Definition rsplit_once (c : char) (s : str) : option (str * str) :=
  match split_once c (rev s) with
  | Some (a, b) => Some (rev b, rev a)
  | None => None
  end.

(** [str::split_inclusive('\n')]. *)
Fixpoint split_inclusive_lf (s : str) : list str :=
  match s with
  | [] => []
  | d :: s' =>
      if bool_decide (d = LF) then [d] :: split_inclusive_lf s'
      else match split_inclusive_lf s' with
           | w :: ws => (d :: w) :: ws
           | [] => [[d]]
           end
  end.

(** What [str::lines] does to one piece of [split_inclusive('\n')]. *)
Definition strip_line_ending (l : str) : str :=
  match strip_suffix [LF] l with
  | None => l
  | Some l' => match strip_suffix [CR] l' with None => l' | Some l'' => l'' end
  end.

Definition lines (s : str) : list str := map strip_line_ending (split_inclusive_lf s).

(** [split] on a predicate, of a string or of a slice. *)
Fixpoint split_pred {A} (p : A -> bool) (s : list A) : list (list A) :=
  match s with
  | [] => [[]]
  | d :: s' =>
      if p d then [] :: split_pred p s'
      else match split_pred p s' with
           | w :: ws => (d :: w) :: ws
           | [] => [[d]]
           end
  end.

Definition eq_ignore_ascii_case (a b : str) : bool :=
  bool_decide (to_ascii_lowercase a = to_ascii_lowercase b).

(** The text patterns of a [matches!], and [contains] of a set of characters. *)
Definition one_of (s : str) (l : list str) : bool := existsb (fun x => bool_decide (s = x)) l.

Definition char_in (set : str) (c : char) : bool := contains_char c set.

(** [str::trim_matches] with a character. *)
Definition trim_matches (c : char) (s : str) : str := trim_end_matches c (trim_start_matches c s).

(** [[_]::join]. *)
Fixpoint join (sep : str) (l : list str) : str :=
  match l with
  | [] => []
  | [w] => w
  | w :: ws => w ++ sep ++ join sep ws
  end.

Definition count_char (c : char) (s : str) : nat :=
  length (filter (fun d => d = c) s).

(** ** Lemmas: prefixes and suffixes *)

Lemma strip_prefix_Some (p s t : str) : strip_prefix p s = Some t <-> s = p ++ t.
Proof.
  revert s; induction p as [|c p IH]; intros s; [simpl; naive_solver|].
  destruct s as [|d s]; simpl; [naive_solver|].
  case_bool_decide; [subst; rewrite IH|]; naive_solver.
Qed.

Lemma strip_prefix_app (p t : str) : strip_prefix p (p ++ t) = Some t.
Proof. by apply strip_prefix_Some. Qed.

Lemma strip_suffix_Some (p s t : str) : strip_suffix p s = Some t <-> s = t ++ p.
Proof.
  unfold strip_suffix. rewrite fmap_Some. split.
  - intros (u & Hu & ->). apply strip_prefix_Some in Hu.
    rewrite <- (rev_involutive s), Hu, rev_app_distr. by rewrite rev_involutive.
  - intros ->. exists (rev t). rewrite rev_app_distr, strip_prefix_app.
    by rewrite rev_involutive.
Qed.

Lemma strip_suffix_app (p t : str) : strip_suffix p (t ++ p) = Some t.
Proof. by apply strip_suffix_Some. Qed.

Lemma strip_suffix_None (p s : str) : strip_suffix p s = None <-> forall t, s <> t ++ p.
Proof.
  split.
  - intros H t ->. by rewrite strip_suffix_app in H.
  - intros H. destruct (strip_suffix p s) eqn:E; [|done].
    apply strip_suffix_Some in E. by apply H in E.
Qed.

Lemma starts_with_true (s p : str) : starts_with s p = true <-> exists t, s = p ++ t.
Proof.
  unfold starts_with. destruct (strip_prefix p s) as [t|] eqn:E.
  - apply strip_prefix_Some in E. naive_solver.
  - split; [done|]. intros [t ->]. by rewrite strip_prefix_app in E.
Qed.

Lemma ends_with_true (s p : str) : ends_with s p = true <-> exists t, s = t ++ p.
Proof.
  unfold ends_with. destruct (strip_suffix p s) as [t|] eqn:E.
  - apply strip_suffix_Some in E. naive_solver.
  - split; [done|]. intros [t ->]. by rewrite strip_suffix_app in E.
Qed.

Lemma contains_char_true (c : char) (s : str) : contains_char c s = true <-> In c s.
Proof.
  unfold contains_char. rewrite existsb_exists. split.
  - intros (d & Hd & E). bool_hyps. by subst.
  - intros H. exists c. split; [done | by apply bool_decide_eq_true].
Qed.

Lemma contains_char_false (c : char) (s : str) : contains_char c s = false <-> ~ In c s.
Proof. rewrite <- contains_char_true. by destruct (contains_char c s). Qed.

(** ** Lemmas: searching *)

Lemma starts_with_app_l (s t p : str) : starts_with s p = true -> starts_with (s ++ t) p = true.
Proof. rewrite !starts_with_true. intros (u & ->). exists (u ++ t). by rewrite app_assoc. Qed.

(** A prefix no longer than the text is already one of the text. *)
Lemma starts_with_app_inv (s t p : str) :
  length p <= length s -> starts_with (s ++ t) p = true -> starts_with s p = true.
Proof.
  rewrite !starts_with_true. intros Hl (u & Hu). exists (drop (length p) s).
  rewrite <- (take_drop (length p) s) at 1. f_equal.
  rewrite <- (take_app_le s t) by done. by rewrite Hu, take_app_length.
Qed.

Lemma find_str_spec (n s : str) (i : nat) :
  find_str n s = Some i <->
  i <= length s /\ starts_with (drop i s) n = true
  /\ forall j, j < i -> starts_with (drop j s) n = false.
Proof.
  revert i. induction s as [|c s IH]; intros i; simpl.
  - destruct (starts_with [] n) eqn:E; split.
    + intros [= <-]. repeat split; [lia|done|lia].
    + intros (Hi & _ & _). f_equal. lia.
    + done.
    + intros (Hi & H & _). destruct i; simpl in *; congruence.
  - destruct (starts_with (c :: s) n) eqn:E.
    + split; [intros [= <-]; repeat split; [lia|done|lia]|].
      intros (Hi & H & Hm). destruct i as [|i]; [done|].
      specialize (Hm 0 ltac:(lia)). simpl in Hm. congruence.
    + split.
      * destruct (find_str n s) as [k|] eqn:F; [|done]. simpl. intros [= <-].
        destruct (proj1 (IH k) eq_refl) as (Hk & Hs & Hm). repeat split; [lia|done|].
        intros [|j] Hj; [done|]. apply Hm. lia.
      * intros (Hi & H & Hm). destruct i as [|i]; [simpl in H; congruence|].
        rewrite (proj2 (IH i)); [done|]. repeat split; [simpl in Hi; lia|done|].
        intros j Hj. apply (Hm (S j)). lia.
Qed.

Lemma find_str_None (n s : str) :
  find_str n s = None <-> forall j, j <= length s -> starts_with (drop j s) n = false.
Proof.
  split.
  - intros F j Hj. destruct (starts_with (drop j s) n) eqn:E; [|done]. exfalso.
    assert (exists k, k <= j /\ starts_with (drop k s) n = true
              /\ forall i, i < k -> starts_with (drop i s) n = false) as (k & Hk & Hs & Hm).
    { clear F. revert E. induction j as [j IH] using lt_wf_ind. intros E.
      destruct (existsb (fun i => starts_with (drop i s) n) (seq 0 j)) eqn:Ex.
      - apply existsb_exists in Ex as (i & Hi & Hs). apply in_seq in Hi.
        destruct (IH i ltac:(lia) ltac:(lia) Hs) as (k & ? & ? & ?). exists k. repeat split; [lia|done..].
      - exists j. repeat split; [lia|done|]. intros i Hi.
        apply not_true_iff_false. intros Hc. apply not_true_iff_false in Ex. apply Ex.
        apply existsb_exists. exists i. split; [apply in_seq; lia|done]. }
    assert (find_str n s = Some k) by (apply find_str_spec; repeat split; [lia|done|done]).
    congruence.
  - intros H. destruct (find_str n s) as [i|] eqn:F; [|done].
    apply find_str_spec in F as (Hi & Hs & _). by rewrite H in Hs.
Qed.

(** The first occurrence cuts the text around the needle. *)
Lemma find_str_cut (n s : str) (i : nat) :
  find_str n s = Some i -> s = take i s ++ n ++ drop (i + length n) s.
Proof.
  intros F. apply find_str_spec in F as (Hi & Hs & _). apply starts_with_true in Hs as (t & Ht).
  rewrite <- (take_drop i s) at 1. f_equal. rewrite Ht. f_equal.
  by rewrite <- drop_drop, Ht, drop_app_length.
Qed.

Lemma find_str_fits (n s : str) (i : nat) : find_str n s = Some i -> i + length n <= length s.
Proof.
  intros F. pose proof (find_str_cut _ _ _ F) as H. apply find_str_spec in F as (Hi & _ & _).
  apply (f_equal length) in H. rewrite !length_app, length_take, length_drop in H. lia.
Qed.

(** Text that follows does not move the first occurrence. *)
Lemma find_str_app (n s t : str) (i : nat) :
  find_str n s = Some i -> find_str n (s ++ t) = Some i.
Proof.
  intros F. pose proof (find_str_fits _ _ _ F) as Hf. apply find_str_spec in F as (Hi & Hs & Hm).
  apply find_str_spec. rewrite length_app. repeat split; [lia| |].
  - rewrite drop_app_le by done. by apply starts_with_app_l.
  - intros j Hj. rewrite drop_app_le by lia. apply not_true_iff_false. intros Hc.
    apply starts_with_app_inv in Hc; [|rewrite length_drop; lia]. by rewrite Hm in Hc.
Qed.

(** ** Lemmas: trimming *)

Lemma trim_start_suffix (s : str) :
  exists w, s = w ++ trim_start s /\ forallb is_whitespace w = true.
Proof.
  induction s as [|c s (w & Hw & IH)]; [by exists []|]. simpl.
  destruct (is_whitespace c) eqn:E; [|by exists []].
  exists (c :: w). simpl. rewrite E. split; [by f_equal | done].
Qed.

Lemma trim_start_head (s : str) :
  match trim_start s with [] => True | c :: _ => is_whitespace c = false end.
Proof. induction s as [|c s IH]; simpl; [done|]. by destruct (is_whitespace c) eqn:E. Qed.

Lemma trim_start_id (c : char) (s : str) :
  is_whitespace c = false -> trim_start (c :: s) = c :: s.
Proof. simpl. by intros ->. Qed.

Lemma trim_start_idemp (s : str) : trim_start (trim_start s) = trim_start s.
Proof.
  pose proof (trim_start_head s) as H. destruct (trim_start s); [done|].
  by apply trim_start_id.
Qed.

Lemma trim_start_length (s : str) : length (trim_start s) <= length s.
Proof. induction s as [|c s IH]; simpl; [done|]. destruct (is_whitespace c); simpl; lia. Qed.

Lemma trim_end_snoc (s : str) (c : char) :
  trim_end (s ++ [c]) = if is_whitespace c then trim_end s else s ++ [c].
Proof.
  unfold trim_end. rewrite rev_app_distr; simpl.
  destruct (is_whitespace c); [done|]. simpl. by rewrite rev_involutive.
Qed.

Lemma trim_end_prefix (s : str) :
  exists w, s = trim_end s ++ w /\ forallb is_whitespace w = true.
Proof.
  destruct (trim_start_suffix (rev s)) as (w & Hw & Hws).
  exists (rev w). split.
  - unfold trim_end. rewrite <- rev_app_distr, <- Hw. by rewrite rev_involutive.
  - rewrite forallb_forall in *. intros x Hx. apply Hws. by apply in_rev.
Qed.

Lemma trim_end_idemp (s : str) : trim_end (trim_end s) = trim_end s.
Proof. unfold trim_end. by rewrite rev_involutive, trim_start_idemp. Qed.

Lemma trim_end_cons (c : char) (s : str) :
  is_whitespace c = false -> trim_end (c :: s) = c :: trim_end s.
Proof.
  intros Hc. unfold trim_end. simpl.
  assert (forall l, trim_start (l ++ [c]) = trim_start l ++ [c]) as ->.
  { induction l as [|d l IH]; simpl; [by rewrite Hc|]. by destruct (is_whitespace d). }
  by rewrite rev_app_distr.
Qed.

Lemma trim_head_nonspace (s : str) (c : char) (t : str) :
  trim s = c :: t -> is_whitespace c = false.
Proof.
  unfold trim. pose proof (trim_start_head s) as H.
  destruct (trim_start s) as [|d u]; [done|]. intros E.
  rewrite trim_end_cons in E by done. congruence.
Qed.

Lemma trim_idemp (s : str) : trim (trim s) = trim s.
Proof.
  unfold trim at 1. destruct (trim s) as [|c t] eqn:E; [done|].
  rewrite trim_start_id by (by eapply trim_head_nonspace).
  rewrite <- E. unfold trim. apply trim_end_idemp.
Qed.

(** A string that neither starts nor ends with white space. *)
Definition trimmed (s : str) : Prop := trim s = s.

Lemma trimmed_wrap (c d : char) (s : str) :
  is_whitespace c = false -> is_whitespace d = false -> trimmed (c :: s ++ [d]).
Proof.
  intros Hc Hd. unfold trimmed, trim. rewrite trim_start_id by done.
  change (c :: s ++ [d]) with ((c :: s) ++ [d]). by rewrite trim_end_snoc, Hd.
Qed.

Lemma trim_wrap_blank (c : char) (s : str) (d w : char) :
  is_whitespace c = false -> is_whitespace d = false -> is_whitespace w = true ->
  trim ((c :: s ++ [d]) ++ [w]) = c :: s ++ [d].
Proof.
  intros Hc Hd Hw. unfold trim. rewrite <- app_comm_cons, trim_start_id by done.
  rewrite app_comm_cons, trim_end_snoc, Hw, app_comm_cons, trim_end_snoc. by rewrite Hd.
Qed.

Lemma trim_end_trimmed (s : str) : trimmed s -> trim_end s = s.
Proof. unfold trimmed, trim. intros H. rewrite <- H at 1. by rewrite trim_end_idemp. Qed.

#[export] Hint Rewrite strip_prefix_app strip_suffix_app trim_start_idemp
  trim_end_idemp trim_idemp : codex.

(** ** Lemmas: splitting and joining *)

Lemma split_char_nonempty (c : char) (s : str) : split_char c s <> [].
Proof.
  destruct s as [|d s]; simpl; [done|].
  case_bool_decide; [done|]. by destruct (split_char c s).
Qed.

Lemma split_char_cons (c d : char) (s : str) :
  d <> c -> exists w ws, split_char c s = w :: ws /\ split_char c (d :: s) = (d :: w) :: ws.
Proof.
  intros Hd. pose proof (split_char_nonempty c s) as H.
  destruct (split_char c s) as [|w ws] eqn:E; [done|].
  exists w, ws. split; [done|]. simpl. rewrite bool_decide_eq_false_2 by done. by rewrite E.
Qed.

Lemma join_cons (sep w : str) (ws : list str) :
  ws <> [] -> join sep (w :: ws) = w ++ sep ++ join sep ws.
Proof. by destruct ws. Qed.

Lemma join_head_cons (sep w : str) (ws : list str) (d : char) :
  join sep ((d :: w) :: ws) = d :: join sep (w :: ws).
Proof. by destruct ws. Qed.

(** Joining the pieces of a split restores the string. *)
Lemma join_split_char (c : char) (s : str) : join [c] (split_char c s) = s.
Proof.
  induction s as [|d s IH]; [done|]. destruct (decide (d = c)) as [->|Hd].
  - simpl. rewrite bool_decide_eq_true_2 by done.
    rewrite join_cons by apply split_char_nonempty. simpl. by rewrite IH.
  - destruct (split_char_cons c d s Hd) as (w & ws & E & ->).
    rewrite join_head_cons, <- E, IH. done.
Qed.

Lemma split_char_pieces (c : char) (s : str) : Forall (fun w => ~ In c w) (split_char c s).
Proof.
  induction s as [|d s IH]; [by constructor; [intros []|]|].
  destruct (decide (d = c)) as [->|Hd].
  - simpl. rewrite bool_decide_eq_true_2 by done. constructor; [by intros []|done].
  - destruct (split_char_cons c d s Hd) as (w & ws & E & ->).
    rewrite E in IH. inversion IH; subst. constructor; [|done]. simpl; naive_solver.
Qed.

Lemma split_char_plain (c : char) (w : str) : ~ In c w -> split_char c w = [w].
Proof.
  induction w as [|d w IH]; [done|]. simpl. intros H.
  rewrite bool_decide_eq_false_2 by naive_solver. rewrite IH by naive_solver. done.
Qed.

Lemma split_char_app (c : char) (w s : str) :
  ~ In c w -> split_char c (w ++ c :: s) = w :: split_char c s.
Proof.
  induction w as [|d w IH]; simpl; intros H.
  - by rewrite bool_decide_eq_true_2.
  - rewrite bool_decide_eq_false_2 by naive_solver. by rewrite IH by naive_solver.
Qed.

(** Splitting a joined list of pieces gives the pieces back. *)
Lemma split_char_join (c : char) (ws : list str) :
  ws <> [] -> Forall (fun w => ~ In c w) ws -> split_char c (join [c] ws) = ws.
Proof.
  induction ws as [|w ws IH]; [done|]. intros _ Hall. inversion Hall; subst.
  destruct ws as [|w' ws]; [by apply split_char_plain|].
  rewrite join_cons by done.
    transitivity (w :: split_char c (join [c] (w' :: ws))); [by apply split_char_app|].
    by rewrite IH.
Qed.

Lemma split_inclusive_concat (s : str) : concat (split_inclusive_lf s) = s.
Proof.
  induction s as [|d s IH]; [done|]. simpl.
  case_bool_decide; simpl; [by rewrite IH|].
  destruct (split_inclusive_lf s); simpl in *; by rewrite <- IH.
Qed.

Lemma split_inclusive_line (w s : str) :
  ~ In LF w -> split_inclusive_lf (w ++ LF :: s) = (w ++ [LF]) :: split_inclusive_lf s.
Proof.
  induction w as [|d w IH]; simpl; intros H; [done|].
  rewrite bool_decide_eq_false_2 by naive_solver. by rewrite IH by naive_solver.
Qed.

Lemma split_inclusive_last (w : str) :
  w <> [] -> ~ In LF w -> split_inclusive_lf w = [w].
Proof.
  induction w as [|d w IH]; [done|]. simpl. intros _ H.
  rewrite bool_decide_eq_false_2 by naive_solver.
  destruct w as [|e w]; [done|]. rewrite IH by naive_solver. done.
Qed.

(** A line of text as [lines] returns it: no line feed inside, no carriage
    return at the end. *)
Definition plain_line (l : str) : Prop := ~ In LF l /\ (forall t, l <> t ++ [CR]).

Lemma strip_line_ending_lf (l : str) : plain_line l -> strip_line_ending (l ++ [LF]) = l.
Proof.
  intros [_ Hcr]. unfold strip_line_ending. rewrite strip_suffix_app.
  by rewrite (proj2 (strip_suffix_None [CR] l) Hcr).
Qed.

Lemma strip_line_ending_last (l : str) : ~ In LF l -> strip_line_ending l = l.
Proof.
  intros H. unfold strip_line_ending.
  rewrite (proj2 (strip_suffix_None [LF] l)); [done|].
  intros t ->. apply H, in_app_iff. right; by left.
Qed.

(** [lines] inverts joining with line feeds when the last line is not empty. *)
Lemma lines_join (ls : list str) (l : str) :
  Forall plain_line ls -> ~ In LF l -> l <> [] ->
  lines (join [LF] (ls ++ [l])) = ls ++ [l].
Proof.
  intros Hls Hl Hne. unfold lines. induction ls as [|w ls IH].
  - simpl. rewrite split_inclusive_last by done. simpl. by rewrite strip_line_ending_last.
  - inversion Hls as [|? ? [Hlf Hcr] Hrest]; subst. rewrite <- app_comm_cons.
    rewrite join_cons by (by destruct ls). simpl.
    rewrite split_inclusive_line by done. simpl.
    rewrite strip_line_ending_lf by done. by rewrite IH.
Qed.

(** No piece is empty. *)
Lemma split_inclusive_nonempty (s : str) : ~ In [] (split_inclusive_lf s).
Proof.
  induction s as [|d s IH]; [by intros []|]. simpl. case_bool_decide.
  - by intros [?|?].
  - destruct (split_inclusive_lf s) as [|w ws]; simpl in *; naive_solver.
Qed.

Lemma split_inclusive_app_lf (s t : str) :
  split_inclusive_lf (s ++ LF :: t) = split_inclusive_lf (s ++ [LF]) ++ split_inclusive_lf t.
Proof.
  induction s as [|d s IH]; simpl; [done|].
  case_bool_decide; simpl; [by rewrite IH|]. rewrite IH.
  pose proof (split_inclusive_concat (s ++ [LF])) as Hc.
  destruct (split_inclusive_lf (s ++ [LF])) as [|w ws]; [by destruct s|done].
Qed.

(** Terminated text does not mix with what follows. *)
Lemma lines_app_lf (s t : str) : lines (s ++ LF :: t) = lines (s ++ [LF]) ++ lines t.
Proof. unfold lines. by rewrite split_inclusive_app_lf, map_app. Qed.

Lemma lines_one (l : str) : plain_line l -> lines (l ++ [LF]) = [l].
Proof.
  intros H. unfold lines. rewrite split_inclusive_line by apply H. simpl.
  by rewrite strip_line_ending_lf.
Qed.

Lemma lf_cases (s : str) : ends_with s [LF] = true \/ split_inclusive_lf (s ++ [LF])
  = removelast (split_inclusive_lf s) ++ [default [] (last (split_inclusive_lf s)) ++ [LF]].
Proof.
  induction s as [|d s IH]; [by right|]. simpl. destruct (decide (d = LF)) as [->|Hd].
  - rewrite !bool_decide_eq_true_2 by done. destruct IH as [IH|IH].
    + left. apply ends_with_true in IH as [t ->]. apply ends_with_true. by exists (LF :: t).
    + destruct s as [|e s]; [by left|]. right. rewrite IH.
      destruct (split_inclusive_lf (e :: s)) as [|w ws] eqn:E; [|done].
      pose proof (split_inclusive_concat (e :: s)) as H. by rewrite E in H.
  - rewrite !bool_decide_eq_false_2 by done. destruct IH as [IH|IH].
    + left. apply ends_with_true in IH as [t ->]. apply ends_with_true. by exists (d :: t).
    + right. rewrite IH. destruct (split_inclusive_lf s) as [|w [|w' ws]]; done.
Qed.

(** Ending the last line with a line feed leaves the lines as they are, unless a
    carriage return gets swallowed. *)
Lemma lines_snoc_lf (s : str) :
  s <> [] -> ends_with s [LF] = false -> ends_with s [CR] = false -> lines (s ++ [LF]) = lines s.
Proof.
  intros Hne Hlf Hcr. destruct (lf_cases s) as [H|H]; [congruence|]. unfold lines. rewrite H.
  pose proof (split_inclusive_concat s) as Hc.
  destruct (snoc_cases (split_inclusive_lf s)) as [E|(ws & w & E)].
  { rewrite E in Hc. by destruct s. }
  rewrite E in *. rewrite removelast_last, last_snoc, !map_app. simpl. do 2 f_equal.
  rewrite concat_app in Hc. simpl in Hc. rewrite app_nil_r in Hc.
  assert (forall c, ends_with s [c] = false -> w <> [] -> forall t, w <> t ++ [c]) as Hend.
  { intros c He _ t ->. rewrite app_assoc in Hc.
    assert (ends_with s [c] = true) as He'; [|congruence].
    apply ends_with_true. by exists (concat ws ++ t). }
  destruct (decide (w = [])) as [->|Hw].
  { destruct (split_inclusive_nonempty s). rewrite E. apply in_app_iff. right. by left. }
  unfold strip_line_ending. rewrite strip_suffix_app.
  rewrite (proj2 (strip_suffix_None [CR] w) (Hend CR Hcr Hw)).
  by rewrite (proj2 (strip_suffix_None [LF] w) (Hend LF Hlf Hw)).
Qed.

(** ** Lower case and pieces *)

Lemma to_ascii_lowercase_idemp s : to_ascii_lowercase (to_ascii_lowercase s) = to_ascii_lowercase s.
Proof.
  unfold to_ascii_lowercase. rewrite map_map. apply map_ext. intros c.
  unfold char_to_ascii_lowercase, is_ascii_upper.
  destruct ((65 <=? c) && (c <=? 90))%N eqn:E; [|by rewrite E].
  apply andb_prop in E as [E1 E2]. apply N.leb_le in E1, E2.
  replace (c + 32 <=? 90)%N with false; [by rewrite andb_false_r|].
  symmetry. apply N.leb_gt. lia.
Qed.

(** Lower case keeps white space and changes nothing else into it. *)
Lemma is_whitespace_lowercase (c : char) : is_whitespace (char_to_ascii_lowercase c) = is_whitespace c.
Proof.
  unfold char_to_ascii_lowercase, is_ascii_upper.
  destruct ((65 <=? c) && (c <=? 90))%N eqn:E; [|done].
  apply andb_prop in E as [E1 E2]. apply N.leb_le in E1, E2.
  assert (forall d, (65 <= d <= 122)%N -> is_whitespace d = false) as H.
  { intros d Hd. unfold is_whitespace.
    repeat match goal with
    | |- context [(?a <=? ?b)%N] => destruct (N.leb_spec a b); try lia
    | |- context [(?a =? ?b)%N] => destruct (N.eqb_spec a b); try lia
    end; reflexivity. }
  rewrite !H; [done|lia..].
Qed.

Lemma to_ascii_lowercase_whitespace s :
  existsb is_whitespace (to_ascii_lowercase s) = existsb is_whitespace s.
Proof. induction s as [|c s IH]; [done|]. simpl. by rewrite IH, is_whitespace_lowercase. Qed.

Lemma lowercase_rev s : to_ascii_lowercase (rev s) = rev (to_ascii_lowercase s).
Proof. apply map_rev. Qed.

Lemma lowercase_app s t : to_ascii_lowercase (s ++ t) = to_ascii_lowercase s ++ to_ascii_lowercase t.
Proof. apply map_app. Qed.

Lemma trim_start_lowercase s : trim_start (to_ascii_lowercase s) = to_ascii_lowercase (trim_start s).
Proof. induction s as [|c s IH]; [done|]. simpl. rewrite is_whitespace_lowercase. by case_if. Qed.

Lemma trim_lowercase s : trim (to_ascii_lowercase s) = to_ascii_lowercase (trim s).
Proof.
  unfold trim, trim_end. by rewrite trim_start_lowercase, <- lowercase_rev, trim_start_lowercase, lowercase_rev.
Qed.

Lemma lowercase_char_special (c d : char) :
  char_to_ascii_lowercase c = d -> (d < 97)%N -> c = d.
Proof.
  unfold char_to_ascii_lowercase, is_ascii_upper.
  destruct ((65 <=? c) && (c <=? 90))%N eqn:E; [|done].
  apply andb_prop in E as [E1 E2]. apply N.leb_le in E1, E2. lia.
Qed.

Lemma not_in_lowercase c s : (c < 97)%N -> ~ In c s -> ~ In c (to_ascii_lowercase s).
Proof.
  intros Hc Hs Hin. apply in_map_iff in Hin as (d & Hd & Hin).
  by apply lowercase_char_special in Hd as ->.
Qed.

(** [c] occurs in [t] only if it occurs in [s]. *)
Definition no_new (t s : str) : Prop := forall c, In c t -> In c s.

Lemma no_new_trim s : no_new (trim s) s.
Proof.
  intros c Hc. unfold trim in Hc.
  destruct (trim_start_suffix s) as (w & Hw & _).
  destruct (trim_end_prefix (trim_start s)) as (w' & Hw' & _).
  rewrite Hw, Hw', !in_app_iff. auto.
Qed.

Lemma trim_start_matches_suffix c s : exists w, s = w ++ trim_start_matches c s.
Proof.
  induction s as [|d s [w IH]]; [by exists []|]. simpl.
  case_bool_decide; [|by exists []]. exists (d :: w). simpl. by f_equal.
Qed.

Lemma no_new_trim_end_matches c s : no_new (trim_end_matches c s) s.
Proof.
  intros d Hd. unfold trim_end_matches in Hd. apply in_rev in Hd.
  destruct (trim_start_matches_suffix c (rev s)) as [w Hw].
  apply in_rev. rewrite Hw, in_app_iff. by right.
Qed.

Lemma split_once_app c s a b : split_once c s = Some (a, b) -> s = a ++ c :: b.
Proof.
  revert a; induction s as [|d s IH]; intros a; simpl; [done|]. case_bool_decide as Hd.
  - intros [= <- <-]. by subst.
  - destruct (split_once c s) as [[a' b']|]; [|done]. intros [= <- <-]. simpl.
    by rewrite (IH a').
Qed.

Lemma split_once_plain c a b : ~ In c a -> split_once c (a ++ c :: b) = Some (a, b).
Proof.
  induction a as [|d a IH]; simpl; intros H; [by rewrite bool_decide_true|].
  rewrite bool_decide_false by (intros ->; apply H; by left). rewrite IH; [done|]. auto.
Qed.

Lemma split_once_free c s a b : split_once c s = Some (a, b) -> ~ In c a.
Proof.
  revert a. induction s as [|d s IH]; intros a; simpl; [done|]. case_bool_decide as E; [by intros [= <- _] []|].
  destruct (split_once c s) as [[a' b']|]; [|done]. intros [= <- <-] [->|Hc]; [done|by eapply IH].
Qed.

Lemma rsplit_once_app c s a b : rsplit_once c s = Some (a, b) -> s = a ++ c :: b.
Proof.
  unfold rsplit_once. destruct (split_once c (rev s)) as [[x y]|] eqn:E; [|done].
  intros [= <- <-]. apply split_once_app in E. rewrite <- (rev_involutive s), E.
  rewrite rev_app_distr. simpl. by rewrite <- app_assoc.
Qed.
