(* ===== verification/Utf8.v ===== *)
(** * UTF-8

    The encoding of strings as bytes, and [std::str::from_utf8] with the error
    it reports: the length of the valid prefix and the length of the invalid
    sequence after it, or nothing when the input only ends too early.  The
    components that read bytes share it. *)

From S2P Require Import Prelude RustStr.

(** ** Encoding *)

Definition encode_char (c : char) : list N :=
  (if c <? 128 then [c]
   else if c <? 2048 then [192 + c / 64; 128 + c mod 64]
   else if c <? 65536 then [224 + c / 4096; 128 + (c / 64) mod 64; 128 + c mod 64]
   else [240 + c / 262144; 128 + (c / 4096) mod 64; 128 + (c / 64) mod 64; 128 + c mod 64])%N.

Definition encode (s : str) : list N := concat (map encode_char s).

(** The Unicode scalar values. *)
Definition scalar (c : char) : Prop := (c < 55296 \/ (57344 <= c /\ c < 1114112))%N.

(** ** Decoding *)

Definition continuation (b : N) : bool := ((128 <=? b) && (b <? 192))%N.

(** The second bytes a three- and a four-byte sequence may have. *)
Definition second_of_three (b0 b1 : N) : bool :=
  (if b0 =? 224 then (160 <=? b1) && (b1 <? 192)
   else if b0 =? 237 then (128 <=? b1) && (b1 <? 160)
   else continuation b1)%N.

Definition second_of_four (b0 b1 : N) : bool :=
  (if b0 =? 240 then (144 <=? b1) && (b1 <? 192)
   else if b0 =? 244 then (128 <=? b1) && (b1 <? 144)
   else continuation b1)%N.

(** How the input ends: well, in an invalid sequence of that many bytes, or in
    the middle of a character. *)
Inductive Ending : Type := Complete | Invalid (error_len : nat) | Incomplete.

#[export] Instance Ending_eq_dec : EqDecision Ending.
Proof. solve_decision. Defined.

Definition push_decoded (c : char) (r : str * Ending) : str * Ending := (c :: fst r, snd r).

Fixpoint decode (l : list N) : str * Ending :=
  match l with
  | [] => ([], Complete)
  | b0 :: l1 =>
      if (b0 <? 128)%N then push_decoded b0 (decode l1)
      else if ((194 <=? b0) && (b0 <? 224))%N then
        match l1 with
        | [] => ([], Incomplete)
        | b1 :: l2 =>
            if continuation b1 then push_decoded ((b0 - 192) * 64 + (b1 - 128))%N (decode l2)
            else ([], Invalid 1)
        end
      else if ((224 <=? b0) && (b0 <? 240))%N then
        match l1 with
        | [] => ([], Incomplete)
        | b1 :: l2 =>
            if second_of_three b0 b1 then
              match l2 with
              | [] => ([], Incomplete)
              | b2 :: l3 =>
                  if continuation b2
                  then push_decoded ((b0 - 224) * 4096 + (b1 - 128) * 64 + (b2 - 128))%N (decode l3)
                  else ([], Invalid 2)
              end
            else ([], Invalid 1)
        end
      else if ((240 <=? b0) && (b0 <? 245))%N then
        match l1 with
        | [] => ([], Incomplete)
        | b1 :: l2 =>
            if second_of_four b0 b1 then
              match l2 with
              | [] => ([], Incomplete)
              | b2 :: l3 =>
                  if continuation b2 then
                    match l3 with
                    | [] => ([], Incomplete)
                    | b3 :: l4 =>
                        if continuation b3
                        then push_decoded ((b0 - 240) * 262144 + (b1 - 128) * 4096
                                           + (b2 - 128) * 64 + (b3 - 128))%N (decode l4)
                        else ([], Invalid 3)
                    end
                  else ([], Invalid 2)
              end
            else ([], Invalid 1)
        end
      else ([], Invalid 1)
  end.

(** [Utf8Error]: [valid_up_to] and [error_len]. *)
Record Utf8Error : Type := mkUtf8Error { valid_up_to : nat; error_len : option nat }.

Definition from_utf8 (l : list N) : result str Utf8Error :=
  match decode l with
  | (s, Complete) => Ok s
  | (s, Invalid n) => Err (mkUtf8Error (byte_len s) (Some n))
  | (s, Incomplete) => Err (mkUtf8Error (byte_len s) None)
  end.

(** ** Round trips *)

Lemma encode_app s t : encode (s ++ t) = encode s ++ encode t.
Proof. unfold encode. by rewrite map_app, concat_app. Qed.

Lemma length_encode s : length (encode s) = byte_len s.
Proof.
  unfold byte_len. induction s as [|c s IH]; [done|]. unfold encode in *. simpl.
  rewrite length_app, IH. f_equal. unfold encode_char, len_utf8.
  by destruct (c <? 128)%N, (c <? 2048)%N, (c <? 65536)%N.
Qed.

(** Decides the comparisons a decoder makes, one conditional after the other. *)
Ltac decide_bytes :=
  unfold second_of_three, second_of_four, continuation;
  repeat match goal with
  | |- context [(?a <? ?b)%N] => destruct (N.ltb_spec a b); try lia
  | |- context [(?a <=? ?b)%N] => destruct (N.leb_spec a b); try lia
  | |- context [(?a =? ?b)%N] => destruct (N.eqb_spec a b); try lia
  end; reflexivity.

Ltac decide_condition b :=
  first [ replace b with true by (symmetry; decide_bytes)
        | replace b with false by (symmetry; decide_bytes) ]; cbv iota.

Ltac run_decoder :=
  repeat match goal with
  | |- (if ?b then _ else _) = _ => decide_condition b
  | |- (if ?b then _ else _) ++ _ = _ => decide_condition b
  end.

Lemma split64 (c : N) : exists q r, (c = 64 * q + r /\ r < 64 /\ c / 64 = q /\ c mod 64 = r)%N.
Proof.
  exists (c / 64)%N, (c mod 64)%N. pose proof (N.Div0.div_mod c 64).
  pose proof (N.mod_lt c 64). lia.
Qed.

Lemma div_4096 (c : N) : (c / 4096 = c / 64 / 64)%N.
Proof. by rewrite N.Div0.div_div. Qed.

Lemma div_262144 (c : N) : (c / 262144 = c / 64 / 64 / 64)%N.
Proof. by rewrite !N.Div0.div_div. Qed.

Lemma decode_encode_char c t :
  scalar c -> decode (encode_char c ++ t) = push_decoded c (decode t).
Proof.
  unfold scalar. intros Hc. unfold encode_char. rewrite div_262144, div_4096.
  destruct (split64 c) as (q1 & r1 & E1 & R1 & -> & ->).
  destruct (split64 q1) as (q2 & r2 & E2 & R2 & -> & ->).
  destruct (split64 q2) as (q3 & r3 & E3 & R3 & -> & ->).
  destruct (N.ltb_spec c 128); [|destruct (N.ltb_spec c 2048);
    [|destruct (N.ltb_spec c 65536)]]; cbn [app decode].
  all: run_decoder; f_equal; lia.
Qed.

Lemma decode_encode_app s t :
  Forall scalar s -> decode (encode s ++ t) = (s ++ fst (decode t), snd (decode t)).
Proof.
  induction 1 as [|c s Hc _ IH]; simpl; [by destruct (decode t)|].
  unfold encode in *. simpl. rewrite <- app_assoc, decode_encode_char, IH by done. done.
Qed.

Lemma from_utf8_encode s : Forall scalar s -> from_utf8 (encode s) = Ok s.
Proof.
  intros H. unfold from_utf8. rewrite <- (app_nil_r (encode s)), decode_encode_app by done.
  simpl. by rewrite app_nil_r.
Qed.

(** Reads the ranges of the bytes off the conditions of the decoder. *)
Ltac byte_ranges :=
  unfold second_of_three, second_of_four, continuation in *;
  repeat match goal with
  | H : context [(?a <? ?b)%N] |- _ => destruct (N.ltb_spec a b); try discriminate H
  | H : context [(?a <=? ?b)%N] |- _ => destruct (N.leb_spec a b); try discriminate H
  | H : context [(?a =? ?b)%N] |- _ => destruct (N.eqb_spec a b); try discriminate H
  end.

(** Rebuilds the bytes of the character they encode. *)
Ltac encode_back c :=
  let q1 := fresh "q" in let q2 := fresh "q" in let q3 := fresh "q" in
  let r1 := fresh "r" in let r2 := fresh "r" in let r3 := fresh "r" in
  unfold encode_char; rewrite div_262144, div_4096;
  destruct (split64 c) as (q1 & r1 & ? & ? & -> & ->);
  destruct (split64 q1) as (q2 & r2 & ? & ? & -> & ->);
  destruct (split64 q2) as (q3 & r3 & ? & ? & -> & ->);
  run_decoder; simpl; repeat (f_equal; try lia).

(** One step of the decoder: a character, or the end. *)
Inductive decoder_step (l : list N) : Prop :=
| step_char c r : scalar c -> l = encode_char c ++ r -> decode l = push_decoded c (decode r) ->
    decoder_step l
| step_complete : l = [] -> decoder_step l
| step_incomplete : l <> [] -> length l <= 3 -> decode l = ([], Incomplete) -> decoder_step l
| step_invalid n : 1 <= n -> (forall m, decode (l ++ m) = ([], Invalid n)) -> decoder_step l.

Lemma decoder_steps l : decoder_step l.
Proof.
  destruct l as [|b0 l1]; [by apply step_complete|].
  destruct (b0 <? 128)%N eqn:H1.
  { apply (step_char _ b0 l1); [|unfold encode_char; by rewrite H1|simpl; by rewrite H1].
    apply N.ltb_lt in H1. unfold scalar. lia. }
  destruct ((194 <=? b0) && (b0 <? 224))%N eqn:H2.
  { destruct l1 as [|b1 l2].
    { apply step_incomplete; simpl; [done|lia|by rewrite H1, H2]. }
    destruct (continuation b1) eqn:C1.
    - apply (step_char _ ((b0 - 192) * 64 + (b1 - 128))%N l2);
        [|symmetry|simpl; by rewrite H1, H2, C1].
      + byte_ranges; unfold scalar; lia.
      + byte_ranges; encode_back ((b0 - 192) * 64 + (b1 - 128))%N.
    - apply (step_invalid _ 1); [lia|]. intros m. simpl. by rewrite H1, H2, C1. }
  destruct ((224 <=? b0) && (b0 <? 240))%N eqn:H3.
  { destruct l1 as [|b1 l2].
    { apply step_incomplete; simpl; [done|lia|by rewrite H1, H2, H3]. }
    destruct (second_of_three b0 b1) eqn:C1;
      [|apply (step_invalid _ 1); [lia|]; intros m; simpl; by rewrite H1, H2, H3, C1].
    destruct l2 as [|b2 l3].
    { apply step_incomplete; simpl; [done|lia|by rewrite H1, H2, H3, C1]. }
    destruct (continuation b2) eqn:C2;
      [|apply (step_invalid _ 2); [lia|]; intros m; simpl; by rewrite H1, H2, H3, C1, C2].
    apply (step_char _ ((b0 - 224) * 4096 + (b1 - 128) * 64 + (b2 - 128))%N l3);
      [|symmetry|simpl; by rewrite H1, H2, H3, C1, C2].
    - byte_ranges; unfold scalar; lia.
    - byte_ranges; encode_back ((b0 - 224) * 4096 + (b1 - 128) * 64 + (b2 - 128))%N. }
  destruct ((240 <=? b0) && (b0 <? 245))%N eqn:H4;
    [|apply (step_invalid _ 1); [lia|]; intros m; simpl; by rewrite H1, H2, H3, H4].
  destruct l1 as [|b1 l2].
  { apply step_incomplete; simpl; [done|lia|by rewrite H1, H2, H3, H4]. }
  destruct (second_of_four b0 b1) eqn:C1;
    [|apply (step_invalid _ 1); [lia|]; intros m; simpl; by rewrite H1, H2, H3, H4, C1].
  destruct l2 as [|b2 l3].
  { apply step_incomplete; simpl; [done|lia|by rewrite H1, H2, H3, H4, C1]. }
  destruct (continuation b2) eqn:C2;
    [|apply (step_invalid _ 2); [lia|]; intros m; simpl; by rewrite H1, H2, H3, H4, C1, C2].
  destruct l3 as [|b3 l4].
  { apply step_incomplete; simpl; [done|lia|by rewrite H1, H2, H3, H4, C1, C2]. }
  destruct (continuation b3) eqn:C3;
    [|apply (step_invalid _ 3); [lia|]; intros m; simpl; by rewrite H1, H2, H3, H4, C1, C2, C3].
  apply (step_char _ ((b0 - 240) * 262144 + (b1 - 128) * 4096 + (b2 - 128) * 64 + (b3 - 128))%N l4);
    [|symmetry|simpl; by rewrite H1, H2, H3, H4, C1, C2, C3].
  - byte_ranges; unfold scalar; lia.
  - byte_ranges;
      encode_back ((b0 - 240) * 262144 + (b1 - 128) * 4096 + (b2 - 128) * 64 + (b3 - 128))%N.
Qed.

(** What the decoder says of its input: a valid prefix, its encoding, and a rest
    that is empty, too short, or invalid whatever follows. *)
Lemma decode_sound l :
  exists rest, l = encode (fst (decode l)) ++ rest /\ Forall scalar (fst (decode l))
    /\ match snd (decode l) with
       | Complete => rest = []
       | Incomplete => rest <> [] /\ length rest <= 3 /\ decode rest = ([], Incomplete)
       | Invalid n => forall m, decode (rest ++ m) = ([], Invalid n)
       end.
Proof.
  induction l as [l IH] using (induction_ltof1 _ (@length N)). unfold ltof in IH.
  destruct (decoder_steps l) as [c r Hc Hl Hd|Hl|Hne Hlen Hd|n Hn Hd].
  - destruct (IH r) as (rest & Hr & Hs & He).
    { rewrite Hl, length_app. assert (encode_char c <> []) as H.
      { unfold encode_char. by destruct (c <? 128)%N, (c <? 2048)%N, (c <? 65536)%N. }
      destruct (encode_char c); [done|simpl; lia]. }
    exists rest. rewrite Hd. simpl. split; [|by split; [constructor|]].
    unfold encode in *. simpl. by rewrite <- app_assoc, <- Hr.
  - subst l. by exists [].
  - exists l. rewrite Hd. simpl. by repeat split.
  - exists l. specialize (Hd []) as Hd0. rewrite app_nil_r in Hd0. rewrite Hd0. simpl.
    by repeat split.
Qed.

Lemma decode_app l m :
  decode (l ++ m) = match snd (decode l) with
                    | Invalid n => decode l
                    | _ => let r := decode (drop (byte_len (fst (decode l))) l ++ m) in
                           (fst (decode l) ++ fst r, snd r)
                    end.
Proof.
  destruct (decode_sound l) as (rest & Hl & Hs & He).
  destruct (decode l) as [s e] eqn:E. simpl in *. subst l.
  rewrite <- length_encode, drop_app_length, <- app_assoc, decode_encode_app by done.
  destruct e; try done. rewrite He. simpl. by rewrite app_nil_r.
Qed.

Lemma from_utf8_Ok l s : from_utf8 l = Ok s -> l = encode s /\ Forall scalar s.
Proof.
  unfold from_utf8. destruct (decode_sound l) as (rest & Hl & Hs & He).
  destruct (decode l) as [t e]. simpl in *. destruct e; try done. intros [= <-].
  subst rest. by rewrite app_nil_r in Hl.
Qed.
