(* ===== verification/PatchTypes.v ===== *)
(** * Data of the apply-patch crate

    The types of apply-patch/src/parser.rs, lib.rs and text_file.rs that the
    other patch files share, and the error types they raise, with the [Display]
    text the program shows for them.  A [PathBuf] is the text of the path. *)

From S2P Require Import Prelude RustStr.

(** ** Patch data (parser.rs) *)

Inductive ParseError : Type :=
| InvalidPatchError (message : str)
| InvalidHunkError (message : str) (line_number : nat).

Record UpdateFileChunk : Type := mkChunk {
  change_context : option str;
  old_lines : list str;
  new_lines : list str;
  context_line_indices : list (nat * nat);
  is_end_of_file : bool;
}.

(** [UpdateFileChunk::default()]. *)
Definition default_chunk : UpdateFileChunk := mkChunk None [] [] [] false.

(** [UpdateFileChunk::push_context_line]. *)
Definition push_context_line (line : str) (c : UpdateFileChunk) : UpdateFileChunk :=
  {| change_context := change_context c;
     old_lines := old_lines c ++ [line];
     new_lines := new_lines c ++ [line];
     context_line_indices :=
       context_line_indices c ++ [(length (old_lines c), length (new_lines c))];
     is_end_of_file := is_end_of_file c |}.

Inductive Hunk : Type :=
| AddFile (path : str) (contents : str)
| DeleteFile (path : str)
| UpdateFile (path : str) (move_path : option str) (chunks : list UpdateFileChunk).

(** [Hunk::path]: the move destination for a rename. *)
Definition hunk_path (h : Hunk) : str :=
  match h with
  | AddFile path _ => path
  | DeleteFile path => path
  | UpdateFile _ (Some path) _ => path
  | UpdateFile path None _ => path
  end.

#[export] Instance ParseError_eq_dec : EqDecision ParseError.
Proof. solve_decision. Defined.
#[export] Instance UpdateFileChunk_eq_dec : EqDecision UpdateFileChunk.
Proof. solve_decision. Defined.
#[export] Instance Hunk_eq_dec : EqDecision Hunk.
Proof. solve_decision. Defined.

(** ** Options (lib.rs) *)

Inductive ApplyPatchFileUpdateMode : Type := NormalizeToLf | PreserveLineEndings.

(** [Default for ApplyPatchFileUpdateMode]. *)
Definition default_update_file_mode : ApplyPatchFileUpdateMode := NormalizeToLf.

Record ApplyPatchOptions : Type := mkOptions {
  update_file_mode : ApplyPatchFileUpdateMode;
  follow_symlinks : bool;
}.

Definition default_options : ApplyPatchOptions :=
  {| update_file_mode := default_update_file_mode; follow_symlinks := true |}.

(** ** Errors *)

(** [std::io::Error]: its kind and its message. *)
Inductive ErrorKind : Type :=
| KNotFound | KInvalidInput | KInvalidData | KPermissionDenied | KAlreadyExists | KOther.

#[export] Instance ErrorKind_eq_dec : EqDecision ErrorKind.
Proof. solve_decision. Defined.

Record io_error : Type := mkIo { io_kind : ErrorKind; io_msg : str }.

(** [IoError] of lib.rs. *)
Record IoError : Type := mkIoError { context : str; source : io_error }.

(** utils/path-uri/src/lib.rs; the [url::ParseError] is its message. *)
Inductive PathUriParseError : Type :=
| InvalidUri (message : str)
| UnsupportedScheme (scheme : str)
| InvalidFileUriPath (path : str)
| CredentialsNotAllowed
| PortNotAllowed
| QueryNotAllowed
| FragmentNotAllowed
| JoinPathMustBeDescendant (path : str).

Inductive ApplyPatchError : Type :=
| EParse (e : ParseError)
| EIo (e : IoError)
| EComputeReplacements (message : str)
| EPathUri (e : PathUriParseError)
| EImplicitInvocation.

(** The [#[error(..)]] texts of [ParseError], [IoError] and [ApplyPatchError].
    The text of a [PathUriParseError] names the operating system, so it is an
    argument. *)
Definition show_parse_error (e : ParseError) : str :=
  match e with
  | InvalidPatchError m => $"invalid patch: " ++ m
  | InvalidHunkError m n => $"invalid hunk at line " ++ show_nat n ++ $", " ++ m
  end.

Definition show_io_error (e : IoError) : str :=
  context e ++ $": " ++ io_msg (source e).

Definition implicit_invocation_text : str :=
  $"patch detected without explicit call to apply_patch. Rerun as [" ++ [DQUOTE]
  ++ $"apply_patch" ++ [DQUOTE] ++ $", " ++ [DQUOTE] ++ $"<patch>" ++ [DQUOTE] ++ $"]".

Definition show_error (show_uri : PathUriParseError -> str) (e : ApplyPatchError) : str :=
  match e with
  | EParse e => show_parse_error e
  | EIo e => show_io_error e
  | EComputeReplacements m => m
  | EPathUri e => show_uri e
  | EImplicitInvocation => implicit_invocation_text
  end.

(** ** Well-formed chunks

    The context pairs point at equal lines of both sides and increase strictly,
    as [push_context_line] records them. *)

Fixpoint context_ok (old new : list str) (i j : nat) (l : list (nat * nat)) : Prop :=
  match l with
  | [] => True
  | (a, b) :: l' =>
      i <= a /\ j <= b /\ (exists t, old !! a = Some t /\ new !! b = Some t)
      /\ context_ok old new (S a) (S b) l'
  end.

Definition wf_chunk (c : UpdateFileChunk) : Prop :=
  context_ok (old_lines c) (new_lines c) 0 0 (context_line_indices c).

Definition wf_hunk (h : Hunk) : Prop :=
  match h with UpdateFile _ _ chunks => Forall wf_chunk chunks | _ => True end.

Lemma context_ok_app_lines old new old' new' l : forall i j,
  context_ok old new i j l -> context_ok (old ++ old') (new ++ new') i j l.
Proof.
  induction l as [|[a b] l IH]; simpl; [done|].
  intros i j (? & ? & (t & Ho & Hn) & ?). repeat split; try done; [|by apply IH].
  exists t. by rewrite (lookup_app_l_Some _ _ _ _ Ho), (lookup_app_l_Some _ _ _ _ Hn).
Qed.

Lemma context_ok_snoc old new l a b t : forall i j,
  context_ok old new i j l -> length old = a -> length new = b -> i <= a -> j <= b ->
  context_ok (old ++ [t]) (new ++ [t]) i j (l ++ [(a, b)]).
Proof.
  induction l as [|[a' b'] l IH]; simpl; intros i j Hok <- <- Hi Hj.
  - repeat split; try done. exists t. by rewrite !list_lookup_middle.
  - destruct Hok as (? & ? & (u & Ho & Hn) & Hok).
    apply lookup_lt_Some in Ho as Hoa. apply lookup_lt_Some in Hn as Hnb.
    repeat split; try done; [|by apply IH].
    exists u. by rewrite (lookup_app_l_Some _ _ _ _ Ho), (lookup_app_l_Some _ _ _ _ Hn).
Qed.

Lemma wf_default_chunk : wf_chunk default_chunk.
Proof. done. Qed.

Lemma wf_push_context_line line c : wf_chunk c -> wf_chunk (push_context_line line c).
Proof. intros H. apply context_ok_snoc; [done|done|done|lia|lia]. Qed.

Lemma wf_chunk_grow c old' new' eof :
  wf_chunk c ->
  wf_chunk {| change_context := change_context c; old_lines := old_lines c ++ old';
              new_lines := new_lines c ++ new';
              context_line_indices := context_line_indices c; is_end_of_file := eof |}.
Proof. intros H. by apply context_ok_app_lines. Qed.

#[export] Hint Resolve wf_default_chunk wf_push_context_line wf_chunk_grow : codex.
