(* ===== verification/SeekSequence.v ===== *)
(** * Locating patch lines in a file

    apply-patch/src/seek_sequence.rs: [seek_sequence] looks for a block of
    lines with four comparisons of decreasing strictness. *)

From S2P Require Import Prelude RustStr PatchTypes.

Module SeekSequence.

(** The character table of [normalise]. *)
Definition normalise_char (c : char) : char :=
  if ((8208 <=? c) && (c <=? 8213) || (c =? 8722))%N then 45%N
  else if ((8216 <=? c) && (c <=? 8219))%N then 39%N
  else if ((8220 <=? c) && (c <=? 8223))%N then 34%N
  else if ((c =? 160) || ((8194 <=? c) && (c <=? 8202)) || (c =? 8239) || (c =? 8287)
           || (c =? 12288))%N then 32%N
  else c.

Definition normalise (s : str) : str := map normalise_char (trim s).

(** [for i in start..=hi { if ok(i) { return Some(i) } }], [count] iterations
    from [i]. *)
Fixpoint first_in_range (ok : nat -> bool) (i count : nat) : option nat :=
  match count with
  | O => None
  | S count' => if ok i then Some i else first_in_range ok (S i) count'
  end.

(** [lines[i..i + pattern.len()] == *pattern]. *)
Definition exact_at (lines pattern : list str) (i : nat) : bool :=
  bool_decide (take (length pattern) (drop i lines) = pattern).

(** The inner loop of the three lenient passes, which compares the images of
    the lines under [f] and stops at the first difference.  An index past the
    end would panic; [window_in_range] below shows no call reaches one. *)
Fixpoint window_matches (f : str -> str) (lines pattern : list str) (i : nat) : bool :=
  match pattern with
  | [] => true
  | pat :: rest =>
      match lines !! i with
      | Some l => bool_decide (f l = f pat) && window_matches f lines rest (S i)
      | None => false
      end
  end.

Definition search_start (lines pattern : list str) (start : nat) (eof : bool)
    (mode : ApplyPatchFileUpdateMode) : nat :=
  if eof && (length pattern <=? length lines) then
    let eof_start := length lines - length pattern in
    match mode with
    | NormalizeToLf => eof_start
    | PreserveLineEndings => Nat.max eof_start start
    end
  else start.

Definition seek_sequence (lines pattern : list str) (start : nat) (eof : bool)
    (mode : ApplyPatchFileUpdateMode) : option nat :=
  if is_empty pattern then Some start
  else if length lines <? length pattern then None
  else
    let from := search_start lines pattern start eof mode in
    let count := S (length lines - length pattern) - from in
    match first_in_range (exact_at lines pattern) from count with
    | Some i => Some i
    | None =>
    match first_in_range (window_matches trim_end lines pattern) from count with
    | Some i => Some i
    | None =>
    match first_in_range (window_matches trim lines pattern) from count with
    | Some i => Some i
    | None => first_in_range (window_matches normalise lines pattern) from count
    end end end.

(** ** Specification

    [window_at f lines pattern i]: from position [i] on, the lines of the file
    and of the pattern have the same image under [f]. *)

Definition window_at (f : str -> str) (lines pattern : list str) (i : nat) : Prop :=
  map f (take (length pattern) (drop i lines)) = map f pattern.

(** The comparisons in the order of the passes. *)
Definition passes : list (str -> str) := [id; trim_end; trim; normalise].

Lemma exact_at_spec lines pattern i :
  exact_at lines pattern i = true <-> window_at id lines pattern i.
Proof. unfold exact_at, window_at. by rewrite bool_decide_eq_true, !map_id. Qed.

Lemma window_matches_spec f lines pattern i :
  window_matches f lines pattern i = true <-> window_at f lines pattern i.
Proof.
  unfold window_at. revert i; induction pattern as [|pat rest IH]; intros i; simpl; [done|].
  destruct (lines !! i) as [l|] eqn:E.
  - rewrite (drop_S _ _ _ E). simpl. rewrite andb_true_iff, bool_decide_eq_true, IH.
    split; [intros [-> ->]; done | intros H; by injection H].
  - rewrite drop_ge by (by apply lookup_ge_None). done.
Qed.

(** A pattern that matches lies inside the file: no comparison of a matching
    window reads past the end. *)
Lemma window_in_range f lines pattern i :
  pattern <> [] -> window_at f lines pattern i -> i + length pattern <= length lines.
Proof.
  unfold window_at. intros Hne H. apply (f_equal length) in H.
  rewrite !length_map, length_take, length_drop in H.
  assert (length pattern <> 0) by by destruct pattern.
  lia.
Qed.

Lemma first_in_range_Some ok i n j :
  first_in_range ok i n = Some j ->
  i <= j < i + n /\ ok j = true /\ (forall k, i <= k < j -> ok k = false).
Proof.
  revert i; induction n as [|n IH]; intros i; simpl; [done|].
  destruct (ok i) eqn:E.
  - intros H. injection H as <-. split; [lia|]. split; [done|]. intros k ?. lia.
  - intros H. apply IH in H as (? & ? & Hk). split; [lia|]. split; [done|].
    intros k Hk'. destruct (decide (k = i)) as [->|]; [done|]. apply Hk. lia.
Qed.

Lemma first_in_range_None ok i n :
  first_in_range ok i n = None -> forall k, i <= k < i + n -> ok k = false.
Proof.
  revert i; induction n as [|n IH]; intros i; simpl; [lia|].
  destruct (ok i) eqn:E; [done|]. intros H k Hk.
  destruct (decide (k = i)) as [->|]; [done|]. apply (IH (S i)); [done|lia].
Qed.

(** One pass, in terms of [window_at]: the loop covers every position at which
    the pattern can match. *)
Lemma pass_spec f ok lines pattern from :
  pattern <> [] ->
  (forall i, ok i = true <-> window_at f lines pattern i) ->
  match first_in_range ok from (S (length lines - length pattern) - from) with
  | Some i => from <= i /\ window_at f lines pattern i
              /\ (forall j, from <= j < i -> ~ window_at f lines pattern j)
  | None => forall j, from <= j -> ~ window_at f lines pattern j
  end.
Proof.
  intros Hne Hok. destruct (first_in_range _ _ _) as [i|] eqn:E.
  - apply first_in_range_Some in E as (? & Hi & Hlt). split; [lia|]. split; [by apply Hok|].
    intros j Hj Hw. apply Hok in Hw. by rewrite Hlt in Hw.
  - intros j Hj Hw. pose proof (window_in_range _ _ _ _ Hne Hw).
    apply Hok in Hw. rewrite (first_in_range_None _ _ _ E) in Hw; [done|lia].
Qed.

(** What a result [Some i] means: pass number [k] matches at [i], nowhere
    before [i], and no stricter pass matches at all. *)
Definition best_match (lines pattern : list str) (from i k : nat) : Prop :=
  exists f, passes !! k = Some f /\ from <= i /\ window_at f lines pattern i
  /\ (forall j, from <= j < i -> ~ window_at f lines pattern j)
  /\ (forall k' g j, k' < k -> passes !! k' = Some g -> from <= j ->
        ~ window_at g lines pattern j).

Lemma best_match_intro lines pattern from i k f fs :
  passes !! k = Some f -> take k passes = fs ->
  from <= i /\ window_at f lines pattern i
  /\ (forall j, from <= j < i -> ~ window_at f lines pattern j) ->
  Forall (fun h => forall j, from <= j -> ~ window_at h lines pattern j) fs ->
  best_match lines pattern from i k.
Proof.
  intros Hk <- (? & ? & ?) HF. exists f. do 4 (split; [done|]).
  intros k' g j Hlt Hk'. rewrite Forall_lookup in HF.
  eapply (HF k'). by rewrite lookup_take_lt.
Qed.

Ltac best_pass k :=
  exists k; eapply best_match_intro;
  [done|done|eassumption|repeat constructor; assumption].

Lemma seek_cases lines pattern start eof mode :
  pattern <> [] -> length pattern <= length lines ->
  match seek_sequence lines pattern start eof mode with
  | Some i => exists k, best_match lines pattern
                          (search_start lines pattern start eof mode) i k
  | None => forall f j, In f passes -> search_start lines pattern start eof mode <= j ->
              ~ window_at f lines pattern j
  end.
Proof.
  intros Hne Hlen. unfold seek_sequence.
  rewrite (proj2 (is_empty_false pattern) Hne).
  rewrite (proj2 (Nat.ltb_ge _ _) Hlen).
  set (from := search_start _ _ _ _ _).
  pose proof (pass_spec id _ lines pattern from Hne (exact_at_spec lines pattern)) as H0.
  pose proof (fun f => pass_spec f _ lines pattern from Hne
                (window_matches_spec f lines pattern)) as Hp.
  pose proof (Hp trim_end) as H1. pose proof (Hp trim) as H2.
  pose proof (Hp normalise) as H3. clear Hp.
  destruct (first_in_range (exact_at _ _) _ _); [by best_pass 0|].
  destruct (first_in_range (window_matches trim_end _ _) _ _); [by best_pass 1|].
  destruct (first_in_range (window_matches trim _ _) _ _); [by best_pass 2|].
  destruct (first_in_range (window_matches normalise _ _) _ _); [by best_pass 3|].
  intros f j [<-|[<-|[<-|[<-|[]]]]] Hj; eauto.
Qed.

(** ** Bounds the callers rely on *)

Lemma seek_empty lines start eof mode :
  seek_sequence lines [] start eof mode = Some start.
Proof. done. Qed.

Lemma seek_too_long lines pattern start eof mode :
  length lines < length pattern -> seek_sequence lines pattern start eof mode = None.
Proof.
  intros H. unfold seek_sequence. destruct pattern; [simpl in H; lia|].
  by rewrite (proj2 (Nat.ltb_lt _ _) H).
Qed.

Lemma seek_bounds lines pattern start eof mode i :
  pattern <> [] -> seek_sequence lines pattern start eof mode = Some i ->
  search_start lines pattern start eof mode <= i /\ i + length pattern <= length lines.
Proof.
  intros Hne H. destruct (decide (length lines < length pattern)) as [|Hlen].
  { by rewrite seek_too_long in H. }
  pose proof (seek_cases lines pattern start eof mode Hne ltac:(lia)) as Hc.
  rewrite H in Hc. destruct Hc as (k & f & _ & Hge & Hw & _).
  split; [done|]. by eapply window_in_range.
Qed.

(** Preserving line endings, or without the end-of-file mark, a match never
    lies before the requested position. *)
Lemma seek_ge_start lines pattern start eof mode i :
  mode = PreserveLineEndings \/ eof = false ->
  seek_sequence lines pattern start eof mode = Some i -> start <= i.
Proof.
  intros Hm H. destruct (decide (pattern = [])) as [->|Hne].
  { rewrite seek_empty in H. by injection H as ->. }
  apply seek_bounds in H as [Hge _]; [|done]. unfold search_start in Hge.
  destruct Hm as [-> | ->]; simpl in Hge; [|done].
  destruct (eof && _); simpl in Hge; lia.
Qed.

(** ** Properties *)

(** [seek_sequence] returns the first position, at or after the search
    start, at which the pattern matches under the strictest comparison that
    matches anywhere (equality, then ignoring trailing white space, then
    ignoring white space on both sides, then with typographic punctuation
    normalised), the whole block of lines lies inside the file, and [None]
    means that no comparison matches at any such position. *)
Theorem seek_sequence_spec (lines pattern : list str) (start : nat) (eof : bool)
    (mode : ApplyPatchFileUpdateMode) :
  pattern <> [] ->
  match seek_sequence lines pattern start eof mode with
  | Some i => i + length pattern <= length lines
      /\ exists k, best_match lines pattern (search_start lines pattern start eof mode) i k
  | None => forall f j, In f passes -> search_start lines pattern start eof mode <= j ->
      ~ window_at f lines pattern j
  end.
Proof.
  intros Hne. destruct (decide (length lines < length pattern)) as [Hlt|Hle].
  - rewrite seek_too_long by done. intros f j _ _ Hw.
    pose proof (window_in_range _ _ _ _ Hne Hw). lia.
  - pose proof (seek_cases lines pattern start eof mode Hne ltac:(lia)) as Hc.
    destruct (seek_sequence _ _ _ _ _) eqn:E; [|done].
    split; [|done]. by apply seek_bounds in E as [_ ?].
Qed.

Lemma seek_sequence_spec_witness :
  [$"bar"] <> [] /\
  match seek_sequence [$"foo"; $"bar  "; $"bar"] [$"bar"] 0 false NormalizeToLf with
  | Some i => i + length [$"bar"] <= length [$"foo"; $"bar  "; $"bar"]
      /\ exists k, best_match [$"foo"; $"bar  "; $"bar"] [$"bar"]
           (search_start [$"foo"; $"bar  "; $"bar"] [$"bar"] 0 false NormalizeToLf) i k
  | None => forall f j, In f passes ->
      search_start [$"foo"; $"bar  "; $"bar"] [$"bar"] 0 false NormalizeToLf <= j ->
      ~ window_at f [$"foo"; $"bar  "; $"bar"] [$"bar"] j
  end.
Proof. split; [discriminate|]. apply seek_sequence_spec. discriminate. Defined.

(** with the end-of-file mark a match is always the last block of the file:
    there is no second search from [start] when the end does not match,
    whatever the update mode. *)
Theorem seek_sequence_eof_only_at_end (lines pattern : list str) (start i : nat)
    (mode : ApplyPatchFileUpdateMode) :
  pattern <> [] -> seek_sequence lines pattern start true mode = Some i ->
  i + length pattern = length lines.
Proof.
  intros Hne H. apply seek_bounds in H as [Hge Hle]; [|done].
  unfold search_start in Hge. rewrite (proj2 (Nat.leb_le _ _)) in Hge by lia.
  destruct mode; simpl in Hge; lia.
Qed.

Lemma seek_sequence_eof_only_at_end_witness :
  [$"a"] <> [] /\
  seek_sequence [$"a"; $"b"; $"a"] [$"a"] 0 true NormalizeToLf = Some 2 /\
  2 + length [$"a"] = length [$"a"; $"b"; $"a"] /\
  seek_sequence [$"a"; $"b"] [$"a"] 0 true NormalizeToLf = None.
Proof.
  split; [discriminate|]. split; [vm_compute; reflexivity|].
  split; [|vm_compute; reflexivity].
  apply (seek_sequence_eof_only_at_end [$"a"; $"b"; $"a"] [$"a"] 0 2 NormalizeToLf);
    [discriminate | vm_compute; reflexivity].
Defined.

End SeekSequence.
