(* ===== verification/TextFile.v ===== *)
(** * Files as lines with their endings

    apply-patch/src/text_file.rs: [SourceFile] splits a text into lines that
    remember how they ended, replaces ranges of lines and writes the text
    back. *)

From S2P Require Import Prelude RustStr.

(** [(start_idx, old_len, new_lines)]. *)
Definition Replacement : Type := nat * nat * list str.

(** ** Replacing ranges of lines, abstractly

    [ordered len k reps]: the replacements are sorted, do not overlap, start at
    or after [k] and stay inside a file of [len] lines.  [splice] is what such a
    list means. *)

Fixpoint ordered (len k : nat) (reps : list Replacement) : Prop :=
  match reps with
  | [] => True
  | (s, n, _) :: r => k <= s /\ s + n <= len /\ ordered len (s + n) r
  end.

Fixpoint splice {A} (new : str -> A) (k : nat) (rest : list A) (reps : list Replacement)
  : list A :=
  match reps with
  | [] => rest
  | (s, n, seg) :: r =>
      take (s - k) rest ++ map new seg ++ splice new (s + n) (drop (s - k + n) rest) r
  end.

Lemma splice_map {A B} (f : A -> B) new k rest reps :
  map f (splice new k rest reps) = splice (fun t => f (new t)) k (map f rest) reps.
Proof.
  revert k rest; induction reps as [|[[s n] seg] r IH]; intros k rest; simpl; [done|].
  rewrite !map_app, map_map, IH, !firstn_map, !skipn_map. done.
Qed.

Module TextFile.

Inductive LineEnding : Type := Lf | CrLf | Cr.

(** [LineEnding::as_str]. *)
Definition as_str (e : LineEnding) : str :=
  match e with Lf => [LF] | CrLf => [CR; LF] | Cr => [CR] end.

Record SourceLine : Type := mkLine { text : str; ending : option LineEnding }.

Record SourceFile : Type := mkSource {
  src_lines : list SourceLine;
  preferred_ending : LineEnding;
}.

#[export] Instance LineEnding_eq_dec : EqDecision LineEnding.
Proof. solve_decision. Defined.
#[export] Instance SourceLine_eq_dec : EqDecision SourceLine.
Proof. solve_decision. Defined.
#[export] Instance SourceFile_eq_dec : EqDecision SourceFile.
Proof. solve_decision. Defined.

(** [Option::get_or_insert]. *)
Definition get_or_insert {A} (o : option A) (a : A) : option A :=
  match o with Some x => Some x | None => Some a end.

(** The loop of [SourceFile::parse].  [rest] is [contents[cursor..]], [cur] is
    [contents[line_start..cursor]]; the tests look at ASCII bytes only, which
    never occur inside a multi-byte character. *)
Fixpoint parse_loop (rest cur : str) (lines : list SourceLine)
    (preferred : option LineEnding) : list SourceLine * option LineEnding * str :=
  match rest with
  | [] => (lines, preferred, cur)
  | c :: rest1 =>
      if bool_decide (c = CR) then
        match rest1 with
        | d :: rest2 =>
            if bool_decide (d = LF) then
              parse_loop rest2 [] (lines ++ [mkLine cur (Some CrLf)])
                (get_or_insert preferred CrLf)
            else parse_loop rest1 [] (lines ++ [mkLine cur (Some Cr)])
                   (get_or_insert preferred Cr)
        | [] => parse_loop rest1 [] (lines ++ [mkLine cur (Some Cr)])
                  (get_or_insert preferred Cr)
        end
      else if bool_decide (c = LF) then
        parse_loop rest1 [] (lines ++ [mkLine cur (Some Lf)]) (get_or_insert preferred Lf)
      else parse_loop rest1 (cur ++ [c]) lines preferred
  end.

(** [SourceFile::parse]. *)
Definition parse (contents : str) : SourceFile :=
  let '(lines, preferred, cur) := parse_loop contents [] [] None in
  {| src_lines := if is_empty cur then lines else lines ++ [mkLine cur None];
     preferred_ending := default Lf preferred |}.

(** [SourceFile::line_texts]. *)
Definition line_texts (f : SourceFile) : list str := map text (src_lines f).

(** The loop of [apply_replacements] over the iterator [source_lines];
    [None] is the overflow of [*start_idx - source_index], which the code
    guards with a [debug_assert]. *)
Fixpoint replace_loop (preferred : LineEnding) (source : list SourceLine)
    (source_index : nat) (out : list SourceLine) (reps : list Replacement)
  : option (list SourceLine) :=
  match reps with
  | [] => Some (out ++ source)
  | (start_idx, old_len, seg) :: reps' =>
      if start_idx <? source_index then None
      else
        let kept := start_idx - source_index in
        replace_loop preferred (drop old_len (drop kept source)) (start_idx + old_len)
          (out ++ take kept source ++ map (fun t => mkLine t (Some preferred)) seg) reps'
  end.

Definition fill_ending (preferred : LineEnding) (l : SourceLine) : SourceLine :=
  {| text := text l; ending := get_or_insert (ending l) preferred |}.

(** [SourceFile::apply_replacements]. *)
Definition apply_replacements (f : SourceFile) (reps : list Replacement)
  : option SourceFile :=
  match replace_loop (preferred_ending f) (src_lines f) 0 [] reps with
  | None => None
  | Some lines => Some {| src_lines := map (fill_ending (preferred_ending f)) lines;
                          preferred_ending := preferred_ending f |}
  end.

Definition render_line (l : SourceLine) : str :=
  text l ++ match ending l with Some e => as_str e | None => [] end.

(** [SourceFile::into_contents]. *)
Definition into_contents (f : SourceFile) : str := concat (map render_line (src_lines f)).

(** ** Parsing *)

Definition no_eol (t : str) : Prop := ~ In LF t /\ ~ In CR t.

Lemma no_eol_snoc t c : no_eol t -> c <> CR -> c <> LF -> no_eol (t ++ [c]).
Proof.
  intros [Hl Hr] ? ?. split; intros Hin%in_app_iff; destruct Hin as [|[|[]]];
    congruence || done.
Qed.

Lemma no_eol_nil : no_eol [].
Proof. split; intros []. Qed.

Lemma parse_loop_plain c rest cur ls pref :
  c <> CR -> c <> LF ->
  parse_loop (c :: rest) cur ls pref = parse_loop rest (cur ++ [c]) ls pref.
Proof. intros. simpl. by rewrite !bool_decide_eq_false_2. Qed.

(** The ending that starts a text is [e], read as [parse] reads it. *)
Definition ends_here (e : LineEnding) (rest : str) : Prop :=
  e = Cr -> head rest <> Some LF.

Lemma parse_loop_ending e rest cur ls pref :
  ends_here e rest ->
  parse_loop (as_str e ++ rest) cur ls pref
  = parse_loop rest [] (ls ++ [mkLine cur (Some e)]) (get_or_insert pref e).
Proof.
  intros He. destruct e; [done|done|]. specialize (He eq_refl). cbn [as_str app].
  destruct rest as [|d rest]; [done|]. cbn [parse_loop].
  rewrite (bool_decide_eq_true_2 (CR = CR)) by done.
  rewrite (bool_decide_eq_false_2 (d = LF)) by (simpl in He; congruence). done.
Qed.

(** Induction along the steps of the loop. *)
Lemma parse_loop_ind (P : str -> str -> list SourceLine -> option LineEnding -> Prop) :
  (forall cur ls pref, P [] cur ls pref) ->
  (forall c rest cur ls pref, c <> CR -> c <> LF -> P rest (cur ++ [c]) ls pref ->
     P (c :: rest) cur ls pref) ->
  (forall e rest cur ls pref, ends_here e rest ->
     P rest [] (ls ++ [mkLine cur (Some e)]) (get_or_insert pref e) ->
     P (as_str e ++ rest) cur ls pref) ->
  forall rest cur ls pref, P rest cur ls pref.
Proof.
  intros Hnil Hplain Hend rest. remember (length rest) as n eqn:Hn. revert rest Hn.
  induction n as [n IH] using lt_wf_ind. intros [|c rest] Hn cur ls pref; [by apply Hnil|].
  simpl in Hn. destruct (decide (c = CR)) as [->|Hcr].
  - destruct rest as [|d rest]; [by apply (Hend Cr)|].
    destruct (decide (d = LF)) as [->|].
    + apply (Hend CrLf); [done|]. eapply IH; [|done]. simpl in *; lia.
    + apply (Hend Cr); [by intros _ [=]|]. eapply IH; [|done]. simpl in *; lia.
  - destruct (decide (c = LF)) as [->|Hlf].
    + apply (Hend Lf); [done|]. eapply IH; [|done]. lia.
    + apply Hplain; [done|done|]. eapply IH; [|done]. lia.
Qed.

Lemma render_snoc ls l :
  concat (map render_line (ls ++ [l])) = concat (map render_line ls) ++ render_line l.
Proof. by rewrite map_app, concat_app; simpl; rewrite app_nil_r. Qed.

Lemma parse_loop_render rest cur ls pref :
  let '(ls', _, cur') := parse_loop rest cur ls pref in
  concat (map render_line ls') ++ cur' = concat (map render_line ls) ++ cur ++ rest.
Proof.
  revert rest cur ls pref. apply parse_loop_ind; intros.
  - simpl. by rewrite app_nil_r.
  - rewrite parse_loop_plain by done. destruct (parse_loop _ _ _ _) as [[? ?] ?].
    rewrite H1. by rewrite <- app_assoc.
  - rewrite parse_loop_ending by done. destruct (parse_loop _ _ _ _) as [[? ?] ?].
    rewrite H0, render_snoc. unfold render_line; simpl. by rewrite <- !app_assoc.
Qed.

(** A line that ended: its text holds no line break. *)
Definition ended_line (l : SourceLine) : Prop := no_eol (text l) /\ is_Some (ending l).

(** The ending of the first line, if there is one. *)
Definition first_ending (ls : list SourceLine) : option LineEnding :=
  match ls with [] => None | l :: _ => ending l end.

Lemma parse_loop_shape rest cur ls pref :
  no_eol cur -> Forall ended_line ls -> pref = first_ending ls ->
  let '(ls', pref', cur') := parse_loop rest cur ls pref in
  no_eol cur' /\ Forall ended_line ls' /\ pref' = first_ending ls'.
Proof.
  revert rest cur ls pref. apply (parse_loop_ind (fun rest cur ls pref =>
    no_eol cur -> Forall ended_line ls -> pref = first_ending ls -> _)).
  - done.
  - intros c rest cur ls pref ? ? IH ? ? ?. rewrite parse_loop_plain by done.
    apply IH; [by apply no_eol_snoc|done|done].
  - intros e rest cur ls pref ? IH ? HF Hp. rewrite parse_loop_ending by done.
    apply IH; [apply no_eol_nil| |].
    + apply Forall_app. split; [done|]. repeat constructor; simpl; eauto; by apply H0.
    + subst pref. destruct HF as [|? ? [_ [e' He']] _]; simpl; [done|]. by rewrite He'.
Qed.

(** Every line but the last has an ending, and a last line without one is not
    empty; texts hold no line break; the preferred ending is that of the first
    line. *)
Definition wf_source (f : SourceFile) : Prop :=
  Forall (fun l => no_eol (text l)) (src_lines f)
  /\ (forall i l, src_lines f !! i = Some l -> ending l = None ->
        S i = length (src_lines f) /\ text l <> [])
  /\ preferred_ending f = default Lf (first_ending (src_lines f)).

Lemma first_ending_snoc_None ls t :
  default Lf (first_ending (ls ++ [mkLine t None])) = default Lf (first_ending ls).
Proof. by destruct ls. Qed.

Lemma ended_ending ls i l : Forall ended_line ls -> ls !! i = Some l -> ending l <> None.
Proof. intros HF Hl. eapply Forall_lookup in HF as [_ [e He]]; [|done]. by rewrite He. Qed.

Lemma parse_wf contents : wf_source (parse contents).
Proof.
  unfold parse.
  pose proof (parse_loop_shape contents [] [] None no_eol_nil ltac:(constructor) eq_refl) as H.
  destruct (parse_loop contents [] [] None) as [[ls pref] cur].
  destruct H as (Hcur & HF & ->).
  assert (Forall (fun l => no_eol (text l)) ls) as Htext.
  { eapply Forall_impl; [exact HF|]. by intros l [? _]. }
  destruct cur as [|c cur]; unfold wf_source; simpl.
  - split; [done|]. split; [|done]. intros i l Hl He. by eapply ended_ending in Hl.
  - split; [|split].
    + apply Forall_app. split; [done|]. by apply Forall_singleton.
    + intros i l Hl He. apply lookup_app_Some in Hl as [Hl|[Hge Hl]].
      * by eapply ended_ending in Hl.
      * rewrite length_app; simpl. destruct (i - length ls) eqn:E; [|done].
        simpl in Hl. injection Hl as <-. split; [lia|done].
    + by rewrite first_ending_snoc_None.
Qed.

(** ** Replacing *)

Lemma drop_slice {A} (s k n : nat) (l : list A) : drop n (drop (s - k) l) = drop (s - k + n) l.
Proof. by rewrite drop_drop. Qed.

Lemma replace_loop_spec pref len reps : forall source k out,
  ordered len k reps ->
  replace_loop pref source k out reps
  = Some (out ++ splice (fun t => mkLine t (Some pref)) k source reps).
Proof.
  induction reps as [|[[s n] seg] r IH]; intros source k out H; simpl; [done|].
  destruct H as (Hk & _ & Hr). rewrite (proj2 (Nat.ltb_ge s k) Hk).
  rewrite IH by done. rewrite drop_slice. by rewrite <- !app_assoc.
Qed.

Lemma apply_replacements_spec f reps :
  ordered (length (src_lines f)) 0 reps ->
  apply_replacements f reps
  = Some {| src_lines := map (fill_ending (preferred_ending f))
              (splice (fun t => mkLine t (Some (preferred_ending f))) 0 (src_lines f) reps);
            preferred_ending := preferred_ending f |}.
Proof.
  intros H. unfold apply_replacements.
  by rewrite (replace_loop_spec (preferred_ending f) (length (src_lines f))).
Qed.

Lemma apply_replacements_texts f f' reps :
  ordered (length (src_lines f)) 0 reps -> apply_replacements f reps = Some f' ->
  line_texts f' = splice id 0 (line_texts f) reps.
Proof.
  intros H E. rewrite apply_replacements_spec in E by done. injection E as <-.
  unfold line_texts; simpl. rewrite map_map; simpl. by rewrite splice_map.
Qed.

(** ** Properties *)

(** splitting a text into lines with their endings and writing the lines
    back gives the text unchanged, byte for byte, for every mix of LF, CRLF and
    CR endings. *)
Theorem parse_into_contents (contents : str) : into_contents (parse contents) = contents.
Proof.
  unfold into_contents, parse. pose proof (parse_loop_render contents [] [] None) as H.
  destruct (parse_loop _ _ _ _) as [[ls pref] cur]; simpl in *.
  destruct cur as [|c cur]; simpl.
  - by rewrite app_nil_r in H.
  - rewrite render_snoc. unfold render_line at 2; simpl. by rewrite app_nil_r.
Qed.

(** [parse] yields well-formed files: no text contains a line break, only
    the last line may lack an ending and then it is not empty, and the
    preferred ending is the first one of the file (LF if there is none). *)
Theorem parse_well_formed (contents : str) : wf_source (parse contents).
Proof. apply parse_wf. Qed.

(** for sorted, non-overlapping, in-range replacements the subtraction the
    code guards with a [debug_assert] does not underflow, and the file is
    rebuilt line by line: kept lines keep their text and ending, inserted lines
    get the preferred ending, and a line without ending is given the preferred
    one. *)
Theorem apply_replacements_correct (f : SourceFile) (reps : list Replacement) :
  ordered (length (src_lines f)) 0 reps ->
  apply_replacements f reps
  = Some {| src_lines := map (fill_ending (preferred_ending f))
              (splice (fun t => mkLine t (Some (preferred_ending f))) 0 (src_lines f) reps);
            preferred_ending := preferred_ending f |}.
Proof. apply apply_replacements_spec. Qed.

Definition mixed_file : str := $"a" ++ [CR; LF] ++ $"b" ++ [LF] ++ $"c".

Lemma apply_replacements_correct_witness :
  ordered (length (src_lines (parse mixed_file))) 0 [(1, 1, [$"x"; $"y"]); (2, 0, [$"z"])] /\
  option_map into_contents
    (apply_replacements (parse mixed_file) [(1, 1, [$"x"; $"y"]); (2, 0, [$"z"])])
  = Some ($"a" ++ [CR; LF] ++ $"x" ++ [CR; LF] ++ $"y" ++ [CR; LF] ++ $"z" ++ [CR; LF]
          ++ $"c" ++ [CR; LF]).
Proof.
  assert (ordered (length (src_lines (parse mixed_file))) 0
            [(1, 1, [$"x"; $"y"]); (2, 0, [$"z"])]) as H by (vm_compute; lia).
  split; [exact H|]. rewrite (apply_replacements_correct _ _ H). vm_compute. reflexivity.
Defined.

End TextFile.
