(* ===== verification/FileUpdate.v ===== *)
(** * Computing the new contents of an updated file

    apply-patch/src/file_update.rs without its file-system call: the chunks of
    an update hunk become replacements of line ranges, which are applied either
    to the lines of the file or to its [SourceFile]. *)

From S2P Require Import Prelude RustStr PatchTypes SeekSequence TextFile.
Import SeekSequence.

Module FileUpdate.

Abbreviation comp A := (outcome A ApplyPatchError).

(** [new_slice[new_start..new_context]] and the loop over
    [chunk.context_line_indices]; the result is [(old_start, new_start)] and the
    replacements pushed so far. *)
Fixpoint context_loop (start_idx : nat) (pattern new_slice : list str)
    (old_start new_start : nat) (context : list (nat * nat)) (reps : list Replacement)
  : comp (nat * nat * list Replacement) :=
  match context with
  | [] => Done (old_start, new_start, reps)
  | (old_context, new_context) :: context' =>
      if (length pattern <=? old_context) || (length new_slice <=? new_context) then
        Done (old_start, new_start, reps)
      else if negb (old_start =? old_context) || negb (new_start =? new_context) then
        if old_context <? old_start then Panic
        else
          let! seg := or_panic (slice_range new_slice new_start new_context) in
          context_loop start_idx pattern new_slice (S old_context) (S new_context) context'
            (reps ++ [(start_idx + old_start, old_context - old_start, seg)])
      else
        context_loop start_idx pattern new_slice (S old_context) (S new_context) context' reps
  end.

(** What a located chunk pushes, by mode. *)
Definition chunk_replacements (start_idx : nat) (pattern new_slice : list str)
    (context : list (nat * nat)) (mode : ApplyPatchFileUpdateMode)
  : comp (list Replacement) :=
  match mode with
  | NormalizeToLf => Done [(start_idx, length pattern, new_slice)]
  | PreserveLineEndings =>
      let! (old_start, new_start, reps) :=
        context_loop start_idx pattern new_slice 0 0 context [] in
      if negb (old_start =? length pattern) || negb (new_start =? length new_slice) then
        if length pattern <? old_start then Panic
        else
          let! seg := or_panic (slice_range new_slice new_start (length new_slice)) in
          Done (reps ++ [(start_idx + old_start, length pattern - old_start, seg)])
      else Done reps
  end.

(** Where a chunk without old lines inserts. *)
Definition insertion_idx (original_lines : list str) (mode : ApplyPatchFileUpdateMode) : nat :=
  match mode with
  | NormalizeToLf =>
      if last_is is_empty original_lines then length original_lines - 1
      else length original_lines
  | PreserveLineEndings => length original_lines
  end.

(** The search for [chunk.old_lines] with its retry: the pattern, the new lines
    and the position that are used. *)
Definition locate_chunk (original_lines : list str) (chunk : UpdateFileChunk)
    (line_index : nat) (mode : ApplyPatchFileUpdateMode)
  : list str * list str * option nat :=
  let pattern := old_lines chunk in
  let new_slice := new_lines chunk in
  match seek_sequence original_lines pattern line_index (is_end_of_file chunk) mode with
  | Some i => (pattern, new_slice, Some i)
  | None =>
      if last_is is_empty pattern then
        let pattern' := removelast pattern in
        let new_slice' :=
          if last_is is_empty new_slice then removelast new_slice else new_slice in
        (pattern', new_slice',
         seek_sequence original_lines pattern' line_index (is_end_of_file chunk) mode)
      else (pattern, new_slice, None)
  end.

Definition context_error (ctx_line path : str) : ApplyPatchError :=
  EComputeReplacements ($"Failed to find context '" ++ ctx_line ++ $"' in " ++ path).

Definition expected_lines_error (path : str) (chunk : UpdateFileChunk) : ApplyPatchError :=
  EComputeReplacements
    ($"Failed to find expected lines in " ++ path ++ $":" ++ [LF]
     ++ join [LF] (old_lines chunk)).

(** [line_index] after the chunk's [change_context]. *)
Definition context_index (original_lines : list str) (path : str) (chunk : UpdateFileChunk)
    (line_index : nat) (mode : ApplyPatchFileUpdateMode) : comp nat :=
  match change_context chunk with
  | None => Done line_index
  | Some ctx_line =>
      match seek_sequence original_lines [ctx_line] line_index false mode with
      | Some idx => Done (S idx)
      | None => Fail (context_error ctx_line path)
      end
  end.

(** One iteration of the loop over the chunks. *)
Definition chunk_step (original_lines : list str) (path : str)
    (mode : ApplyPatchFileUpdateMode) (st : nat * list Replacement)
    (chunk : UpdateFileChunk) : comp (nat * list Replacement) :=
  let '(line_index, replacements) := st in
  let! line_index := context_index original_lines path chunk line_index mode in
  if is_empty (old_lines chunk) then
    Done (line_index,
          replacements ++ [(insertion_idx original_lines mode, 0, new_lines chunk)])
  else
    let '(pattern, new_slice, found) := locate_chunk original_lines chunk line_index mode in
    match found with
    | None => Fail (expected_lines_error path chunk)
    | Some start_idx =>
        let! reps := chunk_replacements start_idx pattern new_slice
                       (context_line_indices chunk) mode in
        Done (start_idx + length pattern, replacements ++ reps)
    end.

Fixpoint chunks_loop (original_lines : list str) (path : str)
    (mode : ApplyPatchFileUpdateMode) (chunks : list UpdateFileChunk)
    (st : nat * list Replacement) : comp (nat * list Replacement) :=
  match chunks with
  | [] => Done st
  | chunk :: chunks' =>
      let! st' := chunk_step original_lines path mode st chunk in
      chunks_loop original_lines path mode chunks' st'
  end.

Definition rep_start (r : Replacement) : nat := fst (fst r).
Definition rep_end (r : Replacement) : nat := fst (fst r) + snd (fst r).

(** [compute_replacements]. *)
Definition compute_replacements (original_lines : list str) (path : str)
    (chunks : list UpdateFileChunk) (mode : ApplyPatchFileUpdateMode)
  : comp (list Replacement) :=
  let! (_, replacements) := chunks_loop original_lines path mode chunks (0, []) in
  Done (sort_by_key rep_start replacements).

(** [for _ in 0..old_len { if start_idx < lines.len() { lines.remove(start_idx) } }] *)
Fixpoint remove_lines (old_len start_idx : nat) (lines : list str) : list str :=
  match old_len with
  | O => lines
  | S n => remove_lines n start_idx
             (if start_idx <? length lines then delete start_idx lines else lines)
  end.

(** [lines.insert(start_idx + offset, new_line.clone())] for each new line. *)
Fixpoint insert_lines (start_idx : nat) (seg : list str) (lines : list str)
  : option (list str) :=
  match seg with
  | [] => Some lines
  | l :: seg' =>
      match vec_insert start_idx l lines with
      | Some lines' => insert_lines (S start_idx) seg' lines'
      | None => None
      end
  end.

Fixpoint apply_rev (lines : list str) (reps : list Replacement) : option (list str) :=
  match reps with
  | [] => Some lines
  | (start_idx, old_len, seg) :: reps' =>
      match insert_lines start_idx seg (remove_lines old_len start_idx lines) with
      | Some lines' => apply_rev lines' reps'
      | None => None
      end
  end.

(** [apply_replacements]: in descending order. *)
Definition apply_replacements (lines : list str) (reps : list Replacement)
  : option (list str) := apply_rev lines (rev reps).

(** [derive_new_contents_from_chunks] after the file has been read. *)
Definition derive_new_contents (original_contents path_text : str)
    (chunks : list UpdateFileChunk) (mode : ApplyPatchFileUpdateMode) : comp str :=
  match mode with
  | NormalizeToLf =>
      let split := split_char LF original_contents in
      let original_lines := if last_is is_empty split then removelast split else split in
      let! replacements := compute_replacements original_lines path_text chunks mode in
      let! new_lines := or_panic (apply_replacements original_lines replacements) in
      let new_lines :=
        if last_is is_empty new_lines then new_lines else new_lines ++ [[]] in
      Done (join [LF] new_lines)
  | PreserveLineEndings =>
      let source_file := TextFile.parse original_contents in
      let original_lines := TextFile.line_texts source_file in
      let! replacements := compute_replacements original_lines path_text chunks mode in
      let! source_file := or_panic (TextFile.apply_replacements source_file replacements) in
      Done (TextFile.into_contents source_file)
  end.

(** ** Replacing in descending order *)

Lemma remove_lines_spec n : forall s (lines : list str),
  s + n <= length lines -> remove_lines n s lines = take s lines ++ drop (s + n) lines.
Proof.
  induction n as [|n IH]; intros s lines H; simpl.
  - by rewrite Nat.add_0_r, take_drop.
  - rewrite (proj2 (Nat.ltb_lt s (length lines))) by lia.
    rewrite IH by (rewrite length_delete; [lia|apply lookup_lt_is_Some; lia]).
    rewrite delete_take_drop, take_app_le, take_take, Nat.min_id by (rewrite length_take; lia).
    rewrite drop_app_ge by (rewrite length_take; lia).
    rewrite drop_drop, length_take. do 2 f_equal. lia.
Qed.

Lemma remove_lines_length n : forall s (lines : list str),
  s <= length lines -> s <= length (remove_lines n s lines).
Proof.
  induction n as [|n IH]; intros s lines H; simpl; [done|]. apply IH.
  destruct (Nat.ltb_spec s (length lines)); [|done].
  rewrite length_delete by (apply lookup_lt_is_Some; lia). lia.
Qed.

Lemma insert_lines_spec seg : forall s (lines : list str),
  s <= length lines -> insert_lines s seg lines = Some (take s lines ++ seg ++ drop s lines).
Proof.
  induction seg as [|l seg IH]; intros s lines H; simpl; [by rewrite take_drop|].
  unfold vec_insert. rewrite (proj2 (Nat.leb_le s _)) by done.
  rewrite IH by (rewrite length_app, length_take; simpl; lia). f_equal.
  rewrite take_app_ge, drop_app_ge by (rewrite length_take; lia).
  rewrite length_take, Nat.min_l by done.
  replace (S s - s) with 1 by lia. simpl. by rewrite drop_0, <- app_assoc.
Qed.

Lemma apply_rev_app a b : forall lines,
  apply_rev lines (a ++ b)
  = match apply_rev lines a with Some lines' => apply_rev lines' b | None => None end.
Proof.
  induction a as [|[[s n] seg] a IH]; intros lines; simpl; [done|].
  by destruct (insert_lines _ _ _).
Qed.

(** On ordered replacements the descending loop computes [splice]. *)
Lemma apply_rev_splice reps : forall k (lines : list str),
  ordered (length lines) k reps -> k <= length lines ->
  apply_rev lines (rev reps) = Some (take k lines ++ splice id k (drop k lines) reps).
Proof.
  induction reps as [|[[s n] seg] reps IH]; intros k lines Hord Hk.
  - simpl. by rewrite take_drop.
  - destruct Hord as (Hks & Hsn & Hord). cbn [rev].
    rewrite apply_rev_app, (IH (s + n)) by done. cbn [apply_rev splice].
    set (X := splice id (s + n) (drop (s + n) lines) reps).
    assert (length (take (s + n) lines) = s + n) as Hlen by (rewrite length_take; lia).
    rewrite remove_lines_spec by (rewrite length_app; lia).
    rewrite take_app_le, take_take, Nat.min_l by lia.
    rewrite (drop_app_ge (take (s + n) lines)), Hlen, Nat.sub_diag, drop_0 by lia.
    rewrite insert_lines_spec by (rewrite length_app, length_take; lia).
    rewrite take_app_le, take_take, Nat.min_id by (rewrite length_take; lia).
    rewrite drop_app_ge by (rewrite length_take; lia).
    rewrite length_take, Nat.min_l, Nat.sub_diag, drop_0 by lia.
    rewrite map_id, drop_drop. replace (k + (s - k + n)) with (s + n) by lia.
    fold X. assert (take s lines = take k lines ++ take (s - k) (drop k lines)) as ->.
    { rewrite <- (take_drop k (take s lines)) at 1.
      by rewrite take_take, Nat.min_l, skipn_firstn_comm by lia. }
    by rewrite <- app_assoc.
Qed.

(** Sorted, in-range replacements never make an insertion panic, even when
    they overlap. *)
Lemma apply_rev_total reps : forall lines,
  Forall (fun r => rep_start r <= length lines) reps ->
  StronglySorted (fun a b => rep_start b <= rep_start a) reps ->
  is_Some (apply_rev lines reps).
Proof.
  induction reps as [|[[s n] seg] reps IH]; intros lines HF HS; simpl; [done|].
  apply Forall_cons in HF as [Hs HF]. apply StronglySorted_inv in HS as [HS Hlt].
  unfold rep_start in Hs; simpl in Hs.
  pose proof (remove_lines_length n s lines Hs) as Hr.
  rewrite insert_lines_spec by done. apply IH; [|done].
  rewrite Forall_forall in *. intros r Hr'. specialize (Hlt r Hr'). unfold rep_start in *.
  simpl in Hlt. rewrite !length_app, length_take, length_drop. lia.
Qed.

(** ** Chunk replacements *)

(** The context pairs of a chunk after the retry of [locate_chunk] may have
    dropped the last line of either side. *)
Fixpoint context_upto (p n : list str) (i j : nat) (l : list (nat * nat)) : Prop :=
  match l with
  | [] => True
  | (a, b) :: l' =>
      i <= a /\ j <= b
      /\ (a < length p -> b < length n -> exists t, p !! a = Some t /\ n !! b = Some t)
      /\ context_upto p n (S a) (S b) l'
  end.

Lemma context_ok_upto old new p n l : forall i j,
  (forall a, a < length p -> p !! a = old !! a) ->
  (forall b, b < length n -> n !! b = new !! b) ->
  context_ok old new i j l -> context_upto p n i j l.
Proof.
  induction l as [|[a b] l IH]; intros i j Hp Hn; simpl; [done|].
  intros (? & ? & (t & Ho & Hw) & ?). split; [done|]. split; [done|].
  split; [|by apply IH]. intros Ha Hb. exists t. by rewrite Hp, Hn.
Qed.

(** The replacement after the last context line. *)
Definition tail_rep (start : nat) (p n : list str) (os ns : nat) : list Replacement :=
  if negb (os =? length p) || negb (ns =? length n)
  then [(start + os, length p - os, drop ns n)] else [].

Lemma splice_skip {A} (new : str -> A) k t rest reps :
  Forall (fun r => S k <= rep_start r) reps ->
  splice new k (t :: rest) reps = t :: splice new (S k) rest reps.
Proof.
  destruct reps as [|[[s m] seg] reps]; simpl; [done|].
  intros [Hs _]%Forall_cons. unfold rep_start in Hs; simpl in Hs.
  replace (s - k) with (S (s - S k)) by lia. done.
Qed.

Lemma ordered_starts len reps : forall k,
  ordered len k reps -> Forall (fun r => k <= rep_start r) reps.
Proof.
  induction reps as [|[[s m] seg] reps IH]; intros k; simpl; [done|].
  intros (Hk & _ & Hord). constructor; [done|]. eapply Forall_impl; [by apply IH|].
  unfold rep_start; simpl. intros; lia.
Qed.

Lemma ordered_weaken len reps k k' : k' <= k -> ordered len k reps -> ordered len k' reps.
Proof. destruct reps as [|[[s m] seg] reps]; simpl; [done|]. intros ? (? & ? & ?). split; [lia|done]. Qed.

Lemma tail_rep_spec start (p n : list str) os ns :
  os <= length p -> ns <= length n ->
  ordered (start + length p) (start + os) (tail_rep start p n os ns)
  /\ splice id (start + os) (drop os p) (tail_rep start p n os ns) = drop ns n.
Proof.
  intros Ho Hn. unfold tail_rep.
  destruct (Nat.eqb_spec os (length p)) as [->|Ho'];
    [destruct (Nat.eqb_spec ns (length n)) as [->|Hn']|]; simpl.
  - by rewrite !drop_all.
  - split; [repeat split; lia|]. rewrite Nat.sub_diag, drop_all, map_id; simpl.
    by rewrite drop_nil, app_nil_r.
  - split; [repeat split; lia|]. rewrite Nat.sub_diag, map_id; simpl.
    rewrite drop_drop, (drop_ge p) by lia. by rewrite app_nil_r.
Qed.

Lemma drop_context (p : list str) os oc t :
  os <= oc -> p !! oc = Some t -> drop (oc - os) (drop os p) = t :: drop (S oc) p.
Proof.
  intros Hle Hp. rewrite drop_drop. replace (os + (oc - os)) with oc by lia.
  by apply drop_S.
Qed.

Lemma take_context (n : list str) ns nc t :
  ns <= nc -> n !! nc = Some t ->
  take (nc - ns) (drop ns n) ++ t :: drop (S nc) n = drop ns n.
Proof.
  intros Hle Hn. rewrite <- (drop_context n ns nc t) by done. apply take_drop.
Qed.

Lemma context_loop_spec start p n ctx : forall os ns reps,
  os <= length p -> ns <= length n -> context_upto p n os ns ctx ->
  exists os' ns' reps',
    context_loop start p n os ns ctx reps = Done (os', ns', reps ++ reps')
    /\ os' <= length p /\ ns' <= length n
    /\ ordered (start + length p) (start + os) (reps' ++ tail_rep start p n os' ns')
    /\ splice id (start + os) (drop os p) (reps' ++ tail_rep start p n os' ns') = drop ns n.
Proof.
  induction ctx as [|[oc nc] ctx IH]; intros os ns reps Ho Hn Hctx.
  { exists os, ns, []. rewrite app_nil_r. repeat split; try done; by apply tail_rep_spec. }
  destruct Hctx as (Hoc & Hnc & Heq & Hctx). cbn [context_loop].
  destruct (Nat.leb_spec (length p) oc) as [|Hoc']; simpl.
  { exists os, ns, []. rewrite app_nil_r. repeat split; try done; by apply tail_rep_spec. }
  destruct (Nat.leb_spec (length n) nc) as [|Hnc']; simpl.
  { exists os, ns, []. rewrite app_nil_r. repeat split; try done; by apply tail_rep_spec. }
  destruct (Heq Hoc' Hnc') as (t & Hpt & Hnt).
  destruct (negb (os =? oc) || negb (ns =? nc)) eqn:Hgap.
  - rewrite (proj2 (Nat.ltb_ge oc os)) by lia.
    rewrite slice_range_Some by lia; simpl.
    set (seg := take (nc - ns) (drop ns n)).
    destruct (IH (S oc) (S nc) (reps ++ [(start + os, oc - os, seg)]) ltac:(lia) ltac:(lia) Hctx)
      as (os' & ns' & reps' & -> & ? & ? & Hord & Hsp).
    exists os', ns', ((start + os, oc - os, seg) :: reps').
    rewrite <- app_assoc; simpl. split; [done|]. split; [done|]. split; [done|].
    split.
    + split; [lia|]. split; [lia|]. eapply ordered_weaken; [|done]. lia.
    + rewrite Nat.sub_diag; simpl. rewrite map_id.
      replace (start + os + (oc - os)) with (start + oc) by lia.
      rewrite (drop_context p os oc t) by done. rewrite splice_skip.
      * rewrite <- Nat.add_succ_r, Hsp. by apply take_context.
      * rewrite <- Nat.add_succ_r. by eapply ordered_starts.
  - apply orb_false_elim in Hgap as [Ho' Hn'].
    apply negb_false_iff, Nat.eqb_eq in Ho' as <-.
    apply negb_false_iff, Nat.eqb_eq in Hn' as <-.
    destruct (IH (S os) (S ns) reps ltac:(lia) ltac:(lia) Hctx)
      as (os' & ns' & reps' & -> & ? & ? & Hord & Hsp).
    exists os', ns', reps'. do 3 (split; [done|]). split.
    + eapply ordered_weaken; [|done]. lia.
    + rewrite (drop_S _ _ _ Hpt), splice_skip.
      * rewrite <- Nat.add_succ_r, Hsp. by rewrite <- drop_S.
      * rewrite <- Nat.add_succ_r. by eapply ordered_starts.
Qed.

Lemma chunk_replacements_preserve start p n ctx :
  context_upto p n 0 0 ctx ->
  exists reps, chunk_replacements start p n ctx PreserveLineEndings = Done reps
    /\ ordered (start + length p) start reps /\ splice id start p reps = n.
Proof.
  intros Hctx.
  destruct (context_loop_spec start p n ctx 0 0 [] ltac:(lia) ltac:(lia) Hctx)
    as (os & ns & reps & Hloop & Ho & Hn & Hord & Hsp).
  rewrite Nat.add_0_r, ?drop_0 in *. exists (reps ++ tail_rep start p n os ns).
  split; [|done]. unfold chunk_replacements. rewrite Hloop; simpl. unfold tail_rep.
  destruct (negb _ || negb _); [|by rewrite app_nil_r].
  rewrite (proj2 (Nat.ltb_ge _ os)) by lia. rewrite slice_range_Some by lia; simpl.
  rewrite firstn_all2; [done|]. rewrite length_drop. lia.
Qed.

(** ** Locating a chunk *)

Lemma removelast_lookup {A} (l : list A) a :
  a < length (removelast l) -> removelast l !! a = l !! a.
Proof.
  destruct (snoc_cases l) as [->|(l' & x & ->)]; [done|].
  rewrite removelast_last. intros. by rewrite lookup_app_l.
Qed.

Lemma locate_chunk_context lines c li mode p n found :
  wf_chunk c -> locate_chunk lines c li mode = (p, n, found) ->
  context_upto p n 0 0 (context_line_indices c).
Proof.
  intros Hwf. unfold locate_chunk.
  destruct (seek_sequence _ _ _ _ _); [intros [= <- <- <-]; by eapply context_ok_upto|].
  destruct (last_is is_empty (old_lines c)); [|intros [= <- <- <-]; by eapply context_ok_upto].
  intros [= <- <- <-]. eapply context_ok_upto; [| |exact Hwf].
  - apply removelast_lookup.
  - destruct (last_is _ _); [apply removelast_lookup|done].
Qed.

Lemma locate_chunk_found lines c li mode p n i :
  locate_chunk lines c li mode = (p, n, Some i) ->
  seek_sequence lines p li (is_end_of_file c) mode = Some i.
Proof.
  unfold locate_chunk. destruct (seek_sequence _ _ _ _ _) eqn:E.
  - intros [= <- <- <-]. done.
  - destruct (last_is _ _); [|done]. by intros [= <- <- ->].
Qed.

(** A located block lies inside the file. *)
Lemma locate_chunk_bounds lines c li mode p n i :
  li <= length lines -> locate_chunk lines c li mode = (p, n, Some i) ->
  i + length p <= length lines /\ (mode = PreserveLineEndings -> li <= i).
Proof.
  intros Hli H. apply locate_chunk_found in H. split.
  - destruct (decide (p = [])) as [->|Hne].
    + rewrite seek_empty in H. injection H as <-. simpl; lia.
    + by apply seek_bounds in H as [_ ?].
  - intros ->. eapply seek_ge_start; [|exact H]. by left.
Qed.

Lemma context_index_bounds lines path c li mode li' :
  context_index lines path c li mode = Done li' -> li <= length lines ->
  li <= li' <= length lines.
Proof.
  unfold context_index. destruct (change_context c) as [ctx|]; [|intros [= ->]; lia].
  destruct (seek_sequence _ _ _ _ _) as [i|] eqn:E; [|done]. intros [= <-] ?.
  pose proof (seek_ge_start _ _ _ _ _ _ (or_intror eq_refl) E).
  apply seek_bounds in E as [_ ?]; [|done]. simpl in *; lia.
Qed.

Lemma context_index_no_panic lines path c li mode :
  context_index lines path c li mode <> Panic.
Proof. unfold context_index. repeat case_match; done. Qed.

(** ** The replacements of all chunks *)

Section order.
Context (L : nat).

(** Two replacements pushed in this order: the second starts after the first
    ends, unless the first is an insertion at the end of the file. *)
Definition pushed_before (x y : Replacement) : Prop :=
  rep_end y <= L /\ (rep_end x <= rep_start y \/ (rep_start x = L /\ rep_end x = L)).

Definition after (x y : Replacement) : Prop := rep_end x <= rep_start y.

Lemma start_le_end r : rep_start r <= rep_end r.
Proof. unfold rep_start, rep_end. lia. Qed.

Lemma sort_pushed reps :
  ForallOrdPairs pushed_before reps ->
  StronglySorted (fun a b => rep_start a <= rep_start b /\ after a b)
    (sort_by_key rep_start reps).
Proof.
  intros H. eapply (sort_by_key_pairs rep_start pushed_before after); [| |exact H].
  - intros x y [Hy [Hxy|[Hx1 Hx2]]] Hle; unfold after; [done|].
    pose proof (start_le_end y). lia.
  - intros x y [Hy [Hxy|[Hx1 Hx2]]] Hlt; unfold after; [|lia].
    pose proof (start_le_end x). pose proof (start_le_end y). lia.
Qed.

Lemma sorted_ordered reps : forall k,
  StronglySorted (fun a b => rep_start a <= rep_start b /\ after a b) reps ->
  Forall (fun r => rep_end r <= L) reps -> Forall (fun r => k <= rep_start r) reps ->
  ordered L k reps.
Proof.
  induction reps as [|[[s n] seg] reps IH]; intros k HS HL Hk; simpl; [done|].
  apply StronglySorted_inv in HS as [HS Haft].
  apply Forall_cons in HL as [HL1 HL]. apply Forall_cons in Hk as [Hk1 Hk].
  split; [done|]. split; [done|]. apply IH; [done|done|].
  eapply Forall_impl; [exact Haft|]. by intros r [_ ?].
Qed.

Lemma ordered_pairs reps : forall len k,
  ordered len k reps -> len <= L -> ForallOrdPairs pushed_before reps.
Proof.
  induction reps as [|[[s n] seg] reps IH]; intros len k Hord Hlen; [constructor|].
  destruct Hord as (_ & Hs & Hord). constructor; [|by eapply IH].
  pose proof (ordered_starts _ _ _ Hord) as Hst.
  assert (Forall (fun r => rep_end r <= len) reps) as Hend.
  { clear -Hord. revert Hord. generalize (s + n). induction reps as [|[[s' n'] seg'] reps IH];
      intros k Hord; [constructor|].
    destruct Hord as (_ & ? & ?). constructor; [done|by eapply IH]. }
  rewrite Forall_forall in *. intros r Hr. specialize (Hst r Hr). specialize (Hend r Hr).
  split; [lia|]. left. unfold rep_end at 1; simpl. done.
Qed.

Lemma ordered_ends reps : forall len k,
  ordered len k reps -> Forall (fun r => rep_end r <= len) reps.
Proof.
  induction reps as [|[[s n] seg] reps IH]; intros len k Hord; [constructor|].
  destruct Hord as (_ & ? & ?). constructor; [done|by eapply IH].
Qed.

(** The state of the loop over the chunks when line endings are preserved. *)
Definition loop_inv (st : nat * list Replacement) : Prop :=
  fst st <= L /\ ForallOrdPairs pushed_before (snd st)
  /\ Forall (fun r => rep_end r <= L /\ (rep_end r <= fst st \/ rep_start r = L)) (snd st).

Lemma loop_inv_push li li' reps rs start len :
  loop_inv (li, reps) -> li <= start -> ordered len start rs -> len <= li' -> li' <= L ->
  li <= li' -> loop_inv (li', reps ++ rs).
Proof.
  intros (HL & Hp & HF) Hs Hord Hlen HL' Hle; simpl in *.
  pose proof (ordered_starts _ _ _ Hord) as Hst. pose proof (ordered_ends _ _ _ Hord) as Hend.
  split; [done|]. split.
  - apply ForallOrdPairs_app; [done|apply (ordered_pairs _ len start); [done|lia]|].
    rewrite Forall_forall in *. intros x Hx. rewrite Forall_forall. intros y Hy.
    specialize (HF x Hx) as [? HF]. specialize (Hst y Hy). specialize (Hend y Hy).
    simpl in *. split; [lia|]. destruct HF as [?|?]; [left; lia|].
    right. pose proof (start_le_end x). lia.
  - apply Forall_app. split.
    + eapply Forall_impl; [exact HF|]. simpl. intros r [? [?|?]]; split; auto; lia.
    + eapply Forall_impl; [exact Hend|]. simpl. intros r ?. split; lia.
Qed.

Lemma loop_inv_end li reps seg :
  loop_inv (li, reps) -> loop_inv (li, reps ++ [(L, 0, seg)]).
Proof.
  intros (HL & Hp & HF). split; [done|]. split; simpl in *.
  - apply ForallOrdPairs_app; [done|by repeat constructor|].
    eapply Forall_impl; [exact HF|]. intros x [? Hx]. constructor; [|done].
    unfold pushed_before, rep_end at 1, rep_start at 1; simpl. split; [lia|]. left. lia.
  - apply Forall_app. split; [done|]. repeat constructor; unfold rep_end, rep_start; simpl; lia.
Qed.
End order.

Lemma chunk_step_preserve lines path st c :
  wf_chunk c -> loop_inv (length lines) st ->
  match chunk_step lines path PreserveLineEndings st c with
  | Done st' => loop_inv (length lines) st'
  | Fail _ => True
  | Panic => False
  end.
Proof.
  intros Hwf Hinv. destruct st as [li reps]. unfold chunk_step.
  pose proof (context_index_no_panic lines path c li PreserveLineEndings) as Hnp.
  destruct (context_index _ _ _ _ _) as [li'|e|] eqn:Ectx; [|done|done].
  apply context_index_bounds in Ectx; [|apply Hinv].
  assert (loop_inv (length lines) (li', reps)) as Hinv'.
  { rewrite <- (app_nil_r reps).
    apply (loop_inv_push _ li li' reps [] li' li'); simpl; try done; lia. }
  destruct (is_empty (old_lines c)); [by apply loop_inv_end|].
  destruct (locate_chunk _ _ _ _) as [[p n] [i|]] eqn:Eloc; [|done].
  pose proof (locate_chunk_context _ _ _ _ _ _ _ Hwf Eloc) as Hctx.
  destruct (chunk_replacements_preserve i p n _ Hctx) as (rs & -> & Hord & _).
  apply locate_chunk_bounds in Eloc as [Hin Hge]; [|lia]. specialize (Hge eq_refl).
  apply (loop_inv_push _ li' _ _ _ i (i + length p)); simpl; try done; lia.
Qed.

Lemma chunks_loop_preserve lines path chunks : forall st,
  Forall wf_chunk chunks -> loop_inv (length lines) st ->
  match chunks_loop lines path PreserveLineEndings chunks st with
  | Done st' => loop_inv (length lines) st'
  | Fail _ => True
  | Panic => False
  end.
Proof.
  induction chunks as [|c chunks IH]; intros st HF Hinv; simpl; [done|].
  apply Forall_cons in HF as [Hc HF].
  pose proof (chunk_step_preserve lines path st c Hc Hinv) as Hstep.
  destruct (chunk_step _ _ _ _ _); [by apply IH|done|done].
Qed.

Lemma compute_preserve_ordered lines path chunks :
  Forall wf_chunk chunks ->
  match compute_replacements lines path chunks PreserveLineEndings with
  | Done reps => ordered (length lines) 0 reps
  | Fail _ => True
  | Panic => False
  end.
Proof.
  intros HF. unfold compute_replacements.
  pose proof (chunks_loop_preserve lines path chunks (0, []) HF) as H.
  destruct (chunks_loop _ _ _ _ _) as [[li reps]|e|]; [|done|].
  - destruct H as (_ & Hp & HL); [repeat split; simpl; [lia|constructor|constructor]|].
    apply sorted_ordered; [eapply sort_pushed; exact Hp| |].
    + apply Forall_sort_by_key. eapply Forall_impl; [exact HL|]. by intros r [? _].
    + apply Forall_true. intros. lia.
  - apply H. repeat split; simpl; [lia|constructor|constructor].
Qed.

(** ** Normalising to LF *)

Lemma chunk_step_normalize lines path st c :
  fst st <= length lines -> Forall (fun r => rep_end r <= length lines) (snd st) ->
  match chunk_step lines path NormalizeToLf st c with
  | Done st' => fst st' <= length lines
      /\ Forall (fun r => rep_end r <= length lines) (snd st')
  | Fail _ => True
  | Panic => False
  end.
Proof.
  destruct st as [li reps]; simpl. intros Hli HF.
  pose proof (context_index_no_panic lines path c li NormalizeToLf) as Hnp.
  destruct (context_index _ _ _ _ _) as [li'|e|] eqn:Ectx; [|done|done].
  apply context_index_bounds in Ectx; [|done].
  destruct (is_empty (old_lines c)); simpl.
  { split; [lia|]. apply Forall_app. split; [done|]. apply Forall_singleton.
    unfold rep_end, insertion_idx; simpl. destruct (last_is _ _); lia. }
  destruct (locate_chunk _ _ _ _) as [[p n] [i|]] eqn:Eloc; [|done].
  apply locate_chunk_bounds in Eloc as [Hin _]; [|lia]; simpl.
  split; [lia|]. apply Forall_app. split; [done|]. by apply Forall_singleton.
Qed.

Lemma chunks_loop_normalize lines path chunks : forall st,
  fst st <= length lines -> Forall (fun r => rep_end r <= length lines) (snd st) ->
  match chunks_loop lines path NormalizeToLf chunks st with
  | Done st' => Forall (fun r => rep_end r <= length lines) (snd st')
  | Fail _ => True
  | Panic => False
  end.
Proof.
  induction chunks as [|c chunks IH]; intros st Hli HF; simpl; [done|].
  pose proof (chunk_step_normalize lines path st c Hli HF) as Hstep.
  destruct (chunk_step _ _ _ _ _) as [st'|e|]; [|done|done].
  destruct Hstep. by apply IH.
Qed.

Lemma compute_normalize_sorted lines path chunks :
  match compute_replacements lines path chunks NormalizeToLf with
  | Done reps => Forall (fun r => rep_end r <= length lines) reps
      /\ StronglySorted (fun a b => rep_start a <= rep_start b) reps
  | Fail _ => True
  | Panic => False
  end.
Proof.
  unfold compute_replacements.
  pose proof (chunks_loop_normalize lines path chunks (0, []) ltac:(simpl; lia)
                ltac:(constructor)) as H.
  destruct (chunks_loop _ _ _ _ _) as [[li reps]|e|]; [|done|done].
  split; [by apply Forall_sort_by_key|].
  apply (StronglySorted_impl (fun a b => rep_start a <= rep_start b /\ True)); [tauto|].
  apply (sort_by_key_pairs rep_start (fun _ _ => True) (fun _ _ => True)); [done|done|].
  clear. induction reps as [|x l IH]; constructor; [by apply Forall_true|done].
Qed.

(** ** No panic *)

Lemma apply_replacements_total (lines : list str) reps :
  Forall (fun r => rep_end r <= length lines) reps ->
  StronglySorted (fun a b => rep_start a <= rep_start b) reps ->
  is_Some (apply_replacements lines reps).
Proof.
  intros HF HS. apply apply_rev_total.
  - apply Forall_rev. eapply Forall_impl; [exact HF|].
    intros r Hr. by etransitivity; [apply start_le_end|exact Hr].
  - by apply StronglySorted_rev.
Qed.

Lemma derive_normalize_no_panic contents path chunks :
  derive_new_contents contents path chunks NormalizeToLf <> Panic.
Proof.
  unfold derive_new_contents. set (lines := if last_is _ _ then _ else _).
  pose proof (compute_normalize_sorted lines path chunks) as H.
  destruct (compute_replacements _ _ _ _) as [reps|e|]; [|done|done].
  destruct H as [HF HS].
  by destruct (apply_replacements_total lines reps HF HS) as [ls ->].
Qed.

Lemma derive_preserve_no_panic contents path chunks :
  Forall wf_chunk chunks ->
  derive_new_contents contents path chunks PreserveLineEndings <> Panic.
Proof.
  intros Hwf. unfold derive_new_contents.
  pose proof (compute_preserve_ordered (TextFile.line_texts (TextFile.parse contents))
                path chunks Hwf) as H.
  destruct (compute_replacements _ _ _ _) as [reps|e|]; [|done|done].
  unfold TextFile.line_texts in H. rewrite length_map in H.
  by rewrite TextFile.apply_replacements_spec.
Qed.

(** ** Properties *)

Definition ctx_chunk (old new : list str) (ctx : list (nat * nat)) (eof : bool)
  : UpdateFileChunk := mkChunk None old new ctx eof.

(** when line endings are preserved, the replacements computed from
    well-formed chunks are sorted, pairwise disjoint and inside the file, so the
    subtraction guarded by [debug_assert!(start_idx >= source_index)] cannot
    underflow; computing them never panics. *)
Theorem compute_replacements_ordered (lines : list str) (path : str)
    (chunks : list UpdateFileChunk) :
  Forall wf_chunk chunks ->
  match compute_replacements lines path chunks PreserveLineEndings with
  | Done reps => ordered (length lines) 0 reps
  | Fail _ => True
  | Panic => False
  end.
Proof. apply compute_preserve_ordered. Qed.

Definition two_chunks : list UpdateFileChunk :=
  [ctx_chunk [$"b"; $"c"] [$"b"; $"X"] [(0, 0)] false; ctx_chunk [] [$"end"] [] false;
   ctx_chunk [$"e"] [$"Y"] [] true].

Lemma compute_replacements_ordered_witness :
  Forall wf_chunk two_chunks /\
  ordered 5 0 [(2, 1, [$"X"]); (4, 1, [$"Y"]); (5, 0, [$"end"])].
Proof.
  assert (Forall wf_chunk two_chunks) as H.
  { repeat apply Forall_cons_2; [| | |apply Forall_nil_2]; vm_compute;
      repeat split; try lia. by exists [98%N]. }
  split; [exact H|].
  exact (compute_replacements_ordered [$"a"; $"b"; $"c"; $"d"; $"e"] [] two_chunks H).
Defined.

(** updating a file never panics: with well-formed chunks, in either mode,
    no slice, subtraction or insertion of the update goes out of range. *)
Theorem derive_new_contents_no_panic (contents path : str) (chunks : list UpdateFileChunk)
    (mode : ApplyPatchFileUpdateMode) :
  Forall wf_chunk chunks -> derive_new_contents contents path chunks mode <> Panic.
Proof.
  intros H. destruct mode; [apply derive_normalize_no_panic|by apply derive_preserve_no_panic].
Qed.

Lemma derive_new_contents_no_panic_witness :
  Forall wf_chunk [ctx_chunk [$"a"] [$"b"] [] true] /\
  derive_new_contents ($"a" ++ [CR; LF]) [] [ctx_chunk [$"a"] [$"b"] [] true]
    PreserveLineEndings = Done ($"b" ++ [CR; LF]) /\
  derive_new_contents ($"a" ++ [CR; LF]) [] [ctx_chunk [$"a"] [$"b"] [] true]
    PreserveLineEndings <> Panic.
Proof.
  assert (Forall wf_chunk [ctx_chunk [$"a"] [$"b"] [] true]) as H
    by (apply Forall_cons_2; [exact I|apply Forall_nil_2]).
  split; [exact H|]. split; [vm_compute; reflexivity|].
  exact (derive_new_contents_no_panic _ [] _ PreserveLineEndings H).
Defined.

(** a located chunk rewrites its block to its new lines: the ranges that
    [PreserveLineEndings] cuts around the context lines, and the single range
    of [NormalizeToLf], both turn the old lines into the new lines. *)
Theorem chunk_replacements_rewrite (c : UpdateFileChunk) (mode : ApplyPatchFileUpdateMode) :
  wf_chunk c ->
  exists reps,
    chunk_replacements 0 (old_lines c) (new_lines c) (context_line_indices c) mode = Done reps
    /\ ordered (length (old_lines c)) 0 reps
    /\ splice id 0 (old_lines c) reps = new_lines c.
Proof.
  intros H. destruct mode.
  - eexists. split; [done|]. split; [simpl; lia|]. simpl.
    by rewrite drop_all, map_id, app_nil_r.
  - apply chunk_replacements_preserve. by eapply context_ok_upto.
Qed.

Lemma chunk_replacements_rewrite_witness :
  wf_chunk (ctx_chunk [$"k"; $"o"; $"k"] [$"k"; $"n"; $"k"] [(0, 0); (2, 2)] false) /\
  exists reps,
    chunk_replacements 0 [$"k"; $"o"; $"k"] [$"k"; $"n"; $"k"] [(0, 0); (2, 2)]
      PreserveLineEndings = Done reps
    /\ ordered 3 0 reps /\ splice id 0 [$"k"; $"o"; $"k"] reps = [$"k"; $"n"; $"k"].
Proof.
  assert (wf_chunk (ctx_chunk [$"k"; $"o"; $"k"] [$"k"; $"n"; $"k"] [(0, 0); (2, 2)] false)) as H.
  { vm_compute. repeat split; try lia; by exists [107%N]. }
  split; [exact H|]. exact (chunk_replacements_rewrite _ PreserveLineEndings H).
Defined.

(** on ordered replacements the two implementations agree: rewriting the
    plain lines in descending order gives the line texts of the file rebuilt
    front to back by [SourceFile]. *)
Theorem replacement_routines_agree (f : TextFile.SourceFile) (reps : list Replacement) :
  ordered (length (TextFile.src_lines f)) 0 reps ->
  apply_replacements (TextFile.line_texts f) reps
  = option_map TextFile.line_texts (TextFile.apply_replacements f reps).
Proof.
  intros H. destruct (TextFile.apply_replacements f reps) as [f'|] eqn:E.
  - simpl. rewrite (TextFile.apply_replacements_texts f f' reps H E).
    apply (apply_rev_splice reps 0); [|lia].
    unfold TextFile.line_texts. by rewrite length_map.
  - by rewrite TextFile.apply_replacements_spec in E.
Qed.

Lemma replacement_routines_agree_witness :
  let f := TextFile.parse ($"a" ++ [CR; LF] ++ $"b" ++ [LF]) in
  ordered (length (TextFile.src_lines f)) 0 [(0, 1, [$"x"; $"y"]); (2, 0, [$"z"])] /\
  apply_replacements (TextFile.line_texts f) [(0, 1, [$"x"; $"y"]); (2, 0, [$"z"])]
  = option_map TextFile.line_texts
      (TextFile.apply_replacements f [(0, 1, [$"x"; $"y"]); (2, 0, [$"z"])]).
Proof.
  intros f.
  assert (ordered (length (TextFile.src_lines f)) 0 [(0, 1, [$"x"; $"y"]); (2, 0, [$"z"])]) as H
    by (vm_compute; lia).
  split; [exact H|]. exact (replacement_routines_agree f _ H).
Defined.

(** The legacy mode may match an end-of-file chunk before the previous chunk
    ended: the replacements overlap and the line added by the second chunk is
    lost without an error, where the other mode refuses the patch. *)
Definition overlapping_chunks : list UpdateFileChunk :=
  [ctx_chunk [$"b"; $"c"] [$"X"] [] false; ctx_chunk [$"c"] [$"Y"] [] true].

Example normalize_overlap_drops_line :
  derive_new_contents ($"a" ++ [LF] ++ $"b" ++ [LF] ++ $"c" ++ [LF]) [] overlapping_chunks
    NormalizeToLf = Done ($"a" ++ [LF] ++ $"X" ++ [LF]).
Proof. vm_compute. reflexivity. Qed.

Example preserve_overlap_is_an_error :
  derive_new_contents ($"a" ++ [LF] ++ $"b" ++ [LF] ++ $"c" ++ [LF]) [] overlapping_chunks
    PreserveLineEndings = Fail (expected_lines_error [] (ctx_chunk [$"c"] [$"Y"] [] true)).
Proof. vm_compute. reflexivity. Qed.

End FileUpdate.
