(* ===== verification/PatchParser.v ===== *)
(** * The streaming patch parser

    apply-patch/src/streaming_parser.rs (the line-driven state machine
    [StreamingPatchParser]) and the functions of parser.rs that drive it over a
    complete patch text ([parse_patch], the boundary checks, the heredoc
    leniency).  The parser mutates itself even when it reports an error, so its
    entry points return the new state next to the result. *)

From S2P Require Import Prelude RustStr PatchTypes.

(** ** Markers (parser.rs) *)

Definition BEGIN_PATCH_MARKER : str := $"*** Begin Patch".
Definition END_PATCH_MARKER : str := $"*** End Patch".
Definition ADD_FILE_MARKER : str := $"*** Add File: ".
Definition DELETE_FILE_MARKER : str := $"*** Delete File: ".
Definition UPDATE_FILE_MARKER : str := $"*** Update File: ".
Definition MOVE_TO_MARKER : str := $"*** Move to: ".
Definition EOF_MARKER : str := $"*** End of File".
Definition CHANGE_CONTEXT_MARKER : str := $"@@ ".
Definition EMPTY_CHANGE_CONTEXT_MARKER : str := $"@@".
Definition ENVIRONMENT_ID_MARKER : str := $"*** Environment ID:".

Definition PARSE_IN_STRICT_MODE : bool := false.

(** [ApplyPatchArgs] of lib.rs. *)
Record ApplyPatchArgs : Type := mkArgs {
  patch : str;
  hunks : list Hunk;
  workdir : option str;
  args_environment_id : option str;
}.

#[export] Instance ApplyPatchArgs_eq_dec : EqDecision ApplyPatchArgs.
Proof. solve_decision. Defined.

Module StreamingPatchParser.

(** ** State *)

Inductive StreamingParserMode : Type :=
| NotStarted
| StartedPatch
| InAddFile
| InDeleteFile
| InUpdateFile (hunk_line_number : nat)
| EndedPatch.

Record StreamingParserState : Type := mkState {
  mode : StreamingParserMode;
  hunks : list Hunk;
  environment_id : option str;
}.

(** [StreamingPatchParser]. *)
Record t : Type := mkParser {
  line_buffer : str;
  state : StreamingParserState;
  line_number : nat;
}.

(** [StreamingPatchParser::default()]. *)
Definition default : t := mkParser [] (mkState NotStarted [] None) 0.

Definition with_mode (m : StreamingParserMode) (s : StreamingParserState)
  : StreamingParserState := mkState m (hunks s) (environment_id s).
Definition push_hunk (h : Hunk) (m : StreamingParserMode) (s : StreamingParserState)
  : StreamingParserState := mkState m (hunks s ++ [h]) (environment_id s).
Definition set_last_hunk (h : Hunk) (m : StreamingParserMode) (s : StreamingParserState)
  : StreamingParserState :=
  mkState m (update_last (fun _ => h) (hunks s)) (environment_id s).

(** ** Messages *)

Definition unexpected_line (line : str) : str :=
  $"Unexpected line found in update hunk: '" ++ line
  ++ $"'. Every line should start with ' ' (context line), '+' (added line), or '-' (removed line)".
Definition no_lines : str := $"Update hunk does not contain any lines".
Definition empty_hunk (path : str) : str :=
  $"Update file hunk for path '" ++ path ++ $"' is empty".
Definition not_a_header (trimmed : str) : str :=
  [39%N] ++ trimmed
  ++ $"' is not a valid hunk header. Valid hunk headers: '*** Add File: {path}', '*** Delete File: {path}', '*** Update File: {path}'".
Definition expected_context (line : str) : str :=
  $"Expected update hunk to start with a @@ context marker, got: '" ++ line ++ [39%N].
Definition first_line_error : str := $"The first line of the patch must be '*** Begin Patch'".
Definition last_line_error : str := $"The last line of the patch must be '*** End Patch'".
Definition env_twice : str := $"apply_patch environment_id cannot be specified more than once".
Definition env_empty : str := $"apply_patch environment_id cannot be empty".

(** ** Hunk headers *)

Definition chunk_is_empty (c : UpdateFileChunk) : bool :=
  is_empty (old_lines c) && is_empty (new_lines c).

Definition ensure_update_hunk_is_not_empty (s : StreamingParserState) (n : nat) (line : str)
  : result () ParseError :=
  match last (hunks s) with
  | Some (UpdateFile path _ chunks) =>
      match is_empty chunks, mode s with
      | true, InUpdateFile hunk_line_number =>
          Err (InvalidHunkError (empty_hunk path) hunk_line_number)
      | _, _ =>
          if last_is chunk_is_empty chunks then
            if bool_decide (line = END_PATCH_MARKER) then Err (InvalidHunkError no_lines n)
            else Err (InvalidHunkError (unexpected_line line) n)
          else Ok ()
      end
  | _ => Ok ()
  end.

(** The environment preamble, accepted only right after the begin marker. *)
Definition environment_line (s : StreamingParserState) (rest : str)
  : result StreamingParserState ParseError :=
  match environment_id s with
  | Some _ => Err (InvalidPatchError env_twice)
  | None =>
      let id := trim rest in
      if is_empty id then Err (InvalidPatchError env_empty)
      else Ok (mkState (mode s) (hunks s) (Some id))
  end.

Definition is_started (m : StreamingParserMode) : bool :=
  match m with StartedPatch => true | _ => false end.

(** The end marker and the three file headers.  [Ok(true)] of the code is
    [Ok (Some s')], [Ok(false)] is [Ok None]. *)
Definition file_header (s : StreamingParserState) (n : nat) (trimmed : str)
  : result (option StreamingParserState) ParseError :=
  if bool_decide (trimmed = END_PATCH_MARKER) then
    let? _ := ensure_update_hunk_is_not_empty s n trimmed in
    Ok (Some (with_mode EndedPatch s))
  else match strip_prefix ADD_FILE_MARKER trimmed with
  | Some path =>
    let? _ := ensure_update_hunk_is_not_empty s n trimmed in
    Ok (Some (push_hunk (AddFile path []) InAddFile s))
  | None => match strip_prefix DELETE_FILE_MARKER trimmed with
  | Some path =>
    let? _ := ensure_update_hunk_is_not_empty s n trimmed in
    Ok (Some (push_hunk (DeleteFile path) InDeleteFile s))
  | None => match strip_prefix UPDATE_FILE_MARKER trimmed with
  | Some path =>
    let? _ := ensure_update_hunk_is_not_empty s n trimmed in
    Ok (Some (push_hunk (UpdateFile path None []) (InUpdateFile n) s))
  | None => Ok None
  end end end.

Definition handle_hunk_headers_and_end_patch (s : StreamingParserState) (n : nat)
    (trimmed : str) : result (option StreamingParserState) ParseError :=
  match is_started (mode s), strip_prefix ENVIRONMENT_ID_MARKER trimmed with
  | true, Some rest => let? s' := environment_line s rest in Ok (Some s')
  | _, _ => file_header s n trimmed
  end.

(** ** Lines *)

(** [if chunks.is_empty() { chunks.push(default) }] followed by a change of the
    last chunk. *)
Definition on_last_chunk (f : UpdateFileChunk -> UpdateFileChunk)
    (chunks : list UpdateFileChunk) : list UpdateFileChunk :=
  update_last f (if is_empty chunks then [default_chunk] else chunks).

Definition push_old (l : str) (c : UpdateFileChunk) : UpdateFileChunk :=
  mkChunk (change_context c) (old_lines c ++ [l]) (new_lines c)
    (context_line_indices c) (is_end_of_file c).
Definition push_new (l : str) (c : UpdateFileChunk) : UpdateFileChunk :=
  mkChunk (change_context c) (old_lines c) (new_lines c ++ [l])
    (context_line_indices c) (is_end_of_file c).
Definition mark_eof (c : UpdateFileChunk) : UpdateFileChunk :=
  mkChunk (change_context c) (old_lines c) (new_lines c) (context_line_indices c) true.

Definition is_context_header (update_line : str) : bool :=
  bool_decide (update_line = EMPTY_CHANGE_CONTEXT_MARKER)
  || starts_with update_line CHANGE_CONTEXT_MARKER.

(** The diff lines proper: an empty line, or one led by a space, plus or minus. *)
Definition diff_line (line : str) : option (UpdateFileChunk -> UpdateFileChunk) :=
  match line with
  | [] => Some (push_context_line [])
  | c :: rest =>
      if bool_decide (c = 32%N) then Some (push_context_line rest)
      else if bool_decide (c = 43%N) then Some (push_new rest)
      else if bool_decide (c = 45%N) then Some (push_old rest)
      else None
  end.

(** A line that opens a chunk, ends the file, or belongs to the current chunk. *)
Definition chunk_line (chunks : list UpdateFileChunk) (n : nat) (line : str)
  : result (list UpdateFileChunk) ParseError :=
  let update_line := trim_end line in
  if is_context_header update_line && last_is chunk_is_empty chunks then
    Err (InvalidHunkError (unexpected_line line) n)
  else if bool_decide (update_line = EMPTY_CHANGE_CONTEXT_MARKER) then
    Ok (chunks ++ [default_chunk])
  else match strip_prefix CHANGE_CONTEXT_MARKER update_line with
  | Some ctx => Ok (chunks ++ [mkChunk (Some ctx) [] [] [] false])
  | None =>
  if bool_decide (update_line = EOF_MARKER) then
    if last_is chunk_is_empty chunks then Err (InvalidHunkError no_lines n)
    else Ok (update_last mark_eof chunks)
  else match diff_line line with
  | Some push => Ok (on_last_chunk push chunks)
  | None =>
  if last_is (fun c => negb (is_empty (old_lines c)) || negb (is_empty (new_lines c))) chunks
  then Err (InvalidHunkError (expected_context line) n)
  else Err (InvalidHunkError (unexpected_line line) n)
  end end.

(** The body of the [if let Some(UpdateFile { move_path, chunks, .. })] in
    [process_line]: the new move path and chunks. *)
Definition update_hunk_line (move_path : option str) (chunks : list UpdateFileChunk)
    (n : nat) (line : str) : result (option str * list UpdateFileChunk) ParseError :=
  let update_line := trim_end line in
  let after_eof := last_is is_end_of_file chunks in
  if after_eof && is_empty update_line then Ok (move_path, chunks)
  else if after_eof && negb (is_context_header update_line) then
    Err (InvalidHunkError (expected_context line) n)
  else match is_empty chunks && is_none move_path,
             strip_prefix MOVE_TO_MARKER update_line with
  | true, Some move_to_path => Ok (Some move_to_path, chunks)
  | _, _ => let? chunks' := chunk_line chunks n line in Ok (move_path, chunks')
  end.

Definition process_line (s : StreamingParserState) (n : nat) (line : str)
  : result StreamingParserState ParseError :=
  let trimmed := trim line in
  match mode s with
  | NotStarted =>
      if bool_decide (trimmed = BEGIN_PATCH_MARKER) then Ok (with_mode StartedPatch s)
      else Err (InvalidPatchError first_line_error)
  | StartedPatch =>
      let? handled := handle_hunk_headers_and_end_patch s n trimmed in
      match handled with
      | Some s' => Ok s'
      | None => Err (InvalidHunkError (not_a_header trimmed) n)
      end
  | InAddFile =>
      let? handled := handle_hunk_headers_and_end_patch s n trimmed in
      match handled with
      | Some s' => Ok s'
      | None =>
          match strip_prefix [43%N] line, last (hunks s) with
          | Some line_to_add, Some (AddFile path contents) =>
              Ok (set_last_hunk (AddFile path (contents ++ line_to_add ++ [LF])) (mode s) s)
          | _, _ => Err (InvalidHunkError (not_a_header trimmed) n)
          end
      end
  | InDeleteFile =>
      let? handled := handle_hunk_headers_and_end_patch s n trimmed in
      match handled with
      | Some s' => Ok s'
      | None => Err (InvalidHunkError (not_a_header trimmed) n)
      end
  | InUpdateFile hunk_line_number =>
      let? handled := handle_hunk_headers_and_end_patch s n (trim_end line) in
      match handled with
      | Some s' => Ok s'
      | None =>
          match last (hunks s) with
          | Some (UpdateFile path move_path chunks) =>
              let? (move_path', chunks') := update_hunk_line move_path chunks n line in
              Ok (set_last_hunk (UpdateFile path move_path' chunks')
                    (InUpdateFile hunk_line_number) s)
          | _ => Err (InvalidHunkError (unexpected_line line) n)
          end
      end
  | EndedPatch =>
      if is_empty trimmed then Ok s else Err (InvalidPatchError last_line_error)
  end.

(** One character of the [for] loop of [push_delta]. *)
Definition push_char (p : t) (ch : char) : t * result () ParseError :=
  if bool_decide (ch = LF) then
    let line := match strip_suffix [CR] (line_buffer p) with
                | Some l => l | None => line_buffer p end in
    let n := S (line_number p) in
    match process_line (state p) n line with
    | Ok s' => (mkParser [] s' n, Ok ())
    | Err e => (mkParser [] (state p) n, Err e)
    end
  else (mkParser (line_buffer p ++ [ch]) (state p) (line_number p), Ok ()).

Fixpoint push_chars (p : t) (delta : str) : t * result () ParseError :=
  match delta with
  | [] => (p, Ok ())
  | ch :: rest =>
      match push_char p ch with
      | (p', Ok _) => push_chars p' rest
      | (p', Err e) => (p', Err e)
      end
  end.

Definition push_delta (p : t) (delta : str) : t * result (list Hunk) ParseError :=
  match push_chars p delta with
  | (p', Ok _) => (p', Ok (hunks (state p')))
  | (p', Err e) => (p', Err e)
  end.

(** The last, unterminated line of [finish]. *)
Definition finish_line (s : StreamingParserState) (n : nat) (line : str)
  : result StreamingParserState ParseError :=
  if bool_decide (trim line = END_PATCH_MARKER) then
    let? _ := ensure_update_hunk_is_not_empty s n (trim line) in
    Ok (with_mode EndedPatch s)
  else process_line s n line.

Definition finish_buffer (p : t) : t * result () ParseError :=
  if is_empty (line_buffer p) then (p, Ok ())
  else
    let n := S (line_number p) in
    match finish_line (state p) n (line_buffer p) with
    | Ok s' => (mkParser [] s' n, Ok ())
    | Err e => (mkParser [] (state p) n, Err e)
    end.

Definition finish (p : t) : t * result (list Hunk) ParseError :=
  match finish_buffer p with
  | (p', Ok _) =>
      match mode (state p') with
      | EndedPatch => (p', Ok (hunks (state p')))
      | _ => (p', Err (InvalidPatchError last_line_error))
      end
  | (p', Err e) => (p', Err e)
  end.

(** ** Chunked input

    A client that feeds the text in pieces, stopping at the first error. *)

Fixpoint push_deltas (p : t) (deltas : list str) : t * result (list Hunk) ParseError :=
  match deltas with
  | [] => (p, Ok (hunks (state p)))
  | delta :: rest =>
      match push_delta p delta with
      | (p', Ok _) => push_deltas p' rest
      | (p', Err e) => (p', Err e)
      end
  end.

Lemma push_chars_app p a b :
  push_chars p (a ++ b) =
    match push_chars p a with
    | (p', Ok _) => push_chars p' b
    | (p', Err e) => (p', Err e)
    end.
Proof.
  revert p; induction a as [|ch a IH]; intros p; [done|]. simpl.
  destruct (push_char p ch) as [p' [[]|e]]; [apply IH|done].
Qed.

Lemma push_delta_app p a b :
  push_delta p (a ++ b) =
    match push_delta p a with
    | (p', Ok _) => push_delta p' b
    | (p', Err e) => (p', Err e)
    end.
Proof.
  unfold push_delta. rewrite push_chars_app. by destruct (push_chars p a) as [p' [[]|e]].
Qed.

(** however a patch text is cut into deltas, the streaming parser reaches the
    same state and gives the same hunks or the same error as on the whole text. *)
Theorem push_delta_chunking p deltas : push_deltas p deltas = push_delta p (concat deltas).
Proof.
  revert p; induction deltas as [|d ds IH]; intros p; [done|]. simpl.
  rewrite push_delta_app. destruct (push_delta p d) as [p' [hs|e]]; [apply IH|done].
Qed.

(** ** What parsed hunks look like *)

Definition path_ok (path : str) : Prop := path <> [] /\ trim_end path = path.

Definition closed_chunk (c : UpdateFileChunk) : Prop :=
  wf_chunk c /\ chunk_is_empty c = false.

(** Chunks while the hunk may still grow: only the last one may have no line. *)
Definition open_chunks (chunks : list UpdateFileChunk) : Prop :=
  Forall wf_chunk chunks /\ Forall closed_chunk (removelast chunks).

Definition closed_hunk (h : Hunk) : Prop :=
  match h with
  | AddFile path contents => path_ok path /\ (contents = [] \/ last contents = Some LF)
  | DeleteFile path => path_ok path
  | UpdateFile path move_path chunks =>
      path_ok path /\ (forall q, move_path = Some q -> path_ok q)
      /\ chunks <> [] /\ Forall closed_chunk chunks
  end.

Definition env_ok (env : option str) : Prop :=
  forall id, env = Some id -> id <> [] /\ trimmed id.

(** The invariant of the parser after [n] lines. *)
Definition state_inv (s : StreamingParserState) (n : nat) : Prop :=
  env_ok (environment_id s) /\
  match mode s with
  | NotStarted | StartedPatch => hunks s = []
  | InAddFile => exists pre path contents,
      hunks s = pre ++ [AddFile path contents]
      /\ Forall closed_hunk pre /\ closed_hunk (AddFile path contents)
  | InDeleteFile => exists pre path,
      hunks s = pre ++ [DeleteFile path] /\ Forall closed_hunk pre /\ path_ok path
  | InUpdateFile k => 1 <= k <= n /\ exists pre path move_path chunks,
      hunks s = pre ++ [UpdateFile path move_path chunks] /\ Forall closed_hunk pre
      /\ path_ok path /\ (forall q, move_path = Some q -> path_ok q) /\ open_chunks chunks
  | EndedPatch => Forall closed_hunk (hunks s)
  end.

(** Errors point at a line already read. *)
Definition error_in_range (e : ParseError) (n : nat) : Prop :=
  match e with InvalidHunkError _ k => 1 <= k <= n | InvalidPatchError _ => True end.

Lemma trim_end_snoc_prefix (p s t : str) :
  trim_end s = p ++ t -> t <> [] -> trim_end t = t.
Proof.
  intros E Ht. destruct (snoc_cases t) as [->|(t' & c & ->)]; [done|].
  pose proof (trim_end_idemp s) as H. rewrite E, app_assoc, trim_end_snoc in H.
  rewrite trim_end_snoc. destruct (is_whitespace c); [|done].
  destruct (trim_end_prefix (p ++ t')) as (w & Hw & _). rewrite H in Hw.
  apply (f_equal length) in Hw. rewrite !length_app in Hw. simpl in Hw. lia.
Qed.

(** What follows a marker that ends in a space, in a trimmed line, is a path. *)
Lemma header_path_ok (s m path : str) :
  trim_end s = s -> strip_prefix (m ++ [32%N]) s = Some path -> path_ok path.
Proof.
  intros Hs H. apply strip_prefix_Some in H. split.
  - intros ->. rewrite app_nil_r in H. subst s. rewrite trim_end_snoc in Hs.
    change (is_whitespace 32) with true in Hs. cbv iota in Hs.
    destruct (trim_end_prefix m) as (w & Hw & _). rewrite Hs in Hw.
    apply (f_equal length) in Hw. rewrite !length_app in Hw. simpl in Hw. lia.
  - destruct path as [|c path]; [done|].
    apply (trim_end_snoc_prefix (m ++ [32%N]) s); [by rewrite Hs|done].
Qed.

Lemma open_chunks_closed chunks :
  open_chunks chunks -> last_is chunk_is_empty chunks = false -> Forall closed_chunk chunks.
Proof.
  intros [Hwf Hcl]. destruct (snoc_cases chunks) as [->|(cs & c & ->)]; [done|].
  rewrite last_is_snoc. rewrite removelast_last in Hcl. apply Forall_app in Hwf as [_ Hwf].
  intros Hc. apply Forall_snoc; [done|]. split; [by apply Forall_inv in Hwf|done].
Qed.

Lemma open_chunks_snoc chunks c :
  Forall closed_chunk chunks -> wf_chunk c -> open_chunks (chunks ++ [c]).
Proof.
  intros Hcl Hc. split; [|by rewrite removelast_last].
  apply Forall_snoc; [|done]. eapply Forall_impl; [exact Hcl|]. by intros ? [].
Qed.

Lemma open_chunks_update (f : UpdateFileChunk -> UpdateFileChunk) chunks :
  (forall c, wf_chunk c -> wf_chunk (f c)) -> open_chunks chunks ->
  open_chunks (update_last f chunks).
Proof.
  intros Hf [Hwf Hcl]. destruct (snoc_cases chunks) as [->|(cs & c & ->)]; [done|].
  rewrite update_last_snoc. rewrite removelast_last in Hcl.
  apply Forall_app in Hwf as [_ Hc]. apply Forall_inv in Hc.
  apply open_chunks_snoc; auto.
Qed.

Lemma open_chunks_on_last f chunks :
  (forall c, wf_chunk c -> wf_chunk (f c)) -> open_chunks chunks ->
  open_chunks (on_last_chunk f chunks).
Proof.
  intros Hf H. apply open_chunks_update; [done|]. destruct chunks; [|done].
  apply (open_chunks_snoc []); [done|apply wf_default_chunk].
Qed.

Lemma wf_push_new l c : wf_chunk c -> wf_chunk (push_new l c).
Proof.
  intros H. pose proof (wf_chunk_grow c [] [l] (is_end_of_file c) H) as H'.
  by rewrite app_nil_r in H'.
Qed.

Lemma wf_push_old l c : wf_chunk c -> wf_chunk (push_old l c).
Proof.
  intros H. pose proof (wf_chunk_grow c [l] [] (is_end_of_file c) H) as H'.
  by rewrite app_nil_r in H'.
Qed.

Lemma diff_line_wf line f c : diff_line line = Some f -> wf_chunk c -> wf_chunk (f c).
Proof.
  intros H. destruct line as [|ch rest]; simpl in H;
    repeat case_bool_decide; simplify_eq;
    auto using wf_push_context_line, wf_push_new, wf_push_old.
Qed.

Lemma ensure_closed s n m line :
  state_inv s n -> ensure_update_hunk_is_not_empty s m line = Ok () ->
  Forall closed_hunk (hunks s).
Proof.
  intros [_ Hinv] H. destruct (mode s) as [| | | |k|] eqn:Em; [by rewrite Hinv..| | | |done].
  - destruct Hinv as (pre & path & c & -> & ? & ?). by apply Forall_snoc.
  - destruct Hinv as (pre & path & -> & ? & ?). by apply Forall_snoc.
  - destruct Hinv as (_ & pre & path & mv & cs & E & Hpre & Hp & Hmv & Hopen). rewrite E.
    unfold ensure_update_hunk_is_not_empty in H. rewrite E, last_snoc, Em in H.
    destruct (is_empty cs) eqn:Ecs; [done|].
    destruct (last_is chunk_is_empty cs) eqn:El; [by case_bool_decide|].
    apply Forall_snoc; [done|]. split; [done|]. split; [done|].
    split; [by apply is_empty_false|by apply open_chunks_closed].
Qed.

Lemma ensure_error s n m line e :
  state_inv s n -> 1 <= m -> n <= m -> ensure_update_hunk_is_not_empty s m line = Err e ->
  error_in_range e m.
Proof.
  intros [_ Hinv] Hm Hn H. unfold ensure_update_hunk_is_not_empty in H.
  destruct (last (hunks s)) as [[]|]; try done.
  destruct (is_empty chunks), (mode s) as [| | | |k|] eqn:Em;
    repeat case_match; simplify_eq/=; lia.
Qed.

Definition outcome_inv (r : result StreamingParserState ParseError) (n : nat) : Prop :=
  match r with Ok s' => state_inv s' n | Err e => error_in_range e n end.

(** The same for a header line, which may also be no header at all. *)
Definition header_inv (r : result (option StreamingParserState) ParseError) (n : nat) : Prop :=
  match r with
  | Ok (Some s') => state_inv s' n
  | Ok None => True
  | Err e => error_in_range e n
  end.

Lemma file_header_inv s n line :
  state_inv s n -> trim_end line = line -> header_inv (file_header s (S n) line) (S n).
Proof.
  intros Hinv Hline. unfold file_header.
  pose proof (ensure_closed s n (S n) line Hinv) as Hcl.
  destruct (ensure_update_hunk_is_not_empty s (S n) line) as [[]|e] eqn:Ee.
  2:{ apply (ensure_error s n) in Ee; [|done|lia..]. by repeat case_match; simplify_eq. }
  specialize (Hcl eq_refl). destruct Hinv as [Henv _].
  case_bool_decide as Hend; [by split|].
  destruct (strip_prefix ADD_FILE_MARKER line) eqn:E1;
    [|destruct (strip_prefix DELETE_FILE_MARKER line) eqn:E2;
    [|destruct (strip_prefix UPDATE_FILE_MARKER line) eqn:E3; [|done]]];
    (split; [done|]); simpl.
  - apply (header_path_ok _ $"*** Add File:") in E1; [|done].
    eexists _, _, _. split; [done|]. repeat split; try apply E1; auto.
  - apply (header_path_ok _ $"*** Delete File:") in E2; [|done]. eauto.
  - apply (header_path_ok _ $"*** Update File:") in E3; [|done]. split; [lia|].
    eexists _, _, None, []. repeat split; try apply E3; auto. done.
Qed.

Lemma handle_headers_inv s n line :
  state_inv s n -> trim_end line = line ->
  header_inv (handle_hunk_headers_and_end_patch s (S n) line) (S n).
Proof.
  intros Hinv Hline. unfold handle_hunk_headers_and_end_patch.
  pose proof (file_header_inv s n line Hinv Hline) as Hrest.
  destruct (is_started (mode s)) eqn:Em; [|exact Hrest].
  destruct (strip_prefix ENVIRONMENT_ID_MARKER line) as [rest|]; [|exact Hrest].
  unfold environment_line. destruct (environment_id s) eqn:Eenv; [done|].
  destruct (trim rest) as [|c l] eqn:Et; simpl; [done|].
  destruct Hinv as [_ Hinv]. split; simpl.
  - intros id [= <-]. split; [done|]. unfold trimmed. rewrite <- Et. apply trim_idemp.
  - by destruct (mode s).
Qed.

Lemma trim_end_trim l : trim_end (trim l) = trim l.
Proof. apply trim_end_idemp. Qed.

Lemma chunk_line_inv chunks n line :
  open_chunks chunks ->
  match chunk_line chunks (S n) line with
  | Ok chunks' => open_chunks chunks'
  | Err e => error_in_range e (S n)
  end.
Proof.
  intros Hch. unfold chunk_line, is_context_header, starts_with.
  pose proof (open_chunks_closed _ Hch) as Hcl.
  destruct (bool_decide (trim_end line = EMPTY_CHANGE_CONTEXT_MARKER));
    [|destruct (strip_prefix CHANGE_CONTEXT_MARKER (trim_end line))];
    simpl; destruct (last_is chunk_is_empty chunks) eqn:El;
    try (simpl; lia); try (by apply open_chunks_snoc; auto); simpl.
  all: case_bool_decide; try (simpl; lia); try (by apply open_chunks_update).
  all: destruct (diff_line line) as [f|] eqn:Ef; [|case_if; simpl; lia].
  all: apply open_chunks_on_last; [|done]; intros c; by apply (diff_line_wf line).
Qed.

Lemma update_hunk_line_inv move_path chunks n line :
  (forall q, move_path = Some q -> path_ok q) -> open_chunks chunks ->
  match update_hunk_line move_path chunks (S n) line with
  | Ok (move_path', chunks') =>
      (forall q, move_path' = Some q -> path_ok q) /\ open_chunks chunks'
  | Err e => error_in_range e (S n)
  end.
Proof.
  intros Hmv Hch. unfold update_hunk_line. pose proof (chunk_line_inv chunks n line Hch) as Hcl.
  destruct (last_is is_end_of_file chunks && is_empty (trim_end line)); [done|].
  destruct (last_is is_end_of_file chunks && negb _); [simpl; lia|].
  destruct (is_empty chunks && is_none move_path);
    [destruct (strip_prefix MOVE_TO_MARKER (trim_end line)) as [q|] eqn:E2|].
  - split; [|done]. intros q' [= <-].
    apply (header_path_ok (trim_end line) $"*** Move to:"); [apply trim_end_idemp|done].
  - by destruct (chunk_line chunks (S n) line).
  - by destruct (chunk_line chunks (S n) line).
Qed.

Lemma process_line_inv s n line :
  state_inv s n -> outcome_inv (process_line s (S n) line) (S n).
Proof.
  intros Hinv. unfold process_line.
  pose proof (handle_headers_inv s n _ Hinv (trim_end_trim line)) as Hh.
  pose proof (handle_headers_inv s n _ Hinv (trim_end_idemp line)) as Hu.
  destruct Hinv as [Henv Hinv]. destruct (mode s) as [| | | |k|] eqn:Em.
  - case_bool_decide; by try split.
  - destruct (handle_hunk_headers_and_end_patch s (S n) (trim line)) as [[s'|]|e]; simpl in *; auto with lia.
  - destruct (handle_hunk_headers_and_end_patch s (S n) (trim line)) as [[s'|]|e]; cbn [header_inv outcome_inv] in *; auto.
    destruct Hinv as (pre & path & c & E & Hpre & Hp & Hc). rewrite E, last_snoc.
    destruct (strip_prefix [43%N] line) as [l|]; simpl; [|lia]. split; [done|]. simpl.
    rewrite E, update_last_snoc. exists pre, path, (c ++ l ++ [LF]).
    repeat split; try done; try apply Hp. right. by rewrite app_assoc, last_snoc.
  - destruct (handle_hunk_headers_and_end_patch s (S n) (trim line)) as [[s'|]|e]; simpl in *; auto with lia.
  - destruct (handle_hunk_headers_and_end_patch s (S n) (trim_end line)) as [[s'|]|e]; cbn [header_inv outcome_inv] in *; auto.
    destruct Hinv as (Hk & pre & path & mv & cs & E & Hpre & Hp & Hmv & Hopen).
    rewrite E, last_snoc. pose proof (update_hunk_line_inv mv cs n line Hmv Hopen) as Hl.
    destruct (update_hunk_line mv cs (S n) line) as [[mv' cs']|e]; [|done].
    split; [done|]. simpl. split; [lia|]. rewrite E, update_last_snoc. naive_solver.
  - destruct (is_empty (trim line)); [split; [done|by rewrite Em]|done].
Qed.

(** ** Reachable parser states *)

Definition parser_inv (p : t) : Prop := state_inv (state p) (line_number p).

Lemma default_inv : parser_inv default.
Proof. by split. Qed.

Lemma push_char_inv p ch :
  parser_inv p ->
  parser_inv (push_char p ch).1 \/ exists e, (push_char p ch).2 = Err e.
Proof.
  intros H. unfold push_char. case_bool_decide; [|by left].
  pose proof (process_line_inv _ _ (match strip_suffix [CR] (line_buffer p) with
                | Some l => l | None => line_buffer p end) H) as Ho.
  destruct (process_line _ _ _) as [s'|e]; [by left|]. right. by exists e.
Qed.

Lemma push_chars_inv delta : forall p p',
  parser_inv p -> push_chars p delta = (p', Ok ()) -> parser_inv p'.
Proof.
  induction delta as [|ch delta IH]; simpl; intros p p' H E; [by simplify_eq|].
  pose proof (push_char_inv p ch H) as Hc.
  destruct (push_char p ch) as [q [[]|e]]; [|done].
  destruct Hc as [Hc|[e Hc]]; [by eapply IH|done].
Qed.

Lemma finish_line_inv s n line :
  state_inv s n -> outcome_inv (finish_line s (S n) line) (S n).
Proof.
  intros H. unfold finish_line. case_bool_decide; [|by apply process_line_inv].
  pose proof (ensure_closed s n (S n) (trim line) H) as Hcl.
  destruct (ensure_update_hunk_is_not_empty s (S n) (trim line)) as [[]|e] eqn:Ee.
  - destruct H as [Henv _]. split; [done|]. by apply Hcl.
  - apply (ensure_error s n) in Ee; [done|done|lia..].
Qed.

Lemma finish_inv p p' hs :
  parser_inv p -> finish p = (p', Ok hs) ->
  Forall closed_hunk hs /\ env_ok (environment_id (state p')).
Proof.
  intros H E. unfold finish, finish_buffer in E. unfold parser_inv in H.
  destruct (is_empty (line_buffer p)).
  - destruct H as [Henv H]. destruct (mode (state p)); by simplify_eq.
  - pose proof (finish_line_inv _ _ (line_buffer p) H) as Ho.
    destruct (finish_line _ _ _) as [s'|e]; [|done]. destruct Ho as [Henv Ho]. simpl in E.
    destruct (mode s'); by simplify_eq.
Qed.

Definition parser_environment_id (p : t) : option str := environment_id (state p).

End StreamingPatchParser.

(** ** Whole patch texts (parser.rs) *)

Module PatchText.
Import StreamingPatchParser.

Inductive ParseMode : Type := Strict | Lenient.

Definition check_start_and_end_lines_strict (first_line last_line : option str)
  : result () ParseError :=
  match trim <$> first_line, trim <$> last_line with
  | Some first, last =>
      if bool_decide (first = BEGIN_PATCH_MARKER) then
        if bool_decide (last = Some END_PATCH_MARKER) then Ok ()
        else Err (InvalidPatchError last_line_error)
      else Err (InvalidPatchError first_line_error)
  | None, _ => Err (InvalidPatchError last_line_error)
  end.

Definition check_patch_boundaries_strict (lines : list str) : result (list str) ParseError :=
  let? _ := check_start_and_end_lines_strict (head lines) (last lines) in Ok lines.

Definition is_heredoc_start (first : str) : bool :=
  bool_decide (first = $"<<EOF") || bool_decide (first = $"<<'EOF'")
  || bool_decide (first = $"<<" ++ [DQUOTE] ++ $"EOF" ++ [DQUOTE]).

Definition check_patch_boundaries_lenient (original_lines : list str)
  : result (list str) ParseError :=
  match check_patch_boundaries_strict original_lines with
  | Ok lines => Ok lines
  | Err original_parse_error =>
      match original_lines with
      | first :: (_ :: _) as rest =>
          match last rest with
          | Some last =>
              if is_heredoc_start first && ends_with last ($"EOF")
                 && (4 <=? length original_lines) then
                check_patch_boundaries_strict (removelast rest)
              else Err original_parse_error
          | None => Err original_parse_error
          end
      | _ => Err original_parse_error
      end
  end.

(** The parser run over the lines kept by the boundary check. *)
Definition run_parser (text : str) : result (list Hunk * option str) ParseError :=
  let '(p1, pushed) := push_delta default text in
  let? _ := pushed in
  let '(p2, finished) := finish p1 in
  let? hs := finished in
  Ok (hs, parser_environment_id p2).

Definition parse_patch_text (text : str) (mode : ParseMode) : result ApplyPatchArgs ParseError :=
  let ls := lines (trim text) in
  let? patch_lines :=
    match mode with
    | Strict => check_patch_boundaries_strict ls
    | Lenient => check_patch_boundaries_lenient ls
    end in
  let text' := join [LF] patch_lines in
  let? (hs, env) := run_parser text' in
  Ok {| patch := text'; PatchParser.hunks := hs; workdir := None; args_environment_id := env |}.

Definition parse_patch (text : str) : result ApplyPatchArgs ParseError :=
  parse_patch_text text (if PARSE_IN_STRICT_MODE then Strict else Lenient).

(** The patch of the doc comment, parsed. *)
Definition sample_patch : str := join [LF]
  [ $"*** Begin Patch"; $"*** Environment ID: remote"; $"*** Add File: a.txt"; $"+one"; $"+";
    $"*** Update File: b.txt"; $"*** Move to: c.txt"; $"@@ fn main()"; $" keep"; $"-old";
    $"+new"; []; $"*** End of File"; $"*** Delete File: d.txt"; $"*** End Patch" ].

Example parse_sample :
  parse_patch sample_patch = Ok {|
    patch := sample_patch;
    PatchParser.hunks :=
      [ AddFile $"a.txt" ($"one" ++ [LF; LF]);
        UpdateFile $"b.txt" (Some $"c.txt")
          [ mkChunk (Some $"fn main()") [$"keep"; $"old"; []] [$"keep"; $"new"; []]
              [(0, 0); (2, 2)] true ];
        DeleteFile $"d.txt" ];
    workdir := None; args_environment_id := Some $"remote" |}.
Proof. vm_compute. reflexivity. Qed.

Example parse_empty_update :
  parse_patch (join [LF] [BEGIN_PATCH_MARKER; $"*** Update File: a"; END_PATCH_MARKER])
  = Err (InvalidHunkError ($"Update file hunk for path 'a' is empty") 2).
Proof. vm_compute. reflexivity. Qed.

(** ** Results are well formed *)

Lemma parse_patch_lenient text :
  parse_patch text =
    let? ls := check_patch_boundaries_lenient (lines (trim text)) in
    let? (hs, env) := run_parser (join [LF] ls) in
    Ok (mkArgs (join [LF] ls) hs None env).
Proof. done. Qed.

Lemma parse_closed_hunks text args :
  parse_patch text = Ok args ->
  Forall closed_hunk (PatchParser.hunks args) /\ env_ok (args_environment_id args)
  /\ workdir args = None.
Proof.
  rewrite parse_patch_lenient.
  destruct (check_patch_boundaries_lenient _) as [ls|]; [|done]. unfold run_parser, push_delta.
  destruct (push_chars default (join [LF] ls)) as [p1 [[]|]] eqn:E1; [|done].
  destruct (finish p1) as [p2 [hs|]] eqn:E2; [|done]. intros [= <-]. simpl.
  apply push_chars_inv in E1; [|apply default_inv].
  by apply finish_inv in E2 as [? ?].
Qed.

Lemma closed_wf_hunk h : closed_hunk h -> wf_hunk h.
Proof.
  destruct h as [| |p mv cs]; [done|done|]. intros (_ & _ & _ & H).
  eapply Forall_impl; [exact H|]. by intros c [].
Qed.

Lemma parse_wf_hunks text args :
  parse_patch text = Ok args -> Forall wf_hunk (PatchParser.hunks args).
Proof.
  intros [H _]%parse_closed_hunks. eapply Forall_impl; [exact H|]. apply closed_wf_hunk.
Qed.

(** whatever [parse_patch] accepts is well formed: paths are not empty and
    carry no trailing blank, every update hunk has a chunk and every chunk a
    line, the context pairs point at equal old and new lines, added contents end
    their last line, and an environment id is trimmed and not empty. *)
Theorem parse_patch_closed text args :
  parse_patch text = Ok args ->
  Forall closed_hunk (PatchParser.hunks args) /\ env_ok (args_environment_id args)
  /\ workdir args = None.
Proof. apply parse_closed_hunks. Qed.

Lemma parse_patch_closed_witness :
  exists args, parse_patch sample_patch = Ok args
  /\ Forall closed_hunk (PatchParser.hunks args) /\ env_ok (args_environment_id args)
  /\ workdir args = None.
Proof.
  eexists. split; [apply parse_sample|]. apply (parse_patch_closed sample_patch).
  apply parse_sample.
Defined.

End PatchText.
