(* ===== verification/PatchPrinter.v ===== *)
(** * A printer for patches, and the round trip through the parser

    The patch language of the grammar in parser.rs, as a syntax tree with its
    rendering and the hunks it stands for; the parser of PatchParser.v inverts
    the rendering, directly and through the heredoc leniency. *)

From S2P Require Import Prelude RustStr PatchTypes PatchParser.

Module PatchPrinter.
Import StreamingPatchParser PatchText.

(** ** Syntax, rendering, meaning *)

Inductive diff : Type := Keep (l : str) | Plus (l : str) | Minus (l : str).

Record chunk_src : Type := mkChunkSrc {
  src_context : option str;
  src_diffs : list diff;
  src_eof : bool;
}.

Inductive hunk_src : Type :=
| SAdd (path : str) (contents : list str)
| SDelete (path : str)
| SUpdate (path : str) (move_to : option str) (chunks : list chunk_src).

Definition render_diff (d : diff) : str :=
  match d with Keep l => 32%N :: l | Plus l => 43%N :: l | Minus l => 45%N :: l end.

Definition render_context (ctx : option str) : str :=
  match ctx with
  | None => EMPTY_CHANGE_CONTEXT_MARKER
  | Some c => CHANGE_CONTEXT_MARKER ++ c
  end.

Definition render_chunk (c : chunk_src) : list str :=
  render_context (src_context c) :: map render_diff (src_diffs c)
  ++ (if src_eof c then [EOF_MARKER] else []).

Definition render_move (q : option str) : list str :=
  match q with None => [] | Some q => [MOVE_TO_MARKER ++ q] end.

Definition render_hunk (h : hunk_src) : list str :=
  match h with
  | SAdd path contents => (ADD_FILE_MARKER ++ path) :: map (cons 43%N) contents
  | SDelete path => [DELETE_FILE_MARKER ++ path]
  | SUpdate path move_to chunks =>
      (UPDATE_FILE_MARKER ++ path) :: render_move move_to ++ concat (map render_chunk chunks)
  end.

Definition render_env (env : option str) : list str :=
  match env with None => [] | Some id => [ENVIRONMENT_ID_MARKER ++ 32%N :: id] end.

Definition render_body (env : option str) (hs : list hunk_src) : list str :=
  BEGIN_PATCH_MARKER :: render_env env ++ concat (map render_hunk hs).

Definition render_patch (env : option str) (hs : list hunk_src) : str :=
  join [LF] (render_body env hs ++ [END_PATCH_MARKER]).

Definition push_diff (c : UpdateFileChunk) (d : diff) : UpdateFileChunk :=
  match d with
  | Keep l => push_context_line l c
  | Plus l => push_new l c
  | Minus l => push_old l c
  end.

Definition chunk_of (c : chunk_src) : UpdateFileChunk :=
  let body := fold_left push_diff (src_diffs c) (mkChunk (src_context c) [] [] [] false) in
  if src_eof c then mark_eof body else body.

Definition unlines (ls : list str) : str := concat (map (fun l => l ++ [LF]) ls).

Definition hunk_of (h : hunk_src) : Hunk :=
  match h with
  | SAdd path contents => AddFile path (unlines contents)
  | SDelete path => DeleteFile path
  | SUpdate path move_to chunks => UpdateFile path move_to (map chunk_of chunks)
  end.

(** What the grammar asks of the texts: one line each, and no blank at the end
    of a path or a context, where the parser trims. *)
Definition line_path (p : str) : Prop := path_ok p /\ ~ In LF p.
Definition diff_text (d : diff) : str :=
  match d with Keep l | Plus l | Minus l => l end.

Definition valid_chunk (c : chunk_src) : Prop :=
  (forall ctx, src_context c = Some ctx -> line_path ctx)
  /\ src_diffs c <> [] /\ Forall (fun d => plain_line (diff_text d)) (src_diffs c).

Definition valid_hunk (h : hunk_src) : Prop :=
  match h with
  | SAdd path contents => line_path path /\ Forall plain_line contents
  | SDelete path => line_path path
  | SUpdate path move_to chunks =>
      line_path path /\ (forall q, move_to = Some q -> line_path q)
      /\ chunks <> [] /\ Forall valid_chunk chunks
  end.

Definition valid_env (env : option str) : Prop :=
  forall id, env = Some id -> line_path id /\ trimmed id.

(** ** Running the parser line by line *)

Fixpoint process_lines (s : StreamingParserState) (n : nat) (ls : list str)
  : result StreamingParserState ParseError :=
  match ls with
  | [] => Ok s
  | l :: ls' => let? s' := process_line s (S n) l in process_lines s' (S n) ls'
  end.

Lemma process_lines_app ls1 ls2 : forall s n s' ,
  process_lines s n ls1 = Ok s' ->
  process_lines s n (ls1 ++ ls2) = process_lines s' (n + length ls1) ls2.
Proof.
  induction ls1 as [|l ls1 IH]; simpl; intros s n s' H.
  - simplify_eq. by rewrite Nat.add_0_r.
  - destruct (process_line s (S n) l) as [s1|]; [|done]. rewrite (IH _ _ s') by done.
    f_equal. lia.
Qed.

Lemma push_chars_text w : forall b s n,
  ~ In LF w -> push_chars (mkParser b s n) w = (mkParser (b ++ w) s n, Ok ()).
Proof.
  induction w as [|c w IH]; intros b s n H; simpl; [by rewrite app_nil_r|].
  unfold push_char. rewrite bool_decide_eq_false_2 by naive_solver. simpl.
  rewrite IH by naive_solver. by rewrite <- app_assoc.
Qed.

Lemma push_chars_line l s n :
  plain_line l ->
  push_chars (mkParser [] s n) (l ++ [LF]) =
    match process_line s (S n) l with
    | Ok s' => (mkParser [] s' (S n), Ok ())
    | Err e => (mkParser [] s (S n), Err e)
    end.
Proof.
  intros [Hlf Hcr]. rewrite push_chars_app, push_chars_text by done. simpl.
  unfold push_char. rewrite bool_decide_eq_true_2 by done. simpl.
  rewrite (proj2 (strip_suffix_None [CR] l) Hcr). by destruct (process_line s (S n) l).
Qed.

Lemma push_chars_unlines ls : forall s n s',
  Forall plain_line ls -> process_lines s n ls = Ok s' ->
  push_chars (mkParser [] s n) (unlines ls) = (mkParser [] s' (n + length ls), Ok ()).
Proof.
  induction ls as [|l ls IH]; intros s n s' Hls H.
  - simpl in *. simplify_eq. by rewrite Nat.add_0_r.
  - apply Forall_cons in Hls as [Hl Hls]. unfold unlines; simpl in *.
    rewrite push_chars_app, push_chars_line by done.
    destruct (process_line s (S n) l) as [s1|]; [|done]. fold (unlines ls).
    rewrite (IH _ _ s') by done. do 2 f_equal. lia.
Qed.

Lemma join_unlines ls l : join [LF] (ls ++ [l]) = unlines ls ++ l.
Proof.
  induction ls as [|w ls IH]; [done|]. rewrite <- app_comm_cons.
  rewrite join_cons by (by destruct ls). rewrite IH. unfold unlines; simpl.
  by rewrite <- !app_assoc.
Qed.

Lemma unlines_snoc ls l : unlines (ls ++ [l]) = unlines ls ++ l ++ [LF].
Proof. unfold unlines. by rewrite map_app, concat_app; simpl; rewrite app_nil_r. Qed.

(** ** Lines of the rendering, one parser step each *)

(** No hunk is left without lines, so any header may follow. *)
Definition ready (s : StreamingParserState) : Prop :=
  forall m line, ensure_update_hunk_is_not_empty s m line = Ok ().

Definition inside (m : StreamingParserMode) : Prop := m <> NotStarted /\ m <> EndedPatch.

Lemma trimmed_header (c : char) (m p : str) :
  is_whitespace c = false -> path_ok p ->
  trim ((c :: m) ++ p) = (c :: m) ++ p /\ trim_end ((c :: m) ++ p) = (c :: m) ++ p.
Proof.
  intros Hc [Hne Hp]. destruct (snoc_cases p) as [->|(p' & d & ->)]; [done|].
  rewrite trim_end_snoc in Hp.
  assert (is_whitespace d = false) as Hd.
  { destruct (is_whitespace d); [|done]. destruct (trim_end_prefix p') as (w & Hw & _).
    apply (f_equal length) in Hw, Hp. rewrite !length_app in *. simpl in *. lia. }
  assert (forall q, trim_end (q ++ [d]) = q ++ [d]) as H.
  { intros q. by rewrite trim_end_snoc, Hd. }
  rewrite app_assoc. split; [|apply H]. unfold trim. rewrite <- app_assoc.
  rewrite <- app_comm_cons, trim_start_id, app_comm_cons, app_assoc by done. apply H.
Qed.

Lemma process_header s n line s' :
  inside (mode s) -> trim line = line /\ trim_end line = line ->
  handle_hunk_headers_and_end_patch s n line = Ok (Some s') -> process_line s n line = Ok s'.
Proof.
  intros [H1 H2] [Ht He] H. unfold process_line. rewrite Ht, He, H. by destruct (mode s).
Qed.

(** Decides the marker tests of a line whose first characters are known. *)
Ltac solve_marker :=
  repeat first
    [ rewrite bool_decide_eq_false_2 by (let H := fresh in intros H; discriminate H)
    | match goal with |- context [strip_prefix ?m ?l] =>
        let r := eval cbn in (strip_prefix m l) in
        lazymatch r with None => change (strip_prefix m l) with (@None str) end
      end ].

Lemma handle_add s n p :
  ready s -> handle_hunk_headers_and_end_patch s n (ADD_FILE_MARKER ++ p)
  = Ok (Some (push_hunk (AddFile p []) InAddFile s)).
Proof.
  intros H. unfold handle_hunk_headers_and_end_patch, file_header.
  solve_marker. rewrite strip_prefix_app, H. by destruct (is_started _).
Qed.

Lemma handle_delete s n p :
  ready s -> handle_hunk_headers_and_end_patch s n (DELETE_FILE_MARKER ++ p)
  = Ok (Some (push_hunk (DeleteFile p) InDeleteFile s)).
Proof.
  intros H. unfold handle_hunk_headers_and_end_patch, file_header.
  solve_marker. rewrite strip_prefix_app, H. by destruct (is_started _).
Qed.

Lemma handle_update s n p :
  ready s -> handle_hunk_headers_and_end_patch s n (UPDATE_FILE_MARKER ++ p)
  = Ok (Some (push_hunk (UpdateFile p None []) (InUpdateFile n) s)).
Proof.
  intros H. unfold handle_hunk_headers_and_end_patch, file_header.
  solve_marker. rewrite strip_prefix_app, H. by destruct (is_started _).
Qed.

(** Lines that are no header: they do not start with an asterisk. *)
Definition no_star (line : str) : Prop :=
  match line with [] => True | c :: _ => c <> 42%N end.

Lemma strip_prefix_no_star m line :
  head m = Some 42%N -> no_star line -> strip_prefix m line = None.
Proof.
  intros Hm H. destruct m as [|d m]; [done|]. injection Hm as ->.
  destruct line as [|c l]; [done|]. simpl in *. by rewrite bool_decide_eq_false_2.
Qed.

Lemma handle_no_star s n line :
  no_star line -> handle_hunk_headers_and_end_patch s n line = Ok None.
Proof.
  intros H. unfold handle_hunk_headers_and_end_patch, file_header.
  rewrite !strip_prefix_no_star by done.
  rewrite bool_decide_eq_false_2 by (intros ->; by apply H). by destruct (is_started _).
Qed.

Lemma trim_end_head (c : char) (l : str) :
  trim_end (c :: l) = [] \/ exists l', trim_end (c :: l) = c :: l'.
Proof.
  destruct (is_whitespace c) eqn:E; [|rewrite trim_end_cons by done; eauto].
  destruct (trim_end_prefix (c :: l)) as (w & Hw & _).
  destruct (trim_end (c :: l)) as [|d l']; [by left|]. right. exists l'. by injection Hw as -> _.
Qed.

Lemma process_added pre p c env l n :
  process_line (mkState InAddFile (pre ++ [AddFile p c]) env) n (43%N :: l)
  = Ok (mkState InAddFile (pre ++ [AddFile p (c ++ l ++ [LF])]) env).
Proof.
  unfold process_line; simpl mode; cbv iota.
  assert (no_star (trim (43%N :: l))) as H.
  { unfold trim. rewrite trim_start_id by done. by rewrite trim_end_cons. }
  rewrite handle_no_star by done. simpl. rewrite last_snoc. unfold set_last_hunk; simpl.
  by rewrite update_last_snoc.
Qed.

(** The parser inside an update hunk. *)
Definition updating (k : nat) (pre : list Hunk) (p : str) (mv : option str)
    (chunks : list UpdateFileChunk) (env : option str) : StreamingParserState :=
  mkState (InUpdateFile k) (pre ++ [UpdateFile p mv chunks]) env.

Lemma process_updating k pre p mv cs env n line mv' cs' :
  handle_hunk_headers_and_end_patch (updating k pre p mv cs env) n (trim_end line) = Ok None ->
  update_hunk_line mv cs n line = Ok (mv', cs') ->
  process_line (updating k pre p mv cs env) n line = Ok (updating k pre p mv' cs' env).
Proof.
  intros Hh Hu. unfold process_line; simpl mode; cbv iota. rewrite Hh. simpl.
  rewrite last_snoc, Hu. unfold set_last_hunk; simpl. by rewrite update_last_snoc.
Qed.

Lemma update_hunk_line_chunk mv cs n line :
  last_is is_end_of_file cs && negb (is_context_header (trim_end line)) = false ->
  (is_empty cs && is_none mv = false
   \/ strip_prefix MOVE_TO_MARKER (trim_end line) = None) ->
  trim_end line <> [] \/ last_is is_end_of_file cs = false ->
  update_hunk_line mv cs n line = let? cs' := chunk_line cs n line in Ok (mv, cs').
Proof.
  intros H1 H2 H3. unfold update_hunk_line. rewrite H1.
  replace (last_is is_end_of_file cs && is_empty (trim_end line)) with false.
  2:{ destruct H3 as [H3| ->]; [|done]. apply is_empty_false in H3. by rewrite H3, andb_false_r. }
  destruct H2 as [->| ->]; [done|]. by destruct (is_empty cs && is_none mv).
Qed.

(** The trimmed diff line is empty or keeps its mark. *)
Definition diff_mark (d : diff) : char :=
  match d with Keep _ => 32%N | Plus _ => 43%N | Minus _ => 45%N end.

Lemma render_diff_trim d :
  trim_end (render_diff d) = [] \/ exists l, trim_end (render_diff d) = diff_mark d :: l.
Proof. destruct d; apply trim_end_head. Qed.

Lemma chunk_line_diff cs c n d :
  chunk_line (cs ++ [c]) n (render_diff d) = Ok (cs ++ [push_diff c d]).
Proof.
  unfold chunk_line, is_context_header, starts_with.
  assert (forall m, head m = Some 42%N \/ head m = Some 64%N ->
    trim_end (render_diff d) <> m /\ strip_prefix m (trim_end (render_diff d)) = None) as Hm.
  { intros m Hm. destruct (render_diff_trim d) as [->|[l ->]], m as [|x m]; simpl in Hm;
      try (by destruct Hm); split; try done.
    - destruct Hm as [[= ->]|[= ->]]; by destruct d.
    - destruct Hm as [[= ->]|[= ->]]; by destruct d. }
  destruct (Hm EMPTY_CHANGE_CONTEXT_MARKER) as [E1 _]; [by right|].
  destruct (Hm CHANGE_CONTEXT_MARKER) as [_ E2]; [by right|].
  destruct (Hm EOF_MARKER) as [E3 _]; [by left|].
  rewrite !bool_decide_eq_false_2 by done. rewrite E2. simpl.
  assert (diff_line (render_diff d) = Some (fun c => push_diff c d)) as -> by (by destruct d).
  unfold on_last_chunk. destruct (is_empty (cs ++ [c])) eqn:E.
  - apply is_empty_true in E. by destruct cs.
  - by rewrite update_last_snoc.
Qed.

Lemma push_diff_eof c d : is_end_of_file (push_diff c d) = is_end_of_file c.
Proof. by destruct d. Qed.

Lemma process_diffs k pre p mv cs env ds : forall n c,
  is_end_of_file c = false ->
  process_lines (updating k pre p mv (cs ++ [c]) env) n (map render_diff ds)
  = Ok (updating k pre p mv (cs ++ [fold_left push_diff ds c]) env).
Proof.
  induction ds as [|d ds IH]; intros n c Hc; [done|]. simpl.
  erewrite process_updating; [apply IH; by rewrite push_diff_eof|..].
  - apply handle_no_star. destruct (render_diff_trim d) as [->|[l ->]]; by destruct d.
  - rewrite update_hunk_line_chunk; [by rewrite chunk_line_diff|..];
      rewrite ?last_is_snoc, ?Hc; [done| |by right]. left. by destruct cs.
Qed.

Lemma push_diff_filled c d : chunk_is_empty (push_diff c d) = false.
Proof.
  unfold chunk_is_empty. destruct d; simpl;
    rewrite ?(proj2 (is_empty_false (_ ++ _))) by (intros E; by apply app_nil in E as [_ ?]);
    by rewrite ?andb_false_r.
Qed.

Lemma fold_push_diff_filled ds : forall c,
  ds <> [] -> chunk_is_empty (fold_left push_diff ds c) = false.
Proof.
  induction ds as [|d ds IH]; [done|]. intros c _. simpl.
  destruct ds as [|d' ds]; [apply push_diff_filled|]. by apply IH.
Qed.

Lemma fold_push_diff_eof ds : forall c,
  is_end_of_file (fold_left push_diff ds c) = is_end_of_file c.
Proof.
  induction ds as [|d ds IH]; intros c; [done|]. simpl. by rewrite IH, push_diff_eof.
Qed.

Lemma chunk_of_filled c : src_diffs c <> [] -> chunk_is_empty (chunk_of c) = false.
Proof.
  intros H. unfold chunk_of. destruct (src_eof c); by apply fold_push_diff_filled.
Qed.

Lemma render_context_trim ctx :
  (forall c, ctx = Some c -> line_path c) -> trim_end (render_context ctx) = render_context ctx.
Proof.
  intros H. destruct ctx as [c|]; [|done].
  apply (trimmed_header 64%N [64%N; 32%N] c); [done|]. by apply H.
Qed.

Lemma process_context k pre p mv cs env n ctx :
  last_is chunk_is_empty cs = false -> (forall c, ctx = Some c -> line_path c) ->
  process_line (updating k pre p mv cs env) n (render_context ctx)
  = Ok (updating k pre p mv (cs ++ [mkChunk ctx [] [] [] false]) env).
Proof.
  intros Hcs Hctx. pose proof (render_context_trim ctx Hctx) as Ht.
  assert (is_context_header (render_context ctx) = true) as Hh.
  { unfold is_context_header. destruct ctx as [c|]; [|done].
    apply orb_true_iff. right. apply starts_with_true. by exists c. }
  apply process_updating.
  - apply handle_no_star. rewrite Ht. by destruct ctx.
  - rewrite update_hunk_line_chunk.
    + unfold chunk_line. rewrite Ht, Hh, Hcs. by destruct ctx.
    + by rewrite Ht, Hh, andb_false_r.
    + right. rewrite Ht. by destruct ctx.
    + left. rewrite Ht. by destruct ctx.
Qed.

Lemma process_eof k pre p mv cs c env n :
  chunk_is_empty c = false -> is_end_of_file c = false ->
  process_line (updating k pre p mv (cs ++ [c]) env) n EOF_MARKER
  = Ok (updating k pre p mv (cs ++ [mark_eof c]) env).
Proof.
  intros Hf Heof. apply process_updating; [done|].
  rewrite update_hunk_line_chunk; rewrite ?last_is_snoc, ?Heof; [|done|by right|by right].
  unfold chunk_line. change (is_context_header (trim_end EOF_MARKER)) with false.
  rewrite last_is_snoc, Hf, update_last_snoc. done.
Qed.

Lemma process_chunk k pre p mv cs env n c :
  last_is chunk_is_empty cs = false -> valid_chunk c ->
  process_lines (updating k pre p mv cs env) n (render_chunk c)
  = Ok (updating k pre p mv (cs ++ [chunk_of c]) env).
Proof.
  intros Hcs (Hctx & Hne & _). unfold render_chunk. simpl.
  rewrite process_context by done. cbv iota. erewrite process_lines_app by (by apply process_diffs).
  unfold chunk_of. destruct (src_eof c); [|done]. simpl.
  rewrite process_eof; [done| |]; [by apply fold_push_diff_filled|by rewrite fold_push_diff_eof].
Qed.

Lemma process_chunks k pre p mv env chunks : forall cs n,
  last_is chunk_is_empty cs = false -> Forall valid_chunk chunks ->
  process_lines (updating k pre p mv cs env) n (concat (map render_chunk chunks))
  = Ok (updating k pre p mv (cs ++ map chunk_of chunks) env).
Proof.
  induction chunks as [|c chunks IH]; intros cs n Hcs Hv; cbn [map concat]; [by rewrite app_nil_r|].
  apply Forall_cons in Hv as [Hc Hv].
  erewrite process_lines_app by (by apply process_chunk).
  rewrite IH; [by rewrite <- app_assoc| |done].
  rewrite last_is_snoc. apply chunk_of_filled, Hc.
Qed.

(** ** Hunks and patches *)

(** The header line of a hunk is read by [process_line] as by
    [handle_hunk_headers_and_end_patch]. *)
Definition hunk_state (h : hunk_src) (n : nat) (pre : list Hunk) (env : option str)
  : StreamingParserState :=
  mkState match h with
          | SAdd _ _ => InAddFile | SDelete _ => InDeleteFile | SUpdate _ _ _ => InUpdateFile n
          end (pre ++ [hunk_of h]) env.

Lemma process_add_lines pre p env contents : forall n c,
  process_lines (mkState InAddFile (pre ++ [AddFile p c]) env) n (map (cons 43%N) contents)
  = Ok (mkState InAddFile (pre ++ [AddFile p (c ++ unlines contents)]) env).
Proof.
  induction contents as [|l ls IH]; intros n c; [by rewrite app_nil_r|]. simpl map.
  cbn [process_lines]. rewrite process_added, IH. unfold unlines; simpl.
  by rewrite <- !app_assoc.
Qed.

Lemma process_move n k pre p q env :
  path_ok q ->
  process_line (updating k pre p None [] env) n (MOVE_TO_MARKER ++ q)
  = Ok (updating k pre p (Some q) [] env).
Proof.
  intros Hq. destruct (trimmed_header 42%N ($"** Move to: ") q) as [_ Ht]; [done|done|].
  change (42%N :: $"** Move to: ") with MOVE_TO_MARKER in Ht.
  apply process_updating; rewrite ?Ht.
  - unfold handle_hunk_headers_and_end_patch, file_header. simpl is_started. by solve_marker.
  - unfold update_hunk_line. rewrite Ht. simpl last_is. cbn [andb is_empty is_none].
    by rewrite strip_prefix_app.
Qed.

Lemma process_moves n k pre p mv env :
  (forall q, mv = Some q -> line_path q) ->
  process_lines (updating k pre p None [] env) n (render_move mv)
  = Ok (updating k pre p mv [] env).
Proof.
  intros H. destruct mv as [q|]; [|done]. cbn [render_move process_lines]. rewrite process_move; [done|]. by apply H.
Qed.

Lemma process_hunk s n h :
  ready s -> inside (mode s) -> valid_hunk h ->
  process_lines s n (render_hunk h) = Ok (hunk_state h (S n) (hunks s) (environment_id s)).
Proof.
  intros Hr Hin Hv. destruct h as [p contents|p|p mv chunks]; simpl in Hv.
  - destruct Hv as [[Hp _] Hv]. cbn [render_hunk process_lines].
    erewrite process_header;
      [|done|by apply (trimmed_header 42%N ($"** Add File: ") p)|by apply handle_add].
    apply (process_add_lines (hunks s) p (environment_id s)).
  - destruct Hv as [Hp _]. cbn [render_hunk process_lines].
    by erewrite process_header;
      [|done|by apply (trimmed_header 42%N ($"** Delete File: ") p)|by apply handle_delete].
  - destruct Hv as ([Hp _] & Hmv & Hne & Hv). cbn [render_hunk process_lines].
    erewrite process_header;
      [|done|by apply (trimmed_header 42%N ($"** Update File: ") p)|by apply handle_update].
    change (push_hunk _ _ s) with (updating (S n) (hunks s) p None [] (environment_id s)).
    erewrite process_lines_app by (by apply process_moves). by rewrite process_chunks.
Qed.

Lemma hunk_state_ready h n pre env :
  valid_hunk h -> ready (hunk_state h n pre env) /\ inside (mode (hunk_state h n pre env)).
Proof.
  intros Hv. split; [|by destruct h]. intros m line.
  unfold ensure_update_hunk_is_not_empty. simpl. rewrite last_snoc.
  destruct h as [| |p mv chunks]; simpl; [done|done|]. destruct Hv as (_ & _ & Hne & Hv).
  destruct (snoc_cases chunks) as [->|(cs & c & ->)]; [done|].
  apply Forall_app in Hv as [_ Hc]. apply Forall_inv in Hc as (_ & Hc & _).
  rewrite map_app; simpl. rewrite last_is_snoc, chunk_of_filled by done.
  by destruct (is_empty _) eqn:E; [apply is_empty_true, app_nil in E as [_ ?]|].
Qed.

Lemma process_hunks hs : forall s n,
  ready s -> inside (mode s) -> Forall valid_hunk hs ->
  exists s', process_lines s n (concat (map render_hunk hs)) = Ok s'
  /\ hunks s' = hunks s ++ map hunk_of hs /\ environment_id s' = environment_id s
  /\ ready s' /\ inside (mode s').
Proof.
  induction hs as [|h hs IH]; intros s n Hr Hin Hv.
  - exists s. by rewrite app_nil_r.
  - apply Forall_cons in Hv as [Hh Hv].
    destruct (hunk_state_ready h (S n) (hunks s) (environment_id s) Hh) as [Hr' Hin'].
    destruct (IH _ (n + length (render_hunk h)) Hr' Hin' Hv) as (s' & E & Hhs & Henv & ?).
    exists s'. simpl. rewrite (process_lines_app _ _ _ _ _ (process_hunk s n h Hr Hin Hh)).
    split; [done|]. rewrite Hhs; simpl. by rewrite <- app_assoc.
Qed.

Lemma process_body env hs :
  valid_env env -> Forall valid_hunk hs ->
  exists s', process_lines (state default) 0 (render_body env hs) = Ok s'
  /\ hunks s' = map hunk_of hs /\ environment_id s' = env
  /\ ready s' /\ inside (mode s').
Proof.
  intros Henv Hv. unfold render_body. cbn [process_lines].
  change (process_line (state default) 1 BEGIN_PATCH_MARKER)
    with (@Ok StreamingParserState ParseError (mkState StartedPatch [] None)). cbv iota.
  destruct env as [id|]; [|by apply (process_hunks hs (mkState StartedPatch [] None))].
  destruct (Henv id eq_refl) as [[Hid _] Ht].
  assert (process_line (mkState StartedPatch [] None) 2 (ENVIRONMENT_ID_MARKER ++ 32%N :: id)
    = Ok (mkState StartedPatch [] (Some id))) as Hl.
  { apply process_header; [done|by apply (trimmed_header 42%N ($"** Environment ID: ") id)|].
    unfold handle_hunk_headers_and_end_patch. rewrite strip_prefix_app. simpl is_started.
    unfold environment_line. cbn [environment_id].
    assert (trim (32%N :: id) = id) as -> by exact Ht.
    destruct Hid as [Hid _]. apply is_empty_false in Hid. by rewrite Hid. }
  cbn [render_env app process_lines]. rewrite Hl. cbv iota.
  by apply (process_hunks hs (mkState StartedPatch [] (Some id))).
Qed.

(** Every rendered line is a line of text. *)
Lemma plain_app m l : ~ In LF m -> l <> [] -> plain_line l -> plain_line (m ++ l).
Proof.
  intros Hm Hne [Hlf Hcr]. split; [rewrite in_app_iff; naive_solver|].
  intros t E. destruct (snoc_cases l) as [->|(l' & c & ->)]; [done|].
  rewrite app_assoc in E. apply app_inj_tail in E as [_ ->]. by apply (Hcr l').
Qed.

Lemma line_path_plain p : line_path p -> plain_line p /\ p <> [].
Proof.
  intros [[Hne Ht] Hlf]. split; [|done]. split; [done|]. intros t ->.
  rewrite trim_end_snoc in Ht. simpl in Ht.
  destruct (trim_end_prefix t) as (w & Hw & _). apply (f_equal length) in Hw, Ht.
  rewrite !length_app in *. simpl in *. lia.
Qed.

Lemma plain_mark (c : char) l : c <> LF -> c <> CR -> plain_line l -> plain_line (c :: l).
Proof.
  intros H1 H2 Hl. destruct l as [|d l]; [|by apply (plain_app [c]); [intros [?|[]]| |]].
  split; [by intros [?|[]]|]. intros [|? t] E; [by injection E|by destruct t].
Qed.

Lemma plain_diffs ds :
  Forall (fun d => plain_line (diff_text d)) ds -> Forall plain_line (map render_diff ds).
Proof.
  intros H. apply Forall_map. eapply Forall_impl; [exact H|].
  intros [] Hd; by apply plain_mark.
Qed.

Lemma plain_header m p :
  forallb (fun c => negb (N.eqb c LF)) m = true -> line_path p -> plain_line (m ++ p).
Proof.
  intros Hm Hp. apply line_path_plain in Hp as [Hp Hne]. apply plain_app; [|done|done].
  intros Hin. rewrite forallb_forall in Hm. by apply Hm in Hin.
Qed.

Lemma plain_const m :
  forallb (fun c => negb (N.eqb c LF)) m = true -> last m <> Some CR -> plain_line m.
Proof.
  intros Hm Hcr. split.
  - intros Hin. rewrite forallb_forall in Hm. by apply Hm in Hin.
  - intros t ->. by rewrite last_snoc in Hcr.
Qed.

Lemma plain_chunk c : valid_chunk c -> Forall plain_line (render_chunk c).
Proof.
  intros (Hctx & _ & Hds). unfold render_chunk. constructor.
  - destruct (src_context c) as [ctx|]; [by apply (plain_header CHANGE_CONTEXT_MARKER); auto|].
    by apply plain_const.
  - apply Forall_app. split; [by apply plain_diffs|].
    destruct (src_eof c); [|done]. constructor; [|done].
    by apply plain_const.
Qed.

Lemma plain_hunk h : valid_hunk h -> Forall plain_line (render_hunk h).
Proof.
  destruct h as [p contents|p|p mv chunks]; cbn [valid_hunk render_hunk].
  - intros [Hp Hc]. constructor; [by apply plain_header|]. apply Forall_map.
    eapply Forall_impl; [exact Hc|]. intros l Hl. by apply plain_mark.
  - intros Hp. constructor; [by apply plain_header|done].
  - intros (Hp & Hmv & _ & Hv). constructor; [by apply plain_header|].
    apply Forall_app. split.
    + destruct mv as [q|]; [|done]. constructor; [|done]. apply plain_header; auto.
    + apply Forall_concat, Forall_map. eapply Forall_impl; [exact Hv|]. apply plain_chunk.
Qed.

Lemma plain_body env hs :
  valid_env env -> Forall valid_hunk hs -> Forall plain_line (render_body env hs).
Proof.
  intros Henv Hv. constructor.
  { by apply plain_const. }
  apply Forall_app. split.
  - destruct env as [id|]; [|done]. constructor; [|done].
    apply (plain_header ($"*** Environment ID: ") id); [done|]. by apply Henv.
  - apply Forall_concat, Forall_map. eapply Forall_impl; [exact Hv|]. apply plain_hunk.
Qed.

(** ** The round trip *)

Lemma run_parser_render env hs :
  valid_env env -> Forall valid_hunk hs ->
  run_parser (render_patch env hs) = Ok (map hunk_of hs, env).
Proof.
  intros Henv Hv. destruct (process_body env hs Henv Hv) as (s' & E & Hhs & He & Hr & Hin).
  unfold run_parser, push_delta, render_patch. rewrite join_unlines, push_chars_app.
  unfold default in *. cbn [state] in E.
  rewrite (push_chars_unlines _ _ _ s') by (done || by apply plain_body). cbv iota.
  rewrite push_chars_text by (by apply contains_char_false). cbv iota zeta.
  unfold finish, finish_buffer. cbn [line_buffer state app is_empty].
  change (is_empty END_PATCH_MARKER) with false. cbv iota.
  unfold finish_line. change (bool_decide (trim END_PATCH_MARKER = END_PATCH_MARKER)) with true.
  cbv iota. rewrite Hr. simpl. unfold parser_environment_id. simpl. by rewrite Hhs, He.
Qed.

Lemma render_patch_wrap env hs :
  exists mid, render_patch env hs = 42%N :: mid ++ [104%N].
Proof.
  unfold render_patch, render_body. rewrite join_unlines.
  exists ($"** Begin Patch" ++ [LF] ++ unlines (render_env env ++ concat (map render_hunk hs))
          ++ $"*** End Patc").
  unfold unlines; cbn [map concat]. rewrite <- !app_assoc. reflexivity.
Qed.

Lemma render_patch_trim env hs : trim (render_patch env hs) = render_patch env hs.
Proof. destruct (render_patch_wrap env hs) as [mid ->]. by apply trimmed_wrap. Qed.

Lemma render_patch_lines env hs :
  valid_env env -> Forall valid_hunk hs ->
  lines (render_patch env hs) = render_body env hs ++ [END_PATCH_MARKER].
Proof.
  intros. apply lines_join; [by apply plain_body|by apply contains_char_false|done].
Qed.

Lemma strict_boundaries body :
  check_patch_boundaries_strict ((BEGIN_PATCH_MARKER :: body) ++ [END_PATCH_MARKER])
  = Ok ((BEGIN_PATCH_MARKER :: body) ++ [END_PATCH_MARKER]).
Proof. unfold check_patch_boundaries_strict. rewrite last_snoc. reflexivity. Qed.

(** C32: printing then parsing: for every patch of the grammar, with any
    environment id, moves, contexts and end-of-file marks, [parse_patch] of the
    rendered text succeeds with exactly the hunks the syntax stands for. *)
Theorem parse_render_patch env hs :
  valid_env env -> Forall valid_hunk hs ->
  parse_patch (render_patch env hs) = Ok (mkArgs (render_patch env hs) (map hunk_of hs) None env).
Proof.
  intros Henv Hv. rewrite parse_patch_lenient, render_patch_trim, render_patch_lines by done.
  unfold check_patch_boundaries_lenient, render_body at 1. rewrite strict_boundaries.
  fold (render_body env hs). fold (render_patch env hs). by rewrite run_parser_render.
Qed.

(** A tree with every construct, used to witness the round trips. *)
Definition sample_src : list hunk_src :=
  [ SAdd $"a.txt" [$"one"; []];
    SUpdate $"b.txt" (Some $"c.txt")
      [ mkChunkSrc (Some $"fn main()") [Keep $"keep"; Minus $"old"; Plus $"*** End Patch"] true;
        mkChunkSrc None [Plus $"tail"] false ];
    SDelete $"d.txt" ].

Ltac solve_line_path := split; [by split|by apply contains_char_false].

Ltac solve_plain :=
  repeat first [apply Forall_nil; exact I | apply Forall_cons; split]; by apply plain_const.

Lemma sample_src_valid : Forall valid_hunk sample_src.
Proof.
  unfold sample_src. repeat (apply Forall_cons; split); [..|by apply Forall_nil]; simpl.
  - split; [solve_line_path|solve_plain].
  - split; [solve_line_path|]. split; [intros q [= <-]; solve_line_path|]. split; [done|].
    repeat (apply Forall_cons; split); [..|by apply Forall_nil];
      (split; [intros ctx [= <-]; solve_line_path|split; [done|solve_plain]]).
  - solve_line_path.
Qed.

Lemma sample_env_valid : valid_env (Some $"remote").
Proof. intros id [= <-]. split; [solve_line_path|done]. Qed.

Lemma parse_render_patch_witness :
  parse_patch (render_patch (Some $"remote") sample_src)
  = Ok (mkArgs (render_patch (Some $"remote") sample_src) (map hunk_of sample_src) None
          (Some $"remote")).
Proof. apply parse_render_patch; [apply sample_env_valid|apply sample_src_valid]. Defined.

(** ** Heredoc leniency *)

Lemma heredoc_start_facts start :
  is_heredoc_start start = true ->
  plain_line start /\ trim start <> BEGIN_PATCH_MARKER /\ exists t, start = 60%N :: t.
Proof.
  unfold is_heredoc_start. intros H. apply orb_true_iff in H as [H|H];
    [apply orb_true_iff in H as [H|H]|]; apply bool_decide_eq_true in H as ->;
    (split; [by apply plain_const|split; [done|eexists; reflexivity]]).
Qed.

Lemma strict_not_begin first ls :
  trim first <> BEGIN_PATCH_MARKER ->
  check_patch_boundaries_strict (first :: ls) = Err (InvalidPatchError first_line_error).
Proof.
  intros H. unfold check_patch_boundaries_strict, check_start_and_end_lines_strict.
  change (trim <$> head (first :: ls)) with (Some (trim first)).
  cbv iota. rewrite (bool_decide_eq_false_2 _ H). reflexivity.
Qed.

Lemma lenient_heredoc start body :
  is_heredoc_start start = true ->
  check_patch_boundaries_lenient
    (start :: ((BEGIN_PATCH_MARKER :: body) ++ [END_PATCH_MARKER]) ++ [$"EOF"])
  = Ok ((BEGIN_PATCH_MARKER :: body) ++ [END_PATCH_MARKER]).
Proof.
  intros H. destruct (heredoc_start_facts start H) as (_ & Hne & _).
  set (inner := (BEGIN_PATCH_MARKER :: body) ++ [END_PATCH_MARKER]).
  unfold check_patch_boundaries_lenient. rewrite strict_not_begin by done.
  assert (exists x y l, inner ++ [$"EOF"] = x :: y :: l) as (x & y & l & E).
  { unfold inner. by destruct body as [|? []]; eexists _, _, _. }
  rewrite E, <- E, last_snoc, H, removelast_last.
  change (ends_with ($"EOF") ($"EOF")) with true.
  assert (4 <=? length (start :: inner ++ [$"EOF"]) = true) as ->.
  { apply Nat.leb_le. unfold inner. simpl. rewrite !length_app. simpl. lia. }
  apply strict_boundaries.
Qed.

(** a patch wrapped in a heredoc ([<<EOF], [<<'EOF'] or the double-quoted
    form, as models pass it without a shell) parses as the patch itself. *)
Theorem parse_heredoc_patch start env hs :
  is_heredoc_start start = true -> valid_env env -> Forall valid_hunk hs ->
  parse_patch (start ++ [LF] ++ render_patch env hs ++ [LF] ++ $"EOF" ++ [LF])
  = parse_patch (render_patch env hs).
Proof.
  intros Hs Henv Hv. destruct (heredoc_start_facts start Hs) as (Hplain & _ & t & Ht).
  set (ls := start :: render_body env hs ++ [END_PATCH_MARKER]).
  assert (trim (start ++ [LF] ++ render_patch env hs ++ [LF] ++ $"EOF" ++ [LF])
          = join [LF] (ls ++ [$"EOF"])) as Htrim.
  { rewrite join_unlines. unfold ls. rewrite Ht.
    change (unlines ((60%N :: t) :: render_body env hs ++ [END_PATCH_MARKER]))
      with (((60%N :: t) ++ [LF]) ++ unlines (render_body env hs ++ [END_PATCH_MARKER])).
    rewrite unlines_snoc, (app_assoc (unlines (render_body env hs))), <- join_unlines. fold (render_patch env hs).
    pose proof (trim_wrap_blank 60%N (t ++ [LF] ++ render_patch env hs ++ [LF] ++ $"EO") 70%N LF
      eq_refl eq_refl eq_refl) as H.
    etransitivity; [|etransitivity; [exact H|]]; [f_equal|]; cbn [app];
      repeat (rewrite <- app_assoc || rewrite <- app_comm_cons); reflexivity. }
  rewrite !parse_patch_lenient, Htrim, render_patch_trim, render_patch_lines by done.
  rewrite lines_join; [| |by apply contains_char_false|done].
  - unfold ls, render_body. rewrite <- app_comm_cons, lenient_heredoc by done.
    unfold check_patch_boundaries_lenient. by rewrite strict_boundaries.
  - unfold ls. constructor; [done|]. apply Forall_snoc; [by apply plain_body|by apply plain_const].
Qed.

Lemma parse_heredoc_patch_witness :
  parse_patch ($"<<'EOF'" ++ [LF] ++ render_patch None sample_src ++ [LF] ++ $"EOF" ++ [LF])
  = parse_patch (render_patch None sample_src).
Proof. apply parse_heredoc_patch; [done|done|apply sample_src_valid]. Defined.

End PatchPrinter.
