(* ===== verification/StateM.v ===== *)
(** * Stateful code that can fail

    [async] functions that work on a shared world and return a [Result] are
    functions from a state to an outcome and the state they leave, whatever the
    outcome is.  [let*] sequences them as [.await?] does.  [triple] is the
    specification of such a computation: it never panics, and the state after an
    error is specified as well as the one after success. *)

From S2P Require Import Prelude.

Definition stM (S E A : Type) : Type := S -> outcome A E * S.

Section monad.
Context {S E : Type}.

Definition st_ret {A} (a : A) : stM S E A := fun s => (Done a, s).
Definition st_fail {A} (e : E) : stM S E A := fun s => (Fail e, s).
Definition st_bind {A B} (m : stM S E A) (k : A -> stM S E B) : stM S E B := fun s =>
  match m s with
  | (Done a, s') => k a s'
  | (Fail e, s') => (Fail e, s')
  | (Panic, s') => (Panic, s')
  end.
Definition st_modify (f : S -> S) : stM S E () := fun s => (Done (), f s).
Definition st_get : stM S E S := fun s => (Done s, s).

(** A result, or an outcome, as a computation: the [?] operator. *)
Definition st_try {A} (r : result A E) : stM S E A := fun s => (of_result r, s).
Definition st_lift {A} (o : outcome A E) : stM S E A := fun s => (o, s).

(** [map_err] on what a computation returns. *)
Definition st_map_err {F A} (f : E -> F) (m : stM S E A) : stM S F A := fun s =>
  match m s with
  | (Done a, s') => (Done a, s')
  | (Fail e, s') => (Fail (f e), s')
  | (Panic, s') => (Panic, s')
  end.

(** ** Specifications *)

Definition triple {A} (P : S -> Prop) (m : stM S E A) (Q : A -> S -> Prop)
    (R : E -> S -> Prop) : Prop :=
  forall s, P s ->
    match m s with
    | (Done a, s') => Q a s'
    | (Fail e, s') => R e s'
    | (Panic, _) => False
    end.

Lemma triple_ret {A} P (a : A) R : triple P (st_ret a) (fun b s => b = a /\ P s) R.
Proof. by intros s H. Qed.

Lemma triple_fail {A} (R : E -> S -> Prop) e (Q : A -> S -> Prop) :
  triple (R e) (st_fail e) Q R.
Proof. by intros s H. Qed.

Lemma triple_bind {A B} P (m : stM S E A) (k : A -> stM S E B) Q Q' R :
  triple P m Q R -> (forall a, triple (Q a) (k a) Q' R) -> triple P (st_bind m k) Q' R.
Proof.
  intros Hm Hk s HP. specialize (Hm s HP). unfold st_bind.
  destruct (m s) as [[a|e|] s']; [by apply Hk|done|done].
Qed.

Lemma triple_conseq {A} (P P' : S -> Prop) (m : stM S E A) (Q Q' : A -> S -> Prop)
    (R R' : E -> S -> Prop) :
  triple P' m Q' R' -> (forall s, P s -> P' s) -> (forall a s, Q' a s -> Q a s) ->
  (forall e s, R' e s -> R e s) -> triple P m Q R.
Proof.
  intros H HP HQ HR s Hs. specialize (H s (HP s Hs)).
  destruct (m s) as [[a|e|] s']; auto.
Qed.

Lemma triple_pre {A} (P P' : S -> Prop) (m : stM S E A) Q R :
  triple P' m Q R -> (forall s, P s -> P' s) -> triple P m Q R.
Proof. intros H HP. by apply (triple_conseq P P' m Q Q R R). Qed.

Lemma triple_post {A} P (m : stM S E A) (Q Q' : A -> S -> Prop) R :
  triple P m Q' R -> (forall a s, Q' a s -> Q a s) -> triple P m Q R.
Proof. intros H HQ. by apply (triple_conseq P P m Q Q' R R). Qed.

Lemma triple_try {A} P (r : result A E) (Q : A -> S -> Prop) (R : E -> S -> Prop) :
  (forall s, P s -> match r with Ok a => Q a s | Err e => R e s end) ->
  triple P (st_try r) Q R.
Proof. intros H s Hs. specialize (H s Hs). by destruct r. Qed.

(** The [?] operator: the rest runs on the value, the error must fit [R]. *)
Lemma triple_bind_try {A B} P (r : result A E) (k : A -> stM S E B) Q (R : E -> S -> Prop) :
  (forall e s, P s -> R e s) -> (forall a, r = Ok a -> triple P (k a) Q R) ->
  triple P (st_bind (st_try r) k) Q R.
Proof.
  intros HR Hk s Hs. unfold st_bind, st_try. destruct r as [a|e]; simpl; [by apply Hk|by apply HR].
Qed.

Lemma triple_get P R : triple P st_get (fun s s' => s' = s /\ P s) R.
Proof. by intros s H. Qed.

Lemma triple_modify (P : S -> Prop) (Q : () -> S -> Prop) f R :
  (forall s, P s -> Q () (f s)) -> triple P (st_modify f) Q R.
Proof. intros H s Hs. by apply H. Qed.

Lemma triple_exists {A X} (P : X -> S -> Prop) (m : stM S E A) Q R :
  (forall x, triple (P x) m Q R) -> triple (fun s => exists x, P x s) m Q R.
Proof. intros H s [x Hx]. by apply (H x). Qed.

Lemma triple_pure {A} (X : Prop) (P : S -> Prop) (m : stM S E A) Q R :
  (X -> triple P m Q R) -> triple (fun s => X /\ P s) m Q R.
Proof. intros H s [HX HP]. by apply (H HX). Qed.

End monad.

Lemma triple_map_err {S E F A} (P : S -> Prop) (m : stM S E A) Q (f : E -> F) R :
  triple P m Q (fun e => R (f e)) -> triple P (st_map_err f m) Q R.
Proof.
  intros H s Hs. specialize (H s Hs). unfold st_map_err. by destruct (m s) as [[?|?|] ?].
Qed.

(** Closes the trivial side conditions of [triple_conseq], fixing the unknown
    assertion to the one at hand. *)
Ltac keep := intros; eassumption.

Notation "'let*' x ':=' c 'in' k" := (st_bind c (fun x => k))
  (at level 10, x pattern, c at level 200, k at level 200,
   format "'[v' 'let*'  x  ':='  c  'in' '/' k ']'") : rust_scope.

(** [for x in l { body }] with early return on an error. *)
Fixpoint st_for {S E A : Type} (body : A -> stM S E ()) (l : list A) : stM S E () :=
  match l with
  | [] => st_ret ()
  | x :: l' => let* _ := body x in st_for body l'
  end.

Lemma triple_for {S E A} (body : A -> stM S E ()) (I : list A -> S -> Prop)
    (R : E -> S -> Prop) (l : list A) :
  (forall done x, In x l -> triple (I done) (body x) (fun _ => I (done ++ [x])) R) ->
  forall done, triple (I done) (st_for body l) (fun _ => I (done ++ l)) R.
Proof.
  induction l as [|x l IH]; intros H pre; simpl.
  - rewrite app_nil_r. intros s Hs. done.
  - eapply triple_bind; [apply H; by left|]. intros [].
    replace (pre ++ x :: l) with ((pre ++ [x]) ++ l) by (by rewrite <- app_assoc).
    apply IH. intros pre' y Hy. apply H. by right.
Qed.
