(* ===== verification/ExecutorFs.v ===== *)
(** * The file-system interface of the patch applier

    The operations of the [ExecutorFileSystem] trait (file-system/src/lib.rs)
    and of [PathUri] (utils/path-uri) that apply-patch calls, as type classes;
    [FileSystemLaws] is what the applier relies on; an in-memory file system
    discharges the laws.  The sandbox context is fixed for a run and belongs to
    the instance.  Texts stand for their UTF-8 bytes. *)

From S2P Require Import Prelude RustStr PatchTypes.

(** ** Paths *)

Inductive PathConvention : Type := Posix | Windows.

#[export] Instance PathConvention_eq_dec : EqDecision PathConvention.
Proof. solve_decision. Defined.

Class PathUriOps (P : Type) : Type := {
  infer_path_convention : P -> option PathConvention;
  uri_join : P -> str -> result P PathUriParseError;
  uri_parent : P -> option P;
  inferred_native_path_string : P -> str;
}.

(** ** Operations *)

Record FileMetadata : Type := mkMetadata {
  is_directory : bool;
  is_file : bool;
  is_symlink : bool;
  size : N;
  created_at_ms : Z;
  modified_at_ms : Z;
}.

Record CreateDirectoryOptions : Type := mkCreateOptions {
  create_recursive : bool;
  create_follow_symlinks : bool;
}.

Record RemoveOptions : Type := mkRemoveOptions {
  remove_recursive : bool;
  remove_force : bool;
  remove_follow_symlinks : bool;
}.

(** An operation on a world of type [W]; it may change the world even when it
    fails. *)
Definition fs_op (W A : Type) : Type := W -> result A io_error * W.

Class ExecutorFileSystem (W P : Type) : Type := {
  read_file_text (path : P) (follow_symlinks : bool) : fs_op W str;
  write_file (path : P) (contents : str) (follow_symlinks : bool) : fs_op W ();
  create_directory (path : P) (options : CreateDirectoryOptions) : fs_op W ();
  get_metadata (path : P) (follow_symlinks : bool) : fs_op W FileMetadata;
  remove (path : P) (options : RemoveOptions) : fs_op W ();
}.

(** ** What an observer sees: the text at each path *)

Definition view (P : Type) : Type := P -> option str.

Definition view_eq {P} (v1 v2 : view P) : Prop := forall q, v1 q = v2 q.
Infix "=v" := view_eq (at level 70, no associativity) : rust_scope.

#[export] Instance view_eq_equiv {P} : Equivalence (@view_eq P).
Proof.
  split; [by intros v q|by intros v1 v2 H q|].
  intros v1 v2 v3 H1 H2 q. by rewrite H1.
Qed.

Definition upd {P} `{EqDecision P} (p : P) (t : option str) (v : view P) : view P :=
  fun q => if decide (q = p) then t else v q.

#[export] Instance upd_proper {P} `{EqDecision P} (p : P) (t : option str) :
  Proper (view_eq ==> view_eq) (upd p t).
Proof. intros v1 v2 H q. unfold upd. by destruct (decide (q = p)). Qed.

Section views.
Context {P : Type} `{EqDecision P}.
Implicit Types v : view P.

Lemma upd_same p t v : upd p t v p = t.
Proof. unfold upd. by rewrite decide_True. Qed.

Lemma upd_other p q t v : q <> p -> upd p t v q = v q.
Proof. intros H. unfold upd. by rewrite decide_False. Qed.

Lemma upd_upd p t t' v : upd p t (upd p t' v) =v upd p t v.
Proof. intros q. unfold upd. by destruct (decide (q = p)). Qed.

Lemma upd_id p t v : v p = t -> upd p t v =v v.
Proof. intros H q. unfold upd. by destruct (decide (q = p)) as [->|]. Qed.

Lemma upd_undo p t v : upd p (v p) (upd p t v) =v v.
Proof. rewrite upd_upd. by apply upd_id. Qed.

End views.

(** ** Laws

    Distinct paths are distinct files, reads observe the world and do not
    change it, a write that reports a missing parent has written nothing, and a
    removal that reports an error has removed the file or left it.  Any other
    failed write may have done anything. *)
Class FileSystemLaws (W P : Type) `{EqDecision P} `{ExecutorFileSystem W P}
    (look : W -> view P) : Prop := {
  read_law p fl w r w' :
    read_file_text p fl w = (r, w') ->
    look w' =v look w /\
    match r with
    | Ok t => look w p = Some t
    | Err e => io_kind e = KNotFound -> look w p = None
    end;
  metadata_law p fl w r w' : get_metadata p fl w = (r, w') -> look w' =v look w;
  create_law p o w r w' : create_directory p o w = (r, w') -> look w' =v look w;
  write_law p t fl w r w' :
    write_file p t fl w = (r, w') ->
    match r with
    | Ok _ => look w' =v upd p (Some t) (look w)
    | Err e => io_kind e = KNotFound -> look w' =v look w
    end;
  remove_law p o w r w' :
    remove_recursive o = false -> remove p o w = (r, w') ->
    match r with
    | Ok _ => look w' =v upd p None (look w)
    | Err _ => look w' =v look w \/ look w' =v upd p None (look w)
    end;
}.

(** ** An in-memory file system

    Absolute paths as lists of components over a finite map from paths to
    nodes; the root always exists.  It has no symbolic links. *)

Module MemFs.

Abbreviation path := (list str) (only parsing).

Inductive node : Type := Dir | File (text : str).

Abbreviation world := (gmap (list str) node) (only parsing).

Definition components (s : str) : path :=
  filter (fun c => c <> []) (split_char 47%N s).

#[global] Instance mem_paths : PathUriOps path := {
  infer_path_convention _ := Some Posix;
  uri_join p s := Ok (if starts_with s [47%N] then components s else p ++ components s);
  uri_parent p := match p with [] => None | _ => Some (removelast p) end;
  inferred_native_path_string p := [47%N] ++ join [47%N] p;
}.

Definition not_found : io_error := mkIo KNotFound ($"No such file or directory").
Definition is_a_directory : io_error := mkIo KOther ($"Is a directory").

Definition is_dir (w : world) (p : path) : bool :=
  match p, w !! p with [], _ => true | _, Some Dir => true | _, _ => false end.

(** Non-empty prefixes, shortest first. *)
Definition prefixes (p : path) : list path := map (fun n => take (S n) p) (seq 0 (length p)).

Definition make_dirs (w : world) (ps : list path) : world :=
  fold_left (fun w p => match w !! p with None => <[p:=Dir]> w | Some _ => w end) ps w.

Definition is_file_at (w : world) (p : path) : bool :=
  match w !! p with Some (File _) => true | _ => false end.

Definition has_children (w : world) (p : path) : bool :=
  existsb (fun q => bool_decide (q <> p) && bool_decide (take (length p) q = p))
    (map fst (map_to_list w)).

Definition mem_read (p : path) (_ : bool) : fs_op world str := fun w =>
  match w !! p with
  | Some (File t) => (Ok t, w)
  | Some Dir => (Err is_a_directory, w)
  | None => (Err not_found, w)
  end.

Definition mem_write (p : path) (t : str) (_ : bool) : fs_op world () := fun w =>
  if is_dir w p then (Err is_a_directory, w)
  else if is_dir w (removelast p) then (Ok (), <[p:=File t]> w)
  else (Err not_found, w).

Definition mem_create (p : path) (o : CreateDirectoryOptions) : fs_op world () := fun w =>
  if existsb (is_file_at w) (prefixes p) then (Err is_a_directory, w)
  else if create_recursive o then (Ok (), make_dirs w (prefixes p))
  else if is_dir w (removelast p) then (Ok (), make_dirs w [p])
  else (Err not_found, w).

Definition mem_metadata (p : path) (_ : bool) : fs_op world FileMetadata := fun w =>
  match is_dir w p, w !! p with
  | true, _ => (Ok (mkMetadata true false false 0 0 0), w)
  | false, Some (File t) => (Ok (mkMetadata false true false (N.of_nat (byte_len t)) 0 0), w)
  | false, _ => (Err not_found, w)
  end.

Definition mem_remove (p : path) (o : RemoveOptions) : fs_op world () := fun w =>
  match w !! p with
  | None => (Err not_found, w)
  | Some Dir => if has_children w p then (Err is_a_directory, w) else (Ok (), delete p w)
  | Some (File _) => (Ok (), delete p w)
  end.

#[global] Instance mem_fs : ExecutorFileSystem world path := {
  read_file_text := mem_read;
  write_file := mem_write;
  create_directory := mem_create;
  get_metadata := mem_metadata;
  remove := mem_remove;
}.

Definition look (w : world) : view path := fun p =>
  match w !! p with Some (File t) => Some t | _ => None end.

Lemma look_insert w p t : look (<[p:=File t]> w) =v upd p (Some t) (look w).
Proof.
  intros q. unfold look, upd. destruct (decide (q = p)) as [->|Hne].
  - by rewrite lookup_insert_eq.
  - by rewrite lookup_insert_ne.
Qed.

Lemma look_delete w p : look (delete p w) =v upd p None (look w).
Proof.
  intros q. unfold look, upd. destruct (decide (q = p)) as [->|Hne].
  - by rewrite lookup_delete_eq.
  - by rewrite lookup_delete_ne.
Qed.

Lemma look_make_dirs ps : forall w, look (make_dirs w ps) =v look w.
Proof.
  induction ps as [|p ps IH]; intros w; [done|]. simpl. rewrite IH.
  destruct (w !! p) eqn:E; [done|]. intros q. unfold look.
  destruct (decide (q = p)) as [->|Hne]; [by rewrite lookup_insert_eq, E|].
  by rewrite lookup_insert_ne.
Qed.

#[global] Instance mem_laws : FileSystemLaws world path look.
Proof.
  split; simpl.
  - unfold mem_read, look. intros p fl w r w' H. by repeat case_match; simplify_eq.
  - unfold mem_metadata. intros p fl w r w' H. by repeat case_match; simplify_eq.
  - unfold mem_create. intros p o w r w' H.
    repeat case_match; simplify_eq; try done; apply look_make_dirs.
  - unfold mem_write. intros p t fl w r w' H.
    repeat case_match; simplify_eq; try done. apply look_insert.
  - unfold mem_remove. intros p o w r w' _ H.
    repeat case_match; simplify_eq; try apply look_delete; by left.
Qed.

End MemFs.
