(* ===== verification/PathUri.v ===== *)
(** * Path URIs (utils/path-uri/src/{lib,absolute_path_normalization,native_path_bytes}.rs)

    [PathUri]: an immutable [file:] URL read as a POSIX or Windows path, with
    its lexical operations.  The crates [url], [urlencoding] and [base64] are
    the class [UrlCrates]; what the code relies on of them is [UrlLaws], in
    PathUriSpec.v, which a model of file URLs discharges. *)

From S2P Require Import Prelude RustStr Utf8 PatchTypes ExecutorFs.

(** ** The crates

    A [file:] URL is hierarchical, so for the URLs a [PathUri] holds
    [path_segments()] is never [None] and [path_segments_mut()] never fails:
    both are total here.  [set_host] is [None] where the crate reports an
    error. *)
Class UrlCrates (Url : Type) : Type := {
  #[global] url_eq_dec :: EqDecision Url;
  url_parse : str -> result Url str;
  url_text : Url -> str;
  url_scheme : Url -> str;
  url_username : Url -> str;
  url_password : Url -> option str;
  url_port : Url -> option N;
  url_query : Url -> option str;
  url_fragment : Url -> option str;
  host_str : Url -> option str;
  url_path : Url -> str;
  url_segments : Url -> list str;
  set_host : option str -> Url -> option Url;
  set_path : str -> Url -> Url;
  url_pop_if_empty : Url -> Url;
  url_pop : Url -> Url;
  url_clear : Url -> Url;
  url_push : str -> Url -> Url;
  decode_binary : list N -> list N;
  encode_binary : list N -> str;
  base64_encode : list N -> str;
  base64_decode : str -> option (list N);
}.

(** The value of a branch marked [unreachable!]. *)
Class Unreachable (A : Type) : Type := unreachable : A.

(** ** Bytes and native text *)

Definition BACKSLASH : char := 92%N.
Definition FORWARD_SLASH : char := 47%N.
Definition COLON : char := 58%N.

Definition is_ascii_alphabetic (c : N) : bool :=
  (((65 <=? c) && (c <=? 90)) || ((97 <=? c) && (c <=? 122)))%N.

Definition eq_ignore_case (a b : list N) : bool :=
  bool_decide (to_ascii_lowercase a = to_ascii_lowercase b).

Definition contains_byte (b : N) (l : list N) : bool := contains_char b l.

(** [chunks_exact(2)] read as little-endian words. *)
Fixpoint le_units (l : list N) : list N :=
  match l with
  | a :: b :: l' => (a + 256 * b)%N :: le_units l'
  | _ => []
  end.

Definition le_bytes (u : N) : list N := [(u mod 256)%N; (u / 256)%N].

(** [str::encode_utf16]. *)
Definition encode_utf16 (s : str) : list N :=
  concat (map (fun c =>
    if (c <? 65536)%N then [c]
    else [55296 + (c - 65536) / 1024; 56320 + (c - 65536) mod 1024]%N) s).

Definition is_windows_separator (c : N) : bool :=
  bool_decide (c = BACKSLASH) || bool_decide (c = FORWARD_SLASH).

Definition to_slashes (s : str) : str :=
  map (fun c => if bool_decide (c = BACKSLASH) then FORWARD_SLASH else c) s.

(** [PathConvention::url_segments]. *)
Definition native_segments (c : PathConvention) (path : str) : list str :=
  split_char FORWARD_SLASH match c with Posix => path | Windows => to_slashes path end.

Definition home_relative_suffix (c : PathConvention) (path : str) : option str :=
  match strip_prefix [126%N] path with
  | Some suffix =>
      if is_empty suffix || starts_with suffix [FORWARD_SLASH]
         || bool_decide (c = Windows) && starts_with suffix [BACKSLASH]
      then Some suffix else None
  | None => None
  end.

(** utils/absolute-path/src/lib.rs *)
Definition is_windows_drive_absolute_path (path : str) : bool :=
  match path with
  | d :: c :: s :: _ =>
      is_ascii_alphabetic d && bool_decide (c = COLON) && is_windows_separator s
  | _ => false
  end.

Definition normalize_windows_device_path (path : str) : option str :=
  match strip_prefix ($"\\?\UNC\") path, strip_prefix ($"\\.\UNC\") path with
  | Some unc, _ => Some ($"\\" ++ unc)
  | None, Some unc => Some ($"\\" ++ unc)
  | None, None =>
      match strip_prefix ($"\\?\") path, strip_prefix ($"\\.\") path with
      | Some rest, _ => if is_windows_drive_absolute_path rest then Some rest else None
      | None, Some rest => if is_windows_drive_absolute_path rest then Some rest else None
      | None, None => None
      end
  end.

Definition FILE_SCHEME : str := $"file".
Definition BAD_PATH_URI_PREFIX : str := $"file:///%00/bad/path/".

Definition is_windows_drive_uri_segment (segment : str) : bool :=
  match segment with
  | [d; c] => is_ascii_alphabetic d && bool_decide (c = COLON)
  | [d; p; t; a] =>
      is_ascii_alphabetic d && bool_decide (p = 37%N) && bool_decide (t = 51%N)
      && (bool_decide (a = 65%N) || bool_decide (a = 97%N))
  | _ => false
  end.

Definition infer_opaque_path_convention (path_bytes : list N) : option PathConvention :=
  if starts_with path_bytes [FORWARD_SLASH] then Some Posix
  else if Nat.odd (length path_bytes) then None
  else match le_units path_bytes with
       | u :: v :: _ =>
           if is_ascii_alphabetic u && bool_decide (v = COLON)
              || bool_decide (u = BACKSLASH) && bool_decide (v = BACKSLASH)
           then Some Windows else None
       | _ => None
       end.

(** Windows roots keep one segment, the drive or the share. *)
Definition anchor_depth (c : PathConvention) : nat :=
  match c with Posix => 0 | Windows => 1 end.

(** ** [PathUri] *)

Section uris.
Context {Url : Type} `{UrlCrates Url} `{Unreachable Url}.

(** [pub struct PathUri(Url)]. *)
Abbreviation PathUri := Url (only parsing).

Definition non_empty (segments : list str) : list str := filter (fun s => s <> []) segments.

Definition decode_segment (segment : str) : list N := decode_binary (encode segment).

Definition decode_uri_path (path : str) : str :=
  match from_utf8 (decode_segment path) with Ok s => s | Err _ => path end.

Definition decoded_path_bytes (self : PathUri) : list N := decode_segment (url_path self).

Definition decode_bad_path_uri (url : Url) : option (list N) :=
  match strip_prefix BAD_PATH_URI_PREFIX (url_text url) with
  | Some encoded_path =>
      if is_empty encoded_path || contains_char FORWARD_SLASH encoded_path then None
      else match base64_decode encoded_path with
           | Some path_bytes =>
               if bool_decide (base64_encode path_bytes = encoded_path)
               then Some path_bytes else None
           | None => None
           end
  | None => None
  end.

Definition is_opaque (self : PathUri) : bool := is_some (decode_bad_path_uri self).

Definition first_segment_is_drive (url : Url) : bool :=
  match non_empty (url_segments url) with
  | segment :: _ => is_windows_drive_uri_segment segment
  | [] => false
  end.

Definition path_convention (self : PathUri) : option PathConvention :=
  match decode_bad_path_uri self with
  | Some path_bytes => infer_opaque_path_convention path_bytes
  | None =>
      if is_some (host_str self) then Some Windows
      else if first_segment_is_drive self then Some Windows else Some Posix
  end.

Definition windows_identity_path_bytes (self : PathUri) : option (list N) :=
  if negb (bool_decide (path_convention self = Some Windows)) || is_opaque self
     || existsb (fun segment => existsb is_windows_separator (decode_segment segment))
          (url_segments self)
  then None
  else Some (decode_segment (url_path self)).

(** [PartialEq] *)
Definition uri_eq (self other : PathUri) : bool :=
  if bool_decide (self = other) then true
  else match windows_identity_path_bytes self, windows_identity_path_bytes other with
       | Some path, Some other_path =>
           bool_decide (host_str self = host_str other) && eq_ignore_case path other_path
       | _, _ => false
       end.

Definition basename (self : PathUri) : option str :=
  if is_opaque self then None
  else option_map decode_uri_path (last (non_empty (url_segments self))).

Definition segment_count (url : Url) : nat := length (non_empty (url_segments url)).

Definition parent (self : PathUri) : option PathUri :=
  if is_opaque self then None
  else match path_convention self with
       | Some convention =>
           if segment_count self <=? anchor_depth convention then None
           else Some (url_pop (url_pop_if_empty self))
       | None => None
       end.

(** [std::iter::successors(Some(self), parent)]; one step per URL segment is
    enough ([ancestors_end]). *)
Fixpoint successors (fuel : nat) (self : PathUri) : list PathUri :=
  match fuel with
  | 0 => [self]
  | S n => self :: match parent self with Some up => successors n up | None => [] end
  end.

Definition ancestors (self : PathUri) : list PathUri :=
  successors (length (url_segments self)) self.

Definition containment_path_segments (url : Url) (convention : PathConvention)
  : option (list str) :=
  let segments := non_empty (url_segments url) in
  if existsb (fun segment =>
       existsb (fun byte =>
         bool_decide (byte = FORWARD_SLASH)
         || bool_decide (convention = Windows) && bool_decide (byte = BACKSLASH))
         (decode_segment segment)) segments
  then None else Some segments.

Definition same_native_segment (convention : PathConvention) (path base : str) : bool :=
  match convention with
  | Posix => bool_decide (decode_segment path = decode_segment base)
  | Windows =>
      eq_ignore_case path base
      || eq_ignore_case (decode_uri_path path) (decode_uri_path base)
  end.

Definition native_path_segments_start_with (url_segments base_segments : list str)
  (convention : PathConvention) : bool :=
  (length base_segments <=? length url_segments)
  && forallb (fun p => same_native_segment convention (fst p) (snd p))
       (combine url_segments base_segments).

Definition uri_starts_with (self base : PathUri) : bool :=
  if uri_eq self base then true
  else if is_opaque self || is_opaque base then false
  else if negb (bool_decide (host_str self = host_str base)) then false
  else if negb (bool_decide (path_convention self = path_convention base)) then false
  else
    let convention := default Posix (path_convention self) in
    match containment_path_segments self convention,
          containment_path_segments base convention with
    | Some url_segments, Some base_segments =>
        native_path_segments_start_with url_segments base_segments convention
    | _, _ => false
    end.

Definition lexical_depth (self : PathUri) : option nat :=
  if is_opaque self then None
  else match path_convention self with
       | Some convention => option_map length (containment_path_segments self convention)
       | None => None
       end.

Definition overlaps (self other : PathUri) : option bool :=
  if uri_eq self other then Some true
  else match lexical_depth self, lexical_depth other with
       | Some _, Some _ => Some (uri_starts_with self other || uri_starts_with other self)
       | _, _ => None
       end.

Definition native_separator (c : PathConvention) : str :=
  match c with Posix => [FORWARD_SLASH] | Windows => [BACKSLASH] end.

Definition relative_path_from (self base : PathUri) : option str :=
  if uri_eq self base then Some []
  else if is_opaque self || is_opaque base
          || negb (bool_decide (host_str self = host_str base))
          || negb (bool_decide (path_convention self = path_convention base)) then None
  else match path_convention self with
       | Some convention =>
           match containment_path_segments self convention,
                 containment_path_segments base convention with
           | Some url_segments, Some base_segments =>
               if native_path_segments_start_with url_segments base_segments convention
               then Some (join (native_separator convention)
                            (map decode_uri_path (drop (length base_segments) url_segments)))
               else None
           | _, _ => None
           end
       | None => None
       end.

(** ** Validation *)

Definition validate_common_known_uri (url : Url) : result () PathUriParseError :=
  if negb (is_empty (url_username url)) || is_some (url_password url)
  then Err CredentialsNotAllowed
  else if is_some (url_port url) then Err PortNotAllowed
  else if is_some (url_query url) then Err QueryNotAllowed
  else if is_some (url_fragment url) then Err FragmentNotAllowed
  else Ok ().

Definition validate_file_url (url : Url) : result () PathUriParseError :=
  let? _ := validate_common_known_uri url in
  if contains_byte 0 (decode_segment (url_path url)) && is_none (decode_bad_path_uri url)
  then Err (InvalidFileUriPath (url_text url))
  else Ok ().

(** The [set_host(None)] of a [localhost] URL cannot fail. *)
Definition without_localhost_authority (url : Url) : Url :=
  if bool_decide (host_str url = Some ($"localhost"))
  then match set_host None url with Some url' => url' | None => unreachable end
  else url.

Definition char_to_ascii_uppercase (c : char) : char :=
  if ((97 <=? c) && (c <=? 122))%N then (c - 32)%N else c.

Definition with_normalized_windows_drive_letter (url : Url) : Url :=
  if is_some (host_str url) then url
  else
    let path := url_path url in
    let rest := trim_start_matches FORWARD_SLASH path in
    let drive := match split_char FORWARD_SLASH rest with w :: _ => w | [] => [] end in
    match rest with
    | [] => url
    | letter :: after =>
        if negb (is_windows_drive_uri_segment drive) || is_ascii_upper letter then url
        else set_path (take (length path - length rest) path
                       ++ char_to_ascii_uppercase letter :: after) url
    end.

(** [TryFrom<Url>] *)
Definition try_from_url (url : Url) : result PathUri PathUriParseError :=
  if negb (bool_decide (url_scheme url = FILE_SCHEME))
  then Err (UnsupportedScheme (url_scheme url))
  else
    let? _ := validate_file_url url in
    Ok (with_normalized_windows_drive_letter (without_localhost_authority url)).

Definition parse_uri (uri : str) : result PathUri PathUriParseError :=
  let? url := map_err InvalidUri (url_parse uri) in try_from_url url.

Definition from_opaque_path_bytes (path_bytes : list N) : PathUri :=
  match parse_uri (BAD_PATH_URI_PREFIX ++ base64_encode path_bytes) with
  | Ok uri => uri
  | Err _ => unreachable
  end.

Definition windows_opaque_path_uri (path : str) : PathUri :=
  from_opaque_path_bytes (concat (map le_bytes (encode_utf16 path))).

(** ** Absolute native text *)

Record component_scan : Type := mkScan {
  scan_depth : nat;
  normalized_segments : list str;
  has_trailing_separator : bool;
}.

Definition scan_step (anchor : nat) (st : component_scan) (segment : str) : component_scan :=
  if is_empty segment
  then mkScan (scan_depth st) (normalized_segments st) true
  else if bool_decide (segment = $".")
  then mkScan (scan_depth st) (normalized_segments st) false
  else if bool_decide (segment = $"..")
  then if anchor <? scan_depth st
       then mkScan (scan_depth st - 1) (removelast (normalized_segments st)) false
       else mkScan (scan_depth st) (normalized_segments st) false
  else mkScan (S (scan_depth st)) (normalized_segments st ++ [segment]) false.

Definition scan_segments (anchor : nat) (segments : list str) : component_scan :=
  fold_left (scan_step anchor) segments (mkScan 0 [] false).

Definition push_segments (segments : list str) (url : Url) : Url :=
  fold_left (fun u s => url_push s u) segments url.

Definition path_uri_from_segments (convention : PathConvention) (host : option str)
  (segments : list str) : option PathUri :=
  match res_ok (url_parse ($"file:///")) with
  | Some url =>
      match match host with Some _ => set_host host url | None => Some url end with
      | Some url =>
          let anchor := anchor_depth convention in
          let st := scan_segments anchor segments in
          let pieces :=
            if has_trailing_separator st
               || bool_decide (convention = Windows) && is_none host
                  && (scan_depth st =? anchor)
            then normalized_segments st ++ [[]] else normalized_segments st in
          res_ok (try_from_url (push_segments pieces (url_clear url)))
      | None => None
      end
  | None => None
  end.

Definition parse_posix_path (path : str) : option PathUri :=
  match strip_prefix [FORWARD_SLASH] path with
  | Some rest =>
      if contains_char 0 rest then Some (from_opaque_path_bytes (encode (FORWARD_SLASH :: rest)))
      else path_uri_from_segments Posix None (split_char FORWARD_SLASH rest)
  | None => None
  end.

Definition is_dots (s : str) : bool := bool_decide (s = $".") || bool_decide (s = $"..").

Definition starts_with_two_separators (path : str) : bool :=
  match path with
  | a :: b :: _ => is_windows_separator a && is_windows_separator b
  | _ => false
  end.

Definition uses_namespace (path : str) : bool :=
  match path with
  | a :: b :: n :: s :: _ =>
      is_windows_separator a && is_windows_separator b && is_windows_separator s
      && (bool_decide (n = 46%N) || bool_decide (n = 63%N))
  | _ => false
  end.

Definition parse_unc_path (path : str) : option PathUri :=
  match native_segments Windows (drop 2 path) with
  | host :: share :: components =>
      if is_empty host || is_empty share then None
      else if is_dots host || is_dots share then Some (windows_opaque_path_uri path)
      else
        match path_uri_from_segments Windows (Some host) (share :: components) with
        | Some uri =>
            if match host_str uri with
               | Some parsed => eq_ignore_case parsed host
               | None => false
               end
            then Some uri else Some (windows_opaque_path_uri path)
        | None => Some (windows_opaque_path_uri path)
        end
  | _ => None
  end.

Definition parse_unnormalized_windows_path (path : str) : option PathUri :=
  if uses_namespace path || contains_char 0 path then Some (windows_opaque_path_uri path)
  else if is_windows_drive_absolute_path path
  then path_uri_from_segments Windows None
         (take 2 path :: native_segments Windows (drop 3 path))
  else if starts_with_two_separators path then parse_unc_path path
  else None.

(** The checks on the result of a path that had a device prefix. *)
Definition is_plain_windows_uri (normalized_path : str) (uri : PathUri) : bool :=
  bool_decide (path_convention uri = Some Windows) && negb (is_opaque uri)
  && (negb (starts_with normalized_path ($"\\"))
      || match host_str uri with Some host => negb (is_empty host) | None => false end).

Definition lacks_unc_anchor (normalized_path : str) : bool :=
  match strip_prefix ($"\\") normalized_path with
  | Some unc_path =>
      match native_segments Windows unc_path with
      | host :: share :: _ => is_empty host || is_dots host || is_empty share || is_dots share
      | _ => true
      end
  | None => false
  end.

Definition parse_windows_path (path : str) : option PathUri :=
  match normalize_windows_device_path path with
  | Some normalized_path =>
      if lacks_unc_anchor normalized_path then Some (windows_opaque_path_uri path)
      else
        match parse_unnormalized_windows_path normalized_path with
        | Some uri =>
            if is_plain_windows_uri normalized_path uri then Some uri
            else Some (windows_opaque_path_uri path)
        | None => Some (windows_opaque_path_uri path)
        end
  | None => parse_unnormalized_windows_path path
  end.

Definition from_absolute_native_path (path : str) (convention : PathConvention)
  : option PathUri :=
  match match convention with
        | Posix => parse_posix_path path
        | Windows => parse_windows_path path
        end with
  | Some uri =>
      if negb (bool_decide (host_str uri = Some []))
         && bool_decide (path_convention uri = Some convention)
      then Some uri
      else Some match convention with
                | Posix => from_opaque_path_bytes (encode path)
                | Windows => windows_opaque_path_uri path
                end
  | None => None
  end.

(** ** [join] *)

Definition join_step (anchor : nat) (st : Url * nat) (component : str) : Url * nat :=
  let '(url, depth) := st in
  if is_empty component || bool_decide (component = $".") then (url, depth)
  else if bool_decide (component = $"..")
  then if anchor <? depth then (url_pop url, depth - 1) else (url, depth)
  else (url_push component url, S depth).

Definition starts_with_drive (path : str) : bool :=
  match path with
  | d :: c :: _ => is_ascii_alphabetic d && bool_decide (c = COLON)
  | _ => false
  end.

Definition same_drive (self : PathUri) (path : str) : bool :=
  match non_empty (url_segments self), path with
  | segment :: _, d :: _ =>
      is_windows_drive_uri_segment segment
      && eq_ignore_case (take 1 segment) [d]
  | _, _ => false
  end.

(** The path text left to append: a same-drive prefix is dropped, another
    drive is an error. *)
Definition without_drive (self : PathUri) (convention : PathConvention) (path : str)
  : result str PathUriParseError :=
  if bool_decide (convention = Windows) && starts_with_drive path
  then if same_drive self path then Ok (drop 2 path) else Err (InvalidFileUriPath path)
  else Ok path.

Definition is_root_relative (convention : PathConvention) (path : str) : bool :=
  bool_decide (convention = Windows)
  && match path with
     | c :: rest =>
         is_windows_separator c
         && negb (match rest with d :: _ => is_windows_separator d | [] => false end)
     | [] => false
     end.

Definition append_relative (self : PathUri) (convention : PathConvention) (path : str) : Url :=
  let anchor := anchor_depth convention in
  let depth := segment_count self in
  let url := url_pop_if_empty self in
  let '(url, depth) :=
    if is_root_relative convention path
    then (Nat.iter (depth - anchor) url_pop url, Nat.min depth anchor)
    else (url, depth) in
  fst (fold_left (join_step anchor) (native_segments convention path) (url, depth)).

Definition join_uri (self : PathUri) (path : str) : result PathUri PathUriParseError :=
  if contains_char 0 path then Err (InvalidFileUriPath path)
  else if is_empty path then Ok self
  else
    match path_convention self with
    | None => Err (InvalidFileUriPath (url_text self))
    | Some convention =>
        match from_absolute_native_path path convention with
        | Some absolute => Ok absolute
        | None =>
            let? path := without_drive self convention path in
            if is_opaque self then Err (InvalidFileUriPath (url_text self))
            else try_from_url (append_relative self convention path)
        end
    end.

Definition join_descendant (self : PathUri) (path : str) : result PathUri PathUriParseError :=
  let? descendant := join_uri self path in
  let windows := bool_decide (path_convention self = Some Windows) in
  if starts_with path [FORWARD_SLASH]
     || windows
        && (starts_with path [BACKSLASH]
            || existsb (contains_char COLON) (native_segments Windows path))
     || negb (uri_starts_with descendant self)
  then Err (JoinPathMustBeDescendant path)
  else Ok descendant.

(** native_path_bytes.rs: names that are not UTF-8 are kept on POSIX. *)
Definition bytes_step (segments : list str) (component : list N) : list str :=
  if is_empty component || bool_decide (component = [46%N]) then segments
  else if bool_decide (component = [46%N; 46%N]) then removelast segments
  else segments ++ [encode_binary component].

Definition join_native_bytes (self : PathUri) (path : list N)
  : result PathUri PathUriParseError :=
  match from_utf8 path with
  | Ok text => join_uri self text
  | Err _ =>
      if negb (bool_decide (path_convention self = Some Posix)) || is_opaque self
         || contains_byte 0 path
      then Err (InvalidFileUriPath (url_text self))
      else
        let base :=
          if starts_with path [FORWARD_SLASH] then []
          else non_empty (split_char FORWARD_SLASH (url_path self)) in
        let segments := fold_left bytes_step (split_char FORWARD_SLASH path) base in
        let? uri := try_from_url (set_path (FORWARD_SLASH :: join [FORWARD_SLASH] segments) self) in
        if bool_decide (path_convention uri = Some Posix) then Ok uri
        else Err (InvalidFileUriPath (url_text uri))
  end.

End uris.
