(* ===== verification/ApiPath.v ===== *)
(** * Native texts of path URIs (utils/path-uri/src/{api_path_string,config_path}.rs)

    Rendering a [PathUri] with the syntax of a convention, parsing native text
    against a working directory and a home directory, and the checks on paths
    that come from configuration.  [LegacyAppPathString] wraps its text, and is
    that text here. *)

From S2P Require Import Prelude RustStr Utf8 PatchTypes ExecutorFs PathUri.

(** ** Lossy decoding (standard library) *)

Definition REPLACEMENT : char := 65533%N.

(** [String::from_utf8_lossy]: every maximal ill-formed part is replaced. *)
Fixpoint utf8_lossy (fuel : nat) (l : list N) : str :=
  let '(s, e) := decode l in
  match e, fuel with
  | Complete, _ => s
  | Incomplete, _ => s ++ [REPLACEMENT]
  | Invalid n, S k => s ++ REPLACEMENT :: utf8_lossy k (drop (byte_len s + n) l)
  | Invalid _, 0 => s ++ [REPLACEMENT]
  end.

Definition from_utf8_lossy (l : list N) : str := utf8_lossy (length l) l.

Definition is_lead_surrogate (u : N) : bool := ((55296 <=? u) && (u <? 56320))%N.
Definition is_trail_surrogate (u : N) : bool := ((56320 <=? u) && (u <? 57344))%N.

(** [String::from_utf16_lossy]. *)
Fixpoint from_utf16_lossy (units : list N) : str :=
  match units with
  | [] => []
  | u :: rest =>
      if is_lead_surrogate u then
        match rest with
        | v :: rest' =>
            if is_trail_surrogate v
            then (65536 + (u - 55296) * 1024 + (v - 56320))%N :: from_utf16_lossy rest'
            else REPLACEMENT :: from_utf16_lossy rest
        | [] => [REPLACEMENT]
        end
      else if is_trail_surrogate u then REPLACEMENT :: from_utf16_lossy rest
      else u :: from_utf16_lossy rest
  end.

Inductive LegacyAppPathStringError : Type :=
| OpaqueFallback (path : str)
| IncompatibleConvention (path : str) (convention : PathConvention)
| InvalidNativePath (path : str) (convention : option PathConvention)
| UnsupportedConfigPath (path : str) (convention : PathConvention)
| MissingBaseConvention (cwd : str)
| MissingHomeDirectory (path : str)
| MismatchedConvention (path : str) (path_convention : PathConvention) (cwd : str)
    (convention : PathConvention)
| EUri (e : PathUriParseError).

Section paths.
Context {Url : Type} `{UrlCrates Url} `{Unreachable Url}.
Abbreviation PathUri := Url (only parsing).

(** ** Rendering *)

Definition has_drive_root (units : list N) : bool :=
  match units with
  | d :: c :: s :: _ =>
      is_ascii_alphabetic d && bool_decide (c = COLON) && is_windows_separator s
  | _ => false
  end.

Definition render_windows_opaque_fallback (path_bytes : list N) : option str :=
  if Nat.odd (length path_bytes) then None
  else
    let path_wide := le_units path_bytes in
    if has_drive_root path_wide || starts_with_two_separators path_wide
    then Some (from_utf16_lossy path_wide) else None.

Definition render_opaque_fallback (path : PathUri) (path_bytes : list N)
  (convention : PathConvention) : result str LegacyAppPathStringError :=
  ok_or match convention with
        | Posix =>
            if starts_with path_bytes [FORWARD_SLASH]
            then Some (from_utf8_lossy path_bytes) else None
        | Windows => render_windows_opaque_fallback path_bytes
        end (OpaqueFallback (url_text path)).

Definition decode_native_segment (segment : str) : str :=
  from_utf8_lossy (decode_segment segment).

Definition incompatible_convention (path : PathUri) (convention : PathConvention)
  : LegacyAppPathStringError := IncompatibleConvention (url_text path) convention.

Definition render_posix_path (path : PathUri) : result str LegacyAppPathStringError :=
  if is_some (host_str path) then Err (incompatible_convention path Posix)
  else Ok (concat (map (fun segment => FORWARD_SLASH :: decode_native_segment segment)
                     (url_segments path))).

(** The drive or the share that begins a Windows path, and the other segments. *)
Definition windows_anchor (path : PathUri) : option (str * list str) :=
  match url_segments path with
  | [] => None
  | first :: segments =>
      let name := decode_native_segment first in
      match host_str path with
      | Some host =>
          if is_empty name then None
          else Some ([BACKSLASH; BACKSLASH] ++ host ++ BACKSLASH :: name, segments)
      | None =>
          match name with
          | [d; c] =>
              if is_ascii_alphabetic d && bool_decide (c = COLON) then Some (name, segments)
              else None
          | _ => None
          end
      end
  end.

Definition render_windows_path (path : PathUri) : result str LegacyAppPathStringError :=
  match windows_anchor path with
  | Some (anchor, segments) =>
      let rendered :=
        anchor ++ concat (map (fun s => BACKSLASH :: decode_native_segment s) segments) in
      Ok (if (byte_len rendered =? 2) && last_is (fun c => bool_decide (c = COLON)) rendered
          then rendered ++ [BACKSLASH] else rendered)
  | None => Err (incompatible_convention path Windows)
  end.

Definition from_path_uri (path : PathUri) (convention : PathConvention)
  : result str LegacyAppPathStringError :=
  match decode_bad_path_uri path with
  | Some path_bytes => render_opaque_fallback path path_bytes convention
  | None =>
      match convention with
      | Posix => render_posix_path path
      | Windows => render_windows_path path
      end
  end.

(** [PathUri::inferred_native_path_string] (lib.rs) *)
Definition native_path_string (self : PathUri) : str :=
  match path_convention self with
  | Some convention => default (url_text self) (res_ok (from_path_uri self convention))
  | None => url_text self
  end.

(** ** Parsing *)

Definition to_path_uri (path : str) (convention : PathConvention)
  : result PathUri LegacyAppPathStringError :=
  ok_or (from_absolute_native_path path convention) (InvalidNativePath path (Some convention)).

Definition infer_absolute_path_convention (path : str) : option PathConvention :=
  if is_windows_drive_absolute_path path || starts_with path ($"\\") then Some Windows
  else if starts_with path [FORWARD_SLASH] then Some Posix
  else None.

Definition separators (convention : PathConvention) (c : char) : bool :=
  bool_decide (c = FORWARD_SLASH)
  || bool_decide (convention = Windows) && bool_decide (c = BACKSLASH).

(** [trim_start_matches] with a predicate. *)
Fixpoint trim_start_where (p : char -> bool) (s : str) : str :=
  match s with
  | c :: s' => if p c then trim_start_where p s' else s
  | [] => []
  end.

Definition resolve_against (path : str) (cwd : PathUri) (user_home_dir : option PathUri)
  : result PathUri LegacyAppPathStringError :=
  match path_convention cwd with
  | None => Err (MissingBaseConvention (url_text cwd))
  | Some convention =>
      let is_windows := bool_decide (convention = Windows) in
      match home_relative_suffix convention path with
      | Some suffix =>
          match user_home_dir with
          | Some home =>
              map_err EUri (join_uri home (trim_start_where (separators convention) suffix))
          | None => Err (MissingHomeDirectory path)
          end
      | None =>
          if is_windows && (starts_with path ($"//") || starts_with path ($"\\"))
          then to_path_uri path Windows
          else
            match infer_absolute_path_convention path with
            | Some path_convention =>
                if bool_decide (path_convention = convention) then to_path_uri path convention
                else if bool_decide (path_convention = Posix) && is_windows
                then map_err EUri (join_uri cwd path)
                else Err (MismatchedConvention path path_convention (url_text cwd) convention)
            | None => map_err EUri (join_uri cwd path)
            end
      end
  end.

Definition to_inferred_path_uri (path : str) : result PathUri LegacyAppPathStringError :=
  match infer_absolute_path_convention path with
  | Some convention =>
      ok_or (from_absolute_native_path path convention) (InvalidNativePath path (Some convention))
  | None => Err (InvalidNativePath path None)
  end.

Definition render_for_ui (path : str) : str :=
  match to_inferred_path_uri path with
  | Ok uri => native_path_string uri
  | Err _ => path
  end.

(** ** Configuration paths *)

Definition without_drive_prefix (segment : str) : str :=
  match segment with
  | d :: c :: rest => if is_ascii_alphabetic d && bool_decide (c = COLON) then rest else segment
  | _ => segment
  end.

Definition has_component_colon (native_input : str) : bool :=
  match native_segments Windows native_input with
  | first :: rest =>
      contains_char COLON (without_drive_prefix first) || existsb (contains_char COLON) rest
  | [] => false
  end.

Definition mixed_home_separators (input : str) : bool :=
  match home_relative_suffix Windows input with
  | Some suffix =>
      starts_with suffix [FORWARD_SLASH]
      && starts_with (trim_start_matches FORWARD_SLASH suffix) [BACKSLASH]
      || starts_with suffix [BACKSLASH]
         && starts_with (trim_start_matches BACKSLASH suffix) [FORWARD_SLASH]
  | None => false
  end.

Definition is_bare_drive (path : str) : bool :=
  match path with [d; c] => is_ascii_alphabetic d && bool_decide (c = COLON) | _ => false end.

Definition validate_config_path_text (input : str) (convention : PathConvention)
  : result () LegacyAppPathStringError :=
  let native_input := default input (normalize_windows_device_path input) in
  let windows := bool_decide (convention = Windows) in
  if contains_char 0 input
     || windows && has_component_colon native_input
     || windows && mixed_home_separators input
     || windows && is_bare_drive native_input
  then Err (UnsupportedConfigPath input convention) else Ok ().

Definition validate_config_path (self : PathUri) (convention : PathConvention)
  : result () LegacyAppPathStringError :=
  if negb (bool_decide (path_convention self = Some convention))
  then Err (IncompatibleConvention (url_text self) convention)
  else
    let bytes := decoded_path_bytes self in
    if is_none (lexical_depth self) || contains_byte 0 bytes || negb (is_ok (from_utf8 bytes))
    then Err (EUri (InvalidFileUriPath (url_text self)))
    else
      let? text := from_path_uri self convention in
      validate_config_path_text text convention.

Definition contains_glob_metacharacter (path : str) : bool :=
  existsb (fun c => contains_char c ($"*?[]{}")) path.

Definition validate_glob_directory (self : PathUri) (convention : PathConvention)
  : result () LegacyAppPathStringError :=
  let? _ := validate_config_path self convention in
  let? path := from_path_uri self convention in
  if contains_glob_metacharacter path
     || bool_decide (convention = Posix) && contains_char BACKSLASH path
  then Err (UnsupportedConfigPath path convention) else Ok ().

(** The checks on the directory a relative input is resolved against. *)
Definition check_base (base : PathUri) (convention : PathConvention) (input : str)
  : result () LegacyAppPathStringError :=
  let? _ := validate_config_path base convention in
  if contains_glob_metacharacter input then validate_glob_directory base convention else Ok ().

Definition resolve_config_path_uri (input : str) (convention : PathConvention)
  (base user_home_dir : option PathUri) : result PathUri LegacyAppPathStringError :=
  let? _ := validate_config_path_text input convention in
  let? resolved :=
    if is_some (home_relative_suffix convention input) then
      match user_home_dir with
      | Some home =>
          let? _ := check_base home convention input in
          resolve_against input home (Some home)
      | None => Err (MissingHomeDirectory input)
      end
    else
      match to_path_uri input convention with
      | Ok absolute => Ok absolute
      | Err error =>
          match base with
          | Some base =>
              let? _ := check_base base convention input in
              resolve_against input base None
          | None => Err error
          end
      end in
  let? _ := validate_config_path resolved convention in
  map_err EUri (join_uri resolved ($".")).

Definition to_config_path_string (self : PathUri) (convention : PathConvention)
  : result str LegacyAppPathStringError :=
  let? rendered := from_path_uri self convention in
  Ok (if is_some (host_str self) && is_none (parent self)
      then rendered ++ [BACKSLASH] else rendered).

Definition resolve_config_path (input : str) (convention : PathConvention)
  (base user_home_dir : option PathUri) : result str LegacyAppPathStringError :=
  let? uri := resolve_config_path_uri input convention base user_home_dir in
  to_config_path_string uri convention.

(** The operations patch application uses (ExecutorFs.v). *)
#[export] Instance path_uri_ops : PathUriOps PathUri := {
  infer_path_convention := path_convention;
  uri_join := join_uri;
  uri_parent := parent;
  inferred_native_path_string := native_path_string;
}.

End paths.
