(* ===== verification/PathUriSpec.v ===== *)
(** * Path URIs: what the crates promise, and what the paths then satisfy

    [UrlLaws] is the documented behaviour of [url] and [urlencoding] the proofs
    rely on; module [FileUrls] is a model of [file:] URLs that satisfies it.
    The theorems: containment of POSIX paths is the prefix order on names,
    depth grows along containment, the chain of parents ends. *)

From S2P Require Import Prelude RustStr Utf8 PatchTypes ExecutorFs PathUri.

(** ** The laws *)

(** A name that [push] appends as one segment: not a dot segment, not a drive
    (which a [file:] URL may rewrite), no character the URL parser drops. *)
Definition ordinary_name (s : str) : Prop :=
  s <> [] /\ s <> $"." /\ s <> $".." /\ length s <> 2
  /\ Forall (fun c => c <> 0%N /\ c <> 9%N /\ c <> 10%N /\ c <> 13%N /\ c <> FORWARD_SLASH /\ scalar c) s.

(** The segments of [/] are one empty segment; appending to it replaces it. *)
Definition without_root_segment (l : list str) : list str :=
  if bool_decide (l = [[]]) then [] else l.

(** Everything but the path. *)
Definition url_metadata {Url} `{UrlCrates Url} (u : Url) :=
  (url_scheme u, url_username u, url_password u, url_port u, url_query u, url_fragment u,
   host_str u).

Definition plain_metadata (host : option str)
  : str * str * option str * option N * option str * option str * option str :=
  (FILE_SCHEME, [], None, None, None, None, host).

Definition hex_value (c : char) : option N :=
  if ((48 <=? c) && (c <=? 57))%N then Some (c - 48)%N
  else if ((65 <=? c) && (c <=? 70))%N then Some (c - 55)%N
  else if ((97 <=? c) && (c <=? 102))%N then Some (c - 87)%N
  else None.

Class UrlLaws (Url : Type) `{UrlCrates Url} : Prop := {
  path_of_segments u : url_path u = FORWARD_SLASH :: join [FORWARD_SLASH] (url_segments u);
  segments_nonempty u : url_segments u <> [];
  segments_no_slash u : Forall (fun w => ~ In FORWARD_SLASH w) (url_segments u);
  text_law u host :
    url_metadata u = plain_metadata host ->
    url_text u = $"file://" ++ default [] host ++ url_path u /\ ~ In FORWARD_SLASH (default [] host);
  parse_root_law :
    exists u, url_parse ($"file:///") = Ok u /\ url_segments u = [[]]
              /\ url_metadata u = plain_metadata None;
  pop_law u :
    url_segments (url_pop u)
    = match removelast (url_segments u) with [] => [[]] | l => l end;
  pop_metadata u : url_metadata (url_pop u) = url_metadata u;
  pop_if_empty_law u :
    url_segments (url_pop_if_empty u)
    = if (1 <? length (url_segments u)) && bool_decide (last (url_segments u) = Some [])
      then removelast (url_segments u) else url_segments u;
  pop_if_empty_metadata u : url_metadata (url_pop_if_empty u) = url_metadata u;
  clear_law u : url_segments (url_clear u) = [[]];
  clear_metadata u : url_metadata (url_clear u) = url_metadata u;
  push_law s u :
    ordinary_name s ->
    exists w, url_segments (url_push s u) = without_root_segment (url_segments u) ++ [w]
              /\ w <> [] /\ decode_binary (encode w) = encode s;
  push_empty_law u :
    url_segments (url_push [] u) = without_root_segment (url_segments u) ++ [[]];
  push_metadata s u : url_metadata (url_push s u) = url_metadata u;
  set_path_law p u :
    to_ascii_lowercase p = to_ascii_lowercase (url_path u) -> url_path (set_path p u) = p;
  set_path_metadata p u : url_metadata (set_path p u) = url_metadata u;
  drop_host_law u host :
    url_metadata u = plain_metadata host ->
    exists u', set_host None u = Some u' /\ url_path u' = url_path u
               /\ url_metadata u' = plain_metadata None;
  decode_nil l : decode_binary l = [] <-> l = [];
  decode_byte c l : c <> 37%N -> decode_binary (c :: l) = c :: decode_binary l;
  decode_escape h1 h2 a b l :
    hex_value h1 = Some a -> hex_value h2 = Some b ->
    decode_binary (37%N :: h1 :: h2 :: l) = (16 * a + b)%N :: decode_binary l;
  parse_bad_law b :
    exists u, url_parse (BAD_PATH_URI_PREFIX ++ base64_encode b) = Ok u
              /\ url_text u = BAD_PATH_URI_PREFIX ++ base64_encode b
              /\ url_metadata u = plain_metadata None;
  base64_law b : base64_decode (base64_encode b) = Some b;
  base64_alphabet b : ~ In FORWARD_SLASH (base64_encode b);
  base64_empty b : base64_encode b = [] -> b = [];
  decode_slash a b :
    decode_binary (a ++ FORWARD_SLASH :: b) = decode_binary a ++ FORWARD_SLASH :: decode_binary b;
}.

Section uris.
Context {Url : Type} `{UrlLaws Url} `{Unreachable Url}.
Abbreviation PathUri := Url (only parsing).

(** The decoded names of a path. *)
Definition names (u : PathUri) : list (list N) := map decode_segment (non_empty (url_segments u)).

(** A path whose components are unambiguous, in a convention. *)
Definition lexical (c : PathConvention) (u : PathUri) : Prop :=
  path_convention u = Some c /\ exists d, lexical_depth u = Some d.

Lemma lexical_iff c u :
  lexical c u <->
  path_convention u = Some c /\ is_opaque u = false
  /\ containment_path_segments u c = Some (non_empty (url_segments u)).
Proof.
  unfold lexical, lexical_depth. split.
  - intros (Hc & d & Hd). destruct (is_opaque u); [done|]. rewrite Hc in Hd.
    split; [done|]. split; [done|]. revert Hd. unfold containment_path_segments.
    by destruct (existsb _ _).
  - intros (Hc & Ho & Hs). split; [done|]. rewrite Ho, Hc. simpl. rewrite Hs. by eexists.
Qed.

Lemma depth_names c u : path_convention u = Some c -> forall d,
  lexical_depth u = Some d -> d = length (names u).
Proof.
  intros Hc d Hd. destruct (proj1 (lexical_iff c u)) as (_ & Ho & Hs); [split; eauto|].
  unfold lexical_depth in Hd. rewrite Ho, Hc, Hs in Hd. unfold names. rewrite length_map.
  by injection Hd as <-.
Qed.

Lemma names_depth c u : lexical c u -> lexical_depth u = Some (length (names u)).
Proof.
  intros Hl. pose proof Hl as (Hc & d & Hd). by rewrite (depth_names c u Hc d Hd) in Hd.
Qed.

Lemma uri_eq_refl u : uri_eq u u = true.
Proof. unfold uri_eq. by rewrite bool_decide_true. Qed.

Lemma starts_with_refl u : uri_starts_with u u = true.
Proof. unfold uri_starts_with. by rewrite uri_eq_refl. Qed.

Lemma posix_host u : path_convention u = Some Posix -> is_opaque u = false -> host_str u = None.
Proof.
  unfold path_convention, is_opaque. destruct (decode_bad_path_uri u); [done|].
  by destruct (host_str u).
Qed.

Lemma posix_uri_eq u v : path_convention u = Some Posix -> uri_eq u v = bool_decide (u = v).
Proof.
  intros Hc. unfold uri_eq, windows_identity_path_bytes. rewrite Hc. simpl.
  by destruct (bool_decide (u = v)).
Qed.

(** Pairwise equality of decoded segments, along the shorter list. *)
Lemma posix_segments_prefix (ps bs : list str) :
  native_path_segments_start_with ps bs Posix = true
  <-> map decode_segment bs `prefix_of` map decode_segment ps.
Proof.
  unfold native_path_segments_start_with, same_native_segment. revert ps.
  induction bs as [|b bs IH]; intros ps.
  - split; [intros _; apply prefix_nil|]. intros _. by destruct ps.
  - destruct ps as [|p ps]; simpl.
    + split; [done|]. intros Hp. by apply prefix_nil_not in Hp.
    + specialize (IH ps). rewrite andb_true_iff in IH |- *. rewrite andb_true_iff.
      rewrite bool_decide_eq_true. rewrite Nat.leb_le in IH |- *. split.
      * intros (Hl & <- & Hf). apply prefix_cons. apply IH. split; [lia|done].
      * intros Hp. pose proof (prefix_cons_inv_1 _ _ _ _ Hp) as ->.
        apply prefix_cons_inv_2, IH in Hp. split; [lia|]. split; [done|]. apply Hp.
Qed.

(** Containment of POSIX paths is the prefix order on their names. *)
Lemma starts_with_posix p b :
  lexical Posix p -> lexical Posix b ->
  (uri_starts_with p b = true <-> names b `prefix_of` names p).
Proof.
  intros Hp Hb. apply lexical_iff in Hp as (Hpc & Hpo & Hps).
  apply lexical_iff in Hb as (Hbc & Hbo & Hbs).
  unfold uri_starts_with. rewrite (posix_uri_eq _ _ Hpc).
  case_bool_decide as Heq; [by subst|].
  rewrite Hpo, Hbo, (posix_host p Hpc Hpo), (posix_host b Hbc Hbo), Hpc, Hbc. simpl.
  rewrite Hps, Hbs. apply posix_segments_prefix.
Qed.

(** ** Windows paths *)

Lemma lower_slash c : char_to_ascii_lowercase c = FORWARD_SLASH <-> c = FORWARD_SLASH.
Proof.
  unfold char_to_ascii_lowercase, is_ascii_upper, FORWARD_SLASH.
  destruct ((65 <=? c) && (c <=? 90))%N eqn:E; [|done].
  apply andb_true_iff in E as [E1%N.leb_le E2%N.leb_le]. lia.
Qed.

Lemma lower_split s :
  split_char FORWARD_SLASH (to_ascii_lowercase s)
  = map to_ascii_lowercase (split_char FORWARD_SLASH s).
Proof.
  induction s as [|c s IH]; [done|]. destruct (decide (c = FORWARD_SLASH)) as [->|Hc].
  - change (to_ascii_lowercase (FORWARD_SLASH :: s)) with (FORWARD_SLASH :: to_ascii_lowercase s).
    simpl. by rewrite IH.
  - destruct (split_char_cons FORWARD_SLASH c s Hc) as (w & ws & E & ->).
    destruct (split_char_cons FORWARD_SLASH (char_to_ascii_lowercase c) (to_ascii_lowercase s))
      as (w' & ws' & E' & Hs); [by rewrite lower_slash|].
    change (to_ascii_lowercase (c :: s)) with (char_to_ascii_lowercase c :: to_ascii_lowercase s).
    rewrite Hs. rewrite IH, E in E'. by injection E' as <- <-.
Qed.

(** The pieces of a decoded path are its decoded segments. *)
Lemma encode_slash a b : encode (a ++ FORWARD_SLASH :: b) = encode a ++ FORWARD_SLASH :: encode b.
Proof. by rewrite encode_app. Qed.

Lemma decode_joined ws : ws <> [] ->
  decode_segment (join [FORWARD_SLASH] ws) = join [FORWARD_SLASH] (map decode_segment ws).
Proof.
  induction ws as [|w ws IH]; [done|]. intros _. destruct ws as [|w' ws]; [done|].
  rewrite join_cons by done. change (map decode_segment (w :: w' :: ws))
    with (decode_segment w :: map decode_segment (w' :: ws)).
  rewrite (join_cons _ (decode_segment w)) by discriminate. rewrite <- IH by done. unfold decode_segment. simpl.
  by rewrite encode_slash, decode_slash.
Qed.

Lemma decode_path u :
  decode_segment (url_path u) = FORWARD_SLASH :: join [FORWARD_SLASH] (map decode_segment (url_segments u)).
Proof.
  rewrite path_of_segments, <- decode_joined by apply segments_nonempty.
  unfold decode_segment. change (encode (FORWARD_SLASH :: ?s)) with ([] ++ FORWARD_SLASH :: encode s).
  rewrite decode_slash. by rewrite (proj2 (decode_nil []) eq_refl).
Qed.

Lemma eq_ignore_case_empty a b : eq_ignore_case a b = true -> a = [] <-> b = [].
Proof.
  unfold eq_ignore_case. rewrite bool_decide_eq_true.
  destruct a, b; simpl; intros; split; congruence.
Qed.

Lemma decode_segment_nil s : decode_segment s = [] <-> s = [].
Proof.
  unfold decode_segment. rewrite decode_nil. destruct s as [|c s]; [done|].
  split; [|done]. unfold encode. simpl. unfold encode_char. by repeat case_match.
Qed.

(** Lists with pairwise equal pieces, ignoring case, have as many non-empty ones. *)
Lemma non_empty_count (l m : list str) :
  map to_ascii_lowercase (map decode_segment l) = map to_ascii_lowercase (map decode_segment m) ->
  length (non_empty l) = length (non_empty m).
Proof.
  revert m. induction l as [|x l IH]; intros [|y m]; try done. simpl. intros [= Hxy Hlm].
  specialize (IH m Hlm). unfold non_empty in *. rewrite !filter_cons.
  assert (Hn : x = [] <-> y = []).
  { rewrite <- (decode_segment_nil x), <- (decode_segment_nil y).
    apply eq_ignore_case_empty. unfold eq_ignore_case. by apply bool_decide_eq_true. }
  destruct (decide (x = [])) as [Hx|Hx].
  - rewrite !decide_False by tauto. done.
  - rewrite !decide_True by tauto. simpl. by rewrite IH.
Qed.

Lemma windows_separator_slash c : is_windows_separator c = false -> c <> FORWARD_SLASH.
Proof. by intros Hc ->. Qed.

Lemma identity_parts u path :
  windows_identity_path_bytes u = Some path ->
  path_convention u = Some Windows /\ is_opaque u = false
  /\ path = decode_segment (url_path u)
  /\ Forall (fun w => ~ In FORWARD_SLASH w) (map decode_segment (url_segments u)).
Proof.
  unfold windows_identity_path_bytes. destruct (bool_decide _) eqn:Hc; [|done].
  destruct (is_opaque u); [done|]. simpl. destruct (existsb _ _) eqn:Hs; [done|].
  intros [= <-]. apply bool_decide_eq_true in Hc. split_and!; [done..|].
  apply Forall_map, Forall_forall. intros w Hw Hin.
  assert (true = false) as [=]. rewrite <- Hs. symmetry. apply existsb_exists.
  exists w. split; [by apply list_elem_of_In|]. apply existsb_exists.
  exists FORWARD_SLASH. by split.
Qed.

Lemma lower_no_slash w : ~ In FORWARD_SLASH w -> ~ In FORWARD_SLASH (to_ascii_lowercase w).
Proof.
  intros Hw Hin. apply in_map_iff in Hin as (c & Hc & Hin). apply lower_slash in Hc as ->. done.
Qed.

(** Equal Windows paths have as many names. *)
Lemma identity_count u v path path' :
  windows_identity_path_bytes u = Some path -> windows_identity_path_bytes v = Some path' ->
  eq_ignore_case path path' = true -> segment_count u = segment_count v.
Proof.
  intros (_ & _ & -> & Hu)%identity_parts (_ & _ & -> & Hv)%identity_parts Heq.
  unfold eq_ignore_case in Heq. rewrite bool_decide_eq_true in Heq.
  rewrite !decode_path in Heq. cbn [to_ascii_lowercase map] in Heq. injection Heq as Heq.
  apply (f_equal (split_char FORWARD_SLASH)) in Heq.
  change (map char_to_ascii_lowercase ?s) with (to_ascii_lowercase s) in Heq.
  rewrite !lower_split in Heq.
  rewrite !split_char_join in Heq; [|by (intros E%map_eq_nil; by apply segments_nonempty in E)
    |done|by (intros E%map_eq_nil; by apply segments_nonempty in E)|done].
  by apply non_empty_count.
Qed.

Lemma segment_count_names u : segment_count u = length (names u).
Proof. unfold names, segment_count. by rewrite length_map. Qed.

(** Equal paths have the same depth. *)
Lemma uri_eq_depth c d u v :
  lexical c u -> lexical d v -> uri_eq u v = true -> length (names u) = length (names v).
Proof.
  intros Hu Hv. unfold uri_eq. case_bool_decide as He; [by subst|].
  destruct (windows_identity_path_bytes u) as [p|] eqn:Ep; [|done].
  destruct (windows_identity_path_bytes v) as [q|] eqn:Eq; [|done].
  intros [_ Heq]%andb_true_iff. rewrite <- !segment_count_names. by eapply identity_count.
Qed.

(** A path is at least as deep as one that contains it. *)
Lemma starts_with_depth c d p b :
  lexical c p -> lexical d b -> uri_starts_with p b = true -> length (names b) <= length (names p).
Proof.
  intros Hp Hb. unfold uri_starts_with.
  destruct (uri_eq p b) eqn:Heq; [intros _; by rewrite (uri_eq_depth c d p b)|].
  apply lexical_iff in Hp as (Hpc & Hpo & Hps). apply lexical_iff in Hb as (Hbc & Hbo & Hbs).
  rewrite Hpo, Hbo. simpl. destruct (bool_decide (host_str p = host_str b)); [|done]. simpl.
  rewrite Hpc, Hbc. case_bool_decide as Hcd; [|done]. simplify_eq. simpl. rewrite Hps, Hbs.
  unfold native_path_segments_start_with. intros [Hl%Nat.leb_le _]%andb_true_iff.
  unfold names. by rewrite !length_map.
Qed.

(** ** The invariant of the type *)

Definition valid_uri (u : PathUri) : Prop :=
  url_scheme u = FILE_SCHEME /\ validate_file_url u = Ok ().

Definition null_free (u : PathUri) : Prop := ~ In 0%N (decode_segment (url_path u)).

Lemma valid_iff u :
  valid_uri u <->
  url_metadata u = plain_metadata (host_str u) /\ (null_free u \/ is_opaque u = true).
Proof.
  unfold valid_uri, validate_file_url, validate_common_known_uri, url_metadata, plain_metadata,
    null_free, is_opaque, is_some, contains_byte.
  split.
  - intros [Hs Hv].
    destruct (url_username u); [|done]. destruct (url_password u); [done|].
    destruct (url_port u); [done|]. destruct (url_query u); [done|].
    destruct (url_fragment u); [done|]. simpl in Hv. rewrite Hs. split; [done|].
    destruct (contains_char _ _) eqn:Hc.
    + right. by destruct (decode_bad_path_uri u).
    + left. by apply contains_char_false.
  - intros [[= Hs Hu Hp Ho Hq Hf] Hn]. rewrite Hs, Hu, Hp, Ho, Hq, Hf. simpl. split; [done|].
    destruct Hn as [Hn|Hn].
    + apply contains_char_false in Hn. by rewrite Hn.
    + destruct (decode_bad_path_uri u); [|done]. by rewrite andb_false_r.
Qed.

Lemma decode_plain_app a l : ~ In 37%N a -> decode_binary (a ++ l) = a ++ decode_binary l.
Proof.
  induction a as [|c a IH]; intros Ha; [done|]. simpl.
  rewrite decode_byte by (intros ->; apply Ha; by left). rewrite IH; [done|].
  intros Hin. apply Ha. by right.
Qed.

Lemma encode_ascii s : Forall (fun c => (c < 128)%N) s -> encode s = s.
Proof.
  induction 1 as [|c s Hc _ IH]; [done|]. unfold encode in *. simpl. rewrite IH.
  unfold encode_char. by apply N.ltb_lt in Hc as ->.
Qed.

(** The text of an opaque path has no authority. *)
Lemma opaque_text u :
  url_metadata u = plain_metadata (host_str u) -> is_opaque u = true ->
  default [] (host_str u) = [] /\ exists rest, url_path u = $"/%00/bad/path/" ++ rest.
Proof.
  intros Hm Ho. destruct (text_law u _ Hm) as [Ht Hh].
  unfold is_opaque, decode_bad_path_uri in Ho. rewrite Ht in Ho.
  destruct (strip_prefix BAD_PATH_URI_PREFIX _) as [rest|] eqn:Hs; [|done].
  apply strip_prefix_Some in Hs. unfold BAD_PATH_URI_PREFIX in Hs.
  change ($"file:///%00/bad/path/") with ($"file://" ++ $"/%00/bad/path/") in Hs.
  rewrite <- app_assoc in Hs. apply app_inv_head in Hs.
  destruct (default [] (host_str u)) as [|c host]; [split; [done|by exists rest]|].
  injection Hs as -> _. destruct Hh. by left.
Qed.

Lemma opaque_has_null u :
  url_metadata u = plain_metadata (host_str u) -> is_opaque u = true -> ~ null_free u.
Proof.
  intros Hm Ho Hn. destruct (opaque_text u Hm Ho) as (_ & rest & Hs). apply Hn. clear Hn.
  assert (encode (url_path u) = 47%N :: 37%N :: 48%N :: 48%N :: encode ($"/bad/path/" ++ rest))
    as He by (etransitivity; [apply f_equal, Hs|reflexivity]).
  unfold decode_segment. rewrite He, decode_byte by done.
  rewrite (decode_escape _ _ 0 0) by done. right. by left.
Qed.

Lemma valid_not_opaque u : valid_uri u -> is_opaque u = false -> null_free u.
Proof. rewrite valid_iff. intros [_ [Hn|Ho]] Hf; [done|congruence]. Qed.

Lemma null_free_not_opaque u :
  url_metadata u = plain_metadata (host_str u) -> null_free u -> is_opaque u = false.
Proof.
  intros Hm Hn. destruct (is_opaque u) eqn:Ho; [|done]. by destruct (opaque_has_null u Hm Ho).
Qed.

(** A path is free of nulls exactly when its segments are. *)
Lemma null_free_segments u :
  null_free u <-> Forall (fun w => ~ In 0%N (decode_segment w)) (url_segments u).
Proof.
  unfold null_free. rewrite decode_path. simpl.
  assert (Hj : forall ws, In 0%N (join [FORWARD_SLASH] ws) <-> exists w, In w ws /\ In 0%N w).
  { induction ws as [|w [|w' ws] IH].
    - split; [done|]. by intros (w & [] & _).
    - simpl. split; [intros H'; eauto|]. by intros (? & [->|[]] & ?).
    - rewrite join_cons by done. rewrite !in_app_iff, IH. simpl. split.
      + intros [H'|[[[=]|[]]|(v & Hv & H')]]; eauto.
      + intros (v & [->|Hv] & H'); [by left|]. right. right. eauto. }
  rewrite Forall_forall. split.
  - intros Hn w Hw Hin. apply Hn. right. apply Hj. exists (decode_segment w).
    split; [|done]. by apply in_map, list_elem_of_In.
  - intros Hall [[=]|Hin]. apply Hj in Hin as (w & Hw & Hin).
    apply in_map_iff in Hw as (v & <- & Hv). apply (Hall v); [by apply list_elem_of_In|done].
Qed.

(** ** Parents *)

Lemma non_empty_app l m : non_empty (l ++ m) = non_empty l ++ non_empty m.
Proof. apply filter_app. Qed.

Lemma non_empty_one x : length (non_empty [x]) <= 1.
Proof. unfold non_empty. rewrite filter_cons. case_decide; simpl; lia. Qed.

Lemma removelast_split {A} (l : list A) : l <> [] -> exists x, l = removelast l ++ [x].
Proof. intros Hl. destruct (exists_last Hl) as (l' & x & ->). exists x. by rewrite removelast_last. Qed.

(** The segments left by [url_pop_if_empty] and [pop]. *)
Lemma parent_shape u up :
  parent u = Some up ->
  exists l w, url_segments up = match l with [] => [[]] | _ => l end
    /\ l `prefix_of` url_segments u /\ length l < length (url_segments u)
    /\ non_empty (url_segments u) = non_empty l ++ w /\ length w <= 1.
Proof.
  unfold parent. destruct (is_opaque u); [done|]. destruct (path_convention u); [|done].
  destruct (_ <=? _); [done|]. intros [= <-].
  exists (removelast (url_segments (url_pop_if_empty u))).
  rewrite pop_law, pop_if_empty_law. pose proof (segments_nonempty u) as Hne.
  destruct (removelast_split _ Hne) as [x Hx]. revert Hx.
  generalize (removelast (url_segments u)) as l. intros l ->. destruct (_ && _) eqn:Hp.
  - apply andb_true_iff in Hp as [Hl%Nat.ltb_lt He].
    rewrite last_snoc, bool_decide_eq_true in He. injection He as ->.
    rewrite length_app in *. simpl in Hl.
    destruct (removelast_split l) as [y Hy]; [by intros ->; simpl in Hl; lia|].
    revert Hy. generalize (removelast l) as m. intros m ->.
    exists (non_empty [y]). split; [by destruct m|].
    split; [rewrite <- app_assoc; by eexists|]. rewrite !length_app. simpl. split; [lia|].
    rewrite !non_empty_app. split; [by rewrite app_nil_r|].
    apply non_empty_one.
  - exists (non_empty [x]). rewrite removelast_last. split; [by destruct l|]. split; [by eexists|].
    rewrite length_app. simpl. split; [lia|]. rewrite non_empty_app. split; [done|].
    apply non_empty_one.
Qed.

Lemma parent_metadata u up : parent u = Some up -> url_metadata up = url_metadata u.
Proof.
  unfold parent. destruct (is_opaque u), (path_convention u); try done.
  destruct (_ <=? _); [done|]. intros [= <-]. by rewrite pop_metadata, pop_if_empty_metadata.
Qed.

Lemma metadata_host u v : url_metadata u = url_metadata v -> host_str u = host_str v.
Proof. unfold url_metadata. congruence. Qed.

Lemma metadata_valid u v :
  url_metadata v = url_metadata u -> valid_uri u -> null_free v -> valid_uri v.
Proof.
  rewrite !valid_iff. intros Hm [Hu _] Hn. split; [|by left].
  rewrite Hm, Hu. f_equal. by apply metadata_host.
Qed.

Lemma parent_names u up :
  parent u = Some up -> exists w, names u = names up ++ w /\ length w <= 1.
Proof.
  intros (l & w & Hs & _ & _ & Hw & Hl)%parent_shape. exists (map decode_segment w).
  unfold names. rewrite Hs, Hw, length_map, map_app. split; [|done]. by destruct l.
Qed.

(** The parent of a valid path is a valid path, of the same convention. *)
Lemma parent_valid u up :
  valid_uri u -> parent u = Some up -> valid_uri up /\ is_opaque up = false.
Proof.
  intros Hv Hp. assert (Ho : is_opaque u = false) by (unfold parent in Hp; by destruct (is_opaque u)).
  pose proof (valid_not_opaque u Hv Ho) as Hn. pose proof (parent_metadata u up Hp) as Hm.
  assert (Hn' : null_free up).
  { apply parent_shape in Hp as (l & w & Hs & [m Hl] & _).
    apply null_free_segments. rewrite null_free_segments, Hl, Forall_app in Hn. rewrite Hs.
    destruct l; [|by apply Hn]. constructor; [|done].
    rewrite (proj2 (decode_segment_nil []) eq_refl). by intros []. }
  split; [by apply (metadata_valid u)|]. apply null_free_not_opaque; [|done].
  apply valid_iff in Hv as [Hu _]. rewrite Hm, Hu. f_equal. symmetry. by apply metadata_host.
Qed.

Lemma drive_prefix u v :
  non_empty (url_segments u) <> [] ->
  non_empty (url_segments u) `prefix_of` non_empty (url_segments v) ->
  first_segment_is_drive u = first_segment_is_drive v.
Proof.
  intros Hne [w Hw]. unfold first_segment_is_drive. rewrite Hw.
  by destruct (non_empty (url_segments u)).
Qed.

Lemma parent_lexical c u up :
  valid_uri u -> lexical c u -> parent u = Some up -> lexical c up.
Proof.
  intros Hv (Hc & Ho & Hs)%lexical_iff Hp. destruct (parent_valid u up Hv Hp) as [_ Ho'].
  pose proof (metadata_host _ _ (parent_metadata u up Hp)) as Hh.
  assert (Hcount : anchor_depth c < segment_count u).
  { unfold parent in Hp. rewrite Ho, Hc in Hp. destruct (_ <=? _) eqn:E; [done|].
    by apply Nat.leb_gt in E. }
  apply parent_shape in Hp as (l & w & Hl & _ & _ & Hw & Hone).
  assert (Hnl : non_empty (url_segments up) = non_empty l) by (rewrite Hl; by destruct l).
  unfold segment_count in Hcount. rewrite Hw, length_app in Hcount.
  apply lexical_iff. split_and!; [|done|].
  - revert Hc. unfold path_convention. unfold is_opaque, is_some in *.
    destruct (decode_bad_path_uri u), (decode_bad_path_uri up); try done. simpl.
    rewrite Hh. destruct (host_str u); [done|]. simpl.
    destruct (decide (non_empty l = [])) as [E|E].
    + unfold first_segment_is_drive. rewrite Hnl, E. destruct (non_empty (url_segments u)) eqn:Eu; [done|].
      rewrite E in *. simpl in *. destruct (is_windows_drive_uri_segment l0); [|done].
      intros [= <-]. simpl in Hcount. lia.
    + rewrite (drive_prefix up u); [done|by rewrite Hnl|]. rewrite Hnl, Hw. by eexists.
  - revert Hs. unfold containment_path_segments. rewrite Hnl, Hw, existsb_app.
    destruct (existsb _ (non_empty l)); [done|]. done.
Qed.

(** What is left to walk up from a path. *)
Definition steps_left (u : Url) : nat :=
  if segment_count u =? 0 then 0 else length (url_segments u).

Lemma parent_steps u up : parent u = Some up -> steps_left up < steps_left u.
Proof.
  intros Hp. assert (0 < segment_count u) as Hc.
  { unfold parent in Hp. destruct (is_opaque u), (path_convention u); try done.
    destruct (_ <=? _) eqn:E; [done|]. apply Nat.leb_gt in E. lia. }
  apply parent_shape in Hp as (l & w & Hs & _ & Hlen & _).
  unfold steps_left. rewrite (proj2 (Nat.eqb_neq (segment_count u) 0)) by lia.
  unfold segment_count. rewrite Hs. destruct l as [|x l]; [simpl in *; lia|].
  destruct (_ =? 0); lia.
Qed.

Lemma lexical_parent_None c u :
  lexical c u -> parent u = None <-> segment_count u <= anchor_depth c.
Proof.
  intros (Hc & Ho & _)%lexical_iff. unfold parent. rewrite Ho, Hc.
  destruct (_ <=? _) eqn:E; [apply Nat.leb_le in E|apply Nat.leb_gt in E]; split; try done; lia.
Qed.

(** Where the chain of parents of [u] ends. *)
Definition is_root_of (c : PathConvention) (u r : Url) : Prop :=
  valid_uri r /\ lexical c r /\ parent r = None /\ names r `prefix_of` names u
  /\ length (names r) = Nat.min (length (names u)) (anchor_depth c).

Lemma successors_end c n u :
  valid_uri u -> lexical c u -> steps_left u <= n ->
  exists r, last (successors n u) = Some r /\ is_root_of c u r.
Proof.
  revert u. induction n as [|n IH]; intros u Hv Hl Hn.
  - exists u. split; [done|]. assert (segment_count u = 0) as Hz.
    { unfold steps_left in Hn. destruct (segment_count u) eqn:E; [done|]. simpl in Hn.
      destruct (url_segments u) eqn:Es; [by apply segments_nonempty in Es|simpl in Hn; lia]. }
    unfold is_root_of. rewrite <- !segment_count_names, Hz. split_and!; try done.
    apply (lexical_parent_None c); [done|lia].
  - simpl. destruct (parent u) as [up|] eqn:Hp.
    + destruct (IH up) as (r & Hr & Hrv & Hrl & Hrp & Hrn & Hrd).
      { by apply (parent_valid u). } { by apply (parent_lexical c u). }
      { pose proof (parent_steps u up Hp). lia. }
      exists r. destruct (successors n up) eqn:Es; [done|]. split; [done|].
      destruct (parent_names u up Hp) as (w & Hw & Hw1).
      split_and!; try done; [by rewrite Hw; apply prefix_app_r|].
      rewrite Hrd, Hw, length_app. assert (anchor_depth c < segment_count u) as Hc.
      { destruct (le_lt_dec (segment_count u) (anchor_depth c)) as [E|E]; [|done].
        apply (lexical_parent_None c u Hl) in E. congruence. }
      rewrite segment_count_names, Hw, length_app in Hc. lia.
    + exists u. split; [done|]. split_and!; try done.
      apply (lexical_parent_None c u Hl) in Hp. rewrite segment_count_names in Hp. lia.
Qed.

Lemma ancestors_root c u :
  valid_uri u -> lexical c u -> exists r, last (ancestors u) = Some r /\ is_root_of c u r.
Proof.
  intros Hv Hl. apply successors_end; [done..|]. unfold steps_left. destruct (_ =? 0); lia.
Qed.

(** ** Constructed paths are valid *)

Lemma trim_start_matches_split c s :
  exists k, s = replicate k c ++ trim_start_matches c s.
Proof.
  induction s as [|d s [k IH]]; [by exists 0|]. simpl. case_bool_decide as Hd.
  - exists (S k). simpl. by rewrite <- IH, Hd.
  - by exists 0.
Qed.

(** Percent-decoding looks through the leading slashes and the drive letter. *)
Lemma decode_drive k letter after :
  (letter < 128)%N -> letter <> 37%N ->
  decode_segment (replicate k FORWARD_SLASH ++ letter :: after)
  = replicate k FORWARD_SLASH ++ letter :: decode_segment after.
Proof.
  intros Hl Hp. unfold decode_segment. rewrite encode_app, encode_ascii
    by (apply Forall_replicate; done).
  rewrite decode_plain_app.
  - f_equal. unfold encode at 1. simpl. unfold encode_char.
    apply N.ltb_lt in Hl as ->. simpl. by rewrite decode_byte.
  - intros Hin%list_elem_of_In. by apply elem_of_replicate in Hin as [? _].
Qed.

Lemma alphabetic_bounds c : is_ascii_alphabetic c = true -> (64 < c < 123)%N.
Proof.
  unfold is_ascii_alphabetic. rewrite orb_true_iff, !andb_true_iff, !N.leb_le. lia.
Qed.

Lemma uppercase_bounds c : (64 < c < 123)%N -> (64 < char_to_ascii_uppercase c < 123)%N.
Proof.
  unfold char_to_ascii_uppercase. destruct (_ && _) eqn:E; [|done].
  apply andb_true_iff in E as [?%N.leb_le ?%N.leb_le]. lia.
Qed.

Lemma lower_upper c : char_to_ascii_lowercase (char_to_ascii_uppercase c) = char_to_ascii_lowercase c.
Proof.
  unfold char_to_ascii_lowercase, char_to_ascii_uppercase, is_ascii_upper.
  destruct ((97 <=? c) && (c <=? 122))%N eqn:E; [|done].
  destruct ((65 <=? c - 32) && (c - 32 <=? 90))%N eqn:E1;
    destruct ((65 <=? c) && (c <=? 90))%N eqn:E2;
    rewrite ?andb_true_iff, ?andb_false_iff, ?N.leb_le, ?N.leb_gt in *; lia.
Qed.

Lemma drive_letter segment letter rest :
  segment = letter :: rest -> is_windows_drive_uri_segment segment = true ->
  (64 < letter < 123)%N.
Proof.
  intros ->. unfold is_windows_drive_uri_segment. intros Hd. apply alphabetic_bounds.
  repeat case_match; try done; repeat (apply andb_true_iff in Hd as [Hd ?]); done.
Qed.

Lemma with_drive_valid u :
  valid_uri u -> valid_uri (with_normalized_windows_drive_letter u).
Proof.
  intros Hv. unfold with_normalized_windows_drive_letter.
  destruct (is_some (host_str u)); [done|].
  destruct (trim_start_matches_split FORWARD_SLASH (url_path u)) as [k Hk].
  destruct (trim_start_matches FORWARD_SLASH (url_path u)) as [|letter after]; [done|].
  destruct (is_windows_drive_uri_segment _) eqn:Hd; [|done]. cbn [negb orb].
  destruct (is_ascii_upper letter); [done|].
  destruct (split_char FORWARD_SLASH (letter :: after)) as [|w ws] eqn:Hs; [done|].
  assert (Hletter : exists r, w = letter :: r).
  { destruct (decide (letter = FORWARD_SLASH)) as [->|Hne].
    - injection Hs as <- _. done.
    - destruct (split_char_cons FORWARD_SLASH letter after Hne) as (w' & ws' & _ & E).
      rewrite E in Hs. injection Hs as <- _. by eexists. }
  destruct Hletter as [r Hw]. pose proof (drive_letter w letter r Hw Hd) as Hb.
  pose proof (uppercase_bounds letter Hb) as Hb'.
  assert (Ht : take (length (url_path u) - length (letter :: after)) (url_path u)
               = replicate k FORWARD_SLASH).
  { rewrite Hk at 2. rewrite Hk, length_app, length_replicate.
    rewrite take_app_length'; [done|]. rewrite length_replicate. lia. }
  rewrite Ht. set (p := replicate k FORWARD_SLASH ++ char_to_ascii_uppercase letter :: after).
  assert (Hp : url_path (set_path p u) = p).
  { apply set_path_law. rewrite Hk. unfold p, to_ascii_lowercase. rewrite !map_app. simpl.
    by rewrite lower_upper. }
  assert (Hnull : null_free u).
  { pose proof Hv as [Hm [Hn|Ho]]%valid_iff; [done|].
    destruct (opaque_text u Hm Ho) as (_ & rest & Hrest). rewrite Hrest in Hk.
    destruct k as [|[|k]]; [injection Hk as <- _; lia|injection Hk as <- _; lia|done]. }
  apply (metadata_valid u); [apply set_path_metadata|done|].
  unfold null_free in *. rewrite Hp. rewrite Hk in Hnull. unfold p.
  rewrite decode_drive in Hnull |- * by lia. rewrite in_app_iff in *. simpl in *.
  intros [Hin|[Hin|Hin]]; [tauto|lia|tauto].
Qed.

Lemma without_localhost_valid u : valid_uri u -> valid_uri (without_localhost_authority u).
Proof.
  intros Hv. unfold without_localhost_authority. case_bool_decide as Hh; [|done].
  pose proof Hv as [Hm Hn]%valid_iff.
  destruct (drop_host_law u _ Hm) as (v & -> & Hpath & Hmeta).
  assert (Hnull : null_free u).
  { destruct Hn as [|Ho]; [done|]. apply (opaque_text u Hm) in Ho as [Ho _].
    by rewrite Hh in Ho. }
  apply valid_iff. split; [|left; unfold null_free in *; by rewrite Hpath].
  rewrite Hmeta. by replace (host_str v) with (@None str) by (symmetry; by injection Hmeta).
Qed.

Lemma try_from_url_valid url u : try_from_url url = Ok u -> valid_uri u.
Proof.
  unfold try_from_url. case_bool_decide as Hs; [|done]. simpl.
  destruct (validate_file_url url) as [[]|] eqn:Hv; [|done]. intros [= <-].
  apply with_drive_valid, without_localhost_valid. by split.
Qed.

Lemma parse_uri_valid s u : parse_uri s = Ok u -> valid_uri u.
Proof.
  unfold parse_uri. destruct (map_err _ _); [|done]. apply try_from_url_valid.
Qed.

(** The bytes of an opaque path are kept, and the text always parses: the
    [unreachable!] of the code is not reached. *)
Lemma from_opaque_spec b :
  b <> [] ->
  valid_uri (from_opaque_path_bytes b)
  /\ decode_bad_path_uri (from_opaque_path_bytes b) = Some b
  /\ host_str (from_opaque_path_bytes b) = None.
Proof.
  intros Hb. destruct (parse_bad_law b) as (u & Hu & Ht & Hm).
  assert (Hd : decode_bad_path_uri u = Some b).
  { unfold decode_bad_path_uri. rewrite Ht, strip_prefix_app, base64_law, bool_decide_true by done.
    rewrite (proj2 (contains_char_false _ _) (base64_alphabet b)).
    destruct (base64_encode b) eqn:E; [|done]. by apply base64_empty in E. }
  assert (Hh : host_str u = None) by by injection Hm.
  assert (Hv : valid_uri u).
  { apply valid_iff. rewrite Hh. split; [done|right]. unfold is_opaque. by rewrite Hd. }
  assert (Hp : parse_uri (BAD_PATH_URI_PREFIX ++ base64_encode b) = Ok u).
  { destruct Hv as [Hs Hv]. unfold parse_uri. rewrite Hu. simpl. unfold try_from_url.
    rewrite bool_decide_true by done. simpl. rewrite Hv.
    unfold without_localhost_authority. rewrite Hh, bool_decide_false by done.
    unfold with_normalized_windows_drive_letter. rewrite Hh. cbn [is_some is_none negb].
    assert (is_opaque u = true) as Ho by (unfold is_opaque; by rewrite Hd).
    rewrite <- Hh in Hm. by destruct (opaque_text u Hm Ho) as (_ & rest & ->). }
  unfold from_opaque_path_bytes. by rewrite Hp.
Qed.

Lemma encode_nil_inv s : encode s = [] -> s = [].
Proof. destruct s as [|c s]; [done|]. unfold encode. simpl. unfold encode_char. by repeat case_match. Qed.

Lemma windows_opaque_valid path : path <> [] -> valid_uri (windows_opaque_path_uri path).
Proof.
  intros Hp. apply from_opaque_spec. destruct path as [|c path]; [done|].
  unfold encode_utf16. simpl. by case_match.
Qed.

Lemma posix_opaque_valid path : path <> [] -> valid_uri (from_opaque_path_bytes (encode path)).
Proof. intros Hp. apply from_opaque_spec. by intros E%encode_nil_inv. Qed.

Lemma path_uri_from_segments_valid c host segments u :
  path_uri_from_segments c host segments = Some u -> valid_uri u.
Proof.
  unfold path_uri_from_segments. repeat case_match; try done; simplify_eq;
    intros Hu; destruct (try_from_url _) eqn:E; try done; injection Hu as <-;
    by apply try_from_url_valid in E.
Qed.

Lemma parse_unc_path_valid path u : path <> [] -> parse_unc_path path = Some u -> valid_uri u.
Proof.
  intros Hne. unfold parse_unc_path. destruct (native_segments _ _) as [|host [|share rest]]; try done.
  destruct (_ || _); [done|]. destruct (_ || _); [intros [= <-]; by apply windows_opaque_valid|].
  destruct (path_uri_from_segments _ _ _) eqn:E.
  - apply path_uri_from_segments_valid in E.
    destruct (match host_str _ with Some _ => _ | None => _ end); intros [= <-];
      [done|by apply windows_opaque_valid].
  - intros [= <-]. by apply windows_opaque_valid.
Qed.

Lemma parse_unnormalized_valid path u :
  path <> [] -> parse_unnormalized_windows_path path = Some u -> valid_uri u.
Proof.
  intros Hne. unfold parse_unnormalized_windows_path.
  destruct (_ || _); [intros [= <-]; by apply windows_opaque_valid|].
  destruct (is_windows_drive_absolute_path path); [apply path_uri_from_segments_valid|].
  destruct (starts_with_two_separators path); [by apply parse_unc_path_valid|done].
Qed.

Lemma parse_windows_path_valid path u :
  path <> [] -> parse_windows_path path = Some u -> valid_uri u.
Proof.
  intros Hne. unfold parse_windows_path.
  destruct (normalize_windows_device_path path) as [normalized|] eqn:En;
    [|by apply parse_unnormalized_valid].
  destruct (lacks_unc_anchor normalized); [intros [= <-]; by apply windows_opaque_valid|].
  destruct (parse_unnormalized_windows_path normalized) as [v|] eqn:E;
    [|intros [= <-]; by apply windows_opaque_valid].
  destruct (is_plain_windows_uri normalized v); intros [= <-]; [|by apply windows_opaque_valid].
  apply parse_unnormalized_valid in E; [done|]. by intros ->.
Qed.

Lemma parse_posix_path_valid path u : parse_posix_path path = Some u -> valid_uri u.
Proof.
  unfold parse_posix_path. destruct (strip_prefix _ _) as [rest|]; [|done].
  destruct (contains_char 0 rest); [|apply path_uri_from_segments_valid].
  intros [= <-]. by apply posix_opaque_valid.
Qed.

Lemma from_absolute_valid path c u : from_absolute_native_path path c = Some u -> valid_uri u.
Proof.
  unfold from_absolute_native_path. destruct (decide (path = [])) as [->|Hne].
  { by destruct c. }
  destruct (match c with Posix => _ | Windows => _ end) as [v|] eqn:E; [|done].
  assert (valid_uri v) by (destruct c; [by apply parse_posix_path_valid in E
                                        |by apply parse_windows_path_valid in E]).
  destruct (_ && _); intros [= <-]; [done|].
  destruct c; [by apply posix_opaque_valid|by apply windows_opaque_valid].
Qed.

Lemma path_join_valid self path u : valid_uri self -> join_uri self path = Ok u -> valid_uri u.
Proof.
  intros Hv. unfold join_uri. destruct (contains_char 0 path); [done|].
  destruct (is_empty path); [by intros [= <-]|]. destruct (path_convention self) as [c|]; [|done].
  destruct (from_absolute_native_path path c) eqn:E; [intros [= <-]; by apply from_absolute_valid in E|].
  destruct (without_drive self c path); [|done]. destruct (is_opaque self); [done|].
  apply try_from_url_valid.
Qed.

(** ** Joining POSIX text *)

(** The URL path holds exactly these names, up to a trailing separator. *)
Definition tidy (u : Url) : Prop :=
  exists l, Forall (fun w => w <> []) l
    /\ (url_segments u = l /\ l <> [] \/ url_segments u = l ++ [[]]).

(** Lexical resolution of relative text against names. *)
Definition resolve_step (ns : list (list N)) (component : str) : list (list N) :=
  if is_empty component || bool_decide (component = $".") then ns
  else if bool_decide (component = $"..") then removelast ns
  else ns ++ [encode component].

Definition resolve_names (ns : list (list N)) (path : str) : list (list N) :=
  fold_left resolve_step (split_char FORWARD_SLASH path) ns.

Definition join_piece (s : str) : Prop := s = [] \/ s = $"." \/ s = $".." \/ ordinary_name s.

(** The segments while components are appended. *)
Definition holds (l : list str) (u : Url) : Prop :=
  Forall (fun w => w <> []) l /\ url_segments u = match l with [] => [[]] | _ => l end.

Lemma non_empty_all l : Forall (fun w => w <> []) l -> non_empty l = l.
Proof.
  induction 1 as [|w l Hw _ IH]; [done|]. unfold non_empty in *. rewrite filter_cons.
  rewrite decide_True by done. by rewrite IH.
Qed.

Lemma tidy_pop_if_empty u : tidy u -> holds (non_empty (url_segments u)) (url_pop_if_empty u).
Proof.
  intros (l & Hl & [[Hs Hne]|Hs]); unfold holds; rewrite pop_if_empty_law, Hs.
  - rewrite (non_empty_all l Hl). split; [done|].
    destruct (removelast_split l Hne) as [x Hx].
    assert (last l <> Some []) as Hlast.
    { rewrite Hx, last_snoc. intros [= ->]. rewrite Hx, Forall_app, Forall_singleton in Hl. by apply Hl. }
    rewrite (bool_decide_false _ Hlast), andb_false_r. by destruct l.
  - rewrite non_empty_app, (non_empty_all l Hl), app_nil_r. split; [done|].
    rewrite last_snoc, bool_decide_true, removelast_last, length_app by done.
    simpl. destruct l as [|x l]; [done|]. simpl. rewrite (proj2 (Nat.ltb_lt _ _)) by lia. done.
Qed.

Lemma pop_holds l u : holds l u -> holds (removelast l) (url_pop u).
Proof.
  intros [Hl Hs]. unfold holds. rewrite pop_law, Hs. destruct l as [|x l]; [done|].
  split; [|by destruct (removelast (x :: l))]. destruct (removelast_split (x :: l)) as [y Hy]; [done|].
  rewrite Hy in Hl. by apply Forall_app in Hl as [? _].
Qed.

Lemma push_holds l u s :
  ordinary_name s -> holds l u ->
  exists w, holds (l ++ [w]) (url_push s u) /\ decode_segment w = encode s.
Proof.
  intros Hs [Hl Hu]. destruct (push_law s u Hs) as (w & Hw & Hne & Hd). exists w.
  split; [|done]. split; [by apply Forall_app; split; [|by constructor]|].
  rewrite Hw, Hu. unfold without_root_segment. destruct l as [|x l]; [done|].
  rewrite bool_decide_false; [done|]. intros [= -> ->]. by inversion Hl.
Qed.

(** Segments a POSIX path may have: no null and no separator once decoded, and
    the first one is not a drive. *)
Definition plain_segments (l : list str) : Prop :=
  Forall (fun w => ~ In 0%N (decode_segment w) /\ ~ In FORWARD_SLASH (decode_segment w)) l
  /\ match l with w :: _ => is_windows_drive_uri_segment w = false | [] => True end.

Lemma plain_removelast l : plain_segments l -> plain_segments (removelast l).
Proof.
  intros [Hf Hh]. destruct l as [|x [|y l]]; [done|by split|]. split; [|done].
  destruct (removelast_split (x :: y :: l)) as [z Hz]; [done|].
  rewrite Hz in Hf. by apply Forall_app in Hf as [? _].
Qed.

Lemma encode_low b s : (b < 128)%N -> In b (encode s) -> In b s.
Proof.
  intros Hb. induction s as [|c s IH]; [done|]. unfold encode in *. simpl. rewrite in_app_iff.
  intros [Hin|Hin]; [left|right; tauto]. unfold encode_char in Hin.
  repeat case_match; cbn [In] in Hin; [by destruct Hin as [|[]]|..]; exfalso;
    (assert (Hk : forall k x, (128 <= k)%N -> (k + x)%N = b -> False) by (intros; lia));
    repeat (destruct Hin as [Hin|Hin]; [eapply Hk; [|exact Hin]; lia|]); done.
Qed.

Lemma drive_decodes w : is_windows_drive_uri_segment w = true -> length (decode_segment w) = 2.
Proof.
  unfold is_windows_drive_uri_segment. intros Hw.
  destruct w as [|d [|c [|t [|a [|? ?]]]]]; try done.
  - apply andb_true_iff in Hw as [Hd%alphabetic_bounds Hc%bool_decide_eq_true]. subst c.
    unfold decode_segment. rewrite encode_ascii by (repeat constructor; unfold COLON; lia).
    rewrite !decode_byte by (unfold COLON; lia). by rewrite (proj2 (decode_nil []) eq_refl).
  - apply andb_true_iff in Hw as [Hw Ha]. apply andb_true_iff in Hw as [Hw Ht%bool_decide_eq_true].
    apply andb_true_iff in Hw as [Hd%alphabetic_bounds Hc%bool_decide_eq_true]. subst c t.
    apply orb_true_iff in Ha. rewrite !bool_decide_eq_true in Ha.
    unfold decode_segment. rewrite encode_ascii by (repeat constructor; lia).
    rewrite decode_byte by lia.
    rewrite (decode_escape _ _ 3 10) by (destruct Ha; by subst).
    by rewrite (proj2 (decode_nil []) eq_refl).
Qed.

Lemma encode_length_two s : length (encode s) = 2 -> length s = 2 \/ exists c, s = [c] /\ (128 <= c)%N.
Proof.
  destruct s as [|c [|d [|e s]]]; simpl; try done.
  - unfold encode. simpl. rewrite app_nil_r. unfold encode_char.
    repeat case_match; try done. right. exists c. split; [done|]. by apply N.ltb_ge.
  - by left.
  - unfold encode. simpl. rewrite !length_app. unfold encode_char. intros Hl.
    repeat case_match; simpl in Hl; lia.
Qed.

Lemma plain_push l w s :
  ordinary_name s -> decode_segment w = encode s -> plain_segments l -> plain_segments (l ++ [w]).
Proof.
  intros (_ & _ & _ & Hlen & Hs) Hd [Hf Hh]. rewrite Forall_forall in Hs. split.
  - apply Forall_app. split; [done|]. constructor; [|done]. rewrite Hd.
    split; intros Hin; apply encode_low in Hin; try done;
      apply list_elem_of_In, Hs in Hin; naive_solver.
  - destruct l; [|done]. simpl. destruct (is_windows_drive_uri_segment w) eqn:E; [|done].
    pose proof (drive_decodes w E) as Hl. rewrite Hd in Hl.
    destruct (encode_length_two s Hl) as [|(c & -> & Hc)]; [done|]. exfalso.
    unfold is_windows_drive_uri_segment in E. unfold decode_segment in Hd.
    destruct w as [|d w]; [done|]. assert ((64 < d < 123)%N) as Hdb.
    { apply (drive_letter (d :: w) d w); [done|]. exact E. }
    assert (In d (encode [c])) as Hin.
    { rewrite <- Hd. change (encode (d :: w)) with (encode ([d] ++ w)).
      rewrite encode_app, encode_ascii by (repeat constructor; lia).
      simpl. rewrite decode_byte by lia. by left. }
    apply encode_low in Hin; [|lia]. destruct Hin as [->|[]]. lia.
Qed.

(** One component: the names move as [resolve_step] says. *)
Lemma join_step_names l u piece :
  join_piece piece -> holds l u -> plain_segments l ->
  exists l', holds l' (fst (join_step 0 (u, length l) piece)) /\ plain_segments l'
    /\ snd (join_step 0 (u, length l) piece) = length l'
    /\ url_metadata (fst (join_step 0 (u, length l) piece)) = url_metadata u
    /\ map decode_segment l' = resolve_step (map decode_segment l) piece.
Proof.
  intros Hp Hu Hpl. unfold join_step, resolve_step.
  destruct (is_empty piece || bool_decide (piece = $".")) eqn:E1; [by exists l|].
  apply orb_false_iff in E1 as [E1%is_empty_false E2%bool_decide_eq_false].
  case_bool_decide as E3.
  - destruct l as [|x l] using rev_ind; [by exists []|]. clear IHl.
    rewrite length_app, (proj2 (Nat.ltb_lt _ _)) by (simpl; lia). exists l.
    pose proof (pop_holds _ _ Hu) as Hl. pose proof (plain_removelast _ Hpl) as Hpl'.
    rewrite removelast_last in Hl, Hpl'.
    split_and!; [done|done|simpl; lia|apply pop_metadata|]. 
    rewrite map_app. cbn [map]. by rewrite removelast_last.
  - assert (Ho : ordinary_name piece) by (destruct Hp as [?|[?|[?|?]]]; done).
    destruct (push_holds l u piece Ho Hu) as (w & Hw & Hd). exists (l ++ [w]).
    split_and!; [done|by apply (plain_push l w piece)|rewrite length_app; simpl; lia
      |apply push_metadata|]. by rewrite map_app; simpl; rewrite Hd.
Qed.

Lemma join_pieces_names pieces : forall l u,
  Forall join_piece pieces -> holds l u -> plain_segments l ->
  exists l', holds l' (fst (fold_left (join_step 0) pieces (u, length l))) /\ plain_segments l'
    /\ url_metadata (fst (fold_left (join_step 0) pieces (u, length l))) = url_metadata u
    /\ map decode_segment l' = fold_left resolve_step pieces (map decode_segment l).
Proof.
  induction pieces as [|p pieces IH]; intros l u Hp Hu Hpl; [by exists l|].
  inversion Hp as [|? ? Hp1 Hps]; subst.
  destruct (join_step_names l u p Hp1 Hu Hpl) as (l1 & Hh1 & Hpl1 & Hlen & Hm & Hn). cbn [fold_left].
  destruct (join_step 0 (u, length l) p) as [u1 d1]. cbn [fst snd] in *. subst d1.
  destruct (IH l1 u1 Hps Hh1 Hpl1) as (l2 & Hh2 & Hpl2 & Hm2 & Hn2). exists l2.
  split_and!; [done|done|congruence|by rewrite Hn2, Hn].
Qed.

(** The same, up to a trailing separator. *)
Definition holds_trailing (l : list str) (u : Url) : Prop :=
  Forall (fun w => w <> []) l
  /\ (url_segments u = l /\ l <> [] \/ url_segments u = l ++ [[]]).

Lemma holds_holds_trailing l u : holds l u -> holds_trailing l u.
Proof. intros [Hl Hs]. split; [done|]. destruct l; [by right|by left]. Qed.

Lemma holds_trailing_segments l u : holds_trailing l u -> non_empty (url_segments u) = l.
Proof.
  intros [Hl [[-> _]| ->]]; [by apply non_empty_all|].
  by rewrite non_empty_app, (non_empty_all _ Hl), app_nil_r.
Qed.

(** The text after the leading slash begins with the first name. *)
Lemma first_drive_letter l u :
  holds_trailing l u -> plain_segments l ->
  match trim_start_matches FORWARD_SLASH (url_path u) with
  | [] => True
  | _ => match split_char FORWARD_SLASH (trim_start_matches FORWARD_SLASH (url_path u)) with
         | w :: _ => is_windows_drive_uri_segment w = false
         | [] => True
         end
  end.
Proof.
  intros [Hl Hseg] [_ Hd]. rewrite path_of_segments. destruct l as [|w l].
  { by destruct Hseg as [[_ ?]| ->]. }
  assert (exists t, url_segments u = w :: t) as [t Ht]
    by (destruct Hseg as [[-> _]| ->]; by eexists).
  pose proof (segments_no_slash u) as Hns. rewrite Ht in Hns |- *.
  inversion Hl as [|? ? Hw _]; subst. inversion Hns as [|? ? Hws _]; subst.
  destruct w as [|c w]; [done|].
  assert (Hc : c <> FORWARD_SLASH) by (intros ->; apply Hws; by left).
  assert (Htrim : trim_start_matches FORWARD_SLASH
                    (FORWARD_SLASH :: join [FORWARD_SLASH] ((c :: w) :: t))
                  = join [FORWARD_SLASH] ((c :: w) :: t)).
  { cbn [trim_start_matches]. rewrite bool_decide_true by done. rewrite join_head_cons.
    cbn [trim_start_matches]. by rewrite bool_decide_false. }
  rewrite Htrim, split_char_join by done. by rewrite join_head_cons.
Qed.

(** A URL with plain segments and no authority is a valid POSIX path, which
    [try_from_url] returns unchanged. *)
Lemma plain_url l u :
  holds_trailing l u -> plain_segments l -> url_metadata u = plain_metadata None ->
  try_from_url u = Ok u /\ valid_uri u /\ lexical Posix u /\ names u = map decode_segment l.
Proof.
  intros Hu Hpl Hm. pose proof Hpl as [Hf Hd]. pose proof (holds_trailing_segments l u Hu) as Hs.
  assert (Hh : host_str u = None) by by injection Hm.
  assert (Hnil : ~ In 0%N (decode_segment [])).
  { rewrite (proj2 (decode_segment_nil []) eq_refl). by intros []. }
  assert (Hn : null_free u).
  { apply null_free_segments. assert (Forall (fun w => ~ In 0%N (decode_segment w)) l) as Hf0
      by (eapply Forall_impl; [done|]; by intros ? [? _]).
    destruct Hu as [_ [[-> _]| ->]]; [done|]. apply Forall_app. split; [done|by constructor]. }
  assert (Hv : valid_uri u) by (apply valid_iff; rewrite Hh; by split; [|left]).
  assert (Hdrive : first_segment_is_drive u = false).
  { unfold first_segment_is_drive. rewrite Hs. by destruct l. }
  assert (Ho : is_opaque u = false) by (apply null_free_not_opaque; [by rewrite Hh|done]).
  split_and!; [|done| |unfold names; by rewrite Hs].
  - destruct Hv as [Hsch Hv]. unfold try_from_url. rewrite bool_decide_true by done. simpl.
    rewrite Hv. unfold without_localhost_authority. rewrite Hh, bool_decide_false by done.
    unfold with_normalized_windows_drive_letter. rewrite Hh. cbn [is_some is_none negb].
    pose proof (first_drive_letter l u Hu Hpl) as Hfirst.
    destruct (trim_start_matches FORWARD_SLASH (url_path u)) as [|c rest]; [done|].
    destruct (split_char FORWARD_SLASH (c :: rest)) as [|w ws]; [done|]. by rewrite Hfirst.
  - apply lexical_iff. split_and!; [|done|].
    + unfold path_convention. unfold is_opaque, is_some in Ho.
      destruct (decode_bad_path_uri u); [done|]. by rewrite Hh, Hdrive.
    + unfold containment_path_segments. rewrite Hs. destruct (existsb _ l) eqn:E; [|done].
      apply existsb_exists in E as (w & Hw & E). apply existsb_exists in E as (b & Hb & E).
      apply orb_true_iff in E as [E%bool_decide_eq_true|E]; [|done]. subst b.
      rewrite Forall_forall in Hf. apply list_elem_of_In in Hw. by apply Hf in Hw as [_ ?].
Qed.

Lemma lexical_plain u :
  valid_uri u -> lexical Posix u -> plain_segments (non_empty (url_segments u)).
Proof.
  intros Hv Hl. pose proof Hl as (Hc & Ho & Hs)%lexical_iff.
  pose proof (valid_not_opaque u Hv Ho) as Hn. rewrite null_free_segments, Forall_forall in Hn.
  split.
  - apply Forall_forall. intros w Hw. split.
    + apply Hn. unfold non_empty in Hw. by apply list_elem_of_filter in Hw as [_ ?].
    + intros Hin. revert Hs. unfold containment_path_segments.
      destruct (existsb _ _) eqn:E; [done|]. intros _. revert E. apply not_false_iff_true.
      apply existsb_exists. exists w. split; [by apply list_elem_of_In|].
      apply existsb_exists. by exists FORWARD_SLASH.
  - revert Hc. unfold path_convention, first_segment_is_drive. unfold is_opaque, is_some in Ho.
    destruct (decode_bad_path_uri u); [done|]. destruct (host_str u); [done|]. simpl.
    destruct (non_empty (url_segments u)); [done|]. by destruct (is_windows_drive_uri_segment _).
Qed.

(** ASCII pieces, decidably. *)
Definition ascii_name (s : str) : bool :=
  forallb (fun c => (13 <? c) && (c <? 128) && negb (c =? 47))%N s
  && negb (is_empty s) && negb (is_dots s) && negb (length s =? 2).

Definition ascii_piece (s : str) : bool := is_empty s || is_dots s || ascii_name s.

Lemma ascii_name_ordinary s : ascii_name s = true -> ordinary_name s.
Proof.
  unfold ascii_name, is_dots. rewrite !andb_true_iff, !negb_true_iff, orb_false_iff.
  rewrite !bool_decide_eq_false, Nat.eqb_neq, is_empty_false, forallb_forall.
  intros (((Hs & Hne) & Hd1 & Hd2) & Hl). split_and!; [done..|].
  apply Forall_forall. intros c Hc%list_elem_of_In%Hs.
  rewrite !andb_true_iff, !N.ltb_lt, negb_true_iff, N.eqb_neq in Hc.
  unfold scalar, FORWARD_SLASH. split_and!; lia.
Qed.

Lemma ascii_pieces l : forallb ascii_piece l = true -> Forall join_piece l.
Proof.
  rewrite forallb_forall. intros Hl. apply Forall_forall. intros s Hs%list_elem_of_In%Hl.
  unfold ascii_piece, is_dots in Hs. rewrite !orb_true_iff, !bool_decide_eq_true in Hs.
  unfold join_piece. destruct Hs as [[Hs%is_empty_true|Hs]|Hs%ascii_name_ordinary]; tauto.
Qed.

Lemma piece_no_null p : join_piece p -> ~ In 0%N p.
Proof.
  intros [->|[->|[->|(_ & _ & _ & _ & Hs)]]]; [by intros []|by intros [[=]|[]]
    |by intros [[=]|[[=]|[]]]|].
  intros Hin%list_elem_of_In. rewrite Forall_forall in Hs. apply Hs in Hin. naive_solver.
Qed.

Lemma join_pieces_no_null ws : Forall join_piece ws -> ~ In 0%N (join [FORWARD_SLASH] ws).
Proof.
  induction 1 as [|w [|w' ws] Hw _ IH]; [by intros []|by apply piece_no_null|].
  rewrite join_cons by done. rewrite !in_app_iff. intros [Hin|[[[=]|[]]|Hin]]; [|tauto].
  by apply piece_no_null in Hin.
Qed.

(** Joining relative text resolves it lexically against the names. *)
Lemma path_join_posix u path :
  valid_uri u -> lexical Posix u -> tidy u ->
  path <> [] -> starts_with path [FORWARD_SLASH] = false ->
  Forall join_piece (split_char FORWARD_SLASH path) ->
  exists v, join_uri u path = Ok v /\ valid_uri v /\ lexical Posix v
    /\ names v = resolve_names (names u) path.
Proof.
  intros Hv Hl Ht Hne Habs Hp. pose proof Hl as (Hc & Ho & _)%lexical_iff.
  pose proof (lexical_plain u Hv Hl) as Hpl. pose proof (tidy_pop_if_empty u Ht) as Hu.
  destruct (join_pieces_names _ _ _ Hp Hu Hpl) as (l & Hh & Hpl' & Hm & Hn).
  exists (append_relative u Posix path).
  assert (Hmeta : url_metadata (append_relative u Posix path) = plain_metadata None).
  { etransitivity; [exact Hm|]. rewrite pop_if_empty_metadata.
    apply valid_iff in Hv as [-> _]. by rewrite (posix_host u Hc Ho). }
  destruct (plain_url l (append_relative u Posix path) (holds_holds_trailing _ _ Hh) Hpl' Hmeta) as (Hok & Hvv & Hlv & Hnv).
  split_and!; [|done|done|by rewrite Hnv, Hn].
  unfold join_uri. assert (contains_char 0 path = false) as ->.
  { apply contains_char_false. rewrite <- (join_split_char FORWARD_SLASH path).
    by apply join_pieces_no_null. }
  destruct path as [|c path]; [done|]. cbn [is_empty]. rewrite Hc.
  unfold from_absolute_native_path, parse_posix_path.
  assert (strip_prefix [FORWARD_SLASH] (c :: path) = None) as ->.
  { revert Habs. unfold starts_with. by destruct (strip_prefix _ _). }
  simpl. by rewrite Ho.
Qed.

Lemma resolve_names_prefix ns path :
  ~ In ($"..") (split_char FORWARD_SLASH path) -> ns `prefix_of` resolve_names ns path.
Proof.
  unfold resolve_names. revert ns. generalize (split_char FORWARD_SLASH path) as pieces.
  induction pieces as [|p pieces IH]; intros ns Hp; [done|]. cbn [fold_left].
  etransitivity; [|apply IH; intros Hin; apply Hp; by right].
  unfold resolve_step. destruct (_ || _); [done|].
  rewrite bool_decide_false; [by apply prefix_app_r|]. intros ->. apply Hp. by left.
Qed.

End uris.
