(* ===== verification/FileUrls.v ===== *)
(** * A model of the crates behind path URIs

    [file:] URLs as an authority and path segments, and percent-encoding; they
    satisfy [UrlLaws], so the theorems of PathUriSpec.v can be applied to
    concrete paths.  The model follows the crates on the URLs that paths give
    rise to; it does not normalise the text it parses.  The encoding of opaque
    bytes is a stand-in for base64: any reversible text without slash does. *)

From S2P Require Import Prelude RustStr Utf8 PatchTypes ExecutorFs PathUri PathUriSpec.

Module FileUrls.

Record FileUrl : Type := mkFile { authority : option str; raw_segments : list str }.

#[export] Instance FileUrl_eq_dec : EqDecision FileUrl.
Proof. solve_decision. Defined.

Definition no_slash (s : str) : str := filter (fun c => c <> FORWARD_SLASH) s.

Definition segments (u : FileUrl) : list str :=
  match raw_segments u with [] => [[]] | l => map no_slash l end.

Definition host (u : FileUrl) : option str := option_map no_slash (authority u).

Definition path (u : FileUrl) : str := FORWARD_SLASH :: join [FORWARD_SLASH] (segments u).

Definition parse_file_url (s : str) : result FileUrl str :=
  match strip_prefix ($"file://") s with
  | Some rest =>
      match split_once FORWARD_SLASH rest with
      | Some (h, p) =>
          Ok (mkFile (if is_empty h then None else Some h) (split_char FORWARD_SLASH p))
      | None => Err ($"relative URL without a base")
      end
  | None => Err ($"relative URL without a base")
  end.

Definition unreserved (c : N) : bool :=
  is_ascii_alphabetic c || is_ascii_digit c || contains_char c ($"-._~").

Definition hex_digit (n : N) : char := if (n <? 10)%N then (48 + n)%N else (55 + n)%N.

Definition percent_encode (l : list N) : str :=
  concat (map (fun b => if unreserved b then [b]
                        else [37%N; hex_digit (b / 16); hex_digit (b mod 16)]) l).

Fixpoint percent_decode (l : list N) : list N :=
  match l with
  | [] => []
  | c :: l' =>
      if (c =? 37)%N then
        match l' with
        | h1 :: h2 :: rest =>
            match hex_value h1, hex_value h2 with
            | Some a, Some b => (16 * a + b)%N :: percent_decode rest
            | _, _ => c :: percent_decode l'
            end
        | _ => c :: percent_decode l'
        end
      else c :: percent_decode l'
  end.

Definition encode_opaque (l : list N) : str :=
  concat (map (fun b => replicate (N.to_nat b) 65%N ++ [45%N]) l).

Fixpoint decode_opaque (n : N) (s : str) : option (list N) :=
  match s with
  | [] => if (n =? 0)%N then Some [] else None
  | c :: s' =>
      if (c =? 65)%N then decode_opaque (n + 1) s'
      else if (c =? 45)%N then option_map (cons n) (decode_opaque 0 s')
      else None
  end.

Definition set_segments (u : FileUrl) (l : list str) : FileUrl := mkFile (authority u) l.

#[export] Instance file_urls : UrlCrates FileUrl := {
  url_parse := parse_file_url;
  url_text u := $"file://" ++ default [] (host u) ++ path u;
  url_scheme _ := FILE_SCHEME;
  url_username _ := [];
  url_password _ := None;
  url_port _ := None;
  url_query _ := None;
  url_fragment _ := None;
  host_str := host;
  url_path := path;
  url_segments := segments;
  set_host h u := Some (mkFile h (raw_segments u));
  set_path p u :=
    set_segments u (split_char FORWARD_SLASH (default p (strip_prefix [FORWARD_SLASH] p)));
  url_pop_if_empty u :=
    if (1 <? length (segments u)) && bool_decide (last (segments u) = Some [])
    then set_segments u (removelast (segments u)) else u;
  url_pop u := set_segments u (removelast (segments u));
  url_clear u := set_segments u [];
  url_push s u :=
    if is_dots s then u
    else set_segments u (without_root_segment (segments u) ++ [percent_encode (encode s)]);
  decode_binary := percent_decode;
  encode_binary := percent_encode;
  base64_encode := encode_opaque;
  base64_decode := decode_opaque 0;
}.

#[export] Instance file_unreachable : Unreachable FileUrl := mkFile None [].

(** ** The laws *)

Lemma no_slash_spec s : ~ In FORWARD_SLASH (no_slash s).
Proof. unfold no_slash. intros Hin%list_elem_of_In%list_elem_of_filter. tauto. Qed.

Lemma no_slash_id s : ~ In FORWARD_SLASH s -> no_slash s = s.
Proof.
  unfold no_slash. induction s as [|c s IH]; [done|]. intros Hs. rewrite filter_cons.
  rewrite decide_True by (intros ->; apply Hs; by left). f_equal. apply IH.
  intros Hin. apply Hs. by right.
Qed.

Lemma map_no_slash l : Forall (fun w => ~ In FORWARD_SLASH w) l -> map no_slash l = l.
Proof. induction 1 as [|w l Hw _ IH]; [done|]. simpl. by rewrite IH, no_slash_id. Qed.

Lemma segments_plain u : Forall (fun w => ~ In FORWARD_SLASH w) (segments u).
Proof.
  unfold segments. destruct (raw_segments u); [by repeat constructor; intros []|].
  apply Forall_map, Forall_true. apply no_slash_spec.
Qed.

Lemma segments_set u l :
  Forall (fun w => ~ In FORWARD_SLASH w) l ->
  segments (set_segments u l) = match l with [] => [[]] | w :: l' => w :: l' end.
Proof. intros Hl. unfold segments. simpl. destruct l; [done|]. exact (map_no_slash _ Hl). Qed.

Lemma segments_split u s :
  segments (set_segments u (split_char FORWARD_SLASH s)) = split_char FORWARD_SLASH s.
Proof.
  rewrite segments_set by apply split_char_pieces.
  pose proof (split_char_nonempty FORWARD_SLASH s). by destruct (split_char FORWARD_SLASH s).
Qed.

Lemma removelast_plain u : Forall (fun w => ~ In FORWARD_SLASH w) (removelast (segments u)).
Proof.
  pose proof (segments_plain u) as Hs.
  destruct (decide (segments u = [])) as [->|Hne]; [constructor|].
  destruct (removelast_split _ Hne) as [x Hx]. rewrite Hx in Hs. by apply Forall_app in Hs as [? _].
Qed.

Lemma percent_encode_app a b : percent_encode (a ++ b) = percent_encode a ++ percent_encode b.
Proof. unfold percent_encode. by rewrite map_app, concat_app. Qed.

Lemma hex_digit_value n : (n < 16)%N -> hex_value (hex_digit n) = Some n.
Proof.
  unfold hex_value, hex_digit. intros Hn.
  destruct (N.ltb_spec n 10);
    repeat match goal with
    | |- context [(?a <=? ?b)%N] => destruct (N.leb_spec a b)
    | |- context [(?a <? ?b)%N] => destruct (N.ltb_spec a b)
    end; simpl; try lia; f_equal; lia.
Qed.

Lemma decode_other c l : c <> 37%N -> percent_decode (c :: l) = c :: percent_decode l.
Proof. intros Hc. simpl. by apply N.eqb_neq in Hc as ->. Qed.

Lemma decode_hex h1 h2 a b l :
  hex_value h1 = Some a -> hex_value h2 = Some b ->
  percent_decode (37%N :: h1 :: h2 :: l) = (16 * a + b)%N :: percent_decode l.
Proof. intros H1 H2. simpl. by rewrite H1, H2. Qed.

Lemma encode_decode l : Forall (fun b => (b < 256)%N) l -> percent_decode (percent_encode l) = l.
Proof.
  induction 1 as [|b l Hb _ IH]; [done|]. change (b :: l) with ([b] ++ l).
  rewrite percent_encode_app. unfold percent_encode at 1. cbn [map concat]. rewrite app_nil_r.
  destruct (unreserved b) eqn:Hu.
  - simpl app. rewrite decode_other, IH; [done|]. by intros ->.
  - cbn [app]. rewrite (decode_hex _ _ (b / 16) (b mod 16)).
    + rewrite IH. f_equal. symmetry. apply N.div_mod. done.
    + apply hex_digit_value. apply N.Div0.div_lt_upper_bound. lia.
    + apply hex_digit_value. by apply N.mod_lt.
Qed.

Lemma percent_encode_no_slash l : ~ In FORWARD_SLASH (percent_encode l).
Proof.
  induction l as [|b l IH]; [by intros []|]. change (b :: l) with ([b] ++ l).
  rewrite percent_encode_app, in_app_iff. intros [Hin|?]; [|done].
  unfold percent_encode in Hin. cbn [map concat] in Hin. rewrite app_nil_r in Hin.
  assert (Hh : forall n, hex_digit n <> FORWARD_SLASH).
  { intros n. unfold hex_digit, FORWARD_SLASH. destruct (n <? 10)%N; lia. }
  destruct (unreserved b) eqn:Hu.
  - destruct Hin as [->|[]]. done.
  - destruct Hin as [[=]|[Hin|[Hin|[]]]]; by apply Hh in Hin.
Qed.

Lemma encode_bytes s : Forall scalar s -> Forall (fun b => (b < 256)%N) (encode s).
Proof.
  induction 1 as [|c s Hc _ IH]; [constructor|]. unfold encode. cbn [map concat].
  apply Forall_app. split; [|exact IH]. unfold encode_char, scalar in *.
  assert (Hm : forall n, (n mod 64 < 64)%N) by (intros n; by apply N.mod_lt).
  assert (c < 2048 -> c / 64 < 32)%N by (intros; by apply N.Div0.div_lt_upper_bound).
  assert (c < 65536 -> c / 4096 < 16)%N by (intros; by apply N.Div0.div_lt_upper_bound).
  assert (c / 262144 < 5)%N by (apply N.Div0.div_lt_upper_bound; lia).
  pose proof (Hm c). pose proof (Hm (c / 64)%N). pose proof (Hm (c / 4096)%N).
  repeat case_match; rewrite ?N.ltb_lt, ?N.ltb_ge in *; repeat constructor; lia.
Qed.

Lemma decode_at_slash b : forall n a, length a <= n ->
  percent_decode (a ++ FORWARD_SLASH :: b) = percent_decode a ++ FORWARD_SLASH :: percent_decode b.
Proof.
  induction n as [|n IH]; intros a Ha; [by destruct a; [|simpl in Ha; lia]|].
  destruct a as [|c a]; [done|]. simpl in Ha. cbn [app].
  destruct (decide (c = 37%N)) as [->|Hc];
    [|rewrite !decode_other by done; rewrite IH by lia; done].
  destruct a as [|h1 [|h2 a]].
  - destruct b; done.
  - simpl. destruct (hex_value h1), (h1 =? 37)%N eqn:E; try done;
      apply N.eqb_eq in E as ->; destruct b; done.
  - destruct (hex_value h1) as [x|] eqn:E1; [destruct (hex_value h2) as [y|] eqn:E2|].
    + cbn [app]. rewrite !(decode_hex _ _ x y) by done. rewrite IH; [done|simpl in Ha; lia].
    + assert (Hd : forall l, percent_decode (37%N :: h1 :: h2 :: l)
                             = 37%N :: percent_decode (h1 :: h2 :: l)).
      { intros l. simpl. by rewrite E1, E2. }
      cbn [app]. rewrite !Hd. change (h1 :: h2 :: a ++ FORWARD_SLASH :: b)
        with ((h1 :: h2 :: a) ++ FORWARD_SLASH :: b). rewrite IH; [done|simpl in *; lia].
    + assert (Hd : forall l, percent_decode (37%N :: h1 :: h2 :: l)
                             = 37%N :: percent_decode (h1 :: h2 :: l)).
      { intros l. simpl. by rewrite E1. }
      cbn [app]. rewrite !Hd. change (h1 :: h2 :: a ++ FORWARD_SLASH :: b)
        with ((h1 :: h2 :: a) ++ FORWARD_SLASH :: b). rewrite IH; [done|simpl in *; lia].
Qed.

Lemma decode_opaque_run k : forall n s,
  decode_opaque n (replicate k 65%N ++ 45%N :: s)
  = option_map (cons (n + N.of_nat k)%N) (decode_opaque 0 s).
Proof.
  induction k as [|k IH]; intros n s; simpl; [by rewrite N.add_0_r|].
  rewrite IH. do 2 f_equal. lia.
Qed.

Lemma opaque_roundtrip l : decode_opaque 0 (encode_opaque l) = Some l.
Proof.
  induction l as [|b l IH]; [done|]. unfold encode_opaque in *. cbn [map concat].
  rewrite <- app_assoc. cbn [app]. rewrite decode_opaque_run, IH. simpl. by rewrite N2Nat.id.
Qed.

Lemma opaque_no_slash l : ~ In FORWARD_SLASH (encode_opaque l).
Proof.
  induction l as [|b l IH]; [by intros []|]. unfold encode_opaque in *. cbn [map concat].
  rewrite !in_app_iff. intros [[Hin|[[=]|[]]]|?]; [|done].
  apply list_elem_of_In, elem_of_replicate in Hin as [[=] _].
Qed.

#[export] Instance file_laws : UrlLaws FileUrl.
Proof.
  split; simpl.
  - done.
  - intros u. unfold segments. by destruct (raw_segments u).
  - apply segments_plain.
  - intros u h Hm. injection Hm as <-. split; [done|]. unfold host.
    destruct (authority u); [apply no_slash_spec|by intros []].
  - exists (mkFile None [[]]). by split_and!.
  - intros u. apply segments_set, removelast_plain.
  - done.
  - intros u. destruct (_ && _) eqn:E; [|done]. apply andb_true_iff in E as [E%Nat.ltb_lt _].
    rewrite segments_set by apply removelast_plain.
    destruct (removelast (segments u)) eqn:Er; [|done].
    destruct (segments u) as [|x [|y l]]; simpl in *; [lia|lia|done].
  - intros u. by destruct (_ && _).
  - done.
  - done.
  - intros s u (Hne & Hd1 & Hd2 & _ & Hs). unfold is_dots.
    rewrite !bool_decide_false by done. simpl. exists (percent_encode (encode s)).
    assert (Hf : Forall (fun w => ~ In FORWARD_SLASH w)
                   (without_root_segment (segments u) ++ [percent_encode (encode s)])).
    { apply Forall_app. split; [|by constructor; [apply percent_encode_no_slash|]].
      unfold without_root_segment. case_bool_decide; [done|apply segments_plain]. }
    assert (Hdec : percent_decode (percent_encode (encode s)) = encode s).
    { apply encode_decode, encode_bytes. eapply Forall_impl; [exact Hs|]. naive_solver. }
    split_and!.
    + rewrite segments_set by done. by destruct (without_root_segment (segments u)).
    + intros E. rewrite E in Hdec. simpl in Hdec. symmetry in Hdec. by apply encode_nil_inv in Hdec.
    + rewrite (encode_ascii (percent_encode _)); [done|].
      generalize (encode_bytes s). intros Hb. specialize (Hb ltac:(eapply Forall_impl; [exact Hs|naive_solver])).
      clear - Hb. induction Hb as [|b l Hb _ IH]; [done|]. change (b :: l) with ([b] ++ l).
      rewrite percent_encode_app. apply Forall_app. split; [|done].
      unfold percent_encode. cbn [map concat]. rewrite app_nil_r.
      assert (b / 16 < 16)%N by (apply N.Div0.div_lt_upper_bound; lia).
      assert (b mod 16 < 16)%N by (by apply N.mod_lt).
      destruct (unreserved b) eqn:Hu.
      * constructor; [|done]. revert Hu. unfold unreserved.
        rewrite !orb_true_iff, contains_char_true. unfold is_ascii_digit.
        rewrite andb_true_iff, !N.leb_le. intros [[Hu%alphabetic_bounds|Hu]|Hu]; [lia|lia|].
        repeat (destruct Hu as [<-|Hu]; [done|]). done.
      * unfold hex_digit. repeat constructor; repeat case_match; lia.
  - intros u. rewrite segments_set; [by destruct (without_root_segment (segments u))|].
    apply Forall_app. split; [|by constructor; [intros []|]].
    unfold without_root_segment. case_bool_decide; [done|apply segments_plain].
  - intros s u. by destruct (is_dots s).
  - intros p u Hp. unfold path in *. destruct p as [|c p]; [done|]. simpl in Hp.
    injection Hp as Hc _. assert (c = FORWARD_SLASH) as -> by (by apply lower_slash; rewrite Hc).
    cbn [strip_prefix]. rewrite bool_decide_true by done. simpl.
    by rewrite segments_split, join_split_char.
  - done.
  - intros u h Hm. eexists. by split_and!.
  - intros l. split; [|by intros ->]. destruct l as [|c l]; [done|]. simpl.
    repeat case_match; done.
  - intros c l. apply decode_other.
  - intros h1 h2 a b l. apply decode_hex.
  - intros b.
    exists (mkFile None (split_char FORWARD_SLASH ($"%00/bad/path/" ++ encode_opaque b))).
    split; [done|]. split; [|done]. unfold path.
    assert (Hs : forall p, segments (mkFile None (split_char FORWARD_SLASH p)) = split_char FORWARD_SLASH p).
    { intros p. apply (segments_split (mkFile None [])). }
    rewrite Hs, join_split_char. done.
  - apply opaque_roundtrip.
  - apply opaque_no_slash.
  - intros b Hb. destruct b as [|x b]; [done|]. unfold encode_opaque in Hb. cbn [map concat] in Hb.
    by destruct (replicate (N.to_nat x) 65%N).
  - intros a b. by apply (decode_at_slash b (length a)).
Qed.

End FileUrls.
