(* ===== verification/PathUriProps.v ===== *)
(** * Native texts of path URIs: round trips

    Absolute POSIX text becomes a path URI whose rendering is the text, after
    lexical normalisation; configuration paths are lossless. *)

From S2P Require Import Prelude RustStr Utf8 PatchTypes ExecutorFs PathUri ApiPath PathUriSpec FileUrls.

Lemma from_utf8_lossy_encode s : Forall scalar s -> from_utf8_lossy (encode s) = s.
Proof.
  intros Hs. pose proof (decode_encode_app s [] Hs) as Hd. rewrite app_nil_r in Hd.
  unfold from_utf8_lossy. destruct (length (encode s)); simpl; rewrite Hd; simpl; by rewrite app_nil_r.
Qed.

(** Every replaced part has a byte, so the length of the input is fuel enough. *)
Lemma decode_invalid_length l n : snd (decode l) = Invalid n -> 1 <= n /\ l <> [].
Proof.
  induction l as [l IH] using (induction_ltof1 _ (@length N)). unfold ltof in IH.
  destruct (decoder_steps l) as [c r Hc Hl Hd|Hl|Hne Hlen Hd|k Hk Hd].
  - rewrite Hd. simpl. intros E. assert (encode_char c <> []) as Hne.
    { unfold encode_char. by destruct (c <? 128)%N, (c <? 2048)%N, (c <? 65536)%N. }
    destruct (IH r) as [Hn _]; [|done|].
    + rewrite Hl, length_app. destruct (encode_char c); [done|simpl; lia].
    + split; [done|]. rewrite Hl. by destruct (encode_char c).
  - by subst l.
  - by rewrite Hd.
  - specialize (Hd []). rewrite app_nil_r in Hd. rewrite Hd. simpl. intros [= <-].
    split; [done|]. intros ->. done.
Qed.

Lemma utf8_lossy_fuel k l : length l <= k -> utf8_lossy k l = from_utf8_lossy l.
Proof.
  unfold from_utf8_lossy. assert (H : forall a b m, length m <= a -> length m <= b ->
    utf8_lossy a m = utf8_lossy b m); [|intros; by apply H].
  intros a. induction a as [|a IH]; intros b m Ha Hb;
    pose proof (decode_invalid_length m) as Hm; destruct b as [|b]; simpl;
    destruct (decode m) as [s [|n|]]; try done; simpl in Hm;
    destruct (Hm n eq_refl) as [Hn Hne]; destruct m as [|x m]; simpl in Ha, Hb; try done; try lia.
  do 2 f_equal. apply IH; rewrite length_drop; simpl; lia.
Qed.

(** ** Scanning native components *)

(** Lexical normalisation of POSIX components, [..] stopping at the root. *)
Definition normal_step (ns : list str) (component : str) : list str :=
  if is_empty component || bool_decide (component = $".") then ns
  else if bool_decide (component = $"..") then removelast ns
  else ns ++ [component].

Definition normal_names (components : list str) : list str := fold_left normal_step components [].

(** A text that ends in a separator keeps it. *)
Definition ends_with_separator (components : list str) : bool := last_is is_empty components.

Definition posix_text (ns : list str) (trailing : bool) : str :=
  FORWARD_SLASH :: join [FORWARD_SLASH] ns
  ++ (if trailing then match ns with [] => [] | _ => [FORWARD_SLASH] end else []).

Lemma scan_posix components : forall st,
  scan_depth st = length (normalized_segments st) ->
  let st' := fold_left (scan_step 0) components st in
  normalized_segments st' = fold_left normal_step components (normalized_segments st)
  /\ scan_depth st' = length (normalized_segments st')
  /\ has_trailing_separator st'
     = match last components with Some c => is_empty c | None => has_trailing_separator st end.
Proof.
  induction components as [|c components IH]; intros st Hst; [done|]. cbn [fold_left].
  assert (Hone : normalized_segments (scan_step 0 st c) = normal_step (normalized_segments st) c
          /\ scan_depth (scan_step 0 st c) = length (normalized_segments (scan_step 0 st c))
          /\ has_trailing_separator (scan_step 0 st c) = is_empty c).
  { unfold scan_step, normal_step. destruct (is_empty c); [by split_and!|]. simpl.
    case_bool_decide; [by split_and!|]. case_bool_decide.
    - destruct (0 <? scan_depth st) eqn:E; simpl.
      + apply Nat.ltb_lt in E. split_and!; [done| |done]. rewrite Hst in *.
        destruct (removelast_split (normalized_segments st)) as [x Hx]; [intros Hz; rewrite Hz in E; simpl in E; lia|].
        apply (f_equal length) in Hx. rewrite length_app in Hx. simpl in Hx. lia.
      + apply Nat.ltb_ge in E. destruct (normalized_segments st); [by split_and!|simpl in Hst; lia].
    - simpl. rewrite length_app. simpl. split_and!; [done|lia|done]. }
  destruct Hone as (Hn & Hd & Ht). specialize (IH _ Hd). cbv zeta in IH.
  destruct IH as (IHn & IHd & IHt). split_and!; [by rewrite IHn, Hn|done|].
  rewrite IHt, Ht. destruct components as [|d components]; [done|].
  change (last (c :: d :: components)) with (last (d :: components)).
  destruct (last (d :: components)) eqn:E; [done|]. by apply last_None in E.
Qed.

Lemma scan_segments_posix components :
  normalized_segments (scan_segments 0 components) = normal_names components
  /\ has_trailing_separator (scan_segments 0 components) = ends_with_separator components.
Proof.
  destruct (scan_posix components (mkScan 0 [] false)) as (Hn & _ & Ht); [done|].
  split; [exact Hn|]. unfold scan_segments. rewrite Ht.
  unfold ends_with_separator, last_is. by destruct (last components).
Qed.

Lemma normal_names_ordinary components : forall ns,
  Forall join_piece components -> Forall ordinary_name ns ->
  Forall ordinary_name (fold_left normal_step components ns).
Proof.
  induction components as [|c components IH]; intros ns Hc Hns; [done|].
  inversion Hc as [|? ? Hc1 Hcs]; subst. cbn [fold_left]. apply IH; [done|].
  unfold normal_step. destruct (is_empty c || bool_decide (c = $".")) eqn:E; [done|].
  apply orb_false_iff in E as [E1%is_empty_false E2%bool_decide_eq_false]. case_bool_decide as E3.
  - destruct ns as [|x ns]; [done|]. destruct (removelast_split (x :: ns)) as [y Hy]; [done|].
    rewrite Hy in Hns. by apply Forall_app in Hns as [? _].
  - apply Forall_app. split; [done|]. constructor; [|done]. by destruct Hc1 as [?|[?|[?|?]]].
Qed.

Lemma normal_names_id ns : Forall ordinary_name ns -> normal_names ns = ns.
Proof.
  intros Hns. unfold normal_names.
  assert (forall ks, fold_left normal_step ns ks = ks ++ ns) as Hk; [|apply Hk].
  induction Hns as [|n ns (Hn & Hd & Hdd & _) _ IH]; intros ks; simpl; [by rewrite app_nil_r|].
  rewrite IH. unfold normal_step. rewrite !bool_decide_false by done.
  destruct n; [done|]. simpl. by rewrite <- app_assoc.
Qed.

Section uris.
Context {Url : Type} `{UrlLaws Url} `{Unreachable Url}.

(** ** From text to a URL *)

Lemma push_all_names ns : forall l u,
  Forall ordinary_name ns -> holds l u -> plain_segments l ->
  exists l', holds l' (push_segments ns u) /\ plain_segments l'
    /\ url_metadata (push_segments ns u) = url_metadata u
    /\ map decode_segment l' = map decode_segment l ++ map encode ns.
Proof.
  unfold push_segments. induction ns as [|n ns IH]; intros l u Hns Hu Hpl.
  { exists l. split_and!; try done. by rewrite app_nil_r. }
  inversion Hns as [|? ? Hn Hns']; subst. cbn [fold_left].
  destruct (push_holds l u n Hn Hu) as (w & Hw & Hd).
  destruct (IH (l ++ [w]) (url_push n u) Hns' Hw) as (l' & Hl' & Hpl' & Hm & Hnames).
  { by apply (plain_push l w n). }
  exists l'. split_and!; [done|done|by rewrite Hm, push_metadata|].
  rewrite Hnames, map_app. cbn [map]. by rewrite Hd, <- app_assoc.
Qed.

Lemma push_all_app a b u : push_segments (a ++ b) u = push_segments b (push_segments a u).
Proof. unfold push_segments. by rewrite fold_left_app. Qed.

Lemma push_empty_trailing l u :
  holds l u -> holds_trailing l (url_push [] u).
Proof.
  intros [Hl Hs]. split; [done|]. right. rewrite push_empty_law, Hs.
  unfold without_root_segment. destruct l as [|w l]; [done|].
  rewrite bool_decide_false; [done|]. intros [= -> ->]. by inversion Hl.
Qed.

(** The URI of POSIX components: a valid path with the normalised names. *)
Lemma path_uri_posix components :
  Forall join_piece components ->
  exists u l, path_uri_from_segments Posix None components = Some u
    /\ valid_uri u /\ lexical Posix u /\ host_str u = None
    /\ names u = map encode (normal_names components)
    /\ Forall (fun w => w <> []) l
    /\ map decode_segment l = map encode (normal_names components)
    /\ url_segments u
       = if ends_with_separator components then l ++ [[]] else match l with [] => [[]] | _ => l end.
Proof.
  intros Hc. destruct parse_root_law as (root & Hroot & _ & Hrm).
  destruct (scan_segments_posix components) as [Hn Ht].
  assert (Hns : Forall ordinary_name (normal_names components))
    by (by apply normal_names_ordinary).
  assert (Hclear : holds [] (url_clear root)) by (split; [done|apply clear_law]).
  destruct (push_all_names _ [] _ Hns Hclear) as (l & Hl & Hpl & Hm & Hd); [done|].
  rewrite clear_metadata, Hrm in Hm.
  assert (Hok : forall v, holds_trailing l v -> url_metadata v = plain_metadata None ->
            try_from_url v = Ok v /\ valid_uri v /\ lexical Posix v /\ host_str v = None
            /\ names v = map encode (normal_names components)).
  { intros v Hv Hvm. destruct (plain_url l v Hv Hpl Hvm) as (? & ? & ? & Hnames).
    split_and!; [done..|by injection Hvm|]. by rewrite Hnames. }
  unfold path_uri_from_segments. rewrite Hroot. cbn [res_ok anchor_depth].
  rewrite Ht, Hn. rewrite bool_decide_false by done. cbn [andb]. rewrite orb_false_r.
  destruct (ends_with_separator components).
  - rewrite push_all_app. exists (url_push [] (push_segments (normal_names components) (url_clear root))), l.
    destruct (Hok (url_push [] (push_segments (normal_names components) (url_clear root))))
      as (Htry & ? & ? & ? & ?); [by apply push_empty_trailing|by rewrite push_metadata|].
    cbn [push_segments fold_left]. change (push_segments [[]] ?v) with (url_push [] v). rewrite Htry.
    split_and!; try done; [apply Hl|].
    destruct Hl as [Hl Hs]. rewrite push_empty_law, Hs. unfold without_root_segment.
    destruct l as [|w l]; [done|]. rewrite bool_decide_false; [done|].
    intros [= -> ->]. by inversion Hl.
  - exists (push_segments (normal_names components) (url_clear root)), l.
    destruct (Hok (push_segments (normal_names components) (url_clear root)))
      as (Htry & ? & ? & ? & ?); [by apply holds_holds_trailing|done|].
    rewrite Htry. split_and!; try done; apply Hl.
Qed.

(** ** Rendering *)

Lemma render_names l ns :
  Forall ordinary_name ns -> map decode_segment l = map encode ns ->
  concat (map (fun s => FORWARD_SLASH :: decode_native_segment s) l)
  = concat (map (cons FORWARD_SLASH) ns).
Proof.
  intros Hns. revert l. induction Hns as [|n ns (_ & _ & _ & _ & Hn) _ IH]; intros [|s l]; try done.
  intros [= Hs Hl]. cbn [map concat]. rewrite (IH l Hl). unfold decode_native_segment. rewrite Hs.
  rewrite from_utf8_lossy_encode; [done|]. eapply Forall_impl; [exact Hn|]. naive_solver.
Qed.

Lemma concat_slashes ns :
  ns <> [] -> concat (map (cons FORWARD_SLASH) ns) = FORWARD_SLASH :: join [FORWARD_SLASH] ns.
Proof.
  induction ns as [|n ns IH]; [done|]. intros _. destruct ns as [|m ns].
  - simpl. by rewrite app_nil_r.
  - rewrite join_cons by done. cbn [map concat] in *. by rewrite IH.
Qed.

Lemma decode_native_nil : decode_native_segment [] = [].
Proof. unfold decode_native_segment. by rewrite (proj2 (decode_segment_nil []) eq_refl). Qed.

Lemma posix_roundtrip rest :
  Forall join_piece (split_char FORWARD_SLASH rest) ->
  let components := split_char FORWARD_SLASH rest in
  exists u, from_absolute_native_path (FORWARD_SLASH :: rest) Posix = Some u
    /\ valid_uri u /\ lexical Posix u /\ names u = map encode (normal_names components)
    /\ from_path_uri u Posix = Ok (posix_text (normal_names components) (ends_with_separator components)).
Proof.
  intros Hc components.
  destruct (path_uri_posix components Hc) as (u & l & Hu & Hv & Hl & Hh & Hnm & Hne & Hd & Hs).
  exists u. pose proof Hl as (Hconv & Ho & _)%lexical_iff.
  assert (Hns : Forall ordinary_name (normal_names components))
    by (by apply normal_names_ordinary).
  split_and!; [|done|done|done|].
  - unfold from_absolute_native_path, parse_posix_path. cbn [strip_prefix].
    rewrite bool_decide_true by done. cbn [strip_prefix].
    rewrite (proj2 (contains_char_false 0 rest)).
    + fold components. rewrite Hu, Hh, Hconv. by rewrite bool_decide_false, bool_decide_true.
    + rewrite <- (join_split_char FORWARD_SLASH rest). by apply join_pieces_no_null.
  - unfold from_path_uri. unfold is_opaque, is_some in Ho.
    destruct (decode_bad_path_uri u); [done|]. unfold render_posix_path. rewrite Hh. simpl.
    f_equal. rewrite Hs. pose proof (render_names l (normal_names components) Hns Hd) as Hr.
    assert (Hlen : length l = length (normal_names components)).
    { apply (f_equal length) in Hd. by rewrite !length_map in Hd. }
    unfold posix_text. destruct (normal_names components) as [|n ns] eqn:En.
    + destruct l; [|done]. destruct (ends_with_separator components); simpl; by rewrite decode_native_nil.
    + rewrite concat_slashes in Hr by done. destruct l as [|w l]; [done|].
      destruct (ends_with_separator components).
      * rewrite map_app, concat_app, Hr. cbn [map concat]. by rewrite decode_native_nil.
      * by rewrite Hr, app_nil_r.
Qed.

(** Absolute POSIX text becomes a valid POSIX path, and rendering that path
    gives the text back after lexical normalisation: [.] and doubled slashes
    go, [..] removes a name without leaving the root, a trailing slash stays.
    Text that is already normal is unchanged. *)
Theorem native_text_roundtrip rest :
  Forall join_piece (split_char FORWARD_SLASH rest) ->
  exists u, to_path_uri (FORWARD_SLASH :: rest) Posix = Ok u /\ valid_uri u /\ lexical Posix u
    /\ native_path_string u
       = posix_text (normal_names (split_char FORWARD_SLASH rest))
           (ends_with_separator (split_char FORWARD_SLASH rest))
    /\ (Forall ordinary_name (split_char FORWARD_SLASH rest) ->
        native_path_string u = FORWARD_SLASH :: rest).
Proof.
  intros Hc. destruct (posix_roundtrip rest Hc) as (u & Hu & Hv & Hl & _ & Hr).
  exists u. pose proof Hl as (Hconv & _ & _)%lexical_iff.
  assert (Hn : native_path_string u
    = posix_text (normal_names (split_char FORWARD_SLASH rest))
        (ends_with_separator (split_char FORWARD_SLASH rest))).
  { unfold native_path_string. by rewrite Hconv, Hr. }
  split_and!; [by unfold to_path_uri; rewrite Hu|done|done|done|].
  intros Hns. rewrite Hn, normal_names_id by done. unfold posix_text.
  assert (ends_with_separator (split_char FORWARD_SLASH rest) = false) as ->.
  { unfold ends_with_separator, last_is. destruct (last _) as [c|] eqn:E; [|done].
    apply last_Some_elem_of in E. rewrite Forall_forall in Hns. apply Hns in E as [Hne _].
    by apply is_empty_false. }
  by rewrite app_nil_r, join_split_char.
Qed.

End uris.

Import FileUrls.

Lemma native_text_roundtrip_witness :
  exists u : FileUrl, to_path_uri ($"/work/../tmp//a b/") Posix = Ok u
    /\ native_path_string u = $"/tmp/a b/".
Proof.
  destruct (native_text_roundtrip (Url := FileUrl) ($"work/../tmp//a b/"))
    as (u & Hu & _ & _ & Hn & _).
  - apply ascii_pieces. reflexivity.
  - exists u. split; [exact Hu|]. rewrite Hn. reflexivity.
Defined.

(** * Properties of path URIs

    The theorems about the paths of PathUri.v, with witnesses on the file URLs
    of FileUrls.v. *)

Section uris.
Context {Url : Type} `{UrlLaws Url} `{Unreachable Url}.

(** C38: Every path the operations produce satisfies the invariant the type
    promises: a [file] URL without credentials, port, query or fragment,
    whose decoded path has no null unless it is an opaque path.  This covers
    the parents, which are built without being checked again. *)
Theorem path_operations_valid self :
  valid_uri self ->
  (forall s u, parse_uri s = Ok u -> valid_uri u)
  /\ (forall s c u, from_absolute_native_path s c = Some u -> valid_uri u)
  /\ (forall s u, join_uri self s = Ok u -> valid_uri u)
  /\ (forall s u, join_descendant self s = Ok u -> valid_uri u /\ uri_starts_with u self = true)
  /\ (forall b u, join_native_bytes self b = Ok u -> valid_uri u)
  /\ (forall u, parent self = Some u -> valid_uri u).
Proof.
  intros Hv. split_and!.
  - by intros s u Hs%parse_uri_valid.
  - by intros s c u Hs%from_absolute_valid.
  - intros s u. by apply path_join_valid.
  - intros s u. unfold join_descendant. destruct (join_uri self s) as [v|] eqn:E; [|done].
    apply (path_join_valid self s v Hv) in E. destruct (uri_starts_with v self) eqn:Es.
    + destruct (_ || _); [done|]. by intros [= <-].
    + cbn [negb]. rewrite !orb_true_r. done.
  - intros b u. unfold join_native_bytes. destruct (from_utf8 b); [by apply path_join_valid|].
    destruct (_ || _); [done|]. destruct (try_from_url _) eqn:E; [|done].
    case_bool_decide; [|done]. intros [= <-]. by apply try_from_url_valid in E.
  - intros u Hp. by apply (parent_valid self).
Qed.

(** Walking up from a valid path that has unambiguous components ends, and
    the last ancestor is its root: it has no parent, is a valid path of the
    same convention, its names are an initial part of the path's, and there
    are none of them on POSIX and at most one (drive or share) on Windows. *)
Theorem ancestors_end c u :
  valid_uri u -> lexical c u ->
  exists r, last (ancestors u) = Some r /\ parent r = None /\ valid_uri r /\ lexical c r
    /\ names r `prefix_of` names u
    /\ length (names r) = Nat.min (length (names u)) (anchor_depth c).
Proof.
  intros Hv Hl. destruct (ancestors_root c u Hv Hl) as (r & Hr & ? & ? & ? & ? & ?).
  exists r. by split_and!.
Qed.

(** On paths with unambiguous components, containment agrees with the
    names: a POSIX path lies in another one exactly when the other's decoded
    names are its first names, and on either convention a path is at least as
    deep as any path it lies in. *)
Theorem starts_with_spec c p b :
  lexical c p -> lexical c b ->
  (c = Posix -> uri_starts_with p b = true <-> names b `prefix_of` names p)
  /\ (uri_starts_with p b = true ->
      exists m n, lexical_depth p = Some m /\ lexical_depth b = Some n /\ n <= m).
Proof.
  intros Hp Hb. split; [intros ->; by apply starts_with_posix|].
  intros Hs. exists (length (names p)), (length (names b)).
  rewrite (names_depth c p Hp), (names_depth c b Hb). split_and!; [done..|].
  by apply (starts_with_depth c c).
Qed.

(** Joining relative POSIX text to a path resolves it lexically: empty and
    [.] components are skipped, [..] removes the last name without leaving the
    root, every other component becomes one decoded name; the result is a valid
    POSIX path, and without [..] it lies in the base. *)
Theorem join_resolves u path :
  valid_uri u -> lexical Posix u -> tidy u ->
  path <> [] -> starts_with path [FORWARD_SLASH] = false ->
  Forall join_piece (split_char FORWARD_SLASH path) ->
  exists v, join_uri u path = Ok v /\ valid_uri v /\ lexical Posix v
    /\ names v = resolve_names (names u) path
    /\ (~ In ($"..") (split_char FORWARD_SLASH path) -> uri_starts_with v u = true).
Proof.
  intros Hv Hl Ht Hne Habs Hp.
  destruct (path_join_posix u path Hv Hl Ht Hne Habs Hp) as (v & Hj & Hvv & Hlv & Hn).
  exists v. split_and!; [done..|]. intros Hdots. apply starts_with_posix; [done..|].
  rewrite Hn. by apply resolve_names_prefix.
Qed.

End uris.

(** ** Witnesses *)

Import FileUrls.

Definition src_uri : FileUrl := mkFile None [$"work"; $"src"].

Lemma path_operations_valid_witness :
  valid_uri src_uri
  /\ (forall u, parent src_uri = Some u -> valid_uri u)
  /\ parent src_uri = Some (mkFile None [$"work"]).
Proof.
  assert (H : valid_uri src_uri) by (split; reflexivity).
  split; [exact H|]. split; [|reflexivity].
  exact (proj2 (proj2 (proj2 (proj2 (proj2 (path_operations_valid src_uri H)))))).
Defined.

Lemma ancestors_end_witness :
  lexical Posix src_uri
  /\ exists r, last (ancestors src_uri) = Some r /\ parent r = None.
Proof.
  assert (Hl : lexical Posix src_uri) by (split; [reflexivity|exists 2; reflexivity]).
  split; [exact Hl|].
  destruct (ancestors_end Posix src_uri ltac:(split; reflexivity) Hl) as (r & Hr & Hp & _).
  exists r. split; [exact Hr|exact Hp].
Defined.

Lemma starts_with_spec_witness :
  uri_starts_with src_uri (mkFile None [$"%77ork"]) = true
  /\ names (mkFile None [$"%77ork"]) `prefix_of` names src_uri.
Proof.
  assert (Hs : uri_starts_with src_uri (mkFile None [$"%77ork"]) = true) by reflexivity.
  split; [exact Hs|].
  apply (proj1 (starts_with_spec Posix src_uri (mkFile None [$"%77ork"])
    ltac:(split; [reflexivity|exists 2; reflexivity])
    ltac:(split; [reflexivity|exists 1; reflexivity])) eq_refl). exact Hs.
Defined.

Lemma join_resolves_witness :
  join_uri src_uri ($"../docs/./a b") = Ok (mkFile None [$"work"; $"docs"; $"a%20b"])
  /\ exists v, join_uri src_uri ($"../docs/./a b") = Ok v
       /\ names v = [encode ($"work"); encode ($"docs"); encode ($"a b")].
Proof.
  split; [reflexivity|].
  destruct (join_resolves src_uri ($"../docs/./a b")) as (v & Hv & _ & _ & Hnames & _).
  - split; reflexivity.
  - split; [reflexivity|exists 2; reflexivity].
  - exists [$"work"; $"src"]. split; [by repeat constructor|]. by left.
  - done.
  - reflexivity.
  - apply ascii_pieces. reflexivity.
  - exists v. split; [exact Hv|]. rewrite Hnames. reflexivity.
Defined.

(** A Windows device path written with forward slashes is kept as an opaque
    path whose convention then reads as POSIX, because its first UTF-16 byte is
    a slash; with backslashes it reads as Windows. *)
Example slashed_device_path_reads_as_posix :
  option_map path_convention (from_absolute_native_path ($"//./pipe/x") Windows)
  = Some (Some Posix)
  /\ option_map path_convention (from_absolute_native_path ($"\\.\pipe\x") Windows)
     = Some (Some Windows).
Proof. vm_compute. by split. Qed.

(** Empty segments before the last one are not names, but [parent] and [..]
    remove them as if they were. *)
Example parent_of_doubled_slash :
  let u := mkFile None [$"a"; []; []] in
  lexical_depth u = Some 1
  /\ option_map lexical_depth (parent u) = Some (Some 1)
  /\ option_map url_segments (res_ok (join_uri u ($".."))) = Some [$"a"].
Proof. vm_compute. by split_and!. Qed.
