(* ===== verification/SandboxPolicy.v ===== *)
(** * File-system sandbox policies (protocol/src/permissions.rs, permissions/target.rs)

    Which paths an agent may read and write: a policy is a list of entries,
    each an access mode for a path, a glob pattern or a symbolic path, and is
    interpreted in the context of an executor.  Everything here works on path
    URIs; the adapters to paths of the local host are not modelled.  The
    convention of the host is an argument. *)

From S2P Require Import Prelude RustStr Utf8 PatchTypes ExecutorFs PathUri ApiPath.

(** ** Data *)

Inductive FileSystemAccessMode : Type := Read | Write | Deny.

#[export] Instance FileSystemAccessMode_eq_dec : EqDecision FileSystemAccessMode.
Proof. solve_decision. Defined.

(** The derived [Ord]: the order of the declaration. *)
Definition mode_rank (a : FileSystemAccessMode) : nat :=
  match a with Read => 0 | Write => 1 | Deny => 2 end.

Definition can_read (a : FileSystemAccessMode) : bool := negb (bool_decide (a = Deny)).
Definition can_write (a : FileSystemAccessMode) : bool := bool_decide (a = Write).

Inductive FileSystemSpecialPath : Type :=
| Root
| Minimal
| ProjectRoots (subpath : option str)
| Tmpdir
| SlashTmp
| Unknown (path : str) (subpath : option str).

#[export] Instance FileSystemSpecialPath_eq_dec : EqDecision FileSystemSpecialPath.
Proof. solve_decision. Defined.

Inductive MissingPathBehavior : Type := Skip.

#[export] Instance MissingPathBehavior_eq_dec : EqDecision MissingPathBehavior.
Proof. solve_decision. Defined.

Inductive FileSystemSandboxKind : Type := Restricted | Unrestricted | ExternalSandbox.

#[export] Instance FileSystemSandboxKind_eq_dec : EqDecision FileSystemSandboxKind.
Proof. solve_decision. Defined.

Definition PROTECTED_METADATA_PATH_NAMES : list str := [$".git"; $".agents"; $".codex"].

Definition PROJECT_ROOTS_GLOB_PATTERN_PREFIX : str := $"codex-project-roots://".

Inductive InvalidDenyReadGlobBehavior : Type := FailClosed | ReturnError.

(** [Iterator::max_by_key] on [(depth, access)]: the last of the greatest. *)
Definition entry_key_le {A} (x y : A * FileSystemAccessMode * nat) : bool :=
  let '(_, a, d) := x in
  let '(_, b, e) := y in
  (d <? e) || (d =? e) && (mode_rank a <=? mode_rank b).

Definition most_specific {A} (l : list (A * FileSystemAccessMode * nat))
  : option (A * FileSystemAccessMode * nat) :=
  fold_max (fun x y => if entry_key_le x y then y else x) l.

Section policies.
Context {Url : Type} `{UrlCrates Url} `{Unreachable Url}.
Abbreviation PathUri := Url (only parsing).

Inductive FileSystemPath : Type :=
| Path (path : PathUri)
| GlobPattern (pattern : str)
| Special (value : FileSystemSpecialPath).

Record FileSystemSandboxEntry : Type := mkEntry {
  entry_path : FileSystemPath;
  access : FileSystemAccessMode;
  missing_path_behavior : option MissingPathBehavior;
}.

Record FileSystemSandboxPolicy : Type := mkPolicy {
  kind : FileSystemSandboxKind;
  glob_scan_max_depth : option N;
  entries : list FileSystemSandboxEntry;
}.

Record PolicyContext : Type := mkContext {
  cwd : PathUri;
  workspace_roots : list PathUri;
  user_home_dir : option PathUri;
  temporary_directories : option (list PathUri);
}.

(** The derived [PartialEq]s; paths compare as [PathUri] does. *)
Definition path_eq (p q : FileSystemPath) : bool :=
  match p, q with
  | Path u, Path v => uri_eq u v
  | GlobPattern s, GlobPattern t => bool_decide (s = t)
  | Special v, Special w => bool_decide (v = w)
  | _, _ => false
  end.

Definition entry_eq (e f : FileSystemSandboxEntry) : bool :=
  path_eq (entry_path e) (entry_path f) && bool_decide (access e = access f)
  && bool_decide (missing_path_behavior e = missing_path_behavior f).

Definition contains_entry (l : list FileSystemSandboxEntry) (e : FileSystemSandboxEntry) : bool :=
  existsb (fun f => entry_eq f e) l.

Definition new_entry (p : FileSystemPath) (a : FileSystemAccessMode) : FileSystemSandboxEntry :=
  mkEntry p a None.

Definition skip_missing_path (p : FileSystemPath) (a : FileSystemAccessMode)
  : FileSystemSandboxEntry := mkEntry p a (Some Skip).

Definition skips_missing_path (e : FileSystemSandboxEntry) : bool :=
  bool_decide (missing_path_behavior e = Some Skip).

(** ** Constructors *)

Definition restricted (l : list FileSystemSandboxEntry) : FileSystemSandboxPolicy :=
  mkPolicy Restricted None l.

Definition unrestricted : FileSystemSandboxPolicy := mkPolicy Unrestricted None [].

Definition external_sandbox : FileSystemSandboxPolicy := mkPolicy ExternalSandbox None [].

Definition read_only_file_system_entries : list FileSystemSandboxEntry :=
  [new_entry (Special Root) Read].

Definition read_only : FileSystemSandboxPolicy := restricted read_only_file_system_entries.

Definition remove_skip_missing_path_entries (self : FileSystemSandboxPolicy)
  : FileSystemSandboxPolicy :=
  mkPolicy (kind self) (glob_scan_max_depth self)
    (filter (fun e => skips_missing_path e = false) (entries self)).

(** ** Same target, without a context *)

Definition special_paths_share_target (a b : FileSystemSpecialPath) : bool :=
  match a, b with
  | Root, Root | Minimal, Minimal | Tmpdir, Tmpdir | SlashTmp, SlashTmp => true
  | ProjectRoots s, ProjectRoots t => bool_decide (s = t)
  | Unknown p s, Unknown q t => bool_decide (p = q) && bool_decide (s = t)
  | _, _ => false
  end.

Definition special_path_matches_path_uri (value : FileSystemSpecialPath) (path : PathUri) : bool :=
  match value with
  | Root => is_some (lexical_depth path) && is_none (parent path)
  | SlashTmp =>
      bool_decide (path_convention path = Some Posix)
      && bool_decide (lexical_depth path = Some 1)
      && bool_decide (basename path = Some ($"tmp"))
  | _ => false
  end.

Definition file_system_paths_share_target (a b : FileSystemPath) (convention : PathConvention)
  : bool :=
  match a, b with
  | Path u, Path v => uri_eq u v
  | Special v, Special w => special_paths_share_target v w
  | Path path, Special value | Special value, Path path =>
      bool_decide (path_convention path = Some convention)
      && special_path_matches_path_uri value path
  | GlobPattern s, GlobPattern t => bool_decide (s = t)
  | GlobPattern _, _ | _, GlobPattern _ => false
  end.

(** ** Whole-disk questions *)

Definition is_restricted (self : FileSystemSandboxPolicy) : bool :=
  bool_decide (kind self = Restricted).

Definition has_root_access (self : FileSystemSandboxPolicy)
  (predicate : FileSystemAccessMode -> bool) : bool :=
  is_restricted self
  && existsb (fun e => match entry_path e with
                       | Special Root => predicate (access e)
                       | _ => false
                       end) (entries self).

Definition has_denied_read_restrictions_for_convention (self : FileSystemSandboxPolicy)
  (convention : option PathConvention) : bool :=
  is_restricted self
  && existsb (fun e =>
       bool_decide (access e = Deny)
       && negb match entry_path e with
               | Special SlashTmp => bool_decide (convention = Some Windows)
               | _ => false
               end) (entries self).

Definition has_same_target_write_override (self : FileSystemSandboxPolicy)
  (e : FileSystemSandboxEntry) (convention : PathConvention) : bool :=
  existsb (fun candidate =>
    can_write (access candidate) && (mode_rank (access e) <? mode_rank (access candidate))
    && file_system_paths_share_target (entry_path candidate) (entry_path e) convention)
    (entries self).

(** Does this entry reduce a [:root = write] grant? *)
Definition narrows_write (self : FileSystemSandboxPolicy) (convention : PathConvention)
  (e : FileSystemSandboxEntry) : bool :=
  if can_write (access e) then false
  else
    match entry_path e with
    | Path _ => negb (has_same_target_write_override self e convention)
    | GlobPattern _ => true
    | Special Root => bool_decide (access e = Deny)
    | Special SlashTmp =>
        if bool_decide (convention = Windows) then false
        else negb (has_same_target_write_override self e convention)
    | Special Minimal | Special (Unknown _ _) => false
    | Special _ => negb (has_same_target_write_override self e convention)
    end.

Definition has_write_narrowing_entries (self : FileSystemSandboxPolicy)
  (convention : PathConvention) : bool :=
  is_restricted self && existsb (narrows_write self convention) (entries self).

Definition has_full_disk_read_access_for_convention (self : FileSystemSandboxPolicy)
  (convention : option PathConvention) : bool :=
  match kind self with
  | Unrestricted | ExternalSandbox => true
  | Restricted =>
      has_root_access self can_read
      && negb (has_denied_read_restrictions_for_convention self convention)
  end.

Definition has_full_disk_write_access_for_convention (self : FileSystemSandboxPolicy)
  (convention : option PathConvention) : bool :=
  match kind self with
  | Unrestricted | ExternalSandbox => true
  | Restricted =>
      match convention with
      | Some convention =>
          has_root_access self can_write && negb (has_write_narrowing_entries self convention)
      | None => false
      end
  end.

Definition has_full_disk_write_access_with_context (self : FileSystemSandboxPolicy)
  (context : PolicyContext) : bool :=
  has_full_disk_write_access_for_convention self (path_convention (cwd context)).

(** [include_platform_defaults]; [native] is the convention of the host. *)
Definition include_platform_defaults (native : PathConvention) (self : FileSystemSandboxPolicy)
  : bool :=
  negb (has_full_disk_read_access_for_convention self (Some native)) && is_restricted self
  && existsb (fun e => match entry_path e with
                       | Special Minimal => can_read (access e)
                       | _ => false
                       end) (entries self).

(** ** Access to a path *)

Definition file_system_root (context : PolicyContext) : option PathUri :=
  match lexical_depth (cwd context) with
  | Some _ => last (ancestors (cwd context))
  | None => None
  end.

Definition special_targets (context : PolicyContext) (value : FileSystemSpecialPath)
  : list PathUri :=
  match value with
  | Root => match file_system_root context with Some root => [root] | None => [] end
  | ProjectRoots subpath =>
      omap (fun root => match subpath with
                        | Some subpath => res_ok (join_uri root subpath)
                        | None => Some root
                        end) (workspace_roots context)
  | Tmpdir => default [] (temporary_directories context)
  | SlashTmp =>
      if bool_decide (path_convention (cwd context) = Some Posix)
      then match join_uri (cwd context) ($"/tmp") with Ok tmp => [tmp] | Err _ => [] end
      else []
  | Minimal | Unknown _ _ => []
  end.

Definition entry_targets (context : PolicyContext) (e : FileSystemSandboxEntry)
  : list (PathUri * FileSystemAccessMode) :=
  let paths :=
    match entry_path e with
    | Path path => [path]
    | GlobPattern _ => []
    | Special value => special_targets context value
    end in
  map (fun path => (path, access e))
    (filter (fun path => path_convention path = path_convention (cwd context)) paths).

Definition resolved_entries (self : FileSystemSandboxPolicy) (context : PolicyContext)
  : list (PathUri * FileSystemAccessMode) :=
  concat (map (entry_targets context) (entries self)).

(** The depth of every root; an opaque root is skipped, another root without
    unambiguous components is a failure. *)
Fixpoint with_depths (l : list (PathUri * FileSystemAccessMode))
  : option (list (PathUri * FileSystemAccessMode * nat)) :=
  match l with
  | [] => Some []
  | (root, a) :: l' =>
      match lexical_depth root with
      | Some depth => option_map (cons (root, a, depth)) (with_depths l')
      | None => if is_opaque root then with_depths l' else None
      end
  end.

Definition resolve_access (self : FileSystemSandboxPolicy) (path : PathUri)
  (context : PolicyContext) : FileSystemAccessMode :=
  match kind self with
  | Unrestricted | ExternalSandbox => Write
  | Restricted =>
      match path_convention (cwd context) with
      | None => Deny
      | Some convention =>
          if negb (bool_decide (path_convention path = Some convention))
             || is_none (lexical_depth path) || is_none (lexical_depth (cwd context))
          then Deny
          else
            match with_depths (resolved_entries self context) with
            | None => Deny
            | Some l =>
                match most_specific (filter (fun e => uri_starts_with path e.1.1 = true) l) with
                | Some (_, a, _) => a
                | None => Deny
                end
            end
      end
  end.

Definition can_read_path (self : FileSystemSandboxPolicy) (path : PathUri)
  (context : PolicyContext) : bool := can_read (resolve_access self path context).

(** The metadata directory of [root] that contains [path]. *)
Fixpoint protected_under (root path : PathUri) (metadata_names : list str)
  : option (PathUri * str) :=
  match metadata_names with
  | [] => None
  | name :: rest =>
      match join_descendant root name with
      | Ok protected =>
          if uri_starts_with path protected then Some (protected, name)
          else protected_under root path rest
      | Err _ => protected_under root path rest
      end
  end.

Fixpoint first_protected (path : PathUri) (l : list (PathUri * FileSystemAccessMode))
  : option (PathUri * str) :=
  match l with
  | [] => None
  | (root, a) :: l' =>
      if can_write a then
        match protected_under root path PROTECTED_METADATA_PATH_NAMES with
        | Some p => Some p
        | None => first_protected path l'
        end
      else first_protected path l'
  end.

Definition grants_metadata (path protected : PathUri)
  (l : list (PathUri * FileSystemAccessMode)) : bool :=
  existsb (fun e => can_write e.2 && uri_starts_with path e.1 && uri_starts_with e.1 protected) l.

Definition metadata_write_denial (self : FileSystemSandboxPolicy) (path : PathUri)
  (context : PolicyContext) : option str :=
  if negb (is_restricted self) then None
  else
    let l := resolved_entries self context in
    match first_protected path l with
    | Some (protected, metadata_name) =>
        if grants_metadata path protected l then None else Some metadata_name
    | None => None
    end.

Definition can_write_path (self : FileSystemSandboxPolicy) (path : PathUri)
  (context : PolicyContext) : bool :=
  if negb (can_write (resolve_access self path context)) then false
  else has_full_disk_write_access_with_context self context
       || is_none (metadata_write_denial self path context).

Definition has_configured_writable_roots (self : FileSystemSandboxPolicy)
  (context : PolicyContext) : bool :=
  negb (has_full_disk_write_access_with_context self context)
  && existsb (fun e => can_write e.2 && can_write_path self e.1 context)
       (resolved_entries self context).

(** ** Replacing the allow side of a policy *)

Definition is_deny (e : FileSystemSandboxEntry) : bool := bool_decide (access e = Deny).

Definition push_missing (l : list FileSystemSandboxEntry) (e : FileSystemSandboxEntry)
  : list FileSystemSandboxEntry := if contains_entry l e then l else l ++ [e].

Definition preserve_deny_read_restrictions_from (self existing : FileSystemSandboxPolicy)
  : FileSystemSandboxPolicy :=
  let denied := filter (fun e => is_deny e = true) (entries existing) in
  let self :=
    if bool_decide (kind self = Unrestricted) && negb (is_empty denied)
    then restricted [new_entry (Special Root) Write] else self in
  if negb (is_restricted self) then self
  else
    mkPolicy (kind self)
      (match glob_scan_max_depth self with
       | None => glob_scan_max_depth existing
       | Some d => Some d
       end)
      (fold_left push_missing denied (entries self)).

(** ** Workspace roots *)

Definition resolve_scoped_workspace_path (root : PathUri) (subpath : str) : option PathUri :=
  match path_convention root with
  | None => None
  | Some convention =>
      let windows := bool_decide (convention = Windows) in
      let segments := native_segments convention subpath in
      if starts_with subpath [FORWARD_SLASH] || windows && starts_with subpath [BACKSLASH]
         || existsb is_dots segments
         || windows && existsb (contains_char COLON) segments
      then None
      else
        match join_uri root subpath with
        | Ok path => if uri_starts_with path root then Some path else None
        | Err _ => None
        end
  end.

(** The subpath of a [:workspace_roots] entry, and whether it is a glob. *)
Definition project_roots_subpath (p : FileSystemPath) : option (option str * bool) :=
  match p with
  | Special (ProjectRoots subpath) => Some (subpath, false)
  | GlobPattern pattern =>
      match strip_prefix PROJECT_ROOTS_GLOB_PATTERN_PREFIX pattern with
      | Some subpath => Some (Some subpath, true)
      | None => None
      end
  | _ => None
  end.

(** A denial that older policies could expand outside the workspace. *)
Definition is_home_relative_deny (roots : list PathUri) (e : FileSystemSandboxEntry)
  (subpath : option str) : bool :=
  is_deny e
  && match subpath with
     | Some subpath =>
         existsb (fun root => match path_convention root with
                              | Some c => is_some (home_relative_suffix c subpath)
                              | None => false
                              end) roots
     | None => false
     end.

Definition materialized_entry (e : FileSystemSandboxEntry) (subpath : option str)
  (is_glob : bool) (root : PathUri) : option FileSystemSandboxEntry :=
  let path :=
    if is_glob
       && match path_convention root with
          | Some c => negb (is_ok (validate_glob_directory root c))
          | None => true
          end
    then None
    else match subpath with
         | None => Some root
         | Some subpath => resolve_scoped_workspace_path root subpath
         end in
  match path with
  | Some path =>
      Some (mkEntry (if is_glob then GlobPattern (native_path_string path) else Path path)
              (access e) (missing_path_behavior e))
  | None =>
      if negb (can_write (access e))
      then Some (mkEntry (Path root) Deny (missing_path_behavior e)) else None
  end.

Fixpoint materialize_entries (roots : list PathUri) (l : list FileSystemSandboxEntry)
  : option (list FileSystemSandboxEntry) :=
  match l with
  | [] => Some []
  | e :: l' =>
      match project_roots_subpath (entry_path e) with
      | None => option_map (cons e) (materialize_entries roots l')
      | Some (subpath, is_glob) =>
          if is_home_relative_deny roots e subpath then None
          else option_map (app (omap (materialized_entry e subpath is_glob) roots))
                 (materialize_entries roots l')
      end
  end.

Definition try_materialize_project_roots (self : FileSystemSandboxPolicy) (roots : list PathUri)
  : option FileSystemSandboxPolicy :=
  option_map (mkPolicy (kind self) (glob_scan_max_depth self))
    (materialize_entries roots (entries self)).

Definition materialize_project_roots (self : FileSystemSandboxPolicy) (roots : list PathUri)
  : FileSystemSandboxPolicy :=
  default (restricted []) (try_materialize_project_roots self roots).

(** target.rs *)
Definition with_materialized_project_roots (self : FileSystemSandboxPolicy)
  (roots : list PathUri) : FileSystemSandboxPolicy :=
  match try_materialize_project_roots self roots with
  | Some materialized =>
      mkPolicy (kind self) (glob_scan_max_depth self)
        (fold_left push_missing (entries materialized) (entries self))
  | None => restricted []
  end.

Definition append_default_read_only_entry (native : PathConvention)
  (l : list FileSystemSandboxEntry) (path : FileSystemPath) : list FileSystemSandboxEntry :=
  if existsb (fun e => file_system_paths_share_target (entry_path e) path native) l then l
  else l ++ [skip_missing_path path Read].

Definition append_default_read_only_subpath (native : PathConvention)
  (l : list FileSystemSandboxEntry) (subpath : str) : list FileSystemSandboxEntry :=
  append_default_read_only_entry native l (Special (ProjectRoots (Some subpath))).

(** [workspace_write] without roots of the local host. *)
Definition workspace_write (native : PathConvention) (exclude_tmpdir_env_var exclude_slash_tmp : bool)
  : FileSystemSandboxPolicy :=
  restricted
    (fold_left (append_default_read_only_subpath native) PROTECTED_METADATA_PATH_NAMES
       ([new_entry (Special Root) Read; new_entry (Special (ProjectRoots None)) Write]
        ++ (if exclude_slash_tmp then [] else [new_entry (Special SlashTmp) Write])
        ++ (if exclude_tmpdir_env_var then [] else [new_entry (Special Tmpdir) Write]))).

Definition workspace_write_with_path_uris (native : PathConvention) (roots : list PathUri)
  (exclude_tmpdir_env_var exclude_slash_tmp : bool) : FileSystemSandboxPolicy :=
  with_materialized_project_roots
    (workspace_write native exclude_tmpdir_env_var exclude_slash_tmp) roots.

End policies.
