(* ===== verification/SandboxPolicyProps.v ===== *)
(** * What a sandbox policy grants

    The access mode of a path is that of its most specific entry, denial first;
    whole-disk write access means what it says on POSIX; replacing the allow
    side of a policy keeps its denials; metadata directories of a workspace
    stay protected. *)

From S2P Require Import Prelude RustStr Utf8 PatchTypes ExecutorFs PathUri ApiPath PathUriSpec FileUrls PathUriProps SandboxPolicy.

(** ** The most specific entry *)

Section keys.
Context {A : Type}.
Implicit Types x y z m : A * FileSystemAccessMode * nat.
Implicit Type l : list (A * FileSystemAccessMode * nat).

Lemma entry_key_le_iff (r s : A) a b d e :
  entry_key_le (r, a, d) (s, b, e) = true <-> d < e \/ d = e /\ mode_rank a <= mode_rank b.
Proof.
  unfold entry_key_le. rewrite orb_true_iff, andb_true_iff, Nat.ltb_lt, Nat.eqb_eq, Nat.leb_le. done.
Qed.

Lemma entry_key_le_total x y : entry_key_le x y = false -> entry_key_le y x = true.
Proof.
  destruct x as [[r a] d], y as [[s b] e]. intros H. apply not_true_iff_false in H.
  rewrite entry_key_le_iff in *. lia.
Qed.

Lemma entry_key_le_trans x y z :
  entry_key_le x y = true -> entry_key_le y z = true -> entry_key_le x z = true.
Proof.
  destruct x as [[r a] d], y as [[s b] e], z as [[t c] f]. rewrite !entry_key_le_iff. lia.
Qed.

Lemma most_specific_fold l : forall x,
  let m := fold_left (fun x y => if entry_key_le x y then y else x) l x in
  (m = x \/ In m l) /\ entry_key_le x m = true /\ forall y, In y l -> entry_key_le y m = true.
Proof.
  assert (Hrefl : forall z, entry_key_le z z = true).
  { intros [[t c] f]. apply entry_key_le_iff. lia. }
  induction l as [|y l IH]; intros x; simpl; [split_and!; [by left|done|done]|].
  destruct (entry_key_le x y) eqn:E.
  - destruct (IH y) as (Hin & Hle & Hall). split_and!.
    + destruct Hin as [->|]; [right; by left|right; by right].
    + by apply (entry_key_le_trans _ y).
    + intros z [<-|Hz]; [done|by apply Hall].
  - destruct (IH x) as (Hin & Hle & Hall). split_and!.
    + destruct Hin as [->|]; [by left|right; by right].
    + done.
    + intros z [<-|Hz]; [|by apply Hall]. apply (entry_key_le_trans _ x); [|done].
      by apply entry_key_le_total.
Qed.

Lemma most_specific_Some l m :
  most_specific l = Some m -> In m l /\ forall y, In y l -> entry_key_le y m = true.
Proof.
  unfold most_specific, fold_max. destruct l as [|x l]; [done|]. intros [= <-].
  destruct (most_specific_fold l x) as (Hin & Hle & Hall). split.
  - destruct Hin as [->|]; [by left|by right].
  - intros y [<-|Hy]; [done|by apply Hall].
Qed.

Lemma most_specific_None l : most_specific l = None <-> l = [].
Proof. unfold most_specific, fold_max. by destruct l. Qed.
End keys.

Section policies.
Context {Url : Type} `{UrlLaws Url} `{Unreachable Url}.
Implicit Types (p self existing : @FileSystemSandboxPolicy Url) (context : @PolicyContext Url).
Implicit Types (u v path : Url).

(** ** The depths of the resolved roots *)

Lemma with_depths_In l l' u a d :
  with_depths l = Some l' -> In (u, a, d) l' <-> In (u, a) l /\ lexical_depth u = Some d.
Proof.
  revert l'. induction l as [|[v b] l IH]; intros l' Hl; simpl in Hl.
  { injection Hl as <-. simpl. tauto. }
  destruct (lexical_depth v) as [e|] eqn:Hd.
  - destruct (with_depths l) as [l1|]; [|done]. injection Hl as <-. simpl.
    rewrite (IH l1 eq_refl). split.
    + intros [[= <- <- <-]|[Hin Hu]]; [by split; [left|]|by split; [right|]].
    + intros [[[= <- <-]|Hin] Hu]; [left; congruence|by right].
  - destruct (is_opaque v); [|done]. rewrite (IH l' Hl). simpl. split.
    + intros [Hin Hu]. by split; [right|].
    + intros [[[= <- <-]|Hin] Hu]; [congruence|done].
Qed.

Lemma with_depths_app l1 l2 l :
  with_depths (l1 ++ l2) = Some l ->
  exists m1 m2, with_depths l1 = Some m1 /\ with_depths l2 = Some m2 /\ l = m1 ++ m2.
Proof.
  revert l. induction l1 as [|[v b] l1 IH]; intros l Hl; simpl in *; [by exists [], l|].
  destruct (lexical_depth v).
  - destruct (with_depths (l1 ++ l2)) as [l'|]; [|done]. injection Hl as <-.
    destruct (IH l' eq_refl) as (m1 & m2 & -> & -> & ->). by eexists _, _.
  - destruct (is_opaque v); [|done]. by apply IH.
Qed.

(** ** What [resolve_access] computes *)

(** The conditions under which a path can have any access at all. *)
Definition resolvable context path : Prop :=
  exists c, path_convention (cwd context) = Some c /\ path_convention path = Some c
    /\ is_some (lexical_depth path) = true /\ is_some (lexical_depth (cwd context)) = true.

(** Entry [(root, a)] applies to [path] at depth [d]. *)
Definition applies self context path (root : Url) (a : FileSystemAccessMode) (d : nat) : Prop :=
  In (root, a) (resolved_entries self context) /\ lexical_depth root = Some d
  /\ uri_starts_with path root = true.

(** [(root, a)] is the most specific entry: no deeper one applies, and of those
    as deep none is stricter. *)
Definition decides self context path root a d : Prop :=
  applies self context path root a d
  /\ forall root' a' d', applies self context path root' a' d' ->
       d' < d \/ d' = d /\ mode_rank a' <= mode_rank a.

Lemma applies_filter self context path l :
  with_depths (resolved_entries self context) = Some l ->
  forall root a d,
    In (root, a, d) (filter (fun e => uri_starts_with path e.1.1 = true) l)
    <-> applies self context path root a d.
Proof.
  intros Hl root a d. unfold applies.
  rewrite <- list_elem_of_In, list_elem_of_filter, list_elem_of_In. simpl.
  rewrite (with_depths_In _ _ _ _ _ Hl). tauto.
Qed.

Lemma resolve_access_granted self context path a :
  kind self = Restricted -> a <> Deny ->
  resolve_access self path context = a <->
  resolvable context path
  /\ is_some (with_depths (resolved_entries self context)) = true
  /\ exists root d, decides self context path root a d.
Proof.
  intros Hk Ha. unfold resolve_access. rewrite Hk.
  destruct (path_convention (cwd context)) as [c|] eqn:Hc.
  2: { split; [by intros <-|]. intros ((c & Hc' & _) & _). congruence. }
  destruct (negb (bool_decide (path_convention path = Some c)) || is_none (lexical_depth path)
            || is_none (lexical_depth (cwd context))) eqn:Hg.
  { split; [by intros <-|]. intros ((c' & Hc' & Hp & Hd & Hcd) & _). rewrite Hc' in Hc.
    injection Hc as <-. rewrite Hp, bool_decide_true in Hg by done. unfold is_some in *.
    rewrite negb_true_iff in Hd, Hcd. by rewrite Hd, Hcd in Hg. }
  assert (Hr : resolvable context path).
  { rewrite !orb_false_iff, negb_false_iff, bool_decide_eq_true in Hg.
    destruct Hg as ((Hp & Hd) & Hcd). exists c. unfold is_some. by rewrite Hd, Hcd. }
  destruct (with_depths (resolved_entries self context)) as [l|] eqn:Hl.
  2: { split; [by intros <-|]. by intros (_ & ? & _). }
  pose proof (applies_filter self context path l Hl) as Hap.
  destruct (most_specific _) as [[[root b] d]|] eqn:Hm.
  - apply most_specific_Some in Hm as [Hin Hmax]. apply Hap in Hin.
    assert (Hdec : decides self context path root b d).
    { split; [done|]. intros root' a' d' Happ. apply Hap, Hmax in Happ.
      by apply entry_key_le_iff in Happ. }
    split.
    + intros <-. split_and!; [done|done|by exists root, d].
    + intros (_ & _ & root' & d' & Happ' & Hmax'). destruct Hdec as [Happ Hdec].
      pose proof (Hdec _ _ _ Happ'). pose proof (Hmax' _ _ _ Happ).
      destruct a, b; simpl in *; try done; lia.
  - split; [by intros <-|]. intros (_ & _ & root & d & Happ & _).
    apply most_specific_None in Hm. apply Hap in Happ. by rewrite Hm in Happ.
Qed.

(** When some entry applies, the most specific one gives the access, a denial
    included. *)
Lemma resolve_access_decides self context path l :
  kind self = Restricted -> resolvable context path ->
  with_depths (resolved_entries self context) = Some l ->
  (exists root a d, applies self context path root a d) ->
  exists root a d, decides self context path root a d /\ resolve_access self path context = a.
Proof.
  intros Hk (c & Hc & Hp & Hd & Hcd) Hl (root0 & a0 & d0 & H00).
  pose proof (applies_filter self context path l Hl) as Hap.
  destruct (most_specific (filter (fun e => uri_starts_with path e.1.1 = true) l))
    as [[[root a] d]|] eqn:Hm.
  - exists root, a, d. pose proof Hm as [Hin Hmax]%most_specific_Some. apply Hap in Hin.
    split; [split; [done|]|].
    + intros root' a' d' Happ. apply Hap, Hmax in Happ. by apply entry_key_le_iff in Happ.
    + unfold resolve_access. rewrite Hk, Hc, Hp, bool_decide_true by done.
      unfold is_some in *. rewrite negb_true_iff in Hd, Hcd. rewrite Hd, Hcd. simpl.
      by rewrite Hl, Hm.
  - apply most_specific_None in Hm. apply Hap in H00. by rewrite Hm in H00.
Qed.

(** ** Resolved entries *)

Lemma resolved_entries_In self context u a :
  In (u, a) (resolved_entries self context)
  <-> exists e, In e (entries self) /\ In (u, a) (entry_targets context e).
Proof.
  unfold resolved_entries. rewrite in_concat. split.
  - intros (l & Hl & Hu). apply in_map_iff in Hl as (e & <- & He). by exists e.
  - intros (e & He & Hu). exists (entry_targets context e). split; [|done]. by apply in_map.
Qed.

(** The paths an entry stands for. *)
Definition stands_for context (e : FileSystemSandboxEntry) (u : Url) : Prop :=
  path_convention u = path_convention (cwd context)
  /\ match entry_path e with
     | Path v => u = v
     | GlobPattern _ => False
     | Special value => In u (special_targets context value)
     end.

Lemma entry_targets_In context e u a :
  In (u, a) (entry_targets context e) <-> stands_for context e u /\ a = access e.
Proof.
  unfold entry_targets, stands_for. rewrite in_map_iff. split.
  - intros (v & [= -> <-] & Hv). apply list_elem_of_In, list_elem_of_filter in Hv as [Hc Hv].
    apply list_elem_of_In in Hv. split; [|done]. split; [done|].
    destruct (entry_path e); simpl in *; [by destruct Hv as [->|[]]|done|done].
  - intros [[Hc Hu] ->]. exists u. split; [done|].
    apply list_elem_of_In, list_elem_of_filter. split; [done|]. apply list_elem_of_In.
    destruct (entry_path e); simpl; [by left|done|done].
Qed.

Lemma applies_iff self context path u a d :
  applies self context path u a d
  <-> lexical_depth u = Some d /\ uri_starts_with path u = true
      /\ exists e, In e (entries self) /\ stands_for context e u /\ access e = a.
Proof.
  unfold applies. rewrite resolved_entries_In. setoid_rewrite entry_targets_In. naive_solver.
Qed.

(** ** Whole-disk write access on POSIX *)

(** An executor with POSIX paths. *)
Definition posix_context context : Prop :=
  valid_uri (cwd context) /\ lexical Posix (cwd context).

Lemma posix_root context :
  posix_context context ->
  exists r, special_targets context Root = [r] /\ lexical Posix r /\ names r = [].
Proof.
  intros [Hv Hl]. destruct (ancestors_root Posix _ Hv Hl) as (r & Hr & _ & Hrl & _ & _ & Hn).
  exists r. simpl. unfold file_system_root. rewrite (names_depth Posix _ Hl), Hr.
  split_and!; [done|done|]. rewrite Nat.min_0_r in Hn. by destruct (names r).
Qed.

Lemma posix_tmp context :
  posix_context context ->
  exists t, special_targets context SlashTmp = [t] /\ lexical Posix t
    /\ names t = [encode ($"tmp")].
Proof.
  intros [Hv Hl]. pose proof Hl as (Hc & _ & _)%lexical_iff.
  destruct (posix_roundtrip (Url := Url) ($"tmp")) as (t & Ht & _ & Htl & Hn & _).
  { apply ascii_pieces. reflexivity. }
  exists t. simpl. rewrite bool_decide_true by done. unfold join_uri.
  assert (contains_char 0 ($"/tmp") = false) as -> by reflexivity. cbn [is_empty lit].
  change (is_empty ($"/tmp")) with false. rewrite Hc. change ($"/tmp") with (FORWARD_SLASH :: $"tmp").
  rewrite Ht. by split_and!.
Qed.

(** A POSIX path without parent is the root. *)
Lemma no_parent_names u : lexical Posix u -> parent u = None -> names u = [].
Proof.
  intros Hl Hp. apply (lexical_parent_None Posix u Hl) in Hp. simpl in Hp.
  rewrite segment_count_names in Hp. destruct (names u); [done|]. simpl in Hp. lia.
Qed.

Lemma decode_uri_path_ascii w s :
  Forall (fun c => (c < 128)%N /\ c <> 37%N) s -> decode_uri_path w = s -> decode_segment w = encode s.
Proof.
  intros Hs. unfold decode_uri_path. destruct (from_utf8 (decode_segment w)) as [t|] eqn:E.
  - intros ->. by apply from_utf8_Ok in E as [-> _].
  - intros ->. exfalso. assert (decode_segment s = encode s) as Hd.
    { unfold decode_segment. rewrite encode_ascii by (eapply Forall_impl; [done|]; naive_solver).
      rewrite <- (app_nil_r s) at 1. rewrite decode_plain_app.
      - rewrite (proj2 (decode_nil []) eq_refl). apply app_nil_r.
      - intros Hin%list_elem_of_In. rewrite Forall_forall in Hs. by apply Hs in Hin as [_ ?]. }
    rewrite Hd, from_utf8_encode in E; [done|]. eapply Forall_impl; [done|].
    intros c [Hc _]. left. lia.
Qed.

Lemma tmp_names u :
  lexical Posix u -> lexical_depth u = Some 1 -> basename u = Some ($"tmp") ->
  names u = [encode ($"tmp")].
Proof.
  intros Hl Hd Hb. pose proof Hl as (_ & Ho & _)%lexical_iff.
  rewrite (names_depth Posix u Hl) in Hd. injection Hd as Hd.
  unfold basename in Hb. rewrite Ho in Hb. unfold names in *. rewrite length_map in Hd.
  destruct (non_empty (url_segments u)) as [|w [|? ?]]; try done. simpl in *.
  injection Hb as Hb. f_equal. apply decode_uri_path_ascii; [|done].
  repeat constructor; by try lia.
Qed.

(** An entry that shares the target of another stands for the same place. *)
Lemma share_target_names context (e candidate : FileSystemSandboxEntry) u :
  posix_context context ->
  file_system_paths_share_target (entry_path candidate) (entry_path e) Posix = true ->
  stands_for context e u -> lexical Posix u ->
  exists v, stands_for context candidate v /\ lexical Posix v /\ names v = names u.
Proof.
  intros Hctx Hs [Hcu Hu] Hl. pose proof Hctx as [_ (Hcwd & _ & _)%lexical_iff].
  destruct (posix_root context Hctx) as (r & Hr & Hrl & Hrn).
  destruct (posix_tmp context Hctx) as (t & Ht & Htl & Htn).
  pose proof Hrl as (Hrc & _ & _)%lexical_iff. pose proof Htl as (Htc & _ & _)%lexical_iff.
  assert (Hmatch : forall value v, lexical Posix v -> special_path_matches_path_uri value v = true ->
            exists w, special_targets context value = [w] /\ lexical Posix w /\ names w = names v).
  { intros value v Hv Hm. destruct value; try done.
    - exists r. split_and!; [done|done|]. apply andb_true_iff in Hm as [_ Hm].
      rewrite (no_parent_names v Hv); [done|]. unfold is_none in Hm. by destruct (parent v).
    - exists t. split_and!; [done|done|]. simpl in Hm.
      rewrite !andb_true_iff, !bool_decide_eq_true in Hm. destruct Hm as ((_ & Hd) & Hb).
      by rewrite (tmp_names v Hv Hd Hb). }
  unfold stands_for. rewrite Hcwd.
  destruct (entry_path e) as [ue|pe|ve], (entry_path candidate) as [uc|pc|vc]; simpl in Hs;
    try done; subst.
  - pose proof Hl as (Hc & _ & _)%lexical_iff. unfold uri_eq in Hs.
    case_bool_decide as Heq; [subst uc; by exists ue|]. exfalso.
    assert (windows_identity_path_bytes ue = None) as Hn
      by (unfold windows_identity_path_bytes; by rewrite Hc).
    rewrite Hn in Hs. by destruct (windows_identity_path_bytes uc).
  - apply andb_true_iff in Hs as [_ Hs]. destruct (Hmatch vc ue Hl Hs) as (w & Hw & Hwl & Hwn).
    exists w. pose proof Hwl as (Hwc & _ & _)%lexical_iff. rewrite Hw.
    split_and!; [done|by left|done|done].
  - apply andb_true_iff in Hs as [Hc Hs]. apply bool_decide_eq_true in Hc.
    exists uc. assert (Huc : lexical Posix uc).
    { unfold special_path_matches_path_uri in Hs. split; [done|]. destruct ve; try done.
      - apply andb_true_iff in Hs as [Hs _]. unfold is_some, is_none in Hs.
        destruct (lexical_depth uc) as [d|]; [by exists d|done].
      - rewrite !andb_true_iff, !bool_decide_eq_true in Hs. destruct Hs as ((_ & ?) & _). by exists 1. }
    destruct (Hmatch ve uc Huc Hs) as (w & Hw & Hwl & Hwn). rewrite Hw in Hu.
    destruct Hu as [->|[]]. by split_and!.
  - assert (vc = ve) as ->.
    { destruct vc, ve; simpl in Hs; try done; rewrite ?andb_true_iff, ?bool_decide_eq_true in Hs;
        naive_solver. }
    exists u. rewrite Hcwd in Hcu. by split_and!.
Qed.

Lemma posix_resolvable context path :
  posix_context context -> lexical Posix path -> resolvable context path.
Proof.
  intros [_ Hl] Hp. exists Posix. pose proof Hl as (Hc & _ & _)%lexical_iff.
  pose proof Hp as (Hpc & _ & _)%lexical_iff. unfold is_some.
  by rewrite (names_depth Posix _ Hl), (names_depth Posix _ Hp).
Qed.

Lemma same_names_applies path u v :
  lexical Posix path -> lexical Posix u -> lexical Posix v -> names u = names v ->
  uri_starts_with path u = true -> uri_starts_with path v = true.
Proof. intros Hp Hu Hv Hn. rewrite !starts_with_posix by done. by rewrite Hn. Qed.

(** A lexical root that applies to a POSIX path is a POSIX path. *)
Lemma applies_lexical self context path u a d :
  posix_context context -> applies self context path u a d -> lexical Posix u.
Proof.
  intros [_ (Hc & _ & _)%lexical_iff] (Hd & _ & e & _ & [Hu _] & _)%applies_iff.
  split; [congruence|by exists d].
Qed.

(** An entry that does not narrow write access and is not a write entry has a
    write entry for the same place. *)
Lemma override_applies self context path e u :
  posix_context context -> lexical Posix path ->
  has_root_access self can_write = true ->
  has_write_narrowing_entries self Posix = false -> is_restricted self = true ->
  In e (entries self) -> access e <> Write ->
  applies self context path u (access e) (length (names u)) -> stands_for context e u ->
  exists v, applies self context path v Write (length (names u)) /\ access e = Read.
Proof.
  intros Hctx Hp Hroot Hnarrow Hres He Ha Happ Hst.
  pose proof (applies_lexical self context path u _ _ Hctx Happ) as Hl.
  unfold has_write_narrowing_entries in Hnarrow. rewrite Hres in Hnarrow. simpl in Hnarrow.
  assert (Hn : narrows_write self Posix e = false).
  { destruct (narrows_write self Posix e) eqn:E; [|done]. rewrite <- Hnarrow. symmetry.
    apply existsb_exists. by exists e. }
  assert (Hover : forall candidate, In candidate (entries self) -> access candidate = Write ->
            file_system_paths_share_target (entry_path candidate) (entry_path e) Posix = true ->
            exists v, applies self context path v Write (length (names u))).
  { intros candidate Hcand Hw Hs.
    destruct (share_target_names context e candidate u Hctx Hs Hst Hl) as (v & Hv & Hvl & Hvn).
    exists v. apply applies_iff in Happ as (_ & Hsw & _). apply applies_iff.
    rewrite (names_depth Posix v Hvl), Hvn. split_and!; [done| |by exists candidate].
    by apply (same_names_applies path u v). }
  assert (Hsame : has_same_target_write_override self e Posix = true ->
            exists v, applies self context path v Write (length (names u)) /\ access e = Read).
  { intros Hs. apply existsb_exists in Hs as (candidate & Hcand & Hs).
    rewrite !andb_true_iff, Nat.ltb_lt in Hs. destruct Hs as ((Hw & Hlt) & Hs).
    apply bool_decide_eq_true in Hw. rewrite Hw in Hlt.
    destruct (Hover candidate Hcand Hw Hs) as [v Hv]. exists v. split; [done|].
    destruct (access e); simpl in Hlt; [done|done|lia]. }
  unfold narrows_write in Hn. unfold can_write in Hn. rewrite bool_decide_false in Hn by done.
  destruct Hst as [_ Hst].
  destruct (entry_path e) as [w|w|[| |sub| | |w sub]] eqn:Epath; simpl in Hn, Hst; try done;
    try (apply negb_false_iff in Hn; by apply Hsame).
  apply bool_decide_eq_false in Hn. unfold has_root_access in Hroot. rewrite Hres in Hroot.
  apply existsb_exists in Hroot as (candidate & Hcand & Hw).
  destruct (entry_path candidate) as [|?|[| | | | |]] eqn:Ec; try done.
  apply bool_decide_eq_true in Hw. destruct (Hover candidate Hcand Hw) as [v Hv]; [by rewrite Ec|].
  exists v. split; [done|]. by destruct (access e).
Qed.

Lemma full_disk_write self context path :
  posix_context context -> lexical Posix path -> kind self = Restricted ->
  is_some (with_depths (resolved_entries self context)) = true ->
  has_full_disk_write_access_with_context self context = true ->
  resolve_access self path context = Write.
Proof.
  intros Hctx Hp Hk Hdepths Hfull. pose proof Hctx as [_ (Hc & _ & _)%lexical_iff].
  unfold has_full_disk_write_access_with_context, has_full_disk_write_access_for_convention in Hfull.
  rewrite Hk, Hc in Hfull. apply andb_true_iff in Hfull as [Hroot Hnarrow].
  apply negb_true_iff in Hnarrow. assert (Hres : is_restricted self = true) by (by apply bool_decide_eq_true).
  destruct (with_depths (resolved_entries self context)) as [l|] eqn:Hl; [|done].
  destruct (posix_root context Hctx) as (r & Hr & Hrl & Hrn).
  pose proof Hrl as (Hrc & _ & _)%lexical_iff.
  destruct (resolve_access_decides self context path l Hk) as (u & a & d & [Happ Hmax] & Hacc);
    [by apply posix_resolvable|done| |].
  { unfold has_root_access in Hroot. rewrite Hres in Hroot.
    apply existsb_exists in Hroot as (candidate & Hcand & Hw).
    destruct (entry_path candidate) as [|?|[| | | | |]] eqn:Ec; try done.
    exists r, (access candidate), 0. apply applies_iff. rewrite (names_depth Posix r Hrl), Hrn.
    split_and!; [done| |].
    - apply starts_with_posix; [done..|]. rewrite Hrn. apply prefix_nil.
    - exists candidate. split; [done|]. split; [|done]. unfold stands_for.
      rewrite Ec, Hr, Hc, Hrc. by split; [|left]. }
  rewrite Hacc. clear Hacc. destruct (decide (a = Write)) as [->|Ha]; [done|]. exfalso.
  pose proof (applies_lexical self context path u a d Hctx Happ) as Hul.
  pose proof Happ as (Hd & _ & e & He & Hst & Hae)%applies_iff.
  rewrite (names_depth Posix u Hul) in Hd. injection Hd as <-. subst a.
  destruct (override_applies self context path e u) as (v & Hv & Hread); try done.
  destruct (Hmax _ _ _ Hv) as [|[_ Hle]]; [lia|]. rewrite Hread in Hle. simpl in Hle. lia.
Qed.

End policies.

(** * Properties of sandbox policies

    The safety theorems about SandboxPolicy.v, with witnesses on the file URLs
    of FileUrls.v, and the divergences modelling showed. *)

Section policies.
Context {Url : Type} `{UrlLaws Url} `{Unreachable Url}.
Implicit Types (self existing : @FileSystemSandboxPolicy Url) (context : @PolicyContext Url).
Implicit Types (u v path root : Url).

(** ** Metadata directories *)

Lemma protected_under_Some root path ns p name :
  protected_under root path ns = Some (p, name) ->
  In name ns /\ join_descendant root name = Ok p /\ uri_starts_with path p = true.
Proof.
  induction ns as [|n ns IH]; [done|]. simpl. destruct (join_descendant root n) as [q|] eqn:E.
  - destruct (uri_starts_with path q) eqn:Es; [intros [= <- <-]; by split_and!; [left|..]|].
    intros Hp. destruct (IH Hp) as (? & ? & ?). by split_and!; [right|..].
  - intros Hp. destruct (IH Hp) as (? & ? & ?). by split_and!; [right|..].
Qed.

Lemma protected_under_None root path ns :
  protected_under root path ns = None ->
  forall name p, In name ns -> join_descendant root name = Ok p -> uri_starts_with path p = false.
Proof.
  induction ns as [|n ns IH]; [done|]. simpl. intros Hn name p [<-|Hin] Hp.
  - rewrite Hp in Hn. by destruct (uri_starts_with path p).
  - destruct (join_descendant root n) as [q|]; [|by eapply IH].
    destruct (uri_starts_with path q); [done|by eapply IH].
Qed.

(** [p] is a metadata directory of a writable root and contains [path]. *)
Definition protects (l : list (Url * FileSystemAccessMode)) path (p : Url) : Prop :=
  exists root name, In (root, Write) l /\ In name PROTECTED_METADATA_PATH_NAMES
    /\ join_descendant root name = Ok p /\ uri_starts_with path p = true.

Lemma first_protected_Some path l p name :
  first_protected path l = Some (p, name) -> protects l path p /\ In name PROTECTED_METADATA_PATH_NAMES.
Proof.
  induction l as [|[root a] l IH]; [done|]. cbn [first_protected].
  assert (Hrest : first_protected path l = Some (p, name) ->
            protects ((root, a) :: l) path p /\ In name PROTECTED_METADATA_PATH_NAMES).
  { intros Hf. destruct (IH Hf) as [(r & n & Hr & ?) ?]. split; [|done]. exists r, n.
    by split; [right|]. }
  destruct (can_write a) eqn:Ha; [|done]. apply bool_decide_eq_true in Ha as ->.
  destruct (protected_under root path PROTECTED_METADATA_PATH_NAMES) as [[q n]|] eqn:E; [|done].
  intros [= <- <-]. apply protected_under_Some in E as (Hin & Hj & Hs). split; [|done].
  exists root, n. by split_and!; [left|..].
Qed.

Lemma first_protected_None path l :
  first_protected path l = None -> forall p, ~ protects l path p.
Proof.
  induction l as [|[root a] l IH]; [by intros _ p (r & n & [] & _)|]. cbn [first_protected].
  intros Hf p (r & n & [[= -> ->]|Hr] & Hn & Hj & Hs).
  - change (can_write Write) with true in Hf. cbn iota in Hf.
    destruct (protected_under r path PROTECTED_METADATA_PATH_NAMES) as [[q m]|] eqn:E; [done|].
    rewrite (protected_under_None _ _ _ E n p Hn Hj) in Hs. done.
  - assert (Hl : first_protected path l = None).
    { destruct (can_write a); [|done].
      by destruct (protected_under root path PROTECTED_METADATA_PATH_NAMES) as [[q m]|]. }
    apply (IH Hl p). by exists r, n.
Qed.

(** C34: Under a restricted policy that does not give whole-disk write access, a
    write is allowed only by a write entry that contains the path and decides
    it, and a path in a metadata directory ([.git], [.agents], [.codex]) of a
    writable root only when some write entry that contains the path points into
    such a directory.  Without a metadata directory around it, the write entry
    is enough. *)
Theorem write_needs_grant self path context :
  kind self = Restricted -> has_full_disk_write_access_with_context self context = false ->
  let l := resolved_entries self context in
  (can_write_path self path context = true ->
     (exists root d, decides self context path root Write d)
     /\ forall p, protects l path p ->
          exists q root, protects l path q /\ In (root, Write) l
            /\ uri_starts_with path root = true /\ uri_starts_with root q = true)
  /\ (resolve_access self path context = Write -> (forall p, ~ protects l path p) ->
      can_write_path self path context = true).
Proof.
  intros Hk Hfull l. unfold can_write_path. rewrite Hfull. cbn [orb]. split.
  - destruct (can_write (resolve_access self path context)) eqn:Hw; [|done].
    apply bool_decide_eq_true in Hw. intros Hm. split.
    + by apply (resolve_access_granted self context path Write) in Hw as (_ & _ & ?).
    + intros p Hp. unfold metadata_write_denial, is_restricted in Hm. rewrite Hk in Hm.
      fold l in Hm. cbn [negb bool_decide] in Hm.
      destruct (first_protected path l) as [[q name]|] eqn:E.
      * apply first_protected_Some in E as [Hq _]. destruct (grants_metadata path q l) eqn:Eg; [|done].
        apply existsb_exists in Eg as ([root a] & Hin & Hg). simpl in Hg.
        rewrite !andb_true_iff in Hg. destruct Hg as ((Ha & Hs) & Hs').
        apply bool_decide_eq_true in Ha as ->. by exists q, root.
      * by destruct (first_protected_None path l E p).
  - intros -> Hp. change (can_write Write) with true. cbn [negb].
    unfold metadata_write_denial. destruct (negb (is_restricted self)); [done|]. fold l.
    destruct (first_protected path l) as [[q name]|] eqn:E; [|done].
    apply first_protected_Some in E as [Hq _]. by apply Hp in Hq.
Qed.

(** C33: A restricted policy gives a path the access mode of its most specific
    entry: the deepest root that contains the path, and among equally deep
    ones the mode that comes first when entries conflict: denial, then write,
    then read (an order of precedence, not of breadth).  Read or write
    access is never given otherwise: not without such an entry, not across
    path conventions, not when a root or the path has no unambiguous
    components. *)
Theorem resolve_access_spec self path context a :
  kind self = Restricted -> a <> Deny ->
  resolve_access self path context = a <->
  resolvable context path
  /\ is_some (with_depths (resolved_entries self context)) = true
  /\ exists root d, decides self context path root a d.
Proof. apply resolve_access_granted. Qed.

(** On an executor with POSIX paths, when a policy is said to give
    whole-disk write access, every path is writable: no entry, whatever its
    mode, takes access away from any path. *)
Theorem full_disk_write_sound self path context :
  posix_context context -> lexical Posix path ->
  is_some (with_depths (resolved_entries self context)) = true ->
  has_full_disk_write_access_with_context self context = true ->
  resolve_access self path context = Write /\ can_write_path self path context = true.
Proof.
  intros Hctx Hp Hd Hfull. assert (Hw : resolve_access self path context = Write).
  { destruct (kind self) eqn:Hk; [by apply full_disk_write|..];
      unfold resolve_access; by rewrite Hk. }
  split; [done|]. unfold can_write_path. by rewrite Hw, Hfull.
Qed.

(** ** Preserved denials *)

Lemma entry_eq_refl (e : @FileSystemSandboxEntry Url) : entry_eq e e = true.
Proof.
  unfold entry_eq, path_eq. rewrite !bool_decide_true by done. rewrite !andb_true_r.
  destruct (entry_path e); [apply uri_eq_refl|by apply bool_decide_eq_true..].
Qed.

Lemma push_missing_all (l base : list (@FileSystemSandboxEntry Url)) :
  exists extra, fold_left push_missing l base = base ++ extra
    /\ (forall e, In e extra -> In e l)
    /\ forall e, In e l -> contains_entry (base ++ extra) e = true.
Proof.
  revert base. induction l as [|e l IH]; intros base.
  { exists []. rewrite app_nil_r. split_and!; [done|done|by intros e []]. }
  cbn [fold_left]. destruct (IH (push_missing base e)) as (extra & Hf & Hin & Hc).
  unfold push_missing in *. destruct (contains_entry base e) eqn:E.
  - exists extra. split_and!; [done|by right; apply Hin|]. intros f [<-|Hf']; [|by apply Hc].
    unfold contains_entry in *. by rewrite existsb_app, E.
  - exists (e :: extra). rewrite <- app_assoc in Hf, Hc.
    split_and!; [done|intros f [<-|?]; [by left|right; by apply Hin]|].
    intros f [<-|Hf']; [|by apply Hc].
    unfold contains_entry. rewrite existsb_app. cbn [existsb].
    rewrite entry_eq_refl. by rewrite orb_true_r.
Qed.

(** The policy whose entries the denials are appended to. *)
Definition allow_side self existing : @FileSystemSandboxPolicy Url :=
  if bool_decide (kind self = Unrestricted) && existsb is_deny (entries existing)
  then restricted [new_entry (Special Root) Write] else self.

Lemma some_denied (l : list (@FileSystemSandboxEntry Url)) :
  negb (is_empty (filter (fun e => is_deny e = true) l)) = existsb is_deny l.
Proof.
  induction l as [|e l IH]; [done|]. rewrite filter_cons. simpl.
  destruct (is_deny e) eqn:E; case_decide; done.
Qed.

Lemma preserve_entries self existing :
  let p := preserve_deny_read_restrictions_from self existing in
  kind p = kind (allow_side self existing)
  /\ (kind p = Restricted ->
      exists extra, entries p = entries (allow_side self existing) ++ extra
        /\ (forall e, In e extra -> access e = Deny)
        /\ forall e, In e (entries existing) -> access e = Deny ->
             contains_entry (entries p) e = true).
Proof.
  unfold preserve_deny_read_restrictions_from, allow_side.
  set (denied := filter (fun e => is_deny e = true) (entries existing)).
  assert (Hd : forall e, In e denied <-> In e (entries existing) /\ access e = Deny).
  { intros e. unfold denied. rewrite <- !list_elem_of_In, list_elem_of_filter. unfold is_deny.
    rewrite bool_decide_eq_true. tauto. }
  rewrite (some_denied (entries existing) : negb (is_empty denied) = _). set (base := if _ && _ then _ else self). clearbody base.
  destruct (is_restricted base) eqn:Hr; cbn [negb].
  - split; [done|]. intros _. destruct (push_missing_all denied (entries base)) as (extra & Hf & Hin & Hc).
    exists extra. cbn [entries]. rewrite Hf. split_and!; [done|by intros e [_ ?]%Hin%Hd|].
    intros e He Ha. apply Hc, Hd. by split.
  - split; [done|]. intros Hk. unfold is_restricted in Hr. rewrite Hk in Hr. done.
Qed.

Lemma resolved_entries_app (l m : list (@FileSystemSandboxEntry Url)) self context :
  entries self = l ++ m ->
  resolved_entries self context
  = concat (map (entry_targets context) l) ++ concat (map (entry_targets context) m).
Proof. intros He. unfold resolved_entries. by rewrite He, map_app, concat_app. Qed.

Lemma entry_eq_stands_for context (e f : @FileSystemSandboxEntry Url) u :
  path_convention (cwd context) = Some Posix -> entry_eq f e = true ->
  stands_for context e u -> stands_for context f u /\ access f = access e.
Proof.
  intros Hc. unfold entry_eq. rewrite !andb_true_iff, !bool_decide_eq_true.
  intros ((Hp & Ha) & _) [Hcu Hu]. split; [|done]. split; [done|].
  destruct (entry_path f), (entry_path e); simpl in Hp; try done;
    try (apply bool_decide_eq_true in Hp; by subst).
  subst u. unfold uri_eq in Hp. case_bool_decide as Heq; [done|].
  assert (windows_identity_path_bytes path0 = None) as Hn
    by (unfold windows_identity_path_bytes; by rewrite Hcu, Hc).
  rewrite Hn in Hp. by destruct (windows_identity_path_bytes path).
Qed.

(** Appending denials to a policy only takes access away. *)
Lemma extended_granted p allowed context path extra :
  kind p = Restricted -> kind allowed = Restricted ->
  entries p = entries allowed ++ extra -> (forall e, In e extra -> access e = Deny) ->
  resolve_access p path context <> Deny ->
  resolvable context path
  /\ is_some (with_depths (resolved_entries allowed context)) = true
  /\ exists root d, decides p context path root (resolve_access p path context) d
       /\ decides allowed context path root (resolve_access p path context) d.
Proof.
  intros Hk Hkind He Hextra Hne.
  destruct (proj1 (resolve_access_granted p context path _ Hk Hne) eq_refl)
    as (Hr & Hd & root & d & Hdec). split; [done|]. split.
  - rewrite (resolved_entries_app _ _ p context He) in Hd.
    destruct (with_depths (_ ++ _)) as [l|] eqn:El; [|done].
    apply with_depths_app in El as (m1 & m2 & Hm1 & _ & _). unfold resolved_entries. by rewrite Hm1.
  - exists root, d. split; [done|]. destruct Hdec as [Happ Hmax].
    assert (Hsub : forall root' a' d', applies allowed context path root' a' d' ->
              applies p context path root' a' d').
    { intros r' a' d' (Hd' & Hs' & e & Hin & Hst & Ha)%applies_iff. apply applies_iff.
      split_and!; [done|done|]. exists e. split; [|done]. rewrite He. apply in_app_iff. by left. }
    split; [|intros r' a' d' Happ'; by apply (Hmax r' a' d'), Hsub].
    apply applies_iff in Happ as (Hd' & Hs' & e & Hin & Hst & Ha). apply applies_iff.
    split_and!; [done|done|]. exists e. split; [|done]. rewrite He, in_app_iff in Hin.
    destruct Hin as [|Hin]; [done|]. apply Hextra in Hin. congruence.
Qed.

Lemma preserve_left_alone self existing :
  kind (allow_side self existing) <> Restricted ->
  preserve_deny_read_restrictions_from self existing = self
  /\ (kind self = ExternalSandbox \/ forall e, In e (entries existing) -> access e <> Deny).
Proof.
  unfold allow_side.
  destruct (bool_decide (kind self = Unrestricted) && existsb is_deny (entries existing)) eqn:E;
    [done|]. intros Hnr. split.
  - unfold preserve_deny_read_restrictions_from.
    assert (is_restricted self = false) as Hr by (by apply bool_decide_eq_false).
    by rewrite some_denied, E, Hr.
  - destruct (kind self) eqn:Hk; [done|right|by left]. intros e He Ha.
    rewrite bool_decide_true in E by done. simpl in E.
    assert (existsb is_deny (entries existing) = true); [|congruence].
    apply existsb_exists. exists e. split; [done|]. by apply bool_decide_eq_true.
Qed.

(** Replacing the allow side of a policy keeps the denials of the old one.
    When the result is a restricted policy, every denied entry is among its
    entries, access it grants is access the new allow side grants, and on
    POSIX a path under a preserved denial is readable only through an entry of
    the allow side that is strictly deeper.  Only an external sandbox, or an
    unrestricted policy with nothing to preserve, is left as it is. *)
Theorem preserved_denials self existing context path :
  let p := preserve_deny_read_restrictions_from self existing in
  let allowed := allow_side self existing in
  (kind p <> Restricted -> p = self
     /\ (kind self = ExternalSandbox \/ forall e, In e (entries existing) -> access e <> Deny))
  /\ (kind p = Restricted ->
      (forall e, In e (entries existing) -> access e = Deny -> contains_entry (entries p) e = true)
      /\ (resolve_access p path context <> Deny ->
          resolve_access p path context = resolve_access allowed path context)
      /\ (path_convention (cwd context) = Some Posix ->
          resolve_access p path context <> Deny ->
          forall e u d, In e (entries existing) -> access e = Deny -> stands_for context e u ->
            lexical_depth u = Some d -> uri_starts_with path u = true ->
            exists root a d', decides allowed context path root a d' /\ d < d')).
Proof.
  intros p allowed. destruct (preserve_entries self existing) as [Hkind Hrest].
  fold p allowed in Hkind, Hrest. split.
  { intros Hnk. assert (Hnr : kind allowed <> Restricted) by congruence.
    by apply preserve_left_alone. }
  intros Hk. destruct (Hrest Hk) as (extra & He & Hextra & Hcontains).
  rewrite Hk in Hkind. symmetry in Hkind.
  pose proof (extended_granted p allowed context path extra Hk Hkind He Hextra) as Hgrant.
  split_and!; [done| |].
  - intros Hne. destruct (Hgrant Hne) as (Hr & Hd & root & d & _ & Hdec). symmetry.
    apply (resolve_access_granted allowed context path); [done|done|]. split_and!; [done..|].
    by exists root, d.
  - intros Hc Hne e u d Hin Ha Hst Hd Hs.
    destruct (Hgrant Hne) as (_ & _ & root & d' & [_ Hmax] & Hdec).
    exists root, (resolve_access p path context), d'. split; [done|].
    assert (Hf : contains_entry (entries p) e = true) by (by apply Hcontains).
    apply existsb_exists in Hf as (f & Hf & Heq).
    destruct (entry_eq_stands_for context e f u Hc Heq Hst) as [Hstf Haf].
    assert (Happ : applies p context path u Deny d).
    { apply applies_iff. split_and!; [done|done|]. exists f. by rewrite Haf. }
    destruct (Hmax _ _ _ Happ) as [|[-> Hle]]; [done|]. exfalso. simpl in Hle.
    destruct (resolve_access p path context); simpl in Hle; try lia. done.
Qed.

End policies.
