(* ===== verification/WorkspacePolicy.v ===== *)
(** * Workspace-write policies (protocol/src/permissions.rs, permissions/target.rs)

    Replacing symbolic workspace roots by concrete paths never grants more than
    the symbols did, and the default workspace-write policy keeps the metadata
    directories of a workspace from being written. *)

From S2P Require Import Prelude RustStr Utf8 PatchTypes ExecutorFs PathUri ApiPath PathUriSpec FileUrls PathUriProps SandboxPolicy SandboxPolicyProps.

Section policies.
Context {Url : Type} `{UrlLaws Url} `{Unreachable Url}.
Implicit Types (self : @FileSystemSandboxPolicy Url) (context : @PolicyContext Url).
Implicit Types (u v path root : Url) (e o : @FileSystemSandboxEntry Url).

(** ** Materialized entries *)

Lemma materialize_entries_In roots l l' e :
  materialize_entries roots l = Some l' -> In e l' ->
  (In e l /\ project_roots_subpath (entry_path e) = None)
  \/ exists o subpath is_glob root, In o l /\ In root roots
       /\ project_roots_subpath (entry_path o) = Some (subpath, is_glob)
       /\ materialized_entry o subpath is_glob root = Some e.
Proof.
  revert l'. induction l as [|o l IH]; intros l'; simpl; [by intros [= <-]|].
  assert (Hmore : forall l1, materialize_entries roots l = Some l1 -> In e l1 ->
    (In e (o :: l) /\ project_roots_subpath (entry_path e) = None)
    \/ exists o' subpath is_glob root, In o' (o :: l) /\ In root roots
         /\ project_roots_subpath (entry_path o') = Some (subpath, is_glob)
         /\ materialized_entry o' subpath is_glob root = Some e).
  { intros l1 Hl1 He. destruct (IH l1 Hl1 He) as [[? ?]|(o' & s & g & r & ? & ?)].
    - left. by split; [right|].
    - right. exists o', s, g, r. by split; [right|]. }
  destruct (project_roots_subpath (entry_path o)) as [[subpath is_glob]|] eqn:Eo.
  - destruct (is_home_relative_deny roots o subpath); [done|].
    destruct (materialize_entries roots l) as [l1|]; [|done]. simpl. intros [= <-].
    rewrite in_app_iff. intros [Hin|Hin]; [|by apply (Hmore l1)]. right.
    apply list_elem_of_In, list_elem_of_omap in Hin as (root & Hroot & Hm).
    exists o, subpath, is_glob, root. split; [by left|]. by rewrite <- list_elem_of_In.
  - destruct (materialize_entries roots l) as [l1|]; [|done]. simpl. intros [= <-].
    intros [<-|Hin]; [left; by split; [left|]|by apply (Hmore l1)].
Qed.

Lemma scoped_join root subpath v :
  resolve_scoped_workspace_path root subpath = Some v ->
  join_uri root subpath = Ok v /\ uri_starts_with v root = true.
Proof.
  unfold resolve_scoped_workspace_path. destruct (path_convention root); [|done].
  destruct (_ || _); [done|]. destruct (join_uri root subpath) as [w|]; [|done].
  destruct (uri_starts_with w root) eqn:E; [|done]. by intros [= <-].
Qed.

(** What an entry for one root becomes: a path in the root that the symbol
    stood for, a glob, or a denial of the whole root. *)
Lemma materialized_cases o subpath is_glob root e :
  materialized_entry o subpath is_glob root = Some e ->
  (exists v, entry_path e = Path v /\ access e = access o /\ is_glob = false
     /\ uri_starts_with v root = true
     /\ match subpath with None => v = root | Some s => join_uri root s = Ok v end)
  \/ (exists pattern, entry_path e = GlobPattern pattern /\ access e = access o)
  \/ entry_path e = Path root /\ access e = Deny /\ access o <> Write.
Proof.
  unfold materialized_entry. intros Hm.
  destruct (if _ && _ then None else _) as [v|] eqn:Ep.
  - injection Hm as <-. simpl. destruct is_glob; [right; left; by eexists|left].
    simpl in Ep. exists v. split_and!; try done; destruct subpath as [s|].
    + by apply scoped_join in Ep as [_ ?].
    + injection Ep as ->. apply starts_with_refl.
    + by apply scoped_join in Ep as [? _].
    + by injection Ep.
  - destruct (can_write (access o)) eqn:Hw; [done|]. simpl in Hm. injection Hm as <-.
    right. right. split_and!; [done|done|]. by apply bool_decide_eq_false in Hw.
Qed.

(** The context in which the symbols stand for these roots. *)
Definition with_roots context (roots : list Url) : @PolicyContext Url :=
  mkContext (cwd context) roots (user_home_dir context) (temporary_directories context).

Lemma special_targets_with_roots context roots value :
  (forall s, value <> ProjectRoots s) ->
  special_targets (with_roots context roots) value = special_targets context value.
Proof. intros Hv. destruct value; try done. by destruct (Hv subpath). Qed.

(** Replacing the workspace-root symbols of a policy by paths never widens
    it.  Every path the result grants read or write access to is one that the
    same policy granted in that mode when its symbols stood for those roots;
    paths that cannot be resolved inside their root become denials of the
    whole root or are dropped, and a home-relative denial of unknown target
    empties the policy. *)
Theorem materialize_grants self roots context u a :
  kind self = Restricted -> a <> Deny ->
  In (u, a) (resolved_entries (materialize_project_roots self roots) context) ->
  In (u, a) (resolved_entries self (with_roots context roots))
  /\ forall e, In e (entries (materialize_project_roots self roots)) ->
       forall s, entry_path e <> Special (ProjectRoots s).
Proof.
  intros Hk Ha. unfold materialize_project_roots, try_materialize_project_roots.
  destruct (materialize_entries roots (entries self)) as [l|] eqn:El; [|done]. simpl.
  intros (e & He & [Hst ->]%entry_targets_In)%resolved_entries_In. split.
  - apply resolved_entries_In. simpl in He.
    destruct (materialize_entries_In _ _ _ _ El He)
      as [[Hin Hsub]|(o & subpath & is_glob & root & Hin & Hroot & Hsub & Hm)].
    + exists e. split; [done|]. apply entry_targets_In. split; [|done].
      destruct Hst as [Hc Hu]. split; [done|]. destruct (entry_path e) as [| |value]; try done.
      rewrite special_targets_with_roots; [done|]. by intros s ->.
    + exists o. split; [done|]. apply entry_targets_In. destruct Hst as [Hc Hu].
      destruct (materialized_cases _ _ _ _ _ Hm)
        as [(v & Hv & Hacc & -> & _ & Hj)|[(pattern & Hp & _)|(_ & Hd & _)]];
        [|by rewrite Hp in Hu|done].
      rewrite Hv in Hu. subst v. split; [|done]. split; [done|].
      destruct (entry_path o) as [|pat|[| |s| | |]]; cbn [project_roots_subpath] in Hsub; try done;
        [by destruct (strip_prefix PROJECT_ROOTS_GLOB_PATTERN_PREFIX pat)|].
      injection Hsub as <-. apply list_elem_of_In, list_elem_of_omap. exists root.
      split; [by apply list_elem_of_In|]. destruct s as [s|]; [by rewrite Hj|by rewrite Hj].
  - simpl. intros f Hf s Hs. destruct (materialize_entries_In _ _ _ _ El Hf)
      as [[_ Hsub]|(o & subpath & is_glob & root & _ & _ & _ & Hm)]; [by rewrite Hs in Hsub|].
    destruct (materialized_cases _ _ _ _ _ Hm) as [(v & Hv & _)|[(p & Hp & _)|(Hp & _)]]; congruence.
Qed.

(** ** The default workspace-write policy *)

Definition default_entries (exclude_tmpdir_env_var exclude_slash_tmp : bool)
  : list (@FileSystemSandboxEntry Url) :=
  [new_entry (Special Root) Read; new_entry (Special (ProjectRoots None)) Write]
  ++ (if exclude_slash_tmp then [] else [new_entry (Special SlashTmp) Write])
  ++ (if exclude_tmpdir_env_var then [] else [new_entry (Special Tmpdir) Write])
  ++ map (fun name => skip_missing_path (Special (ProjectRoots (Some name))) Read)
       PROTECTED_METADATA_PATH_NAMES.

Lemma workspace_write_entries native et es :
  workspace_write (Url := Url) native et es = restricted (default_entries et es).
Proof. by destruct et, es. Qed.

Lemma entries_with_roots native et es roots :
  entries (workspace_write_with_path_uris (Url := Url) native roots et es)
  = match materialize_entries roots (default_entries et es) with
    | Some l => fold_left push_missing l (default_entries et es)
    | None => []
    end.
Proof.
  unfold workspace_write_with_path_uris, with_materialized_project_roots,
    try_materialize_project_roots. rewrite workspace_write_entries.
  generalize (default_entries et es). intros base. simpl. by destruct (materialize_entries roots base).
Qed.

(** The write entries of the policy with concrete roots. *)
Lemma workspace_write_entry native et es roots e :
  In e (entries (workspace_write_with_path_uris native roots et es)) -> access e = Write ->
  entry_path e = Special (ProjectRoots None) \/ entry_path e = Special SlashTmp
  \/ entry_path e = Special Tmpdir \/ exists root, In root roots /\ entry_path e = Path root.
Proof.
  assert (Hdefault : forall o, In o (default_entries et es) -> access o = Write ->
    entry_path o = Special (ProjectRoots None) \/ entry_path o = Special SlashTmp
    \/ entry_path o = Special Tmpdir).
  { intros o Ho Ha. unfold default_entries in Ho. destruct et, es; simpl in Ho;
      repeat (destruct Ho as [<-|Ho]; [simpl in *; first [done|tauto]|]); done. }
  rewrite entries_with_roots.
  destruct (materialize_entries roots (default_entries et es)) as [l|] eqn:El; [|done].
  destruct (push_missing_all l (default_entries et es)) as (extra & -> & Hextra & _).
  rewrite in_app_iff. intros [He|He] Ha; [destruct (Hdefault e He Ha) as [|[|]]; tauto|].
  apply Hextra in He. destruct (materialize_entries_In _ _ _ _ El He)
    as [[Hin _]|(o & subpath & is_glob & root & Hin & Hroot & Hsub & Hm)].
  { destruct (Hdefault e Hin Ha) as [|[|]]; tauto. }
  destruct (materialized_cases _ _ _ _ _ Hm)
    as [(v & Hv & Hacc & -> & _ & Hj)|[(p & _ & Hacc)|(_ & Hd & _)]]; [| |congruence].
  - rewrite Hacc in Ha. destruct (Hdefault o Hin Ha) as [Ho|[Ho|Ho]]; rewrite Ho in Hsub; try done.
    injection Hsub as <-. subst v. right. right. right. by exists root.
  - rewrite Hacc in Ha. destruct (Hdefault o Hin Ha) as [Ho|[Ho|Ho]]; rewrite Ho in Hsub; try done.
    injection Hsub as <- <-. unfold materialized_entry in Hm. simpl in Hm. injection Hm as <-.
    right. right. right. by exists root.
Qed.

Lemma workspace_metadata_entry native et es roots name :
  entries (workspace_write_with_path_uris (Url := Url) native roots et es) <> [] ->
  In name PROTECTED_METADATA_PATH_NAMES ->
  In (skip_missing_path (Special (ProjectRoots (Some name))) Read)
    (entries (workspace_write_with_path_uris (Url := Url) native roots et es)).
Proof.
  rewrite entries_with_roots.
  destruct (materialize_entries roots (default_entries et es)) as [l|]; [|done].
  destruct (push_missing_all l (default_entries et es)) as (extra & -> & _ & _).
  intros _ Hname. apply in_app_iff. left. unfold default_entries. rewrite !in_app_iff.
  right. right. right. by apply (in_map (fun n => skip_missing_path (Special (ProjectRoots (Some n))) Read)).
Qed.

Lemma metadata_directory root name :
  valid_uri root -> lexical Posix root -> tidy root -> In name PROTECTED_METADATA_PATH_NAMES ->
  exists q, join_uri root name = Ok q /\ lexical Posix q /\ names q = names root ++ [encode name].
Proof.
  intros Hv Hl Ht Hname.
  assert (Hn : starts_with name [FORWARD_SLASH] = false /\ name <> []
               /\ split_char FORWARD_SLASH name = [name] /\ ascii_name name = true).
  { by repeat (destruct Hname as [<-|Hname]; [by split_and!|]). }
  destruct Hn as (Hs & Hne & Hsplit & Hascii).
  destruct (path_join_posix root name Hv Hl Ht Hne Hs) as (q & Hq & _ & Hql & Hqn).
  { rewrite Hsplit. apply ascii_pieces. simpl. unfold ascii_piece. by rewrite Hascii, orb_true_r. }
  exists q. split_and!; [done|done|]. rewrite Hqn. unfold resolve_names. rewrite Hsplit. simpl.
  unfold resolve_step. apply ascii_name_ordinary in Hascii as (_ & Hd & Hdd & _).
  rewrite !bool_decide_false by done. by destruct name.
Qed.

(** C36: On an executor with POSIX paths the default workspace-write policy, with
    its roots made concrete, never allows writing in the [.git], [.agents] or
    [.codex] directory of a workspace root that is an ordinary path without
    empty names: such a path is writable only when a temporary directory or
    another root lies inside that directory. *)
Theorem workspace_metadata_protected native et es context w name q path :
  posix_context context -> In w (workspace_roots context) ->
  valid_uri w -> lexical Posix w -> tidy w ->
  In name PROTECTED_METADATA_PATH_NAMES -> join_uri w name = Ok q ->
  uri_starts_with path q = true ->
  (forall v d, In v (workspace_roots context ++ special_targets context SlashTmp
                     ++ special_targets context Tmpdir) ->
     uri_starts_with path v = true -> lexical_depth v = Some d -> d <= length (names w)) ->
  can_write_path
    (workspace_write_with_path_uris native (workspace_roots context) et es) path context = false.
Proof.
  intros Hctx Hw Hv Hl Ht Hname Hq Hs Hdeep.
  set (p := workspace_write_with_path_uris native (workspace_roots context) et es).
  assert (Hk : kind p = Restricted).
  { unfold p, workspace_write_with_path_uris, with_materialized_project_roots.
    rewrite workspace_write_entries. by destruct (try_materialize_project_roots _ _). }
  unfold can_write_path. destruct (can_write (resolve_access p path context)) eqn:E; [|done].
  apply bool_decide_eq_true in E. exfalso.
  apply (resolve_access_granted p context path Write) in E as (_ & _ & root & d & Happ & Hmax);
    [|done|done].
  destruct (metadata_directory w name Hv Hl Ht Hname) as (q' & Hq' & Hql & Hqn).
  rewrite Hq in Hq'. injection Hq' as <-.
  pose proof Hctx as [_ (Hc & _ & _)%lexical_iff]. pose proof Hql as (Hqc & _ & _)%lexical_iff.
  pose proof Happ as (Hd & Hsr & e & He & [_ Hst] & Ha)%applies_iff.
  assert (Hread : applies p context path q Read (S (length (names w)))).
  { apply applies_iff. rewrite (names_depth Posix q Hql), Hqn, length_app. simpl.
    split_and!; [f_equal; lia|done|].
    exists (skip_missing_path (Special (ProjectRoots (Some name))) Read). split_and!; [| |done].
    - apply workspace_metadata_entry; [|done]. fold p. by intros Hnil; rewrite Hnil in He.
    - split; [congruence|]. simpl. apply list_elem_of_In, list_elem_of_omap. exists w.
      split; [by apply list_elem_of_In|]. by rewrite Hq. }
  assert (Hle : d <= length (names w)).
  { apply (Hdeep root d); [|done|done]. rewrite !in_app_iff.
    destruct (workspace_write_entry _ _ _ _ e He Ha) as [Hp|[Hp|[Hp|(r & Hr & Hp)]]];
      rewrite Hp in Hst.
    - left. simpl in Hst. apply list_elem_of_In, list_elem_of_omap in Hst as (r & Hr & [= <-]).
      by apply list_elem_of_In.
    - right. by left.
    - right. by right.
    - left. by subst r. }
  destruct (Hmax _ _ _ Hread); lia.
Qed.

End policies.

(** ** Witnesses *)

Import FileUrls.

Definition work : FileUrl := mkFile None [$"work"].
Definition work_file (names : list str) : FileUrl := mkFile None ($"work" :: names).

Definition work_context : @PolicyContext FileUrl :=
  mkContext work [work] None (Some [mkFile None [$"var"; $"tmp"]]).

Lemma work_posix : posix_context work_context.
Proof. split; [split; reflexivity|split; [reflexivity|exists 1; reflexivity]]. Qed.

Definition grant (p : @FileSystemPath FileUrl) (a : FileSystemAccessMode) : @FileSystemSandboxEntry FileUrl :=
  new_entry p a.

Definition secret_policy : @FileSystemSandboxPolicy FileUrl :=
  restricted [grant (Path work) Write; grant (Path (work_file [$"secret"])) Deny].

Lemma resolve_access_spec_witness :
  kind secret_policy = Restricted
  /\ resolve_access secret_policy (work_file [$"a"]) work_context = Write
  /\ resolve_access secret_policy (work_file [$"secret"; $"a"]) work_context = Deny
  /\ exists root d, decides secret_policy work_context (work_file [$"a"]) root Write d.
Proof.
  assert (Hw : resolve_access secret_policy (work_file [$"a"]) work_context = Write) by reflexivity.
  split; [reflexivity|]. split; [exact Hw|]. split; [reflexivity|].
  exact (proj2 (proj2 (proj1 (resolve_access_spec secret_policy (work_file [$"a"]) work_context Write
    eq_refl ltac:(discriminate)) Hw))).
Defined.

Lemma write_needs_grant_witness :
  can_write_path secret_policy (work_file [$"a"]) work_context = true
  /\ can_write_path secret_policy (work_file [$".git"; $"config"]) work_context = false
  /\ exists root d, decides secret_policy work_context (work_file [$"a"]) root Write d.
Proof.
  assert (Hw : can_write_path secret_policy (work_file [$"a"]) work_context = true) by reflexivity.
  split; [exact Hw|]. split; [reflexivity|].
  exact (proj1 (proj1 (write_needs_grant secret_policy (work_file [$"a"]) work_context
    eq_refl eq_refl) Hw)).
Defined.

Definition root_policy : @FileSystemSandboxPolicy FileUrl :=
  restricted [grant (Special Root) Write; grant (Special SlashTmp) Read;
              grant (Path (mkFile None [$"tmp"])) Write].

Lemma full_disk_write_sound_witness :
  has_full_disk_write_access_with_context root_policy work_context = true
  /\ resolve_access root_policy (mkFile None [$"tmp"; $"x"]) work_context = Write.
Proof.
  assert (Hf : has_full_disk_write_access_with_context root_policy work_context = true)
    by reflexivity.
  split; [exact Hf|].
  apply (full_disk_write_sound root_policy (mkFile None [$"tmp"; $"x"]) work_context work_posix).
  - split; [reflexivity|exists 2; reflexivity].
  - reflexivity.
  - exact Hf.
Defined.

Lemma preserved_denials_witness :
  let p := preserve_deny_read_restrictions_from unrestricted secret_policy in
  kind p = Restricted
  /\ resolve_access p (work_file [$"secret"]) work_context = Deny
  /\ contains_entry (entries p) (grant (Path (work_file [$"secret"])) Deny) = true.
Proof.
  split; [reflexivity|]. split; [reflexivity|].
  apply (proj1 (proj2 (preserved_denials unrestricted secret_policy work_context work) eq_refl)).
  - right. left. reflexivity.
  - reflexivity.
Defined.

Lemma materialize_grants_witness :
  let p := restricted [grant (Special (ProjectRoots (Some ($"src")))) Write;
                       grant (Special (ProjectRoots (Some ($"../etc")))) Deny] in
  entries (materialize_project_roots p [work])
  = [grant (Path (work_file [$"src"])) Write; grant (Path work) Deny]
  /\ In (work_file [$"src"], Write) (resolved_entries p (with_roots work_context [work])).
Proof.
  split; [reflexivity|].
  refine (proj1 (materialize_grants _ [work] work_context (work_file [$"src"]) Write _ _ _)).
  - reflexivity.
  - discriminate.
  - left. reflexivity.
Defined.

Lemma workspace_metadata_protected_witness :
  can_write_path (workspace_write_with_path_uris Posix [work] false false)
    (work_file [$"src"; $"a"]) work_context = true
  /\ can_write_path (workspace_write_with_path_uris Posix [work] false false)
       (work_file [$".git"; $"config"]) work_context = false.
Proof.
  split; [reflexivity|].
  apply (workspace_metadata_protected Posix false false work_context work ($".git")
    (work_file [$".git"])).
  - exact work_posix.
  - left. reflexivity.
  - split; reflexivity.
  - split; [reflexivity|exists 1; reflexivity].
  - exists [$"work"]. split; [constructor; [discriminate|constructor]|left; split; [reflexivity|discriminate]].
  - left. reflexivity.
  - reflexivity.
  - reflexivity.
  - intros v d Hv Hs Hd. simpl in Hv.
    destruct Hv as [<-|[<-|[<-|[]]]]; [|discriminate Hs|discriminate Hs].
    injection Hd as <-. simpl. lia.
Defined.

(** ** What the model shows *)

(** The check of metadata directories looks at the first writable root only, so
    the order of equal policies decides whether [.codex] inside an explicitly
    writable [.git] is protected. *)
Example metadata_check_depends_on_order :
  let git := work_file [$".git"] in
  let target := work_file [$".git"; $".codex"; $"config"] in
  can_write_path (restricted [grant (Path work) Write; grant (Path git) Write]) target work_context
  = true
  /\ can_write_path (restricted [grant (Path git) Write; grant (Path work) Write]) target work_context
     = false.
Proof. by split. Qed.

(** On Windows a read entry for the root of another drive counts as overridden
    by [:root = write], which stands for the drive of the working directory
    only: the policy claims whole-disk write access but does not grant it. *)
Example windows_full_disk_claim :
  let drive := mkFile None [$"D:"; []] in
  let p := restricted [grant (Special Root) Write; grant (Path drive) Read] in
  let context := mkContext (mkFile None [$"C:"; $"work"]) [] None None in
  has_full_disk_write_access_with_context p context = true
  /\ resolve_access p (mkFile None [$"D:"; $"data"]) context = Read.
Proof. by split. Qed.
