(* ===== verification/ReadDeny.v ===== *)
(** * Read denials of sandbox policies (protocol/src/permissions.rs,
    permissions/target.rs, permissions/deny_read_validator.rs)

    The matcher built from the denied entries of a policy, which file tools ask
    before they read, and the validation of a selected policy against denials
    that are mandatory.  The glob library [globset] is an argument: [build_glob
    pattern backslash_escape case_insensitive] compiles a pattern whose
    wildcards stay within a component.  So are the texts of its errors and of
    path errors. *)

From S2P Require Import Prelude RustStr Utf8 PatchTypes ExecutorFs PathUri ApiPath PathUriSpec FileUrls PathUriProps SandboxPolicy SandboxPolicyProps.

Definition INVALID_PATH : str := $"managed filesystem denial cannot be materialized safely".
Definition SHADOWED : str := $"managed filesystem denial is shadowed by a selected profile grant".
Definition NO_TEMPORARY_DIRECTORIES : str :=
  $"executor temporary-directory metadata is unavailable for managed filesystem denials".
Definition UNSAFE_TEMPORARY_DIRECTORY : str :=
  $"executor temporary-directory metadata cannot be materialized safely".

Definition quoted (s : str) : str := $"`" ++ s ++ $"`".

Section denials.
Context {Url : Type} `{UrlCrates Url} `{Unreachable Url}.
Abbreviation PathUri := Url (only parsing).
Abbreviation Entry := (@FileSystemSandboxEntry Url) (only parsing).
Abbreviation SandPolicy := (@FileSystemSandboxPolicy Url) (only parsing).
Abbreviation Ctx := (@PolicyContext Url) (only parsing).
Context (build_glob : str -> bool -> bool -> result (list N -> bool) str).
Context (show_path_error : LegacyAppPathStringError -> str).

Record PreparedReadDenyMatcher : Type := mkMatcher {
  denied_roots : list PathUri;
  deny_read_matchers : list (list N -> bool);
  invalid_pattern : bool;
}.

Definition build_glob_matcher (pattern : str) (convention : PathConvention)
  : result (list N -> bool) str :=
  let windows := bool_decide (convention = Windows) in
  build_glob (if windows then to_slashes pattern else pattern)
    (bool_decide (convention = Posix)) windows.

(** ** The patterns of the denied entries *)

Definition home_relative (is_windows : bool) (pattern : str) : option str :=
  match strip_prefix ($"~/") pattern with
  | Some suffix => Some suffix
  | None => if is_windows then strip_prefix ($"~\") pattern else None
  end.

Definition resolve_glob (context : Ctx) (pattern : str) : result str str :=
  let is_windows := bool_decide (path_convention (cwd context) = Some Windows) in
  let convention := if is_windows then Windows else Posix in
  let? target :=
    match home_relative is_windows pattern with
    | Some suffix =>
        match user_home_dir context with
        | Some home => Ok (home, trim_start_where (separators convention) suffix)
        | None =>
            Err ($"unable to resolve deny-read glob pattern " ++ quoted pattern
                 ++ $" without executor home")
        end
    | None => Ok (cwd context, pattern)
    end in
  let '(root, pattern) := target in
  let? _ :=
    match to_path_uri (Url := Url) pattern convention with
    | Ok _ => Ok ()
    | Err _ => map_err show_path_error (validate_glob_directory root convention)
    end in
  match join_uri root pattern with
  | Ok path => Ok (native_path_string path)
  | Err _ => Err ($"unable to resolve deny-read glob pattern " ++ quoted pattern)
  end.

Definition deny_patterns (l : list Entry) : list str :=
  omap (fun e => match entry_path e with
                 | GlobPattern pattern => if is_deny e then Some pattern else None
                 | _ => None
                 end) l.

Definition deny_read_globs (self : SandPolicy) (context : Ctx)
  : result (list str) str :=
  collect_results (resolve_glob context) (deny_patterns (entries self)).

(** ** The matcher *)

(** The compiled patterns, and whether some could not be. *)
Fixpoint compile_globs (convention : PathConvention) (behavior : InvalidDenyReadGlobBehavior)
  (patterns : list str) : result (list (list N -> bool) * bool) str :=
  match patterns with
  | [] => Ok ([], false)
  | pattern :: rest =>
      match build_glob_matcher pattern convention with
      | Ok matcher =>
          let? compiled := compile_globs convention behavior rest in
          Ok (matcher :: fst compiled, snd compiled)
      | Err err =>
          match behavior with
          | FailClosed =>
              let? compiled := compile_globs convention behavior rest in
              Ok (fst compiled, true)
          | ReturnError =>
              Err ($"invalid deny-read glob pattern " ++ quoted pattern ++ $": " ++ err)
          end
      end
  end.

(** Denying the root of the file system is the default, not a denial to match. *)
Definition is_file_system_root (context : Ctx) (root : PathUri) : bool :=
  match file_system_root context with
  | Some top => uri_starts_with root top && uri_starts_with top root
  | None => false
  end.

Definition denied_roots_of (self : SandPolicy) (context : Ctx)
  : list PathUri :=
  map fst
    (filter (fun e => is_file_system_root context e.1 = false)
       (filter (fun e => bool_decide (e.2 = Deny) = true) (resolved_entries self context))).

Definition prepare_deny_read_matcher (self : SandPolicy) (context : Ctx)
  (behavior : InvalidDenyReadGlobBehavior) : result PreparedReadDenyMatcher str :=
  let roots := denied_roots_of self context in
  match path_convention (cwd context) with
  | None => Ok (mkMatcher roots [] true)
  | Some convention =>
      match deny_read_globs self context with
      | Ok patterns =>
          let? compiled := compile_globs convention behavior patterns in
          Ok (mkMatcher roots (fst compiled) (snd compiled))
      | Err err =>
          match behavior with
          | FailClosed => Ok (mkMatcher roots [] true)
          | ReturnError => Err err
          end
      end
  end.

(** The bytes a glob is matched against. *)
Definition glob_candidate (convention : PathConvention) (path : PathUri) : list N :=
  match convention with
  | Posix => decoded_path_bytes path
  | Windows => encode (to_slashes (native_path_string path))
  end.

Definition matches_prepared_read_deny (path : PathUri) (context : Ctx)
  (prepared : PreparedReadDenyMatcher) : bool :=
  match path_convention (cwd context) with
  | None => true
  | Some convention =>
      if negb (bool_decide (path_convention path = Some convention))
         || is_none (lexical_depth path) || is_none (lexical_depth (cwd context))
      then true
      else if invalid_pattern prepared then true
      else existsb (uri_starts_with path) (denied_roots prepared)
           || existsb (fun matcher => matcher (glob_candidate convention path))
                (deny_read_matchers prepared)
  end.

(** [ReadDenyMatcher::from_context] and [is_read_denied_uri]. *)
Definition matcher_from_context (self : SandPolicy) (context : Ctx)
  : option PreparedReadDenyMatcher :=
  if existsb is_deny (entries self)
  then res_ok (prepare_deny_read_matcher self context FailClosed) else None.

(** ** target.rs *)

Definition has_context_read_denials (policy : SandPolicy) (context : Ctx)
  : bool :=
  is_restricted policy
  && existsb (fun e =>
       is_deny e
       && negb match entry_path e with
               | Special SlashTmp =>
                   negb (bool_decide (path_convention (cwd context) = Some Posix))
               | _ => false
               end) (entries policy).

Definition valid_in (convention : PathConvention) (path : PathUri) : bool :=
  bool_decide (path_convention path = Some convention) && is_some (lexical_depth path).

Definition validate_entry (context : Ctx) (convention : PathConvention)
  (e : Entry) : result () str :=
  match entry_path e with
  | Path path => if valid_in convention path then Ok () else Err INVALID_PATH
  | Special Tmpdir =>
      match temporary_directories context with
      | None => Err NO_TEMPORARY_DIRECTORIES
      | Some directories =>
          if forallb (valid_in convention) directories then Ok ()
          else Err UNSAFE_TEMPORARY_DIRECTORY
      end
  | Special (ProjectRoots (Some subpath)) =>
      if existsb (fun root => negb (is_ok (join_uri root subpath))) (workspace_roots context)
      then Err INVALID_PATH else Ok ()
  | GlobPattern pattern =>
      if (starts_with pattern ($"~/")
          || bool_decide (convention = Windows) && starts_with pattern ($"~\"))
         && negb match user_home_dir context with
                 | Some home => valid_in convention home
                 | None => false
                 end
      then Err INVALID_PATH else Ok ()
  | _ => Ok ()
  end.

Definition validate_context_paths (policy : SandPolicy) (context : Ctx)
  : result () str :=
  let? convention := ok_or (path_convention (cwd context)) INVALID_PATH in
  if negb (valid_in convention (cwd context))
     || existsb (fun path => negb (valid_in convention path)) (workspace_roots context)
  then Err INVALID_PATH
  else
    let? _ := collect_results (validate_entry context convention) (entries policy) in Ok ().

Definition try_new_with_context (policy : SandPolicy) (context : Ctx)
  : result (option PreparedReadDenyMatcher) str :=
  if negb (has_context_read_denials policy context) then Ok None
  else
    let? _ := validate_context_paths policy context in
    let? prepared := prepare_deny_read_matcher policy context ReturnError in
    Ok (Some prepared).

(** ** deny_read_validator.rs *)

Record DenyReadValidator : Type := mkValidator {
  required_entries : list Entry;
  matcher : option PreparedReadDenyMatcher;
}.

Inductive DenyReadViolation : Type :=
| MissingRequiredDeny
| ReadablePath (path : PathUri).

Definition validator_new (required : SandPolicy) (context : Ctx)
  : result DenyReadValidator str :=
  if has_context_read_denials required context
  then
    let? prepared := prepare_deny_read_matcher required context ReturnError in
    Ok (mkValidator (entries required) (Some prepared))
  else Ok (mkValidator (entries required) None).

(** The first readable concrete entry that the mandatory denials cover. *)
Definition violating_entry (v : DenyReadValidator) (context : Ctx)
  (e : Entry) : option PathUri :=
  match entry_path e with
  | Path path =>
      if negb (bool_decide (path_convention path = path_convention (cwd context))) then None
      else
        match matcher v with
        | Some prepared =>
            if matches_prepared_read_deny path context prepared then Some path else None
        | None => None
        end
  | _ => None
  end.

Definition validate_deny_read (v : DenyReadValidator) (selected : SandPolicy)
  (context : Ctx) : result () DenyReadViolation :=
  let missing_required_deny :=
    existsb (fun e => negb (contains_entry (entries selected) e)) (required_entries v) in
  match find_map (violating_entry v context)
          (filter (fun e => can_read (access e) = true) (entries selected)) with
  | Some path => Err (ReadablePath path)
  | None => if missing_required_deny then Err MissingRequiredDeny else Ok ()
  end.

Definition validate_managed_deny_read (self required : SandPolicy)
  (context : Ctx) : result () str :=
  let? v := validator_new required context in
  map_err (fun _ => SHADOWED) (validate_deny_read v self context).

End denials.

(** ** What the matcher denies *)

Section spec.
Context {Url : Type} `{UrlCrates Url} `{Unreachable Url}.
Context (build_glob : str -> bool -> bool -> result (list N -> bool) str).
Context (show_path_error : LegacyAppPathStringError -> str).
Implicit Types (self selected required : @FileSystemSandboxPolicy Url) (context : @PolicyContext Url).
Implicit Types (path root : Url).

Lemma compile_globs_closed c patterns :
  exists matchers bad, compile_globs build_glob c FailClosed patterns = Ok (matchers, bad)
    /\ if bad then exists p e, In p patterns /\ build_glob_matcher build_glob p c = Err e
       else Forall2 (fun p m => build_glob_matcher build_glob p c = Ok m) patterns matchers.
Proof.
  induction patterns as [|p patterns (ms & bad & IH & Hbad)]; simpl; [by exists [], false|].
  rewrite IH. simpl. destruct (build_glob_matcher build_glob p c) as [m|e] eqn:E.
  - exists (m :: ms), bad. split; [done|]. destruct bad; [|by constructor].
    destruct Hbad as (q & e & Hq & He). exists q, e. by split; [right|].
  - exists ms, true. split; [done|]. exists p, e. by split; [left|].
Qed.

Lemma compile_globs_strict c patterns compiled :
  compile_globs build_glob c ReturnError patterns = Ok compiled ->
  compile_globs build_glob c FailClosed patterns = Ok compiled.
Proof.
  revert compiled. induction patterns as [|p patterns IH]; simpl; intros compiled; [done|].
  destruct (build_glob_matcher build_glob p c); [|done].
  destruct (compile_globs build_glob c ReturnError patterns) as [q|]; [|done].
  by rewrite (IH q eq_refl).
Qed.

(** A strict matcher is the one that fails closed. *)
Lemma prepare_strict self context prepared :
  prepare_deny_read_matcher build_glob show_path_error self context ReturnError = Ok prepared ->
  prepare_deny_read_matcher build_glob show_path_error self context FailClosed = Ok prepared.
Proof.
  unfold prepare_deny_read_matcher. destruct (path_convention (cwd context)) as [c|]; [|done].
  destruct (deny_read_globs show_path_error self context) as [patterns|]; [|done].
  destruct (compile_globs build_glob c ReturnError patterns) as [q|] eqn:E; [|done].
  by rewrite (compile_globs_strict _ _ _ E).
Qed.

(** The denied pattern [pattern] is understood and does not match [path]. *)
Definition pattern_misses context (c : PathConvention) path (pattern : str) : Prop :=
  exists text matcher, resolve_glob show_path_error context pattern = Ok text
    /\ build_glob_matcher build_glob text c = Ok matcher
    /\ matcher (glob_candidate c path) = false.

Lemma denied_roots_In self context root :
  In root (denied_roots_of self context)
  <-> In (root, Deny) (resolved_entries self context) /\ is_file_system_root context root = false.
Proof.
  unfold denied_roots_of. rewrite in_map_iff. split.
  - intros ([r a] & <- & Hin). apply list_elem_of_In in Hin.
    rewrite !list_elem_of_filter, bool_decide_eq_true in Hin. simpl in *.
    destruct Hin as (Hr & -> & Hin). by rewrite <- list_elem_of_In.
  - intros [Hin Hr]. exists (root, Deny). split; [done|]. apply list_elem_of_In.
    rewrite !list_elem_of_filter, bool_decide_eq_true. by rewrite list_elem_of_In.
Qed.

Lemma misses_iff self context c path (matchers : list (list N -> bool)) bad :
  match deny_read_globs show_path_error self context with
  | Ok texts =>
      compile_globs build_glob c FailClosed texts = Ok (matchers, bad)
  | Err _ => bad = true
  end ->
  bad || existsb (fun m => m (glob_candidate c path)) matchers = false
  <-> bad = false /\ forall pattern, In pattern (deny_patterns (entries self)) ->
        pattern_misses context c path pattern.
Proof.
  intros Hc. unfold deny_read_globs in Hc.
  pose proof (collect_results_all (resolve_glob show_path_error context) (deny_patterns (entries self))) as Hall.
  destruct (collect_results _ _) as [texts|e]; [|by subst bad; split; [|intros []]].
  destruct (compile_globs_closed c texts) as (ms & b & Hms & Hb). rewrite Hms in Hc.
  injection Hc as <- <-. destruct b; [by split; [|intros []]|]. cbn [orb].
  assert (Hpairs : forall pattern, In pattern (deny_patterns (entries self)) ->
            exists text m, In m ms /\ resolve_glob show_path_error context pattern = Ok text
              /\ build_glob_matcher build_glob text c = Ok m).
  { intros pattern Hin. destruct (Forall2_In_l _ _ _ _ Hall Hin) as (text & Htext & Hr).
    destruct (Forall2_In_l _ _ _ _ Hb Htext) as (m & Hm & Hbuild). by exists text, m. }
  split.
  - intros Hm. split; [done|]. intros pattern Hin.
    destruct (Hpairs pattern Hin) as (text & m & Hmin & Hr & Hbuild). exists text, m.
    split_and!; [done..|]. apply not_true_iff_false. intros Ht.
    apply not_true_iff_false in Hm. apply Hm, existsb_exists. by exists m.
  - intros [_ Hall']. apply not_true_iff_false. intros Ht. apply existsb_exists in Ht as (m & Hm & Ht).
    destruct (Forall2_In_r _ _ _ _ Hb Hm) as (text & Htext & Hbuild).
    destruct (Forall2_In_r _ _ _ _ Hall Htext) as (pattern & Hp & Hr).
    destruct (Hall' pattern Hp) as (text' & m' & Hr' & Hbuild' & Hf).
    rewrite Hr in Hr'. injection Hr' as <-. rewrite Hbuild in Hbuild'. injection Hbuild' as <-.
    congruence.
Qed.

Lemma prepare_closed self context c :
  path_convention (cwd context) = Some c ->
  exists prepared,
    prepare_deny_read_matcher build_glob show_path_error self context FailClosed = Ok prepared
    /\ denied_roots prepared = denied_roots_of self context
    /\ forall path,
         invalid_pattern prepared
         || existsb (fun m => m (glob_candidate c path)) (deny_read_matchers prepared) = false
         <-> invalid_pattern prepared = false
             /\ forall pattern, In pattern (deny_patterns (entries self)) ->
                  pattern_misses context c path pattern.
Proof.
  intros Hc. unfold prepare_deny_read_matcher. rewrite Hc.
  destruct (deny_read_globs show_path_error self context) as [texts|e] eqn:Ed.
  - destruct (compile_globs_closed c texts) as (ms & bad & Hms & Hbad). rewrite Hms.
    eexists. split; [done|]. split; [done|]. intros path. apply misses_iff. by rewrite Ed.
  - eexists. split; [done|]. split; [done|]. intros path. simpl. by split; [|intros []].
Qed.

(** When a matcher lets a path through. *)
Lemma matches_iff self context prepared path :
  prepare_deny_read_matcher build_glob show_path_error self context FailClosed = Ok prepared ->
  matches_prepared_read_deny path context prepared = false
  <-> exists c, path_convention (cwd context) = Some c /\ resolvable context path
        /\ invalid_pattern prepared = false
        /\ (forall pattern, In pattern (deny_patterns (entries self)) ->
              pattern_misses context c path pattern)
        /\ forall root, In (root, Deny) (resolved_entries self context) ->
             uri_starts_with path root = true -> is_file_system_root context root = true.
Proof.
  intros Hp. unfold matches_prepared_read_deny.
  destruct (path_convention (cwd context)) as [c|] eqn:Hc; [|by split; [|intros (? & ? & _)]].
  destruct (prepare_closed self context c Hc) as (prepared' & Hp' & Hroots & Hglobs).
  rewrite Hp in Hp'. injection Hp' as <-. specialize (Hglobs path).
  assert (Hres : resolvable context path <->
    negb (bool_decide (path_convention path = Some c)) || is_none (lexical_depth path)
    || is_none (lexical_depth (cwd context)) = false).
  { unfold resolvable, is_some. rewrite Hc. setoid_rewrite negb_true_iff.
    rewrite !orb_false_iff, negb_false_iff, bool_decide_eq_true. naive_solver. }
  destruct (negb _ || _ || _).
  { split; [done|]. intros (c' & _ & Hr & _). by apply Hres in Hr. }
  assert (Hr : existsb (uri_starts_with path) (denied_roots prepared) = false <->
    forall root, In (root, Deny) (resolved_entries self context) ->
      uri_starts_with path root = true -> is_file_system_root context root = true).
  { rewrite Hroots. rewrite <- not_true_iff_false, existsb_exists. split.
    - intros Hn root Hin Hs. destruct (is_file_system_root context root) eqn:E; [done|].
      destruct Hn. exists root. split; [|done]. by apply denied_roots_In.
    - intros Hall (root & [Hin Hroot]%denied_roots_In & Hs). rewrite (Hall root Hin Hs) in Hroot. done. }
  destruct (invalid_pattern prepared).
  { split; [done|]. by intros (_ & _ & _ & ? & _). }
  cbn [orb] in Hglobs. rewrite orb_false_iff, Hr, Hglobs. split.
  - intros (Hroot & _ & Hpat). exists c. split_and!; [done|by apply Hres|done|done|done].
  - intros (c' & [= <-] & _ & _ & Hpat & Hroot). by split_and!.
Qed.

(** C37: A policy with a denied entry always has a matcher, and it lets a path
    be read only when everything is understood: the path, the working directory
    and every denied pattern; no denied pattern matches the path, and no denied
    root other than the root of the file system contains it.  (A denied root of
    the file system is the default of the policy and not a mask: the matcher
    leaves it to the policy itself.)  Whatever is not understood is denied. *)
Theorem read_denials_fail_closed self context path :
  existsb is_deny (entries self) = true ->
  exists prepared, matcher_from_context build_glob show_path_error self context = Some prepared
    /\ (matches_prepared_read_deny path context prepared = false ->
        resolvable context path
        /\ (forall c pattern, path_convention (cwd context) = Some c ->
              In pattern (deny_patterns (entries self)) -> pattern_misses context c path pattern)
        /\ forall root, In (root, Deny) (resolved_entries self context) ->
             uri_starts_with path root = true -> is_file_system_root context root = true).
Proof.
  intros Hd. unfold matcher_from_context. rewrite Hd.
  destruct (path_convention (cwd context)) as [c|] eqn:Hc.
  - destruct (prepare_closed self context c Hc) as (prepared & Hp & _). rewrite Hp.
    exists prepared. split; [done|]. intros Hm.
    apply (matches_iff self context prepared path Hp) in Hm as (c' & Hc' & Hr & _ & Hpat & Hroot).
    split_and!; [done| |done]. intros c0 pattern [= <-]. rewrite Hc in Hc'. injection Hc' as <-.
    by apply Hpat.
  - unfold prepare_deny_read_matcher. rewrite Hc. eexists. split; [done|].
    unfold matches_prepared_read_deny. by rewrite Hc.
Qed.

(** A selected policy that passes validation against mandatory denials
    contains each of them, and none of its readable concrete paths (of the
    executor's convention) lies under a mandatory denied root or matches a
    mandatory pattern. *)
Theorem validated_policy_keeps_denials required selected context :
  validate_managed_deny_read build_glob show_path_error selected required context = Ok () ->
  (forall e, In e (entries required) -> contains_entry (entries selected) e = true)
  /\ (has_context_read_denials required context = true ->
      forall e path, In e (entries selected) -> access e <> Deny -> entry_path e = Path path ->
        path_convention path = path_convention (cwd context) ->
        exists c, path_convention (cwd context) = Some c
          /\ (forall pattern, In pattern (deny_patterns (entries required)) ->
                pattern_misses context c path pattern)
          /\ forall root, In (root, Deny) (resolved_entries required context) ->
               uri_starts_with path root = true -> is_file_system_root context root = true).
Proof.
  unfold validate_managed_deny_read, validator_new.
  destruct (has_context_read_denials required context) eqn:Hd.
  - destruct (prepare_deny_read_matcher build_glob show_path_error required context ReturnError)
      as [prepared|] eqn:Hp; [|done]. apply prepare_strict in Hp. simpl. unfold validate_deny_read.
    destruct (find_map _ _) as [v|] eqn:Ef; [done|]. simpl.
    destruct (existsb _ _) eqn:Em; [done|]. intros _. split.
    + intros e He. apply not_true_iff_false in Em. destruct (contains_entry (entries selected) e) eqn:Ec; [done|].
      destruct Em. apply existsb_exists. exists e. by rewrite Ec.
    + intros _ e path He Ha Hpath Hconv.
      assert (Hin : In e (filter (fun e => can_read (access e) = true) (entries selected))).
      { apply list_elem_of_In, list_elem_of_filter. rewrite list_elem_of_In. split; [|done].
        unfold can_read. by rewrite bool_decide_false. }
      apply (proj1 (find_map_None _ _) Ef) in Hin. unfold violating_entry in Hin. rewrite Hpath in Hin.
      rewrite bool_decide_true in Hin by done. simpl in Hin.
      destruct (matches_prepared_read_deny path context prepared) eqn:Emat; [done|].
      apply (matches_iff required context prepared path Hp) in Emat as (c & Hc & _ & _ & Hpat & Hroot).
      by exists c.
  - simpl. unfold validate_deny_read. destruct (find_map _ _); [done|]. simpl.
    destruct (existsb _ _) eqn:Em; [done|]. intros _. split; [|done].
    intros e He. apply not_true_iff_false in Em. destruct (contains_entry (entries selected) e) eqn:Ec; [done|].
    destruct Em. apply existsb_exists. exists e. by rewrite Ec.
Qed.

End spec.

(** ** Witnesses *)

Import FileUrls.

(** A glob library that only knows literal patterns. *)
Definition literal_glob (pattern : str) (_ _ : bool) : result (list N -> bool) str :=
  Ok (fun bytes => bool_decide (bytes = encode pattern)).

Definition no_text (_ : LegacyAppPathStringError) : str := [].

Definition denying_policy : @FileSystemSandboxPolicy FileUrl :=
  restricted [new_entry (Special Root) Read;
              new_entry (Path (mkFile None [$"work"; $"secret"])) Deny;
              new_entry (GlobPattern ($".env")) Deny].

Definition denying_context : @PolicyContext FileUrl :=
  mkContext (mkFile None [$"work"]) [] None None.

Lemma read_denials_fail_closed_witness :
  exists prepared,
    matcher_from_context literal_glob no_text denying_policy denying_context = Some prepared
    /\ matches_prepared_read_deny (mkFile None [$"work"; $"secret"; $"k"]) denying_context prepared = true
    /\ matches_prepared_read_deny (mkFile None [$"work"; $".env"]) denying_context prepared = true
    /\ pattern_misses literal_glob no_text denying_context Posix (mkFile None [$"work"; $"a"]) ($".env").
Proof.
  destruct (read_denials_fail_closed literal_glob no_text denying_policy denying_context
    (mkFile None [$"work"; $"a"]) eq_refl) as (prepared & Hp & Hmiss).
  exists prepared. split; [exact Hp|]. unfold matcher_from_context in Hp. simpl in Hp.
  injection Hp as <-. split; [reflexivity|]. split; [reflexivity|].
  apply (proj1 (proj2 (Hmiss eq_refl)) Posix); [reflexivity|left; reflexivity].
Defined.

Lemma validated_policy_keeps_denials_witness :
  let selected := restricted (new_entry (Path (mkFile None [$"work"; $"src"])) Write
                              :: entries denying_policy) in
  validate_managed_deny_read literal_glob no_text selected denying_policy denying_context = Ok ()
  /\ contains_entry (entries selected) (new_entry (GlobPattern ($".env")) Deny) = true
  /\ validate_managed_deny_read literal_glob no_text
       (restricted (new_entry (Path (mkFile None [$"work"; $"secret"])) Read :: entries denying_policy))
       denying_policy denying_context = Err SHADOWED.
Proof.
  intros selected.
  assert (Hv : validate_managed_deny_read literal_glob no_text selected denying_policy denying_context
               = Ok ()) by reflexivity.
  split; [exact Hv|]. split; [|reflexivity].
  apply (proj1 (validated_policy_keeps_denials literal_glob no_text denying_policy selected
    denying_context Hv)).
  right. right. left. reflexivity.
Defined.
