(* ===== verification/PatchApply.v ===== *)
(** * Applying a patch to a file system

    The stateful half of apply-patch/src/lib.rs ([apply_patch] down to
    [apply_hunks_to_files] and its helpers) and the reading half of
    file_update.rs ([derive_new_contents_from_chunks]), over the interface of
    ExecutorFs.v.  A computation threads the file system, the delta of committed
    changes and the paths for the summary; errors leave the state they find. *)

From S2P Require Import Prelude RustStr PatchTypes FileUpdate PatchParser StateM ExecutorFs.

Module AppliedPatchFileChange.

Inductive t (P : Type) : Type :=
| Add (content : str) (overwritten_content : option str)
| Delete (content : str)
| Update (move_path : option P) (old_content : str)
    (overwritten_move_content : option str) (new_content : str).
Arguments Add {P}.
Arguments Delete {P}.
Arguments Update {P}.

End AppliedPatchFileChange.

Record AppliedPatchChange (P : Type) : Type := mkChange {
  change_path : P;
  change : AppliedPatchFileChange.t P;
}.
Arguments mkChange {P}.
Arguments change_path {P}.
Arguments change {P}.

Record AppliedPatchDelta (P : Type) : Type := mkDelta {
  changes : list (AppliedPatchChange P);
  exact : bool;
}.
Arguments mkDelta {P}.
Arguments changes {P}.
Arguments exact {P}.

(** [AppliedPatchDelta::empty] and [AppliedPatchDelta::append]. *)
Definition empty_delta {P} : AppliedPatchDelta P := mkDelta [] true.

Definition append_delta {P} (d other : AppliedPatchDelta P) : AppliedPatchDelta P :=
  mkDelta (changes d ++ changes other) (exact d && exact other).

Record ApplyPatchFailure (P : Type) : Type := mkFailure {
  failure_error : ApplyPatchError;
  failure_delta : AppliedPatchDelta P;
}.
Arguments mkFailure {P}.
Arguments failure_error {P}.
Arguments failure_delta {P}.

Definition without_delta {P} (e : ApplyPatchError) : ApplyPatchFailure P :=
  mkFailure e empty_delta.

Record AffectedPaths : Type := mkAffected {
  added : list str;
  modified : list str;
  deleted : list str;
}.

(** [AppliedPatch] of file_update.rs. *)
Record AppliedPatch : Type := mkApplied {
  original_contents : str;
  new_contents : str;
}.

(** The [anyhow::Error] values of [apply_hunks_to_files]: an [io::Error], with
    the context [with_context] put on it, or one of the error types the [?]
    operator converts, or the message of [bail!]. *)
Inductive anyhow_error : Type :=
| AIo (context : option str) (e : io_error)
| AUri (e : PathUriParseError)
| APatch (e : ApplyPatchError)
| AMessage (message : str).

(** [From<std::io::Error> for ApplyPatchError]. *)
Definition from_io (e : io_error) : ApplyPatchError := EIo (mkIoError ($"I/O error") e).

(** [with_context]. *)
Definition with_context {A} (r : result A io_error) (ctx : str) : result A anyhow_error :=
  map_err (AIo (Some ctx)) r.

(** An [impl Write] that takes whole lines. *)
Class Writer (O : Type) : Type := write_line : str -> O -> result () io_error * O.

Section apply.
Context {W P : Type} `{EqDecision P} `{!PathUriOps P} `{!ExecutorFileSystem W P}.

Notation Delta := (AppliedPatchDelta P).
Notation Change := (AppliedPatchChange P).

(** ** State *)

Record applying : Type := mkApplying {
  fs : W;
  delta : Delta;
  affected : AffectedPaths;
}.

Definition patchM (A : Type) : Type := stM applying anyhow_error A.

Definition with_fs (w : W) (s : applying) : applying := mkApplying w (delta s) (affected s).
Definition with_delta (d : Delta) (s : applying) : applying := mkApplying (fs s) d (affected s).

(** An operation of the file system; its [Result] is a value. *)
Definition call {A} (op : fs_op W A) : patchM (result A io_error) := fun s =>
  let '(r, w) := op (fs s) in (Done r, with_fs w s).

(** [delta.exact &= b]. *)
Definition and_exact (b : bool) : patchM () := st_modify (fun s =>
  with_delta (mkDelta (changes (delta s)) (exact (delta s) && b)) s).

(** [*exact = false]. *)
Definition mark_inexact : patchM () := st_modify (fun s =>
  with_delta (mkDelta (changes (delta s)) false) s).

Definition push_change (c : Change) : patchM () := st_modify (fun s =>
  with_delta (mkDelta (changes (delta s) ++ [c]) (exact (delta s))) s).

(** [delta.changes[i] = c], which panics out of range. *)
Definition set_change (i : nat) (c : Change) : patchM () := fun s =>
  if i <? length (changes (delta s))
  then (Done (), with_delta (mkDelta (<[i:=c]> (changes (delta s))) (exact (delta s))) s)
  else (Panic, s).

Definition record (f : AffectedPaths -> AffectedPaths) : patchM () := st_modify (fun s =>
  mkApplying (fs s) (delta s) (f (affected s))).
Definition push_added (p : str) (a : AffectedPaths) : AffectedPaths :=
  mkAffected (added a ++ [p]) (modified a) (deleted a).
Definition push_modified (p : str) (a : AffectedPaths) : AffectedPaths :=
  mkAffected (added a) (modified a ++ [p]) (deleted a).
Definition push_deleted (p : str) (a : AffectedPaths) : AffectedPaths :=
  mkAffected (added a) (modified a) (deleted a ++ [p]).

(** The [try_write!] macro. *)
Definition try_write {A} (m : patchM (result A anyhow_error)) : patchM A :=
  let* r := m in
  match r with
  | Ok value => st_ret value
  | Err error => let* _ := mark_inexact in st_fail error
  end.

(** ** Helpers *)

Definition is_not_found (e : io_error) : bool := bool_decide (io_kind e = KNotFound).

Definition note_existing_path_delta_support (path : P) (follow : bool) : patchM () :=
  let* r := call (get_metadata path follow) in
  match r with
  | Ok metadata =>
      if is_file metadata && negb (is_symlink metadata) then st_ret () else mark_inexact
  | Err source => if is_not_found source then st_ret () else mark_inexact
  end.

Definition read_optional_file_text_for_delta (path : P) (follow : bool)
  : patchM (option str) :=
  let* _ := note_existing_path_delta_support path follow in
  let* r := call (read_file_text path follow) in
  match r with
  | Ok content => st_ret (Some content)
  | Err source =>
      if is_not_found source then st_ret None
      else let* _ := mark_inexact in st_ret None
  end.

Definition ensure_not_directory (path : P) (follow : bool) : patchM (result () io_error) :=
  let* r := call (get_metadata path follow) in
  st_ret (let? metadata := r in
          if is_directory metadata then Err (mkIo KInvalidInput ($"path is a directory"))
          else Ok ()).

Definition remove_failure_was_side_effect_free (path : P) (expected_content : option str)
    (follow : bool) : patchM bool :=
  match expected_content with
  | Some expected =>
      let* r := call (read_file_text path follow) in
      st_ret match r with Ok content => bool_decide (content = expected) | Err _ => false end
  | None => st_ret false
  end.

Definition write_failed (path : P) : str :=
  $"Failed to write file " ++ inferred_native_path_string path.
Definition create_failed (path : P) : str :=
  $"Failed to create parent directories for " ++ inferred_native_path_string path.
Definition delete_failed (path : P) : str :=
  $"Failed to delete file " ++ inferred_native_path_string path.
Definition remove_original_failed (path : P) : str :=
  $"Failed to remove original " ++ inferred_native_path_string path.
Definition read_update_failed (path : P) : str :=
  $"Failed to read file to update " ++ inferred_native_path_string path.

Definition create_parent (path : P) (follow : bool) : patchM (result () anyhow_error) :=
  match uri_parent path with
  | Some parent =>
      let* r := call (create_directory parent (mkCreateOptions true follow)) in
      st_ret (with_context r (create_failed path))
  | None => st_ret (Ok ())
  end.

Definition write_file_with_missing_parent_retry (path : P) (contents : str) (follow : bool)
  : patchM (result () anyhow_error) :=
  let* r := call (write_file path contents follow) in
  match r with
  | Ok _ => st_ret (Ok ())
  | Err err =>
      if is_not_found err then
        let* created := create_parent path follow in
        match created with
        | Ok _ =>
            let* r := call (write_file path contents follow) in
            st_ret (with_context r (write_failed path))
        | Err e => st_ret (Err e)
        end
      else st_ret (with_context (Err err) (write_failed path))
  end.

(** [derive_new_contents_from_chunks] of file_update.rs. *)
Definition derive_new_contents_from_chunks (path : P) (chunks : list UpdateFileChunk)
    (mode : ApplyPatchFileUpdateMode) (follow : bool) : stM W ApplyPatchError AppliedPatch :=
  fun w =>
    let '(r, w') := read_file_text path follow w in
    match r with
    | Err err => (Fail (EIo (mkIoError (read_update_failed path) err)), w')
    | Ok contents =>
        (let! text := FileUpdate.derive_new_contents contents
                        (inferred_native_path_string path) chunks mode in
         Done (mkApplied contents text), w')
    end.

(** A computation on the file system alone, its error converted by [?]. *)
Definition on_fs {A} (m : stM W ApplyPatchError A) : patchM A := fun s =>
  let '(o, w) := m (fs s) in
  (match o with Done a => Done a | Fail e => Fail (APatch e) | Panic => Panic end, with_fs w s).

(** [Hunk::resolve_path]: the source path, also of a move. *)
Definition resolve_path (h : Hunk) (cwd : P) : result P PathUriParseError :=
  uri_join cwd match h with UpdateFile path _ _ => path | _ => hunk_path h end.

(** ** The hunks *)

Definition apply_add (path : P) (affected_path contents : str) (follow : bool) : patchM () :=
  let* overwritten := read_optional_file_text_for_delta path follow in
  let* _ := try_write (write_file_with_missing_parent_retry path contents follow) in
  let* _ := push_change (mkChange path (AppliedPatchFileChange.Add contents overwritten)) in
  record (push_added affected_path).

(** [remove] of a file whose content was read before, shared by deletion and
    move. *)
Definition remove_checked (path : P) (expected : option str) (failed : str) (follow : bool)
  : patchM () :=
  let* checked := ensure_not_directory path follow in
  let* _ := st_try (with_context checked failed) in
  let* removed := call (remove path (mkRemoveOptions false false follow)) in
  match with_context removed failed with
  | Ok _ => st_ret ()
  | Err error =>
      let* free := remove_failure_was_side_effect_free path expected follow in
      let* _ := and_exact free in
      st_fail error
  end.

Definition apply_delete (path : P) (affected_path : str) (follow : bool) : patchM () :=
  let* _ := note_existing_path_delta_support path follow in
  let* r := call (read_file_text path follow) in
  let deleted_content := res_ok r in
  let* _ := if is_none deleted_content then mark_inexact else st_ret () in
  let* _ := remove_checked path deleted_content (delete_failed path) follow in
  let* _ := match deleted_content with
            | Some content => push_change (mkChange path (AppliedPatchFileChange.Delete content))
            | None => st_ret ()
            end in
  record (push_deleted affected_path).

Definition apply_move (path dest : P) (affected_path : str) (patched : AppliedPatch)
    (follow : bool) : patchM () :=
  let* overwritten := read_optional_file_text_for_delta dest follow in
  let* _ := try_write
              (write_file_with_missing_parent_retry dest (new_contents patched) follow) in
  let* s := st_get in
  let dest_write_change_index := length (changes (delta s)) in
  let* _ := push_change
              (mkChange dest (AppliedPatchFileChange.Add (new_contents patched) overwritten)) in
  let* _ := remove_checked path (Some (original_contents patched))
              (remove_original_failed path) follow in
  let* _ := set_change dest_write_change_index
              (mkChange path (AppliedPatchFileChange.Update (Some dest)
                 (original_contents patched) overwritten (new_contents patched))) in
  record (push_modified affected_path).

Definition apply_in_place (path : P) (affected_path : str) (patched : AppliedPatch)
    (follow : bool) : patchM () :=
  let* _ := try_write
              (let* r := call (write_file path (new_contents patched) follow) in
               st_ret (with_context r (write_failed path))) in
  let* _ := push_change
              (mkChange path (AppliedPatchFileChange.Update None
                 (original_contents patched) None (new_contents patched))) in
  record (push_modified affected_path).

Definition apply_hunk (options : ApplyPatchOptions) (cwd : P) (hunk : Hunk) : patchM () :=
  let follow := follow_symlinks options in
  let affected_path := hunk_path hunk in
  let* path := st_try (map_err AUri (resolve_path hunk cwd)) in
  match hunk with
  | AddFile _ contents => apply_add path affected_path contents follow
  | DeleteFile _ => apply_delete path affected_path follow
  | UpdateFile _ move_path chunks =>
      let* _ := note_existing_path_delta_support path follow in
      let* patched := on_fs (derive_new_contents_from_chunks path chunks
                               (update_file_mode options) follow) in
      match move_path with
      | Some dest =>
          let* dest := st_try (map_err AUri (uri_join cwd dest)) in
          apply_move path dest affected_path patched follow
      | None => apply_in_place path affected_path patched follow
      end
  end.

Definition apply_hunks_to_files (hunks : list Hunk) (options : ApplyPatchOptions) (cwd : P)
  : patchM AffectedPaths :=
  if is_empty hunks then st_fail (AMessage ($"No files were modified."))
  else
    let* _ := record (fun _ => mkAffected [] [] []) in
    let* _ := st_for (apply_hunk options cwd) hunks in
    let* s := st_get in
    st_ret (affected s).

(** ** Entry points, which also print *)

Context {Stdout Stderr : Type} `{!Writer Stdout} `{!Writer Stderr}.
Context (show_uri : PathUriParseError -> str).

Definition show_anyhow (e : anyhow_error) : str :=
  match e with
  | AIo (Some ctx) _ => ctx
  | AIo None e => io_msg e
  | AUri e => show_uri e
  | APatch e => show_error show_uri e
  | AMessage m => m
  end.

(** The [downcast_ref] of [apply_hunks_with_options]. *)
Definition failure_of (e : anyhow_error) : ApplyPatchError :=
  match e with
  | AIo _ io => from_io io
  | _ => EIo (mkIoError (show_anyhow e) (mkIo KOther (show_anyhow e)))
  end.

Fixpoint write_lines {O} `{!Writer O} (ls : list str) (out : O) : result () io_error * O :=
  match ls with
  | [] => (Ok (), out)
  | l :: ls' =>
      match write_line l out with
      | (Ok _, out') => write_lines ls' out'
      | (Err e, out') => (Err e, out')
      end
  end.

Definition summary_lines (a : AffectedPaths) : list str :=
  $"Success. Updated the following files:"
  :: map (app $"A ") (added a) ++ map (app $"M ") (modified a) ++ map (app $"D ") (deleted a).

Definition print_summary (a : AffectedPaths) (out : Stdout) : result () io_error * Stdout :=
  write_lines (summary_lines a) out.

Definition entryM (A : Type) : Type := stM (W * Stdout * Stderr) (ApplyPatchFailure P) A.

Definition apply_hunks_with_options (hunks : list Hunk) (options : ApplyPatchOptions) (cwd : P)
  : entryM Delta := fun '(w, out, err) =>
  let '(o, s) := apply_hunks_to_files hunks options cwd
                   (mkApplying w empty_delta (mkAffected [] [] [])) in
  match o with
  | Done affected_paths =>
      let '(printed, out') := print_summary affected_paths out in
      (match printed with
       | Ok _ => Done (delta s)
       | Err e => Fail (mkFailure (from_io e) (delta s))
       end, (fs s, out', err))
  | Fail error =>
      let '(printed, err') := write_line (show_anyhow error) err in
      (Fail (mkFailure match printed with
                       | Ok _ => failure_of error
                       | Err e => from_io e
                       end (delta s)), (fs s, out, err'))
  | Panic => (Panic, (fs s, out, err))
  end.

Definition apply_hunks (hunks : list Hunk) (cwd : P) : entryM Delta :=
  apply_hunks_with_options hunks default_options cwd.

Definition invalid_patch_line (e : ParseError) : str :=
  match e with
  | InvalidPatchError message => $"Invalid patch: " ++ message
  | InvalidHunkError message n =>
      $"Invalid patch hunk on line " ++ show_nat n ++ $": " ++ message
  end.

Definition apply_patch_with_options (text : str) (options : ApplyPatchOptions) (cwd : P)
  : entryM Delta := fun '(w, out, err) =>
  match PatchText.parse_patch text with
  | Ok source => apply_hunks_with_options (PatchParser.hunks source) options cwd (w, out, err)
  | Err e =>
      let '(printed, err') := write_line (invalid_patch_line e) err in
      (Fail (without_delta match printed with
                           | Ok _ => EParse e
                           | Err io => from_io io
                           end), (w, out, err'))
  end.

Definition apply_patch (text : str) (cwd : P) : entryM Delta :=
  apply_patch_with_options text default_options cwd.

End apply.
