(* ===== verification/PatchApplySpec.v ===== *)
(** * What applying a patch does

    The abstract effect of a patch on the texts of a file system, the replay and
    the undoing of a delta, and the theorems that PatchApply.v implements them
    over any file system that satisfies [FileSystemLaws]. *)

From S2P Require Import Prelude RustStr PatchTypes FileUpdate PatchParser StateM ExecutorFs PatchApply.

Module PatchApplySpec.

Section spec.
Context {W P : Type} `{EqDecision P} `{!PathUriOps P}.
Implicit Types v : view P.
Implicit Types c : AppliedPatchChange P.

(** ** Deltas as edits of the observed texts *)

Definition replay_change (v : view P) (c : AppliedPatchChange P) : view P :=
  match change c with
  | AppliedPatchFileChange.Add content _ => upd (change_path c) (Some content) v
  | AppliedPatchFileChange.Delete _ => upd (change_path c) None v
  | AppliedPatchFileChange.Update None _ _ new => upd (change_path c) (Some new) v
  | AppliedPatchFileChange.Update (Some dest) _ _ new =>
      upd (change_path c) None (upd dest (Some new) v)
  end.

Definition revert_change (c : AppliedPatchChange P) (v : view P) : view P :=
  match change c with
  | AppliedPatchFileChange.Add _ overwritten => upd (change_path c) overwritten v
  | AppliedPatchFileChange.Delete content => upd (change_path c) (Some content) v
  | AppliedPatchFileChange.Update None old _ _ => upd (change_path c) (Some old) v
  | AppliedPatchFileChange.Update (Some dest) old overwritten _ =>
      upd dest overwritten (upd (change_path c) (Some old) v)
  end.

Definition replay (cs : list (AppliedPatchChange P)) (v : view P) : view P :=
  fold_left replay_change cs v.
Definition revert (cs : list (AppliedPatchChange P)) (v : view P) : view P :=
  fold_right revert_change v cs.

(** A change records the texts it replaces. *)
Definition records (v : view P) (c : AppliedPatchChange P) : Prop :=
  match change c with
  | AppliedPatchFileChange.Add _ overwritten => v (change_path c) = overwritten
  | AppliedPatchFileChange.Delete content => v (change_path c) = Some content
  | AppliedPatchFileChange.Update None old _ _ => v (change_path c) = Some old
  | AppliedPatchFileChange.Update (Some dest) old overwritten _ =>
      v (change_path c) = Some old /\ v dest = overwritten
  end.

(** The delta leads from [v0] to [v], and each change records what it found. *)
Inductive ledger : list (AppliedPatchChange P) -> view P -> view P -> Prop :=
| ledger_nil v0 v : v =v v0 -> ledger [] v0 v
| ledger_snoc cs c v0 v v' :
    ledger cs v0 v -> records v c -> replay_change v c =v v' -> ledger (cs ++ [c]) v0 v'.

#[export] Instance replay_change_proper : Proper (view_eq ==> eq ==> view_eq) replay_change.
Proof.
  intros v1 v2 H c ? <-. unfold replay_change.
  destruct (change c) as [| |[]]; by rewrite H.
Qed.

#[export] Instance revert_change_proper : Proper (eq ==> view_eq ==> view_eq) revert_change.
Proof.
  intros c ? <- v1 v2 H. unfold revert_change.
  destruct (change c) as [| |[]]; by rewrite H.
Qed.

#[export] Instance revert_proper : Proper (eq ==> view_eq ==> view_eq) revert.
Proof.
  intros cs ? <- v1 v2 H. induction cs as [|c cs IH]; [done|]. simpl. by rewrite IH.
Qed.

#[export] Instance ledger_proper :
  Proper (eq ==> eq ==> view_eq ==> iff) ledger.
Proof.
  assert (forall cs v0 v v', v =v v' -> ledger cs v0 v -> ledger cs v0 v') as Himp.
  { intros cs v0 v v' Hv H. destruct H; [constructor; by rewrite <- Hv|].
    eapply ledger_snoc; [done..|by rewrite <- Hv]. }
  intros cs ? <- v0 ? <- v1 v2 H. split; by apply Himp.
Qed.

(** What a change recorded undoes it, also when it moves a file onto itself. *)
Lemma revert_records v c : records v c -> revert_change c (replay_change v c) =v v.
Proof.
  unfold records, revert_change, replay_change.
  destruct (change c) as [t o|t|[dest|] old o new]; simpl; [intros Ho|intros Ho|intros [Ho Hd]|intros Ho];
    intros q; unfold upd; repeat case_decide; congruence.
Qed.

Lemma ledger_back cs v0 v : ledger cs v0 v -> replay cs v0 =v v /\ revert cs v =v v0.
Proof.
  induction 1 as [v0 v H|cs c v0 v v' _ [IH1 IH2] Hrec Hr]; [done|]. unfold replay, revert in *. split.
  - rewrite fold_left_app. simpl. by rewrite IH1.
  - rewrite fold_right_app. simpl. fold (revert cs (revert_change c v')).
    rewrite <- Hr, (revert_records v c Hrec). done.
Qed.

(** ** The effect of hunks *)

Definition hunk_effect (mode : ApplyPatchFileUpdateMode) (cwd : P) (h : Hunk) (v v' : view P)
  : Prop :=
  exists u, resolve_path h cwd = Ok u /\
  match h with
  | AddFile _ contents => v' =v upd u (Some contents) v
  | DeleteFile _ => v' =v upd u None v
  | UpdateFile _ move_path chunks =>
      exists old new, v u = Some old
      /\ FileUpdate.derive_new_contents old (inferred_native_path_string u) chunks mode = Done new
      /\ match move_path with
         | None => v' =v upd u (Some new) v
         | Some dest => exists d, uri_join cwd dest = Ok d
             /\ v' =v upd u None (upd d (Some new) v)
         end
  end.

Inductive effects (mode : ApplyPatchFileUpdateMode) (cwd : P) :
  list Hunk -> view P -> view P -> Prop :=
| effects_nil v v' : v' =v v -> effects mode cwd [] v v'
| effects_snoc hs h v v1 v2 :
    effects mode cwd hs v v1 -> hunk_effect mode cwd h v1 v2 -> effects mode cwd (hs ++ [h]) v v2.

(** What the summary lists, in order. *)
Definition note_affected (a : AffectedPaths) (h : Hunk) : AffectedPaths :=
  match h with
  | AddFile _ _ => push_added (hunk_path h) a
  | DeleteFile _ => push_deleted (hunk_path h) a
  | UpdateFile _ _ _ => push_modified (hunk_path h) a
  end.

Definition affected_of (hs : list Hunk) : AffectedPaths :=
  fold_left note_affected hs (mkAffected [] [] []).

End spec.

(** ** The applier against the laws *)

Section laws.
Context {W P : Type} `{EqDecision P} `{!PathUriOps P} `{!ExecutorFileSystem W P}.
Context (look : W -> view P) `{!FileSystemLaws W P look}.

Abbreviation state := (@applying W P).
Abbreviation change := (AppliedPatchChange P).

(** Between steps: the texts seen are [v], the committed changes [cs], the
    summary [a]; the delta can only be exact if it was when [b] was noted. *)
Definition at_point (b : bool) (v : view P) (cs : list change) (a : AffectedPaths) (s : state)
  : Prop :=
  look (fs s) =v v /\ changes (delta s) = cs /\ affected s = a
  /\ (exact (delta s) = true -> b = true).

(** The same with a fact that only an exact delta guarantees. *)
Definition at_fact (b : bool) (v : view P) cs a (X : Prop) (s : state) : Prop :=
  at_point b v cs a s /\ (exact (delta s) = true -> X).

(** What holds whatever happened: an exact delta accounts for every change. *)
Definition truthful (v0 : view P) (s : state) : Prop :=
  exact (delta s) = true -> ledger (changes (delta s)) v0 (look (fs s)).

Definition inexact (_ : anyhow_error) (s : state) : Prop := exact (delta s) = false.

Lemma at_point_truthful b v cs a v0 s :
  (b = true -> ledger cs v0 v) -> at_point b v cs a s -> truthful v0 s.
Proof. intros Hl (Hv & <- & _ & Hb) He. rewrite Hv. auto. Qed.

(** Changing the file system without changing what is seen. *)
Lemma call_silent {A} (op : fs_op W A) b v cs a X (Q : result A io_error -> state -> Prop) R :
  (forall w r w', op w = (r, w') -> look w' =v look w /\
     forall s, fs s = w -> at_fact b v cs a X s -> Q r (with_fs w' s)) ->
  triple (at_fact b v cs a X) (call op) Q R.
Proof.
  intros H s Hs. unfold call. destruct (op (fs s)) as [r w'] eqn:E.
  by destruct (H _ _ _ E) as [_ HQ]; apply HQ.
Qed.

Lemma at_fact_look b v cs a (X Y : Prop) s w' :
  at_fact b v cs a X s -> look w' =v look (fs s) -> (exact (delta s) = true -> X -> Y) ->
  at_fact b v cs a Y (with_fs w' s).
Proof.
  intros [(Hv & Hc & Ha & Hb) HX] Hw HY. split; [|simpl; auto].
  repeat split; [simpl; by rewrite Hw|done|done|done].
Qed.

Lemma metadata_point path fl b v cs a X R :
  triple (at_fact b v cs a X) (call (get_metadata path fl))
    (fun _ => at_fact b v cs a X) R.
Proof.
  apply call_silent. intros w r w' E. apply metadata_law in E. split; [done|].
  intros s <- Hs. by eapply at_fact_look.
Qed.

Lemma read_point path fl b v cs a X R :
  triple (at_fact b v cs a X) (call (read_file_text path fl))
    (fun r s => at_fact b v cs a X s /\
       match r with
       | Ok t => v path = Some t
       | Err e => io_kind e = KNotFound -> v path = None
       end) R.
Proof.
  apply call_silent. intros w r w' E. apply read_law in E as [Hl Hr]. split; [done|].
  intros s <- Hs. split; [by eapply at_fact_look|]. destruct Hs as [(Hv & _) _].
  by destruct r; rewrite <- (Hv path).
Qed.

Lemma mark_inexact_point b v cs a (X Y : Prop) R :
  triple (at_fact b v cs a X) mark_inexact (fun _ => at_fact b v cs a Y) R.
Proof. intros s [(Hv & Hc & Ha & Hb) _]. by split. Qed.

Lemma at_fact_weaken b v cs a (X Y : Prop) s :
  (X -> Y) -> at_fact b v cs a X s -> at_fact b v cs a Y s.
Proof. intros HXY [Hp HX]. split; auto. Qed.

Lemma note_point path fl b v cs a X R :
  triple (at_fact b v cs a X) (note_existing_path_delta_support path fl)
    (fun _ => at_fact b v cs a X) R.
Proof.
  unfold note_existing_path_delta_support. eapply triple_bind; [apply metadata_point|].
  intros [m|e]; simpl; case_if; try apply mark_inexact_point; by intros s Hs.
Qed.

Lemma read_optional_point path fl b v cs a R :
  triple (at_point b v cs a) (read_optional_file_text_for_delta path fl)
    (fun old => at_fact b v cs a (v path = old)) R.
Proof.
  apply (triple_pre _ (at_fact b v cs a True)); [|by intros s Hs; split].
  unfold read_optional_file_text_for_delta. eapply triple_bind; [apply note_point|]. intros [].
  eapply triple_bind; [apply read_point|]. intros [t|e].
  - intros s [Hs Ht]. eapply at_fact_weaken; [|exact Hs]. auto.
  - unfold is_not_found. case_bool_decide as Hk.
    + intros s [Hs Ht]. eapply at_fact_weaken; [|exact Hs]. auto.
    + eapply triple_bind; [eapply triple_pre; [apply mark_inexact_point|by intros s []]|].
      intros [] s Hs. exact Hs.
Qed.

(** *** Writing *)

Lemma triple_try_write {A} (Pre : state -> Prop) (m : patchM (result A anyhow_error)) Q :
  triple Pre m (fun r s => match r with Ok x => Q x s | Err _ => True end) inexact ->
  triple Pre (try_write m) Q inexact.
Proof.
  intros Hm. eapply triple_bind; [exact Hm|]. intros [x|e]; [by intros s Hs|].
  by intros s _.
Qed.

Lemma write_point path t fl b v cs a X R :
  triple (at_fact b v cs a X) (call (write_file path t fl))
    (fun r s => match r with
       | Ok _ => at_fact b (upd path (Some t) v) cs a X s
       | Err e => io_kind e = KNotFound -> at_fact b v cs a X s
       end) R.
Proof.
  intros s Hs. unfold call. destruct (write_file path t fl (fs s)) as [r w'] eqn:E.
  apply write_law in E. destruct r as [[]|e].
  - destruct Hs as [(Hv & Hc & Ha & Hb) HX]. split; [|done].
    repeat split; [|done|done|done]. simpl. by rewrite E, Hv.
  - intros Hk. by eapply at_fact_look; [|apply E|].
Qed.

Lemma create_parent_point path fl b v cs a X R :
  triple (at_fact b v cs a X) (create_parent path fl) (fun _ => at_fact b v cs a X) R.
Proof.
  unfold create_parent. destruct (uri_parent path) as [parent|]; [|by intros s Hs].
  eapply (triple_bind _ _ _ (fun _ => at_fact b v cs a X)); [|by intros r s Hs].
  apply call_silent. intros w r w' E. apply create_law in E. split; [done|].
  intros s <- Hs. by eapply at_fact_look.
Qed.

Lemma write_retry_point path t fl b v cs a X :
  triple (at_fact b v cs a X) (try_write (write_file_with_missing_parent_retry path t fl))
    (fun _ => at_fact b (upd path (Some t) v) cs a X) inexact.
Proof.
  apply triple_try_write. eapply triple_bind; [apply write_point|].
  intros [[]|e]; [by intros s Hs|]. unfold is_not_found. case_bool_decide as Hk; [|by intros s Hs].
  eapply triple_bind.
  { eapply triple_pre; [apply create_parent_point|]. intros s Hs. by apply Hs. }
  intros [[]|e']; [|by intros s Hs].
  eapply triple_bind; [apply write_point|]. intros [[]|e']; by intros s Hs.
Qed.

Lemma push_change_point c b v cs a X R :
  triple (at_fact b v cs a X) (push_change c) (fun _ => at_fact b v (cs ++ [c]) a X) R.
Proof. intros s [(Hv & Hc & Ha & Hb) HX]. repeat split; try done. simpl. by rewrite Hc. Qed.

Lemma set_change_point i c b v cs a X R :
  i < length cs ->
  triple (at_fact b v cs a X) (set_change i c) (fun _ => at_fact b v (<[i:=c]> cs) a X) R.
Proof.
  intros Hi s [(Hv & Hc & Ha & Hb) HX]. unfold set_change. rewrite Hc.
  rewrite (proj2 (Nat.ltb_lt _ _) Hi). by repeat split.
Qed.

Lemma record_point f b v cs a X R :
  triple (at_fact b v cs a X) (record f) (fun _ => at_fact b v cs (f a) X) R.
Proof. intros s [(Hv & Hc & Ha & Hb) HX]. repeat split; try done. simpl. by rewrite Ha. Qed.

(** *** Removing *)

(** After an error: the committed changes, and the texts if the delta is still
    exact. *)
Definition settled (b : bool) (v : view P) (cs : list change) (X : Prop) (_ : anyhow_error)
    (s : state) : Prop :=
  changes (delta s) = cs
  /\ (exact (delta s) = true -> (b = true /\ X) /\ look (fs s) =v v).

Lemma settled_truthful b v cs (X : Prop) v0 e s :
  (b = true -> X -> ledger cs v0 v) -> settled b v cs X e s -> truthful v0 s.
Proof. intros Hl (<- & Hs) He. destruct (Hs He) as [[Hb HX] ->]. auto. Qed.

Lemma at_fact_settled b v cs a X e s : at_fact b v cs a X s -> settled b v cs X e s.
Proof. intros [(Hv & Hc & Ha & Hb) HX]. split; auto. Qed.

Lemma ensure_point path fl b v cs a X R :
  triple (at_fact b v cs a X) (ensure_not_directory path fl) (fun _ => at_fact b v cs a X) R.
Proof.
  eapply triple_bind; [apply metadata_point|]. by intros r s Hs.
Qed.

(** A failed removal: the file is still as it was, or the delta is inexact. *)
Lemma remove_failed_point path expected error fl b v cs (X : Prop) :
  triple (fun s => changes (delta s) = cs /\ (exact (delta s) = true -> b = true /\ X)
            /\ (look (fs s) =v v \/ look (fs s) =v upd path None v))
    (let* free := remove_failure_was_side_effect_free path expected fl in
     let* _ := and_exact free in st_fail error : patchM ())
    (fun _ _ => False) (settled b v cs X).
Proof.
  intros s (Hc & Hb & Hl). unfold remove_failure_was_side_effect_free.
  destruct expected as [t|]; simpl; [|by split; simpl; rewrite ?andb_false_r].
  unfold st_bind, call. destruct (read_file_text path fl (fs s)) as [r w'] eqn:E.
  apply read_law in E as [Hw Hr]. simpl. split; [done|]. simpl.
  intros [He Hfree]%andb_prop. split; [by apply Hb|]. rewrite Hw.
  destruct Hl as [Hl|Hl]; [done|]. destruct r as [t'|]; [|done].
  rewrite (Hl path), upd_same in Hr. done.
Qed.

Lemma remove_checked_point path expected failed fl b v cs a X :
  triple (at_fact b v cs a X) (remove_checked path expected failed fl)
    (fun _ => at_fact b (upd path None v) cs a X) (settled b v cs X).
Proof.
  unfold remove_checked. eapply triple_bind; [apply ensure_point|]. intros checked.
  eapply (triple_bind _ _ _ (fun _ => at_fact b v cs a X)).
  { apply triple_try. intros s Hs. destruct checked; [done|]. by eapply at_fact_settled. }
  intros []. eapply (triple_bind _ _ _ (fun r s => match r with
      | Ok _ => at_fact b (upd path None v) cs a X s
      | Err _ => changes (delta s) = cs /\ (exact (delta s) = true -> b = true /\ X)
            /\ (look (fs s) =v v \/ look (fs s) =v upd path None v) end)).
  - intros s Hs. unfold call. destruct (remove path _ (fs s)) as [r w'] eqn:E.
    apply remove_law in E; [|done]. destruct Hs as [(Hv & Hc & Ha & Hb) HX]. destruct r as [[]|e].
    + split; [|done]. repeat split; [|done|done|done]. simpl. by rewrite E, Hv.
    + split; [done|]. split; [simpl; auto|]. simpl. by destruct E as [E|E]; rewrite E, Hv; [left|right].
  - intros [[]|e]; simpl; [by intros s Hs|].
    eapply triple_conseq; [apply remove_failed_point|intros s Hs; exact Hs|by intros ? ?|done].
Qed.

(** *** The hunks *)

Definition finished (v0 v : view P) (a : AffectedPaths) (s : state) : Prop :=
  look (fs s) =v v /\ affected s = a /\ truthful v0 s.

Lemma at_fact_finished b v cs a (X : Prop) v0 s :
  (b = true -> X -> ledger cs v0 v) -> at_fact b v cs a X s -> finished v0 v a s.
Proof.
  intros Hl [(Hv & Hc & Ha & Hb) HX]. split; [done|]. split; [done|].
  intros He. rewrite Hc, Hv. auto.
Qed.

Lemma inexact_truthful v0 e s : inexact e s -> truthful v0 s.
Proof. unfold inexact, truthful. congruence. Qed.

Section one_hunk.
Context (b : bool) (v0 v : view P) (cs : list change) (a : AffectedPaths).
Context (Hledger : b = true -> ledger cs v0 v).

Lemma apply_add_point path ap t fl :
  triple (at_point b v cs a) (apply_add path ap t fl)
    (fun _ => finished v0 (upd path (Some t) v) (push_added ap a)) (fun _ => truthful v0).
Proof.
  eapply triple_bind; [apply read_optional_point|]. intros old.
  eapply triple_bind.
  { eapply triple_conseq; [apply write_retry_point|keep|keep|]. apply inexact_truthful. }
  intros []. eapply triple_bind; [apply push_change_point|]. intros [].
  eapply triple_post; [apply record_point|].
  intros [] s. apply at_fact_finished. intros Hb Hold.
  eapply ledger_snoc; [by apply Hledger|exact Hold|done].
Qed.

Lemma apply_delete_point path ap fl :
  triple (at_point b v cs a) (apply_delete path ap fl)
    (fun _ => finished v0 (upd path None v) (push_deleted ap a)) (fun _ => truthful v0).
Proof.
  apply (triple_pre _ (at_fact b v cs a True)); [|by intros s Hs; split].
  eapply triple_bind; [apply note_point|]. intros [].
  eapply triple_bind; [apply read_point|]. intros r.
  set (X := exists t, r = Ok t /\ v path = Some t).
  eapply (triple_bind _ _ _ (fun _ => at_fact b v cs a X)).
  { intros s [Hs Hr]. destruct r as [t|e]; simpl.
    - eapply at_fact_weaken; [|exact Hs]. intros _. by exists t.
    - apply (mark_inexact_point b v cs a True X (fun _ _ => True) s Hs). }
  intros []. eapply triple_bind.
  { eapply triple_conseq; [apply remove_checked_point|keep|keep|].
    intros e s. apply settled_truthful. auto. }
  intros []. apply (triple_bind _ _ _
    (fun _ => at_fact b (upd path None v)
       (cs ++ match res_ok r with
              | Some t => [mkChange path (AppliedPatchFileChange.Delete t)] | None => [] end) a X)).
  { destruct r as [t|e]; [apply push_change_point|]. intros s Hs. by rewrite app_nil_r. }
  intros []. eapply triple_post; [apply record_point|].
  intros [] s. apply at_fact_finished. intros Hb (t & -> & Ht).
  eapply ledger_snoc; [by apply Hledger|exact Ht|done].
Qed.

Lemma apply_in_place_point path ap patched fl :
  v path = Some (original_contents patched) ->
  triple (at_point b v cs a) (apply_in_place path ap patched fl)
    (fun _ => finished v0 (upd path (Some (new_contents patched)) v) (push_modified ap a))
    (fun _ => truthful v0).
Proof.
  intros Hold. apply (triple_pre _ (at_fact b v cs a True)); [|by intros s Hs; split].
  set (Q := fun _ : () => at_fact b (upd path (Some (new_contents patched)) v) cs a True).
  apply (triple_bind _ _ _ Q).
  { eapply triple_conseq; [apply (triple_try_write (at_fact b v cs a True) _ Q)|done|done|].
    - eapply triple_bind; [apply write_point|]. by intros [[]|e] s Hs.
    - apply inexact_truthful. }
  intros []. eapply triple_bind; [apply push_change_point|]. intros [].
  eapply triple_post; [apply record_point|].
  intros [] s. apply at_fact_finished. intros Hb _.
  eapply ledger_snoc; [by apply Hledger|exact Hold|done].
Qed.

Lemma apply_move_point path dest ap patched fl :
  v path = Some (original_contents patched) ->
  triple (at_point b v cs a) (apply_move path dest ap patched fl)
    (fun _ => finished v0 (upd path None (upd dest (Some (new_contents patched)) v))
                (push_modified ap a))
    (fun _ => truthful v0).
Proof.
  intros Hold. eapply triple_bind; [apply read_optional_point|]. intros old.
  eapply triple_bind.
  { eapply triple_conseq; [apply write_retry_point|keep|keep|]. apply inexact_truthful. }
  intros []. set (v1 := upd dest (Some (new_contents patched)) v).
  eapply (triple_bind _ _ _ (fun s0 s => length (changes (delta s0)) = length cs
            /\ at_fact b v1 cs a (v dest = old) s)).
  { intros s Hs. split; [|done]. by destruct Hs as [(_ & -> & _) _]. }
  intros s0. apply triple_pure. intros ->.
  eapply triple_bind; [apply push_change_point|]. intros [].
  assert (b = true -> v dest = old -> ledger
    (cs ++ [mkChange dest (AppliedPatchFileChange.Add (new_contents patched) old)]) v0 v1)
    as Hadd.
  { intros Hb Hd. eapply ledger_snoc; [by apply Hledger|exact Hd|done]. }
  eapply triple_bind.
  { eapply triple_conseq; [apply remove_checked_point|keep|keep|].
    intros e s. by apply settled_truthful. }
  intros []. eapply triple_bind.
  { apply set_change_point. rewrite length_app. simpl. lia. }
  intros []. eapply triple_post; [apply record_point|].
  intros [] s. apply at_fact_finished. intros Hb Hd.
  replace (length cs) with (length cs + 0) by lia. rewrite insert_app_r. simpl.
  eapply ledger_snoc; [by apply Hledger|by split|done].
Qed.

End one_hunk.

Lemma derive_no_panic contents path chunks mode :
  Forall wf_chunk chunks -> FileUpdate.derive_new_contents contents path chunks mode <> Panic.
Proof.
  intros H. destruct mode;
    [apply FileUpdate.derive_normalize_no_panic|by apply FileUpdate.derive_preserve_no_panic].
Qed.

(** Reading and computing the new contents changes nothing; the result says
    what was read. *)
Lemma derive_point path chunks mode fl b v cs a :
  Forall wf_chunk chunks ->
  triple (at_fact b v cs a True) (on_fs (derive_new_contents_from_chunks path chunks mode fl))
    (fun patched s => at_point b v cs a s /\ v path = Some (original_contents patched)
       /\ FileUpdate.derive_new_contents (original_contents patched)
            (inferred_native_path_string path) chunks mode = Done (new_contents patched))
    (settled b v cs True).
Proof.
  intros Hwf s Hs. unfold on_fs, derive_new_contents_from_chunks.
  pose proof (read_point path fl b v cs a True (fun _ _ => True) s Hs) as Hr. unfold call in Hr.
  destruct (read_file_text path fl (fs s)) as [[t|e] w'].
  - destruct Hr as [Hs' Ht].
    pose proof (derive_no_panic t (inferred_native_path_string path) chunks mode Hwf) as Hnp.
    destruct (FileUpdate.derive_new_contents t _ chunks mode) as [new|e|] eqn:E; [|..].
    + split; [apply Hs'|]. by split.
    + by eapply at_fact_settled.
    + done.
  - by eapply at_fact_settled, Hr.
Qed.

Lemma apply_hunk_point options cwd h b v cs a v0 :
  wf_hunk h -> (b = true -> ledger cs v0 v) ->
  triple (at_point b v cs a) (apply_hunk options cwd h)
    (fun _ s => hunk_effect (update_file_mode options) cwd h v (look (fs s))
       /\ affected s = note_affected a h /\ truthful v0 s)
    (fun _ => truthful v0).
Proof.
  intros Hwf Hl. unfold apply_hunk, hunk_effect.
  apply (triple_bind _ _ _ (fun u s => resolve_path h cwd = Ok u /\ at_point b v cs a s)).
  { apply triple_try. intros s Hs. destruct (resolve_path h cwd) as [u|e]; simpl; [done|].
    by eapply at_point_truthful. }
  intros u. apply triple_pure. intros Hu. destruct h as [p t|p|p mv chunks]; simpl in Hwf.
  - eapply triple_post; [by apply apply_add_point|]. intros _ s (Hv & ? & ?). eauto.
  - eapply triple_post; [by apply apply_delete_point|]. intros _ s (Hv & ? & ?). eauto.
  - apply (triple_pre _ (at_fact b v cs a True)); [|by intros s Hs; split].
    eapply triple_bind; [apply note_point|]. intros [].
    eapply triple_bind.
    { eapply triple_conseq; [by apply derive_point|keep|keep|].
      intros e s. apply settled_truthful. auto. }
    intros [old new]. eapply (triple_pre _ (fun s => _ /\ at_point b v cs a s)).
    2:{ intros s [Hp Hf]. split; [exact Hf|exact Hp]. }
    apply triple_pure. simpl. intros [Hold Hd]. destruct mv as [q|].
    + apply (triple_bind _ _ _ (fun d s => uri_join cwd q = Ok d /\ at_point b v cs a s)).
      { apply triple_try. intros s Hs. destruct (uri_join cwd q) as [d|e]; simpl; [done|].
        by eapply at_point_truthful. }
      intros d. apply triple_pure. intros Hq.
      eapply triple_post; [by apply apply_move_point|]. intros _ s (Hv & ? & ?). eauto 12.
    + eapply triple_post; [by apply apply_in_place_point|]. intros _ s (Hv & ? & ?). eauto 12.
Qed.

Lemma apply_hunks_point hunks options cwd s0 :
  Forall wf_hunk hunks -> changes (delta s0) = [] ->
  match apply_hunks_to_files hunks options cwd s0 with
  | (Done a, s) =>
      hunks <> [] /\ effects (update_file_mode options) cwd hunks (look (fs s0)) (look (fs s))
      /\ a = affected_of hunks /\ truthful (look (fs s0)) s
  | (Fail _, s) => truthful (look (fs s0)) s
  | (Panic, _) => False
  end.
Proof.
  intros Hwf Hc. unfold apply_hunks_to_files. destruct (is_empty hunks) eqn:E.
  { intros _. simpl. rewrite Hc. by constructor. }
  apply is_empty_false in E. set (v0 := look (fs s0)).
  set (I := fun (done : list Hunk) (s : state) =>
    effects (update_file_mode options) cwd done v0 (look (fs s))
    /\ affected s = affected_of done /\ truthful v0 s).
  assert (triple (I []) (st_for (apply_hunk options cwd) hunks) (fun _ => I ([] ++ hunks))
            (fun _ => truthful v0)) as Hfor.
  { apply triple_for. intros done h Hin s (He & Ha & Ht).
    rewrite Forall_forall in Hwf. apply list_elem_of_In, Hwf in Hin.
    pose proof (apply_hunk_point options cwd h (exact (delta s)) (look (fs s))
      (changes (delta s)) (affected s) v0 Hin Ht s ltac:(by repeat split)) as Hh.
    destruct (apply_hunk options cwd h s) as [[[]|e|] s']; [|done|done].
    destruct Hh as (Heff & Ha' & Ht'). split; [by eapply effects_snoc|]. split; [|done].
    unfold affected_of. rewrite fold_left_app. simpl. fold (affected_of done). by rewrite <- Ha. }
  unfold record, st_modify, st_bind at 1. set (s1 := mkApplying _ _ _).
  assert (I [] s1) as Hs1.
  { split; [by constructor|]. split; [done|]. intros _. simpl. rewrite Hc. by apply ledger_nil. }
  specialize (Hfor s1 Hs1). unfold st_bind.
  destruct (st_for _ _ s1) as [[[]|e|] s']; [|done|done]. simpl.
  destruct Hfor as (He & Ha & Ht). done.
Qed.

End laws.
Section theorems.
Context {W P : Type} `{EqDecision P} `{!PathUriOps P} `{!ExecutorFileSystem W P}.
Context (look : W -> view P) `{!FileSystemLaws W P look}.

Definition fresh (w : W) : @applying W P := mkApplying w empty_delta (mkAffected [] [] []).

(** C1: a patch that is applied without error has done exactly what its hunks
    say, one after the other: added files hold the patch text, deleted files are
    gone, updated files hold the text [derive_new_contents] computes from what
    they held, moved files are at their destination and no longer at their
    origin; nothing else changed, and the summary lists the hunks' paths. *)
Theorem apply_hunks_refines hunks options cwd (w : W) a s :
  Forall wf_hunk hunks ->
  apply_hunks_to_files hunks options cwd (fresh w) = (Done a, s) ->
  hunks <> [] /\ effects (update_file_mode options) cwd hunks (look w) (look (fs s))
  /\ a = affected_of hunks.
Proof.
  intros Hwf E. pose proof (apply_hunks_point look hunks options cwd (fresh w) Hwf eq_refl) as H.
  rewrite E in H. destruct H as (? & ? & ? & _). auto.
Qed.

(** C25: whether a patch succeeds or stops at an error, a delta reported as exact
    accounts for the files: replaying its changes on the texts before gives the
    texts after, and undoing them gives back the texts before. *)
Theorem exact_delta_accounts hunks options cwd (w : W) o s :
  Forall wf_hunk hunks ->
  apply_hunks_to_files hunks options cwd (fresh w) = (o, s) ->
  exact (delta s) = true ->
  replay (changes (delta s)) (look w) =v look (fs s)
  /\ revert (changes (delta s)) (look (fs s)) =v look w.
Proof.
  intros Hwf E He. pose proof (apply_hunks_point look hunks options cwd (fresh w) Hwf eq_refl) as H.
  rewrite E in H. apply ledger_back.
  destruct o as [a|e|]; [destruct H as (_ & _ & _ & H)|..|done]; by apply H.
Qed.

Context {Stdout Stderr : Type} `{!Writer Stdout} `{!Writer Stderr}.
Context (show_uri : PathUriParseError -> str).

Lemma apply_hunks_with_options_point hunks options cwd (w : W) (out : Stdout) (err : Stderr) :
  Forall wf_hunk hunks ->
  match apply_hunks_with_options show_uri hunks options cwd (w, out, err) with
  | (Done d, (w', _, _)) | (Fail (mkFailure _ d), (w', _, _)) =>
      exact d = true -> ledger (changes d) (look w) (look w')
  | (Panic, _) => False
  end.
Proof.
  intros Hwf. pose proof (apply_hunks_point look hunks options cwd (fresh w) Hwf eq_refl) as H.
  unfold apply_hunks_with_options. fold (fresh w).
  destruct (apply_hunks_to_files hunks options cwd (fresh w)) as [[a|e|] s]; [|..|done].
  - destruct (print_summary a out) as [[[]|io] out']; simpl; apply H.
  - destruct (write_line _ err) as [[[]|io] err']; simpl; apply H.
Qed.

Lemma apply_patch_ledger text options cwd (w : W) (out : Stdout) (err : Stderr) :
  match apply_patch_with_options show_uri text options cwd (w, out, err) with
  | (Done d, (w', _, _)) | (Fail (mkFailure _ d), (w', _, _)) =>
      exact d = true -> ledger (changes d) (look w) (look w')
  | (Panic, _) => False
  end.
Proof.
  unfold apply_patch_with_options. destruct (PatchText.parse_patch text) as [args|e] eqn:E.
  - apply PatchText.parse_wf_hunks in E. by apply apply_hunks_with_options_point.
  - destruct (write_line _ err) as [[[]|io] err']; intros _; by constructor.
Qed.

(** [apply_patch] on any text never panics, and the delta it returns, with
    success or inside the failure, accounts for the file system when it is
    exact; the delta of a patch that does not parse is empty and exact. *)
Theorem apply_patch_accounts text options cwd (w : W) (out : Stdout) (err : Stderr) :
  match apply_patch_with_options show_uri text options cwd (w, out, err) with
  | (Done d, (w', _, _)) | (Fail (mkFailure _ d), (w', _, _)) =>
      exact d = true ->
      replay (changes d) (look w) =v look w' /\ revert (changes d) (look w') =v look w
  | (Panic, _) => False
  end.
Proof.
  pose proof (apply_patch_ledger text options cwd w out err) as H.
  destruct (apply_patch_with_options _ _ _ _ _) as [[d|[e d]|] [[w' out'] err']]; [..|done];
    intros He; by apply ledger_back, H.
Qed.

End theorems.

(** ** Runs on the in-memory file system *)

Definition demo_world : gmap (list str) MemFs.node :=
  {[ [$"b.txt"] := MemFs.File ($"keep" ++ [LF] ++ $"old" ++ [LF]);
     [$"d.txt"] := MemFs.File ($"gone") ]}.

Definition demo_chunk : UpdateFileChunk :=
  mkChunk None [$"keep"; $"old"] [$"keep"; $"new"] [(0, 0)] false.

Definition demo_hunks : list Hunk :=
  [ AddFile ($"sub/a.txt") ($"one" ++ [LF]);
    UpdateFile ($"b.txt") (Some $"c.txt") [demo_chunk];
    DeleteFile $"d.txt" ].

Lemma demo_hunks_wf : Forall wf_hunk demo_hunks.
Proof.
  assert (wf_chunk demo_chunk) as Hc by (repeat split; try lia; by exists $"keep").
  unfold demo_hunks. constructor; [done|]. constructor; [|by constructor]. by constructor.
Qed.

Definition run (hunks : list Hunk) (cwd : list str) (w : gmap (list str) MemFs.node)
  : outcome AffectedPaths anyhow_error * @applying (gmap (list str) MemFs.node) (list str) :=
  apply_hunks_to_files hunks default_options cwd (fresh w).

Example demo_run :
  let s := (run demo_hunks [] demo_world).2 in
  (run demo_hunks [] demo_world).1
    = Done (mkAffected [$"sub/a.txt"] [$"c.txt"] [$"d.txt"])
  /\ MemFs.look (fs s) [$"sub"; $"a.txt"] = Some ($"one" ++ [LF])
  /\ MemFs.look (fs s) [$"b.txt"] = None
  /\ MemFs.look (fs s) [$"c.txt"] = Some ($"keep" ++ [LF] ++ $"new" ++ [LF])
  /\ MemFs.look (fs s) [$"d.txt"] = None /\ exact (delta s) = true.
Proof. vm_compute. repeat split; reflexivity. Qed.

Definition succeeded {A E S} (r : outcome A E * S) : bool :=
  match r with (Done _, _) => true | _ => false end.

Lemma apply_hunks_refines_witness :
  match run demo_hunks [] demo_world with
  | (Done a, s) => demo_hunks <> []
      /\ effects NormalizeToLf [] demo_hunks (MemFs.look demo_world) (MemFs.look (fs s))
      /\ a = affected_of demo_hunks
  | _ => False
  end.
Proof.
  assert (succeeded (run demo_hunks [] demo_world) = true) as Hok by (vm_compute; reflexivity).
  destruct (run demo_hunks [] demo_world) as [[a|e|] s] eqn:E; [|discriminate..].
  exact (apply_hunks_refines MemFs.look demo_hunks default_options [] demo_world a s
           demo_hunks_wf E).
Defined.

(** The second hunk fails, so the delta tells of the first one only. *)
Example failing_run :
  let s := (run [AddFile $"a.txt" []; UpdateFile $"x" None []] [] demo_world).2 in
  (run [AddFile $"a.txt" []; UpdateFile $"x" None []] [] demo_world).1
    = Fail (APatch (EIo (mkIoError ($"Failed to read file to update /x") MemFs.not_found)))
  /\ exact (delta s) = true /\ length (changes (delta s)) = 1.
Proof. vm_compute. repeat split; reflexivity. Qed.

Lemma exact_delta_accounts_witness :
  let s := (run demo_hunks [] demo_world).2 in
  exact (delta s) = true
  /\ replay (changes (delta s)) (MemFs.look demo_world) =v MemFs.look (fs s)
  /\ revert (changes (delta s)) (MemFs.look (fs s)) =v MemFs.look demo_world.
Proof.
  intros s. assert (exact (delta s) = true) as He by (vm_compute; reflexivity).
  split; [exact He|].
  exact (exact_delta_accounts MemFs.look demo_hunks default_options [] demo_world _ s
           demo_hunks_wf (surjective_pairing _) He).
Defined.

(** Output that is kept. *)
#[local] Instance log_writer : Writer (list str) := fun l o => (Ok (), o ++ [l]).

Definition demo_text : str := join [LF]
  [BEGIN_PATCH_MARKER; $"*** Update File: b.txt"; $"@@"; $" keep"; $"-old"; $"+new";
   $"*** Delete File: missing.txt"; END_PATCH_MARKER].

Definition run_text (text : str) :=
  apply_patch_with_options (Stdout := list str) (Stderr := list str) (fun _ => [])
    text default_options ([] : list str) (demo_world, [], []).

(** The second hunk fails: the failure carries the delta of the first one. *)
Lemma apply_patch_accounts_witness :
  match run_text demo_text with
  | (Fail (mkFailure _ d), (w', _, err)) =>
      err = [$"Failed to delete file /missing.txt"] /\ length (changes d) = 1
      /\ (exact d = true ->
          replay (changes d) (MemFs.look demo_world) =v MemFs.look w'
          /\ revert (changes d) (MemFs.look w') =v MemFs.look demo_world)
  | _ => False
  end.
Proof.
  assert (match run_text demo_text with
    | (Fail (mkFailure _ d), (_, _, err)) =>
        bool_decide (err = [$"Failed to delete file /missing.txt"])
        && (length (changes d) =? 1)
    | _ => false
    end = true) as Hok by (vm_compute; reflexivity).
  pose proof (apply_patch_accounts MemFs.look (fun _ => []) demo_text default_options []
    demo_world ([] : list str) ([] : list str)) as H. unfold run_text in *.
  destruct (apply_patch_with_options _ demo_text default_options [] (demo_world, [], []))
    as [[d|[e d]|] [[w' out] err]]; try discriminate Hok.
  apply andb_prop in Hok as [Herr Hn]. apply bool_decide_eq_true in Herr.
  apply Nat.eqb_eq in Hn. split; [exact Herr|]. split; [exact Hn|exact H].
Defined.

(** A move whose destination is its origin writes the new text and then removes
    it: the file is lost although the patch reports success. *)
Example move_to_self_loses_file :
  let r := run [UpdateFile $"b.txt" (Some $"b.txt") [demo_chunk]] [] demo_world in
  r.1 = Done (mkAffected [] [$"b.txt"] []) /\ MemFs.look (fs r.2) [$"b.txt"] = None
  /\ exact (delta r.2) = true.
Proof. vm_compute. repeat split; reflexivity. Qed.

End PatchApplySpec.
