(* ===== verification/Invocation.v ===== *)
(** * Recognising and verifying apply_patch invocations

    apply-patch/src/invocation.rs: which argument vectors are an apply_patch
    call, directly or inside a shell script, and the verification that turns a
    parsed patch into the changes shown for approval.  Tree-sitter's matching of
    the bash query and the rendering of unified diffs are arguments. *)

From S2P Require Import Prelude RustStr PatchTypes FileUpdate PatchParser StateM ExecutorFs PatchApply PatchApplySpec.

Definition APPLY_PATCH_COMMANDS : list str := [$"apply_patch"; $"applypatch"].

Inductive ApplyPatchShell : Type := Unix | PowerShell | Cmd.

Inductive ExtractHeredocError : Type :=
| CommandDidNotStartWithApplyPatch
| FailedToLoadBashGrammar (e : str)
| HeredocNotUtf8 (e : str)
| FailedToParsePatchIntoAst
| FailedToFindHeredocBody.

Module MaybeApplyPatch.

Inductive t : Type :=
| Body (args : ApplyPatchArgs)
| ShellParseError (e : ExtractHeredocError)
| PatchParseError (e : ParseError)
| NotApplyPatch.

End MaybeApplyPatch.

Module ApplyPatchFileChange.

Inductive t (P : Type) : Type :=
| Add (content : str)
| Delete (content : str)
| Update (unified_diff : str) (move_path : option P) (new_content : str).
Arguments Add {P}.
Arguments Delete {P}.
Arguments Update {P}.

End ApplyPatchFileChange.

(** ** Shell names *)

(** [PathConvention::path_segments]: splits on the separators, keeping empty
    segments. *)
Definition path_segments (c : PathConvention) (path : str) : list str :=
  split_pred (fun ch => match c with
    | Posix => bool_decide (ch = 47%N)
    | Windows => bool_decide (ch = 47%N) || bool_decide (ch = 92%N)
    end) path.

Definition shell_stem (basename : str) : str :=
  match rsplit_once 46%N basename with
  | Some (stem, _) => if is_empty stem then basename else stem
  | None => basename
  end.

Definition classify_shell_name (shell : str) (convention : PathConvention) : option str :=
  match last (path_segments convention shell) with
  | Some basename => Some (to_ascii_lowercase (shell_stem basename))
  | None => None
  end.

Definition classify_shell (shell flag : str) (convention : PathConvention)
  : option ApplyPatchShell :=
  match classify_shell_name shell convention with
  | None => None
  | Some name =>
      if one_of name [$"bash"; $"zsh"; $"sh"] && one_of flag [$"-lc"; $"-c"] then Some Unix
      else if one_of name [$"pwsh"; $"powershell"] && eq_ignore_ascii_case flag ($"-command")
      then Some PowerShell
      else if one_of name [$"cmd"] && eq_ignore_ascii_case flag ($"/c") then Some Cmd
      else None
  end.

Definition can_skip_flag (shell flag : str) (convention : PathConvention) : bool :=
  match classify_shell_name shell convention with
  | Some name =>
      one_of name [$"pwsh"; $"powershell"] && eq_ignore_ascii_case flag ($"-noprofile")
  | None => false
  end.

(** [parse_shell_script], given the convention of the working directory. *)
Definition parse_shell_script (argv : list str) (convention : option PathConvention)
  : option (ApplyPatchShell * str) :=
  match convention with
  | None => None
  | Some convention =>
      match argv with
      | [shell; flag; script] =>
          match classify_shell shell flag convention with
          | Some shell_type => Some (shell_type, script)
          | None => None
          end
      | [shell; skip_flag; flag; script] =>
          if negb (can_skip_flag shell skip_flag convention) then None
          else match classify_shell shell flag convention with
               | Some shell_type => Some (shell_type, script)
               | None => None
               end
      | _ => None
      end
  end.

(** ** Heredocs *)

(** One capture of a query match: its name and the text of its node, or the
    error when the node is not UTF-8. *)
Definition capture : Type := (str * result str str)%type.

Definition unquote (raw : str) : str :=
  match strip_prefix [39%N] raw with
  | Some s => match strip_suffix [39%N] s with Some t => t | None => raw end
  | None => raw
  end.

(** The [for capture in m.captures] loop: the heredoc and the [cd] path. *)
Fixpoint read_captures (cs : list capture) (heredoc cd_path : option str)
  : result (option str * option str) ExtractHeredocError :=
  match cs with
  | [] => Ok (heredoc, cd_path)
  | (name, text) :: cs' =>
      if bool_decide (name = $"heredoc") then
        let? t := map_err HeredocNotUtf8 text in
        read_captures cs' (Some (trim_end_matches LF t)) cd_path
      else if bool_decide (name = $"cd_path") then
        let? t := map_err HeredocNotUtf8 text in read_captures cs' heredoc (Some t)
      else if bool_decide (name = $"cd_raw_string") then
        let? t := map_err HeredocNotUtf8 text in read_captures cs' heredoc (Some (unquote t))
      else read_captures cs' heredoc cd_path
  end.

Fixpoint first_heredoc (matches : list (list capture))
  : result (str * option str) ExtractHeredocError :=
  match matches with
  | [] => Err CommandDidNotStartWithApplyPatch
  | m :: rest =>
      let? (heredoc, cd_path) := read_captures m None None in
      match heredoc with
      | Some heredoc => Ok (heredoc, cd_path)
      | None => first_heredoc rest
      end
  end.

Module Invocation.

Section invocation.
Context {W P : Type} `{Countable P} `{!PathUriOps P} `{!ExecutorFileSystem W P}.
(** Tree-sitter: the matches of the bash query in a script. *)
Context (bash_query : str -> result (list (list capture)) ExtractHeredocError).
(** The [similar] crate: a unified diff with a context radius. *)
Context (unified_diff : str -> str -> nat -> str).

Definition extract_apply_patch_from_bash (src : str)
  : result (str * option str) ExtractHeredocError :=
  let? matches := bash_query src in first_heredoc matches.

Definition extract_apply_patch_from_shell (shell : ApplyPatchShell) (script : str)
  : result (str * option str) ExtractHeredocError :=
  match shell with Unix | PowerShell | Cmd => extract_apply_patch_from_bash script end.

Definition patch_body (text : str) (workdir : option str) : MaybeApplyPatch.t :=
  match PatchText.parse_patch text with
  | Ok source =>
      MaybeApplyPatch.Body (mkArgs (patch source) (hunks source) workdir
                              (args_environment_id source))
  | Err e => MaybeApplyPatch.PatchParseError e
  end.

Definition maybe_parse_shell (argv : list str) (cwd : P) : MaybeApplyPatch.t :=
  match parse_shell_script argv (infer_path_convention cwd) with
  | Some (shell, script) =>
      match extract_apply_patch_from_shell shell script with
      | Ok (body, workdir) => patch_body body workdir
      | Err CommandDidNotStartWithApplyPatch => MaybeApplyPatch.NotApplyPatch
      | Err e => MaybeApplyPatch.ShellParseError e
      end
  | None => MaybeApplyPatch.NotApplyPatch
  end.

Definition maybe_parse_apply_patch (argv : list str) (cwd : P) : MaybeApplyPatch.t :=
  match argv with
  | [cmd; body] =>
      if one_of cmd APPLY_PATCH_COMMANDS then
        match PatchText.parse_patch body with
        | Ok source => MaybeApplyPatch.Body source
        | Err e => MaybeApplyPatch.PatchParseError e
        end
      else maybe_parse_shell argv cwd
  | _ => maybe_parse_shell argv cwd
  end.

(** ** Verification *)

Record ApplyPatchAction : Type := mkAction {
  action_changes : gmap P (ApplyPatchFileChange.t P);
  action_update_file_mode : ApplyPatchFileUpdateMode;
  action_patch : str;
  action_cwd : P;
}.

Inductive MaybeApplyPatchVerified : Type :=
| VBody (action : ApplyPatchAction)
| VShellParseError (e : ExtractHeredocError)
| VCorrectnessError (e : ApplyPatchError)
| VNotApplyPatch.

Record ApplyPatchFileUpdate : Type := mkUpdate {
  update_unified_diff : str;
  update_original_content : str;
  update_content : str;
}.

Definition verifyM (A : Type) : Type := stM W ApplyPatchError A.

(** [unified_diff_from_chunks_with_context_and_mode] of file_update.rs. *)
Definition unified_diff_from_chunks_with_context_and_mode (path : P)
    (chunks : list UpdateFileChunk) (context : nat) (mode : ApplyPatchFileUpdateMode)
  : verifyM ApplyPatchFileUpdate :=
  let* patched := derive_new_contents_from_chunks path chunks mode true in
  st_ret (mkUpdate (unified_diff (original_contents patched) (new_contents patched) context)
            (original_contents patched) (new_contents patched)).

Definition unified_diff_from_chunks_with_mode (path : P) (chunks : list UpdateFileChunk)
    (mode : ApplyPatchFileUpdateMode) : verifyM ApplyPatchFileUpdate :=
  unified_diff_from_chunks_with_context_and_mode path chunks 1 mode.

Definition multiple_operations (path : P) : ApplyPatchError :=
  EParse (InvalidPatchError ($"multiple operations target " ++ inferred_native_path_string path)).

Definition read_failed (path : P) (e : io_error) : ApplyPatchError :=
  EIo (mkIoError ($"Failed to read " ++ inferred_native_path_string path) e).

Definition read_for_verify (path : P) : verifyM str := fun w =>
  let '(r, w') := read_file_text path true w in
  (of_result (map_err (read_failed path) r), w').

(** [move_path.map(|path| cwd.join(path)).transpose()?] *)
Definition resolve_move (cwd : P) (move_path : option str) : result (option P) ApplyPatchError :=
  match move_path with
  | None => Ok None
  | Some dest => let? d := map_err EPathUri (uri_join cwd dest) in Ok (Some d)
  end.

(** The change one hunk proposes. *)
Definition hunk_change (cwd : P) (mode : ApplyPatchFileUpdateMode) (path : P) (h : Hunk)
  : verifyM (ApplyPatchFileChange.t P) :=
  match h with
  | AddFile _ contents => st_ret (ApplyPatchFileChange.Add contents)
  | DeleteFile _ =>
      let* content := read_for_verify path in st_ret (ApplyPatchFileChange.Delete content)
  | UpdateFile _ move_path chunks =>
      let* u := unified_diff_from_chunks_with_mode path chunks mode in
      let* dest := st_try (resolve_move cwd move_path) in
      st_ret (ApplyPatchFileChange.Update (update_unified_diff u) dest (update_content u))
  end.

Fixpoint verify_hunks (cwd : P) (mode : ApplyPatchFileUpdateMode) (hs : list Hunk)
    (changes : gmap P (ApplyPatchFileChange.t P)) : verifyM (gmap P (ApplyPatchFileChange.t P)) :=
  match hs with
  | [] => st_ret changes
  | h :: hs' =>
      let* path := st_try (map_err EPathUri (resolve_path h cwd)) in
      if bool_decide (is_Some (changes !! path)) then st_fail (multiple_operations path)
      else
        let* c := hunk_change cwd mode path h in
        verify_hunks cwd mode hs' (<[path:=c]> changes)
  end.

Definition try_verify_apply_patch_args (args : ApplyPatchArgs) (cwd : P)
    (mode : ApplyPatchFileUpdateMode) : verifyM ApplyPatchAction :=
  let* effective_cwd := st_try (map_err EPathUri
      match workdir args with Some dir => uri_join cwd dir | None => Ok cwd end) in
  let* changes := verify_hunks effective_cwd mode (hunks args) ∅ in
  st_ret (mkAction changes mode (patch args) effective_cwd).

(** [verify_apply_patch_args_with_mode]; a panic of the program is one here. *)
Definition verify_apply_patch_args_with_mode (args : ApplyPatchArgs) (cwd : P)
    (mode : ApplyPatchFileUpdateMode) : verifyM MaybeApplyPatchVerified := fun w =>
  match try_verify_apply_patch_args args cwd mode w with
  | (Done action, w') => (Done (VBody action), w')
  | (Fail e, w') => (Done (VCorrectnessError e), w')
  | (Panic, w') => (Panic, w')
  end.

Definition is_implicit_invocation (argv : list str) (cwd : P) : bool :=
  match argv with [body] => is_ok (PatchText.parse_patch body) | _ => false end
  || match parse_shell_script argv (infer_path_convention cwd) with
     | Some (_, script) => is_ok (PatchText.parse_patch script)
     | None => false
     end.

Definition maybe_parse_apply_patch_verified_with_mode (argv : list str) (cwd : P)
    (mode : ApplyPatchFileUpdateMode) : verifyM MaybeApplyPatchVerified :=
  if is_implicit_invocation argv cwd then st_ret (VCorrectnessError EImplicitInvocation)
  else match maybe_parse_apply_patch argv cwd with
  | MaybeApplyPatch.Body args => verify_apply_patch_args_with_mode args cwd mode
  | MaybeApplyPatch.ShellParseError e => st_ret (VShellParseError e)
  | MaybeApplyPatch.PatchParseError e => st_ret (VCorrectnessError (EParse e))
  | MaybeApplyPatch.NotApplyPatch => st_ret VNotApplyPatch
  end.

(** only an explicit call is ever turned into changes: a verified action
    comes either from [apply_patch <patch>] (or [applypatch]), or from a shell
    script that is not itself a patch and whose heredoc the bash query found; the
    body parses, and a [cd] before it becomes the working directory. *)
Theorem verified_body_source argv cwd0 mode w action w1 :
  maybe_parse_apply_patch_verified_with_mode argv cwd0 mode w
    = (Done (VBody action), w1) ->
  exists args, try_verify_apply_patch_args args cwd0 mode w = (Done action, w1)
  /\ ((exists cmd body, argv = [cmd; body] /\ In cmd APPLY_PATCH_COMMANDS
          /\ PatchText.parse_patch body = Ok args)
      \/ exists shell script body wd source,
          parse_shell_script argv (infer_path_convention cwd0) = Some (shell, script)
          /\ is_ok (PatchText.parse_patch script) = false
          /\ extract_apply_patch_from_bash script = Ok (body, wd)
          /\ PatchText.parse_patch body = Ok source
          /\ args = mkArgs (patch source) (hunks source) wd (args_environment_id source)).
Proof.
  unfold maybe_parse_apply_patch_verified_with_mode.
  destruct (is_implicit_invocation argv cwd0) eqn:Eimp; [done|]. intros E.
  destruct (maybe_parse_apply_patch argv cwd0) as [args|e|e|] eqn:Em; try done.
  exists args. split.
  { unfold verify_apply_patch_args_with_mode in E.
    by destruct (try_verify_apply_patch_args _ _ _ _) as [[]]; simplify_eq. }
  assert (maybe_parse_shell argv cwd0 = MaybeApplyPatch.Body args ->
    exists shell script body wd source,
          parse_shell_script argv (infer_path_convention cwd0) = Some (shell, script)
          /\ is_ok (PatchText.parse_patch script) = false
          /\ extract_apply_patch_from_bash script = Ok (body, wd)
          /\ PatchText.parse_patch body = Ok source
          /\ args = mkArgs (patch source) (hunks source) wd (args_environment_id source)) as Hsh.
  { unfold maybe_parse_shell. apply orb_false_elim in Eimp as [_ Eimp].
    destruct (parse_shell_script argv _) as [[shell script]|]; [|done].
    destruct (extract_apply_patch_from_shell shell script) as [[body wd]|e] eqn:Ex;
      [|by destruct e].
    unfold patch_body. destruct (PatchText.parse_patch body) as [source|] eqn:Ep; [|done].
    intros [= <-]. exists shell, script, body, wd, source. split; [done|].
    split; [done|]. split; [by destruct shell|done]. }
  unfold maybe_parse_apply_patch in Em.
  destruct argv as [|cmd [|body [|? ?]]]; [by right; apply Hsh..| |by right; apply Hsh].
  destruct (one_of cmd APPLY_PATCH_COMMANDS) eqn:Ec; [|right; by apply Hsh].
  left. exists cmd, body. split; [done|]. split.
  - unfold one_of in Ec. apply existsb_exists in Ec as (x & Hx & Ex).
    by apply bool_decide_eq_true in Ex as ->.
  - by destruct (PatchText.parse_patch body); simplify_eq.
Qed.

End invocation.

Definition demo_diff (old new : str) (_ : nat) : str := old ++ new.

(** A shell call whose heredoc holds the patch, found by a one-match query. *)
Definition heredoc_argv : list str := [$"bash"; $"-lc"; $"cd sub && apply_patch <<EOF"].

Definition heredoc_query (_ : str) : result (list (list capture)) ExtractHeredocError :=
  Ok [[($"cd_raw_string", Ok ($"'sub'"));
       ($"heredoc", Ok (join [LF] [$"*** Begin Patch"; $"*** Add File: x"; $"+one";
                                   $"*** End Patch"; []]))]].

Lemma verified_body_source_witness :
  match maybe_parse_apply_patch_verified_with_mode heredoc_query demo_diff heredoc_argv
          ([] : list str) NormalizeToLf (∅ : gmap (list str) MemFs.node) with
  | (Done (VBody action), w1) =>
      action_cwd action = [$"sub"] /\
      exists args, try_verify_apply_patch_args demo_diff args [] NormalizeToLf (∅ : gmap (list str) MemFs.node)
                   = (Done action, w1)
  | _ => False
  end.
Proof.
  assert (match maybe_parse_apply_patch_verified_with_mode heredoc_query demo_diff heredoc_argv
            ([] : list str) NormalizeToLf (∅ : gmap (list str) MemFs.node) with
    | (Done (VBody action), _) => bool_decide (action_cwd action = [$"sub"])
    | _ => false
    end = true) as Hok by (vm_compute; reflexivity).
  destruct (maybe_parse_apply_patch_verified_with_mode heredoc_query demo_diff heredoc_argv
          [] NormalizeToLf (∅ : gmap (list str) MemFs.node)) as [[[action| | |]|e|] w1] eqn:E; try discriminate Hok.
  split; [by apply bool_decide_eq_true in Hok|].
  destruct (verified_body_source heredoc_query demo_diff heredoc_argv [] NormalizeToLf
    (∅ : gmap (list str) MemFs.node) _ _ E) as (args & Hargs & _).
  exists args. exact Hargs.
Defined.

End Invocation.

(** * Verification tells what applying will do

    Invocation.v computes, before anything is written, the changes shown for
    approval; PatchApply.v performs the patch.  When the files named by a patch
    are pairwise distinct, what was shown is what happens. *)

Module InvocationSpec.
Import PatchApplySpec Invocation.

Section spec.
Context {W P : Type} `{Countable P} `{!PathUriOps P} `{!ExecutorFileSystem W P}.
Context (look : W -> view P) `{!FileSystemLaws W P look}.
Context (unified_diff : str -> str -> nat -> str).
Context (cwd : P) (mode : ApplyPatchFileUpdateMode).

Notation Change := (ApplyPatchFileChange.t P).

(** The files a hunk names. *)
Definition touched (h : Hunk) : list P :=
  match resolve_path h cwd with
  | Ok u => u :: match h with
                 | UpdateFile _ (Some dest) _ =>
                     match uri_join cwd dest with Ok d => [d] | Err _ => [] end
                 | _ => []
                 end
  | Err _ => []
  end.

(** The proposed change [c] is what hunk [h] means for the texts [v]. *)
Definition promised (v : view P) (h : Hunk) (p : P) (c : Change) : Prop :=
  match h, c with
  | AddFile _ t, ApplyPatchFileChange.Add t' => t = t'
  | DeleteFile _, ApplyPatchFileChange.Delete t => v p = Some t
  | UpdateFile _ mv chunks, ApplyPatchFileChange.Update _ d new =>
      exists old, v p = Some old
      /\ FileUpdate.derive_new_contents old (inferred_native_path_string p) chunks mode = Done new
      /\ resolve_move cwd mv = Ok d
  | _, _ => False
  end.

(** The texts [v] show the change [c] made at [p]. *)
Definition delivered (v : view P) (p : P) (c : Change) : Prop :=
  match c with
  | ApplyPatchFileChange.Add t => v p = Some t
  | ApplyPatchFileChange.Delete _ => v p = None
  | ApplyPatchFileChange.Update _ None new => v p = Some new
  | ApplyPatchFileChange.Update _ (Some d) new => v d = Some new /\ v p = None
  end.

Lemma promised_ext v v' h p c : v' p = v p -> promised v h p c -> promised v' h p c.
Proof. intros E. unfold promised. by rewrite E. Qed.

(** ** Verification only reads, and records what each hunk means *)

Lemma derive_reads path chunks w o w' :
  derive_new_contents_from_chunks path chunks mode true w = (o, w') ->
  look w' =v look w /\ forall patched, o = Done patched ->
    look w path = Some (original_contents patched)
    /\ FileUpdate.derive_new_contents (original_contents patched)
         (inferred_native_path_string path) chunks mode = Done (new_contents patched).
Proof.
  unfold derive_new_contents_from_chunks.
  destruct (read_file_text path true w) as [[t|e] w1] eqn:E; intros [= <- <-];
    apply read_law in E as [Hl Hr]; (split; [done|]); intros patched Hp; [|done].
  destruct (FileUpdate.derive_new_contents _ _ _ _) eqn:Ed; [|done|done].
  by injection Hp as <-.
Qed.

Lemma hunk_change_reads path h w o w' :
  hunk_change unified_diff cwd mode path h w = (o, w') ->
  look w' =v look w /\ forall c, o = Done c -> promised (look w) h path c.
Proof.
  destruct h as [p t|p|p mv chunks]; simpl.
  - intros [= <- <-]. split; [done|]. by intros c [= <-].
  - unfold st_bind, read_for_verify. destruct (read_file_text path true w) as [[t|e] w1] eqn:E;
      intros [= <- <-]; apply read_law in E as [Hl Hr]; (split; [done|]); intros c Hc; [|done].
    by injection Hc as <-.
  - unfold unified_diff_from_chunks_with_mode, unified_diff_from_chunks_with_context_and_mode.
    unfold st_bind. destruct (derive_new_contents_from_chunks path chunks mode true w)
      as [[patched|e|] w1] eqn:E; apply derive_reads in E as [Hl Hp]; simpl;
      [|by intros [= <- <-]..].
    destruct (Hp _ eq_refl) as [Hold Hnew]. unfold st_try.
    destruct (resolve_move cwd mv) as [d|e] eqn:Em; simpl; intros [= <- <-];
      (split; [done|]); intros c Hc; [|done]. injection Hc as <-. simpl. eauto.
Qed.

Lemma verify_hunks_reads hs : forall changes w changes' w',
  verify_hunks unified_diff cwd mode hs changes w = (Done changes', w') ->
  look w' =v look w
  /\ (forall p c, changes' !! p = Some c -> changes !! p = Some c
       \/ exists h, In h hs /\ resolve_path h cwd = Ok p /\ promised (look w) h p c)
  /\ (forall p, is_Some (changes !! p) -> is_Some (changes' !! p)).
Proof.
  induction hs as [|h hs IH]; simpl; intros changes w changes' w'.
  { intros [= -> ->]. split; [done|]. split; auto. }
  unfold st_bind at 1, st_try. destruct (resolve_path h cwd) as [p|e] eqn:Ep; simpl; [|done].
  case_bool_decide as Hfree; [done|]. unfold st_bind.
  destruct (hunk_change unified_diff cwd mode p h w) as [[c|e|] w1] eqn:Ec; [|done..].
  apply hunk_change_reads in Ec as [Hl1 Hc]. specialize (Hc c eq_refl). intros E.
  apply IH in E as (Hl2 & Hch & Hkeep). split; [by rewrite Hl2|]. split.
  - intros q d Hq. apply Hch in Hq as [Hq|(h' & Hin & Hr & Hp)].
    + destruct (decide (q = p)) as [->|Hne].
      * rewrite lookup_insert_eq in Hq. injection Hq as ->. right. exists h. auto.
      * rewrite lookup_insert_ne in Hq by done. auto.
    + right. exists h'. split; [by right|]. split; [done|].
      apply (promised_ext (look w1)); [by rewrite (Hl1 q)|done].
  - intros q Hq. apply Hkeep. destruct (decide (q = p)) as [->|Hne];
      [by rewrite lookup_insert_eq; eauto|by rewrite lookup_insert_ne].
Qed.

(** ** Applying touches only the files named *)

Lemma hunk_effect_keep h v v' q :
  hunk_effect mode cwd h v v' -> ~ In q (touched h) -> v' q = v q.
Proof.
  intros (u & Hu & He) Hq. unfold touched in Hq. rewrite Hu in Hq.
  destruct h as [p t|p|p mv chunks].
  - rewrite (He q). apply upd_other. naive_solver.
  - rewrite (He q). apply upd_other. naive_solver.
  - destruct He as (old & new & _ & _ & Hm). destruct mv as [dest|].
    + destruct Hm as (d & Hd & Hm). rewrite Hd in Hq. rewrite (Hm q).
      rewrite !upd_other by naive_solver. done.
    + rewrite (Hm q). apply upd_other. naive_solver.
Qed.

Lemma effects_keep hs v v' q :
  effects mode cwd hs v v' -> ~ In q (concat (map touched hs)) -> v' q = v q.
Proof.
  induction 1 as [v v' Hv|hs h v v1 v2 _ IH Hh]; intros Hq; [apply Hv|].
  rewrite map_app, concat_app, in_app_iff in Hq. simpl in Hq. rewrite app_nil_r in Hq.
  rewrite (hunk_effect_keep h v1 v2) by auto. auto.
Qed.

Lemma hunk_effect_delivers h v v' p c :
  NoDup (touched h) -> resolve_path h cwd = Ok p ->
  hunk_effect mode cwd h v v' -> promised v h p c -> delivered v' p c.
Proof.
  intros Hnd Hp (u & Hu & He) Hc. rewrite Hp in Hu. injection Hu as <-.
  unfold touched in Hnd. rewrite Hp in Hnd.
  destruct h as [q t|q|q mv chunks], c as [t'|t'|df d new]; try done; simpl in Hc.
  - subst t'. simpl. by rewrite (He p), upd_same.
  - simpl. by rewrite (He p), upd_same.
  - destruct Hc as (old & Hold & Hnew & Hmv), He as (old' & new' & Hold' & Hnew' & Hm).
    assert (new' = new) as -> by congruence.
    destruct mv as [dest|]; simpl in Hmv.
    + destruct Hm as (d' & Hd' & Hm). rewrite Hd' in *. simpl in Hmv. injection Hmv as <-.
      assert (d' <> p) as Hne by (intros ->; inversion Hnd as [|? ? Hn]; apply Hn; by left).
      simpl. rewrite (Hm d'), (Hm p), upd_same, upd_other by done. by rewrite upd_same.
    + injection Hmv as <-. simpl. by rewrite (Hm p), upd_same.
Qed.

(** Paths at which [delivered] looks. *)
Lemma delivered_ext v v' p c :
  v' p = v p -> (forall df d new, c = ApplyPatchFileChange.Update df (Some d) new -> v' d = v d) ->
  delivered v p c -> delivered v' p c.
Proof.
  intros Hp Hd. unfold delivered. destruct c as [|?|df [d|] new]; try by rewrite Hp.
  rewrite Hp, (Hd df d new eq_refl). done.
Qed.

Lemma promised_touched v h p c df d new :
  resolve_path h cwd = Ok p -> promised v h p c ->
  c = ApplyPatchFileChange.Update df (Some d) new -> In d (touched h).
Proof.
  intros Hp Hc ->. unfold touched. rewrite Hp. destruct h as [|?|q [dest|] chunks]; try done;
    destruct Hc as (_ & _ & _ & Hmv); simpl in Hmv; [|done].
  destruct (uri_join cwd dest); [|done]. injection Hmv as ->. right. by left.
Qed.

Lemma effects_deliver hs v v' h p c :
  NoDup (concat (map touched hs)) -> effects mode cwd hs v v' -> In h hs ->
  resolve_path h cwd = Ok p -> promised v h p c -> delivered v' p c.
Proof.
  intros Hnd He. revert h p c Hnd.
  induction He as [v v' Hv|hs g v v1 v2 He IH Hg]; intros h p c Hnd Hin Hp Hc; [done|].
  rewrite map_app, concat_app in Hnd. simpl in Hnd. rewrite app_nil_r in Hnd.
  apply NoDup_app in Hnd as (Hnd1 & Hdis & Hnd2).
  assert (Hpt : In p (touched h)) by (unfold touched; rewrite Hp; by left).
  apply in_app_iff in Hin as [Hin|[->|[]]].
  - assert (forall q, In q (touched h) -> ~ In q (touched g)) as Hsep.
    { intros q Hq Hq'. apply (Hdis q); apply list_elem_of_In; [|done].
      apply in_concat. exists (touched h). split; [by apply in_map|done]. }
    apply (delivered_ext v1); [|intros df d new Hdd|by eapply IH].
    + apply (hunk_effect_keep g); [done|by apply Hsep].
    + apply (hunk_effect_keep g); [done|]. apply Hsep. by eapply promised_touched.
  - eapply (hunk_effect_delivers h v1); [done|done|done|].
    apply (promised_ext v); [|done]. eapply effects_keep; [done|]. intros Hin.
    by apply (Hdis p); apply list_elem_of_In.
Qed.


(** what verification shows is what applying does: if the files named by a
    patch (and its move destinations) are pairwise distinct, and the verified
    patch is then applied without error, every proposed change is delivered -
    added files hold the proposed text, deleted files are gone, updated files
    hold the proposed new content, moved files sit at their destination only. *)
Theorem verified_then_applied args cwd0 w action w1 a s :
  Forall wf_hunk (hunks args) ->
  try_verify_apply_patch_args unified_diff args cwd0 mode w = (Done action, w1) ->
  action_cwd action = cwd ->
  NoDup (concat (map touched (hunks args))) ->
  apply_hunks_to_files (hunks args) (mkOptions mode true) cwd (fresh w1) = (Done a, s) ->
  forall p c, action_changes action !! p = Some c -> delivered (look (fs s)) p c.
Proof.
  intros Hwf Hv Hcwd Hnd Ha p c Hc.
  pose proof (apply_hunks_point look (hunks args) (mkOptions mode true) cwd (fresh w1) Hwf
    eq_refl) as H1. rewrite Ha in H1.
  destruct H1 as (_ & He & _). unfold try_verify_apply_patch_args, st_bind, st_try in Hv.
  destruct (map_err _ _) as [eff|]; simpl in Hv; [|done].
  destruct (verify_hunks unified_diff eff mode (hunks args) ∅ w) as [[ch|e|] w2] eqn:Ev; [|done..].
  injection Hv as <- <-. simpl in Hcwd, Hc. subst eff.
  apply verify_hunks_reads in Ev as (Hl & Hch & _).
  apply Hch in Hc as [Hc|(h & Hin & Hr & Hp)]; [by rewrite lookup_empty in Hc|].
  eapply (effects_deliver (hunks args)); [done|done|done|done|].
  apply (promised_ext (look w)); [apply Hl|done].
Qed.

End spec.

(** ** A run: verify, then apply *)

Definition demo_args : ApplyPatchArgs := mkArgs [] demo_hunks None None.

Lemma verified_then_applied_witness :
  match try_verify_apply_patch_args demo_diff demo_args ([] : list str) NormalizeToLf demo_world with
  | (Done action, w1) =>
      match apply_hunks_to_files demo_hunks (mkOptions NormalizeToLf true) (action_cwd action)
              (fresh w1) with
      | (Done a, s) => length (map_to_list (action_changes action)) = 3
          /\ forall p c, action_changes action !! p = Some c ->
               delivered (MemFs.look (fs s)) p c
      | _ => False
      end
  | _ => False
  end.
Proof.
  assert (match try_verify_apply_patch_args demo_diff demo_args ([] : list str) NormalizeToLf
                  demo_world with
    | (Done action, w1) =>
        (length (map_to_list (action_changes action)) =? 3)
        && bool_decide (action_cwd action = [])
        && succeeded (apply_hunks_to_files demo_hunks (mkOptions NormalizeToLf true)
             (action_cwd action) (fresh w1))
    | _ => false
    end = true) as Hok by (vm_compute; reflexivity).
  destruct (try_verify_apply_patch_args demo_diff demo_args [] NormalizeToLf demo_world)
    as [[action|e|] w1] eqn:Ev; [|discriminate..].
  apply andb_prop in Hok as [Hok Hsucc]. apply andb_prop in Hok as [Hsize Hcwd].
  apply bool_decide_eq_true in Hcwd. apply Nat.eqb_eq in Hsize.
  destruct (apply_hunks_to_files demo_hunks _ _ (fresh w1)) as [[a|e|] s] eqn:Ea; [|discriminate..].
  split; [exact Hsize|].
  apply (verified_then_applied MemFs.look demo_diff (action_cwd action) NormalizeToLf
    demo_args [] demo_world action w1 a s demo_hunks_wf Ev eq_refl); [|exact Ea].
  rewrite Hcwd. apply (bool_decide_unpack _). vm_compute. exact I.
Defined.

End InvocationSpec.
