(* ===== verification/AbsolutePath.v ===== *)
(** * Absolute, normalised paths

    utils/absolute-path/src/{lib,absolutize}.rs as compiled for Unix:
    [AbsolutePathBuf] and the lexical normalisation behind it.  A path is its
    text; the home directory and the current directory, which the process asks
    the system for, are arguments. *)

From S2P Require Import Prelude RustStr PatchTypes.

Module AbsolutePath.

Definition SLASH : char := 47%N.

(** ** [std::path] on Unix *)

Inductive Component : Type :=
| RootDir
| CurDir
| ParentDir
| Normal (name : str).

#[export] Instance Component_eq_dec : EqDecision Component.
Proof. solve_decision. Defined.

Definition is_absolute (p : str) : bool := starts_with p [SLASH].

(** A separated piece that is not the leading one: empty pieces and [.] are
    skipped. *)
Definition piece (s : str) : list Component :=
  if is_empty s || bool_decide (s = $".") then []
  else if bool_decide (s = $"..") then [ParentDir] else [Normal s].

(** [Path::components]. *)
Definition components (p : str) : list Component :=
  if is_absolute p then RootDir :: concat (map piece (split_char SLASH p))
  else match split_char SLASH p with
       | w :: ws =>
           (if bool_decide (w = $".") then [CurDir] else piece w) ++ concat (map piece ws)
       | [] => []
       end.

(** [Path::join]. *)
Definition path_join (base p : str) : str :=
  if is_absolute p then p
  else if is_empty base || ends_with base [SLASH] then base ++ p
  else base ++ SLASH :: p.

(** ** absolutize.rs

    The [PathBuf] [normalize_path] builds holds a root, or not, and names. *)

Record normalized : Type := mkNormalized { rooted : bool; names : list str }.

Definition render (n : normalized) : str :=
  if rooted n then SLASH :: join [SLASH] (names n) else join [SLASH] (names n).

Definition normalize_step (n : normalized) (c : Component) : normalized :=
  match c with
  | CurDir => n
  | ParentDir => mkNormalized (rooted n) (removelast (names n))
  | RootDir => mkNormalized true []
  | Normal name => mkNormalized (rooted n) (names n ++ [name])
  end.

Definition normalize_components (cs : list Component) : normalized :=
  fold_left normalize_step cs (mkNormalized false []).

Definition normalize_path (path : str) : str :=
  let text := render (normalize_components (components path)) in
  if is_empty text then $"." else text.

Definition path_with_base (path base_path : str) : str :=
  if is_absolute path then path else path_join base_path path.

Definition absolutize_from (path base_path : str) : str :=
  normalize_path (path_with_base path base_path).

(** ** [AbsolutePathBuf] (lib.rs) *)

Section env.
(** [AbsolutePathBufGuard::home_directory()] and [std::env::current_dir()]. *)
Context (home_directory : option str) (current_dir : result str io_error).

Definition absolutize (path : str) : result str io_error :=
  if is_absolute path then Ok (normalize_path path)
  else let? cwd := current_dir in Ok (absolutize_from path cwd).

Definition maybe_expand_home_directory (path : str) : str :=
  match strip_prefix [126%N] path, home_directory with
  | Some rest, Some home =>
      if is_empty rest then home
      else match strip_prefix [SLASH] rest with
           | Some rest => path_join home (trim_start_matches SLASH rest)
           | None => path
           end
  | _, _ => path
  end.

Definition resolve_path_against_base (path base_path : str) : str :=
  absolutize_from (maybe_expand_home_directory path) base_path.

Definition from_absolute_path (path : str) : result str io_error :=
  absolutize (maybe_expand_home_directory path).

Definition from_absolute_path_checked (path : str) : result str io_error :=
  let expanded := maybe_expand_home_directory path in
  if negb (is_absolute expanded)
  then Err (mkIo KInvalidInput ($"path is not absolute: " ++ path))
  else Ok (absolutize_from expanded [SLASH]).

Definition relative_to_current_dir (path : str) : result str io_error :=
  let? cwd := current_dir in Ok (resolve_path_against_base path cwd).

(** [AbsolutePathBuf::join]. *)
Definition abs_join (self path : str) : str := resolve_path_against_base path self.

End env.

(** [Path::file_name] of an absolute path. *)
Definition file_name (p : str) : option str :=
  match last (components p) with Some (Normal name) => Some name | _ => None end.

(** [Path::parent] on Unix: the text without its last component. *)
Fixpoint skip_trailing (ws : list str) : list str :=
  match ws with
  | w :: (_ :: _) as ws' => if is_empty w || bool_decide (w = $".") then skip_trailing ws' else ws
  | _ => ws
  end.

Definition path_parent (p : str) : option str :=
  match skip_trailing (rev (split_char SLASH p)) with
  | [] | [[]] => None
  | _ :: ws =>
      let text := join [SLASH] (rev (skip_trailing ws)) in
      Some (if is_empty text && is_absolute p then [SLASH] else text)
  end.

Example path_parent_examples :
  path_parent ($"/a/b") = Some ($"/a") /\ path_parent ($"/a") = Some ($"/")
  /\ path_parent ($"/") = None /\ path_parent [] = None /\ path_parent ($"a") = Some []
  /\ path_parent ($"a//b/") = Some ($"a") /\ path_parent ($"a/./b") = Some ($"a").
Proof. repeat split; reflexivity. Qed.

(** ** Canonical texts *)

(** A component name: not empty, not special, without separator. *)
Definition plain_name (s : str) : Prop :=
  s <> [] /\ s <> $"." /\ s <> $".." /\ ~ In SLASH s.

Definition canonical (p : str) : Prop :=
  exists ns, Forall plain_name ns /\ p = render (mkNormalized true ns).

Lemma is_absolute_true p : is_absolute p = true <-> exists t, p = SLASH :: t.
Proof. apply starts_with_true. Qed.

Lemma piece_names s c : ~ In SLASH s -> In c (piece s) ->
  c = ParentDir \/ exists n, c = Normal n /\ plain_name n.
Proof.
  unfold piece. intros Hs. destruct (is_empty s) eqn:E; [done|]. simpl.
  apply is_empty_false in E. repeat case_bool_decide; simpl; [done|naive_solver|].
  intros [<-|[]]. right. exists s. by repeat split.
Qed.

Definition clean (n : normalized) : Prop := Forall plain_name (names n).

Lemma removelast_Forall {A} (Q : A -> Prop) l : Forall Q l -> Forall Q (removelast l).
Proof.
  destruct (snoc_cases l) as [->|(l' & x & ->)]; [done|].
  rewrite removelast_last. by intros [? _]%Forall_app.
Qed.

Lemma normalize_step_clean n c :
  clean n -> (c = ParentDir \/ exists m, c = Normal m /\ plain_name m) ->
  clean (normalize_step n c) /\ rooted (normalize_step n c) = rooted n.
Proof.
  intros Hn [->|(m & -> & Hm)]; split; try done; unfold clean; simpl.
  - by apply removelast_Forall.
  - by apply Forall_snoc.
Qed.

Lemma fold_normalize_clean cs : forall n,
  clean n -> (forall c, In c cs -> c = ParentDir \/ exists m, c = Normal m /\ plain_name m) ->
  clean (fold_left normalize_step cs n) /\ rooted (fold_left normalize_step cs n) = rooted n.
Proof.
  induction cs as [|c cs IH]; intros n Hn Hcs; [done|]. simpl.
  destruct (normalize_step_clean n c Hn) as [Hc Hr]; [apply Hcs; by left|].
  destruct (IH (normalize_step n c) Hc) as [? ->]; [|done].
  intros d Hd. apply Hcs. by right.
Qed.

Lemma pieces_names ws c :
  Forall (fun w => ~ In SLASH w) ws -> In c (concat (map piece ws)) ->
  c = ParentDir \/ exists m, c = Normal m /\ plain_name m.
Proof.
  intros Hws Hc. apply in_concat in Hc as (l & Hl & Hc).
  apply in_map_iff in Hl as (w & <- & Hw). rewrite Forall_forall in Hws.
  eapply piece_names; [apply Hws|exact Hc]. by apply list_elem_of_In.
Qed.

(** Normalising an absolute path gives a canonical text. *)
Lemma normalize_absolute p : is_absolute p = true -> canonical (normalize_path p).
Proof.
  intros Hp. unfold normalize_path, components, normalize_components. rewrite Hp. simpl fold_left.
  destruct (fold_normalize_clean (concat (map piece (split_char SLASH p)))
              (mkNormalized true [])) as [Hc Hr].
  { by apply Forall_nil. }
  { intros c. apply pieces_names, split_char_pieces. }
  destruct (fold_left _ _ _) as [r ns]. simpl in Hr. subst r. by exists ns.
Qed.

Lemma canonical_absolute p : canonical p -> is_absolute p = true.
Proof. intros (ns & _ & ->). by apply is_absolute_true; eexists. Qed.

Lemma plain_piece s : plain_name s -> piece s = [Normal s].
Proof.
  intros (H1 & H2 & H3 & _). unfold piece. apply is_empty_false in H1. rewrite H1.
  by rewrite !bool_decide_eq_false_2.
Qed.

Lemma plain_pieces ns : Forall plain_name ns -> concat (map piece ns) = map Normal ns.
Proof.
  induction 1 as [|n ns Hn _ IH]; [done|]. simpl. by rewrite plain_piece, IH.
Qed.

Lemma components_canonical ns :
  Forall plain_name ns -> components (render (mkNormalized true ns)) = RootDir :: map Normal ns.
Proof.
  intros H. unfold components. simpl. unfold render; simpl. f_equal.
  destruct ns as [|n ns]; [done|].
  rewrite split_char_join; [|done|eapply Forall_impl; [exact H|]; by intros x (_ & _ & _ & ?)].
  simpl. by apply (plain_pieces (n :: ns)).
Qed.

Lemma fold_normals ns : forall n,
  fold_left normalize_step (map Normal ns) n = mkNormalized (rooted n) (names n ++ ns).
Proof.
  induction ns as [|m ns IH]; intros [r l]; simpl; [by rewrite app_nil_r|].
  rewrite IH. simpl. by rewrite <- app_assoc.
Qed.

Lemma normalize_canonical p : canonical p -> normalize_path p = p.
Proof.
  intros (ns & Hns & ->). unfold normalize_path, normalize_components.
  rewrite components_canonical by done. simpl fold_left. rewrite fold_normals. done.
Qed.

Lemma path_join_absolute base p : is_absolute base = true -> is_absolute (path_join base p) = true.
Proof.
  intros [t ->]%is_absolute_true. unfold path_join. destruct (is_absolute p) eqn:E; [done|].
  case_if; by apply is_absolute_true; eexists.
Qed.

Lemma absolutize_from_canonical p base :
  is_absolute base = true -> canonical (absolutize_from p base).
Proof.
  intros H. apply normalize_absolute. unfold path_with_base.
  destruct (is_absolute p) eqn:E; [done|by apply path_join_absolute].
Qed.

(** every constructor of [AbsolutePathBuf] keeps its promise when the current
    or base directory is absolute: the result is absolute, with no empty, [.] or
    [..] component, whatever the path and the home directory are. *)
Theorem absolute_path_canonical (home : option str) (cwd : result str io_error) (path : str) :
  (forall d, cwd = Ok d -> is_absolute d = true) ->
  (forall p, from_absolute_path home cwd path = Ok p -> canonical p)
  /\ (forall p, from_absolute_path_checked home path = Ok p -> canonical p)
  /\ (forall p, relative_to_current_dir home cwd path = Ok p -> canonical p)
  /\ (forall base, is_absolute base = true -> canonical (resolve_path_against_base home path base)).
Proof.
  intros Hcwd. split; [|split; [|split]].
  - intros p. unfold from_absolute_path, absolutize. destruct (is_absolute _) eqn:E.
    + intros [= <-]. by apply normalize_absolute.
    + destruct cwd as [d|]; intros [= <-]. apply absolutize_from_canonical. auto.
  - intros p. unfold from_absolute_path_checked. destruct (negb _); [done|].
    intros [= <-]. by apply absolutize_from_canonical.
  - intros p. unfold relative_to_current_dir. destruct cwd as [d|]; intros [= <-].
    apply absolutize_from_canonical. auto.
  - intros base Hb. by apply absolutize_from_canonical.
Qed.

Lemma absolute_path_canonical_witness :
  from_absolute_path (Some $"/home/u") (Ok $"/w") ($"~//x/../y") = Ok ($"/home/u/y")
  /\ from_absolute_path None (Ok $"/w") ($"../../a/./b") = Ok ($"/a/b")
  /\ canonical ($"/a/b").
Proof.
  assert (forall d, Ok $"/w" = Ok (E:=io_error) d -> is_absolute d = true) as Hcwd
    by (intros d [= <-]; reflexivity).
  split; [reflexivity|]. split; [reflexivity|].
  apply (proj1 (absolute_path_canonical None (Ok $"/w") ($"../../a/./b") Hcwd)). reflexivity.
Defined.

(** a canonical path is a fixed point: converting it again, resolving it
    against any base or joining it to any path gives it back unchanged. *)
Theorem canonical_fixpoint (home : option str) (cwd : result str io_error) (p base : str) :
  canonical p ->
  from_absolute_path home cwd p = Ok p /\ from_absolute_path_checked home p = Ok p
  /\ resolve_path_against_base home p base = p /\ abs_join home base p = p.
Proof.
  intros Hp. pose proof (canonical_absolute p Hp) as Ha.
  assert (maybe_expand_home_directory home p = p) as He.
  { apply is_absolute_true in Ha as [t ->]. done. }
  pose proof (normalize_canonical p Hp) as Hn.
  unfold from_absolute_path, from_absolute_path_checked, abs_join, resolve_path_against_base.
  rewrite He. unfold absolutize, absolutize_from, path_with_base. by rewrite Ha, Hn.
Qed.

Lemma canonical_fixpoint_witness :
  canonical ($"/usr/bin/git") /\
  from_absolute_path None (Err (mkIo KNotFound [])) ($"/usr/bin/git") = Ok ($"/usr/bin/git").
Proof.
  assert (canonical ($"/usr/bin/git")) as H by (by apply (normalize_absolute ($"/usr/bin/git"))).
  split; [exact H|].
  apply (canonical_fixpoint None (Err (mkIo KNotFound [])) ($"/usr/bin/git") [] H).
Defined.

End AbsolutePath.
