(* ===== verification/ExecRules.v ===== *)
(** * Rules of the execution policy

    execpolicy/src/{decision,error,executable_name,rule}.rs: decisions and their
    order, prefix patterns and their matching, rule matches, network rules and
    the normalisation of their hosts.  A [RuleRef] is always a [PrefixRule], the
    only implementation of the [Rule] trait. *)

From S2P Require Import Prelude RustStr PatchTypes AbsolutePath.

(** ** Decisions (decision.rs) *)

Inductive Decision : Type := Allow | Prompt | Forbidden.

#[export] Instance Decision_eq_dec : EqDecision Decision.
Proof. solve_decision. Defined.

(** The derived order: declaration order. *)
Definition strictness (d : Decision) : nat :=
  match d with Allow => 0 | Prompt => 1 | Forbidden => 2 end.

Definition decision_max (a b : Decision) : Decision :=
  if strictness a <=? strictness b then b else a.

Lemma strictness_inj a b : strictness a = strictness b -> a = b.
Proof. by destruct a, b. Qed.

Lemma decision_max_strictness a b :
  strictness (decision_max a b) = Nat.max (strictness a) (strictness b).
Proof. by destruct a, b. Qed.

(** ** Errors (error.rs) *)

Record TextPosition : Type := mkPosition { line : nat; column : nat }.
Record TextRange : Type := mkRange { range_start : TextPosition; range_end : TextPosition }.
Record ErrorLocation : Type := mkLocation { location_path : str; location_range : TextRange }.

(** A [StarlarkError] is its message and its span. *)
Inductive Error : Type :=
| InvalidDecision (raw : str)
| InvalidPattern (message : str)
| InvalidExample (message : str)
| InvalidRule (message : str)
| ExampleDidNotMatch (rules examples : list str) (location : option ErrorLocation)
| ExampleDidMatch (rule example : str) (location : option ErrorLocation)
| StarlarkError (message : str) (span : option ErrorLocation).

(** [Error::with_location]: fills a missing location of an example error. *)
Definition with_location (e : Error) (location : ErrorLocation) : Error :=
  match e with
  | ExampleDidNotMatch rules examples None => ExampleDidNotMatch rules examples (Some location)
  | ExampleDidMatch rule example None => ExampleDidMatch rule example (Some location)
  | other => other
  end.

(** [Error::location]; spans of Starlark count from zero. *)
Definition next_position (p : TextPosition) : TextPosition := mkPosition (line p + 1) (column p + 1).

Definition error_location (e : Error) : option ErrorLocation :=
  match e with
  | ExampleDidNotMatch _ _ location | ExampleDidMatch _ _ location => location
  | StarlarkError _ (Some span) =>
      Some (mkLocation (location_path span)
        (mkRange (next_position (range_start (location_range span)))
                 (next_position (range_end (location_range span)))))
  | _ => None
  end.

(** [Decision::parse]. *)
Definition Decision_parse (raw : str) : result Decision Error :=
  if bool_decide (raw = $"allow") then Ok Allow
  else if bool_decide (raw = $"prompt") then Ok Prompt
  else if bool_decide (raw = $"forbidden") then Ok Forbidden
  else Err (InvalidDecision raw).

(** ** Executable names (executable_name.rs), not on Windows *)

Definition executable_lookup_key (raw : str) : str := raw.

Definition executable_path_lookup_key (path : str) : option str :=
  executable_lookup_key <$> AbsolutePath.file_name path.

(** ** Patterns (rule.rs) *)

Inductive PatternToken : Type :=
| Single (value : str)
| Alts (alternatives : list str).

#[export] Instance PatternToken_eq_dec : EqDecision PatternToken.
Proof. solve_decision. Defined.

(** [PatternToken::matches] and [PatternToken::alternatives]. *)
Definition token_matches (t : PatternToken) (token : str) : bool :=
  match t with
  | Single expected => bool_decide (expected = token)
  | Alts alternatives => existsb (fun alt => bool_decide (alt = token)) alternatives
  end.

Definition token_alternatives (t : PatternToken) : list str :=
  match t with Single expected => [expected] | Alts alternatives => alternatives end.

Record PrefixPattern : Type := mkPattern { first : str; rest : list PatternToken }.

#[export] Instance PrefixPattern_eq_dec : EqDecision PrefixPattern.
Proof. solve_decision. Defined.

(** [PrefixPattern::matches_prefix]. *)
Definition matches_prefix (p : PrefixPattern) (cmd : list str) : option (list str) :=
  let pattern_length := length (rest p) + 1 in
  match cmd with
  | c0 :: _ =>
      if (length cmd <? pattern_length) || negb (bool_decide (c0 = first p)) then None
      else if forallb (fun '(t, token) => token_matches t token)
                (combine (rest p) (take (pattern_length - 1) (drop 1 cmd)))
      then Some (take pattern_length cmd)
      else None
  | [] => None
  end.

Inductive RuleMatch : Type :=
| PrefixRuleMatch (matched_prefix : list str) (decision : Decision)
    (resolved_program : option str) (justification : option str)
| HeuristicsRuleMatch (command : list str) (decision : Decision).

#[export] Instance RuleMatch_eq_dec : EqDecision RuleMatch.
Proof. solve_decision. Defined.

(** [RuleMatch::decision] and [RuleMatch::with_resolved_program]. *)
Definition match_decision (m : RuleMatch) : Decision :=
  match m with PrefixRuleMatch _ d _ _ | HeuristicsRuleMatch _ d => d end.

Definition with_resolved_program (m : RuleMatch) (program : str) : RuleMatch :=
  match m with
  | PrefixRuleMatch prefix d _ j => PrefixRuleMatch prefix d (Some program) j
  | other => other
  end.

Record PrefixRule : Type := mkRule {
  pattern : PrefixPattern;
  decision : Decision;
  justification : option str;
}.

#[export] Instance PrefixRule_eq_dec : EqDecision PrefixRule.
Proof. solve_decision. Defined.

(** [Rule::program] and [Rule::matches] of [PrefixRule]. *)
Definition program (r : PrefixRule) : str := first (pattern r).

Definition rule_matches (r : PrefixRule) (cmd : list str) : option RuleMatch :=
  match matches_prefix (pattern r) cmd with
  | Some matched_prefix =>
      Some (PrefixRuleMatch matched_prefix (decision r) None (justification r))
  | None => None
  end.

(** ** Network rules (rule.rs) *)

Inductive NetworkRuleProtocol : Type := Http | Https | Socks5Tcp | Socks5Udp.

#[export] Instance NetworkRuleProtocol_eq_dec : EqDecision NetworkRuleProtocol.
Proof. solve_decision. Defined.

Definition any_of (raw : str) (l : list str) : bool :=
  existsb (fun x => bool_decide (raw = x)) l.

Definition protocol_error (other : str) : Error :=
  InvalidRule ($"network_rule protocol must be one of http, https, socks5_tcp, socks5_udp (got "
               ++ other ++ $")").

(** [NetworkRuleProtocol::parse] and [as_policy_string]. *)
Definition protocol_parse (raw : str) : result NetworkRuleProtocol Error :=
  if any_of raw [$"http"] then Ok Http
  else if any_of raw [$"https"; $"https_connect"; $"http-connect"] then Ok Https
  else if any_of raw [$"socks5_tcp"] then Ok Socks5Tcp
  else if any_of raw [$"socks5_udp"] then Ok Socks5Udp
  else Err (protocol_error raw).

Definition as_policy_string (p : NetworkRuleProtocol) : str :=
  match p with
  | Http => $"http" | Https => $"https" | Socks5Tcp => $"socks5_tcp" | Socks5Udp => $"socks5_udp"
  end.

Record NetworkRule : Type := mkNetworkRule {
  host : str;
  protocol : NetworkRuleProtocol;
  network_decision : Decision;
  network_justification : option str;
}.

Definition host_empty : Error := InvalidRule ($"network_rule host cannot be empty").
Definition host_has_scheme : Error :=
  InvalidRule ($"network_rule host must be a hostname or IP literal (without scheme or path)").
Definition host_bad_bracket : Error :=
  InvalidRule ($"network_rule host has an invalid bracketed IPv6 literal").
Definition host_bad_suffix (raw : str) : Error :=
  InvalidRule ($"network_rule host contains an unsupported suffix: " ++ raw).
Definition host_wildcard : Error :=
  InvalidRule ($"network_rule host must be a specific host; wildcards are not allowed").
Definition host_whitespace : Error :=
  InvalidRule ($"network_rule host cannot contain whitespace").

Definition is_port (port : str) : bool := negb (is_empty port) && forallb is_ascii_digit port.

(** The bracket and port part of [normalize_network_rule_host]. *)
Definition strip_port (raw host : str) : result str Error :=
  match strip_prefix [91%N] host with
  | Some stripped =>
      match split_once 93%N stripped with
      | None => Err host_bad_bracket
      | Some (inside, rest) =>
          let port_ok := match strip_prefix [58%N] rest with
                         | Some port => is_port port | None => false end in
          if negb (is_empty rest) && negb port_ok then Err (host_bad_suffix raw) else Ok inside
      end
  | None =>
      if count_char 58%N host =? 1 then
        match rsplit_once 58%N host with
        | Some (candidate, port) =>
            if negb (is_empty candidate) && is_port port then Ok candidate else Ok host
        | None => Ok host
        end
      else Ok host
  end.

Definition normalize_network_rule_host (raw : str) : result str Error :=
  let host := trim raw in
  if is_empty host then Err host_empty
  else if contains_str ($"://") host || contains_char 47%N host || contains_char 63%N host
          || contains_char 35%N host then Err host_has_scheme
  else
    let? host := strip_port raw host in
    let normalized := to_ascii_lowercase (trim (trim_end_matches 46%N host)) in
    if is_empty normalized then Err host_empty
    else if contains_char 42%N normalized then Err host_wildcard
    else if existsb is_whitespace normalized then Err host_whitespace
    else Ok normalized.

(** ** Patterns match what they say *)

(** The relation behind [matches_prefix]: the pattern describes [prefix]. *)
Inductive describes : PrefixPattern -> list str -> Prop :=
| describes_intro f ts ws :
    Forall2 (fun t w => In w (token_alternatives t)) ts ws ->
    describes (mkPattern f ts) (f :: ws).

Lemma token_matches_spec t w : token_matches t w = true <-> In w (token_alternatives t).
Proof.
  destruct t as [v|l]; simpl.
  - rewrite bool_decide_eq_true. split; [by left|by intros [|[]]].
  - rewrite existsb_exists. setoid_rewrite bool_decide_eq_true. split.
    + by intros (x & Hx & ->).
    + intros H. by exists w.
Qed.

Lemma combine_matches ts : forall ws, length ws = length ts ->
  forallb (fun '(t, token) => token_matches t token) (combine ts ws) = true
  <-> Forall2 (fun t w => In w (token_alternatives t)) ts ws.
Proof.
  induction ts as [|t ts IH]; intros [|w ws] Hl; try done; simpl.
  rewrite andb_true_iff, token_matches_spec, IH by (simpl in Hl; lia).
  split; [intros []; by constructor|by inversion 1].
Qed.

Lemma matches_prefix_spec p cmd prefix :
  matches_prefix p cmd = Some prefix
  <-> describes p prefix /\ exists tail, cmd = prefix ++ tail.
Proof.
  destruct p as [f ts]. unfold matches_prefix; simpl rest; simpl first.
  destruct cmd as [|c0 cmd].
  { split; [done|]. intros [Hd [tail E]]. inversion Hd; subst. done. }
  replace (length ts + 1 - 1) with (length ts) by lia.
  replace (length ts + 1) with (S (length ts)) by lia. cbn [drop take length].
  destruct (Nat.ltb_spec (S (length cmd)) (S (length ts))) as [Hlt|Hge]; simpl.
  { split; [done|]. intros [Hd [tail E]]. inversion Hd as [? ? ws HF]; subst.
    apply Forall2_length in HF. injection E as _ ->. rewrite length_app in Hlt. lia. }
  case_bool_decide as Hf; simpl.
  2:{ split; [done|]. intros [Hd [tail E]]. inversion Hd; subst. simpl in E. congruence. }
  subst c0. pose proof (combine_matches ts (take (length ts) cmd)
    ltac:(rewrite length_take; lia)) as Hc.
  destruct (forallb _ _) eqn:E.
  - split.
    + intros [= <-]. split; [constructor; by apply Hc|].
      exists (drop (length ts) cmd). simpl. by rewrite take_drop.
    + intros [Hd [tail Et]]. inversion Hd as [? ? ws HF]; subst. injection Et as ->.
      apply Forall2_length in HF. by rewrite take_app_length'.
  - split; [done|]. intros [Hd [tail Et]]. inversion Hd as [? ? ws HF]; subst.
    injection Et as ->. pose proof (Forall2_length _ _ _ HF) as Hl.
    rewrite take_app_length' in Hc by done. by apply Hc in HF.
Qed.

(** a prefix rule matches a command exactly when its pattern describes a
    prefix of the command - first token equal, every further token one of the
    alternatives - and the match reports that prefix, the rule's decision and its
    justification. *)
Theorem rule_matches_iff (r : PrefixRule) (cmd : list str) (m : RuleMatch) :
  rule_matches r cmd = Some m
  <-> exists prefix tail, describes (pattern r) prefix /\ cmd = prefix ++ tail
      /\ m = PrefixRuleMatch prefix (decision r) None (justification r).
Proof.
  unfold rule_matches. pose proof (matches_prefix_spec (pattern r) cmd) as Hs.
  destruct (matches_prefix (pattern r) cmd) as [prefix|] eqn:E.
  - destruct (proj1 (Hs prefix) eq_refl) as [Hd [tail Ht]]. split.
    + intros [= <-]. eauto.
    + intros (q & tl & Hq & -> & ->). by pose proof (proj2 (Hs q) (conj Hq (ex_intro _ tl eq_refl))) as [= ->].
  - split; [done|]. intros (q & tl & Hq & -> & ->). discriminate (proj2 (Hs q) (conj Hq (ex_intro _ tl eq_refl))).
Qed.

(** ** Normalised hosts *)

(** The host names a rule can carry. *)
Definition normal_host (h : str) : Prop :=
  h <> [] /\ to_ascii_lowercase h = h /\ existsb is_whitespace h = false /\ ~ In 42%N h
  /\ ~ In 47%N h /\ ~ In 63%N h /\ ~ In 35%N h.

Lemma no_new_strip_port raw h h' : strip_port raw h = Ok h' -> no_new h' h.
Proof.
  unfold strip_port. destruct (strip_prefix [91%N] h) as [stripped|] eqn:E.
  - apply strip_prefix_Some in E as ->.
    destruct (split_once 93%N stripped) as [[inside rest]|] eqn:Es; [|done].
    case_if; [done|]. intros [= <-] c Hc. apply split_once_app in Es as ->.
    apply in_app_iff. right. apply in_app_iff. by left.
  - case_if; [|intros [= <-] c; done].
    destruct (rsplit_once 58%N h) as [[candidate port]|] eqn:Er; [|intros [= <-] c; done].
    case_if; [|intros [= <-] c; done]. intros [= <-] c Hc. apply rsplit_once_app in Er as ->.
    apply in_app_iff. by left.
Qed.

Lemma normalize_network_rule_host_ok (raw h : str) :
  normalize_network_rule_host raw = Ok h -> normal_host h.
Proof.
  unfold normalize_network_rule_host. destruct (is_empty (trim raw)); [done|].
  destruct (_ || _ || _ || _) eqn:E; [done|]. bool_hyps.
  destruct (strip_port raw (trim raw)) as [h1|] eqn:Es; [|done].
  set (n := to_ascii_lowercase (trim (trim_end_matches 46%N h1))).
  destruct (is_empty n) eqn:E1; [done|]. destruct (contains_char 42%N n) eqn:E2; [done|].
  destruct (existsb is_whitespace n) eqn:E3; [done|]. intros [= <-].
  assert (forall c, (c < 97)%N -> contains_char c (trim raw) = false -> ~ In c n) as Hno.
  { intros c Hc Hn. apply not_in_lowercase; [done|]. apply contains_char_false in Hn.
    intros Hin. apply Hn. eapply no_new_strip_port; [exact Es|].
    by eapply no_new_trim_end_matches, no_new_trim. }
  split; [by apply is_empty_false|]. split; [apply to_ascii_lowercase_idemp|].
  split; [done|]. split; [by apply contains_char_false|].
  repeat split; apply Hno; done.
Qed.

(** a host accepted by [normalize_network_rule_host] is in normal form: not
    empty, in lower case, and free of white space, wildcards and the characters
    of schemes, paths, queries and fragments. *)
Theorem normalize_host_normal (raw h : str) :
  normalize_network_rule_host raw = Ok h -> normal_host h.
Proof. apply normalize_network_rule_host_ok. Qed.

Lemma normalize_host_normal_witness :
  normalize_network_rule_host ($" [FE80::1]:443 ") = Ok ($"fe80::1") /\ normal_host ($"fe80::1").
Proof.
  split; [reflexivity|]. apply (normalize_host_normal ($" [FE80::1]:443 ")). reflexivity.
Defined.

(** The normal form may still end in a dot that a second pass would remove. *)
Example normalize_host_not_idempotent :
  normalize_network_rule_host ($"a. .") = Ok ($"a.")
  /\ normalize_network_rule_host ($"a.") = Ok ($"a").
Proof. split; reflexivity. Qed.
