(* ===== verification/ExecPolicy.v ===== *)
(** * The execution policy

    execpolicy/src/policy.rs and the example checks of rule.rs: the rule table,
    the matching of commands (exact first tokens, then host executables, then
    the heuristics), evaluations, overlays and compiled network domains.  The
    home and current directories, and the conversions of the shlex crate and of
    derived [Debug], are arguments. *)

From S2P Require Import Prelude RustStr PatchTypes AbsolutePath ExecRules.

Module Policy.

(** ** The table *)

(** [MultiMap<String, RuleRef>]: per program, rules in insertion order. *)
Abbreviation multimap := (gmap (list N) (list PrefixRule)) (only parsing).

Definition multimap_insert (program : str) (rule : PrefixRule) (m : multimap) : multimap :=
  <[program := default [] (m !! program) ++ [rule]]> m.

Record Policy : Type := mkPolicy {
  rules_by_program : multimap;
  network_rules : list NetworkRule;
  host_executables_by_name : gmap (list N) (list str);
}.

(** [MatchOptions]. *)
Record MatchOptions : Type := mkMatchOptions { resolve_host_executables : bool }.
Definition default_match_options : MatchOptions := mkMatchOptions false.

(** [Policy::new] and [Policy::empty]. *)
Definition new (rules : multimap) : Policy := mkPolicy rules [] ∅.
Definition empty : Policy := new ∅.

(** ** Growing a policy *)

Definition add_prefix_rule (p : Policy) (prefix : list str) (d : Decision)
  : result Policy Error :=
  match prefix with
  | [] => Err (InvalidPattern ($"prefix cannot be empty"))
  | first_token :: rest =>
      let rule := mkRule (mkPattern first_token (map Single rest)) d None in
      Ok (mkPolicy (multimap_insert first_token rule (rules_by_program p)) (network_rules p)
            (host_executables_by_name p))
  end.

Definition add_network_rule (p : Policy) (raw_host : str) (proto : NetworkRuleProtocol)
    (d : Decision) (justification : option str) : result Policy Error :=
  let? h := normalize_network_rule_host raw_host in
  if match justification with Some raw => is_empty (trim raw) | None => false end
  then Err (InvalidRule ($"justification cannot be empty"))
  else Ok (mkPolicy (rules_by_program p)
             (network_rules p ++ [mkNetworkRule h proto d justification])
             (host_executables_by_name p)).

Definition set_host_executable_paths (p : Policy) (name : str) (paths : list str) : Policy :=
  mkPolicy (rules_by_program p) (network_rules p)
    (<[name := paths]> (host_executables_by_name p)).

Definition insert_all (program : str) (rules : list PrefixRule) (m : multimap) : multimap :=
  fold_left (fun m rule => multimap_insert program rule m) rules m.

Definition merge_overlay (p overlay : Policy) : Policy :=
  mkPolicy
    (fold_left (fun m '(program, rules) => insert_all program rules m)
       (map_to_list (rules_by_program overlay)) (rules_by_program p))
    (network_rules p ++ network_rules overlay)
    (host_executables_by_name overlay ∪ host_executables_by_name p).

(** ** Network domains *)

Definition without_domain (entries : list str) (h : str) : list str :=
  filter (fun entry => entry <> h) entries.

Definition upsert_domain (entries : list str) (h : str) : list str :=
  without_domain entries h ++ [h].

Definition domain_step (st : list str * list str) (rule : NetworkRule) : list str * list str :=
  let '(allowed, denied) := st in
  match network_decision rule with
  | Allow => (upsert_domain allowed (host rule), without_domain denied (host rule))
  | Forbidden => (without_domain allowed (host rule), upsert_domain denied (host rule))
  | Prompt => (allowed, denied)
  end.

Definition compiled_network_domains (p : Policy) : list str * list str :=
  fold_left domain_step (network_rules p) ([], []).

(** ** Matching commands *)

Record Evaluation : Type := mkEvaluation {
  eval_decision : Decision;
  matched_rules : list RuleMatch;
}.

Definition is_heuristics (m : RuleMatch) : bool :=
  match m with HeuristicsRuleMatch _ _ => true | _ => false end.

Definition is_match (e : Evaluation) : bool :=
  existsb (fun m => negb (is_heuristics m)) (matched_rules e).

(** [Evaluation::from_matches]; [None] is the panic of its [expect]. *)
Definition from_matches (ms : list RuleMatch) : option Evaluation :=
  match fold_max decision_max (map match_decision ms) with
  | Some d => Some (mkEvaluation d ms)
  | None => None
  end.

Definition matching_rules (rules : list PrefixRule) (cmd : list str) : list RuleMatch :=
  omap (fun rule => rule_matches rule cmd) rules.

Definition match_exact_rules (p : Policy) (cmd : list str) : option (list RuleMatch) :=
  match cmd with
  | [] => None
  | first :: _ =>
      Some match rules_by_program p !! first with
           | Some rules => matching_rules rules cmd
           | None => []
           end
  end.

Section env.
Context (home_directory : option str) (current_dir : result str io_error).

Definition match_host_executable_rules (p : Policy) (cmd : list str) : list RuleMatch :=
  match cmd with
  | [] => []
  | first :: args =>
      match AbsolutePath.from_absolute_path home_directory current_dir first with
      | Err _ => []
      | Ok program =>
          match executable_path_lookup_key program with
          | None => []
          | Some basename =>
              match rules_by_program p !! basename with
              | None => []
              | Some rules =>
                  if match host_executables_by_name p !! basename with
                     | Some paths => negb (existsb (fun path => bool_decide (path = program)) paths)
                     | None => false
                     end
                  then []
                  else map (fun m => with_resolved_program m program)
                         (matching_rules rules (basename :: args))
              end
          end
      end
  end.

Definition matches_for_command_with_options (p : Policy) (cmd : list str)
    (heuristics_fallback : option (list str -> Decision)) (options : MatchOptions)
  : list RuleMatch :=
  let exact := default [] (match_exact_rules p cmd) in
  let found :=
    if negb (is_empty exact) then exact
    else if resolve_host_executables options then match_host_executable_rules p cmd else [] in
  match is_empty found, heuristics_fallback with
  | true, Some h => [HeuristicsRuleMatch cmd (h cmd)]
  | _, _ => found
  end.

Definition matches_for_command (p : Policy) (cmd : list str)
    (heuristics_fallback : option (list str -> Decision)) : list RuleMatch :=
  matches_for_command_with_options p cmd heuristics_fallback default_match_options.

Definition check_with_options (p : Policy) (cmd : list str) (h : list str -> Decision)
    (options : MatchOptions) : option Evaluation :=
  from_matches (matches_for_command_with_options p cmd (Some h) options).

Definition check (p : Policy) (cmd : list str) (h : list str -> Decision) : option Evaluation :=
  check_with_options p cmd h default_match_options.

Definition check_multiple_with_options (p : Policy) (commands : list (list str))
    (h : list str -> Decision) (options : MatchOptions) : option Evaluation :=
  from_matches
    (concat (map (fun cmd => matches_for_command_with_options p cmd (Some h) options) commands)).

Definition check_multiple (p : Policy) (commands : list (list str)) (h : list str -> Decision)
  : option Evaluation :=
  check_multiple_with_options p commands h default_match_options.

(** ** Examples in policy files (rule.rs) *)

(** [shlex::try_join], and the [Debug] text of rules and of matches. *)
Context (try_join : list str -> option str).
Context (debug_rule : PrefixRule -> str) (debug_match : RuleMatch -> str).

Definition example_options : MatchOptions := mkMatchOptions true.

Definition render_example (example : list str) : str :=
  default ($"unable to render example") (try_join example).

Definition validate_match_examples (p : Policy) (rules : list PrefixRule)
    (matches : list (list str)) : result () Error :=
  let unmatched_examples :=
    map render_example
      (List.filter (fun example =>
         is_empty (matches_for_command_with_options p example None example_options)) matches) in
  if is_empty unmatched_examples then Ok ()
  else Err (ExampleDidNotMatch (map debug_rule rules) unmatched_examples None).

Fixpoint validate_not_match_examples (p : Policy) (not_matches : list (list str))
  : result () Error :=
  match not_matches with
  | [] => Ok ()
  | example :: rest =>
      match matches_for_command_with_options p example None example_options with
      | m :: _ => Err (ExampleDidMatch (debug_match m) (render_example example) None)
      | [] => validate_not_match_examples p rest
      end
  end.

End env.

(** ** Rendering the allowed prefixes *)

Definition render_pattern_token (t : PatternToken) : str :=
  match t with
  | Single value => value
  | Alts alternatives => $"[" ++ join ($"|") alternatives ++ $"]"
  end.

(** The lexicographic order of [Vec<String>]. *)
Fixpoint lex_leb {A} (leb : A -> A -> bool) (l1 l2 : list A) : bool :=
  match l1, l2 with
  | [], _ => true
  | _ :: _, [] => false
  | a :: l1', b :: l2' => if leb a b then (if leb b a then lex_leb leb l1' l2' else true) else false
  end.

Definition prefix_leb : list str -> list str -> bool := lex_leb (lex_leb N.leb).

Fixpoint insert_prefix (x : list str) (l : list (list str)) : list (list str) :=
  match l with
  | [] => [x]
  | y :: l' => if prefix_leb x y then x :: l else y :: insert_prefix x l'
  end.

Definition sort_prefixes (l : list (list str)) : list (list str) := fold_right insert_prefix [] l.

(** [Vec::dedup]: removes consecutive repetitions. *)
Fixpoint dedup (l : list (list str)) : list (list str) :=
  match l with
  | x :: (y :: _) as l' => if bool_decide (x = y) then dedup l' else x :: dedup l'
  | _ => l
  end.

Definition rule_prefix (r : PrefixRule) : list str :=
  first (pattern r) :: map render_pattern_token (rest (pattern r)).

Definition get_allowed_prefixes (p : Policy) : list (list str) :=
  dedup (sort_prefixes
    (map rule_prefix
       (List.filter (fun r => bool_decide (decision r = Allow))
          (concat (map snd (map_to_list (rules_by_program p))))))).

(** ** Evaluations take the strictest decision *)

Definition strictest (d : Decision) (ms : list RuleMatch) : Prop :=
  (exists m, In m ms /\ match_decision m = d)
  /\ forall m, In m ms -> strictness (match_decision m) <= strictness d.

Lemma fold_max_strictest ds : forall d0,
  let d := fold_left decision_max ds d0 in
  In d (d0 :: ds) /\ forall x, In x (d0 :: ds) -> strictness x <= strictness d.
Proof.
  induction ds as [|x ds IH]; intros d0; simpl.
  - split; [by left|]. by intros y [<-|[]].
  - destruct (IH (decision_max d0 x)) as [Hin Hmax]. split.
    + destruct Hin as [<-|Hin]; [|by right; right]. unfold decision_max.
      case_if; [by right; left|by left].
    + pose proof (Hmax _ (or_introl eq_refl)) as H. rewrite decision_max_strictness in H.
      intros y [<-|[<-|Hy]]; [lia|lia|]. apply Hmax. by right.
Qed.

Lemma from_matches_spec ms :
  (ms = [] /\ from_matches ms = None)
  \/ exists d, from_matches ms = Some (mkEvaluation d ms) /\ strictest d ms.
Proof.
  unfold from_matches. destruct ms as [|m ms]; [by left|]. right. simpl.
  destruct (fold_max_strictest (map match_decision ms) (match_decision m)) as [Hin Hmax].
  eexists. split; [done|]. split.
  - apply (in_map_iff match_decision (m :: ms)) in Hin as (x & Hx & Hin). eauto.
  - intros x Hx. apply Hmax. by apply (in_map match_decision (m :: ms)).
Qed.

Lemma strictest_app d1 d2 ms1 ms2 :
  strictest d1 ms1 -> strictest d2 ms2 -> strictest (decision_max d1 d2) (ms1 ++ ms2).
Proof.
  intros [(m1 & Hm1 & E1) H1] [(m2 & Hm2 & E2) H2]. split.
  - unfold decision_max. case_if; [exists m2|exists m1]; rewrite in_app_iff; auto.
  - intros m [Hm|Hm]%in_app_iff; rewrite decision_max_strictness;
      [specialize (H1 m Hm)|specialize (H2 m Hm)]; lia.
Qed.

Lemma strictest_unique d d' ms : strictest d ms -> strictest d' ms -> d = d'.
Proof.
  intros [(m & Hm & E) H] [(m' & Hm' & E') H']. apply strictness_inj.
  specialize (H m' Hm'). specialize (H' m Hm). rewrite E in H'. rewrite E' in H. lia.
Qed.

Section theorems.
Context (home_directory : option str) (current_dir : result str io_error).

Abbreviation matches := (matches_for_command_with_options home_directory current_dir).

Lemma matches_nonempty p cmd h options : matches p cmd (Some h) options <> [].
Proof.
  unfold matches_for_command_with_options.
  set (found := if negb _ then _ else _). destruct (is_empty found) eqn:E; [done|].
  by apply is_empty_false.
Qed.

(** A rule for the program as it is written matches the command. *)
Definition exact_match (p : Policy) (cmd : list str) (m : RuleMatch) : Prop :=
  exists first args rules r, cmd = first :: args /\ rules_by_program p !! first = Some rules
    /\ In r rules /\ rule_matches r cmd = Some m.

(** The program is an absolute path, and a rule for its file name matches; if host
    executables are listed for that name, the path is one of them. *)
Definition host_match (p : Policy) (cmd : list str) (m : RuleMatch) : Prop :=
  exists first args program name rules r found, cmd = first :: args
    /\ AbsolutePath.from_absolute_path home_directory current_dir first = Ok program
    /\ executable_path_lookup_key program = Some name
    /\ (forall paths, host_executables_by_name p !! name = Some paths -> In program paths)
    /\ rules_by_program p !! name = Some rules /\ In r rules
    /\ rule_matches r (name :: args) = Some found /\ m = with_resolved_program found program.

Lemma matching_rules_In rules cmd m :
  In m (matching_rules rules cmd) <-> exists r, In r rules /\ rule_matches r cmd = Some m.
Proof. unfold matching_rules. rewrite <- list_elem_of_In, list_elem_of_omap. by setoid_rewrite list_elem_of_In. Qed.

Lemma exact_match_In p cmd m : In m (default [] (match_exact_rules p cmd)) <-> exact_match p cmd m.
Proof.
  unfold exact_match, match_exact_rules. destruct cmd as [|first args]; simpl.
  - split; [done|]. by intros (? & ? & ? & ? & [=] & _).
  - destruct (rules_by_program p !! first) as [rules|] eqn:E; [rewrite matching_rules_In|]; split.
    + intros (r & Hr & Hm). by exists first, args, rules, r.
    + intros (f & a & l & r & [= <- <-] & El & Hr & Hm). rewrite E in El. injection El as <-. by exists r.
    + done.
    + intros (f & a & l & r & [= <- <-] & El & _). by rewrite E in El.
Qed.

Lemma host_match_In p cmd m :
  In m (match_host_executable_rules home_directory current_dir p cmd) <-> host_match p cmd m.
Proof.
  unfold host_match, match_host_executable_rules. destruct cmd as [|first args].
  { split; [done|]. by intros (? & ? & ? & ? & ? & ? & ? & [=] & _). }
  split.
  - destruct (AbsolutePath.from_absolute_path home_directory current_dir first) as [program|] eqn:Ep; [|done].
    destruct (executable_path_lookup_key program) as [name|] eqn:En; [|done].
    destruct (rules_by_program p !! name) as [rules|] eqn:Er; [|done].
    destruct (match host_executables_by_name p !! name with Some _ => _ | None => _ end) eqn:Eh; [done|].
    intros (found & <- & (r & Hr & Hm)%matching_rules_In)%in_map_iff.
    exists first, args, program, name, rules, r, found. split_and!; try done. intros paths Epaths. rewrite Epaths in Eh.
    apply negb_false_iff, existsb_exists in Eh as (path & Hin & ->%bool_decide_eq_true). done.
  - intros (f & a & program & name & rules & r & found & [= <- <-] & -> & -> & Hpaths & -> & Hr & Hm & ->).
    assert (Eh : match host_executables_by_name p !! name with
                 | Some paths => negb (existsb (fun path => bool_decide (path = program)) paths)
                 | None => false end = false).
    { destruct (host_executables_by_name p !! name) as [paths|]; [|done]. apply negb_false_iff, existsb_exists.
      exists program. split; [by apply Hpaths|by apply bool_decide_eq_true]. }
    rewrite Eh. apply in_map_iff. exists found. split; [done|]. apply matching_rules_In. by exists r.
Qed.

(** C26: checking a command always gives an evaluation, whose decision is the
    strictest of its matches.  These are the matches of the rules for the program
    as it is written, if any match; else, when host executables are to be
    resolved, those of the rules for the file name of the program, if any match;
    else the heuristics alone decide, on that very command. *)
Theorem check_strictest (p : Policy) (cmd : list str) (h : list str -> Decision)
    (options : MatchOptions) :
  exists ev, check_with_options home_directory current_dir p cmd h options = Some ev
  /\ strictest (eval_decision ev) (matched_rules ev)
  /\ ((exists m, exact_match p cmd m) -> forall m, In m (matched_rules ev) <-> exact_match p cmd m)
  /\ (~ (exists m, exact_match p cmd m) ->
      resolve_host_executables options = true -> (exists m, host_match p cmd m) ->
      forall m, In m (matched_rules ev) <-> host_match p cmd m)
  /\ (~ (exists m, exact_match p cmd m) ->
      resolve_host_executables options = false \/ ~ (exists m, host_match p cmd m) ->
      ev = mkEvaluation (h cmd) [HeuristicsRuleMatch cmd (h cmd)]).
Proof.
  unfold check_with_options. pose proof (matches_nonempty p cmd h options) as Hne.
  destruct (from_matches_spec (matches p cmd (Some h) options)) as [[E _]|(d & E & Hd)]; [done|].
  exists (mkEvaluation d (matches p cmd (Some h) options)). rewrite E.
  split; [done|]. split; [done|]. cbn [matched_rules].
  setoid_rewrite <- exact_match_In. setoid_rewrite <- host_match_In.
  assert (Hsome : forall l : list RuleMatch, (exists m, In m l) <-> l <> []).
  { intros [|m l]; split; [by intros [? []]|done|done|intros _; exists m; by left]. }
  rewrite !Hsome. revert E Hd Hne. unfold matches_for_command_with_options.
  destruct (default [] (match_exact_rules p cmd)) as [|x xs] eqn:Ex; cbn [is_empty negb].
  - destruct (resolve_host_executables options) eqn:Eo; [|].
    + destruct (match_host_executable_rules home_directory current_dir p cmd) as [|y ys] eqn:Ey; cbn [is_empty].
      * intros E Hd _. simpl in E. injection E as <-. split_and!; [done|done|done].
      * intros _ _ _. split_and!; [done|done|]. intros _ [|Hn]; [done|by destruct Hn].
    + intros E Hd _. simpl in E. injection E as <-. by split_and!.
  - intros _ _ _. split_and!; [done|intros Hn; by destruct Hn..].
Qed.

Lemma check_multiple_strictest p h options cmds :
  cmds <> [] -> exists d,
    check_multiple_with_options home_directory current_dir p cmds h options
    = Some (mkEvaluation d (concat (map (fun c => matches p c (Some h) options) cmds)))
    /\ strictest d (concat (map (fun c => matches p c (Some h) options) cmds)).
Proof.
  intros Hne. unfold check_multiple_with_options.
  destruct (from_matches_spec (concat (map (fun c => matches p c (Some h) options) cmds)))
    as [[E _]|(d & -> & Hd)]; [|by exists d].
  destruct cmds as [|c cmds]; [done|]. simpl in E. apply app_nil in E as [E _].
  by apply matches_nonempty in E.
Qed.

(** checking several commands fails (the [expect] panics) exactly when there
    is no command; otherwise the decision is the strictest of the decisions the
    commands get one by one, and no stricter. *)
Theorem check_multiple_aggregates (p : Policy) (h : list str -> Decision)
    (options : MatchOptions) (cmds : list (list str)) :
  match check_multiple_with_options home_directory current_dir p cmds h options with
  | None => cmds = []
  | Some ev =>
      (forall c, In c cmds -> exists e,
         check_with_options home_directory current_dir p c h options = Some e
         /\ strictness (eval_decision e) <= strictness (eval_decision ev))
      /\ exists c e, In c cmds
         /\ check_with_options home_directory current_dir p c h options = Some e
         /\ eval_decision e = eval_decision ev
  end.
Proof.
  destruct cmds as [|c0 cs] eqn:Ec; [done|]. rewrite <- Ec.
  destruct (check_multiple_strictest p h options cmds) as (d & -> & [(m & Hm & Hd) Hmax]);
    [by subst|]. simpl.
  assert (forall c, In c cmds -> exists e,
    check_with_options home_directory current_dir p c h options = Some e
    /\ strictest (eval_decision e) (matches p c (Some h) options)) as Hone.
  { intros c _. destruct (from_matches_spec (matches p c (Some h) options)) as [[E _]|(e & E & He)].
    - by apply matches_nonempty in E.
    - eexists. split; [exact E|exact He]. }
  assert (forall c x, In c cmds -> In x (matches p c (Some h) options) ->
    strictness (match_decision x) <= strictness d) as Hle.
  { intros c x Hc Hx. apply Hmax. apply in_concat. eexists. split; [|exact Hx].
    by apply (in_map (fun c => matches p c (Some h) options)). }
  split.
  - intros c Hc. destruct (Hone c Hc) as (e & He & [(x & Hx & Hxe) _]). exists e. split; [done|].
    rewrite <- Hxe. by eapply Hle.
  - apply in_concat in Hm as (l & Hl & Hm). apply in_map_iff in Hl as (c & <- & Hc).
    destruct (Hone c Hc) as (e & He & [(x & Hx & Hxd) He']). exists c, e.
    split; [done|]. split; [done|]. apply strictness_inj.
    specialize (He' m Hm). specialize (Hle c x Hc Hx). subst d. rewrite Hxd in Hle. lia.
Qed.

(** a rule written for a bare program name only speaks for an absolute path
    when it may: a match that reports a resolved program means that no rule names
    the path itself, that the path is canonical and its file name is the rule's
    program, and that it is one of the listed host executables if any are listed
    for that name. *)
Theorem resolved_program_sound (p : Policy) (cmd : list str) options fallback
    prefix d prog j :
  (forall dir, current_dir = Ok dir -> AbsolutePath.is_absolute dir = true) ->
  In (PrefixRuleMatch prefix d (Some prog) j) (matches p cmd fallback options) ->
  resolve_host_executables options = true
  /\ default [] (match_exact_rules p cmd) = []
  /\ AbsolutePath.canonical prog
  /\ exists name args rules r, AbsolutePath.file_name prog = Some name
     /\ rules_by_program p !! name = Some rules /\ In r rules
     /\ tail cmd = args
     /\ rule_matches r (name :: args) = Some (PrefixRuleMatch prefix d None j)
     /\ (forall paths, host_executables_by_name p !! name = Some paths -> In prog paths).
Proof.
  intros Hcwd Hin. unfold matches_for_command_with_options in Hin.
  assert (In (PrefixRuleMatch prefix d (Some prog) j)
    (if negb (is_empty (default [] (match_exact_rules p cmd)))
     then default [] (match_exact_rules p cmd)
     else if resolve_host_executables options
          then match_host_executable_rules home_directory current_dir p cmd else [])) as H.
  { destruct (is_empty _), fallback; try done. by destruct Hin as [?|[]]. }
  clear Hin. destruct (is_empty (default [] (match_exact_rules p cmd))) eqn:Ex; simpl in H.
  2:{ destruct cmd as [|c0 args]; [done|]. simpl in H.
      destruct (rules_by_program p !! c0) as [rules|]; [|done].
      apply list_elem_of_In, list_elem_of_omap in H as (r & _ & H).
      unfold rule_matches in H. by destruct (matches_prefix _ _). }
  apply is_empty_true in Ex. destruct (resolve_host_executables options); [|done].
  split; [done|]. split; [done|]. unfold match_host_executable_rules in H.
  destruct cmd as [|c0 args]; [done|].
  destruct (AbsolutePath.from_absolute_path home_directory current_dir c0) as [program|] eqn:Ep;
    [|done].
  destruct (executable_path_lookup_key program) as [name|] eqn:Ek; [|done].
  destruct (rules_by_program p !! name) as [rules|] eqn:Er; [|done].
  destruct (match host_executables_by_name p !! name with Some _ => _ | None => _ end) eqn:Eh;
    [done|].
  apply in_map_iff in H as (m & Hm & H).
  apply list_elem_of_In, list_elem_of_omap in H as (r & Hr & H).
  destruct m as [mp md mr mj|]; [|done]. simpl in Hm. injection Hm as -> -> -> ->.
  assert (mr = None) as ->.
  { unfold rule_matches in H. destruct (matches_prefix _ _); [|done]. by injection H. }
  split.
  { unfold AbsolutePath.from_absolute_path, AbsolutePath.absolutize in Ep.
    destruct (AbsolutePath.is_absolute _) eqn:Ea.
    - injection Ep as <-. by apply AbsolutePath.normalize_absolute.
    - destruct current_dir as [dir|]; [|done]. injection Ep as <-.
      apply AbsolutePath.absolutize_from_canonical. auto. }
  exists name, args, rules, r. unfold executable_path_lookup_key in Ek.
  destruct (AbsolutePath.file_name prog) as [fname|]; [|done].
  injection Ek as Ek. unfold executable_lookup_key in Ek. subst fname.
  split; [done|]. split; [done|]. split; [by apply list_elem_of_In|]. split; [done|].
  split; [done|]. intros paths Hp. rewrite Hp in Eh. apply negb_false_iff, existsb_exists in Eh
    as (x & Hx & Heq). by apply bool_decide_eq_true in Heq as <-.
Qed.

End theorems.

(** ** Overlays *)

(** The rules of a program, in order; none when the program is unknown. *)
Definition rules_of (m : gmap (list N) (list PrefixRule)) (program : str) : list PrefixRule :=
  default [] (m !! program).

Lemma rules_of_insert program r m q :
  rules_of (multimap_insert program r m) q
  = if decide (q = program) then rules_of m q ++ [r] else rules_of m q.
Proof.
  unfold rules_of, multimap_insert. destruct (decide (q = program)) as [->|Hne].
  - by rewrite lookup_insert_eq.
  - by rewrite lookup_insert_ne.
Qed.

Lemma rules_of_insert_all program rs : forall m q,
  rules_of (insert_all program rs m) q
  = if decide (q = program) then rules_of m q ++ rs else rules_of m q.
Proof.
  unfold insert_all. induction rs as [|r rs IH]; intros m q; simpl.
  - rewrite app_nil_r. by destruct (decide _).
  - rewrite IH, rules_of_insert. destruct (decide (q = program)); [by rewrite <- app_assoc|done].
Qed.

Lemma rules_of_insert_list l : forall m q,
  NoDup (map fst l) ->
  rules_of (fold_left (fun m '(program, rules) => insert_all program rules m) l m) q
  = rules_of m q ++ default [] ((list_to_map l : gmap (list N) (list PrefixRule)) !! q).
Proof.
  induction l as [|[k rs] l IH]; intros m q Hnd; simpl.
  - rewrite lookup_empty. by rewrite app_nil_r.
  - apply NoDup_cons in Hnd as [Hk Hnd]. rewrite IH, rules_of_insert_all by done.
    destruct (decide (q = k)) as [->|Hne].
    + rewrite lookup_insert_eq. rewrite (not_elem_of_list_to_map_1 l k Hk). simpl.
      by rewrite app_nil_r.
    + by rewrite lookup_insert_ne.
Qed.

Lemma rules_of_merge p o q :
  rules_of (rules_by_program (merge_overlay p o)) q
  = rules_of (rules_by_program p) q ++ rules_of (rules_by_program o) q.
Proof.
  simpl. rewrite rules_of_insert_list by apply NoDup_fst_map_to_list.
  by rewrite list_to_map_to_list.
Qed.

Lemma match_exact_rules_of p c0 args :
  match_exact_rules p (c0 :: args)
  = Some (matching_rules (rules_of (rules_by_program p) c0) (c0 :: args)).
Proof.
  unfold match_exact_rules, rules_of. by destruct (rules_by_program p !! c0).
Qed.

(** an overlay only adds: for any command the merged policy matches first the
    base's rules and then the overlay's, so when the base already decides a
    command by its rules the merged decision is at least as strict; host
    executables of the overlay replace those of the base name by name, and its
    network rules come last, so they win. *)
Theorem merge_overlay_adds (p o : Policy) :
  (forall cmd, default [] (match_exact_rules (merge_overlay p o) cmd)
     = default [] (match_exact_rules p cmd) ++ default [] (match_exact_rules o cmd))
  /\ (forall name, host_executables_by_name (merge_overlay p o) !! name
       = match host_executables_by_name o !! name with
         | Some paths => Some paths
         | None => host_executables_by_name p !! name
         end)
  /\ network_rules (merge_overlay p o) = network_rules p ++ network_rules o
  /\ forall home cwd cmd h e e', default [] (match_exact_rules p cmd) <> [] ->
       check home cwd p cmd h = Some e -> check home cwd (merge_overlay p o) cmd h = Some e' ->
       strictness (eval_decision e) <= strictness (eval_decision e').
Proof.
  assert (forall cmd, default [] (match_exact_rules (merge_overlay p o) cmd)
     = default [] (match_exact_rules p cmd) ++ default [] (match_exact_rules o cmd)) as Hex.
  { intros [|c0 args]; [done|]. rewrite !match_exact_rules_of, rules_of_merge. simpl.
    unfold matching_rules. apply omap_app. }
  split; [done|]. split.
  { intros name. simpl. rewrite lookup_union.
    by destruct (host_executables_by_name o !! name), (host_executables_by_name p !! name). }
  split; [done|]. intros home cwd cmd h e e' Hne He He'.
  unfold check, check_with_options, matches_for_command_with_options in He, He'.
  rewrite Hex in He'.
  destruct (default [] (match_exact_rules p cmd)) as [|m ms] eqn:Em; [done|]. simpl in He, He'.
  destruct (from_matches_spec (m :: ms)) as [[? _]|(d & E & Hd)]; [done|].
  destruct (from_matches_spec (m :: ms ++ default [] (match_exact_rules o cmd)))
    as [[? _]|(d' & E' & Hd')]; [done|].
  assert (e = mkEvaluation d (m :: ms)) as -> by congruence.
  assert (e' = mkEvaluation d' (m :: ms ++ default [] (match_exact_rules o cmd))) as ->
    by congruence. simpl.
  destruct Hd as [(x & Hx & <-) _]. apply Hd'. rewrite app_comm_cons. apply in_app_iff. by left.
Qed.

(** ** Network domains *)

(** The last rule about a host that is not a prompt. *)
Definition last_verdict (rules : list NetworkRule) (h : str) : option Decision :=
  last (omap (fun r => if bool_decide (host r = h) then
      match network_decision r with Prompt => None | d => Some d end else None) rules).

Definition domains_ok (rules : list NetworkRule) (st : list str * list str) : Prop :=
  NoDup (fst st) /\ NoDup (snd st)
  /\ (forall h, h ∈ fst st <-> last_verdict rules h = Some Allow)
  /\ (forall h, h ∈ snd st <-> last_verdict rules h = Some Forbidden).

Lemma last_verdict_snoc rules r h :
  last_verdict (rules ++ [r]) h =
    if bool_decide (host r = h) && negb (bool_decide (network_decision r = Prompt))
    then Some (network_decision r) else last_verdict rules h.
Proof.
  unfold last_verdict. rewrite omap_app. simpl.
  case_bool_decide; simpl; [|by rewrite app_nil_r].
  destruct (network_decision r); simpl; rewrite ?last_snoc, ?app_nil_r; done.
Qed.

Lemma elem_of_without entries h q : q ∈ without_domain entries h <-> q <> h /\ q ∈ entries.
Proof. unfold without_domain. by rewrite list_elem_of_filter. Qed.

Lemma elem_of_upsert entries h q : q ∈ upsert_domain entries h <-> q = h \/ q ∈ entries.
Proof.
  unfold upsert_domain. rewrite elem_of_app, elem_of_without, list_elem_of_singleton.
  destruct (decide (q = h)) as [->|Hne]; tauto.
Qed.

Lemma NoDup_without entries h : NoDup entries -> NoDup (without_domain entries h).
Proof. apply NoDup_filter. Qed.

Lemma NoDup_upsert entries h : NoDup entries -> NoDup (upsert_domain entries h).
Proof.
  intros H. unfold upsert_domain. apply NoDup_app. split; [by apply NoDup_without|].
  split; [|apply NoDup_singleton].
  intros q Hq. rewrite elem_of_without in Hq. rewrite list_elem_of_singleton. naive_solver.
Qed.

Lemma domain_step_ok rules st r :
  domains_ok rules st -> domains_ok (rules ++ [r]) (domain_step st r).
Proof.
  destruct st as [allowed denied]. intros (Ha & Hd & HA & HD). simpl in *.
  destruct (network_decision r) eqn:E; repeat split; simpl;
    try (by apply NoDup_upsert); try (by apply NoDup_without); try done.
  all: try (intros Hq). all: try (rewrite last_verdict_snoc, E in * ); simpl in *.
  all: rewrite ?elem_of_upsert, ?elem_of_without, ?HA, ?HD in *;
       case_bool_decide; simpl in *; naive_solver.
Qed.

Lemma compiled_domains_ok p : domains_ok (network_rules p) (compiled_network_domains p).
Proof.
  unfold compiled_network_domains. generalize (network_rules p) as rules.
  induction rules as [|r rules IH] using rev_ind.
  - repeat split; simpl; try apply NoDup_nil; try done; rewrite ?elem_of_nil; done.
  - rewrite fold_left_app. simpl. by apply domain_step_ok.
Qed.

(** the compiled domain lists are the last verdicts: a host is allowed, or
    denied, exactly when the last rule about it that is not a prompt allows, or
    forbids, it; no host is in both lists, and no list repeats one. *)
Theorem compiled_network_domains_spec (p : Policy) :
  let '(allowed, denied) := compiled_network_domains p in
  NoDup allowed /\ NoDup denied
  /\ (forall h, h ∈ allowed <-> last_verdict (network_rules p) h = Some Allow)
  /\ (forall h, h ∈ denied <-> last_verdict (network_rules p) h = Some Forbidden)
  /\ (forall h, h ∈ allowed -> h ∉ denied).
Proof.
  destruct (compiled_domains_ok p) as (Ha & Hd & HA & HD).
  destruct (compiled_network_domains p) as [allowed denied]. simpl in *.
  repeat split; try done; try apply HA; try apply HD.
  intros h H1 H2. apply HA in H1. apply HD in H2. congruence.
Qed.

(** ** Allowed prefixes *)

(** A boolean linear order. *)
Record linear {A} (leb : A -> A -> bool) : Prop := mkLinear {
  linear_antisym a b : leb a b = true -> leb b a = true -> a = b;
  linear_trans a b c : leb a b = true -> leb b c = true -> leb a c = true;
  linear_total a b : leb a b = true \/ leb b a = true;
}.

Lemma linear_N : linear N.leb.
Proof. split; intros *; rewrite ?N.leb_le; lia. Qed.

Lemma linear_lex {A} (leb : A -> A -> bool) : linear leb -> linear (lex_leb leb).
Proof.
  intros [Has Htr Hto]. split.
  - induction a as [|x a IH]; intros [|y b]; simpl; try done.
    destruct (leb x y) eqn:E1, (leb y x) eqn:E2; try done.
    intros H1 H2. f_equal; auto.
  - induction a as [|x a IH]; intros [|y b] [|z c]; simpl; try done.
    destruct (leb x y) eqn:E1; [|done]. destruct (leb y z) eqn:E2; [|done].
    rewrite (Htr _ _ _ E1 E2). destruct (leb z x) eqn:E3; [|done].
    rewrite (Htr _ _ _ E2 E3), (Htr _ _ _ E3 E1). by eapply IH.
  - induction a as [|x a IH]; intros [|y b]; simpl; auto.
    destruct (Hto x y) as [E|E]; rewrite E; [destruct (leb y x)|destruct (leb x y)]; auto.
Qed.

Lemma linear_prefix : linear prefix_leb.
Proof. apply linear_lex, linear_lex, linear_N. Qed.

Definition prefix_le (x y : list str) : Prop := prefix_leb x y = true.

Lemma in_insert_prefix x y l : In y (insert_prefix x l) <-> y = x \/ In y l.
Proof.
  induction l as [|z l IH]; simpl; [naive_solver|]. case_if; simpl; [naive_solver|].
  rewrite IH. tauto.
Qed.

Lemma in_sort_prefixes y l : In y (sort_prefixes l) <-> In y l.
Proof. induction l as [|x l IH]; simpl; [done|]. rewrite in_insert_prefix, IH. naive_solver. Qed.

Lemma insert_prefix_sorted x l :
  StronglySorted prefix_le l -> StronglySorted prefix_le (insert_prefix x l).
Proof.
  destruct linear_prefix as [_ Htr Hto].
  induction 1 as [|y l Hl IH Hy]; simpl; [by repeat constructor|].
  destruct (prefix_leb x y) eqn:E.
  - constructor; [by constructor|]. constructor; [done|].
    eapply Forall_impl; [exact Hy|]. intros z Hz. by apply (Htr x y z).
  - constructor; [done|]. apply List.Forall_forall. intros z [->|Hz]%in_insert_prefix.
    + destruct (Hto y x) as [H|H]; [done|congruence].
    + rewrite List.Forall_forall in Hy. by apply Hy.
Qed.

Lemma sort_prefixes_sorted l : StronglySorted prefix_le (sort_prefixes l).
Proof. induction l as [|x l IH]; simpl; [constructor|by apply insert_prefix_sorted]. Qed.

Lemma dedup_in l y : In y (dedup l) <-> In y l.
Proof.
  induction l as [|x l IH]; [done|]. destruct l as [|z l]; [done|].
  cbn [dedup]. case_bool_decide as E.
  - subst z. rewrite IH. simpl. tauto.
  - cbn [In] in *. tauto.
Qed.

Lemma dedup_sorted l :
  StronglySorted prefix_le l -> StronglySorted prefix_le (dedup l) /\ List.NoDup (dedup l).
Proof.
  induction 1 as [|x l Hl [IH1 IH2] Hx]; [split; constructor|].
  destruct l as [|z l].
  { split; simpl; [by apply SSorted_cons|].
    apply List.NoDup_cons; [by intros []|apply List.NoDup_nil]. }
  cbn [dedup]. case_bool_decide as E; [done|].
  assert (Forall (prefix_le x) (dedup (z :: l))) as Hall.
  { apply List.Forall_forall. intros y Hy%(proj1 (dedup_in _ _)).
    rewrite List.Forall_forall in Hx. by apply Hx. }
  split; [by constructor|]. constructor; [|done]. intros Hin%(proj1 (dedup_in (z :: l) x)). apply E.
  apply (linear_antisym _ linear_prefix); [by apply Forall_inv in Hx|].
  apply StronglySorted_inv in Hl as [_ Hz]. destruct Hin as [->|Hin].
  - by destruct (linear_total _ linear_prefix x x).
  - rewrite List.Forall_forall in Hz. by apply Hz.
Qed.

(** the allowed prefixes shown to the model are, in increasing order and
    without repetition, the renderings of exactly the rules that allow. *)
Theorem allowed_prefixes_spec (p : Policy) :
  StronglySorted prefix_le (get_allowed_prefixes p) /\ List.NoDup (get_allowed_prefixes p)
  /\ forall prefix, In prefix (get_allowed_prefixes p) <->
       exists name rules r, rules_by_program p !! name = Some rules /\ In r rules
       /\ decision r = Allow /\ prefix = rule_prefix r.
Proof.
  unfold get_allowed_prefixes.
  destruct (dedup_sorted _ (sort_prefixes_sorted (map rule_prefix
    (List.filter (fun r => bool_decide (decision r = Allow))
       (concat (map snd (map_to_list (rules_by_program p)))))))) as [H1 H2].
  split; [done|]. split; [done|]. intros prefix.
  rewrite dedup_in, in_sort_prefixes, in_map_iff. split.
  - intros (r & <- & Hr). apply filter_In in Hr as [Hr Hd]. apply bool_decide_eq_true in Hd.
    apply in_concat in Hr as (rules & Hl & Hr). apply in_map_iff in Hl as ([name rs] & <- & Hl).
    apply list_elem_of_In, elem_of_map_to_list in Hl. eauto 8.
  - intros (name & rules & r & Hl & Hr & Hd & ->). exists r. split; [done|].
    apply filter_In. split; [|by apply bool_decide_eq_true]. apply in_concat.
    exists rules. split; [|done]. apply in_map_iff. exists (name, rules). split; [done|].
    by apply list_elem_of_In, elem_of_map_to_list.
Qed.

(** ** A policy at work *)

Definition git_rule (d : Decision) : PrefixRule :=
  mkRule (mkPattern ($"git") [Alts [$"status"; $"diff"]]) d None.

Definition demo_policy : Policy :=
  mkPolicy {[ $"git" := [git_rule Allow; git_rule Prompt] ]} []
    {[ $"git" := [$"/usr/bin/git"] ]}.

Example demo_check :
  check None (Ok $"/") demo_policy [$"git"; $"diff"; $"HEAD"] (fun _ => Forbidden)
  = Some (mkEvaluation Prompt
      [PrefixRuleMatch [$"git"; $"diff"] Allow None None;
       PrefixRuleMatch [$"git"; $"diff"] Prompt None None]).
Proof. vm_compute. reflexivity. Qed.

Lemma resolved_program_sound_witness :
  In (PrefixRuleMatch [$"git"; $"diff"] Allow (Some $"/usr/bin/git") None)
    (matches_for_command_with_options None (Ok $"/") demo_policy [$"/usr/bin//git"; $"diff"]
       None (mkMatchOptions true))
  /\ AbsolutePath.canonical ($"/usr/bin/git").
Proof.
  assert (In (PrefixRuleMatch [$"git"; $"diff"] Allow (Some $"/usr/bin/git") None)
    (matches_for_command_with_options None (Ok $"/") demo_policy [$"/usr/bin//git"; $"diff"]
       None (mkMatchOptions true))) as Hin by (vm_compute; left; reflexivity).
  split; [exact Hin|].
  assert (forall dir, Ok $"/" = Ok (E:=io_error) dir -> AbsolutePath.is_absolute dir = true) as Hd
    by (intros dir [= <-]; reflexivity).
  apply (resolved_program_sound None (Ok $"/") demo_policy _ _ _ _ _ _ _ Hd Hin).
Defined.

End Policy.
