(* ===== verification/PolicyBuiltins.v ===== *)
(** * The policy language

    execpolicy/src/parser.rs: the builtins [prefix_rule], [network_rule] and
    [host_executable] of policy files, the builder they fill, the deferred
    validation of examples and [PolicyParser].  Parsing and evaluating Starlark
    is the starlark crate's: what a file does is an argument, the sequence of
    builtin calls its evaluation makes and the error it ends with, if any.  The
    builtins return [None] and Starlark cannot catch an error, so the calls of a
    file depend on nothing the builtins do, except that the first failing call
    is the last. *)

From S2P Require Import Prelude RustStr PatchTypes StateM AbsolutePath ExecRules ExecPolicy.

Module PolicyBuiltins.
Import Policy.

(** ** Values and calls *)

(** A Starlark value: a string, a list, or another value with its type name. *)
Inductive Value : Type :=
| VStr (s : str)
| VList (items : list Value)
| VOther (type_name : str).

Definition unpack_str (v : Value) : option str :=
  match v with VStr s => Some s | _ => None end.

Definition get_type (v : Value) : str :=
  match v with VStr _ => $"string" | VList _ => $"list" | VOther t => t end.

(** A call of a builtin with its unpacked arguments. *)
Inductive Call : Type :=
| CallPrefixRule (pattern : list Value) (decision : option str)
    (match_ not_match : option (list Value)) (justification : option str)
| CallNetworkRule (host protocol decision : str) (justification : option str)
| CallHostExecutable (name : str) (paths : list Value).

(** What evaluating a file does. *)
Record Program : Type := mkProgram {
  calls : list (option ErrorLocation * Call);
  uncaught : option Error;
}.

(** ** The builder *)

Record PendingExampleValidation : Type := mkPending {
  pending_rules : list PrefixRule;
  pending_matches : list (list str);
  pending_not_matches : list (list str);
  pending_location : option ErrorLocation;
}.

Record PolicyBuilder : Type := mkBuilder {
  builder_rules : gmap (list N) (list PrefixRule);
  builder_network : list NetworkRule;
  builder_hosts : gmap (list N) (list str);
  pending_example_validations : list PendingExampleValidation;
}.

Definition builder_new : PolicyBuilder := mkBuilder ∅ [] ∅ [].

Definition builder_add_rule (rule : PrefixRule) (b : PolicyBuilder) : PolicyBuilder :=
  mkBuilder (multimap_insert (program rule) rule (builder_rules b)) (builder_network b)
    (builder_hosts b) (pending_example_validations b).

Definition builder_add_network_rule (rule : NetworkRule) (b : PolicyBuilder) : PolicyBuilder :=
  mkBuilder (builder_rules b) (builder_network b ++ [rule]) (builder_hosts b)
    (pending_example_validations b).

Definition builder_add_host_executable (name : str) (paths : list str) (b : PolicyBuilder)
  : PolicyBuilder :=
  mkBuilder (builder_rules b) (builder_network b) (<[name := paths]> (builder_hosts b))
    (pending_example_validations b).

Definition add_pending_example_validation (rules : list PrefixRule)
    (matches not_matches : list (list str)) (location : option ErrorLocation)
    (b : PolicyBuilder) : PolicyBuilder :=
  mkBuilder (builder_rules b) (builder_network b) (builder_hosts b)
    (pending_example_validations b ++ [mkPending rules matches not_matches location]).

Definition build (b : PolicyBuilder) : Policy :=
  mkPolicy (builder_rules b) (builder_network b) (builder_hosts b).

(** ** Reading arguments *)

Definition alternative_error (v : Value) : Error :=
  InvalidPattern ($"pattern alternative must be a string (got " ++ get_type v ++ $")").
Definition element_error (v : Value) : Error :=
  InvalidPattern ($"pattern element must be a string or list of strings (got "
                  ++ get_type v ++ $")").
Definition pattern_empty : Error := InvalidPattern ($"pattern cannot be empty").

Definition parse_pattern_token (v : Value) : result PatternToken Error :=
  match v with
  | VStr s => Ok (Single s)
  | VList items =>
      let? tokens := collect_results (fun v => ok_or (unpack_str v) (alternative_error v)) items in
      match tokens with
      | [] => Err (InvalidPattern ($"pattern alternatives cannot be empty"))
      | [single] => Ok (Single single)
      | _ => Ok (Alts tokens)
      end
  | VOther _ => Err (element_error v)
  end.

Definition parse_pattern (pattern : list Value) : result (list PatternToken) Error :=
  let? tokens := collect_results parse_pattern_token pattern in
  if is_empty tokens then Err pattern_empty else Ok tokens.

Definition parse_network_rule_decision (raw : str) : result Decision Error :=
  if bool_decide (raw = $"deny") then Ok Forbidden else Decision_parse raw.

(** The justification of a rule, as both rule builtins read it. *)
Definition read_justification (justification : option str) : result (option str) Error :=
  match justification with
  | Some raw =>
      if is_empty (trim raw) then Err (InvalidRule ($"justification cannot be empty"))
      else Ok (Some raw)
  | None => Ok None
  end.

Definition name_error (name : str) : Error :=
  InvalidRule ($"host_executable name must be a bare executable name (got " ++ name ++ $")").

Definition validate_host_executable_name (name : str) : result () Error :=
  if is_empty name then Err (InvalidRule ($"host_executable name cannot be empty"))
  else if negb (length (AbsolutePath.components name) =? 1)
          || negb (bool_decide (AbsolutePath.file_name name = Some name))
       then Err (name_error name)
       else Ok ().

Definition error_location_from_file_span (span : ErrorLocation) : ErrorLocation :=
  mkLocation (location_path span)
    (mkRange (next_position (range_start (location_range span)))
             (next_position (range_end (location_range span)))).

Definition attach_validation_location (error : Error) (location : option ErrorLocation) : Error :=
  match location with Some location => with_location error location | None => error end.

Section env.
(** The home and current directories, [shlex::split] and [shlex::try_join], and
    the [Debug] texts of rules and of matches. *)
Context (home_directory : option str) (current_dir : result str io_error).
Context (shlex_split : str -> option (list str)) (try_join : list str -> option str).
Context (debug_rule : PrefixRule -> str) (debug_match : RuleMatch -> str).

(** ** Examples and host paths *)

Definition parse_string_example (raw : str) : result (list str) Error :=
  let? tokens := ok_or (shlex_split raw)
                   (InvalidExample ($"example string has invalid shell syntax")) in
  if is_empty tokens then Err (InvalidExample ($"example cannot be an empty string"))
  else Ok tokens.

Definition example_token_error (v : Value) : Error :=
  InvalidExample ($"example tokens must be strings (got " ++ get_type v ++ $")").

Definition parse_list_example (items : list Value) : result (list str) Error :=
  let? tokens := collect_results (fun v => ok_or (unpack_str v) (example_token_error v)) items in
  if is_empty tokens then Err (InvalidExample ($"example cannot be an empty list"))
  else Ok tokens.

Definition parse_example (v : Value) : result (list str) Error :=
  match v with
  | VStr raw => parse_string_example raw
  | VList items => parse_list_example items
  | VOther _ =>
      Err (InvalidExample ($"example must be a string or list of strings (got "
                           ++ get_type v ++ $")"))
  end.

Definition parse_examples (examples : list Value) : result (list (list str)) Error :=
  collect_results parse_example examples.

(** [option.map(parse_examples).transpose()?.unwrap_or_default()]. *)
Definition optional_examples (examples : option (list Value)) : result (list (list str)) Error :=
  match examples with Some l => parse_examples l | None => Ok [] end.

Definition parse_literal_absolute_path (raw : str) : result str Error :=
  if negb (AbsolutePath.is_absolute raw)
  then Err (InvalidRule ($"host_executable paths must be absolute (got " ++ raw ++ $")"))
  else map_err (fun e => InvalidRule ($"invalid absolute path `" ++ raw ++ $"`: " ++ io_msg e))
         (AbsolutePath.from_absolute_path home_directory current_dir raw).

Definition path_type_error (v : Value) : Error :=
  InvalidRule ($"host_executable paths must be strings (got " ++ get_type v ++ $")").
Definition basename_error (raw name : str) : Error :=
  InvalidRule ($"host_executable path `" ++ raw ++ $"` must have basename `" ++ name ++ $"`").

(** One round of the loop of [host_executable]. *)
Definition host_path_step (name : str) (parsed_paths : list str) (v : Value)
  : result (list str) Error :=
  let? raw := ok_or (unpack_str v) (path_type_error v) in
  let? path := parse_literal_absolute_path raw in
  let? path_name := ok_or (executable_path_lookup_key path) (basename_error raw name) in
  if negb (bool_decide (path_name = executable_lookup_key name)) then Err (basename_error raw name)
  else if existsb (fun existing => bool_decide (existing = path)) parsed_paths
       then Ok parsed_paths else Ok (parsed_paths ++ [path]).

Fixpoint host_paths_loop (name : str) (parsed_paths : list str) (paths : list Value)
  : result (list str) Error :=
  match paths with
  | [] => Ok parsed_paths
  | v :: rest =>
      let? parsed_paths := host_path_step name parsed_paths v in
      host_paths_loop name parsed_paths rest
  end.

(** ** The builtins *)

(** The rules [prefix_rule] makes: one for each alternative of the first token. *)
Definition prefix_rules (pattern_tokens : list PatternToken) (decision : Decision)
    (justification : option str) : result (list PrefixRule) Error :=
  match pattern_tokens with
  | [] => Err pattern_empty
  | first_token :: rest =>
      Ok (map (fun head => mkRule (mkPattern head rest) decision justification)
            (token_alternatives first_token))
  end.

Definition prefix_rule (pattern : list Value) (decision : option str)
    (match_ not_match : option (list Value)) (justification : option str)
    (location : option ErrorLocation) : stM PolicyBuilder Error () :=
  let* decision := st_try match decision with Some raw => Decision_parse raw | None => Ok Allow end in
  let* justification := st_try (read_justification justification) in
  let* pattern_tokens := st_try (parse_pattern pattern) in
  let* matches := st_try (optional_examples match_) in
  let* not_matches := st_try (optional_examples not_match) in
  let location := error_location_from_file_span <$> location in
  let* rules := st_try (prefix_rules pattern_tokens decision justification) in
  let* _ := st_modify (add_pending_example_validation rules matches not_matches location) in
  st_for (fun rule => st_modify (builder_add_rule rule)) rules.

Definition network_rule (host protocol decision : str) (justification : option str)
  : stM PolicyBuilder Error () :=
  let* protocol := st_try (protocol_parse protocol) in
  let* decision := st_try (parse_network_rule_decision decision) in
  let* justification := st_try (read_justification justification) in
  let* host := st_try (normalize_network_rule_host host) in
  st_modify (builder_add_network_rule (mkNetworkRule host protocol decision justification)).

Definition host_executable (name : str) (paths : list Value) : stM PolicyBuilder Error () :=
  let* _ := st_try (validate_host_executable_name name) in
  let* parsed_paths := st_try (host_paths_loop name [] paths) in
  st_modify (builder_add_host_executable (executable_lookup_key name) parsed_paths).

Definition call_builtin (call : option ErrorLocation * Call) : stM PolicyBuilder Error () :=
  let '(location, c) := call in
  match c with
  | CallPrefixRule pattern decision match_ not_match justification =>
      prefix_rule pattern decision match_ not_match justification location
  | CallNetworkRule host protocol decision justification =>
      network_rule host protocol decision justification
  | CallHostExecutable name paths => host_executable name paths
  end.

(** ** Validating the examples *)

(** The policy an example list is checked against: the rules of its own call
    and the host executables declared so far. *)
Definition validation_policy (rules : list PrefixRule) (hosts : gmap (list N) (list str)) : Policy :=
  mkPolicy (fold_left (fun m rule => multimap_insert (program rule) rule m) rules ∅) [] hosts.

Definition validate_pending (b : PolicyBuilder) (v : PendingExampleValidation) : result () Error :=
  let p := validation_policy (pending_rules v) (builder_hosts b) in
  let? _ := map_err (fun e => attach_validation_location e (pending_location v))
              (validate_not_match_examples home_directory current_dir try_join debug_match p
                 (pending_not_matches v)) in
  map_err (fun e => attach_validation_location e (pending_location v))
    (validate_match_examples home_directory current_dir try_join debug_rule p
       (pending_rules v) (pending_matches v)).

Definition validate_pending_examples_from (start : nat) (b : PolicyBuilder) : outcome () Error :=
  let! l := or_panic (slice_range (pending_example_validations b) start
                        (length (pending_example_validations b))) in
  let! _ := of_result (collect_results (validate_pending b) l) in Done ().

(** ** [PolicyParser] *)

(** [AstModule::parse], and how Starlark reports an error a builtin returns. *)
Context (starlark_parse : str -> str -> result Program Error) (starlark_wrap : Error -> Error).

(** [eval_module]: the calls in order up to the first error. *)
Definition eval_module (prog : Program) : stM PolicyBuilder Error () :=
  let* _ := st_map_err starlark_wrap (st_for call_builtin (calls prog)) in
  match uncaught prog with Some e => st_fail e | None => st_ret () end.

Definition parse (policy_identifier policy_file_contents : str) : stM PolicyBuilder Error () :=
  let* b := st_get in
  let pending_validation_count := length (pending_example_validations b) in
  let* prog := st_try (starlark_parse policy_identifier policy_file_contents) in
  let* _ := eval_module prog in
  let* b := st_get in
  st_lift (validate_pending_examples_from pending_validation_count b).

(** [load_policies] of execpolicycheck.rs: every file in order, up to the first
    error. *)
Inductive LoadError : Type :=
| FailedToRead (policy_path : str) (source : io_error)
| FailedToParse (policy_path : str) (source : Error).

Definition load_policy (read_to_string : str -> result str io_error) (policy_path : str)
  : stM PolicyBuilder LoadError () :=
  let* contents := st_try (map_err (FailedToRead policy_path) (read_to_string policy_path)) in
  st_map_err (FailedToParse policy_path) (parse policy_path contents).

Definition load_policies (read_to_string : str -> result str io_error) (policy_paths : list str)
  : outcome Policy LoadError :=
  let '(o, b) := st_for (load_policy read_to_string) policy_paths builder_new in
  let! _ := o in Done (build b).

End env.


(** ** What a builder holds *)

Definition justified (j : option str) : Prop :=
  match j with Some raw => trim raw <> [] | None => True end.

(** Alternatives are at least two. *)
Definition wf_token (t : PatternToken) : Prop :=
  match t with Single _ => True | Alts l => 2 <= length l end.

Definition wf_rule (r : PrefixRule) : Prop :=
  Forall wf_token (rest (pattern r)) /\ justified (justification r).

Definition wf_rules (m : gmap (list N) (list PrefixRule)) : Prop :=
  forall k rs, m !! k = Some rs -> rs <> [] /\ Forall (fun r => program r = k /\ wf_rule r) rs.

Definition wf_network_rule (n : NetworkRule) : Prop :=
  normal_host (host n) /\ justified (network_justification n).

(** The paths listed for a name: canonical, without repetition, all ending in it. *)
Definition wf_host_paths (name : str) (paths : list str) : Prop :=
  NoDup paths
  /\ Forall (fun path => AbsolutePath.canonical path /\ AbsolutePath.file_name path = Some name) paths.

Definition wf_policy (p : Policy) : Prop :=
  wf_rules (rules_by_program p) /\ Forall wf_network_rule (network_rules p)
  /\ (forall name paths, host_executables_by_name p !! name = Some paths ->
       AbsolutePath.plain_name name /\ wf_host_paths name paths).

(** The rules of every pending validation are in the table. *)
Definition registered (b : PolicyBuilder) : Prop :=
  Forall (fun v => Forall (fun r => In r (rules_of (builder_rules b) (program r))) (pending_rules v))
    (pending_example_validations b).

Definition wf_builder (b : PolicyBuilder) : Prop := wf_policy (build b) /\ registered b.

Lemma wf_builder_new : wf_builder builder_new.
Proof.
  split; [|constructor]. split; [|split].
  - intros k rs. simpl. by rewrite lookup_empty.
  - constructor.
  - intros k paths. simpl. by rewrite lookup_empty.
Qed.

Lemma wf_rules_insert r m : wf_rules m -> wf_rule r -> wf_rules (multimap_insert (program r) r m).
Proof.
  intros Hm Hr k rs. unfold multimap_insert. destruct (decide (k = program r)) as [->|Hne].
  - rewrite lookup_insert_eq. intros [= <-]. split; [by destruct (default _ _)|].
    apply Forall_snoc; [|done]. destruct (m !! program r) as [rs|] eqn:E; [|constructor].
    by apply (Hm _ rs).
  - rewrite lookup_insert_ne by done. apply Hm.
Qed.

Lemma builder_add_rule_wf r b : wf_rule r -> wf_builder b -> wf_builder (builder_add_rule r b).
Proof.
  intros Hr [(H1 & H2 & H3) H4]. split; [split; [by apply wf_rules_insert|done]|].
  unfold registered in *. simpl. eapply Forall_impl; [exact H4|].
  intros v Hv. eapply Forall_impl; [exact Hv|]. intros q Hq. rewrite rules_of_insert.
  case_decide; [|done]. apply in_app_iff. by left.
Qed.

Lemma builder_add_network_rule_wf n b :
  wf_network_rule n -> wf_builder b -> wf_builder (builder_add_network_rule n b).
Proof.
  intros Hn [(H1 & H2 & H3) H4]. split; [|done]. split; [done|]. split; [|done].
  by apply Forall_snoc.
Qed.

Lemma builder_add_host_executable_wf name paths b :
  AbsolutePath.plain_name name -> wf_host_paths name paths -> wf_builder b ->
  wf_builder (builder_add_host_executable name paths b).
Proof.
  intros Hn Hp [(H1 & H2 & H3) H4]. split; [|done]. split; [done|]. split; [done|].
  intros k ps. simpl. destruct (decide (k = name)) as [->|Hne].
  - rewrite lookup_insert_eq. by intros [= <-].
  - rewrite lookup_insert_ne by done. apply H3.
Qed.

(** ** What the argument readers accept *)

Lemma collect_results_Forall2 {A B E} (f : A -> result B E) l ys :
  collect_results f l = Ok ys -> Forall2 (fun x y => f x = Ok y) l ys.
Proof. intros Hl. pose proof (collect_results_all f l) as Hall. by rewrite Hl in Hall. Qed.

Lemma parse_pattern_token_wf v t : parse_pattern_token v = Ok t -> wf_token t.
Proof.
  destruct v as [s|items|o]; simpl; [by intros [= <-]| |done].
  destruct (collect_results _ items) as [[|a [|b tokens]]|]; try done; intros [= <-]; simpl; [done|].
  lia.
Qed.

Lemma parse_pattern_wf pattern tokens :
  parse_pattern pattern = Ok tokens -> tokens <> [] /\ Forall wf_token tokens.
Proof.
  unfold parse_pattern. destruct (collect_results _ pattern) as [ts|] eqn:E; [|done].
  destruct (is_empty ts) eqn:Ee; [done|]. intros [= <-]. split; [by apply is_empty_false|].
  apply collect_results_Forall2 in E. clear Ee. induction E as [|v t vs ts Hv _ IH]; constructor; [|done].
  by eapply parse_pattern_token_wf.
Qed.

Lemma read_justification_justified j j' : read_justification j = Ok j' -> justified j'.
Proof.
  destruct j as [raw|]; simpl; [|by intros [= <-]].
  destruct (is_empty (trim raw)) eqn:E; [done|]. intros [= <-]. by apply is_empty_false.
Qed.

Lemma prefix_rules_wf tokens d j rules :
  prefix_rules tokens d j = Ok rules -> Forall wf_token tokens -> justified j ->
  Forall wf_rule rules.
Proof.
  destruct tokens as [|t ts]; [done|]. intros [= <-] Hts Hj. apply Forall_cons in Hts as [_ Hts].
  apply Forall_map, Forall_true. by intros a.
Qed.

Lemma components_normal p name :
  last (AbsolutePath.components p) = Some (AbsolutePath.Normal name) -> AbsolutePath.plain_name name.
Proof.
  intros Hl. apply last_Some_elem_of, list_elem_of_In in Hl. unfold AbsolutePath.components in Hl.
  pose proof (split_char_pieces AbsolutePath.SLASH p) as Hp.
  assert (forall ws, Forall (fun w => ~ In AbsolutePath.SLASH w) ws ->
    In (AbsolutePath.Normal name) (concat (map AbsolutePath.piece ws)) ->
    AbsolutePath.plain_name name) as Hws.
  { intros ws Hw Hin. destruct (AbsolutePath.pieces_names ws _ Hw Hin) as [?|(m & [= <-] & ?)]; done. }
  destruct (AbsolutePath.is_absolute p); [destruct Hl as [?|Hl]; [done|by eapply Hws]|].
  destruct (split_char AbsolutePath.SLASH p) as [|w ws]; [done|].
  case_bool_decide; apply (Hws (w :: ws)); try done; simpl; apply in_app_iff;
    apply in_app_iff in Hl as [Hl|Hl]; auto. by destruct Hl as [?|[]].
Qed.

Lemma validate_host_executable_name_plain name :
  validate_host_executable_name name = Ok () -> AbsolutePath.plain_name name.
Proof.
  unfold validate_host_executable_name. destruct (is_empty name); [done|].
  destruct (_ || _) eqn:E; [done|]. intros _. bool_hyps. apply (components_normal name).
  unfold AbsolutePath.file_name in *. destruct (last _) as [[]|]; congruence.
Qed.

Lemma host_path_step_wf home cwd name parsed v parsed' :
  host_path_step home cwd name parsed v = Ok parsed' ->
  wf_host_paths name parsed -> wf_host_paths name parsed'.
Proof.
  unfold host_path_step, parse_literal_absolute_path. destruct (unpack_str v) as [raw|]; [|done]. simpl.
  destruct (negb (AbsolutePath.is_absolute raw)) eqn:Ha; [done|]. apply negb_false_iff in Ha.
  assert (AbsolutePath.from_absolute_path home cwd raw = Ok (AbsolutePath.normalize_path raw)) as ->.
  { unfold AbsolutePath.from_absolute_path, AbsolutePath.maybe_expand_home_directory.
    apply AbsolutePath.is_absolute_true in Ha as Hs. destruct Hs as [t ->]. simpl.
    unfold AbsolutePath.absolutize. by rewrite Ha. }
  simpl. set (path := AbsolutePath.normalize_path raw).
  destruct (executable_path_lookup_key path) as [n|] eqn:En; [|done]. simpl.
  case_bool_decide as Hn; [|done]. destruct (existsb _ parsed) eqn:Ee; simpl; intros [= <-]; [done|].
  intros [Hnd Hf]. split.
  - apply NoDup_app. split; [done|]. split; [|apply NoDup_singleton].
    intros x Hx ->%list_elem_of_singleton. apply list_elem_of_In in Hx.
    assert (existsb (fun e => bool_decide (e = path)) parsed = true) as H; [|congruence].
    apply existsb_exists. exists path. split; [done|by apply bool_decide_eq_true].
  - apply Forall_snoc; [done|]. split; [by apply AbsolutePath.normalize_absolute|].
    unfold executable_path_lookup_key, executable_lookup_key in *.
    destruct (AbsolutePath.file_name path); simpl in En; congruence.
Qed.

Lemma host_paths_loop_wf home cwd name paths : forall parsed parsed',
  host_paths_loop home cwd name parsed paths = Ok parsed' ->
  wf_host_paths name parsed -> wf_host_paths name parsed'.
Proof.
  induction paths as [|v paths IH]; intros parsed parsed'; simpl; [by intros [= <-]|].
  destruct (host_path_step home cwd name parsed v) as [p1|] eqn:E; [|done]. intros Hl Hp.
  eapply IH; [exact Hl|]. by eapply host_path_step_wf.
Qed.

(** ** The builtins keep the builder well formed *)

Definition is_prefix_call (call : option ErrorLocation * Call) : bool :=
  match call with (_, CallPrefixRule _ _ _ _ _) => true | _ => false end.

Definition read_decision (decision : option str) : result Decision Error :=
  match decision with Some raw => Decision_parse raw | None => Ok Allow end.

(** The validation a [prefix_rule] call leaves. *)
Definition reads (shlex_split : str -> option (list str)) (call : option ErrorLocation * Call)
    (v : PendingExampleValidation) : Prop :=
  match call with
  | (location, CallPrefixRule pattern decision match_ not_match justification) =>
      exists tokens d j,
        parse_pattern pattern = Ok tokens /\ read_decision decision = Ok d
        /\ read_justification justification = Ok j
        /\ prefix_rules tokens d j = Ok (pending_rules v)
        /\ optional_examples shlex_split match_ = Ok (pending_matches v)
        /\ optional_examples shlex_split not_match = Ok (pending_not_matches v)
        /\ pending_location v = error_location_from_file_span <$> location
  | _ => False
  end.

(** The state after the calls [done]: well formed, and the validations beyond
    [pre] are those of the [prefix_rule] calls. *)
Definition after_calls shlex_split (pre : list PendingExampleValidation)
    (done : list (option ErrorLocation * Call)) (b : PolicyBuilder) : Prop :=
  wf_builder b /\ exists vs, pending_example_validations b = pre ++ vs
    /\ Forall2 (reads shlex_split) (List.filter is_prefix_call done) vs.

(** Between the registration of a validation and that of its rules. *)
Definition adding_rules (pre : list PendingExampleValidation) (v : PendingExampleValidation)
    (done : list PrefixRule) (b : PolicyBuilder) : Prop :=
  wf_policy (build b) /\ pending_example_validations b = pre ++ [v]
  /\ Forall (fun v => Forall (fun r => In r (rules_of (builder_rules b) (program r)))
                        (pending_rules v)) pre
  /\ Forall (fun r => In r (rules_of (builder_rules b) (program r))) done.

Lemma add_rule_adding pre v done r b :
  wf_rule r -> adding_rules pre v done b -> adding_rules pre v (done ++ [r]) (builder_add_rule r b).
Proof.
  intros Hr ((H1 & H2 & H3) & Hp & Hpre & Hd).
  assert (forall q, In q (rules_of (builder_rules b) (program q)) ->
    In q (rules_of (builder_rules (builder_add_rule r b)) (program q))) as Hkeep.
  { intros q Hq. simpl. rewrite rules_of_insert. case_decide; [|done]. apply in_app_iff. by left. }
  split; [split; [by apply wf_rules_insert|done]|]. split; [done|]. split.
  - eapply Forall_impl; [exact Hpre|]. intros w Hw. eapply Forall_impl; [exact Hw|]. apply Hkeep.
  - apply Forall_snoc; [eapply Forall_impl; [exact Hd|]; apply Hkeep|].
    simpl. rewrite rules_of_insert. case_decide; [|done]. apply in_app_iff. right. by left.
Qed.

Lemma add_rules_adding pre v rules :
  Forall wf_rule rules ->
  triple (adding_rules pre v []) (st_for (fun rule => st_modify (builder_add_rule rule)) rules)
    (fun _ => adding_rules pre v rules) (fun _ : Error => wf_builder).
Proof.
  intros Hw. apply (triple_for _ (adding_rules pre v) _ rules).
  intros done r Hr. apply triple_modify. intros b. apply add_rule_adding.
  rewrite Forall_forall in Hw. by apply Hw, list_elem_of_In.
Qed.

Section env.
Context (home : option str) (cwd : result str io_error).
Context (shlex_split : str -> option (list str)).

Lemma after_calls_other pre done call b b' :
  is_prefix_call call = false -> wf_builder b' ->
  pending_example_validations b' = pending_example_validations b ->
  after_calls shlex_split pre done b -> after_calls shlex_split pre (done ++ [call]) b'.
Proof.
  intros Hc Hb' Hp [_ (vs & Hvs & HF)]. split; [done|]. exists vs. split; [congruence|].
  rewrite List.filter_app. simpl. rewrite Hc. by rewrite app_nil_r.
Qed.

Lemma prefix_rule_keeps pre done pattern decision m n j location :
  triple (after_calls shlex_split pre done)
    (prefix_rule shlex_split pattern decision m n j location)
    (fun _ => after_calls shlex_split pre
                (done ++ [(location, CallPrefixRule pattern decision m n j)]))
    (fun _ => wf_builder).
Proof.
  unfold prefix_rule.
  assert (forall (e : Error) b, after_calls shlex_split pre done b -> wf_builder b) as HR.
  { by intros e b [? _]. }
  apply triple_bind_try; [done|]. intros d Hd. apply triple_bind_try; [done|]. intros j' Hj.
  apply triple_bind_try; [done|]. intros tokens Ht. apply triple_bind_try; [done|]. intros ms Hm.
  apply triple_bind_try; [done|]. intros ns Hn. apply triple_bind_try; [done|]. intros rules Hr.
  set (v := mkPending rules ms ns (error_location_from_file_span <$> location)).
  intros b [[Hw Hreg] (vs & Hvs & HF)].
  assert (Forall wf_rule rules) as Hrules.
  { eapply prefix_rules_wf; [exact Hr|by eapply parse_pattern_wf|].
    by eapply read_justification_justified. }
  pose proof (add_rules_adding (pre ++ vs) v rules Hrules
    (add_pending_example_validation rules ms ns (error_location_from_file_span <$> location) b)) as H.
  unfold st_bind, st_modify. simpl.
  destruct (st_for _ rules _) as [[[]|e|] b'].
  2, 3: apply H; split; [done|]; split; [by simpl; rewrite Hvs|]; split;
    [by unfold registered in Hreg; rewrite Hvs in Hreg|constructor].
  destruct H as (Hw' & Hp' & Hpre & Hin).
  { split; [done|]. split; [by simpl; rewrite Hvs|]. split; [|constructor].
    unfold registered in Hreg. by rewrite Hvs in Hreg. }
  split.
  - split; [done|]. unfold registered. rewrite Hp'. apply Forall_snoc; done.
  - exists (vs ++ [v]). split; [by rewrite Hp', app_assoc|]. rewrite List.filter_app.
    apply Forall2_app; [done|]. simpl. constructor; [|constructor]. exists tokens, d, j'. done.
Qed.

Lemma network_rule_keeps pre done location h proto d j :
  triple (after_calls shlex_split pre done) (network_rule h proto d j)
    (fun _ => after_calls shlex_split pre (done ++ [(location, CallNetworkRule h proto d j)]))
    (fun _ => wf_builder).
Proof.
  unfold network_rule.
  assert (forall (e : Error) b, after_calls shlex_split pre done b -> wf_builder b) as HR.
  { by intros e b [? _]. }
  apply triple_bind_try; [done|]. intros p Hp. apply triple_bind_try; [done|]. intros d' Hd.
  apply triple_bind_try; [done|]. intros j' Hj. apply triple_bind_try; [done|]. intros h' Hh.
  apply triple_modify. intros b Hb. apply (after_calls_other _ _ _ b); try done.
  apply builder_add_network_rule_wf; [|apply Hb]. split; [by eapply normalize_network_rule_host_ok|].
  by eapply read_justification_justified.
Qed.

Lemma host_executable_keeps pre done location name paths :
  triple (after_calls shlex_split pre done) (host_executable home cwd name paths)
    (fun _ => after_calls shlex_split pre (done ++ [(location, CallHostExecutable name paths)]))
    (fun _ => wf_builder).
Proof.
  unfold host_executable.
  assert (forall (e : Error) b, after_calls shlex_split pre done b -> wf_builder b) as HR.
  { by intros e b [? _]. }
  apply triple_bind_try; [done|]. intros [] Hv. apply triple_bind_try; [done|]. intros ps Hp.
  apply triple_modify. intros b Hb. apply (after_calls_other _ _ _ b); try done.
  apply builder_add_host_executable_wf; [by apply validate_host_executable_name_plain| |apply Hb].
  eapply host_paths_loop_wf; [exact Hp|]. split; constructor.
Qed.

Lemma calls_keep pre l :
  triple (after_calls shlex_split pre []) (st_for (call_builtin home cwd shlex_split) l)
    (fun _ => after_calls shlex_split pre l) (fun _ => wf_builder).
Proof.
  apply (triple_for _ (after_calls shlex_split pre) _ l).
  intros done [location [pattern d m n j|h p d j|name paths]] _; simpl.
  - apply prefix_rule_keeps.
  - apply network_rule_keeps.
  - apply host_executable_keeps.
Qed.

(** ** Examples *)

Abbreviation example_matches p cmd :=
  (matches_for_command_with_options home cwd p cmd None example_options).

Lemma in_validation_policy rules hosts k r :
  In r (rules_of (rules_by_program (validation_policy rules hosts)) k) ->
  In r rules /\ program r = k.
Proof.
  simpl. assert (forall m, In r (rules_of (fold_left (fun m rule =>
      multimap_insert (program rule) rule m) rules m) k) ->
    In r (rules_of m k) \/ In r rules /\ program r = k) as H.
  { induction rules as [|q rules IH]; intros m Hr; simpl in *; [by left|].
    apply IH in Hr as [Hr|[Hr ?]]; [|auto]. rewrite rules_of_insert in Hr.
    case_decide as Hk; [|by left]. apply in_app_iff in Hr as [Hr|[->|[]]]; auto. }
  intros Hr. apply H in Hr as [Hr|Hr]; [|done]. unfold rules_of in Hr. rewrite lookup_empty in Hr.
  done.
Qed.

Lemma matching_rules_mono rs rs' cmd :
  (forall r, In r rs -> In r rs') -> matching_rules rs cmd <> [] -> matching_rules rs' cmd <> [].
Proof.
  intros Hsub Hne. destruct (matching_rules rs cmd) as [|m ms] eqn:E; [done|].
  assert (m ∈ matching_rules rs cmd) as Hm by (rewrite E; left).
  apply list_elem_of_omap in Hm as (r & Hr & Hm). apply list_elem_of_In, Hsub, list_elem_of_In in Hr.
  intros E'. assert (m ∈ matching_rules rs' cmd) as H.
  { apply list_elem_of_omap. by exists r. }
  rewrite E' in H. by apply elem_of_nil in H.
Qed.

Lemma example_matches_cases p cmd :
  example_matches p cmd
  = if negb (is_empty (default [] (match_exact_rules p cmd)))
    then default [] (match_exact_rules p cmd) else match_host_executable_rules home cwd p cmd.
Proof. unfold matches_for_command_with_options. simpl. by case_match. Qed.

(** More rules match more, as long as the host executables stay. *)
Lemma example_matches_mono p q cmd :
  (forall k r, In r (rules_of (rules_by_program p) k) -> In r (rules_of (rules_by_program q) k)) ->
  host_executables_by_name p = host_executables_by_name q ->
  example_matches p cmd <> [] -> example_matches q cmd <> [].
Proof.
  intros Hsub Hh. destruct cmd as [|c0 args]; [done|].
  rewrite !example_matches_cases, !match_exact_rules_of. simpl default.
  assert (forall m : Policy, match_host_executable_rules home cwd m (c0 :: args)
    = match AbsolutePath.from_absolute_path home cwd c0 with
      | Err _ => []
      | Ok path => match executable_path_lookup_key path with
                   | None => []
                   | Some basename =>
                       if match host_executables_by_name m !! basename with
                          | Some paths => negb (existsb (fun x => bool_decide (x = path)) paths)
                          | None => false
                          end
                       then []
                       else map (fun x => with_resolved_program x path)
                              (matching_rules (rules_of (rules_by_program m) basename)
                                 (basename :: args))
                   end
      end) as Hhost.
  { intros m. unfold match_host_executable_rules, rules_of.
    repeat case_match; simplify_eq/=; done. }
  rewrite !Hhost, Hh. clear Hhost.
  set (A := matching_rules (rules_of (rules_by_program p) c0) (c0 :: args)).
  set (B := matching_rules (rules_of (rules_by_program q) c0) (c0 :: args)).
  assert (A <> [] -> B <> []) as HAB by apply matching_rules_mono, Hsub.
  destruct B as [|b B']; [|by intros _; simpl].
  destruct A as [|a A']; [|by exfalso; apply HAB]. clear HAB. simpl.
  destruct (AbsolutePath.from_absolute_path home cwd c0) as [path|]; [|done].
  destruct (executable_path_lookup_key path) as [basename|]; [|done]. case_if; [done|].
  intros Hne Hnil. apply (matching_rules_mono _ _ (basename :: args) (Hsub basename)).
  - intros E. by rewrite E in Hne.
  - by apply map_eq_nil in Hnil.
Qed.

Context (try_join : list str -> option str).
Context (debug_rule : PrefixRule -> str) (debug_match : RuleMatch -> str).

Lemma validate_match_examples_ok p rules ms :
  validate_match_examples home cwd try_join debug_rule p rules ms = Ok () ->
  Forall (fun e => example_matches p e <> []) ms.
Proof.
  unfold validate_match_examples. case_match eqn:E; [|done]. intros _.
  apply is_empty_true, map_eq_nil in E. apply Forall_forall. intros e He Hnil.
  apply list_elem_of_In in He.
  assert (In e (List.filter (fun e => is_empty (example_matches p e)) ms)) as H.
  { apply filter_In. by rewrite Hnil. }
  by rewrite E in H.
Qed.

Lemma validate_not_match_examples_ok p ns :
  validate_not_match_examples home cwd try_join debug_match p ns = Ok () ->
  Forall (fun e => example_matches p e = []) ns.
Proof.
  induction ns as [|e ns IH]; simpl; [constructor|].
  destruct (example_matches p e) eqn:E; [|done]. intros H. constructor; auto.
Qed.

(** What a validation that succeeded establishes about the policy [q]. *)
Definition examples_hold (q : Policy) (v : PendingExampleValidation) : Prop :=
  Forall (fun e => example_matches q e <> []) (pending_matches v)
  /\ Forall (fun e => example_matches
               (validation_policy (pending_rules v) (host_executables_by_name q)) e = [])
       (pending_not_matches v).

Lemma validate_pending_ok b v :
  wf_builder b -> In v (pending_example_validations b) ->
  validate_pending home cwd try_join debug_rule debug_match b v = Ok () ->
  examples_hold (build b) v.
Proof.
  intros [_ Hreg] Hv. unfold validate_pending.
  set (p := validation_policy (pending_rules v) (builder_hosts b)).
  destruct (validate_not_match_examples _ _ _ _ p _) as [[]|] eqn:En; [|done]. simpl.
  destruct (validate_match_examples _ _ _ _ p _ _) as [[]|] eqn:Em; [|done]. intros _.
  split; [|by apply validate_not_match_examples_ok].
  apply validate_match_examples_ok in Em. eapply Forall_impl; [exact Em|].
  intros e. apply example_matches_mono; [|done]. intros k r Hr.
  apply in_validation_policy in Hr as [Hr <-].
  unfold registered in Hreg. rewrite Forall_forall in Hreg. apply list_elem_of_In, Hreg in Hv.
  rewrite Forall_forall in Hv. by apply Hv, list_elem_of_In.
Qed.

(** ** The parser *)

Context (starlark_parse : str -> str -> result Program Error) (starlark_wrap : Error -> Error).

Abbreviation parse_file :=
  (parse home cwd shlex_split try_join debug_rule debug_match starlark_parse starlark_wrap).
Abbreviation load_files :=
  (load_policies home cwd shlex_split try_join debug_rule debug_match starlark_parse starlark_wrap).

(** A parsed file: what its calls leave behind the validations [pre]. *)
Definition parsed (id contents : str) (pre : list PendingExampleValidation) (b : PolicyBuilder)
  : Prop :=
  exists prog vs,
    starlark_parse id contents = Ok prog /\ uncaught prog = None /\ wf_builder b
    /\ pending_example_validations b = pre ++ vs
    /\ Forall2 (reads shlex_split) (List.filter is_prefix_call (calls prog)) vs
    /\ Forall (examples_hold (build b)) vs.

Lemma eval_module_keeps pre prog :
  triple (after_calls shlex_split pre [])
    (eval_module home cwd shlex_split starlark_wrap prog)
    (fun _ b => uncaught prog = None /\ after_calls shlex_split pre (calls prog) b)
    (fun _ => wf_builder).
Proof.
  unfold eval_module. eapply triple_bind; [apply triple_map_err, calls_keep|]. intros [].
  destruct (uncaught prog) as [e|].
  - by intros b [? _].
  - by intros b Hb.
Qed.

Lemma validate_pending_from_ok pre vs b :
  wf_builder b -> pending_example_validations b = pre ++ vs ->
  match validate_pending_examples_from home cwd try_join debug_rule debug_match (length pre) b with
  | Done _ => Forall (examples_hold (build b)) vs
  | Fail _ => True
  | Panic => False
  end.
Proof.
  intros Hb Hp. unfold validate_pending_examples_from.
  rewrite slice_range_Some; [|rewrite Hp, length_app; lia|done]. simpl.
  rewrite Hp, drop_app_length, length_app, firstn_all2 by lia.
  destruct (collect_results _ vs) as [us|] eqn:E; [|done]. simpl.
  apply collect_results_Forall2 in E. apply Forall_forall. intros v Hv.
  apply list_elem_of_In in Hv as Hin. apply list_elem_of_lookup in Hv as [i Hi].
  destruct (Forall2_lookup_l _ _ _ _ _ E Hi) as ([] & _ & Hok).
  eapply validate_pending_ok; [done| |exact Hok]. rewrite Hp. apply in_app_iff. by right.
Qed.

Lemma parse_keeps id contents pre :
  triple (fun b => wf_builder b /\ pending_example_validations b = pre) (parse_file id contents)
    (fun _ => parsed id contents pre) (fun _ => wf_builder).
Proof.
  intros b [Hb Hpre]. unfold parse, st_bind, st_get, st_try, st_lift.
  destruct (starlark_parse id contents) as [prog|e] eqn:Es; [|done]. simpl.
  assert (after_calls shlex_split pre [] b) as Hpre'.
  { split; [done|]. exists []. rewrite app_nil_r. split; [done|constructor]. }
  pose proof (eval_module_keeps pre prog b Hpre') as He.
  destruct (eval_module _ _ _ _ prog b) as [[[]|e|] b']; [|done|done].
  destruct He as (Hu & Hw & vs & Hvs & HF). rewrite Hpre.
  pose proof (validate_pending_from_ok pre vs b' Hw Hvs) as Hv.
  destruct (validate_pending_examples_from _ _ _ _ _ _ b') as [[]|e|]; [|done|done].
  by exists prog, vs.
Qed.

(** whatever the policy files contain and however their evaluation ends, the
    parser never panics, and the policy it builds is well formed: every rule is
    stored under its first token, with alternatives of at least two choices and
    no blank justification; network hosts are in normal form; and the paths of a
    host executable are canonical, pairwise distinct and end in its name, which
    is a bare name. *)
Theorem loaded_policy_wf (read_to_string : str -> result str io_error) (policy_paths : list str) :
  match load_files read_to_string policy_paths with
  | Done p => wf_policy p
  | Fail _ => True
  | Panic => False
  end.
Proof.
  assert (triple wf_builder
    (st_for (load_policy home cwd shlex_split try_join debug_rule debug_match starlark_parse
               starlark_wrap read_to_string) policy_paths)
    (fun _ => wf_builder) (fun _ _ => True)) as H.
  { apply (triple_for _ (fun _ => wf_builder) _ policy_paths) with (done := []).
    intros _ path _. unfold load_policy. apply triple_bind_try; [done|]. intros contents _.
    apply triple_map_err. intros b Hb.
    pose proof (parse_keeps path contents _ b (conj Hb eq_refl)) as Hp.
    destruct (parse_file path contents b) as [[[]|e|] b']; [|done|done].
    by destruct Hp as (prog & vs & _ & _ & Hw & _). }
  specialize (H _ wf_builder_new). unfold load_policies.
  destruct (st_for _ policy_paths builder_new) as [[[]|e|] b]; [apply H|done|done].
Qed.

(** when a file parses, each of its [prefix_rule] calls was read as the rules
    and examples it names, every [match] example is matched by the policy built
    so far, and no [not_match] example is matched by the rules of its own call,
    host executables included. *)
Theorem parsed_examples_hold (id contents : str) (b b' : PolicyBuilder) :
  wf_builder b -> parse_file id contents b = (Done (), b') ->
  exists prog vs,
    starlark_parse id contents = Ok prog /\ uncaught prog = None
    /\ pending_example_validations b' = pending_example_validations b ++ vs
    /\ Forall2 (reads shlex_split) (List.filter is_prefix_call (calls prog)) vs
    /\ Forall (examples_hold (build b')) vs.
Proof.
  intros Hb Hp. pose proof (parse_keeps id contents _ b (conj Hb eq_refl)) as H.
  rewrite Hp in H. destruct H as (prog & vs & ? & ? & _ & ? & ? & ?). by exists prog, vs.
Qed.

End env.

(** ** A file *)

Definition demo_program : Program :=
  mkProgram
    [(None, CallHostExecutable ($"git") [VStr ($"/usr/bin/git"); VStr ($"/usr/bin/./git")]);
     (None, CallPrefixRule [VStr ($"git"); VList [VStr ($"status"); VStr ($"log")]] None
              (Some [VList [VStr ($"/usr/bin/git"); VStr ($"log"); VStr ($"-1")]])
              (Some [VList [VStr ($"/opt/git"); VStr ($"log")]]) (Some ($"read only")));
     (None, CallNetworkRule ($" Example.COM. ") ($"https") ($"deny") None)] None.

Definition demo_parse : stM PolicyBuilder Error () :=
  parse None (Ok [AbsolutePath.SLASH]) (fun s => Some [s]) (fun _ => None) (fun _ => []) (fun _ => [])
    (fun _ _ => Ok demo_program) (fun e => e) ($"demo") ($"...").

Example demo_parsed :
  match demo_parse builder_new with
  | (Done (), b) =>
      host_executables_by_name (build b) !! ($"git") = Some [$"/usr/bin/git"]
      /\ map host (network_rules (build b)) = [$"example.com"]
      /\ map (fun v => length (pending_rules v)) (pending_example_validations b) = [1]
  | _ => False
  end.
Proof. vm_compute. auto. Qed.

Lemma parsed_examples_hold_witness :
  exists b', demo_parse builder_new = (Done (), b')
    /\ exists vs, pending_example_validations b' = vs
        /\ Forall (examples_hold None (Ok [AbsolutePath.SLASH]) (build b')) vs.
Proof.
  assert (match demo_parse builder_new with (Done (), _) => true | _ => false end = true) as E
    by (vm_compute; reflexivity).
  destruct (demo_parse builder_new) as [[[]|e|] b'] eqn:Ed; try discriminate.
  destruct (parsed_examples_hold _ _ _ _ _ _ _ _ _ _ _ _ wf_builder_new Ed)
    as (prog & vs & _ & _ & Hp & _ & Hv).
  exists b'. split; [reflexivity|]. exists vs. split; [exact Hp|exact Hv].
Defined.

End PolicyBuiltins.
