(* ===== verification/HeadTail.v ===== *)
(** * Captured output with a bounded middle

    core/src/unified_exec/head_tail_buffer.rs: the buffer that keeps the first
    and the last bytes of a process's output.  Its contract is a function of the
    whole stream, [summary]; every operation is shown to refine it. *)

From S2P Require Import Prelude RustStr.

Module HeadTail.

Record HeadTailBuffer : Type := mkBuffer {
  head : list N;
  tail : list N;
  omitted_bytes : N;
}.

#[export] Instance HeadTailBuffer_eq_dec : EqDecision HeadTailBuffer.
Proof. solve_decision. Defined.

(** [HeadTailBuffer::default()]. *)
Definition empty_buffer : HeadTailBuffer := mkBuffer [] [] 0.

(** [Vec::len] as a [usize]. *)
Definition len (l : list N) : N := N.of_nat (length l).

(** [format_output_omission_marker] of unified_exec/mod.rs; its bytes are ASCII. *)
Definition format_output_omission_marker (omitted : N) : str :=
  $"... " ++ show_N omitted ++ $" bytes omitted ...".

Section buffer.
(** The const parameter [MAX_BYTES]. *)
Context (MAX_BYTES : nat).

Definition HEAD_BUDGET : nat := MAX_BYTES / 2.
Definition TAIL_BUDGET : nat := MAX_BYTES - HEAD_BUDGET.

Definition retained_bytes (b : HeadTailBuffer) : N := sat_add (len (head b)) (len (tail b)).
Definition total_bytes (b : HeadTailBuffer) : N := sat_add (retained_bytes b) (omitted_bytes b).

(** The buffer with its head filled, and the bytes that did not fit. *)
Definition fill_head (b : HeadTailBuffer) (chunk : list N) : HeadTailBuffer * list N :=
  let remaining_head := HEAD_BUDGET - length (head b) in
  let '(chunk_head, chunk_tail) :=
    if remaining_head <=? length chunk
    then (take remaining_head chunk, drop remaining_head chunk) else (chunk, []) in
  (mkBuffer (head b ++ chunk_head) (tail b) (omitted_bytes b), chunk_tail).

(** [None] is the panic of a slice or of [drain]. *)
Definition push_tail (b : HeadTailBuffer) (chunk : list N) : option HeadTailBuffer :=
  let remaining_tail := TAIL_BUDGET - length (tail b) in
  let excess_tail := length chunk - remaining_tail in
  let omitted := sat_add (omitted_bytes b) (N.of_nat excess_tail) in
  if excess_tail <? length (tail b) then
    match slice_range (tail b) excess_tail (length (tail b)) with
    | Some kept => Some (mkBuffer (head b) (kept ++ chunk) omitted)
    | None => None
    end
  else
    match slice_range chunk (excess_tail - length (tail b)) (length chunk) with
    | Some chunk => Some (mkBuffer (head b) chunk omitted)
    | None => None
    end.

Definition push_chunk (b : HeadTailBuffer) (chunk : list N) : option HeadTailBuffer :=
  let '(b, chunk) := fill_head b chunk in push_tail b chunk.

Definition to_bytes (b : HeadTailBuffer) : list N := head b ++ tail b.

Definition to_bytes_with_omission_marker (b : HeadTailBuffer) : list N :=
  if (omitted_bytes b =? 0)%N then to_bytes b
  else head b ++ [LF] ++ format_output_omission_marker (omitted_bytes b) ++ [LF] ++ tail b.

(** [VecDeque::as_slices] cuts the queue somewhere. *)
Context (first_slice_len : list N -> nat).

Definition push_buffer (b buffer : HeadTailBuffer) : option HeadTailBuffer :=
  let b := mkBuffer (head b) (tail b) (sat_add (omitted_bytes b) (omitted_bytes buffer)) in
  let '(b, overflow) :=
    if is_empty (head b) then (mkBuffer (head buffer) (tail b) (omitted_bytes b), [])
    else fill_head b (head buffer) in
  if length (tail buffer) =? TAIL_BUDGET then
    Some (mkBuffer (head b) (tail buffer)
            (sat_add (sat_add (omitted_bytes b) (len (tail b))) (len overflow)))
  else
    match push_tail b overflow with
    | None => None
    | Some b =>
        if is_empty (tail b) then Some (mkBuffer (head b) (tail buffer) (omitted_bytes b))
        else
          let first := take (first_slice_len (tail buffer)) (tail buffer) in
          let second := drop (first_slice_len (tail buffer)) (tail buffer) in
          match push_tail b first with None => None | Some b => push_tail b second end
    end.

(** ** The contract: what remains of a stream *)

(** The last [n] elements. *)
Definition last_n (n : nat) (l : list N) : list N := drop (length l - n) l.

Definition summary (stream : list N) : HeadTailBuffer :=
  mkBuffer (take HEAD_BUDGET stream) (last_n TAIL_BUDGET (drop HEAD_BUDGET stream))
    (N.min usize_max (N.of_nat (length stream - MAX_BYTES))).

Lemma budgets : HEAD_BUDGET + TAIL_BUDGET = MAX_BYTES /\ HEAD_BUDGET <= TAIL_BUDGET.
Proof.
  assert (2 * HEAD_BUDGET <= MAX_BYTES) as H by apply Nat.Div0.mul_div_le.
  unfold TAIL_BUDGET. generalize dependent HEAD_BUDGET. intros h H. lia.
Qed.

Lemma last_n_all n l : length l <= n -> last_n n l = l.
Proof. intros H. unfold last_n. by replace (length l - n) with 0 by lia. Qed.

Lemma length_last_n n l : length (last_n n l) = Nat.min n (length l).
Proof. unfold last_n. rewrite length_drop. lia. Qed.

Lemma last_n_app n l1 l2 :
  last_n n (l1 ++ l2) = last_n (n - length l2) l1 ++ last_n n l2.
Proof.
  unfold last_n. rewrite drop_app, length_app. f_equal; [|f_equal; lia].
  destruct (decide (length l2 <= n)); [f_equal; lia|]. by rewrite !drop_ge by lia.
Qed.

Lemma last_n_drop n k l : n + k <= length l -> last_n n (drop k l) = last_n n l.
Proof. intros H. unfold last_n. rewrite drop_drop, length_drop. f_equal. lia. Qed.

Lemma last_n_suffix n l1 l2 : n <= length l2 -> last_n n (l1 ++ l2) = last_n n l2.
Proof.
  intros H. rewrite last_n_app. replace (n - length l2) with 0 by lia.
  unfold last_n at 1. by rewrite Nat.sub_0_r, drop_all.
Qed.

Lemma last_n_last_n n l1 l2 : last_n n (last_n n l1 ++ l2) = last_n n (l1 ++ l2).
Proof.
  rewrite !last_n_app. f_equal. unfold last_n. rewrite drop_drop, length_drop. f_equal. lia.
Qed.

(** Pushing on the tail keeps the last bytes and counts the others. *)
Lemma push_tail_spec h t o chunk :
  length t <= TAIL_BUDGET ->
  push_tail (mkBuffer h t o) chunk
  = Some (mkBuffer h (last_n TAIL_BUDGET (t ++ chunk))
            (sat_add o (N.of_nat (length (t ++ chunk) - TAIL_BUDGET)))).
Proof.
  intros Ht. unfold push_tail. simpl.
  assert (length chunk - (TAIL_BUDGET - length t) = length (t ++ chunk) - TAIL_BUDGET) as ->
    by (rewrite length_app; lia).
  set (e := length (t ++ chunk) - TAIL_BUDGET).
  assert (e = length t + length chunk - TAIL_BUDGET) as He by (unfold e; by rewrite length_app).
  unfold last_n. fold e. rewrite drop_app.
  destruct (Nat.ltb_spec e (length t)).
  - rewrite slice_range_Some by lia. rewrite firstn_all2 by (rewrite length_drop; lia).
    by replace (e - length t) with 0 by lia.
  - rewrite slice_range_Some by lia. rewrite firstn_all2 by (rewrite length_drop; lia).
    by rewrite (drop_ge t) by lia.
Qed.

Lemma fill_head_spec h t o chunk :
  length h <= HEAD_BUDGET ->
  fill_head (mkBuffer h t o) chunk
  = (mkBuffer (take HEAD_BUDGET (h ++ chunk)) t o, drop HEAD_BUDGET (h ++ chunk)).
Proof.
  intros Hh. unfold fill_head. simpl. rewrite take_app, drop_app, (take_ge h), (drop_ge h) by lia.
  simpl. destruct (Nat.leb_spec (HEAD_BUDGET - length h) (length chunk)); [done|].
  by rewrite take_ge, drop_ge by lia.
Qed.

(** Saturating sums are the saturated sum. *)
Lemma sat_add_min (a b : nat) :
  sat_add (N.min usize_max (N.of_nat a)) (N.of_nat b) = N.min usize_max (N.of_nat (a + b)).
Proof. unfold sat_add. generalize usize_max. lia. Qed.

Lemma sat_add_mins (a b : nat) :
  sat_add (N.min usize_max (N.of_nat a)) (N.min usize_max (N.of_nat b))
  = N.min usize_max (N.of_nat (a + b)).
Proof. unfold sat_add. generalize usize_max. lia. Qed.

Lemma push_chunk_summary (stream chunk : list N) :
  push_chunk (summary stream) chunk = Some (summary (stream ++ chunk)).
Proof.
  unfold push_chunk, summary at 1. pose proof budgets as [Hb Hht].
  rewrite fill_head_spec by (rewrite length_take; lia).
  assert (take HEAD_BUDGET (take HEAD_BUDGET stream ++ chunk) = take HEAD_BUDGET (stream ++ chunk))
    as ->.
  { rewrite !take_app, take_take, length_take. f_equal; f_equal; lia. }
  rewrite push_tail_spec by (rewrite length_last_n; lia). unfold summary. f_equal. f_equal.
  - rewrite last_n_last_n. f_equal. rewrite !drop_app, length_take.
    rewrite (drop_ge (take _ _)) by (rewrite length_take; lia). simpl. do 2 f_equal. lia.
  - rewrite sat_add_min. do 2 f_equal. rewrite !length_app, length_last_n, !length_drop, length_app,
      length_take. lia.
Qed.

(** The head after [push_buffer], and what overflows it. *)
Lemma merge_head a b o :
  (if is_empty (take HEAD_BUDGET a)
   then (mkBuffer (take HEAD_BUDGET b) (last_n TAIL_BUDGET (drop HEAD_BUDGET a)) o, [])
   else fill_head (mkBuffer (take HEAD_BUDGET a) (last_n TAIL_BUDGET (drop HEAD_BUDGET a)) o)
          (take HEAD_BUDGET b))
  = (mkBuffer (take HEAD_BUDGET (a ++ b)) (last_n TAIL_BUDGET (drop HEAD_BUDGET a)) o,
     drop (HEAD_BUDGET - length a) (take HEAD_BUDGET b)).
Proof.
  destruct (is_empty (take HEAD_BUDGET a)) eqn:E.
  - apply is_empty_true in E. rewrite take_app, E, (drop_ge (take HEAD_BUDGET b)); simpl.
    + assert (take (HEAD_BUDGET - length a) b = take HEAD_BUDGET b) as ->; [|done].
      f_equal. apply (f_equal length) in E. rewrite length_take in E.
      destruct a; simpl in *; lia.
    + apply (f_equal length) in E. rewrite length_take in *. simpl in E. lia.
  - rewrite fill_head_spec by (rewrite length_take; lia).
    rewrite !take_app, drop_app, take_take, length_take, (drop_ge (take _ a))
      by (rewrite length_take; lia).
    rewrite take_take, Nat.min_id. simpl.
    replace (HEAD_BUDGET - HEAD_BUDGET `min` length a) with (HEAD_BUDGET - length a) by lia.
    by replace ((HEAD_BUDGET - length a) `min` HEAD_BUDGET) with (HEAD_BUDGET - length a) by lia.
Qed.

(** The last part of [push_buffer] when the source tail is not full. *)
Lemma push_rest h t o overflow l :
  length t <= TAIL_BUDGET -> length l < TAIL_BUDGET ->
  match push_tail (mkBuffer h t o) overflow with
  | None => None
  | Some b =>
      if is_empty (tail b) then Some (mkBuffer (head b) l (omitted_bytes b))
      else match push_tail b (take (first_slice_len l) l) with
           | None => None
           | Some b => push_tail b (drop (first_slice_len l) l)
           end
  end
  = Some (mkBuffer h (last_n TAIL_BUDGET (t ++ overflow ++ l))
            (sat_add o (N.of_nat (length (t ++ overflow ++ l) - TAIL_BUDGET)))).
Proof.
  intros Ht Hl. rewrite push_tail_spec by done. simpl.
  destruct (is_empty (last_n TAIL_BUDGET (t ++ overflow))) eqn:E.
  - apply is_empty_true in E. apply (f_equal length) in E. rewrite length_last_n, length_app in E.
    simpl in E. destruct t, overflow; simpl in *; try lia.
    rewrite last_n_all by lia. do 2 f_equal. unfold sat_add. lia.
  - do 2 (rewrite push_tail_spec by (rewrite length_last_n; lia); simpl).
    rewrite !last_n_last_n, <- !app_assoc.
    rewrite take_drop. f_equal. f_equal; [by rewrite last_n_last_n, <- app_assoc|].
    repeat rewrite ?length_app, ?length_last_n, ?length_take, ?length_drop. unfold sat_add. lia.
Qed.

(** appending the buffer of a later part of the stream gives the summary of
    the concatenated streams, although neither buffer has their middles, and
    wherever the queue of the later tail happens to wrap. *)
Theorem push_buffer_refines (a b : list N) :
  push_buffer (summary a) (summary b) = Some (summary (a ++ b)).
Proof.
  unfold push_buffer. pose proof budgets as [Hb Hht]. simpl. rewrite merge_head. simpl.
  destruct (Nat.eqb_spec (length (last_n TAIL_BUDGET (drop HEAD_BUDGET b))) TAIL_BUDGET) as [Hf|Hf].
  - rewrite length_last_n, length_drop in Hf. unfold summary. f_equal. f_equal.
    + rewrite drop_app, last_n_suffix by (rewrite length_drop; lia).
      by rewrite !last_n_drop by lia.
    + unfold len. rewrite sat_add_mins, !sat_add_min. do 2 f_equal.
      rewrite length_last_n, !length_drop, length_take, length_app. lia.
  - rewrite length_last_n, length_drop in Hf.
    rewrite push_rest by (rewrite length_last_n, ?length_drop; lia). unfold summary. f_equal. f_equal.
    + rewrite last_n_last_n. f_equal. rewrite last_n_all by (rewrite length_drop; lia).
      rewrite (drop_app a b). f_equal. rewrite <- (take_drop HEAD_BUDGET b) at 3.
      rewrite drop_app, length_take. f_equal.
      destruct (decide (HEAD_BUDGET <= length b)).
      * by replace (_ - _ - _) with 0 by lia.
      * by rewrite (drop_ge b), drop_nil by lia.
    + rewrite sat_add_mins, sat_add_min. do 2 f_equal.
      rewrite !length_app, !length_last_n, !length_drop, length_take. lia.
Qed.

(** Any list of chunks. *)
Fixpoint push_chunks (b : HeadTailBuffer) (chunks : list (list N)) : option HeadTailBuffer :=
  match chunks with
  | [] => Some b
  | chunk :: chunks' =>
      match push_chunk b chunk with Some b => push_chunks b chunks' | None => None end
  end.

End buffer.

(** what is shown of a process's output, whatever the chunks it came in: all
    of it when it fits the budget; otherwise its first half budget, a marker
    with the exact number of missing bytes, and its last half budget.  The
    buffer never holds more than the budget and always knows the stream's
    length.  (Lengths are below 2^64, as the memory of the process.) *)
Theorem captured_output (MAX_BYTES : nat) (chunks : list (list N)) :
  (len (concat chunks) <= usize_max)%N ->
  exists b, push_chunks MAX_BYTES empty_buffer chunks = Some b
    /\ length (head b) + length (tail b) <= MAX_BYTES
    /\ total_bytes b = len (concat chunks)
    /\ to_bytes_with_omission_marker b =
         let stream := concat chunks in
         let h := HEAD_BUDGET MAX_BYTES in
         let t := TAIL_BUDGET MAX_BYTES in
         if length stream <=? MAX_BYTES then stream
         else take h stream ++ [LF]
              ++ format_output_omission_marker (len stream - N.of_nat MAX_BYTES)
              ++ [LF] ++ drop (length stream - t) stream.
Proof.
  intros Hlen. exists (summary MAX_BYTES (concat chunks)).
  pose proof (budgets MAX_BYTES) as [Hb Hht].
  split.
  { assert (forall s, push_chunks MAX_BYTES (summary MAX_BYTES s) chunks
                      = Some (summary MAX_BYTES (s ++ concat chunks))) as H.
    { clear Hlen. induction chunks as [|c cs IH]; intros s; simpl; [by rewrite app_nil_r|].
      rewrite push_chunk_summary. by rewrite IH, app_assoc. }
    specialize (H []). unfold summary in H at 1. rewrite take_nil, drop_nil in H. exact H. }
  unfold len in *. set (s := concat chunks) in *.
  split; [simpl; rewrite length_take, length_last_n, length_drop; lia|].
  split.
  { unfold total_bytes, retained_bytes, len. simpl.
    rewrite length_take, length_last_n, length_drop. unfold sat_add. lia. }
  unfold to_bytes_with_omission_marker, to_bytes. simpl.
  destruct (Nat.leb_spec (length s) MAX_BYTES) as [Hle|Hgt].
  - replace (length s - MAX_BYTES) with 0 by lia. simpl.
    rewrite last_n_all by (rewrite length_drop; lia). apply take_drop.
  - replace (N.min _ _) with (N.of_nat (length s) - N.of_nat MAX_BYTES)%N by lia.
    destruct (N.eqb_spec (N.of_nat (length s) - N.of_nat MAX_BYTES) 0); [lia|].
    by rewrite last_n_drop by lia.
Qed.

Lemma captured_output_witness :
  exists b, push_chunks 4 empty_buffer [[1%N; 2%N]; [3%N]; [4%N; 5%N; 6%N]] = Some b
    /\ head b = [1%N; 2%N] /\ tail b = [5%N; 6%N]
    /\ total_bytes b = 6%N.
Proof.
  destruct (captured_output 4 [[1%N; 2%N]; [3%N]; [4%N; 5%N; 6%N]]) as (b & Hb & _ & Ht & _);
    [vm_compute; discriminate|].
  exists b. split; [exact Hb|]. split; [|split; [|exact Ht]];
    revert Hb; vm_compute; intros [= <-]; reflexivity.
Defined.

End HeadTail.
