(* ===== verification/PolicyFiles.v ===== *)
(** * Files on disk

    The files and directories the policy-file writers of execpolicy/src/amend.rs
    and sandbox_migration.rs work on, with the operations of [std::fs] (and their
    tokio versions) they call.  A file is its bytes.  Besides the errors the
    operations have of themselves, the environment makes any of them fail as it
    decides ([fault]); a failing write may have written a part. *)

From S2P Require Import Prelude RustStr Utf8 PatchTypes StateM.

Module PolicyFiles.

(** The operations the environment may make fail. *)
Inductive FileOp : Type :=
| OpExists (path : str)
| OpCreateDir (path : str)
| OpOpen (path : str)
| OpLock (path : str)
| OpSeek (path : str)
| OpRead (path : str)
| OpWrite (path : str) (data : list N)
| OpSetLen (path : str).

Abbreviation file_map := (gmap (list N) (list N)) (only parsing).

Record World : Type := mkWorld { files : file_map; dirs : gset (list N) }.

Abbreviation fileM A := (stM World io_error A).

Definition set_file (path : str) (contents : list N) (w : World) : World :=
  mkWorld (<[path := contents]> (files w)) (dirs w).

Section env.
Context (fault : FileOp -> option io_error) (partial : list N -> nat).

(** An operation the environment lets through. *)
Definition checked {A} (op : FileOp) (m : fileM A) : fileM A :=
  match fault op with Some e => st_fail e | None => m end.

Definition try_exists (path : str) : fileM bool :=
  checked (OpExists path) (fun w => (Done (bool_decide (is_Some (files w !! path))), w)).

(** [create_dir]; the error message is the system's. *)
Definition create_dir (path : str) : fileM () :=
  checked (OpCreateDir path) (fun w =>
    if bool_decide (path ∈ dirs w) then (Fail (mkIo KAlreadyExists ($"File exists")), w)
    else (Done (), mkWorld (files w) ({[path]} ∪ dirs w))).

Definition create_dir_all (path : str) : fileM () :=
  checked (OpCreateDir path) (fun w => (Done (), mkWorld (files w) ({[path]} ∪ dirs w))).

(** Opening for reading and appending, creating the file. *)
Definition open_append (path : str) : fileM () :=
  checked (OpOpen path) (fun w =>
    (Done (), match files w !! path with Some _ => w | None => set_file path [] w end)).

(** Opening an existing file for reading and writing. *)
Definition open_existing (path : str) : fileM () :=
  checked (OpOpen path) (fun w =>
    match files w !! path with
    | Some _ => (Done (), w)
    | None => (Fail (mkIo KNotFound ($"No such file or directory")), w)
    end).

Definition lock (path : str) : fileM () := checked (OpLock path) (st_ret ()).
Definition seek_start (path : str) : fileM () := checked (OpSeek path) (st_ret ()).

(** [read_to_string]. *)
Definition read_to_string (path : str) : fileM str :=
  checked (OpRead path) (fun w =>
    match files w !! path with
    | None => (Fail (mkIo KNotFound ($"No such file or directory")), w)
    | Some bytes =>
        match from_utf8 bytes with
        | Ok text => (Done text, w)
        | Err _ => (Fail (mkIo KInvalidData ($"stream did not contain valid UTF-8")), w)
        end
    end).

(** [write_all] on a file opened for appending. *)
Definition append_all (path : str) (data : list N) : fileM () := fun w =>
  let old := default [] (files w !! path) in
  match fault (OpWrite path data) with
  | Some e => (Fail e, set_file path (old ++ take (partial data) data) w)
  | None => (Done (), set_file path (old ++ data) w)
  end.

(** [write_all] at the start of the file. *)
Definition overwrite (path : str) (data : list N) : fileM () := fun w =>
  let old := default [] (files w !! path) in
  match fault (OpWrite path data) with
  | Some e =>
      let written := take (partial data) data in
      (Fail e, set_file path (written ++ drop (length written) old) w)
  | None => (Done (), set_file path (data ++ drop (length data) old) w)
  end.

(** [set_len]: cuts, or fills with zeros. *)
Definition set_len (path : str) (n : nat) : fileM () :=
  checked (OpSetLen path) (fun w =>
    let old := default [] (files w !! path) in
    (Done (), set_file path (take n old ++ replicate (n - length old) 0%N) w)).

End env.

End PolicyFiles.
