(* ===== verification/ExecAmend.v ===== *)
(** * Amending policy files

    execpolicy/src/amend.rs: appending an allow rule or a network rule to a
    policy file, under a lock, unless the file already has the line; and the
    same appends by several processes at once.  [serde_json::to_string] and the
    display of rule errors are arguments. *)

From S2P Require Import Prelude RustStr Utf8 PatchTypes StateM AbsolutePath ExecRules PolicyFiles.

Module ExecAmend.
Import PolicyFiles.

(** [AmendError]; a [serde_json::Error] is its message. *)
Inductive AmendError : Type :=
| EmptyPrefix
| InvalidNetworkRule (message : str)
| MissingParent (path : str)
| CreatePolicyDir (dir : str) (source : io_error)
| SerializePrefix (source : str)
| SerializeNetworkRule (source : str)
| OpenPolicyFile (path : str) (source : io_error)
| WritePolicyFile (path : str) (source : io_error)
| LockPolicyFile (path : str) (source : io_error)
| SeekPolicyFile (path : str) (source : io_error)
| ReadPolicyFile (path : str) (source : io_error)
| PolicyMetadata (path : str) (source : io_error).

(** ** What is appended to a file's text *)

(** [contents.lines().any(|existing| existing == line)]. *)
Definition has_line (contents line : str) : bool :=
  existsb (fun existing => bool_decide (existing = line)) (lines contents).

Definition needs_newline (contents : str) : bool :=
  negb (is_empty contents) && negb (ends_with contents [LF]).

Definition rule_line_bytes (line : str) : list N := encode (line ++ [LF]).

Section env.
Context (fault : FileOp -> option io_error) (partial : list N -> nat).
Context (json_string : str -> result str str) (show_rule_error : Error -> str).

(** The lock is released when the file is dropped, at the return. *)
Definition append_locked_line (policy_path line : str) : stM World AmendError () :=
  let* _ := st_map_err (OpenPolicyFile policy_path) (open_append fault policy_path) in
  let* _ := st_map_err (LockPolicyFile policy_path) (lock fault policy_path) in
  let* _ := st_map_err (SeekPolicyFile policy_path) (seek_start fault policy_path) in
  let* contents := st_map_err (ReadPolicyFile policy_path) (read_to_string fault policy_path) in
  if has_line contents line then st_ret ()
  else
    let* _ := if needs_newline contents
              then st_map_err (WritePolicyFile policy_path)
                     (append_all fault partial policy_path [LF])
              else st_ret () in
    st_map_err (WritePolicyFile policy_path)
      (append_all fault partial policy_path (rule_line_bytes line)).

Definition create_policy_dir (dir : str) : stM World AmendError () := fun w =>
  match create_dir fault dir w with
  | (Fail source, w') =>
      if bool_decide (io_kind source = KAlreadyExists) then (Done (), w')
      else (Fail (CreatePolicyDir dir source), w')
  | (Done (), w') => (Done (), w')
  | (Panic, w') => (Panic, w')
  end.

Definition append_rule_line (policy_path rule : str) : stM World AmendError () :=
  let* dir := st_try (ok_or (AbsolutePath.path_parent policy_path) (MissingParent policy_path)) in
  let* _ := create_policy_dir dir in
  append_locked_line policy_path rule.

(** The text of an allow rule. *)
Definition allow_rule_text (tokens : list str) : str :=
  $"prefix_rule(pattern=[" ++ join ($", ") tokens ++ $"], decision=" ++ [DQUOTE] ++ $"allow"
  ++ [DQUOTE] ++ $")".

Definition blocking_append_allow_prefix_rule (policy_path : str) (prefix : list str)
  : stM World AmendError () :=
  if is_empty prefix then st_fail EmptyPrefix
  else
    let* tokens := st_try (map_err SerializePrefix (collect_results json_string prefix)) in
    append_rule_line policy_path (allow_rule_text tokens).

Definition decision_text (d : Decision) : str :=
  match d with Allow => $"allow" | Prompt => $"prompt" | Forbidden => $"deny" end.

Definition network_json (s : str) : result str AmendError :=
  map_err SerializeNetworkRule (json_string s).

(** The arguments of a network rule line. *)
Definition network_rule_args (host : str) (protocol : NetworkRuleProtocol) (d : Decision)
    (justification : option str) : result (list str) AmendError :=
  let? host := network_json host in
  let? protocol := network_json (as_policy_string protocol) in
  let? decision := network_json (decision_text d) in
  let args := [$"host=" ++ host; $"protocol=" ++ protocol; $"decision=" ++ decision] in
  match justification with
  | None => Ok args
  | Some j => let? j := network_json j in Ok (args ++ [$"justification=" ++ j])
  end.

Definition blocking_append_network_rule (policy_path host : str) (protocol : NetworkRuleProtocol)
    (d : Decision) (justification : option str) : stM World AmendError () :=
  let* host := st_try (map_err (fun e => InvalidNetworkRule (show_rule_error e))
                         (normalize_network_rule_host host)) in
  if match justification with Some raw => is_empty (trim raw) | None => false end
  then st_fail (InvalidNetworkRule ($"justification cannot be empty"))
  else
    let* args := st_try (network_rule_args host protocol d justification) in
    append_rule_line policy_path ($"network_rule(" ++ join ($", ") args ++ $")").

End env.

(** ** The text of a file with a line appended *)

Definition append_line (contents line : str) : str :=
  contents ++ (if needs_newline contents then [LF] else []) ++ line ++ [LF].

Definition with_line (contents line : str) : str :=
  if has_line contents line then contents else append_line contents line.

Lemma has_line_true t l : has_line t l = true <-> In l (lines t).
Proof.
  unfold has_line. rewrite existsb_exists. split.
  - intros (x & Hx & E). by apply bool_decide_eq_true in E as ->.
  - intros H. exists l. split; [done|by apply bool_decide_eq_true].
Qed.

Lemma has_line_false t l : has_line t l = false <-> ~ In l (lines t).
Proof. rewrite <- has_line_true. by destruct (has_line t l). Qed.

(** No carriage return hangs at the end of the text. *)
Definition no_loose_cr (t : str) : Prop := ends_with t [CR] = false.

Lemma append_line_lines t l :
  no_loose_cr t -> plain_line l -> lines (append_line t l) = lines t ++ [l].
Proof.
  intros Hcr Hl. unfold append_line, needs_newline. destruct (is_empty t) eqn:Ee; simpl.
  { apply is_empty_true in Ee as ->. simpl. by apply lines_one. }
  apply is_empty_false in Ee. destruct (ends_with t [LF]) eqn:El; simpl.
  - apply ends_with_true in El as [t' ->]. rewrite <- app_assoc. simpl.
    by rewrite lines_app_lf, (lines_one l).
  - by rewrite lines_app_lf, lines_snoc_lf, lines_one.
Qed.

Lemma append_line_ends t l : needs_newline (append_line t l) = false /\ no_loose_cr (append_line t l).
Proof.
  unfold append_line. rewrite !app_assoc. set (u := (t ++ _) ++ l). split.
  - unfold needs_newline. assert (ends_with (u ++ [LF]) [LF] = true) as ->.
    { apply ends_with_true. by exists u. }
    apply andb_false_r.
  - unfold no_loose_cr. destruct (ends_with (u ++ [LF]) [CR]) eqn:E; [|done].
    apply ends_with_true in E as [v E]. apply app_inj_2 in E as [_ E]; done.
Qed.

Lemma with_line_lines t l :
  no_loose_cr t -> plain_line l ->
  lines (with_line t l) = if has_line t l then lines t else lines t ++ [l].
Proof.
  intros Hcr Hl. unfold with_line. destruct (has_line t l); [done|by apply append_line_lines].
Qed.

Lemma with_line_has t l : no_loose_cr t -> plain_line l -> has_line (with_line t l) l = true.
Proof.
  intros Hcr Hl. apply has_line_true. rewrite with_line_lines by done.
  destruct (has_line t l) eqn:E; [by apply has_line_true|]. apply in_app_iff. right. by left.
Qed.

Lemma with_line_idemp t l :
  no_loose_cr t -> plain_line l -> with_line (with_line t l) l = with_line t l.
Proof. intros Hcr Hl. unfold with_line at 1. by rewrite with_line_has. Qed.

(** ** The effect of an append *)

Definition file_bytes (path : str) (w : World) : list N := default [] (files w !! path).

(** Nothing is lost: only this file changes, and only by growing. *)
Definition appends (path : str) (w w' : World) : Prop :=
  (forall p, p <> path -> files w' !! p = files w !! p)
  /\ exists more, file_bytes path w' = file_bytes path w ++ more.

Lemma appends_refl path w : appends path w w.
Proof. split; [done|]. exists []. by rewrite app_nil_r. Qed.

Lemma appends_set path more w : appends path w (set_file path (file_bytes path w ++ more) w).
Proof.
  split; [intros p Hp; simpl; by rewrite lookup_insert_ne|]. exists more. unfold file_bytes. simpl.
  by rewrite lookup_insert_eq.
Qed.

Lemma appends_trans path w1 w2 w3 : appends path w1 w2 -> appends path w2 w3 -> appends path w1 w3.
Proof.
  intros [H1 [m1 E1]] [H2 [m2 E2]]. split; [intros p Hp; by rewrite H2, H1|].
  exists (m1 ++ m2). by rewrite E2, E1, app_assoc.
Qed.

(** A grown file with the same old bytes. *)
Definition grown (path : str) (w : World) (more : list N) (w' : World) : Prop :=
  dirs w' = dirs w /\ (forall p, p <> path -> files w' !! p = files w !! p)
  /\ files w' !! path = Some (file_bytes path w ++ more).

Lemma grown_appends path w more w' : grown path w more w' -> appends path w w'.
Proof.
  intros (_ & H & E). split; [done|]. exists more. unfold file_bytes at 1. by rewrite E.
Qed.

Section appending.
Context (fault : FileOp -> option io_error) (partial : list N -> nat).

Lemma checked_triple {A} op (m : stM World io_error A) P Q (R : io_error -> World -> Prop) :
  (forall e w, P w -> R e w) -> triple P m Q R -> triple P (checked fault op m) Q R.
Proof. intros HR Hm. unfold checked. destruct (fault op); [by intros w Hw; apply HR|done]. Qed.

Lemma append_all_triple path data w more :
  triple (grown path w more) (append_all fault partial path data)
    (fun _ => grown path w (more ++ data)) (fun _ => appends path w).
Proof.
  intros w1 H. pose proof (grown_appends _ _ _ _ H) as Hap. destruct H as (Hd & Ho & Hp).
  unfold append_all. destruct (fault _).
  - eapply appends_trans; [exact Hap|]. apply appends_set.
  - split; [done|]. split; [intros p Hne; simpl; rewrite lookup_insert_ne by done; by apply Ho|].
    simpl. rewrite Hp, lookup_insert_eq. simpl. by rewrite app_assoc.
Qed.

(** The precondition of the check: the text of the file is the valid [contents]. *)
Lemma append_locked_line_triple path line w0 :
  triple (fun w => w = w0) (append_locked_line fault partial path line)
    (fun _ w => exists contents,
       from_utf8 (file_bytes path w0) = Ok contents
       /\ exists more, grown path w0 more w
          /\ file_bytes path w0 ++ more = encode (with_line contents line))
    (fun _ => appends path w0).
Proof.
  unfold append_locked_line.
  eapply triple_bind.
  { apply triple_map_err, (checked_triple _ _ _ (fun _ => grown path w0 []));
      [intros _ w ->; apply appends_refl|].
    intros w ->. unfold grown, file_bytes. rewrite app_nil_r.
    destruct (files w0 !! path) as [b|] eqn:E; simpl; [by rewrite E|].
    split; [done|]. split; [by intros p Hp; rewrite lookup_insert_ne|]. by rewrite lookup_insert_eq. }
  intros []. eapply triple_bind.
  { apply triple_map_err, (checked_triple _ _ _ (fun _ => grown path w0 []));
      [intros _ w; apply grown_appends|by intros w Hw]. }
  intros []. eapply triple_bind.
  { apply triple_map_err, (checked_triple _ _ _ (fun _ => grown path w0 []));
      [intros _ w; apply grown_appends|by intros w Hw]. }
  intros []. eapply (triple_bind _ _ _ (fun contents w =>
    from_utf8 (file_bytes path w0) = Ok contents /\ grown path w0 [] w)).
  { apply triple_map_err, checked_triple; [intros _ w; apply grown_appends|].
    intros w Hw. destruct (Hw) as (_ & _ & E). rewrite app_nil_r in E. rewrite E.
    destruct (from_utf8 _) as [t|e]; [done|by eapply grown_appends]. }
  intros contents. apply triple_pure. intros Hc.
  apply from_utf8_Ok in Hc as Hb. destruct Hb as [Hb _]. unfold with_line.
  destruct (has_line contents line) eqn:Eh.
  { intros w Hw. exists contents. split; [done|]. exists []. split; [done|].
    by rewrite app_nil_r, Eh. }
  eapply (triple_bind _ _ _ (fun _ =>
    grown path w0 (if needs_newline contents then [LF] else []))).
  { destruct (needs_newline contents); [|by intros w Hw].
    apply triple_map_err. apply (append_all_triple path [LF] w0 []). }
  intros []. apply triple_map_err. eapply triple_post; [apply append_all_triple|].
  intros [] w Hw. exists contents. split; [done|]. eexists. split; [exact Hw|].
  rewrite Hb, Eh. unfold append_line, rule_line_bytes. rewrite !encode_app.
  by destruct (needs_newline contents).
Qed.

(** ** Appending again *)

Lemma append_locked_line_lets_through path line w w' :
  append_locked_line fault partial path line w = (Done (), w') ->
  fault (OpOpen path) = None /\ fault (OpLock path) = None /\ fault (OpSeek path) = None
  /\ fault (OpRead path) = None.
Proof.
  unfold append_locked_line, open_append, lock, seek_start, read_to_string, checked.
  unfold st_bind, st_map_err.
  destruct (fault (OpOpen path)); [done|]. destruct (fault (OpLock path)); [done|].
  destruct (fault (OpSeek path)); [done|]. by destruct (fault (OpRead path)).
Qed.

Lemma append_locked_line_again path line t w :
  fault (OpOpen path) = None -> fault (OpLock path) = None -> fault (OpSeek path) = None ->
  fault (OpRead path) = None ->
  files w !! path = Some (encode t) -> from_utf8 (encode t) = Ok t -> has_line t line = true ->
  append_locked_line fault partial path line w = (Done (), w).
Proof.
  intros H1 H2 H3 H4 Hf Ht Hl.
  unfold append_locked_line, open_append, lock, seek_start, read_to_string, checked.
  unfold st_bind, st_map_err, st_ret. by rewrite H1, H2, H3, H4, Hf, Hf, Ht, Hl.
Qed.

Lemma create_policy_dir_triple dir w0 :
  triple (fun w => w = w0) (create_policy_dir fault dir)
    (fun _ w => files w = files w0 /\ forall w1, dirs w1 = dirs w ->
       create_policy_dir fault dir w1 = (Done (), w1))
    (fun _ w => files w = files w0).
Proof.
  intros w ->. unfold create_policy_dir, create_dir, checked, st_fail.
  destruct (fault (OpCreateDir dir)) as [e|]; [by case_bool_decide|].
  destruct (bool_decide (dir ∈ dirs w0)) eqn:E; simpl.
  - split; [done|]. intros w1 ->. by rewrite E.
  - split; [done|]. intros w1 ->. by rewrite bool_decide_eq_true_2 by set_solver.
Qed.

(** What a successful append did, and that it is done once and for all. *)
Definition line_appended (path line : str) (w0 w : World) : Prop :=
  exists contents,
    from_utf8 (file_bytes path w0) = Ok contents
    /\ (forall p, p <> path -> files w !! p = files w0 !! p)
    /\ files w !! path = Some (encode (with_line contents line))
    /\ (no_loose_cr contents -> plain_line line -> Forall scalar line ->
        append_rule_line fault partial path line w = (Done (), w)).

Lemma append_rule_line_spec path line w0 :
  match append_rule_line fault partial path line w0 with
  | (Done _, w) => line_appended path line w0 w
  | (Fail _, w) => appends path w0 w
  | (Panic, _) => False
  end.
Proof.
  destruct (AbsolutePath.path_parent path) as [dir|] eqn:Ed;
    [|unfold append_rule_line, st_bind, st_try; rewrite Ed; apply appends_refl].
  assert (forall w, append_rule_line fault partial path line w
    = st_bind (create_policy_dir fault dir) (fun _ => append_locked_line fault partial path line) w)
    as Hrun by (intros w; unfold append_rule_line, st_bind, st_try; by rewrite Ed).
  rewrite Hrun. unfold st_bind at 1.
  pose proof (create_policy_dir_triple dir w0 w0 eq_refl) as Hc.
  destruct (create_policy_dir fault dir w0) as [[[]|e|] w1]; [|split|done].
  2: by rewrite Hc.
  2: unfold file_bytes; rewrite Hc; exists []; by rewrite app_nil_r.
  destruct Hc as [Hf Hagain].
  assert (file_bytes path w1 = file_bytes path w0) as Hb by (unfold file_bytes; by rewrite Hf).
  pose proof (append_locked_line_triple path line w1 w1 eq_refl) as H.
  destruct (append_locked_line fault partial path line w1) as [[[]|e|] w2] eqn:Ea; [| |done].
  - destruct H as (t & Ht & more & (Hd & Ho & Hp) & Henc). rewrite Hb in Ht.
    exists t. rewrite Henc in Hp. split; [done|].
    split; [intros p Hne; by rewrite Ho, Hf|]. split; [done|].
    intros Hcr Hpl Hs. rewrite Hrun. unfold st_bind. rewrite Hagain by done.
    apply append_locked_line_lets_through in Ea as (F1 & F2 & F3 & F4).
    apply (append_locked_line_again _ _ (with_line t line)); try done; [|by apply with_line_has].
    apply from_utf8_encode. apply from_utf8_Ok in Ht as [_ Ht].
    unfold with_line, append_line. destruct (has_line t line); [done|].
    apply Forall_app. split; [done|]. apply Forall_app. split; [destruct (needs_newline t)|].
    + constructor; [unfold scalar, LF; lia|constructor].
    + constructor.
    + apply Forall_snoc; [done|]. unfold scalar, LF. lia.
  - destruct H as [Ho [more Hm]]. split; [intros p Hne; by rewrite Ho, Hf|].
    exists more. by rewrite Hm, Hb.
Qed.

(** ** The allow rule *)

(** [serde_json::to_string] escapes control characters and gives a string. *)
Class JsonString (json_string : str -> result str str) : Prop :=
  json_string_plain s t : json_string s = Ok t -> ~ In LF t /\ Forall scalar t.

Lemma join_plain (P : char -> Prop) sep ws :
  Forall P sep -> Forall (Forall P) ws -> Forall P (join sep ws).
Proof.
  intros Hsep. induction 1 as [|w ws Hw Hws IH]; [constructor|].
  destruct ws as [|w' ws']; [done|]. rewrite join_cons by done. by rewrite !Forall_app.
Qed.

Lemma allow_rule_text_plain tokens :
  Forall (fun t => ~ In LF t /\ Forall scalar t) tokens ->
  plain_line (allow_rule_text tokens) /\ Forall scalar (allow_rule_text tokens).
Proof.
  intros H. assert (Forall (fun c => c <> LF /\ scalar c) (allow_rule_text tokens)) as Hall.
  { unfold allow_rule_text. rewrite !Forall_app.
    assert (Forall (fun c => c <> LF /\ scalar c) (join ($", ") tokens)) as Hj.
    { apply join_plain.
      - repeat constructor; unfold scalar; lia || done.
      - eapply Forall_impl; [exact H|]. intros t [Hl Hs]. apply Forall_forall. intros c Hc.
        split; [intros ->; by apply Hl, list_elem_of_In|]. rewrite Forall_forall in Hs. auto. }
    repeat split; try exact Hj; repeat constructor; unfold scalar; lia || done. }
  split; [split|].
  - intros Hin. apply list_elem_of_In in Hin. rewrite Forall_forall in Hall. by destruct (Hall LF Hin).
  - intros t Ht. unfold allow_rule_text in Ht. rewrite !app_assoc in Ht.
    by apply app_inj_2 in Ht as [_ Ht].
  - eapply Forall_impl; [exact Hall|]. by intros c [_ ?].
Qed.

End appending.

(** saving an allow rule.  Whatever fails, nothing is lost: only the policy
    file changes and its old contents stay at its beginning.  On success the file
    is its old text with the line of the rule appended unless it was there, after
    a line break if the text did not end with one; saving the rule again then
    succeeds and changes nothing. *)
Theorem append_allow_rule_effect fault partial json_string `{!JsonString json_string}
    (policy_path : str) (prefix : list str) (w0 : World) :
  match blocking_append_allow_prefix_rule fault partial json_string policy_path prefix w0 with
  | (Done _, w) =>
      prefix <> [] /\ exists tokens contents,
        collect_results json_string prefix = Ok tokens
        /\ from_utf8 (file_bytes policy_path w0) = Ok contents
        /\ (forall p, p <> policy_path -> files w !! p = files w0 !! p)
        /\ files w !! policy_path
            = Some (encode (with_line contents (allow_rule_text tokens)))
        /\ (no_loose_cr contents ->
            blocking_append_allow_prefix_rule fault partial json_string policy_path prefix w
            = (Done (), w))
  | (Fail _, w) => appends policy_path w0 w
  | (Panic, _) => False
  end.
Proof.
  unfold blocking_append_allow_prefix_rule.
  destruct (is_empty prefix) eqn:Ep; [apply appends_refl|].
  unfold st_bind, st_try. destruct (collect_results json_string prefix) as [tokens|e] eqn:Et;
    simpl; [|apply appends_refl].
  pose proof (append_rule_line_spec fault partial policy_path (allow_rule_text tokens) w0) as H.
  destruct (append_rule_line _ _ _ _ w0) as [[[]|e|] w]; [|done|done].
  split; [by apply is_empty_false|]. destruct H as (t & Ht & Ho & Hp & Hagain).
  exists tokens, t. split; [done|]. split; [done|]. split; [done|]. split; [done|].
  intros Hcr. destruct (allow_rule_text_plain tokens) as [Hpl Hs]; [|by apply Hagain].
  clear -Et JsonString0. revert tokens Et. induction prefix as [|s prefix IH]; intros tokens; simpl.
  - intros [= <-]. constructor.
  - destruct (json_string s) as [t|] eqn:Es; [|done].
    destruct (collect_results json_string prefix); [|done]. intros [= <-].
    constructor; [by eapply json_string_plain|by apply IH].
Qed.

(** ** Several processes appending at once

    Each process runs [append_locked_line] on the same file; a step is one of
    its file operations ([open], [lock], [seek], [read_to_string] and the two
    [write_all]s), and [file.lock()] waits for the lock.  Any operation may fail,
    a write after some of its bytes; the process then returns. *)

(** The stages are named by what is done; [CutShort] is a write that failed. *)
Inductive Stage : Type :=
| Starting | Opened | Locked | Sought | Separating | Writing | Finished | Failed | CutShort.

#[export] Instance Stage_eq_dec : EqDecision Stage.
Proof. solve_decision. Defined.

Record Process : Type := mkProcess { request : str; stage : Stage }.
(** [text] is the bytes of the file. *)
Record System : Type := mkSystem { text : list N; holder : option nat; processes : list Process }.

Definition at_stage (i : nat) (st : Stage) (s : System) : System :=
  mkSystem (text s) (holder s) (alter (fun p => mkProcess (request p) st) i (processes s)).
Definition with_holder (h : option nat) (s : System) : System :=
  mkSystem (text s) h (processes s).
Definition with_text (t : list N) (s : System) : System := mkSystem t (holder s) (processes s).

(** The next operation of a process; [None] when it waits or has returned. *)
Definition step_process (i : nat) (s : System) : option System :=
  match processes s !! i with
  | None => None
  | Some p =>
      match stage p with
      | Starting => Some (at_stage i Opened s)
      | Opened =>
          match holder s with
          | None => Some (with_holder (Some i) (at_stage i Locked s))
          | Some _ => None
          end
      | Locked => Some (at_stage i Sought s)
      | Sought =>
          match from_utf8 (text s) with
          | Err _ => Some (with_holder None (at_stage i Failed s))
          | Ok contents =>
              if has_line contents (request p) then Some (with_holder None (at_stage i Finished s))
              else Some (at_stage i (if needs_newline contents then Separating else Writing) s)
          end
      | Separating => Some (at_stage i Writing (with_text (text s ++ [LF]) s))
      | Writing =>
          Some (with_holder None
            (at_stage i Finished (with_text (text s ++ rule_line_bytes (request p)) s)))
      | Finished | Failed | CutShort => None
      end
  end.

(** The next operation fails, a write after [written] bytes: the process returns
    its error, and the file is closed and with it unlocked. *)
Definition fail_process (i written : nat) (s : System) : option System :=
  let cut_short bytes :=
    with_holder None (at_stage i CutShort (with_text (text s ++ take written bytes) s)) in
  match processes s !! i with
  | None => None
  | Some p =>
      match stage p with
      | Starting | Opened => Some (at_stage i Failed s)
      | Locked | Sought => Some (with_holder None (at_stage i Failed s))
      | Separating => Some (cut_short [LF])
      | Writing => Some (cut_short (rule_line_bytes (request p)))
      | Finished | Failed | CutShort => None
      end
  end.

Inductive step (s : System) : System -> Prop :=
| step_run i s' : step_process i s = Some s' -> step s s'
| step_fail i written s' : fail_process i written s = Some s' -> step s s'.

Inductive reachable (s0 : System) : System -> Prop :=
| reachable_init : reachable s0 s0
| reachable_step s s' : reachable s0 s -> step s s' -> reachable s0 s'.

Definition start (t : str) (requests : list str) : System :=
  mkSystem (encode t) None (map (fun r => mkProcess r Starting) requests).

(** *** The invariant *)

(** The text once the lines [added] have been appended to [t]. *)
Definition settled (t : str) (added : list str) : str := fold_left append_line added t.

Lemma settled_lines t added :
  no_loose_cr t -> Forall plain_line added ->
  lines (settled t added) = lines t ++ added /\ no_loose_cr (settled t added).
Proof.
  unfold settled. intros Hcr Hp. revert t Hcr. induction Hp as [|l added Hl _ IH]; intros t Hcr; simpl.
  - by rewrite app_nil_r.
  - destruct (IH (append_line t l)) as [-> Hc]; [apply append_line_ends|]. split; [|done].
    rewrite append_line_lines by done. by rewrite <- app_assoc.
Qed.

Definition critical (st : Stage) : Prop :=
  match st with Locked | Sought | Separating | Writing => True | _ => False end.

#[local] Hint Extern 0 (~ critical _) => (intros []) : core.
#[local] Hint Extern 0 (critical _) => (exact I) : core.

(** What the text is while a process is at a stage of its critical section. *)
Definition text_at (settled_text : str) (p : Process) (t : list N) : Prop :=
  match stage p with
  | Locked | Sought => t = encode settled_text
  | Separating =>
      t = encode settled_text /\ needs_newline settled_text = true
      /\ has_line settled_text (request p) = false
  | Writing =>
      t = encode (settled_text ++ (if needs_newline settled_text then [LF] else []))
      /\ has_line settled_text (request p) = false
  | _ => False
  end.

(** No write has failed half-way. *)
Definition intact (s : System) : Prop :=
  forall i p, processes s !! i = Some p -> stage p <> CutShort.

Section concurrent.
Context (t0 : str) (requests : list str).
Hypothesis (Hcr : no_loose_cr t0) (Hplain : Forall plain_line requests).
Hypothesis (Ht0 : Forall scalar t0) (Hscalar : Forall (Forall scalar) requests).

Definition added_ok (added : list str) : Prop :=
  NoDup added /\ Forall (fun l => In l requests /\ ~ In l (lines t0)) added.

Definition finished_ok (settled_text : str) (s : System) : Prop :=
  forall i p, processes s !! i = Some p -> stage p = Finished ->
    has_line settled_text (request p) = true.

Definition holder_ok (settled_text : str) (s : System) : Prop :=
  match holder s with
  | None =>
      text s = encode settled_text /\ forall i p, processes s !! i = Some p -> ~ critical (stage p)
  | Some j =>
      (exists p, processes s !! j = Some p /\ text_at settled_text p (text s))
      /\ forall i p, processes s !! i = Some p -> critical (stage p) -> i = j
  end.

Definition consistent (s : System) : Prop :=
  map request (processes s) = requests
  /\ exists added, added_ok added /\ finished_ok (settled t0 added) s
     /\ holder_ok (settled t0 added) s.

Lemma lookup_at_stage i st s k :
  processes (at_stage i st s) !! k
  = if decide (k = i) then (fun p => mkProcess (request p) st) <$> processes s !! i
    else processes s !! k.
Proof.
  simpl. case_decide as Hk; [subst; apply list_lookup_alter_eq|by apply list_lookup_alter_ne].
Qed.

Lemma requests_at_stage i st s :
  map request (processes (at_stage i st s)) = map request (processes s).
Proof.
  simpl. generalize i. induction (processes s) as [|p ps IH]; intros [|k]; simpl; try done.
  unfold alter in IH. by rewrite IH.
Qed.

Lemma requests_release h i st s :
  map request (processes (with_holder h (at_stage i st s))) = map request (processes s).
Proof. apply requests_at_stage. Qed.

Lemma added_plain added : added_ok added -> Forall plain_line added.
Proof.
  intros [_ H]. eapply Forall_impl; [exact H|]. intros l [Hl _].
  rewrite Forall_forall in Hplain. by apply Hplain, list_elem_of_In.
Qed.

Lemma settled_scalar added : added_ok added -> Forall scalar (settled t0 added).
Proof.
  intros [_ H]. assert (Ha : Forall (Forall scalar) added).
  { eapply Forall_impl; [exact H|]. intros l [Hl _]. rewrite Forall_forall in Hscalar.
    by apply Hscalar, list_elem_of_In. }
  clear H. revert Ht0. generalize t0. unfold settled. induction Ha as [|l added Hl _ IH]; intros t Ht; simpl; [done|].
  apply IH. unfold append_line. assert (Hlf : Forall scalar [LF]) by (constructor; [unfold scalar, LF; lia|constructor]).
  rewrite !Forall_app. by destruct (needs_newline t).
Qed.

Lemma added_has added l : added_ok added ->
  has_line (settled t0 added) l = true <-> In l (lines t0) \/ In l added.
Proof.
  intros Ha. rewrite has_line_true.
  destruct (settled_lines t0 added Hcr (added_plain _ Ha)) as [-> _]. apply in_app_iff.
Qed.

(** Moving one process to a stage that is not [Finished]. *)
Lemma finished_at_stage T i st s :
  st <> Finished -> finished_ok T s -> finished_ok T (at_stage i st s).
Proof.
  intros Hst H k p. rewrite lookup_at_stage. case_decide; [|apply H].
  destruct (processes s !! i); [|done]. by intros [= <-].
Qed.

Lemma finished_finish T i p s :
  processes s !! i = Some p -> has_line T (request p) = true ->
  finished_ok T s -> finished_ok T (at_stage i Finished s).
Proof.
  intros Hp Hh H k q. rewrite lookup_at_stage. case_decide; [|apply H].
  rewrite Hp. by intros [= <-].
Qed.

(** Leaving or staying out of the critical section. *)
Lemma others_idle i st s h :
  ~ critical st ->
  (forall k p, processes s !! k = Some p -> critical (stage p) -> Some k = h) ->
  (h = None \/ h = Some i) ->
  forall k p, processes (at_stage i st s) !! k = Some p -> ~ critical (stage p).
Proof.
  intros Hst Hc Hh k p. rewrite lookup_at_stage. case_decide as Hk.
  - destruct (processes s !! i); [|done]. by intros [= <-].
  - intros Hp Hcrit. specialize (Hc k p Hp Hcrit). destruct Hh; congruence.
Qed.

Lemma idle_step T i p st s :
  processes s !! i = Some p -> ~ critical (stage p) -> ~ critical st ->
  holder_ok T s -> holder_ok T (at_stage i st s).
Proof.
  unfold holder_ok. intros Hp Hidle Hst. change (holder (at_stage i st s)) with (holder s).
  change (text (at_stage i st s)) with (text s). destruct (holder s) as [j|].
  - intros [(q & Hq & Ht) Hu]. split.
    + exists q. split; [|done]. rewrite lookup_at_stage.
      case_decide as Hj; [|done]. subst j. assert (q = p) as -> by congruence.
      exfalso. apply Hidle. unfold text_at in Ht. by destruct (stage p).
    + intros k r. rewrite lookup_at_stage.
      case_decide; [|apply Hu]. rewrite Hp. by intros [= <-].
  - intros [Ht Hn]. split; [done|].
    apply (others_idle i st s None); [done| |by left]. intros k q Hq Hc. by destruct (Hn k q).
Qed.

Lemma critical_holder T i p s :
  processes s !! i = Some p -> critical (stage p) -> holder_ok T s ->
  holder s = Some i /\ text_at T p (text s)
  /\ forall k q, processes s !! k = Some q -> critical (stage q) -> Some k = Some i.
Proof.
  unfold holder_ok. intros Hp Hc. destruct (holder s) as [j|].
  - intros [(q & Hq & Ht) Hu]. assert (i = j) as -> by eauto.
    assert (q = p) as -> by congruence. split; [done|]. split; [done|].
    intros k r Hr Hcr'. f_equal. eauto.
  - intros [_ Hn]. by destruct (Hn i p).
Qed.

(** Returning releases the lock. *)
Lemma release_step T i st s :
  text s = encode T -> ~ critical st ->
  (forall k q, processes s !! k = Some q -> critical (stage q) -> Some k = Some i) ->
  holder_ok T (with_holder None (at_stage i st s)).
Proof.
  intros Ht Hst Hu. split; [done|]. apply (others_idle i st s (Some i)); auto.
Qed.

(** Moving on within the critical section. *)
Lemma advance_step T i p st s t :
  processes s !! i = Some p -> holder s = Some i -> text_at T (mkProcess (request p) st) t ->
  (forall k q, processes s !! k = Some q -> critical (stage q) -> Some k = Some i) ->
  holder_ok T (at_stage i st (with_text t s)).
Proof.
  intros Hp Hh Ht Hu. unfold holder_ok.
  change (holder (at_stage i st (with_text t s))) with (holder s). rewrite Hh. split.
  - exists (mkProcess (request p) st). split; [|done].
    rewrite lookup_at_stage, decide_True by done. simpl. by rewrite Hp.
  - intros k q. rewrite lookup_at_stage. case_decide; [done|]. intros Hq Hc.
    specialize (Hu k q Hq Hc). congruence.
Qed.

Lemma text_of_with_text s : with_text (text s) s = s.
Proof. by destruct s. Qed.

Lemma finished_append T l s : no_loose_cr T -> plain_line l ->
  finished_ok T s -> finished_ok (append_line T l) s.
Proof.
  intros HT Hl H i p Hp Hf. apply has_line_true. rewrite append_line_lines by done.
  apply in_app_iff. left. by eapply has_line_true, H.
Qed.

(** The last write: the line joins the added ones. *)
Lemma write_step added i p s :
  map request (processes s) = requests -> added_ok added ->
  finished_ok (settled t0 added) s -> processes s !! i = Some p -> stage p = Writing ->
  text_at (settled t0 added) p (text s) ->
  (forall k q, processes s !! k = Some q -> critical (stage q) -> Some k = Some i) ->
  consistent (with_holder None (at_stage i Finished (with_text (text s ++ rule_line_bytes (request p)) s))).
Proof.
  intros Hreq Ha Hf Hp Hst Ht Hu. unfold text_at in Ht. rewrite Hst in Ht. destruct Ht as [Ht Hno].
  destruct (settled_lines t0 added Hcr (added_plain _ Ha)) as [_ HT].
  assert (In (request p) requests) as Hin.
  { rewrite <- Hreq. apply in_map, list_elem_of_In. by eapply list_elem_of_lookup_2. }
  assert (plain_line (request p)) as Hpl.
  { rewrite Forall_forall in Hplain. by apply Hplain, list_elem_of_In. }
  assert (settled t0 (added ++ [request p]) = append_line (settled t0 added) (request p)) as Hset.
  { unfold settled. by rewrite fold_left_app. }
  split; [by rewrite requests_release|]. exists (added ++ [request p]). split.
  { destruct Ha as [Hnd Hall].
    assert (~ (In (request p) (lines t0) \/ In (request p) added)) as Hnew.
    { rewrite <- added_has by done. congruence. }
    split; [|apply Forall_snoc; auto]. apply NoDup_app. split; [done|].
    split; [|apply NoDup_singleton]. intros x Hx ->%list_elem_of_singleton.
    apply Hnew. right. by apply list_elem_of_In. }
  rewrite Hset. split.
  - apply (finished_finish _ i p (with_text (text s ++ rule_line_bytes (request p)) s)); [done| |].
    + apply has_line_true. rewrite append_line_lines by done. apply in_app_iff. right. by left.
    + by apply (finished_append (settled t0 added)).
  - apply release_step; [|by intros []|exact Hu]. simpl. rewrite Ht. unfold append_line, rule_line_bytes.
    by rewrite <- encode_app, <- app_assoc.
Qed.

Lemma consistent_run i s s' : consistent s -> step_process i s = Some s' -> consistent s'.
Proof.
  intros (Hreq & added & Ha & Hf & Hh). unfold step_process.
  destruct (processes s !! i) as [p|] eqn:Hp; [|done]. destruct (stage p) eqn:Hst; try done.
  - intros [= <-]. split; [by rewrite requests_at_stage|]. exists added. split; [done|].
    split; [by apply finished_at_stage|]. apply (idle_step _ i p); [done|by rewrite Hst|done|done].
  - destruct (holder s) eqn:Hho; [done|]. intros [= <-]. unfold holder_ok in Hh. rewrite Hho in Hh.
    destruct Hh as [Ht Hn]. split; [by rewrite requests_release|].
    exists added. split; [done|]. split; [by apply finished_at_stage|].
    apply (advance_step _ i p Locked (with_holder (Some i) s) (text s)); try done.
    intros k q Hq Hc. by destruct (Hn k q).
  - assert (critical (stage p)) as Hc by by rewrite Hst.
    destruct (critical_holder _ _ _ _ Hp Hc Hh) as (Hho & Ht & Hu).
    unfold text_at in Ht. rewrite Hst in Ht. intros [= <-].
    split; [by rewrite requests_at_stage|]. exists added. split; [done|].
    split; [by apply finished_at_stage|]. rewrite <- (text_of_with_text s). by apply (advance_step _ i p).
  - assert (critical (stage p)) as Hc by by rewrite Hst.
    destruct (critical_holder _ _ _ _ Hp Hc Hh) as (Hho & Ht & Hu).
    unfold text_at in Ht. rewrite Hst in Ht. rewrite Ht, from_utf8_encode by by apply settled_scalar.
    destruct (has_line (settled t0 added) (request p)) eqn:Ehas; intros [= <-];
      (split; [by rewrite ?requests_release, ?requests_at_stage|]); exists added; (split; [done|]).
    + split; [by apply (finished_finish _ i p)|by apply release_step].
    + split; [apply finished_at_stage; [by destruct (needs_newline _)|done]|].
      rewrite <- (text_of_with_text s), Ht. apply (advance_step _ i p); try done.
      destruct (needs_newline (settled t0 added)) eqn:En; unfold text_at; simpl; [done|].
      by rewrite En, app_nil_r.
  - assert (critical (stage p)) as Hc by by rewrite Hst.
    destruct (critical_holder _ _ _ _ Hp Hc Hh) as (Hho & Ht & Hu).
    unfold text_at in Ht. rewrite Hst in Ht. destruct Ht as (Ht & Hn & Hno). intros [= <-].
    split; [by rewrite requests_at_stage|]. exists added. split; [done|].
    split; [by apply finished_at_stage|]. apply (advance_step _ i p); try done.
    unfold text_at; simpl. by rewrite Hn, Ht, encode_app.
  - assert (critical (stage p)) as Hc by by rewrite Hst.
    destruct (critical_holder _ _ _ _ Hp Hc Hh) as (Hho & Ht & Hu). intros [= <-].
    by apply (write_step added).
Qed.

Lemma step_one s s' : step s s' ->
  exists i p st, processes s !! i = Some p /\ stage p <> CutShort /\ processes s' = processes (at_stage i st s).
Proof.
  intros [i s1 H|i n s1 H]; [unfold step_process in H|unfold fail_process in H];
    (destruct (processes s !! i) as [p|] eqn:Hp; [|done]); exists i, p;
    destruct (stage p) eqn:E; try done; repeat case_match; simplify_eq; by eexists.
Qed.

Lemma intact_before s s' : step s s' -> intact s' -> intact s.
Proof.
  intros (i & p & st & Hp & Hst & Hps)%step_one Hi k q Hq. destruct (decide (k = i)) as [->|Hk]; [by simplify_eq|].
  apply (Hi k). by rewrite Hps, lookup_at_stage, decide_False.
Qed.

Lemma consistent_fail i n s s' : intact s' -> consistent s -> fail_process i n s = Some s' -> consistent s'.
Proof.
  intros Hi (Hreq & added & Ha & Hf & Hh). unfold fail_process.
  destruct (processes s !! i) as [p|] eqn:Hp; [|done].
  assert (Hcut : forall s1, processes s' = processes (at_stage i CutShort s1) -> processes s1 = processes s -> False).
  { intros s1 E1 E2. apply (Hi i (mkProcess (request p) CutShort)); [|done].
    by rewrite E1, lookup_at_stage, decide_True, E2, Hp by done. }
  destruct (stage p) eqn:Hst; try done; intros [= <-];
    try (exfalso; by eapply Hcut);
    (split; [by rewrite ?requests_release, ?requests_at_stage|]); exists added; (split; [done|]).
  1, 2: split; [by apply finished_at_stage|];
    apply (idle_step _ i p); [done|by rewrite Hst|done|done].
  all: assert (critical (stage p)) as Hc by by rewrite Hst.
  all: destruct (critical_holder _ _ _ _ Hp Hc Hh) as (Hho & Ht & Hu).
  all: unfold text_at in Ht; rewrite Hst in Ht.
  all: split; [by apply finished_at_stage|by apply release_step].
Qed.

Lemma consistent_start : consistent (start t0 requests).
Proof.
  assert (forall i p, processes (start t0 requests) !! i = Some p -> stage p = Starting) as H.
  { intros i p Hp. simpl in Hp. rewrite list_lookup_fmap in Hp.
    destruct (requests !! i); [|done]. by injection Hp as <-. }
  split; [simpl; rewrite map_map; apply map_id|]. exists []. split; [split; constructor|]. split.
  - intros i p Hp. by rewrite (H i p Hp).
  - split; [done|]. intros i p Hp. by rewrite (H i p Hp).
Qed.

Lemma reachable_consistent s : reachable (start t0 requests) s -> intact s -> consistent s.
Proof.
  induction 1 as [|s s1 _ IH Hs]; intros Hi; [apply consistent_start|].
  specialize (IH (intact_before _ _ Hs Hi)). destruct Hs as [i s2 Hs|i n s2 Hs].
  - by eapply consistent_run.
  - by eapply consistent_fail.
Qed.

End concurrent.

(** processes that append to the same policy file in any interleaving, some of
    them failing, never disturb each other, as long as no write fails half-way:
    whenever no one holds the lock, the lines of the file are the original ones
    followed by new ones; the new ones were requested, are pairwise distinct and
    were not there before; and every process that returned successfully finds
    its line in the file. *)
Theorem concurrent_appends (t0 : str) (requests : list str) (s : System) :
  no_loose_cr t0 -> Forall plain_line requests -> Forall scalar t0 -> Forall (Forall scalar) requests ->
  reachable (start t0 requests) s -> intact s -> holder s = None ->
  exists contents added, from_utf8 (text s) = Ok contents /\ lines contents = lines t0 ++ added
    /\ NoDup added /\ Forall (fun l => In l requests /\ ~ In l (lines t0)) added
    /\ (exists more, contents = t0 ++ more)
    /\ forall i p, processes s !! i = Some p -> stage p = Finished ->
         In (request p) (lines contents).
Proof.
  intros Hcr Hpl Ht0 Hsc Hs Hi Hh.
  destruct (reachable_consistent t0 requests Hcr Hpl Ht0 Hsc s Hs Hi) as (_ & added & Ha & Hf & Hok).
  unfold holder_ok in Hok. rewrite Hh in Hok. destruct Hok as [Ht _].
  destruct (settled_lines t0 added Hcr (added_plain _ _ Hpl _ Ha)) as [Hl _].
  exists (settled t0 added), added. split.
  { rewrite Ht. by apply from_utf8_encode, (settled_scalar t0 requests). }
  split; [done|]. split; [apply Ha|]. split; [apply Ha|]. split.
  - unfold settled. clear. revert t0. induction added as [|l added IH]; intros t0; simpl.
    + exists []. by rewrite app_nil_r.
    + destruct (IH (append_line t0 l)) as [more ->]. unfold append_line.
      rewrite <- app_assoc. by eexists.
  - intros i p Hp Hst. apply has_line_true. by eapply Hf.
Qed.

(** ** Concrete runs *)

(** JSON of strings that need no escape. *)
Definition plain_json (s : str) : result str str :=
  if forallb (fun c => (32 <=? c)%N && (c <? 127)%N && negb (bool_decide (c = DQUOTE))
                       && negb (bool_decide (c = 92%N))) s
  then Ok (DQUOTE :: s ++ [DQUOTE]) else Err ($"escape needed").

#[export] Instance plain_json_string : JsonString plain_json.
Proof.
  intros s t. unfold plain_json. destruct (forallb _ s) eqn:E; [|done]. intros [= <-].
  rewrite forallb_forall in E.
  assert (forall c, In c (DQUOTE :: s ++ [DQUOTE]) -> c <> LF /\ scalar c) as H.
  { intros c [<-|[Hc|[<-|[]]]%in_app_iff]; [split; [done|unfold scalar, DQUOTE; lia]| |
      split; [done|unfold scalar, DQUOTE; lia]].
    specialize (E c Hc). bool_hyps. apply N.leb_le in H. apply N.ltb_lt in H2.
    unfold LF, scalar. lia. }
  split; [intros Hin; by destruct (H LF Hin)|]. apply Forall_forall. intros c Hc.
  by apply H, list_elem_of_In.
Qed.

Definition demo_world : World :=
  mkWorld {[ $"/rules/default.rules" := encode ($"# rules") ]} {[ $"/rules" ]}.

Lemma append_allow_rule_effect_witness :
  exists w,
    blocking_append_allow_prefix_rule (fun _ => None) (fun _ => 0) plain_json
      ($"/rules/default.rules") [$"git"; $"log"] demo_world = (Done (), w)
    /\ blocking_append_allow_prefix_rule (fun _ => None) (fun _ => 0) plain_json
      ($"/rules/default.rules") [$"git"; $"log"] w = (Done (), w).
Proof.
  pose proof (append_allow_rule_effect (fun _ => None) (fun _ => 0) plain_json
    ($"/rules/default.rules") [$"git"; $"log"] demo_world) as H.
  assert (match blocking_append_allow_prefix_rule (fun _ => None) (fun _ => 0) plain_json
      ($"/rules/default.rules") [$"git"; $"log"] demo_world with (Done _, _) => true | _ => false end
    = true) as E by (vm_compute; reflexivity).
  assert (from_utf8 (file_bytes ($"/rules/default.rules") demo_world) = Ok ($"# rules")) as Eb
    by (vm_compute; reflexivity).
  destruct (blocking_append_allow_prefix_rule _ _ _ _ _ demo_world) as [[[]|e|] w];
    try discriminate E.
  destruct H as (_ & tokens & contents & _ & Hc & _ & _ & Hagain).
  exists w. split; [reflexivity|]. apply Hagain.
  assert (contents = $"# rules") as -> by congruence. reflexivity.
Defined.

(** Two processes with the same line: one of them writes, the other finds it. *)
Fixpoint run_schedule (schedule : list nat) (s : System) : option System :=
  match schedule with
  | [] => Some s
  | i :: rest => match step_process i s with Some s' => run_schedule rest s' | None => None end
  end.

Lemma run_schedule_reachable s0 schedule : forall s s',
  reachable s0 s -> run_schedule schedule s = Some s' -> reachable s0 s'.
Proof.
  induction schedule as [|i rest IH]; intros s s' Hs; simpl; [by intros [= <-]|].
  destruct (step_process i s) as [s1|] eqn:E; [|done]. apply IH.
  eapply reachable_step; [exact Hs|]. by eapply step_run.
Qed.

Definition demo_start : System := start ($"a") [$"r"; $"r"].

Lemma concurrent_appends_witness :
  exists s, run_schedule [0; 1; 0; 0; 0; 0; 0; 1; 1; 1] demo_start = Some s
    /\ text s = encode ($"a" ++ [LF] ++ $"r" ++ [LF])
    /\ exists contents added, lines contents = [$"a"] ++ added /\ NoDup added.
Proof.
  set (schedule := [0; 1; 0; 0; 0; 0; 0; 1; 1; 1]).
  assert (match run_schedule schedule demo_start with
          | Some s => bool_decide (text s = encode ($"a" ++ [LF] ++ $"r" ++ [LF])) && is_none (holder s)
              && forallb (fun p => bool_decide (stage p = Finished)) (processes s)
          | None => false end = true) as E by (vm_compute; reflexivity).
  destruct (run_schedule schedule demo_start) as [s|] eqn:Es; [|discriminate E].
  apply andb_prop in E as [[Et Eh]%andb_prop Ef]. apply bool_decide_eq_true in Et.
  exists s. split; [reflexivity|]. split; [exact Et|].
  destruct (concurrent_appends ($"a") [$"r"; $"r"] s) as (contents & added & _ & Hl & Hnd & _).
  - reflexivity.
  - repeat constructor; (intros [H|[]]; discriminate H) || (intros t Ht; destruct t as [|? [|]]; discriminate Ht).
  - by repeat constructor.
  - by repeat constructor.
  - eapply run_schedule_reachable; [apply reachable_init|exact Es].
  - intros i p Hp. apply list_elem_of_lookup_2, list_elem_of_In in Hp. rewrite forallb_forall in Ef.
    specialize (Ef p Hp). apply bool_decide_eq_true in Ef. by rewrite Ef.
  - destruct (holder s); [discriminate Eh|reflexivity].
  - exists contents, added. split; [exact Hl|exact Hnd].
Defined.

End ExecAmend.

(** * Every append returns (execpolicy/src/amend.rs)

    Progress of the lock protocol of [ExecAmend]: processes that append to one
    policy file never wait for ever, whatever the scheduler and the failures.

    The step relation is the one of ExecAmend.v: a process takes the
    advisory lock only when it is free, and gives it back by returning. *)

Import ExecAmend.

(** ** Eventually *)

(** Every way of running from [s] comes, after finitely many steps, to a state
    that satisfies [P]; a run cannot stop before. *)
Inductive eventually {S : Type} (R : S -> S -> Prop) (P : S -> Prop) (s : S) : Prop :=
| eventually_now : P s -> eventually R P s
| eventually_later :
    (exists s', R s s') -> (forall s', R s s' -> eventually R P s') -> eventually R P s.

(** Runs of a given length. *)
Inductive steps {S : Type} (R : S -> S -> Prop) : nat -> S -> S -> Prop :=
| steps_none s : steps R 0 s s
| steps_more n s s' s'' : R s s' -> steps R n s' s'' -> steps R (Datatypes.S n) s s''.

Section variant.
Context {S : Type} (R : S -> S -> Prop) (inv P : S -> Prop) (variant : S -> nat).
Context (Hinv : forall s s', inv s -> R s s' -> inv s').
Context (Hdec : forall s s', inv s -> R s s' -> variant s' < variant s).

Lemma variant_eventually :
  (forall s, inv s -> P s \/ exists s', R s s') -> forall s, inv s -> eventually R P s.
Proof.
  intros Hprog s. induction s as [s IH] using (induction_ltof1 _ variant). unfold ltof in IH.
  intros Hs. destruct (Hprog s Hs) as [HP|Hex]; [by apply eventually_now|].
  apply eventually_later; [done|]. intros s' HR. apply IH; eauto.
Qed.

Lemma variant_bound n s s' : inv s -> steps R n s s' -> n + variant s' <= variant s.
Proof.
  intros Hs H. induction H as [s|n s s1 s2 HR _ IH]; [lia|].
  specialize (IH (Hinv _ _ Hs HR)). pose proof (Hdec _ _ Hs HR). lia.
Qed.
End variant.

(** ** The lock *)

(** The lock is held by the process in its critical section, if there is one. *)
Definition lock_ok (s : System) : Prop :=
  forall i, (exists p, processes s !! i = Some p /\ critical (stage p)) <-> holder s = Some i.

Definition returned (p : Process) : Prop :=
  stage p = Finished \/ stage p = Failed \/ stage p = CutShort.
Definition all_returned (s : System) : Prop := Forall returned (processes s).

(** Operations left to a process, at most. *)
Definition operations_left (st : Stage) : nat :=
  match st with
  | Starting => 6
  | Opened => 5
  | Locked => 4
  | Sought => 3
  | Separating => 2
  | Writing => 1
  | Finished | Failed | CutShort => 0
  end.

Definition work_left (s : System) : nat :=
  sum_list (map (fun p => operations_left (stage p)) (processes s)).

(** What one step does to one process. *)
Inductive move (s : System) (i : nat) (p : Process) : System -> Prop :=
| move_outside st t :
    ~ critical (stage p) -> ~ critical st -> operations_left st < operations_left (stage p) ->
    move s i p (at_stage i st (with_text t s))
| move_acquire :
    stage p = Opened -> holder s = None -> move s i p (with_holder (Some i) (at_stage i Locked s))
| move_inside st t :
    critical (stage p) -> critical st -> operations_left st < operations_left (stage p) ->
    move s i p (at_stage i st (with_text t s))
| move_release st t :
    critical (stage p) -> ~ critical st -> operations_left st < operations_left (stage p) ->
    move s i p (with_holder None (at_stage i st (with_text t s))).

Lemma step_move s s' :
  step s s' -> exists i p, processes s !! i = Some p /\ move s i p s'.
Proof.
  assert (forall s, s = with_text (text s) s) as Ht by (by intros []).
  intros [i s1 H|i n s1 H]; [unfold step_process in H|unfold fail_process in H];
    (destruct (processes s !! i) as [p|] eqn:Hp; [|done]);
    exists i, p; (split; [done|]); destruct (stage p) eqn:E; try done; simplify_eq/=.
  - rewrite (Ht s) at 2. apply move_outside; rewrite ?E; simpl; [by intros []..|lia].
  - destruct (holder s) eqn:Hh; [done|]. injection H as <-. by apply move_acquire.
  - rewrite (Ht s) at 2. apply move_inside; rewrite ?E; simpl; [done..|lia].
  - destruct (from_utf8 (text s)) as [contents|e]; [destruct (has_line contents (request p))|]; injection H as <-.
    + rewrite (Ht s) at 2. apply move_release; rewrite ?E; simpl; [done|by intros []|lia].
    + rewrite (Ht s) at 2. apply move_inside; rewrite ?E; destruct (needs_newline contents); simpl; by try lia.
    + rewrite (Ht s) at 2. apply move_release; rewrite ?E; simpl; [done|by intros []|lia].
  - apply move_inside; rewrite ?E; simpl; [done..|lia].
  - apply move_release; rewrite ?E; simpl; [done|by intros []|lia].
  - rewrite (Ht s) at 2. apply move_outside; rewrite ?E; simpl; [by intros []..|lia].
  - rewrite (Ht s) at 2. apply move_outside; rewrite ?E; simpl; [by intros []..|lia].
  - rewrite (Ht s) at 2. apply move_release; rewrite ?E; simpl; [done|by intros []|lia].
  - rewrite (Ht s) at 2. apply move_release; rewrite ?E; simpl; [done|by intros []|lia].
  - apply move_release; rewrite ?E; simpl; [done|by intros []|lia].
  - apply move_release; rewrite ?E; simpl; [done|by intros []|lia].
Qed.

(** Who is in a critical section after a move. *)
Lemma critical_after i st t s p k :
  processes s !! i = Some p ->
  (exists q, processes (at_stage i st (with_text t s)) !! k = Some q /\ critical (stage q))
  <-> if decide (k = i) then critical st
      else exists q, processes s !! k = Some q /\ critical (stage q).
Proof.
  intros Hp. rewrite lookup_at_stage. simpl. case_decide; [|done]. rewrite Hp. simpl. split.
  - by intros (q & [= <-] & Hc).
  - intros Hc. by eexists.
Qed.

Lemma lock_ok_step s s' : lock_ok s -> step s s' -> lock_ok s'.
Proof.
  intros Hl (i & p & Hp & Hm)%step_move k.
  assert (forall h, (exists q, processes (with_holder h s) !! k = Some q /\ critical (stage q))
            <-> holder s = Some k) as Hk by (intros h; apply Hl).
  pose proof (Hl i) as Hi.
  destruct Hm as [st t Hc Hc' _|E Hh|st t Hc Hc' _|st t Hc Hc' _].
  - rewrite critical_after by done. change (holder _) with (holder s).
    case_decide as Hki; [subst k|by apply Hl]. split; [done|]. intros Hh.
    apply Hi in Hh as (q & Hq & Hcq). by simplify_eq.
  - change (holder _) with (Some i). change (processes (with_holder _ _)) with
      (processes (at_stage i Locked (with_text (text s) s))).
    rewrite critical_after by done. case_decide as Hki; [by subst|].
    rewrite (Hl k), Hh. split; [done|]. intros [= ->]. done.
  - rewrite critical_after by done. change (holder _) with (holder s).
    case_decide as Hki; [subst k|by apply Hl]. split; [|done]. intros _. apply Hi. by exists p.
  - change (processes (with_holder _ _)) with (processes (at_stage i st (with_text t s))).
    rewrite critical_after by done. change (holder _) with (@None nat).
    assert (holder s = Some i) as Hh by (apply Hi; by exists p).
    case_decide as Hki; [done|]. rewrite (Hl k), Hh. split; [|done]. by intros [= ->].
Qed.

Lemma sum_list_alter (l : list Process) (i : nat) (p : Process) (st : Stage) :
  l !! i = Some p ->
  sum_list (map (fun p => operations_left (stage p))
              (alter (fun p => mkProcess (request p) st) i l)) + operations_left (stage p)
  = sum_list (map (fun p => operations_left (stage p)) l) + operations_left st.
Proof.
  revert i. induction l as [|q l IH]; intros [|i] Hi; simpl in *; simplify_eq; [simpl; lia|].
  specialize (IH i Hi). unfold alter in IH. lia.
Qed.

Lemma work_step s s' : lock_ok s -> step s s' -> work_left s' < work_left s.
Proof.
  intros _ (i & p & Hp & Hm)%step_move. unfold work_left.
  destruct Hm as [st t _ _ Hd|E _|st t _ _ Hd|st t _ _ Hd]; simpl.
  2: pose proof (sum_list_alter _ _ _ Locked Hp) as Hs; rewrite E in Hs; simpl in Hs; lia.
  all: pose proof (sum_list_alter _ _ _ st Hp); lia.
Qed.

(** The holder of the lock can always go on, and when it is free everyone can. *)
Lemma some_process_runs s :
  lock_ok s -> all_returned s \/ exists i s', step_process i s = Some s'.
Proof.
  intros Hl. destruct (holder s) as [j|] eqn:Hh.
  - apply Hl in Hh as (p & Hp & Hc). right. exists j. unfold step_process. rewrite Hp.
    destruct (stage p) eqn:E; try done; repeat case_match; by eexists.
  - destruct (decide (Forall returned (processes s))) as [Ha|Ha]; [by left|right].
    apply not_Forall_Exists, Exists_exists in Ha as (p & Hin & Hr); [|apply _].
    apply list_elem_of_lookup_1 in Hin as (i & Hp). exists i. unfold step_process. rewrite Hp, Hh.
    destruct (stage p) eqn:E; try (by repeat case_match; eexists);
      exfalso; apply Hr; unfold returned; naive_solver.
Qed.

Lemma lock_ok_start t0 requests : lock_ok (start t0 requests).
Proof.
  intros i. split; [|done]. intros (p & Hp & Hc). simpl in Hp.
  apply list_elem_of_lookup_2, list_elem_of_In, in_map_iff in Hp
    as (r & <- & _). done.
Qed.

Lemma work_start t0 requests : work_left (start t0 requests) = 6 * length requests.
Proof. unfold work_left. simpl. induction requests; simpl in *; lia. Qed.

Lemma bytes_kept s s' : step s s' -> exists more, text s' = text s ++ more.
Proof.
  assert (exists more, text s = text s ++ more) as Hsame by (exists []; by rewrite app_nil_r).
  intros [i s1 H|i n s1 H]; [unfold step_process in H|unfold fail_process in H];
    (destruct (processes s !! i) as [p|]; [|done]); repeat case_match; simplify_eq/=; eauto.
Qed.

(** C39: No append waits for ever.  However processes that append to one policy
    file are scheduled, and whichever of their operations fail - opening,
    locking, seeking, reading, or either write, after any number of its bytes -
    the run reaches a state where all have returned and the lock is free.  It
    gets there within the six operations of [append_locked_line] per process
    (a [write_all] counts as one); until then some process can do its next
    operation, so there is no deadlock; and what was in the file stays there. *)
Theorem every_append_returns (t0 : str) (requests : list str) :
  eventually step (fun s => all_returned s /\ holder s = None) (start t0 requests)
  /\ (forall n s, steps step n (start t0 requests) s -> n <= 6 * length requests)
  /\ (forall s, reachable (start t0 requests) s ->
       all_returned s \/ exists i s', step_process i s = Some s')
  /\ forall s, reachable (start t0 requests) s -> exists more, text s = encode t0 ++ more.
Proof.
  pose proof (lock_ok_start t0 requests) as H0. split_and!.
  - apply (variant_eventually step lock_ok _ work_left lock_ok_step work_step); [|done].
    intros s Hl. destruct (some_process_runs s Hl) as [Ha|(i & s' & Hs)].
    + left. split; [done|]. destruct (holder s) as [j|] eqn:Hh; [|done].
      apply Hl in Hh as (p & Hp & Hc). apply list_elem_of_lookup_2 in Hp.
      unfold all_returned in Ha. rewrite Forall_forall in Ha.
      destruct (Ha p Hp) as [E|[E|E]]; by rewrite E in Hc.
    + right. exists s'. by eapply step_run.
  - intros n s Hn. rewrite <- work_start with (t0 := t0).
    pose proof (variant_bound step lock_ok work_left lock_ok_step work_step n _ _ H0 Hn). lia.
  - intros s Hr. apply some_process_runs.
    induction Hr as [|s s' _ IH Hs]; [done|]. by eapply lock_ok_step.
  - induction 1 as [|s s' _ [more IH] Hs]; [exists []; by rewrite app_nil_r|].
    destruct (bytes_kept _ _ Hs) as [more' ->]. exists (more ++ more'). by rewrite IH, app_assoc.
Qed.
