(* ===== verification/SandboxMigration.v ===== *)
(** * Removing banned rules once

    execpolicy/src/sandbox_migration.rs: the one-shot migration that removes
    banned allow rules from a policy file and leaves a marker.  [serde_json] and
    the temporary file of the tempfile crate are arguments; what the theorems
    use of them is stated as classes.  The blocking task of the marker does not
    panic, so it is the computation itself. *)

From S2P Require Import Prelude RustStr Utf8 PatchTypes StateM AbsolutePath PolicyFiles ExecAmend.

Module SandboxMigration.
Import PolicyFiles.

Definition MIGRATION_MARKER_FILENAME : str := $".sandbox_migration".

(** ** The text *)

Section strip.
(** [serde_json::from_str::<Vec<String>>], up to its error. *)
Context (json_from_str : str -> option (list str)).

Definition rule_opening : str := $"prefix_rule(pattern=".
Definition rule_suffix : str := $", decision=" ++ [DQUOTE] ++ $"allow" ++ [DQUOTE] ++ $")".

(** [strip_suffix(c).unwrap_or(line)]. *)
Definition without_suffix (c : char) (line : str) : str := default line (strip_suffix [c] line).

Definition should_remove_rule (line : str) (banned_prefixes : list (list str)) : bool :=
  let line := without_suffix LF line in
  let line := without_suffix CR line in
  match strip_prefix rule_opening line ≫= strip_suffix rule_suffix with
  | None => false
  | Some pattern =>
      match json_from_str pattern with
      | None => false
      | Some prefix => bool_decide (map to_ascii_lowercase prefix ∈ banned_prefixes)
      end
  end.

(** The [HashSet] of lower-case prefixes is used for membership only. *)
Definition strip_banned_allow_rules (contents : str) (banned_prefixes : list (list str)) : str :=
  let banned_prefixes := map (map to_ascii_lowercase) banned_prefixes in
  concat (List.filter (fun line => negb (should_remove_rule line banned_prefixes))
            (split_inclusive_lf contents)).

End strip.

(** ** The files *)

Section env.
Context (json_from_str : str -> option (list str)).
Context (fault : FileOp -> option io_error) (partial : list N -> nat).

(** [NamedTempFile::new_in], its [write_all] and [persist_noclobber]. *)
Context {Temp : Type}.
Context (new_in : str -> stM World io_error Temp).
Context (temp_write_all : Temp -> list N -> stM World io_error Temp).
Context (persist_noclobber : Temp -> str -> stM World io_error ()).

Definition write_migration_marker (codex_home marker_path : str) : stM World io_error () :=
  let* _ := create_dir_all fault codex_home in
  let* marker := new_in codex_home in
  let* marker := temp_write_all marker (encode ($"v1" ++ [LF])) in
  fun w =>
    match persist_noclobber marker marker_path w with
    | (Fail err, w') =>
        if bool_decide (io_kind err = KAlreadyExists) then (Done (), w') else (Fail err, w')
    | other => other
    end.

(** An operation whose [NotFound] ends the function quietly. *)
Definition unless_not_found {A} (m : stM World io_error A) (k : A -> stM World io_error ())
  : stM World io_error () := fun w =>
  match m w with
  | (Done a, w') => k a w'
  | (Fail err, w') =>
      if bool_decide (io_kind err = KNotFound) then (Done (), w') else (Fail err, w')
  | (Panic, w') => (Panic, w')
  end.

Definition clean_rules_file (policy_path : str) (banned_prefixes : list (list str))
  : stM World io_error () :=
  unless_not_found (read_to_string fault policy_path) (fun contents =>
  if bool_decide (strip_banned_allow_rules json_from_str contents banned_prefixes = contents)
  then st_ret ()
  else
    unless_not_found (open_existing fault policy_path) (fun _ =>
    let* contents := read_to_string fault policy_path in
    let retained := strip_banned_allow_rules json_from_str contents banned_prefixes in
    if bool_decide (retained = contents) then st_ret ()
    else
      let* _ := seek_start fault policy_path in
      let* _ := overwrite fault partial policy_path (encode retained) in
      set_len fault policy_path (byte_len retained))).

Definition prefix_rule_migration (codex_home policy_path : str) (banned_prefixes : list (list str))
  : stM World io_error () :=
  let marker_path := AbsolutePath.path_join codex_home MIGRATION_MARKER_FILENAME in
  let* exists_ := try_exists fault marker_path in
  if (exists_ : bool) then st_ret ()
  else
    let* _ := clean_rules_file policy_path banned_prefixes in
    write_migration_marker codex_home marker_path.

End env.

(** ** What stripping does *)

Section strip_theorems.
Context (json_from_str : str -> option (list str)).
Abbreviation strip := (strip_banned_allow_rules json_from_str).

(** A piece of [split_inclusive]: a line feed ends it. *)
Definition line_piece (w : str) : Prop := exists a, w = a ++ [LF] /\ ~ In LF a.

Lemma split_pieces s : exists ws last, split_inclusive_lf s = ws ++ last
  /\ Forall line_piece ws /\ (last = [] \/ exists w, last = [w] /\ w <> [] /\ ~ In LF w).
Proof.
  induction s as [|d s (ws & last & E & Hws & Hl)].
  - exists [], []. split; [done|]. split; [constructor|by left].
  - simpl. rewrite E. case_bool_decide as Hd.
    + exists ([d] :: ws), last. split; [done|]. split; [|done]. constructor; [|done].
      exists []. split; [by subst|by intros []].
    + destruct ws as [|w ws]; simpl.
      * destruct Hl as [->|(w & -> & Hw & Hlf)].
        { exists [], [[d]]. split; [done|]. split; [constructor|]. right. exists [d].
          split; [done|]. split; [done|]. by intros [?|[]]. }
        exists [], [d :: w]. split; [done|]. split; [constructor|]. right. exists (d :: w).
        split; [done|]. split; [done|]. by intros [?|?].
      * apply Forall_cons in Hws as [(a & -> & Ha) Hws]. exists ((d :: a ++ [LF]) :: ws), last.
        split; [done|]. split; [|done]. constructor; [|done]. exists (d :: a). split; [done|].
        by intros [?|?].
Qed.

Lemma split_concat_pieces ws last :
  Forall line_piece ws -> (last = [] \/ exists w, last = [w] /\ w <> [] /\ ~ In LF w) ->
  split_inclusive_lf (concat (ws ++ last)) = ws ++ last.
Proof.
  intros Hws Hl. induction Hws as [|w ws (a & -> & Ha) _ IH]; simpl.
  - destruct Hl as [->|(w & -> & Hw & Hlf)]; [done|]. simpl. rewrite app_nil_r.
    by apply split_inclusive_last.
  - rewrite <- app_assoc. simpl. by rewrite split_inclusive_line, IH.
Qed.

(** The kept lines are the lines of the result. *)
Lemma split_filter (f : str -> bool) s :
  split_inclusive_lf (concat (List.filter f (split_inclusive_lf s)))
  = List.filter f (split_inclusive_lf s).
Proof.
  destruct (split_pieces s) as (ws & last & -> & Hws & Hl). rewrite List.filter_app.
  apply split_concat_pieces.
  - apply Forall_forall. intros w Hw. apply list_elem_of_In, filter_In in Hw as [Hw _].
    rewrite Forall_forall in Hws. by apply Hws, list_elem_of_In.
  - destruct Hl as [->|(w & -> & Hw)]; [by left|]. simpl. destruct (f w); [|by left].
    right. by exists w.
Qed.

Lemma strip_lines contents banned :
  split_inclusive_lf (strip contents banned)
  = List.filter (fun line => negb (should_remove_rule json_from_str line
                                     (map (map to_ascii_lowercase) banned)))
      (split_inclusive_lf contents).
Proof. apply split_filter. Qed.

Lemma strip_idempotent contents banned : strip (strip contents banned) banned = strip contents banned.
Proof.
  unfold strip_banned_allow_rules at 1. rewrite strip_lines. unfold strip_banned_allow_rules.
  f_equal. induction (split_inclusive_lf contents) as [|w ws IH]; [done|]. simpl.
  destruct (should_remove_rule json_from_str w _) eqn:E; simpl; [done|]. by rewrite E; simpl; f_equal.
Qed.

(** [serde_json] reads back the array of the strings it wrote. *)
Class JsonArrays (json_string : str -> result str str) : Prop :=
  json_reads_back prefix tokens :
    collect_results json_string prefix = Ok tokens ->
    json_from_str ($"[" ++ join ($", ") tokens ++ $"]") = Some prefix.

Definition lowercase (prefix : list str) : list str := map to_ascii_lowercase prefix.

Lemma without_suffix_app c t : without_suffix c (t ++ [c]) = t.
Proof. unfold without_suffix. by rewrite strip_suffix_app. Qed.

(** The line an allow rule was saved as, with either line ending, is removed
    exactly when its prefix is banned, whatever the case of its letters. *)
Lemma saved_rule_removed json_string `{!JsonArrays json_string} prefix tokens ending banned :
  collect_results json_string prefix = Ok tokens ->
  In ending [[LF]; [CR; LF]; []] ->
  should_remove_rule json_from_str (ExecAmend.allow_rule_text tokens ++ ending)
    (map lowercase banned) = bool_decide (lowercase prefix ∈ map lowercase banned).
Proof.
  intros Ht He. set (rule := ExecAmend.allow_rule_text tokens).
  assert (rule = rule_opening ++ ($"[" ++ join ($", ") tokens ++ $"]") ++ rule_suffix) as Hr.
  { unfold rule, ExecAmend.allow_rule_text, rule_opening, rule_suffix. simpl.
    by rewrite <- !app_assoc. }
  assert (forall c, (c = LF \/ c = CR) -> without_suffix c rule = rule) as Hend.
  { intros c Hc. unfold without_suffix. rewrite (proj2 (strip_suffix_None [c] rule)); [done|].
    intros t E. rewrite Hr in E. unfold rule_suffix in E. rewrite !app_assoc in E.
    apply app_inj_2 in E as [_ E]; [|done]. by destruct Hc; subst. }
  assert (without_suffix CR (without_suffix LF (rule ++ ending)) = rule) as Hline.
  { destruct He as [<-|[<-|[<-|[]]]].
    - rewrite without_suffix_app. by apply Hend; right.
    - change [CR; LF] with ([CR] ++ [LF]). rewrite app_assoc, !without_suffix_app. done.
    - rewrite app_nil_r, Hend by (by left). by apply Hend; right. }
  unfold should_remove_rule. rewrite Hline, Hr, strip_prefix_app. simpl.
  rewrite app_comm_cons, strip_suffix_app.
  pose proof (json_reads_back prefix tokens Ht) as Hj. simpl in Hj. by rewrite Hj.
Qed.

End strip_theorems.

(** what the migration takes out of a policy.  The lines of the result are the
    lines that are not banned allow rules, in order and with their line endings,
    and migrating again removes nothing more.  A line an allow rule was saved as
    is removed exactly when its prefix is banned, whatever the case of its
    letters and however the line ends. *)
Theorem strip_removes_saved_rules (json_from_str : str -> option (list str))
    (json_string : str -> result str str) `{!JsonArrays json_from_str json_string}
    (contents : str) (banned : list (list str)) :
  let keep line := negb (should_remove_rule json_from_str line (map lowercase banned)) in
  split_inclusive_lf (strip_banned_allow_rules json_from_str contents banned)
    = List.filter keep (split_inclusive_lf contents)
  /\ strip_banned_allow_rules json_from_str
       (strip_banned_allow_rules json_from_str contents banned) banned
     = strip_banned_allow_rules json_from_str contents banned
  /\ forall prefix tokens ending, collect_results json_string prefix = Ok tokens ->
       In ending [[LF]; [CR; LF]; []] ->
       keep (ExecAmend.allow_rule_text tokens ++ ending) = true
       <-> ~ In (lowercase prefix) (map lowercase banned).
Proof.
  intros keep. split; [apply strip_lines|]. split; [apply strip_idempotent|].
  intros prefix tokens ending Ht He. unfold keep. erewrite saved_rule_removed by done.
  rewrite negb_true_iff, bool_decide_eq_false, list_elem_of_In. done.
Qed.

(** ** What the migration does *)

Section migration.
Context (json_from_str : str -> option (list str)).
Context (fault : FileOp -> option io_error) (partial : list N -> nat).
Context {Temp : Type}.
Context (new_in : str -> stM World io_error Temp).
Context (temp_write_all : Temp -> list N -> stM World io_error Temp).
Context (persist_noclobber : Temp -> str -> stM World io_error ()).

(** The temporary file is none of the files the program names; persisting it
    creates the target, or fails and changes nothing, with [AlreadyExists] only
    when the target is there. *)
Class TempFileLaws : Prop := {
  new_in_law dir F :
    triple (fun w => files w = F) (new_in dir) (fun _ w => files w = F) (fun _ w => files w = F);
  temp_write_law t data F :
    triple (fun w => files w = F) (temp_write_all t data) (fun _ w => files w = F)
      (fun _ w => files w = F);
  persist_law t path F :
    triple (fun w => files w = F) (persist_noclobber t path)
      (fun _ w => F !! path = None /\ exists b, files w = <[path := b]> F)
      (fun e w => files w = F /\ (io_kind e = KAlreadyExists -> is_Some (F !! path)));
}.
Context {temp_file_laws : TempFileLaws}.

(** A missing file is reported by the file system, not by the environment. *)
Hypothesis (no_false_not_found : forall op e, fault op = Some e -> io_kind e <> KNotFound).

(** The policy file after cleaning. *)
Definition cleaned (banned : list (list str)) (before after : option (list N)) : Prop :=
  match before with
  | None => after = None
  | Some bytes => exists t, from_utf8 bytes = Ok t
      /\ after = Some (encode (strip_banned_allow_rules json_from_str t banned))
  end.

(** Only the policy file differs. *)
Definition others_kept (policy_path : str) (w w' : World) : Prop :=
  forall p, p <> policy_path -> files w' !! p = files w !! p.

Lemma others_kept_set path b w w' :
  others_kept path w w' -> others_kept path w (set_file path b w').
Proof. intros H p Hp. simpl. rewrite lookup_insert_ne by done. by apply H. Qed.

Lemma read_spec path w :
  match read_to_string fault path w with
  | (Done t, w') => w' = w /\ exists b, files w !! path = Some b /\ from_utf8 b = Ok t
  | (Fail e, w') => w' = w /\ (io_kind e = KNotFound -> files w !! path = None)
  | (Panic, _) => False
  end.
Proof.
  unfold read_to_string, checked, st_fail. destruct (fault (OpRead path)) as [e|] eqn:Ef.
  { split; [done|]. intros He. by apply no_false_not_found in Ef. }
  destruct (files w !! path) as [b|] eqn:E; [|done].
  destruct (from_utf8 b) as [t|] eqn:Eb; [eauto|]. by split.
Qed.

Lemma rewrite_spec path data w0 w :
  others_kept path w0 w ->
  match st_bind (overwrite fault partial path (encode data))
          (fun _ => set_len fault path (byte_len data)) w with
  | (Done _, w') => others_kept path w0 w' /\ files w' !! path = Some (encode data)
  | (Fail _, w') => others_kept path w0 w'
  | (Panic, _) => False
  end.
Proof.
  intros H. unfold st_bind, overwrite, set_len, checked, st_fail.
  destruct (fault (OpWrite _ _)); [by apply others_kept_set|].
  destruct (fault (OpSetLen _)); [by apply others_kept_set|].
  split; [by do 2 apply others_kept_set|]. simpl. rewrite !lookup_insert_eq. simpl.
  rewrite <- length_encode, length_app, take_app_length.
  replace (_ - _) with 0 by lia. by rewrite app_nil_r.
Qed.

Lemma clean_rules_file_spec path banned w0 :
  match clean_rules_file json_from_str fault partial path banned w0 with
  | (Done _, w) => others_kept path w0 w /\ cleaned banned (files w0 !! path) (files w !! path)
  | (Fail _, w) => others_kept path w0 w
  | (Panic, _) => False
  end.
Proof.
  unfold clean_rules_file, unless_not_found at 1. pose proof (read_spec path w0) as Hr.
  destruct (read_to_string fault path w0) as [[t|e|] w1] eqn:Er; [| |done].
  2:{ destruct Hr as [-> Hr]. case_bool_decide as He; [|done]. split; [done|]. by rewrite Hr. }
  destruct Hr as (-> & b & Hb & Ht). rewrite Hb.
  assert (forall w, strip_banned_allow_rules json_from_str t banned = t -> files w !! path = Some b ->
    cleaned banned (Some b) (files w !! path)) as Hsame.
  { intros w Hs Hw. exists t. split; [done|]. rewrite Hs, Hw. f_equal. by apply from_utf8_Ok. }
  case_bool_decide as Hs; [split; [done|by apply Hsame]|]. unfold unless_not_found.
  unfold open_existing, checked, st_fail. destruct (fault (OpOpen path)) as [e|] eqn:Eo.
  { rewrite bool_decide_eq_false_2 by (by eapply no_false_not_found). done. }
  rewrite Hb. unfold st_bind at 1. rewrite Er.
  rewrite bool_decide_eq_false_2 by done.
  unfold st_bind at 1. unfold seek_start, checked, st_fail, st_ret.
  destruct (fault (OpSeek path)); [done|].
  pose proof (rewrite_spec path (strip_banned_allow_rules json_from_str t banned) w0 w0) as H.
  destruct (st_bind _ _ w0) as [[[]|e|] w2]; [|by apply H|by apply H].
  destruct H as [Ho Hp]; [done|]. split; [done|]. by exists t.
Qed.

Lemma marker_spec home marker w0 :
  files w0 !! marker = None ->
  match write_migration_marker fault new_in temp_write_all persist_noclobber home marker w0 with
  | (Done _, w) => exists b, files w = <[marker := b]> (files w0)
  | (Fail _, w) => files w = files w0
  | (Panic, _) => False
  end.
Proof.
  intros Hno.
  assert (triple (fun w => files w = files w0)
    (write_migration_marker fault new_in temp_write_all persist_noclobber home marker)
    (fun _ w => exists b, files w = <[marker := b]> (files w0)) (fun _ w => files w = files w0)) as H.
  { unfold write_migration_marker. eapply (triple_bind _ _ _ (fun _ w => files w = files w0)).
    { unfold create_dir_all, checked, st_fail. destruct (fault _); by intros w Hw. }
    intros []. eapply triple_bind; [apply new_in_law|]. intros t.
    eapply triple_bind; [apply temp_write_law|]. intros t' w Hw.
    pose proof (persist_law t' marker (files w0) w Hw) as Hp.
    destruct (persist_noclobber t' marker w) as [[[]|e|] w']; [|destruct Hp as [Hp He]|done].
    - destruct Hp as [_ Hp]. done.
    - case_bool_decide as Hk; [|done]. destruct (He Hk) as [b Hb]. congruence. }
  specialize (H w0 eq_refl). by destruct (write_migration_marker _ _ _ _ _ _ w0) as [[[]|e|] w].
Qed.

End migration.

(** the migration runs once.  When it succeeds, the marker is there, the
    policy file has lost its banned allow rules if the marker was not there
    before and is untouched otherwise, no other file changed, and running it
    again changes nothing, whatever the policy holds by then.  When it fails it
    has not left the marker, so it will run again. *)
Theorem migration_once json_from_str fault partial {Temp : Type} new_in temp_write_all
    (persist_noclobber : Temp -> str -> stM World io_error ())
    `{!TempFileLaws new_in temp_write_all persist_noclobber}
    (codex_home policy_path : str) (banned : list (list str)) (w0 : World) :
  let marker_path := AbsolutePath.path_join codex_home MIGRATION_MARKER_FILENAME in
  let migrate := prefix_rule_migration json_from_str fault partial new_in temp_write_all
                   persist_noclobber codex_home policy_path banned in
  (forall op e, fault op = Some e -> io_kind e <> KNotFound) ->
  policy_path <> marker_path ->
  match migrate w0 with
  | (Done _, w) =>
      is_Some (files w !! marker_path)
      /\ (forall p, p <> policy_path -> p <> marker_path -> files w !! p = files w0 !! p)
      /\ (if bool_decide (is_Some (files w0 !! marker_path)) then w = w0
          else cleaned json_from_str banned (files w0 !! policy_path) (files w !! policy_path))
      /\ forall w', is_Some (files w' !! marker_path) -> migrate w' = (Done (), w')
  | (Fail _, w) =>
      (forall p, p <> policy_path -> files w !! p = files w0 !! p)
      /\ (files w0 !! marker_path = None -> files w !! marker_path = None)
  | (Panic, _) => False
  end.
Proof.
  intros marker_path migrate Hfault Hne. unfold migrate, prefix_rule_migration.
  fold marker_path. unfold st_bind at 1. unfold try_exists at 1, checked, st_fail.
  destruct (fault (OpExists marker_path)) as [e|] eqn:Ef; [done|].
  assert (forall w', is_Some (files w' !! marker_path) ->
    st_bind (try_exists fault marker_path) (fun exists_ : bool =>
      if exists_ then st_ret () else
        let* _ := clean_rules_file json_from_str fault partial policy_path banned in
        write_migration_marker fault new_in temp_write_all persist_noclobber codex_home marker_path)
      w' = (Done (), w')) as Hagain.
  { intros w' Hm. unfold st_bind at 1, try_exists, checked. rewrite Ef.
    by rewrite bool_decide_eq_true_2. }
  case_bool_decide as Hm; [by repeat split|].
  assert (files w0 !! marker_path = None) as Hnone.
  { destruct (files w0 !! marker_path) eqn:E; [|done]. exfalso. by apply Hm. }
  unfold st_bind at 1.
  pose proof (clean_rules_file_spec json_from_str fault partial Hfault policy_path banned w0) as Hc.
  destruct (clean_rules_file _ _ _ _ _ w0) as [[[]|e|] w1]; [| |done].
  2:{ split; [done|]. intros _. by rewrite Hc. }
  destruct Hc as [Ho Hc].
  assert (files w1 !! marker_path = None) as Hnone1 by (by rewrite Ho).
  pose proof (marker_spec fault new_in temp_write_all persist_noclobber codex_home marker_path w1
    Hnone1) as Hw.
  destruct (write_migration_marker _ _ _ _ _ _ w1) as [[[]|e|] w2]; [| |done].
  - destruct Hw as [b Hw]. rewrite Hw. split; [rewrite lookup_insert_eq; by eexists|].
    split; [intros p Hp Hp'; rewrite lookup_insert_ne by done; by apply Ho|].
    split; [by rewrite lookup_insert_ne|exact Hagain].
  - rewrite Hw. split; [intros p Hp; by apply Ho|done].
Qed.

(** ** Concrete runs *)

(** Reading an array of strings without escapes: every second piece between
    quotes. *)
Fixpoint every_second (l : list str) : list str :=
  match l with _ :: w :: l' => w :: every_second l' | _ => [] end.

Definition plain_from_str (t : str) : option (list str) := Some (every_second (split_char DQUOTE t)).

Lemma plain_json_quotes s t : ExecAmend.plain_json s = Ok t -> t = DQUOTE :: s ++ [DQUOTE] /\ ~ In DQUOTE s.
Proof.
  unfold ExecAmend.plain_json. destruct (forallb _ s) eqn:E; [|done]. intros [= <-]. split; [done|].
  rewrite forallb_forall in E. intros Hin. specialize (E _ Hin). by bool_hyps.
Qed.

Lemma every_second_array prefix tokens a :
  collect_results ExecAmend.plain_json prefix = Ok tokens -> ~ In DQUOTE a ->
  every_second (split_char DQUOTE (a ++ join ($", ") tokens ++ $"]")) = prefix.
Proof.
  revert tokens a. induction prefix as [|s prefix IH]; intros tokens a; simpl.
  - intros [= <-] Ha. rewrite split_char_plain; [done|]. simpl.
    intros [?|[H|[]]]%in_app_iff; [done|discriminate H].
  - destruct (ExecAmend.plain_json s) as [t|] eqn:Es; [|done].
    destruct (collect_results ExecAmend.plain_json prefix) as [ts|] eqn:Et; [|done].
    intros [= <-] Ha. apply plain_json_quotes in Es as [-> Hs].
    assert (forall r, every_second (split_char DQUOTE (a ++ (DQUOTE :: s ++ [DQUOTE]) ++ r))
                      = s :: every_second (split_char DQUOTE r)) as Hstep.
    { intros r. simpl. rewrite split_char_app by done. rewrite <- app_assoc. simpl.
      by rewrite split_char_app. }
    destruct ts as [|t' ts'].
    + simpl join. rewrite Hstep. f_equal. by apply (IH [] []); [|intros []].
    + rewrite join_cons by done. rewrite <- !(app_assoc (DQUOTE :: s ++ [DQUOTE])), Hstep. f_equal.
      rewrite <- app_assoc. apply (IH (t' :: ts') ($", ")); [done|].
      intros [H|[H|[]]]; discriminate H.
Qed.

#[export] Instance plain_json_arrays : JsonArrays plain_from_str ExecAmend.plain_json.
Proof.
  intros prefix tokens Ht. unfold plain_from_str. f_equal.
  apply (every_second_array prefix tokens ($"[")); [done|]. intros [H|[]]; discriminate H.
Qed.

Lemma strip_removes_saved_rules_witness :
  let banned := [[$"git"]] in
  let keep line := negb (should_remove_rule plain_from_str line (map lowercase banned)) in
  exists tokens, collect_results ExecAmend.plain_json [$"GIT"] = Ok tokens
    /\ (keep (ExecAmend.allow_rule_text tokens ++ [CR; LF]) = true
        <-> ~ In (lowercase [$"GIT"]) (map lowercase banned)).
Proof.
  intros banned keep.
  exists [DQUOTE :: $"GIT" ++ [DQUOTE]]. split; [reflexivity|].
  apply (strip_removes_saved_rules plain_from_str ExecAmend.plain_json [] banned);
    [reflexivity|right; left; reflexivity].
Defined.

(** A temporary file as its bytes. *)
Definition demo_persist (t : list N) (path : str) : stM World io_error () := fun w =>
  match files w !! path with
  | Some _ => (Fail (mkIo KAlreadyExists ($"File exists")), w)
  | None => (Done (), set_file path t w)
  end.

#[export] Instance demo_temp_file_laws :
  TempFileLaws (fun _ => st_ret []) (fun t data => st_ret (t ++ data)) demo_persist.
Proof.
  split; [by intros dir F w Hw|by intros t data F w Hw|].
  intros t path F w <-. unfold demo_persist. destruct (files w !! path) eqn:E; [|by eauto].
  split; [done|]. by eexists.
Qed.

Definition demo_policy : str :=
  $"prefix_rule(pattern=[" ++ [DQUOTE] ++ $"git" ++ [DQUOTE] ++ $"], decision=" ++ [DQUOTE]
  ++ $"allow" ++ [DQUOTE] ++ $")" ++ [LF] ++ $"# end".

Definition demo_home : World := mkWorld {[ $"/rules" := encode demo_policy ]} ∅.

Definition demo_migration : stM World io_error () :=
  prefix_rule_migration plain_from_str (fun _ => None) (fun _ => 0) (fun _ => st_ret [])
    (fun t data => st_ret (t ++ data)) demo_persist ($"/home") ($"/rules") [[$"GIT"]].

Lemma migration_once_witness :
  exists w, demo_migration demo_home = (Done (), w) /\ demo_migration w = (Done (), w)
    /\ files w !! ($"/rules") = Some (encode ($"# end")).
Proof.
  assert (match demo_migration demo_home with
          | (Done _, w) => bool_decide (files w !! ($"/rules") = Some (encode ($"# end")))
          | _ => false end = true) as E by (vm_compute; reflexivity).
  pose proof (migration_once plain_from_str (fun _ => None) (fun _ => 0) (fun _ => st_ret [])
    (fun t data => st_ret (t ++ data)) demo_persist ($"/home") ($"/rules") [[$"GIT"]] demo_home) as H.
  unfold demo_migration in *. destruct (prefix_rule_migration _ _ _ _ _ _ _ _ _ demo_home)
    as [[[]|e|] w]; try discriminate E.
  apply bool_decide_eq_true in E. exists w. split; [reflexivity|]. split; [|exact E].
  apply H; [intros op e He; discriminate He|intros Hp; discriminate Hp|].
  apply H; [intros op e He; discriminate He|intros Hp; discriminate Hp].
Defined.

(** The migration does not take the lock [append_locked_line] takes: a rule
    appended between its read and its write is lost. *)
Definition unlocked_interleaving : stM World io_error () :=
  let* contents := read_to_string (fun _ => None) ($"/rules") in
  let retained := strip_banned_allow_rules plain_from_str contents [[$"GIT"]] in
  let* _ := append_all (fun _ => None) (fun _ => 0) ($"/rules") (ExecAmend.rule_line_bytes ($"new")) in
  let* _ := overwrite (fun _ => None) (fun _ => 0) ($"/rules") (encode retained) in
  set_len (fun _ => None) ($"/rules") (byte_len retained).

Example append_lost_to_migration :
  files (snd (unlocked_interleaving demo_home)) !! ($"/rules") = Some (encode ($"# end")).
Proof. vm_compute. reflexivity. Qed.

End SandboxMigration.
