(* ===== verification/RequiredRules.v ===== *)
(** * Rules an administrator requires (config/src/requirements_exec_policy.rs)

    The [rules] table of requirements.toml, and its translation to a policy that
    is laid over every other one.  It may ask or forbid but never allow. *)

From S2P Require Import Prelude RustStr PatchTypes AbsolutePath ExecRules ExecPolicy.

Record PatternTokenToml : Type := mkTokenToml {
  toml_token : option str;
  toml_any_of : option (list str);
}.

Inductive DecisionToml : Type := TomlAllow | TomlPrompt | TomlForbidden.

Record PrefixRuleToml : Type := mkRuleToml {
  toml_pattern : list PatternTokenToml;
  toml_decision : option DecisionToml;
  toml_justification : option str;
}.

Inductive RequirementsParseError : Type :=
| EmptyPrefixRules
| EmptyPattern (rule_index : nat)
| InvalidPatternToken (rule_index token_index : nat) (reason : str)
| EmptyJustification (rule_index : nat)
| MissingDecision (rule_index : nat)
| AllowDecisionNotAllowed (rule_index : nat).

Definition as_decision (d : DecisionToml) : Decision :=
  match d with TomlAllow => Allow | TomlPrompt => Prompt | TomlForbidden => Forbidden end.

Definition is_blank (s : str) : bool := is_empty (trim s).

Definition parse_required_token (token : PatternTokenToml) (rule_index token_index : nat)
  : result PatternToken RequirementsParseError :=
  let invalid reason := Err (InvalidPatternToken rule_index token_index reason) in
  match toml_token token, toml_any_of token with
  | Some single, None =>
      if is_blank single then invalid ($"token cannot be empty") else Ok (Single single)
  | None, Some alternatives =>
      if is_empty alternatives then invalid ($"any_of cannot be empty")
      else if existsb is_blank alternatives
      then invalid ($"any_of cannot include empty tokens")
      else Ok (Alts alternatives)
  | Some _, Some _ => invalid ($"set either token or any_of, not both")
  | None, None => invalid ($"set either token or any_of")
  end.

(** The tokens of a pattern with their indices. *)
Definition parse_required_pattern (rule_index : nat) (pattern : list PatternTokenToml)
  : result (list PatternToken) RequirementsParseError :=
  collect_results (fun '(token_index, token) => parse_required_token token rule_index token_index)
    (imap pair pattern).

Definition required_decision (rule_index : nat) (d : option DecisionToml)
  : result Decision RequirementsParseError :=
  match d with
  | Some TomlAllow => Err (AllowDecisionNotAllowed rule_index)
  | Some d => Ok (as_decision d)
  | None => Err (MissingDecision rule_index)
  end.

(** The rules one table entry makes: one for each alternative of its first token. *)
Definition required_rule (rule_index : nat) (rule : PrefixRuleToml)
  : result (list PrefixRule) RequirementsParseError :=
  if match toml_justification rule with Some j => is_blank j | None => false end
  then Err (EmptyJustification rule_index)
  else if is_empty (toml_pattern rule) then Err (EmptyPattern rule_index)
  else
    let? pattern_tokens := parse_required_pattern rule_index (toml_pattern rule) in
    let? d := required_decision rule_index (toml_decision rule) in
    match pattern_tokens with
    | [] => Err (EmptyPattern rule_index)
    | first_token :: rest =>
        Ok (map (fun head => mkRule (mkPattern head rest) d (toml_justification rule))
              (token_alternatives first_token))
    end.

Fixpoint required_rules (rule_index : nat) (prefix_rules : list PrefixRuleToml)
    (rules_by_program : gmap (list N) (list PrefixRule))
  : result (gmap (list N) (list PrefixRule)) RequirementsParseError :=
  match prefix_rules with
  | [] => Ok rules_by_program
  | rule :: prefix_rules =>
      let? rules := required_rule rule_index rule in
      required_rules (S rule_index) prefix_rules
        (fold_left (fun m r => Policy.multimap_insert (program r) r m) rules rules_by_program)
  end.

Definition to_policy (prefix_rules : list PrefixRuleToml)
  : result Policy.Policy RequirementsParseError :=
  if is_empty prefix_rules then Err EmptyPrefixRules
  else
    let? rules_by_program := required_rules 0 prefix_rules ∅ in
    Ok (Policy.new rules_by_program).

(** ** What a table entry says *)

(** The words allowed at a position. *)
Definition toml_alternatives (t : PatternTokenToml) : list str :=
  match toml_token t with Some single => [single] | None => default [] (toml_any_of t) end.

(** The entry speaks about commands that start with [prefix]. *)
Definition entry_covers (rule : PrefixRuleToml) (prefix : list str) : Prop :=
  Forall2 (fun t w => In w (toml_alternatives t)) (toml_pattern rule) prefix.

Lemma parse_required_token_ok token i j t :
  parse_required_token token i j = Ok t -> token_alternatives t = toml_alternatives token.
Proof.
  unfold parse_required_token, toml_alternatives. intros E.
  destruct (toml_token token) as [s|], (toml_any_of token) as [l|]; try done.
  - destruct (is_blank s); [done|]. by injection E as <-.
  - destruct (is_empty l); [done|]. destruct (existsb is_blank l); [done|]. by injection E as <-.
Qed.

Lemma parse_required_pattern_ok i pattern tokens :
  parse_required_pattern i pattern = Ok tokens ->
  map token_alternatives tokens = map toml_alternatives pattern.
Proof.
  unfold parse_required_pattern. intros E. pose proof (collect_results_all
    (fun '(token_index, token) => parse_required_token token i token_index) (imap pair pattern)) as H.
  rewrite E in H. clear E. revert tokens H.
  assert (Hgen : forall (f : nat -> nat) tokens,
    Forall2 (fun x y => (let '(token_index, token) := x in parse_required_token token i token_index)
                        = Ok y) (imap (fun k => pair (f k)) pattern) tokens ->
    map token_alternatives tokens = map toml_alternatives pattern).
  { induction pattern as [|t pattern IH]; intros f tokens H; inversion H; subst; [done|]. simpl.
    f_equal; [by eapply parse_required_token_ok|]. by apply (IH (fun k => f (S k))). }
  apply (Hgen (fun k => k)).
Qed.

(** The rules an entry makes, all with its decision and justification. *)
Lemma required_rule_ok i rule rules :
  required_rule i rule = Ok rules ->
  exists t ts d, map token_alternatives (t :: ts) = map toml_alternatives (toml_pattern rule)
    /\ toml_decision rule = Some d /\ d <> TomlAllow
    /\ rules = map (fun head => mkRule (mkPattern head ts) (as_decision d) (toml_justification rule))
                 (token_alternatives t).
Proof.
  unfold required_rule. destruct (match toml_justification rule with Some j => is_blank j | None => false end);
    [done|]. destruct (is_empty (toml_pattern rule)); [done|].
  destruct (parse_required_pattern i (toml_pattern rule)) as [tokens|] eqn:Ep; [|done]. simpl.
  destruct (toml_decision rule) as [[]|] eqn:Ed; simpl; [done| | |done];
    (destruct tokens as [|t ts]; [done|]); intros [= <-];
    apply parse_required_pattern_ok in Ep; by eexists t, ts, _.
Qed.

Lemma Forall2_alternatives ts ps ws :
  map token_alternatives ts = map toml_alternatives ps ->
  (Forall2 (fun t w => In w (token_alternatives t)) ts ws
   <-> Forall2 (fun t w => In w (toml_alternatives t)) ps ws).
Proof.
  intros E. rewrite <- (Forall2_fmap_l token_alternatives (fun l w => In w l) ts ws).
  rewrite <- (Forall2_fmap_l toml_alternatives (fun l w => In w l) ps ws).
  by change (token_alternatives <$> ts) with (map token_alternatives ts); rewrite E.
Qed.

(** A rule of an entry matches what the entry covers. *)
Lemma entry_matches i rule rules cmd m :
  required_rule i rule = Ok rules ->
  (exists r, In r rules /\ rule_matches r cmd = Some m) <->
  exists prefix d, entry_covers rule prefix /\ prefix `prefix_of` cmd
    /\ toml_decision rule = Some d
    /\ m = PrefixRuleMatch prefix (as_decision d) None (toml_justification rule).
Proof.
  intros Hr. destruct (required_rule_ok _ _ _ Hr) as (t & ts & d & Ht & Hd & _ & ->).
  unfold rule_matches, entry_covers. split.
  - intros (r & (head & <- & Hhead)%in_map_iff & Hm). simpl in Hm.
    destruct (matches_prefix _ cmd) as [prefix|] eqn:E; [|done]. injection Hm as <-.
    apply matches_prefix_spec in E as [Hdesc Hpre]. exists prefix, d.
    split; [|done]. apply (Forall2_alternatives (t :: ts)); [done|].
    inversion Hdesc; subst. by constructor.
  - intros (prefix & d' & Hc & Hpre & Hd' & ->). rewrite Hd in Hd'. injection Hd' as <-.
    apply (Forall2_alternatives (t :: ts)) in Hc; [|done].
    inversion Hc as [|? head ? ws Hhead Hws]; subst. eexists. split.
    + apply in_map_iff. exists head. split; [reflexivity|done].
    + simpl. assert (E : matches_prefix (mkPattern head ts) cmd = Some (head :: ws)).
      { apply matches_prefix_spec. split; [by constructor|done]. }
      by rewrite E.
Qed.

(** The table holds the rules made, under their programs. *)
Lemma rules_of_inserted rules : forall m q,
  Policy.rules_of (fold_left (fun m r => Policy.multimap_insert (program r) r m) rules m) q
  = Policy.rules_of m q ++ List.filter (fun r => bool_decide (program r = q)) rules.
Proof.
  induction rules as [|r rules IH]; intros m q; simpl; [by rewrite app_nil_r|].
  rewrite IH, Policy.rules_of_insert. case_decide as E.
  - subst q. rewrite bool_decide_eq_true_2 by done. by rewrite <- app_assoc.
  - rewrite bool_decide_eq_false_2; [done|]. by intros <-.
Qed.

Lemma required_rules_table entries : forall i m m',
  required_rules i entries m = Ok m' ->
  exists made, Forall2 (fun entry rules => exists k, required_rule k entry = Ok rules) entries made
    /\ forall q, Policy.rules_of m' q
         = Policy.rules_of m q ++ List.filter (fun r => bool_decide (program r = q)) (concat made).
Proof.
  induction entries as [|entry entries IH]; intros i m m'; simpl.
  - intros [= <-]. exists []. split; [constructor|]. intros q. by rewrite app_nil_r.
  - destruct (required_rule i entry) as [rules|] eqn:E; [|done]. simpl. intros H.
    apply IH in H as (made & Hm & Hq). exists (rules :: made). split.
    + constructor; [by exists i|done].
    + intros q. rewrite Hq, rules_of_inserted. simpl. by rewrite List.filter_app, app_assoc.
Qed.

Lemma match_program r cmd m :
  rule_matches r cmd = Some m -> exists args, cmd = program r :: args.
Proof.
  unfold rule_matches. destruct r as [[f ts] d j]. simpl.
  destruct (matches_prefix (mkPattern f ts) cmd) as [prefix|] eqn:E; [|done].
  apply matches_prefix_spec in E as [Hd [rest ->]]. intros _. inversion Hd; subst. by eexists.
Qed.

(** What the policy of a table says about a command. *)
Lemma to_policy_matches entries p cmd m :
  to_policy entries = Ok p ->
  (In m (default [] (Policy.match_exact_rules p cmd)) <->
   exists entry prefix d, In entry entries /\ entry_covers entry prefix /\ prefix `prefix_of` cmd
     /\ toml_decision entry = Some d
     /\ m = PrefixRuleMatch prefix (as_decision d) None (toml_justification entry)).
Proof.
  unfold to_policy. destruct (is_empty entries); [done|].
  destruct (required_rules 0 entries ∅) as [table|] eqn:E; [|done]. simpl. intros [= <-].
  apply required_rules_table in E as (made & Hmade & Htable).
  transitivity (exists r, In r (concat made) /\ rule_matches r cmd = Some m).
  - destruct cmd as [|c0 args].
    + split; [done|]. intros (r & _ & Hm). by apply match_program in Hm as [].
    + rewrite Policy.match_exact_rules_of. simpl. unfold Policy.matching_rules.
      rewrite Htable. rewrite <- list_elem_of_In, list_elem_of_omap. unfold Policy.rules_of.
      rewrite lookup_empty. simpl. setoid_rewrite list_elem_of_In. split.
      * intros (r & (Hr & _)%filter_In & Hm). by exists r.
      * intros (r & Hr & Hm). exists r. split; [|done]. apply filter_In. split; [done|].
        apply match_program in Hm as [? [= -> _]]. by apply bool_decide_eq_true.
  - split.
    + intros (r & (rules & Hrules & Hr)%in_concat & Hm).
      apply (Forall2_In_r _ _ _ _ Hmade) in Hrules as (entry & Hentry & i & Hi).
      destruct (proj1 (entry_matches _ _ _ _ _ Hi) (ex_intro _ r (conj Hr Hm)))
        as (prefix & d & H). by exists entry, prefix, d.
    + intros (entry & prefix & d & Hentry & H).
      apply (Forall2_In_l _ _ _ _ Hmade) in Hentry as (rules & Hrules & i & Hi).
      destruct (proj2 (entry_matches i entry rules cmd m Hi)) as (r & Hr & Hm);
        [by exists prefix, d|]. exists r. split; [|done]. apply in_concat. by exists rules.
Qed.

(** ** The table in force *)

Lemma merged_exact base p cmd :
  default [] (Policy.match_exact_rules (Policy.merge_overlay base p) cmd)
  = default [] (Policy.match_exact_rules base cmd) ++ default [] (Policy.match_exact_rules p cmd).
Proof. apply (Policy.merge_overlay_adds base p). Qed.

(** Rules under the name a command is called by always count. *)
Lemma exact_rules_count p home cwd cmd h options e m :
  Policy.check_with_options home cwd p cmd h options = Some e ->
  In m (default [] (Policy.match_exact_rules p cmd)) ->
  In m (Policy.matched_rules e) /\ strictness (match_decision m) <= strictness (Policy.eval_decision e).
Proof.
  unfold Policy.check_with_options, Policy.matches_for_command_with_options. intros E Hm.
  destruct (default [] (Policy.match_exact_rules p cmd)) as [|x ms]; [done|]. simpl in E.
  destruct (Policy.from_matches_spec (x :: ms)) as [[_ ?]|(d & Ed & _ & Hd)]; [congruence|].
  assert (e = Policy.mkEvaluation d (x :: ms)) as -> by congruence.
  split; [done|]. by apply Hd.
Qed.

(** C29: A table of required rules that is accepted means what it says: a command
    is matched, with its decision and justification, by exactly the entries whose
    pattern covers a beginning of it, and no entry allows anything.  Laid over
    any other policy each of these matches counts, so the decision is never laxer
    than what is required. *)
Theorem required_rules_enforced (entries : list PrefixRuleToml) (p : Policy.Policy) :
  to_policy entries = Ok p ->
  (forall cmd m, In m (default [] (Policy.match_exact_rules p cmd)) <->
    exists entry prefix d, In entry entries /\ entry_covers entry prefix /\ prefix `prefix_of` cmd
      /\ toml_decision entry = Some d
      /\ m = PrefixRuleMatch prefix (as_decision d) None (toml_justification entry))
  /\ (forall entry, In entry entries -> toml_decision entry = Some TomlPrompt
                                        \/ toml_decision entry = Some TomlForbidden)
  /\ forall base home cwd cmd h options e m,
      Policy.check_with_options home cwd (Policy.merge_overlay base p) cmd h options = Some e ->
      In m (default [] (Policy.match_exact_rules p cmd)) ->
      In m (Policy.matched_rules e)
      /\ strictness (match_decision m) <= strictness (Policy.eval_decision e).
Proof.
  intros Hp. split; [intros cmd m; by apply to_policy_matches|]. split.
  - intros entry Hin. unfold to_policy in Hp. destruct (is_empty entries); [done|].
    destruct (required_rules 0 entries ∅) as [table|] eqn:E; [|done].
    apply required_rules_table in E as (made & Hmade & _).
    apply (Forall2_In_l _ _ _ _ Hmade) in Hin as (rules & _ & i & Hi).
    destruct (required_rule_ok _ _ _ Hi) as (_ & _ & d & _ & -> & Hd & _). destruct d; naive_solver.
  - intros base home cwd cmd h options e m He Hm.
    eapply exact_rules_count; [exact He|]. rewrite merged_exact. apply in_app_iff. by right.
Qed.

(** ** Examples *)

Definition word (s : str) : PatternTokenToml := mkTokenToml (Some s) None.

(** rm is forbidden, and pushing with git or jj is asked about. *)
Definition demo_entries : list PrefixRuleToml :=
  [mkRuleToml [word ($"rm")] (Some TomlForbidden) (Some ($"use trash"));
   mkRuleToml [mkTokenToml None (Some [$"git"; $"jj"]); word ($"push")] (Some TomlPrompt) None].

Definition demo_required : Policy.Policy :=
  match to_policy demo_entries with Ok p => p | Err _ => Policy.empty end.

Definition decision_under (p : Policy.Policy) (cmd : list str) : option Decision :=
  Policy.eval_decision <$> Policy.check_with_options None (Err (mkIo KOther [])) p cmd (fun _ => Allow)
                             (Policy.mkMatchOptions true).

Example table_errors :
  to_policy [] = Err EmptyPrefixRules
  /\ to_policy [mkRuleToml [word ($"rm")] (Some TomlAllow) None] = Err (AllowDecisionNotAllowed 0)
  /\ to_policy [mkRuleToml [word ($"rm"); word ($" ")] (Some TomlPrompt) None]
     = Err (InvalidPatternToken 0 1 ($"token cannot be empty"))
  /\ to_policy [mkRuleToml [] (Some TomlPrompt) None] = Err (EmptyPattern 0)
  /\ to_policy [mkRuleToml [] None (Some ($" "))] = Err (EmptyJustification 0)
  /\ to_policy [mkRuleToml [word ($"rm")] None None] = Err (MissingDecision 0).
Proof. repeat split; vm_compute; reflexivity. Qed.

Lemma required_rules_enforced_witness :
  to_policy demo_entries = Ok demo_required
  /\ forall base home cwd h options e,
      Policy.check_with_options home cwd (Policy.merge_overlay base demo_required)
        [$"rm"; $"x"] h options = Some e ->
      strictness Forbidden <= strictness (Policy.eval_decision e).
Proof.
  assert (to_policy demo_entries = Ok demo_required) as E by (vm_compute; reflexivity).
  split; [exact E|]. intros base home cwd h options e He.
  destruct (required_rules_enforced demo_entries demo_required E) as (_ & _ & H).
  apply (H base home cwd _ h options e (PrefixRuleMatch [$"rm"] Forbidden None (Some ($"use trash"))) He).
  vm_compute. by left.
Defined.

(** A rule for the full path of a program hides what is required of the program
    by its name: the names are only tried when no rule names the path. *)
Example absolute_path_rule_hides_required_rule :
  let base := match Policy.add_prefix_rule Policy.empty [$"/bin/rm"] Allow with
              | Ok p => p | Err _ => Policy.empty end in
  decision_under demo_required [$"/bin/rm"; $"x"] = Some Forbidden
  /\ decision_under (Policy.merge_overlay base demo_required) [$"rm"; $"x"] = Some Forbidden
  /\ decision_under (Policy.merge_overlay base demo_required) [$"/bin/rm"; $"x"] = Some Allow.
Proof. repeat split; vm_compute; reflexivity. Qed.
