(* ===== verification/ShellTree.v ===== *)
(** * Shell scripts as syntax trees (shell-command/src/bash.rs, shell_detect.rs)

    Which commands a [bash -lc] script runs, as far as its syntax tree tells:
    the plain parser gives up on anything but words joined by safe operators,
    the literal parser collects the literal words of every command.  The parser
    (crate tree-sitter, with its bash grammar) is an argument; the trees it
    returns are data here.  A node knows the text it covers of the source it was
    parsed from, [None] when that is not UTF-8; the code only asks for it with
    that source.  Paths are as on Unix. *)

From S2P Require Import Prelude RustStr PatchTypes AbsolutePath.

(** ** Trees *)

Inductive Node : Type :=
| mkNode (kind : str) (is_named : bool) (start_byte end_byte : nat) (utf8_text : option str)
    (children : list Node).

Definition node_kind (n : Node) : str := let 'mkNode k _ _ _ _ _ := n in k.
Definition is_named (n : Node) : bool := let 'mkNode _ b _ _ _ _ := n in b.
Definition start_byte (n : Node) : nat := let 'mkNode _ _ i _ _ _ := n in i.
Definition end_byte (n : Node) : nat := let 'mkNode _ _ _ i _ _ := n in i.
Definition utf8_text (n : Node) : option str := let 'mkNode _ _ _ _ t _ := n in t.
Definition children (n : Node) : list Node := let 'mkNode _ _ _ _ _ cs := n in cs.
Definition named_children (n : Node) : list Node := List.filter is_named (children n).

Record Tree : Type := mkTree { root_node : Node; has_error : bool }.

Fixpoint tree_size (n : Node) : nat :=
  let 'mkNode _ _ _ _ _ cs := n in S (sum_list_with tree_size cs).

(** The nodes in the order a loop that pops a node and pushes [expand node]
    visits them.  Every pop removes a node of a finite tree, so the size of the
    tree is fuel enough ([traverse_preorder]). *)
Fixpoint popped (expand : Node -> list Node) (fuel : nat) (stack : list Node) : list Node :=
  match stack, fuel with
  | node :: rest, S k => node :: popped expand k (rev (expand node) ++ rest)
  | _, _ => []
  end.

Definition traverse (expand : Node -> list Node) (root : Node) : list Node :=
  popped expand (tree_size root) [root].

(** ** Shells (shell_detect.rs) *)

#[local] Existing Instance AbsolutePath.Component_eq_dec.

Inductive ShellType : Type := Zsh | Bash | PowerShell | Sh | CmdExe.

#[export] Instance ShellType_eq_dec : EqDecision ShellType.
Proof. solve_decision. Defined.

Definition named_shell (name : str) : option ShellType :=
  if bool_decide (name = $"zsh") then Some Zsh
  else if bool_decide (name = $"sh") then Some Sh
  else if bool_decide (name = $"cmd") then Some CmdExe
  else if bool_decide (name = $"bash") then Some Bash
  else if bool_decide (name = $"pwsh") then Some PowerShell
  else if bool_decide (name = $"powershell") then Some PowerShell
  else None.

(** [Path::file_stem]. *)
Definition file_stem (path : str) : option str :=
  match AbsolutePath.file_name path with
  | Some name =>
      Some match rsplit_once 46%N name with
           | Some (before, _) => if is_empty before then name else before
           | None => name
           end
  | None => None
  end.

(** [detect_shell_type]: paths are compared by their components.  A file stem
    of another path is a shorter text, so the length is fuel enough. *)
Fixpoint shell_type_within (fuel : nat) (path : str) : option ShellType :=
  match named_shell path with
  | Some t => Some t
  | None =>
      match file_stem path, fuel with
      | Some name, S k =>
          if bool_decide (AbsolutePath.components name = AbsolutePath.components path) then None
          else shell_type_within k name
      | _, _ => None
      end
  end.

Definition detect_shell_type (path : str) : option ShellType :=
  shell_type_within (length path) path.

(** ** Words *)

Definition is_word_kind (k : str) : bool := one_of k [$"word"; $"number"].

(** Characters a shell expands or removes. *)
Definition EXPANDED_CHARS : str := $"{}*?[]\~^#$`".

Definition is_literal_word_or_number (node : Node) : bool :=
  is_word_kind (node_kind node)
  && is_empty (named_children node)
  && match utf8_text node with
     | Some word => negb (starts_with word ($"=")) && negb (existsb (char_in EXPANDED_CHARS) word)
     | None => false
     end.

(** [windows(2)]: a backslash before a character that keeps its meaning. *)
Fixpoint has_escape (s : str) : bool :=
  match s with
  | c :: ((d :: _) as s') =>
      bool_decide (c = 92%N) && char_in (DQUOTE :: LF :: $"$`\") d || has_escape s'
  | _ => false
  end.

(** The text between two quotes. *)
Definition unquoted (quote : char) (raw : str) : option str :=
  match strip_prefix [quote] raw with Some text => strip_suffix [quote] text | None => None end.

Definition QUOTE : char := 39%N.

Definition parse_double_quoted_string (node : Node) : option str :=
  if negb (bool_decide (node_kind node = $"string")) then None
  else if existsb (fun part => negb (bool_decide (node_kind part = $"string_content")))
            (named_children node) then None
  else
    raw ← utf8_text node;
    stripped ← unquoted DQUOTE raw;
    if has_escape stripped then None else Some stripped.

Definition parse_raw_string (node : Node) : option str :=
  if negb (bool_decide (node_kind node = $"raw_string")) then None
  else raw ← utf8_text node; unquoted QUOTE raw.

(** ** Literal commands *)

Fixpoint parse_literal_shell_word (node : Node) : option str :=
  let concatenated :=
    (fix parts (cs : list Node) : option str :=
       match cs with
       | [] => Some []
       | part :: cs' =>
           if is_named part then
             word ← parse_literal_shell_word part; rest ← parts cs'; Some (word ++ rest)
           else parts cs'
       end) in
  let 'mkNode kind _ _ _ text cs := node in
  if is_word_kind kind then if is_literal_word_or_number node then text else None
  else if bool_decide (kind = $"string") then parse_double_quoted_string node
  else if bool_decide (kind = $"raw_string") then parse_raw_string node
  else if bool_decide (kind = $"concatenation") then
    word ← concatenated cs; if is_empty word then None else Some word
  else None.

(** The words of a command, once its name was found. *)
Fixpoint literal_words (found : bool) (words : list str) (cs : list Node)
  : option (bool * list str) :=
  match cs with
  | [] => Some (found, words)
  | child :: cs' =>
      if bool_decide (node_kind child = $"command_name") then
        name ← head (named_children child);
        word ← parse_literal_shell_word name;
        literal_words true (words ++ [word]) cs'
      else if found then
        literal_words found
          (words ++ match parse_literal_shell_word child with Some w => [w] | None => [] end) cs'
      else literal_words found words cs'
  end.

Definition parse_literal_command_from_node (cmd : Node) : option (list str) :=
  if negb (bool_decide (node_kind cmd = $"command")) then None
  else
    r ← literal_words false [] (named_children cmd);
    if fst r : bool then Some (snd r) else None.

Definition literal_commands (tree : Tree) : option (list (list str)) :=
  if has_error tree then None
  else Some (omap parse_literal_command_from_node (traverse named_children (root_node tree))).

(** ** Plain commands *)

Definition ALLOWED_KINDS : list str :=
  [$"program"; $"list"; $"pipeline"; $"command"; $"command_name"; $"word"; $"string";
   $"string_content"; $"raw_string"; $"number"; $"concatenation"].

Definition ALLOWED_PUNCT_TOKENS : list str := [$"&&"; $"||"; $";"; $"|"; [DQUOTE]; [QUOTE]].

(** Does the scan let this node pass? *)
Definition accepted_node (node : Node) : bool :=
  let kind := node_kind node in
  if is_named node then
    one_of kind ALLOWED_KINDS
    && negb (is_word_kind kind && negb (is_literal_word_or_number node))
  else
    negb (existsb (char_in ($"&;|")) kind && negb (one_of kind ALLOWED_PUNCT_TOKENS))
    && (one_of kind ALLOWED_PUNCT_TOKENS || is_empty (trim kind)).

Definition is_command_node (node : Node) : bool :=
  is_named node && bool_decide (node_kind node = $"command").

(** One part of a concatenated argument. *)
Definition plain_part (part : Node) : option str :=
  let kind := node_kind part in
  if is_word_kind kind then utf8_text part
  else if bool_decide (kind = $"string") then parse_double_quoted_string part
  else if bool_decide (kind = $"raw_string") then parse_raw_string part
  else None.

Definition plain_word (child : Node) : option str :=
  let kind := node_kind child in
  if bool_decide (kind = $"command_name") then
    word_node ← head (named_children child);
    if bool_decide (node_kind word_node = $"word") then utf8_text word_node else None
  else if bool_decide (kind = $"concatenation") then
    parts ← mapM plain_part (named_children child);
    if is_empty (concat parts) then None else Some (concat parts)
  else plain_part child.

Definition parse_plain_command_from_node (cmd : Node) : option (list str) :=
  if negb (bool_decide (node_kind cmd = $"command")) then None
  else mapM plain_word (named_children cmd).

Definition try_parse_word_only_commands_sequence (tree : Tree) : option (list (list str)) :=
  if has_error tree then None
  else
    let nodes := traverse children (root_node tree) in
    if negb (forallb accepted_node nodes) then None
    else
      mapM parse_plain_command_from_node
        (sort_by_key start_byte (List.filter is_command_node nodes)).

(** ** Wrapped scripts *)

Section parser.
(** [try_parse_shell]. *)
Context (try_parse_shell : str -> option Tree).

Definition parse_shell_script_into_commands (script : str) : option (list (list str)) :=
  tree ← try_parse_shell script; try_parse_word_only_commands_sequence tree.

Definition extract_bash_command (command : list str) : option (str * str) :=
  match command with
  | [shell; flag; script] =>
      if negb (one_of flag [$"-lc"; $"-c"])
         || negb match detect_shell_type shell with
                 | Some (Zsh | Bash | Sh) => true
                 | _ => false
                 end
      then None else Some (shell, script)
  | _ => None
  end.

Definition parse_shell_lc_plain_commands (command : list str) : option (list (list str)) :=
  wrapped ← extract_bash_command command; parse_shell_script_into_commands (snd wrapped).

Definition parse_shell_lc_literal_commands (command : list str) : option (list (list str)) :=
  wrapped ← extract_bash_command command;
  tree ← try_parse_shell (snd wrapped);
  literal_commands tree.

End parser.

(** * What the tree parsers see of a script

    The loops over a syntax tree visit each node once; the plain parser, which
    the policy matches commands with, and the literal parser, which the
    heuristics look for danger with, agree on every script the plain parser
    accepts. *)

(** ** Induction and traversal *)

Section induction.
Context (P : Node -> Prop).
Context (step : forall n, (forall c, In c (children n) -> P c) -> P n).

Fixpoint Node_children_ind (n : Node) : P n.
Proof.
  apply step. destruct n as [k b i j t cs]. simpl. induction cs as [|c cs IH]; [intros c []|].
  intros d [<-|Hd]; [apply Node_children_ind|by apply IH].
Defined.
End induction.

(** The nodes below [n] that are reached through kept nodes, [n] first. *)
Fixpoint nodes_by (keep : Node -> bool) (n : Node) : list Node :=
  let 'mkNode _ _ _ _ _ cs := n in
  n :: flat_map (fun c => if keep c then nodes_by keep c else []) cs.

Definition kept (keep : Node -> bool) (n : Node) : list Node := List.filter keep (children n).

Definition all_nodes : Node -> list Node := nodes_by (fun _ => true).

Lemma nodes_by_eq keep n : nodes_by keep n = n :: flat_map (nodes_by keep) (kept keep n).
Proof.
  destruct n as [k b i j t cs]. unfold kept. simpl. f_equal.
  induction cs as [|c cs IH]; simpl; [done|]. destruct (keep c); simpl; by rewrite IH.
Qed.

Lemma kept_all n : kept (fun _ => true) n = children n.
Proof. unfold kept. induction (children n) as [|c cs IH]; simpl; congruence. Qed.

Lemma tree_size_eq n : tree_size n = S (sum_list_with tree_size (children n)).
Proof. by destruct n. Qed.

Lemma kept_size keep cs :
  sum_list_with tree_size (List.filter keep cs) <= sum_list_with tree_size cs.
Proof. induction cs as [|c cs IH]; simpl; [lia|]. destruct (keep c); simpl; lia. Qed.

Lemma popped_preorder keep fuel stack :
  sum_list_with tree_size stack <= fuel ->
  Permutation (popped (kept keep) fuel stack) (flat_map (nodes_by keep) stack).
Proof.
  revert stack. induction fuel as [|fuel IH]; intros [|n stack] Hf; simpl; try done.
  { simpl in Hf. rewrite tree_size_eq in Hf. lia. }
  simpl in Hf. rewrite tree_size_eq in Hf. rewrite nodes_by_eq. simpl. constructor.
  rewrite IH.
  - rewrite flat_map_app. apply Permutation_app; [|done]. apply Permutation_flat_map.
    symmetry. apply Permutation_rev.
  - rewrite sum_list_with_app, rev_alt. change (rev_append (kept keep n) []) with (reverse (kept keep n)).
    rewrite sum_list_with_reverse. pose proof (kept_size keep (children n)).
    unfold kept. lia.
Qed.

Lemma traverse_preorder keep root :
  Permutation (traverse (kept keep) root) (nodes_by keep root).
Proof.
  unfold traverse. rewrite popped_preorder; simpl; [by rewrite app_nil_r|lia].
Qed.

Lemma popped_ext f g fuel stack :
  (forall n, f n = g n) -> popped f fuel stack = popped g fuel stack.
Proof.
  intros H. revert stack. induction fuel as [|fuel IH]; intros [|n stack]; simpl; try done.
  by rewrite H, IH.
Qed.

Lemma traverse_children root : Permutation (traverse children root) (all_nodes root).
Proof.
  unfold traverse.
  rewrite (popped_ext children (kept (fun _ => true)) _ _ (fun n => eq_sym (kept_all n))).
  apply traverse_preorder.
Qed.

Lemma all_nodes_eq n : all_nodes n = n :: flat_map all_nodes (children n).
Proof. rewrite <- (kept_all n). exact (nodes_by_eq (fun _ => true) n). Qed.

Lemma all_nodes_child n c : In c (children n) -> incl (all_nodes c) (all_nodes n).
Proof.
  intros Hc m Hm. rewrite all_nodes_eq. right. apply in_flat_map. by exists c.
Qed.

Lemma all_nodes_self n : In n (all_nodes n).
Proof. rewrite all_nodes_eq. by left. Qed.

Lemma named_children_In n c : In c (named_children n) <-> In c (children n) /\ is_named c = true.
Proof. apply filter_In. Qed.

(** ** Words *)

Lemma literal_parts cs :
  (fix parts (cs : list Node) : option str :=
     match cs with
     | [] => Some []
     | part :: cs' =>
         if is_named part then
           word ← parse_literal_shell_word part; rest ← parts cs'; Some (word ++ rest)
         else parts cs'
     end) cs
  = option_map (@concat char) (mapM parse_literal_shell_word (List.filter is_named cs)).
Proof.
  induction cs as [|c cs IH]; [done|]. simpl. destruct (is_named c); [|by rewrite IH]. simpl.
  destruct (parse_literal_shell_word c) as [w|]; [|done]. simpl. rewrite IH.
  by destruct (mapM parse_literal_shell_word (List.filter is_named cs)).
Qed.

Lemma literal_word_eq node :
  parse_literal_shell_word node
  = if is_word_kind (node_kind node)
    then if is_literal_word_or_number node then utf8_text node else None
    else if bool_decide (node_kind node = $"string") then parse_double_quoted_string node
    else if bool_decide (node_kind node = $"raw_string") then parse_raw_string node
    else if bool_decide (node_kind node = $"concatenation") then
      word ← option_map (@concat char) (mapM parse_literal_shell_word (named_children node));
      if is_empty word then None else Some word
    else None.
Proof.
  destruct node as [k b i j t cs]. unfold named_children. cbn [children].
  by rewrite <- literal_parts.
Qed.

(** Every node below [n] passes the scan. *)
Definition accepted_tree (n : Node) : Prop := forall m, In m (all_nodes n) -> accepted_node m = true.

Lemma accepted_tree_child n c : In c (children n) -> accepted_tree n -> accepted_tree c.
Proof. intros Hc Hn m Hm. apply Hn. by eapply all_nodes_child. Qed.

Lemma accepted_word n :
  accepted_tree n -> is_named n = true -> is_word_kind (node_kind n) = true ->
  is_literal_word_or_number n = true.
Proof.
  intros Hn Hnamed Hk. specialize (Hn n (all_nodes_self n)). unfold accepted_node in Hn.
  rewrite Hnamed, Hk in Hn. apply andb_true_iff in Hn as [_ Hn].
  by destruct (is_literal_word_or_number n).
Qed.

Lemma plain_part_literal n w :
  accepted_tree n -> is_named n = true -> plain_part n = Some w -> parse_literal_shell_word n = Some w.
Proof.
  intros Hn Hnamed. unfold plain_part. rewrite literal_word_eq.
  destruct (is_word_kind (node_kind n)) eqn:Hk; [by rewrite accepted_word|].
  case_bool_decide; [done|]. case_bool_decide; done.
Qed.

Lemma plain_parts_literal cs ws :
  (forall c, In c cs -> accepted_tree c /\ is_named c = true) ->
  mapM plain_part cs = Some ws -> mapM parse_literal_shell_word cs = Some ws.
Proof.
  intros Hcs. rewrite !mapM_Some. intros H. eapply Forall2_impl; [|intros c w Hw; exact Hw].
  revert Hcs. induction H as [|c w cs ws Hw H IH]; intros Hcs; constructor.
  - destruct (Hcs c (or_introl eq_refl)). by apply plain_part_literal.
  - apply IH. intros d Hd. apply Hcs. by right.
Qed.

Lemma accepted_named_children n :
  accepted_tree n -> forall c, In c (named_children n) -> accepted_tree c /\ is_named c = true.
Proof.
  intros Hn c Hc. apply named_children_In in Hc as [Hc Hnc]. split; [|done].
  by eapply accepted_tree_child.
Qed.

Definition is_name (n : Node) : bool := bool_decide (node_kind n = $"command_name").

Lemma plain_word_literal n w :
  accepted_tree n -> is_named n = true -> is_name n = false -> plain_word n = Some w ->
  parse_literal_shell_word n = Some w.
Proof.
  unfold is_name, plain_word. intros Hn Hnamed ->.
  destruct (bool_decide (node_kind n = $"concatenation")) eqn:Hc;
    [|intros Hp; by apply plain_part_literal].
  apply bool_decide_eq_true in Hc. rewrite literal_word_eq, Hc. simpl.
  intros Hp. destruct (mapM plain_part (named_children n)) as [parts|] eqn:E; [|done].
  rewrite (plain_parts_literal _ _ (accepted_named_children n Hn) E). exact Hp.
Qed.

Lemma plain_name_literal n w :
  accepted_tree n -> is_name n = true -> plain_word n = Some w ->
  head (named_children n) ≫= parse_literal_shell_word = Some w.
Proof.
  unfold is_name, plain_word. intros Hn ->. destruct (named_children n) as [|c cs] eqn:E; [done|].
  simpl. case_bool_decide as Hk; [|done]. intros Hw. rewrite literal_word_eq, Hk. simpl.
  destruct (accepted_named_children n Hn c) as [Hc Hcn]; [rewrite E; by left|].
  rewrite accepted_word; [done..|]. by rewrite Hk.
Qed.

(** ** Commands *)

Lemma literal_words_plain words cs ws :
  (forall c, In c cs -> accepted_tree c /\ is_named c = true) ->
  mapM plain_word cs = Some ws -> literal_words true words cs = Some (true, words ++ ws).
Proof.
  revert words ws. induction cs as [|c cs IH]; intros words ws Hcs Hp; simpl in Hp.
  { injection Hp as <-. simpl. by rewrite app_nil_r. }
  destruct (plain_word c) as [w|] eqn:Ew; [|done]. simpl in Hp.
  destruct (mapM plain_word cs) as [ws'|] eqn:E; [|done]. injection Hp as <-. simpl.
  destruct (Hcs c (or_introl eq_refl)) as [Ha Hn].
  assert (Hcs' : forall d, In d cs -> accepted_tree d /\ is_named d = true)
    by (intros d Hd; apply Hcs; by right).
  destruct (bool_decide (node_kind c = $"command_name")) eqn:Hk.
  - pose proof (plain_name_literal _ _ Ha Hk Ew) as Hl.
    destruct (head (named_children c)) as [name|]; [|done]. simpl in *. rewrite Hl. simpl.
    rewrite (IH _ _ Hcs' eq_refl). by rewrite <- app_assoc.
  - rewrite (plain_word_literal _ _ Ha Hn Hk Ew). rewrite (IH _ _ Hcs' eq_refl).
    by rewrite <- app_assoc.
Qed.

(** The name comes first. *)
Definition starts_with_name (cmd : Node) : Prop :=
  match named_children cmd with c :: _ => is_name c = true | [] => False end.

Lemma plain_command_literal cmd ws :
  accepted_tree cmd -> starts_with_name cmd -> parse_plain_command_from_node cmd = Some ws ->
  parse_literal_command_from_node cmd = Some ws.
Proof.
  unfold parse_plain_command_from_node, parse_literal_command_from_node, starts_with_name.
  intros Ha Hs Hp. case_bool_decide as Hk; simpl in *; [|done].
  pose proof (accepted_named_children cmd Ha) as Hcs.
  destruct (named_children cmd) as [|c cs]; [done|]. simpl in *.
  destruct (plain_word c) as [w|] eqn:Ew; [|done]. simpl in Hp.
  destruct (mapM plain_word cs) as [ws'|] eqn:E; [|done]. injection Hp as <-.
  unfold is_name in Hs. rewrite Hs.
  pose proof (plain_name_literal _ _ (proj1 (Hcs c (or_introl eq_refl))) Hs Ew) as Hl.
  destruct (head (named_children c)) as [name|]; [|done]. simpl in *. rewrite Hl. simpl.
  by rewrite (literal_words_plain _ _ _ (fun d Hd => Hcs d (or_intror Hd)) E).
Qed.

(** ** Scripts *)

(** What the grammar promises of the tree below [root]: anonymous nodes are
    tokens, and a command of plain words starts with its name. *)
Record bash_tree (root : Node) : Prop := mkBashTree {
  root_named : is_named root = true;
  tokens_are_leaves : forall n, In n (all_nodes root) -> is_named n = false -> children n = [];
  names_first : forall cmd, In cmd (all_nodes root) -> parse_plain_command_from_node cmd <> None ->
    starts_with_name cmd;
}.

Lemma Permutation_filter_list {A} (f : A -> bool) l k :
  Permutation l k -> Permutation (List.filter f l) (List.filter f k).
Proof.
  induction 1 as [|x l k H IH|x y l|l k m H1 IH1 H2 IH2]; simpl; try done.
  - destruct (f x); [by constructor|done].
  - destruct (f x), (f y); try done. apply perm_swap.
  - by etransitivity.
Qed.

Lemma named_nodes n :
  (forall m, In m (all_nodes n) -> is_named m = false -> children m = []) ->
  is_named n = true -> List.filter is_named (all_nodes n) = nodes_by is_named n.
Proof.
  induction n as [n IH] using Node_children_ind. intros Hleaf Hn.
  rewrite all_nodes_eq, nodes_by_eq. simpl. rewrite Hn. f_equal. rewrite filter_flat_map.
  assert (H : forall cs, incl cs (children n) ->
    flat_map (fun c => List.filter is_named (all_nodes c)) cs
    = flat_map (nodes_by is_named) (List.filter is_named cs)); [|apply H, incl_refl].
  intros cs. induction cs as [|c cs IHcs]; intros Hcs; simpl; [done|].
  assert (Hc : In c (children n)) by (apply Hcs; by left).
  rewrite IHcs by (intros d Hd; apply Hcs; by right).
  destruct (is_named c) eqn:Ec; simpl.
  - f_equal. apply IH; [done| |done]. intros m Hm. apply Hleaf. by eapply all_nodes_child.
  - rewrite all_nodes_eq. simpl. rewrite Ec, Hleaf; [done| |done].
    eapply all_nodes_child; [done|apply all_nodes_self].
Qed.

Lemma omap_filter {A B} (f : A -> option B) (keep : A -> bool) l :
  (forall x, In x l -> keep x = false -> f x = None) ->
  omap f (List.filter keep l) = omap f l.
Proof.
  intros H. induction l as [|x l IH]; [done|]. simpl.
  assert (Hl : omap f (List.filter keep l) = omap f l).
  { apply IH. intros y Hy. apply H. by right. }
  destruct (keep x) eqn:E; simpl.
  - destruct (f x); [f_equal|]; exact Hl.
  - rewrite (H x (or_introl eq_refl) E). exact Hl.
Qed.

Lemma omap_perm {A B} (f : A -> option B) l k : Permutation l k -> Permutation (omap f l) (omap f k).
Proof.
  induction 1 as [|x l k H IH|x y l|l k m H1 IH1 H2 IH2]; simpl; try done.
  - destruct (f x); [by constructor|done].
  - destruct (f x), (f y); try done. apply perm_swap.
  - by etransitivity.
Qed.

Lemma mapM_omap {A B} (f g : A -> option B) l k :
  (forall x y, In x l -> f x = Some y -> g x = Some y) -> mapM f l = Some k -> omap g l = k.
Proof.
  revert k. induction l as [|x l IH]; intros k H Hm; simpl in *; [by injection Hm|].
  destruct (f x) as [y|] eqn:E; [|done]. simpl in Hm.
  destruct (mapM f l) as [k'|]; [|done]. injection Hm as <-.
  rewrite (H x y (or_introl eq_refl) E). f_equal. apply IH; [|done]. intros; apply H; [by right|done].
Qed.

Lemma literal_not_command n : is_command_node n = false -> is_named n = true ->
  parse_literal_command_from_node n = None.
Proof.
  unfold is_command_node, parse_literal_command_from_node. intros H Hn. rewrite Hn in H. simpl in H.
  by rewrite H.
Qed.

(** Every command the plain parser reports is reported by the literal parser,
    and nothing else, when the plain parser accepts the script. *)
Lemma plain_commands_literal tree cmds :
  bash_tree (root_node tree) -> try_parse_word_only_commands_sequence tree = Some cmds ->
  exists l, literal_commands tree = Some l /\ Permutation l cmds.
Proof.
  intros [Hroot Hleaf Hfirst]. unfold try_parse_word_only_commands_sequence, literal_commands.
  destruct (has_error tree); [done|]. set (root := root_node tree) in *.
  destruct (forallb accepted_node (traverse children root)) eqn:Ha; simpl; [|done]. intros Hm.
  assert (Hacc : accepted_tree root).
  { intros m Hm'. rewrite forallb_forall in Ha. apply Ha.
    by apply (Permutation_in _ (Permutation_sym (traverse_children root))). }
  eexists. split; [reflexivity|].
  set (commands := sort_by_key start_byte (List.filter is_command_node (traverse children root))) in *.
  assert (Hcommands : Permutation commands (List.filter is_command_node (all_nodes root))).
  { unfold commands. rewrite sort_by_key_perm. apply Permutation_filter_list, traverse_children. }
  assert (Hlit : omap parse_literal_command_from_node commands = cmds).
  { eapply mapM_omap; [|exact Hm]. intros cmd ws Hc Hw.
    apply (Permutation_in _ Hcommands), filter_In in Hc as [Hc _].
    apply plain_command_literal; [|apply Hfirst; congruence|done].
    intros m Hm'. apply Hacc. revert Hc m Hm'. clear. revert root. intros root.
    induction root as [root IH] using Node_children_ind. intros Hc m Hm.
    rewrite all_nodes_eq in Hc. destruct Hc as [<-|Hc]; [done|].
    apply in_flat_map in Hc as (c & Hin & Hc). apply (all_nodes_child _ _ Hin).
    by apply (IH c Hin). }
  rewrite <- Hlit, Hcommands.
  transitivity (omap parse_literal_command_from_node (List.filter is_named (all_nodes root))).
  - apply omap_perm. rewrite named_nodes by done. apply (traverse_preorder is_named).
  - rewrite <- (omap_filter _ is_command_node (List.filter is_named (all_nodes root))).
    + clear. induction (all_nodes root) as [|n l IH]; simpl; [done|].
      destruct (is_named n) eqn:En; simpl.
      * destruct (is_command_node n); simpl; [|done].
        by destruct (parse_literal_command_from_node n); [constructor|].
      * assert (E : is_command_node n = false) by (unfold is_command_node; by rewrite En).
        by rewrite E.
    + intros n Hn E. apply filter_In in Hn as [_ Hn]. by apply literal_not_command.
Qed.
