(* ===== verification/PowerShell.v ===== *)
(** * PowerShell scripts (shell-command/src/powershell.rs,
    command_safety/powershell_tree_sitter.rs)

    Lowering a literal PowerShell script to the commands it runs.  The parser
    (crate tree-sitter with its PowerShell grammar, which loads) and the [Debug]
    text of a character are arguments.  Positions in the script are counted in
    bytes where they come from the tree; a slice off a character boundary, a
    panic, does not occur for the ranges of a tree and is an error here. *)

From S2P Require Import Prelude RustStr Utf8 ShellTree.

(** ** powershell.rs *)

Definition POWERSHELL_FLAGS : list str := [$"-nologo"; $"-noprofile"; $"-command"; $"-c"].

Fixpoint powershell_script (args : list str) : option str :=
  match args with
  | flag :: ((script :: _) as rest) =>
      if negb (one_of (to_ascii_lowercase flag) POWERSHELL_FLAGS) then None
      else if eq_ignore_ascii_case flag ($"-Command") || eq_ignore_ascii_case flag ($"-c")
      then Some script
      else powershell_script rest
  | _ => None
  end.

Definition extract_powershell_command (command : list str) : option (str * str) :=
  match command with
  | shell :: args =>
      if bool_decide (detect_shell_type shell = Some PowerShell)
      then option_map (pair shell) (powershell_script args) else None
  | [] => None
  end.

Definition UTF8_OUTPUT_PREFIX : str :=
  $"try { [Console]::OutputEncoding=[System.Text.Encoding]::UTF8 } catch {}" ++ [LF].

Definition prefix_powershell_script_with_utf8 (command : list str) : list str :=
  match extract_powershell_command command with
  | None => command
  | Some (_, script) =>
      removelast command
      ++ [if starts_with (trim_start script) UTF8_OUTPUT_PREFIX then script
          else UTF8_OUTPUT_PREFIX ++ script]
  end.

(** ** Characters *)

Definition BACKTICK : char := 96%N.
Definition EQUALS : char := 61%N.

(** Curly quotes and long dashes. *)
Definition is_syntax_alias (ch : char) : bool :=
  char_in [8216; 8217; 8220; 8221; 8211; 8212; 8213]%N ch.

Definition is_rejected_bare_character (ch : char) : bool :=
  char_in (QUOTE :: DQUOTE :: $"$@(){}[];|&><,") ch.

Definition is_inline_parameter_token_separator (ch : char) : bool :=
  is_whitespace ch || char_in ($"|&;#><(){}") ch.

Definition is_rejected_inline_parameter_character (ch : char) : bool :=
  is_whitespace ch || is_rejected_bare_character ch || char_in [BACKTICK; 35%N] ch.

(** ** Masking [--flag=value]

    The equals sign is one byte, so it is masked by its position among the
    characters. *)

Definition inline_parameter_equals (token : str) (start : nat) : list nat :=
  if starts_with token ($"--")
     && forallb (fun ch => negb (is_rejected_inline_parameter_character ch)) token
  then
    match find_str [EQUALS] token with
    | Some relative_equals =>
        if (2 <? relative_equals) && (relative_equals + 1 <? length token)
        then [start + relative_equals] else []
    | None => []
    end
  else [].

(** [start] is where the current token, [rev token], begins. *)
Fixpoint inline_equals_from (start : nat) (token script : str) : list nat :=
  match script with
  | [] => inline_parameter_equals (rev token) start
  | ch :: rest =>
      if is_inline_parameter_token_separator ch then
        inline_parameter_equals (rev token) start
        ++ inline_equals_from (start + length token + 1) [] rest
      else inline_equals_from start (ch :: token) rest
  end.

Definition inline_double_dash_parameter_equals (script : str) : list nat :=
  inline_equals_from 0 [] script.

Definition masked_source (script : str) : str :=
  fold_left (fun s equals => <[equals := 32%N]> s) (inline_double_dash_parameter_equals script) script.

(** ** Nodes *)

(** [utf8_text] with the unmasked script. *)
Definition source_text (script : str) (node : Node) : option str :=
  res_ok (from_utf8 (take (end_byte node - start_byte node)
                       (drop (start_byte node) (encode script)))).

Definition is_allowed_named_kind (kind : str) : bool :=
  one_of kind
    [$"program"; $"statement_list"; $"pipeline"; $"pipeline_chain"; $"pipeline_chain_tail";
     $"command"; $"command_name"; $"command_elements"; $"command_argument_sep";
     $"command_parameter"; $"generic_token"; $"array_literal_expression"; $"unary_expression";
     $"string_literal"; $"verbatim_string_characters"; $"expandable_string_literal";
     $"integer_literal"; $"decimal_integer_literal"; $"comment"; $"empty_statement";
     $"expression_with_unary_operator"].

Definition is_requires_comment (script : str) (node : Node) : bool :=
  bool_decide (node_kind node = $"comment")
  && match source_text script node with
     | Some comment => starts_with (to_ascii_lowercase (trim_start comment)) ($"#requires")
     | None => false
     end.

Definition has_requires_directive (root : Node) (script : str) : bool :=
  existsb (is_requires_comment script) (traverse named_children root).

Definition first_unrecognized_named_kind (root : Node) : option str :=
  find_map (fun node => if is_named node && negb (is_allowed_named_kind (node_kind node))
                        then Some (node_kind node) else None)
    (traverse named_children root).

Definition is_ps_command (node : Node) : bool := bool_decide (node_kind node = $"command").

(** The children are pushed last first, and those of a command are not. *)
Definition collect_command_nodes (root : Node) : list Node :=
  List.filter is_ps_command
    (traverse (fun node => if is_ps_command node then [] else rev (named_children node)) root).

(** ** Nothing but commands *)

(** The characters up to byte [target], moved to the reversed [seen]. *)
Fixpoint advance (target : nat) (seen rest : str) : option (str * str) :=
  if byte_len seen =? target then Some (seen, rest)
  else match rest with
       | ch :: rest' => if byte_len seen <? target then advance target (ch :: seen) rest' else None
       | [] => None
       end.

Definition at_token_boundary (seen : str) : bool :=
  match seen with
  | [] => true
  | previous :: _ => is_whitespace previous || bool_decide (previous = 59%N)
  end.

Fixpoint skip_to_line_end (seen rest : str) : str * str :=
  match rest with
  | ch :: rest' =>
      if char_in [CR; LF] ch then (seen, rest) else skip_to_line_end (ch :: seen) rest'
  | [] => (seen, [])
  end.

Record Cover : Type := mkCover {
  ranges : list (nat * nat);
  can_chain : bool;
  needs_command : bool;
  paren_depth : nat;
}.

(** One turn of the loop at [ch], which is outside the commands. *)
Definition cover_char (c : Cover) (seen : str) (ch : char) (rest : str)
  : option (Cover * str * str) :=
  let next := ch :: seen in
  if char_in [CR; LF] ch
  then Some (mkCover (ranges c) false (needs_command c) (paren_depth c), next, rest)
  else if is_whitespace ch then Some (c, next, rest)
  else if bool_decide (ch = 59%N) then
    if needs_command c then None
    else Some (mkCover (ranges c) false (needs_command c) (paren_depth c), next, rest)
  else if bool_decide (ch = 40%N) && negb (can_chain c)
  then Some (mkCover (ranges c) (can_chain c) (needs_command c) (S (paren_depth c)), next, rest)
  else if bool_decide (ch = 41%N) && (0 <? paren_depth c) && negb (needs_command c)
  then Some (mkCover (ranges c) (can_chain c) (needs_command c) (paren_depth c - 1), next, rest)
  else if bool_decide (ch = 124%N) && can_chain c then
    let c := mkCover (ranges c) false true (paren_depth c) in
    match rest with
    | bar :: rest' =>
        if bool_decide (bar = 124%N) then Some (c, bar :: next, rest') else Some (c, next, rest)
    | [] => Some (c, next, rest)
    end
  else if bool_decide (ch = 38%N) && can_chain c && starts_with rest ($"&")
  then Some (mkCover (ranges c) false true (paren_depth c), 38%N :: next, drop 1 rest)
  else if bool_decide (ch = 35%N) && negb (needs_command c) then
    if at_token_boundary seen then
      let '(seen, rest) := skip_to_line_end next rest in Some (c, seen, rest)
    else None
  else if starts_with (ch :: rest) ($"<#") && negb (needs_command c) && at_token_boundary seen then
    match find_str ($"#>") rest with
    | Some close => Some (c, rev (take (close + 2) rest) ++ next, drop (close + 2) rest)
    | None => None
    end
  else None.

Fixpoint cover_loop (fuel : nat) (c : Cover) (seen rest : str) : bool :=
  match rest, fuel with
  | [], _ => is_empty (ranges c) && negb (needs_command c) && (paren_depth c =? 0)
  | _, 0 => false
  | ch :: rest', S k =>
      match ranges c with
      | (start, stop) :: later =>
          if byte_len seen =? start then
            match advance stop seen rest with
            | Some (seen, rest) => cover_loop k (mkCover later true false (paren_depth c)) seen rest
            | None => false
            end
          else match cover_char c seen ch rest' with
               | Some (c, seen, rest) => cover_loop k c seen rest
               | None => false
               end
      | [] =>
          match cover_char c seen ch rest' with
          | Some (c, seen, rest) => cover_loop k c seen rest
          | None => false
          end
      end
  end.

(** Every turn passes a range or a character. *)
Definition source_is_covered_by_commands (script : str) (command_ranges : list (nat * nat)) : bool :=
  cover_loop (length script + length command_ranges) (mkCover command_ranges false false 0) [] script.

(** ** Words *)

Section lowering.
Context (debug_char : char -> str).

Fixpoint parse_single_quoted (value chars : str) : result (str * str) str :=
  match chars with
  | [] => Err ($"unterminated single-quoted string")
  | ch :: rest =>
      if bool_decide (ch = QUOTE) then
        match rest with
        | second :: rest' =>
            if bool_decide (second = QUOTE) then parse_single_quoted (value ++ [QUOTE]) rest'
            else Ok (value, rest)
        | [] => Ok (value, [])
        end
      else parse_single_quoted (value ++ [ch]) rest
  end.

Definition decode_backtick_escape (ch : char) : char :=
  (if ch =? 48 then 0 else if ch =? 97 then 7 else if ch =? 98 then 8 else if ch =? 102 then 12
   else if ch =? 110 then LF else if ch =? 114 then CR else if ch =? 116 then 9
   else if ch =? 118 then 11 else ch)%N.

Fixpoint parse_double_quoted (value chars : str) : result (str * str) str :=
  match chars with
  | [] => Err ($"unterminated double-quoted string")
  | ch :: rest =>
      if bool_decide (ch = DQUOTE) then Ok (value, rest)
      else if bool_decide (ch = 36%N) then Err ($"expandable string contains variable syntax")
      else if bool_decide (ch = BACKTICK) then
        match rest with
        | [] => Err ($"trailing PowerShell escape")
        | escaped :: rest' =>
            if bool_decide (escaped = 101%N) then Err ($"PowerShell-version-dependent escape")
            else if bool_decide (escaped = 117%N) && starts_with rest' ($"{")
            then Err ($"PowerShell Unicode escape")
            else parse_double_quoted (value ++ [decode_backtick_escape escaped]) rest'
        end
      else parse_double_quoted (value ++ [ch]) rest
  end.

Fixpoint parse_bare_word (value chars : str) : result (str * str) str :=
  let finished := if is_empty value then Err ($"empty bare word") else Ok (value, chars) in
  match chars with
  | [] => finished
  | ch :: rest =>
      if is_whitespace ch then finished
      else if bool_decide (ch = BACKTICK) then
        match rest with
        | [] => Err ($"trailing PowerShell escape")
        | escaped :: rest' =>
            if bool_decide (escaped = 101%N) then Err ($"PowerShell-version-dependent escape")
            else parse_bare_word (value ++ [decode_backtick_escape escaped]) rest'
        end
      else if is_rejected_bare_character ch
      then Err ($"dynamic or structural bare character: " ++ debug_char ch)
      else parse_bare_word (value ++ [ch]) rest
  end.

Definition reject_unsupported_bare_word (word : str) : result () str :=
  if starts_with word ($"-") && negb (starts_with word ($"--")) && contains_char 58%N word
  then Err ($"attached PowerShell parameter value")
  else if match word with ch :: _ => is_ascii_digit ch | [] => false end
          && negb (bool_decide (word = $"0")
                   || negb (starts_with word ($"0")) && forallb is_ascii_digit word)
  then Err ($"non-canonical numeric-leading bare word")
  else Ok ().

(** One word, the characters after it, and whether it was bare. *)
Definition parse_ps_word (chars : str) : result (str * str * bool) str :=
  match chars with
  | ch :: rest =>
      if bool_decide (ch = QUOTE) then
        let? parsed := parse_single_quoted [] rest in Ok (parsed, false)
      else if bool_decide (ch = DQUOTE) then
        let? parsed := parse_double_quoted [] rest in Ok (parsed, false)
      else let? parsed := parse_bare_word [] chars in Ok (parsed, true)
  | [] => let? parsed := parse_bare_word [] chars in Ok (parsed, true)
  end.

Fixpoint lower_words (fuel : nat) (words : list str) (chars : str) : result (list str) str :=
  let chars := trim_start chars in
  match chars, fuel with
  | [], _ | _, 0 => Ok words
  | ch :: _, S k =>
      if bool_decide (ch = 35%N) then Ok words
      else
        let? parsed := parse_ps_word chars in
        let '(word, next, is_bare) := parsed in
        if match next with
           | after :: _ => negb (is_whitespace after) && negb (bool_decide (after = 35%N))
           | [] => false
           end
        then Err ($"adjacent/concatenated command elements")
        else if is_empty word then Err ($"empty word")
        else
          let? _ := if is_bare then reject_unsupported_bare_word word else Ok () in
          lower_words k (words ++ [word]) next
  end.

(** Every word takes a character. *)
Definition lower_command_text (command_text : str) : result (list str) str :=
  let chars := trim command_text in
  let? words := lower_words (length chars) [] chars in
  if is_empty words then Err ($"command lowered to no words") else Ok words.

(** ** Scripts *)

Context (parse_powershell : str -> option Tree).

Definition lower_command_node (script : str) (node : Node) : result (list str) str :=
  let? text := ok_or (source_text script node) ($"command source is not UTF-8") in
  lower_command_text text.

Definition lower_with_tree_sitter (script : str) : result (list (list str)) str :=
  if existsb is_syntax_alias script then Err ($"PowerShell Unicode syntax alias")
  else
    let? tree := ok_or (parse_powershell (masked_source script)) ($"tree-sitter returned no tree") in
    let root := root_node tree in
    if has_error tree then Err ($"tree contains ERROR or missing nodes")
    else if has_requires_directive root script
    then Err ($"requires directives can execute before command lowering")
    else
      match first_unrecognized_named_kind root with
      | Some kind => Err ($"unrecognized named node: " ++ kind)
      | None =>
          let command_nodes := collect_command_nodes root in
          if is_empty command_nodes then Err ($"no literal command nodes")
          else
            let? commands := collect_results (lower_command_node script) command_nodes in
            if negb (source_is_covered_by_commands script
                       (map (fun node => (start_byte node, end_byte node)) command_nodes))
            then Err ($"source outside literal command nodes")
            else if existsb (fun command =>
                      match command with
                      | word :: _ => eq_ignore_ascii_case word ($"using")
                      | [] => false
                      end) commands
            then Err ($"using declarations require the PowerShell AST oracle")
            else if existsb (fun command => is_empty command || existsb is_empty command) commands
            then Err ($"empty lowered command or word")
            else Ok commands
      end.

Definition try_parse_powershell_commands (script : str) : option (list (list str)) :=
  res_ok (lower_with_tree_sitter script).

(** Of a wrapper, and of a script (powershell.rs). *)
Definition parse_powershell_command_into_plain_commands (command : list str)
  : option (list (list str)) :=
  wrapped ← extract_powershell_command command; try_parse_powershell_commands (snd wrapped).

Definition parse_powershell_script_into_plain_commands (script : str) : option (list (list str)) :=
  try_parse_powershell_commands script.

End lowering.
