(* ===== verification/DangerousCommand.v ===== *)
(** * Dangerous commands (shell-command/src/command_safety/is_dangerous_command.rs,
    windows_dangerous_commands.rs)

    The heuristics that flag a command no policy rule matches.  The bash
    parser, [shlex::split], the scheme of a URL as [Url::parse] reads it and
    the capture of the regular expression in [looks_like_url] are arguments. *)

From S2P Require Import Prelude RustStr ShellTree.

Inductive DangerousCommandPlatform : Type := OnPosix | OnWindows.

#[export] Instance DangerousCommandPlatform_eq_dec : EqDecision DangerousCommandPlatform.
Proof. solve_decision. Defined.

Inductive DangerousCommandMatch : Type := ForcedRm | Other.

#[export] Instance DangerousCommandMatch_eq_dec : EqDecision DangerousCommandMatch.
Proof. solve_decision. Defined.

Definition MAX_DANGEROUS_COMMAND_WRAPPER_DEPTH : nat := 8.

(** ** Executable names *)

Definition is_ascii_letter (c : char) : bool :=
  let c := char_to_ascii_lowercase c in ((97 <=? c) && (c <=? 122))%N.

(** [rsplit(pred).next()], when not empty. *)
Definition last_segment (p : char -> bool) (raw : str) : option str :=
  match last (split_pred p raw) with
  | Some name => if is_empty name then None else Some name
  | None => None
  end.

Definition is_slash (c : char) : bool := bool_decide (c = 47%N).
Definition is_path_separator (c : char) : bool := is_slash c || bool_decide (c = 92%N).

Definition without_drive_letter (name : str) : str :=
  match name with
  | drive :: colon :: rest =>
      if bool_decide (colon = 58%N) && is_ascii_letter drive then rest else name
  | _ => name
  end.

Definition EXECUTABLE_SUFFIXES : list str := [$".exe"; $".cmd"; $".bat"; $".com"].

Definition executable_name_lookup_key (raw : str) (platform : DangerousCommandPlatform)
  : option str :=
  match platform with
  | OnPosix => last_segment is_slash raw
  | OnWindows =>
      name ← last_segment is_path_separator raw;
      let name := to_ascii_lowercase (without_drive_letter name) in
      match find_map (fun suffix => strip_suffix suffix name) EXECUTABLE_SUFFIXES with
      | Some stripped => Some stripped
      | None => if is_empty name then None else Some name
      end
  end.

Definition executable_basename (exe : str) : option str :=
  name ← last_segment is_path_separator exe;
  let name := without_drive_letter name in
  if is_empty name then None else Some (to_ascii_lowercase name).

(** ** Windows *)

Section windows.
Context (shlex_split : str -> option (list str)).
Context (url_capture : str -> option str) (url_scheme : str -> option str).

Definition looks_like_url (token : str) : bool :=
  let lowercase_token := to_ascii_lowercase token in
  let start :=
    match find_str ($"https://") lowercase_token with
    | Some idx => Some idx
    | None => find_str ($"http://") lowercase_token
    end in
  let urlish := match start with Some idx => drop idx token | None => token end in
  match url_scheme (default urlish (url_capture urlish)) with
  | Some scheme => one_of scheme [$"http"; $"https"]
  | None => false
  end.

Definition args_have_url (args : list str) : bool := existsb looks_like_url args.

Definition is_powershell_executable (exe : str) : bool :=
  match executable_basename exe with
  | Some base => one_of base [$"powershell"; $"powershell.exe"; $"pwsh"; $"pwsh.exe"]
  | None => false
  end.

Definition is_browser_executable (name : str) : bool :=
  one_of name [$"chrome"; $"chrome.exe"; $"msedge"; $"msedge.exe"; $"firefox"; $"firefox.exe";
               $"iexplore"; $"iexplore.exe"].

(** *** Forced deletions of PowerShell *)

Definition DELETE_CMDLETS : list str :=
  [$"remove-item"; $"ri"; $"rm"; $"del"; $"erase"; $"rd"; $"rmdir"].

Definition SEG_SEPS : list char := $";|&" ++ [LF; CR; 9%N].
Definition SOFT_SEPS : list char := $"{}()[],;".

Definition push_trimmed (segments : list (list str)) (cur : str) : list (list str) :=
  let s := trim cur in
  if is_empty s then segments else update_last (fun segment => segment ++ [s]) segments.

Definition segment_char (st : list (list str) * str) (ch : char) : list (list str) * str :=
  let '(segments, cur) := st in
  if char_in SEG_SEPS ch then
    let segments := push_trimmed segments cur in
    ((if last_is (fun segment => negb (is_empty segment)) segments then segments ++ [[]]
      else segments), [])
  else (segments, cur ++ [ch]).

Definition segment_token (segments : list (list str)) (tok : str) : list (list str) :=
  let '(segments, cur) := fold_left segment_char tok (segments, []) in
  push_trimmed segments cur.

Definition atoms (segment : list str) : list str :=
  List.filter (fun s => negb (is_empty s))
    (map trim (flat_map (split_pred (char_in SOFT_SEPS)) segment)).

Definition is_delete_atom (a : str) : bool := existsb (eq_ignore_ascii_case a) DELETE_CMDLETS.

Definition is_force_atom (a : str) : bool :=
  eq_ignore_ascii_case a ($"-force") || eq_ignore_ascii_case (take 7 a) ($"-force:").

Definition has_force_delete_cmdlet (tokens : list str) : bool :=
  existsb (fun segment => existsb is_delete_atom (atoms segment)
                          && existsb is_force_atom (atoms segment))
    (fold_left segment_token tokens [[]]).

(** *** PowerShell *)

Definition is_dangerous_powershell_words (words : list str) : bool :=
  let tokens_lc :=
    map (fun t => to_ascii_lowercase (trim_matches DQUOTE (trim_matches QUOTE t))) words in
  let has_url := args_have_url words in
  has_url
  && existsb (fun t =>
       one_of t [$"start-process"; $"start"; $"saps"; $"invoke-item"; $"ii"]
       || contains_str ($"start-process") t || contains_str ($"invoke-item") t) tokens_lc
  || has_url
     && existsb (fun t => contains_str ($"shellexecute") t || contains_str ($"shell.application") t)
          tokens_lc
  || match tokens_lc with
     | first :: _ =>
         bool_decide (first = $"rundll32")
         && existsb (contains_str ($"url.dll,fileprotocolhandler")) tokens_lc && has_url
         || bool_decide (first = $"mshta") && has_url
         || is_browser_executable first && has_url
         || one_of first [$"explorer"; $"explorer.exe"] && has_url
     | [] => false
     end
  || has_force_delete_cmdlet tokens_lc.

(** The tokens of a PowerShell invocation. *)
Fixpoint parse_powershell_invocation (args : list str) : option (list str) :=
  match args with
  | [] => None
  | arg :: rest =>
      let lower := to_ascii_lowercase arg in
      if one_of lower [$"-command"; $"/command"; $"-c"] then
        match rest with [script] => shlex_split script | _ => None end
      else if starts_with lower ($"-command:") || starts_with lower ($"/command:") then
        match rest, split_once 58%N arg with
        | [], Some (_, script) => shlex_split script
        | _, _ => None
        end
      else if starts_with lower ($"-") then parse_powershell_invocation rest
      else Some args
  end.

Definition is_dangerous_powershell (command : list str) : bool :=
  match command with
  | [] => false
  | exe :: rest =>
      is_powershell_executable exe
      && match parse_powershell_invocation rest with
         | Some tokens => is_dangerous_powershell_words tokens
         | None => false
         end
  end.

(** *** cmd.exe *)

Definition non_empty_part (s : str) : list str := if is_empty s then [] else [s].

Fixpoint embedded_operators (cur token : str) : list str :=
  match token with
  | [] => non_empty_part cur
  | ch :: rest =>
      if char_in ($"&|") ch then
        non_empty_part cur
        ++ match rest with
           | next :: rest' =>
               if bool_decide (next = ch) then [ch; next] :: embedded_operators [] rest'
               else [ch] :: embedded_operators [] rest
           | [] => [[ch]]
           end
      else embedded_operators (cur ++ [ch]) rest
  end.

Definition split_embedded_cmd_operators (token : str) : list str :=
  List.filter (fun s => negb (is_empty (trim s))) (embedded_operators [] token).

Definition has_force_flag_cmd (args : list str) : bool :=
  existsb (fun a => eq_ignore_ascii_case a ($"/f")) args.
Definition has_recursive_flag_cmd (args : list str) : bool :=
  existsb (fun a => eq_ignore_ascii_case a ($"/s")) args.
Definition has_quiet_flag_cmd (args : list str) : bool :=
  existsb (fun a => eq_ignore_ascii_case a ($"/q")) args.

Definition dangerous_segment (segment : list str) : bool :=
  match segment with
  | [] => false
  | cmd :: _ =>
      eq_ignore_ascii_case cmd ($"start") && args_have_url segment
      || (eq_ignore_ascii_case cmd ($"del") || eq_ignore_ascii_case cmd ($"erase"))
         && has_force_flag_cmd segment
      || (eq_ignore_ascii_case cmd ($"rd") || eq_ignore_ascii_case cmd ($"rmdir"))
         && has_recursive_flag_cmd segment && has_quiet_flag_cmd segment
  end.

(** The arguments after [/c]. *)
Fixpoint cmd_body (rest : list str) : option (list str) :=
  match rest with
  | [] => Some []
  | arg :: rest' =>
      let lower := to_ascii_lowercase arg in
      if one_of lower [$"/c"; $"/r"; $"-c"] then Some rest'
      else if starts_with lower ($"/") then cmd_body rest'
      else None
  end.

Definition CMD_SEPARATORS : list str := [$"&"; $"&&"; $"|"; $"||"].

Definition is_dangerous_cmd (command : list str) : bool :=
  match command with
  | [] => false
  | exe :: rest =>
      match executable_basename exe with
      | None => false
      | Some base =>
          if negb (one_of base [$"cmd"; $"cmd.exe"]) then false
          else
            match cmd_body rest with
            | None | Some [] => false
            | Some remaining =>
                let cmd_tokens :=
                  match remaining with
                  | [only] => default [only] (shlex_split only)
                  | _ => remaining
                  end in
                let tokens := flat_map split_embedded_cmd_operators cmd_tokens in
                existsb dangerous_segment (split_pred (fun t => one_of t CMD_SEPARATORS) tokens)
            end
      end
  end.

(** *** Launching a GUI *)

Definition is_direct_gui_launch (command : list str) : bool :=
  match command with
  | [] => false
  | exe :: rest =>
      match executable_basename exe with
      | None => false
      | Some base =>
          one_of base [$"explorer"; $"explorer.exe"] && args_have_url rest
          || one_of base [$"mshta"; $"mshta.exe"] && args_have_url rest
          || one_of base [$"rundll32"; $"rundll32.exe"]
             && existsb (fun t => contains_str ($"url.dll,fileprotocolhandler") (to_ascii_lowercase t))
                  rest
             && args_have_url rest
          || is_browser_executable base && args_have_url rest
      end
  end.

Definition is_dangerous_command_windows (command : list str) : bool :=
  is_dangerous_powershell command || is_dangerous_cmd command || is_direct_gui_launch command.

(** ** Wrappers *)

(** The options of [rm] before [--]. *)
Fixpoint options_of (args : list str) : list str :=
  match args with
  | [] => []
  | arg :: args' => if bool_decide (arg = $"--") then [] else arg :: options_of args'
  end.

Definition is_force_option (arg : str) : bool :=
  bool_decide (arg = $"--force")
  || match strip_prefix ($"-") arg with
     | Some flags => negb (starts_with flags ($"-")) && contains_char 102%N flags
     | None => false
     end.

Definition rm_args_include_force_option (args : list str) : bool :=
  existsb is_force_option (options_of args).

Definition is_env_argument (argument : str) : bool :=
  one_of argument [$"-i"; $"--ignore-environment"]
  || match split_once 61%N argument with
     | Some (name, _) => negb (is_empty name) && negb (starts_with name ($"-"))
     | None => false
     end.

(** The command [env] runs, of its arguments. *)
Fixpoint env_command (args : list str) : list str :=
  match args with
  | [] => []
  | argument :: args' =>
      if bool_decide (argument = $"--") then args'
      else if is_env_argument argument then env_command args'
      else args
  end.

(** The action of [trap], of its arguments. *)
Definition trap_action (args : list str) : option str :=
  let args := match args with
              | argument :: args' => if bool_decide (argument = $"--") then args' else args
              | [] => []
              end in
  match args with
  | action :: _ => if starts_with action ($"-") then None else Some action
  | [] => None
  end.

Context (try_parse_shell : str -> option Tree).

(** [deeper] is the classification one wrapper down. *)
Definition dangerous_command_match_for_exec (deeper : list str -> option DangerousCommandMatch)
    (command : list str) (platform : DangerousCommandPlatform) : option DangerousCommandMatch :=
  match command with
  | [] => None
  | cmd0 :: args =>
      match executable_name_lookup_key cmd0 platform with
      | None => None
      | Some name =>
          if bool_decide (name = $"rm")
          then if rm_args_include_force_option args then Some ForcedRm else None
          else if bool_decide (name = $"sudo") then deeper args
          else if bool_decide (name = $"env") then deeper (env_command args)
          else if bool_decide (name = $"trap") then
            match trap_action args with
            | Some action => deeper [$"sh"; $"-c"; action]
            | None => None
            end
          else None
      end
  end.

(** [dangerous_command_match_with_depth]; [remaining] counts the wrappers that
    may still be opened, so [wrapper_depth] is
    [S MAX_DANGEROUS_COMMAND_WRAPPER_DEPTH - remaining]. *)
Fixpoint dangerous_command_match_with_depth (remaining : nat) (command : list str)
    (platform : DangerousCommandPlatform) : option DangerousCommandMatch :=
  match remaining with
  | 0 => Some Other
  | S r =>
      let deeper := fun command => dangerous_command_match_with_depth r command platform in
      match dangerous_command_match_for_exec deeper command platform with
      | Some m => Some m
      | None =>
          let scripted :=
            commands ← parse_shell_lc_literal_commands try_parse_shell command;
            find_map deeper commands in
          match scripted with
          | Some m => Some m
          | None =>
              if bool_decide (platform = OnWindows) && is_dangerous_command_windows command
              then Some Other else None
          end
      end
  end.

Definition dangerous_command_match_for_platform (command : list str)
    (platform : DangerousCommandPlatform) : option DangerousCommandMatch :=
  dangerous_command_match_with_depth (S MAX_DANGEROUS_COMMAND_WRAPPER_DEPTH) command platform.

Definition dangerous_powershell_words_match (command : list str)
    (platform : DangerousCommandPlatform) : option DangerousCommandMatch :=
  match platform with
  | OnWindows => if is_dangerous_powershell_words command then Some Other else None
  | OnPosix => None
  end.

End windows.

(** ** The last segment of a text *)

Lemma split_pred_free (p : char -> bool) s : (forall c, In c s -> p c = false) -> split_pred p s = [s].
Proof.
  induction s as [|c s IH]; intros Hs; [done|]. simpl. rewrite (Hs c) by by left.
  rewrite IH; [done|]. intros x Hx. apply Hs. by right.
Qed.

Lemma split_pred_ne {A} (p : A -> bool) s : split_pred p s <> [].
Proof. induction s as [|d s IH]; simpl; [done|]. destruct (p d); [done|]. by destruct (split_pred p s). Qed.

Lemma split_pred_sep (p : char -> bool) a c b : p c = true ->
  split_pred p (a ++ c :: b) = split_pred p a ++ split_pred p b.
Proof.
  intros Hc. induction a as [|d a IH]; simpl; [by rewrite Hc|]. rewrite IH. destruct (p d); [done|].
  pose proof (split_pred_ne p a). by destruct (split_pred p a).
Qed.

Lemma last_separator (p : char -> bool) s :
  (forall c, In c s -> p c = false)
  \/ exists a c b, s = a ++ c :: b /\ p c = true /\ forall x, In x b -> p x = false.
Proof.
  induction s as [|d s [Hs|(a & c & b & -> & Hc & Hb)]]; [by left| |right; by exists (d :: a), c, b].
  destruct (p d) eqn:Ed; [right; by exists [], d, s|left]. by intros x [<-|Hx]; [|apply Hs].
Qed.

Lemma last_segment_iff (p : char -> bool) raw name :
  last_segment p raw = Some name
  <-> name <> [] /\ (forall c, In c name -> p c = false)
      /\ (raw = name \/ exists dir c, raw = dir ++ c :: name /\ p c = true).
Proof.
  assert (Hsep : forall a c b, p c = true -> (forall x, In x b -> p x = false) ->
            last_segment p (a ++ c :: b) = if is_empty b then None else Some b).
  { intros a c b Hc Hb. unfold last_segment. by rewrite split_pred_sep, (split_pred_free p b), last_snoc by done. }
  assert (Hfree : (forall x, In x raw -> p x = false) -> last_segment p raw = if is_empty raw then None else Some raw).
  { intros Hr. unfold last_segment. by rewrite split_pred_free. }
  split.
  - destruct (last_separator p raw) as [Hr|(a & c & b & -> & Hc & Hb)].
    + rewrite Hfree by done. destruct (is_empty raw) eqn:E; [done|]. intros [= <-]. apply is_empty_false in E. by auto.
    + rewrite Hsep by done. destruct (is_empty b) eqn:E; [done|]. intros [= <-]. apply is_empty_false in E.
      split; [done|]. split; [done|]. right. by exists a, c.
  - intros (Hne & Hno & [->|(dir & c & -> & Hc)]); [rewrite Hfree by done|rewrite Hsep by done];
      by rewrite (proj2 (is_empty_false name) Hne).
Qed.

(** * What the danger heuristics flag

    On POSIX a command is flagged exactly when, opening its wrappers ([sudo],
    [env], [trap], a shell with a script) some number of times, one finds an
    [rm] with the force option, or more wrappers than the code is willing to
    open: hiding a command under more of them never helps. *)

Section spec.
Context (shlex_split : str -> option (list str)).
Context (url_capture : str -> option str) (url_scheme : str -> option str).
Context (try_parse_shell : str -> option Tree).
Abbreviation with_depth :=
  (dangerous_command_match_with_depth shlex_split url_capture url_scheme try_parse_shell).
Abbreviation matches :=
  (dangerous_command_match_for_platform shlex_split url_capture url_scheme try_parse_shell).
Implicit Types (command : list str) (platform : DangerousCommandPlatform).

(** [command] runs [inner], one wrapper down. *)
Inductive unwraps platform : list str -> list str -> Prop :=
| unwraps_sudo cmd0 args : executable_name_lookup_key cmd0 platform = Some ($"sudo") ->
    unwraps platform (cmd0 :: args) args
| unwraps_env cmd0 args : executable_name_lookup_key cmd0 platform = Some ($"env") ->
    unwraps platform (cmd0 :: args) (env_command args)
| unwraps_trap cmd0 args action : executable_name_lookup_key cmd0 platform = Some ($"trap") ->
    trap_action args = Some action -> unwraps platform (cmd0 :: args) [$"sh"; $"-c"; action]
| unwraps_script command commands inner :
    parse_shell_lc_literal_commands try_parse_shell command = Some commands ->
    In inner commands -> unwraps platform command inner.

Definition forced_rm platform command : Prop :=
  exists cmd0 args, command = cmd0 :: args
    /\ executable_name_lookup_key cmd0 platform = Some ($"rm")
    /\ rm_args_include_force_option args = true.

(** What [dangerous_command_match_for_exec] asks of the level below. *)
Lemma exec_Some deeper command platform m :
  dangerous_command_match_for_exec deeper command platform = Some m ->
  (forced_rm platform command /\ m = ForcedRm)
  \/ exists inner, unwraps platform command inner /\ deeper inner = Some m.
Proof.
  unfold dangerous_command_match_for_exec. destruct command as [|cmd0 args]; [done|].
  destruct (executable_name_lookup_key cmd0 platform) as [name|] eqn:E; [|done].
  repeat case_bool_decide; subst; try done.
  - destruct (rm_args_include_force_option args) eqn:Er; [|done]. intros [= <-]. left.
    split; [by exists cmd0, args|done].
  - intros Hd. right. exists args. split; [by constructor|done].
  - intros Hd. right. exists (env_command args). split; [by constructor|done].
  - destruct (trap_action args) as [action|] eqn:Et; [|done]. intros Hd. right.
    exists [$"sh"; $"-c"; action]. split; [by econstructor|done].
Qed.

Lemma exec_forced_rm deeper command platform :
  forced_rm platform command ->
  dangerous_command_match_for_exec deeper command platform = Some ForcedRm.
Proof.
  intros (cmd0 & args & -> & Hk & Hf). unfold dangerous_command_match_for_exec.
  by rewrite Hk, bool_decide_eq_true_2, Hf.
Qed.

Lemma exec_unwraps deeper command platform inner :
  (exists cmd0 args, command = cmd0 :: args
    /\ (executable_name_lookup_key cmd0 platform = Some ($"sudo") /\ inner = args
        \/ executable_name_lookup_key cmd0 platform = Some ($"env") /\ inner = env_command args
        \/ executable_name_lookup_key cmd0 platform = Some ($"trap")
           /\ exists action, trap_action args = Some action /\ inner = [$"sh"; $"-c"; action])) ->
  dangerous_command_match_for_exec deeper command platform = deeper inner.
Proof.
  intros (cmd0 & args & -> & H). unfold dangerous_command_match_for_exec.
  destruct H as [[Hk ->]|[[Hk ->]|(Hk & action & Ht & ->)]]; rewrite Hk; [done..|].
  by rewrite Ht.
Qed.

Lemma with_depth_Some r command m :
  with_depth (S r) command OnPosix = Some m ->
  (forced_rm OnPosix command /\ m = ForcedRm)
  \/ exists inner, unwraps OnPosix command inner /\ with_depth r inner OnPosix = Some m.
Proof.
  simpl. destruct (dangerous_command_match_for_exec _ command OnPosix) as [k|] eqn:E.
  { intros [= <-]. by apply exec_Some in E. }
  destruct (parse_shell_lc_literal_commands try_parse_shell command) as [cs|] eqn:Ep; simpl; [|done].
  destruct (find_map _ cs) as [k|] eqn:Ef; [|done]. intros [= <-].
  apply find_map_Some in Ef as (inner & Hi & Hd). right. exists inner.
  split; [by eapply unwraps_script|done].
Qed.

Lemma with_depth_unwraps r command inner :
  unwraps OnPosix command inner -> with_depth r inner OnPosix <> None ->
  with_depth (S r) command OnPosix <> None.
Proof.
  intros Hu Hd. simpl.
  destruct (dangerous_command_match_for_exec _ command OnPosix) as [k|] eqn:E; [done|].
  destruct Hu as [cmd0 args Hk|cmd0 args Hk|cmd0 args action Hk Ht|command commands inner Hp Hi].
  - rewrite (exec_unwraps _ _ _ args) in E; [done|]. exists cmd0, args. split; [done|by left].
  - rewrite (exec_unwraps _ _ _ (env_command args)) in E; [done|]. exists cmd0, args.
    split; [done|by right; left].
  - rewrite (exec_unwraps _ _ _ [$"sh"; $"-c"; action]) in E; [done|]. exists cmd0, args.
    split; [done|]. right. right. split; [done|]. by exists action.
  - rewrite Hp. simpl. destruct (find_map _ commands) eqn:Ef; [done|].
    by rewrite (proj1 (find_map_None _ _) Ef inner Hi) in Hd.
Qed.

(** [r] wrappers can be opened, or a forced [rm] is found before. *)
Lemma with_depth_posix r command :
  with_depth r command OnPosix <> None <->
  (exists n c, n < r /\ nsteps (unwraps OnPosix) n command c /\ forced_rm OnPosix c)
  \/ exists c, nsteps (unwraps OnPosix) r command c.
Proof.
  revert command. induction r as [|r IH]; intros command.
  { split; [|done]. intros _. right. exists command. constructor. }
  split.
  - destruct (with_depth (S r) command OnPosix) as [m|] eqn:E; [intros _|done].
    apply with_depth_Some in E as [[Hrm _]|(inner & Hu & Hd)].
    + left. exists 0, command. split_and!; [lia|constructor|done].
    + assert (Hd' : with_depth r inner OnPosix <> None) by congruence.
      apply IH in Hd' as [(n & c & Hn & Hs & Hrm)|(c & Hs)].
      * left. exists (S n), c. split_and!; [lia|by econstructor|done].
      * right. exists c. by econstructor.
  - intros [(n & c & Hn & Hs & Hrm)|(c & Hs)].
    + inversion Hs as [|k ? y ? Hu Hs']; subst.
      * simpl. by rewrite exec_forced_rm.
      * apply (with_depth_unwraps _ _ _ Hu), IH. left. exists k, c. split_and!; [lia|done|done].
    + inversion Hs as [|k ? y ? Hu Hs']; subst.
      apply (with_depth_unwraps _ _ _ Hu), IH. right. by exists c.
Qed.

Lemma nsteps_prefix {A} (R : relation A) n k x y :
  nsteps R (n + k) x y -> exists z, nsteps R n x z.
Proof.
  revert x. induction n as [|n IH]; intros x H; [exists x; constructor|].
  inversion H as [|? ? z ? Hxz Hz]; subst. destruct (IH z Hz) as [w Hw]. exists w. by econstructor.
Qed.

Lemma matches_posix command :
  matches command OnPosix <> None <->
  (exists c, rtc (unwraps OnPosix) command c /\ forced_rm OnPosix c)
  \/ exists c, nsteps (unwraps OnPosix) (S MAX_DANGEROUS_COMMAND_WRAPPER_DEPTH) command c.
Proof.
  unfold dangerous_command_match_for_platform.
  set (top := S MAX_DANGEROUS_COMMAND_WRAPPER_DEPTH). rewrite with_depth_posix. split.
  - intros [(n & c & _ & Hs & Hrm)|Hs]; [left|by right]. exists c. split; [|done].
    by eapply rtc_nsteps_2.
  - intros [(c & Hs & Hrm)|Hs]; [|by right]. apply rtc_nsteps_1 in Hs as [n Hs].
    destruct (decide (n < top)) as [Hn|Hn]; [left; by exists n, c|right].
    replace n with (top + (n - top)) in Hs by lia. by apply nsteps_prefix in Hs.
Qed.

Lemma matches_wrapped outer command :
  rtc (unwraps OnPosix) outer command -> matches command OnPosix <> None ->
  matches outer OnPosix <> None.
Proof.
  rewrite !matches_posix. intros Ho [(c & Hs & Hrm)|(c & Hs)].
  - left. exists c. split; [by etransitivity|done].
  - right. apply rtc_nsteps_1 in Ho as [n Ho].
    eapply (nsteps_prefix _ _ n). rewrite Nat.add_comm. by eapply nsteps_trans.
Qed.

Lemma with_depth_forced r command :
  with_depth r command OnPosix = Some ForcedRm ->
  exists c, rtc (unwraps OnPosix) command c /\ forced_rm OnPosix c.
Proof.
  revert command. induction r as [|r IH]; intros command; [done|]. intros Hm.
  apply with_depth_Some in Hm as [[Hrm _]|(inner & Hu & Hd)]; [by exists command|].
  destruct (IH inner Hd) as (c & Hs & Hrm). exists c. split; [by econstructor|done].
Qed.

(** *** The notion itself *)

(** [cmd0] names the program, alone or at the end of a path. *)
Definition names_program (cmd0 name : str) : Prop := cmd0 = name \/ exists dir, cmd0 = dir ++ 47%N :: name.

(** The long option, or one of a bundle of short ones. *)
Definition forces (option : str) : Prop :=
  option = $"--force" \/ exists flags, option = 45%N :: flags /\ In 102%N flags /\ head flags <> Some 45%N.

(** [rm] with an option that forces, before any [--]. *)
Definition rm_forced (command : list str) : Prop :=
  exists cmd0 before option after, command = cmd0 :: before ++ option :: after
    /\ names_program cmd0 ($"rm") /\ ~ In ($"--") before /\ forces option.

Definition env_setting (argument : str) : Prop :=
  argument = $"-i" \/ argument = $"--ignore-environment"
  \/ exists name value, argument = name ++ 61%N :: value /\ name <> [] /\ head name <> Some 45%N /\ ~ In 61%N name.

(** The command [env] runs: what follows its settings, or a [--] after them. *)
Definition env_runs (args inner : list str) : Prop :=
  exists settings rest, args = settings ++ rest /\ Forall env_setting settings
    /\ (rest = $"--" :: inner
        \/ rest = inner /\ match inner with [] => True | a :: _ => a <> $"--" /\ ~ env_setting a end).

Definition trap_runs (args : list str) (action : str) : Prop :=
  head action <> Some 45%N /\ exists rest, args = $"--" :: action :: rest \/ args = action :: rest.

(** A command runs another: through [sudo], [env] or [trap], or in a shell script. *)
Inductive runs : list str -> list str -> Prop :=
| runs_sudo cmd0 args : names_program cmd0 ($"sudo") -> runs (cmd0 :: args) args
| runs_env cmd0 args inner : names_program cmd0 ($"env") -> env_runs args inner -> runs (cmd0 :: args) inner
| runs_trap cmd0 args action : names_program cmd0 ($"trap") -> trap_runs args action ->
    runs (cmd0 :: args) [$"sh"; $"-c"; action]
| runs_script command commands inner :
    parse_shell_lc_literal_commands try_parse_shell command = Some commands ->
    In inner commands -> runs command inner.

(** A text starts with a dash. *)
Lemma dash_iff (a : str) : starts_with a ($"-") = true <-> head a = Some 45%N.
Proof.
  destruct a as [|c a]; [done|].
  change (starts_with (c :: a) ($"-")) with (match (if bool_decide (45%N = c) then Some a else None) with Some _ => true | None => false end).
  case_bool_decide; simpl; naive_solver.
Qed.

Lemma dash_false (a : str) : starts_with a ($"-") = false <-> head a <> Some 45%N.
Proof. rewrite <- dash_iff. by destruct (starts_with a ($"-")). Qed.

Lemma program_iff cmd0 name : name <> [] -> ~ In 47%N name ->
  executable_name_lookup_key cmd0 OnPosix = Some name <-> names_program cmd0 name.
Proof.
  intros Hne Hno. cbn [executable_name_lookup_key]. rewrite last_segment_iff. unfold names_program, is_slash. split.
  - intros (_ & _ & [?|(dir & c & -> & ->%bool_decide_eq_true)]); [by left|right; by exists dir].
  - intros H. split; [done|]. split; [intros c Hc; apply bool_decide_false; by intros ->|].
    destruct H as [?|[dir ->]]; [by left|right]. by exists dir, 47%N.
Qed.

Lemma forces_iff option : is_force_option option = true <-> forces option.
Proof.
  unfold is_force_option, forces. rewrite orb_true_iff, bool_decide_eq_true. apply or_iff_compat_l.
  destruct option as [|c flags]; [split; [done|by intros (? & [=] & _)]|]. cbn [strip_prefix lit].
  change (strip_prefix ($"-") (c :: flags)) with (if bool_decide (45%N = c) then Some flags else None).
  case_bool_decide as E; [subst c|split; [done|by intros (? & [= -> _] & _)]].
  rewrite andb_true_iff, negb_true_iff, contains_char_true, dash_false. split; [intros [Hh Hf]; by exists flags|].
  by intros (fs & [= <-] & Hf & Hh).
Qed.

Lemma options_of_In args option : In option (options_of args) <->
  exists before after, args = before ++ option :: after /\ ~ In ($"--") (before ++ [option]).
Proof.
  induction args as [|arg args IH]; simpl; [split; [done|by intros ([|? ?] & ? & [=] & _)]|].
  case_bool_decide as E.
  - subst arg. split; [done|]. intros ([|b before] & after & [= <- Ea] & Hno); apply Hno; by left.
  - simpl. rewrite IH. split.
    + intros [<-|(before & after & -> & Hno)]; [exists [], args; split; [done|]; by intros [->|[]]|].
      exists (arg :: before), after. split; [done|]. by intros [->|?].
    + intros ([|b before] & after & [= <- Ea] & Hno); [by left|right]. exists before, after. split; [done|].
      intros ?. apply Hno. by right.
Qed.

Lemma rm_forced_iff command : rm_forced command <-> forced_rm OnPosix command.
Proof.
  unfold forced_rm, rm_args_include_force_option. split.
  - intros (cmd0 & before & option & after & -> & Hp & Hno & Hf). exists cmd0, (before ++ option :: after).
    split; [done|]. split; [by apply program_iff; [|vm_compute; naive_solver|]|].
    apply existsb_exists. exists option. split; [|by apply forces_iff]. apply options_of_In. exists before, after.
    split; [done|]. intros [?|[->|[]]]%in_app_iff; [done|].
    destruct Hf as [[=]|(flags & [= <-] & _ & Hh)]. by apply Hh.
  - intros (cmd0 & args & -> & Hp & (option & (before & after & -> & Hno)%options_of_In & Hf%forces_iff)%existsb_exists).
    exists cmd0, before, option, after. split; [done|]. split; [by apply program_iff in Hp; [|done|vm_compute; naive_solver]|].
    split; [|done]. intros ?. apply Hno, in_app_iff. by left.
Qed.

Lemma env_setting_iff argument : is_env_argument argument = true <-> env_setting argument.
Proof.
  unfold is_env_argument, env_setting, one_of. cbn [existsb]. rewrite !orb_true_iff, !bool_decide_eq_true.
  assert (Hs : match split_once 61 argument with
               | Some (name, _) => negb (is_empty name) && negb (starts_with name ($"-")) | None => false end = true
    <-> exists name value, argument = name ++ 61%N :: value /\ name <> [] /\ head name <> Some 45%N /\ ~ In 61%N name).
  { assert (Hh : forall name, negb (is_empty name) && negb (starts_with name ($"-")) = true
              <-> name <> [] /\ head name <> Some 45%N).
    { intros name. rewrite andb_true_iff, !negb_true_iff, is_empty_false, dash_false. done. }
    split.
    - destruct (split_once 61 argument) as [[name value]|] eqn:E; [|done]. intros [Hn Hd]%Hh.
      exists name, value. split; [by apply split_once_app|]. split; [done|]. split; [done|]. by eapply split_once_free.
    - intros (name & value & -> & Hn & Hd & Hno). rewrite split_once_plain by done. by apply Hh. }
  rewrite Hs. naive_solver.
Qed.

Lemma env_runs_iff args inner : env_command args = inner <-> env_runs args inner.
Proof.
  unfold env_runs. revert inner. induction args as [|arg args IH]; intros inner.
  { simpl. split.
    - intros <-. exists [], []. split; [done|]. split; [done|]. by right.
    - intros ([|? ?] & [|? ?] & [=] & _ & [?|[? _]]); done. }
  simpl. case_bool_decide as E; [subst arg|].
  { split.
    - intros ->. exists [], ($"--" :: inner). by split_and!; [|constructor|left].
    - intros ([|x settings] & rest & Ea & Hs & Hr); simpl in Ea.
      + subst rest. destruct Hr as [[= ->]|[<- [Hn _]]]; done.
      + injection Ea as <- ->. inversion Hs as [|? ? Hx _]. destruct Hx as [[=]|[[=]|(n & v & En & Hn & Hh & _)]].
        destruct n as [|c n]; [done|]. injection En as <- _. by destruct Hh. }
  destruct (is_env_argument arg) eqn:Ea.
  - apply env_setting_iff in Ea. rewrite IH. split.
    + intros (settings & rest & -> & Hs & Hr). exists (arg :: settings), rest. by split_and!; [|constructor|].
    + intros ([|x settings] & rest & E' & Hs & Hr); simpl in E'.
      * subst rest. destruct Hr as [[= -> _]|[<- [_ Hn]]]; done.
      * injection E' as <- ->. inversion Hs. by exists settings, rest.
  - assert (Hn : ~ env_setting arg) by (rewrite <- env_setting_iff; by rewrite Ea). split.
    + intros <-. exists [], (arg :: args). by split_and!; [|constructor|right].
    + intros ([|x settings] & rest & E' & Hs & Hr); simpl in E'.
      * subst rest. by destruct Hr as [[= ? _]|[? _]].
      * injection E' as <- _. by inversion Hs.
Qed.

Lemma trap_runs_iff args action : trap_action args = Some action <-> trap_runs args action.
Proof.
  unfold trap_action, trap_runs. destruct args as [|x args]; [naive_solver|].
  case_bool_decide as E; [subst x|].
  - destruct args as [|a args].
    + split; [done|]. intros (Hh & rest & [[=]|[= <- _]]). by destruct Hh.
    + destruct (starts_with a ($"-")) eqn:Ea.
      * split; [done|]. intros (Hh & rest & [[= <- _]|[= <- _]]); [by apply dash_iff in Ea|by destruct Hh].
      * split; [intros [= <-]; split; [by apply dash_false|by exists args; left]|].
        intros (Hh & rest & [[= <- _]|[= <- _]]); [done|by destruct Hh].
  - destruct (starts_with x ($"-")) eqn:Ea.
    + split; [done|]. intros (Hh & rest & [[= -> _]|[= <- _]]); [done|by apply dash_iff in Ea].
    + split; [intros [= <-]; split; [by apply dash_false|by exists args; right]|].
      intros (Hh & rest & [[= -> _]|[= <- _]]); done.
Qed.

Lemma runs_iff command inner : runs command inner <-> unwraps OnPosix command inner.
Proof.
  split.
  - intros [cmd0 args Hp|cmd0 args i Hp Hi|cmd0 args action Hp Ht|c cs i Hc Hi].
    + apply unwraps_sudo, program_iff; [done|vm_compute; naive_solver|done].
    + apply env_runs_iff in Hi as <-. apply unwraps_env, program_iff; [done|vm_compute; naive_solver|done].
    + apply unwraps_trap; [apply program_iff; [done|vm_compute; naive_solver|done]|by apply trap_runs_iff].
    + by eapply unwraps_script.
  - intros [cmd0 args Hp|cmd0 args Hp|cmd0 args action Hp Ht|c cs i Hc Hi].
    + apply runs_sudo. by apply program_iff in Hp; [|done|vm_compute; naive_solver].
    + apply runs_env; [by apply program_iff in Hp; [|done|vm_compute; naive_solver]|by apply env_runs_iff].
    + apply runs_trap; [by apply program_iff in Hp; [|done|vm_compute; naive_solver]|by apply trap_runs_iff].
    + by eapply runs_script.
Qed.

Lemma rtc_runs command c : rtc runs command c <-> rtc (unwraps OnPosix) command c.
Proof.
  split; (induction 1 as [|x y z Hxy _ IH]; [done|]; eapply rtc_l; [|exact IH]); by apply runs_iff.
Qed.

Lemma nsteps_runs n command c : nsteps runs n command c <-> nsteps (unwraps OnPosix) n command c.
Proof.
  split; (induction 1 as [|n x y z Hxy _ IH]; [constructor|]; eapply nsteps_l; [|exact IH]); by apply runs_iff.
Qed.

(** C28: On POSIX a command is flagged as dangerous exactly when it runs, through
    any number of wrappers - [sudo]; [env] after its settings; the action of
    [trap]; any command of a shell script, in control flow or substitutions too -
    an [rm] with [--force], or with an f among the letters of an option, before
    any [--]; or when it has more than eight wrappers, whatever they run.
    However many wrappers are put around a dangerous command, it stays flagged;
    and one flagged as a forced [rm] does run one. *)
Theorem dangerous_posix_iff command :
  (matches command OnPosix <> None <->
   (exists c, rtc runs command c /\ rm_forced c) \/ exists c, nsteps runs 9 command c)
  /\ (forall outer, rtc runs outer command -> matches command OnPosix <> None -> matches outer OnPosix <> None)
  /\ (matches command OnPosix = Some ForcedRm -> exists c, rtc runs command c /\ rm_forced c).
Proof.
  setoid_rewrite rtc_runs. setoid_rewrite nsteps_runs. setoid_rewrite rm_forced_iff.
  split_and!; [apply matches_posix|intros outer; apply matches_wrapped|apply with_depth_forced].
Qed.

(** ** Scripts the policy understands *)

(** The heuristics see every command the policy sees.  When a [bash -lc]
    script is plain enough to be matched command by command against the policy,
    then a dangerous command among them makes the whole invocation dangerous
    on POSIX. *)
Theorem plain_danger_seen command tree script inner cmds :
  extract_bash_command command = Some script -> try_parse_shell (snd script) = Some tree ->
  bash_tree (root_node tree) ->
  parse_shell_lc_plain_commands try_parse_shell command = Some cmds -> In inner cmds ->
  matches inner OnPosix <> None -> matches command OnPosix <> None.
Proof.
  intros He Ht Hb Hp Hi Hm.
  unfold parse_shell_lc_plain_commands, parse_shell_script_into_commands in Hp.
  rewrite He in Hp. simpl in Hp. rewrite Ht in Hp. simpl in Hp.
  destruct (plain_commands_literal _ _ Hb Hp) as (l & Hl & Hperm).
  apply (matches_wrapped command inner); [|done]. apply rtc_once. eapply unwraps_script.
  - unfold parse_shell_lc_literal_commands. rewrite He. simpl. rewrite Ht. simpl. exact Hl.
  - by apply (Permutation_in _ (Permutation_sym Hperm)).
Qed.

End spec.

(** ** Instances *)

Definition no_split (_ : str) : option (list str) := None.
Definition no_text (_ : str) : option str := None.

Definition word_node (start : nat) (text : str) : Node :=
  mkNode ($"word") true start (start + length text) (Some text) [].

Definition command_node (start : nat) (name : str) (args : list Node) : Node :=
  mkNode ($"command") true start start None
    (mkNode ($"command_name") true start (start + length name) (Some name) [word_node start name]
     :: args).

(** [ls x && rm -rf x] *)
Definition demo_script : str := $"ls x && rm -rf x".

Definition demo_root : Node :=
  mkNode ($"program") true 0 16 (Some demo_script)
    [mkNode ($"list") true 0 16 (Some demo_script)
       [command_node 0 ($"ls") [word_node 3 ($"x")];
        mkNode ($"&&") false 5 7 (Some ($"&&")) [];
        command_node 8 ($"rm") [word_node 11 ($"-rf"); word_node 15 ($"x")]]].

Definition demo_parse (script : str) : option Tree :=
  if bool_decide (script = demo_script) then Some (mkTree demo_root false) else None.

Definition demo_command : list str := [$"/bin/bash"; $"-lc"; demo_script].

Abbreviation demo_matches :=
  (dangerous_command_match_for_platform no_split no_text no_text demo_parse).

Example demo_commands :
  parse_shell_lc_plain_commands demo_parse demo_command
  = Some [[$"ls"; $"x"]; [$"rm"; $"-rf"; $"x"]].
Proof. reflexivity. Qed.

(** The cases of the repository's tests that need no parser. *)
Example forced_rm_examples :
  map (fun c => demo_matches c OnPosix)
    [[$"rm"; $"-rf"; $"/"]; [$"/bin/rm"; $"-fr"; $"x"]; [$"rm"; $"x"; $"-f"];
     [$"sudo"; $"rm"; $"-rf"; $"x"]; [$"env"; $"TARGET=x"; $"rm"; $"-rf"; $"x"]; demo_command]
  = repeat (Some ForcedRm) 6
  /\ map (fun c => demo_matches c OnPosix)
       [[$"rm"; $"-r"; $"x"]; [$"rm"; $"--"; $"-f"]; [$"env"; $"TARGET=x"; $"rm"; $"-r"; $"x"]]
     = repeat None 3
  /\ demo_matches (repeat ($"env") 8 ++ [$"rm"; $"-rf"; $"x"]) OnPosix = Some ForcedRm
  /\ demo_matches (repeat ($"env") 9 ++ [$"rm"; $"-rf"; $"x"]) OnPosix = Some Other.
Proof. split_and!; vm_compute; reflexivity. Qed.

Example windows_examples :
  map (fun c => demo_matches c OnWindows)
    [[$"cmd"; $"/c"; $"echo hi&del"; $"/f"; $"x"]; [$"cmd.exe"; $"/c"; $"rd"; $"/s"; $"/q"; $"x"];
     [$"pwsh"; $"Remove-Item"; $"x"; $"-Force"]; [$"C:\\bin\\RM.EXE"; $"-f"; $"x"]]
  = [Some Other; Some Other; Some Other; Some ForcedRm].
Proof. vm_compute. reflexivity. Qed.

Lemma demo_bash_tree : bash_tree demo_root.
Proof.
  split; [reflexivity| |]; intros n Hn; simpl in Hn;
    repeat (destruct Hn as [<-|Hn]; [by vm_compute|]); done.
Qed.

Lemma plain_danger_seen_witness : demo_matches demo_command OnPosix <> None.
Proof.
  apply (plain_danger_seen no_split no_text no_text demo_parse demo_command (mkTree demo_root false)
    ($"/bin/bash", demo_script) [$"rm"; $"-rf"; $"x"] [[$"ls"; $"x"]; [$"rm"; $"-rf"; $"x"]]).
  - reflexivity.
  - reflexivity.
  - apply demo_bash_tree.
  - reflexivity.
  - simpl. tauto.
  - vm_compute. discriminate.
Defined.
