(* ===== verification/ExecApproval.v ===== *)
(** * Command approval (core/src/exec_policy.rs, exec_policy/model_policy.rs,
    exec_policy/executable_identity.rs, tools/sandboxing.rs)

    What has to happen before a command runs: the execution policy is asked
    about every command of a script, the heuristics decide about the commands
    no rule matches, and the answer becomes an approval requirement, with the
    rule that could be saved.  [CommandCrates] gathers what the code takes from
    outside the repository: the bash and PowerShell parsers, shlex, the URL and
    regular-expression crates and the process environment.  [native] is the
    convention of the host. *)

From S2P Require Import Prelude RustStr Utf8 PatchTypes StateM ExecutorFs PathUri ApiPath SandboxPolicy AbsolutePath ExecRules ExecPolicy PolicyFiles ExecAmend ShellTree PowerShell DangerousCommand.

(** ** Settings (protocol/src/protocol.rs, models.rs, config_types.rs) *)

Record GranularApprovalConfig : Type := mkGranular {
  sandbox_approval : bool;
  rules_approval : bool;
  skill_approval : bool;
  request_permissions : bool;
  mcp_elicitations : bool;
}.

Inductive AskForApproval : Type :=
| UnlessTrusted
| OnRequest
| Granular (config : GranularApprovalConfig)
| Never.

Inductive SandboxPermissions : Type := UseDefault | RequireEscalated | WithAdditionalPermissions.

#[export] Instance SandboxPermissions_eq_dec : EqDecision SandboxPermissions.
Proof. solve_decision. Defined.

Definition requires_escalated_permissions (p : SandboxPermissions) : bool :=
  bool_decide (p = RequireEscalated).
Definition requests_sandbox_override (p : SandboxPermissions) : bool :=
  negb (bool_decide (p = UseDefault)).

Inductive WindowsSandboxLevel : Type := LevelDisabled | RestrictedToken | Elevated.

#[export] Instance WindowsSandboxLevel_eq_dec : EqDecision WindowsSandboxLevel.
Proof. solve_decision. Defined.

Inductive NetworkSandboxPolicy : Type := NetworkRestricted | NetworkEnabled.

Inductive AllowPrefixRules : Type := Honor | IgnoreForCyberModel.

#[export] Instance AllowPrefixRules_eq_dec : EqDecision AllowPrefixRules.
Proof. solve_decision. Defined.

Inductive ExecPolicyCommandOrigin : Type := Generic | FromPowerShell.

(** [ExecPolicyAmendment] is its command. *)
Abbreviation Amendment := (list str) (only parsing).

Module ExecApprovalRequirement.

Inductive t : Type :=
| Skip (bypass_sandbox : bool) (proposed_execpolicy_amendment : option Amendment)
| NeedsApproval (reason : option str) (proposed_execpolicy_amendment : option Amendment)
| Forbidden (reason : str).

Definition proposed_amendment (r : t) : option Amendment :=
  match r with
  | NeedsApproval _ amendment | Skip _ amendment => amendment
  | Forbidden _ => None
  end.

End ExecApprovalRequirement.

(** ** The crates *)

Class CommandCrates : Type := {
  bash_tree_of : str -> option Tree;
  powershell_tree_of : str -> option Tree;
  debug_char : char -> str;
  shlex_split : str -> option (list str);
  shlex_try_join : list str -> option str;
  url_capture : str -> option str;
  url_scheme : str -> option str;
  home_directory : option str;
  current_dir : result str io_error;
}.

(** ** Texts *)

Definition PROMPT_CONFLICT_REASON : str :=
  $"approval required by policy, but AskForApproval is set to Never".
Definition REJECT_SANDBOX_APPROVAL_REASON : str :=
  $"approval required by policy, but AskForApproval::Granular.sandbox_approval is false".
Definition REJECT_RULES_APPROVAL_REASON : str :=
  $"approval required by policy rule, but AskForApproval::Granular.rules is false".
Definition RULES_DIR_NAME : str := $"rules".
Definition DEFAULT_POLICY_FILE : str := $"default.rules".

Definition interpreter (flags : list (list str)) (name : str) : list (list str) :=
  map (cons name) flags.

(** Prefixes too broad to be suggested: interpreters, shells and wrappers, with
    or without the flag that takes code. *)
Definition BANNED_PREFIX_SUGGESTIONS : list (list str) :=
  interpreter [[]; [$"-c"]; [$"-lc"]] ($"/bin/bash")
  ++ interpreter [[]; [$"-c"]; [$"-lc"]] ($"/bin/sh")
  ++ interpreter [[]; [$"-c"]; [$"-lc"]] ($"/bin/zsh")
  ++ [[$"Rscript"]]
  ++ interpreter [[]; [$"-c"]; [$"-lc"]] ($"bash")
  ++ interpreter [[]; [$"-e"]; [$"run"]] ($"bun")
  ++ interpreter [[]; [$"/c"]; [$"/k"]] ($"cmd")
  ++ interpreter [[]; [$"/c"]; [$"/k"]] ($"cmd.exe")
  ++ interpreter [[]; [$"-c"]] ($"dash")
  ++ interpreter [[]; [$"eval"]] ($"deno")
  ++ [[$"env"]]
  ++ interpreter [[]; [$"-c"]] ($"fish")
  ++ [[$"git"]]
  ++ interpreter [[]; [$"-e"]] ($"julia")
  ++ interpreter [[]; [$"-c"]] ($"ksh")
  ++ interpreter [[]; [$"-e"]] ($"lua")
  ++ interpreter [[]; [$"-e"]] ($"node")
  ++ interpreter [[]; [$"-e"]] ($"nodejs")
  ++ [[$"npm"; $"run"]; [$"osascript"]]
  ++ interpreter [[]; [$"-e"]] ($"perl")
  ++ interpreter [[]; [$"-r"]] ($"php")
  ++ [[$"pnpm"; $"run"]]
  ++ interpreter [[]; [$"-Command"]; [$"-EncodedCommand"]; [$"-File"]; [$"-c"]] ($"powershell")
  ++ interpreter [[]; [$"-Command"]; [$"-EncodedCommand"]; [$"-File"]; [$"-c"]] ($"powershell.exe")
  ++ interpreter [[]; [$"-Command"]; [$"-EncodedCommand"]; [$"-File"]; [$"-c"]; [$"-e"]; [$"-ec"]; [$"-f"]]
       ($"pwsh")
  ++ interpreter [[]; [$"-3"]] ($"py")
  ++ [[$"pypy"]; [$"pypy3"]]
  ++ interpreter [[]; [$"-"]; [$"-c"]] ($"python")
  ++ interpreter [[]; [$"-"]; [$"-c"]] ($"python3")
  ++ [[$"pythonw"]; [$"pyw"]; [$"rm"]]
  ++ interpreter [[]; [$"-e"]] ($"ruby")
  ++ interpreter [[]; [$"-c"]; [$"-lc"]] ($"sh")
  ++ [[$"sudo"]; [$"yarn"; $"run"]]
  ++ interpreter [[]; [$"-c"]; [$"-lc"]] ($"zsh").

Definition is_policy_match (m : RuleMatch) : bool :=
  match m with PrefixRuleMatch _ _ _ _ => true | HeuristicsRuleMatch _ _ => false end.

(** A rule, not a heuristic, that decides [d]. *)
Definition decided_by_rule (d : Decision) (m : RuleMatch) : bool :=
  is_policy_match m && bool_decide (match_decision m = d).

Definition prompt_is_rejected_by_policy (approval_policy : AskForApproval) (prompt_is_rule : bool)
  : option str :=
  match approval_policy with
  | Never => Some PROMPT_CONFLICT_REASON
  | OnRequest | UnlessTrusted => None
  | Granular granular_config =>
      if prompt_is_rule then
        if negb (rules_approval granular_config) then Some REJECT_RULES_APPROVAL_REASON else None
      else if negb (sandbox_approval granular_config) then Some REJECT_SANDBOX_APPROVAL_REASON
      else None
  end.

(** ** Amendments *)

Definition try_derive_execpolicy_amendment_for_prompt_rules (matched_rules : list RuleMatch)
  : option Amendment :=
  if existsb (decided_by_rule Prompt) matched_rules then None
  else find_map (fun m => match m with
                          | HeuristicsRuleMatch command Prompt => Some command
                          | _ => None
                          end) matched_rules.

Definition try_derive_execpolicy_amendment_for_allow_rules (matched_rules : list RuleMatch)
  : option Amendment :=
  if existsb is_policy_match matched_rules then None
  else find_map (fun m => match m with
                          | HeuristicsRuleMatch command Allow => Some command
                          | _ => None
                          end) matched_rules.

Section crates.
Context `{CommandCrates}.
Abbreviation Policy := Policy.Policy (only parsing).

Definition host_options : Policy.MatchOptions := Policy.mkMatchOptions true.

(** The answers of the policy, with host executables resolved. *)
Abbreviation policy_matches := (Policy.matches_for_command_with_options home_directory current_dir).
Abbreviation policy_check := (Policy.check_with_options home_directory current_dir).

(** The evaluation of one command never fails; [false] stands for its panic. *)
Definition prefix_rule_would_approve_all_commands (exec_policy : Policy) (prefix_rule : list str)
    (commands : list (list str)) (exec_policy_fallback : list str -> Decision)
    (match_options : Policy.MatchOptions) : bool :=
  match Policy.add_prefix_rule exec_policy prefix_rule Allow with
  | Err _ => false
  | Ok policy_with_prefix_rule =>
      forallb (fun command =>
        match policy_check policy_with_prefix_rule command exec_policy_fallback match_options with
        | Some e => bool_decide (Policy.eval_decision e = Allow)
        | None => false
        end) commands
  end.

Definition derive_requested_execpolicy_amendment_from_prefix_rule (prefix_rule : option (list str))
    (matched_rules : list RuleMatch) (exec_policy : Policy) (commands : list (list str))
    (exec_policy_fallback : list str -> Decision) (match_options : Policy.MatchOptions)
  : option Amendment :=
  prefix_rule ← prefix_rule;
  if is_empty prefix_rule then None
  else if existsb (fun banned => bool_decide (prefix_rule = banned)) BANNED_PREFIX_SUGGESTIONS
  then None
  else if existsb is_policy_match matched_rules then None
  else if prefix_rule_would_approve_all_commands exec_policy prefix_rule commands
            exec_policy_fallback match_options
  then Some prefix_rule else None.

(** ** Reasons *)

Definition render_shlex_command (args : list str) : str :=
  default (join ($" ") args) (shlex_try_join args).

Definition backquoted (s : str) : str := $"`" ++ s ++ $"`".

(** [max_by_key] on the length of the matched prefix: the last of the longest. *)
Definition most_specific_rule (d : Decision) (matched_rules : list RuleMatch)
  : option (list str * option str) :=
  fold_max (fun a b => if length (fst a) <=? length (fst b) then b else a)
    (omap (fun m => match m with
                    | PrefixRuleMatch matched_prefix d' _ justification =>
                        if bool_decide (d' = d) then Some (matched_prefix, justification) else None
                    | HeuristicsRuleMatch _ _ => None
                    end) matched_rules).

Definition derive_prompt_reason (command_args : list str) (evaluation : Policy.Evaluation)
  : option str :=
  let command := backquoted (render_shlex_command command_args) in
  match most_specific_rule Prompt (Policy.matched_rules evaluation) with
  | Some (_, Some justification) => Some (command ++ $" requires approval: " ++ justification)
  | Some (_, None) => Some (command ++ $" requires approval by policy")
  | None => None
  end.

Definition dangerous_command_rejection_reason (m : DangerousCommandMatch) : str :=
  match m with
  | ForcedRm => $"rm -f style commands are not permitted. Use a safer approach"
  | Other => $"blocked by policy"
  end.

Definition derive_forbidden_reason (command_args : list str) (evaluation : Policy.Evaluation)
    (dangerous_command_match : option DangerousCommandMatch) : str :=
  let command := backquoted (render_shlex_command command_args) in
  match most_specific_rule Forbidden (Policy.matched_rules evaluation) with
  | Some (_, Some justification) => command ++ $" rejected: " ++ justification
  | Some (matched_prefix, None) =>
      command ++ $" rejected: policy forbids commands starting with "
      ++ backquoted (render_shlex_command matched_prefix)
  | None =>
      command ++ $" rejected: "
      ++ match dangerous_command_match with
         | Some m => dangerous_command_rejection_reason m
         | None => $"blocked by policy"
         end
  end.

Definition derive_rejected_prompt_reason (fallback_reason : str)
    (dangerous_command_match : option DangerousCommandMatch) : str :=
  match dangerous_command_match with
  | Some ForcedRm => dangerous_command_rejection_reason ForcedRm
  | Some Other | None => fallback_reason
  end.

(** ** Heuristics *)

Definition dangerous_command_match_for_origin (command : list str)
    (command_origin : ExecPolicyCommandOrigin) (command_platform : DangerousCommandPlatform)
  : option DangerousCommandMatch :=
  match command_origin with
  | Generic =>
      dangerous_command_match_for_platform shlex_split url_capture url_scheme bash_tree_of
        command command_platform
  | FromPowerShell =>
      dangerous_powershell_words_match url_capture url_scheme command command_platform
  end.

Definition dangerous_command_match_for_heuristics (evaluation : Policy.Evaluation) (d : Decision)
    (command_origin : ExecPolicyCommandOrigin) (command_platform : DangerousCommandPlatform)
  : option DangerousCommandMatch :=
  find_map (fun m => match m with
                     | HeuristicsRuleMatch command matched_decision =>
                         if bool_decide (matched_decision = d)
                         then dangerous_command_match_for_origin command command_origin command_platform
                         else None
                     | PrefixRuleMatch _ _ _ _ => None
                     end) (Policy.matched_rules evaluation).

(** ** The commands of an invocation *)

Definition commands_for_exec_policy_for_platform (command : list str)
    (command_platform : DangerousCommandPlatform) : list (list str) * ExecPolicyCommandOrigin :=
  match parse_shell_lc_plain_commands bash_tree_of command with
  | Some ((_ :: _) as commands) => (commands, Generic)
  | _ =>
      match (if bool_decide (command_platform = OnWindows)
             then parse_powershell_command_into_plain_commands debug_char powershell_tree_of command
             else None) with
      | Some ((_ :: _) as commands) => (commands, FromPowerShell)
      | _ => ([command], Generic)
      end
  end.

(** ** The policy in force (model_policy.rs) *)

Definition is_allow_prefix (r : PrefixRule) : bool := bool_decide (decision r = Allow).

Definition current_for_prefix_rules (policy : Policy) (allow_prefix_rules : AllowPrefixRules)
  : Policy :=
  if bool_decide (allow_prefix_rules = Honor) then policy
  else
    Policy.mkPolicy
      (omap (fun rules => match List.filter (fun r => negb (is_allow_prefix r)) rules with
                          | [] => None
                          | kept => Some kept
                          end) (Policy.rules_by_program policy))
      (Policy.network_rules policy) (Policy.host_executables_by_name policy).

Definition current_for_environment (policy : Policy) (environment_policy : option Policy)
    (allow_prefix_rules : AllowPrefixRules) : Policy :=
  let policy := current_for_prefix_rules policy allow_prefix_rules in
  match environment_policy with
  | Some environment_policy => Policy.merge_overlay policy environment_policy
  | None => policy
  end.

(** ** Requirements *)

Section sandbox.
Context {Url : Type} `{UrlCrates Url} `{Unreachable Url}.
Context (native : PathConvention).

Inductive ManagedFileSystemPermissions : Type :=
| ManagedRestricted (entries : list (@FileSystemSandboxEntry Url)) (glob_scan_max_depth : option N)
| ManagedUnrestricted.

Definition to_sandbox_policy (p : ManagedFileSystemPermissions) : @FileSystemSandboxPolicy Url :=
  match p with
  | ManagedRestricted entries glob_scan_max_depth => mkPolicy Restricted glob_scan_max_depth entries
  | ManagedUnrestricted => unrestricted
  end.

Inductive PermissionProfile : Type :=
| Managed (file_system : ManagedFileSystemPermissions) (network : NetworkSandboxPolicy)
| ProfileDisabled
| External (network : NetworkSandboxPolicy).

Definition file_system_sandbox_policy (p : PermissionProfile) : @FileSystemSandboxPolicy Url :=
  match p with
  | Managed file_system _ => to_sandbox_policy file_system
  | ProfileDisabled => unrestricted
  | External _ => external_sandbox
  end.

Definition profile_has_managed_filesystem_restrictions (p : PermissionProfile) : bool :=
  match p with Managed _ _ => true | _ => false end
  && bool_decide (kind (file_system_sandbox_policy p) = Restricted)
  && negb (has_full_disk_write_access_for_convention (file_system_sandbox_policy p) (Some native)).

Record UnmatchedCommandContext : Type := mkUnmatched {
  approval_policy : AskForApproval;
  permission_profile : PermissionProfile;
  windows_sandbox_level : WindowsSandboxLevel;
  sandbox_permissions : SandboxPermissions;
  command_origin : ExecPolicyCommandOrigin;
}.

(** In a restricted sandbox only an escalation is asked about. *)
Definition unmatched_in_sandbox (context : UnmatchedCommandContext) : Decision :=
  match kind (file_system_sandbox_policy (permission_profile context)) with
  | Unrestricted | ExternalSandbox => Allow
  | Restricted => if requests_sandbox_override (sandbox_permissions context) then Prompt else Allow
  end.

Definition render_decision_for_unmatched_command_for_platform (command : list str)
    (context : UnmatchedCommandContext) (command_platform : DangerousCommandPlatform) : Decision :=
  let windows_managed_fs_restrictions_without_sandbox_backend :=
    bool_decide (native = Windows)
    && bool_decide (windows_sandbox_level context = LevelDisabled)
    && profile_has_managed_filesystem_restrictions (permission_profile context) in
  if is_some (dangerous_command_match_for_origin command (command_origin context) command_platform)
     || windows_managed_fs_restrictions_without_sandbox_backend
  then
    match approval_policy context with
    | Never => Forbidden
    | OnRequest | UnlessTrusted | Granular _ => Prompt
    end
  else
    match approval_policy context with
    | Never => Allow
    | UnlessTrusted => Prompt
    | OnRequest | Granular _ => unmatched_in_sandbox context
    end.

Record ExecApprovalRequest : Type := mkRequest {
  req_command : list str;
  req_approval_policy : AskForApproval;
  req_permission_profile : PermissionProfile;
  req_environment_policy : option Policy;
  req_windows_sandbox_level : WindowsSandboxLevel;
  req_sandbox_permissions : SandboxPermissions;
  req_prefix_rule : option (list str);
  req_allow_prefix_rules : AllowPrefixRules;
}.

(** The decision on a command no rule matches. *)
Definition request_fallback (req : ExecApprovalRequest) (origin : ExecPolicyCommandOrigin)
    (command_platform : DangerousCommandPlatform) (cmd : list str) : Decision :=
  render_decision_for_unmatched_command_for_platform cmd
    (mkUnmatched (req_approval_policy req) (req_permission_profile req)
       (req_windows_sandbox_level req) (req_sandbox_permissions req) origin) command_platform.

(** Does a rule allow this command? *)
Definition allowed_by_rule (exec_policy : Policy) (command : list str) : bool :=
  existsb (decided_by_rule Allow) (policy_matches exec_policy command None host_options).

(** [create_exec_approval_requirement_for_parsed_commands] of the manager whose
    policy is [policy]; [None] is the panic of an evaluation without matches. *)
Definition requirement_for_parsed_commands (policy : Policy) (req : ExecApprovalRequest)
    (commands : list (list str)) (origin : ExecPolicyCommandOrigin)
    (command_platform : DangerousCommandPlatform) : option ExecApprovalRequirement.t :=
  let exec_policy :=
    current_for_environment policy (req_environment_policy req) (req_allow_prefix_rules req) in
  let auto_amendment_allowed := bool_decide (req_allow_prefix_rules req = Honor) in
  let exec_policy_fallback := request_fallback req origin command_platform in
  evaluation ← Policy.check_multiple_with_options home_directory current_dir exec_policy commands
                 exec_policy_fallback host_options;
  let matched := Policy.matched_rules evaluation in
  let requested_amendment :=
    if auto_amendment_allowed : bool then
      derive_requested_execpolicy_amendment_from_prefix_rule (req_prefix_rule req) matched
        exec_policy commands exec_policy_fallback host_options
    else None in
  Some
    match Policy.eval_decision evaluation with
    | Forbidden =>
        ExecApprovalRequirement.Forbidden
          (derive_forbidden_reason (req_command req) evaluation
             (dangerous_command_match_for_heuristics evaluation Forbidden origin command_platform))
    | Prompt =>
        let prompt_is_rule := existsb (decided_by_rule Prompt) matched in
        match prompt_is_rejected_by_policy (req_approval_policy req) prompt_is_rule with
        | Some reason =>
            ExecApprovalRequirement.Forbidden
              (if prompt_is_rule then reason
               else derive_rejected_prompt_reason reason
                      (dangerous_command_match_for_heuristics evaluation Prompt origin
                         command_platform))
        | None =>
            ExecApprovalRequirement.NeedsApproval
              (derive_prompt_reason (req_command req) evaluation)
              match requested_amendment with
              | Some amendment => Some amendment
              | None =>
                  if auto_amendment_allowed
                  then try_derive_execpolicy_amendment_for_prompt_rules matched else None
              end
        end
    | Allow =>
        ExecApprovalRequirement.Skip (forallb (allowed_by_rule exec_policy) commands)
          (if auto_amendment_allowed
           then try_derive_execpolicy_amendment_for_allow_rules matched else None)
    end.

Definition create_exec_approval_requirement_for_command_platform (policy : Policy)
    (req : ExecApprovalRequest) (command_platform : DangerousCommandPlatform)
  : option ExecApprovalRequirement.t :=
  let '(commands, origin) := commands_for_exec_policy_for_platform (req_command req) command_platform in
  requirement_for_parsed_commands policy req commands origin command_platform.

End sandbox.
End crates.
