(* ===== verification/ExecApprovalProps.v ===== *)
(** * What an approval requirement promises

    A command runs without being asked about only when every command in it is
    allowed, by a rule or because nothing speaks against it; the settings that
    forbid prompts are kept; a rule that is proposed for saving does what it is
    proposed for. *)

From S2P Require Import Prelude RustStr Utf8 PatchTypes StateM ExecutorFs PathUri ApiPath FileUrls SandboxPolicy AbsolutePath ExecRules ExecPolicy PolicyFiles ExecAmend ShellTree PowerShell DangerousCommand ExecApproval.

Section policy.
Context `{CommandCrates}.
Abbreviation matches := (Policy.matches_for_command_with_options home_directory current_dir).
Abbreviation check := (Policy.check_with_options home_directory current_dir).
Implicit Types (p : Policy.Policy) (cmd : list str) (h : list str -> Decision).

(** What a command is judged by: its rules, or the heuristics when none matches. *)
Lemma matches_fallback p cmd h options :
  matches p cmd (Some h) options
  = if is_empty (matches p cmd None options) then [HeuristicsRuleMatch cmd (h cmd)]
    else matches p cmd None options.
Proof.
  unfold Policy.matches_for_command_with_options. set (found := if negb _ then _ else _).
  by destruct (is_empty found) eqn:E; [|rewrite E]; [apply is_empty_true in E as ->|].
Qed.

Lemma matching_rules_policy rules cmd m :
  In m (Policy.matching_rules rules cmd) -> is_policy_match m = true.
Proof.
  unfold Policy.matching_rules. rewrite <- list_elem_of_In. intros (r & _ & Hr)%list_elem_of_omap.
  unfold rule_matches in Hr. destruct (matches_prefix (pattern r) cmd); [|done].
  by injection Hr as <-.
Qed.

Lemma matches_policy p cmd options m :
  In m (matches p cmd None options) -> is_policy_match m = true.
Proof.
  unfold Policy.matches_for_command_with_options. set (found := if negb _ then _ else _).
  intros Hm. assert (Hf : In m found) by (by destruct (is_empty found)). revert Hf.
  subst found. clear Hm. case_if; intros Hm.
  - unfold Policy.match_exact_rules in Hm. destruct cmd as [|c0 args]; [done|]. simpl in Hm.
    destruct (Policy.rules_by_program p !! c0); [|done]. by apply matching_rules_policy in Hm.
  - destruct (Policy.resolve_host_executables options); [|done].
    unfold Policy.match_host_executable_rules in Hm. destruct cmd as [|c0 args]; [done|].
    repeat (match type of Hm with In _ (match ?x with _ => _ end) => destruct x end; try done).
    apply in_map_iff in Hm as (m' & <- & Hm). apply matching_rules_policy in Hm. by destruct m'.
Qed.

(** The decision on one command. *)
Lemma check_Some p cmd h options :
  exists d, check p cmd h options = Some (Policy.mkEvaluation d (matches p cmd (Some h) options))
    /\ Policy.strictest d (matches p cmd (Some h) options).
Proof.
  unfold Policy.check_with_options.
  destruct (Policy.from_matches_spec (matches p cmd (Some h) options)) as [[E _]|(d & -> & Hd)];
    [by apply Policy.matches_nonempty in E|by exists d].
Qed.

Lemma strictest_allow ms :
  Policy.strictest Allow ms <-> ms <> [] /\ forall m, In m ms -> match_decision m = Allow.
Proof.
  split.
  - intros [(m & Hm & _) Hmax]. split; [by intros ->|]. intros x Hx. specialize (Hmax x Hx).
    by destruct (match_decision x); simpl in Hmax; try lia.
  - intros [Hne Hall]. destruct ms as [|m ms]; [done|]. split.
    + exists m. split; [by left|]. apply Hall. by left.
    + intros x Hx. by rewrite Hall.
Qed.

(** A command that is allowed: by all the rules that match it, or, when none
    does, by the heuristics. *)
Definition cleared p h cmd : Prop :=
  (matches p cmd None host_options <> []
   /\ forall m, In m (matches p cmd None host_options) -> match_decision m = Allow)
  \/ matches p cmd None host_options = [] /\ h cmd = Allow.

Lemma cleared_iff p h cmd :
  cleared p h cmd <-> forall m, In m (matches p cmd (Some h) host_options) -> match_decision m = Allow.
Proof.
  unfold cleared. rewrite matches_fallback.
  destruct (matches p cmd None host_options) as [|m ms]; simpl.
  - split; [intros [[? _]|[_ E]]; [done|by intros x [<-|[]]]|]. intros Ha. right. split; [done|].
    exact (Ha _ (or_introl eq_refl)).
  - split; [intros [[_ Ha]|[? _]]; [exact Ha|done]|]. intros Ha. by left.
Qed.

Lemma check_allow p h cmd :
  cleared p h cmd <->
  exists e, check p cmd h host_options = Some e /\ Policy.eval_decision e = Allow.
Proof.
  destruct (check_Some p cmd h host_options) as (d & -> & Hd). rewrite cleared_iff. split.
  - intros Ha. eexists. split; [done|]. simpl. eapply Policy.strictest_unique; [exact Hd|].
    apply strictest_allow. split; [apply Policy.matches_nonempty|done].
  - intros (e & [= <-] & E). simpl in E. subst d. by apply strictest_allow in Hd as [_ Hd].
Qed.

Lemma check_multiple_Some p h cmds :
  cmds <> [] ->
  let ms := concat (map (fun c => matches p c (Some h) host_options) cmds) in
  exists d, Policy.check_multiple_with_options home_directory current_dir p cmds h host_options
            = Some (Policy.mkEvaluation d ms)
    /\ Policy.strictest d ms
    /\ (d = Allow <-> forall c, In c cmds -> cleared p h c).
Proof.
  intros Hne ms.
  destruct (Policy.check_multiple_strictest home_directory current_dir p h host_options cmds Hne)
    as (d & E & Hd). exists d. split; [done|]. split; [done|]. fold ms in Hd. split.
  - intros -> c Hc. apply cleared_iff. intros m Hm. apply strictest_allow in Hd as [_ Hd].
    apply Hd. apply in_concat. eexists. split; [|exact Hm].
    by apply (in_map (fun c => matches p c (Some h) host_options)).
  - intros Ha. eapply Policy.strictest_unique; [exact Hd|]. apply strictest_allow. split.
    + destruct Hd as [(m & Hm & _) _]. by destruct ms.
    + intros m (l & Hl & Hm)%in_concat. apply in_map_iff in Hl as (c & <- & Hc).
      specialize (Ha c Hc). rewrite cleared_iff in Ha. by apply Ha.
Qed.

(** ** Growing the policy *)

(** The words of a rule that is added match it. *)
Lemma added_rule_matches p prefix p' :
  Policy.add_prefix_rule p prefix Allow = Ok p' ->
  default [] (Policy.match_exact_rules p' prefix)
  = default [] (Policy.match_exact_rules p prefix) ++ [PrefixRuleMatch prefix Allow None None].
Proof.
  intros Hp. destruct prefix as [|c0 args]; [done|]. simpl in Hp. injection Hp as <-.
  rewrite !Policy.match_exact_rules_of. simpl.
  rewrite Policy.rules_of_insert, decide_True by done. unfold Policy.matching_rules.
  rewrite omap_app. f_equal. simpl.
  assert (Hm : matches_prefix (mkPattern c0 (map Single args)) (c0 :: args) = Some (c0 :: args)).
  { apply matches_prefix_spec. split; [|exists []; by rewrite app_nil_r]. constructor.
    clear. induction args; constructor; [by left|done]. }
  unfold rule_matches. simpl pattern. by rewrite Hm.
Qed.

Lemma exact_matches p cmd options :
  default [] (Policy.match_exact_rules p cmd) <> [] ->
  matches p cmd None options = default [] (Policy.match_exact_rules p cmd).
Proof.
  unfold Policy.matches_for_command_with_options. by destruct (default [] _).
Qed.

Lemma add_prefix_rule_exact p prefix p' cmd options :
  Policy.add_prefix_rule p prefix Allow = Ok p' -> prefix = cmd ->
  matches p cmd None options = [] ->
  matches p' cmd None options = [PrefixRuleMatch cmd Allow None None].
Proof.
  intros Hp ->  Hm. pose proof (added_rule_matches p cmd p' Hp) as E.
  destruct (default [] (Policy.match_exact_rules p cmd)) as [|m ms] eqn:Ep.
  - rewrite exact_matches; by rewrite E.
  - rewrite exact_matches, Ep in Hm; [done|by rewrite Ep].
Qed.

(** A saved rule allows its own words, whatever else matches them. *)
Lemma added_rule_allows p prefix p' :
  Policy.add_prefix_rule p prefix Allow = Ok p' -> allowed_by_rule p' prefix = true.
Proof.
  intros Hp. apply added_rule_matches in Hp. unfold allowed_by_rule.
  rewrite exact_matches by (rewrite Hp; intros E; by apply app_eq_nil in E as [_ E]). rewrite Hp.
  apply existsb_exists. eexists. split; [apply in_app_iff; right; by left|done].
Qed.

(** Without the allow rules nothing is allowed by a rule. *)
Lemma without_allow_rules p cmd options m :
  In m (matches (current_for_prefix_rules p IgnoreForCyberModel) cmd None options) ->
  match_decision m <> Allow.
Proof.
  assert (Hrules : forall program, Forall (fun r => decision r <> Allow)
    (Policy.rules_of (Policy.rules_by_program
       (current_for_prefix_rules p IgnoreForCyberModel)) program)).
  { intros program. unfold Policy.rules_of. simpl. rewrite lookup_omap.
    destruct (Policy.rules_by_program p !! program) as [rules|]; [|constructor]. simpl.
    destruct (List.filter _ rules) as [|r kept] eqn:E; [constructor|]. rewrite <- E. simpl.
    apply Forall_forall. intros x Hx. apply list_elem_of_In, filter_In in Hx as [_ Hx].
    unfold is_allow_prefix in Hx. by intros Hd; rewrite bool_decide_eq_true_2 in Hx. }
  revert Hrules. generalize (current_for_prefix_rules p IgnoreForCyberModel). intros q Hrules.
  assert (Hmatch : forall program c m, In m (Policy.matching_rules
      (Policy.rules_of (Policy.rules_by_program q) program) c) -> match_decision m <> Allow).
  { intros program c x. unfold Policy.matching_rules. rewrite <- list_elem_of_In.
    intros (r & Hr & Hx)%list_elem_of_omap. unfold rule_matches in Hx.
    destruct (matches_prefix (pattern r) c); [|done]. injection Hx as <-. simpl.
    specialize (Hrules program). rewrite Forall_forall in Hrules. by apply Hrules. }
  unfold Policy.matches_for_command_with_options. set (found := if negb _ then _ else _).
  intros Hm. assert (Hf : In m found) by (by destruct (is_empty found)). clear Hm. revert Hf.
  subst found. case_if; intros Hm.
  - destruct cmd as [|c0 args]; [done|]. rewrite Policy.match_exact_rules_of in Hm.
    by eapply Hmatch.
  - destruct (Policy.resolve_host_executables options); [|done].
    unfold Policy.match_host_executable_rules in Hm. destruct cmd as [|c0 args]; [done|].
    destruct (AbsolutePath.from_absolute_path _ _ c0) as [program|]; [|done].
    destruct (executable_path_lookup_key program) as [basename|]; [|done].
    destruct (Policy.rules_by_program q !! basename) as [rules|] eqn:E; [|done].
    destruct (match Policy.host_executables_by_name q !! basename with
              | Some _ => _ | None => _ end); [done|].
    apply in_map_iff in Hm as (x & <- & Hm).
    assert (Hx : match_decision x <> Allow).
    { apply (Hmatch basename (basename :: args)). unfold Policy.rules_of. by rewrite E. }
    by destruct x.
Qed.

End policy.

(** ** Requirements *)

Section requirements.
Context `{CommandCrates} {Url : Type} `{UrlCrates Url} `{Unreachable Url}.
Context (native : PathConvention).
Abbreviation matches := (Policy.matches_for_command_with_options home_directory current_dir).
Abbreviation Request := (@ExecApprovalRequest Url) (only parsing).
Abbreviation requirement := (requirement_for_parsed_commands native).
Implicit Types (policy : Policy.Policy) (req : Request) (platform : DangerousCommandPlatform).

Definition in_force policy req : Policy.Policy :=
  current_for_environment policy (req_environment_policy req) (req_allow_prefix_rules req).

Lemma requirement_Some policy req commands origin platform :
  commands <> [] ->
  let p := in_force policy req in
  let h := request_fallback native req origin platform in
  let ms := concat (map (fun c => matches p c (Some h) host_options) commands) in
  exists d r, requirement policy req commands origin platform = Some r
    /\ Policy.strictest d ms
    /\ (d = Allow <-> forall c, In c commands -> cleared p h c)
    /\ match d with
       | Allow => exists a, r = ExecApprovalRequirement.Skip (forallb (allowed_by_rule p) commands) a
       | Prompt =>
           match prompt_is_rejected_by_policy (req_approval_policy req)
                   (existsb (decided_by_rule Prompt) ms) with
           | Some _ => exists reason, r = ExecApprovalRequirement.Forbidden reason
           | None => exists reason a, r = ExecApprovalRequirement.NeedsApproval reason a
           end
       | Forbidden => exists reason, r = ExecApprovalRequirement.Forbidden reason
       end.
Proof.
  intros Hne p h ms. destruct (check_multiple_Some p h commands Hne) as (d & E & Hd & Hc).
  unfold requirement_for_parsed_commands. fold (in_force policy req). fold p. fold h.
  rewrite E. simpl. exists d. eexists. split; [reflexivity|]. split; [done|]. split; [done|].
  fold ms. destruct d.
  - by eexists.
  - destruct (prompt_is_rejected_by_policy _ _); eauto.
  - by eexists.
Qed.

Lemma rule_matches_in policy req commands origin platform c m :
  let p := in_force policy req in
  let h := request_fallback native req origin platform in
  In c commands -> In m (matches p c None host_options) ->
  In m (concat (map (fun c => matches p c (Some h) host_options) commands)).
Proof.
  intros p h Hc Hm. apply in_concat. exists (matches p c (Some h) host_options). split.
  - by apply (in_map (fun c => matches p c (Some h) host_options)).
  - rewrite matches_fallback. by destruct (matches p c None host_options).
Qed.

Lemma requirement_decided policy req commands origin platform :
  commands <> [] ->
  let p := in_force policy req in
  let h := request_fallback native req origin platform in
  exists r, requirement policy req commands origin platform = Some r
    /\ ((exists bypass a, r = ExecApprovalRequirement.Skip bypass a)
        <-> forall c, In c commands -> cleared p h c)
    /\ (forall a, r = ExecApprovalRequirement.Skip true a ->
        forall c, In c commands -> exists m, In m (matches p c None host_options)
          /\ match_decision m = Allow)
    /\ (forall c m, In c commands -> In m (matches p c None host_options) ->
        match_decision m = Forbidden -> exists reason, r = ExecApprovalRequirement.Forbidden reason)
    /\ (req_approval_policy req = Never ->
        forall reason a, r <> ExecApprovalRequirement.NeedsApproval reason a).
Proof.
  intros Hne p h. destruct (requirement_Some policy req commands origin platform Hne)
    as (d & r & E & Hd & Hc & Hr). fold p in Hd, Hc, Hr. fold h in Hd, Hc, Hr.
  exists r. split; [done|]. split_and!.
  - rewrite <- Hc. split.
    + intros (b & a & ->). destruct d; [done| |by destruct Hr].
      destruct (prompt_is_rejected_by_policy _ _); naive_solver.
    + intros ->. destruct Hr as [a ->]. by eexists _, _.
  - intros a -> c Hin. destruct d; [|destruct (prompt_is_rejected_by_policy _ _); naive_solver|
      naive_solver].
    destruct Hr as (a' & Hr). injection Hr as Hb _. symmetry in Hb.
    rewrite forallb_forall in Hb. specialize (Hb c Hin). unfold allowed_by_rule in Hb.
    apply existsb_exists in Hb as (m & Hm & Hd'). apply andb_true_iff in Hd' as [_ Hd'].
    apply bool_decide_eq_true in Hd'. by exists m.
  - intros c m Hin Hm Hf.
    pose proof (rule_matches_in policy req commands origin platform c m Hin Hm) as Hall.
    destruct Hd as [_ Hmax]. specialize (Hmax m Hall). rewrite Hf in Hmax.
    destruct d; simpl in Hmax; [lia|lia|done].
  - intros Hnever reason a ->. rewrite Hnever in Hr. destruct d; naive_solver.
Qed.

(** A part that is refused: by a rule, or by the heuristics when no rule matches. *)
Definition forbidden_part (p : Policy.Policy) (h : list str -> Decision) (c : list str) : Prop :=
  (exists m, In m (matches p c None host_options) /\ match_decision m = Forbidden)
  \/ matches p c None host_options = [] /\ h c = Forbidden.

(** A rule asks about some part. *)
Definition asked_by_rule (p : Policy.Policy) (commands : list (list str)) : Prop :=
  exists c m, In c commands /\ In m (matches p c None host_options) /\ match_decision m = Prompt.

(** The user may be asked: never when approvals are off; when they are granular,
    about rules and about all else only as the settings say. *)
Definition user_may_be_asked (approval_policy : AskForApproval) (by_rule : Prop) : Prop :=
  match approval_policy with
  | Never => False
  | OnRequest | UnlessTrusted => True
  | Granular g => (by_rule -> rules_approval g = true) /\ (~ by_rule -> sandbox_approval g = true)
  end.

Lemma all_matches p h commands m :
  In m (concat (map (fun c => matches p c (Some h) host_options) commands))
  <-> exists c, In c commands /\ (In m (matches p c None host_options)
        \/ matches p c None host_options = [] /\ m = HeuristicsRuleMatch c (h c)).
Proof.
  rewrite in_concat. setoid_rewrite in_map_iff. split.
  - intros (l & (c & <- & Hc) & Hm). exists c. split; [done|]. rewrite matches_fallback in Hm.
    destruct (matches p c None host_options); [|by left]. right. by destruct Hm as [<-|[]].
  - intros (c & Hc & Hm). exists (matches p c (Some h) host_options). split; [by exists c|].
    rewrite matches_fallback. destruct Hm as [Hm|[-> ->]]; [|by left]. by destruct (matches p c None host_options).
Qed.

Lemma asked_by_rule_iff p h commands :
  existsb (decided_by_rule Prompt) (concat (map (fun c => matches p c (Some h) host_options) commands)) = true
  <-> asked_by_rule p commands.
Proof.
  rewrite existsb_exists. setoid_rewrite all_matches. unfold decided_by_rule, asked_by_rule. split.
  - intros (m & (c & Hc & [Hm|[_ ->]]) & [Hr Hd%bool_decide_eq_true]%andb_prop); [by exists c, m|done].
  - intros (c & m & Hc & Hm & Hd). exists m. split; [exists c; by auto|].
    rewrite (matches_policy _ _ _ _ Hm). cbn [andb]. by apply bool_decide_eq_true.
Qed.

Lemma prompt_rejected_iff approval_policy (b : bool) (by_rule : Prop) :
  (b = true <-> by_rule) ->
  prompt_is_rejected_by_policy approval_policy b = None <-> user_may_be_asked approval_policy by_rule.
Proof.
  intros Hb. unfold prompt_is_rejected_by_policy, user_may_be_asked.
  destruct approval_policy as [| |[[] [] ? ? ?]|]; cbn; try done; (assert (Hdec : by_rule \/ ~ by_rule);
    [destruct b; [left; by apply Hb|right; intros ?%Hb; done]|]); destruct b; cbn; split; try done; intros;
    repeat match goal with H : _ /\ _ |- _ => destruct H end; try (by intuition congruence).
Qed.

Lemma asked_exactly policy req commands origin platform d r :
  let p := in_force policy req in
  let h := request_fallback native req origin platform in
  let ms := concat (map (fun c => matches p c (Some h) host_options) commands) in
  Policy.strictest d ms -> (d = Allow <-> forall c, In c commands -> cleared p h c) ->
  match d with
  | Allow => exists a, r = ExecApprovalRequirement.Skip (forallb (allowed_by_rule p) commands) a
  | Prompt =>
      match prompt_is_rejected_by_policy (req_approval_policy req) (existsb (decided_by_rule Prompt) ms) with
      | Some _ => exists reason, r = ExecApprovalRequirement.Forbidden reason
      | None => exists reason a, r = ExecApprovalRequirement.NeedsApproval reason a
      end
  | Forbidden => exists reason, r = ExecApprovalRequirement.Forbidden reason
  end ->
  ((exists reason a, r = ExecApprovalRequirement.NeedsApproval reason a)
   <-> ~ (forall c, In c commands -> cleared p h c) /\ (forall c, In c commands -> ~ forbidden_part p h c)
       /\ user_may_be_asked (req_approval_policy req) (asked_by_rule p commands)).
Proof.
  intros p h ms [Hin Hmax] Hc Hr.
  assert (Hf : d = Forbidden <-> exists c, In c commands /\ forbidden_part p h c).
  { unfold forbidden_part. split.
    - intros ->. destruct Hin as (m & Hm & Hd). apply all_matches in Hm as (c & Hin & [Hm|[Hm ->]]); exists c; naive_solver.
    - intros (c & Hcin & Hp). assert (Hm : exists m, In m ms /\ match_decision m = Forbidden).
      { destruct Hp as [(m & Hm & Hd)|[Hm Hd]]; [exists m|exists (HeuristicsRuleMatch c (h c))];
          (split; [apply all_matches; exists c; by auto|done]). }
      destruct Hm as (m & Hm & Hd). specialize (Hmax m Hm). rewrite Hd in Hmax. destruct d; simpl in Hmax; [lia|lia|done]. }
  rewrite <- Hc. rewrite <- (prompt_rejected_iff _ _ _ (asked_by_rule_iff p h commands)). fold ms.
  destruct d.
  - naive_solver.
  - assert (Hno : forall c, In c commands -> ~ forbidden_part p h c).
    { intros c Hcin Hp. assert (Prompt = Forbidden) by (apply Hf; by exists c). done. }
    destruct (prompt_is_rejected_by_policy _ _); naive_solver.
  - destruct (proj1 Hf eq_refl) as (c & Hcin & Hp). naive_solver.
Qed.

(** C24: The approval requirement of a command is always decided, and a command
    runs unasked exactly when each of its parts is cleared: all the policy rules
    that match it allow it, or none matches and the heuristics allow it.  It
    bypasses the sandbox only when a rule allows every part.  The user is asked
    exactly when some part is not cleared, none is forbidden - by a rule, or by
    the heuristics when no rule matches - and the approval policy lets the user be
    asked: never when approvals are off; with granular settings, when a rule asks,
    only if they let rules ask, and when none does, only if they let the sandbox
    ask.  In every other case the command is refused. *)
Theorem requirement_sound policy req commands origin platform :
  commands <> [] ->
  let p := in_force policy req in
  let h := request_fallback native req origin platform in
  exists r, requirement policy req commands origin platform = Some r
    /\ ((exists bypass a, r = ExecApprovalRequirement.Skip bypass a)
        <-> forall c, In c commands -> cleared p h c)
    /\ (forall a, r = ExecApprovalRequirement.Skip true a ->
        forall c, In c commands -> exists m, In m (matches p c None host_options)
          /\ match_decision m = Allow)
    /\ ((exists reason a, r = ExecApprovalRequirement.NeedsApproval reason a)
        <-> ~ (forall c, In c commands -> cleared p h c)
            /\ (forall c, In c commands -> ~ forbidden_part p h c)
            /\ match req_approval_policy req with
               | Never => False
               | OnRequest | UnlessTrusted => True
               | Granular g =>
                   (asked_by_rule p commands -> rules_approval g = true)
                   /\ (~ asked_by_rule p commands -> sandbox_approval g = true)
               end).
Proof.
  intros Hne p h. destruct (requirement_Some policy req commands origin platform Hne) as (d & r & E & Hd & Hc & Hr).
  destruct (requirement_decided policy req commands origin platform Hne) as (r' & E' & Hskip & Hbypass & _).
  rewrite E in E'. injection E' as <-. exists r. split_and!; [done|done|done|].
  by apply (asked_exactly policy req commands origin platform d r).
Qed.

(** ** The heuristics *)

(** The heuristics let a command run unasked only when it is not flagged as
    dangerous.  An untrusted project is always asked about, a request to leave
    the sandbox is asked about in a restricted one, and a dangerous command is
    refused outright when asking is switched off. *)
Theorem fallback_allows req origin platform cmd :
  let danger := dangerous_command_match_for_origin cmd origin platform in
  let restricted := kind (file_system_sandbox_policy (req_permission_profile req)) = Restricted in
  let h := request_fallback native req origin platform in
  native = Posix ->
  (h cmd = Allow <->
   danger = None
   /\ match req_approval_policy req with
      | Never => True
      | UnlessTrusted => False
      | OnRequest | Granular _ => restricted -> req_sandbox_permissions req = UseDefault
      end)
  /\ (h cmd = Forbidden <-> danger <> None /\ req_approval_policy req = Never).
Proof.
  intros danger restricted h ->. unfold h, request_fallback,
    render_decision_for_unmatched_command_for_platform. cbn [approval_policy permission_profile
    windows_sandbox_level sandbox_permissions command_origin]. fold danger.
  rewrite orb_false_r. unfold unmatched_in_sandbox, requests_sandbox_override, restricted. simpl.
  destruct danger; simpl.
  - destruct (req_approval_policy req); naive_solver.
  - destruct (req_approval_policy req);
      destruct (kind (file_system_sandbox_policy (req_permission_profile req)));
      try case_bool_decide; naive_solver.
Qed.

(** ** Proposed rules *)

Lemma heuristic_amendment policy req commands origin platform d a :
  let p := in_force policy req in
  let h := request_fallback native req origin platform in
  In (HeuristicsRuleMatch a d) (concat (map (fun c => matches p c (Some h) host_options) commands)) ->
  In a commands /\ matches p a None host_options = [].
Proof.
  intros p h (l & Hl & Hm)%in_concat. apply in_map_iff in Hl as (c & <- & Hc).
  rewrite matches_fallback in Hm. destruct (matches p c None host_options) as [|m ms] eqn:E.
  - destruct Hm as [[= <- _]|[]]. done.
  - assert (Hp : In (HeuristicsRuleMatch a d) (matches p c None host_options)) by (rewrite E; exact Hm).
    by apply matches_policy in Hp.
Qed.

Lemma requested_amendment prefix_rule ms p commands h a :
  derive_requested_execpolicy_amendment_from_prefix_rule prefix_rule ms p commands h host_options
  = Some a ->
  exists p', Policy.add_prefix_rule p a Allow = Ok p' /\ forall c, In c commands -> cleared p' h c.
Proof.
  unfold derive_requested_execpolicy_amendment_from_prefix_rule.
  destruct prefix_rule as [prefix|]; [|done]. simpl.
  repeat (match goal with |- (if ?b then _ else _) = _ -> _ => destruct b eqn:? end; try done).
  intros [= <-]. unfold prefix_rule_would_approve_all_commands in *.
  destruct (Policy.add_prefix_rule p prefix Allow) as [p'|]; [|done]. exists p'.
  split; [done|]. intros c Hc.
  match goal with Hall : forallb _ _ = true |- _ => rewrite forallb_forall in Hall;
    specialize (Hall c Hc) end.
  apply check_allow. destruct (Policy.check_with_options _ _ p' c h host_options) as [e|]; [|done].
  exists e. split; [done|]. by apply bool_decide_eq_true in Heqb2.
Qed.

Lemma proposed_cases policy req commands origin platform r a :
  requirement policy req commands origin platform = Some r ->
  ExecApprovalRequirement.proposed_amendment r = Some a ->
  let p := in_force policy req in
  let h := request_fallback native req origin platform in
  req_allow_prefix_rules req = Honor
  /\ ((exists p', Policy.add_prefix_rule p a Allow = Ok p' /\ forall c, In c commands -> cleared p' h c)
      \/ In a commands /\ matches p a None host_options = []).
Proof.
  intros Hr Ha p h. unfold requirement_for_parsed_commands in Hr. fold (in_force policy req) in Hr.
  fold p in Hr. fold h in Hr.
  set (ms := concat (map (fun c => matches p c (Some h) host_options) commands)) in *.
  destruct (Policy.check_multiple_with_options _ _ p commands h host_options) as [e|] eqn:Ee; [|done].
  simpl in Hr. injection Hr as <-.
  assert (Hms : Policy.matched_rules e = ms).
  { unfold Policy.check_multiple_with_options, Policy.from_matches in Ee. fold ms in Ee.
    destruct (fold_max _ _); [by injection Ee as <-|done]. }
  assert (Hheur : forall d, find_map (fun m => match m with
      | HeuristicsRuleMatch command d' => if bool_decide (d' = d) then Some command else None
      | _ => None end) ms = Some a -> In a commands /\ matches p a None host_options = []).
  { intros d Hf. apply find_map_Some in Hf as (m & Hm & Hf). destruct m as [|c d']; [done|].
    case_bool_decide; [|done]. injection Hf as ->. by eapply heuristic_amendment. }
  rewrite Hms in Ha. destruct (bool_decide (req_allow_prefix_rules req = Honor)) eqn:Eh;
    [apply bool_decide_eq_true in Eh|].
  2:{ exfalso. destruct (Policy.eval_decision e); [done| |done].
      destruct (prompt_is_rejected_by_policy _ _); done. }
  split; [done|]. destruct (Policy.eval_decision e); [| |done].
  - right. apply (Hheur Allow). simpl in Ha. revert Ha.
    unfold try_derive_execpolicy_amendment_for_allow_rules. destruct (existsb _ ms); [done|].
    intros Hf. rewrite <- Hf. apply find_map_ext. by intros [|c []].
  - destruct (prompt_is_rejected_by_policy _ _); [done|]. simpl in Ha.
    destruct (derive_requested_execpolicy_amendment_from_prefix_rule _ _ _ _ _ _) as [b|] eqn:Eb.
    + injection Ha as ->. left. by eapply requested_amendment.
    + right. apply (Hheur Prompt). revert Ha.
      unfold try_derive_execpolicy_amendment_for_prompt_rules. destruct (existsb _ ms); [done|].
      intros Hf. rewrite <- Hf. apply find_map_ext. by intros [|c []].
Qed.

(** A rule the user is offered to save does what it is offered for.  With
    the rule in the policy, the same request runs unasked, or, when the rule is
    one of the parts of the command as it stands, that part, which no rule
    matched, is allowed by the rule. *)
Theorem proposed_rule_works policy req commands origin platform r a :
  ~ In [] commands -> commands <> [] -> req_environment_policy req = None ->
  requirement policy req commands origin platform = Some r ->
  ExecApprovalRequirement.proposed_amendment r = Some a ->
  exists policy', Policy.add_prefix_rule policy a Allow = Ok policy'
    /\ ((exists bypass a', requirement policy' req commands origin platform
                           = Some (ExecApprovalRequirement.Skip bypass a'))
        \/ In a commands /\ matches policy a None host_options = []
           /\ allowed_by_rule policy' a = true).
Proof.
  intros Hempty Hne Henv Hr Ha.
  destruct (proposed_cases _ _ _ _ _ _ _ Hr Ha) as [Hhonor Hcases].
  assert (Hforce : forall q, in_force q req = q).
  { intros q. unfold in_force, current_for_environment, current_for_prefix_rules.
    by rewrite Henv, Hhonor. }
  rewrite Hforce in Hcases. destruct Hcases as [(p' & Hp & Hcl)|[Hin Hm]].
  - exists p'. split; [done|]. left.
    destruct (requirement_Some p' req commands origin platform Hne) as (d & r' & E & _ & Hd & Hr').
    rewrite Hforce in Hd. rewrite E. assert (Hallow : d = Allow) by (apply Hd; exact Hcl).
    subst d. destruct Hr' as [a' ->]. by eexists _, _.
  - destruct (Policy.add_prefix_rule policy a Allow) as [p'|] eqn:Ep.
    + exists p'. split; [done|]. right. split_and!; [done..|].
      unfold allowed_by_rule. by rewrite (add_prefix_rule_exact policy a p' a host_options).
    + by destruct a.
Qed.

(** For a model that must not inherit saved approvals, nothing is allowed by
    a rule of the thread's policy: a command never bypasses the sandbox, runs
    unasked only when the heuristics alone allow it, and no rule is proposed. *)
Theorem ignored_rules_grant_nothing policy req commands origin platform r :
  commands <> [] -> req_allow_prefix_rules req = IgnoreForCyberModel ->
  req_environment_policy req = None ->
  requirement policy req commands origin platform = Some r ->
  ExecApprovalRequirement.proposed_amendment r = None
  /\ forall bypass a, r = ExecApprovalRequirement.Skip bypass a ->
       bypass = false
       /\ forall c, In c commands -> request_fallback native req origin platform c = Allow.
Proof.
  intros Hne Hign Henv Hr. split.
  { destruct (ExecApprovalRequirement.proposed_amendment r) as [a|] eqn:Ha; [|done].
    destruct (proposed_cases _ _ _ _ _ _ _ Hr Ha) as [Hh _]. congruence. }
  assert (Hforce : in_force policy req = current_for_prefix_rules policy IgnoreForCyberModel).
  { unfold in_force, current_for_environment. by rewrite Henv, Hign. }
  assert (Hno : forall c m, In m (matches (in_force policy req) c None host_options) ->
    match_decision m <> Allow).
  { intros c m. rewrite Hforce. apply without_allow_rules. }
  destruct (requirement_Some policy req commands origin platform Hne)
    as (d & r' & E & _ & Hd & Hr'). rewrite E in Hr. injection Hr as ->.
  intros bypass a ->. destruct d; [|destruct (prompt_is_rejected_by_policy _ _); naive_solver|
    naive_solver].
  destruct Hr' as (a' & [= -> _]).
  assert (Hc : forall c, In c commands -> request_fallback native req origin platform c = Allow).
  { intros c Hc. destruct (proj1 Hd eq_refl c Hc) as [[Hm Hall]|[_ Hh]]; [|done].
    destruct (matches (in_force policy req) c None host_options) as [|m ms] eqn:Em; [done|].
    exfalso. apply (Hno c m); [rewrite Em; by left|]. apply Hall. by left. }
  split; [|done]. destruct commands as [|c cs]; [done|]. simpl.
  destruct (allowed_by_rule (in_force policy req) c) eqn:Eb; [|done]. exfalso.
  unfold allowed_by_rule in Eb. apply existsb_exists in Eb as (m & Hm & Hx).
  apply andb_true_iff in Hx as [_ Hx]. apply bool_decide_eq_true in Hx. by apply (Hno c m).
Qed.

End requirements.

(** ** Instances *)

Import FileUrls.

(** No script can be parsed, no token is a URL. *)
#[export] Instance plain_crates : CommandCrates := {
  bash_tree_of := fun _ => None;
  powershell_tree_of := fun _ => None;
  debug_char := fun c => [c];
  shlex_split := fun _ => None;
  shlex_try_join := fun _ => None;
  url_capture := fun _ => None;
  url_scheme := fun _ => None;
  home_directory := None;
  current_dir := Ok ($"/");
}.

Definition demo_request (command : list str) (approval : AskForApproval)
    (prefix_rule : option (list str)) : @ExecApprovalRequest FileUrl :=
  mkRequest command approval (Managed (ManagedRestricted [] None) NetworkRestricted) None
    LevelDisabled RequireEscalated prefix_rule Honor.

Definition demo_requirement (policy : Policy.Policy) (req : @ExecApprovalRequest FileUrl) :=
  create_exec_approval_requirement_for_command_platform Posix policy req OnPosix.

Definition git_push : list str := [$"git"; $"push"].

(** [prefix_rule(["git", "push"], decision="forbidden")] *)
Definition no_push : Policy.Policy :=
  Policy.new {[ ($"git" : list N) := [mkRule (mkPattern ($"git") [Single ($"push")]) Forbidden None] ]}.

Example requirement_examples :
  demo_requirement no_push (demo_request git_push OnRequest None)
  = Some (ExecApprovalRequirement.Forbidden
      ($"`git push` rejected: policy forbids commands starting with `git push`"))
  /\ demo_requirement no_push (demo_request [$"rm"; $"-rf"; $"x"] Never None)
     = Some (ExecApprovalRequirement.Forbidden
         ($"`rm -rf x` rejected: rm -f style commands are not permitted. Use a safer approach"))
  /\ demo_requirement no_push (demo_request [$"ls"] OnRequest (Some [$"ls"]))
     = Some (ExecApprovalRequirement.NeedsApproval None (Some [$"ls"]))
  /\ demo_requirement no_push (demo_request [$"ls"] OnRequest (Some [$"sudo"]))
     = Some (ExecApprovalRequirement.NeedsApproval None (Some [$"ls"]))
  /\ demo_requirement no_push (demo_request [$"ls"] Never None)
     = Some (ExecApprovalRequirement.Skip false (Some [$"ls"])).
Proof. split_and!; vm_compute; reflexivity. Qed.

(** A rule the user is offered for an absolute path hides the rules for the
    program's name: the exact token matches first, so the forbidding rule is no
    longer asked. *)
Example absolute_path_rule_hides_forbidding_rule :
  let status := [$"/usr/bin/git"; $"status"] in
  let push := [$"/usr/bin/git"; $"push"] in
  let offered := [$"/usr/bin/git"] in
  (exists reason, demo_requirement no_push (demo_request push OnRequest None)
                  = Some (ExecApprovalRequirement.Forbidden reason))
  /\ demo_requirement no_push (demo_request status OnRequest (Some offered))
     = Some (ExecApprovalRequirement.NeedsApproval None (Some offered))
  /\ exists saved, Policy.add_prefix_rule no_push offered Allow = Ok saved
     /\ demo_requirement saved (demo_request push OnRequest None)
        = Some (ExecApprovalRequirement.Skip true None).
Proof.
  split_and!; [eexists; vm_compute; reflexivity|vm_compute; reflexivity|].
  eexists. split; [reflexivity|]. vm_compute. reflexivity.
Qed.

(** Granular settings that let rules ask, but not the sandbox. *)
Definition only_rules : AskForApproval := Granular (mkGranular false true false false false).

Lemma requirement_sound_witness :
  exists r, requirement_for_parsed_commands Posix no_push (demo_request git_push only_rules None)
              [[$"ls"]; [$"rm"; $"-rf"; $"x"]] Generic OnPosix = Some r
    /\ forall reason a, r <> ExecApprovalRequirement.NeedsApproval reason a.
Proof.
  destruct (requirement_sound Posix no_push (demo_request git_push only_rules None)
    [[$"ls"]; [$"rm"; $"-rf"; $"x"]] Generic OnPosix ltac:(done)) as (r & Hr & _ & _ & Ha).
  exists r. split; [exact Hr|]. intros reason a ->.
  destruct (proj1 Ha (ex_intro _ reason (ex_intro _ a eq_refl))) as (_ & _ & _ & Hs).
  discriminate Hs. intros (c & m & [<-|[<-|[]]] & Hm & _); by vm_compute in Hm.
Defined.

Lemma fallback_allows_witness :
  request_fallback Posix (demo_request [$"rm"; $"-f"; $"x"] Never None) Generic OnPosix
    [$"sudo"; $"rm"; $"-f"; $"x"] = Forbidden.
Proof.
  apply (proj2 (fallback_allows Posix (demo_request [$"rm"; $"-f"; $"x"] Never None) Generic OnPosix
    [$"sudo"; $"rm"; $"-f"; $"x"] eq_refl)).
  split; [vm_compute; discriminate|reflexivity].
Defined.

Lemma proposed_rule_works_witness :
  exists policy', Policy.add_prefix_rule no_push [$"ls"] Allow = Ok policy'
    /\ ((exists bypass a', requirement_for_parsed_commands Posix policy'
           (demo_request [$"ls"; $"-l"] OnRequest (Some [$"ls"])) [[$"ls"; $"-l"]] Generic OnPosix
         = Some (ExecApprovalRequirement.Skip bypass a'))
        \/ In [$"ls"] [[$"ls"; $"-l"]]
           /\ Policy.matches_for_command_with_options home_directory current_dir no_push [$"ls"] None
                host_options = []
           /\ allowed_by_rule policy' [$"ls"] = true).
Proof.
  apply (proposed_rule_works Posix no_push (demo_request [$"ls"; $"-l"] OnRequest (Some [$"ls"]))
    [[$"ls"; $"-l"]] Generic OnPosix (ExecApprovalRequirement.NeedsApproval None (Some [$"ls"]))
    [$"ls"]).
  - intros [E|[]]. discriminate.
  - done.
  - reflexivity.
  - vm_compute. reflexivity.
  - reflexivity.
Defined.

Lemma ignored_rules_grant_nothing_witness :
  let saved := Policy.new {[ ($"ls" : list N) := [mkRule (mkPattern ($"ls") []) Allow None] ]} in
  let req := mkRequest [$"ls"] OnRequest ProfileDisabled None LevelDisabled UseDefault None
               IgnoreForCyberModel in
  false = false
  /\ forall c, In c [[$"ls"]] -> request_fallback (Url := FileUrl) Posix req Generic OnPosix c = Allow.
Proof.
  intros saved req.
  apply (proj2 (ignored_rules_grant_nothing (Url := FileUrl) Posix saved req [[$"ls"]] Generic OnPosix
    (ExecApprovalRequirement.Skip false None) ltac:(done) eq_refl eq_refl eq_refl) false None eq_refl).
Defined.
