(* ===== verification/ConfigLayers.v ===== *)
(** * The layers of the configuration (config/src/config_layer_source.rs, state.rs)

    Where a piece of configuration comes from, which piece overrides which, and
    how the layers of the user are replaced in a stack.  What a layer contains
    ([config] with its version and raw text, values of the toml crate) is moved
    as a whole: it is the type [Payload].  Of the requirements only the execution
    policy is kept. *)

From S2P Require Import Prelude RustStr PatchTypes AbsolutePath ExecRules ExecPolicy.

#[local] Existing Instance AbsolutePath.Component_eq_dec.

Inductive ConfigLayerSource : Type :=
| PackagedDefaults (file : str)
| Mdm (domain key : str)
| SystemConfig (file : str)
| EnterpriseManaged (id name : str)
| UserConfig (file : str) (profile : option str)
| ProjectConfig (dot_codex_folder : str)
| SessionFlags
| LegacyManagedConfigTomlFromFile (file : str)
| LegacyManagedConfigTomlFromMdm.

Definition precedence (source : ConfigLayerSource) : Z :=
  match source with
  | PackagedDefaults _ => -10
  | Mdm _ _ => 0
  | SystemConfig _ => 10
  | EnterpriseManaged _ _ => 15
  | UserConfig _ profile => if is_some profile then 21 else 20
  | ProjectConfig _ => 25
  | SessionFlags => 30
  | LegacyManagedConfigTomlFromFile _ => 40
  | LegacyManagedConfigTomlFromMdm => 50
  end%Z.

Definition format_config_layer_source (source : ConfigLayerSource) (config_toml_file : str) : str :=
  match source with
  | PackagedDefaults file => $"packaged defaults (" ++ file ++ $")"
  | Mdm domain key => $"MDM (" ++ domain ++ $":" ++ key ++ $")"
  | SystemConfig file => $"system (" ++ file ++ $")"
  | EnterpriseManaged id name => $"enterprise-managed (" ++ name ++ $", " ++ id ++ $")"
  | UserConfig file _ => $"user (" ++ file ++ $")"
  | ProjectConfig dot_codex_folder =>
      $"project (" ++ dot_codex_folder ++ $"/" ++ config_toml_file ++ $")"
  | SessionFlags => $"session-flags"
  | LegacyManagedConfigTomlFromFile file => $"legacy managed_config.toml (" ++ file ++ $")"
  | LegacyManagedConfigTomlFromMdm => $"legacy managed_config.toml (MDM)"
  end.

Definition is_user (source : ConfigLayerSource) : bool :=
  match source with UserConfig _ _ => true | _ => false end.

(** Equality of paths compares components. *)
Definition same_path (a b : str) : bool :=
  bool_decide (AbsolutePath.components a = AbsolutePath.components b).

Section layers.
Context {Payload : Type}.

Record ConfigLayerEntry : Type := mkLayer {
  layer_name : ConfigLayerSource;
  layer_payload : Payload;
  disabled_reason : option str;
}.

Record ConfigLayerStack : Type := mkStack {
  stack_layers : list ConfigLayerEntry;
  required_exec_policy : option Policy.Policy;
  ignore_user_and_project_exec_policy_rules : bool;
}.

Definition is_disabled (layer : ConfigLayerEntry) : bool := is_some (disabled_reason layer).

Definition config_folder (layer : ConfigLayerEntry) : option str :=
  match layer_name layer with
  | SystemConfig file | UserConfig file _ => AbsolutePath.path_parent file
  | ProjectConfig dot_codex_folder => Some dot_codex_folder
  | _ => None
  end.

Definition layers_low_to_high (stack : ConfigLayerStack) : list ConfigLayerEntry :=
  List.filter (fun layer => negb (is_disabled layer)) (stack_layers stack).

(** ** The order of layers *)

(** [is_sorted] by precedence. *)
Fixpoint sorted_layers (layers : list ConfigLayerEntry) : bool :=
  match layers with
  | a :: ((b :: _) as rest) =>
      (precedence (layer_name a) <=? precedence (layer_name b))%Z && sorted_layers rest
  | _ => true
  end.

(** [Path::ancestors]: the path, its parent, and so on. *)
Fixpoint path_ancestors (fuel : nat) (path : str) : list str :=
  path :: match fuel, AbsolutePath.path_parent path with
          | S fuel, Some parent => path_ancestors fuel parent
          | _, _ => []
          end.

Definition order_error (text : str) : io_error := mkIo KInvalidData text.

(** A project folder after another one. *)
Definition check_project_folder (previous current : str) : result () io_error :=
  match AbsolutePath.path_parent previous with
  | None => Err (order_error ($"project layer has no parent directory"))
  | Some parent =>
      if same_path previous current
         || negb (existsb (fun ancestor => same_path ancestor parent)
                    (path_ancestors (length current) current))
      then Err (order_error ($"project layers are not ordered from root to cwd"))
      else Ok ()
  end.

Fixpoint check_project_layers (previous : option str) (layers : list ConfigLayerEntry)
  : result () io_error :=
  match layers with
  | [] => Ok ()
  | layer :: layers =>
      match layer_name layer with
      | ProjectConfig current =>
          let? _ := match previous with
                    | Some previous => check_project_folder previous current
                    | None => Ok ()
                    end in
          check_project_layers (Some current) layers
      | _ => check_project_layers previous layers
      end
  end.

Definition verify_layer_ordering (layers : list ConfigLayerEntry) : result () io_error :=
  if negb (sorted_layers layers)
  then Err (order_error ($"config layers are not in correct precedence order"))
  else check_project_layers None layers.

(** ** Replacing the layers of the user *)

(** Before the first layer of higher precedence, else at the end. *)
Fixpoint insert_layer (new : ConfigLayerEntry) (layers : list ConfigLayerEntry)
  : list ConfigLayerEntry :=
  match layers with
  | [] => [new]
  | layer :: rest =>
      if (precedence (layer_name new) <? precedence (layer_name layer))%Z then new :: layers
      else layer :: insert_layer new rest
  end.

Definition is_user_layer (layer : ConfigLayerEntry) : bool := is_user (layer_name layer).

Definition with_user_layer_from (self other : ConfigLayerStack) : ConfigLayerStack :=
  let user_layers := List.filter is_user_layer (stack_layers other) in
  let layers := List.filter (fun layer => negb (is_user_layer layer)) (stack_layers self) in
  mkStack (fold_left (fun layers user_layer => insert_layer user_layer layers) user_layers layers)
    (required_exec_policy self) (ignore_user_and_project_exec_policy_rules self).

(** [ConfigLayerEntry::new] of a user layer. *)
Definition user_layer (config_toml : str) (profile : option str) (user_config : Payload)
  : ConfigLayerEntry :=
  mkLayer (UserConfig config_toml profile) user_config None.

Definition is_user_file (config_toml : str) (layer : ConfigLayerEntry) : bool :=
  match layer_name layer with UserConfig file _ => same_path file config_toml | _ => false end.

Fixpoint remove_first (p : ConfigLayerEntry -> bool) (layers : list ConfigLayerEntry)
  : list ConfigLayerEntry :=
  match layers with
  | [] => []
  | layer :: rest => if p layer then rest else layer :: remove_first p rest
  end.

(** What the toml crate finds wrong with the environment filters of a config. *)
Context (filter_config_error : Payload -> option str).

Fixpoint validate_enabled_config_layers (layers : list ConfigLayerEntry) : result () io_error :=
  match layers with
  | [] => Ok ()
  | layer :: rest =>
      match (if is_disabled layer then None else filter_config_error (layer_payload layer)) with
      | Some error =>
          Err (mkIo KInvalidData
                 ($"invalid shell environment policy in "
                  ++ format_config_layer_source (layer_name layer) ($"config.toml") ++ $": " ++ error))
      | None => validate_enabled_config_layers rest
      end
  end.

Definition with_user_config_profile (self : ConfigLayerStack) (config_toml : str)
    (profile : option str) (user_config : Payload) : result ConfigLayerStack io_error :=
  let new := user_layer config_toml profile user_config in
  let? _ := validate_enabled_config_layers [new] in
  let layers := remove_first (is_user_file config_toml) (stack_layers self) in
  Ok (mkStack (insert_layer new layers) (required_exec_policy self)
        (ignore_user_and_project_exec_policy_rules self)).

(** ** Lemmas *)

Implicit Types (layer new : ConfigLayerEntry) (layers : list ConfigLayerEntry).
Abbreviation below a b := (precedence (layer_name a) <= precedence (layer_name b))%Z (only parsing).

Lemma sorted_cons layer layers :
  sorted_layers (layer :: layers) = true <->
  Forall (fun l => below layer l) layers /\ sorted_layers layers = true.
Proof.
  revert layer. induction layers as [|b layers IH]; intros layer; [by simpl|].
  change (sorted_layers (layer :: b :: layers)) with
    ((precedence (layer_name layer) <=? precedence (layer_name b))%Z && sorted_layers (b :: layers)).
  rewrite andb_true_iff, IH, Z.leb_le, Forall_cons. split; [|tauto].
  intros (Hb & Hall & Hs). split_and!; [done| |done|done].
  eapply Forall_impl; [exact Hall|]. simpl. lia.
Qed.

Lemma sorted_filter p layers :
  sorted_layers layers = true -> sorted_layers (List.filter p layers) = true.
Proof.
  induction layers as [|a layers IH]; [done|]. intros [Ha Hs]%sorted_cons. simpl.
  destruct (p a); [|by apply IH]. apply sorted_cons. split; [|by apply IH].
  apply Forall_forall. intros x [Hx _]%list_elem_of_In%filter_In.
  rewrite Forall_forall in Ha. by apply Ha, list_elem_of_In.
Qed.

Lemma sorted_remove_first p layers :
  sorted_layers layers = true -> sorted_layers (remove_first p layers) = true.
Proof.
  induction layers as [|a layers IH]; [done|]. intros [Ha Hs]%sorted_cons. simpl.
  destruct (p a); [done|]. apply sorted_cons. split; [|by apply IH].
  clear IH Hs. induction Ha as [|b layers Hb Ha IH]; simpl; [constructor|].
  destruct (p b); [done|by constructor].
Qed.

Lemma Forall_insert (P : ConfigLayerEntry -> Prop) new layers :
  P new -> Forall P layers -> Forall P (insert_layer new layers).
Proof.
  intros Hn. induction 1 as [|a layers Ha Hl IH]; simpl; [by constructor|].
  destruct (_ <? _)%Z; by repeat constructor.
Qed.

Lemma sorted_insert new layers :
  sorted_layers layers = true -> sorted_layers (insert_layer new layers) = true.
Proof.
  induction layers as [|a layers IH]; [done|]. intros Hs. cbn [insert_layer].
  destruct (_ <? _)%Z eqn:E.
  - apply Z.ltb_lt in E. apply sorted_cons. split; [|done]. apply sorted_cons in Hs as [Ha _].
    constructor; [lia|]. eapply Forall_impl; [exact Ha|]. simpl. lia.
  - apply Z.ltb_ge in E. apply sorted_cons in Hs as [Ha Hs]. apply sorted_cons.
    split; [by apply Forall_insert|by apply IH].
Qed.

(** Layers of another kind are left alone. *)
Lemma filter_insert_other p new layers :
  p new = false -> List.filter p (insert_layer new layers) = List.filter p layers.
Proof.
  intros Hp. induction layers as [|a layers IH]; simpl; [by rewrite Hp|].
  destruct (_ <? _)%Z; simpl; [by rewrite Hp|]. by rewrite IH.
Qed.

Lemma filter_remove_other p q layers :
  (forall layer, q layer = true -> p layer = false) ->
  List.filter p (remove_first q layers) = List.filter p layers.
Proof.
  intros Hq. induction layers as [|a layers IH]; simpl; [done|].
  destruct (q a) eqn:E; simpl; [by rewrite (Hq _ E)|]. by rewrite IH.
Qed.

(** A new layer goes after the layers it does not precede. *)
Lemma filter_insert_last p new layers :
  p new = true -> sorted_layers layers = true ->
  Forall (fun l => below l new) (List.filter p layers) ->
  List.filter p (insert_layer new layers) = List.filter p layers ++ [new].
Proof.
  intros Hp Hs Hall. induction layers as [|a layers IH]; simpl; [by rewrite Hp|].
  apply sorted_cons in Hs as [Ha Hs]. simpl in Hall.
  destruct (_ <? _)%Z eqn:E; simpl.
  - apply Z.ltb_lt in E. rewrite Hp.
    assert (Hnone : forall l, In l (a :: layers) -> p l = false).
    { intros l Hin. destruct (p l) eqn:El; [|done]. exfalso.
      assert (Hl : below l new).
      { assert (In l (List.filter p (a :: layers))) as Hf by (by apply filter_In).
        rewrite Forall_forall in Hall. apply Hall, list_elem_of_In. exact Hf. }
      destruct Hin as [->|Hin]; [lia|]. rewrite Forall_forall in Ha.
      apply list_elem_of_In, Ha in Hin. lia. }
    rewrite (Hnone a) by (by left).
    assert (List.filter p layers = []) as ->; [|done].
    destruct (List.filter p layers) as [|l k] eqn:El; [done|]. exfalso.
    assert (In l (List.filter p layers)) as [Hin Hpl]%filter_In by (rewrite El; by left).
    rewrite Hnone in Hpl by (by right). done.
  - destruct (p a); [apply Forall_cons in Hall as [_ Hall]; simpl; f_equal|]; by apply IH.
Qed.

(** Only the project layers matter to the second check. *)
Lemma check_project_filter layers : forall previous,
  check_project_layers previous (List.filter (fun l => negb (is_user_layer l)) layers)
  = check_project_layers previous layers.
Proof.
  induction layers as [|a layers IH]; intros previous; [done|]. simpl. unfold is_user_layer, is_user.
  destruct (layer_name a) eqn:E; simpl; rewrite ?E; try apply IH.
  destruct (match previous with Some _ => _ | None => _ end); simpl; [apply IH|done].
Qed.

Lemma verify_other layers layers' :
  List.filter (fun l => negb (is_user_layer l)) layers'
    = List.filter (fun l => negb (is_user_layer l)) layers ->
  sorted_layers layers' = true ->
  verify_layer_ordering layers = Ok () -> verify_layer_ordering layers' = Ok ().
Proof.
  intros Hf Hs. unfold verify_layer_ordering. rewrite Hs. simpl.
  destruct (sorted_layers layers); [|done]. simpl. intros H.
  by rewrite <- check_project_filter, Hf, check_project_filter.
Qed.

Lemma insert_user_layers users : forall layers,
  sorted_layers layers = true -> sorted_layers users = true -> Forall (fun l => is_user_layer l = true) users ->
  Forall (fun l => Forall (fun u => below l u) users) (List.filter is_user_layer layers) ->
  let result := fold_left (fun layers u => insert_layer u layers) users layers in
  sorted_layers result = true
  /\ List.filter (fun l => negb (is_user_layer l)) result
     = List.filter (fun l => negb (is_user_layer l)) layers
  /\ List.filter is_user_layer result = List.filter is_user_layer layers ++ users.
Proof.
  induction users as [|u users IH]; intros layers Hs Hu Hall Hle result.
  { split_and!; [done|done|by rewrite app_nil_r]. }
  apply Forall_cons in Hall as [Huser Hall]. apply sorted_cons in Hu as [Hbelow Hu].
  assert (Hle1 : Forall (fun l => below l u) (List.filter is_user_layer layers)).
  { eapply Forall_impl; [exact Hle|]. intros l Hl. by apply Forall_cons in Hl as [Hl _]. }
  destruct (IH (insert_layer u layers)) as (H1 & H2 & H3); [by apply sorted_insert|done|done| |].
  - rewrite filter_insert_last by done. apply Forall_app. split; [|by constructor].
    eapply Forall_impl; [exact Hle|]. intros l Hl. by apply Forall_cons in Hl as [_ Hl].
  - split_and!; [exact H1| |].
    + unfold result. simpl. rewrite H2. apply filter_insert_other. by rewrite Huser.
    + unfold result. simpl. rewrite H3, filter_insert_last by done. by rewrite <- app_assoc.
Qed.

Lemma sorted_verified layers : verify_layer_ordering layers = Ok () -> sorted_layers layers = true.
Proof. unfold verify_layer_ordering. by destruct (sorted_layers layers). Qed.

Lemma In_insert_layer l new layers : In l (insert_layer new layers) <-> l = new \/ In l layers.
Proof.
  induction layers as [|a layers IH]; simpl; [naive_solver|].
  destruct (_ <? _)%Z; simpl; [naive_solver|]. rewrite IH. naive_solver.
Qed.

Lemma In_remove_first l p layers : p l = false -> In l (remove_first p layers) <-> In l layers.
Proof.
  intros Hp. induction layers as [|a layers IH]; simpl; [done|].
  destruct (p a) eqn:E; simpl; [|by rewrite IH]. split; [auto|]. intros [->|H]; [congruence|done].
Qed.

Lemma user_layer_user file profile config : is_user_layer (user_layer file profile config) = true.
Proof. done. Qed.

Lemma user_file_is_user file layer :
  is_user_file file layer = true -> negb (is_user_layer layer) = false.
Proof. unfold is_user_file, is_user_layer, is_user. by destruct (layer_name layer). Qed.

(** Replacing the layers of the user keeps a stack in order and touches
    nothing else.  Taking them from another verified stack leaves exactly those
    as user layers, in their order; replacing the layer of one file puts the new
    one in, keeps the layers of other files, and is refused only for an invalid
    configuration.  The required rules stay. *)
Theorem user_layers_replaced (self other : ConfigLayerStack) (file : str) (profile : option str)
    (config : Payload) :
  verify_layer_ordering (stack_layers self) = Ok () ->
  verify_layer_ordering (stack_layers other) = Ok () ->
  let others layers := List.filter (fun l => negb (is_user_layer l)) layers in
  let taken := with_user_layer_from self other in
  (verify_layer_ordering (stack_layers taken) = Ok ()
   /\ List.filter is_user_layer (stack_layers taken) = List.filter is_user_layer (stack_layers other)
   /\ others (stack_layers taken) = others (stack_layers self)
   /\ required_exec_policy taken = required_exec_policy self)
  /\ match with_user_config_profile self file profile config with
     | Ok replaced =>
         verify_layer_ordering (stack_layers replaced) = Ok ()
         /\ others (stack_layers replaced) = others (stack_layers self)
         /\ In (user_layer file profile config) (stack_layers replaced)
         /\ (forall layer, In layer (stack_layers self) -> is_user_file file layer = false ->
             In layer (stack_layers replaced))
         /\ required_exec_policy replaced = required_exec_policy self
     | Err _ => filter_config_error config <> None
     end.
Proof.
  intros Hself Hother others taken. split.
  - pose proof (sorted_verified _ Hself) as Hs. pose proof (sorted_verified _ Hother) as Ho.
    assert (Hnone : List.filter is_user_layer (others (stack_layers self)) = []).
    { clear. induction (stack_layers self) as [|a l IH]; [done|]. unfold others. simpl.
      by destruct (is_user_layer a) eqn:E; simpl; rewrite ?E. }
    destruct (insert_user_layers (List.filter is_user_layer (stack_layers other))
      (others (stack_layers self))) as (H1 & H2 & H3); [by apply sorted_filter|by apply sorted_filter| | |].
    + apply Forall_forall. intros l [_ Hl]%list_elem_of_In%filter_In. done.
    + by rewrite Hnone.
    + rewrite Hnone in H3. simpl in H3.
      assert (Hothers : others (stack_layers taken) = others (stack_layers self)).
      { etransitivity; [exact H2|]. unfold others.
        clear. induction (stack_layers self) as [|a l IH]; [done|]. simpl.
        destruct (is_user_layer a) eqn:E; simpl; rewrite ?E; simpl; [done|by f_equal]. }
      split_and!; [|exact H3|exact Hothers|done]. by eapply verify_other.
  - unfold with_user_config_profile. simpl.
    destruct (filter_config_error config) as [error|]; simpl; [done|].
    set (new := user_layer file profile config).
    assert (Hothers : others (insert_layer new (remove_first (is_user_file file) (stack_layers self)))
                      = others (stack_layers self)).
    { unfold others. rewrite filter_insert_other by done.
      apply filter_remove_other, user_file_is_user. }
    split_and!; [|exact Hothers|by apply In_insert_layer; left| |done].
    + eapply verify_other; [exact Hothers| |exact Hself].
      by apply sorted_insert, sorted_remove_first, sorted_verified.
    + intros layer Hin Hfile. apply In_insert_layer. right. by apply In_remove_first.
Qed.

End layers.

Arguments ConfigLayerEntry : clear implicits.
Arguments ConfigLayerStack : clear implicits.

(** ** Examples *)

Definition demo_layer (source : ConfigLayerSource) : ConfigLayerEntry () := mkLayer source () None.

Definition demo_stack (user : str) : ConfigLayerStack () :=
  mkStack
    [demo_layer (SystemConfig ($"/etc/codex/config.toml"));
     demo_layer (UserConfig user None);
     demo_layer (ProjectConfig ($"/w/.codex"));
     demo_layer (ProjectConfig ($"/w/sub/.codex"));
     demo_layer SessionFlags] None false.

Example layer_orders :
  verify_layer_ordering (stack_layers (demo_stack ($"/home/u/.codex/config.toml"))) = Ok ()
  /\ verify_layer_ordering
       [demo_layer (ProjectConfig ($"/w/sub/.codex")); demo_layer (ProjectConfig ($"/w/.codex"))]
     = Err (order_error ($"project layers are not ordered from root to cwd"))
  /\ verify_layer_ordering
       [demo_layer SessionFlags; demo_layer (ProjectConfig ($"/w/.codex"))]
     = Err (order_error ($"config layers are not in correct precedence order"))
  /\ config_folder (demo_layer (SystemConfig ($"/etc/codex/config.toml"))) = Some ($"/etc/codex").
Proof. repeat split; vm_compute; reflexivity. Qed.

Lemma user_layers_replaced_witness :
  let self := demo_stack ($"/home/u/.codex/config.toml") in
  let other := demo_stack ($"/home/v/.codex/config.toml") in
  verify_layer_ordering (stack_layers self) = Ok ()
  /\ List.filter is_user_layer (stack_layers (with_user_layer_from self other))
     = [demo_layer (UserConfig ($"/home/v/.codex/config.toml") None)].
Proof.
  intros self other.
  assert (Hs : verify_layer_ordering (stack_layers self) = Ok ()) by (vm_compute; reflexivity).
  assert (Ho : verify_layer_ordering (stack_layers other) = Ok ()) by (vm_compute; reflexivity).
  split; [exact Hs|].
  destruct (user_layers_replaced (fun _ => None) self other ($"/home/u/.codex/config.toml") None () Hs Ho)
    as ((_ & H & _) & _). rewrite H. reflexivity.
Defined.
