(* ===== verification/PolicyLoading.v ===== *)
(** * Loading the execution policy (core/src/exec_policy.rs)

    The rule files of all configuration layers are read and parsed in order, and
    the required rules are laid over the result.  A file that does not parse
    costs the user all the files, never the required rules.

    Directories and files are what [read_dir] and [read_to_string] answer; the
    other parameters are those of the policy parser. *)

From S2P Require Import Prelude RustStr PatchTypes StateM AbsolutePath ExecRules ExecPolicy PolicyBuiltins RequiredRules ConfigLayers ExecApproval.

Definition RULE_EXTENSION : str := $"rules".

Inductive ExecPolicyError : Type :=
| ReadDirError (dir : str) (source : io_error)
| ReadFileError (path : str) (source : io_error)
| ParsePolicyError (path : str) (source : Error).

(** An entry of a directory: its path, and whether it is a file. *)
Record DirEntry : Type := mkEntry { entry_path : str; entry_is_file : result bool io_error }.

(** [Path::extension]. *)
Definition extension (path : str) : option str :=
  match AbsolutePath.file_name path with
  | Some name =>
      match rsplit_once 46%N name with
      | Some (before, after) => if is_empty before then None else Some after
      | None => None
      end
  | None => None
  end.

(** The order of paths: component by component, names by their bytes. *)
Definition component_rank (c : AbsolutePath.Component) : nat :=
  match c with
  | AbsolutePath.RootDir => 0
  | AbsolutePath.CurDir => 1
  | AbsolutePath.ParentDir => 2
  | AbsolutePath.Normal _ => 3
  end.

Definition component_leb (a b : AbsolutePath.Component) : bool :=
  match a, b with
  | AbsolutePath.Normal x, AbsolutePath.Normal y => Policy.lex_leb N.leb x y
  | _, _ => component_rank a <=? component_rank b
  end.

Definition path_leb (a b : str) : bool :=
  Policy.lex_leb component_leb (AbsolutePath.components a) (AbsolutePath.components b).

Fixpoint insert_path (x : str) (l : list str) : list str :=
  match l with
  | [] => [x]
  | y :: l' => if path_leb x y then x :: l else y :: insert_path x l'
  end.

Definition sort_paths (l : list str) : list str := fold_right insert_path [] l.

Section env.
Context (home_directory : option str) (current_dir : result str io_error).
Context (shlex_split : str -> option (list str)) (try_join : list str -> option str).
Context (debug_rule : PrefixRule -> str) (debug_match : RuleMatch -> str).
Context (starlark_parse : str -> str -> result PolicyBuiltins.Program Error).
Context (starlark_wrap : Error -> Error).
Context (read_dir : str -> result (list (result DirEntry io_error)) io_error).
Context (read_to_string : str -> result str io_error).
Context {Payload : Type}.

(** One step of [next_entry]. *)
Definition rule_file (dir : str) (entry : result DirEntry io_error)
  : result (option str) ExecPolicyError :=
  let? entry := map_err (ReadDirError dir) entry in
  let? is_file := map_err (ReadDirError dir) (entry_is_file entry) in
  Ok (if bool_decide (extension (entry_path entry) = Some RULE_EXTENSION) && is_file
      then Some (entry_path entry) else None).

Definition collect_policy_files (dir : str) : result (list str) ExecPolicyError :=
  match read_dir dir with
  | Err err =>
      if bool_decide (io_kind err = KNotFound) then Ok [] else Err (ReadDirError dir err)
  | Ok entries =>
      let? policy_paths := collect_results (rule_file dir) entries in
      Ok (sort_paths (omap id policy_paths))
  end.

(** The layers whose rules count. *)
Definition is_skipped_source (source : ConfigLayerSource) : bool :=
  match source with UserConfig _ _ | ProjectConfig _ => true | _ => false end.

Definition rule_layers (stack : ConfigLayerStack Payload) : list (ConfigLayerEntry Payload) :=
  List.filter (fun layer => negb (ignore_user_and_project_exec_policy_rules stack
                                  && is_skipped_source (layer_name layer)))
    (layers_low_to_high stack).

Definition policy_dir (config_folder : str) : str :=
  AbsolutePath.abs_join home_directory config_folder RULES_DIR_NAME.

Definition layer_policy_paths (layer : ConfigLayerEntry Payload)
  : result (list str) ExecPolicyError :=
  match config_folder layer with
  | Some folder => collect_policy_files (policy_dir folder)
  | None => Ok []
  end.

Definition policy_paths (stack : ConfigLayerStack Payload) : result (list str) ExecPolicyError :=
  let? paths := collect_results layer_policy_paths (rule_layers stack) in Ok (concat paths).

Definition to_exec_policy_error (e : PolicyBuiltins.LoadError) : ExecPolicyError :=
  match e with
  | PolicyBuiltins.FailedToRead path source => ReadFileError path source
  | PolicyBuiltins.FailedToParse path source => ParsePolicyError path source
  end.

(** The files in order: read, parse, up to the first error. *)
Definition parse_policy_files (paths : list str) : outcome Policy.Policy ExecPolicyError :=
  match PolicyBuiltins.load_policies home_directory current_dir shlex_split try_join debug_rule
          debug_match starlark_parse starlark_wrap read_to_string paths with
  | Done policy => Done policy
  | Fail e => Fail (to_exec_policy_error e)
  | Panic => Panic
  end.

Definition load_exec_policy (stack : ConfigLayerStack Payload)
  : outcome Policy.Policy ExecPolicyError :=
  let! paths := of_result (policy_paths stack) in
  let! policy := parse_policy_files paths in
  Done match required_exec_policy stack with
       | None => policy
       | Some required => Policy.merge_overlay policy required
       end.

Definition load_exec_policy_with_warning (stack : ConfigLayerStack Payload)
  : outcome (Policy.Policy * option ExecPolicyError) ExecPolicyError :=
  match load_exec_policy stack with
  | Done policy => Done (policy, None)
  | Fail (ParsePolicyError path source) =>
      Done (default Policy.empty (required_exec_policy stack), Some (ParsePolicyError path source))
  | Fail err => Fail err
  | Panic => Panic
  end.

(** ** Which files are read *)

Lemma insert_path_perm x l : Permutation (insert_path x l) (x :: l).
Proof.
  induction l as [|y l IH]; simpl; [done|]. destruct (path_leb x y); [done|]. by rewrite IH, perm_swap.
Qed.

Lemma sort_paths_perm l : Permutation (sort_paths l) l.
Proof. induction l as [|x l IH]; simpl; [done|]. by rewrite insert_path_perm, IH. Qed.

(** A rule file of a directory. *)
Definition is_rule_file (dir path : str) : Prop :=
  exists entries, read_dir dir = Ok entries /\ In (Ok (mkEntry path (Ok true))) entries
    /\ extension path = Some RULE_EXTENSION.

Lemma rule_file_Some dir entry path :
  rule_file dir entry = Ok (Some path) <->
  entry = Ok (mkEntry path (Ok true)) /\ extension path = Some RULE_EXTENSION.
Proof.
  unfold rule_file. split.
  - destruct entry as [[p [b|]]|]; simpl; [|done..].
    case_bool_decide as E; simpl; [|done]. destruct b; [|done]. by intros [= <-].
  - intros [-> E]. simpl. by rewrite bool_decide_eq_true_2.
Qed.

Lemma collect_policy_files_ok dir paths path :
  collect_policy_files dir = Ok paths -> In path paths <-> is_rule_file dir path.
Proof.
  unfold collect_policy_files, is_rule_file. destruct (read_dir dir) as [entries|err].
  - pose proof (collect_results_all (rule_file dir) entries) as H.
    destruct (collect_results (rule_file dir) entries) as [found|]; [|done]. simpl.
    intros [= <-]. rewrite <- list_elem_of_In, sort_paths_perm, list_elem_of_omap. split.
    + intros (o & Ho & Eo). change (o = Some path) in Eo. subst o. apply list_elem_of_In in Ho.
      apply (Forall2_In_r _ _ _ _ H) in Ho as (entry & Hin & Hentry).
      apply rule_file_Some in Hentry as [-> Hext]. by exists entries.
    + intros (entries' & [= <-] & Hin & Hext).
      apply (Forall2_In_l _ _ _ _ H) in Hin as (o & Ho & Hentry).
      rewrite (proj2 (rule_file_Some dir _ path) (conj eq_refl Hext)) in Hentry.
      injection Hentry as <-.
      exists (Some path). split; [by apply list_elem_of_In|done].
  - case_bool_decide; [|done]. intros [= <-]. split; [done|]. by intros (? & ? & _).
Qed.

(** The files read: the rule files of the enabled layers that count. *)
Lemma policy_paths_ok stack paths path :
  policy_paths stack = Ok paths ->
  In path paths <->
  exists layer folder, In layer (stack_layers stack) /\ disabled_reason layer = None
    /\ config_folder layer = Some folder
    /\ (ignore_user_and_project_exec_policy_rules stack = true ->
        is_skipped_source (layer_name layer) = false)
    /\ is_rule_file (policy_dir folder) path.
Proof.
  unfold policy_paths. pose proof (collect_results_all layer_policy_paths (rule_layers stack)) as H.
  destruct (collect_results layer_policy_paths (rule_layers stack)) as [found|]; [|done]. simpl.
  intros [= <-].
  assert (Hlayer : forall layer, In layer (rule_layers stack) <->
    In layer (stack_layers stack) /\ disabled_reason layer = None
    /\ (ignore_user_and_project_exec_policy_rules stack = true ->
        is_skipped_source (layer_name layer) = false)).
  { intros layer. unfold rule_layers, layers_low_to_high. rewrite !filter_In.
    unfold is_disabled. destruct (disabled_reason layer); simpl;
      destruct (ignore_user_and_project_exec_policy_rules stack), (is_skipped_source _);
      simpl; naive_solver. }
  rewrite in_concat. split.
  - intros (ps & Hps & Hp). apply (Forall2_In_r _ _ _ _ H) in Hps as (layer & Hin & Hl).
    unfold layer_policy_paths in Hl. destruct (config_folder layer) as [folder|] eqn:Ef;
      [|by injection Hl as <-].
    apply (collect_policy_files_ok _ _ path) in Hl. apply Hlayer in Hin as (H1 & H2 & H3).
    exists layer, folder. split_and!; [done..|]. by apply Hl.
  - intros (layer & folder & Hin & Hd & Hf & Hskip & Hfile).
    destruct (Forall2_In_l _ _ _ layer H) as (ps & Hps & Hl); [by apply Hlayer|].
    exists ps. split; [done|]. unfold layer_policy_paths in Hl. rewrite Hf in Hl.
    by apply (collect_policy_files_ok _ _ path) in Hl; apply Hl.
Qed.

Lemma parse_policy_files_total paths : parse_policy_files paths <> Panic.
Proof.
  unfold parse_policy_files. pose proof (PolicyBuiltins.loaded_policy_wf home_directory current_dir
    shlex_split try_join debug_rule debug_match starlark_parse starlark_wrap read_to_string paths) as H.
  by destruct (PolicyBuiltins.load_policies _ _ _ _ _ _ _ _ _ paths).
Qed.

Lemma policy_paths_error stack e :
  policy_paths stack = Err e -> exists dir source, e = ReadDirError dir source.
Proof.
  unfold policy_paths. pose proof (collect_results_all layer_policy_paths (rule_layers stack)) as H.
  destruct (collect_results layer_policy_paths (rule_layers stack)) as [found|e'] eqn:E; [done|].
  simpl. intros [= <-]. clear H. revert e' E.
  assert (Hdir : forall dir e', collect_policy_files dir = Err e' -> exists d source, e' = ReadDirError d source).
  { intros dir e'. unfold collect_policy_files. destruct (read_dir dir) as [entries|err].
    - destruct (collect_results (rule_file dir) entries) as [|e1] eqn:E; [done|]. intros [= <-].
      revert E. induction entries as [|entry entries IH]; [done|]. simpl.
      destruct (rule_file dir entry) as [o|e2] eqn:Er; simpl.
      + by destruct (collect_results (rule_file dir) entries).
      + intros [= <-]. unfold rule_file in Er.
        destruct entry as [[p [b|err]]|err]; simpl in Er; [done|injection Er as <-..]; by eexists _, _.
    - case_bool_decide; [done|]. intros [= <-]. by eexists _, _. }
  induction (rule_layers stack) as [|layer layers IH]; intros e'; simpl; [done|].
  destruct (layer_policy_paths layer) as [ps|e1] eqn:El; simpl.
  - destruct (collect_results layer_policy_paths layers) as [|e2]; [done|]. intros [= <-].
    by apply IH.
  - intros [= <-]. unfold layer_policy_paths in El. destruct (config_folder layer); [|done].
    by eapply Hdir.
Qed.

(** However loading goes, the required rules are in force.  When it ends with
    a policy, every rule of the required policy that matches a command counts in
    its decision.  The other rules come from the rule files of the enabled layers,
    leaving out the user and the projects when told to, or, when a file does not
    parse, from nowhere.  Only a directory or a file that cannot be read is an
    error, and nothing panics. *)
Theorem loading_keeps_required_rules (stack : ConfigLayerStack Payload) :
  match load_exec_policy_with_warning stack with
  | Done (policy, warning) =>
      (forall required cmd m, required_exec_policy stack = Some required ->
        In m (default [] (Policy.match_exact_rules required cmd)) ->
        forall home cwd h options e,
          Policy.check_with_options home cwd policy cmd h options = Some e ->
          In m (Policy.matched_rules e)
          /\ strictness (match_decision m) <= strictness (Policy.eval_decision e))
      /\ match warning with
         | None =>
             exists paths files, parse_policy_files paths = Done files
               /\ policy = match required_exec_policy stack with
                           | None => files
                           | Some required => Policy.merge_overlay files required
                           end
               /\ forall path, In path paths <->
                    exists layer folder, In layer (stack_layers stack) /\ disabled_reason layer = None
                      /\ config_folder layer = Some folder
                      /\ (ignore_user_and_project_exec_policy_rules stack = true ->
                          is_skipped_source (layer_name layer) = false)
                      /\ is_rule_file (policy_dir folder) path
         | Some _ => policy = default Policy.empty (required_exec_policy stack)
         end
  | Fail (ParsePolicyError _ _) => False
  | Fail _ => True
  | Panic => False
  end.
Proof.
  assert (Hcount : forall policy required, (policy = required
      \/ exists files, policy = Policy.merge_overlay files required) ->
    forall cmd m, In m (default [] (Policy.match_exact_rules required cmd)) ->
    forall home cwd h options e, Policy.check_with_options home cwd policy cmd h options = Some e ->
    In m (Policy.matched_rules e)
    /\ strictness (match_decision m) <= strictness (Policy.eval_decision e)).
  { intros policy required Hp cmd m Hm home cwd h options e He.
    eapply exact_rules_count; [exact He|]. destruct Hp as [->|[files ->]]; [done|].
    rewrite merged_exact. apply in_app_iff. by right. }
  unfold load_exec_policy_with_warning, load_exec_policy.
  destruct (policy_paths stack) as [paths|e] eqn:Ep; simpl.
  - pose proof (parse_policy_files_total paths) as Htotal.
    destruct (parse_policy_files paths) as [files|[dir s|path s|path s]|] eqn:Ef; simpl; try done.
    + split.
      * intros required cmd m Hreq. apply Hcount. right. rewrite Hreq. by exists files.
      * exists paths, files. split_and!; [done|done|]. intros path. by apply policy_paths_ok.
    + split; [|done]. intros required cmd m Hreq. apply Hcount. left. by rewrite Hreq.
  - destruct (policy_paths_error _ _ Ep) as (dir & s & ->). done.
Qed.

End env.

(** ** Examples *)

Definition demo_read_dir (dir : str) : result (list (result DirEntry io_error)) io_error :=
  if bool_decide (dir = $"/etc/codex/rules") then
    Ok [Ok (mkEntry ($"/etc/codex/rules/z.rules") (Ok true));
        Ok (mkEntry ($"/etc/codex/rules/notes.txt") (Ok true));
        Ok (mkEntry ($"/etc/codex/rules/a.rules") (Ok true));
        Ok (mkEntry ($"/etc/codex/rules/.rules") (Ok true));
        Ok (mkEntry ($"/etc/codex/rules/old.rules") (Ok false))]
  else if bool_decide (dir = $"/w/.codex/rules") then
    Ok [Ok (mkEntry ($"/w/.codex/rules/default.rules") (Ok true))]
  else Err (mkIo KNotFound ($"no such directory")).

Definition demo_paths (ignore : bool) : result (list str) ExecPolicyError :=
  policy_paths None demo_read_dir
    (mkStack (stack_layers (demo_stack ($"/home/u/.codex/config.toml"))) None ignore).

Example files_in_order :
  demo_paths false = Ok [$"/etc/codex/rules/a.rules"; $"/etc/codex/rules/z.rules";
                         $"/w/.codex/rules/default.rules"]
  /\ demo_paths true = Ok [$"/etc/codex/rules/a.rules"; $"/etc/codex/rules/z.rules"].
Proof. split; vm_compute; reflexivity. Qed.

(** A file that does not parse: the required rules are all that is left. *)
Example broken_file_keeps_required_rules :
  load_exec_policy_with_warning None (Err (mkIo KOther [])) (fun _ => None) (fun _ => None)
    (fun _ => []) (fun _ => []) (fun _ _ => Err (InvalidRule ($"oops"))) (fun e => e) demo_read_dir
    (fun _ => Ok [])
    (mkStack (stack_layers (demo_stack ($"/home/u/.codex/config.toml"))) (Some demo_required) false)
  = Done (demo_required,
          Some (ParsePolicyError ($"/etc/codex/rules/a.rules") (InvalidRule ($"oops")))).
Proof. vm_compute. reflexivity. Qed.
