(* ===== verification/ExecManager.v ===== *)
(** * The policy manager (core/src/exec_policy.rs, exec_policy/executable_identity.rs)

    The manager holds the policy in memory and the policy file on disk.  An
    amendment is first appended to the file and then added to the policy; a shell
    nobody configured is judged by its own name next to the commands it seems to
    be given.  Updates take turns (the semaphore is never closed), so each one is
    a computation on the files and the policy.  The checks on the location of an
    executable are those of Unix. *)

From S2P Require Import Prelude RustStr Utf8 PatchTypes StateM ExecutorFs PathUri ApiPath FileUrls SandboxPolicy AbsolutePath ExecRules ExecPolicy PolicyFiles ExecAmend ShellTree PowerShell DangerousCommand ConfigLayers ExecApproval ExecApprovalProps.

Import PolicyFiles ExecAmend.

Inductive ExecPolicyUpdateError : Type :=
| AppendRule (path : str) (source : AmendError)
| JoinBlockingTask
| AddRule (source : Error).

Record ManagerState : Type := mkManager { on_disk : World; in_memory : Policy.Policy }.

Definition with_policy (p : Policy.Policy) (s : ManagerState) : ManagerState :=
  mkManager (on_disk s) p.

Definition default_policy_path (codex_home : str) : str :=
  AbsolutePath.path_join (AbsolutePath.path_join codex_home RULES_DIR_NAME) DEFAULT_POLICY_FILE.

(** A blocking task on the files of the disk; joining one that panicked fails. *)
Definition spawn_blocking (policy_path : str) (task : stM World AmendError ())
  : stM ManagerState ExecPolicyUpdateError () := fun s =>
  match task (on_disk s) with
  | (Done _, w) => (Done (), mkManager w (in_memory s))
  | (Fail source, w) => (Fail (AppendRule policy_path source), mkManager w (in_memory s))
  | (Panic, w) => (Fail JoinBlockingTask, mkManager w (in_memory s))
  end.

Section updates.
Context `{CommandCrates}.
Context (fault : FileOp -> option io_error) (partial : list N -> nat).
Context (json_string : str -> result str str) (show_rule_error : Error -> str).

(** Is the amendment allowed already, by rules only? *)
Definition already_allowed (policy : Policy.Policy) (amendment : list str) : option bool :=
  evaluation ← Policy.check_multiple_with_options home_directory current_dir policy [amendment]
                 (fun _ => Forbidden) host_options;
  Some (bool_decide (Policy.eval_decision evaluation = Allow)
        && existsb (decided_by_rule Allow) (Policy.matched_rules evaluation)).

Definition append_amendment_and_update (codex_home : str) (amendment : list str)
  : stM ManagerState ExecPolicyUpdateError () :=
  let policy_path := default_policy_path codex_home in
  let* _ := spawn_blocking policy_path
              (blocking_append_allow_prefix_rule fault partial json_string policy_path amendment) in
  let* s := st_get in
  let current_policy := in_memory s in
  let* already := st_lift (or_panic (already_allowed current_policy amendment)) in
  if already : bool then st_ret ()
  else
    let* updated_policy :=
      st_try (map_err AddRule (Policy.add_prefix_rule current_policy amendment Allow)) in
    st_modify (with_policy updated_policy).

Definition append_network_rule_and_update (codex_home host : str) (protocol : NetworkRuleProtocol)
    (d : Decision) (justification : option str) : stM ManagerState ExecPolicyUpdateError () :=
  let policy_path := default_policy_path codex_home in
  let* _ := spawn_blocking policy_path
              (blocking_append_network_rule fault partial json_string show_rule_error policy_path host
                 protocol d justification) in
  let* s := st_get in
  let* updated_policy :=
    st_try (map_err AddRule (Policy.add_network_rule (in_memory s) host protocol d justification)) in
  st_modify (with_policy updated_policy).

(** ** Saving a rule *)

Lemma already_allowed_spec policy amendment :
  exists b, already_allowed policy amendment = Some b
    /\ (b = true -> allowed_by_rule policy amendment = true).
Proof.
  unfold already_allowed.
  destruct (check_multiple_Some policy (fun _ => Forbidden) [amendment]) as (d & -> & _ & _); [done|].
  eexists. split; [reflexivity|]. simpl. rewrite app_nil_r. intros [_ Hb]%andb_true_iff.
  unfold allowed_by_rule. rewrite matches_fallback in Hb.
  destruct (Policy.matches_for_command_with_options _ _ policy amendment None host_options); done.
Qed.

(** The rules under other names stay. *)
Lemma add_prefix_rule_other p prefix p' cmd :
  Policy.add_prefix_rule p prefix Allow = Ok p' -> hd_error cmd <> hd_error prefix ->
  Policy.match_exact_rules p' cmd = Policy.match_exact_rules p cmd.
Proof.
  intros Hp Hne. destruct prefix as [|c0 args]; [done|]. simpl in Hp. injection Hp as <-.
  destruct cmd as [|d0 rest]; [done|]. rewrite !Policy.match_exact_rules_of. simpl.
  rewrite Policy.rules_of_insert, decide_False; [done|]. intros ->. done.
Qed.

(** C31: Approving a rule for good makes it so on disk and in memory together.
    When it succeeds the policy file has the line of the rule, nothing else on
    disk changed, the policy allows the command by a rule, and the rules under
    other names are as they were.  When it fails the policy is unchanged and the
    file has lost nothing.  It never panics. *)
Theorem amendment_saved_and_active `{!JsonString json_string} (codex_home : str)
    (amendment : list str) (s0 : ManagerState) :
  let path := default_policy_path codex_home in
  match append_amendment_and_update codex_home amendment s0 with
  | (Done _, s) =>
      (exists tokens contents,
        collect_results json_string amendment = Ok tokens
        /\ from_utf8 (file_bytes path (on_disk s0)) = Ok contents
        /\ files (on_disk s) !! path = Some (encode (with_line contents (allow_rule_text tokens)))
        /\ forall p, p <> path -> files (on_disk s) !! p = files (on_disk s0) !! p)
      /\ allowed_by_rule (in_memory s) amendment = true
      /\ forall cmd, hd_error cmd <> hd_error amendment ->
          Policy.match_exact_rules (in_memory s) cmd = Policy.match_exact_rules (in_memory s0) cmd
  | (Fail _, s) => in_memory s = in_memory s0 /\ appends path (on_disk s0) (on_disk s)
  | (Panic, _) => False
  end.
Proof.
  intros path. unfold append_amendment_and_update, st_bind, spawn_blocking. fold path.
  pose proof (append_allow_rule_effect fault partial json_string path amendment (on_disk s0)) as Hfile.
  destruct (blocking_append_allow_prefix_rule fault partial json_string path amendment (on_disk s0))
    as [[[]|e|] w]; [|done|done].
  destruct Hfile as (Hne & tokens & contents & Ht & Hc & Hother & Hnew & _). simpl.
  destruct (already_allowed_spec (in_memory s0) amendment) as (b & Hb & Ballow).
  unfold st_lift. rewrite Hb. simpl.
  assert (Hdisk : exists tokens contents,
        collect_results json_string amendment = Ok tokens
        /\ from_utf8 (file_bytes path (on_disk s0)) = Ok contents
        /\ files w !! path = Some (encode (with_line contents (allow_rule_text tokens)))
        /\ forall p, p <> path -> files w !! p = files (on_disk s0) !! p)
    by (by exists tokens, contents).
  destruct b; simpl; [split_and!; [exact Hdisk|by apply Ballow|done]|].
  unfold st_try. destruct (Policy.add_prefix_rule (in_memory s0) amendment Allow) as [p'|e] eqn:Ep.
  - simpl. split_and!; [exact Hdisk|by eapply added_rule_allows|].
    intros cmd. by apply (add_prefix_rule_other _ _ _ _ Ep).
  - by destruct amendment.
Qed.

End updates.

(** ** The identity of the executable *)

Section identity.
Context `{CommandCrates} {Url : Type} `{UrlCrates Url} `{Unreachable Url}.
Context (native : PathConvention).
Abbreviation Request := (@ExecApprovalRequest Url) (only parsing).

(** [shell_approval_command]: the whole command when its executable can be
    trusted to run it, else the executable alone.  [zsh_fork] is the shell mode. *)
Definition is_system_shell (executable : str) : bool :=
  match AbsolutePath.path_parent executable with
  | Some parent => same_path parent ($"/bin") || same_path parent ($"/usr/bin")
  | None => false
  end.

Definition shell_approval_command (command : list str) (configured_shell : str) (zsh_fork : bool)
  : list str :=
  match command with
  | [] => command
  | executable :: _ =>
      if same_path executable configured_shell || is_system_shell executable || zsh_fork
      then command else [executable]
  end.

(** The commands a shell seems to be given, and whether PowerShell gave them. *)
Definition shell_policy_commands (command : list str) (command_platform : DangerousCommandPlatform)
  : list (list str) * ExecPolicyCommandOrigin :=
  match (if bool_decide (command_platform = OnWindows) then extract_powershell_command command
         else None) with
  | Some (_, script) =>
      (default [command] (parse_powershell_script_into_plain_commands debug_char powershell_tree_of
                            script), FromPowerShell)
  | None => commands_for_exec_policy_for_platform command command_platform
  end.

Definition with_command (command : list str) (req : Request) : Request :=
  mkRequest command (req_approval_policy req) (req_permission_profile req)
    (req_environment_policy req) (req_windows_sandbox_level req) (req_sandbox_permissions req)
    (req_prefix_rule req) (req_allow_prefix_rules req).

Definition create_exec_approval_requirement_for_shell (policy : Policy.Policy) (req : Request)
    (configured_shell : str) (zsh_fork : bool) (command_platform : DangerousCommandPlatform)
  : option ExecApprovalRequirement.t :=
  let command := req_command req in
  let executable := shell_approval_command command configured_shell zsh_fork in
  if length executable =? length command
  then create_exec_approval_requirement_for_command_platform native policy req command_platform
  else
    let '(commands, origin) := shell_policy_commands command command_platform in
    requirement_for_parsed_commands native policy (with_command executable req)
      (executable :: commands) origin command_platform.

(** An executable nobody knows gains nothing from what it seems to run.  The
    command runs unasked only when the executable by itself is cleared, and
    leaves the sandbox only when a rule allows the executable itself; what it
    seems to run can still forbid it.  A known shell is judged by the command. *)
Theorem unfamiliar_executable_gains_nothing (policy : Policy.Policy) (req : Request)
    (configured_shell : str) (zsh_fork : bool) (platform : DangerousCommandPlatform)
    (executable : str) (args : list str) :
  req_command req = executable :: args -> args <> [] ->
  let p := in_force policy req in
  let '(commands, origin) := shell_policy_commands (req_command req) platform in
  let requirement :=
    create_exec_approval_requirement_for_shell policy req configured_shell zsh_fork platform in
  if same_path executable configured_shell || is_system_shell executable || zsh_fork
  then requirement = create_exec_approval_requirement_for_command_platform native policy req platform
  else exists r, requirement = Some r
    /\ (forall bypass a, r = ExecApprovalRequirement.Skip bypass a ->
        cleared p (request_fallback native req origin platform) [executable])
    /\ (forall a, r = ExecApprovalRequirement.Skip true a -> exists m,
        In m (Policy.matches_for_command_with_options home_directory current_dir p [executable] None
                host_options) /\ match_decision m = Allow)
    /\ (forall c m, In c commands ->
        In m (Policy.matches_for_command_with_options home_directory current_dir p c None host_options) ->
        match_decision m = Forbidden -> exists reason, r = ExecApprovalRequirement.Forbidden reason).
Proof.
  intros Hcmd Hargs p. destruct (shell_policy_commands (req_command req) platform)
    as [commands origin] eqn:Es. cbv zeta.
  unfold create_exec_approval_requirement_for_shell. rewrite Es, Hcmd. unfold shell_approval_command.
  destruct (same_path executable configured_shell || is_system_shell executable || zsh_fork).
  { by rewrite Nat.eqb_refl. }
  destruct args as [|a args]; [done|]. simpl.
  destruct (requirement_decided native policy (with_command [executable] req)
    ([executable] :: commands) origin platform) as (r & E & Hskip & Hbypass & Hforb & _); [done|].
  exists r. split; [exact E|]. split_and!.
  - intros bypass b ->. apply Hskip; [by eexists _, _|by left].
  - intros b ->. eapply Hbypass; [done|by left].
  - intros c m Hc. apply Hforb. by right.
Qed.

End identity.

(** ** Examples *)

Import FileUrls.

Definition shell_request (command : list str) : @ExecApprovalRequest FileUrl :=
  mkRequest command Never ProfileDisabled None LevelDisabled UseDefault None Honor.

(** [prefix_rule(["bash"], decision="allow")] *)
Definition allow_bash : Policy.Policy :=
  Policy.new {[ ($"bash" : list N) := [mkRule (mkPattern ($"bash") []) Allow None] ]}.

Example shells_by_identity :
  create_exec_approval_requirement_for_shell Posix allow_bash (shell_request [$"bash"; $"-c"; $"ls"])
    ($"/bin/zsh") false OnPosix = Some (ExecApprovalRequirement.Skip true None)
  /\ create_exec_approval_requirement_for_shell Posix allow_bash
       (shell_request [$"/tmp/mine"; $"-c"; $"ls"]) ($"/bin/zsh") false OnPosix
     = Some (ExecApprovalRequirement.Skip false (Some [$"/tmp/mine"]))
  /\ is_system_shell ($"/usr/bin/zsh") = true /\ is_system_shell ($"/usr/local/bin/zsh") = false.
Proof. split_and!; vm_compute; reflexivity. Qed.

Lemma unfamiliar_executable_gains_nothing_witness :
  let req := shell_request [$"bash"; $"-c"; $"ls"] in
  exists r, create_exec_approval_requirement_for_shell Posix allow_bash req ($"/bin/zsh") false OnPosix
            = Some r
    /\ (forall bypass a, r = ExecApprovalRequirement.Skip bypass a ->
        cleared (in_force allow_bash req) (request_fallback Posix req Generic OnPosix) [$"bash"]).
Proof.
  intros req. pose proof (unfamiliar_executable_gains_nothing Posix allow_bash req ($"/bin/zsh") false
    OnPosix ($"bash") [$"-c"; $"ls"] eq_refl ltac:(done)) as H.
  assert (shell_policy_commands (req_command req) OnPosix = ([[$"bash"; $"-c"; $"ls"]], Generic)) as E
    by (vm_compute; reflexivity).
  cbv zeta in H. rewrite E in H.
  assert (same_path ($"bash") ($"/bin/zsh") || is_system_shell ($"bash") || false = false) as E2
    by (vm_compute; reflexivity).
  rewrite E2 in H. destruct H as (r & Hr & Hs & _). by exists r.
Defined.

Lemma amendment_saved_and_active_witness :
  exists s, append_amendment_and_update (fun _ => None) (fun _ => 0) plain_json ($"/home/u/.codex")
      [$"git"; $"log"] (mkManager (mkWorld ∅ ∅) no_push) = (Done (), s)
    /\ allowed_by_rule (in_memory s) [$"git"; $"log"] = true.
Proof.
  pose proof (amendment_saved_and_active (fun _ => None) (fun _ => 0) plain_json ($"/home/u/.codex")
    [$"git"; $"log"] (mkManager (mkWorld ∅ ∅) no_push)) as H.
  assert (match append_amendment_and_update (fun _ => None) (fun _ => 0) plain_json ($"/home/u/.codex")
      [$"git"; $"log"] (mkManager (mkWorld ∅ ∅) no_push) with (Done _, _) => true | _ => false end
    = true) as E by (vm_compute; reflexivity).
  destruct (append_amendment_and_update _ _ _ _ _ _) as [[[]|e|] s]; try discriminate E.
  exists s. split; [reflexivity|]. apply H.
Defined.
