(* ===== verification/NetworkDecision.v ===== *)
(** * Decisions on network requests

    The answer of the proxy to a request, who gave it, why, and what the audit
    records of it (network-proxy/src/network_policy.rs and reasons.rs): shared by
    the proxy, the tool that approves network access and the orchestrator. *)

From S2P Require Import Prelude RustStr.

Definition REASON_DENIED : str := $"denied".
Definition REASON_METHOD_NOT_ALLOWED : str := $"method_not_allowed".
Definition REASON_MITM_HOOK_DENIED : str := $"mitm_hook_denied".
Definition REASON_MITM_REQUIRED : str := $"mitm_required".
Definition REASON_NOT_ALLOWED : str := $"not_allowed".
Definition REASON_NOT_ALLOWED_LOCAL : str := $"not_allowed_local".
Definition REASON_POLICY_DENIED : str := $"policy_denied".
Definition REASON_PROXY_DISABLED : str := $"proxy_disabled".
Definition REASON_UNIX_SOCKET_UNSUPPORTED : str := $"unix_socket_unsupported".

Inductive NetworkPolicyDecision : Type := NetworkDeny | NetworkAsk.

Definition policy_decision_text (d : NetworkPolicyDecision) : str :=
  match d with NetworkDeny => $"deny" | NetworkAsk => $"ask" end.

Inductive NetworkDecisionSource : Type := BaselinePolicy | ModeGuard | ProxyState | Decider.

Definition decision_source_text (s : NetworkDecisionSource) : str :=
  match s with
  | BaselinePolicy => $"baseline_policy"
  | ModeGuard => $"mode_guard"
  | ProxyState => $"proxy_state"
  | Decider => $"decider"
  end.

Inductive NetworkDecision : Type :=
| AllowRequest
| DenyRequest (reason : str) (source : NetworkDecisionSource) (decision : NetworkPolicyDecision).

Definition deny_with_source (reason : str) (source : NetworkDecisionSource) : NetworkDecision :=
  DenyRequest (if is_empty reason then REASON_POLICY_DENIED else reason) source NetworkDeny.

Definition ask_with_source (reason : str) (source : NetworkDecisionSource) : NetworkDecision :=
  DenyRequest (if is_empty reason then REASON_POLICY_DENIED else reason) source NetworkAsk.

(** Whatever an answer of the decider says of its source, it is the decider's. *)
Definition map_decider_decision (d : NetworkDecision) : NetworkDecision :=
  match d with
  | AllowRequest => AllowRequest
  | DenyRequest reason _ decision => DenyRequest reason Decider decision
  end.

Inductive NetworkProtocol : Type := ProtoHttp | HttpsConnect | Socks5Tcp | Socks5Udp.

Definition as_policy_protocol (p : NetworkProtocol) : str :=
  match p with
  | ProtoHttp => $"http"
  | HttpsConnect => $"https_connect"
  | Socks5Tcp => $"socks5_tcp"
  | Socks5Udp => $"socks5_udp"
  end.

(** An audit event, without its time and the identities of the session. *)
Record AuditEvent : Type := mkAudit {
  audit_scope : str;
  audit_decision : str;
  audit_source : NetworkDecisionSource;
  audit_reason : str;
  audit_protocol : NetworkProtocol;
  audit_host : str;
  audit_port : N;
  audit_method : option str;
  audit_client : option str;
  audit_override : bool;
}.

Definition block_audit (source : NetworkDecisionSource) (reason : str) (protocol : NetworkProtocol)
    (host : str) (port : N) (method client : option str) : AuditEvent :=
  mkAudit ($"non_domain") ($"deny") source reason protocol host port method client false.

Definition allow_audit (source : NetworkDecisionSource) (reason : str) (protocol : NetworkProtocol)
    (host : str) (port : N) (method client : option str) : AuditEvent :=
  mkAudit ($"non_domain") ($"allow") source reason protocol host port method client false.
