(* ===== verification/ToolApproval.v ===== *)
(** * Approvals of tool calls (core/src/tools/approvals.rs, sandboxing.rs)

    What a reviewer can answer, what the answer means for the tool, and the
    approvals a user gave for the whole session.  A key of the store is its JSON
    text, when it can be written; [fetch] is the reviewer's answer.  Between the
    look-up and the entry the lock is free, so requests may overlap: [session_step]
    lets them. *)

From S2P Require Import Prelude RustStr PatchTypes ExecRules ExecApproval NetworkDecision.

Inductive NetworkApprovalProtocol : Type := ViaHttp | ViaHttps | ViaSocks5Tcp | ViaSocks5Udp.

Record NetworkApprovalContext : Type := mkNetworkContext {
  approval_host : str;
  approval_protocol : NetworkApprovalProtocol;
}.

Inductive NetworkPolicyRuleAction : Type := AllowHost | DenyHost.

#[export] Instance NetworkPolicyRuleAction_eq_dec : EqDecision NetworkPolicyRuleAction.
Proof. solve_decision. Defined.

Record NetworkPolicyAmendment : Type := mkNetworkAmendment {
  amendment_host : str;
  amendment_action : NetworkPolicyRuleAction;
}.

#[export] Instance NetworkPolicyAmendment_eq_dec : EqDecision NetworkPolicyAmendment.
Proof. solve_decision. Defined.

Inductive ReviewDecision : Type :=
| Approved
| ApprovedExecpolicyAmendment (proposed_execpolicy_amendment : list str)
| ApprovedForSession
| ApprovedMcpPolicyAmendment
| NetworkPolicyAmended (network_policy_amendment : NetworkPolicyAmendment)
| Denied (rejection : str)
| TimedOut
| Abort.

#[export] Instance ReviewDecision_eq_dec : EqDecision ReviewDecision.
Proof. solve_decision. Defined.

(** ** What an answer means for the tool *)

Record NetworkPolicyDecisionPayload : Type := mkPayload {
  payload_decision : NetworkPolicyDecision;
  payload_source : NetworkDecisionSource;
  payload_protocol : option NetworkApprovalProtocol;
  payload_host : option str;
}.

(** The errors of a tool, as far as the orchestrator looks at them. *)
Inductive CodexErr : Type :=
| SandboxDenied (network_policy_decision : option NetworkPolicyDecisionPayload)
| SandboxTimeout
| SandboxSignal (signal : Z)
| TurnAborted
| OtherCodexErr (text : str).

Inductive ToolError : Type :=
| Rejected (reason : str)
| Codex (err : CodexErr).

Inductive ApprovalResolutionSource : Type := FromHook | FromGuardian | FromUser.

Record ApprovalResolution : Type := mkResolution {
  resolved_decision : ReviewDecision;
  resolved_by : ApprovalResolutionSource;
}.

Definition denied_host_text (source : ApprovalResolutionSource) : str :=
  match source with
  | FromHook => $"rejected by configuration"
  | FromGuardian => $"automatic approval review denied the action"
  | FromUser => $"rejected by user"
  end.

Definition into_tool_result (timeout_instructions : str) (resolution : ApprovalResolution)
  : result ReviewDecision ToolError :=
  match resolved_decision resolution with
  | ApprovedMcpPolicyAmendment => Err (Rejected ($"Error while requesting approval"))
  | NetworkPolicyAmended amendment =>
      if bool_decide (amendment_action amendment = DenyHost)
      then Err (Rejected (denied_host_text (resolved_by resolution)))
      else Ok (NetworkPolicyAmended amendment)
  | Denied rejection => Err (Rejected rejection)
  | TimedOut => Err (Rejected timeout_instructions)
  | Abort => Err (Codex TurnAborted)
  | decision => Ok decision
  end.

(** ** Approvals for the session *)

Abbreviation ApprovalStore := (gmap (list N) ReviewDecision) (only parsing).

Definition store_get (store : ApprovalStore) (key : option str) : option ReviewDecision :=
  key ← key; store !! key.

Definition store_put (store : ApprovalStore) (key : option str) (value : ReviewDecision)
  : ApprovalStore :=
  match key with Some key => <[key := value]> store | None => store end.

Definition all_approved (store : ApprovalStore) (keys : list (option str)) : bool :=
  forallb (fun key => bool_decide (store_get store key = Some ApprovedForSession)) keys.

(** The store after the reviewer's answer. *)
Definition remember (store : ApprovalStore) (keys : list (option str)) (decision : ReviewDecision)
  : ApprovalStore :=
  if bool_decide (decision = ApprovedForSession)
  then fold_left (fun store key => store_put store key ApprovedForSession) keys store
  else store.

(** The decision, whether the reviewer was asked, and the store after it. *)
Definition with_cached_approval (store : ApprovalStore) (keys : list (option str))
    (fetch : ReviewDecision) : ReviewDecision * bool * ApprovalStore :=
  if is_empty keys then (fetch, true, store)
  else if all_approved store keys then (ApprovedForSession, false, store)
  else (fetch, true, remember store keys fetch).

(** ** Overlapping requests *)

(** The store, and the answers given so far with the keys they were given for. *)
Record Session : Type := mkSession {
  store : ApprovalStore;
  waiting : list (list (option str));
  answered : list (list (option str) * ReviewDecision);
}.

Inductive session_step (s : Session) : Session -> Prop :=
| step_request keys :
    keys <> [] -> all_approved (store s) keys = false ->
    session_step s (mkSession (store s) (keys :: waiting s) (answered s))
| step_answer before keys after decision :
    waiting s = before ++ keys :: after ->
    session_step s (mkSession (remember (store s) keys decision) (before ++ after)
                      ((keys, decision) :: answered s)).

Definition session_start : Session := mkSession ∅ [] [].

Inductive session_reachable : Session -> Prop :=
| reach_start : session_reachable session_start
| reach_step s s' : session_reachable s -> session_step s s' -> session_reachable s'.

(** The user approved this key for the session. *)
Definition approved_key (s : Session) (key : str) : Prop :=
  exists keys, In (keys, ApprovedForSession) (answered s) /\ Some key ∈ keys.

Lemma put_all keys : forall st key,
  fold_left (fun st key => store_put st key ApprovedForSession) keys st !! key
  = if decide (Some key ∈ keys) then Some ApprovedForSession else st !! key.
Proof.
  induction keys as [|k keys IH]; intros st key; [done|]. cbn [fold_left].
  rewrite IH. destruct (decide (Some key ∈ keys)) as [Hin|Hout].
  - rewrite decide_True; [done|by right].
  - destruct k as [k|]; simpl.
    + destruct (decide (k = key)) as [->|Hne].
      * rewrite lookup_insert_eq, decide_True; [done|by left].
      * rewrite lookup_insert_ne by done. rewrite decide_False; [done|]. set_solver.
    + rewrite decide_False; [done|set_solver].
Qed.

Lemma store_is_what_was_approved s :
  session_reachable s -> forall key,
  store s !! key = Some ApprovedForSession <-> approved_key s key.
Proof.
  induction 1 as [|s s' _ IH Hstep]; intros key.
  - simpl. rewrite lookup_empty. split; [done|]. by intros (keys & [] & _).
  - destruct Hstep as [keys _ _|before keys after decision _].
    { apply IH. }
    unfold approved_key, remember. simpl. case_bool_decide as Ed.
    + rewrite put_all. destruct (decide (Some key ∈ keys)) as [Hin|Hout].
      * split; [|done]. intros _. exists keys. split; [left; by subst|done].
      * rewrite IH. unfold approved_key. split.
        -- intros (ks & H1 & H2). exists ks. split; [by right|done].
        -- intros (ks & [[= -> _]|H1] & H2); [done|by exists ks].
    + rewrite IH. unfold approved_key. split.
      * intros (ks & H1 & H2). exists ks. split; [by right|done].
      * intros (ks & [[= _ ?]|H1] & H2); [done|by exists ks].
Qed.

(** C30: A request goes through unasked exactly when the user approved each of its
    keys for the session in an earlier answer, in whatever way requests overlap;
    keys that cannot be written, and no keys at all, always ask. *)
Theorem session_approvals_sound (s : Session) (keys : list (option str)) (fetch : ReviewDecision) :
  session_reachable s ->
  let '(decision, asked, st) := with_cached_approval (store s) keys fetch in
  (asked = false <->
    keys <> [] /\ forall key, In key keys -> exists k, key = Some k /\ approved_key s k)
  /\ (asked = false -> decision = ApprovedForSession /\ st = store s)
  /\ (asked = true -> decision = fetch)
  /\ (forall k, st !! k <> store s !! k ->
      decision = ApprovedForSession /\ asked = true /\ Some k ∈ keys).
Proof.
  intros Hs. pose proof (store_is_what_was_approved s Hs) as Hstore. unfold with_cached_approval.
  destruct (is_empty keys) eqn:Ee.
  { apply is_empty_true in Ee as ->. split_and!; [|done|done|done]. split; [done|].
    by intros [? _]. }
  apply is_empty_false in Ee. destruct (all_approved (store s) keys) eqn:Ea.
  - split_and!; [|done|done|done]. split; [|done]. intros _. split; [done|]. intros key Hin.
    unfold all_approved in Ea. rewrite forallb_forall in Ea. specialize (Ea key Hin).
    apply bool_decide_eq_true in Ea. destruct key as [k|]; [|done]. exists k. split; [done|].
    by apply Hstore.
  - split_and!; [|done|done|].
    + split; [done|]. intros [_ Hall]. exfalso. revert Ea. apply not_false_iff_true.
      apply forallb_forall. intros key Hin. destruct (Hall key Hin) as (k & -> & Hk).
      by apply bool_decide_eq_true, Hstore.
    + intros k Hk. unfold remember in Hk. case_bool_decide as Ed; [|done].
      split; [done|]. split; [done|]. rewrite put_all in Hk. by destruct (decide (Some k ∈ keys)).
Qed.

Lemma session_approvals_sound_witness :
  let s := mkSession (remember ∅ [Some ($"a")] ApprovedForSession) [] [([Some ($"a")], ApprovedForSession)] in
  session_reachable s
  /\ with_cached_approval (store s) [Some ($"a")] Abort = (ApprovedForSession, false, store s)
  /\ approved_key s ($"a").
Proof.
  intros s.
  assert (Hs : session_reachable s).
  { apply (reach_step (mkSession ∅ [[Some ($"a")]] [])).
    - apply (reach_step session_start); [constructor|]. by apply (step_request session_start).
    - by apply (step_answer (mkSession ∅ [[Some ($"a")]] []) [] _ []). }
  split; [exact Hs|]. pose proof (session_approvals_sound s [Some ($"a")] Abort Hs) as H.
  assert (E : with_cached_approval (store s) [Some ($"a")] Abort = (ApprovedForSession, false, store s))
    by (vm_compute; reflexivity).
  split; [exact E|]. rewrite E in H. destruct H as [[H _] _].
  destruct (H eq_refl) as [_ Hall]. destruct (Hall _ (or_introl eq_refl)) as (k & Ek & Hk). injection Ek as <-. exact Hk.
Defined.

Example answers :
  into_tool_result [] (mkResolution (Denied ($"no")) FromUser) = Err (Rejected ($"no"))
  /\ into_tool_result [] (mkResolution (NetworkPolicyAmended (mkNetworkAmendment ($"h") DenyHost)) FromHook)
     = Err (Rejected ($"rejected by configuration"))
  /\ into_tool_result ($"retry later") (mkResolution TimedOut FromGuardian)
     = Err (Rejected ($"retry later"))
  /\ into_tool_result [] (mkResolution Abort FromUser) = Err (Codex TurnAborted).
Proof. repeat split; reflexivity. Qed.
