(* ===== verification/ToolOrchestrator.v ===== *)
(** * Running a tool (core/src/tools/orchestrator.rs, tools/sandboxing.rs)

    Approval, choice of the sandbox, a first attempt, and after a denial of the
    sandbox one more attempt, asked about again when it has to be.  The choice of
    the sandbox is that of sandboxing/src/manager.rs and policy_transforms.rs.

    The reviewer, the tool itself and the network proxy are the surroundings:
    functions of what happened so far.  What happened is the list of reviews and
    attempts, in order; telemetry and durations are left out. *)

From S2P Require Import Prelude RustStr Utf8 PatchTypes StateM ExecutorFs PathUri ApiPath SandboxPolicy ExecRules ExecPolicy ExecApproval NetworkDecision ToolApproval.

(** ** Sandboxes *)

Inductive HostOs : Type := MacOs | LinuxOs | WindowsOs | OtherOs.

Definition native_convention (os : HostOs) : PathConvention :=
  match os with WindowsOs => Windows | _ => Posix end.

Inductive SandboxType : Type :=
| NoSandbox | MacosSeatbelt | LinuxSeccomp | WindowsRestrictedToken | WindowsMxc.

#[export] Instance SandboxType_eq_dec : EqDecision SandboxType.
Proof. solve_decision. Defined.

Definition effective_windows_sandbox_type (sandbox_type : SandboxType)
    (sandbox_level : WindowsSandboxLevel) : SandboxType :=
  match sandbox_type, sandbox_level with
  | WindowsMxc, _ => WindowsMxc
  | _, LevelDisabled => NoSandbox
  | _, (RestrictedToken | Elevated) => WindowsRestrictedToken
  end.

Inductive SandboxablePreference : Type := AutoSandbox | RequireSandbox | ForbidSandbox.

Definition get_platform_sandbox (os : HostOs) (windows_sandbox_enabled : bool)
  : option SandboxType :=
  match os with
  | MacOs => Some MacosSeatbelt
  | LinuxOs => Some LinuxSeccomp
  | WindowsOs => if windows_sandbox_enabled then Some WindowsRestrictedToken else None
  | OtherOs => None
  end.

Definition network_is_enabled (p : NetworkSandboxPolicy) : bool :=
  match p with NetworkEnabled => true | NetworkRestricted => false end.

(** The part of an [AdditionalPermissionProfile] about the network: whether it
    speaks about it, and what it says. *)
Abbreviation AdditionalNetwork := (option (option bool)) (only parsing).

Definition merge_network_access (base_network_access : bool) (network : AdditionalNetwork) : bool :=
  base_network_access || default false (network ≫= id).

Definition effective_network_sandbox_policy (network_policy : NetworkSandboxPolicy)
    (additional_permissions : option AdditionalNetwork) : NetworkSandboxPolicy :=
  match additional_permissions with
  | Some network =>
      if merge_network_access (network_is_enabled network_policy) network
      then NetworkEnabled else NetworkRestricted
  | None => network_policy
  end.

Section orchestrator.
Context {Url : Type} `{UrlCrates Url} `{Unreachable Url}.
Context (os : HostOs).
Abbreviation native := (native_convention os).
Abbreviation Profile := (@PermissionProfile Url) (only parsing).
Abbreviation FsPolicy := (@FileSystemSandboxPolicy Url) (only parsing).

Definition network_sandbox_policy (p : Profile) : NetworkSandboxPolicy :=
  match p with
  | Managed _ network | External network => network
  | ProfileDisabled => NetworkEnabled
  end.

Definition should_require_platform_sandbox (file_system_policy : FsPolicy)
    (network_policy : NetworkSandboxPolicy) (has_managed_network_requirements : bool) : bool :=
  if has_managed_network_requirements then true
  else if negb (network_is_enabled network_policy)
  then negb (bool_decide (kind file_system_policy = ExternalSandbox))
  else match kind file_system_policy with
       | Restricted =>
           negb (has_full_disk_write_access_for_convention file_system_policy (Some native))
       | Unrestricted | ExternalSandbox => false
       end.

Definition should_sandbox (p : Profile) (pref : SandboxablePreference)
    (has_managed_network_requirements : bool) : bool :=
  match pref with
  | ForbidSandbox => false
  | RequireSandbox => true
  | AutoSandbox =>
      should_require_platform_sandbox (file_system_sandbox_policy p) (network_sandbox_policy p)
        has_managed_network_requirements
  end.

Definition select_initial (p : Profile) (pref : SandboxablePreference)
    (windows_sandbox_type : SandboxType) (has_managed_network_requirements : bool) : SandboxType :=
  if negb (should_sandbox p pref has_managed_network_requirements) then NoSandbox
  else if bool_decide (native = Windows) && bool_decide (windows_sandbox_type = WindowsMxc)
  then WindowsMxc
  else default NoSandbox
         (get_platform_sandbox os (negb (bool_decide (windows_sandbox_type = NoSandbox)))).

(** ** Requirements and overrides (tools/sandboxing.rs) *)

Definition default_exec_approval_requirement (policy : AskForApproval) (fs : FsPolicy)
  : ExecApprovalRequirement.t :=
  let needs_approval :=
    match policy with
    | Never => false
    | OnRequest | Granular _ => bool_decide (kind fs = Restricted)
    | UnlessTrusted => true
    end in
  if needs_approval
     && match policy with Granular config => negb (sandbox_approval config) | _ => false end
  then ExecApprovalRequirement.Forbidden ($"approval policy disallowed sandbox approval prompt")
  else if needs_approval then ExecApprovalRequirement.NeedsApproval None None
  else ExecApprovalRequirement.Skip false None.

Inductive SandboxOverride : Type := NoOverride | BypassSandboxFirstAttempt.

(** Without a sandbox denied reads would be granted. *)
Definition unsandboxed_execution_allowed (fs : FsPolicy) : bool :=
  negb (has_denied_read_restrictions_for_convention fs (Some native)).

Definition sandbox_override_for_first_attempt (permissions : SandboxPermissions)
    (requirement : ExecApprovalRequirement.t) (fs : FsPolicy) : SandboxOverride :=
  if negb (unsandboxed_execution_allowed fs) then NoOverride
  else match requirement with
       | ExecApprovalRequirement.Skip true _ => BypassSandboxFirstAttempt
       | _ => if requires_escalated_permissions permissions then BypassSandboxFirstAttempt
              else NoOverride
       end.

Definition sandbox_permissions_preserving_denied_reads (permissions : SandboxPermissions)
    (fs : FsPolicy) : SandboxPermissions :=
  if requires_escalated_permissions permissions && negb (unsandboxed_execution_allowed fs)
  then UseDefault else permissions.

(** The defaults of the tool traits, and the answer of the patch tool. *)
Definition default_should_bypass_approval (policy : AskForApproval) (already_approved : bool) : bool :=
  if already_approved then true else match policy with Never => true | _ => false end.

Definition default_wants_no_sandbox_approval (policy : AskForApproval) : bool :=
  match policy with
  | UnlessTrusted => true
  | Never | OnRequest => false
  | Granular config => sandbox_approval config
  end.

Definition apply_patch_wants_no_sandbox_approval (policy : AskForApproval) : bool :=
  match policy with
  | Never => false
  | Granular config => sandbox_approval config
  | OnRequest | UnlessTrusted => true
  end.

(** ** What the orchestrator works with *)

Context {Out Spec Active Proxy Deferred : Type}.

Record SandboxAttempt : Type := mkAttempt {
  attempt_sandbox : SandboxType;
  sandbox_requested : bool;
  permissions : Profile;
  exec_server_permissions : Profile;
  enforce_managed_network : bool;
  attempt_cwd : Url;
  attempt_roots : list Url;
  sandbox_exe : option str;
  attempt_windows_type : SandboxType;
  network_proxy : option Proxy;
}.

(** Whether an attempt leaves the sandbox its policy asks for. *)
Definition is_escalated (a : SandboxAttempt) : bool :=
  negb (sandbox_requested a)
  && should_sandbox (permissions a) AutoSandbox (enforce_managed_network a).

Record ApprovalContext : Type := mkContext {
  context_strict_auto_review : bool;
  approval_reason : option str;
  retry_reason : option str;
  network_approval_context : option NetworkApprovalContext;
}.

Inductive Event : Type :=
| Reviewed (context : ApprovalContext) (granted : bool)
| Ran (attempt : SandboxAttempt).

Record NetworkApprovalSpec : Type := mkSpec {
  spec_additional_network : option AdditionalNetwork;
  spec_rest : Spec;
}.

Record ToolRuntime : Type := mkTool {
  tool_sandbox_permissions : SandboxPermissions;
  exec_approval_requirement : option ExecApprovalRequirement.t;
  should_bypass_approval : AskForApproval -> bool -> bool;
  wants_no_sandbox_approval : AskForApproval -> bool;
  approval_action : result () str;
  sandbox_preference : SandboxablePreference;
  escalate_on_failure : bool;
  uses_executor_managed_process_sandbox : bool;
  tool_sandbox_cwd : option Url;
  network_approval_spec : list Event -> option NetworkApprovalSpec;
}.

(** What is read from the turn and its environment. *)
Record TurnSettings : Type := mkSettings {
  turn_approval_policy : AskForApproval;
  strict_auto_review : bool;
  owner_network_policy : bool;
  environment_profile : Profile;
  profile_with_workspace_roots : Profile;
  environment_cwd : Url;
  workspace_roots : list Url;
  controller_network_enabled : bool;
  turn_network : bool;
  codex_self_exe : option str;
  codex_linux_sandbox_exe : option str;
  configured_windows_type : SandboxType;
  configured_windows_level : WindowsSandboxLevel;
}.

Record Surroundings : Type := mkSurroundings {
  review : list Event -> ApprovalContext -> result ReviewDecision ToolError;
  run_tool : list Event -> SandboxAttempt -> result Out ToolError;
  begin_network : list Event -> bool -> option NetworkApprovalSpec -> result (option Active) ToolError;
  execution_proxy : Active -> Proxy;
  into_deferred : Active -> option Deferred;
  finish_network : list Event -> option Deferred -> result () ToolError;
}.

Context (surroundings : Surroundings).

Definition with_proxy (proxy : option Proxy) (a : SandboxAttempt) : SandboxAttempt :=
  mkAttempt (attempt_sandbox a) (sandbox_requested a) (permissions a) (exec_server_permissions a)
    (enforce_managed_network a) (attempt_cwd a) (attempt_roots a) (sandbox_exe a)
    (attempt_windows_type a) proxy.

(** An attempt never fails by itself: its error is its result. *)
Definition run_attempt (attempt : SandboxAttempt) (spec : option NetworkApprovalSpec)
  : stM (list Event) ToolError (result Out ToolError * option Deferred) := fun events =>
  match begin_network surroundings events (enforce_managed_network attempt) spec with
  | Err err => (Done (Err err, None), events)
  | Ok network_approval =>
      let attempt := with_proxy (execution_proxy surroundings <$> network_approval) attempt in
      let run_result := run_tool surroundings events attempt in
      let events := events ++ [Ran attempt] in
      match network_approval with
      | None => (Done (run_result, None), events)
      | Some active =>
          let deferred := into_deferred surroundings active in
          match run_result with
          | Ok _ => (Done (run_result, deferred), events)
          | Err _ =>
              match finish_network surroundings events deferred with
              | Err err => (Done (Err err, None), events)
              | Ok () => (Done (run_result, None), events)
              end
          end
      end
  end.

(** ** Approval *)

Definition request_approval (tool : ToolRuntime) (context : ApprovalContext)
  : stM (list Event) ToolError () :=
  let* _ := st_try (map_err (fun err => Rejected ($"could not prepare approval action: " ++ err))
                      (approval_action tool)) in
  fun events =>
    match review surroundings events context with
    | Ok _ => (Done (), events ++ [Reviewed context true])
    | Err err => (Fail err, events ++ [Reviewed context false])
    end.

(** The first approval; whether there was one. *)
Definition first_approval (tool : ToolRuntime) (settings : TurnSettings)
    (requirement : ExecApprovalRequirement.t) : stM (list Event) ToolError bool :=
  let context reason := mkContext (strict_auto_review settings) reason None None in
  match requirement with
  | ExecApprovalRequirement.Skip _ _ =>
      if strict_auto_review settings
      then let* _ := request_approval tool (context None) in st_ret true
      else st_ret false
  | ExecApprovalRequirement.Forbidden reason => st_fail (Rejected reason)
  | ExecApprovalRequirement.NeedsApproval reason _ =>
      let* _ := request_approval tool (context reason) in st_ret true
  end.

(** ** Attempts *)

Definition run_permissions (tool : ToolRuntime) (settings : TurnSettings) : Profile :=
  if uses_executor_managed_process_sandbox tool then environment_profile settings
  else profile_with_workspace_roots settings.

Definition run_fs_policy (tool : ToolRuntime) (settings : TurnSettings) : FsPolicy :=
  file_system_sandbox_policy (run_permissions tool settings).

Definition run_requirement (tool : ToolRuntime) (settings : TurnSettings)
  : ExecApprovalRequirement.t :=
  default (default_exec_approval_requirement (turn_approval_policy settings)
             (run_fs_policy tool settings)) (exec_approval_requirement tool).

Definition unsandboxed_allowed (tool : ToolRuntime) (settings : TurnSettings) : bool :=
  negb (owner_network_policy settings) && unsandboxed_execution_allowed (run_fs_policy tool settings).

Definition managed_network_active (settings : TurnSettings) (spec : option NetworkApprovalSpec) : bool :=
  if owner_network_policy settings then
    controller_network_enabled settings
    || match spec with
       | Some spec =>
           network_is_enabled
             (effective_network_sandbox_policy
                (network_sandbox_policy (environment_profile settings))
                (spec_additional_network spec))
       | None => false
       end
  else turn_network settings.

(** The attempt for a decision whether to use the sandbox. *)
Definition attempt_with (tool : ToolRuntime) (settings : TurnSettings) (managed requested : bool)
    (exe : option str) : SandboxAttempt :=
  let permissions := run_permissions tool settings in
  let windows_sandbox_type :=
    effective_windows_sandbox_type (configured_windows_type settings)
      (configured_windows_level settings) in
  let sandbox :=
    if requested && negb (uses_executor_managed_process_sandbox tool)
    then select_initial permissions (sandbox_preference tool) windows_sandbox_type managed
    else NoSandbox in
  mkAttempt sandbox requested permissions (environment_profile settings) managed
    (default (environment_cwd settings) (tool_sandbox_cwd tool)) (workspace_roots settings) exe
    windows_sandbox_type None.

Definition codex_sandbox_exe (settings : TurnSettings) : option str :=
  if bool_decide (native = Windows) then codex_self_exe settings
  else codex_linux_sandbox_exe settings.

Definition first_sandbox_requested (tool : ToolRuntime) (settings : TurnSettings) (managed : bool)
  : bool :=
  let override :=
    if unsandboxed_allowed tool settings
    then sandbox_override_for_first_attempt (tool_sandbox_permissions tool)
           (run_requirement tool settings) (run_fs_policy tool settings)
    else NoOverride in
  match override with
  | BypassSandboxFirstAttempt => false
  | NoOverride =>
      should_sandbox (run_permissions tool settings) (sandbox_preference tool) managed
  end.

Definition initial_attempt (tool : ToolRuntime) (settings : TurnSettings) (managed : bool)
  : SandboxAttempt :=
  attempt_with tool settings managed (first_sandbox_requested tool settings managed)
    (codex_sandbox_exe settings).

Definition retry_attempt (tool : ToolRuntime) (settings : TurnSettings) (managed : bool)
  : SandboxAttempt :=
  let unsandboxed_allowed := unsandboxed_allowed tool settings in
  attempt_with tool settings managed
    (negb unsandboxed_allowed
     && should_sandbox (run_permissions tool settings) (sandbox_preference tool) managed)
    (if unsandboxed_allowed then None else codex_sandbox_exe settings).

(** ** The retry *)

Definition is_ask_from_decider (payload : NetworkPolicyDecisionPayload) : bool :=
  match payload_decision payload, payload_source payload with
  | NetworkAsk, Decider => true
  | _, _ => false
  end.

Definition network_approval_context_from_payload (payload : NetworkPolicyDecisionPayload)
  : option NetworkApprovalContext :=
  if negb (is_ask_from_decider payload) then None
  else
    protocol ← payload_protocol payload;
    host ← payload_host payload;
    let host := trim host in
    if is_empty host then None else Some (mkNetworkContext host protocol).

Definition needs_approval_by_default (tool : ToolRuntime) (settings : TurnSettings) : bool :=
  match default_exec_approval_requirement (turn_approval_policy settings)
          (run_fs_policy tool settings) with
  | ExecApprovalRequirement.NeedsApproval _ _ => true
  | _ => false
  end.

(** Whether a denied attempt is tried again. *)
Definition retry_considered (tool : ToolRuntime) (settings : TurnSettings)
    (decision : option NetworkPolicyDecisionPayload)
    (network_context : option NetworkApprovalContext) : bool :=
  if is_some decision && is_none network_context then false
  else if negb (escalate_on_failure tool) then false
  else if negb (wants_no_sandbox_approval tool (turn_approval_policy settings))
          && negb (match turn_approval_policy settings with OnRequest => true | _ => false end
                   && is_some network_context && needs_approval_by_default tool settings)
  then false
  else if negb (unsandboxed_allowed tool settings) && is_none network_context then false
  else true.

Definition retry_reason_text (network_context : option NetworkApprovalContext) : str :=
  match network_context with
  | Some context => $"Network access to " ++ [DQUOTE] ++ approval_host context ++ [DQUOTE]
                    ++ $" is blocked by policy."
  | None => $"command failed; retry without sandbox?"
  end.

Definition retry (tool : ToolRuntime) (settings : TurnSettings) (already_approved managed : bool)
    (network_context : option NetworkApprovalContext)
  : stM (list Event) ToolError (Out * option Deferred) :=
  let bypass_retry_approval :=
    negb (strict_auto_review settings)
    && should_bypass_approval tool (turn_approval_policy settings) already_approved
    && is_none network_context in
  let* _ :=
    if bypass_retry_approval then st_ret ()
    else
      let approval_reason :=
        match run_requirement tool settings with
        | ExecApprovalRequirement.NeedsApproval reason _ => reason
        | _ => None
        end in
      request_approval tool
        (mkContext (strict_auto_review settings) approval_reason
           (Some (retry_reason_text network_context)) network_context) in
  let* events := st_get in
  let* result := run_attempt (retry_attempt tool settings managed) (network_approval_spec tool events) in
  match result with
  | (Ok output, deferred) => st_ret (output, deferred)
  | (Err err, _) => st_fail err
  end.

(** ** [ToolOrchestrator::run] *)

Definition run (tool : ToolRuntime) (settings : TurnSettings)
  : stM (list Event) ToolError (Out * option Deferred) :=
  if owner_network_policy settings
     && requires_escalated_permissions (tool_sandbox_permissions tool)
  then st_fail (Rejected
         ($"attachment-owned network policy cannot be bypassed by sandbox escalation"))
  else
    let* already_approved := first_approval tool settings (run_requirement tool settings) in
    let* events := st_get in
    let spec := network_approval_spec tool events in
    let managed := managed_network_active settings spec in
    let* first_result := run_attempt (initial_attempt tool settings managed) spec in
    match first_result with
    | (Ok output, deferred) => st_ret (output, deferred)
    | (Err (Codex (SandboxDenied decision)), _) =>
        let network_context :=
          if managed then decision ≫= network_approval_context_from_payload else None in
        if retry_considered tool settings decision network_context
        then retry tool settings already_approved managed network_context
        else st_fail (Codex (SandboxDenied decision))
    | (Err err, _) => st_fail err
    end.

End orchestrator.
