(* ===== verification/ToolOrchestratorSpec.v ===== *)
(** * What running a tool promises

    Nothing runs that is forbidden, that a reviewer still had to see, or that one
    refused; a tool runs at most twice; and reads that are denied stay denied,
    because whatever was approved the command stays in the sandbox. *)

From S2P Require Import Prelude RustStr Utf8 PatchTypes StateM ExecutorFs PathUri ApiPath FileUrls SandboxPolicy ExecRules ExecPolicy ExecApproval NetworkDecision ToolApproval ToolOrchestrator.

Import FileUrls.

Section spec.
Context {Url : Type} `{UrlCrates Url} `{Unreachable Url}.
Context {Out Spec Active Proxy Deferred : Type}.
Context (os : HostOs).
Context (surroundings : @Surroundings Url Out Spec Active Proxy Deferred).
Abbreviation Attempt := (@SandboxAttempt Url Proxy) (only parsing).
Abbreviation Events := (list (@Event Url Proxy)) (only parsing).
Abbreviation Tool := (@ToolRuntime Url Spec Proxy) (only parsing).
Abbreviation Settings := (@TurnSettings Url) (only parsing).
Implicit Types (tool : Tool) (settings : Settings) (events : Events).

(** The network proxy fails, but not by a denial of the sandbox: its errors are
    rejections and I/O errors (tools/network_approval.rs). *)
Class NetworkNeverDenies : Prop := {
  begin_not_denied events managed spec d :
    begin_network surroundings events managed spec <> Err (Codex (SandboxDenied d));
  finish_not_denied events deferred d :
    finish_network surroundings events deferred <> Err (Codex (SandboxDenied d));
}.

Definition attempts (events : Events) : list Attempt :=
  omap (fun e => match e with Ran a => Some a | Reviewed _ _ => None end) events.

(** One review that granted, when one was needed; nothing otherwise. *)
Definition granted (needed : bool) (events : Events) : Prop :=
  if needed then exists context, events = [Reviewed context true] else events = [].

(** Does the requirement, or the strict review of everything, ask for a review? *)
Definition needs_review (settings : Settings) (requirement : ExecApprovalRequirement.t) : bool :=
  strict_auto_review settings
  || match requirement with ExecApprovalRequirement.NeedsApproval _ _ => true | _ => false end.

Definition network_context_of (a : Attempt) (decision : option NetworkPolicyDecisionPayload)
  : option NetworkApprovalContext :=
  if enforce_managed_network a then decision ≫= network_approval_context_from_payload else None.

(** Is the retry of an attempt that was denied this way reviewed again? *)
Definition retry_needs_review (tool : Tool) (settings : Settings)
    (network_context : option NetworkApprovalContext) : bool :=
  negb (negb (strict_auto_review settings)
        && should_bypass_approval tool (turn_approval_policy settings)
             (needs_review settings (run_requirement tool settings))
        && is_none network_context).

(** ** The steps *)

Lemma request_approval_spec tool context events :
  match request_approval surroundings tool context events with
  | (Done _, events') => events' = events ++ [Reviewed context true]
  | (Fail _, events') => events' = events \/ events' = events ++ [Reviewed context false]
  | (Panic, _) => False
  end.
Proof.
  unfold request_approval, st_bind, st_try. destruct (approval_action tool); simpl; [|by left].
  by destruct (review surroundings events context); [|right].
Qed.

Lemma first_approval_spec tool settings requirement events :
  match first_approval surroundings tool settings requirement events with
  | (Done already, events') =>
      already = needs_review settings requirement
      /\ (forall reason, requirement <> ExecApprovalRequirement.Forbidden reason)
      /\ exists review, events' = events ++ review /\ granted already review
  | (Fail _, events') => exists review, events' = events ++ review /\ attempts review = []
  | (Panic, _) => False
  end.
Proof.
  unfold first_approval, needs_review.
  assert (Hask : forall context, match (let* _ := request_approval surroundings tool context in
      st_ret true) events with
    | (Done b, events') => b = true /\ exists review, events' = events ++ review /\ granted true review
    | (Fail _, events') => exists review, events' = events ++ review /\ attempts review = []
    | (Panic, _) => False end).
  { intros context. unfold st_bind.
    pose proof (request_approval_spec tool context events) as Hr.
    destruct (request_approval surroundings tool context events) as [[[]|e|] events']; simpl; [| |done].
    - split; [done|]. eexists. split; [exact Hr|]. by eexists.
    - destruct Hr as [->| ->]; [exists []; by rewrite app_nil_r|by eexists]. }
  destruct requirement as [b a|reason a|reason].
  - destruct (strict_auto_review settings); simpl.
    + specialize (Hask (mkContext true None None None)).
      destruct (st_bind _ _ events) as [[b'|e|] events']; [|done|done].
      destruct Hask as [-> Hr]. by split_and!.
    + split_and!; [done|done|]. exists []. by rewrite app_nil_r.
  - specialize (Hask (mkContext (strict_auto_review settings) reason None None)).
    destruct (st_bind _ _ events) as [[b'|e|] events']; [|done|done].
    destruct Hask as [-> Hr]. split_and!; [by rewrite orb_true_r|done|done].
  - exists []. by rewrite app_nil_r.
Qed.

(** An attempt runs the tool once, unless the proxy is not ready; a denial is
    the tool's. *)
Lemma run_attempt_spec `{!NetworkNeverDenies} attempt spec events :
  exists r deferred events',
    run_attempt surroundings attempt spec events = (Done (r, deferred), events')
    /\ ((exists proxy, let a := with_proxy proxy attempt in
           events' = events ++ [Ran a]
           /\ forall d, r = Err (Codex (SandboxDenied d)) ->
              run_tool surroundings events a = Err (Codex (SandboxDenied d)))
        \/ events' = events /\ exists e, r = Err e /\ forall d, e <> Codex (SandboxDenied d)).
Proof.
  unfold run_attempt.
  destruct (begin_network surroundings events (enforce_managed_network attempt) spec)
    as [[active|]|e] eqn:Eb; simpl.
  - destruct (run_tool surroundings events _) as [out|e] eqn:Er.
    + eexists _, _, _. split; [reflexivity|]. left. eexists. split; [reflexivity|done].
    + destruct (finish_network surroundings _ _) as [[]|e'] eqn:Ef;
        eexists _, _, _; (split; [reflexivity|]); left; eexists; (split; [reflexivity|]).
      * intros d [= ->]. exact Er.
      * intros d [= ->]. by apply finish_not_denied in Ef.
  - eexists _, _, _. split; [reflexivity|]. left. exists None. split; [reflexivity|done].
  - eexists _, _, _. split; [reflexivity|]. right. split; [done|]. exists e. split; [done|].
    intros d ->. by apply begin_not_denied in Eb.
Qed.

Lemma retry_spec `{!NetworkNeverDenies} tool settings managed network_context events :
  let already := needs_review settings (run_requirement tool settings) in
  let '(o, events') := retry os surroundings tool settings already managed network_context events in
  o <> Panic /\ exists more, events' = events ++ more
    /\ (attempts more = []
        \/ exists review proxy, granted (retry_needs_review tool settings network_context) review
             /\ more = review ++ [Ran (with_proxy proxy (retry_attempt os tool settings managed))]).
Proof.
  intros already. unfold retry. fold (retry_needs_review tool settings network_context).
  set (context := mkContext _ _ _ _).
  assert (Hreview : exists o events1 review,
    (if negb (strict_auto_review settings)
        && should_bypass_approval tool (turn_approval_policy settings) already
        && is_none network_context
     then st_ret () else request_approval surroundings tool context) events = (o, events1)
    /\ events1 = events ++ review /\ o <> Panic
    /\ (o = Done () -> granted (retry_needs_review tool settings network_context) review)
    /\ (attempts review = [])).
  { unfold retry_needs_review. fold already.
    destruct (negb (strict_auto_review settings) && _ && _); simpl.
    - exists (Done ()), events, []. by rewrite app_nil_r.
    - pose proof (request_approval_spec tool context events) as Hr.
      destruct (request_approval surroundings tool context events) as [[[]|e|] events']; [| |done].
      + exists (Done ()), events', [Reviewed context true]. split_and!; try done. intros _. by eexists.
      + destruct Hr as [->| ->].
        * exists (Fail e), events, []. by rewrite app_nil_r.
        * by exists (Fail e), (events ++ [Reviewed context false]), [Reviewed context false]. }
  destruct Hreview as (o & events1 & review & Eo & -> & Hpanic & Hgranted & Hnone).
  unfold st_bind at 1. rewrite Eo. destruct o as [[]|e|]; [|split; [done|by eauto]|done].
  unfold st_bind at 1, st_get. simpl.
  destruct (run_attempt_spec (retry_attempt os tool settings managed)
    (network_approval_spec tool (events ++ review)) (events ++ review))
    as (r & deferred & events2 & Er & Hr).
  unfold st_bind at 1. rewrite Er.
  assert (Hout : exists more, events2 = events ++ more
    /\ (attempts more = [] \/ exists review proxy,
          granted (retry_needs_review tool settings network_context) review
          /\ more = review ++ [Ran (with_proxy proxy (retry_attempt os tool settings managed))])).
  { destruct Hr as [(proxy & -> & _)|[-> _]].
    - eexists. rewrite <- app_assoc. split; [reflexivity|]. right. exists review, proxy.
      split; [by apply Hgranted|done].
    - exists review. by split; [|left]. }
  by destruct r.
Qed.

(** What a run may do: no attempt at all; one attempt, of something that is not
    forbidden, after the review it needs; or that attempt, denied by the sandbox,
    and a retry, after the review that it needs in turn. *)
Definition run_tells (tool : Tool) (settings : Settings) (events story : Events) : Prop :=
  attempts story = []
  \/ (forall reason, run_requirement tool settings <> ExecApprovalRequirement.Forbidden reason)
     /\ exists review managed proxy rest,
          let a := with_proxy proxy (initial_attempt os tool settings managed) in
          story = review ++ Ran a :: rest
          /\ granted (needs_review settings (run_requirement tool settings)) review
          /\ (attempts rest = []
              \/ exists decision review2 proxy2,
                   run_tool surroundings (events ++ review) a
                     = Err (Codex (SandboxDenied decision))
                   /\ retry_considered os tool settings decision (network_context_of a decision) = true
                   /\ granted (retry_needs_review tool settings (network_context_of a decision)) review2
                   /\ rest = review2
                        ++ [Ran (with_proxy proxy2 (retry_attempt os tool settings managed))]).

Lemma attempts_app events more : attempts (events ++ more) = attempts events ++ attempts more.
Proof. apply omap_app. Qed.

Lemma attempts_ran a (rest : Events) : attempts (Ran a :: rest) = a :: attempts rest.
Proof. reflexivity. Qed.

Lemma granted_no_attempts needed review : granted needed review -> attempts review = [].
Proof. destruct needed; [by intros [c ->]|by intros ->]. Qed.

(** The attempt comes back as anything but a denial: that is the end of it. *)
Lemma one_attempt_tells tool settings managed events review events2 :
  (forall reason, run_requirement tool settings <> ExecApprovalRequirement.Forbidden reason) ->
  granted (needs_review settings (run_requirement tool settings)) review ->
  (exists proxy, events2 = (events ++ review)
      ++ [Ran (with_proxy proxy (initial_attempt os tool settings managed))])
  \/ events2 = events ++ review ->
  exists story, events2 = events ++ story /\ run_tells tool settings events story.
Proof.
  intros Hforb Hgranted [[proxy ->]| ->].
  - eexists. rewrite <- app_assoc. split; [reflexivity|]. right. split; [done|].
    exists review, managed, proxy, []. split_and!; [done|done|by left].
  - exists review. split; [done|]. left. by eapply granted_no_attempts.
Qed.

Lemma run_story `{!NetworkNeverDenies} tool settings events :
  let '(o, events') := run os surroundings tool settings events in
  o <> Panic /\ exists story, events' = events ++ story /\ run_tells tool settings events story.
Proof.
  unfold run. destruct (owner_network_policy settings && _).
  { split; [done|]. exists []. rewrite app_nil_r. by split; [|left]. }
  pose proof (first_approval_spec tool settings (run_requirement tool settings) events) as Hfirst.
  unfold st_bind at 1.
  destruct (first_approval surroundings tool settings (run_requirement tool settings) events)
    as [[already|e|] events1]; [| |done].
  2:{ split; [done|]. destruct Hfirst as (review & -> & Hn). exists review. by split; [|left]. }
  destruct Hfirst as (-> & Hforb & review & -> & Hgranted).
  unfold st_bind at 1, st_get. cbv beta iota zeta.
  set (spec := network_approval_spec tool (events ++ review)).
  set (managed := managed_network_active settings spec).
  destruct (run_attempt_spec (initial_attempt os tool settings managed) spec (events ++ review))
    as (r & deferred & events2 & Er & Hr).
  unfold st_bind at 1. rewrite Er.
  assert (Hone : exists story, events2 = events ++ story /\ run_tells tool settings events story).
  { apply (one_attempt_tells tool settings managed events review); [done|done|].
    destruct Hr as [(proxy & -> & _)|[-> _]]; eauto. }
  destruct r as [out|err]; [by split|].
  destruct err as [reason|err]; [by split|]. destruct err as [decision| |signal| |text]; try by split.
  destruct Hr as [(proxy & -> & Hdenied)|[_ (e & [= <-] & Hnot)]]; [|by destruct (Hnot decision)].
  specialize (Hdenied decision eq_refl).
  change (if managed then _ else None) with
    (network_context_of (with_proxy proxy (initial_attempt os tool settings managed)) decision).
  set (a := with_proxy proxy (initial_attempt os tool settings managed)) in *.
  destruct (retry_considered os tool settings decision (network_context_of a decision)) eqn:Econs;
    [|by split].
  pose proof (retry_spec tool settings managed (network_context_of a decision)
    ((events ++ review) ++ [Ran a])) as Hretry.
  cbv zeta in Hretry.
  destruct (retry os surroundings tool settings _ managed (network_context_of a decision)
    ((events ++ review) ++ [Ran a])) as [o events3].
  destruct Hretry as (Hp & more & -> & Hmore). split; [done|].
  exists (review ++ Ran a :: more). split; [by rewrite <- !app_assoc|]. right. split; [done|].
  exists review, managed, proxy, more. split_and!; [done|done|].
  destruct Hmore as [?|(review2 & proxy2 & Hg & ->)]; [by left|]. right.
  by exists decision, review2, proxy2.
Qed.

(** ** Denied reads *)

(** The attempts of a run are made from the settings alone. *)
Lemma run_attempts `{!NetworkNeverDenies} tool settings :
  forall a, In a (attempts (snd (run os surroundings tool settings []))) ->
  exists managed proxy, a = with_proxy proxy (initial_attempt os tool settings managed)
    \/ a = with_proxy proxy (retry_attempt os tool settings managed).
Proof.
  intros a Ha. pose proof (run_story tool settings []) as Hs.
  destruct (run os surroundings tool settings []) as [o events'].
  destruct Hs as (_ & story & -> & [Hn|(_ & review & managed & proxy & rest & -> & Hg & Hrest)]).
  { simpl in Ha. by rewrite Hn in Ha. }
  simpl in Ha. rewrite attempts_app, attempts_ran, (granted_no_attempts _ _ Hg) in Ha.
  destruct Ha as [<-|Ha]; [exists managed, proxy; by left|].
  destruct Hrest as [Hn|(d & review2 & proxy2 & _ & _ & Hg2 & ->)]; [by rewrite Hn in Ha|].
  rewrite attempts_app, attempts_ran, (granted_no_attempts _ _ Hg2) in Ha. destruct Ha as [<-|[]].
  exists managed, proxy2. by right.
Qed.

(** An entry that denies reading something a platform sandbox can enforce. *)
Definition enforced_denial (e : @FileSystemSandboxEntry Url) : Prop :=
  access e = Deny
  /\ match entry_path e with
     | Special Minimal | Special (Unknown _ _) => False
     | Special SlashTmp => native_convention os <> Windows
     | _ => True
     end.

Lemma nothing_outranks_deny (self : @FileSystemSandboxPolicy Url) e convention :
  access e = Deny -> has_same_target_write_override self e convention = false.
Proof.
  intros He. apply not_true_is_false. intros Ho. unfold has_same_target_write_override in Ho.
  apply existsb_exists in Ho as (c & _ & Hc). rewrite He in Hc.
  by destruct (access c).
Qed.

Lemma enforced_denial_narrows (self : @FileSystemSandboxPolicy Url) e :
  enforced_denial e -> narrows_write self (native_convention os) e = true.
Proof.
  intros [He Hp]. unfold narrows_write. rewrite nothing_outranks_deny by done. rewrite He. simpl.
  destruct (entry_path e) as [|?|[]]; try done. by rewrite bool_decide_false.
Qed.

Lemma enforced_denial_sandboxes (p : @PermissionProfile Url) e managed :
  kind (file_system_sandbox_policy p) = Restricted ->
  In e (entries (file_system_sandbox_policy p)) -> enforced_denial e ->
  should_sandbox os p AutoSandbox managed = true
  /\ unsandboxed_execution_allowed os (file_system_sandbox_policy p) = false.
Proof.
  intros Hk Hin He. set (self := file_system_sandbox_policy p) in *.
  assert (Hres : is_restricted self = true) by (by apply bool_decide_eq_true).
  split.
  - unfold should_sandbox, should_require_platform_sandbox. fold self. rewrite Hk.
    destruct managed; [done|]. destruct (network_is_enabled _); [|done].
    unfold has_full_disk_write_access_for_convention, has_write_narrowing_entries. rewrite Hk, Hres.
    rewrite (proj2 (existsb_exists _ _)) by (exists e; by split; [|apply enforced_denial_narrows]).
    by rewrite andb_false_r.
  - unfold unsandboxed_execution_allowed, has_denied_read_restrictions_for_convention.
    rewrite Hres. rewrite (proj2 (existsb_exists _ _)); [done|]. exists e. split; [done|].
    destruct He as [He Hp]. rewrite bool_decide_true by done.
    destruct (entry_path e) as [|?|[]]; try done. rewrite bool_decide_false; [done|].
    by intros [= ?].
Qed.

Lemma should_sandbox_unless_forbidden (p : @PermissionProfile Url) pref managed :
  pref <> ForbidSandbox -> should_sandbox os p AutoSandbox managed = true ->
  should_sandbox os p pref managed = true.
Proof. by destruct pref. Qed.

(** When leaving the sandbox is not allowed, the attempts ask for it as the
    preference of the tool says, and so none is escalated. *)
Lemma attempt_requests `{!NetworkNeverDenies} tool settings a :
  unsandboxed_allowed os tool settings = false ->
  In a (attempts (snd (run os surroundings tool settings []))) ->
  permissions a = run_permissions tool settings
  /\ sandbox_requested a
     = should_sandbox os (run_permissions tool settings) (sandbox_preference tool)
         (enforce_managed_network a)
  /\ exists windows_type, attempt_sandbox a
     = if sandbox_requested a && negb (uses_executor_managed_process_sandbox tool)
       then select_initial os (run_permissions tool settings) (sandbox_preference tool) windows_type
              (enforce_managed_network a)
       else NoSandbox.
Proof.
  intros Hu Ha. destruct (run_attempts tool settings a Ha) as (managed & proxy & [->| ->]).
  - unfold initial_attempt, first_sandbox_requested. rewrite Hu.
    split_and!; [done|done|]. by eexists.
  - unfold retry_attempt. rewrite Hu. split_and!; [done|done|]. by eexists.
Qed.

End spec.

(** C2: Running a tool never panics, and what happens is: nothing; or one
    attempt, of something that is not forbidden, right after the review granted
    that it needs, if it needs one; or, when the tool itself reports that the
    sandbox denied that attempt, the retry is allowed, and the review that the
    retry needs was granted, one more attempt with the settings of the retry. *)
Theorem tool_runs_reviewed {Url : Type} `{UrlCrates Url} `{Unreachable Url}
    {Out Spec Active Proxy Deferred : Type} (os : HostOs)
    (surroundings : @Surroundings Url Out Spec Active Proxy Deferred) tool settings events :
  NetworkNeverDenies surroundings ->
  let '(o, events') := run os surroundings tool settings events in
  o <> Panic
  /\ (exists story, events' = events ++ story /\ run_tells os surroundings tool settings events story)
  /\ (length (attempts events') <= length (attempts events) + 2)%nat.
Proof.
  intros Hn. pose proof (run_story os surroundings tool settings events) as Hs.
  destruct (run os surroundings tool settings events) as [o events'].
  destruct Hs as (Hp & story & -> & Ht). split_and!; [done|by exists story|].
  rewrite attempts_app, length_app. enough (length (attempts story) <= 2)%nat by lia.
  destruct Ht as [->|(_ & review & managed & proxy & rest & -> & Hg & Hrest)]; [simpl; lia|].
  rewrite attempts_app, attempts_ran, (granted_no_attempts _ _ Hg).
  destruct Hrest as [->|(d & review2 & proxy2 & _ & _ & Hg2 & ->)]; [simpl; lia|].
  rewrite attempts_app, attempts_ran, (granted_no_attempts _ _ Hg2). simpl. lia.
Qed.

(** C27: Whatever was approved, asked for or granted for the session: while reads
    are denied (or the attachment owns the network policy) no attempt is
    escalated; and a denial that a sandbox can enforce puts every attempt of a
    tool that does not forbid it in the sandbox, on macOS and Linux that of the
    platform unless the executor sandboxes the process itself. *)
Theorem denied_reads_stay_sandboxed {Url : Type} `{UrlCrates Url} `{Unreachable Url}
    {Out Spec Active Proxy Deferred : Type} (os : HostOs)
    (surroundings : @Surroundings Url Out Spec Active Proxy Deferred) tool settings a :
  NetworkNeverDenies surroundings ->
  sandbox_preference tool <> ForbidSandbox ->
  In a (attempts (snd (run os surroundings tool settings []))) ->
  (unsandboxed_allowed os tool settings = false -> is_escalated os a = false)
  /\ ((exists e, In e (entries (run_fs_policy tool settings)) /\ enforced_denial os e) ->
      kind (run_fs_policy tool settings) = Restricted ->
      sandbox_requested a = true /\ is_escalated os a = false
      /\ (uses_executor_managed_process_sandbox tool = false -> os = MacOs \/ os = LinuxOs ->
          attempt_sandbox a <> NoSandbox)).
Proof.
  intros Hn Hpref Ha.
  assert (Hesc : unsandboxed_allowed os tool settings = false -> is_escalated os a = false).
  { intros Hu. destruct (attempt_requests os surroundings tool settings a Hu Ha) as (Hp & Hr & _).
    unfold is_escalated. rewrite Hr, Hp.
    destruct (should_sandbox os _ AutoSandbox _) eqn:Es; [|by rewrite andb_false_r].
    by rewrite should_sandbox_unless_forbidden. }
  split; [exact Hesc|]. intros (e & Hin & He) Hk.
  destruct (enforced_denial_sandboxes os (run_permissions tool settings) e
    (enforce_managed_network a) Hk Hin He) as [Hs Hd].
  assert (Hu : unsandboxed_allowed os tool settings = false).
  { unfold unsandboxed_allowed, run_fs_policy. by rewrite Hd, andb_false_r. }
  destruct (attempt_requests os surroundings tool settings a Hu Ha) as (Hp & Hr & wt & Hsb).
  rewrite should_sandbox_unless_forbidden in Hr by done.
  split_and!; [done|by apply Hesc|]. intros Hx Hos. rewrite Hsb, Hr, Hx. simpl.
  unfold select_initial. rewrite should_sandbox_unless_forbidden by done.
  by destruct Hos as [->| ->].
Qed.

(** ** Concrete runs *)

(** A reviewer that grants, a sandbox that denies whatever asks for it, no proxy. *)
Definition demo_surroundings : @Surroundings FileUrl str () () () () := {|
  review := fun _ _ => Ok Approved;
  run_tool := fun _ a => if sandbox_requested a then Err (Codex (SandboxDenied None)) else Ok ($"out");
  begin_network := fun _ _ _ => Ok None;
  execution_proxy := id;
  into_deferred := Some;
  finish_network := fun _ _ => Ok ();
|}.

#[export] Instance demo_never_denies : NetworkNeverDenies demo_surroundings.
Proof. by split. Qed.

Definition demo_tool : @ToolRuntime FileUrl () () := {|
  tool_sandbox_permissions := UseDefault;
  exec_approval_requirement := Some (ExecApprovalRequirement.NeedsApproval None None);
  should_bypass_approval := default_should_bypass_approval;
  wants_no_sandbox_approval := default_wants_no_sandbox_approval;
  approval_action := Ok ();
  sandbox_preference := AutoSandbox;
  escalate_on_failure := true;
  uses_executor_managed_process_sandbox := false;
  tool_sandbox_cwd := None;
  network_approval_spec := fun _ => None;
|}.

Definition demo_root : FileUrl := mkFile None [].

(** Everything may be read and written, apart from a secret when [secret]. *)
Definition demo_settings (secret : bool) : @TurnSettings FileUrl :=
  let policy := [new_entry (Special Root) Write]
    ++ (if secret then [new_entry (GlobPattern ($"**/.env")) Deny] else []) in
  let profile := Managed (ManagedRestricted policy None) NetworkRestricted in
  {|
    turn_approval_policy := UnlessTrusted;
    strict_auto_review := false;
    owner_network_policy := false;
    environment_profile := profile;
    profile_with_workspace_roots := profile;
    environment_cwd := demo_root;
    ToolOrchestrator.workspace_roots := [demo_root];
    controller_network_enabled := false;
    turn_network := false;
    codex_self_exe := None;
    codex_linux_sandbox_exe := Some ($"/usr/bin/codex-linux-sandbox");
    configured_windows_type := NoSandbox;
    configured_windows_level := LevelDisabled;
  |}.

(** Asked, denied, tried again without the sandbox; with a secret the denial
    stands. *)
Example two_runs :
  (exists events, run LinuxOs demo_surroundings demo_tool (demo_settings false) []
     = (Done ($"out", None), events)
     /\ attempt_sandbox <$> attempts events = [LinuxSeccomp; NoSandbox])
  /\ (exists events, run LinuxOs demo_surroundings demo_tool (demo_settings true) []
     = (Fail (Codex (SandboxDenied None)), events)
     /\ attempt_sandbox <$> attempts events = [LinuxSeccomp]).
Proof. split; eexists; split; [vm_compute; reflexivity..]. Qed.

Lemma tool_runs_reviewed_witness :
  let '(o, events') := run LinuxOs demo_surroundings demo_tool (demo_settings false) [] in
  o = Done ($"out", None) /\ length (attempts events') = 2%nat
  /\ (exists story, events' = [] ++ story
      /\ run_tells LinuxOs demo_surroundings demo_tool (demo_settings false) [] story).
Proof.
  pose proof (tool_runs_reviewed LinuxOs demo_surroundings demo_tool (demo_settings false) [] _) as H.
  split_and!; [vm_compute; reflexivity..|]. apply H.
Defined.

Definition demo_attempt : @SandboxAttempt FileUrl () :=
  initial_attempt LinuxOs demo_tool (demo_settings true) false.

Lemma denied_reads_stay_sandboxed_witness :
  attempts (snd (run LinuxOs demo_surroundings demo_tool (demo_settings true) [])) = [demo_attempt]
  /\ sandbox_requested demo_attempt = true /\ is_escalated LinuxOs demo_attempt = false
  /\ attempt_sandbox demo_attempt <> NoSandbox.
Proof.
  assert (E : attempts (snd (run LinuxOs demo_surroundings demo_tool (demo_settings true) []))
    = [demo_attempt]) by (vm_compute; reflexivity).
  split; [exact E|].
  destruct (denied_reads_stay_sandboxed LinuxOs demo_surroundings demo_tool (demo_settings true)
    demo_attempt _ ltac:(done) ltac:(rewrite E; by left)) as [_ H].
  destruct H as (H1 & H2 & H3).
  - exists (new_entry (GlobPattern ($"**/.env")) Deny). split; [by right; left|by split].
  - reflexivity.
  - split_and!; [exact H1|exact H2|]. apply H3; [reflexivity|by right].
Defined.
