(* ===== verification/Truncate.v ===== *)
(** * Truncating output

    utils/string/src/truncate.rs and utils/output-truncation/src/lib.rs: cutting
    the middle out of a text on character boundaries, and fitting the items of a
    tool's output into a budget of bytes or approximate tokens.  Sizes are
    [usize] values in [N]; slicing a string off a character boundary is the
    panic [None].  [with_serialization_allowance], a product in floating point,
    is left out. *)

From S2P Require Import Prelude RustStr.

Module Truncate.

(** ** Strings by byte offset *)

(** [str::len]. *)
Definition blen (s : str) : N := N.of_nat (byte_len s).

Definition char_len (c : char) : N := N.of_nat (len_utf8 c).

(** [(&s[..n], &s[n..])]: [None] off a character boundary or out of range. *)
Fixpoint split_at_byte (n : N) (s : str) : option (str * str) :=
  if (n =? 0)%N then Some ([], s)
  else match s with
       | [] => None
       | c :: s' =>
           if (char_len c <=? n)%N then
             match split_at_byte (n - char_len c) s' with
             | Some (a, b) => Some (c :: a, b)
             | None => None
             end
           else None
       end.

(** ** truncate.rs *)

Definition APPROX_BYTES_PER_TOKEN : N := 4.

Definition approx_token_count (text : str) : N :=
  (sat_add (blen text) (APPROX_BYTES_PER_TOKEN - 1) / APPROX_BYTES_PER_TOKEN)%N.

Definition approx_bytes_for_tokens (tokens : N) : N := sat_mul tokens APPROX_BYTES_PER_TOKEN.

(** On [u64], as wide as [usize]. *)
Definition approx_tokens_from_byte_count (bytes : N) : N :=
  (N.min u64_max (bytes + (APPROX_BYTES_PER_TOKEN - 1)) / APPROX_BYTES_PER_TOKEN)%N.

(** The variables of the loop of [split_string]. *)
Record scan : Type := mkScan {
  prefix_end : N;
  suffix_start : N;
  removed_chars : N;
  suffix_started : bool;
}.

Definition scan_char (beginning_bytes tail_start_target idx : N) (ch : char) (st : scan) : scan :=
  let char_end := (idx + char_len ch)%N in
  if (char_end <=? beginning_bytes)%N
  then mkScan char_end (suffix_start st) (removed_chars st) (suffix_started st)
  else if (tail_start_target <=? idx)%N then
    if suffix_started st then st else mkScan (prefix_end st) idx (removed_chars st) true
  else mkScan (prefix_end st) (suffix_start st) (sat_add (removed_chars st) 1) (suffix_started st).

Fixpoint scan_chars (beginning_bytes tail_start_target idx : N) (s : str) (st : scan) : scan :=
  match s with
  | [] => st
  | ch :: s' =>
      scan_chars beginning_bytes tail_start_target (idx + char_len ch) s'
        (scan_char beginning_bytes tail_start_target idx ch st)
  end.

Definition split_string (s : str) (beginning_bytes end_bytes : N) : option (N * str * str) :=
  if is_empty s then Some (0%N, [], [])
  else
    let len := blen s in
    let tail_start_target := (len - end_bytes)%N in
    let st := scan_chars beginning_bytes tail_start_target 0 s (mkScan 0 len 0 false) in
    let suffix_start :=
      if (suffix_start st <? prefix_end st)%N then prefix_end st else suffix_start st in
    match split_at_byte (prefix_end st) s, split_at_byte suffix_start s with
    | Some (before, _), Some (_, after) => Some (removed_chars st, before, after)
    | _, _ => None
    end.

Definition split_budget (budget : N) : N * N := (budget / 2, budget - budget / 2)%N.

(** The horizontal ellipsis. *)
Definition ELLIPSIS : str := [8230%N].

Definition format_truncation_marker (use_tokens : bool) (removed_count : N) : str :=
  ELLIPSIS ++ show_N removed_count ++ (if use_tokens then $" tokens truncated" else $" chars truncated")
  ++ ELLIPSIS.

Definition removed_units (use_tokens : bool) (removed_bytes removed_chars : N) : N :=
  if use_tokens then approx_tokens_from_byte_count removed_bytes else N.min u64_max removed_chars.

Definition assemble_truncated_output (prefix suffix marker : str) : str := prefix ++ marker ++ suffix.

Definition truncate_with_byte_estimate (s : str) (max_bytes : N) (use_tokens : bool) : option str :=
  if is_empty s then Some []
  else
    let total_chars := N.of_nat (length s) in
    if (max_bytes =? 0)%N
    then Some (format_truncation_marker use_tokens (removed_units use_tokens (blen s) total_chars))
    else if (blen s <=? max_bytes)%N then Some s
    else
      let '(left_budget, right_budget) := split_budget max_bytes in
      match split_string s left_budget right_budget with
      | None => None
      | Some (removed, before, after) =>
          let marker := format_truncation_marker use_tokens
                          (removed_units use_tokens (blen s - max_bytes) removed) in
          Some (assemble_truncated_output before after marker)
      end.

Definition truncate_middle_chars (s : str) (max_bytes : N) : option str :=
  truncate_with_byte_estimate s max_bytes false.

Definition truncate_middle_with_token_budget (s : str) (max_tokens : N)
  : option (str * option N) :=
  if is_empty s then Some ([], None)
  else if (0 <? max_tokens)%N && (blen s <=? approx_bytes_for_tokens max_tokens)%N
  then Some (s, None)
  else
    match truncate_with_byte_estimate s (approx_bytes_for_tokens max_tokens) true with
    | None => None
    | Some truncated =>
        let total_tokens := approx_token_count s in
        Some (truncated, if bool_decide (truncated = s) then None else Some total_tokens)
    end.

(** ** output-truncation *)

Inductive TruncationPolicy : Type := Bytes (bytes : N) | Tokens (tokens : N).

Definition token_budget (p : TruncationPolicy) : N :=
  match p with Bytes bytes => approx_tokens_from_byte_count bytes | Tokens tokens => tokens end.
Definition byte_budget (p : TruncationPolicy) : N :=
  match p with Bytes bytes => bytes | Tokens tokens => approx_bytes_for_tokens tokens end.

Definition truncate_text (content : str) (policy : TruncationPolicy) : option str :=
  match policy with
  | Bytes bytes => truncate_middle_chars content bytes
  | Tokens tokens => fst <$> truncate_middle_with_token_budget content tokens
  end.

Definition formatted_truncate_text (content : str) (policy : TruncationPolicy) : option str :=
  if (blen content <=? byte_budget policy)%N then Some content
  else
    match truncate_text content policy with
    | None => None
    | Some result =>
        Some ($"Warning: truncated output (original token count: "
              ++ show_N (approx_token_count content) ++ $")" ++ [LF] ++ $"Total output lines: "
              ++ show_nat (length (lines content)) ++ [LF] ++ [LF] ++ result)
    end.

(** *** The items of an output *)

Section items.
(** [ImageReference] and [ImageDetail]. *)
Context {Image Detail : Type}.

Inductive FunctionCallOutputContentItem : Type :=
| InputText (text : str)
| InputImage (image : Image) (detail : option Detail)
| InputAudio (audio_url : str)
| EncryptedContent (encrypted_content : str).

Inductive FunctionCallOutputBody : Type :=
| BodyText (text : str)
| ContentItems (items : list FunctionCallOutputContentItem).

Record FunctionCallOutputPayload : Type := mkPayload { body : FunctionCallOutputBody; success : option bool }.

Definition item_text (item : FunctionCallOutputContentItem) : option str :=
  match item with InputText text => Some text | _ => None end.

(** The texts joined: a line feed before each one that does not come first. *)
Definition push_segment (combined text : str) : str :=
  (if is_empty combined then combined else combined ++ [LF]) ++ text.

Definition is_text (item : FunctionCallOutputContentItem) : bool :=
  match item with InputText _ => true | _ => false end.

Definition formatted_truncate_text_content_items_with_policy (items : list FunctionCallOutputContentItem)
    (policy : TruncationPolicy) : option (list FunctionCallOutputContentItem * option N) :=
  let text_segments := omap item_text items in
  if is_empty text_segments then Some (items, None)
  else
    let combined := fold_left push_segment text_segments [] in
    if (blen combined <=? byte_budget policy)%N then Some (items, None)
    else
      match formatted_truncate_text combined policy with
      | None => None
      | Some text =>
          Some (InputText text :: List.filter (fun item => negb (is_text item)) items,
                Some (approx_token_count combined))
      end.

(** [estimate_audio_token_count]. *)
Context (estimate_audio_token_count : str -> N).

(** The variables of the loop. *)
Record fitting : Type := mkFitting {
  out : list FunctionCallOutputContentItem;
  remaining_budget : N;
  omitted_text_items : N;
  omitted_audio_items : N;
}.

Definition text_cost (policy : TruncationPolicy) (text : str) : N :=
  match policy with Bytes _ => blen text | Tokens _ => approx_token_count text end.

Definition snippet_policy (policy : TruncationPolicy) (budget : N) : TruncationPolicy :=
  match policy with Bytes _ => Bytes budget | Tokens _ => Tokens budget end.

Definition audio_cost (policy : TruncationPolicy) (audio_url : str) : N :=
  let token_cost := estimate_audio_token_count audio_url in
  match policy with Bytes _ => approx_bytes_for_tokens token_cost | Tokens _ => token_cost end.

Definition fit_text (policy : TruncationPolicy) (text : str) (st : fitting) : option fitting :=
  if is_empty text then Some st
  else if (remaining_budget st =? 0)%N
  then Some (mkFitting (out st) (remaining_budget st) (omitted_text_items st + 1)
               (omitted_audio_items st))
  else
    let cost := text_cost policy text in
    if (cost <=? remaining_budget st)%N
    then Some (mkFitting (out st ++ [InputText text]) (remaining_budget st - cost)
                 (omitted_text_items st) (omitted_audio_items st))
    else
      match truncate_text text (snippet_policy policy (remaining_budget st)) with
      | None => None
      | Some snippet =>
          if is_empty snippet
          then Some (mkFitting (out st) 0 (omitted_text_items st + 1) (omitted_audio_items st))
          else Some (mkFitting (out st ++ [InputText snippet]) 0 (omitted_text_items st)
                       (omitted_audio_items st))
      end.

Definition fit_audio (policy : TruncationPolicy) (audio_url : str) (st : fitting) : fitting :=
  let cost := audio_cost policy audio_url in
  if (cost <=? remaining_budget st)%N
  then mkFitting (out st ++ [InputAudio audio_url]) (remaining_budget st - cost)
         (omitted_text_items st) (omitted_audio_items st)
  else mkFitting (out st) (remaining_budget st) (omitted_text_items st) (omitted_audio_items st + 1).

Definition fit_item (policy : TruncationPolicy) (item : FunctionCallOutputContentItem) (st : fitting)
  : option fitting :=
  match item with
  | InputText text => fit_text policy text st
  | InputAudio audio_url => Some (fit_audio policy audio_url st)
  | InputImage _ _ | EncryptedContent _ =>
      Some (mkFitting (out st ++ [item]) (remaining_budget st) (omitted_text_items st)
              (omitted_audio_items st))
  end.

Fixpoint fit_items (policy : TruncationPolicy) (items : list FunctionCallOutputContentItem) (st : fitting)
  : option fitting :=
  match items with
  | [] => Some st
  | item :: items' =>
      match fit_item policy item st with
      | Some st => fit_items policy items' st
      | None => None
      end
  end.

Definition items_budget (policy : TruncationPolicy) : N :=
  match policy with Bytes _ => byte_budget policy | Tokens _ => token_budget policy end.

Definition omission_note (count : N) (kind : str) : list FunctionCallOutputContentItem :=
  if (0 <? count)%N
  then [InputText ($"[omitted " ++ show_N count ++ $" " ++ kind ++ $" items ...]")] else [].

Definition truncate_function_output_items_with_policy (items : list FunctionCallOutputContentItem)
    (policy : TruncationPolicy) : option (list FunctionCallOutputContentItem) :=
  match fit_items policy items (mkFitting [] (items_budget policy) 0 0) with
  | None => None
  | Some st =>
      Some (out st ++ omission_note (omitted_text_items st) ($"text")
            ++ omission_note (omitted_audio_items st) ($"audio"))
  end.

Definition truncate_function_output_payload (output : FunctionCallOutputPayload) (policy : TruncationPolicy)
  : option FunctionCallOutputPayload :=
  match body output with
  | BodyText text =>
      match truncate_text text policy with
      | Some text => Some (mkPayload (BodyText text) (success output))
      | None => None
      end
  | ContentItems items =>
      match truncate_function_output_items_with_policy items policy with
      | Some items => Some (mkPayload (ContentItems items) (success output))
      | None => None
      end
  end.

End items.

(** [approx_tokens_from_byte_count_i64], on the values of an [i64]. *)
Definition i64_max : Z := 2 ^ 63 - 1.

Definition approx_tokens_from_byte_count_i64 (bytes : Z) : Z :=
  if (bytes <=? 0)%Z then 0
  else Z.min i64_max (Z.of_N (approx_tokens_from_byte_count (Z.to_N bytes))).

(** ** Splitting *)

Lemma char_len_pos c : (0 < char_len c)%N.
Proof. unfold char_len, len_utf8. repeat case_if; lia. Qed.

Lemma blen_cons c s : blen (c :: s) = (char_len c + blen s)%N.
Proof. unfold blen, char_len, byte_len. simpl. lia. Qed.

Lemma blen_nil : blen [] = 0%N.
Proof. done. Qed.

Lemma blen_app a b : blen (a ++ b) = (blen a + blen b)%N.
Proof. induction a as [|c a IH]; [done|]. rewrite <- app_comm_cons, !blen_cons. lia. Qed.

Lemma split_at_byte_app a b : split_at_byte (blen a) (a ++ b) = Some (a, b).
Proof.
  induction a as [|c a IH]; [by destruct b|]. rewrite <- app_comm_cons, blen_cons. simpl.
  pose proof (char_len_pos c). destruct (N.eqb_spec (char_len c + blen a) 0); [lia|].
  destruct (N.leb_spec (char_len c) (char_len c + blen a)); [|lia].
  by replace (char_len c + blen a - char_len c)%N with (blen a) by lia; rewrite IH.
Qed.

Section scanning.
(** [beginning_bytes] and [tail_start_target]. *)
Context (P T : N).

(** Once the suffix has started nothing changes. *)
Lemma scan_suffix s : forall idx st,
  (P <= idx)%N -> (T <= idx)%N -> suffix_started st = true -> scan_chars P T idx s st = st.
Proof.
  induction s as [|c s IH]; intros idx st HP HT Hst; [done|]. simpl.
  pose proof (char_len_pos c). assert (scan_char P T idx c st = st) as ->.
  { unfold scan_char. destruct (N.leb_spec (idx + char_len c) P); [lia|].
    destruct (N.leb_spec T idx); [|lia]. by rewrite Hst. }
  apply IH; [lia|lia|done].
Qed.

(** After the prefix: the characters before the target are counted. *)
Lemma scan_middle s : forall idx st k,
  suffix_started st = false -> removed_chars st = N.min usize_max k ->
  (forall c s', s = c :: s' -> P < idx + char_len c)%N ->
  exists middle after, s = middle ++ after
    /\ scan_chars P T idx s st
       = mkScan (prefix_end st)
           (if is_empty after then suffix_start st else (idx + blen middle)%N)
           (N.min usize_max (k + N.of_nat (length middle))) (negb (is_empty after))
    /\ (after <> [] -> (T <= idx + blen middle)%N)
    /\ (forall c m, middle = m ++ [c] -> (idx + blen m < T)%N).
Proof.
  induction s as [|c s IH]; intros idx st k Hst Hk Hfit.
  { exists [], []. split; [done|]. split; [|split; [done|by intros c [|]]].
    simpl. destruct st as [p q r b]. simpl in *. subst. do 2 f_equal. lia. }
  specialize (Hfit c s eq_refl). pose proof (char_len_pos c).
  assert (forall d s', s = d :: s' -> (P < idx + char_len c + char_len d)%N) as Hfit' by (intros; lia).
  destruct (N.leb_spec T idx) as [HT|HT].
  - exists [], (c :: s). split; [done|]. split; [|split; [simpl; lia|by intros d [|]]].
    assert (scan_char P T idx c st = mkScan (prefix_end st) idx (removed_chars st) true) as Hc.
    { unfold scan_char. destruct (N.leb_spec (idx + char_len c) P); [lia|].
      destruct (N.leb_spec T idx); [|lia]. by rewrite Hst. }
    simpl. rewrite Hc, scan_suffix by (simpl; lia || done). simpl. rewrite Hk.
    change (blen []) with 0%N. change (N.of_nat (length [])) with 0%N. by rewrite !N.add_0_r.
  - set (st' := mkScan (prefix_end st) (suffix_start st) (sat_add (removed_chars st) 1) false).
    assert (scan_char P T idx c st = st') as Hc.
    { unfold scan_char. destruct (N.leb_spec (idx + char_len c) P); [lia|].
      destruct (N.leb_spec T idx); [lia|]. by rewrite Hst. }
    destruct (IH (idx + char_len c)%N st' (k + 1)%N) as (m & a & Hs & Hscan & Ha & Hm); [done| |done|].
    { simpl. rewrite Hk. unfold sat_add. generalize usize_max. lia. }
    exists (c :: m), a. split; [by rewrite Hs|]. split; [|split].
    + simpl. rewrite Hc, Hscan. simpl. rewrite blen_cons.
      f_equal; [by destruct (is_empty a); [|lia]|]. f_equal. lia.
    + intros Hne. rewrite blen_cons. specialize (Ha Hne). lia.
    + intros d m' Hd. destruct m' as [|e m']; [injection Hd as -> Hnil; rewrite ?blen_nil; lia|].
      injection Hd as -> Hd. rewrite blen_cons. specialize (Hm d m' Hd). lia.
Qed.

(** The longest prefix that fits. *)
Lemma scan_prefix s : forall idx st,
  prefix_end st = idx -> suffix_started st = false -> removed_chars st = 0%N ->
  exists before rest, s = before ++ rest
    /\ scan_chars P T idx s st
       = scan_chars P T (idx + blen before) rest
           (mkScan (idx + blen before) (suffix_start st) 0 false)
    /\ (before <> [] -> (idx + blen before <= P)%N)
    /\ (forall c r, rest = c :: r -> (P < idx + blen before + char_len c)%N).
Proof.
  induction s as [|c s IH]; intros idx st Hp Hst Hr.
  { exists [], []. split; [done|]. split; [|done]. simpl. destruct st. simpl in *. subst.
    f_equal. rewrite ?blen_nil; lia. }
  destruct (N.leb_spec (idx + char_len c) P) as [HP|HP].
  - set (st' := mkScan (idx + char_len c) (suffix_start st) (removed_chars st) (suffix_started st)).
    destruct (IH (idx + char_len c)%N st') as (b & r & Hs & Hscan & Hb & Hn); [done|done|done|].
    exists (c :: b), r. rewrite blen_cons, N.add_assoc. split; [by rewrite Hs|].
    assert (scan_char P T idx c st = st') as Hc.
    { unfold scan_char. by destruct (N.leb_spec (idx + char_len c) P); [|lia]. }
    split; [|split; [|done]].
    + simpl scan_chars at 1. by rewrite Hc, Hscan.
    + intros _. destruct b; [rewrite ?blen_nil; lia|by apply Hb].
  - exists [], (c :: s). split; [done|]. rewrite blen_nil, N.add_0_r.
    split; [|split; [done|by intros d r [= <- <-]]]. destruct st. simpl in *. by subst.
Qed.

End scanning.

(** The parts of a text that [split_string] finds: the prefix and the suffix fit
    their budgets, and neither could take one more character of the middle. *)
Definition cuts (s : str) (beginning_bytes end_bytes : N) (before middle after : str) : Prop :=
  s = before ++ middle ++ after
  /\ (blen before <= beginning_bytes)%N /\ (blen after <= end_bytes)%N
  /\ (forall c m, middle = c :: m -> (beginning_bytes < blen before + char_len c)%N)
  /\ (forall c m, middle = m ++ [c] -> (end_bytes < char_len c + blen after)%N).

Lemma split_string_cuts s beginning_bytes end_bytes :
  exists before middle after,
    split_string s beginning_bytes end_bytes
      = Some (N.min usize_max (N.of_nat (length middle)), before, after)
    /\ cuts s beginning_bytes end_bytes before middle after.
Proof.
  unfold split_string. destruct (is_empty s) eqn:Ee.
  { apply is_empty_true in Ee as ->. exists [], [], []. split; [done|].
    repeat split; try (rewrite ?blen_nil; lia); by intros c [|]. }
  set (T := (blen s - end_bytes)%N).
  destruct (scan_prefix beginning_bytes T s 0 (mkScan 0 (blen s) 0 false))
    as (b & r & Hs & Hscan & Hb & Hn); [done|done|done|].
  rewrite N.add_0_l in *.
  destruct (scan_middle beginning_bytes T r (blen b) (mkScan (blen b) (blen s) 0 false) 0)
    as (m & a & Hr & Hscan' & Ha & Hm); [done|unfold usize_max; simpl; lia|exact Hn|].
  simpl in Hscan. rewrite Hscan, Hscan'. simpl. rewrite N.add_0_l.
  assert (blen s = blen b + blen m + blen a)%N as Hlen by (rewrite Hs, Hr, !blen_app; lia).
  set (q := if is_empty a then blen s else (blen b + blen m)%N).
  assert (q = blen (b ++ m)) as Hq.
  { rewrite blen_app. unfold q. destruct a; [|done]. simpl. rewrite Hlen. rewrite ?blen_nil; lia. }
  destruct (N.ltb_spec q (blen b)) as [Hlt|_]; [rewrite Hq, blen_app in Hlt; lia|].
  assert (s = (b ++ m) ++ a) as Hs' by (by rewrite Hs, Hr, app_assoc).
  assert (split_at_byte (blen b) s = Some (b, r)) as -> by (rewrite Hs; apply split_at_byte_app).
  assert (split_at_byte q s = Some (b ++ m, a)) as ->
    by (rewrite Hq, Hs'; apply split_at_byte_app).
  exists b, m, a. split; [done|]. split; [by rewrite Hs'; rewrite <- app_assoc|].
  split; [destruct b; [rewrite ?blen_nil; lia|by apply Hb]|].
  split.
  { destruct (decide (a = [])) as [->|Hne]; [rewrite ?blen_nil; lia|].
    specialize (Ha Hne). unfold T in Ha. lia. }
  split.
  - intros c m' ->. by apply (Hn c (m' ++ a)).
  - intros c m' Hm'. specialize (Hm c m' Hm'). rewrite Hm', blen_app, blen_cons in Hlen.
    unfold T in Hm. rewrite blen_nil in Hlen. lia.
Qed.

Lemma truncate_defined s max_bytes use_tokens :
  exists r, truncate_with_byte_estimate s max_bytes use_tokens = Some r.
Proof.
  unfold truncate_with_byte_estimate. destruct (is_empty s); [by eexists|].
  destruct (max_bytes =? 0)%N; [by eexists|]. destruct (blen s <=? max_bytes)%N; [by eexists|].
  unfold split_budget. destruct (split_string_cuts s (max_bytes / 2) (max_bytes - max_bytes / 2))
    as (b & m & a & -> & _). by eexists.
Qed.

Lemma truncate_text_defined text policy : exists r, truncate_text text policy = Some r.
Proof.
  destruct policy as [n|n]; simpl; [apply truncate_defined|].
  unfold truncate_middle_with_token_budget. destruct (is_empty text); [by eexists|].
  case_if; [by eexists|].
  destruct (truncate_defined text (approx_bytes_for_tokens n) true) as [r ->]. by eexists.
Qed.

(** The number the marker of a cut shows. *)
Definition removed_count (s middle : str) (max_bytes : N) (use_tokens : bool) : N :=
  if use_tokens then approx_tokens_from_byte_count (blen s - max_bytes) else N.of_nat (length middle).

Lemma length_blen s : (N.of_nat (length s) <= blen s)%N.
Proof.
  induction s as [|c s IH]; [done|]. rewrite blen_cons. pose proof (char_len_pos c). simpl length. lia.
Qed.

(** truncating a text to a positive budget never panics and never cuts a
    character.  A text that fits is returned as it is.  Any other loses its
    middle: what stays before and after fit the two halves of the budget, cannot
    be extended by one more character, and enclose a marker with the exact number
    of removed characters, or the approximate number of tokens above the
    budget. *)
Theorem truncate_middle_spec (s : str) (max_bytes : N) (use_tokens : bool) :
  (blen s <= usize_max)%N -> (0 < max_bytes)%N ->
  exists result, truncate_with_byte_estimate s max_bytes use_tokens = Some result
    /\ if (blen s <=? max_bytes)%N then result = s
       else exists before middle after,
         cuts s (max_bytes / 2) (max_bytes - max_bytes / 2) before middle after
         /\ result = before ++ format_truncation_marker use_tokens
                                 (removed_count s middle max_bytes use_tokens) ++ after
         /\ (blen before + blen after <= max_bytes)%N.
Proof.
  intros Hlen Hmax. unfold truncate_with_byte_estimate. destruct (is_empty s) eqn:Ee.
  { apply is_empty_true in Ee as ->. exists []. split; [done|]. rewrite blen_nil.
    by destruct (N.leb_spec 0 max_bytes); [|lia]. }
  destruct (N.eqb_spec max_bytes 0); [lia|].
  destruct (blen s <=? max_bytes)%N eqn:El; [by exists s|]. unfold split_budget.
  destruct (split_string_cuts s (max_bytes / 2) (max_bytes - max_bytes / 2))
    as (b & m & a & -> & Hc). eexists. split; [done|].
  exists b, m, a. split; [done|]. destruct Hc as (Hs & Hb & Ha & _). split.
  - unfold assemble_truncated_output, removed_units, removed_count. destruct use_tokens; [done|].
    do 4 f_equal. pose proof (length_blen m). rewrite Hs, !blen_app in Hlen.
    unfold u64_max, usize_max in *. lia.
  - pose proof (N.Div0.div_le_mono max_bytes max_bytes 2).
    assert (max_bytes / 2 <= max_bytes)%N by (apply N.Div0.div_le_upper_bound; lia). lia.
Qed.

Lemma truncate_middle_spec_witness :
  exists result, truncate_with_byte_estimate ($"abcdefghij") 4 false = Some result
    /\ exists before middle after, cuts ($"abcdefghij") 2 2 before middle after
       /\ (blen before + blen after <= 4)%N.
Proof.
  destruct (truncate_middle_spec ($"abcdefghij") 4 false) as (r & Hr & b & m & a & Hc & _ & Hle);
    [vm_compute; discriminate|reflexivity|].
  exists r. split; [exact Hr|]. exists b, m, a. split; [exact Hc|exact Hle].
Defined.

(** ** Fitting the items *)

Section fitting.
Context {Image Detail : Type} (estimate_audio_token_count : str -> N) (policy : TruncationPolicy).
Abbreviation item := (@FunctionCallOutputContentItem Image Detail).

Definition item_cost (i : item) : N :=
  match i with
  | InputText text => text_cost policy text
  | InputAudio url => audio_cost estimate_audio_token_count policy url
  | _ => 0%N
  end.

Definition total_cost (l : list item) : N := fold_right (fun i n => (item_cost i + n)%N) 0%N l.

Definition is_audio (i : item) : bool := match i with InputAudio _ => true | _ => false end.
Definition is_media (i : item) : bool := negb (is_text i) && negb (is_audio i).

(** Empty texts are dropped silently. *)
Definition visible (i : item) : bool :=
  match i with InputText text => negb (is_empty text) | _ => true end.

Definition count (f : item -> bool) (l : list item) : N := N.of_nat (length (List.filter f l)).

(** The items kept whole, with at most one cut text among them, which took all
    that was left of the budget. *)
Inductive kept (items : list item) : list item -> N -> Prop :=
| kept_whole whole : sublist whole items -> (total_cost whole <= items_budget policy)%N ->
    kept items whole (items_budget policy - total_cost whole)
| kept_snippet w1 text snippet w2 :
    sublist (w1 ++ InputText text :: w2) items -> (total_cost w1 <= items_budget policy)%N ->
    (items_budget policy - total_cost w1 < text_cost policy text)%N ->
    truncate_text text (snippet_policy policy (items_budget policy - total_cost w1)) = Some snippet ->
    total_cost w2 = 0%N ->
    kept items (w1 ++ InputText snippet :: w2) 0.

Record fitted (items : list item) (st : fitting) : Prop := mkFitted {
  fitted_kept : kept items (out st) (remaining_budget st);
  fitted_media : List.filter is_media (out st) = List.filter is_media items;
  fitted_texts : count (fun i => is_text i && visible i) items
                 = (count is_text (out st) + omitted_text_items st)%N;
  fitted_audio : count is_audio items = (count is_audio (out st) + omitted_audio_items st)%N;
}.

Lemma total_cost_app l1 l2 : total_cost (l1 ++ l2) = (total_cost l1 + total_cost l2)%N.
Proof. induction l1 as [|i l1 IH]; simpl; [done|]. rewrite IH. lia. Qed.

Lemma total_cost_snoc l i : total_cost (l ++ [i]) = (total_cost l + item_cost i)%N.
Proof. rewrite total_cost_app. simpl. lia. Qed.

Lemma count_snoc f l i : count f (l ++ [i]) = (count f l + if f i then 1 else 0)%N.
Proof.
  unfold count. rewrite List.filter_app, length_app. simpl. destruct (f i); simpl; lia.
Qed.

Lemma filter_snoc (f : item -> bool) l i :
  List.filter f (l ++ [i]) = List.filter f l ++ if f i then [i] else [].
Proof. rewrite List.filter_app. simpl. by destruct (f i). Qed.

Lemma kept_skip items o r i : kept items o r -> kept (items ++ [i]) o r.
Proof.
  intros H. destruct H; econstructor; try done; by apply sublist_inserts_r.
Qed.

Lemma kept_add items o r i :
  kept items o r -> (item_cost i <= r)%N -> kept (items ++ [i]) (o ++ [i]) (r - item_cost i).
Proof.
  intros [whole Hsub Hle|w1 text snippet w2 Hsub Hle Hlt Ht H2] Hi.
  - replace (_ - _)%N with (items_budget policy - total_cost (whole ++ [i]))%N
      by (rewrite total_cost_snoc; lia).
    apply kept_whole; [by apply sublist_app|rewrite total_cost_snoc; lia].
  - replace (0 - item_cost i)%N with 0%N by lia. rewrite <- app_assoc. simpl.
    apply (kept_snippet _ w1 text); try done; [|rewrite total_cost_snoc; lia].
    rewrite app_comm_cons, app_assoc. by apply sublist_app.
Qed.

Lemma kept_cut items o r text snippet :
  kept items o r -> (0 < r)%N -> (r < text_cost policy text)%N ->
  truncate_text text (snippet_policy policy r) = Some snippet ->
  kept (items ++ [InputText text]) (o ++ [InputText snippet]) 0.
Proof.
  intros [whole Hsub Hle|w1 t sn w2 Hsub Hle Hlt Ht H2] Hr Hc Hs; [|lia].
  apply (kept_snippet _ whole text snippet []); try done. by apply sublist_app.
Qed.

(** A truncated text is never empty. *)
Lemma truncate_text_nonempty text n r :
  text <> [] -> truncate_text text (snippet_policy policy n) = Some r -> r <> [].
Proof.
  intros Hne. assert (forall m b r, truncate_with_byte_estimate text m b = Some r -> r <> []) as H.
  { intros m b r'. unfold truncate_with_byte_estimate. rewrite (proj2 (is_empty_false text) Hne).
    destruct (m =? 0)%N; [by intros [= <-]|]. destruct (blen text <=? m)%N; [by intros [= <-]|].
    unfold split_budget. destruct (split_string _ _ _) as [[[k a] c]|]; [|done]. intros [= <-].
    unfold assemble_truncated_output, format_truncation_marker, ELLIPSIS. by destruct a. }
  destruct policy; simpl; [apply H|]. unfold truncate_middle_with_token_budget.
  rewrite (proj2 (is_empty_false text) Hne). case_if; [by intros [= <-]|].
  destruct (truncate_with_byte_estimate text _ true) eqn:E; [|done]. intros [= <-]. by eapply H.
Qed.

Lemma fit_text_fitted items text st :
  fitted items st -> exists st', fit_text policy text st = Some st'
    /\ fitted (items ++ [InputText text]) st'.
Proof.
  intros [Hk Hm Ht Ha]. unfold fit_text. destruct (is_empty text) eqn:Ee.
  { exists st. split; [done|]. constructor.
    - by apply kept_skip.
    - by rewrite filter_snoc, app_nil_r.
    - rewrite count_snoc. simpl. rewrite Ee. simpl. lia.
    - rewrite count_snoc. simpl. lia. }
  apply is_empty_false in Ee as Hne.
  destruct (N.eqb_spec (remaining_budget st) 0) as [H0|H0].
  { eexists. split; [done|]. constructor; simpl.
    - by apply kept_skip.
    - by rewrite filter_snoc, app_nil_r.
    - rewrite count_snoc. simpl. rewrite Ee. simpl. lia.
    - rewrite count_snoc. simpl. lia. }
  destruct (N.leb_spec (text_cost policy text) (remaining_budget st)) as [Hc|Hc].
  { eexists. split; [done|]. constructor; simpl.
    - by apply (kept_add _ _ _ (InputText text)).
    - rewrite !filter_snoc. simpl. by rewrite !app_nil_r.
    - rewrite !count_snoc. simpl. rewrite Ee. simpl. lia.
    - rewrite !count_snoc. simpl. lia. }
  destruct (truncate_text_defined text (snippet_policy policy (remaining_budget st))) as [r Hr].
  rewrite Hr. pose proof (truncate_text_nonempty text _ r Hne Hr) as Hrne.
  rewrite (proj2 (is_empty_false r) Hrne). eexists. split; [done|]. constructor; simpl.
  - by eapply kept_cut; [exact Hk|lia|exact Hc|].
  - rewrite !filter_snoc. simpl. by rewrite !app_nil_r.
  - rewrite !count_snoc. simpl. rewrite Ee. simpl. lia.
  - rewrite !count_snoc. simpl. lia.
Qed.

Lemma fit_item_fitted items i st :
  fitted items st -> exists st', fit_item estimate_audio_token_count policy i st = Some st'
    /\ fitted (items ++ [i]) st'.
Proof.
  intros Hf. destruct i as [text|image detail|url|enc]; simpl; [by apply fit_text_fitted| | |].
  all: eexists; split; [done|]; destruct Hf as [Hk Hm Ht Ha].
  - constructor; simpl.
    + rewrite <- (N.sub_0_r (remaining_budget st)). by apply kept_add; [|simpl; lia].
    + by rewrite !filter_snoc, Hm.
    + rewrite !count_snoc. simpl. lia.
    + rewrite !count_snoc. simpl. lia.
  - unfold fit_audio. destruct (N.leb_spec (audio_cost estimate_audio_token_count policy url)
      (remaining_budget st)); constructor; simpl.
    + by apply (kept_add _ _ _ (InputAudio url)).
    + by rewrite !filter_snoc, Hm.
    + rewrite !count_snoc. simpl. lia.
    + rewrite !count_snoc. simpl. lia.
    + by apply kept_skip.
    + by rewrite !filter_snoc, app_nil_r.
    + rewrite !count_snoc. simpl. lia.
    + rewrite !count_snoc. simpl. lia.
  - constructor; simpl.
    + rewrite <- (N.sub_0_r (remaining_budget st)). by apply kept_add; [|simpl; lia].
    + by rewrite !filter_snoc, Hm.
    + rewrite !count_snoc. simpl. lia.
    + rewrite !count_snoc. simpl. lia.
Qed.

Lemma fit_items_fitted items : forall before st,
  fitted before st -> exists st', fit_items estimate_audio_token_count policy items st = Some st'
    /\ fitted (before ++ items) st'.
Proof.
  induction items as [|i items IH]; intros before st Hf; simpl.
  { exists st. by rewrite app_nil_r. }
  destruct (fit_item_fitted before i st Hf) as (st1 & -> & H1).
  destruct (IH _ _ H1) as (st2 & -> & H2). exists st2. split; [done|].
  by rewrite <- app_assoc in H2.
Qed.

Lemma fitted_start : fitted [] (mkFitting [] (items_budget policy) 0 0).
Proof.
  constructor; try done. simpl. rewrite <- (N.sub_0_r (items_budget policy)) at 1.
  apply (kept_whole [] []); [constructor|simpl; lia].
Qed.

End fitting.

(** fitting a tool's output into a budget never panics.  The items kept whole
    come in their order and cost at most the budget together; at most one text is
    cut, it gets exactly the budget the items before it left, and nothing that
    costs anything follows it.  Images and encrypted items all stay, in order.
    Every non-empty text and every audio item is either there or counted in the
    notes at the end. *)
Theorem items_fit_budget {Image Detail : Type} (estimate_audio_token_count : str -> N)
    (items : list (@FunctionCallOutputContentItem Image Detail)) (policy : TruncationPolicy) :
  exists fitted_items r texts audios,
    truncate_function_output_items_with_policy estimate_audio_token_count items policy
      = Some (fitted_items ++ omission_note texts ($"text") ++ omission_note audios ($"audio"))
    /\ kept estimate_audio_token_count policy items fitted_items r
    /\ List.filter is_media fitted_items = List.filter is_media items
    /\ count (fun i => is_text i && visible i) items = (count is_text fitted_items + texts)%N
    /\ count is_audio items = (count is_audio fitted_items + audios)%N.
Proof.
  unfold truncate_function_output_items_with_policy.
  destruct (fit_items_fitted estimate_audio_token_count policy items [] _
              (fitted_start estimate_audio_token_count policy)) as (st & -> & [Hk Hm Ht Ha]).
  by exists (out st), (remaining_budget st), (omitted_text_items st), (omitted_audio_items st).
Qed.

End Truncate.
