(* ===== verification/StreamText.v ===== *)
(** * Streaming text parsers (utils/stream-parser/src)

    The interface every streaming parser of the crate offers
    (stream_text.rs), as a class of operations and a class of laws, and the
    parser of hidden inline tags with its citation wrapper
    (inline_hidden_tag.rs, citation.rs).

    Positions in a text are counted in characters.  The code counts bytes, but
    only ever at the boundary of a match, where the two orders agree; byte
    lengths are kept where they are compared with each other. *)

From S2P Require Import Prelude.
From S2P Require Import RustStr.
From Stdlib Require Import Setoid Morphisms.

(** ** stream_text.rs *)

Record StreamTextChunk (T : Type) : Type := mkChunk {
  visible_text : str;
  extracted : list T }.
Arguments mkChunk {T}.
Arguments visible_text {T}.
Arguments extracted {T}.

Definition default_chunk {T} : StreamTextChunk T := mkChunk [] [].

Definition chunk_is_empty {T} (c : StreamTextChunk T) : bool :=
  is_empty (visible_text c) && is_empty (extracted c).

(** [visible_text.push_str(..)] and [extracted.extend(..)] with a later chunk. *)
Definition chunk_extend {T} (c d : StreamTextChunk T) : StreamTextChunk T :=
  mkChunk (visible_text c ++ visible_text d) (extracted c ++ extracted d).

Lemma surjective_chunk {T} (c : StreamTextChunk T) : c = mkChunk (visible_text c) (extracted c).
Proof. by destruct c. Qed.

Class StreamTextParser (P E : Type) : Type := {
  push_str : P -> str -> P * StreamTextChunk E;
  finish : P -> P * StreamTextChunk E }.

(** What every parser promises its callers: pushing a text in two pieces is
    pushing it at once, up to how the extracted pieces are merged ([same]). *)
Class StreamLaws (P E : Type) `{StreamTextParser P E} : Type := {
  same : list E -> list E -> Prop;
  stream_wf : P -> Prop;
  same_equiv :: Equivalence same;
  same_app :: Proper (same ==> same ==> same) (@app E);
  push_wf : forall p s, stream_wf p -> stream_wf (fst (push_str p s));
  push_nil : forall p, stream_wf p -> push_str p [] = (p, default_chunk);
  push_app : forall p a b, stream_wf p ->
    let r := push_str p (a ++ b) in
    let r1 := push_str p a in
    let r2 := push_str (fst r1) b in
    fst r = fst r2
    /\ visible_text (snd r) = visible_text (snd r1) ++ visible_text (snd r2)
    /\ same (extracted (snd r)) (extracted (snd r1) ++ extracted (snd r2)) }.

(** A caller feeding chunks and gathering what comes out. *)
Section push_all.
Context `{StreamTextParser P E}.

Fixpoint push_all (p : P) (chunks : list str) : P * StreamTextChunk E :=
  match chunks with
  | [] => (p, default_chunk)
  | c :: cs =>
      let (p1, out) := push_str p c in
      let (p2, rest) := push_all p1 cs in
      (p2, chunk_extend out rest)
  end.

(** The same, then the end of the stream. *)
Definition stream_all (p : P) (chunks : list str) : StreamTextChunk E :=
  let (p1, out) := push_all p chunks in chunk_extend out (snd (finish p1)).

Lemma push_all_snoc (p : P) (chunks : list str) (c : str) :
  push_all p (chunks ++ [c])
  = let (p1, out) := push_all p chunks in
    let (p2, last) := push_str p1 c in (p2, chunk_extend out last).
Proof.
  revert p. induction chunks as [|d cs IH]; intros p; simpl.
  - destruct (push_str p c) as [p1 out]. unfold chunk_extend. simpl. by rewrite !app_nil_r, <- surjective_chunk.
  - destruct (push_str p d) as [p1 out]. rewrite IH. destruct (push_all p1 cs) as [p2 rest].
    destruct (push_str p2 c) as [p3 last]. unfold chunk_extend. simpl. by rewrite !app_assoc.
Qed.
End push_all.

Section laws.
Context `{StreamLaws P E}.

Definition same_chunk (c d : StreamTextChunk E) : Prop :=
  visible_text c = visible_text d /\ same (extracted c) (extracted d).

#[export] Instance same_chunk_equiv : Equivalence same_chunk.
Proof.
  split.
  - by intros c.
  - intros c d [Hv He]. by split.
  - intros c d e [Hv He] [Hv' He']. split; [congruence|by etransitivity].
Qed.

#[export] Instance chunk_extend_proper :
  Proper (same_chunk ==> same_chunk ==> same_chunk) chunk_extend.
Proof.
  intros c c' [Hv He] d d' [Hv' He']. unfold chunk_extend. split; simpl; [congruence|].
  by rewrite He, He'.
Qed.

(** The chunks' boundaries do not matter. *)
Lemma push_all_concat (p : P) (chunks : list str) :
  stream_wf p ->
  fst (push_all p chunks) = fst (push_str p (concat chunks))
  /\ same_chunk (snd (push_all p chunks)) (snd (push_str p (concat chunks))).
Proof.
  revert p. induction chunks as [|c cs IH]; intros p Hp; simpl.
  - rewrite push_nil by done. by split.
  - pose proof (push_app p c (concat cs) Hp) as (Hs & Hv & He).
    pose proof (push_wf p c Hp) as Hp1. destruct (push_str p c) as [p1 out]. simpl in *.
    destruct (IH p1 Hp1) as [IHs IHc]. destruct (push_all p1 cs) as [p2 rest]. simpl in *.
    split; [congruence|]. destruct IHc as [IHv IHe]. split; simpl; [congruence|].
    by rewrite He, IHe.
Qed.

Lemma stream_all_concat (p : P) (chunks : list str) :
  stream_wf p -> same_chunk (stream_all p chunks) (stream_all p [concat chunks]).
Proof.
  intros Hp. destruct (push_all_concat p chunks Hp) as [Hs Hc].
  destruct (push_all_concat p [concat chunks] Hp) as [Hs' Hc']. simpl concat in Hs', Hc'.
  rewrite app_nil_r in Hs', Hc'. unfold stream_all.
  destruct (push_all p chunks) as [q out], (push_all p [concat chunks]) as [q' out']. simpl in *.
  subst q q'. by rewrite Hc, Hc'.
Qed.
End laws.

(** ** inline_hidden_tag.rs *)

Record ExtractedInlineTag (T : Type) : Type := mkExtracted { etag : T; econtent : str }.
Arguments mkExtracted {T}.
Arguments etag {T}.
Arguments econtent {T}.

Record InlineTagSpec (T : Type) : Type := mkInlineSpec { itag : T; iopen : str; iclose : str }.
Arguments mkInlineSpec {T}.
Arguments itag {T}.
Arguments iopen {T}.
Arguments iclose {T}.

Record ActiveTag (T : Type) : Type := mkActive { atag : T; aclose : str; acontent : str }.
Arguments mkActive {T}.
Arguments atag {T}.
Arguments aclose {T}.
Arguments acontent {T}.

Record InlineHiddenTagParser (T : Type) : Type := mkInline {
  specs : list (InlineTagSpec T);
  pending : str;
  active : option (ActiveTag T) }.
Arguments mkInline {T}.
Arguments specs {T}.
Arguments pending {T}.
Arguments active {T}.

(** The longest proper, non-empty prefix of [needle] that ends [s]. *)
Fixpoint suffix_prefix_from (s needle : str) (k : nat) : nat :=
  match k with
  | 0 => 0
  | S k' => if ends_with s (take k needle) then k else suffix_prefix_from s needle k'
  end.

Definition longest_suffix_prefix_len (s needle : str) : nat :=
  suffix_prefix_from s needle (length s `min` (length needle - 1)).

Section Inline.
Context {T : Type}.
Implicit Types p : InlineHiddenTagParser T.

(** The assertions of [new] panic. *)
Definition inline_new (ss : list (InlineTagSpec T)) : option (InlineHiddenTagParser T) :=
  if is_empty ss then None
  else if forallb (fun s => negb (is_empty (iopen s)) && negb (is_empty (iclose s))) ss
  then Some (mkInline ss [] None)
  else None.

(** Where the first opening delimiter is, the longest at that place, and the
    first declared among equals: [(position, byte length, index)]. *)
Definition open_before (a b : nat * nat * nat) : bool :=
  let '(pa, la, ia) := a in
  let '(pb, lb, ib) := b in
  if pa =? pb then (if la =? lb then ia <=? ib else lb <? la) else pa <? pb.

Definition min_open (a b : nat * nat * nat) : nat * nat * nat := if open_before a b then a else b.

Definition open_candidates p : list (nat * nat * nat) :=
  omap (fun '(idx, spec) =>
          (fun pos => (pos, byte_len (iopen spec), idx)) <$> find_str (iopen spec) (pending p))
       (zip (seq 0 (length (specs p))) (specs p)).

Definition find_next_open p : option (nat * nat) :=
  (fun '(pos, _, idx) => (pos, idx)) <$> fold_max min_open (open_candidates p).

Definition max_open_prefix_suffix_len p : nat :=
  match fold_max Nat.max
          (map (fun spec => longest_suffix_prefix_len (pending p) (iopen spec)) (specs p)) with
  | Some n => n
  | None => 0
  end.

Definition drain_visible_to_suffix_match p (out : StreamTextChunk (ExtractedInlineTag T))
    (keep_suffix_len : nat)
  : InlineHiddenTagParser T * StreamTextChunk (ExtractedInlineTag T) :=
  let n := length (pending p) - keep_suffix_len in
  (mkInline (specs p) (drop n (pending p)) (active p),
   mkChunk (visible_text out ++ take n (pending p)) (extracted out)).

(** One turn of the loop of [push_str]: [continue] or [break]. *)
Inductive Turn (A : Type) : Type := Continue (a : A) | Break (a : A).
Arguments Continue {A}.
Arguments Break {A}.

Definition inline_turn p (out : StreamTextChunk (ExtractedInlineTag T))
  : Turn (InlineHiddenTagParser T * StreamTextChunk (ExtractedInlineTag T)) :=
  match active p with
  | Some a =>
      match find_str (aclose a) (pending p) with
      | Some close_idx =>
          Continue (mkInline (specs p) (drop (close_idx + length (aclose a)) (pending p)) None,
                    mkChunk (visible_text out)
                      (extracted out
                       ++ [mkExtracted (atag a) (acontent a ++ take close_idx (pending p))]))
      | None =>
          let n := length (pending p) - longest_suffix_prefix_len (pending p) (aclose a) in
          Break (mkInline (specs p) (drop n (pending p))
                   (Some (mkActive (atag a) (aclose a) (acontent a ++ take n (pending p)))), out)
      end
  | None =>
      match find_next_open p with
      | Some (open_idx, spec_idx) =>
          match specs p !! spec_idx with
          | Some spec =>
              Continue (mkInline (specs p)
                          (drop (open_idx + length (iopen spec)) (pending p))
                          (Some (mkActive (itag spec) (iclose spec) [])),
                        mkChunk (visible_text out ++ take open_idx (pending p)) (extracted out))
          | None => Break (p, out)
          end
      | None => Break (drain_visible_to_suffix_match p out (max_open_prefix_suffix_len p))
      end
  end.

(** Every turn that goes on consumes a delimiter, so the text's length bounds
    the turns; [inline_push_runs] below says the bound is never met. *)
Fixpoint inline_loop (fuel : nat) p (out : StreamTextChunk (ExtractedInlineTag T))
  : InlineHiddenTagParser T * StreamTextChunk (ExtractedInlineTag T) :=
  match inline_turn p out with
  | Break r => r
  | Continue (p1, out1) =>
      match fuel with 0 => (p1, out1) | S fuel' => inline_loop fuel' p1 out1 end
  end.

Definition inline_push_str p (chunk : str)
  : InlineHiddenTagParser T * StreamTextChunk (ExtractedInlineTag T) :=
  inline_loop (length (pending p ++ chunk))
    (mkInline (specs p) (pending p ++ chunk) (active p)) default_chunk.

Definition inline_finish p : InlineHiddenTagParser T * StreamTextChunk (ExtractedInlineTag T) :=
  match active p with
  | Some a => (mkInline (specs p) [] None,
               mkChunk [] [mkExtracted (atag a) (acontent a ++ pending p)])
  | None => (mkInline (specs p) [] None, mkChunk (pending p) [])
  end.
End Inline.

#[export] Instance inline_parser {T} :
  StreamTextParser (InlineHiddenTagParser T) (ExtractedInlineTag T) :=
  {| push_str := inline_push_str; finish := inline_finish |}.

(** ** citation.rs *)

Inductive CitationTag : Type := Citation.

Definition CITATION_OPEN : str := $"<oai-mem-citation>".
Definition CITATION_CLOSE : str := $"</oai-mem-citation>".

Record CitationStreamParser : Type := mkCitation { inner : InlineHiddenTagParser CitationTag }.

Definition citation_specs : list (InlineTagSpec CitationTag) :=
  [mkInlineSpec Citation CITATION_OPEN CITATION_CLOSE].

Definition citation_new : option CitationStreamParser :=
  mkCitation <$> inline_new citation_specs.

Definition contents {T} (c : StreamTextChunk (ExtractedInlineTag T)) : StreamTextChunk str :=
  mkChunk (visible_text c) (map econtent (extracted c)).

Definition citation_push_str (c : CitationStreamParser) (chunk : str)
  : CitationStreamParser * StreamTextChunk str :=
  let (i, out) := push_str (inner c) chunk in (mkCitation i, contents out).

Definition citation_finish (c : CitationStreamParser)
  : CitationStreamParser * StreamTextChunk str :=
  let (i, out) := finish (inner c) in (mkCitation i, contents out).

#[export] Instance citation_parser : StreamTextParser CitationStreamParser str :=
  {| push_str := citation_push_str; finish := citation_finish |}.

Definition strip_citations (text : str) : option (str * list str) :=
  parser ← citation_new;
  let (parser, out) := push_str parser text in
  let (_, tail) := finish parser in
  let out := chunk_extend out tail in
  Some (visible_text out, extracted out).

Example strip_sample :
  strip_citations ($"a<oai-mem-citation>x</oai-mem-citation>b<oai-mem-citation>y")
  = Some ($"ab", [$"x"; $"y"]).
Proof. vm_compute. reflexivity. Qed.

(** ** The longest partial match *)

Lemma suffix_prefix_from_spec (s n : str) (m : nat) :
  let k := suffix_prefix_from s n m in
  k <= m /\ ends_with s (take k n) = true
  /\ forall j, j <= m -> ends_with s (take j n) = true -> j <= k.
Proof.
  assert (ends_with s [] = true) as H0 by (apply ends_with_true; exists s; by rewrite app_nil_r).
  induction m as [|m (Hk & He & Hm)]; simpl.
  - split_and!; [lia|done|lia].
  - destruct (ends_with s (take (S m) n)) eqn:E.
    + split_and!; [lia|done|lia].
    + split_and!; [lia|done|]. intros j Hj Hs.
      destruct (decide (j = S m)) as [->|]; [simpl in *; congruence|]. apply Hm; [lia|done].
Qed.

Lemma ends_with_drop (s t : str) :
  ends_with s t = true <-> length t <= length s /\ drop (length s - length t) s = t.
Proof.
  rewrite ends_with_true. split.
  - intros (u & ->). rewrite length_app. split; [lia|]. by rewrite Nat.add_sub, drop_app_length.
  - intros [Hl Hd]. exists (take (length s - length t) s). rewrite <- Hd at 2. by rewrite take_drop.
Qed.

(** [k] characters of [n] end [s], and [n] is longer than that. *)
Definition partial (n s : str) (k : nat) : Prop :=
  k < length n /\ k <= length s /\ drop (length s - k) s = take k n.

Lemma longest_partial (n s : str) :
  n <> [] ->
  let k := longest_suffix_prefix_len s n in
  partial n s k /\ forall j, partial n s j -> j <= k.
Proof.
  intros Hn k. destruct (suffix_prefix_from_spec s n (length s `min` (length n - 1)))
    as (Hk & He & Hm). fold (longest_suffix_prefix_len s n) in Hk, He, Hm. fold k in Hk, He, Hm.
  assert (0 < length n) by (destruct n; [done|simpl; lia]).
  apply ends_with_drop in He as [_ Hd]. rewrite length_take, Nat.min_l in Hd by lia.
  split; [split_and!; [lia|lia|done]|]. intros j (Hj & Hjs & Hjd). apply Hm; [lia|].
  apply ends_with_drop. rewrite length_take, Nat.min_l by lia. by split.
Qed.

(** A partial match of a text that goes on is one of the text before. *)
Lemma partial_before (n p b : str) (i : nat) :
  i <= length p -> length p - i < length n ->
  (exists t, drop i p ++ b ++ t = n) \/ (exists t, drop i p ++ b = n ++ t) ->
  partial n p (length p - i).
Proof.
  intros Hi Hl H. split_and!; [done|lia|].
  replace (length p - (length p - i)) with i by lia.
  assert (length (drop i p) = length p - i) as Hd by apply length_drop.
  destruct H as [(t & <-)|(t & Ht)]; [by rewrite <- Hd, take_app_length|].
  rewrite <- Hd, <- (take_app_le n t), <- Ht by lia. by rewrite take_app_length.
Qed.

Lemma find_str_skip (n s : str) (m : nat) :
  m <= length s -> (forall j, j < m -> starts_with (drop j s) n = false) ->
  find_str n s = (fun i => m + i) <$> find_str n (drop m s).
Proof.
  revert s. induction m as [|m IH]; intros s Hm H.
  - rewrite drop_0. by destruct (find_str n s).
  - destruct s as [|c s]; simpl in Hm; [lia|]. specialize (H 0 ltac:(lia)) as H0. simpl in H0.
    simpl. rewrite H0, (IH s) by (intros; try (apply (H (S j))); lia).
    by destruct (find_str n (drop m s)).
Qed.

(** What the parser lets go of can never be part of a match: searching the
    text that goes on is searching what was kept. *)
Section kept.
Context (n p : str) (Hn : n <> []) (Hnone : find_str n p = None).
Let keep := longest_suffix_prefix_len p n.
Let gone := length p - keep.

Lemma kept_bounds : keep <= length p /\ keep < length n.
Proof. destruct (longest_partial n p Hn) as [(? & ? & _) _]. by split. Qed.

Lemma find_kept (b : str) :
  find_str n (p ++ b) = (fun i => gone + i) <$> find_str n (drop gone p ++ b).
Proof.
  destruct kept_bounds as [Hk _]. rewrite (find_str_skip n (p ++ b) gone).
  - by rewrite drop_app_le by (unfold gone; lia).
  - rewrite length_app. unfold gone. lia.
  - intros j Hj. apply not_true_iff_false. intros Hs.
    rewrite drop_app_le in Hs by (unfold gone in Hj; lia).
    destruct (decide (length n <= length (drop j p))) as [Hl|Hl].
    + apply starts_with_app_inv in Hs; [|done]. rewrite find_str_None in Hnone.
      rewrite Hnone in Hs; [done|]. unfold gone in Hj. lia.
    + rewrite length_drop in Hl. apply starts_with_true in Hs as (t & Ht).
      destruct (longest_partial n p Hn) as [_ Hmax].
      enough (length p - j <= keep) by (unfold gone in Hj; lia).
      apply Hmax, (partial_before _ _ b); [unfold gone in Hj; lia|lia|]. right. by exists t.
Qed.

Lemma longest_kept (b : str) :
  longest_suffix_prefix_len (p ++ b) n = longest_suffix_prefix_len (drop gone p ++ b) n.
Proof.
  destruct kept_bounds as [Hk _].
  destruct (longest_partial n (p ++ b) Hn) as [(Hl1 & Hs1 & Hd1) Hm1].
  destruct (longest_partial n (drop gone p ++ b) Hn) as [(Hl2 & Hs2 & Hd2) Hm2].
  set (k1 := longest_suffix_prefix_len (p ++ b) n) in *.
  set (k2 := longest_suffix_prefix_len (drop gone p ++ b) n) in *.
  rewrite !length_app, ?length_drop in *.
  assert (length b < k1 -> k1 <= keep + length b) as Hle.
  { intros Hb. destruct (longest_partial n p Hn) as [_ Hmax].
    enough (length p - (length p + length b - k1) <= keep) by lia.
    apply Hmax, (partial_before _ _ b); [lia|lia|]. left. exists (drop k1 n).
    rewrite app_assoc, <- (drop_app_le p b), Hd1 by lia. apply take_drop. }
  assert (k1 <= keep + length b) as Hk1 by (destruct (decide (length b < k1)); [auto|lia]).
  apply Nat.le_antisymm.
  - apply Hm2. split_and!; [done|rewrite length_app, length_drop; unfold gone; lia|].
    rewrite <- Hd1, length_app, length_drop.
    rewrite <- (drop_app_le p b gone), drop_drop by (unfold gone; lia).
    f_equal. unfold gone. lia.
  - apply Hm1. split_and!; [done|rewrite length_app; unfold gone in *; lia|].
    rewrite <- Hd2. rewrite <- (drop_app_le p b gone), drop_drop by (unfold gone; lia).
    rewrite !length_app, ?length_drop, ?length_app. f_equal. unfold gone in *. lia.
Qed.

Lemma kept_normal :
  find_str n (drop gone p) = None /\ longest_suffix_prefix_len (drop gone p) n = keep.
Proof.
  pose proof (find_kept []) as Hf. pose proof (longest_kept []) as Hl.
  rewrite !app_nil_r in Hf, Hl. rewrite Hnone in Hf. split; [|done].
  by destruct (find_str n (drop gone p)).
Qed.
End kept.

(** ** The loop of [push_str] *)

Section runs.
Context {T : Type}.
Implicit Types p q : InlineHiddenTagParser T.
Implicit Types out : StreamTextChunk (ExtractedInlineTag T).

(** The loop as the code has it: turns until one breaks. *)
Inductive inline_runs : InlineHiddenTagParser T -> StreamTextChunk (ExtractedInlineTag T) ->
    InlineHiddenTagParser T * StreamTextChunk (ExtractedInlineTag T) -> Prop :=
| run_break p out r : inline_turn p out = Break _ r -> inline_runs p out r
| run_continue p out p1 out1 r :
    inline_turn p out = Continue _ (p1, out1) -> inline_runs p1 out1 r -> inline_runs p out r.

Lemma inline_runs_functional p out r r' :
  inline_runs p out r -> inline_runs p out r' -> r = r'.
Proof.
  induction 1 as [p out r E|p out p1 out1 r E H IH]; intros Hr';
    destruct Hr' as [p out r' E'|p out p2 out2 r' E' Hr']; rewrite E in E';
    simplify_eq/=; auto.
Qed.

(** The delimiters [new] accepts. *)
Definition spec_ok (s : InlineTagSpec T) : Prop := iopen s <> [] /\ iclose s <> [].

Definition delimiters_ok p : Prop :=
  Forall spec_ok (specs p)
  /\ match active p with Some a => aclose a <> [] | None => True end.

Lemma inline_new_ok (ss : list (InlineTagSpec T)) p :
  inline_new ss = Some p -> specs p = ss /\ delimiters_ok p.
Proof.
  unfold inline_new. destruct (is_empty ss); [done|].
  destruct (forallb _ ss) eqn:E; [|done]. intros [= <-]. split; [done|]. split; [|done]. simpl.
  apply Forall_forall. intros s Hs. rewrite forallb_forall in E.
  specialize (E s (proj1 (list_elem_of_In _ _) Hs)). bool_hyps.
  split; by apply is_empty_false.
Qed.

Lemma min_open_list (l : list (nat * nat * nat)) (c m : nat * nat * nat) :
  fold_left min_open l c = m -> In m (c :: l).
Proof.
  revert c. induction l as [|d l IH]; simpl; intros c Hm; [by left|].
  apply IH in Hm as [Hm|Hm]; [|by right; right].
  unfold min_open in Hm. destruct (open_before c d); subst; [by left|by right; left].
Qed.

(** The opening delimiter found is one of the specifications', at that place. *)
Lemma find_next_open_Some p pos idx :
  find_next_open p = Some (pos, idx) ->
  exists spec, specs p !! idx = Some spec /\ find_str (iopen spec) (pending p) = Some pos.
Proof.
  unfold find_next_open, fold_max.
  destruct (open_candidates p) as [|c l] eqn:E; [done|]. simpl.
  destruct (fold_left min_open l c) as [[pos' len] idx'] eqn:F. intros [= -> ->].
  apply min_open_list in F. rewrite <- E in F. unfold open_candidates in F.
  apply list_elem_of_In, list_elem_of_omap in F as ([idx' spec] & Hin & Hf).
  apply list_elem_of_lookup_1 in Hin as (i & Hi).
  apply lookup_zip_with_Some in Hi as (j & s & [= <- <-] & Hj & Hs).
  apply lookup_seq in Hj as [-> _]. simpl in *.
  destruct (find_str (iopen spec) (pending p)) as [k|] eqn:G; [|done]. simplify_eq/=. by exists spec.
Qed.

Lemma inline_turn_continue p out p1 out1 :
  delimiters_ok p -> inline_turn p out = Continue _ (p1, out1) ->
  delimiters_ok p1 /\ length (pending p1) < length (pending p).
Proof.
  intros [Hs Ha] E. unfold inline_turn in E. destruct (active p) as [a|] eqn:A.
  - destruct (find_str (aclose a) (pending p)) as [i|] eqn:F; [|done].
    injection E as <- <-. split; [by split|]. simpl. rewrite length_drop.
    apply find_str_fits in F. destruct (aclose a); simpl in *; [done|lia].
  - destruct (find_next_open p) as [[pos idx]|] eqn:F; [|done].
    apply find_next_open_Some in F as (spec & Hspec & F). rewrite Hspec in E.
    injection E as <- <-. apply list_elem_of_lookup_2 in Hspec.
    rewrite Forall_forall in Hs. destruct (Hs _ Hspec) as [Ho Hc].
    split; [split; [by apply Forall_forall|done]|]. simpl. rewrite length_drop.
    apply find_str_fits in F. destruct (iopen spec); simpl in *; [done|lia].
Qed.

Lemma inline_loop_runs fuel p out :
  delimiters_ok p -> length (pending p) <= fuel -> inline_runs p out (inline_loop fuel p out).
Proof.
  revert p out. induction fuel as [|fuel IH]; intros p out Hp Hf; simpl;
    destruct (inline_turn p out) as [[p1 out1]|r] eqn:E; try (by apply run_break);
    destruct (inline_turn_continue _ _ _ _ Hp E) as [Hp1 Hl].
  - lia.
  - eapply run_continue; [exact E|]. apply IH; [done|lia].
Qed.

Lemma inline_push_loop p chunk :
  delimiters_ok p ->
  inline_runs (mkInline (specs p) (pending p ++ chunk) (active p)) default_chunk
    (inline_push_str p chunk).
Proof. intros Hp. by apply inline_loop_runs. Qed.
End runs.

(** The loop that looks for tags in a pushed chunk always comes to its
    [break]: [push_str] returns what the turns of the loop lead to, and
    nothing else, for every parser [new] can build, in whatever state. *)
Theorem inline_push_terminates {T} (p : InlineHiddenTagParser T) (chunk : str) :
  delimiters_ok p ->
  forall r, inline_runs (mkInline (specs p) (pending p ++ chunk) (active p)) default_chunk r
            <-> r = inline_push_str p chunk.
Proof.
  intros Hp r. pose proof (inline_push_loop p chunk Hp) as H. split.
  - intros Hr. by eapply inline_runs_functional.
  - by intros ->.
Qed.

Lemma inline_push_terminates_witness :
  inline_runs (mkInline citation_specs ($"a<oai-mem-citation>b") None) default_chunk
    (mkInline citation_specs [] (Some (mkActive Citation CITATION_CLOSE ($"b"))),
     mkChunk ($"a") []).
Proof.
  apply (inline_push_terminates (mkInline citation_specs [] None) ($"a<oai-mem-citation>b")).
  - split; [|done]. by repeat constructor.
  - vm_compute. reflexivity.
Defined.

(** ** One tag: chunks do not matter *)

Section single.
Context {T : Type} (spec : InlineTagSpec T) (Hspec : spec_ok spec).
Implicit Types p q : InlineHiddenTagParser T.
Implicit Types out : StreamTextChunk (ExtractedInlineTag T).

(** A parser for [spec] only, between two pushes: nothing it holds back is a
    whole delimiter, and all of it may still become one. *)
Definition held_back (n s : str) : Prop :=
  find_str n s = None /\ longest_suffix_prefix_len s n = length s.

Definition one_tag p : Prop :=
  specs p = [spec]
  /\ match active p with Some a => atag a = itag spec /\ aclose a = iclose spec | None => True end.

Definition one_tag_wf p : Prop :=
  one_tag p
  /\ match active p with
     | Some _ => held_back (iclose spec) (pending p)
     | None => held_back (iopen spec) (pending p)
     end.

(** The parser with more text behind what it holds. *)
Definition more p (b : str) : InlineHiddenTagParser T :=
  mkInline (specs p) (pending p ++ b) (active p).

Lemma one_tag_delimiters p : one_tag p -> delimiters_ok p.
Proof.
  destruct Hspec as [Ho Hc]. intros [Hs Ha]. split.
  - rewrite Hs. by repeat constructor.
  - destruct (active p) as [a|]; [|done]. by destruct Ha as [_ ->].
Qed.

Lemma one_tag_open p :
  specs p = [spec] ->
  find_next_open p = (fun pos => (pos, 0)) <$> find_str (iopen spec) (pending p)
  /\ max_open_prefix_suffix_len p = longest_suffix_prefix_len (pending p) (iopen spec).
Proof.
  intros Hs. unfold find_next_open, open_candidates, max_open_prefix_suffix_len. rewrite Hs. simpl.
  split; [|done]. by destruct (find_str (iopen spec) (pending p)).
Qed.

(** What a turn looks for: whether the delimiter [n] is there, how much text is
    certain, and where the rest begins. *)
Definition cut (n s : str) : bool * nat * nat :=
  match find_str n s with
  | Some i => (true, i, i + length n)
  | None => let gone := length s - longest_suffix_prefix_len s n in (false, gone, gone)
  end.

Lemma cut_more (n s b : str) i j :
  cut n s = (true, i, j) -> i <= length s /\ j <= length s /\ cut n (s ++ b) = (true, i, j).
Proof.
  unfold cut. destruct (find_str n s) as [k|] eqn:F; [|done]. intros [= -> <-].
  pose proof (find_str_fits _ _ _ F). rewrite (find_str_app _ _ _ _ F). split_and!; [lia|lia|done].
Qed.

Lemma cut_kept (n s b : str) i j :
  n <> [] -> cut n s = (false, i, j) ->
  i = j /\ j <= length s /\ held_back n (drop j s)
  /\ cut n (s ++ b) = let '(h, i', j') := cut n (drop j s ++ b) in (h, j + i', j + j').
Proof.
  intros Hn. unfold cut. destruct (find_str n s) as [k|] eqn:F; [done|]. intros [= <- <-].
  destruct (kept_bounds n s Hn) as [Hk _]. destruct (kept_normal n s Hn F) as [Hf Hl].
  split_and!; [done|lia|split; [done|]; rewrite Hl, length_drop; lia|].
  rewrite (find_kept n s Hn F b), (longest_kept n s Hn b).
  set (g := length s - longest_suffix_prefix_len s n) in *.
  destruct (find_str n (drop g s ++ b)) as [k|]; simpl; [by rewrite Nat.add_assoc|].
  destruct (longest_partial n (drop g s ++ b) Hn) as [(_ & Hb & _) _].
  rewrite !length_app, length_drop in *. do 2 f_equal; unfold g in *; lia.
Qed.

Lemma cut_text (s b : str) (g : nat) :
  g <= length s -> forall i,
  take (g + i) (s ++ b) = take g s ++ take i (drop g s ++ b)
  /\ drop (g + i) (s ++ b) = drop i (drop g s ++ b).
Proof.
  intros Hg i. rewrite <- drop_app_le, drop_drop by done. split; [|done].
  rewrite <- (take_drop g (take (g + i) (s ++ b))), take_take, Nat.min_l by lia.
  rewrite take_app_le by done. f_equal. rewrite skipn_firstn_comm. f_equal. lia.
Qed.

(** One turn of a single-tag parser, by what is searched for. *)
Lemma one_tag_turn p out :
  one_tag p ->
  inline_turn p out =
  match active p with
  | Some a =>
      let '(found, i, j) := cut (iclose spec) (pending p) in
      if found then
        Continue _ (mkInline [spec] (drop j (pending p)) None,
          mkChunk (visible_text out)
            (extracted out ++ [mkExtracted (itag spec) (acontent a ++ take i (pending p))]))
      else
        Break _ (mkInline [spec] (drop j (pending p))
          (Some (mkActive (itag spec) (iclose spec) (acontent a ++ take i (pending p)))), out)
  | None =>
      let '(found, i, j) := cut (iopen spec) (pending p) in
      let out1 := mkChunk (visible_text out ++ take i (pending p)) (extracted out) in
      if found then
        Continue _ (mkInline [spec] (drop j (pending p))
                      (Some (mkActive (itag spec) (iclose spec) [])), out1)
      else Break _ (mkInline [spec] (drop j (pending p)) None, out1)
  end.
Proof.
  intros [Hs Ha]. unfold inline_turn, cut. destruct (active p) as [a|] eqn:A.
  - destruct Ha as [-> ->]. rewrite Hs. by destruct (find_str (iclose spec) (pending p)).
  - destruct (one_tag_open p Hs) as [-> Hk]. unfold drain_visible_to_suffix_match.
    rewrite Hk, Hs, A. by destruct (find_str (iopen spec) (pending p)).
Qed.

Lemma one_tag_continue p out p1 out1 :
  one_tag p -> inline_turn p out = Continue _ (p1, out1) ->
  one_tag p1 /\ forall b, inline_turn (more p b) out = Continue _ (more p1 b, out1).
Proof.
  intros Hp E. rewrite one_tag_turn in E by done.
  destruct (active p) as [a|] eqn:A;
    destruct (cut _ (pending p)) as [[[] i] j] eqn:F; try done; injection E as <- <-;
    (split; [done|]); intros b; rewrite one_tag_turn by done; unfold more; simpl; rewrite A;
    destruct (cut_more _ _ b _ _ F) as (Hi & Hj & ->); by rewrite drop_app_le, take_app_le by done.
Qed.

(** A turn that breaks loses nothing: with more text behind it, the parser
    does next what it would have done with all the text at once. *)
Lemma one_tag_break p out q out1 :
  one_tag p -> inline_turn p out = Break _ (q, out1) ->
  one_tag_wf q /\ forall b, inline_turn (more p b) out = inline_turn (more q b) out1.
Proof.
  destruct Hspec as [Ho Hc]. intros Hp E. rewrite one_tag_turn in E by done.
  destruct (active p) as [a|] eqn:A;
    destruct (cut _ (pending p)) as [[[] i] j] eqn:F; try done; injection E as <- <-;
    (split; [split; [done|]; by apply (cut_kept _ _ [] i j)|]);
    intros b; (unshelve epose proof (cut_kept _ _ b i j _ F) as (-> & Hj & _ & Hcut); [assumption|]);
    rewrite !one_tag_turn by done; unfold more; simpl; rewrite A, Hcut;
    destruct (cut _ (drop j (pending p) ++ b)) as [[h i'] j'];
    destruct (cut_text (pending p) b j Hj i') as [-> _], (cut_text (pending p) b j Hj j') as [_ ->];
    destruct h; by rewrite ?app_assoc.
Qed.

Lemma one_tag_runs p out q out1 :
  one_tag p -> inline_runs p out (q, out1) ->
  one_tag_wf q
  /\ forall b r, inline_runs (more q b) out1 r -> inline_runs (more p b) out r.
Proof.
  intros Hp H. remember (q, out1) as r eqn:Hr. revert q out1 Hr Hp.
  induction H as [p out r E|p out p1 out2 r E H IH]; intros q out1 -> Hp.
  - destruct (one_tag_break _ _ _ _ Hp E) as [Hq Hb]. split; [done|]. intros b r Hr.
    inversion Hr as [? ? ? E'|? ? ? ? ? E' Hr']; subst; rewrite <- Hb in E';
      [by apply run_break|by eapply run_continue].
  - destruct (one_tag_continue _ _ _ _ Hp E) as [Hp1 Hb].
    destruct (IH q out1 eq_refl Hp1) as [Hq IHb]. split; [done|]. intros b r Hr.
    eapply run_continue; [apply Hb|by apply IHb].
Qed.

(** The output only grows, whatever was there before. *)
Lemma inline_runs_frame out0 p out q out1 :
  inline_runs p out (q, out1) ->
  inline_runs p (chunk_extend out0 out) (q, chunk_extend out0 out1).
Proof.
  intros H. remember (q, out1) as r eqn:Hr. revert q out1 Hr.
  induction H as [p out r E|p out p1 out2 r E H IH]; intros q out1 ->.
  - apply run_break. unfold inline_turn in *. repeat case_match; simplify_eq/=; try done;
      unfold chunk_extend, drain_visible_to_suffix_match in *; simplify_eq/=; by rewrite app_assoc.
  - eapply run_continue; [|by apply IH].
    unfold inline_turn in *. repeat case_match; simplify_eq/=; try done;
      unfold chunk_extend; simpl; by rewrite app_assoc.
Qed.

Lemma one_tag_push_wf p s : one_tag_wf p -> one_tag_wf (fst (inline_push_str p s)).
Proof.
  intros [Hp _]. pose proof (inline_push_loop p s (one_tag_delimiters p Hp)) as H.
  destruct (inline_push_str p s) as [q out]. by eapply one_tag_runs in H as [Hq _].
Qed.

Lemma one_tag_push_nil p : one_tag_wf p -> inline_push_str p [] = (p, default_chunk).
Proof.
  intros [Hp Hh]. eapply inline_runs_functional; [by apply inline_push_loop, one_tag_delimiters|].
  apply run_break. rewrite one_tag_turn by done. rewrite app_nil_r. unfold cut.
  destruct p as [ss w ac], Hp as [Hs Ha]. simpl in *. subst ss.
  destruct ac as [[t c l]|], Hh as [-> ->]; simpl in *; rewrite Nat.sub_diag; simpl.
  - destruct Ha as [-> ->]. by rewrite app_nil_r.
  - done.
Qed.

Lemma one_tag_push_app p a b :
  one_tag_wf p ->
  let r1 := inline_push_str p a in
  let r2 := inline_push_str (fst r1) b in
  inline_push_str p (a ++ b) = (fst r2, chunk_extend (snd r1) (snd r2)).
Proof.
  intros Hp r1 r2. pose proof (one_tag_delimiters p (proj1 Hp)) as Hd.
  pose proof (one_tag_push_wf p a Hp) as Hq. fold r1 in Hq.
  eapply inline_runs_functional; [by apply inline_push_loop|].
  pose proof (inline_push_loop p a Hd) as H1. fold r1 in H1. destruct r1 as [q out1]. simpl in *.
  apply one_tag_runs in H1 as [_ H1]; [|apply Hp].
  unfold more in H1. simpl in H1. rewrite app_assoc. apply H1.
  pose proof (inline_push_loop q b (one_tag_delimiters q (proj1 Hq))) as H2. fold r2 in H2.
  destruct r2 as [q2 out2]. apply (inline_runs_frame out1) in H2.
  unfold chunk_extend at 1 in H2. simpl in H2. rewrite !app_nil_r in H2.
  by destruct out1.
Qed.
End single.

(** The laws of the citation parser; what it extracts is compared literally. *)
Definition citation_spec : InlineTagSpec CitationTag :=
  mkInlineSpec Citation CITATION_OPEN CITATION_CLOSE.

Lemma citation_spec_ok : spec_ok citation_spec.
Proof. done. Qed.

#[local] Obligation Tactic := idtac.

#[export] Program Instance citation_laws : StreamLaws CitationStreamParser str := {|
  same := eq;
  stream_wf c := one_tag_wf citation_spec (inner c) |}.
Next Obligation.
  intros [p] s Hp. simpl in *. unfold citation_push_str. simpl.
  pose proof (one_tag_push_wf citation_spec citation_spec_ok p s Hp) as H.
  by destruct (inline_push_str p s).
Qed.
Next Obligation.
  intros [p] Hp. simpl in *. unfold citation_push_str. simpl.
  by rewrite (one_tag_push_nil citation_spec citation_spec_ok p Hp).
Qed.
Next Obligation.
  intros [p] a b Hp. simpl in *. unfold citation_push_str. simpl.
  rewrite (one_tag_push_app citation_spec citation_spec_ok p a b Hp).
  destruct (inline_push_str p a) as [q out1]. simpl.
  destruct (inline_push_str q b) as [q2 out2]. simpl.
  split_and!; [done|done|]. by rewrite map_app.
Qed.

(** ** What a whole text strips to *)

Section stripped.
Context (o c : str).

(** [stripped s vis ext]: [vis] is [s] without its hidden spans and [ext]
    their contents.  A span runs from the first opening delimiter to the first
    closing one after it, or to the end of the text. *)
Inductive stripped : str -> str -> list str -> Prop :=
| stripped_plain s : contains_str o s = false -> stripped s s []
| stripped_open v body :
    find_str o (v ++ o ++ body) = Some (length v) -> contains_str c body = false ->
    stripped (v ++ o ++ body) v [body]
| stripped_pair v body rest vis ext :
    find_str o (v ++ o ++ body ++ c ++ rest) = Some (length v) ->
    find_str c (body ++ c ++ rest) = Some (length body) ->
    stripped rest vis ext ->
    stripped (v ++ o ++ body ++ c ++ rest) (v ++ vis) (body :: ext).

Lemma contains_str_false (n s : str) : contains_str n s = false <-> find_str n s = None.
Proof. unfold contains_str. by destruct (find_str n s). Qed.

Lemma find_str_split (n s : str) (i : nat) :
  find_str n s = Some i -> exists v rest, s = v ++ n ++ rest /\ length v = i.
Proof.
  intros F. exists (take i s), (drop (i + length n) s). split; [by apply find_str_cut|].
  apply find_str_fits in F. rewrite length_take. lia.
Qed.

Lemma stripped_total (s : str) : o <> [] -> exists vis ext, stripped s vis ext.
Proof.
  intros Ho. induction s as [s IH] using (induction_ltof1 _ (@length N)). unfold ltof in IH.
  destruct (find_str o s) as [i|] eqn:Fo.
  - pose proof Fo as (v & rest & -> & <-)%find_str_split.
    destruct (find_str c rest) as [j|] eqn:Fc.
    + pose proof Fc as (body & rest' & -> & <-)%find_str_split.
      destruct (IH rest') as (vis & ext & H).
      { rewrite !length_app. destruct o; simpl; [done|lia]. }
      exists (v ++ vis), (body :: ext). by constructor.
    + exists v, [rest]. constructor; [done|]. by apply contains_str_false.
  - exists s, []. constructor. by apply contains_str_false.
Qed.
End stripped.

(** The characters before the first occurrence and the text after it. *)
Lemma around_length (v n rest : str) :
  take (length v) (v ++ n ++ rest) = v /\ drop (length v + length n) (v ++ n ++ rest) = rest.
Proof.
  split; [apply take_app_length|]. rewrite <- drop_drop. by rewrite !drop_app_length.
Qed.

Section strip.
Context {T : Type} (spec : InlineTagSpec T) (Hspec : spec_ok spec).

Definition flushed (r : InlineHiddenTagParser T * StreamTextChunk (ExtractedInlineTag T))
  : StreamTextChunk (ExtractedInlineTag T) := chunk_extend (snd r) (snd (inline_finish (fst r))).

Lemma cut_all (n s : str) :
  n <> [] -> find_str n s = None -> exists g, cut n s = (false, g, g).
Proof. intros Hn F. unfold cut. rewrite F. by eexists. Qed.

Lemma stripped_runs (s vis : str) (ext : list str) :
  stripped (iopen spec) (iclose spec) s vis ext ->
  forall out, exists r, inline_runs (mkInline [spec] s None) out r
    /\ flushed r = chunk_extend out (mkChunk vis (map (mkExtracted (itag spec)) ext)).
Proof.
  destruct Hspec as [Ho Hc].
  induction 1 as [s F|v body Fo Fc|v body rest vis ext Fo Fc H IH]; intros out.
  - apply contains_str_false, (cut_all _ _ Ho) in F as [g F]. eexists. split.
    + apply run_break. rewrite (one_tag_turn spec) by done. simpl. by rewrite F.
    + unfold flushed, chunk_extend. simpl. by rewrite <- app_assoc, take_drop.
  - apply contains_str_false, (cut_all _ _ Hc) in Fc as [g Fc]. eexists. split.
    + eapply run_continue.
      * rewrite (one_tag_turn spec) by done. simpl. unfold cut. rewrite Fo. simpl.
        by destruct (around_length v (iopen spec) body) as [-> ->].
      * apply run_break. rewrite (one_tag_turn spec) by done. simpl. by rewrite Fc.
    + unfold flushed, chunk_extend. simpl. by rewrite take_drop, app_nil_r.
  - edestruct (IH (mkChunk (visible_text out ++ v)
                     (extracted out ++ [mkExtracted (itag spec) body]))) as (r & Hr & Hf).
    exists r. split.
    + eapply run_continue; [|eapply run_continue; [|exact Hr]].
      * rewrite (one_tag_turn spec) by done. simpl. unfold cut. rewrite Fo. simpl.
        by destruct (around_length v (iopen spec) (body ++ iclose spec ++ rest)) as [-> ->].
      * rewrite (one_tag_turn spec) by done. simpl. unfold cut. rewrite Fc.
        by destruct (around_length body (iclose spec) rest) as [-> ->].
    + rewrite Hf. unfold chunk_extend. simpl. by rewrite <- !app_assoc.
Qed.
End strip.

Lemma strip_citations_flushed (text : str) :
  let out := flushed (inline_push_str (mkInline citation_specs [] None) text) in
  strip_citations text = Some (visible_text out, map econtent (extracted out)).
Proof.
  unfold strip_citations. simpl. unfold citation_push_str, flushed. simpl.
  destruct (inline_push_str _ text) as [q out]. unfold citation_finish. simpl.
  destruct (inline_finish q) as [q' tail]. simpl. by rewrite map_app.
Qed.

Lemma strip_citations_stripped (text vis : str) (ext : list str) :
  stripped CITATION_OPEN CITATION_CLOSE text vis ext -> strip_citations text = Some (vis, ext).
Proof.
  intros H. apply (stripped_runs citation_spec citation_spec_ok) with (out := default_chunk) in H
    as (r & Hr & Hf).
  rewrite strip_citations_flushed.
  pose proof (inline_push_loop (mkInline citation_specs [] None) text) as Hl.
  rewrite (inline_runs_functional _ _ _ _ (Hl (one_tag_delimiters citation_spec citation_spec_ok
             (mkInline [citation_spec] [] None) (conj eq_refl I))) Hr), Hf. simpl.
  by rewrite map_map, map_id.
Qed.

(** [strip_citations] never fails, and returns exactly what the text reads
    as: the visible text is the text without the spans from each first
    [<oai-mem-citation>] to the first [</oai-mem-citation>] after it (or to
    the end), the citations are the contents of those spans, in order. *)
Theorem strip_citations_spec (text : str) (vis : str) (ext : list str) :
  strip_citations text = Some (vis, ext) <-> stripped CITATION_OPEN CITATION_CLOSE text vis ext.
Proof.
  split; [|apply strip_citations_stripped]. intros H.
  destruct (stripped_total CITATION_OPEN CITATION_CLOSE text) as (vis' & ext' & Hs); [done|].
  pose proof (strip_citations_stripped _ _ _ Hs). by simplify_eq.
Qed.

Lemma strip_citations_chunks (chunks : list str) :
  let out := stream_all (mkCitation (mkInline citation_specs [] None)) chunks in
  strip_citations (concat chunks) = Some (visible_text out, extracted out).
Proof.
  cbv zeta.
  destruct (stream_all_concat (mkCitation (mkInline citation_specs [] None)) chunks) as [-> He].
  { by split. }
  simpl in He. rewrite He. unfold strip_citations, stream_all. simpl.
  destruct (citation_push_str _ (concat chunks)) as [c out]. simpl.
  destruct (citation_finish c) as [c' tail]. unfold chunk_extend. simpl.
  by rewrite !app_nil_r.
Qed.

(** However a text arrives, in whatever chunks, the citation parser shows
    the same visible text and the same citations as [strip_citations] on the
    whole of it. *)
Theorem citation_stream_chunking (chunks : list str) :
  exists c, citation_new = Some c
  /\ strip_citations (concat chunks)
     = Some (visible_text (stream_all c chunks), extracted (stream_all c chunks)).
Proof.
  exists (mkCitation (mkInline citation_specs [] None)). split; [done|].
  apply strip_citations_chunks.
Qed.
