(* ===== verification/Utf8Stream.v ===== *)
(** * Bytes into a streaming parser (utils/stream-parser/src/utf8_stream.rs)

    [Utf8StreamParser] wraps any parser of the class [StreamTextParser] and
    feeds it bytes, holding back a character cut by the end of a chunk. *)

From S2P Require Import Prelude.
From S2P Require Import RustStr.
From S2P Require Import Utf8.
From S2P Require Import StreamText.

Inductive Utf8StreamParserError : Type :=
| InvalidUtf8 (valid_up_to : nat) (error_len : nat)
| IncompleteUtf8AtEof.

#[export] Instance Utf8StreamParserError_eq_dec : EqDecision Utf8StreamParserError.
Proof. solve_decision. Defined.

(** [Display]. *)
Definition utf8_error_display (e : Utf8StreamParserError) : str :=
  match e with
  | InvalidUtf8 valid_up_to error_len =>
      $"invalid UTF-8 in streamed bytes at offset " ++ show_nat valid_up_to
      ++ $" (error length " ++ show_nat error_len ++ $")"
  | IncompleteUtf8AtEof => $"incomplete UTF-8 code point at end of stream"
  end.

Record Utf8StreamParser (P : Type) : Type := mkUtf8 { utf8_inner : P; pending_utf8 : list N }.
Arguments mkUtf8 {P}.
Arguments utf8_inner {P}.
Arguments pending_utf8 {P}.

Section Utf8Stream.
Context {P E : Type} `{StreamTextParser P E}.

Definition utf8_new (p : P) : Utf8StreamParser P := mkUtf8 p [].

Definition push_bytes (u : Utf8StreamParser P) (chunk : list N)
  : Utf8StreamParser P * result (StreamTextChunk E) Utf8StreamParserError :=
  let old_len := length (pending_utf8 u) in
  let bytes := pending_utf8 u ++ chunk in
  match from_utf8 bytes with
  | Ok text => let (p, out) := push_str (utf8_inner u) text in (mkUtf8 p [], Ok out)
  | Err err =>
      match error_len err with
      | Some n => (mkUtf8 (utf8_inner u) (take old_len bytes),
                   Err (InvalidUtf8 (valid_up_to err) n))
      | None =>
          let n := valid_up_to err in
          if n =? 0 then (mkUtf8 (utf8_inner u) bytes, Ok default_chunk)
          else match from_utf8 (take n bytes) with
               | Ok text =>
                   let (p, out) := push_str (utf8_inner u) text in (mkUtf8 p (drop n bytes), Ok out)
               | Err prefix_err =>
                   (mkUtf8 (utf8_inner u) (take old_len bytes),
                    Err (InvalidUtf8 (valid_up_to prefix_err) (default 0 (error_len prefix_err))))
               end
      end
  end.

(** What an undecodable buffer is reported as, at the end of the stream. *)
Definition pending_error (bytes : list N) : option Utf8StreamParserError :=
  match from_utf8 bytes with
  | Ok _ => None
  | Err err => match error_len err with
               | Some n => Some (InvalidUtf8 (valid_up_to err) n)
               | None => Some IncompleteUtf8AtEof
               end
  end.

Definition utf8_finish (u : Utf8StreamParser P)
  : Utf8StreamParser P * result (StreamTextChunk E) Utf8StreamParserError :=
  match (if is_empty (pending_utf8 u) then None else pending_error (pending_utf8 u)) with
  | Some e => (u, Err e)
  | None =>
      let flush :=
        if is_empty (pending_utf8 u) then Ok (u, default_chunk)
        else match from_utf8 (pending_utf8 u) with
             | Ok text =>
                 let (p, out) := push_str (utf8_inner u) text in Ok (mkUtf8 p [], out)
             | Err err => Err (InvalidUtf8 (valid_up_to err) (default 0 (error_len err)))
             end in
      match flush with
      | Err e => (u, Err e)
      | Ok (u1, out) =>
          let (p, tail) := finish (utf8_inner u1) in
          (mkUtf8 p (pending_utf8 u1), Ok (chunk_extend out tail))
      end
  end.

Definition into_inner (u : Utf8StreamParser P) : result P Utf8StreamParserError :=
  if is_empty (pending_utf8 u) then Ok (utf8_inner u)
  else match pending_error (pending_utf8 u) with
       | None => Ok (utf8_inner u)
       | Some e => Err e
       end.

Definition into_inner_lossy (u : Utf8StreamParser P) : P := utf8_inner u.

(** A caller that pushes every chunk, then finishes, stopping at an error. *)
Fixpoint push_bytes_all (u : Utf8StreamParser P) (chunks : list (list N))
  : Utf8StreamParser P * result (StreamTextChunk E) Utf8StreamParserError :=
  match chunks with
  | [] => (u, Ok default_chunk)
  | c :: cs =>
      match push_bytes u c with
      | (u1, Err e) => (u1, Err e)
      | (u1, Ok out) =>
          match push_bytes_all u1 cs with
          | (u2, Err e) => (u2, Err e)
          | (u2, Ok rest) => (u2, Ok (chunk_extend out rest))
          end
      end
  end.

Definition utf8_stream_all (p : P) (chunks : list (list N))
  : result (StreamTextChunk E) Utf8StreamParserError :=
  match push_bytes_all (utf8_new p) chunks with
  | (u, Ok out) => let? tail := snd (utf8_finish u) in Ok (chunk_extend out tail)
  | (_, Err e) => Err e
  end.

(** ** One push *)

(** What is held back between two pushes: the start of one character. *)
Definition cut_character (bytes : list N) : Prop :=
  bytes = [] \/ bytes <> [] /\ length bytes <= 3 /\ decode bytes = ([], Incomplete).

Lemma byte_len_zero (s : str) : byte_len s = 0 <-> s = [].
Proof.
  split; [|by intros ->]. destruct s as [|c s]; [done|]. unfold byte_len, len_utf8. simpl.
  repeat case_match; lia.
Qed.

(** The decoder's three endings are the three outcomes of a push. *)
Lemma push_bytes_decode (p : P) (w c : list N) :
  let s := fst (decode (w ++ c)) in
  exists rest, w ++ c = encode s ++ rest /\ Forall scalar s
  /\ match snd (decode (w ++ c)) with
     | Invalid n => push_bytes (mkUtf8 p w) c = (mkUtf8 p w, Err (InvalidUtf8 (byte_len s) n))
     | _ =>
         cut_character rest
         /\ push_bytes (mkUtf8 p w) c
            = if bool_decide (s = [] /\ rest <> []) then (mkUtf8 p rest, Ok default_chunk)
              else (mkUtf8 (fst (push_str p s)) rest, Ok (snd (push_str p s)))
     end.
Proof.
  destruct (decode_sound (w ++ c)) as (rest & Hl & Hs & He).
  unfold push_bytes. cbn [pending_utf8 utf8_inner].
  assert (from_utf8 (w ++ c) = let (s, e) := decode (w ++ c) in
    match e with
    | Complete => Ok s
    | Invalid n => Err (mkUtf8Error (byte_len s) (Some n))
    | Incomplete => Err (mkUtf8Error (byte_len s) None)
    end) as -> by (unfold from_utf8; by destruct (decode (w ++ c)) as [? []]).
  destruct (decode (w ++ c)) as [s e]. simpl in Hl, Hs, He.
  exists rest. split; [done|]. split; [done|]. destruct e; simpl.
  - subst rest. split; [by left|]. rewrite bool_decide_eq_false_2 by (by intros []).
    by destruct (push_str p s).
  - by rewrite take_app_length.
  - destruct He as (Hne & Hlen & Hd). split; [by right|].
    destruct (Nat.eqb_spec (byte_len s) 0) as [Hz|Hz].
    + apply byte_len_zero in Hz as ->. rewrite bool_decide_eq_true_2 by done. simpl in Hl. by rewrite Hl.
    + rewrite bool_decide_eq_false_2 by (intros [-> _]; done).
      rewrite Hl, <- length_encode, take_app_length, drop_app_length, from_utf8_encode by done.
      by destruct (push_str p s).
Qed.

(** A push of what continues a text. *)
Lemma decode_prefix (x y : list N) (s : str) :
  Forall scalar s -> x ++ y = encode s -> forall n, snd (decode x) <> Invalid n.
Proof.
  intros Hs Hxy n Hn. pose proof (from_utf8_encode s Hs) as Hf. rewrite <- Hxy in Hf.
  unfold from_utf8 in Hf. rewrite decode_app, Hn in Hf. destruct (decode x) as [t e].
  simpl in Hn. by subst e.
Qed.

Lemma encode_split (s1 : str) (rest : list N) (s : str) :
  Forall scalar s1 -> Forall scalar s -> encode s1 ++ rest = encode s ->
  exists s2, s = s1 ++ s2 /\ Forall scalar s2 /\ rest = encode s2.
Proof.
  intros H1 Hs He. pose proof (from_utf8_encode s Hs) as Hf. rewrite <- He in Hf.
  unfold from_utf8 in Hf. rewrite decode_encode_app in Hf by done. simpl in Hf.
  assert (from_utf8 rest = Ok (fst (decode rest))) as Hr.
  { unfold from_utf8. by destruct (decode rest) as [t []]. }
  apply from_utf8_Ok in Hr as [Hr Hsc]. exists (fst (decode rest)). split_and!; [|done|done].
  destruct (decode rest) as [t []]; simpl in *; congruence.
Qed.

Lemma cut_character_whole (rest : list N) (s : str) :
  cut_character rest -> Forall scalar s -> rest = encode s -> rest = [].
Proof.
  intros [->|(Hne & _ & Hd)] Hs He; [done|].
  pose proof (from_utf8_encode s Hs) as Hf. rewrite <- He in Hf. unfold from_utf8 in Hf.
  by rewrite Hd in Hf.
Qed.
End Utf8Stream.

(** ** Whole streams *)

Section streams.
Context `{StreamLaws P E}.

Lemma push_bytes_valid (p : P) (w c y : list N) (s : str) :
  stream_wf p -> Forall scalar s -> w ++ c ++ y = encode s ->
  exists s1 s2 rest, s = s1 ++ s2 /\ Forall scalar s2 /\ rest ++ y = encode s2
  /\ cut_character rest
  /\ push_bytes (mkUtf8 p w) c = (mkUtf8 (fst (push_str p s1)) rest, Ok (snd (push_str p s1))).
Proof.
  intros Hp Hs He. rewrite app_assoc in He.
  destruct (push_bytes_decode p w c) as (rest & Hl & Hs1 & Hd).
  set (s1 := fst (decode (w ++ c))) in *.
  pose proof (decode_prefix _ _ _ Hs He) as Hi.
  rewrite Hl, <- app_assoc in He. destruct (encode_split _ _ _ Hs1 Hs He) as (s2 & -> & Hs2 & Hr).
  exists s1, s2, rest. split_and!; [done..| |].
  - by destruct (snd (decode (w ++ c))) as [|n|]; [|destruct (Hi n)|]; destruct Hd.
  - assert (push_bytes (mkUtf8 p w) c
            = if bool_decide (s1 = [] /\ rest <> []) then (mkUtf8 p rest, Ok default_chunk)
              else (mkUtf8 (fst (push_str p s1)) rest, Ok (snd (push_str p s1)))) as ->
      by (by destruct (snd (decode (w ++ c))) as [|n|]; [|destruct (Hi n)|]; destruct Hd).
    case_bool_decide as Hb; [|done]. destruct Hb as [-> _]. by rewrite push_nil.
Qed.

Lemma push_bytes_all_valid (chunks : list (list N)) (p : P) (w : list N) (s : str) :
  stream_wf p -> cut_character w -> Forall scalar s -> w ++ concat chunks = encode s ->
  exists texts, s = concat texts
  /\ push_bytes_all (mkUtf8 p w) chunks
     = (mkUtf8 (fst (push_all p texts)) [], Ok (snd (push_all p texts))).
Proof.
  revert p w s. induction chunks as [|c cs IH]; intros p w s Hp Hw Hs He; simpl in *.
  - rewrite app_nil_r in He. pose proof (cut_character_whole _ _ Hw Hs He) as ->.
    exists []. split; [|done]. destruct s as [|ch s]; [done|]. exfalso.
    apply (f_equal length) in He. rewrite length_encode in He. symmetry in He.
    by apply byte_len_zero in He.
  - destruct (push_bytes_valid p w c _ s Hp Hs He) as (s1 & s2 & rest & -> & Hs2 & Hr & Hc & ->).
    pose proof (push_wf p s1 Hp) as Hp1. destruct (push_str p s1) as [p1 out] eqn:Hpush. simpl in *.
    destruct (IH p1 rest s2 Hp1 Hc Hs2 Hr) as (texts & -> & ->).
    exists (s1 :: texts). split; [done|]. simpl. rewrite Hpush.
    by destruct (push_all p1 texts).
Qed.

Lemma utf8_stream_valid (p : P) (chunks : list (list N)) (s : str) :
  stream_wf p -> Forall scalar s -> concat chunks = encode s ->
  exists out, utf8_stream_all p chunks = Ok out /\ same_chunk out (stream_all p [s]).
Proof.
  intros Hp Hs He.
  destruct (push_bytes_all_valid chunks p [] s Hp (or_introl eq_refl) Hs He) as (texts & -> & Ha).
  exists (stream_all p texts). split; [|by apply stream_all_concat].
  unfold utf8_stream_all, utf8_new. rewrite Ha. unfold stream_all.
  destruct (push_all p texts) as [q out]. unfold utf8_finish. simpl.
  by destruct (finish q) as [q' tail].
Qed.
End streams.

(** Bytes that together are the UTF-8 of a text can be pushed in any
    chunks, cutting characters anywhere: every push succeeds, and the wrapped
    parser gives what it gives for the text pushed at once. *)
Theorem utf8_stream_transparent `{StreamLaws P E} (p : P) (chunks : list (list N)) (s : str) :
  stream_wf p -> Forall scalar s -> concat chunks = encode s ->
  exists out, utf8_stream_all p chunks = Ok out /\ same_chunk out (stream_all p [s]).
Proof. apply utf8_stream_valid. Qed.

Lemma utf8_stream_transparent_witness :
  exists out, utf8_stream_all (mkCitation (mkInline citation_specs [] None)) [[104; 195]; [169]]%N
              = Ok out
  /\ same_chunk out (stream_all (mkCitation (mkInline citation_specs [] None)) [[104; 233]%N]).
Proof.
  apply (utf8_stream_transparent (P:=CitationStreamParser) (E:=str)).
  - by split.
  - repeat constructor.
  - reflexivity.
Defined.

Lemma push_bytes_rolls_back_lemma `{StreamTextParser P E} (u : Utf8StreamParser P) (chunk : list N) :
  match decode (pending_utf8 u ++ chunk) with
  | (s, Invalid n) => push_bytes u chunk = (u, Err (InvalidUtf8 (byte_len s) n))
  | (s, _) => exists u1 out, push_bytes u chunk = (u1, Ok out)
              /\ pending_utf8 u ++ chunk = encode s ++ pending_utf8 u1
              /\ cut_character (pending_utf8 u1)
  end.
Proof.
  destruct u as [p w]. simpl. destruct (push_bytes_decode p w chunk) as (rest & Hl & Hs & Hd).
  destruct (decode (w ++ chunk)) as [s e]. simpl in *.
  destruct e as [|n|]; [|done|]; destruct Hd as [Hc ->]; case_bool_decide; by do 2 eexists.
Qed.

(** A push that fails does nothing: the wrapped parser has seen none of the
    chunk and the buffer is as before.  A push fails exactly when the buffered
    bytes and the chunk hold an invalid sequence, and it names the place. *)
Theorem push_bytes_rolls_back `{StreamTextParser P E} (u : Utf8StreamParser P) (chunk : list N) :
  match decode (pending_utf8 u ++ chunk) with
  | (s, Invalid n) => push_bytes u chunk = (u, Err (InvalidUtf8 (byte_len s) n))
  | (s, _) => exists u1 out, push_bytes u chunk = (u1, Ok out)
              /\ pending_utf8 u ++ chunk = encode s ++ pending_utf8 u1
              /\ cut_character (pending_utf8 u1)
  end.
Proof. apply push_bytes_rolls_back_lemma. Qed.

(** C40: The parser never holds back more than the first three bytes of one
    character, whatever was pushed: from a new parser, every reachable buffer
    is empty or the beginning of a character that more bytes can complete. *)
Theorem utf8_buffer_bounded `{StreamTextParser P E} (p : P) (chunks : list (list N)) :
  let u := fst (push_bytes_all (utf8_new p) chunks) in
  length (pending_utf8 u) <= 3
  /\ (pending_utf8 u = [] \/ decode (pending_utf8 u) = ([], Incomplete)).
Proof.
  intros u. enough (cut_character (pending_utf8 u)) as [->|(_ & Hl & Hd)]
    by (split; [simpl; lia|by left] || (split; [done|by right])).
  unfold u. clear u. assert (cut_character (pending_utf8 (utf8_new p))) as Hw by by left.
  revert Hw. generalize (utf8_new p). induction chunks as [|c cs IH]; intros u Hw; simpl; [done|].
  pose proof (push_bytes_rolls_back_lemma u c) as Hr.
  destruct (decode (pending_utf8 u ++ c)) as [s [|n|]];
    [|by rewrite Hr|]; destruct Hr as (u1 & out & -> & _ & Hc);
    specialize (IH u1 Hc); by destruct (push_bytes_all u1 cs) as [u2 []].
Qed.
