(* ===== verification/TaggedLines.v ===== *)
(** * Tags alone on a line, and the assistant's text (utils/stream-parser/src)

    The parser of tagged blocks (tagged_line_parser.rs), the plan parser built
    on it (proposed_plan.rs) and the parser of everything the assistant writes,
    which puts the citation parser before the plan parser (assistant_text.rs). *)

From S2P Require Import Prelude.
From S2P Require Import RustStr.
From S2P Require Import StreamText.
From Stdlib Require Import Setoid Morphisms.

(** ** tagged_line_parser.rs *)

Record TagSpec (T : Type) : Type := mkTagSpec { topen : str; tclose : str; ttag : T }.
Arguments mkTagSpec {T}.
Arguments topen {T}.
Arguments tclose {T}.
Arguments ttag {T}.

Inductive TaggedLineSegment (T : Type) : Type :=
| Normal (text : str)
| TagStart (tag : T)
| TagDelta (tag : T) (text : str)
| TagEnd (tag : T).
Arguments Normal {T}.
Arguments TagStart {T}.
Arguments TagDelta {T}.
Arguments TagEnd {T}.

Record TaggedLineParser (T : Type) : Type := mkTagged {
  tspecs : list (TagSpec T);
  active_tag : option T;
  detect_tag : bool;
  line_buffer : str }.
Arguments mkTagged {T}.
Arguments tspecs {T}.
Arguments active_tag {T}.
Arguments detect_tag {T}.
Arguments line_buffer {T}.

Section Tagged.
Context {T : Type} `{EqDecision T}.
Implicit Types p : TaggedLineParser T.
Implicit Types segments : list (TaggedLineSegment T).

(** Text goes into the last segment when that one is of the same kind. *)
Definition push_tagged_segment segments (segment : TaggedLineSegment T) : list (TaggedLineSegment T) :=
  match segment with
  | Normal delta =>
      if is_empty delta then segments
      else match last segments with
           | Some (Normal existing) =>
               update_last (fun _ => Normal (existing ++ delta)) segments
           | _ => segments ++ [Normal delta]
           end
  | TagDelta tag delta =>
      if is_empty delta then segments
      else match last segments with
           | Some (TagDelta existing_tag existing) =>
               if decide (existing_tag = tag)
               then update_last (fun _ => TagDelta existing_tag (existing ++ delta)) segments
               else segments ++ [TagDelta tag delta]
           | _ => segments ++ [TagDelta tag delta]
           end
  | TagStart tag => segments ++ [TagStart tag]
  | TagEnd tag => segments ++ [TagEnd tag]
  end.

Definition tagged_new (specs : list (TagSpec T)) : TaggedLineParser T :=
  mkTagged specs None true [].

Definition push_text p (text : str) segments : list (TaggedLineSegment T) :=
  match active_tag p with
  | Some tag => push_tagged_segment segments (TagDelta tag text)
  | None => push_tagged_segment segments (Normal text)
  end.

Definition is_tag_prefix p (slug : str) : bool :=
  existsb (fun spec => starts_with (topen spec) (trim_end slug)
                       || starts_with (tclose spec) (trim_end slug)) (tspecs p).

Definition match_open p (slug : str) : option T :=
  ttag <$> List.find (fun spec => bool_decide (topen spec = slug)) (tspecs p).

Definition match_close p (slug : str) : option T :=
  ttag <$> List.find (fun spec => bool_decide (tclose spec = slug)) (tspecs p).

(** The part of a buffered line that is compared with the tags. *)
Definition line_slug (line : str) : str := trim (default line (strip_suffix [LF] line)).

Definition finish_line p segments : TaggedLineParser T * list (TaggedLineSegment T) :=
  let line := line_buffer p in
  let slug := line_slug line in
  let text :=
    (mkTagged (tspecs p) (active_tag p) true [], push_text p line segments) in
  let close :=
    match match_close p slug with
    | Some tag =>
        if bool_decide (active_tag p = Some tag)
        then (mkTagged (tspecs p) None true [], push_tagged_segment segments (TagEnd tag))
        else text
    | None => text
    end in
  match match_open p slug with
  | Some tag =>
      if is_none (active_tag p)
      then (mkTagged (tspecs p) (Some tag) true [], push_tagged_segment segments (TagStart tag))
      else close
  | None => close
  end.

(** One character of [parse]: the state, the run of plain text gathered so far
    and the segments. *)
Definition parse_char p (run : str) segments (ch : char)
  : TaggedLineParser T * str * list (TaggedLineSegment T) :=
  if detect_tag p then
    let segments := if is_empty run then segments else push_text p run segments in
    let buffer := line_buffer p ++ [ch] in
    let p := mkTagged (tspecs p) (active_tag p) true buffer in
    if bool_decide (ch = LF) then let (p, segments) := finish_line p segments in (p, [], segments)
    else
      let slug := trim_start buffer in
      if is_empty slug || is_tag_prefix p slug then (p, [], segments)
      else (mkTagged (tspecs p) (active_tag p) false [], [], push_text p buffer segments)
  else
    let run := run ++ [ch] in
    if bool_decide (ch = LF)
    then (mkTagged (tspecs p) (active_tag p) true (line_buffer p), [], push_text p run segments)
    else (p, run, segments).

Fixpoint parse_chars p (run : str) segments (delta : str)
  : TaggedLineParser T * str * list (TaggedLineSegment T) :=
  match delta with
  | [] => (p, run, segments)
  | ch :: delta' =>
      let '(p, run, segments) := parse_char p run segments ch in parse_chars p run segments delta'
  end.

Definition tagged_parse p (delta : str) : TaggedLineParser T * list (TaggedLineSegment T) :=
  let '(p, run, segments) := parse_chars p [] [] delta in
  (p, if is_empty run then segments else push_text p run segments).

Definition tagged_finish p : TaggedLineParser T * list (TaggedLineSegment T) :=
  let (p, segments) :=
    if is_empty (line_buffer p) then (p, [])
    else
      let buffered := line_buffer p in
      let slug := line_slug buffered in
      let p := mkTagged (tspecs p) (active_tag p) (detect_tag p) [] in
      let close :=
        match match_close p slug with
        | Some tag =>
            if bool_decide (active_tag p = Some tag)
            then (mkTagged (tspecs p) None (detect_tag p) [], push_tagged_segment [] (TagEnd tag))
            else (p, push_text p buffered [])
        | None => (p, push_text p buffered [])
        end in
      match match_open p slug with
      | Some tag =>
          if is_none (active_tag p)
          then (mkTagged (tspecs p) (Some tag) (detect_tag p) [], push_tagged_segment [] (TagStart tag))
          else close
      | None => close
      end in
  let segments :=
    match active_tag p with Some tag => push_tagged_segment segments (TagEnd tag) | None => segments end in
  (mkTagged (tspecs p) None true (line_buffer p), segments).
End Tagged.

(** ** proposed_plan.rs *)

Definition OPEN_TAG : str := $"<proposed_plan>".
Definition CLOSE_TAG : str := $"</proposed_plan>".

Inductive PlanTag : Type := ProposedPlan.

#[export] Instance PlanTag_eq_dec : EqDecision PlanTag.
Proof. solve_decision. Defined.

Inductive ProposedPlanSegment : Type :=
| PlanNormal (text : str)
| ProposedPlanStart
| ProposedPlanDelta (text : str)
| ProposedPlanEnd.

Record ProposedPlanParser : Type := mkPlan { plan_parser : TaggedLineParser PlanTag }.

Definition plan_specs : list (TagSpec PlanTag) := [mkTagSpec OPEN_TAG CLOSE_TAG ProposedPlan].

Definition plan_new : ProposedPlanParser := mkPlan (tagged_new plan_specs).

Definition map_segment (segment : TaggedLineSegment PlanTag) : ProposedPlanSegment :=
  match segment with
  | Normal text => PlanNormal text
  | TagStart ProposedPlan => ProposedPlanStart
  | TagDelta ProposedPlan text => ProposedPlanDelta text
  | TagEnd ProposedPlan => ProposedPlanEnd
  end.

(** The text a segment shows. *)
Definition plan_visible (segment : ProposedPlanSegment) : str :=
  match segment with PlanNormal text => text | _ => [] end.

Fixpoint map_segments (segments : list (TaggedLineSegment PlanTag))
  : StreamTextChunk ProposedPlanSegment :=
  match segments with
  | [] => default_chunk
  | segment :: rest =>
      let mapped := map_segment segment in
      chunk_extend (mkChunk (plan_visible mapped) [mapped]) (map_segments rest)
  end.

Definition plan_push_str (p : ProposedPlanParser) (chunk : str)
  : ProposedPlanParser * StreamTextChunk ProposedPlanSegment :=
  let (q, segments) := tagged_parse (plan_parser p) chunk in (mkPlan q, map_segments segments).

Definition plan_finish (p : ProposedPlanParser)
  : ProposedPlanParser * StreamTextChunk ProposedPlanSegment :=
  let (q, segments) := tagged_finish (plan_parser p) in (mkPlan q, map_segments segments).

#[export] Instance plan_stream_parser : StreamTextParser ProposedPlanParser ProposedPlanSegment :=
  {| push_str := plan_push_str; finish := plan_finish |}.

Definition strip_proposed_plan_blocks (text : str) : str :=
  let (parser, out) := push_str plan_new text in
  visible_text out ++ visible_text (snd (finish parser)).

Definition extract_step (st : str * bool) (segment : ProposedPlanSegment) : str * bool :=
  let (plan_text, saw_plan_block) := st in
  match segment with
  | ProposedPlanStart => ([], true)
  | ProposedPlanDelta delta => (plan_text ++ delta, saw_plan_block)
  | ProposedPlanEnd | PlanNormal _ => (plan_text, saw_plan_block)
  end.

Definition extract_proposed_plan_text (text : str) : option str :=
  let (parser, out) := push_str plan_new text in
  let segments := extracted out ++ extracted (snd (finish parser)) in
  let (plan_text, saw_plan_block) := fold_left extract_step segments ([], false) in
  if saw_plan_block then Some plan_text else None.

(** ** assistant_text.rs *)

Record AssistantTextChunk : Type := mkAssistantChunk {
  avisible_text : str;
  citations_found : list str;
  plan_segments : list ProposedPlanSegment }.

Definition assistant_chunk_is_empty (c : AssistantTextChunk) : bool :=
  is_empty (avisible_text c) && is_empty (citations_found c) && is_empty (plan_segments c).

Record AssistantTextStreamParser : Type := mkAssistant {
  plan_mode : bool;
  citations : CitationStreamParser;
  plan : ProposedPlanParser }.

(** [CitationStreamParser::new] asserts its own constants: see
    [citation_new]. *)
Definition assistant_new (mode : bool) : option AssistantTextStreamParser :=
  c ← citation_new; Some (mkAssistant mode c plan_new).

Definition parse_visible_text (p : AssistantTextStreamParser) (text : str)
  : AssistantTextStreamParser * AssistantTextChunk :=
  if plan_mode p then
    let (q, plan_chunk) := push_str (plan p) text in
    (mkAssistant (plan_mode p) (citations p) q,
     mkAssistantChunk (visible_text plan_chunk) [] (extracted plan_chunk))
  else (p, mkAssistantChunk text [] []).

Definition assistant_push_str (p : AssistantTextStreamParser) (chunk : str)
  : AssistantTextStreamParser * AssistantTextChunk :=
  let (c, citation_chunk) := push_str (citations p) chunk in
  let (p, out) :=
    parse_visible_text (mkAssistant (plan_mode p) c (plan p)) (visible_text citation_chunk) in
  (p, mkAssistantChunk (avisible_text out) (extracted citation_chunk) (plan_segments out)).

Definition assistant_finish (p : AssistantTextStreamParser)
  : AssistantTextStreamParser * AssistantTextChunk :=
  let (c, citation_chunk) := finish (citations p) in
  let (p, out) :=
    parse_visible_text (mkAssistant (plan_mode p) c (plan p)) (visible_text citation_chunk) in
  let (p, out) :=
    if plan_mode p then
      let (q, tail) := finish (plan p) in
      (mkAssistant (plan_mode p) (citations p) q,
       if chunk_is_empty tail then out
       else mkAssistantChunk (avisible_text out ++ visible_text tail) (citations_found out)
              (plan_segments out ++ extracted tail))
    else (p, out) in
  (p, mkAssistantChunk (avisible_text out) (extracted citation_chunk) (plan_segments out)).

(** A caller gathering everything. *)
Definition assistant_extend (c d : AssistantTextChunk) : AssistantTextChunk :=
  mkAssistantChunk (avisible_text c ++ avisible_text d) (citations_found c ++ citations_found d)
    (plan_segments c ++ plan_segments d).

Fixpoint assistant_push_all (p : AssistantTextStreamParser) (chunks : list str)
  : AssistantTextStreamParser * AssistantTextChunk :=
  match chunks with
  | [] => (p, mkAssistantChunk [] [] [])
  | c :: cs =>
      let (p1, out) := assistant_push_str p c in
      let (p2, rest) := assistant_push_all p1 cs in (p2, assistant_extend out rest)
  end.

Definition assistant_all (p : AssistantTextStreamParser) (chunks : list str) : AssistantTextChunk :=
  let (p1, out) := assistant_push_all p chunks in
  assistant_extend out (snd (assistant_finish p1)).

Example assistant_sample :
  (fun p => assistant_all p [lit "Intro
<proposed"; lit "_plan>
- step <oai-mem-citation>doc</oai-mem-citation>
"; lit "</proposed_plan>
Outro"]) <$> assistant_new true
  = Some (mkAssistantChunk (lit "Intro
Outro") [$"doc"]
      [PlanNormal (lit "Intro
"); ProposedPlanStart; ProposedPlanDelta (lit "- step 
"); ProposedPlanEnd; PlanNormal ($"Outro")]).
Proof. vm_compute. reflexivity. Qed.

(** ** What segments say

    Segments may be merged differently by different chunkings; what they say,
    character by character, may not differ. *)

Inductive TagEvent (T : Type) : Type :=
| EText (c : char)
| EStart (tag : T)
| EDelta (tag : T) (c : char)
| EEnd (tag : T).
Arguments EText {T}.
Arguments EStart {T}.
Arguments EDelta {T}.
Arguments EEnd {T}.

Section events.
Context {T : Type} `{EqDecision T}.
Implicit Types p : TaggedLineParser T.
Implicit Types segments : list (TaggedLineSegment T).

Definition segment_events (s : TaggedLineSegment T) : list (TagEvent T) :=
  match s with
  | Normal text => map EText text
  | TagStart tag => [EStart tag]
  | TagDelta tag text => map (EDelta tag) text
  | TagEnd tag => [EEnd tag]
  end.

Definition events segments : list (TagEvent T) := flat_map segment_events segments.

Lemma events_app l l' : events (l ++ l') = events l ++ events l'.
Proof. apply flat_map_app. Qed.

Lemma push_tagged_segment_events segments s :
  events (push_tagged_segment segments s) = events segments ++ segment_events s.
Proof.
  destruct (snoc_cases segments) as [->|(l & x & ->)].
  - destruct s as [[|c t]|tag|tag [|c t]|tag]; simpl; by rewrite ?app_nil_r.
  - destruct s as [t|tag|tag t|tag]; simpl; try (by rewrite events_app; simpl; rewrite ?app_nil_r);
      (destruct (is_empty t) eqn:Et;
       [apply is_empty_true in Et as ->; by rewrite app_nil_r|]);
      rewrite last_snoc; destruct x as [u|u|tag' u|u]; try case_decide; subst;
      rewrite ?update_last_snoc, !events_app; simpl; by rewrite ?app_nil_r, ?map_app, ?app_assoc.
Qed.

(** Text under the current tag. *)
Definition text_events (a : option T) (text : str) : list (TagEvent T) :=
  match a with Some tag => map (EDelta tag) text | None => map EText text end.

Lemma text_events_app a s t : text_events a (s ++ t) = text_events a s ++ text_events a t.
Proof. destruct a; apply map_app. Qed.

Lemma push_text_events p text segments :
  events (push_text p text segments) = events segments ++ text_events (active_tag p) text.
Proof. unfold push_text, text_events. by destruct (active_tag p); rewrite push_tagged_segment_events. Qed.

(** A whole line, by itself: a tag that applies, or text. *)
Definition line_events (specs : list (TagSpec T)) (a : option T) (line : str)
  : option T * list (TagEvent T) :=
  let p := tagged_new specs in
  match match_open p (line_slug line), a with
  | Some tag, None => (Some tag, [EStart tag])
  | _, _ =>
      match match_close p (line_slug line) with
      | Some tag => if bool_decide (a = Some tag) then (None, [EEnd tag]) else (a, text_events a line)
      | None => (a, text_events a line)
      end
  end.

Fixpoint lines_events (specs : list (TagSpec T)) (a : option T) (ls : list str)
  : list (TagEvent T) :=
  match ls with
  | [] => match a with Some tag => [EEnd tag] | None => [] end
  | line :: ls' =>
      let (a', ev) := line_events specs a line in ev ++ lines_events specs a' ls'
  end.

Lemma finish_line_events p segments :
  let r := line_events (tspecs p) (active_tag p) (line_buffer p) in
  exists segments', finish_line p segments = (mkTagged (tspecs p) (fst r) true [], segments')
  /\ events segments' = events segments ++ snd r.
Proof.
  assert (match_open (tagged_new (tspecs p)) (line_slug (line_buffer p))
          = match_open p (line_slug (line_buffer p))) as Ho by done.
  assert (match_close (tagged_new (tspecs p)) (line_slug (line_buffer p))
          = match_close p (line_slug (line_buffer p))) as Hc by done.
  unfold finish_line, line_events. rewrite Ho, Hc.
  destruct (match_open p _) as [t|], (match_close p _) as [t'|], (active_tag p) as [a|] eqn:A;
    simpl; try case_bool_decide; simpl; eexists; (split; [done|]);
    rewrite ?push_text_events, ?events_app, ?A; done.
Qed.

(** ** The parser as a machine on events *)

Definition char_events p (ch : char) : TaggedLineParser T * list (TagEvent T) :=
  let '(p', run', segments') := parse_char p [] [] ch in
  (p', events segments' ++ text_events (active_tag p') run').

Lemma parse_char_events p run segments ch :
  let '(p', run', segments') := parse_char p run segments ch in
  p' = fst (char_events p ch)
  /\ events segments' ++ text_events (active_tag p') run'
     = (events segments ++ text_events (active_tag p) run) ++ snd (char_events p ch).
Proof.
  unfold char_events, parse_char. destruct (detect_tag p).
  - set (segs := if is_empty run then segments else push_text p run segments).
    assert (events segs = events segments ++ text_events (active_tag p) run) as Hs.
    { unfold segs. destruct (is_empty run) eqn:E; [|apply push_text_events].
      apply is_empty_true in E as ->. by destruct (active_tag p); rewrite app_nil_r. }
    rewrite <- Hs. case_bool_decide; simpl.
    + set (p1 := mkTagged _ _ _ _).
      destruct (finish_line_events p1 segs) as (s1 & -> & H1).
      destruct (finish_line_events p1 []) as (s2 & -> & H2). simpl in *.
      split; [done|]. rewrite H1, H2. by rewrite app_assoc.
    + destruct (_ || _); simpl; (split; [done|]); rewrite ?push_text_events; simpl;
        destruct (active_tag p); simpl; by rewrite ?app_nil_r.
  - case_bool_decide; simpl; (split; [done|]); rewrite ?push_text_events, ?text_events_app; simpl;
      destruct (active_tag p); simpl; by rewrite ?app_nil_r, <- ?app_assoc.
Qed.

Fixpoint chars_events p (s : str) : TaggedLineParser T * list (TagEvent T) :=
  match s with
  | [] => (p, [])
  | ch :: s' =>
      let (p1, e1) := char_events p ch in
      let (p2, e2) := chars_events p1 s' in (p2, e1 ++ e2)
  end.

Lemma chars_events_app p s t :
  chars_events p (s ++ t)
  = let (p1, e1) := chars_events p s in let (p2, e2) := chars_events p1 t in (p2, e1 ++ e2).
Proof.
  revert p. induction s as [|ch s IH]; intros p; simpl; [by destruct (chars_events p t)|].
  destruct (char_events p ch) as [p1 e1]. rewrite IH.
  destruct (chars_events p1 s) as [p2 e2], (chars_events p2 t) as [p3 e3]. by rewrite app_assoc.
Qed.

Lemma parse_chars_events p run segments s :
  let '(p', run', segments') := parse_chars p run segments s in
  p' = fst (chars_events p s)
  /\ events segments' ++ text_events (active_tag p') run'
     = (events segments ++ text_events (active_tag p) run) ++ snd (chars_events p s).
Proof.
  revert p run segments. induction s as [|ch s IH]; intros p run segments; simpl.
  - by rewrite app_nil_r.
  - pose proof (parse_char_events p run segments ch) as Hc.
    destruct (parse_char p run segments ch) as [[p1 run1] segs1].
    destruct (char_events p ch) as [p1' e1]. simpl in Hc. destruct Hc as [<- Hc].
    specialize (IH p1 run1 segs1). destruct (parse_chars p1 run1 segs1 s) as [[p2 run2] segs2].
    destruct (chars_events p1 s) as [p2' e2]. simpl in *. destruct IH as [-> IH].
    split; [done|]. by rewrite IH, Hc, app_assoc.
Qed.

Lemma tagged_parse_events p s :
  fst (tagged_parse p s) = fst (chars_events p s)
  /\ events (snd (tagged_parse p s)) = snd (chars_events p s).
Proof.
  unfold tagged_parse. pose proof (parse_chars_events p [] [] s) as H.
  destruct (parse_chars p [] [] s) as [[p' run'] segs']. destruct H as [Hp H]. simpl.
  split; [done|]. replace (snd (chars_events p s)) with (events segs' ++ text_events (active_tag p') run')
    by (rewrite H; by destruct (active_tag p)).
  destruct (is_empty run') eqn:E; [|apply push_text_events].
  apply is_empty_true in E as ->. by destruct (active_tag p'); rewrite app_nil_r.
Qed.

Lemma tagged_parse_app p a b :
  let r1 := tagged_parse p a in
  let r2 := tagged_parse (fst r1) b in
  fst (tagged_parse p (a ++ b)) = fst r2
  /\ events (snd (tagged_parse p (a ++ b))) = events (snd r1) ++ events (snd r2).
Proof.
  intros r1 r2. destruct (tagged_parse_events p (a ++ b)) as [-> ->].
  unfold r2. destruct (tagged_parse_events (fst r1) b) as [-> ->].
  unfold r1. destruct (tagged_parse_events p a) as [-> ->]. rewrite chars_events_app.
  destruct (chars_events p a) as [p1 e1]. simpl. by destruct (chars_events p1 b).
Qed.
End events.

(** ** Lines decided early are decided right *)

Section lines.
Context {T : Type} `{EqDecision T} (specs : list (TagSpec T)).
Implicit Types a : option T.

(** The states between two characters of a line: still looking, with the line
    so far in the buffer, or past looking. *)
Definition looking a (u : str) : TaggedLineParser T := mkTagged specs a true u.
Definition reading a : TaggedLineParser T := mkTagged specs a false [].

(** No tag has this prefix, whatever follows on the line. *)
Definition not_tag (u : str) : Prop :=
  forall v, let slug := trim (u ++ v) in
  match_open (tagged_new specs) slug = None /\ match_close (tagged_new specs) slug = None.

Lemma trim_start_app (u v : str) : trim_start u <> [] -> trim_start (u ++ v) = trim_start u ++ v.
Proof.
  induction u as [|c u IH]; simpl; [done|]. by destruct (is_whitespace c); [apply IH|].
Qed.

Lemma trim_end_app (x v : str) : exists w, trim_end (x ++ v) = trim_end x ++ w.
Proof.
  induction v as [|c v IH] using rev_ind; [exists []; by rewrite !app_nil_r|].
  rewrite app_assoc, trim_end_snoc. destruct (is_whitespace c); [done|].
  destruct (trim_end_prefix x) as (w & Hx & _). exists (w ++ v ++ [c]).
  rewrite app_assoc, <- Hx. by rewrite app_assoc.
Qed.

Lemma find_none_tag (f : TagSpec T -> str) (slug : str) :
  (forall s, In s specs -> f s <> slug) ->
  List.find (fun spec => bool_decide (f spec = slug)) specs = None.
Proof.
  intros Hs. destruct (List.find _ specs) as [s|] eqn:E; [|done].
  apply find_some in E as [Hin E]. apply bool_decide_eq_true in E. by destruct (Hs s Hin).
Qed.

Lemma refused_not_tag a (u : str) :
  trim_start u <> [] -> is_tag_prefix (looking a u) (trim_start u) = false -> not_tag u.
Proof.
  intros Hne Hp v. unfold trim. rewrite trim_start_app by done.
  destruct (trim_end_app (trim_start u) v) as (w & Hw). rewrite Hw.
  assert (forall s, In s specs -> topen s <> trim_end (trim_start u) ++ w
                    /\ tclose s <> trim_end (trim_start u) ++ w) as Hs.
  { intros s Hin. unfold is_tag_prefix in Hp. simpl in Hp. split; intros Heq;
      (apply not_true_iff_false in Hp; apply Hp, existsb_exists; exists s;
       split; [done|]; apply orb_true_iff); [left|right];
      apply starts_with_true; by exists w. }
  unfold match_open, match_close. simpl.
  split; rewrite find_none_tag; try done; intros s Hin; by apply Hs.
Qed.

(** A line's text, once no tag can be on it. *)
Lemma read_line a (w : str) :
  ~ In LF w -> chars_events (reading a) w = (reading a, text_events a w).
Proof.
  induction w as [|c w IH]; simpl; intros Hw; [by destruct a|].
  unfold char_events, parse_char. simpl. rewrite bool_decide_eq_false_2 by naive_solver. simpl.
  rewrite IH by naive_solver. by destruct a.
Qed.

(** The part of a line before its end. *)
Lemma look_line a (w u : str) :
  ~ In LF w ->
  chars_events (looking a u) w = (looking a (u ++ w), [])
  \/ not_tag (u ++ w)
     /\ chars_events (looking a u) w = (reading a, text_events a (u ++ w)).
Proof.
  revert u. induction w as [|c w IH]; intros u Hw; simpl; [left; by rewrite app_nil_r|].
  assert (~ In LF w) as Hw' by naive_solver.
  assert (c <> LF) as Hc by naive_solver.
  unfold char_events, parse_char. simpl. rewrite (bool_decide_eq_false_2 (c = LF)) by done.
  fold (looking a (u ++ [c])).
  replace (u ++ c :: w) with ((u ++ [c]) ++ w) by by rewrite <- app_assoc.
  destruct (is_empty (trim_start (u ++ [c]))) eqn:Es; simpl;
    [|destruct (is_tag_prefix _ (trim_start (u ++ [c]))) eqn:Ep; simpl].
  1, 2: assert (text_events a [] = []) as -> by by destruct a.
  1, 2: destruct (IH (u ++ [c]) Hw') as [->|[Hn ->]]; [by left|by right].
  right. apply is_empty_false in Es. split.
  - intros v. rewrite <- app_assoc. by apply (refused_not_tag a).
  - fold (reading a). rewrite read_line by done.
    rewrite push_text_events. simpl. destruct a; simpl; by rewrite ?app_nil_r, <- map_app.
Qed.

Lemma line_slug_line (w : str) : line_slug (w ++ [LF]) = trim w.
Proof. unfold line_slug. by rewrite strip_suffix_app. Qed.

Lemma line_slug_last (w : str) : ~ In LF w -> line_slug w = trim w.
Proof.
  intros Hw. unfold line_slug. destruct (strip_suffix [LF] w) as [t|] eqn:E; [|done].
  apply strip_suffix_Some in E as ->. destruct Hw. apply in_or_app. right. by left.
Qed.

(** A line no tag is on is text. *)
Lemma line_events_text a (line : str) :
  match_open (tagged_new specs) (line_slug line) = None ->
  match_close (tagged_new specs) (line_slug line) = None ->
  line_events specs a line = (a, text_events a line).
Proof. intros Ho Hc. unfold line_events. by rewrite Ho, Hc. Qed.

(** A whole line, with its end. *)
Lemma chars_events_line a (w : str) :
  ~ In LF w ->
  chars_events (looking a []) (w ++ [LF])
  = let (a', ev) := line_events specs a (w ++ [LF]) in (looking a' [], ev).
Proof.
  intros Hw. rewrite chars_events_app.
  destruct (look_line a w [] Hw) as [->|[Hn ->]]; simpl.
  - unfold char_events, parse_char. simpl.
    destruct (finish_line_events (mkTagged specs a true (w ++ [LF])) []) as (segs & -> & Hs). simpl in *.
    rewrite Hs. destruct (line_events specs a (w ++ [LF])) as [[t|] ev]; simpl; by rewrite ?app_nil_r.
  - simpl in Hn. specialize (Hn []) as [Ho Hc]. rewrite app_nil_r in Ho, Hc.
    rewrite line_events_text by (by rewrite line_slug_line).
    unfold char_events, parse_char. simpl. rewrite push_text_events, text_events_app. simpl.
    destruct a; simpl; by rewrite ?app_nil_r.
Qed.

(** The end of the stream closes the last line and the open block. *)
Lemma finish_events a (line : str) :
  line <> [] ->
  events (snd (tagged_finish (looking a line))) = lines_events specs a [line].
Proof.
  intros Hl. unfold tagged_finish. simpl. apply is_empty_false in Hl as ->.
  unfold line_events. fold (tagged_new specs).
  assert (forall p', tspecs p' = specs ->
    match_open p' (line_slug line) = match_open (tagged_new specs) (line_slug line)
    /\ match_close p' (line_slug line) = match_close (tagged_new specs) (line_slug line)) as Hm
    by (intros p' Hp; unfold match_open, match_close; by rewrite Hp).
  destruct (Hm (mkTagged specs a true []) eq_refl) as [-> ->].
  destruct (match_open _ _) as [t|], (match_close _ _) as [t'|], a as [b|];
    simpl; try case_bool_decide; simpl;
    rewrite ?events_app, ?push_text_events; simpl; by rewrite ?app_nil_r.
Qed.

Lemma tagged_text_events (s : str) :
  forall a, let r := chars_events (looking a []) s in
  snd r ++ events (snd (tagged_finish (fst r))) = lines_events specs a (split_inclusive_lf s).
Proof.
  induction s as [s IH] using (induction_ltof1 _ (@length N)). unfold ltof in IH. intros a r.
  destruct (decide (LF ∈ s)) as [Hin|Hin].
  - apply list_elem_of_split_l in Hin as (w & rest & -> & Hw). rewrite list_elem_of_In in Hw.
    rewrite split_inclusive_line by done. simpl. unfold r. clear r.
    change (w ++ LF :: rest) with (w ++ [LF] ++ rest).
    rewrite app_assoc, chars_events_app, chars_events_line by done.
    destruct (line_events specs a (w ++ [LF])) as [a' ev]. rewrite <- (IH rest).
    + destruct (chars_events (looking a' []) rest). simpl. by rewrite app_assoc.
    + rewrite length_app. simpl. lia.
  - rewrite list_elem_of_In in Hin. unfold r. clear r.
    destruct s as [|c s]; [by destruct a|]. set (line := c :: s) in *.
    rewrite split_inclusive_last by done.
    destruct (look_line a line [] Hin) as [->|[Hn ->]]; simpl app.
    + by rewrite finish_events.
    + simpl in Hn. specialize (Hn []) as [Ho Hc]. rewrite app_nil_r in Ho, Hc.
      simpl lines_events. rewrite line_events_text by (by rewrite line_slug_last).
      by destruct a.
Qed.
End lines.

Definition tagged_all {T} `{EqDecision T} (specs : list (TagSpec T)) (text : str)
  : list (TaggedLineSegment T) :=
  let (p, segments) := tagged_parse (tagged_new specs) text in segments ++ snd (tagged_finish p).

Lemma tagged_all_lines {T} `{EqDecision T} (specs : list (TagSpec T)) (text : str) :
  events (tagged_all specs text) = lines_events specs None (split_inclusive_lf text).
Proof.
  rewrite <- (tagged_text_events specs text None). unfold tagged_all.
  destruct (tagged_parse_events (tagged_new specs) text) as [Hp He].
  destruct (tagged_parse (tagged_new specs) text) as [p segs]. simpl in *.
  by rewrite events_app, He, Hp.
Qed.

(** Deciding about a line as soon as a character rules every tag out gives
    what deciding whole lines gives: the segments of a text say exactly what
    its lines say one by one, where a line whose trimmed text is an opening or
    closing tag that applies is that tag, every other line is text, and the
    end of the text closes the open block. *)
Theorem tagged_lines_spec {T} `{EqDecision T} (specs : list (TagSpec T)) (text : str) :
  events (tagged_all specs text) = lines_events specs None (split_inclusive_lf text).
Proof. apply tagged_all_lines. Qed.

(** ** The plan parser's laws *)

Definition plan_segment_tag (s : ProposedPlanSegment) : TaggedLineSegment PlanTag :=
  match s with
  | PlanNormal text => Normal text
  | ProposedPlanStart => TagStart ProposedPlan
  | ProposedPlanDelta text => TagDelta ProposedPlan text
  | ProposedPlanEnd => TagEnd ProposedPlan
  end.

(** What plan segments say, character by character. *)
Definition plan_events (l : list ProposedPlanSegment) : list (TagEvent PlanTag) :=
  events (map plan_segment_tag l).

Definition plan_same (l l' : list ProposedPlanSegment) : Prop := plan_events l = plan_events l'.

(** The text an event shows. *)
Definition shown_event {T} (e : TagEvent T) : str := match e with EText c => [c] | _ => [] end.

Lemma plan_events_app l l' : plan_events (l ++ l') = plan_events l ++ plan_events l'.
Proof. unfold plan_events. by rewrite map_app, events_app. Qed.

#[export] Instance plan_same_equiv : Equivalence plan_same.
Proof. split; unfold plan_same; congruence. Qed.

#[export] Instance plan_same_app : Proper (plan_same ==> plan_same ==> plan_same) app.
Proof. intros l l' Hl m m' Hm. unfold plan_same in *. rewrite !plan_events_app. congruence. Qed.

Lemma map_segments_events (l : list (TaggedLineSegment PlanTag)) :
  plan_events (extracted (map_segments l)) = events l
  /\ visible_text (map_segments l) = flat_map shown_event (events l).
Proof.
  assert (forall (f : char -> TagEvent PlanTag) (s : str), flat_map shown_event (map f s)
            = flat_map (fun c => shown_event (f c)) s) as Hmap.
  { intros f s. induction s as [|c s IH]; simpl; [done|]. by rewrite IH. }
  induction l as [|s l [IHe IHv]]; simpl; [done|]. unfold plan_events in *. simpl.
  rewrite IHe, IHv, flat_map_app. split; [by destruct s as [t|[]|[] t|[]]|]. f_equal.
  destruct s as [t|[]|[] t|[]]; simpl; try done; rewrite Hmap;
    (induction t as [|c t IH]; simpl in *; [done|]); by f_equal.
Qed.

#[local] Obligation Tactic := idtac.

#[export] Program Instance plan_laws : StreamLaws ProposedPlanParser ProposedPlanSegment := {|
  same := plan_same;
  stream_wf _ := True |}.
Next Obligation. done. Qed.
Next Obligation. intros [p] _. done. Qed.
Next Obligation.
  intros [p] a b _. simpl. unfold plan_push_str. simpl.
  destruct (tagged_parse_app p a b) as [Hp He].
  destruct (tagged_parse p (a ++ b)) as [q segs], (tagged_parse p a) as [q1 segs1]. simpl in *.
  destruct (tagged_parse q1 b) as [q2 segs2]. simpl in *. subst q. split; [done|].
  unfold plan_same. rewrite plan_events_app.
  destruct (map_segments_events segs) as [-> ->], (map_segments_events segs1) as [-> ->],
    (map_segments_events segs2) as [-> ->]. by rewrite He, flat_map_app.
Qed.

(** The plan parser on a text, in any chunks. *)
Lemma plan_stream_lines (texts : list str) :
  let ev := lines_events plan_specs None (split_inclusive_lf (concat texts)) in
  plan_events (extracted (stream_all plan_new texts)) = ev
  /\ visible_text (stream_all plan_new texts) = flat_map shown_event ev.
Proof.
  destruct (stream_all_concat plan_new texts) as [Hv He]; [done|]. simpl in Hv, He.
  unfold plan_same in He. rewrite Hv, He. clear Hv He. unfold stream_all. simpl.
  rewrite <- tagged_all_lines. unfold tagged_all, plan_push_str, plan_finish. simpl.
  destruct (tagged_parse (tagged_new plan_specs) (concat texts)) as [q segs]. simpl.
  destruct (tagged_finish q) as [q' tail]. unfold chunk_extend. simpl.
  rewrite !app_nil_r, plan_events_app, events_app, flat_map_app.
  destruct (map_segments_events segs) as [-> ->], (map_segments_events tail) as [-> ->]. done.
Qed.

(** The text of the last block opened, read off the events. *)
Definition last_block (o : option str) (e : TagEvent PlanTag) : option str :=
  match e with
  | EStart _ => Some []
  | EDelta _ c => (fun s => s ++ [c]) <$> o
  | EText _ | EEnd _ => o
  end.

Definition saw_block (st : str * bool) : option str := if snd st then Some (fst st) else None.

Lemma extract_step_events (l : list ProposedPlanSegment) (st : str * bool) :
  saw_block (fold_left extract_step l st) = fold_left last_block (plan_events l) (saw_block st).
Proof.
  revert st. induction l as [|s l IH]; intros st; simpl; [done|].
  unfold plan_events in *. simpl. rewrite fold_left_app, IH. f_equal. clear IH.
  destruct st as [t b], s as [u| |u|]; simpl; try done.
  - induction u as [|c u IH]; simpl; [done|]. exact IH.
  - revert t. induction u as [|c u IH]; intros t; simpl; [by rewrite app_nil_r|].
    specialize (IH (t ++ [c])). rewrite <- app_assoc in IH. simpl in IH. rewrite IH.
    by destruct b.
Qed.

(** The plan parser hides exactly the plan blocks of a text: the visible
    text [strip_proposed_plan_blocks] returns is made of the lines outside
    them, and [extract_proposed_plan_text] returns the text of the last block,
    or nothing when there is none. *)
Theorem plan_blocks_spec (text : str) :
  let ev := lines_events plan_specs None (split_inclusive_lf text) in
  strip_proposed_plan_blocks text = flat_map shown_event ev
  /\ extract_proposed_plan_text text = fold_left last_block ev None.
Proof.
  intros ev. destruct (plan_stream_lines [text]) as [He Hv]. cbv zeta in He, Hv.
  simpl concat in He, Hv. rewrite app_nil_r in He, Hv. fold ev in He, Hv.
  rewrite <- Hv, <- He. unfold strip_proposed_plan_blocks, extract_proposed_plan_text, stream_all.
  simpl. destruct (plan_push_str plan_new text) as [q out]. simpl. rewrite !app_nil_r.
  split; [done|]. change None with (saw_block ([], false)). rewrite <- extract_step_events.
  by destruct (fold_left extract_step _ ([], false)).
Qed.

(** ** The assistant's text *)

(** Pushing chunks is pushing them to the citation parser, and what that
    shows to the plan parser. *)
Lemma assistant_push_all_split (mode : bool) (c : CitationStreamParser) (q : ProposedPlanParser)
    (chunks : list str) :
  let r := push_all c chunks in
  exists texts, concat texts = visible_text (snd r)
  /\ assistant_push_all (mkAssistant mode c q) chunks
     = if mode then
         let r' := push_all q texts in
         (mkAssistant mode (fst r) (fst r'),
          mkAssistantChunk (visible_text (snd r')) (extracted (snd r)) (extracted (snd r')))
       else (mkAssistant mode (fst r) q,
             mkAssistantChunk (visible_text (snd r)) (extracted (snd r)) []).
Proof.
  revert c q. induction chunks as [|s cs IH]; intros c q; cbn [push_all assistant_push_all].
  - exists []. by destruct mode.
  - unfold assistant_push_str. cbn [citations plan_mode plan].
    destruct (push_str c s) as [c1 out]. unfold parse_visible_text. cbn [plan_mode plan citations].
    destruct mode.
    + destruct (push_str q (visible_text out)) as [q1 pout] eqn:Hq.
      destruct (IH c1 q1) as (texts & Ht & Ha). destruct (push_all c1 cs) as [c2 rest].
      exists (visible_text out :: texts). simpl in *. rewrite Ht, Ha. split; [done|].
      simpl in Hq. rewrite Hq. by destruct (push_all q1 texts) as [q2 prest].
    + destruct (IH c1 q) as (texts & Ht & Ha). destruct (push_all c1 cs) as [c2 rest].
      exists (visible_text out :: texts). simpl in *. rewrite Ht, Ha. done.
Qed.

(** Whatever chunks the assistant's text arrives in, the parser's output is
    that of the two parsers one after the other on the whole text: the
    citations are those of [strip_citations]; outside plan mode the visible
    text is what it leaves; in plan mode the plan segments say what the lines
    of that text say, and the visible text is what is outside the plan
    blocks. *)
Theorem assistant_stream_spec (mode : bool) (chunks : list str) :
  exists p vis cites,
    assistant_new mode = Some p
    /\ strip_citations (concat chunks) = Some (vis, cites)
    /\ let out := assistant_all p chunks in
       let ev := lines_events plan_specs None (split_inclusive_lf vis) in
       citations_found out = cites
       /\ if mode
          then plan_events (plan_segments out) = ev /\ avisible_text out = flat_map shown_event ev
          else plan_segments out = [] /\ avisible_text out = vis.
Proof.
  set (c := mkCitation (mkInline citation_specs [] None)).
  exists (mkAssistant mode c plan_new). do 2 eexists. split; [done|].
  split; [apply strip_citations_chunks|]. fold c.
  unfold assistant_all. destruct (assistant_push_all_split mode c plan_new chunks) as (texts & Ht & ->).
  unfold stream_all. destruct (push_all c chunks) as [c1 out]. cbn [fst snd] in *.
  unfold assistant_finish. destruct mode; cbn [fst snd citations plan_mode plan] in *.
  - destruct (finish c1) as [c2 tail]. unfold parse_visible_text. cbn [plan_mode plan citations].
    destruct (plan_stream_lines (texts ++ [visible_text tail])) as [He Hv].
    rewrite concat_app in He, Hv. simpl in He, Hv. rewrite app_nil_r, Ht in He, Hv.
    unfold stream_all in He, Hv. rewrite push_all_snoc in He, Hv.
    destruct (push_all plan_new texts) as [q1 pout]. cbn [fst snd].
    destruct (push_str q1 (visible_text tail)) as [q2 plast]. cbn [plan citations plan_mode fst snd].
    destruct (finish q2) as [q3 ptail]. cbn [fst snd visible_text extracted chunk_extend] in *.
    assert (forall A (l l' : list A), is_empty l' = true -> l ++ l' = l) as Hnil
      by (intros A l l' Hl; apply is_empty_true in Hl as ->; apply app_nil_r).
    destruct (chunk_is_empty ptail) eqn:Ep; cbn [avisible_text citations_found plan_segments
      assistant_extend].
    + apply andb_prop in Ep as [Ep Ep']. rewrite (Hnil _ _ _ Ep) in Hv. rewrite (Hnil _ _ _ Ep') in He.
      by rewrite He, Hv.
    + by rewrite !app_assoc, He, Hv.
  - by destruct (finish c1) as [c2 tail].
Qed.
