(* ===== verification/ResponseItem.v ===== *)
(** * The items of a conversation (protocol/src/models.rs, history/src/lib.rs)

    [ResponseItem] with all its variants, the envelope history keeps it in,
    and a message's content paired with its classifications
    (context-fragments/src/annotated_content.rs).  The types of serde_json and
    the record of executed tool calls, which the modelled code only carries
    around, are parameters. *)

From S2P Require Import Prelude.
From S2P Require Import RustStr.
From S2P Require Import Truncate.
Import Truncate.

(** [ResponseItemId(String)] and [ContentItemKind(String)]. *)
Definition ResponseItemId : Type := str.
Definition ContentItemKind : Type := str.

(** [ResponseItemId::with_suffix]. *)
Definition with_suffix (prefix suffix : str) : ResponseItemId := prefix ++ $"_" ++ suffix.

Inductive ImageReference : Type :=
| Inline (image_url : str)
| File (file_id : str).

Inductive ImageDetail : Type := DetailAuto | DetailLow | DetailHigh | DetailOriginal.

#[export] Instance ImageDetail_eq_dec : EqDecision ImageDetail.
Proof. solve_decision. Defined.

(** The content of a message; that of an output is
    [Truncate.FunctionCallOutputContentItem]. *)
Inductive ContentItem : Type :=
| MInputText (text : str)
| MInputImage (image : ImageReference) (detail : option ImageDetail)
| MInputAudio (audio_url : str)
| MOutputText (text : str).

Inductive AgentMessageInputContent : Type :=
| AInputText (text : str)
| AEncryptedContent (encrypted_content : str).

Inductive MessagePhase : Type := Commentary | FinalAnswer.

Inductive LocalShellStatus : Type := ShellCompleted | ShellInProgress | ShellIncomplete.

Record LocalShellExecAction : Type := mkShellExec {
  shell_command : list str;
  timeout_ms : option N;
  working_directory : option str;
  env_vars : option (list (str * str));
  shell_user : option str }.

Inductive LocalShellAction : Type := ShellExec (exec : LocalShellExecAction).

Inductive WebSearchAction : Type :=
| SearchWeb (query : option str) (queries : option (list str))
| OpenPage (url : option str)
| FindInPage (url pattern : option str)
| OtherSearch.

Inductive ReasoningItemReasoningSummary : Type := SummaryText (text : str).

Inductive ReasoningItemContent : Type := ReasoningText (text : str) | ReasoningPlain (text : str).

Inductive ReasoningEffort : Type :=
| EffortNone | EffortMinimal | EffortLow | EffortMedium | EffortHigh | EffortXHigh | EffortMax
| EffortUltra | EffortPersistent | EffortCustom (value : str).

Record ConfigurationReasoning : Type := mkReasoning { effort : ReasoningEffort }.

Section items.
(** [serde_json::Value], [serde_json::Number] and [ExecutedToolCall]. *)
Context {Json Number ToolCall : Type}.

Definition OutputItem : Type := FunctionCallOutputContentItem (Image:=ImageReference) (Detail:=ImageDetail).
Definition OutputPayload : Type :=
  FunctionCallOutputPayload (Image:=ImageReference) (Detail:=ImageDetail).

Record Passthrough : Type := mkPassthrough {
  pturn_id : option str;
  create_time : option Number;
  content_item_kinds : option (list ContentItemKind);
  cell_id : option str;
  executed_tool_calls : option (list ToolCall);
  tool_calls_complete : option bool }.

Definition default_passthrough : Passthrough := mkPassthrough None None None None None None.

Inductive ResponseItem : Type :=
| AdditionalTools (id : option ResponseItemId) (role : str) (tools : list Json)
| Message (id : option ResponseItemId) (role : str) (content : list ContentItem)
    (phase : option MessagePhase) (meta : option Passthrough)
| AgentMessage (id : option ResponseItemId) (author recipient : str)
    (content : list AgentMessageInputContent) (meta : option Passthrough)
| Reasoning (id : option ResponseItemId) (summary : list ReasoningItemReasoningSummary)
    (content : option (list ReasoningItemContent)) (encrypted_content : option str)
    (meta : option Passthrough)
| LocalShellCall (id : option ResponseItemId) (call_id : option str) (status : LocalShellStatus)
    (action : LocalShellAction) (meta : option Passthrough)
| FunctionCall (id : option ResponseItemId) (name : str) (namespace : option str)
    (arguments : str) (encrypted_function_args : option (list str)) (call_id : str)
    (meta : option Passthrough)
| ToolSearchCall (id : option ResponseItemId) (call_id : option str) (status : option str)
    (execution : str) (arguments : Json) (meta : option Passthrough)
| FunctionCallOutput (id : option ResponseItemId) (call_id : option str) (name : option str)
    (namespace : option str) (output : OutputPayload) (meta : option Passthrough)
| CustomToolCall (id : option ResponseItemId) (status : option str) (call_id : str) (name : str)
    (namespace : option str) (input : str) (meta : option Passthrough)
| CustomToolCallOutput (id : option ResponseItemId) (call_id : str) (name : option str)
    (output : OutputPayload) (meta : option Passthrough)
| ToolSearchOutput (id : option ResponseItemId) (call_id : option str) (status execution : str)
    (tools : list Json) (meta : option Passthrough)
| WebSearchCall (id : option ResponseItemId) (status : option str) (action : option WebSearchAction)
    (meta : option Passthrough)
| ImageGenerationCall (id : option ResponseItemId) (status : str) (revised_prompt : option str)
    (image_result : str) (meta : option Passthrough)
| Compaction (id : option ResponseItemId) (encrypted_content : str) (meta : option Passthrough)
| ConfigurationUpdate (reasoning : ConfigurationReasoning)
| CompactionTrigger
| ContextCompaction (id : option ResponseItemId) (encrypted_content : option str)
    (meta : option Passthrough)
| OtherItem.

(** [ResponseItem::id]. *)
Definition item_id (item : ResponseItem) : option ResponseItemId :=
  match item with
  | AdditionalTools id _ _ | Message id _ _ _ _ | AgentMessage id _ _ _ _ | Reasoning id _ _ _ _
  | LocalShellCall id _ _ _ _ | FunctionCall id _ _ _ _ _ _ | ToolSearchCall id _ _ _ _ _
  | FunctionCallOutput id _ _ _ _ _ | CustomToolCall id _ _ _ _ _ _
  | CustomToolCallOutput id _ _ _ _ | ToolSearchOutput id _ _ _ _ _ | WebSearchCall id _ _ _
  | ImageGenerationCall id _ _ _ _ | Compaction id _ _ | ContextCompaction id _ _ => id
  | ConfigurationUpdate _ | CompactionTrigger | OtherItem => None
  end.

(** [FunctionCallOutputPayload::from_text]. *)
Definition from_text (content : str) : OutputPayload := mkPayload (BodyText content) None.

(** [FunctionCallOutputPayload::content_items]. *)
Definition content_items (output : OutputPayload) : option (list OutputItem) :=
  match body output with BodyText _ => None | ContentItems items => Some items end.

(** An assignment through [FunctionCallOutputPayload::content_items_mut]. *)
Definition set_content_items (items : list OutputItem) (output : OutputPayload) : OutputPayload :=
  match body output with
  | BodyText _ => output
  | ContentItems _ => mkPayload (ContentItems items) (success output)
  end.

(** *** history/src/lib.rs *)

Record SenderUserMessages : Type := mkSender {
  receiver_turn_id : str;
  receiver_message_id : str;
  sender_text : str }.

Record CodexHarnessMetadata : Type := mkHarness {
  client_authored : bool;
  history_truncation_token_limit : option N;
  harness_authored_configuration : bool;
  compaction_model_hash : option str;
  user_input_order : option N;
  inherited_user_message : bool;
  sender_user_messages : option SenderUserMessages }.

Record ResponseItemEnvelope : Type := mkEnvelope {
  item : ResponseItem;
  metadata : option CodexHarnessMetadata }.

(** [ResponseItemEnvelope::new]. *)
Definition envelope_new (item : ResponseItem) : ResponseItemEnvelope := mkEnvelope item None.

(** *** annotated_content.rs *)

Record AnnotatedContent : Type := mkAnnotated {
  annotated : ContentItem;
  annotated_kind : ContentItemKind }.

(** [zip] with the kinds followed by ["unknown"] for ever. *)
Fixpoint annotate (content : list ContentItem) (kinds : list ContentItemKind)
  : list AnnotatedContent :=
  match content with
  | [] => []
  | c :: content' =>
      match kinds with
      | [] => mkAnnotated c ($"unknown") :: annotate content' []
      | k :: kinds' => mkAnnotated c k :: annotate content' kinds'
      end
  end.

(** The content is taken out of the message, the kinds out of its metadata. *)
Definition take_kinds (meta : option Passthrough) : option Passthrough :=
  (fun m => mkPassthrough (pturn_id m) (create_time m) None (cell_id m) (executed_tool_calls m)
              (tool_calls_complete m)) <$> meta.

Definition to_annotated_content (item : ResponseItem)
  : ResponseItem * option (list AnnotatedContent) :=
  match item with
  | Message id role content phase meta =>
      let kinds := default [] (m ← meta; content_item_kinds m) in
      (Message id role [] phase (take_kinds meta), Some (annotate content kinds))
  | _ => (item, None)
  end.

Definition with_kinds (kinds : list ContentItemKind) (meta : option Passthrough) : Passthrough :=
  let m := default default_passthrough meta in
  mkPassthrough (pturn_id m) (create_time m) (Some kinds) (cell_id m) (executed_tool_calls m)
    (tool_calls_complete m).

Definition set_annotated_content (item : ResponseItem) (annotated_content : list AnnotatedContent)
  : ResponseItem * option () :=
  match item with
  | Message id role _ phase meta =>
      (Message id role (map annotated annotated_content) phase
         (Some (with_kinds (map annotated_kind annotated_content) meta)), Some ())
  | _ => (item, None)
  end.

(** Taking the content out and putting it back keeps it. *)
Lemma annotate_content (content : list ContentItem) (kinds : list ContentItemKind) :
  map annotated (annotate content kinds) = content.
Proof. revert kinds. induction content as [|c l IH]; intros [|k ks]; simpl; by rewrite ?IH. Qed.

Lemma annotate_length (content : list ContentItem) (kinds : list ContentItemKind) :
  length (annotate content kinds) = length content.
Proof. rewrite <- (annotate_content content kinds) at 2. by rewrite length_map. Qed.
End items.

Arguments ResponseItem : clear implicits.
Arguments ResponseItemEnvelope : clear implicits.
Arguments Passthrough : clear implicits.
