(* ===== verification/HistoryNormalize.v ===== *)
(** * Normalising the history sent to the model

    core/src/context_manager/normalize.rs and the operations of history.rs
    that keep calls and outputs paired: [normalize_history] before a prompt
    and [remove_first_item].

    A panic is [None].  [error_or_panic] panics in builds with debug
    assertions and only logs in the others: the flag is a parameter.  The
    digest behind a synthetic identifier ([Uuid::new_v5]) is one too. *)

From S2P Require Import Prelude.
From S2P Require Import RustStr.
From S2P Require Import Utf8.
From S2P Require Import Truncate.
From S2P Require Import ResponseItem.
Import Truncate.

Module HistoryNormalize.

(** [InputModality]. *)
Inductive InputModality : Type := ModalityText | ModalityImage | ModalityAudio.

#[export] Instance InputModality_eq_dec : EqDecision InputModality.
Proof. solve_decision. Defined.

(** context/unsupported_media.rs: a fragment without markers renders its body. *)
Record UnsupportedMedia : Type := mkUnsupported { media_text : str; content_kind : str }.

Definition UNSUPPORTED_IMAGE : UnsupportedMedia :=
  mkUnsupported ($"image content omitted because you do not support image input")
    ($"images.unsupported").
Definition UNSUPPORTED_AUDIO : UnsupportedMedia :=
  mkUnsupported ($"audio content omitted because you do not support audio input")
    ($"audio.unsupported").

Definition media_content (m : UnsupportedMedia) : AnnotatedContent :=
  mkAnnotated (MInputText (media_text m)) (content_kind m).

Definition SYNTHETIC_OUTPUT_ID_NAMESPACE : N := 0x90d38d3e6a5b4d52bfe22f1e634bfac4%N.

(** The identifiers of three families of calls, or of their outputs. *)
Record CallIds : Type := mkCallIds {
  function_ids : gset str;
  tool_search_ids : gset str;
  custom_tool_ids : gset str }.

Definition no_ids : CallIds := mkCallIds ∅ ∅ ∅.

Section normalize.
Context {Json Number ToolCall : Type}.
Context (debug_assertions : bool) (new_v5 : N -> list N -> str).
Local Notation Item := (ResponseItem Json Number ToolCall).
Local Notation Env := (ResponseItemEnvelope Json Number ToolCall).

Definition error_or_panic : option () := if debug_assertions then None else Some ().

(** ** ensure_call_outputs_present *)

Definition note_output (ids : CallIds) (e : Env) : CallIds :=
  match item e with
  | FunctionCallOutput _ (Some call_id) _ _ _ _ =>
      mkCallIds ({[call_id]} ∪ function_ids ids) (tool_search_ids ids) (custom_tool_ids ids)
  | ToolSearchOutput _ (Some call_id) _ _ _ _ =>
      mkCallIds (function_ids ids) ({[call_id]} ∪ tool_search_ids ids) (custom_tool_ids ids)
  | CustomToolCallOutput _ call_id _ _ _ =>
      mkCallIds (function_ids ids) (tool_search_ids ids) ({[call_id]} ∪ custom_tool_ids ids)
  | _ => ids
  end.

Definition synthetic_output_id (prefix : str) (item_id : option ResponseItemId)
  : option ResponseItemId :=
  match item_id with
  | Some source_id =>
      if is_empty source_id then None
      else
        let name := prefix ++ $":" ++ source_id in
        Some (with_suffix prefix (new_v5 SYNTHETIC_OUTPUT_ID_NAMESPACE (encode name)))
  | None => None
  end.

Definition aborted_function_output (id : option ResponseItemId) (call_id : str) : Env :=
  envelope_new (FunctionCallOutput (synthetic_output_id ($"fco") id) (Some call_id) None None
                  (from_text ($"aborted")) None).

(** The output to insert after an item, if it is a call without one. *)
Definition missing_output (ids : CallIds) (e : Env) : option (option Env) :=
  match item e with
  | FunctionCall id _ _ _ _ call_id _ =>
      if bool_decide (call_id ∈ function_ids ids) then Some None
      else Some (Some (aborted_function_output id call_id))
  | ToolSearchCall id (Some call_id) _ _ _ _ =>
      if bool_decide (call_id ∈ tool_search_ids ids) then Some None
      else Some (Some (envelope_new
             (ToolSearchOutput (synthetic_output_id ($"tso") id) (Some call_id) ($"completed")
                ($"client") [] None)))
  | CustomToolCall id _ call_id _ _ _ _ =>
      if bool_decide (call_id ∈ custom_tool_ids ids) then Some None
      else _ ← error_or_panic;
           Some (Some (envelope_new
             (CustomToolCallOutput (synthetic_output_id ($"ctco") id) call_id None
                (from_text ($"aborted")) None)))
  | LocalShellCall id (Some call_id) _ _ _ =>
      if bool_decide (call_id ∈ function_ids ids) then Some None
      else _ ← error_or_panic; Some (Some (aborted_function_output id call_id))
  | _ => Some None
  end.

Fixpoint missing_outputs (ids : CallIds) (idx : nat) (items : list Env)
  : option (list (nat * Env)) :=
  match items with
  | [] => Some []
  | e :: items' =>
      missing ← missing_output ids e;
      rest ← missing_outputs ids (S idx) items';
      Some (match missing with Some out => (idx, out) :: rest | None => rest end)
  end.

(** The insertions, in reverse index order. *)
Fixpoint insert_missing (missing : list (nat * Env)) (items : list Env) : option (list Env) :=
  match missing with
  | [] => Some items
  | (idx, out) :: missing' => items ← vec_insert (idx + 1) out items; insert_missing missing' items
  end.

Definition ensure_call_outputs_present (items : list Env) : option (list Env) :=
  let ids := fold_left note_output items no_ids in
  missing ← missing_outputs ids 0 items;
  insert_missing (rev missing) items.

(** ** remove_orphan_outputs *)

Definition note_call (ids : CallIds) (e : Env) : CallIds :=
  match item e with
  | FunctionCall _ _ _ _ _ call_id _ | LocalShellCall _ (Some call_id) _ _ _ =>
      mkCallIds ({[call_id]} ∪ function_ids ids) (tool_search_ids ids) (custom_tool_ids ids)
  | ToolSearchCall _ (Some call_id) _ _ _ _ =>
      mkCallIds (function_ids ids) ({[call_id]} ∪ tool_search_ids ids) (custom_tool_ids ids)
  | CustomToolCall _ _ call_id _ _ _ _ =>
      mkCallIds (function_ids ids) (tool_search_ids ids) ({[call_id]} ∪ custom_tool_ids ids)
  | _ => ids
  end.

Definition is_orphan (ids : CallIds) (e : Env) : bool :=
  match item e with
  | FunctionCallOutput _ (Some call_id) _ _ _ _ => negb (bool_decide (call_id ∈ function_ids ids))
  | CustomToolCallOutput _ call_id _ _ _ => negb (bool_decide (call_id ∈ custom_tool_ids ids))
  | ToolSearchOutput _ (Some call_id) _ execution _ _ =>
      negb (bool_decide (execution = $"server"))
      && negb (bool_decide (call_id ∈ tool_search_ids ids))
  | _ => false
  end.

Fixpoint orphan_positions (ids : CallIds) (position : nat) (items : list Env)
  : option (list nat) :=
  match items with
  | [] => Some []
  | e :: items' =>
      if is_orphan ids e then
        _ ← error_or_panic;
        rest ← orphan_positions ids (S position) items';
        Some (position :: rest)
      else orphan_positions ids (S position) items'
  end.

(** The closure of [retain], with its two counters. *)
Fixpoint retain_others (orphans : list nat) (position : nat) (items : list Env) : list Env :=
  match items with
  | [] => []
  | e :: items' =>
      if bool_decide (head orphans = Some position)
      then retain_others (tail orphans) (position + 1) items'
      else e :: retain_others orphans (position + 1) items'
  end.

Definition remove_orphan_outputs (items : list Env) : option (list Env) :=
  let ids := fold_left note_call items no_ids in
  orphans ← orphan_positions ids 0 items;
  Some (if is_empty orphans then items else retain_others orphans 0 items).

(** ** Unsupported media *)

Definition strip_message (unsupported : ContentItem -> bool) (m : UnsupportedMedia) (e : Env) : Env :=
  match to_annotated_content (item e) with
  | (it, None) => mkEnvelope it (metadata e)
  | (it, Some content) =>
      let content :=
        map (fun c => if unsupported (annotated c) then media_content m else c) content in
      mkEnvelope (fst (set_annotated_content it content)) (metadata e)
  end.

Definition strip_output (unsupported : OutputItem -> bool) (m : UnsupportedMedia)
    (output : OutputPayload) : OutputPayload :=
  match content_items output with
  | Some items =>
      set_content_items
        (map (fun c => if unsupported c then InputText (media_text m) else c) items) output
  | None => output
  end.

Definition is_message_image (c : ContentItem) : bool :=
  match c with MInputImage _ _ => true | _ => false end.
Definition is_message_audio (c : ContentItem) : bool :=
  match c with MInputAudio _ => true | _ => false end.
Definition is_output_image (c : OutputItem) : bool :=
  match c with InputImage _ _ => true | _ => false end.
Definition is_output_audio (c : OutputItem) : bool :=
  match c with InputAudio _ => true | _ => false end.

Definition strip_image (e : Env) : Env :=
  match item e with
  | Message _ _ _ _ _ => strip_message is_message_image UNSUPPORTED_IMAGE e
  | FunctionCallOutput id call_id name namespace output meta =>
      mkEnvelope (FunctionCallOutput id call_id name namespace
                    (strip_output is_output_image UNSUPPORTED_IMAGE output) meta) (metadata e)
  | CustomToolCallOutput id call_id name output meta =>
      mkEnvelope (CustomToolCallOutput id call_id name
                    (strip_output is_output_image UNSUPPORTED_IMAGE output) meta) (metadata e)
  | ImageGenerationCall id status revised_prompt _ meta =>
      mkEnvelope (ImageGenerationCall id status revised_prompt [] meta) (metadata e)
  | _ => e
  end.

Definition strip_images_when_unsupported (input_modalities : list InputModality)
    (items : list Env) : list Env :=
  if bool_decide (ModalityImage ∈ input_modalities) then items else map strip_image items.

Definition strip_audio (e : Env) : Env :=
  match item e with
  | Message _ _ _ _ _ => strip_message is_message_audio UNSUPPORTED_AUDIO e
  | FunctionCallOutput id call_id name namespace output meta =>
      mkEnvelope (FunctionCallOutput id call_id name namespace
                    (strip_output is_output_audio UNSUPPORTED_AUDIO output) meta) (metadata e)
  | CustomToolCallOutput id call_id name output meta =>
      mkEnvelope (CustomToolCallOutput id call_id name
                    (strip_output is_output_audio UNSUPPORTED_AUDIO output) meta) (metadata e)
  | _ => e
  end.

Definition strip_audio_when_unsupported (input_modalities : list InputModality)
    (items : list Env) : list Env :=
  if bool_decide (ModalityAudio ∈ input_modalities) then items else map strip_audio items.

(** [ContextManager::normalize_history], on the manager's items. *)
Definition normalize_history (input_modalities : list InputModality) (items : list Env)
  : option (list Env) :=
  items ← ensure_call_outputs_present items;
  items ← remove_orphan_outputs items;
  Some (strip_audio_when_unsupported input_modalities
          (strip_images_when_unsupported input_modalities items)).

(** [for_prompt]. *)
Definition for_prompt (input_modalities : list InputModality) (items : list Env)
  : option (list Item) :=
  map item <$> normalize_history input_modalities items.

(** ** remove_corresponding_for *)

Fixpoint remove_first_matching (predicate : Item -> bool) (items : list Env) : list Env :=
  match items with
  | [] => []
  | e :: items' =>
      if predicate (item e) then items' else e :: remove_first_matching predicate items'
  end.

Definition is_function_call (call_id : str) (i : Item) : bool :=
  match i with FunctionCall _ _ _ _ _ existing _ => bool_decide (existing = call_id) | _ => false end.
Definition is_local_shell_call (call_id : str) (i : Item) : bool :=
  match i with
  | LocalShellCall _ (Some existing) _ _ _ => bool_decide (existing = call_id)
  | _ => false
  end.
Definition is_function_output (call_id : str) (i : Item) : bool :=
  match i with
  | FunctionCallOutput _ (Some existing) _ _ _ _ => bool_decide (existing = call_id)
  | _ => false
  end.
Definition is_tool_search_call (call_id : str) (i : Item) : bool :=
  match i with
  | ToolSearchCall _ (Some existing) _ _ _ _ => bool_decide (existing = call_id)
  | _ => false
  end.
Definition is_tool_search_output (call_id : str) (i : Item) : bool :=
  match i with
  | ToolSearchOutput _ (Some existing) _ _ _ _ => bool_decide (existing = call_id)
  | _ => false
  end.
Definition is_custom_call (call_id : str) (i : Item) : bool :=
  match i with CustomToolCall _ _ existing _ _ _ _ => bool_decide (existing = call_id) | _ => false end.
Definition is_custom_output (call_id : str) (i : Item) : bool :=
  match i with CustomToolCallOutput _ existing _ _ _ => bool_decide (existing = call_id) | _ => false end.

Definition remove_corresponding_for (items : list Env) (i : Item) : list Env :=
  match i with
  | FunctionCall _ _ _ _ _ call_id _ => remove_first_matching (is_function_output call_id) items
  | FunctionCallOutput _ (Some call_id) _ _ _ _ =>
      if existsb (fun e => is_function_call call_id (item e)) items
      then remove_first_matching (is_function_call call_id) items
      else remove_first_matching (is_local_shell_call call_id) items
  | ToolSearchCall _ (Some call_id) _ _ _ _ =>
      remove_first_matching (is_tool_search_output call_id) items
  | ToolSearchOutput _ (Some call_id) _ _ _ _ =>
      remove_first_matching (is_tool_search_call call_id) items
  | CustomToolCall _ _ call_id _ _ _ _ => remove_first_matching (is_custom_output call_id) items
  | CustomToolCallOutput _ call_id _ _ _ => remove_first_matching (is_custom_call call_id) items
  | LocalShellCall _ (Some call_id) _ _ _ =>
      remove_first_matching (is_function_output call_id) items
  | _ => items
  end.

(** [ContextManager::remove_first_item], on the items and the baseline of the
    world state, which is forgotten. *)
Definition remove_first_item {W : Type} (items : list Env) (world_state_baseline : option W)
  : list Env * option W :=
  match items with
  | [] => (items, world_state_baseline)
  | removed :: items' => (remove_corresponding_for items' (item removed), None)
  end.
End normalize.
End HistoryNormalize.
