(* ===== verification/HistoryPairing.v ===== *)
(** * Calls and outputs stay paired

    The properties of HistoryNormalize.v: the loops over positions do what a
    single pass does, the prompt is the history with its calls and outputs
    paired and unsupported media replaced, and trimming the oldest item keeps
    pairs whole. *)

From S2P Require Import Prelude.
From S2P Require Import RustStr.
From S2P Require Import Truncate.
From S2P Require Import ResponseItem.
From S2P Require Import HistoryNormalize.
Import Truncate HistoryNormalize.

(** The three families of calls; local shell calls are answered by function
    outputs. *)
Inductive CallKind : Type := FunctionKind | SearchKind | CustomKind.

#[export] Instance CallKind_eq_dec : EqDecision CallKind.
Proof. solve_decision. Defined.

Section pairing.
Context {Json Number ToolCall : Type}.
Context (debug_assertions : bool) (new_v5 : N -> list N -> str).
Local Notation Item := (ResponseItem Json Number ToolCall).
Local Notation Env := (ResponseItemEnvelope Json Number ToolCall).
Implicit Types e : Env.
Implicit Types items : list Env.

(** What a call asks for, and what an output answers. *)
Definition call_key (i : Item) : option (CallKind * str) :=
  match i with
  | FunctionCall _ _ _ _ _ call_id _ | LocalShellCall _ (Some call_id) _ _ _ =>
      Some (FunctionKind, call_id)
  | ToolSearchCall _ (Some call_id) _ _ _ _ => Some (SearchKind, call_id)
  | CustomToolCall _ _ call_id _ _ _ _ => Some (CustomKind, call_id)
  | _ => None
  end.

Definition output_key (i : Item) : option (CallKind * str) :=
  match i with
  | FunctionCallOutput _ (Some call_id) _ _ _ _ => Some (FunctionKind, call_id)
  | ToolSearchOutput _ (Some call_id) _ _ _ _ => Some (SearchKind, call_id)
  | CustomToolCallOutput _ call_id _ _ _ => Some (CustomKind, call_id)
  | _ => None
  end.

(** The searches the server runs by itself need no call. *)
Definition run_by_server (i : Item) : bool :=
  match i with
  | ToolSearchOutput _ _ _ execution _ _ => bool_decide (execution = $"server")
  | _ => false
  end.

Definition has_call (items : list Env) (k : CallKind * str) : Prop :=
  exists e, In e items /\ call_key (item e) = Some k.
Definition has_output (items : list Env) (k : CallKind * str) : Prop :=
  exists e, In e items /\ output_key (item e) = Some k.

(** Every call has an output; every output that needs a call has one. *)
Definition paired (items : list Env) : Prop :=
  (forall e k, In e items -> call_key (item e) = Some k -> has_output items k)
  /\ forall e k, In e items -> output_key (item e) = Some k -> run_by_server (item e) = false ->
       has_call items k.

Lemma call_is_no_output (i : Item) k : call_key i = Some k -> output_key i = None.
Proof. by destruct i. Qed.

Lemma output_is_no_call (i : Item) k : output_key i = Some k -> call_key i = None.
Proof. by destruct i. Qed.

(** ** The sets of identifiers *)

Definition id_in (ids : CallIds) (k : CallKind * str) : Prop :=
  match fst k with
  | FunctionKind => snd k ∈ function_ids ids
  | SearchKind => snd k ∈ tool_search_ids ids
  | CustomKind => snd k ∈ custom_tool_ids ids
  end.

#[local] Instance id_in_dec ids k : Decision (id_in ids k).
Proof. unfold id_in. destruct (fst k); apply _. Defined.

Definition noted (note : CallIds -> Env -> CallIds) (key : Item -> option (CallKind * str)) : Prop :=
  forall ids e k, id_in (note ids e) k <-> key (item e) = Some k \/ id_in ids k.

Lemma note_output_noted : noted note_output output_key.
Proof.
  intros ids e [f c]. unfold note_output, output_key, id_in.
  destruct (item e); try (by split; [right|intros [?|?]]);
    repeat match goal with x : option str |- _ => destruct x end;
    destruct f; simpl; set_solver.
Qed.

Lemma note_call_noted : noted note_call call_key.
Proof.
  intros ids e [f c]. unfold note_call, call_key, id_in.
  destruct (item e); try (by split; [right|intros [?|?]]);
    repeat match goal with x : option str |- _ => destruct x end;
    destruct f; simpl; set_solver.
Qed.

Lemma fold_noted note key items ids k :
  noted note key ->
  id_in (fold_left note items ids) k
  <-> (exists e, In e items /\ key (item e) = Some k) \/ id_in ids k.
Proof.
  intros Hn. revert ids. induction items as [|e items IH]; intros ids; simpl.
  - split; [by right|intros [(e & [] & _)|]; done].
  - rewrite IH. specialize (Hn ids e k). naive_solver.
Qed.

Lemma id_in_none k : ~ id_in no_ids k.
Proof. unfold id_in. destruct (fst k); simpl; set_solver. Qed.

Definition output_ids items : CallIds := fold_left note_output items no_ids.
Definition call_ids items : CallIds := fold_left note_call items no_ids.

Lemma output_ids_spec items k : id_in (output_ids items) k <-> has_output items k.
Proof.
  unfold output_ids, has_output. rewrite (fold_noted _ _ _ _ _ note_output_noted).
  pose proof (id_in_none k). tauto.
Qed.

Lemma call_ids_spec items k : id_in (call_ids items) k <-> has_call items k.
Proof.
  unfold call_ids, has_call. rewrite (fold_noted _ _ _ _ _ note_call_noted).
  pose proof (id_in_none k). tauto.
Qed.

(** ** One item at a time *)

(** A call whose missing output the code treats as its own mistake. *)
Definition call_must_have_output (i : Item) : bool :=
  match i with CustomToolCall _ _ _ _ _ _ _ | LocalShellCall _ (Some _) _ _ _ => true | _ => false end.

Lemma missing_output_cases ids e :
  match missing_output debug_assertions new_v5 ids e with
  | None => debug_assertions = true /\ call_must_have_output (item e) = true
            /\ exists k, call_key (item e) = Some k /\ ~ id_in ids k
  | Some None => forall k, call_key (item e) = Some k -> id_in ids k
  | Some (Some out) =>
      exists k, call_key (item e) = Some k /\ ~ id_in ids k
      /\ output_key (item out) = Some k /\ call_key (item out) = None
      /\ run_by_server (item out) = false
  end.
Proof.
  unfold missing_output, call_key, error_or_panic.
  destruct (item e); try done;
    repeat match goal with x : option str |- context [match ?y with Some _ => _ | None => _ end] =>
      is_var y; destruct y end; try done;
    case_bool_decide as Hin; try (by intros k [= <-]);
    destruct debug_assertions; simpl; eauto 10.
Qed.

Lemma is_orphan_spec ids e :
  is_orphan ids e = true <->
  exists k, output_key (item e) = Some k /\ run_by_server (item e) = false /\ ~ id_in ids k.
Proof.
  unfold is_orphan, output_key, run_by_server, id_in.
  destruct (item e); try (split; [done|by intros (k & ? & _)]);
    repeat match goal with x : option str |- context [match ?y with Some _ => _ | None => _ end] =>
      is_var y; destruct y end; try (split; [done|by intros (k & ? & _)]);
    repeat case_bool_decide; simpl; (split; [try done; by eexists|]);
    intros (k & [= <-] & ? & ?); done.
Qed.

(** ** The loops as single passes *)

Definition with_missing (ids : CallIds) (e : Env) : list Env :=
  e :: match missing_output debug_assertions new_v5 ids e with Some (Some out) => [out] | _ => [] end.

Lemma insert_missing_app (l l' : list (nat * Env)) items :
  insert_missing (l ++ l') items = insert_missing l items ≫= insert_missing l'.
Proof.
  revert items. induction l as [|[i out] l IH]; intros items; simpl; [done|].
  destruct (vec_insert (i + 1) out items); simpl; [apply IH|done].
Qed.

Lemma insert_missing_flat ids (before after : list Env) ms :
  missing_outputs debug_assertions new_v5 ids (length before) after = Some ms ->
  insert_missing (rev ms) (before ++ after) = Some (before ++ flat_map (with_missing ids) after).
Proof.
  revert before ms. induction after as [|e after IH]; intros before ms; simpl.
  - by intros [= <-].
  - unfold with_missing at 1.
    destruct (missing_output debug_assertions new_v5 ids e) as [missing|]; [|done]. simpl.
    destruct (missing_outputs _ _ ids (S (length before)) after) as [rest|] eqn:E; [|done].
    simpl. intros [= <-].
    specialize (IH (before ++ [e]) rest). rewrite length_app, Nat.add_comm in IH.
    specialize (IH E). rewrite <- !app_assoc in IH. simpl in IH.
    destruct missing as [out|]; simpl; [|by rewrite IH].
    rewrite insert_missing_app, IH. simpl. unfold vec_insert.
    rewrite (proj2 (Nat.leb_le _ _)) by (rewrite length_app; simpl; lia). simpl.
    change (e :: flat_map (with_missing ids) after)
      with ([e] ++ flat_map (with_missing ids) after).
    replace (length before + 1) with (length (before ++ [e])) by (rewrite length_app; simpl; lia).
    rewrite app_assoc, take_app_length, drop_app_length. by rewrite <- app_assoc.
Qed.

Lemma missing_outputs_None ids idx items :
  missing_outputs debug_assertions new_v5 ids idx items = None ->
  exists e, In e items /\ missing_output debug_assertions new_v5 ids e = None.
Proof.
  revert idx. induction items as [|e items IH]; intros idx; simpl; [done|].
  destruct (missing_output debug_assertions new_v5 ids e) as [m|] eqn:E; simpl.
  - destruct (missing_outputs _ _ ids (S idx) items) eqn:F; simpl; [done|]. intros _.
    destruct (IH (S idx) F) as (e' & Hin & He'). exists e'. split; [by right|done].
  - intros _. exists e. split; [by left|done].
Qed.

Lemma orphan_positions_ge ids position items l :
  orphan_positions debug_assertions ids position items = Some l -> Forall (le position) l.
Proof.
  revert position l. induction items as [|e items IH]; intros position l; simpl.
  - by intros [= <-].
  - assert (forall l', Forall (le (S position)) l' -> Forall (le position) l') as Hle
      by (intros l' H; eapply Forall_impl; [exact H|]; simpl; lia).
    destruct (is_orphan ids e); [|intros H; by apply Hle, IH].
    destruct (error_or_panic debug_assertions); [|done]. simpl.
    destruct (orphan_positions _ ids (S position) items) eqn:E; [|done]. intros [= <-].
    constructor; [lia|]. by apply Hle, IH.
Qed.

Lemma retain_others_filter ids position items l :
  orphan_positions debug_assertions ids position items = Some l ->
  retain_others l position items = List.filter (fun e => negb (is_orphan ids e)) items.
Proof.
  revert position l. induction items as [|e items IH]; intros position l; simpl; [done|].
  destruct (is_orphan ids e) eqn:E; simpl.
  - destruct (error_or_panic debug_assertions); [|done]. simpl.
    destruct (orphan_positions _ ids (S position) items) eqn:F; [|done]. intros [= <-]. simpl.
    rewrite bool_decide_eq_true_2 by done. rewrite Nat.add_1_r. by apply IH.
  - intros F. rewrite bool_decide_eq_false_2.
    + rewrite Nat.add_1_r. f_equal. by apply IH.
    + apply orphan_positions_ge in F. destruct F; simpl; [done|]. intros [= ->]. lia.
Qed.

Lemma retain_all position items : retain_others [] position items = items.
Proof. revert position. induction items as [|e items IH]; intros position; simpl; [done|]. by rewrite IH. Qed.

Lemma orphan_positions_None ids position items :
  orphan_positions debug_assertions ids position items = None ->
  debug_assertions = true /\ exists e, In e items /\ is_orphan ids e = true.
Proof.
  revert position. induction items as [|e items IH]; intros position; simpl; [done|].
  destruct (is_orphan ids e) eqn:E.
  - intros H. destruct debug_assertions eqn:D; [split; [done|]; exists e; by split; [left|]|].
    simpl in H. destruct (orphan_positions _ ids (S position) items) eqn:F; [done|].
    by destruct (IH (S position) F).
  - intros H. destruct (IH _ H) as (? & e' & Hin & He'). split; [done|]. exists e'.
    by split; [right|].
Qed.

(** ** What the two passes amount to *)

(** Everything but the orphans, each unanswered call followed by its output. *)
Definition prompt_items items : list Env :=
  flat_map (fun e => if is_orphan (call_ids items) e then [] else with_missing (output_ids items) e)
    items.

Lemma call_ids_with_missing items ids :
  forall k, id_in (call_ids (flat_map (with_missing ids) items)) k <-> id_in (call_ids items) k.
Proof.
  intros k. rewrite !call_ids_spec. split; intros (e & Hin & Hk).
  - apply in_flat_map in Hin as (e' & Hin & [<-|Hout]); [by exists e'|].
    pose proof (missing_output_cases ids e') as Hc.
    destruct (missing_output _ _ ids e') as [[out|]|]; [|done..].
    destruct Hout as [->|[]]. destruct Hc as (k' & _ & _ & _ & Hn & _). congruence.
  - exists e. split; [|done]. apply in_flat_map. exists e. split; [done|by left].
Qed.

(** The items of a passing: which come from the history, which are new. *)
Lemma in_prompt_items items e :
  In e (prompt_items items) <->
  (In e items /\ is_orphan (call_ids items) e = false)
  \/ exists c, In c items
     /\ missing_output debug_assertions new_v5 (output_ids items) c = Some (Some e).
Proof.
  unfold prompt_items. rewrite in_flat_map. split.
  - intros (c & Hc & He). destruct (is_orphan (call_ids items) c) eqn:E; [done|].
    destruct He as [<-|He]; [by left|right]. exists c. split; [done|].
    destruct (missing_output _ _ _ c) as [[out|]|]; [|done..]. by destruct He as [->|[]].
  - intros [[Hin Ho]|(c & Hc & Hm)].
    + exists e. split; [done|]. rewrite Ho. by left.
    + exists c. split; [done|]. pose proof (missing_output_cases (output_ids items) c) as Hcase.
      rewrite Hm in Hcase. destruct Hcase as (k & Hk & _).
      destruct (is_orphan (call_ids items) c) eqn:E.
      * apply is_orphan_spec in E as (k' & Hk' & _). by rewrite (call_is_no_output _ _ Hk) in Hk'.
      * unfold with_missing. rewrite Hm. right. by left.
Qed.

Lemma is_orphan_ext ids ids' e :
  (forall k, id_in ids k <-> id_in ids' k) -> is_orphan ids e = is_orphan ids' e.
Proof.
  intros H. apply eq_true_iff_eq. rewrite !is_orphan_spec.
  split; intros (k & Hk & Hs & Hn); exists k; (split_and!; [done|done|]); specialize (H k); tauto.
Qed.

Lemma ensure_flat items r :
  ensure_call_outputs_present debug_assertions new_v5 items = Some r ->
  r = flat_map (with_missing (output_ids items)) items.
Proof.
  unfold ensure_call_outputs_present. fold (output_ids items).
  destruct (missing_outputs _ _ (output_ids items) 0 items) as [ms|] eqn:E; [|done]. simpl.
  pose proof (insert_missing_flat (output_ids items) [] items ms E) as Hi. simpl in Hi.
  rewrite Hi. by intros [= <-].
Qed.

(** No call is an orphan, and no output the code adds is one. *)
Lemma filter_with_missing items e :
  In e items ->
  List.filter (fun e => negb (is_orphan (call_ids items) e)) (with_missing (output_ids items) e)
  = if is_orphan (call_ids items) e then [] else with_missing (output_ids items) e.
Proof.
  intros Hin. unfold with_missing. pose proof (missing_output_cases (output_ids items) e) as Hc.
  destruct (missing_output _ _ _ e) as [[out|]|]; simpl;
    [|by destruct (is_orphan (call_ids items) e)..].
  destruct Hc as (k & Hk & _ & Ho & _).
  assert (is_orphan (call_ids items) e = false) as ->.
  { apply not_true_iff_false. intros (k' & Hk' & _)%is_orphan_spec.
    by rewrite (call_is_no_output _ _ Hk) in Hk'. }
  assert (is_orphan (call_ids items) out = false) as ->; [|done].
  apply not_true_iff_false. intros (k' & Hk' & _ & Hn)%is_orphan_spec. apply Hn.
  rewrite call_ids_spec. exists e. split; [done|]. congruence.
Qed.

Lemma flat_map_ext_in {A B} (f g : A -> list B) (l : list A) :
  (forall x, In x l -> f x = g x) -> flat_map f l = flat_map g l.
Proof.
  induction l as [|x l IH]; simpl; intros H; [done|]. rewrite H, IH; auto.
Qed.

(** Either panic is a mistake of the program, in a build that checks. *)
Definition broken items : Prop :=
  exists e, In e items /\
  (is_orphan (call_ids items) e = true
   \/ call_must_have_output (item e) = true
      /\ exists k, call_key (item e) = Some k /\ ~ has_output items k).

Lemma normalize_pairs items :
  match ensure_call_outputs_present debug_assertions new_v5 items
          ≫= remove_orphan_outputs debug_assertions with
  | Some r => r = prompt_items items
  | None => debug_assertions = true /\ broken items
  end.
Proof.
  destruct (ensure_call_outputs_present debug_assertions new_v5 items) as [r|] eqn:E; simpl.
  - apply ensure_flat in E as ->. unfold remove_orphan_outputs. fold (call_ids (flat_map (with_missing (output_ids items)) items)).
    set (r := flat_map (with_missing (output_ids items)) items).
    assert (forall e, is_orphan (call_ids r) e = is_orphan (call_ids items) e) as Hext.
    { intros e. apply is_orphan_ext. apply call_ids_with_missing. }
    destruct (orphan_positions debug_assertions (call_ids r) 0 r) as [orphans|] eqn:F; simpl.
    + pose proof (retain_others_filter _ _ _ _ F) as Hf.
      assert (retain_others orphans 0 r = prompt_items items) as Hr.
      { rewrite Hf. rewrite (List.filter_ext _ _ (fun e => f_equal negb (Hext e))).
        unfold r. rewrite filter_flat_map. apply flat_map_ext_in. intros e He.
        by apply filter_with_missing. }
      destruct orphans; simpl; [|done]. by rewrite <- Hr, retain_all.
    + apply orphan_positions_None in F as (Hd & e & He & Ho). split; [done|].
      rewrite Hext in Ho. exists e. split; [|by left]. unfold r in He.
      apply in_flat_map in He as (c & Hc & [<-|He]); [done|]. exfalso.
      pose proof (missing_output_cases (output_ids items) c) as Hcase.
      destruct (missing_output _ _ _ c) as [[out|]|]; [|done..]. destruct He as [->|[]].
      destruct Hcase as (k & Hk & _ & Hko & _). apply is_orphan_spec in Ho as (k' & Hk' & _ & Hn).
      apply Hn. rewrite call_ids_spec. exists c. split; [done|]. congruence.
  - unfold ensure_call_outputs_present in E. fold (output_ids items) in E.
    destruct (missing_outputs _ _ (output_ids items) 0 items) as [ms|] eqn:F.
    + pose proof (insert_missing_flat (output_ids items) [] items ms F) as Hi. simpl in E, Hi.
      by rewrite Hi in E.
    + apply missing_outputs_None in F as (e & He & Hm).
      pose proof (missing_output_cases (output_ids items) e) as Hcase. rewrite Hm in Hcase.
      destruct Hcase as (Hd & Hc & k & Hk & Hn). split; [done|]. exists e. split; [done|]. right.
      split; [done|]. exists k. split; [done|]. by rewrite <- output_ids_spec.
Qed.

Lemma ensure_all_known items r :
  ensure_call_outputs_present debug_assertions new_v5 items = Some r ->
  forall e, In e items -> missing_output debug_assertions new_v5 (output_ids items) e <> None.
Proof.
  unfold ensure_call_outputs_present. fold (output_ids items). generalize (output_ids items) at 1 2.
  generalize 0. intros n ids H.
  destruct (missing_outputs _ _ ids n items) as [ms|] eqn:E; [|done]. clear H.
  revert n ms E. induction items as [|e items IH]; intros n ms E e' He; simpl in *; [done|].
  destruct (missing_output _ _ ids e) eqn:Em; [|done]. simpl in E.
  destruct (missing_outputs _ _ ids (S n) items) eqn:F; [|done].
  destruct He as [<-|He]; [congruence|]. by eapply IH.
Qed.

Lemma prompt_items_paired items :
  (forall e, In e items ->
     missing_output debug_assertions new_v5 (output_ids items) e <> None) ->
  paired (prompt_items items).
Proof.
  intros Hknown.
  assert (forall k, has_call items k -> has_call (prompt_items items) k) as Hcall.
  { intros k (e & He & Hk). exists e. split; [|done]. apply in_prompt_items. left. split; [done|].
    apply not_true_iff_false. intros (k' & Hk' & _)%is_orphan_spec.
    by rewrite (call_is_no_output _ _ Hk) in Hk'. }
  split.
  - intros e k [[He Ho]|(c & Hc & Hm)]%in_prompt_items Hk.
    + pose proof (missing_output_cases (output_ids items) e) as Hcase.
      destruct (missing_output _ _ _ e) as [[out|]|] eqn:Hm; [| |by destruct (Hknown e He)].
      * destruct Hcase as (k' & Hk' & _ & Hout & _). exists out. split; [|congruence].
        apply in_prompt_items. right. by exists e.
      * specialize (Hcase k Hk). apply output_ids_spec in Hcase as (o & Ho' & Hok).
        exists o. split; [|done]. apply in_prompt_items. left. split; [done|].
        apply not_true_iff_false. intros (k' & Hk' & _ & Hn)%is_orphan_spec. apply Hn.
        rewrite call_ids_spec. exists e. split; [done|]. congruence.
    + pose proof (missing_output_cases (output_ids items) c) as Hcase. rewrite Hm in Hcase.
      destruct Hcase as (k' & _ & _ & _ & Hn & _). congruence.
  - intros e k [[He Ho]|(c & Hc & Hm)]%in_prompt_items Hk Hs; apply Hcall.
    + rewrite <- call_ids_spec. destruct (decide (id_in (call_ids items) k)) as [|Hn]; [done|].
      exfalso. apply not_true_iff_false in Ho. apply Ho, is_orphan_spec. by exists k.
    + pose proof (missing_output_cases (output_ids items) c) as Hcase. rewrite Hm in Hcase.
      destruct Hcase as (k' & Hk' & _ & Hout & _). exists c. split; [done|]. congruence.
Qed.

(** ** A paired history is left alone *)

Lemma paired_ensure items :
  paired items -> ensure_call_outputs_present debug_assertions new_v5 items = Some items.
Proof.
  intros [Hc _]. assert (forall e, In e items ->
    missing_output debug_assertions new_v5 (output_ids items) e = Some None) as Hm.
  { intros e He. pose proof (missing_output_cases (output_ids items) e) as Hcase.
    destruct (missing_output _ _ _ e) as [[out|]|]; [|done|];
      [destruct Hcase as (k & Hk & Hn & _)|destruct Hcase as (_ & _ & k & Hk & Hn)];
      destruct Hn; apply output_ids_spec; by apply (Hc e). }
  unfold ensure_call_outputs_present. fold (output_ids items).
  assert (forall n, missing_outputs debug_assertions new_v5 (output_ids items) n items = Some []) as ->;
    [|done].
  revert Hm. generalize (output_ids items). clear Hc. intros ids Hm.
  induction items as [|e items IH]; intros n; simpl; [done|].
  rewrite Hm by by left. simpl. rewrite IH; [done|]. intros e' He'. apply Hm. by right.
Qed.

Lemma paired_remove items :
  paired items -> remove_orphan_outputs debug_assertions items = Some items.
Proof.
  intros [_ Ho]. assert (forall e, In e items -> is_orphan (call_ids items) e = false) as Hno.
  { intros e He. apply not_true_iff_false. intros (k & Hk & Hs & Hn)%is_orphan_spec.
    apply Hn, call_ids_spec. by apply (Ho e). }
  unfold remove_orphan_outputs. fold (call_ids items).
  assert (forall n, orphan_positions debug_assertions (call_ids items) n items = Some []) as ->;
    [|done].
  revert Hno. generalize (call_ids items). clear Ho. intros ids Hno.
  induction items as [|e items IH]; intros n; simpl; [done|].
  rewrite Hno by by left. apply IH. intros e' He'. apply Hno. by right.
Qed.
End pairing.

(** ** Media *)

Section media.
Context {Json Number ToolCall : Type}.
Local Notation Item := (ResponseItem Json Number ToolCall).
Local Notation Env := (ResponseItemEnvelope Json Number ToolCall).
Implicit Types e : Env.

(** An item without the media [image] (or audio) stands for; a message also
    classifies each of its contents. *)
Definition media_free (on_message : ContentItem -> bool) (on_output : OutputItem -> bool) (e : Env)
  : Prop :=
  match item e with
  | Message _ _ content _ meta =>
      forallb (fun c => negb (on_message c)) content = true
      /\ exists m kinds, meta = Some m /\ content_item_kinds m = Some kinds
         /\ length kinds = length content
  | FunctionCallOutput _ _ _ _ output _ | CustomToolCallOutput _ _ _ output _ =>
      match content_items output with
      | Some items => forallb (fun c => negb (on_output c)) items = true
      | None => True
      end
  | _ => True
  end.

Definition image_free (e : Env) : Prop :=
  media_free is_message_image is_output_image e
  /\ match item e with ImageGenerationCall _ _ _ result _ => result = [] | _ => True end.
Definition audio_free (e : Env) : Prop := media_free is_message_audio is_output_audio e.

Lemma map_absent {A} (p : A -> bool) (d : A) (l : list A) :
  forallb (fun c => negb (p c)) l = true -> map (fun c => if p c then d else c) l = l.
Proof.
  induction l as [|c l IH]; simpl; intros H; [done|].
  apply andb_prop in H as [Hc Hl]. apply negb_true_iff in Hc. by rewrite Hc, IH.
Qed.

Lemma map_removed {A} (p : A -> bool) (d : A) (l : list A) :
  p d = false -> forallb (fun c => negb (p c)) (map (fun c => if p c then d else c) l) = true.
Proof.
  intros Hd. induction l as [|c l IH]; simpl; [done|]. rewrite IH, andb_true_r.
  destruct (p c) eqn:E; by rewrite ?Hd, ?E.
Qed.

Lemma map_keeps {A} (p q : A -> bool) (d : A) (l : list A) :
  p d = false -> forallb (fun c => negb (p c)) l = true ->
  forallb (fun c => negb (p c)) (map (fun c => if q c then d else c) l) = true.
Proof.
  intros Hd. induction l as [|c l IH]; simpl; intros H; [done|].
  apply andb_prop in H as [Hc Hl]. rewrite IH, andb_true_r by done. destruct (q c); by rewrite ?Hd.
Qed.

(** A message after its media are replaced. *)
Lemma strip_message_eq u m id role content phase meta md :
  exists kinds, length kinds = length content
  /\ strip_message u m (mkEnvelope (Message id role content phase meta : Item) md)
     = mkEnvelope (Message id role
         (map (fun c => if u c then MInputText (media_text m) else c) content) phase
         (Some (with_kinds kinds (take_kinds meta)))) md
  /\ forall ms, meta = Some ms -> forall ks, content_item_kinds ms = Some ks ->
       length ks = length content -> forallb (fun c => negb (u c)) content = true -> kinds = ks.
Proof.
  unfold strip_message. simpl. set (ks := default [] (meta ≫= content_item_kinds)).
  set (l := map _ (annotate content ks)). exists (map annotated_kind l). split_and!.
  - unfold l. by rewrite !length_map, annotate_length.
  - do 2 f_equal. unfold l. clear l. generalize ks.
    induction content as [|c content IH]; intros [|k kl]; simpl; [done..| |]; rewrite IH; f_equal;
      by destruct (u c).
  - intros ms -> ks' Hk Hl Hu. unfold l, ks. simpl. rewrite Hk. simpl. clear l ks Hk.
    revert ks' Hl. induction content as [|c content IH]; intros [|k kl] Hl; simpl in *; try done.
    apply andb_prop in Hu as [Hc Hu]. apply negb_true_iff in Hc. rewrite Hc, IH by (done || lia). done.
Qed.

Lemma with_take_kinds (ms : Passthrough Number ToolCall) ks :
  content_item_kinds ms = Some ks -> with_kinds ks (take_kinds (Some ms)) = ms.
Proof. destruct ms. unfold with_kinds. simpl. by intros ->. Qed.

Lemma strip_output_eq u m (output : OutputPayload) :
  content_items (strip_output u m output)
  = map (fun c => if u c then InputText (media_text m) else c) <$> content_items output.
Proof. unfold strip_output, content_items, set_content_items. by destruct output as [[|] ?]. Qed.

Lemma strip_output_id u m (output : OutputPayload) :
  match content_items output with
  | Some items => forallb (fun c => negb (u c)) items = true
  | None => True
  end -> strip_output u m output = output.
Proof.
  unfold strip_output, content_items, set_content_items. destruct output as [[|items] ?]; simpl; [done|].
  intros H. by rewrite map_absent.
Qed.

#[local] Opaque strip_message strip_output.

Lemma strip_image_free e : image_free (strip_image e).
Proof.
  destruct e as [i md]. unfold image_free, media_free, strip_image.
  destruct i; simpl; try (by repeat split); try (by rewrite strip_output_eq;
    destruct (content_items output); simpl; (split; [|done]); try apply map_removed).
  destruct (strip_message_eq is_message_image UNSUPPORTED_IMAGE id role content phase meta md)
    as (kinds & Hl & -> & _). simpl. split; [|done]. split; [by apply map_removed|].
  do 2 eexists. split; [done|]. split; [done|]. by rewrite length_map.
Qed.

Lemma image_free_fixed e : image_free e -> strip_image e = e.
Proof.
  destruct e as [i md]. unfold image_free, media_free, strip_image.
  destruct i; simpl; try done; try (intros [H _]; by rewrite strip_output_id).
  - intros [(Hc & ms & ks & -> & Hk & Hl) _].
    destruct (strip_message_eq is_message_image UNSUPPORTED_IMAGE id role content phase (Some ms) md)
      as (kinds & _ & -> & Hks). rewrite (Hks ms eq_refl ks) by done.
    rewrite map_absent by done. by rewrite with_take_kinds.
  - by intros [_ ->].
Qed.

Lemma strip_audio_free e : audio_free (strip_audio e).
Proof.
  destruct e as [i md]. unfold audio_free, media_free, strip_audio.
  destruct i; simpl; try done; try (by rewrite strip_output_eq;
    destruct (content_items output); simpl; [apply map_removed|]).
  destruct (strip_message_eq is_message_audio UNSUPPORTED_AUDIO id role content phase meta md)
    as (kinds & Hl & -> & _). simpl. split; [by apply map_removed|].
  do 2 eexists. split; [done|]. split; [done|]. by rewrite length_map.
Qed.

Lemma audio_free_fixed e : audio_free e -> strip_audio e = e.
Proof.
  destruct e as [i md]. unfold audio_free, media_free, strip_audio.
  destruct i; simpl; try done; try (intros H; by rewrite strip_output_id).
  intros (Hc & ms & ks & -> & Hk & Hl).
  destruct (strip_message_eq is_message_audio UNSUPPORTED_AUDIO id role content phase (Some ms) md)
    as (kinds & _ & -> & Hks). rewrite (Hks ms eq_refl ks) by done.
  rewrite map_absent by done. by rewrite with_take_kinds.
Qed.

Lemma strip_audio_keeps_image_free e : image_free e -> image_free (strip_audio e).
Proof.
  destruct e as [i md]. unfold image_free, media_free, strip_audio.
  destruct i; simpl; try done; try (intros [H _]; rewrite strip_output_eq;
    destruct (content_items output); simpl; (split; [|done]); try (by apply map_keeps); done).
  intros [(Hc & ms & ks & -> & Hk & Hl) _].
  destruct (strip_message_eq is_message_audio UNSUPPORTED_AUDIO id role content phase (Some ms) md)
    as (kinds & Hl' & -> & _). simpl. split; [|done]. split; [by apply map_keeps|].
  do 2 eexists. split; [done|]. split; [done|]. by rewrite length_map.
Qed.

#[local] Transparent strip_message strip_output.

(** Replacing media touches neither calls nor what outputs answer. *)
Lemma strip_keys e :
  (call_key (item (strip_image e)) = call_key (item e)
   /\ output_key (item (strip_image e)) = output_key (item e)
   /\ run_by_server (item (strip_image e)) = run_by_server (item e))
  /\ (call_key (item (strip_audio e)) = call_key (item e)
   /\ output_key (item (strip_audio e)) = output_key (item e)
   /\ run_by_server (item (strip_audio e)) = run_by_server (item e)).
Proof. destruct e as [[] md]; repeat split; by simpl. Qed.

Lemma paired_map (f : Env -> Env) (items : list Env) :
  (forall e, call_key (item (f e)) = call_key (item e)
   /\ output_key (item (f e)) = output_key (item e)
   /\ run_by_server (item (f e)) = run_by_server (item e)) ->
  paired items -> paired (map f items).
Proof.
  intros Hf [Hc Ho].
  assert (forall key : Item -> option (CallKind * str), (forall e, key (item (f e)) = key (item e)) ->
    forall k, (exists e, In e items /\ key (item e) = Some k) ->
    exists e, In e (map f items) /\ key (item e) = Some k) as Hmap.
  { intros key Hkey k (e & He & Hk). exists (f e). split; [by apply in_map|by rewrite Hkey]. }
  split; intros ? k (e & <- & He)%in_map_iff Hk; destruct (Hf e) as (H1 & H2 & H3).
  - apply (Hmap output_key); [by intros e'; destruct (Hf e') as (_ & ? & _)|].
    apply (Hc e); [done|congruence].
  - intros Hs. apply (Hmap call_key); [by intros e'; destruct (Hf e') as (? & _)|].
    apply (Ho e); congruence.
Qed.

Definition strip_media (input_modalities : list InputModality) (items : list Env) : list Env :=
  strip_audio_when_unsupported input_modalities (strip_images_when_unsupported input_modalities items).

Definition media_ok (input_modalities : list InputModality) (e : Env) : Prop :=
  (ModalityImage ∉ input_modalities -> image_free e)
  /\ (ModalityAudio ∉ input_modalities -> audio_free e).

Lemma strip_media_paired ms (items : list Env) : paired items -> paired (strip_media ms items).
Proof.
  intros H. unfold strip_media, strip_audio_when_unsupported, strip_images_when_unsupported.
  repeat case_bool_decide; repeat (apply paired_map; [intros e; apply strip_keys|]); done.
Qed.

Lemma Forall_map_all {A B} (P : B -> Prop) (f : A -> B) (l : list A) :
  (forall x, In x l -> P (f x)) -> Forall P (map f l).
Proof. intros H. apply Forall_forall. intros y Hy. apply list_elem_of_In, in_map_iff in Hy as (x & <- & Hx). auto. Qed.

Lemma strip_media_ok ms (items : list Env) : Forall (media_ok ms) (strip_media ms items).
Proof.
  unfold strip_media, strip_audio_when_unsupported, strip_images_when_unsupported, media_ok.
  repeat case_bool_decide.
  - by apply Forall_true.
  - apply Forall_map_all. intros e _. split; [|done]. intros _. apply strip_image_free.
  - apply Forall_map_all. intros e _. split; [done|]. intros _. apply strip_audio_free.
  - apply Forall_map_all. intros e He. split; [|intros _; apply strip_audio_free].
    intros _. apply strip_audio_keeps_image_free. apply in_map_iff in He as (e' & <- & _).
    apply strip_image_free.
Qed.

(** What may happen to the parts of an item: unsupported media are replaced, the
    rest stays, in its place. *)
Definition replaced {A} (ms : list InputModality) (image audio : A -> bool) (c c' : A) : Prop :=
  c' = c \/ (image c = true /\ ModalityImage ∉ ms) \/ (audio c = true /\ ModalityAudio ∉ ms).

Definition keeps_output (ms : list InputModality) (output output' : OutputPayload) : Prop :=
  match content_items output with
  | None => output' = output
  | Some items => exists items', output' = set_content_items items' output
      /\ Forall2 (replaced ms is_output_image is_output_audio) items items'
  end.

Inductive keeps_item (ms : list InputModality) : Item -> Item -> Prop :=
| keeps_same i : keeps_item ms i i
| keeps_message id role content content' phase meta meta' :
    Forall2 (replaced ms is_message_image is_message_audio) content content' ->
    keeps_item ms (Message id role content phase meta) (Message id role content' phase meta')
| keeps_function_output id call_id name namespace output output' meta :
    keeps_output ms output output' ->
    keeps_item ms (FunctionCallOutput id call_id name namespace output meta)
      (FunctionCallOutput id call_id name namespace output' meta)
| keeps_custom_output id call_id name output output' meta :
    keeps_output ms output output' ->
    keeps_item ms (CustomToolCallOutput id call_id name output meta)
      (CustomToolCallOutput id call_id name output' meta)
| keeps_image_call id status revised_prompt image_result meta :
    ModalityImage ∉ ms ->
    keeps_item ms (ImageGenerationCall id status revised_prompt image_result meta)
      (ImageGenerationCall id status revised_prompt [] meta).

Definition keeps (ms : list InputModality) (e e' : Env) : Prop :=
  metadata e' = metadata e /\ keeps_item ms (item e) (item e').

Lemma replaced_trans {A} ms (image audio : A -> bool) c1 c2 c3 :
  replaced ms image audio c1 c2 -> replaced ms image audio c2 c3 -> replaced ms image audio c1 c3.
Proof. unfold replaced. intros [->|?]; naive_solver. Qed.

Lemma Forall2_replaced_trans {A} ms (image audio : A -> bool) l1 l2 l3 :
  Forall2 (replaced ms image audio) l1 l2 -> Forall2 (replaced ms image audio) l2 l3 ->
  Forall2 (replaced ms image audio) l1 l3.
Proof.
  intros H. revert l3. induction H as [|x y l1 l2 Hxy _ IH]; intros l3 H3; inversion H3; subst; constructor; eauto.
  by eapply replaced_trans.
Qed.

Lemma keeps_output_trans ms o1 o2 o3 : keeps_output ms o1 o2 -> keeps_output ms o2 o3 -> keeps_output ms o1 o3.
Proof.
  unfold keeps_output, content_items, set_content_items. destruct o1 as [[t|l] ?]; simpl; [by intros ->|].
  intros (l' & -> & H1) (l'' & -> & H2). exists l''. split; [done|]. by eapply Forall2_replaced_trans.
Qed.

Lemma keeps_trans ms e1 e2 e3 : keeps ms e1 e2 -> keeps ms e2 e3 -> keeps ms e1 e3.
Proof.
  intros [H1 K1] [H2 K2]. split; [congruence|]. clear H1 H2.
  destruct (item e1), (item e2); inversion K1; subst; try exact K2; inversion K2; subst; try exact K1;
    constructor; eauto using Forall2_replaced_trans, keeps_output_trans.
Qed.

Lemma replaced_map {A} ms (image audio u : A -> bool) d (l : list A) :
  (forall c, u c = true -> (image c = true /\ ModalityImage ∉ ms) \/ (audio c = true /\ ModalityAudio ∉ ms)) ->
  Forall2 (replaced ms image audio) l (map (fun c => if u c then d else c) l).
Proof.
  intros Hu. induction l as [|c l IH]; simpl; constructor; [|done].
  destruct (u c) eqn:E; [right; by apply Hu|by left].
Qed.

Lemma keeps_strip_output ms u m output :
  (forall c, u c = true -> (is_output_image c = true /\ ModalityImage ∉ ms)
                           \/ (is_output_audio c = true /\ ModalityAudio ∉ ms)) ->
  keeps_output ms output (strip_output u m output).
Proof.
  intros Hu. unfold keeps_output, strip_output. destruct (content_items output) as [l|]; [|done].
  eexists. split; [done|]. by apply replaced_map.
Qed.

Lemma keeps_strip_message ms u m id role content phase meta md :
  (forall c, u c = true -> (is_message_image c = true /\ ModalityImage ∉ ms)
                           \/ (is_message_audio c = true /\ ModalityAudio ∉ ms)) ->
  keeps ms (mkEnvelope (Message id role content phase meta : Item) md)
    (strip_message u m (mkEnvelope (Message id role content phase meta : Item) md)).
Proof.
  intros Hu. destruct (strip_message_eq u m id role content phase meta md) as (kinds & _ & -> & _).
  split; [done|]. constructor. by apply replaced_map.
Qed.

Lemma keeps_strip_image ms e : ModalityImage ∉ ms -> keeps ms e (strip_image e).
Proof.
  intros Hms. destruct e as [i md]. unfold strip_image.
  destruct i; simpl; try (split; [done|]; constructor; try done; apply keeps_strip_output; by left).
  apply keeps_strip_message. by left.
Qed.

Lemma keeps_strip_audio ms e : ModalityAudio ∉ ms -> keeps ms e (strip_audio e).
Proof.
  intros Hms. destruct e as [i md]. unfold strip_audio.
  destruct i; simpl; try (split; [done|]; constructor; try done; apply keeps_strip_output; by right).
  apply keeps_strip_message. by right.
Qed.

(** The media of one item. *)
Definition strip_one (ms : list InputModality) (e : Env) : Env :=
  let e := if bool_decide (ModalityImage ∈ ms) then e else strip_image e in
  if bool_decide (ModalityAudio ∈ ms) then e else strip_audio e.

Lemma strip_media_map ms (items : list Env) : strip_media ms items = map (strip_one ms) items.
Proof.
  unfold strip_media, strip_audio_when_unsupported, strip_images_when_unsupported, strip_one.
  repeat case_bool_decide; by rewrite ?map_map, ?map_id.
Qed.

Lemma keeps_strip_one ms e : keeps ms e (strip_one ms e).
Proof.
  unfold strip_one. assert (Hr : forall e : Env, keeps ms e e) by (split; [done|constructor]).
  apply (keeps_trans _ _ (if bool_decide (ModalityImage ∈ ms) then e else strip_image e)); case_bool_decide;
    try apply Hr; try by apply keeps_strip_image.
  all: case_bool_decide; [apply Hr|by apply keeps_strip_audio].
Qed.

Lemma media_ok_fixed ms (items : list Env) : Forall (media_ok ms) items -> strip_media ms items = items.
Proof.
  intros H. unfold strip_media, strip_audio_when_unsupported, strip_images_when_unsupported.
  assert (forall f : Env -> Env, (forall e, In e items -> f e = e) -> map f items = items) as Hid.
  { intros f. clear H. induction items as [|e items IH]; simpl; intros Hf; [done|].
    by rewrite Hf, IH by auto. }
  rewrite Forall_forall in H.
  assert ((if bool_decide (ModalityImage ∈ ms) then items else map strip_image items) = items) as ->.
  { case_bool_decide; [done|]. apply Hid. intros e He. apply image_free_fixed.
    by apply H; [apply list_elem_of_In|]. }
  case_bool_decide; [done|]. apply Hid. intros e He. apply audio_free_fixed.
  by apply H; [apply list_elem_of_In|].
Qed.
End media.

(** ** The prompt *)

(** How a history is prepared, item after item: an output that answers no call of
    the history, and is not a search the server ran, is left out; everything
    else stays, but for unsupported media; and a call without an output is
    followed by one. *)
Section prepared.
Context {Json Number ToolCall : Type}.
Context (ms : list InputModality).
Local Notation Item := (ResponseItem Json Number ToolCall).
Local Notation Env := (ResponseItemEnvelope Json Number ToolCall).
Context (history : list Env).

Definition orphan (e : Env) : Prop :=
  exists k, output_key (item e) = Some k /\ run_by_server (item e) = false /\ ~ has_call history k.

(** The output that says a call was cut short: an empty result for a search. *)
Definition aborted (i : Item) : Prop :=
  match i with
  | FunctionCallOutput _ _ None None output None | CustomToolCallOutput _ _ None output None =>
      output = from_text ($"aborted")
  | ToolSearchOutput _ _ status execution tools None =>
      status = $"completed" /\ execution = $"client" /\ tools = []
  | _ => False
  end.

Inductive prepared : list Env -> list Env -> Prop :=
| prepared_nil : prepared [] []
| prepared_orphan e items r : orphan e -> prepared items r -> prepared (e :: items) r
| prepared_item e e' items r :
    ~ orphan e -> (forall k, call_key (item e) = Some k -> has_output history k) -> keeps ms e e' ->
    prepared items r -> prepared (e :: items) (e' :: r)
| prepared_call e e' o k items r :
    call_key (item e) = Some k -> ~ has_output history k -> keeps ms e e' ->
    output_key (item o) = Some k -> aborted (item o) ->
    prepared items r -> prepared (e :: items) (e' :: o :: r).
End prepared.

Section prompt.
Context {Json Number ToolCall : Type}.
Context (debug_assertions : bool) (new_v5 : N -> list N -> str).
Local Notation Env := (ResponseItemEnvelope Json Number ToolCall).

Lemma missing_output_aborted ids (e out : Env) :
  missing_output debug_assertions new_v5 ids e = Some (Some out) ->
  aborted (item out) /\ forall ms, strip_one ms out = out.
Proof.
  assert (forall o : Env, aborted (item o) -> forall ms, strip_one ms o = o) as Hs.
  { intros [i md] Ha ms. unfold strip_one. simpl in Ha. destruct i; try done; repeat case_bool_decide; try done;
      destruct name; try done; try (destruct namespace; try done); destruct meta; try done; by rewrite Ha. }
  intros H. assert (aborted (item out)) as Ha; [|by split; [|apply Hs]]. revert H.
  unfold missing_output, error_or_panic. destruct (item e); try done;
    repeat match goal with x : option str |- context [match ?y with Some _ => _ | None => _ end] =>
      is_var y; destruct y end; try done; case_bool_decide; try done;
    destruct debug_assertions; simpl; try done; by intros [= <-].
Qed.

Lemma prompt_items_prepared ms (history items : list Env) :
  (forall e, In e items -> missing_output debug_assertions new_v5 (output_ids history) e <> None) ->
  prepared ms history items
    (strip_media ms (flat_map (fun e => if is_orphan (call_ids history) e then []
                                        else with_missing debug_assertions new_v5 (output_ids history) e) items)).
Proof.
  rewrite strip_media_map. induction items as [|e items IH]; intros Hknown; simpl; [constructor|].
  specialize (IH (fun e' He' => Hknown e' (or_intror He'))).
  assert (Ho : is_orphan (call_ids history) e = true <-> orphan history e).
  { rewrite is_orphan_spec. unfold orphan. by setoid_rewrite call_ids_spec. }
  destruct (is_orphan (call_ids history) e) eqn:E; simpl; [by apply prepared_orphan; [apply Ho|]|].
  pose proof (missing_output_cases debug_assertions new_v5 (output_ids history) e) as Hc.
  destruct (missing_output _ _ _ e) as [[out|]|] eqn:Em; simpl.
  - destruct Hc as (k & Hk & Hno & Hout & _). rewrite output_ids_spec in Hno.
    destruct (missing_output_aborted _ _ _ Em) as [Ha Hs]. rewrite Hs.
    by apply (prepared_call ms history e _ out k); [| |apply keeps_strip_one| | |].
  - apply prepared_item; [by rewrite <- Ho| |apply keeps_strip_one|done].
    intros k Hk. by apply output_ids_spec, Hc.
  - by destruct (Hknown e (or_introl eq_refl)).
Qed.

Lemma normalize_history_cases ms (items : list Env) :
  match normalize_history debug_assertions new_v5 ms items with
  | Some r => r = strip_media ms (prompt_items debug_assertions new_v5 items)
              /\ paired (prompt_items debug_assertions new_v5 items)
              /\ prepared ms items items r
  | None => debug_assertions = true /\ broken items
  end.
Proof.
  pose proof (normalize_pairs debug_assertions new_v5 items) as H. unfold normalize_history.
  destruct (ensure_call_outputs_present debug_assertions new_v5 items) as [l|] eqn:E; simpl in *; [|done].
  destruct (remove_orphan_outputs debug_assertions l) as [r|]; simpl in *; [|done]. subst r.
  split; [done|]. pose proof (ensure_all_known _ _ _ _ E).
  split; [by apply prompt_items_paired|by apply prompt_items_prepared].
Qed.

Lemma normalize_history_stable ms (items : list Env) :
  paired items -> Forall (media_ok ms) items ->
  normalize_history debug_assertions new_v5 ms items = Some items.
Proof.
  intros Hp Hm. unfold normalize_history. rewrite paired_ensure by done. simpl.
  rewrite paired_remove by done. simpl. f_equal. by apply media_ok_fixed.
Qed.
End prompt.


(** The loops that collect positions and insert or retain by index do what
    one pass over the history does: orphaned outputs are dropped, each call
    without an output is followed at once by the output made for it, every
    other item stays in its place, and then media are replaced item by
    item. *)
Theorem normalize_history_single_pass {Json Number ToolCall : Type} (new_v5 : N -> list N -> str)
    (ms : list InputModality) (items : list (ResponseItemEnvelope Json Number ToolCall)) :
  normalize_history false new_v5 ms items
  = Some (strip_media ms
      (flat_map (fun e =>
         if is_orphan (call_ids items) e then []
         else e :: match missing_output false new_v5 (output_ids items) e with
                   | Some (Some out) => [out]
                   | _ => []
                   end) items)).
Proof.
  pose proof (normalize_history_cases false new_v5 ms items) as H.
  destruct (normalize_history false new_v5 ms items) as [r|]; [|by destruct H].
  by destruct H as (-> & _).
Qed.

(** ** Trimming the oldest item *)

Section trim.
Context {Json Number ToolCall : Type}.
Local Notation Item := (ResponseItem Json Number ToolCall).
Local Notation Env := (ResponseItemEnvelope Json Number ToolCall).
Implicit Types items : list Env.

(** No two calls, and no two outputs, share their identifier. *)
Definition unique (items : list Env) : Prop :=
  NoDup (omap call_key (map item items)) /\ NoDup (omap output_key (map item items)).

Lemma omap_key_in (key : Item -> option (CallKind * str)) items k :
  k ∈ omap key (map item items) <-> exists e, In e items /\ key (item e) = Some k.
Proof.
  rewrite list_elem_of_omap. split.
  - intros (i & Hi & Hk). apply list_elem_of_In, in_map_iff in Hi as (e & <- & He). by exists e.
  - intros (e & He & Hk). exists (item e). split; [|done]. apply list_elem_of_In. by apply in_map.
Qed.

(** Removing the first item a predicate picks by its identifier removes the
    only one that has it. *)
Lemma remove_first_matching_unique (key : Item -> option (CallKind * str)) (p : Item -> bool) k items :
  (forall i, p i = true -> key i = Some k) ->
  (exists e, In e items /\ p (item e) = true) ->
  NoDup (omap key (map item items)) ->
  forall e, In e (remove_first_matching p items) <-> In e items /\ key (item e) <> Some k.
Proof.
  intros Hp. induction items as [|c items IH]; simpl; intros Hex Hnd e; [by destruct Hex as (? & [] & _)|].
  destruct (p (item c)) eqn:E.
  - pose proof (Hp _ E) as Hk. rewrite Hk in Hnd. apply NoDup_cons in Hnd as [Hn _]. split.
    + intros He. split; [by right|]. intros Hke. apply Hn, omap_key_in. by exists e.
    + intros [[<-|He] Hke]; [done|done].
  - assert (exists e, In e items /\ p (item e) = true) as Hex'.
    { destruct Hex as (e' & [<-|He'] & Hpe); [congruence|by exists e']. }
    assert (NoDup (omap key (map item items))) as Hnd'
      by (destruct (key (item c)); [by apply NoDup_cons in Hnd as [_ ?]|done]).
    simpl. rewrite (IH Hex' Hnd'). split; [|naive_solver].
    intros [<-|[He Hk]]; [|by split; [right|]]. split; [by left|]. intros Hk. rewrite Hk in Hnd.
    apply NoDup_cons in Hnd as [Hn _]. apply Hn, omap_key_in.
    destruct Hex' as (e' & He' & Hpe). exists e'. by split; [|apply Hp].
Qed.

Lemma remove_first_matching_none (p : Item -> bool) items :
  (forall e, In e items -> p (item e) = false) -> remove_first_matching p items = items.
Proof.
  induction items as [|c items IH]; simpl; intros H; [done|]. rewrite H by by left.
  f_equal. apply IH. auto.
Qed.

Lemma remove_first_matching_sublist (p : Item -> bool) items :
  remove_first_matching p items `sublist_of` items.
Proof.
  induction items as [|c items IH]; simpl; [done|].
  destruct (p (item c)); [by apply sublist_cons|by apply sublist_skip].
Qed.

Lemma unique_sublist items items' : items' `sublist_of` items -> unique items -> unique items'.
Proof.
  intros Hs [Hc Ho].
  assert (forall key : Item -> option (CallKind * str),
    omap key (map item items') `sublist_of` omap key (map item items)) as Hk.
  { intros key. clear Hc Ho. induction Hs as [|e l1 l2 _ IH|e l1 l2 _ IH]; simpl; [done| |];
      destruct (key (item e)); try done; by constructor. }
  split; by (eapply sublist_NoDup; [|apply Hk]).
Qed.

(** Taking out everything that has one identifier. *)
Lemma remove_key_spec (key : Item -> option (CallKind * str)) (p : Item -> bool) k items :
  (forall i, p i = true <-> key i = Some k) ->
  NoDup (omap key (map item items)) ->
  forall e, In e (remove_first_matching p items) <-> In e items /\ key (item e) <> Some k.
Proof.
  intros Hp Hnd e. destruct (existsb (fun e => p (item e)) items) eqn:E.
  - apply existsb_exists in E. eapply remove_first_matching_unique; [by intros i; apply Hp|done|done].
  - assert (forall e, In e items -> p (item e) = false) as Hno.
    { intros e' He'. apply not_true_iff_false. intros Hpe. apply not_true_iff_false in E.
      apply E, existsb_exists. by exists e'. }
    rewrite remove_first_matching_none by done. split; [|by intros [? _]]. intros He. split; [done|].
    intros Hk. apply Hp in Hk. by rewrite Hno in Hk.
Qed.

Lemma key_predicates (c : str) (i : Item) :
  (is_function_output c i = true <-> output_key i = Some (FunctionKind, c))
  /\ (is_tool_search_call c i = true <-> call_key i = Some (SearchKind, c))
  /\ (is_tool_search_output c i = true <-> output_key i = Some (SearchKind, c))
  /\ (is_custom_call c i = true <-> call_key i = Some (CustomKind, c))
  /\ (is_custom_output c i = true <-> output_key i = Some (CustomKind, c))
  /\ (is_function_call c i || is_local_shell_call c i = true
      <-> call_key i = Some (FunctionKind, c)).
Proof.
  split_and!; destruct i; simpl; try done;
    repeat match goal with |- context [match ?x with Some _ => _ | None => _ end] => destruct x end;
    rewrite ?orb_false_r, ?bool_decide_eq_true; (split; [try done; congruence|try done; congruence]).
Qed.

(** The call a function output answers, whichever of the two kinds it is. *)
Lemma remove_function_call_spec (c : str) items :
  NoDup (omap call_key (map item items)) ->
  forall e,
  In e (if existsb (fun e => is_function_call c (item e)) items
        then remove_first_matching (is_function_call c) items
        else remove_first_matching (is_local_shell_call c) items)
  <-> In e items /\ call_key (item e) <> Some (FunctionKind, c).
Proof.
  intros Hnd e.
  assert (forall i : Item, is_function_call c i = true -> call_key i = Some (FunctionKind, c)) as H1.
  { intros i H. apply (key_predicates c i). by rewrite H. }
  assert (forall i : Item, is_local_shell_call c i = true -> call_key i = Some (FunctionKind, c)) as H2.
  { intros i H. apply (key_predicates c i). by rewrite H, orb_true_r. }
  destruct (existsb (fun e => is_function_call c (item e)) items) eqn:E1.
  - apply existsb_exists in E1. by eapply remove_first_matching_unique.
  - destruct (existsb (fun e => is_local_shell_call c (item e)) items) eqn:E2.
    + apply existsb_exists in E2. by eapply remove_first_matching_unique.
    + assert (forall p : Item -> bool, existsb (fun e : Env => p (item e)) items = false ->
               forall e, In e items -> p (item e) = false) as Hno.
      { intros p Hp e' He'. apply not_true_iff_false. intros Hpe. apply not_true_iff_false in Hp.
        apply Hp, existsb_exists. by exists e'. }
      rewrite remove_first_matching_none by (by apply Hno). split; [|by intros [? _]].
      intros He. split; [done|]. intros Hk. apply (key_predicates c (item e)) in Hk.
      by rewrite (Hno _ E1 e He), (Hno _ E2 e He) in Hk.
Qed.

(** What goes with the removed item: everything on the other side that has its
    identifier. *)
Lemma remove_corresponding_spec items (i : Item) :
  unique items ->
  (remove_corresponding_for items i `sublist_of` items)
  /\ forall e, In e (remove_corresponding_for items i) <->
       In e items /\ (forall k, call_key i = Some k -> output_key (item e) <> Some k)
       /\ forall k, output_key i = Some k -> call_key (item e) <> Some k.
Proof.
  intros [Hc Ho]. split.
  - unfold remove_corresponding_for.
    destruct i; try done; repeat case_match; try done; apply remove_first_matching_sublist.
  - intros e.
    assert (forall P : Prop, In e items /\ (forall k, None = Some k -> P)
                             /\ (forall k, None = Some k -> P) <-> In e items) as Hnone by naive_solver.
    destruct i; simpl;
      repeat match goal with |- context [match ?x with Some _ => _ | None => _ end] =>
        is_var x; destruct x end;
      try (split; [intros He; split_and!; [done|by intros ? ?..]|by intros [? _]]);
      rewrite ?(remove_function_call_spec _ _ Hc);
      match goal with
      | |- context [is_function_output ?c] =>
          rewrite (remove_key_spec output_key _ (FunctionKind, c))
            by (done || intros ?; apply (key_predicates c))
      | |- context [is_tool_search_output ?c] =>
          rewrite (remove_key_spec output_key _ (SearchKind, c))
            by (done || intros ?; apply (key_predicates c))
      | |- context [is_tool_search_call ?c] =>
          rewrite (remove_key_spec call_key _ (SearchKind, c))
            by (done || intros ?; apply (key_predicates c))
      | |- context [is_custom_output ?c] =>
          rewrite (remove_key_spec output_key _ (CustomKind, c))
            by (done || intros ?; apply (key_predicates c))
      | |- context [is_custom_call ?c] =>
          rewrite (remove_key_spec call_key _ (CustomKind, c))
            by (done || intros ?; apply (key_predicates c))
      | _ => idtac
      end;
      naive_solver.
Qed.

Lemma trim_paired items (removed : Env) :
  paired (removed :: items) -> unique (removed :: items) ->
  let r := remove_corresponding_for items (item removed) in paired r /\ unique r.
Proof.
  intros [Hc Ho] Hu r.
  assert (unique items) as Hu' by (eapply unique_sublist; [|exact Hu]; by apply sublist_cons).
  destruct (remove_corresponding_spec items (item removed) Hu') as [Hsub Hin]. fold r in Hsub, Hin.
  split; [|by eapply unique_sublist].
  assert (forall key : Item -> option (CallKind * str), NoDup (omap key (map item (removed :: items))) ->
    forall e k, In e items -> key (item e) = Some k -> key (item removed) <> Some k) as Hdiff.
  { intros key Hnd e k He Hk Hr. simpl in Hnd. rewrite Hr in Hnd.
    apply NoDup_cons in Hnd as [Hn _]. apply Hn, omap_key_in. by exists e. }
  split.
  - intros e k (He & He1 & He2)%Hin Hk. destruct (Hc e k (or_intror He) Hk) as (o & [<-|Ho'] & Hok).
    + by destruct (He2 k Hok).
    + exists o. split; [|done]. apply Hin. split_and!; [done| |].
      * intros k' Hk' Hok'. simplify_eq. by destruct (Hdiff call_key (proj1 Hu) e k He Hk).
      * intros k' _. by rewrite (output_is_no_call _ _ Hok).
  - intros e k (He & He1 & He2)%Hin Hk Hs.
    destruct (Ho e k (or_intror He) Hk Hs) as (c & [<-|Hc'] & Hck).
    + by destruct (He1 k Hck).
    + exists c. split; [|done]. apply Hin. split_and!; [done| |].
      * intros k' _. by rewrite (call_is_no_output _ _ Hck).
      * intros k' Hk' Hck'. simplify_eq. by destruct (Hdiff output_key (proj2 Hu) e k He Hk).
Qed.
End trim.

(** Dropping the oldest item of a history keeps it ready for the model
    without normalising it again: when calls and outputs are paired and their
    identifiers are not reused, they still are afterwards; only the item and
    the other half of its pair are gone; and the world state must be sent
    again. *)
Theorem remove_first_item_keeps_pairs {Json Number ToolCall W : Type}
    (items : list (ResponseItemEnvelope Json Number ToolCall)) (world_state_baseline : option W) :
  paired items -> unique items ->
  let (r, w) := remove_first_item items world_state_baseline in
  paired r /\ unique r /\ r `sublist_of` items
  /\ (items <> [] -> w = None /\ length r < length items).
Proof.
  intros Hp Hu. unfold remove_first_item. destruct items as [|removed items]; [done|].
  destruct (trim_paired items removed Hp Hu) as [Hp' Hu'].
  assert (unique items) as Hi by (eapply unique_sublist; [|exact Hu]; by apply sublist_cons).
  destruct (remove_corresponding_spec items (item removed) Hi) as [Hsub _].
  split_and!; [done|done|by apply sublist_cons|]. intros _. split; [done|].
  apply sublist_length in Hsub. simpl. lia.
Qed.

Definition demo_history : list (ResponseItemEnvelope nat nat nat) :=
  [envelope_new (FunctionCall (Some ($"fc_1")) ($"shell") None ($"{}") None ($"a") None);
   envelope_new (CustomToolCall None None ($"b") ($"patch") None ($"x") None);
   envelope_new (FunctionCallOutput None (Some ($"a")) None None (from_text ($"ok")) None);
   envelope_new (CustomToolCallOutput None ($"b") None (from_text ($"ok")) None)].

Lemma remove_first_item_keeps_pairs_witness :
  let (r, w) := remove_first_item demo_history (Some 0) in
  paired r /\ unique r /\ r `sublist_of` demo_history
  /\ (demo_history <> [] -> w = None /\ length r < length demo_history).
Proof.
  apply (remove_first_item_keeps_pairs demo_history (Some 0)).
  - split; intros e k He Hk; simpl in He;
      repeat (destruct He as [<-|He]; [simpl in Hk|]); try done; injection Hk as <-.
    all: try intros _; unfold has_output, has_call.
    all: match goal with |- exists e, In e ?l /\ _ => first
      [ exists (nth 0 l (envelope_new OtherItem)); split; [simpl; tauto|reflexivity]
      | exists (nth 1 l (envelope_new OtherItem)); split; [simpl; tauto|reflexivity]
      | exists (nth 2 l (envelope_new OtherItem)); split; [simpl; tauto|reflexivity]
      | exists (nth 3 l (envelope_new OtherItem)); split; [simpl; tauto|reflexivity] ] end.
  - split; apply (bool_decide_unpack _); vm_compute; exact I.
Defined.
