(* ===== verification/WorldState.v ===== *)
(** * The recorded state of the world (core/src/context/world_state/mod.rs)

    What the model was told about its surroundings, kept as JSON per section and
    recorded in the rollout: in full, or as an RFC 7386 merge patch against the
    state before.  Replaying what was recorded gives back the state.  A JSON
    object is a list of fields with distinct names; the map of serde_json keeps
    them sorted or in order of insertion, depending on a feature, and compares
    without order, so everything is stated up to that comparison. *)

From S2P Require Import Prelude RustStr.

(** ** JSON values (serde_json) *)

Section json.
Context {Number : Type} `{EqDecision Number}.

Inductive Json : Type :=
| JNull
| JBool (b : bool)
| JNumber (n : Number)
| JString (s : str)
| JArray (l : list Json)
| JObject (fields : list (str * Json)).

Abbreviation Map := (list (str * Json)) (only parsing).

Fixpoint get (k : str) (m : Map) : option Json :=
  match m with
  | [] => None
  | (k', v) :: m => if bool_decide (k' = k) then Some v else get k m
  end.

Definition contains_key (m : Map) (k : str) : bool := is_some (get k m).

(** Replaces the value of a field, or adds one at the end. *)
Fixpoint insert (k : str) (v : Json) (m : Map) : Map :=
  match m with
  | [] => [(k, v)]
  | (k', w) :: m => if bool_decide (k' = k) then (k', v) :: m else (k', w) :: insert k v m
  end.

Fixpoint remove_field (k : str) (m : Map) : Map :=
  match m with
  | [] => []
  | (k', w) :: m => if bool_decide (k' = k) then m else (k', w) :: remove_field k m
  end.

(** [==]: objects regardless of the order of their fields. *)
Fixpoint json_eqb (a b : Json) {struct a} : bool :=
  match a, b with
  | JNull, JNull => true
  | JBool x, JBool y => bool_decide (x = y)
  | JNumber x, JNumber y => bool_decide (x = y)
  | JString x, JString y => bool_decide (x = y)
  | JArray l, JArray m =>
      (fix go (l m : list Json) : bool :=
         match l, m with
         | [], [] => true
         | x :: l, y :: m => json_eqb x y && go l m
         | _, _ => false
         end) l m
  | JObject f, JObject g =>
      (length f =? length g)
      && (fix go (f : Map) : bool :=
            match f with
            | [] => true
            | (k, v) :: f => match get k g with Some w => json_eqb v w | None => false end && go f
            end) f
  | _, _ => false
  end.

Definition is_null (v : Json) : bool := match v with JNull => true | _ => false end.

Definition as_object (v : Json) : option Map := match v with JObject m => Some m | _ => None end.

(** [remove_null_object_fields]. *)
Fixpoint remove_null_object_fields (v : Json) : Json :=
  match v with
  | JObject m =>
      JObject ((fix go (m : Map) : Map :=
                  match m with
                  | [] => []
                  | (k, v) :: m => if is_null v then go m else (k, remove_null_object_fields v) :: go m
                  end) m)
  | v => v
  end.

(** ** Merge patches *)

(** The removals a patch begins with. *)
Definition removals (previous current : Map) : Map :=
  fold_left (fun patch kv => if contains_key current kv.1 then patch else insert kv.1 JNull patch) previous [].

Fixpoint create_merge_patch (previous current : Json) {struct current} : option Json :=
  if json_eqb previous current then None
  else
    match current with
    | JObject current =>
        let previous := as_object previous in
        let patch := match previous with Some previous => removals previous current | None => [] end in
        Some (JObject ((fix go (current patch : Map) : Map :=
                          match current with
                          | [] => patch
                          | (k, v) :: current =>
                              go current
                                 match previous ≫= get k with
                                 | None => insert k v patch
                                 | Some w =>
                                     match create_merge_patch w v with
                                     | Some p => insert k p patch
                                     | None => patch
                                     end
                                 end
                          end) current patch))
    | current => Some current
    end.

Fixpoint apply_merge_patch_value (target patch : Json) {struct patch} : Json :=
  match patch with
  | JObject patch =>
      JObject ((fix go (patch target : Map) : Map :=
                  match patch with
                  | [] => target
                  | (k, v) :: patch =>
                      go patch
                         (if is_null v then remove_field k target
                          else insert k (apply_merge_patch_value (default JNull (get k target)) v) target)
                  end) patch (default [] (as_object target)))
  | patch => patch
  end.

(** ** Snapshots *)

(** A snapshot has the sections that have a state; [BTreeMap] of their names. *)
Definition WorldSnapshot : Type := Map.

(** [WorldStateSnapshot::merge_patch_from]. *)
Definition merge_patch_from (self previous : WorldSnapshot) : option Map :=
  let patch :=
    fold_left (fun patch kv =>
      match get kv.1 previous with
      | Some previous =>
          match create_merge_patch previous kv.2 with Some v => insert kv.1 v patch | None => patch end
      | None => insert kv.1 kv.2 patch
      end) self (removals previous self) in
  if is_empty patch then None else Some patch.

(** [WorldStateSnapshot::apply_merge_patch]. *)
Definition apply_merge_patch (self : WorldSnapshot) (patch : Map) : WorldSnapshot :=
  fold_left (fun self kv =>
    if is_null kv.2 then remove_field kv.1 self
    else insert kv.1 (apply_merge_patch_value (default JNull (get kv.1 self)) kv.2) self) patch self.

(** The state of a section as it was serialised, [None] when it is not kept. *)
Definition section_snapshot (value : option Json) : option Json :=
  value ← value;
  let value := remove_null_object_fields value in
  if is_null value then None else Some value.

(** [WorldState::snapshot]; section names are distinct. *)
Definition world_snapshot (sections : list (str * option Json)) : WorldSnapshot :=
  omap (fun s => option_map (pair s.1) (section_snapshot s.2)) sections.

(** ** Records (protocol/src/protocol.rs) *)

Record WorldStateItem : Type := mkWorldStateItem { full : bool; state : Map }.

(** [ContextManager::update_world_state]: what is recorded, and the new baseline. *)
Definition update_world_state (baseline : option WorldSnapshot) (snapshot : WorldSnapshot)
  : option WorldStateItem * option WorldSnapshot :=
  (match baseline with
   | None => Some (mkWorldStateItem true snapshot)
   | Some previous => option_map (mkWorldStateItem false) (merge_patch_from snapshot previous)
   end, Some snapshot).

(** A record that matters for the state of the world, and its replay
    (session/rollout_reconstruction.rs): a patch without a baseline is ignored. *)
Inductive WorldRecord : Type := CompactedRecord | StateRecord (item : WorldStateItem).

Definition replay_record (baseline : option WorldSnapshot) (r : WorldRecord) : option WorldSnapshot :=
  match r with
  | CompactedRecord => None
  | StateRecord item =>
      if full item then Some (state item)
      else option_map (fun baseline => apply_merge_patch baseline (state item)) baseline
  end.

Definition replay_records (l : list WorldRecord) : option WorldSnapshot := fold_left replay_record l None.

(** ** What a session records (core/src/session/mod.rs) *)

(** The ways a session changes its baseline. *)
Inductive WorldEvent : Type :=
| TurnBegins (full_context : bool) (world : list (str * option Json))
| StepChanges (previous world : list (str * option Json))
| Compacts (world : option (list (str * option Json))).

(** The records of the start of a turn, in full when the context is injected
    again, and the baseline after it. *)
Definition record_turn_context (full_context : bool) (world : list (str * option Json)) (baseline : option WorldSnapshot)
  : list WorldRecord * option WorldSnapshot :=
  let snapshot := world_snapshot world in
  let '(item, baseline) :=
    if full_context then (Some (mkWorldStateItem true snapshot), Some snapshot)
    else update_world_state baseline snapshot in
  (match item with Some item => [StateRecord item] | None => [] end, baseline).

(** Between the steps of a turn, against the state of the step before. *)
Definition record_step_world_state (previous world : list (str * option Json)) : list WorldRecord * option WorldSnapshot :=
  let snapshot := world_snapshot world in
  (match merge_patch_from snapshot (world_snapshot previous) with
   | Some patch => [StateRecord (mkWorldStateItem false patch)]
   | None => []
   end, Some snapshot).

(** A compaction, with the state its history has been given again, if any. *)
Definition record_compaction (world : option (list (str * option Json))) : list WorldRecord * option WorldSnapshot :=
  match world with
  | Some world =>
      let snapshot := world_snapshot world in
      ([CompactedRecord; StateRecord (mkWorldStateItem true snapshot)], Some snapshot)
  | None => ([CompactedRecord], None)
  end.

(** The records of an event and the baseline after it. *)
Definition record_event (baseline : option WorldSnapshot) (e : WorldEvent) : list WorldRecord * option WorldSnapshot :=
  match e with
  | TurnBegins full_context world => record_turn_context full_context world baseline
  | StepChanges previous world => record_step_world_state previous world
  | Compacts world => record_compaction world
  end.

Fixpoint record_events (baseline : option WorldSnapshot) (l : list WorldEvent) : list WorldRecord * option WorldSnapshot :=
  match l with
  | [] => ([], baseline)
  | e :: l =>
      let '(records, baseline) := record_event baseline e in
      let '(more, baseline) := record_events baseline l in
      (records ++ more, baseline)
  end.


(** ** Well-formed values *)

Implicit Types (a b c v w t : Json) (k : str).

(** The fields of an object have distinct names, everywhere. *)
Fixpoint wf_json (v : Json) : Prop :=
  match v with
  | JArray l => (fix all (l : list Json) : Prop := match l with [] => True | x :: l => wf_json x /\ all l end) l
  | JObject m =>
      List.NoDup (map fst m)
      /\ (fix all (m : Map) : Prop := match m with [] => True | (_, x) :: m => wf_json x /\ all m end) m
  | _ => True
  end.

(** No field of an object is null; what is in an array does not matter. *)
Fixpoint clean (v : Json) : Prop :=
  match v with
  | JObject m =>
      (fix all (m : Map) : Prop :=
         match m with [] => True | (_, x) :: m => is_null x = false /\ clean x /\ all m end) m
  | _ => True
  end.

Lemma Json_nested_ind (P : Json -> Prop) :
  P JNull -> (forall x : bool, P (JBool x)) -> (forall n, P (JNumber n)) -> (forall s, P (JString s)) ->
  (forall l, (forall x, In x l -> P x) -> P (JArray l)) ->
  (forall m, (forall k x, In (k, x) m -> P x) -> P (JObject m)) -> forall v, P v.
Proof.
  intros Hn Hb Hu Hs Ha Ho. fix IH 1. intros [|b|n|s|l|m]; [done|done|done|done| |].
  - apply Ha. induction l as [|x l IHl]; [intros x []|]. intros y [<-|Hy]; [apply IH|exact (IHl y Hy)].
  - apply Ho. induction m as [|[k' x] m IHm]; [intros k x []|]. intros k y [Heq|Hy]; [|exact (IHm k y Hy)].
    injection Heq as <- <-. apply IH.
Qed.

Lemma wf_array l : wf_json (JArray l) <-> forall x, In x l -> wf_json x.
Proof.
  simpl. induction l as [|x l IH]; [by split; [intros _ x []|]|]. rewrite IH. split.
  - intros [Hx Hl] y [<-|Hy]; auto.
  - intros Hall. split; [by apply Hall; left|]. intros y Hy. apply Hall. by right.
Qed.

Lemma wf_object (m : Map) : wf_json (JObject m) <-> List.NoDup (map fst m) /\ forall k x, In (k, x) m -> wf_json x.
Proof.
  assert (Hall : (fix all (m : Map) : Prop := match m with [] => True | (_, x) :: m => wf_json x /\ all m end) m
            <-> forall k x, In (k, x) m -> wf_json x).
  { induction m as [|[k x] m IH]; [by split; [intros _ k x []|]|]. rewrite IH. split.
    - intros [Hx Hm] k' y [[= <- <-]|Hy]; [done|by apply (Hm k')].
    - intros Hall. split; [apply (Hall k); by left|]. intros k' y Hy. apply (Hall k'). by right. }
  simpl. by rewrite Hall.
Qed.

Lemma clean_object (m : Map) : clean (JObject m) <-> forall k x, In (k, x) m -> is_null x = false /\ clean x.
Proof.
  simpl. induction m as [|[k x] m IH]; [by split; [intros _ k x []|]|]. rewrite IH. split.
  - intros (Hx & Hc & Hm) k' y [[= <- <-]|Hy]; [done|by apply (Hm k')].
  - intros Hall. split_and!; [apply (Hall k); by left..|]. intros k' y Hy. apply (Hall k'). by right.
Qed.

(** ** Fields *)

Lemma get_In k (m : Map) v : get k m = Some v -> In (k, v) m.
Proof.
  induction m as [|[k' w] m IH]; [done|]. simpl. case_bool_decide as E; [intros [= ->]; subst; by left|].
  intros Hg. right. by apply IH.
Qed.

Lemma In_get k (m : Map) v : List.NoDup (map fst m) -> In (k, v) m -> get k m = Some v.
Proof.
  induction m as [|[k' w] m IH]; [done|]. simpl. intros Hnd [[= -> ->]|Hin]; inversion_clear Hnd as [|? ? Hk Hm].
  - by rewrite bool_decide_true.
  - case_bool_decide as E; [subst; destruct Hk; by apply (in_map fst _ (k, v))|by apply IH].
Qed.

Lemma get_None k (m : Map) : get k m = None <-> ~ In k (map fst m).
Proof.
  induction m as [|[k' w] m IH]; [split; [by intros _ []|done]|]. simpl. case_bool_decide as E.
  - split; [done|]. intros Hn. destruct Hn. by left.
  - rewrite IH. split; [intros Hn [|]; [done|by apply Hn]|naive_solver].
Qed.

Lemma get_key k (m : Map) v : get k m = Some v -> In k (map fst m).
Proof. intros Hg%get_In. by apply (in_map fst) in Hg. Qed.

Lemma get_insert k k' v (m : Map) : get k (insert k' v m) = if bool_decide (k' = k) then Some v else get k m.
Proof.
  induction m as [|[k2 w] m IH]; [done|]. simpl. destruct (decide (k2 = k')) as [->|Hne].
  - rewrite (bool_decide_true (k' = k')) by done. simpl. by case_bool_decide.
  - rewrite (bool_decide_false (k2 = k')) by done. simpl. rewrite IH. repeat case_bool_decide; congruence.
Qed.

Lemma insert_keys k v (m : Map) : map fst (insert k v m) = if contains_key m k then map fst m else map fst m ++ [k].
Proof.
  unfold contains_key. induction m as [|[k' w] m IH]; [done|]. simpl. case_bool_decide as E; [done|].
  simpl. rewrite IH. by destruct (is_some _).
Qed.

Lemma insert_NoDup k v (m : Map) : List.NoDup (map fst m) -> List.NoDup (map fst (insert k v m)).
Proof.
  intros Hm. rewrite insert_keys. unfold contains_key. destruct (get k m) eqn:Eg; [done|]. simpl.
  apply get_None in Eg. apply List.NoDup_app; [done|by repeat constructor; intros []|]. by intros x Hx [<-|[]].
Qed.

Lemma remove_sub k k' (m : Map) : In k (map fst (remove_field k' m)) -> In k (map fst m).
Proof.
  induction m as [|[k2 w] m IH]; [done|]. simpl. case_bool_decide; [by right|].
  intros [|Hin]; [by left|right; by apply IH].
Qed.

Lemma get_remove k k' (m : Map) :
  List.NoDup (map fst m) -> get k (remove_field k' m) = if bool_decide (k' = k) then None else get k m.
Proof.
  induction m as [|[k2 w] m IH]; [by case_bool_decide|]. simpl. intros Hnd. inversion_clear Hnd as [|? ? Hk Hm].
  destruct (decide (k2 = k')) as [->|Hne].
  - rewrite (bool_decide_true (k' = k')) by done. case_bool_decide as E'; [|done]. subst. by apply get_None.
  - rewrite (bool_decide_false (k2 = k')) by done. simpl. rewrite IH by done. repeat case_bool_decide; congruence.
Qed.

Lemma remove_NoDup k (m : Map) : List.NoDup (map fst m) -> List.NoDup (map fst (remove_field k m)).
Proof.
  induction m as [|[k2 w] m IH]; [done|]. simpl. intros Hnd. inversion_clear Hnd as [|? ? Hk Hm].
  case_bool_decide; [done|]. simpl. constructor; [|by apply IH]. by intros Hin%remove_sub.
Qed.

(** ** Equality of values *)

(** The same fields, with equal values. *)
Definition same_fields (m n : Map) : Prop :=
  forall k, match get k m, get k n with
            | Some x, Some y => json_eqb x y = true
            | None, None => True
            | _, _ => False
            end.

Lemma eqb_array_cons x y (l m : list Json) :
  json_eqb (JArray (x :: l)) (JArray (y :: m)) = json_eqb x y && json_eqb (JArray l) (JArray m).
Proof. done. Qed.

Lemma eqb_object (m n : Map) :
  List.NoDup (map fst m) -> List.NoDup (map fst n) ->
  json_eqb (JObject m) (JObject n) = true <-> same_fields m n.
Proof.
  intros Hm Hn. set (go := fix go (f : Map) : bool :=
    match f with
    | [] => true
    | (k, v) :: f => match get k n with Some w => json_eqb v w | None => false end && go f
    end).
  assert (Hgo : forall f, go f = true <-> forall k x, In (k, x) f -> exists y, get k n = Some y /\ json_eqb x y = true).
  { induction f as [|[k x] f IH]; [by split; [intros _ k x []|]|]. cbn [go]. fold go. rewrite andb_true_iff, IH. split.
    - intros [Hx Hf] k' y [[= <- <-]|Hin]; [|by apply Hf]. destruct (get k n) as [w|]; [by exists w|done].
    - intros Hall. split; [|intros k' y Hin; apply Hall; by right].
      destruct (Hall k x (or_introl eq_refl)) as (y & -> & ?). done. }
  change (json_eqb (JObject m) (JObject n)) with ((length m =? length n) && go m).
  rewrite andb_true_iff, Nat.eqb_eq, Hgo. split.
  - intros [Hlen Hall] k. destruct (get k m) as [x|] eqn:Ex.
    + apply get_In in Ex. by destruct (Hall k x Ex) as (y & -> & ?).
    + destruct (get k n) as [y|] eqn:Ey; [|done]. apply get_None in Ex. apply get_key in Ey.
      assert (Hincl : incl (map fst n) (map fst m)).
      { apply NoDup_length_incl; [done|rewrite !length_map; lia|]. intros k' Hk'.
        apply in_map_iff in Hk' as ([k2 x] & <- & Hin). destruct (Hall _ _ Hin) as (w & Hw & _).
        by apply get_key in Hw. }
      by apply Ex, Hincl.
  - intros Hsame. split.
    + assert (Hl : forall k, In k (map fst m) <-> In k (map fst n)).
      { intros k. specialize (Hsame k). destruct (get k m) eqn:Ex, (get k n) eqn:Ey; try done.
        - apply get_key in Ex, Ey. done.
        - apply get_None in Ex, Ey. done. }
      pose proof (NoDup_incl_length Hm (fun k => proj1 (Hl k))) as H1.
      pose proof (NoDup_incl_length Hn (fun k => proj2 (Hl k))) as H2. rewrite !length_map in *. lia.
    + intros k x Hin. specialize (Hsame k). rewrite (In_get k m x Hm Hin) in Hsame.
      destruct (get k n) as [y|]; [by exists y|done].
Qed.

Lemma eqb_refl v : wf_json v -> json_eqb v v = true.
Proof.
  induction v as [|x|n|s|l IH|m IH] using Json_nested_ind; intros Hwf; simpl; try done; try (by apply bool_decide_eq_true).
  - rewrite wf_array in Hwf. change (json_eqb (JArray l) (JArray l) = true).
    induction l as [|x l IHl]; [done|]. rewrite eqb_array_cons, IH, IHl; [done| | | |].
    + intros y Hy. apply IH. by right.
    + intros y Hy. apply Hwf. by right.
    + by left.
    + apply Hwf. by left.
  - apply wf_object in Hwf as [Hnd Hall]. change (json_eqb (JObject m) (JObject m) = true).
    apply eqb_object; [done..|]. intros k. destruct (get k m) as [x|] eqn:Ex; [|done].
    apply get_In in Ex. apply (IH k x Ex). by apply (Hall k).
Qed.

Lemma eqb_trans v : forall w u, wf_json v -> wf_json w -> wf_json u ->
  json_eqb v w = true -> json_eqb w u = true -> json_eqb v u = true.
Proof.
  induction v as [|x|n|s|l IH|m IH] using Json_nested_ind; intros w u Hv Hw Hu Hvw Hwu.
  1-4: by destruct w; try done; destruct u; try done; simpl in *; rewrite bool_decide_eq_true in *; congruence.
  - destruct w as [| | | |l2|]; try done. destruct u as [| | | |l3|]; try done.
    rewrite wf_array in Hv, Hw, Hu. revert l2 l3 Hw Hu Hvw Hwu.
    induction l as [|x l IHl]; intros [|y l2] [|z l3] Hw Hu Hvw Hwu; try done.
    rewrite eqb_array_cons in *. apply andb_true_iff in Hvw as [Hxy Hl], Hwu as [Hyz Hl'].
    apply andb_true_iff. split.
    + apply (IH x (or_introl eq_refl) y z); auto; [apply Hv|apply Hw|apply Hu]; by left.
    + apply (IHl) with l2; try done; intros t Ht; [apply IH|apply Hv|apply Hw|apply Hu]; by right.
  - destruct w as [| | | | |m2]; try done. destruct u as [| | | | |m3]; try done.
    apply wf_object in Hv as [Hn1 Hv], Hw as [Hn2 Hw], Hu as [Hn3 Hu].
    apply eqb_object in Hvw, Hwu; [|done..]. apply eqb_object; [done..|]. intros k. specialize (Hvw k). specialize (Hwu k).
    destruct (get k m) as [x|] eqn:E1, (get k m2) as [y|] eqn:E2, (get k m3) as [z|] eqn:E3; try done.
    apply get_In in E1, E2, E3. apply (IH k x E1 y z); eauto.
Qed.

(** ** Applying a patch *)

Lemma apply_object (patch : Map) t :
  apply_merge_patch_value t (JObject patch) = JObject (apply_merge_patch (default [] (as_object t)) patch).
Proof.
  simpl. f_equal. generalize (default [] (as_object t)). unfold apply_merge_patch.
  induction patch as [|[k v] patch IH]; intros m; [done|]. simpl. by rewrite IH.
Qed.

(** The fields after a patch. *)
Lemma apply_fields (patch m : Map) :
  List.NoDup (map fst patch) -> List.NoDup (map fst m) ->
  List.NoDup (map fst (apply_merge_patch m patch))
  /\ forall k, get k (apply_merge_patch m patch)
      = match get k patch with
        | Some v => if is_null v then None else Some (apply_merge_patch_value (default JNull (get k m)) v)
        | None => get k m
        end.
Proof.
  unfold apply_merge_patch. revert m. induction patch as [|[k v] patch IH]; intros m Hp Hm; [done|].
  inversion_clear Hp as [|? ? Hk Hp']. cbn [fold_left].
  set (m' := if is_null (k, v).2 then _ else _).
  assert (Hm' : List.NoDup (map fst m')) by (unfold m'; simpl; destruct (is_null v); [by apply remove_NoDup|by apply insert_NoDup]).
  assert (Hg : forall k', get k' m' = if bool_decide (k = k')
            then if is_null v then None else Some (apply_merge_patch_value (default JNull (get k m)) v) else get k' m).
  { intros k'. unfold m'. simpl. destruct (is_null v); [by rewrite get_remove|].
    rewrite get_insert. by case_bool_decide. }
  destruct (IH m' Hp' Hm') as [Hnd Hget]. split; [done|]. intros k'. rewrite Hget, !Hg. simpl.
  case_bool_decide as E; [|done]. subst k'. apply get_None in Hk. by rewrite Hk.
Qed.

(** A clean value applied to nothing gives the value. *)
Lemma apply_clean v : forall t, wf_json v -> clean v -> as_object t = None ->
  wf_json (apply_merge_patch_value t v) /\ json_eqb (apply_merge_patch_value t v) v = true.
Proof.
  induction v as [|x|n|s|l IH|m IH] using Json_nested_ind; intros t Hwf Hc Ht.
  1-5: by split; [|apply (eqb_refl _ Hwf)].
  rewrite apply_object, Ht. pose proof Hwf as [Hnd Hall]%wf_object. pose proof (proj1 (clean_object m) Hc) as Hcl.
  destruct (apply_fields m [] Hnd (List.NoDup_nil _)) as [Hnd' Hget].
  assert (Hx : forall k x, get k m = Some x -> is_null x = false
            /\ wf_json (apply_merge_patch_value JNull x) /\ json_eqb (apply_merge_patch_value JNull x) x = true).
  { intros k x Hk%get_In. destruct (Hcl k x Hk) as [Hnull Hcx]. split; [done|].
    apply (IH k x Hk); [by apply (Hall k)|done|done]. }
  split.
  - apply wf_object. split; [done|]. intros k y Hy. apply In_get in Hy; [|done]. rewrite Hget in Hy.
    destruct (get k m) as [x|] eqn:Ex; [|done]. destruct (Hx k x Ex) as (Hn & Hw & _). rewrite Hn in Hy.
    by injection Hy as <-.
  - apply eqb_object; [done..|]. intros k. rewrite Hget. destruct (get k m) as [x|] eqn:Ex; [|done].
    destruct (Hx k x Ex) as (-> & _ & ?). done.
Qed.

(** ** Creating a patch *)

(** The fields a patch has after its removals. *)
Definition add_changes (previous : option Map) (current patch : Map) : Map :=
  fold_left (fun patch kv =>
    match previous ≫= get kv.1 with
    | None => insert kv.1 kv.2 patch
    | Some w => match create_merge_patch w kv.2 with Some p => insert kv.1 p patch | None => patch end
    end) current patch.

Lemma create_object previous (current : Map) :
  create_merge_patch previous (JObject current)
  = if json_eqb previous (JObject current) then None
    else Some (JObject (add_changes (as_object previous) current
                          match as_object previous with Some previous => removals previous current | None => [] end)).
Proof.
  cbn [create_merge_patch]. destruct (json_eqb previous (JObject current)); [done|]. do 2 f_equal.
  generalize (match as_object previous with Some previous => removals previous current | None => [] end).
  generalize (as_object previous). intros pre. clear previous. unfold add_changes.
  induction current as [|[k v] current IH]; intros patch; [done|]. by apply IH.
Qed.

Lemma removals_fields (previous current : Map) :
  List.NoDup (map fst (removals previous current))
  /\ forall k, get k (removals previous current)
      = if contains_key previous k && negb (contains_key current k) then Some JNull else None.
Proof.
  unfold removals.
  assert (Hgen : forall patch, List.NoDup (map fst patch) ->
    let r := fold_left (fun patch kv => if contains_key current kv.1 then patch else insert kv.1 JNull patch) previous patch in
    List.NoDup (map fst r)
    /\ forall k, get k r = if contains_key previous k && negb (contains_key current k) then Some JNull else get k patch).
  { induction previous as [|[k v] previous IH]; intros patch Hp; [done|]. cbn [fold_left].
    set (patch' := if contains_key current (k, v).1 then patch else _).
    assert (Hp' : List.NoDup (map fst patch')) by (unfold patch'; destruct (contains_key _ _); [done|by apply insert_NoDup]).
    destruct (IH patch' Hp') as [Hnd Hget]. split; [done|]. intros k'. rewrite Hget. unfold contains_key at 3. simpl.
    unfold patch'. simpl. case_bool_decide as E.
    - subst k'. simpl. unfold contains_key. destruct (get k current); simpl; [by rewrite !andb_false_r|].
      rewrite get_insert, bool_decide_true by done. by destruct (is_some _).
    - unfold contains_key. destruct (get k current); simpl; [done|].
      by rewrite get_insert, bool_decide_false by done. }
  destruct (Hgen [] (List.NoDup_nil _)) as [Hnd Hget]. split; [done|]. intros k. by rewrite Hget.
Qed.

Lemma add_changes_fields (previous : option Map) (current patch : Map) :
  List.NoDup (map fst current) -> List.NoDup (map fst patch) ->
  List.NoDup (map fst (add_changes previous current patch))
  /\ forall k, get k (add_changes previous current patch)
      = match get k current with
        | None => get k patch
        | Some v =>
            match previous ≫= get k with
            | None => Some v
            | Some w => match create_merge_patch w v with Some p => Some p | None => get k patch end
            end
        end.
Proof.
  unfold add_changes. revert patch. induction current as [|[k v] current IH]; intros patch Hc Hp; [done|].
  inversion_clear Hc as [|? ? Hk Hc']. cbn [fold_left].
  set (patch' := match previous ≫= get (k, v).1 with Some _ => _ | None => _ end).
  assert (Hp' : List.NoDup (map fst patch')).
  { unfold patch'. destruct (_ ≫= _); [destruct (create_merge_patch _ _)|]; try done; by apply insert_NoDup. }
  destruct (IH patch' Hc' Hp') as [Hnd Hget]. split; [done|]. intros k'. rewrite Hget. simpl.
  case_bool_decide as E.
  - subst k'. apply get_None in Hk. rewrite Hk. unfold patch'. simpl. destruct (previous ≫= get k) as [w|].
    + destruct (create_merge_patch w v); [|done]. by rewrite get_insert, bool_decide_true.
    + by rewrite get_insert, bool_decide_true.
  - assert (Hsame : get k' patch' = get k' patch); [|by rewrite Hsame].
    unfold patch'. simpl. destruct (previous ≫= get k) as [w|]; [destruct (create_merge_patch w v)|]; try done;
      by rewrite get_insert, bool_decide_false.
Qed.

(** ** A created patch, applied *)

Lemma create_null previous v p : create_merge_patch previous v = Some p -> is_null p = is_null v.
Proof.
  destruct v as [| | | | |m]; [..|rewrite create_object]; simpl; destruct (json_eqb previous _); try done; by intros [= <-].
Qed.

(** [v] is what the patch from [previous] to [v] makes of anything equal to
    [previous]. *)
Definition patch_works v : Prop :=
  forall previous t, wf_json previous -> wf_json t -> json_eqb t previous = true ->
    match create_merge_patch previous v with
    | None => json_eqb t v = true
    | Some p => wf_json (apply_merge_patch_value t p) /\ json_eqb (apply_merge_patch_value t p) v = true
    end.

Definition field_patch (previous : option Map) (current : Map) : Map :=
  add_changes previous current (match previous with Some previous => removals previous current | None => [] end).

Lemma field_patch_works (previous : option Map) (current m : Map) :
  wf_json (JObject current) -> clean (JObject current) ->
  wf_json (JObject (default [] previous)) -> wf_json (JObject m) -> same_fields m (default [] previous) ->
  (forall k v, In (k, v) current -> patch_works v) ->
  let r := apply_merge_patch m (field_patch previous current) in
  wf_json (JObject r) /\ same_fields r current.
Proof.
  intros [Hnc Hwc]%wf_object Hcl [Hnp Hwp]%wf_object [Hnm Hwm]%wf_object Hsame IH r.
  rewrite clean_object in Hcl.
  set (removed := match previous with Some p => removals p current | None => [] end).
  assert (Hrem : List.NoDup (map fst removed)
    /\ forall k, get k removed = if contains_key (default [] previous) k && negb (contains_key current k) then Some JNull else None).
  { unfold removed. destruct previous as [p|]; [apply removals_fields|]. split; [constructor|done]. }
  destruct Hrem as [Hnr Hgr]. destruct (add_changes_fields previous current removed Hnc Hnr) as [Hnpatch Hgpatch].
  destruct (apply_fields (field_patch previous current) m Hnpatch Hnm) as [Hnres Hgres].
  assert (Hprev : forall k, previous ≫= get k = get k (default [] previous)) by (intros; by destruct previous).
  assert (Hfield : forall k, match get k r, get k current with
            | Some x, Some y => wf_json x /\ json_eqb x y = true
            | None, None => True
            | _, _ => False
            end).
  { intros k. unfold r. rewrite Hgres. unfold field_patch. fold removed. rewrite Hgpatch, Hgr, Hprev. specialize (Hsame k).
    destruct (get k current) as [v|] eqn:Ev.
    - assert (Hin := get_In _ _ _ Ev). destruct (Hcl k v Hin) as [Hnull Hclv]. specialize (Hwc k v Hin).
      destruct (get k (default [] previous)) as [w|] eqn:Ew.
      + destruct (get k m) as [t|] eqn:Et; [|done]. pose proof (IH k v Hin w t) as Hworks.
        specialize (Hworks (Hwp k w (get_In _ _ _ Ew)) (Hwm k t (get_In _ _ _ Et)) Hsame).
        destruct (create_merge_patch w v) as [q|] eqn:Eq; [by rewrite (create_null _ _ _ Eq), Hnull|].
        unfold contains_key. rewrite Ev. simpl. rewrite andb_false_r. split; [|done]. apply (Hwm k), (get_In _ _ _ Et).
      + destruct (get k m); [done|]. rewrite Hnull. by apply apply_clean.
    - destruct (get k (default [] previous)) as [w|] eqn:Ew; unfold contains_key; rewrite Ew, Ev; simpl; [done|].
      by destruct (get k m). }
  split.
  - apply wf_object. split; [done|]. intros k x Hx. apply In_get in Hx; [|done]. specialize (Hfield k).
    rewrite Hx in Hfield. by destruct (get k current), Hfield.
  - intros k. specialize (Hfield k). destruct (get k r), (get k current); naive_solver.
Qed.

Lemma patches_work v : wf_json v -> clean v -> patch_works v.
Proof.
  induction v as [|x|n|s|l IH|m IH] using Json_nested_ind; intros Hwf Hc previous t Hp Ht Heq.
  1-5: cbn [create_merge_patch]; destruct (json_eqb previous _) eqn:E;
    [by apply (eqb_trans _ previous)|split; [done|by apply (eqb_refl _ Hwf)]].
  rewrite create_object. destruct (json_eqb previous (JObject m)) eqn:E; [by apply (eqb_trans _ previous)|].
  rewrite apply_object. fold (field_patch (as_object previous) m).
  assert (Hsame : wf_json (JObject (default [] (as_object t))) /\ wf_json (JObject (default [] (as_object previous)))
    /\ same_fields (default [] (as_object t)) (default [] (as_object previous))).
  { assert (Hnil : wf_json (JObject [])) by (apply wf_object; split; [constructor|by intros k x []]).
    destruct t as [| | | | |mt], previous as [| | | | |mp]; try done. split_and!; [done|done|]. simpl.
    apply eqb_object; [by apply wf_object in Ht as [? _]|by apply wf_object in Hp as [? _]|done]. }
  destruct Hsame as (Hwt & Hwp & Hs).
  destruct (field_patch_works (as_object previous) m (default [] (as_object t)) Hwf Hc Hwp Hwt Hs) as [Hwr Hsr].
  { intros k v Hin. apply (IH k v Hin); [by apply wf_object in Hwf as [_ Hall]; apply (Hall k)|].
    by apply (proj1 (clean_object m) Hc k v Hin). }
  split; [done|]. apply eqb_object; [by apply wf_object in Hwr as [? _]|by apply wf_object in Hwf as [? _]|done].
Qed.

(** ** Snapshots *)

Definition good_snapshot (s : WorldSnapshot) : Prop := wf_json (JObject s) /\ clean (JObject s).

Lemma merge_patch_from_eq (self previous : WorldSnapshot) :
  merge_patch_from self previous
  = let patch := field_patch (Some previous) self in if is_empty patch then None else Some patch.
Proof. done. Qed.

(** Anything equal to the previous snapshot becomes the new one. *)
Lemma snapshot_patch (self previous m : WorldSnapshot) :
  good_snapshot self -> wf_json (JObject previous) -> wf_json (JObject m) -> same_fields m previous ->
  let r := match merge_patch_from self previous with Some patch => apply_merge_patch m patch | None => m end in
  wf_json (JObject r) /\ same_fields r self.
Proof.
  intros [Hw Hc] Hp Hm Hs. rewrite merge_patch_from_eq.
  destruct (field_patch_works (Some previous) self m Hw Hc Hp Hm Hs) as [Hwr Hsr].
  { intros k v Hin. apply patches_work; [by apply wf_object in Hw as [_ Hall]; apply (Hall k)|].
    by apply (proj1 (clean_object self) Hc k v Hin). }
  cbn zeta. destruct (field_patch (Some previous) self) eqn:E; [|done]. by split.
Qed.

Lemma remove_null_clean v : wf_json v ->
  wf_json (remove_null_object_fields v) /\ (is_null (remove_null_object_fields v) = is_null v)
  /\ clean (remove_null_object_fields v).
Proof.
  induction v as [|x|n|s|l _|m IH] using Json_nested_ind; intros Hwf; try done.
  set (go := fix go (m : Map) : Map :=
    match m with [] => [] | (k, v) :: m => if is_null v then go m else (k, remove_null_object_fields v) :: go m end).
  change (remove_null_object_fields (JObject m)) with (JObject (go m)). apply wf_object in Hwf as [Hnd Hwf].
  assert (Hgo : (forall k x, In (k, x) (go m) -> wf_json x /\ is_null x = false /\ clean x)
            /\ (forall k, In k (map fst (go m)) -> In k (map fst m)) /\ List.NoDup (map fst (go m))).
  { induction m as [|[k v] m IHm]; [split_and!; [by intros k x []|done|constructor]|].
    inversion_clear Hnd as [|? ? Hk Hnd'].
    destruct IHm as (Ha & Hb & Hc); [intros k' x Hx; apply (IH k'); by right|done|intros k' x Hx; apply (Hwf k'); by right|].
    cbn [go]. fold go. destruct (is_null v) eqn:En; [split_and!; [done|intros k' ?; right; by apply Hb|done]|].
    destruct (IH k v (or_introl eq_refl) (Hwf k v (or_introl eq_refl))) as (Hv1 & Hv2 & Hv3). split_and!.
    - intros k' x [[= <- <-]|Hx]; [by rewrite Hv2|by apply (Ha k')].
    - intros k' [<-|Hk']; [by left|right; by apply Hb].
    - simpl. constructor; [|done]. by intros Hin%Hb. }
  destruct Hgo as (Ha & Hb & Hc). split_and!; [|done|].
  - apply wf_object. split; [done|]. by intros k x (? & _ & _)%Ha.
  - apply clean_object. by intros k x (_ & ? & ?)%Ha.
Qed.

(** Sections as serde_json makes them, with distinct names. *)
Definition wf_world (sections : list (str * option Json)) : Prop :=
  List.NoDup (map fst sections) /\ forall k v, In (k, Some v) sections -> wf_json v.

Lemma world_snapshot_In sections k v :
  In (k, v) (world_snapshot sections) -> exists o, In (k, o) sections /\ section_snapshot o = Some v.
Proof.
  unfold world_snapshot. intros Hin%list_elem_of_In%list_elem_of_omap.
  destruct Hin as ([k' o] & Ho & Heq). simpl in Heq. destruct (section_snapshot o) as [w|] eqn:E; [|done].
  injection Heq as <- <-. exists o. by rewrite <- list_elem_of_In.
Qed.

Lemma world_snapshot_good sections : wf_world sections -> good_snapshot (world_snapshot sections).
Proof.
  intros [Hnd Hwf].
  assert (Hv : forall k v, In (k, v) (world_snapshot sections) -> wf_json v /\ is_null v = false /\ clean v).
  { intros k v Hin. apply world_snapshot_In in Hin as (o & Ho & Hs). destruct o as [w|]; [|done].
    destruct (remove_null_clean w (Hwf k w Ho)) as (H1 & H2 & H3). unfold section_snapshot in Hs. simpl in Hs.
    destruct (is_null (remove_null_object_fields w)) eqn:E; [done|]. by injection Hs as <-. }
  split; [|by apply clean_object; intros k v (_ & ? & ?)%Hv].
  apply wf_object. split; [|by intros k v (? & _ & _)%Hv]. clear Hwf Hv.
  induction sections as [|[k o] sections IH]; [constructor|]. inversion_clear Hnd as [|? ? Hk Hnd'].
  unfold world_snapshot. simpl. destruct (section_snapshot o); simpl; [|by apply IH].
  constructor; [|by apply IH]. intros Hin. apply Hk. apply in_map_iff in Hin as ([k' v] & <- & Hin).
  destruct (world_snapshot_In sections k' v Hin) as (o' & Ho & _). by apply (in_map fst _ (k', o')).
Qed.

(** ** Recording and replaying *)

(** Baselines that compare equal. *)
Definition same_baseline (replayed live : option WorldSnapshot) : Prop :=
  match replayed, live with
  | Some m, Some n => wf_json (JObject m) /\ wf_json (JObject n) /\ same_fields m n
  | None, None => True
  | _, _ => False
  end.

Definition event_worlds (e : WorldEvent) : list (list (str * option Json)) :=
  match e with
  | TurnBegins _ world => [world]
  | StepChanges previous world => [previous; world]
  | Compacts world => match world with Some world => [world] | None => [] end
  end.

(** A step compares with what was recorded last. *)
Fixpoint in_step (baseline : option WorldSnapshot) (l : list WorldEvent) : Prop :=
  match l with
  | [] => True
  | e :: l =>
      (forall world, In world (event_worlds e) -> wf_world world)
      /\ match e with StepChanges previous _ => baseline = Some (world_snapshot previous) | _ => True end
      /\ in_step (record_event baseline e).2 l
  end.

Lemma good_same (s : WorldSnapshot) : good_snapshot s -> same_baseline (Some s) (Some s).
Proof.
  intros [Hw Hc]. split_and!; [done|done|]. pose proof Hw as [Hnd _]%wf_object. apply eqb_object; [done..|].
  by apply eqb_refl.
Qed.

Lemma patched_same replayed (previous self : WorldSnapshot) :
  same_baseline replayed (Some previous) -> good_snapshot self ->
  same_baseline
    (fold_left replay_record
       (match merge_patch_from self previous with
        | Some patch => [StateRecord (mkWorldStateItem false patch)]
        | None => []
        end) replayed) (Some self).
Proof.
  destruct replayed as [m|]; [|done]. intros (Hm & Hp & Hs) Hself.
  pose proof (snapshot_patch self previous m Hself Hp Hm Hs) as [Hw Hr]. destruct Hself as [Hws _].
  by destruct (merge_patch_from self previous); simpl.
Qed.

Lemma event_replays replayed baseline e :
  (forall world, In world (event_worlds e) -> wf_world world) ->
  match e with StepChanges previous _ => baseline = Some (world_snapshot previous) | _ => True end ->
  same_baseline replayed baseline ->
  same_baseline (fold_left replay_record (record_event baseline e).1 replayed) (record_event baseline e).2.
Proof.
  intros Hwf Hstep Hs. destruct e as [[] world|previous world|[world|]]; simpl in *.
  - by apply good_same, world_snapshot_good, Hwf; left.
  - destruct baseline as [b|].
    + simpl. pose proof (patched_same replayed b (world_snapshot world) Hs) as Hp.
      assert (Hg : good_snapshot (world_snapshot world)) by (by apply world_snapshot_good, Hwf; left).
      specialize (Hp Hg). by destruct (merge_patch_from (world_snapshot world) b).
    + destruct replayed; [done|]. simpl. by apply good_same, world_snapshot_good, Hwf; left.
  - subst baseline. apply patched_same; [done|]. by apply world_snapshot_good, Hwf; right; left.
  - by apply good_same, world_snapshot_good, Hwf; left.
  - done.
Qed.

Lemma events_replay l : forall replayed baseline,
  in_step baseline l -> same_baseline replayed baseline ->
  same_baseline (fold_left replay_record (record_events baseline l).1 replayed) (record_events baseline l).2.
Proof.
  induction l as [|e l IH]; intros replayed baseline Hin Hs; [done|]. destruct Hin as (Hwf & Hstep & Hin).
  pose proof (event_replays replayed baseline e Hwf Hstep Hs) as He. cbn [record_events].
  destruct (record_event baseline e) as [records b]. simpl in He, Hin.
  specialize (IH _ _ Hin He). destruct (record_events b l) as [more b']. simpl in *.
  by rewrite fold_left_app.
Qed.

(** ** Properties *)

(** A merge patch between snapshots applied to the first gives the second;
    where there is none the two are the same. *)
Theorem merge_patch_roundtrip (self previous : WorldSnapshot) :
  good_snapshot self -> wf_json (JObject previous) ->
  match merge_patch_from self previous with
  | Some patch => same_fields (apply_merge_patch previous patch) self
  | None => same_fields previous self
  end.
Proof.
  intros Hself Hp. pose proof Hp as [Hnd _]%wf_object.
  assert (Hs : same_fields previous previous) by (apply eqb_object; [done..|by apply eqb_refl]).
  destruct (snapshot_patch self previous previous Hself Hp Hp Hs) as [_ Hr].
  by destruct (merge_patch_from self previous).
Qed.

(** C11: Replaying what a session recorded about the state of the world, at any
    point and through any turns, steps and compactions, gives the state it then
    compares with, up to the order of fields: the resumed session tells the
    model exactly what the running one would have. *)
Theorem recorded_world_replays (l : list WorldEvent) :
  in_step None l ->
  same_baseline (replay_records (record_events None l).1) (record_events None l).2.
Proof. intros Hin. by apply events_replay. Qed.

End json.

(** ** Witnesses *)

Abbreviation NJson := (@Json N).

Definition shell_section (cwd : str) (extra : list (str * NJson)) : str * option NJson :=
  ($"shell", Some (JObject (($"cwd", JString cwd) :: ($"version", JNull) :: extra))).

Definition history_of_world : list (@WorldEvent N) :=
  [TurnBegins false [shell_section ($"/a") [($"tools", JArray [JNull; JObject [($"x", JNull)]])]];
   StepChanges [shell_section ($"/a") [($"tools", JArray [JNull; JObject [($"x", JNull)]])]]
     [shell_section ($"/b") []; ($"skills", Some (JString ($"none")))];
   Compacts (Some [shell_section ($"/c") []]);
   TurnBegins false [shell_section ($"/c") [($"limits", JObject [($"n", JNumber 3%N)])]]].

Example history_records :
  (record_events None history_of_world).1
  = [StateRecord (mkWorldStateItem true
       [($"shell", JObject [($"cwd", JString ($"/a")); ($"tools", JArray [JNull; JObject [($"x", JNull)]])])]);
     StateRecord (mkWorldStateItem false
       [($"shell", JObject [($"tools", JNull); ($"cwd", JString ($"/b"))]); ($"skills", JString ($"none"))]);
     CompactedRecord;
     StateRecord (mkWorldStateItem true [($"shell", JObject [($"cwd", JString ($"/c"))])]);
     StateRecord (mkWorldStateItem false [($"shell", JObject [($"limits", JObject [($"n", JNumber 3%N)])])])].
Proof. vm_compute. reflexivity. Qed.

Lemma recorded_world_replays_witness :
  replay_records (record_events None history_of_world).1
  = Some [($"shell", JObject [($"cwd", JString ($"/c")); ($"limits", JObject [($"n", JNumber 3%N)])])]
  /\ same_baseline (replay_records (record_events None history_of_world).1) (record_events None history_of_world).2.
Proof.
  split; [vm_compute; reflexivity|]. apply recorded_world_replays.
  assert (Hwf : forall cwd extra rest, wf_json (JObject (($"cwd", JString cwd) :: ($"version", JNull) :: extra)) ->
    (rest = [] \/ rest = [($"skills", Some (JString ($"none")))]) -> wf_world (shell_section cwd extra :: rest)).
  { intros cwd extra rest Hx [->| ->]; split; simpl.
    - repeat constructor; intros [].
    - intros k v [[= <- <-]|[]]. exact Hx.
    - repeat constructor; [intros [|[]]; discriminate|intros []].
    - intros k v [[= <- <-]|[[= <- <-]|[]]]; [exact Hx|exact I]. }
  cbn [in_step history_of_world record_event].
  split_and!; try exact I; try reflexivity; intros world Hw; simpl in Hw;
    repeat (destruct Hw as [<-|Hw]; [apply Hwf; [simpl; split_and!; try exact I; repeat constructor; simpl; intuition discriminate|auto]|]);
    destruct Hw.
Defined.
