(* ===== verification/RolloutReplay.v ===== *)
(** * Resuming from a rollout (core/src/session/rollout_reconstruction.rs)

    The log of a session is read from its end: items gather in the segment of
    their turn until the start of the turn is met, then the segment is counted,
    or skipped when a rollback removed it; reading stops once an older item can
    no longer matter.  Modelled is what is restored beside the history itself:
    the checkpoint the history is rebuilt from with the items after it, the
    settings and context of the last turn, the state of the world and the
    context window.  Which message texts are context and which are instructions
    of another agent is an argument, as is the uuid crate. *)

From S2P Require Import Prelude RustStr ResponseItem WorldState.

Definition USIZE_MAX : N := 18446744073709551615.

Definition saturating_add (a b : N) : N := N.min (a + b) USIZE_MAX.

Section replay.
Context {Json Number ToolCall Uuid TurnContextRest : Type}.
Abbreviation Item := (@ResponseItem.ResponseItem Json Number ToolCall).
Abbreviation Envelope := (@ResponseItem.ResponseItemEnvelope Json Number ToolCall).
Abbreviation WorldItem := (@WorldStateItem Number).
Abbreviation World := (@WorldSnapshot Number).
Context (is_contextual_user_message_content is_inter_agent_instruction_content : list ContentItem -> bool).
Context (parse_uuid : str -> option Uuid) (get_version_num : Uuid -> N).

(** ** The log (history/src/lib.rs, protocol/src/protocol.rs) *)

(** The fields of a turn's context that are looked at, and the others. *)
Record TurnContextItem : Type := mkTurnContext {
  context_turn_id : option str;
  context_model : str;
  context_comp_hash : option str;
  context_realtime_active : option bool;
  context_rest : TurnContextRest;
}.

Record CompactedItem : Type := mkCompacted {
  compacted_message : str;
  replacement_history : option (list Envelope);
  window_number : option N;
  first_window_id : option str;
  previous_window_id : option str;
  compacted_window_id : option str;
}.

Inductive EventMsg : Type :=
| ThreadRolledBack (num_turns : N)
| TurnStarted (turn_id : str)
| TurnComplete (turn_id : str)
| TurnAborted (turn_id : option str)
| UserMessage
| OtherEvent.

(** A message between agents comes as the item the model is given of it. *)
Inductive RolloutItem : Type :=
| SessionMeta (context_window_id : option str)
| ItemRecord (envelope : Envelope)
| InterAgentCommunication (model_input : Item)
| Compacted (item : CompactedItem)
| TurnContext (context : TurnContextItem)
| WorldStateRecord (item : WorldItem)
| Event (event : EventMsg)
| OtherRecord.

(** [is_user_turn_boundary] (context_manager/history.rs). *)
Definition is_user_turn_boundary (item : Item) : bool :=
  match item with
  | ResponseItem.AgentMessage _ _ _ _ _ => true
  | ResponseItem.Message _ role content _ _ =>
      bool_decide (role = $"user") && negb (is_contextual_user_message_content content)
      || bool_decide (role = $"assistant") && is_inter_agent_instruction_content content
  | _ => false
  end.

(** ** Segments *)

Record PreviousTurnSettings : Type := mkSettings {
  settings_model : str;
  settings_comp_hash : option str;
  settings_realtime_active : option bool;
}.

Record ReconstructedWindow : Type := mkWindow {
  number : N;
  first_id : option Uuid;
  previous_id : option Uuid;
  window_uuid : option Uuid;
}.

Inductive TurnReferenceContextItem : Type :=
| NeverSet
| Cleared
| Latest (context : TurnContextItem).

Definition is_never_set (r : TurnReferenceContextItem) : bool := match r with NeverSet => true | _ => false end.
Definition is_cleared (r : TurnReferenceContextItem) : bool := match r with Cleared => true | _ => false end.

Record ReplayCheckpoint : Type := mkCheckpoint {
  checkpoint : CompactedItem;
  suffix : list RolloutItem;
}.

Record ActiveReplaySegment : Type := mkSegment {
  turn_id : option str;
  counts_as_user_turn : bool;
  segment_settings : option PreviousTurnSettings;
  segment_reference : TurnReferenceContextItem;
  segment_world : list (@WorldRecord Number);
  segment_base : option ReplayCheckpoint;
  segment_window : option ReconstructedWindow;
}.

Definition default_segment : ActiveReplaySegment := mkSegment None false None NeverSet [] None None.

Definition turn_ids_are_compatible (active item : option str) : bool :=
  match active, item with Some a, Some i => bool_decide (i = a) | _, _ => true end.

Definition parse_uuid_v7 (value : str) : option Uuid :=
  uuid ← parse_uuid value; if (get_version_num uuid =? 7)%N then Some uuid else None.

Definition set_turn_id (id : option str) (s : ActiveReplaySegment) : ActiveReplaySegment :=
  mkSegment (match turn_id s with Some t => Some t | None => id end) (counts_as_user_turn s) (segment_settings s)
    (segment_reference s) (segment_world s) (segment_base s) (segment_window s).

Definition set_user_turn (b : bool) (s : ActiveReplaySegment) : ActiveReplaySegment :=
  mkSegment (turn_id s) (counts_as_user_turn s || b) (segment_settings s) (segment_reference s) (segment_world s)
    (segment_base s) (segment_window s).

Definition push_world (r : @WorldRecord Number) (s : ActiveReplaySegment) : ActiveReplaySegment :=
  mkSegment (turn_id s) (counts_as_user_turn s) (segment_settings s) (segment_reference s) (segment_world s ++ [r])
    (segment_base s) (segment_window s).

Definition compacted_window (item : CompactedItem) : option ReconstructedWindow :=
  number ← window_number item;
  Some (mkWindow number (first_window_id item ≫= parse_uuid_v7) (previous_window_id item ≫= parse_uuid_v7)
          (compacted_window_id item ≫= parse_uuid_v7)).

(** A compaction; [later] are the items after it. *)
Definition see_compacted (item : CompactedItem) (later : list RolloutItem) (s : ActiveReplaySegment) : ActiveReplaySegment :=
  let s := push_world CompactedRecord s in
  mkSegment (turn_id s) (counts_as_user_turn s) (segment_settings s)
    (if is_never_set (segment_reference s) then Cleared else segment_reference s)
    (segment_world s)
    (match segment_base s with
     | Some base => Some base
     | None => if is_some (replacement_history item) then Some (mkCheckpoint item later) else None
     end)
    (match segment_window s with Some w => Some w | None => compacted_window item end).

Definition see_turn_context (context : TurnContextItem) (s : ActiveReplaySegment) : ActiveReplaySegment :=
  let s := set_turn_id (context_turn_id context) s in
  if turn_ids_are_compatible (turn_id s) (context_turn_id context)
  then mkSegment (turn_id s) (counts_as_user_turn s)
         (Some (mkSettings (context_model context) (context_comp_hash context) (context_realtime_active context)))
         (if is_never_set (segment_reference s) then Latest context else segment_reference s)
         (segment_world s) (segment_base s) (segment_window s)
  else s.

(** What an item that neither starts a turn nor rolls back does to the segment
    being gathered. *)
Definition gather (item : RolloutItem) (later : list RolloutItem) (active : option ActiveReplaySegment)
  : option ActiveReplaySegment :=
  let get_or_default := default default_segment active in
  match item with
  | Compacted item => Some (see_compacted item later get_or_default)
  | Event (TurnComplete id) => Some (set_turn_id (Some id) get_or_default)
  | Event (TurnAborted id) =>
      match active, id with
      | Some active, _ => Some (set_turn_id id active)
      | None, Some id => Some (set_turn_id (Some id) default_segment)
      | None, None => None
      end
  | Event UserMessage | InterAgentCommunication _ => Some (set_user_turn true get_or_default)
  | TurnContext context => Some (see_turn_context context get_or_default)
  | WorldStateRecord item => Some (push_world (StateRecord item) get_or_default)
  | ItemRecord envelope => Some (set_user_turn (is_user_turn_boundary (ResponseItem.item envelope)) get_or_default)
  | Event (ThreadRolledBack _) | Event (TurnStarted _) | Event OtherEvent | SessionMeta _ | OtherRecord => active
  end.

(** ** The scan *)

Record Scan : Type := mkScan {
  base_compaction : option ReplayCheckpoint;
  previous_turn_settings : option PreviousTurnSettings;
  reference_context_item : TurnReferenceContextItem;
  world_state_replay : list (@WorldRecord Number);
  window : option ReconstructedWindow;
  pending_rollback_turns : N;
  active_segment : option ActiveReplaySegment;
}.

Definition scan_start : Scan := mkScan None None NeverSet [] None 0 None.

(** [take_while] up to the first compaction. *)
Fixpoint before_compaction (l : list (@WorldRecord Number)) : list WorldItem :=
  match l with
  | StateRecord item :: l => item :: before_compaction l
  | _ => []
  end.

Definition has_context_baseline (s : ActiveReplaySegment) : bool :=
  counts_as_user_turn s || existsb full (before_compaction (segment_world s)).

(** [finalize_active_segment]; the segment is no longer active. *)
Definition finalize_active_segment (segment : ActiveReplaySegment) (s : Scan) : Scan :=
  if (0 <? pending_rollback_turns s)%N
  then mkScan (base_compaction s) (previous_turn_settings s) (reference_context_item s) (world_state_replay s)
         (window s)
         (if counts_as_user_turn segment then pending_rollback_turns s - 1 else pending_rollback_turns s)%N None
  else
    mkScan
      (match base_compaction s with Some b => Some b | None => segment_base segment end)
      (match previous_turn_settings s with
       | Some p => Some p
       | None => if has_context_baseline segment then segment_settings segment else None
       end)
      (if is_never_set (reference_context_item s)
          && (has_context_baseline segment || is_cleared (segment_reference segment))
       then segment_reference segment else reference_context_item s)
      (world_state_replay s ++ segment_world segment)
      (match window s with Some w => Some w | None => segment_window segment end)
      (pending_rollback_turns s) None.

Definition set_active (active : option ActiveReplaySegment) (s : Scan) : Scan :=
  mkScan (base_compaction s) (previous_turn_settings s) (reference_context_item s) (world_state_replay s) (window s)
    (pending_rollback_turns s) active.

Definition add_pending (num_turns : N) (s : Scan) : Scan :=
  mkScan (base_compaction s) (previous_turn_settings s) (reference_context_item s) (world_state_replay s) (window s)
    (saturating_add (pending_rollback_turns s) num_turns) (active_segment s).

(** One item; [later] are the items after it. *)
Definition scan_item (item : RolloutItem) (later : list RolloutItem) (s : Scan) : Scan :=
  match item with
  | Event (ThreadRolledBack num_turns) => add_pending num_turns s
  | Event (TurnStarted id) =>
      match active_segment s with
      | Some segment =>
          if turn_ids_are_compatible (turn_id segment) (Some id) then finalize_active_segment segment s else s
      | None => s
      end
  | item => set_active (gather item later (active_segment s)) s
  end.

(** Older items cannot matter any more. *)
Definition scan_done (s : Scan) : bool :=
  is_some (base_compaction s) && is_some (previous_turn_settings s) && negb (is_never_set (reference_context_item s)).

(** The loop; [older] are the items not seen yet, the last first. *)
Fixpoint scan_loop (older later : list RolloutItem) (s : Scan) : Scan :=
  match older with
  | [] => s
  | item :: older =>
      let s := scan_item item later s in
      if scan_done s then s else scan_loop older (item :: later) s
  end.

Definition finish_scan (s : Scan) : Scan :=
  match active_segment s with Some segment => finalize_active_segment segment s | None => s end.

Definition scan_rollout (items : list RolloutItem) : Scan := finish_scan (scan_loop (rev items) [] scan_start).

(** ** What is restored *)

Definition compacted_item (item : RolloutItem) : option CompactedItem :=
  match item with Compacted item => Some item | _ => None end.

Definition is_compacted (item : RolloutItem) : bool := is_some (compacted_item item).

(** The window of the first session record that has one. *)
Definition session_window (item : RolloutItem) : option ReconstructedWindow :=
  match item with
  | SessionMeta (Some id) => option_map (fun uuid => mkWindow 0 (Some uuid) None (Some uuid)) (parse_uuid_v7 id)
  | _ => None
  end.

Definition initial_window (items : list RolloutItem) : option ReconstructedWindow :=
  if existsb (fun item => match compacted_item item with Some c => is_none (window_number c) | None => false end) items
  then None else head (omap session_window items).

Record RolloutReconstruction : Type := mkReconstruction {
  history_base : option CompactedItem;
  history_suffix : list RolloutItem;
  restored_settings : option PreviousTurnSettings;
  restored_reference : option TurnContextItem;
  world_state_baseline : option World;
  restored_window : ReconstructedWindow;
}.

(** [reconstruct_history_from_rollout], up to the rebuilding of the history
    from its base and the items after it. *)
Definition reconstruct (items : list RolloutItem) : RolloutReconstruction :=
  let s := scan_rollout items in
  let rollout_suffix := match base_compaction s with Some c => suffix c | None => items end in
  let legacy := existsb (fun item => match compacted_item item with
                                     | Some c => is_none (replacement_history c)
                                     | None => false
                                     end) rollout_suffix in
  mkReconstruction (option_map checkpoint (base_compaction s)) rollout_suffix (previous_turn_settings s)
    (match reference_context_item s with
     | Latest context => if legacy then None else Some context
     | NeverSet | Cleared => None
     end)
    (replay_records (rev (world_state_replay s)))
    (match window s with
     | Some w => w
     | None =>
         match initial_window items with
         | Some w => w
         | None => mkWindow (N.min (N.of_nat (length (List.filter is_compacted items))) USIZE_MAX) None None None
         end
     end).

End replay.
