(* ===== verification/RolloutReplayProps.v ===== *)
(** * A resumed session continues the surviving turns

    Reading a log from its end and stopping early restores what replaying it
    from its start would, where a rollback drops the newest turns of the user
    with everything after them. *)

From S2P Require Import Prelude RustStr ResponseItem WorldState RolloutReplay.

Section replay.
Context {Json Number ToolCall Uuid TurnContextRest : Type}.
Context (is_contextual_user_message_content is_inter_agent_instruction_content : list ContentItem -> bool).
Context (parse_uuid : str -> option Uuid) (get_version_num : Uuid -> N).
Abbreviation RItem := (@RolloutItem Json Number ToolCall TurnContextRest).
Abbreviation Segment := (@ActiveReplaySegment Json Number ToolCall Uuid TurnContextRest).
Abbreviation RScan := (@Scan Json Number ToolCall Uuid TurnContextRest).
Abbreviation gather := (gather is_contextual_user_message_content is_inter_agent_instruction_content parse_uuid get_version_num).
Abbreviation scan_item := (scan_item is_contextual_user_message_content is_inter_agent_instruction_content parse_uuid get_version_num).
Abbreviation scan_loop := (scan_loop is_contextual_user_message_content is_inter_agent_instruction_content parse_uuid get_version_num).
Abbreviation compacted_window := (compacted_window parse_uuid get_version_num).
Implicit Types (s : RScan) (item : RItem) (items body later older : list RItem) (seg : Segment).

(** ** The scan without its early end *)

Fixpoint scan_all older later s : RScan :=
  match older with
  | [] => s
  | item :: older => scan_all older (item :: later) (scan_item item later s)
  end.

Lemma scan_all_app a b later s : scan_all (a ++ b) later s = scan_all b (rev a ++ later) (scan_all a later s).
Proof.
  revert later s. induction a as [|item a IH]; intros later s; [done|]. simpl. rewrite IH.
  by rewrite <- app_assoc.
Qed.

(** What was found stays; the records of the world are added to. *)
Definition extends s s' : Prop :=
  (is_some (base_compaction s) = true -> base_compaction s' = base_compaction s)
  /\ (is_some (previous_turn_settings s) = true -> previous_turn_settings s' = previous_turn_settings s)
  /\ (is_never_set (reference_context_item s) = false -> reference_context_item s' = reference_context_item s)
  /\ (is_some (window s) = true -> window s' = window s)
  /\ exists more, world_state_replay s' = world_state_replay s ++ more.

Lemma extends_refl s : extends s s.
Proof. split_and!; try done. exists []. by rewrite app_nil_r. Qed.

Lemma extends_trans s1 s2 s3 : extends s1 s2 -> extends s2 s3 -> extends s1 s3.
Proof.
  intros (Hb & Hp & Hr & Hw & m & Hm) (Hb' & Hp' & Hr' & Hw' & m' & Hm'). split_and!.
  - intros H. rewrite Hb'; [by apply Hb|by rewrite Hb].
  - intros H. rewrite Hp'; [by apply Hp|by rewrite Hp].
  - intros H. rewrite Hr'; [by apply Hr|by rewrite Hr].
  - intros H. rewrite Hw'; [by apply Hw|by rewrite Hw].
  - exists (m ++ m'). by rewrite Hm', Hm, app_assoc.
Qed.

Lemma finalize_extends seg s : extends s (finalize_active_segment seg s).
Proof.
  unfold finalize_active_segment. destruct (0 <? pending_rollback_turns s)%N.
  - split_and!; try done. exists []. by rewrite app_nil_r.
  - split_and!; simpl.
    + by destruct (base_compaction s).
    + by destruct (previous_turn_settings s).
    + by intros ->.
    + by destruct (window s).
    + by eexists.
Qed.

Lemma same_extends s s' :
  base_compaction s' = base_compaction s -> previous_turn_settings s' = previous_turn_settings s ->
  reference_context_item s' = reference_context_item s -> window s' = window s ->
  world_state_replay s' = world_state_replay s -> extends s s'.
Proof. unfold extends. intros -> -> -> -> ->. split_and!; try done. exists []. by rewrite app_nil_r. Qed.

Lemma scan_item_extends item later s : extends s (scan_item item later s).
Proof.
  destruct item as [| | | | | |[n|id|id|id| |]|]; try (by apply same_extends). simpl.
  destruct (active_segment s) as [seg|]; [|apply extends_refl].
  destruct (turn_ids_are_compatible _ _); [apply finalize_extends|apply extends_refl].
Qed.

Lemma scan_all_extends older : forall later s, extends s (scan_all older later s).
Proof.
  induction older as [|item older IH]; intros later s; [apply extends_refl|].
  by eapply extends_trans; [apply scan_item_extends|apply IH].
Qed.

(** Only the start of a turn finds something, and it ends the segment. *)
Lemma scan_item_done item later s :
  scan_done s = false -> scan_done (scan_item item later s) = true -> active_segment (scan_item item later s) = None.
Proof.
  intros Hs Hd. destruct item as [| | | | | |[n|id|id|id| |]|];
    try (unfold scan_done in *; simpl in *; congruence). simpl in *.
  destruct (active_segment s) as [seg|]; [|congruence].
  destruct (turn_ids_are_compatible _ _); [|congruence]. unfold finalize_active_segment. by destruct (_ <? _)%N.
Qed.

(** The scan stops with everything the whole scan finds. *)
Lemma scan_loop_all older : forall later s,
  scan_done s = false ->
  let stopped := scan_loop older later s in
  stopped = scan_all older later s
  \/ scan_done stopped = true /\ active_segment stopped = None /\ extends stopped (scan_all older later s).
Proof.
  induction older as [|item older IH]; intros later s Hs; [by left|]. simpl.
  destruct (scan_done (scan_item item later s)) eqn:Ed; [|by apply IH].
  right. split_and!; [done|by apply scan_item_done|apply scan_all_extends].
Qed.

(** ** Logs made of turns and rollbacks *)

Inductive Block : Type :=
| TurnBlock (id : str) (body : list RItem)
| RollbackBlock (num_turns : N)
| InertBlock (item : RItem).

Definition block_items (b : Block) : list RItem :=
  match b with
  | TurnBlock id body => Event (TurnStarted id) :: body
  | RollbackBlock n => [Event (ThreadRolledBack n)]
  | InertBlock item => [item]
  end.

Definition log_items (blocks : list Block) : list RItem := concat (map block_items blocks).

(** An item of turn [id], not a boundary. *)
Definition of_turn (id : str) item : bool :=
  match item with
  | Event (ThreadRolledBack _) | Event (TurnStarted _) => false
  | Event (TurnComplete id') | Event (TurnAborted (Some id')) => bool_decide (id' = id)
  | TurnContext c => match context_turn_id c with Some id' => bool_decide (id' = id) | None => true end
  | _ => true
  end.

(** An item of no turn that is not looked at. *)
Definition inert item : bool :=
  match item with SessionMeta _ | OtherRecord | Event OtherEvent => true | _ => false end.

Definition well_bracketed_block (b : Block) : Prop :=
  match b with
  | TurnBlock id body => forallb (of_turn id) body = true
  | RollbackBlock _ => True
  | InertBlock item => inert item = true
  end.

Definition well_bracketed (blocks : list Block) : Prop := Forall well_bracketed_block blocks.

(** What is gathered of a turn; [later] are the items after it. *)
Fixpoint gather_body body later : option Segment :=
  match body with
  | [] => None
  | item :: body => gather item (body ++ later) (gather_body body later)
  end.

Definition segment_of (turn : list RItem * list RItem) : Segment :=
  default default_segment (gather_body turn.1 turn.2).

Lemma gather_id id item later active :
  of_turn id item = true ->
  (forall seg, active = Some seg -> turn_id seg = None \/ turn_id seg = Some id) ->
  forall seg, gather item later active = Some seg -> turn_id seg = None \/ turn_id seg = Some id.
Proof.
  intros Hi Ha seg. unfold RolloutReplay.gather.
  assert (Hd : turn_id (default default_segment active) = None \/ turn_id (default default_segment active) = Some id).
  { destruct active as [a|]; [by apply Ha|by left]. }
  assert (Hset : forall (o : option str) (a : Segment), (o = None \/ o = Some id) -> (turn_id a = None \/ turn_id a = Some id) ->
            turn_id (set_turn_id o a) = None \/ turn_id (set_turn_id o a) = Some id).
  { intros o a Ho Hid. unfold set_turn_id. simpl. by destruct Hid as [-> | ->]; [|right]. }
  destruct item as [| | |c|c| |[n|i|i|[i|]| |]|]; simpl in Hi; try done; try (by apply Ha).
  - by intros [= <-].
  - by intros [= <-].
  - by intros [= <-].
  - intros [= <-]. unfold see_turn_context.
    assert (Hc : context_turn_id c = None \/ context_turn_id c = Some id).
    { destruct (context_turn_id c); [|by left]. apply bool_decide_eq_true in Hi as ->. by right. }
    destruct (turn_ids_are_compatible _ _); by apply Hset.
  - by intros [= <-].
  - apply bool_decide_eq_true in Hi as ->. intros [= <-]. apply Hset; [by right|done].
  - apply bool_decide_eq_true in Hi as ->. destruct active as [a|]; intros [= <-]; apply Hset; try (by right); [by apply Ha|by left].
  - destruct active as [a|]; [|done]. intros [= <-]. apply Hset; [by left|by apply Ha].
  - by intros [= <-].
Qed.

Lemma gather_body_id id body later :
  forallb (of_turn id) body = true ->
  forall seg, gather_body body later = Some seg -> turn_id seg = None \/ turn_id seg = Some id.
Proof.
  induction body as [|item body IH]; [done|]. cbn [forallb gather_body]. intros [Hi Hb]%andb_true_iff.
  by apply (gather_id id item _ _ Hi), IH.
Qed.

Lemma set_active_id s : active_segment s = None -> set_active None s = s.
Proof. destruct s; simpl. by intros ->. Qed.

Lemma scan_body id body later s :
  forallb (of_turn id) body = true -> active_segment s = None ->
  scan_all (rev body) later s = set_active (gather_body body later) s.
Proof.
  intros Hb Hs. induction body as [|item body IH]; [simpl; by rewrite set_active_id|].
  cbn [forallb] in Hb. apply andb_true_iff in Hb as [Hi Hb]. cbn [rev gather_body].
  rewrite scan_all_app, (IH Hb), rev_involutive. cbn [scan_all].
  by destruct item as [| | | | | |[]|].
Qed.

Lemma finalize_default s : active_segment s = None -> finalize_active_segment default_segment s = s.
Proof.
  intros Hs. unfold finalize_active_segment. simpl. destruct s as [b p r w wi pe a]; simpl in *. subst a.
  rewrite andb_false_r, app_nil_r. by destruct b, p, wi, (0 <? pe)%N.
Qed.

(** A turn is scanned as its segment. *)
Lemma scan_turn id body later s :
  forallb (of_turn id) body = true -> active_segment s = None ->
  scan_all (rev (Event (TurnStarted id) :: body)) later s = finalize_active_segment (segment_of (body, later)) s.
Proof.
  intros Hb Hs. cbn [rev]. rewrite scan_all_app, (scan_body id) by done. rewrite rev_involutive. simpl.
  unfold segment_of. simpl. pose proof (gather_body_id id body later Hb) as Hid.
  destruct (gather_body body later) as [seg|]; simpl.
  - assert (Hc : turn_ids_are_compatible (turn_id seg) (Some id) = true).
    { destruct (Hid seg eq_refl) as [-> | ->]; [done|]. by apply bool_decide_eq_true. }
    by rewrite Hc.
  - by rewrite set_active_id, finalize_default.
Qed.

(** ** The surviving turns, replayed forward *)

(** The marks of a log: turns with the items after them, and rollbacks. *)
Fixpoint marks (blocks : list Block) (later : list RItem) : list ((list RItem * list RItem) + N) :=
  match blocks with
  | [] => []
  | TurnBlock id body :: blocks => inl (body, log_items blocks ++ later) :: marks blocks later
  | RollbackBlock n :: blocks => inr n :: marks blocks later
  | InertBlock _ :: blocks => marks blocks later
  end.

Section turns.
Context {A : Type} (is_user : A -> bool).

(** Drops turns, the newest first, until [n] of the user are dropped. *)
Fixpoint drop_turns (n : N) (turns : list A) : list A :=
  match turns with
  | [] => []
  | t :: rest => if (0 <? n)%N then drop_turns (if is_user t then n - 1 else n)%N rest else turns
  end.

(** The turns that are left, the newest first. *)
Definition surviving (l : list (A + N)) : list A :=
  fold_left (fun turns m => match m with inl t => t :: turns | inr n => drop_turns n turns end) l [].

(** The same read from the end, with the rollbacks still to be applied. *)
Fixpoint surviving_backward (l : list (A + N)) (pending : N) : list A :=
  match l with
  | [] => []
  | inr n :: l => surviving_backward l (saturating_add pending n)
  | inl t :: l =>
      if (0 <? pending)%N then surviving_backward l (if is_user t then pending - 1 else pending)%N
      else t :: surviving_backward l 0
  end.

Lemma drop_turns_0 turns : drop_turns 0 turns = turns.
Proof. by destruct turns. Qed.

Lemma drop_turns_add m n turns : drop_turns m (drop_turns n turns) = drop_turns (m + n) turns.
Proof.
  revert n. induction turns as [|t turns IH]; intros n; [done|]. cbn [drop_turns].
  destruct (N.ltb_spec 0 n) as [Hn|Hn].
  - rewrite IH. destruct (N.ltb_spec 0 (m + n)); [|lia]. f_equal. destruct (is_user t); lia.
  - assert (n = 0)%N as -> by lia. by rewrite N.add_0_r.
Qed.

Lemma drop_turns_all n turns : (N.of_nat (length turns) <= n)%N -> drop_turns n turns = [].
Proof.
  revert n. induction turns as [|t turns IH]; intros n Hn; [done|]. cbn [drop_turns length] in *.
  destruct (N.ltb_spec 0 n); [|lia]. apply IH. destruct (is_user t); lia.
Qed.

Lemma drop_turns_saturating m n turns :
  (N.of_nat (length turns) <= USIZE_MAX)%N ->
  drop_turns (saturating_add m n) turns = drop_turns (m + n) turns.
Proof.
  intros Hl. unfold saturating_add. destruct (N.le_gt_cases (m + n) USIZE_MAX) as [|Hgt]; [by rewrite N.min_l|].
  rewrite N.min_r by lia. rewrite !drop_turns_all; [done|lia|lia].
Qed.

Lemma drop_turns_length n turns : length (drop_turns n turns) <= length turns.
Proof.
  revert n. induction turns as [|t turns IH]; intros n; [done|]. cbn [drop_turns].
  destruct (0 <? n)%N; [|done]. etrans; [apply IH|]. simpl. lia.
Qed.

Lemma surviving_app l m :
  surviving (l ++ [m]) = match m with inl t => t :: surviving l | inr n => drop_turns n (surviving l) end.
Proof. unfold surviving. by rewrite fold_left_app. Qed.

Lemma surviving_length l : length (surviving l) <= length l.
Proof.
  induction l as [|m l IH] using rev_ind; [done|]. rewrite surviving_app, length_app. simpl.
  destruct m as [t|n]; [simpl; lia|]. pose proof (drop_turns_length n (surviving l)). lia.
Qed.

Lemma backward_survives l : forall pending,
  (N.of_nat (length l) <= USIZE_MAX)%N ->
  surviving_backward (rev l) pending = drop_turns pending (surviving l).
Proof.
  induction l as [|m l IH] using rev_ind; intros pending Hl; [done|].
  rewrite length_app in Hl. simpl in Hl. rewrite rev_app_distr, surviving_app. simpl.
  assert (Hl' : (N.of_nat (length l) <= USIZE_MAX)%N) by lia.
  destruct m as [t|n]; cbn [surviving_backward].
  - cbn [drop_turns]. destruct (0 <? pending)%N; rewrite IH by done; [done|]. by rewrite drop_turns_0.
  - rewrite IH by done. rewrite drop_turns_saturating, drop_turns_add; [done|].
    pose proof (surviving_length l). lia.
Qed.
End turns.

(** ** What a turn leaves *)

Definition user_item item : bool :=
  match item with
  | Event UserMessage | InterAgentCommunication _ => true
  | ItemRecord envelope =>
      is_user_turn_boundary is_contextual_user_message_content is_inter_agent_instruction_content (ResponseItem.item envelope)
  | _ => false
  end.

Definition world_record item : option (@WorldRecord Number) :=
  match item with
  | Compacted _ => Some CompactedRecord
  | WorldStateRecord item => Some (StateRecord item)
  | _ => None
  end.

Definition item_settings item : option PreviousTurnSettings :=
  match item with
  | TurnContext c => Some (mkSettings (context_model c) (context_comp_hash c) (context_realtime_active c))
  | _ => None
  end.

Definition item_reference item : option (@TurnReferenceContextItem TurnContextRest) :=
  match item with TurnContext c => Some (Latest c) | Compacted _ => Some Cleared | _ => None end.

Definition is_user_turn (turn : list RItem * list RItem) : bool := existsb user_item turn.1.
Definition turn_records (turn : list RItem * list RItem) : list (@WorldRecord Number) := omap world_record turn.1.

(** The first context of a turn gives its settings. *)
Definition turn_settings (turn : list RItem * list RItem) : option PreviousTurnSettings := head (omap item_settings turn.1).

(** The last context, unless a compaction came after it, is its reference. *)
Definition turn_reference (turn : list RItem * list RItem) : @TurnReferenceContextItem TurnContextRest :=
  default NeverSet (last (omap item_reference turn.1)).

Definition turn_window (turn : list RItem * list RItem) : option (@ReconstructedWindow Uuid) :=
  last (omap (fun item => compacted_item item ≫= compacted_window) turn.1).

(** The last compaction of a turn that replaces the history, with what follows. *)
Fixpoint last_checkpoint body later : option (@ReplayCheckpoint Json Number ToolCall TurnContextRest) :=
  match body with
  | [] => None
  | item :: body =>
      match last_checkpoint body later with
      | Some c => Some c
      | None =>
          c ← compacted_item item;
          if is_some (replacement_history c) then Some (mkCheckpoint c (body ++ later)) else None
      end
  end.

Definition turn_checkpoint (turn : list RItem * list RItem) := last_checkpoint turn.1 turn.2.

(** A turn with a user message, or with a full state after its last compaction. *)
Definition turn_baseline (turn : list RItem * list RItem) : bool :=
  is_user_turn turn || existsb full (before_compaction (rev (turn_records turn))).

(** The last entry of a list with one more in front. *)
Lemma last_cons_omap {A B} (f : A -> option B) x l :
  last (omap f (x :: l)) = match last (omap f l) with Some y => Some y | None => f x end.
Proof.
  change (omap f (x :: l)) with (match f x with Some y => y :: omap f l | None => omap f l end).
  destruct (f x) as [y|]; [rewrite last_cons|]; by destruct (last (omap f l)).
Qed.

Lemma see_turn_context_compatible (c : TurnContextItem) (a : Segment) :
  turn_ids_are_compatible (match turn_id a with Some t => Some t | None => context_turn_id c end) (context_turn_id c) = true ->
  see_turn_context c a
  = mkSegment (match turn_id a with Some t => Some t | None => context_turn_id c end) (counts_as_user_turn a)
      (Some (mkSettings (context_model c) (context_comp_hash c) (context_realtime_active c)))
      (if is_never_set (segment_reference a) then Latest c else segment_reference a)
      (segment_world a) (segment_base a) (segment_window a).
Proof. intros H. unfold see_turn_context. simpl. by rewrite H. Qed.

Lemma gather_fields tid item later (active : option Segment) :
  of_turn tid item = true ->
  let a := default default_segment active in
  (turn_id a = None \/ turn_id a = Some tid) ->
  let seg := default default_segment (gather item later active) in
  counts_as_user_turn seg = user_item item || counts_as_user_turn a
  /\ segment_world seg = segment_world a ++ match world_record item with Some r => [r] | None => [] end
  /\ segment_settings seg = match item_settings item with Some p => Some p | None => segment_settings a end
  /\ segment_reference seg
     = (if is_never_set (segment_reference a) then default NeverSet (item_reference item) else segment_reference a)
  /\ segment_window seg
     = match segment_window a with Some w => Some w | None => compacted_item item ≫= compacted_window end
  /\ segment_base seg
     = match segment_base a with
       | Some b => Some b
       | None => c ← compacted_item item; if is_some (replacement_history c) then Some (mkCheckpoint c later) else None
       end.
Proof.
  intros Hi a Ha. assert (Hnever : segment_reference a = (if is_never_set (segment_reference a) then NeverSet else segment_reference a))
    by (by destruct (segment_reference a)).
  assert (Hcompat : forall c, item = TurnContext c ->
    turn_ids_are_compatible (match turn_id a with Some t => Some t | None => context_turn_id c end) (context_turn_id c) = true).
  { intros c ->. simpl in Hi. destruct (context_turn_id c) as [i|]; [|by destruct (turn_id a)].
    apply bool_decide_eq_true in Hi as ->. destruct Ha as [-> | ->]; by apply bool_decide_eq_true. }
  assert (Hcontext : forall c, item = TurnContext c -> default default_segment (gather item later active) = see_turn_context c a)
    by (by intros c ->).
  destruct item as [| | |c|c| |[n|i|i|[i|]| |]|]; simpl in Hi; try done;
    try rewrite (Hcontext _ eq_refl), (see_turn_context_compatible _ a (Hcompat _ eq_refl));
    clear Hcontext Hcompat; subst a; (destruct active as [g|]; simpl in *);
    rewrite ?app_nil_r, ?orb_false_r; split_and!; try done; try (by rewrite orb_comm);
    try (by destruct (segment_window _)); try (by destruct (segment_base _)).
Qed.

(** What a turn leaves is what is gathered of it. *)
Record left_by (turn : list RItem * list RItem) (seg : Segment) : Prop := {
  left_user : counts_as_user_turn seg = is_user_turn turn;
  left_world : segment_world seg = rev (turn_records turn);
  left_settings : segment_settings seg = turn_settings turn;
  left_reference : segment_reference seg = turn_reference turn;
  left_window : segment_window seg = turn_window turn;
  left_base : segment_base seg = turn_checkpoint turn;
}.

Lemma last_reference body : is_never_set (default NeverSet (last (omap item_reference body))) = is_none (last (omap item_reference body)).
Proof.
  destruct (last (omap item_reference body)) as [r|] eqn:E; [|done].
  apply last_Some_elem_of, list_elem_of_omap in E as (item & _ & Hi). by destruct item; try done; injection Hi as <-.
Qed.

Lemma segment_facts tid body later :
  forallb (of_turn tid) body = true -> left_by (body, later) (segment_of (body, later)).
Proof.
  induction body as [|item body IH]; [by split|]. cbn [forallb]. intros [Hi Hb]%andb_true_iff.
  destruct (IH Hb) as [Hu Hw Hs Hr Hwin Hbase]. unfold segment_of in *. cbn [gather_body fst snd] in *.
  assert (Ha : turn_id (default default_segment (gather_body body later)) = None
               \/ turn_id (default default_segment (gather_body body later)) = Some tid).
  { destruct (gather_body body later) eqn:E; [by apply (gather_body_id tid body later)|by left]. }
  destruct (gather_fields tid item (body ++ later) _ Hi Ha) as (Gu & Gw & Gs & Gr & Gwin & Gbase).
  split.
  - by rewrite Gu, Hu.
  - rewrite Gw, Hw. unfold turn_records. simpl. destruct (world_record item); simpl; [done|by rewrite app_nil_r].
  - rewrite Gs, Hs. unfold turn_settings. simpl. by destruct (item_settings item).
  - rewrite Gr, Hr. unfold turn_reference. cbn [fst]. rewrite last_reference, last_cons_omap.
    by destruct (last (omap item_reference body)).
  - rewrite Gwin, Hwin. unfold turn_window. cbn [fst]. by rewrite last_cons_omap.
  - by rewrite Gbase, Hbase.
Qed.

(** ** The scan of a log *)

Definition scan_mark s (m : (list RItem * list RItem) + N) : RScan :=
  match m with
  | inl turn => finalize_active_segment (segment_of turn) s
  | inr n => add_pending n s
  end.

Lemma finalize_inactive seg s : active_segment (finalize_active_segment seg s) = None.
Proof. unfold finalize_active_segment. by destruct (0 <? pending_rollback_turns s)%N. Qed.

Lemma scan_mark_inactive s m : active_segment s = None -> active_segment (scan_mark s m) = None.
Proof. intros Hs. destruct m; simpl; [by apply finalize_inactive|done]. Qed.

Lemma scan_marks_inactive l : forall s, active_segment s = None -> active_segment (fold_left scan_mark l s) = None.
Proof. induction l as [|m l IH]; intros s Hs; [done|]. by apply IH, scan_mark_inactive. Qed.

Lemma scan_log blocks later s :
  well_bracketed blocks -> active_segment s = None ->
  scan_all (rev (log_items blocks)) later s = fold_left scan_mark (rev (marks blocks later)) s.
Proof.
  intros Hb Hs. induction Hb as [|b blocks Hb _ IH]; [done|].
  unfold log_items. cbn [map concat]. fold (log_items blocks).
  rewrite rev_app_distr, scan_all_app, IH, rev_involutive.
  set (s1 := fold_left _ _ s).
  assert (Hs1 : active_segment s1 = None) by (by apply scan_marks_inactive).
  destruct b as [id body|n|item].
  - cbn [block_items marks rev]. rewrite fold_left_app. fold s1.
    by apply (scan_turn id body).
  - cbn [marks rev]. by rewrite fold_left_app.
  - cbn [marks]. fold s1. simpl in *. rewrite <- (set_active_id s1 Hs1) at 2.
    destruct item as [| | | | | |[]|]; try done; simpl; by rewrite Hs1.
Qed.

(** What the newest of some turns has, unless something is there already. *)
Definition or_newest {A} (o : option A) (f : list RItem * list RItem -> option A) turns : option A :=
  match o with Some x => Some x | None => head (omap f turns) end.

Lemma or_newest_cons {A} (o : option A) f t turns :
  or_newest o f (t :: turns) = or_newest (match o with Some x => Some x | None => f t end) f turns.
Proof. unfold or_newest. destruct o; [done|]. simpl. by destruct (f t). Qed.

(** The settings a turn restores. *)
Definition baseline_settings (turn : list RItem * list RItem) : option PreviousTurnSettings :=
  if turn_baseline turn then turn_settings turn else None.

(** The reference a turn restores. *)
Definition baseline_reference (turn : list RItem * list RItem) : option (@TurnReferenceContextItem TurnContextRest) :=
  if negb (is_never_set (turn_reference turn)) && (turn_baseline turn || is_cleared (turn_reference turn))
  then Some (turn_reference turn) else None.

Definition known_reference (r : @TurnReferenceContextItem TurnContextRest) : option (@TurnReferenceContextItem TurnContextRest) :=
  if is_never_set r then None else Some r.

Lemma scan_marks l : forall s,
  (forall turn, In (inl turn) l -> left_by turn (segment_of turn)) ->
  let turns := surviving_backward is_user_turn l (pending_rollback_turns s) in
  let s' := fold_left scan_mark l s in
  base_compaction s' = or_newest (base_compaction s) turn_checkpoint turns
  /\ previous_turn_settings s' = or_newest (previous_turn_settings s) baseline_settings turns
  /\ known_reference (reference_context_item s')
     = or_newest (known_reference (reference_context_item s)) baseline_reference turns
  /\ window s' = or_newest (window s) turn_window turns
  /\ world_state_replay s' = world_state_replay s ++ rev (concat (map turn_records (rev turns))).
Proof.
  induction l as [|m l IH]; intros s Hl.
  { simpl. rewrite app_nil_r. unfold or_newest. simpl.
    by destruct (base_compaction s), (previous_turn_settings s), (window s), (known_reference _). }
  assert (Hl' : forall turn, In (inl turn) l -> left_by turn (segment_of turn)) by (intros; apply Hl; by right).
  destruct m as [turn|n]; [|exact (IH (add_pending n s) Hl')].
  destruct (Hl turn (or_introl eq_refl)) as [Hu Hw Hs Hr Hwin Hb].
  specialize (IH (scan_mark s (inl turn)) Hl'). cbn [fold_left]. revert IH. simpl. unfold finalize_active_segment.
  destruct (0 <? pending_rollback_turns s)%N eqn:E; cbn [pending_rollback_turns base_compaction previous_turn_settings reference_context_item window world_state_replay].
  { by rewrite Hu. }
  assert (pending_rollback_turns s = 0)%N as -> by (apply N.ltb_ge in E; lia).
  assert (Hbase : has_context_baseline (segment_of turn) = turn_baseline turn)
    by (unfold has_context_baseline, turn_baseline; by rewrite Hu, Hw).
  rewrite Hbase, Hw, Hs, Hr, Hwin, Hb. intros (IH1 & IH2 & IH3 & IH4 & IH5).
  rewrite !or_newest_cons. split_and!; [done|done| |done|].
  - rewrite IH3. f_equal. unfold known_reference, baseline_reference.
    destruct (reference_context_item s), (turn_reference turn), (turn_baseline turn); done.
  - rewrite IH5. simpl. rewrite map_app, concat_app, rev_app_distr. simpl. by rewrite app_nil_r, app_assoc.
Qed.

(** ** Stopping early *)

(** A compaction that replaces the history is numbered. *)
Definition numbered item : bool :=
  match compacted_item item with
  | Some c => negb (is_some (replacement_history c)) || is_some (window_number c)
  | None => true
  end.

(** A checkpoint comes with its compaction among the records and, when the
    compactions are numbered, with its window. *)
Section sound.
Context (all_numbered : Prop).

Definition sound_segment seg : Prop :=
  is_some (segment_base seg) = true ->
  In CompactedRecord (segment_world seg) /\ (all_numbered -> is_some (segment_window seg) = true).

Definition sound_scan s : Prop :=
  (is_some (base_compaction s) = true ->
   In CompactedRecord (world_state_replay s) /\ (all_numbered -> is_some (window s) = true))
  /\ forall seg, active_segment s = Some seg -> sound_segment seg.

Lemma gather_sound item later (active : option Segment) :
  (all_numbered -> numbered item = true) ->
  sound_segment (default default_segment active) -> sound_segment (default default_segment (gather item later active)).
Proof.
  unfold numbered. intros Hn Ha.
  destruct item as [|e| |c|c|w|[n|i|i|[i|]| |]|]; try exact Ha; unfold RolloutReplay.gather; cbn [default from_option]; unfold id;
    try (destruct active; exact Ha).
  - unfold sound_segment, see_compacted, push_world. simpl in *. intros Hb.
    split; [apply in_or_app; by right; left|].
    intros Hall. specialize (Hn Hall). unfold sound_segment in Ha.
    destruct (segment_base _); [destruct Ha as [_ Ha]; [done|]; specialize (Ha Hall); by destruct (segment_window _)|].
    destruct (replacement_history c); [|done]. simpl in Hn. unfold RolloutReplay.compacted_window.
    by destruct (segment_window _), (window_number c).
  - unfold see_turn_context. by destruct (turn_ids_are_compatible _ _).
  - unfold sound_segment, push_world. simpl. intros [Hw ?]%Ha. split; [|done]. apply in_or_app. by left.
Qed.

Lemma scan_item_sound item later s :
  (all_numbered -> numbered item = true) -> sound_scan s -> sound_scan (scan_item item later s).
Proof.
  intros Hn [Hs Ha].
  assert (Hgather : sound_scan (set_active (gather item later (active_segment s)) s)).
  { split; [done|]. intros seg. simpl. intros Hseg.
    change seg with (default default_segment (Some seg)). rewrite <- Hseg. apply gather_sound; [done|].
    destruct (active_segment s); [by apply Ha|done]. }
  destruct item as [| | | | | |[n|i|i|i| |]|]; try exact Hgather.
  simpl. destruct (active_segment s) as [seg|] eqn:E; [|by split; [|rewrite E]].
  destruct (turn_ids_are_compatible _ _); [|by split; [|rewrite E]].
  unfold finalize_active_segment. destruct (0 <? pending_rollback_turns s)%N; (split; [|done]); simpl; [done|].
  intros Hb. rewrite in_app_iff.
  destruct (base_compaction s); [destruct Hs as [? Hw]; [done|]; split; [by left|];
    intros Hall; specialize (Hw Hall); by destruct (window s)|].
  destruct (Ha seg eq_refl Hb) as [? Hw]. split; [by right|]. intros Hall. by destruct (window s); [|apply Hw].
Qed.

Lemma scan_loop_sound older : forall later s,
  (all_numbered -> forallb numbered older = true) -> sound_scan s -> sound_scan (scan_loop older later s).
Proof.
  induction older as [|item older IH]; intros later s; [done|]. cbn [forallb]. intros Hn Hs. simpl.
  assert (Hn1 : all_numbered -> numbered item = true) by (by intros [? _]%Hn%andb_true_iff).
  destruct (scan_done _); [|apply IH; [by intros [_ ?]%Hn%andb_true_iff|]]; by apply scan_item_sound.
Qed.
End sound.

(** Nothing before a compaction matters to the state of the world. *)
Lemma replay_from_compaction (more records : list (@WorldRecord Number)) :
  In CompactedRecord records -> replay_records (more ++ records) = replay_records records.
Proof.
  intros (before & after & ->)%in_split. unfold replay_records. by rewrite !fold_left_app.
Qed.

Lemma scan_rollout_all (items : list RItem) :
  active_segment (scan_all (rev items) [] scan_start) = None ->
  let s := scan_rollout is_contextual_user_message_content is_inter_agent_instruction_content parse_uuid get_version_num items in
  let whole := scan_all (rev items) [] scan_start in
  base_compaction s = base_compaction whole
  /\ previous_turn_settings s = previous_turn_settings whole
  /\ reference_context_item s = reference_context_item whole
  /\ (forallb numbered items = true -> window s = window whole)
  /\ replay_records (rev (world_state_replay s)) = replay_records (rev (world_state_replay whole)).
Proof.
  intros Hwhole s whole. unfold s, scan_rollout. fold whole in Hwhole.
  destruct (scan_loop_all (rev items) [] scan_start eq_refl) as [Heq|(Hd & Ha & Hb & Hp & Hr & Hw & more & Hm)].
  - fold whole in Heq. rewrite Heq. unfold finish_scan. by rewrite Hwhole.
  - fold whole in Hb, Hp, Hr, Hw, Hm. unfold finish_scan. rewrite Ha.
    assert (Hsound : sound_scan (forallb numbered items = true) (scan_loop (rev items) [] scan_start)).
    { apply scan_loop_sound; [|by split]. intros Hn. apply forallb_forall. intros item Hi%in_rev.
      by apply (proj1 (forallb_forall numbered items) Hn). }
    unfold scan_done in Hd. apply andb_true_iff in Hd as [[Hd1 Hd2]%andb_true_iff Hd3%negb_true_iff].
    destruct Hsound as [[Hc Hwin] _]; [done|].
    rewrite Hb, Hp, Hr, Hm by done. split_and!; try done; [intros Hn; symmetry; by apply Hw, Hwin|].
    rewrite rev_app_distr, replay_from_compaction; [done|by rewrite <- in_rev].
Qed.

(** ** Property *)

Definition surviving_turns (blocks : list Block) : list (list RItem * list RItem) := surviving is_user_turn (marks blocks []).

(** A compaction that does not carry the history it leaves. *)
Definition legacy_compaction item : bool :=
  match compacted_item item with Some c => is_none (replacement_history c) | None => false end.

Definition count_window (items : list RItem) : @ReconstructedWindow Uuid :=
  mkWindow (N.min (N.of_nat (length (List.filter is_compacted items))) USIZE_MAX) None None None.

Lemma marks_length blocks later : length (marks blocks later) <= length blocks.
Proof. induction blocks as [|[| |] blocks IH]; simpl; lia. Qed.

Lemma marks_left_by blocks later turn :
  well_bracketed blocks -> In (inl turn) (marks blocks later) -> left_by turn (segment_of turn).
Proof.
  intros Hb. induction Hb as [|b blocks Hb _ IH]; [done|].
  destruct b as [tid body|n|item]; simpl; [|by intros [|]; [|apply IH]|done].
  intros [[= <-]|Hin]; [by apply (segment_facts tid)|by apply IH].
Qed.

(** The whole scan of a log finds what its surviving turns have. *)
Lemma scan_surviving blocks :
  well_bracketed blocks -> (N.of_nat (length blocks) <= USIZE_MAX)%N ->
  let turns := surviving_turns blocks in
  let whole := scan_all (rev (log_items blocks)) [] scan_start in
  active_segment whole = None
  /\ base_compaction whole = head (omap turn_checkpoint turns)
  /\ previous_turn_settings whole = head (omap baseline_settings turns)
  /\ known_reference (reference_context_item whole) = head (omap baseline_reference turns)
  /\ window whole = head (omap turn_window turns)
  /\ rev (world_state_replay whole) = concat (map turn_records (rev turns)).
Proof.
  intros Hb Hl turns whole. unfold whole. rewrite scan_log by done. split; [by apply scan_marks_inactive|].
  pose proof (scan_marks (rev (marks blocks [])) scan_start) as H. simpl in H.
  rewrite backward_survives, drop_turns_0 in H by (pose proof (marks_length blocks []); lia).
  fold (surviving_turns blocks) in H. fold turns in H.
  destruct H as (H1 & H2 & H3 & H4 & H5); [intros turn Hin%in_rev; by apply (marks_left_by blocks [])|].
  split_and!; [done..|]. by rewrite H5, rev_involutive.
Qed.

(** C10: A resumed session continues the turns that no rollback removed. Though
    the log is read from its end and reading stops early, what is restored is
    what these turns leave when they are followed in order: the history starts
    at their last checkpoint, the settings and the reference are the last
    established by one of them, the state of the world is the replay of all
    their records, and - when every compaction that carries a replacement
    history carries a window number, which older logs do not promise - the window
    is that of their last compaction.  The log is one of whole turns: a turn
    has its identifier in all its items, and outside of turns there are only
    rollbacks and records that are not looked at. *)
Theorem resumed_session_continues_surviving_turns (blocks : list Block) :
  well_bracketed blocks -> (N.of_nat (length blocks) <= USIZE_MAX)%N ->
  let turns := surviving_turns blocks in
  let base := head (omap turn_checkpoint turns) in
  let r := reconstruct is_contextual_user_message_content is_inter_agent_instruction_content parse_uuid get_version_num
             (log_items blocks) in
  history_base r = option_map checkpoint base
  /\ history_suffix r = match base with Some c => suffix c | None => log_items blocks end
  /\ restored_settings r = head (omap baseline_settings turns)
  /\ restored_reference r
     = (if existsb legacy_compaction (history_suffix r) then None
        else match head (omap baseline_reference turns) with Some (Latest c) => Some c | _ => None end)
  /\ world_state_baseline r = replay_records (concat (map turn_records (rev turns)))
  /\ (forallb numbered (log_items blocks) = true -> restored_window r
     = default (default (count_window (log_items blocks)) (initial_window parse_uuid get_version_num (log_items blocks)))
         (head (omap turn_window turns))).
Proof.
  intros Hb Hl turns base r.
  destruct (scan_surviving blocks Hb Hl) as (Ha & Hbase & Hp & Hr & Hw & Hworld).
  destruct (scan_rollout_all (log_items blocks) Ha) as (Ebase & Ep & Er & Ew & Eworld).
  fold turns in Hbase, Hp, Hr, Hw, Hworld. fold base in Hbase.
  unfold r, reconstruct. cbn [history_base history_suffix restored_settings restored_reference world_state_baseline restored_window].
  rewrite Ebase, Ep, Er, Eworld, Hworld, Hbase, Hp, <- Hr. split_and!; try done; [|intros Hn; by rewrite Ew, Hw].
  unfold legacy_compaction. set (legacy := existsb _ _). by destruct (reference_context_item _), legacy.
Qed.

End replay.

(** ** Witness *)

Abbreviation NItem := (@RolloutItem unit N unit unit).

Definition turn_context (id model : str) : @TurnContextItem unit := mkTurnContext (Some id) model None None tt.

Definition full_world (cwd : str) : NItem := WorldStateRecord (mkWorldStateItem true [($"cwd", JString cwd)]).

Definition first_compaction : @CompactedItem unit N unit :=
  mkCompacted ($"summary") (Some []) (Some 1%N) (Some ($"w0")) (Some ($"w0")) (Some ($"w1")).

Definition after_compaction : list NItem :=
  [TurnContext (turn_context ($"b") ($"m2")); full_world ($"/b"); Event (TurnComplete ($"b"))].

(** The third turn is rolled back. *)
Definition rolled_back_log : list (@Block unit N unit unit) :=
  [InertBlock (SessionMeta (Some ($"w0")));
   TurnBlock ($"a") [Event UserMessage; TurnContext (turn_context ($"a") ($"m1")); full_world ($"/a"); Event (TurnComplete ($"a"))];
   TurnBlock ($"b") (Event UserMessage :: Compacted first_compaction :: after_compaction);
   TurnBlock ($"c") [TurnContext (turn_context ($"c") ($"m3")); Event UserMessage;
                     WorldStateRecord (mkWorldStateItem false [($"cwd", JString ($"/c"))]); Event (TurnAborted (Some ($"c")))];
   RollbackBlock 1].

Definition resume : list NItem -> @RolloutReconstruction unit N unit str unit :=
  reconstruct (fun _ => false) (fun _ => false) Some (fun _ => 7%N).

Lemma resumed_session_continues_surviving_turns_witness :
  resume (log_items rolled_back_log)
  = mkReconstruction (Some first_compaction)
      (after_compaction ++ log_items (drop 3 rolled_back_log))
      (Some (mkSettings ($"m2") None None)) (Some (turn_context ($"b") ($"m2")))
      (Some [($"cwd", JString ($"/b"))])
      (mkWindow 1 (Some ($"w0")) (Some ($"w0")) (Some ($"w1")))
  /\ restored_settings (resume (log_items rolled_back_log))
     = head (omap (baseline_settings (fun _ => false) (fun _ => false))
               (surviving_turns (fun _ => false) (fun _ => false) rolled_back_log)).
Proof.
  split; [vm_compute; reflexivity|].
  destruct (resumed_session_continues_surviving_turns (fun _ => false) (fun _ => false) Some (fun _ : str => 7%N) rolled_back_log)
    as (_ & _ & H & _); [|vm_compute; discriminate|exact H].
  repeat constructor.
Defined.
