(* ===== verification/HistoryRebuild.v ===== *)
(** * Rebuilding the history of a resumed session

    From the checkpoint the scan of the log has found (RolloutReplay.v) the
    items after it are recorded again, rollbacks drop the newest turns and a
    compaction without its history is made again from the messages of the user
    (session/rollout_reconstruction.rs, context_manager/history.rs, compact.rs);
    a fork cuts the log before a message (thread_rollout_truncation.rs).
    Arguments are the tests of message texts, what a message of the user says,
    the estimate of audio and the policy for outputs with its allowance, which
    is a product of floats.  The context retained for reviews is not modelled. *)

From S2P Require Import Prelude RustStr Truncate ResponseItem WorldState RolloutReplay.
Import Truncate.

Section rebuild.
Context {Json Number ToolCall TurnContextRest : Type}.
Abbreviation Item := (ResponseItem Json Number ToolCall).
Abbreviation Envelope := (ResponseItemEnvelope Json Number ToolCall).
Abbreviation Log := (list (@RolloutItem Json Number ToolCall TurnContextRest)).
Context (is_contextual_user_message_content is_inter_agent_instruction_content : list ContentItem -> bool).
Context (is_contextual_dev_message_content has_non_contextual_dev_message_content : list ContentItem -> bool).
Context (is_mode_text : str -> bool).
Context (user_message : Item -> option str) (is_summary_message : str -> bool).
Context (estimate_audio_token_count : str -> N) (output_policy : TruncationPolicy).
Abbreviation is_boundary := (is_user_turn_boundary is_contextual_user_message_content is_inter_agent_instruction_content).

(** ** Turns of the history *)

(** [ResponseItem::internal_chat_message_metadata_passthrough]. *)
Definition passthrough (i : Item) : option (Passthrough Number ToolCall) :=
  match i with
  | Message _ _ _ _ meta | AgentMessage _ _ _ _ meta | Reasoning _ _ _ _ meta | LocalShellCall _ _ _ _ meta
  | FunctionCall _ _ _ _ _ _ meta | ToolSearchCall _ _ _ _ _ meta | FunctionCallOutput _ _ _ _ _ meta
  | CustomToolCall _ _ _ _ _ _ meta | CustomToolCallOutput _ _ _ _ meta | ToolSearchOutput _ _ _ _ _ meta
  | WebSearchCall _ _ _ meta | ImageGenerationCall _ _ _ _ meta | Compaction _ _ meta
  | ContextCompaction _ _ meta => meta
  | AdditionalTools _ _ _ | ConfigurationUpdate _ | CompactionTrigger | OtherItem => None
  end.

(** [ResponseItem::turn_id]. *)
Definition item_turn_id (i : Item) : option str :=
  id ← passthrough i ≫= pturn_id; if is_empty id then None else Some id.

Fixpoint positions_from (index : nat) (items : list Envelope) : list nat :=
  match items with
  | [] => []
  | e :: items =>
      if is_boundary (item e) then index :: positions_from (S index) items else positions_from (S index) items
  end.

Definition user_message_positions (items : list Envelope) : list nat := positions_from 0 items.

(** ** Rolling back *)

(** [trim_pre_turn_context_updates]: the new cut, and whether the reference
    context is cleared.  The index is always in range. *)
Fixpoint trim_pre_turn_context_updates (snapshot : list Envelope) (first_instruction_turn_idx cut_idx : nat) (cleared : bool)
  : nat * bool :=
  match cut_idx with
  | O => (cut_idx, cleared)
  | S before =>
      if first_instruction_turn_idx <? cut_idx
      then
        match item <$> nth_error snapshot before with
        | Some (Message _ role content _ _) =>
            if bool_decide (role = $"developer") && is_contextual_dev_message_content content
            then trim_pre_turn_context_updates snapshot first_instruction_turn_idx before
                   (cleared || has_non_contextual_dev_message_content content)
            else if bool_decide (role = $"user") && is_contextual_user_message_content content
            then trim_pre_turn_context_updates snapshot first_instruction_turn_idx before cleared
            else (cut_idx, cleared)
        | _ => (cut_idx, cleared)
        end
      else (cut_idx, cleared)
  end.

Definition is_developer (i : Item) : bool := match i with Message _ role _ _ _ => bool_decide (role = $"developer") | _ => false end.

(** Texts that are made again from the model and effort of the next step. *)
Definition is_mode_content (c : AnnotatedContent) : bool :=
  match annotated c with MInputText text => is_mode_text text | _ => false end.

(** The closure of [retain_mut] for the items of the first turn. *)
Definition retain_item (first_turn_id : str) (e : Envelope) : option Envelope :=
  if bool_decide (item_turn_id (item e) = Some first_turn_id) && is_developer (item e)
  then
    let '(rest, content) := to_annotated_content (item e) in
    content ← content;
    let content := List.filter (fun c => negb (is_mode_content c)) content in
    if is_empty content then None
    else
      let '(i, set) := set_annotated_content rest content in
      if is_some set then Some (mkEnvelope i (metadata e)) else None
  else Some e.

(** [ContextManager::drop_last_n_user_turns]: the items left, and whether the
    reference context is cleared. *)
Definition drop_last_n_user_turns (num_turns : N) (items : list Envelope) : list Envelope * bool :=
  if (num_turns =? 0)%N then (items, false)
  else
    match user_message_positions items with
    | [] => (items, false)
    | (first_instruction_turn_idx :: _) as user_positions =>
        let cut_idx :=
          if (N.of_nat (length user_positions) <=? num_turns)%N then first_instruction_turn_idx
          else nth (length user_positions - N.to_nat num_turns) user_positions 0 in
        let '(cut_idx, cleared) := trim_pre_turn_context_updates items first_instruction_turn_idx cut_idx false in
        let retained_items := take cut_idx items in
        (match (if cut_idx =? first_instruction_turn_idx
                then nth_error items first_instruction_turn_idx ≫= (fun e => item_turn_id (item e))
                else None) with
         | Some first_turn_id => omap (retain_item first_turn_id) retained_items
         | None => retained_items
         end, cleared)
    end.

(** ** Recording items *)

Definition is_api_message (message : Item) (metadata : option CodexHarnessMetadata) : bool :=
  match message with
  | Message _ role _ _ _ => negb (bool_decide (role = $"system"))
  | ConfigurationUpdate _ =>
      match metadata with Some metadata => harness_authored_configuration metadata | None => false end
  | CompactionTrigger | OtherItem => false
  | _ => true
  end.

(** The policy for an output: the override, or that of the turn. *)
Definition policy_of (metadata : option CodexHarnessMetadata) : TruncationPolicy :=
  match metadata ≫= history_truncation_token_limit with Some tokens => Tokens tokens | None => output_policy end.

Definition processed (e : Envelope) : option Envelope :=
  let truncated := fun output => truncate_function_output_payload estimate_audio_token_count output (policy_of (metadata e)) in
  match item e with
  | FunctionCallOutput id call_id name namespace output meta =>
      output ← truncated output; Some (mkEnvelope (FunctionCallOutput id call_id name namespace output meta) (metadata e))
  | CustomToolCallOutput id call_id name output meta =>
      output ← truncated output; Some (mkEnvelope (CustomToolCallOutput id call_id name output meta) (metadata e))
  | _ => Some e
  end.

(** [record_items_with_metadata] for one item; [None] stands for a panic. *)
Definition record_item (items : list Envelope) (e : Envelope) : option (list Envelope) :=
  if is_api_message (item e) (metadata e) then e ← processed e; Some (items ++ [e]) else Some items.

(** ** Compactions without their history (compact.rs) *)

Record CompactedUserMessage : Type := mkUserMessage {
  message_id : option ResponseItemId;
  message_text : str;
  message_meta : option (Passthrough Number ToolCall);
  message_harness : option CodexHarnessMetadata;
}.

Inductive CompactedMessageIdentity : Type := Preserve | Regenerate.

Definition compacted_user_message (e : Envelope) : option CompactedUserMessage :=
  message ← user_message (item e);
  if is_summary_message message then None
  else Some (mkUserMessage (item_id (item e)) message
               (match item e with Message _ _ _ _ meta => meta | _ => None end) (metadata e)).

Definition identified (identity : CompactedMessageIdentity) (m : CompactedUserMessage) : CompactedUserMessage :=
  match identity with
  | Regenerate => mkUserMessage None (message_text m) (message_meta m) (message_harness m)
  | Preserve => m
  end.

Definition collect_annotated_user_messages (items : list Envelope) (identity : CompactedMessageIdentity)
  : list CompactedUserMessage := map (identified identity) (omap compacted_user_message items).

Definition COMPACT_USER_MESSAGE_MAX_TOKENS : N := 20000.

(** The loop over the messages, the last first. *)
Fixpoint select_messages (messages : list CompactedUserMessage) (remaining : N) : option (list CompactedUserMessage) :=
  match messages with
  | [] => Some []
  | m :: messages =>
      if (remaining =? 0)%N then Some []
      else
        let tokens := approx_token_count (message_text m) in
        if (tokens <=? remaining)%N then selected ← select_messages messages (remaining - tokens); Some (m :: selected)
        else
          truncated ← truncate_text (message_text m) (Tokens remaining);
          Some [mkUserMessage (message_id m) truncated (message_meta m) (message_harness m)]
  end.

Definition message_envelope (m : CompactedUserMessage) : Envelope :=
  let i := Message (message_id m) ($"user") [MInputText (message_text m)] None (message_meta m) in
  mkEnvelope
    (if is_some (message_meta m ≫= content_item_kinds)
     then (set_annotated_content i [mkAnnotated (MInputText (message_text m)) ($"user.text")]).1 else i)
    (message_harness m).

(** [CompactionSummary] as a message. *)
Definition summary_item (summary_text : str) : Item :=
  Message None ($"user") [MInputText (if is_empty summary_text then $"(no summary available)" else summary_text)] None
    (Some (with_kinds [$"compaction.summary"] None)).

Definition build_compacted_history_with_limit (history : list Envelope) (user_messages : list CompactedUserMessage)
    (summary_text : str) (max_tokens : N) : option (list Envelope) :=
  selected ← (if (0 <? max_tokens)%N then List.rev (A:=_) <$> select_messages (rev user_messages) max_tokens else Some []);
  Some (history ++ map message_envelope selected ++ [envelope_new (summary_item summary_text)]).

Definition build_compacted_history (initial_context : list Envelope) (user_messages : list CompactedUserMessage)
    (summary_text : str) : option (list Envelope) :=
  build_compacted_history_with_limit initial_context user_messages summary_text COMPACT_USER_MESSAGE_MAX_TOKENS.

(** ** The history *)

Context (identity : CompactedMessageIdentity).

(** One item of the log after the checkpoint. *)
Definition rebuild_step (history : list Envelope) (i : @RolloutItem Json Number ToolCall TurnContextRest)
  : option (list Envelope) :=
  match i with
  | ItemRecord e => record_item history e
  | InterAgentCommunication i => record_item history (envelope_new i)
  | Compacted c =>
      if is_some (replacement_history c) then Some history
      else build_compacted_history [] (collect_annotated_user_messages history identity) (compacted_message c)
  | Event (ThreadRolledBack num_turns) => Some (drop_last_n_user_turns num_turns history).1
  | _ => Some history
  end.

Fixpoint rebuild (history : list Envelope) (l : Log) : option (list Envelope) :=
  match l with
  | [] => Some history
  | i :: l => history ← rebuild_step history i; rebuild history l
  end.

(** The rest of [reconstruct_history_from_rollout]. *)
Definition rebuild_history {Uuid} (r : @RolloutReconstruction Json Number ToolCall Uuid TurnContextRest)
  : option (list Envelope) :=
  rebuild (default [] (history_base r ≫= replacement_history)) (history_suffix r).

(** ** Cutting a log for a fork (thread_rollout_truncation.rs) *)

Definition is_message (i : Item) : bool := match i with Message _ _ _ _ _ => true | _ => false end.

Definition position_step (user_positions : list nat) (index : nat) (i : @RolloutItem Json Number ToolCall TurnContextRest)
  : list nat :=
  match i with
  | ItemRecord e => if is_message (item e) && is_some (user_message (item e)) then user_positions ++ [index] else user_positions
  | Event (ThreadRolledBack num_turns) => take (length user_positions - N.to_nat num_turns) user_positions
  | _ => user_positions
  end.

Fixpoint rollout_positions_from (index : nat) (user_positions : list nat) (items : Log) : list nat :=
  match items with
  | [] => user_positions
  | i :: items => rollout_positions_from (S index) (position_step user_positions index i) items
  end.

Definition user_message_positions_in_rollout (items : Log) : list nat := rollout_positions_from 0 [] items.

Definition truncate_rollout_before_nth_user_message_from_start (items : Log) (n_from_start : N) : Log :=
  if (n_from_start =? USIZE_MAX)%N then items
  else
    let user_positions := user_message_positions_in_rollout items in
    if (N.of_nat (length user_positions) <=? n_from_start)%N then items
    else take (nth (N.to_nat n_from_start) user_positions 0) items.

(** ** Rolling back drops turns of the user *)

Definition boundaries (items : list Envelope) : list Envelope := List.filter (fun e => is_boundary (item e)) items.

Lemma boundaries_app a b : boundaries (a ++ b) = boundaries a ++ boundaries b.
Proof. apply List.filter_app. Qed.

Lemma positions_length items : forall index, length (positions_from index items) = length (boundaries items).
Proof.
  induction items as [|e items IH]; intros index; [done|]. simpl. destruct (is_boundary (item e)); simpl; by rewrite IH.
Qed.

(** Before a position are the boundaries counted before it. *)
Lemma boundaries_before items : forall index k,
  k < length (positions_from index items) ->
  let p := nth k (positions_from index items) 0 in
  index <= p /\ boundaries (take (p - index) items) = take k (boundaries items)
  /\ exists e, nth_error items (p - index) = Some e /\ is_boundary (item e) = true.
Proof.
  induction items as [|e items IH]; intros index k Hk; [simpl in Hk; lia|]. cbn [positions_from] in *.
  destruct (is_boundary (item e)) eqn:E.
  - destruct k as [|k].
    + cbn [nth]. rewrite Nat.sub_diag. split; [lia|]. split; [done|]. by exists e.
    + cbn [nth length] in *. destruct (IH (S index) k) as (Hle & Hb & e' & He & Hbe); [lia|]. split; [lia|].
      replace (nth k (positions_from (S index) items) 0 - index)
        with (S (nth k (positions_from (S index) items) 0 - S index)) by lia.
      split; [|by exists e']. unfold boundaries in *. simpl. rewrite E. simpl. by rewrite Hb.
  - destruct (IH (S index) k Hk) as (Hle & Hb & e' & He & Hbe). split; [lia|].
    replace (nth k (positions_from (S index) items) 0 - index)
      with (S (nth k (positions_from (S index) items) 0 - S index)) by lia.
    split; [|by exists e']. unfold boundaries in *. simpl. by rewrite E.
Qed.

(** Context that belongs to the turn after it. *)
Definition pre_turn_context (i : Item) : bool :=
  match i with
  | Message _ role content _ _ =>
      bool_decide (role = $"developer") && is_contextual_dev_message_content content
      || bool_decide (role = $"user") && is_contextual_user_message_content content
  | _ => false
  end.

Lemma pre_turn_context_no_boundary i : pre_turn_context i = true -> is_boundary i = false.
Proof.
  destruct i as [|id role content phase meta| | | | | | | | | | | | | | | |]; try done. simpl.
  intros [[->%bool_decide_eq_true _]%andb_true_iff|[->%bool_decide_eq_true ->]%andb_true_iff]%orb_true_iff; done.
Qed.

(** The cut moves over context only. *)
Lemma trim_cut snapshot first cut : forall cleared,
  first <= cut ->
  let cut' := (trim_pre_turn_context_updates snapshot first cut cleared).1 in
  first <= cut' <= cut
  /\ forall k e, cut' <= k < cut -> nth_error snapshot k = Some e -> pre_turn_context (item e) = true.
Proof.
  induction cut as [|before IH]; intros cleared Hle; [by split; [simpl; lia|intros; lia]|].
  cbn [trim_pre_turn_context_updates].
  assert (Hstay : first <= S before <= S before
    /\ forall k e, S before <= k < S before -> nth_error snapshot k = Some e -> pre_turn_context (item e) = true)
    by (split; [lia|intros; lia]).
  destruct (Nat.ltb_spec first (S before)) as [Hlt|]; [|done].
  destruct (nth_error snapshot before) as [[i meta]|] eqn:E; [|done]. simpl.
  destruct i as [|id role content phase pass| | | | | | | | | | | | | | | |]; try done.
  assert (Hmove : forall cleared, pre_turn_context (Message id role content phase pass) = true ->
    first <= (trim_pre_turn_context_updates snapshot first before cleared).1 <= S before
    /\ forall k e, (trim_pre_turn_context_updates snapshot first before cleared).1 <= k < S before ->
         nth_error snapshot k = Some e -> pre_turn_context (item e) = true).
  { intros c Hp. destruct (IH c) as [Hb Hk]; [lia|]. split; [lia|]. intros k e Hr He.
    destruct (Nat.eq_dec k before) as [->|]; [by rewrite E in He; injection He as <-|]. apply (Hk k); [lia|done]. }
  destruct (bool_decide (role = $"developer") && _) eqn:Ed; [by apply Hmove; simpl; rewrite Ed|].
  destruct (bool_decide (role = $"user") && _) eqn:Eu; [|done]. apply Hmove. simpl. by rewrite Ed, Eu.
Qed.

Lemma boundaries_skip items lo hi :
  lo <= hi -> (forall k e, lo <= k < hi -> nth_error items k = Some e -> is_boundary (item e) = false) ->
  boundaries (take hi items) = boundaries (take lo items).
Proof.
  revert lo hi. induction items as [|e items IH]; intros lo hi Hle Hno; [by destruct lo, hi|].
  destruct hi as [|hi]; [by assert (lo = 0) as -> by lia|].
  assert (IH' : forall lo, lo <= hi -> (forall k, k < lo -> True) ->
    (forall k e, lo <= k < hi -> nth_error items k = Some e -> is_boundary (item e) = false) ->
    boundaries (take hi items) = boundaries (take lo items)) by (intros lo' ? _ ?; by apply IH).
  destruct lo as [|lo].
  - pose proof (Hno 0 e ltac:(lia) eq_refl) as He. unfold boundaries in *. simpl. rewrite He.
    apply (IH' 0); [lia|done|]. intros k e' Hk. apply (Hno (S k)). lia.
  - unfold boundaries in *. simpl. rewrite (IH' lo); [done|lia|done|]. intros k e' Hk. apply (Hno (S k)). lia.
Qed.

Lemma retain_boundaries id items : boundaries (omap (retain_item id) items) = boundaries items.
Proof.
  induction items as [|e items IH]; [done|]. cbn [omap list_omap].
  change (boundaries (match retain_item id e with Some y => y :: omap (retain_item id) items | None => omap (retain_item id) items end)
          = boundaries (e :: items)).
  unfold retain_item at 1. destruct (bool_decide (item_turn_id (item e) = Some id) && is_developer (item e)) eqn:E.
  - apply andb_true_iff in E as [_ Hd]. destruct e as [i meta]. simpl in Hd.
    destruct i as [|mid role content phase pass| | | | | | | | | | | | | | | |]; try done. simpl in Hd.
    apply bool_decide_eq_true in Hd as ->. simpl.
    destruct (is_empty (List.filter _ _)); unfold boundaries in *; simpl; by rewrite IH.
  - unfold boundaries in *. simpl. by rewrite IH.
Qed.

Lemma positions_lower items : forall index p, In p (positions_from index items) -> index <= p.
Proof.
  induction items as [|e items IH]; intros index p; [done|]. simpl.
  destruct (is_boundary (item e)); [intros [<-|Hp%IH]|intros Hp%IH]; lia.
Qed.

Lemma positions_first items : forall index first positions p,
  positions_from index items = first :: positions -> In p (first :: positions) -> first <= p.
Proof.
  induction items as [|e items IH]; intros index first positions p; [done|]. simpl.
  destruct (is_boundary (item e)); [|by apply IH].
  intros [= <- <-] [<-|Hp%positions_lower]; lia.
Qed.

(** The cut of a rollback: what is before it, and what it skips. *)
Lemma rollback_cut n items first positions :
  user_message_positions items = first :: positions ->
  let len := length (first :: positions) in
  let keep := len - N.to_nat n in
  let cut := if (N.of_nat len <=? n)%N then first else nth keep (first :: positions) 0 in
  let cut' := (trim_pre_turn_context_updates items first cut false).1 in
  (0 < n)%N ->
  boundaries (take cut' items) = take keep (boundaries items)
  /\ (0 < keep -> cut' <> first)
  /\ cut' <= cut
  /\ (exists e, nth_error items cut = Some e /\ is_boundary (item e) = true)
  /\ forall k e, cut' <= k < cut -> nth_error items k = Some e -> pre_turn_context (item e) = true.
Proof.
  intros Ep len keep cut cut' Hn.
  assert (Hkeep : keep < len) by (unfold keep, len; simpl; lia).
  assert (Hcut : cut = nth keep (first :: positions) 0).
  { unfold cut. destruct (N.leb_spec (N.of_nat len) n); [|done]. by replace keep with 0 by lia. }
  assert (Hat : forall k, k < len -> boundaries (take (nth k (first :: positions) 0) items) = take k (boundaries items)
    /\ exists e, nth_error items (nth k (first :: positions) 0) = Some e /\ is_boundary (item e) = true).
  { intros k Hk. unfold user_message_positions in Ep.
    destruct (boundaries_before items 0 k) as (_ & Hb & He); [by rewrite Ep|]. by rewrite Ep, Nat.sub_0_r in Hb, He. }
  assert (Hfirst : first <= cut).
  { rewrite Hcut. apply (positions_first items 0 first positions); [done|]. by apply nth_In. }
  destruct (trim_cut items first cut false Hfirst) as [[Hlo Hhi] Hskip]. fold cut' in Hlo, Hhi, Hskip.
  assert (Hb : boundaries (take cut' items) = take keep (boundaries items)).
  { rewrite <- (boundaries_skip items cut' cut), Hcut; [by apply Hat|done|].
    intros k e Hk He. by apply pre_turn_context_no_boundary, (Hskip k). }
  split; [done|]. split; [|split; [done|split; [|done]]]; [|rewrite Hcut; by apply Hat].
  intros Hpos Heq. rewrite Heq in Hb.
  destruct (Hat 0 ltac:(unfold len; simpl; lia)) as [H0 _]. simpl in H0. rewrite H0 in Hb.
  apply (f_equal length) in Hb. rewrite length_take in Hb.
  assert (len = length (boundaries items)) by (unfold len; rewrite <- Ep; apply positions_length).
  rewrite length_take in Hb. lia.
Qed.

(** A rollback drops the newest turns. *)
Lemma drop_boundaries n items :
  boundaries (drop_last_n_user_turns n items).1 = take (length (boundaries items) - N.to_nat n) (boundaries items).
Proof.
  unfold drop_last_n_user_turns. destruct (N.eqb_spec n 0) as [->|Hn]; [simpl; by rewrite Nat.sub_0_r, firstn_all|].
  pose proof (positions_length items 0) as Hlen. fold (user_message_positions items) in Hlen.
  destruct (user_message_positions items) as [|first positions] eqn:Ep.
  { simpl in *. by destruct (boundaries items). }
  destruct (rollback_cut n items first positions Ep ltac:(lia)) as (Hb & _). rewrite <- Hlen.
  destruct (trim_pre_turn_context_updates items first _ false) as [cut' cleared]. cbn [fst] in *.
  match goal with |- context [match ?t with Some _ => _ | None => _ end] => destruct t end; [by rewrite retain_boundaries|done].
Qed.

(** While turns of the user are left, the history is a prefix that ends before
    the first turn dropped and the context that comes with it. *)
Lemma drop_prefix n items :
  (0 < n)%N -> N.to_nat n < length (boundaries items) ->
  exists cut dropped e,
    (drop_last_n_user_turns n items).1 = take cut items /\ cut <= dropped
    /\ nth_error items dropped = Some e /\ is_boundary (item e) = true
    /\ forall k e, cut <= k < dropped -> nth_error items k = Some e -> pre_turn_context (item e) = true.
Proof.
  intros Hn Hlt. unfold drop_last_n_user_turns. destruct (N.eqb_spec n 0); [lia|].
  pose proof (positions_length items 0) as Hlen. fold (user_message_positions items) in Hlen.
  destruct (user_message_positions items) as [|first positions] eqn:Ep; [simpl in Hlen; lia|].
  destruct (rollback_cut n items first positions Ep Hn) as (_ & Hne & Hle & (e & He & Hbe) & Hskip).
  specialize (Hne ltac:(lia)).
  destruct (trim_pre_turn_context_updates items first _ false) as [cut' cleared]. cbn [fst] in *.
  rewrite (proj2 (Nat.eqb_neq _ _) Hne). by eexists cut', _, e.
Qed.

(** ** The rebuilt history *)

(** The turns of the user after one item of the log. *)
Definition turn_step (turns : list Envelope) (i : @RolloutItem Json Number ToolCall TurnContextRest) : list Envelope :=
  match i with
  | ItemRecord e => if is_boundary (item e) then turns ++ [e] else turns
  | InterAgentCommunication i => if is_boundary i then turns ++ [envelope_new i] else turns
  | Event (ThreadRolledBack num_turns) => take (length turns - N.to_nat num_turns) turns
  | _ => turns
  end.

(** A compaction comes with its history. *)
Definition carries_history (i : @RolloutItem Json Number ToolCall TurnContextRest) : bool :=
  match compacted_item i with Some c => is_some (replacement_history c) | None => true end.

Lemma payload_defined (output : OutputPayload) policy :
  exists output', truncate_function_output_payload estimate_audio_token_count output policy = Some output'.
Proof.
  unfold truncate_function_output_payload. destruct (body output) as [text|items].
  - destruct (truncate_text_defined text policy) as [r ->]. by eexists.
  - destruct (items_fit_budget estimate_audio_token_count items policy) as (? & ? & ? & ? & -> & _). by eexists.
Qed.

Lemma record_item_turns items e :
  exists items', record_item items e = Some items' /\ boundaries items' = turn_step (boundaries items) (ItemRecord e).
Proof.
  unfold record_item. simpl.
  destruct (is_api_message (item e) (metadata e)) eqn:Eapi.
  - assert (Hp : exists e', processed e = Some e' /\ boundaries [e'] = boundaries [e]).
    { unfold processed. destruct e as [i meta]. simpl.
      destruct i as [| | | | | | |id call_id name namespace output pass| |id call_id name output pass| | | | | | | |]; try done;
        lazymatch goal with |- context [truncate_function_output_payload] => idtac | |- _ => by eexists end.
      all: destruct (payload_defined output (policy_of meta)) as [output' E]; rewrite E; simpl; by eexists. }
    destruct Hp as (e' & -> & Hb). exists (items ++ [e']). split; [done|]. rewrite boundaries_app, Hb.
    unfold boundaries. simpl. destruct (is_boundary (item e)); [done|by rewrite app_nil_r].
  - exists items. split; [done|]. destruct e as [i meta]. simpl in *.
    destruct i as [|id role content phase pass| | | | | | | | | | | | | | | |]; try done. simpl in *.
    by apply negb_false_iff, bool_decide_eq_true in Eapi as ->.
Qed.

Lemma rebuild_step_turns history i :
  carries_history i = true ->
  exists history', rebuild_step history i = Some history' /\ boundaries history' = turn_step (boundaries history) i.
Proof.
  destruct i as [w|e|i|c|c|w|[n|id|id|id| |]|]; intros Hc; try (by exists history).
  - apply record_item_turns.
  - apply (record_item_turns history (envelope_new i)).
  - exists history. unfold carries_history in Hc. simpl in *. by rewrite Hc.
  - exists (drop_last_n_user_turns n history).1. split; [done|]. apply drop_boundaries.
Qed.

(** C12: Rebuilding the history from a checkpoint never fails, and its turns of
    the user are those of the checkpoint and of the log in their order, where a
    rollback drops the newest ones, when every compaction carries its history. *)
Theorem rebuilt_history_follows_rollbacks (history : list Envelope) (l : Log) :
  forallb carries_history l = true ->
  exists history', rebuild history l = Some history' /\ boundaries history' = fold_left turn_step l (boundaries history).
Proof.
  revert history. induction l as [|i l IH]; intros history; [by exists history|].
  cbn [forallb]. intros [Hi Hl]%andb_true_iff. destruct (rebuild_step_turns history i Hi) as (h & Hh & Hb).
  destruct (IH h Hl) as (h' & Hh' & Hb'). exists h'. cbn [rebuild fold_left]. rewrite Hh. cbn [mbind option_bind].
  by rewrite Hb' , Hb.
Qed.

(** ** Compactions made again *)

Definition total_tokens (messages : list CompactedUserMessage) : N :=
  fold_right (fun m n => (approx_token_count (message_text m) + n)%N) 0%N messages.

Definition with_text (text : str) (m : CompactedUserMessage) : CompactedUserMessage :=
  mkUserMessage (message_id m) text (message_meta m) (message_harness m).

(** The newest [k] messages fit whole; at most the next is cut to what is left. *)
Inductive selected (messages : list CompactedUserMessage) (k : nat) (remaining : N) : list CompactedUserMessage -> Prop :=
| SelectedWhole : k = length messages \/ remaining = 0%N -> selected messages k remaining []
| SelectedCut m text :
    nth_error messages k = Some m -> (remaining < approx_token_count (message_text m))%N ->
    truncate_text (message_text m) (Tokens remaining) = Some text ->
    selected messages k remaining [with_text text m].

Lemma select_selected messages : forall remaining,
  exists k cut, select_messages messages remaining = Some (take k messages ++ cut)
    /\ k <= length messages /\ (total_tokens (take k messages) <= remaining)%N
    /\ selected messages k (remaining - total_tokens (take k messages)) cut.
Proof.
  induction messages as [|m messages IH]; intros remaining.
  { exists 0, []. split_and!; [done|done|simpl; lia|]. by left; left. }
  cbn [select_messages]. destruct (N.eqb_spec remaining 0) as [->|Hr].
  { exists 0, []. split_and!; [done|simpl; lia|simpl; lia|]. by left; right. }
  destruct (N.leb_spec (approx_token_count (message_text m)) remaining) as [Hle|Hgt].
  - destruct (IH (remaining - approx_token_count (message_text m))%N) as (k & cut & -> & Hk & Ht & Hs).
    exists (S k), cut. simpl. split_and!; [done|lia|lia|].
    replace (remaining - (approx_token_count (message_text m) + total_tokens (take k messages)))%N
      with (remaining - approx_token_count (message_text m) - total_tokens (take k messages))%N by lia.
    destruct Hs as [Hs|m' text Hm Hlt Htext]; [left; destruct Hs as [->|]; [by left|by right]|by right].
  - destruct (truncate_text_defined (message_text m) (Tokens remaining)) as [text E]. rewrite E.
    exists 0, [with_text text m]. split_and!; [done|simpl; lia|simpl; lia|].
    apply SelectedCut; [done|simpl; by rewrite N.sub_0_r|by rewrite N.sub_0_r].
Qed.

(** A compaction that is made again keeps the newest messages of the user that
    fit into the limit together, in their order, then the summary; at most one
    older message is there in part. *)
Theorem compaction_keeps_newest_messages (history : list Envelope) (messages : list CompactedUserMessage)
    (summary_text : str) (max_tokens : N) :
  (0 < max_tokens)%N ->
  exists k cut,
    let whole := drop (length messages - k) messages in
    build_compacted_history_with_limit history messages summary_text max_tokens
    = Some (history ++ map message_envelope (cut ++ whole) ++ [envelope_new (summary_item summary_text)])
    /\ k <= length messages /\ (total_tokens (rev whole) <= max_tokens)%N
    /\ selected (rev messages) k (max_tokens - total_tokens (rev whole)) cut.
Proof.
  intros Hmax. destruct (select_selected (rev messages) max_tokens) as (k & cut & E & Hk & Ht & Hs).
  rewrite firstn_rev in E, Ht, Hs. rewrite length_rev in Hk.
  exists k, cut. unfold build_compacted_history_with_limit. rewrite (proj2 (N.ltb_lt _ _) Hmax), E. simpl.
  rewrite rev_app_distr, rev_involutive.
  assert (Hcut : rev cut = cut) by (by destruct Hs). by rewrite Hcut.
Qed.

(** ** Forks *)

(** The positions are a stack: its first entries are those of the log up to the
    next one. *)
Lemma positions_prefix n (items : Log) : forall index stack,
  let final := rollout_positions_from index stack items in
  n < length final ->
  let p := nth n final 0 in
  (n < length stack /\ take (S n) final = take (S n) stack)
  \/ (index <= p /\ rollout_positions_from index stack (take (p - index) items) = take n final).
Proof.
  induction items as [|i items IH]; intros index stack final Hn p; [by left|].
  destruct (IH (S index) (position_step stack index i) Hn) as [[Hlt Heq]|[Hle Heq]];
    change (rollout_positions_from (S index) (position_step stack index i) items) with final in *.
  - assert (Hcases : position_step stack index i = stack \/ position_step stack index i = stack ++ [index]
              \/ exists m, position_step stack index i = take m stack).
    { destruct i as [w|e|j|c|c|w|[m|id|id|id| |]|]; simpl; try (by left); [|by right; right; eexists].
      destruct (is_message (item e) && _); [by right; left|by left]. }
    destruct Hcases as [E|[E|[m E]]]; rewrite E in Hlt, Heq.
    + by left.
    + rewrite length_app in Hlt. simpl in Hlt. destruct (decide (n < length stack)) as [Hs|Hs].
      * left. split; [done|]. by rewrite Heq, take_app_le by lia.
      * right. assert (n = length stack) as -> by lia.
        assert (Hf : take (S (length stack)) final = stack ++ [index])
          by (rewrite Heq; apply firstn_all2; rewrite length_app; simpl; lia).
        assert (Hp : p = index).
        { unfold p. rewrite <- (firstn_skipn (S (length stack)) final), Hf, app_nth1, app_nth2, Nat.sub_diag;
            [done|lia|rewrite length_app; simpl; lia]. }
        rewrite Hp, Nat.sub_diag. split; [lia|]. simpl.
        apply (f_equal (take (length stack))) in Hf. rewrite take_take, Nat.min_l in Hf by lia.
        rewrite Hf, take_app_le, firstn_all by lia. done.
    + left. rewrite length_take in Hlt. split; [lia|]. rewrite Heq, take_take. f_equal. lia.
  - right. split; [unfold p; lia|]. unfold p. replace (nth n final 0 - index) with (S (nth n final 0 - S index)) by lia.
    done.
Qed.

(** A fork before a message keeps the messages before it, and no other. *)
Theorem fork_keeps_first_messages (items : Log) (n : N) :
  (n < USIZE_MAX)%N ->
  user_message_positions_in_rollout (truncate_rollout_before_nth_user_message_from_start items n)
  = take (N.to_nat n) (user_message_positions_in_rollout items).
Proof.
  intros Hn. unfold truncate_rollout_before_nth_user_message_from_start. destruct (N.eqb_spec n USIZE_MAX); [lia|].
  destruct (N.leb_spec (N.of_nat (length (user_message_positions_in_rollout items))) n).
  { rewrite firstn_all2; [done|lia]. }
  destruct (positions_prefix (N.to_nat n) items 0 []) as [[Hlt _]|[_ Heq]]; [fold (user_message_positions_in_rollout items); lia| |].
  - simpl in Hlt. lia.
  - by rewrite Nat.sub_0_r in Heq.
Qed.

End rebuild.

(** ** Witness *)

Abbreviation LogItem := (@RolloutItem unit N unit unit).

Definition said (role text : str) : ResponseItem unit N unit := Message None role [MInputText text] None None.

Definition said_record (role text : str) : LogItem := ItemRecord (envelope_new (said role text)).

Definition never_context (content : list ContentItem) : bool := false.

Definition rebuilt (base : list (ResponseItemEnvelope unit N unit)) (l : list LogItem)
  : option (list (ResponseItemEnvelope unit N unit)) :=
  rebuild never_context never_context never_context never_context (fun _ => false) (fun _ => None) (fun _ => false)
    (fun _ => 0%N) (Bytes 1000) Regenerate base l.

(** The second turn has two messages of the user. *)
Definition steered_log : list LogItem :=
  [Event (TurnStarted ($"a")); said_record ($"user") ($"one"); TurnContext (mkTurnContext (Some ($"a")) ($"m1") None None tt);
   said_record ($"assistant") ($"yes"); Event (TurnComplete ($"a"));
   Event (TurnStarted ($"b")); said_record ($"user") ($"two"); TurnContext (mkTurnContext (Some ($"b")) ($"m2") None None tt);
   said_record ($"user") ($"more"); Event (TurnComplete ($"b"));
   Event (ThreadRolledBack 1)].

Lemma rebuilt_history_follows_rollbacks_witness :
  rebuilt [] steered_log
  = Some (map envelope_new [said ($"user") ($"one"); said ($"assistant") ($"yes"); said ($"user") ($"two")])
  /\ exists history', rebuilt [] steered_log = Some history'
     /\ boundaries never_context never_context history'
        = fold_left (turn_step never_context never_context) steered_log [].
Proof.
  split; [vm_compute; reflexivity|].
  apply (rebuilt_history_follows_rollbacks never_context never_context never_context never_context (fun _ => false)
           (fun _ => None) (fun _ => false) (fun _ => 0%N) (Bytes 1000) Regenerate [] steered_log).
  vm_compute. reflexivity.
Defined.

(** The scan of the log drops the whole turn for the same rollback, so the
    settings are those of the turn before. *)
Example rollback_of_a_steered_turn :
  restored_settings (reconstruct (Uuid:=unit) never_context never_context (fun _ => None) (fun _ => 0%N) steered_log)
  = Some (mkSettings ($"m1") None None)
  /\ option_map (map item) (rebuilt [] steered_log)
     = Some [said ($"user") ($"one"); said ($"assistant") ($"yes"); said ($"user") ($"two")].
Proof. split; vm_compute; reflexivity. Qed.
