(* ===== verification/TurnDiff.v ===== *)
(** * The net diff of a turn (core/src/turn_diff_tracker.rs)

    The tracker follows the deltas that patches report, without reading the file
    system, and renders the texts at the start of the turn against the texts now.
    Rendered parts are cached by the revisions of the texts they show.

    SHA-1 and the crate that renders unified diffs are arguments, and so is the
    order in which a hash map is walked.  Revisions are unbounded: one is spent
    per recorded text. *)

From S2P Require Import Prelude RustStr Utf8 PatchTypes ExecutorFs PatchApply ExecPolicy.

Definition ZERO_OID : str := replicate 40 48%N.
Definition DEV_NULL : str := $"/dev/null".
Definition REGULAR_FILE_MODE : str := $"100644".

Record TrackedContent : Type := mkTracked { content : str; revision : N }.

(** [git_blob_oid]; [sha1_hex] is the digest in lower-case hexadecimal. *)
Definition git_blob_oid (sha1_hex : list N -> str) (text : str) : str :=
  let data := encode text in
  sha1_hex (encode ($"blob " ++ show_nat (length data)) ++ [0%N] ++ data).

Section tracker.
Context {P : Type} `{Countable P} `{!PathUriOps P}.
Context (relative_path_from : P -> P -> option str).
Context (sha1_hex : list N -> str).
Context (unified_text : str -> str -> str -> str -> str).

Record TrackedPath : Type := mkPath { environment_id : str; tracked_path : P }.

#[export] Instance TrackedPath_eq_dec : EqDecision TrackedPath.
Proof. solve_decision. Defined.

#[export] Instance TrackedPath_countable : Countable TrackedPath.
Proof.
  by refine (inj_countable' (fun p => (environment_id p, tracked_path p))
               (fun '(e, p) => mkPath e p) _); intros [].
Defined.

Context (hash_order : list TrackedPath -> list TrackedPath).

Abbreviation DiffCacheKey := (TrackedPath * option N * (TrackedPath * option N))%type (only parsing).
Abbreviation Contents := (gmap TrackedPath TrackedContent) (only parsing).

Record TurnDiffTracker : Type := mkTracker {
  valid : bool;
  display_roots_by_environment : gmap str P;
  baseline_by_path : Contents;
  current_by_path : Contents;
  origin_by_current_path : gmap TrackedPath TrackedPath;
  next_revision : N;
  rendered_diffs : gmap DiffCacheKey (option str);
  unified_diff : option str;
}.

Definition with_environment_display_roots (display_roots : list (str * P)) : TurnDiffTracker :=
  mkTracker true (list_to_map (rev display_roots)) ∅ ∅ ∅ 0 ∅ None.

Definition set_baseline (m : Contents) (t : TurnDiffTracker) : TurnDiffTracker :=
  mkTracker (valid t) (display_roots_by_environment t) m (current_by_path t)
    (origin_by_current_path t) (next_revision t) (rendered_diffs t) (unified_diff t).
Definition set_current (m : Contents) (t : TurnDiffTracker) : TurnDiffTracker :=
  mkTracker (valid t) (display_roots_by_environment t) (baseline_by_path t) m
    (origin_by_current_path t) (next_revision t) (rendered_diffs t) (unified_diff t).
Definition set_origin (m : gmap TrackedPath TrackedPath) (t : TurnDiffTracker) : TurnDiffTracker :=
  mkTracker (valid t) (display_roots_by_environment t) (baseline_by_path t) (current_by_path t)
    m (next_revision t) (rendered_diffs t) (unified_diff t).

(** ** Recording changes *)

(** [tracked_content] followed by the insertion of its result. *)
Definition insert_baseline (path : TrackedPath) (text : str) (t : TurnDiffTracker)
  : TurnDiffTracker :=
  mkTracker (valid t) (display_roots_by_environment t)
    (<[path := mkTracked text (next_revision t)]> (baseline_by_path t)) (current_by_path t)
    (origin_by_current_path t) (next_revision t + 1) (rendered_diffs t) (unified_diff t).
Definition insert_current (path : TrackedPath) (text : str) (t : TurnDiffTracker)
  : TurnDiffTracker :=
  mkTracker (valid t) (display_roots_by_environment t) (baseline_by_path t)
    (<[path := mkTracked text (next_revision t)]> (current_by_path t))
    (origin_by_current_path t) (next_revision t + 1) (rendered_diffs t) (unified_diff t).

Definition untracked (t : TurnDiffTracker) (path : TrackedPath) : bool :=
  is_none (current_by_path t !! path) && is_none (baseline_by_path t !! path).

(** The text that was replaced is the baseline of a path seen for the first time. *)
Definition note_baseline (path : TrackedPath) (text : option str) (t : TurnDiffTracker)
  : TurnDiffTracker :=
  if untracked t path then
    match text with Some text => insert_baseline path text t | None => t end
  else t.

Definition apply_add (path : TrackedPath) (text : str) (overwritten_content : option str)
    (t : TurnDiffTracker) : TurnDiffTracker :=
  let t := set_origin (delete path (origin_by_current_path t)) t in
  let t := note_baseline path overwritten_content t in
  insert_current path text t.

Definition apply_delete (path : TrackedPath) (text : str) (t : TurnDiffTracker)
  : TurnDiffTracker :=
  let removed := current_by_path t !! path in
  let t := set_current (delete path (current_by_path t)) t in
  let t := if is_none removed && is_none (baseline_by_path t !! path)
           then insert_baseline path text t else t in
  set_origin (delete path (origin_by_current_path t)) t.

Definition apply_update (source_path : TrackedPath) (move_path : option TrackedPath)
    (old_content : str) (overwritten_move_content : option str) (new_content : str)
    (t : TurnDiffTracker) : TurnDiffTracker :=
  let t := note_baseline source_path (Some old_content) t in
  match move_path with
  | Some dest_path =>
      let t := note_baseline dest_path overwritten_move_content t in
      let origin := default source_path (origin_by_current_path t !! source_path) in
      let t := set_origin (delete source_path (origin_by_current_path t)) t in
      let t := set_current (delete source_path (current_by_path t)) t in
      let t := insert_current dest_path new_content t in
      let t := set_origin (delete dest_path (origin_by_current_path t)) t in
      if bool_decide (dest_path <> origin)
      then set_origin (<[dest_path := origin]> (origin_by_current_path t)) t
      else t
  | None => insert_current source_path new_content t
  end.

Definition apply_change (environment : str) (c : AppliedPatchChange P) (t : TurnDiffTracker)
  : TurnDiffTracker :=
  let source_path := mkPath environment (change_path c) in
  match change c with
  | AppliedPatchFileChange.Add text overwritten => apply_add source_path text overwritten t
  | AppliedPatchFileChange.Delete text => apply_delete source_path text t
  | AppliedPatchFileChange.Update move_path old overwritten new =>
      apply_update source_path (mkPath environment <$> move_path) old overwritten new t
  end.

(** ** Rendering *)

Definition display_path (roots : gmap str P) (path : TrackedPath) : str :=
  let display :=
    default (inferred_native_path_string (tracked_path path))
      (root ← roots !! environment_id path; relative_path_from (tracked_path path) root) in
  if (1 <? base.size roots) && negb (is_empty (environment_id path))
  then environment_id path ++ [47%N] ++ display
  else display.

Definition to_git_path (s : str) : str := map (fun c => if (c =? 92)%N then 47%N else c) s.

Definition NL : str := [10%N].

(** [None] when there is nothing to show. *)
Definition render_diff (roots : gmap str P) (left_path : TrackedPath) (left_content : option str)
    (right_path : TrackedPath) (right_content : option str) : option str :=
  if bool_decide (left_content = right_content) then None
  else
    let left_display := to_git_path (display_path roots left_path) in
    let right_display := to_git_path (display_path roots right_path) in
    let oid text := match text with Some text => git_blob_oid sha1_hex text | None => ZERO_OID end in
    let mode :=
      match left_content, right_content with
      | None, Some _ => $"new file mode " ++ REGULAR_FILE_MODE ++ NL
      | Some _, None => $"deleted file mode " ++ REGULAR_FILE_MODE ++ NL
      | _, _ => []
      end in
    let old_header := if is_some left_content then $"a/" ++ left_display else DEV_NULL in
    let new_header := if is_some right_content then $"b/" ++ right_display else DEV_NULL in
    Some ($"diff --git a/" ++ left_display ++ $" b/" ++ right_display ++ NL ++ mode
          ++ $"index " ++ oid left_content ++ $".." ++ oid right_content ++ NL
          ++ unified_text (default [] left_content) (default [] right_content) old_header new_header).

Definition keys {V} (m : gmap TrackedPath V) : list TrackedPath :=
  hash_order (map fst (map_to_list m)).

(** A destination is shown as a rename of its origin when the origin is gone and
    the destination is new; [collect] keeps the last destination of an origin. *)
Definition rename_pair (t : TurnDiffTracker) (dest_path : TrackedPath)
  : option (TrackedPath * TrackedPath) :=
  origin_path ← origin_by_current_path t !! dest_path;
  if bool_decide (dest_path = origin_path)
     || is_some (current_by_path t !! origin_path)
     || is_none (current_by_path t !! dest_path)
     || is_none (baseline_by_path t !! origin_path)
     || is_some (baseline_by_path t !! dest_path)
  then None else Some (origin_path, dest_path).

Definition rename_pairs (t : TurnDiffTracker) : gmap TrackedPath TrackedPath :=
  fold_left (fun m '(origin, dest) => <[origin := dest]> m)
    (omap (rename_pair t) (keys (origin_by_current_path t))) ∅.

(** [sort_by_key] by the displayed path, and [dedup]. *)
Fixpoint insert_displayed (roots : gmap str P) (x : TrackedPath) (l : list TrackedPath)
  : list TrackedPath :=
  match l with
  | [] => [x]
  | y :: l' =>
      if Policy.lex_leb N.leb (display_path roots x) (display_path roots y)
      then x :: l else y :: insert_displayed roots x l'
  end.

Definition sort_displayed (roots : gmap str P) (l : list TrackedPath) : list TrackedPath :=
  fold_right (insert_displayed roots) [] l.

Fixpoint dedup (l : list TrackedPath) : list TrackedPath :=
  match l with
  | x :: (y :: _) as l' => if bool_decide (x = y) then dedup l' else x :: dedup l'
  | _ => l
  end.

Definition sorted_paths (t : TurnDiffTracker) : list TrackedPath :=
  dedup (sort_displayed (display_roots_by_environment t)
           (keys (baseline_by_path t) ++ keys (current_by_path t))).

(** The loop of [refresh_unified_diff]. *)
Record Refresh : Type := mkRefresh {
  handled : list TrackedPath;
  previous_diffs : gmap DiffCacheKey (option str);
  new_diffs : gmap DiffCacheKey (option str);
  aggregated : str;
}.

Definition push_rendered (rendered : option str) (aggregated : str) : str :=
  match rendered with
  | Some diff =>
      let aggregated := aggregated ++ diff in
      if last_is (fun c => (c =? 10)%N) aggregated then aggregated else aggregated ++ NL
  | None => aggregated
  end.

Definition refresh_path (t : TurnDiffTracker) (renames : gmap TrackedPath TrackedPath)
    (path : TrackedPath) (r : Refresh) : Refresh :=
  if bool_decide (path ∈ handled r) then r
  else
    let handled_paths := path :: handled r in
    if bool_decide (path ∈ map snd (map_to_list renames))
    then mkRefresh handled_paths (previous_diffs r) (new_diffs r) (aggregated r)
    else
      let '(right_path, handled_paths) :=
        match renames !! path with
        | Some dest => (dest, dest :: handled_paths)
        | None => (path, handled_paths)
        end in
      let left_content := baseline_by_path t !! path in
      let right_content := current_by_path t !! right_path in
      let key := (path, revision <$> left_content, (right_path, revision <$> right_content)) in
      let rendered :=
        default (render_diff (display_roots_by_environment t) path (content <$> left_content)
                   right_path (content <$> right_content))
          (previous_diffs r !! key) in
      mkRefresh handled_paths (delete key (previous_diffs r)) (<[key := rendered]> (new_diffs r))
        (push_rendered rendered (aggregated r)).

Definition refresh_unified_diff (t : TurnDiffTracker) : TurnDiffTracker :=
  let r := fold_left (fun r path => refresh_path t (rename_pairs t) path r) (sorted_paths t)
             (mkRefresh [] (rendered_diffs t) ∅ []) in
  mkTracker (valid t) (display_roots_by_environment t) (baseline_by_path t) (current_by_path t)
    (origin_by_current_path t) (next_revision t) (new_diffs r)
    (if is_empty (aggregated r) then None else Some (aggregated r)).

(** ** The interface *)

Definition invalidate (t : TurnDiffTracker) : TurnDiffTracker :=
  mkTracker false (display_roots_by_environment t) (baseline_by_path t) (current_by_path t)
    (origin_by_current_path t) (next_revision t) ∅ None.

Definition track_delta (environment : str) (delta : AppliedPatchDelta P) (t : TurnDiffTracker)
  : TurnDiffTracker :=
  if negb (valid t) then t
  else if negb (exact delta) then invalidate t
  else refresh_unified_diff (fold_left (fun t c => apply_change environment c t) (changes delta) t).

Definition has_unified_diff (t : TurnDiffTracker) : bool := is_some (unified_diff t).

End tracker.
