(* ===== verification/TurnDiffSpec.v ===== *)
(** * What the diff of a turn shows

    The cache changes nothing; the texts that are compared are those at the start
    of the turn and those now, for every path that a patch changed; and every
    path is shown once.  The deltas are the ones that applying patches reports
    (PatchApplySpec.v), in any number of environments. *)

From S2P Require Import Prelude RustStr Utf8 PatchTypes ExecutorFs PatchApply PatchApplySpec ExecPolicy TurnDiff.

Import PatchApplySpec.

(** ** Caching *)

Section tracker.
Context {P : Type} `{Countable P} `{!PathUriOps P}.
Context (relative_path_from : P -> P -> option str).
Context (sha1_hex : list N -> str).
Context (unified_text : str -> str -> str -> str -> str).
Context (hash_order : list (@TrackedPath P) -> list (@TrackedPath P)).
Context (hash_order_perm : forall l, Permutation (hash_order l) l).

Abbreviation Tracker := (@TurnDiffTracker P _ _) (only parsing).
Abbreviation Path := (@TrackedPath P) (only parsing).
Implicit Types (t : Tracker) (p q l r path : Path) (texts : N -> str).

Definition before t p : option str := content <$> baseline_by_path t !! p.
Definition after t p : option str := content <$> current_by_path t !! p.

Abbreviation rendered_at t := (render_diff relative_path_from sha1_hex unified_text (display_roots_by_environment t)) (only parsing).
Abbreviation refreshed := (refresh_unified_diff relative_path_from sha1_hex unified_text hash_order) (only parsing).
Abbreviation tracked_delta := (track_delta relative_path_from sha1_hex unified_text hash_order) (only parsing).

(** A revision stands for one text. *)
Definition known texts (next : N) (m : gmap Path TrackedContent) : Prop :=
  forall p c, m !! p = Some c -> content c = texts (revision c) /\ (revision c < next)%N.

Definition below (next : N) (rev : option N) : Prop :=
  match rev with Some rev => (rev < next)%N | None => True end.

Definition cached t texts (diffs : gmap (Path * option N * (Path * option N)) (option str)) : Prop :=
  forall l lrev r rrev rendered, diffs !! (l, lrev, (r, rrev)) = Some rendered ->
    below (next_revision t) lrev /\ below (next_revision t) rrev
    /\ rendered = rendered_at t l (texts <$> lrev) r (texts <$> rrev).

Definition cache_ok t : Prop :=
  exists texts, known texts (next_revision t) (baseline_by_path t)
    /\ known texts (next_revision t) (current_by_path t) /\ cached t texts (rendered_diffs t).

Lemma known_insert texts next m p text :
  known texts next m ->
  known (fun n => if (n =? next)%N then text else texts n) (next + 1) (<[p := mkTracked text next]> m).
Proof.
  intros Hk q c. destruct (decide (p = q)) as [<-|Hne].
  - rewrite lookup_insert_eq. intros [= <-]. simpl. rewrite N.eqb_refl. split; [done|lia].
  - rewrite lookup_insert_ne by done. intros Hc. destruct (Hk q c Hc) as [E Hlt].
    rewrite (proj2 (N.eqb_neq _ _)) by lia. split; [done|lia].
Qed.

Lemma known_more texts next m text :
  known texts next m -> known (fun n => if (n =? next)%N then text else texts n) (next + 1) m.
Proof.
  intros Hk q c Hc. destruct (Hk q c Hc) as [E Hlt].
  rewrite (proj2 (N.eqb_neq _ _)) by lia. split; [done|lia].
Qed.

Lemma known_delete texts next m p : known texts next m -> known texts next (delete p m).
Proof. intros Hk q c Hc. apply lookup_delete_Some in Hc as [_ Hc]. by apply Hk with q. Qed.

Lemma fmap_more texts next text (rev : option N) :
  below next rev -> (fun n => if (n =? next)%N then text else texts n) <$> rev = texts <$> rev.
Proof.
  destruct rev as [n|]; simpl; [|done]. intros Hlt. by rewrite (proj2 (N.eqb_neq _ _)) by lia.
Qed.

Lemma below_more next rev : below next rev -> below (next + 1) rev.
Proof. destruct rev; simpl; lia. Qed.

Lemma cached_more t t' texts text diffs :
  display_roots_by_environment t' = display_roots_by_environment t ->
  next_revision t' = (next_revision t + 1)%N -> cached t texts diffs ->
  cached t' (fun n => if (n =? next_revision t)%N then text else texts n) diffs.
Proof.
  intros Hd Hn Hc l lrev r rrev rendered Hk. destruct (Hc _ _ _ _ _ Hk) as (Hl & Hr & E).
  rewrite Hn, Hd, !fmap_more by done. by split_and!; [apply below_more..|].
Qed.

Lemma cache_ok_insert_baseline p text t : cache_ok t -> cache_ok (insert_baseline p text t).
Proof.
  intros (texts & Hb & Hc & Hd). eexists (fun n => if (n =? next_revision t)%N then text else texts n).
  split_and!; [by apply known_insert|by apply known_more|by eapply cached_more].
Qed.

Lemma cache_ok_insert_current p text t : cache_ok t -> cache_ok (insert_current p text t).
Proof.
  intros (texts & Hb & Hc & Hd). eexists (fun n => if (n =? next_revision t)%N then text else texts n).
  split_and!; [by apply known_more|by apply known_insert|by eapply cached_more].
Qed.

Lemma cache_ok_set_origin m t : cache_ok t -> cache_ok (set_origin m t).
Proof. done. Qed.

Lemma cache_ok_delete p m t :
  m = delete p (current_by_path t) -> cache_ok t -> cache_ok (set_current m t).
Proof.
  intros -> (texts & Hb & Hc & Hd). exists texts. split_and!; [done|by apply known_delete|done].
Qed.

Lemma cache_ok_note p text t : cache_ok t -> cache_ok (note_baseline p text t).
Proof.
  intros Ht. unfold note_baseline. destruct (untracked t p); [|done].
  destruct text; [by apply cache_ok_insert_baseline|done].
Qed.

Lemma cache_ok_change e c t : cache_ok t -> cache_ok (apply_change e c t).
Proof.
  intros Ht. unfold apply_change, apply_add, apply_delete, apply_update.
  destruct (change c) as [text o|text|[dest|] old o new]; simpl;
    repeat first [ apply cache_ok_insert_current | apply cache_ok_set_origin
                 | eapply cache_ok_delete; [reflexivity|]
                 | apply cache_ok_note | apply cache_ok_insert_baseline | case_if | done ].
Qed.

(** ** The diff without the cache *)

(** The pairs of paths that are compared, in order. *)
Fixpoint plan (renames : gmap Path Path) (handled : list Path) (paths : list Path)
  : list (Path * Path) :=
  match paths with
  | [] => []
  | p :: paths =>
      if bool_decide (p ∈ handled) then plan renames handled paths
      else if bool_decide (p ∈ map snd (map_to_list renames))
      then plan renames (p :: handled) paths
      else match renames !! p with
           | Some dest => (p, dest) :: plan renames (dest :: p :: handled) paths
           | None => (p, p) :: plan renames (p :: handled) paths
           end
  end.

Definition shown t : list (Path * Path) :=
  plan (rename_pairs hash_order t) [] (sorted_paths relative_path_from hash_order t).

(** The concatenation of the diffs of some pairs. *)
Definition diff_text t (x0 x : Path -> option str) (pairs : list (Path * Path)) : option str :=
  let text := fold_left (fun text '(l, r) => push_rendered (rendered_at t l (x0 l) r (x r)) text) pairs [] in
  if is_empty text then None else Some text.

Lemma render_cached t texts diffs p q :
  known texts (next_revision t) (baseline_by_path t) ->
  known texts (next_revision t) (current_by_path t) -> cached t texts diffs ->
  let key := (p, revision <$> baseline_by_path t !! p, (q, revision <$> current_by_path t !! q)) in
  default (rendered_at t p (before t p) q (after t q)) (diffs !! key) = rendered_at t p (before t p) q (after t q)
  /\ cached t texts (<[key := rendered_at t p (before t p) q (after t q)]> diffs).
Proof.
  intros Hb Hc Hd key.
  assert (Eb : texts <$> (revision <$> baseline_by_path t !! p) = before t p
    /\ below (next_revision t) (revision <$> baseline_by_path t !! p)).
  { unfold before. destruct (baseline_by_path t !! p) as [c|] eqn:E; simpl; [|done].
    destruct (Hb p c E) as [-> Hlt]. by split. }
  assert (Ec : texts <$> (revision <$> current_by_path t !! q) = after t q
    /\ below (next_revision t) (revision <$> current_by_path t !! q)).
  { unfold after. destruct (current_by_path t !! q) as [c|] eqn:E; simpl; [|done].
    destruct (Hc q c E) as [-> Hlt]. by split. }
  destruct Eb as [Eb Lb], Ec as [Ec Lc]. split.
  - destruct (diffs !! key) as [rendered|] eqn:E; simpl; [|done].
    destruct (Hd _ _ _ _ _ E) as (_ & _ & ->). by rewrite Eb, Ec.
  - intros l lrev r rrev rendered Hk. destruct (decide (key = (l, lrev, (r, rrev)))) as [E|Hne].
    + unfold key in E. injection E as <- <- <- <-. rewrite lookup_insert_eq in Hk. injection Hk as <-.
      by rewrite Eb, Ec.
    + rewrite lookup_insert_ne in Hk by done. by apply Hd.
Qed.

Lemma cached_delete t texts diffs key : cached t texts diffs -> cached t texts (delete key diffs).
Proof.
  intros Hd l lrev r rrev rendered Hk. apply lookup_delete_Some in Hk as [_ Hk]. by apply Hd.
Qed.

Lemma refresh_paths t texts renames paths : forall rs,
  known texts (next_revision t) (baseline_by_path t) ->
  known texts (next_revision t) (current_by_path t) ->
  cached t texts (previous_diffs rs) -> cached t texts (new_diffs rs) ->
  let rs' := fold_left (fun rs p =>
    refresh_path relative_path_from sha1_hex unified_text t renames p rs) paths rs in
  aggregated rs' = fold_left (fun text '(l, r) => push_rendered (rendered_at t l (before t l) r (after t r)) text)
                     (plan renames (handled rs) paths) (aggregated rs)
  /\ cached t texts (new_diffs rs').
Proof.
  induction paths as [|p paths IH]; intros rs Hb Hc Hp Hn; [done|]. cbn [fold_left plan].
  unfold refresh_path at 2 4. case_bool_decide as Eh; [by apply IH|].
  case_bool_decide as Ed; [by apply (IH (mkRefresh (p :: handled rs) _ _ _))|].
  destruct (renames !! p) as [dest|]; cbv zeta beta iota.
  - destruct (render_cached t texts (previous_diffs rs) p dest Hb Hc Hp) as [E _].
    destruct (render_cached t texts (new_diffs rs) p dest Hb Hc Hn) as [_ Hn'].
    unfold before, after in E, Hn'. rewrite E.
    apply (IH (mkRefresh (dest :: p :: handled rs) _ _ _)); [done|done|by apply cached_delete|done].
  - destruct (render_cached t texts (previous_diffs rs) p p Hb Hc Hp) as [E _].
    destruct (render_cached t texts (new_diffs rs) p p Hb Hc Hn) as [_ Hn'].
    unfold before, after in E, Hn'. rewrite E.
    apply (IH (mkRefresh (p :: handled rs) _ _ _)); [done|done|by apply cached_delete|done].
Qed.

Lemma refresh_uncached t :
  cache_ok t ->
  unified_diff (refreshed t) = diff_text t (before t) (after t) (shown t) /\ cache_ok (refreshed t).
Proof.
  intros (texts & Hb & Hc & Hd).
  destruct (refresh_paths t texts (rename_pairs hash_order t) (sorted_paths relative_path_from hash_order t)
    (mkRefresh [] (rendered_diffs t) ∅ []) Hb Hc Hd) as [E Hn].
  { intros l lrev r rrev rendered Hk. simpl in Hk. by rewrite lookup_empty in Hk. }
  split; [|by exists texts]. unfold refresh_unified_diff, diff_text. simpl. by rewrite E.
Qed.

(** ** Following the files

    The texts at the start of the turn are [x0], those now are [x]. *)

(** What the two maps say of one path. *)
Definition tells (b c x0 x : option str) : Prop :=
  match b, c with
  | None, None => x = x0
  | Some text, _ => x0 = Some text /\ x = c
  | None, Some _ => x0 = None /\ x = c
  end.

Definition follows t (x0 x : Path -> option str) : Prop :=
  forall p, tells (before t p) (after t p) (x0 p) (x p).

(** The baseline after [note_baseline]. *)
Definition first_text (b c text : option str) : option str :=
  match b, c with None, None => text | _, _ => b end.

Lemma tells_write b c x0 x new : tells b c x0 x -> tells (first_text b c x) (Some new) x0 (Some new).
Proof. destruct b, c, x; simpl; naive_solver. Qed.

Lemma tells_remove b c x0 x old :
  tells b c x0 x -> x = Some old -> tells (first_text b c (Some old)) None x0 None.
Proof. destruct b, c; simpl; naive_solver. Qed.

Lemma before_note p text t q :
  before (note_baseline p text t) q
  = if decide (q = p) then first_text (before t p) (after t p) text else before t q.
Proof.
  unfold note_baseline, untracked, before, after, first_text.
  destruct (current_by_path t !! p) eqn:Ec, (baseline_by_path t !! p) eqn:Eb, text as [text|];
    simpl; case_decide; subst; rewrite ?Eb; try done; by rewrite ?lookup_insert_eq, ?lookup_insert_ne.
Qed.

Lemma after_note p text t q : after (note_baseline p text t) q = after t q.
Proof. unfold note_baseline. by destruct (untracked t p), text. Qed.

Lemma before_insert p text t q : before (insert_current p text t) q = before t q.
Proof. done. Qed.

Lemma after_insert p text t q :
  after (insert_current p text t) q = if decide (q = p) then Some text else after t q.
Proof.
  unfold after, insert_current. simpl. case_decide; subst; by rewrite ?lookup_insert_eq, ?lookup_insert_ne.
Qed.

Lemma after_delete p t q m :
  m = delete p (current_by_path t) ->
  after (set_current m t) q = if decide (q = p) then None else after t q.
Proof.
  intros ->. unfold after, set_current. simpl.
  case_decide; subst; by rewrite ?lookup_delete_eq, ?lookup_delete_ne.
Qed.

Lemma before_set_current m t q : before (set_current m t) q = before t q.
Proof. done. Qed.
Lemma before_set_origin m t q : before (set_origin m t) q = before t q.
Proof. done. Qed.
Lemma after_set_origin m t q : after (set_origin m t) q = after t q.
Proof. done. Qed.

Hint Rewrite before_note after_note before_insert after_insert before_set_current
  before_set_origin after_set_origin : tracker.

Lemma follows_add p text o t x0 x :
  follows t x0 x -> x p = o -> follows (apply_add p text o t) x0 (upd p (Some text) x).
Proof.
  intros Hf <- q. unfold apply_add. autorewrite with tracker. unfold upd.
  case_decide; subst; [|apply Hf]. by apply tells_write.
Qed.

Lemma follows_in_place p old new t x0 x :
  follows t x0 x -> x p = Some old ->
  follows (apply_update p None old None new t) x0 (upd p (Some new) x).
Proof.
  intros Hf Ho q. unfold apply_update. autorewrite with tracker. unfold upd.
  case_decide; subst; [|apply Hf]. rewrite <- Ho. by apply tells_write.
Qed.

Lemma delete_notes p text t :
  (if is_none (current_by_path t !! p) && is_none (baseline_by_path t !! p)
   then insert_baseline p text (set_current (delete p (current_by_path t)) t)
   else set_current (delete p (current_by_path t)) t)
  = set_current (delete p (current_by_path t)) (note_baseline p (Some text) t).
Proof. unfold note_baseline, untracked. by destruct (_ && _). Qed.

Lemma follows_delete p text t x0 x :
  follows t x0 x -> x p = Some text -> follows (apply_delete p text t) x0 (upd p None x).
Proof.
  intros Hf Ho q. unfold apply_delete. simpl. rewrite delete_notes. autorewrite with tracker.
  rewrite (after_delete p) by (unfold note_baseline; by destruct (untracked t p)).
  autorewrite with tracker. unfold upd. case_decide; subst; [|apply Hf].
  eapply tells_remove; [apply Hf|done].
Qed.

Lemma follows_move p dest old o new t x0 x :
  follows t x0 x -> x p = Some old -> x dest = o -> dest <> p ->
  follows (apply_update p (Some dest) old o new t) x0 (upd p None (upd dest (Some new) x)).
Proof.
  intros Hf Ho <- Hne q. unfold apply_update. cbv zeta.
  match goal with |- context [if ?b then set_origin ?m ?u else ?u] =>
    assert (E : before (if b then set_origin m u else u) q = before u q
      /\ after (if b then set_origin m u else u) q = after u q) by (by destruct b);
    destruct E as [-> ->] end.
  autorewrite with tracker. rewrite (after_delete p) by done. autorewrite with tracker.
  unfold upd. destruct (decide (q = p)) as [->|Hqp].
  - rewrite decide_False by done. rewrite decide_False by done.
    eapply tells_remove; [apply Hf|done].
  - destruct (decide (q = dest)) as [->|Hqd]; [|apply Hf].
    rewrite decide_False by done. by apply tells_write.
Qed.

(** A change does not move a file onto itself (that would lose the file). *)
Definition moves_elsewhere (c : AppliedPatchChange P) : Prop :=
  match change c with
  | AppliedPatchFileChange.Update (Some dest) _ _ _ => dest <> change_path c
  | _ => True
  end.

Definition moves_elsewhere_b (c : AppliedPatchChange P) : bool :=
  match change c with
  | AppliedPatchFileChange.Update (Some dest) _ _ _ => bool_decide (dest <> change_path c)
  | _ => true
  end.

Lemma moves_elsewhere_all cs : forallb moves_elsewhere_b cs = true -> Forall moves_elsewhere cs.
Proof.
  rewrite forallb_forall, List.Forall_forall. intros Hb c Hc. specialize (Hb c Hc).
  unfold moves_elsewhere, moves_elsewhere_b in *. destruct (change c) as [| |[]]; try done.
  by apply bool_decide_eq_true in Hb.
Qed.

Definition env_view (e : str) (x : Path -> option str) : view P := fun (p : P) => x (mkPath e p).

(** The texts of one environment replaced. *)
Definition in_env (e : str) (w : view P) (x : Path -> option str) : Path -> option str :=
  fun p => if decide (environment_id p = e) then w (tracked_path p) else x p.

Lemma follows_ext t x0 x x' : (forall p, x' p = x p) -> follows t x0 x -> follows t x0 x'.
Proof. intros E Hf p. rewrite E. apply Hf. Qed.

Lemma in_env_upd e (p : P) text w x q :
  in_env e (upd p text w) x q = upd (mkPath e p) text (in_env e w x) q.
Proof.
  unfold in_env, upd. destruct q as [e' q]. simpl.
  repeat case_decide; simplify_eq; congruence.
Qed.

Lemma upd_ext p text (x x' : Path -> option str) q :
  (forall q, x q = x' q) -> upd p text x q = upd p text x' q.
Proof. intros E. unfold upd. case_decide; [done|apply E]. Qed.

Lemma follows_change e c t x0 x w :
  follows t x0 (in_env e w x) -> records w c -> moves_elsewhere c ->
  follows (apply_change e c t) x0 (in_env e (replay_change w c) x).
Proof.
  intros Hf Hrec Hne. unfold apply_change, replay_change, records, moves_elsewhere in *.
  assert (Ew : forall p : P, in_env e w x (mkPath e p) = w p) by (intros p; unfold in_env; by rewrite decide_True).
  destruct (change c) as [text o|text|[dest|] old o new]; simpl.
  - eapply follows_ext; [intros q; apply in_env_upd|]. apply follows_add; [done|by rewrite Ew].
  - eapply follows_ext; [intros q; apply in_env_upd|]. apply follows_delete; [done|by rewrite Ew].
  - destruct Hrec as [Ho Hd].
    eapply follows_ext; [intros q; rewrite in_env_upd; apply upd_ext; intros q'; apply in_env_upd|].
    apply follows_move; [done|by rewrite Ew..|]. by intros [= ->].
  - eapply follows_ext; [intros q; apply in_env_upd|]. apply follows_in_place; [done|by rewrite Ew].
Qed.

Lemma follows_changes e cs t x0 x w w' :
  Forall moves_elsewhere cs -> ledger cs w w' -> env_view e x =v w -> follows t x0 x ->
  follows (fold_left (fun t c => apply_change e c t) cs t) x0 (in_env e w' x).
Proof.
  intros Hcs Hl Hw0 Hf. revert Hcs.
  induction Hl as [w w' Hw|cs c w w' w'' _ IH Hrec Hr]; intros Hcs.
  - eapply follows_ext; [|exact Hf]. intros [e' p]. unfold in_env. simpl.
    case_decide as E; [|done]. rewrite (Hw p), <- (Hw0 p). unfold env_view. by rewrite <- E.
  - apply Forall_app in Hcs as [Hcs Hc]. apply Forall_cons_1 in Hc as [Hc _]. rewrite fold_left_app. simpl.
    eapply follows_ext; [|apply (follows_change e c _ x0 x w'); [by apply IH|exact Hrec|exact Hc]].
    intros p. unfold in_env. case_decide; [symmetry; apply Hr|done].
Qed.

Lemma cache_ok_changes e cs : forall t,
  cache_ok t -> cache_ok (fold_left (fun t c => apply_change e c t) cs t).
Proof. induction cs as [|c cs IH]; intros t Ht; [done|]. by apply IH, cache_ok_change. Qed.

(** ** The pairs *)

Lemma rename_pairs_Some t l r :
  rename_pairs hash_order t !! l = Some r -> rename_pair t r = Some (l, r).
Proof.
  unfold rename_pairs.
  assert (Hgen : forall pairs (m : gmap Path Path), fold_left (fun m '(origin, dest) => <[origin := dest]> m) pairs m !! l = Some r ->
    In (l, r) pairs \/ m !! l = Some r).
  { induction pairs as [|[a b] pairs IH]; intros m; [by right|]. simpl. intros Hin.
    destruct (IH _ Hin) as [?|Hm]; [by left; right|].
    destruct (decide (a = l)) as [->|Hne].
    - rewrite lookup_insert_eq in Hm. injection Hm as ->. left. by left.
    - rewrite lookup_insert_ne in Hm by done. by right. }
  intros Hl. destruct (Hgen _ _ Hl) as [Hin|Hm]; [|by rewrite lookup_empty in Hm].
  apply list_elem_of_In in Hin. apply list_elem_of_omap in Hin as (dest & _ & E).
  assert (dest = r) as ->; [|done]. revert E. unfold rename_pair.
  destruct (origin_by_current_path t !! dest); simpl; [|done]. by case_match; intros [= ? ?].
Qed.

Lemma renamed_spec t l r :
  rename_pairs hash_order t !! l = Some r ->
  r <> l /\ origin_by_current_path t !! r = Some l
  /\ is_Some (before t l) /\ after t l = None /\ before t r = None /\ is_Some (after t r).
Proof.
  intros E%rename_pairs_Some. unfold rename_pair in E. unfold before, after.
  destruct (origin_by_current_path t !! r) as [o|] eqn:Eo; simpl in E; [|done].
  destruct (_ || _) eqn:Ec in E; [done|]. injection E as ->. bool_hyps.
  destruct (current_by_path t !! l), (current_by_path t !! r), (baseline_by_path t !! l),
    (baseline_by_path t !! r); done.
Qed.

Lemma elem_keys {V} (m : gmap Path V) p : In p (keys hash_order m) <-> is_Some (m !! p).
Proof.
  unfold keys. rewrite <- list_elem_of_In, hash_order_perm, list_elem_of_fmap. split.
  - intros ([q v] & -> & Hin%elem_of_map_to_list). by exists v.
  - intros [v Hv]. exists (p, v). split; [done|]. by apply elem_of_map_to_list.
Qed.

Lemma sort_displayed_perm roots (l : list Path) : Permutation (sort_displayed relative_path_from roots l) l.
Proof.
  induction l as [|x l IH]; simpl; [done|]. rewrite <- IH at 2. clear IH.
  induction (sort_displayed relative_path_from roots l) as [|y l' IH]; simpl; [done|].
  destruct (Policy.lex_leb _ _ _); [done|]. rewrite IH. apply perm_swap.
Qed.

Lemma elem_dedup (l : list Path) p : In p (dedup l) <-> In p l.
Proof.
  induction l as [|x [|y l] IH]; [done|done|]. cbn [dedup].
  case_bool_decide as E; [subst; rewrite IH; simpl; tauto|].
  change (In p (x :: dedup (y :: l)) <-> In p (x :: y :: l)). simpl. simpl in IH. tauto.
Qed.

Lemma elem_sorted t p :
  In p (sorted_paths relative_path_from hash_order t) <-> is_Some (before t p) \/ is_Some (after t p).
Proof.
  unfold sorted_paths. rewrite elem_dedup, sort_displayed_perm, in_app_iff, !elem_keys.
  unfold before, after. by rewrite !fmap_is_Some.
Qed.

Lemma elem_dests (renames : gmap Path Path) p :
  p ∈ map snd (map_to_list renames) <-> exists l, renames !! l = Some p.
Proof.
  rewrite list_elem_of_fmap. split.
  - intros ([l p'] & -> & Hin%elem_of_map_to_list). by exists l.
  - intros [l Hl]. exists (l, p). split; [done|]. by apply elem_of_map_to_list.
Qed.

(** What [plan] makes of the paths. *)
Section plan.
Context (renames : gmap Path Path).

Lemma plan_pair paths : forall handled l r,
  In (l, r) (plan renames handled paths) ->
  In l paths /\ l ∉ handled /\ (forall l', renames !! l' <> Some l) /\ r = default l (renames !! l).
Proof.
  induction paths as [|p paths IH]; intros handled l r; [done|]. cbn [plan].
  case_bool_decide as Eh; [intros Hin%IH; destruct_and!; split_and!; by simpl; auto|].
  case_bool_decide as Ed; rewrite elem_dests in Ed.
  { intros Hin%IH. destruct_and!. split_and!; simpl; set_solver. }
  destruct (renames !! p) as [dest|] eqn:Er; intros [[= <- <-]|Hin].
  - split_and!; [by left|done|by eauto|by rewrite Er].
  - apply IH in Hin. destruct_and!. split_and!; simpl; set_solver.
  - split_and!; [by left|done|by eauto|by rewrite Er].
  - apply IH in Hin. destruct_and!. split_and!; simpl; set_solver.
Qed.

Lemma plan_complete paths : forall handled l,
  In l paths -> l ∉ handled -> (forall l', renames !! l' <> Some l) ->
  In (l, default l (renames !! l)) (plan renames handled paths).
Proof.
  induction paths as [|p paths IH]; intros handled l; [done|]. cbn [plan]. intros [->|Hin] Hh Hd.
  - rewrite bool_decide_false by done.
    rewrite bool_decide_false by (rewrite elem_dests; naive_solver).
    destruct (renames !! l); by left.
  - destruct (decide (p = l)) as [->|Hne].
    { rewrite bool_decide_false by done.
      rewrite bool_decide_false by (rewrite elem_dests; naive_solver).
      destruct (renames !! l); by left. }
    case_bool_decide; [by apply IH|]. case_bool_decide; [apply IH; set_solver|].
    destruct (renames !! p) as [dest|] eqn:Er; right; apply IH; [done| |done|done|set_solver|done].
    apply not_elem_of_cons. split; [|set_solver]. intros ->. by apply (Hd p).
Qed.

Lemma plan_NoDup paths : forall handled, NoDup (map fst (plan renames handled paths)).
Proof.
  induction paths as [|p paths IH]; intros handled; [constructor|]. cbn [plan].
  case_bool_decide; [done|]. case_bool_decide; [done|].
  destruct (renames !! p) as [dest|]; simpl; constructor; try done.
  - intros Hin. apply list_elem_of_fmap in Hin as ([l r] & -> & Hin%list_elem_of_In%plan_pair). set_solver.
  - intros Hin. apply list_elem_of_fmap in Hin as ([l r] & -> & Hin%list_elem_of_In%plan_pair). set_solver.
Qed.

Lemma plan_apart paths handled l r l' r' p :
  (forall l l' r, renames !! l = Some r -> renames !! l' = Some r -> l = l') ->
  In (l, r) (plan renames handled paths) -> In (l', r') (plan renames handled paths) ->
  p = l \/ p = r -> p = l' \/ p = r' -> (l, r) = (l', r').
Proof.
  intros Hinj (_ & _ & Hl & ->)%plan_pair (_ & _ & Hl' & ->)%plan_pair Hp Hp'.
  assert (l = l') as ->; [|done].
  destruct (renames !! l) as [d|] eqn:E, (renames !! l') as [d'|] eqn:E'; simpl in *;
    destruct Hp as [->|Hp], Hp' as [Hp'|Hp']; subst; try done; try naive_solver.
Qed.

End plan.

(** ** A turn *)

(** The tracker after some exact deltas, the texts when the turn started and now. *)
Inductive tracks : Tracker -> (Path -> option str) -> (Path -> option str) -> Prop :=
| tracks_start roots x0 : tracks (with_environment_display_roots roots) x0 x0
| tracks_delta t x0 x e d w w' :
    tracks t x0 x -> exact d = true -> Forall moves_elsewhere (changes d) ->
    env_view e x =v w -> ledger (changes d) w w' ->
    tracks (tracked_delta e d t) x0 (in_env e w' x).

Lemma changes_valid e cs : forall t,
  valid (fold_left (fun t c => apply_change e c t) cs t) = valid t.
Proof.
  assert (Hn : forall p text t, valid (note_baseline p text t) = valid t)
    by (intros p text t; unfold note_baseline; by destruct (untracked t p), text).
  induction cs as [|c cs IH]; intros t; [done|]. simpl. rewrite IH.
  unfold apply_change, apply_add, apply_delete, apply_update.
  destruct (change c) as [text o|text|[dest|] old o new]; simpl; repeat case_if; simpl; by rewrite ?Hn.
Qed.

Lemma tracks_ok t x0 x : tracks t x0 x ->
  valid t = true /\ cache_ok t /\ follows t x0 x
  /\ unified_diff t = diff_text t (before t) (after t) (shown t).
Proof.
  induction 1 as [roots x0|t x0 x e d w w' _ (Hv & Hc & Hf & _) He Hm Hw Hl].
  - split_and!; [done| |done|].
    + exists (fun _ => []). split_and!; [by intros p c Hp|by intros p c Hp|by intros l lrev r rrev rd Hr].
    + unfold shown, sorted_paths, keys. simpl. rewrite map_to_list_empty. simpl.
      assert (hash_order [] = []) as ->; [|done].
      apply Permutation_nil. symmetry. apply hash_order_perm.
  - unfold track_delta. rewrite Hv, He. simpl.
    pose proof (refresh_uncached _ (cache_ok_changes e (changes d) t Hc)) as [E Hc'].
    split_and!; [by rewrite changes_valid|exact Hc'|by eapply follows_changes|exact E].
Qed.

Lemma tells_tracked b c x0 x : tells b c x0 x -> is_Some b \/ is_Some c -> x0 = b /\ x = c.
Proof. destruct b, c; simpl; intros H' [?|?]; naive_solver (by eapply is_Some_None). Qed.

Lemma shown_inj t l l' r :
  rename_pairs hash_order t !! l = Some r -> rename_pairs hash_order t !! l' = Some r -> l = l'.
Proof. intros (_ & ? & _)%renamed_spec (_ & ? & _)%renamed_spec. congruence. Qed.

Lemma shown_tracked t l r :
  In (l, r) (shown t) -> (is_Some (before t l) \/ is_Some (after t l))
    /\ (is_Some (before t r) \/ is_Some (after t r))
    /\ (l = r \/ rename_pairs hash_order t !! l = Some r).
Proof.
  intros (Hin & _ & _ & ->)%plan_pair. rewrite elem_sorted in Hin. split; [done|].
  destruct (rename_pairs hash_order t !! l) as [d|] eqn:E; simpl; [|by split; [|left]].
  pose proof (renamed_spec t l d E) as (_ & _ & _ & _ & _ & ?). split; [by right|by right].
Qed.

Lemma diff_text_ext t x0 x x0' x' pairs :
  (forall l r, In (l, r) pairs -> x0 l = x0' l /\ x r = x' r) ->
  diff_text t x0 x pairs = diff_text t x0' x' pairs.
Proof.
  intros Hx. unfold diff_text. cbv zeta.
  assert (E : forall acc, fold_left (fun text '(l, r) => push_rendered (rendered_at t l (x0 l) r (x r)) text) pairs acc
    = fold_left (fun text '(l, r) => push_rendered (rendered_at t l (x0' l) r (x' r)) text) pairs acc); [|by rewrite E].
  induction pairs as [|[l r] pairs IH]; intros acc; [done|]. simpl.
  destruct (Hx l r (or_introl eq_refl)) as [-> ->]. apply IH. intros l' r' Hin. apply Hx. by right.
Qed.

(** C13: The diff of a turn, cache included, is that of the texts at its start
    against the texts now, when the deltas are exact and no patch moves a file
    onto itself: it has every path whose text changed, every path at most once,
    and joins two paths only when the first is gone and the second is new.  After
    a delta that is not exact there is no diff for the rest of the turn. *)
Theorem turn_diff_is_net t (x0 x : Path -> option str) :
  tracks t x0 x ->
  unified_diff t = diff_text t x0 x (shown t)
  /\ (forall p, x p <> x0 p -> exists q, In (p, q) (shown t) \/ In (q, p) (shown t))
  /\ (forall l r, In (l, r) (shown t) ->
        l = r \/ is_Some (x0 l) /\ x l = None /\ x0 r = None /\ is_Some (x r))
  /\ (forall l r l' r' p, In (l, r) (shown t) -> In (l', r') (shown t) ->
        p = l \/ p = r -> p = l' \/ p = r' -> (l, r) = (l', r'))
  /\ NoDup (map fst (shown t))
  /\ (forall e d, exact d = false -> unified_diff (tracked_delta e d t) = None
        /\ forall e' d', unified_diff (tracked_delta e' d' (tracked_delta e d t)) = None).
Proof.
  intros (Hv & _ & Hf & E)%tracks_ok.
  assert (Htr : forall p, is_Some (before t p) \/ is_Some (after t p) -> x0 p = before t p /\ x p = after t p)
    by (intros p Hp; by apply tells_tracked).
  split_and!.
  - rewrite E. apply diff_text_ext. intros l r (Hl & Hr & _)%shown_tracked.
    split; [symmetry; by apply Htr|symmetry; by apply Htr].
  - intros p Hp. assert (Hin : is_Some (before t p) \/ is_Some (after t p)).
    { specialize (Hf p). destruct (before t p), (after t p); simpl in Hf; eauto; done. }
    destruct (decide (p ∈ map snd (map_to_list (rename_pairs hash_order t)))) as [[l Hl]%elem_dests|Hd].
    + exists l. right. pose proof (renamed_spec t l p Hl) as (_ & _ & Hb & _).
      replace p with (default l (rename_pairs hash_order t !! l)) at 1 by (by rewrite Hl).
      apply plan_complete; [apply elem_sorted; by left|set_solver|].
      intros l' Hl'. apply renamed_spec in Hl' as (_ & _ & _ & _ & Hb' & _).
      rewrite Hb' in Hb. by destruct Hb.
    + eexists. left. apply plan_complete; [by apply elem_sorted|set_solver|].
      intros l Hl. apply Hd, elem_dests. by exists l.
  - intros l r (Hl & Hr & [?|Hren])%shown_tracked; [by left|right].
    destruct (Htr l Hl) as [-> ->], (Htr r Hr) as [-> ->].
    apply renamed_spec in Hren as (_ & _ & H1 & H2 & H3 & H4). done.
  - intros l r l' r' p. apply plan_apart; [apply shown_inj].
  - apply plan_NoDup.
  - intros e d Hd. unfold track_delta. rewrite Hv, Hd. by split.
Qed.

End tracker.

(** ** With the applier *)

Section applied.
Context {W P : Type} `{Countable P} `{!PathUriOps P} `{!ExecutorFileSystem W P}.
Context (look : W -> view P) `{!FileSystemLaws W P look}.
Context {Stdout Stderr : Type} `{!Writer Stdout} `{!Writer Stderr}.
Context (show_uri : PathUriParseError -> str).
Context (relative_path_from : P -> P -> option str).
Context (sha1_hex : list N -> str).
Context (unified_text : str -> str -> str -> str -> str).
Context (hash_order : list (@TrackedPath P) -> list (@TrackedPath P)).

(** The delta of a patch, applied or failed, is one that [tracks] follows. *)
Lemma patch_tracked t x0 x e text options cwd (w : W) (out : Stdout) (err : Stderr) :
  tracks relative_path_from sha1_hex unified_text hash_order t x0 x -> env_view e x =v look w ->
  match apply_patch_with_options show_uri text options cwd (w, out, err) with
  | (Done d, (w', _, _)) | (Fail (mkFailure _ d), (w', _, _)) =>
      exact d = true -> Forall moves_elsewhere (changes d) ->
      tracks relative_path_from sha1_hex unified_text hash_order
        (track_delta relative_path_from sha1_hex unified_text hash_order e d t) x0
        (in_env e (look w') x)
  | (Panic, _) => False
  end.
Proof.
  intros Ht Hw. pose proof (apply_patch_ledger look show_uri text options cwd w out err) as Hl.
  destruct (apply_patch_with_options _ _ _ _ _) as [[d|[er d]|] [[w' out'] err']]; [..|done];
    intros He Hm; by eapply tracks_delta; [..|apply Hl].
Qed.

End applied.

(** ** A concrete turn *)

#[local] Instance silent : Writer () := fun _ o => (Ok (), o).

Abbreviation demo_path := (@TrackedPath (list str)) (only parsing).

(** Paths below the root, a diff that only has the headers, no digest. *)
Definition demo_track (e : str) (d : AppliedPatchDelta (list str)) :=
  track_delta (fun p _ => Some (join [47%N] p)) (fun _ => $"0")
    (fun _ _ old new => $"--- " ++ old ++ NL ++ $"+++ " ++ new ++ NL) id e d.

Definition demo_tracks := tracks (P := list str) (fun p _ => Some (join [47%N] p)) (fun _ => $"0")
  (fun _ _ old new => $"--- " ++ old ++ NL ++ $"+++ " ++ new ++ NL) id.

Definition demo_start : @TurnDiffTracker (list str) _ _ :=
  with_environment_display_roots [($"", [])].

Definition demo_before : demo_path -> option str :=
  in_env [] (MemFs.look PatchApplySpec.demo_world) (fun _ => None).

Definition run_patch (text : str) (w : gmap (list str) MemFs.node) :=
  apply_patch_with_options (Stdout := ()) (Stderr := ()) (fun _ => []) text default_options
    ([] : list str) (w, (), ()).

(** The file system and the delta after a patch that succeeds. *)
Definition patched (text : str) (w : gmap (list str) MemFs.node)
  : option (gmap (list str) MemFs.node * AppliedPatchDelta (list str)) :=
  match run_patch text w with (Done d, (w', _, _)) => Some (w', d) | _ => None end.

(** A file is changed and moved by one patch, and another one added by a second. *)
Definition demo_patch1 : str := join [LF]
  [$"*** Begin Patch"; $"*** Update File: b.txt"; $"*** Move to: c.txt"; $"@@"; $"-old"; $"+new";
   $"*** End Patch"].
Definition demo_patch2 : str := join [LF]
  [$"*** Begin Patch"; $"*** Add File: a.txt"; $"+one"; $"*** End Patch"].

Definition demo_turn : option (gmap (list str) MemFs.node * @TurnDiffTracker (list str) _ _) :=
  match patched demo_patch1 PatchApplySpec.demo_world with
  | Some (w1, d1) =>
      match patched demo_patch2 w1 with
      | Some (w2, d2) => Some (w2, demo_track [] d2 (demo_track [] d1 demo_start))
      | None => None
      end
  | None => None
  end.

Example demo_turn_diff : unified_diff ∘ snd <$> demo_turn = Some (Some (join [LF] [
  $"diff --git a/a.txt b/a.txt"; $"new file mode 100644";
  $"index 0000000000000000000000000000000000000000..0"; $"--- /dev/null"; $"+++ b/a.txt";
  $"diff --git a/b.txt b/c.txt"; $"index 0..0"; $"--- a/b.txt"; $"+++ b/c.txt"; []])).
Proof. vm_compute. reflexivity. Qed.

Lemma patched_tracks text w w' d t x0 x :
  demo_tracks t x0 x -> env_view [] x =v MemFs.look w -> patched text w = Some (w', d) ->
  exact d = true -> Forall moves_elsewhere (changes d) ->
  demo_tracks (demo_track [] d t) x0 (in_env [] (MemFs.look w') x)
  /\ env_view [] (in_env [] (MemFs.look w') x) =v MemFs.look w'.
Proof.
  intros Ht Hw Hp He Hm. split; [|done].
  pose proof (patch_tracked (W := gmap (list str) MemFs.node) MemFs.look (fun _ => [])
    _ _ _ _ t x0 x [] text default_options ([] : list str) w () () Ht Hw) as H.
  unfold patched, run_patch in Hp.
  destruct (apply_patch_with_options _ text _ _ _) as [[d'|[er d']|] [[w'' []] []]]; try done.
  injection Hp as <- <-. by apply H.
Qed.

Lemma demo_start_tracks : demo_tracks demo_start demo_before demo_before.
Proof. exact (tracks_start _ _ _ _ [($"", [])] demo_before). Qed.

Lemma demo_before_view : env_view [] demo_before =v MemFs.look PatchApplySpec.demo_world.
Proof. intros p. unfold env_view, demo_before, in_env. by rewrite decide_True. Qed.

(** The text of [b.txt] changed, so it is shown, with what it was and is. *)
Lemma turn_diff_is_net_witness :
  exists t x, demo_tracks t demo_before x
    /\ unified_diff <$> (snd <$> demo_turn) = Some (unified_diff t)
    /\ x (mkPath [] [$"b.txt"]) <> demo_before (mkPath [] [$"b.txt"])
    /\ exists q, In (mkPath [] [$"b.txt"], q) (shown (fun p _ => Some (join [47%N] p)) id t)
              \/ In (q, mkPath [] [$"b.txt"]) (shown (fun p _ => Some (join [47%N] p)) id t).
Proof.
  assert (Hok : match patched demo_patch1 PatchApplySpec.demo_world with
    | Some (w1, d1) =>
        match patched demo_patch2 w1 with
        | Some (w2, d2) =>
            exact d1 && exact d2 && forallb moves_elsewhere_b (changes d1)
            && forallb moves_elsewhere_b (changes d2) && is_none (MemFs.look w2 [$"b.txt"])
        | None => false
        end
    | None => false
    end = true) by (vm_compute; reflexivity).
  destruct (patched demo_patch1 PatchApplySpec.demo_world) as [[w1 d1]|] eqn:E1; [|discriminate Hok].
  destruct (patched demo_patch2 w1) as [[w2 d2]|] eqn:E2; [|discriminate Hok].
  apply andb_prop in Hok as [Hok Hb]. apply andb_prop in Hok as [Hok Hm2%moves_elsewhere_all].
  apply andb_prop in Hok as [Hok Hm1%moves_elsewhere_all]. apply andb_prop in Hok as [He1 He2].
  destruct (patched_tracks demo_patch1 _ w1 d1 demo_start demo_before demo_before
    demo_start_tracks demo_before_view E1 He1 Hm1) as [Ht1 Hw1].
  destruct (patched_tracks demo_patch2 w1 w2 d2 _ _ _ Ht1 Hw1 E2 He2 Hm2) as [Ht2 _].
  assert (Hne : in_env [] (MemFs.look w2) (in_env [] (MemFs.look w1) demo_before)
      (mkPath [] [$"b.txt"]) <> demo_before (mkPath [] [$"b.txt"])).
  { assert (Eb : MemFs.look w2 [$"b.txt"] = None) by (by destruct (MemFs.look w2 [$"b.txt"])).
    unfold in_env at 1. simpl. rewrite Eb. vm_compute. discriminate. }
  eexists _, _. split; [exact Ht2|]. split; [|split; [exact Hne|]].
  - unfold demo_turn. rewrite E1, E2. reflexivity.
  - destruct (turn_diff_is_net _ _ _ _ (fun l => Permutation_refl l) _ _ _ Ht2) as (_ & Hcov & _).
    exact (Hcov _ Hne).
Defined.
