(* ===== verification/PermissionTransforms.v ===== *)
(** * Additional permissions (sandboxing/src/policy_transforms.rs)

    Permissions a command or a turn gets on top of its profile: normal forms,
    paths bound to the executor, the union with what was granted before, the
    intersection of what was asked with what was granted, and the profile a
    sandbox is finally given.  Errors are told apart, their texts are not
    modelled; the glob library is the argument it is in ReadDeny.v. *)

From S2P Require Import Prelude RustStr PatchTypes ExecutorFs PathUri ApiPath ReadDeny ExecApproval ToolOrchestrator SandboxPolicy.

(** ** Data (protocol/src/models.rs) *)

Record NetworkPermissions : Type := mkNetworkPermissions { net_enabled : option bool }.

#[export] Instance NetworkPermissions_eq_dec : EqDecision NetworkPermissions.
Proof. solve_decision. Defined.

Definition network_is_empty (n : NetworkPermissions) : bool := is_none (net_enabled n).

Inductive SandboxEnforcement : Type := EnforceManaged | EnforceDisabled | EnforceExternal.

#[export] Instance SandboxEnforcement_eq_dec : EqDecision SandboxEnforcement.
Proof. solve_decision. Defined.

(** [and_then(NonZeroUsize::new)]. *)
Definition nonzero (depth : option N) : option N :=
  match depth with Some 0%N => None | d => d end.

Inductive GlobScanDepth : Type := Bounded (depth : N) | Unbounded.

Inductive PermissionsError : Type :=
| GlobGrant
| ForeignPath
| UnresolvedPath.

(** [filter] of an option. *)
Definition keep_if {A} (p : A -> bool) (o : option A) : option A :=
  match o with Some x => if p x then Some x else None | None => None end.

Definition network_on (n : option NetworkPermissions) : bool :=
  match n with Some n => bool_decide (net_enabled n = Some true) | None => false end.

Definition access_covers (requested granted : FileSystemAccessMode) : bool :=
  match granted with
  | Read => can_read requested
  | Write => can_write requested
  | Deny => false
  end.

Definition is_glob_meta (c : char) : bool := one_of [c] [$"*"; $"?"; $"["; $"]"].

(** The text before the first wildcard, [None] without one. *)
Fixpoint before_meta (s : str) : option str :=
  match s with
  | [] => None
  | c :: s => if is_glob_meta c then Some [] else option_map (cons c) (before_meta s)
  end.

Section transforms.
Context {Url : Type} `{UrlCrates Url} `{Unreachable Url}.
Context (build_glob : str -> bool -> bool -> result (list N -> bool) str).
Context (show_path_error : LegacyAppPathStringError -> str).
Abbreviation Entry := (@FileSystemSandboxEntry Url).
Abbreviation FsPolicy := (@FileSystemSandboxPolicy Url).
Abbreviation Ctx := (@PolicyContext Url).
Abbreviation Profile := (@PermissionProfile Url).

Record FileSystemPermissions : Type := mkFsPermissions {
  fs_entries : list Entry;
  fs_glob_scan_max_depth : option N;
}.

Definition fs_is_empty (f : FileSystemPermissions) : bool := is_empty (fs_entries f).

Record AdditionalPermissionProfile : Type := mkAdditional {
  add_network : option NetworkPermissions;
  add_file_system : option FileSystemPermissions;
}.

Definition add_is_empty (a : AdditionalPermissionProfile) : bool :=
  is_none (add_network a) && is_none (add_file_system a).

Definition no_permissions : AdditionalPermissionProfile := mkAdditional None None.
Definition default_fs : FileSystemPermissions := mkFsPermissions [] None.

(** ** Normal forms *)

Definition is_glob_grant (e : Entry) : bool :=
  match entry_path e with GlobPattern _ => negb (is_deny e) | _ => false end.

Definition normalize_additional_permissions (a : AdditionalPermissionProfile)
  : result AdditionalPermissionProfile PermissionsError :=
  let network := keep_if (fun n => negb (network_is_empty n)) (add_network a) in
  match add_file_system a with
  | Some fs =>
      if existsb is_glob_grant (fs_entries fs) then Err GlobGrant
      else
        let fs := mkFsPermissions (fold_left push_missing (fs_entries fs) []) (fs_glob_scan_max_depth fs) in
        Ok (mkAdditional network (if fs_is_empty fs then None else Some fs))
  | None => Ok (mkAdditional network None)
  end.

Definition is_foreign (context : Ctx) (e : Entry) : bool :=
  match entry_path e with
  | Path path =>
      is_none (path_convention path)
      || negb (bool_decide (path_convention path = path_convention (cwd context)))
      || negb (is_ok (join_uri path ($".")))
  | _ => false
  end.

Definition normalize_additional_permissions_with_context (a : AdditionalPermissionProfile) (context : Ctx)
  : result AdditionalPermissionProfile PermissionsError :=
  let? normalized := normalize_additional_permissions a in
  match add_file_system normalized with
  | Some fs => if existsb (is_foreign context) (fs_entries fs) then Err ForeignPath else Ok normalized
  | None => Ok normalized
  end.

(** ** Paths bound to the executor *)

Definition glob_home_relative (is_windows : bool) (pattern : str) : option str :=
  match strip_prefix ($"~/") pattern with
  | Some suffix => Some suffix
  | None => if bool_decide (pattern = $"~") then Some []
            else if is_windows then strip_prefix ($"~\") pattern else None
  end.

Definition materialize_cwd_dependent_entry (e : Entry) (context : Ctx) : option Entry :=
  match entry_path e with
  | GlobPattern pattern =>
      let is_windows := bool_decide (path_convention (cwd context) = Some Windows) in
      '(root, pattern) ← match glob_home_relative is_windows pattern with
                         | Some suffix =>
                             home ← user_home_dir context;
                             Some (home, trim_start_where (separators (if is_windows then Windows else Posix)) suffix)
                         | None => Some (cwd context, pattern)
                         end;
      path ← res_ok (join_uri root pattern);
      Some (mkEntry (GlobPattern (native_path_string path)) (access e) (missing_path_behavior e))
  | Path _ | Special _ => Some e
  end.

Definition resolve_permission_path (path : @FileSystemPath Url) (context : Ctx) : option Url :=
  match path with
  | Path path => Some path
  | GlobPattern _ => None
  | Special value =>
      match value with
      | Root => file_system_root context
      | ProjectRoots subpath =>
          root ← head (workspace_roots context);
          match subpath with Some subpath => res_ok (join_uri root subpath) | None => Some root end
      | Tmpdir => directories ← temporary_directories context; head directories
      | SlashTmp =>
          if bool_decide (path_convention (cwd context) = Some Posix)
          then res_ok (join_uri (cwd context) ($"/tmp")) else None
      | Minimal | Unknown _ _ => None
      end
  end.

Definition materialized_path_entry (e : Entry) (path : Url) : Entry :=
  mkEntry (Path path) (access e) (missing_path_behavior e).

Definition only_root (context : Ctx) (root : Url) : Ctx :=
  mkContext (cwd context) [root] (user_home_dir context) (temporary_directories context).

(** The entries of every workspace root; a denial that cannot be resolved fails. *)
Fixpoint materialize_roots (e : Entry) (context : Ctx) (roots : list Url) : option (list Entry) :=
  match roots with
  | [] => Some []
  | root :: roots =>
      match resolve_permission_path (entry_path e) (only_root context root) with
      | Some path => option_map (cons (materialized_path_entry e path)) (materialize_roots e context roots)
      | None => if is_deny e then None else materialize_roots e context roots
      end
  end.

Definition materialize_entry (e : Entry) (context : Ctx) : option (list Entry) :=
  match entry_path e with
  | Special (ProjectRoots _) =>
      resolved ← materialize_roots e context (workspace_roots context);
      if is_deny e && is_empty resolved then None else Some resolved
  | Special Tmpdir =>
      match temporary_directories context with
      | None => if is_deny e then None else Some [e]
      | Some directories => Some (map (materialized_path_entry e) directories)
      end
  | Special Root => _ ← resolve_permission_path (entry_path e) context; Some [e]
  | _ =>
      match materialize_cwd_dependent_entry e context with
      | Some e => Some [e]
      | None => if is_deny e then None else Some []
      end
  end.

Fixpoint materialize_context_dependent_entries (l : list Entry) (context : Ctx) : option (list Entry) :=
  match l with
  | [] => Some []
  | e :: l =>
      first ← materialize_entry e context;
      rest ← materialize_context_dependent_entries l context;
      Some (first ++ rest)
  end.

Definition materialize_additional_permissions_with_context (a : AdditionalPermissionProfile) (context : Ctx)
  : result AdditionalPermissionProfile PermissionsError :=
  let? a := match add_file_system a with
            | Some fs =>
                match materialize_context_dependent_entries (fs_entries fs) context with
                | Some l => Ok (mkAdditional (add_network a)
                                  (Some (mkFsPermissions l (fs_glob_scan_max_depth fs))))
                | None => Err UnresolvedPath
                end
            | None => Ok a
            end in
  normalize_additional_permissions_with_context a context.

(** ** Union *)

Definition is_deny_glob (e : Entry) : bool :=
  is_deny e && match entry_path e with GlobPattern _ => true | _ => false end.

Definition effective_glob_scan_depth (l : list Entry) (depth : option N) : option GlobScanDepth :=
  if existsb is_deny_glob l
  then Some match depth with Some d => Bounded d | None => Unbounded end
  else None.

Definition merge_glob_scan_max_depth (left_entries : list Entry) (left_depth : option N)
    (right_entries : list Entry) (right_depth : option N) : option N :=
  match effective_glob_scan_depth left_entries left_depth, effective_glob_scan_depth right_entries right_depth with
  | Some Unbounded, _ | _, Some Unbounded => None
  | Some (Bounded l), Some (Bounded r) => Some (N.max l r)
  | Some (Bounded depth), None | None, Some (Bounded depth) => Some depth
  | None, None => None
  end.

Definition merge_permission_entries (base permissions : list Entry) : list Entry :=
  fold_left push_missing (base ++ permissions) [].

Definition non_empty_profile : option AdditionalPermissionProfile -> option AdditionalPermissionProfile :=
  keep_if (fun a => negb (add_is_empty a)).

Definition merge_permission_profiles (base permissions : option AdditionalPermissionProfile)
  : option AdditionalPermissionProfile :=
  match permissions with
  | None => base
  | Some permissions =>
      match base with
      | Some base =>
          let network := if network_on (add_network base) || network_on (add_network permissions)
                         then Some (mkNetworkPermissions (Some true)) else None in
          let file_system :=
            match add_file_system base, add_file_system permissions with
            | Some base, Some permissions =>
                keep_if (fun f => negb (fs_is_empty f))
                  (Some (mkFsPermissions (merge_permission_entries (fs_entries base) (fs_entries permissions))
                           (nonzero (merge_glob_scan_max_depth (fs_entries base) (fs_glob_scan_max_depth base)
                                       (fs_entries permissions) (fs_glob_scan_max_depth permissions)))))
            | Some base, None => Some base
            | None, Some permissions => Some permissions
            | None, None => None
            end in
          non_empty_profile (Some (mkAdditional network file_system))
      | None => non_empty_profile (Some permissions)
      end
  end.

(** ** Intersection *)

Definition is_root_entry (e : Entry) : bool :=
  match entry_path e with Special Root => true | _ => false end.

Definition granted_file_system_entry_within_request (requested : FileSystemPermissions)
    (requested_policy : FsPolicy) (requested_read_deny_matcher : option (@PreparedReadDenyMatcher Url))
    (granted_entry : Entry) (context : Ctx) : bool :=
  if negb (can_read (access granted_entry))
     || match entry_path granted_entry with
        | Special SlashTmp => negb (bool_decide (path_convention (cwd context) = Some Posix))
        | _ => false
        end
  then false
  else if bool_decide (path_convention (cwd context) = Some Windows) && is_root_entry granted_entry
          && negb (existsb (fun e => is_root_entry e && access_covers (access e) (access granted_entry))
                     (fs_entries requested))
  then false
  else
    match resolve_permission_path (entry_path granted_entry) context with
    | Some path =>
        if negb (bool_decide (path_convention path = path_convention (cwd context)))
           || match requested_read_deny_matcher with
              | Some matcher => matches_prepared_read_deny path context matcher
              | None => false
              end
        then false
        else access_covers (resolve_access requested_policy path context) (access granted_entry)
    | None =>
        existsb (fun e => access_covers (access e) (access granted_entry)
                          && path_eq (entry_path e) (entry_path granted_entry)) (fs_entries requested)
    end.

Definition paths_overlap (left right : Url) : bool := default true (overlaps left right).

Definition glob_static_prefix_path (pattern : str) (context : Ctx) : option Url :=
  let is_windows := bool_decide (path_convention (cwd context) = Some Windows) in
  '(prefix, wildcard_in_segment) ←
    match before_meta pattern with
    | Some [] => None
    | Some prefix =>
        Some (prefix, negb (ends_with prefix [FORWARD_SLASH] || is_windows && ends_with prefix [BACKSLASH]))
    | None => Some (pattern, false)
    end;
  prefix ← res_ok (join_uri (cwd context) prefix);
  if wildcard_in_segment : bool then parent prefix else Some prefix.

(** [is_none_or]. *)
Definition none_or {A} (p : A -> bool) (o : option A) : bool :=
  match o with Some x => p x | None => true end.

Definition deny_entry_constrains_accepted_grant (deny_entry : Entry) (accepted_entries : list Entry)
    (context : Ctx) : bool :=
  existsb (fun e =>
    can_read (access e)
    && (is_root_entry e
        || match resolve_permission_path (entry_path e) context with
           | None => true
           | Some grant_path =>
               match entry_path deny_entry with
               | GlobPattern pattern =>
                   none_or (fun prefix => paths_overlap prefix grant_path) (glob_static_prefix_path pattern context)
               | Path _ | Special _ =>
                   none_or (fun deny_path => paths_overlap deny_path grant_path)
                     (resolve_permission_path (entry_path deny_entry) context)
               end
           end)) accepted_entries.

(** The denials retained; each is pushed to the output. *)
Definition retained_denials (source_entries accepted_entries : list Entry) (context : Ctx) : list Entry :=
  List.filter (fun e => deny_entry_constrains_accepted_grant e accepted_entries context)
    (List.filter is_deny source_entries).

Definition accepted_grants (requested_fs : FileSystemPermissions) (requested_entries granted_entries : list Entry)
    (context : Ctx) : list Entry :=
  let requested_policy := restricted requested_entries in
  let matcher := matcher_from_context build_glob show_path_error requested_policy context in
  fold_left push_missing
    (List.filter (fun e => granted_file_system_entry_within_request requested_fs requested_policy matcher e context)
       granted_entries) [].

Definition intersect_file_system (requested_fs granted_fs : FileSystemPermissions) (context : Ctx)
  : option FileSystemPermissions :=
  requested_entries ← materialize_context_dependent_entries (fs_entries requested_fs) context;
  granted_entries ← materialize_context_dependent_entries (fs_entries granted_fs) context;
  let accepted := accepted_grants requested_fs requested_entries granted_entries context in
  let requested_retained := retained_denials requested_entries accepted context in
  let granted_retained := retained_denials granted_entries accepted context in
  Some (mkFsPermissions
          (fold_left push_missing granted_retained (fold_left push_missing requested_retained accepted))
          (nonzero (merge_glob_scan_max_depth requested_retained (fs_glob_scan_max_depth requested_fs)
                      granted_retained (fs_glob_scan_max_depth granted_fs)))).

Definition intersect_permission_profiles_with_context (requested granted : AdditionalPermissionProfile)
    (context : Ctx) : AdditionalPermissionProfile :=
  mkAdditional
    (if network_on (add_network requested) && network_on (add_network granted)
     then Some (mkNetworkPermissions (Some true)) else None)
    (keep_if (fun f => negb (fs_is_empty f))
       (requested_fs ← add_file_system requested;
        intersect_file_system requested_fs (default default_fs (add_file_system granted)) context)).

(** ** The profile of a sandbox *)

Definition merge_file_system_policy_with_additional_permissions (policy : FsPolicy)
    (additional : FileSystemPermissions) : FsPolicy :=
  match kind policy with
  | Restricted =>
      mkPolicy Restricted
        (merge_glob_scan_max_depth (entries policy) (glob_scan_max_depth policy)
           (fs_entries additional) (fs_glob_scan_max_depth additional))
        (fold_left push_missing (fs_entries additional) (entries policy))
  | Unrestricted | ExternalSandbox => policy
  end.

Definition effective_file_system_sandbox_policy (policy : FsPolicy)
    (additional : option AdditionalPermissionProfile) : FsPolicy :=
  match additional ≫= add_file_system with
  | Some fs => if fs_is_empty fs then policy else merge_file_system_policy_with_additional_permissions policy fs
  | None => policy
  end.

(** [NetworkPermissions] as the orchestrator sees them. *)
Definition additional_network (a : AdditionalPermissionProfile) : option (option bool) :=
  option_map net_enabled (add_network a).

Definition enforcement (p : Profile) : SandboxEnforcement :=
  match p with
  | Managed _ _ => EnforceManaged
  | ProfileDisabled => EnforceDisabled
  | External _ => EnforceExternal
  end.

(** [ManagedFileSystemPermissions::from_sandbox_policy]; an external policy is
    unreachable there. *)
Definition from_sandbox_policy (policy : FsPolicy) : ManagedFileSystemPermissions :=
  match kind policy with
  | Restricted => ManagedRestricted (entries policy) (nonzero (glob_scan_max_depth policy))
  | Unrestricted | ExternalSandbox => ManagedUnrestricted
  end.

Definition from_runtime_permissions_with_enforcement (e : SandboxEnforcement) (policy : FsPolicy)
    (network : NetworkSandboxPolicy) : Profile :=
  match kind policy with
  | ExternalSandbox => External network
  | Unrestricted => if bool_decide (e = EnforceDisabled) then ProfileDisabled
                    else Managed (from_sandbox_policy policy) network
  | Restricted => Managed (from_sandbox_policy policy) network
  end.

Definition effective_permission_profile (p : Profile) (additional : option AdditionalPermissionProfile) : Profile :=
  from_runtime_permissions_with_enforcement (enforcement p)
    (effective_file_system_sandbox_policy (file_system_sandbox_policy p) additional)
    (effective_network_sandbox_policy (network_sandbox_policy p) (option_map additional_network additional)).

End transforms.
