(* ===== verification/PermissionTransformsProps.v ===== *)
(** * What additional permissions give

    Binding entries to the executor keeps what they stand for; the intersection
    of a request with its answer lets nothing be read that either denies; the
    policy a sandbox is given keeps every denial that no deeper grant overrides. *)

From S2P Require Import Prelude RustStr PatchTypes ExecutorFs PathUri ApiPath PathUriSpec FileUrls PathUriProps SandboxPolicy SandboxPolicyProps ReadDeny ExecApproval ToolOrchestrator PermissionTransforms.

Section transforms.
Context {Url : Type} `{UrlLaws Url} `{Unreachable Url}.
Context (build_glob : str -> bool -> bool -> result (list N -> bool) str).
Context (show_path_error : LegacyAppPathStringError -> str).
Abbreviation Entry := (@FileSystemSandboxEntry Url).
Abbreviation FsPolicy := (@FileSystemSandboxPolicy Url).
Implicit Types (e : Entry) (l : list Entry) (context : @PolicyContext Url) (u v path root : Url).

(** ** Policies with the same targets *)

Lemma with_depths_some (l : list (Url * FileSystemAccessMode)) :
  is_some (with_depths l) = true
  <-> forall u a, In (u, a) l -> is_some (lexical_depth u) || is_opaque u = true.
Proof.
  induction l as [|[v b] l IH]; [by split; [intros _ u a []|]|]. simpl. split.
  - destruct (lexical_depth v) as [d|] eqn:Ed.
    + intros Hs u a [[= <- <-]|Hin]; [by rewrite Ed|]. apply (proj1 IH) with (2 := Hin).
      by destruct (with_depths l).
    + destruct (is_opaque v) eqn:Eo; [|done].
      intros Hs u a [[= <- <-]|Hin]; [by rewrite Ed, Eo|]. by apply (proj1 IH Hs u a).
  - intros Hall. assert (Hl : is_some (with_depths l) = true) by (apply IH; intros u a ?; apply (Hall u a); by right).
    specialize (Hall v b (or_introl eq_refl)). destruct (lexical_depth v); simpl in Hall.
    + by destruct (with_depths l).
    + by rewrite Hall.
Qed.

Definition same_targets context (p q : FsPolicy) : Prop :=
  forall u a, In (u, a) (resolved_entries p context) <-> In (u, a) (resolved_entries q context).

#[export] Instance same_targets_equivalence context : Equivalence (same_targets context).
Proof.
  split; [done|intros p q Hs u a; by rewrite (Hs u a)|].
  intros p q r Hpq Hqr u a. by rewrite (Hpq u a).
Qed.

Lemma same_targets_granted p q context path :
  kind p = Restricted -> kind q = Restricted -> same_targets context p q ->
  resolve_access p path context <> Deny ->
  resolve_access q path context = resolve_access p path context.
Proof.
  intros Hp Hq Hs Hne.
  destruct (proj1 (resolve_access_granted p context path _ Hp Hne) eq_refl) as (Hr & Hd & root & d & Hdec).
  apply (resolve_access_granted q context path _ Hq Hne). split; [done|]. split.
  - rewrite with_depths_some in *. intros u a Hin. apply (Hd u a). by apply Hs.
  - exists root, d. destruct Hdec as [(Hin & Hl) Hmax]. split.
    + split; [by apply Hs|done].
    + intros r a d' (Hin' & Hl'). apply (Hmax r). split; [by apply Hs|done].
Qed.

Lemma same_targets_access p q context path :
  kind p = Restricted -> kind q = Restricted -> same_targets context p q ->
  resolve_access p path context = resolve_access q path context.
Proof.
  intros Hp Hq Hs. destruct (decide (resolve_access p path context = Deny)) as [Hd|Hd].
  - destruct (decide (resolve_access q path context = Deny)) as [Hd'|Hd']; [congruence|].
    apply (same_targets_granted q p); [done..| |done]. by symmetry.
  - symmetry. by apply same_targets_granted.
Qed.

(** ** Binding entries to the executor *)

Abbreviation targets context l := (concat (map (entry_targets context) l)).

Lemma target_of_path context e u :
  entry_targets context (materialized_path_entry e u)
  = if decide (path_convention u = path_convention (cwd context)) then [(u, access e)] else [].
Proof. unfold entry_targets. simpl. rewrite filter_cons. by case_decide. Qed.

Lemma materialize_roots_targets e subpath context roots l :
  entry_path e = Special (ProjectRoots subpath) ->
  materialize_roots e context roots = Some l ->
  targets context l
  = map (fun u => (u, access e))
      (filter (fun u => path_convention u = path_convention (cwd context))
         (omap (fun root => match subpath with
                            | Some subpath => res_ok (join_uri root subpath)
                            | None => Some root
                            end) roots)).
Proof.
  intros He. revert l. induction roots as [|r roots IH]; intros l; simpl; [by intros [= <-]|].
  rewrite He. simpl. set (t := match subpath with Some s => _ | None => _ end).
  destruct t as [u|]; [|by destruct (is_deny e); [|apply IH]].
  destruct (materialize_roots e context roots) as [l1|]; [|done]. simpl. intros [= <-].
  simpl. rewrite target_of_path, (IH l1 eq_refl), filter_cons. by case_decide.
Qed.

Lemma materialize_entry_targets e context l :
  materialize_entry e context = Some l -> targets context l = entry_targets context e.
Proof.
  assert (Hone : forall e', targets context [e'] = entry_targets context e') by (intros; apply app_nil_r).
  unfold materialize_entry, materialize_cwd_dependent_entry.
  destruct (entry_path e) as [u|p|v] eqn:He.
  - intros [= <-]. apply Hone.
  - set (b := match glob_home_relative _ _ with Some _ => _ | None => _ end).
    assert (Hnil : entry_targets context e = []) by (unfold entry_targets; by rewrite He).
    rewrite Hnil. destruct b as [[r q]|]; simpl; [|by destruct (is_deny e); [|intros [= <-]]].
    destruct (res_ok (join_uri r q)); simpl; [by intros [= <-]|by destruct (is_deny e); [|intros [= <-]]].
  - destruct v as [| |sub| | |s sub]; try (intros [= <-]; apply Hone).
    + destruct (resolve_permission_path (Special Root) context); [|done]. intros [= <-]. apply Hone.
    + destruct (materialize_roots e context _) as [l1|] eqn:E; [|done]. simpl.
      destruct (is_deny e && _); [done|]. intros [= <-].
      rewrite (materialize_roots_targets e sub context _ _ He E). unfold entry_targets. by rewrite He.
    + assert (Ht : entry_targets context e = map (fun u => (u, access e))
                (filter (fun u => path_convention u = path_convention (cwd context))
                   (default [] (temporary_directories context)))) by (unfold entry_targets; by rewrite He).
      destruct (temporary_directories context) as [dirs|].
      * intros [= <-]. rewrite Ht. cbn [from_option id]. clear Ht. induction dirs as [|u dirs IH]; [done|].
        cbn [map concat]. rewrite target_of_path, IH. rewrite filter_cons. by case_decide.
      * destruct (is_deny e); [done|]. intros [= <-]. apply Hone.
Qed.

Lemma materialize_targets l context l' :
  materialize_context_dependent_entries l context = Some l' -> targets context l' = targets context l.
Proof.
  revert l'. induction l as [|e l IH]; intros l'; simpl; [by intros [= <-]|].
  destruct (materialize_entry e context) as [first|] eqn:E; [|done]. simpl.
  destruct (materialize_context_dependent_entries l context) as [rest|]; [|done]. intros [= <-].
  rewrite map_app, concat_app, (IH rest eq_refl). by rewrite (materialize_entry_targets e context first E).
Qed.



(** Binding the entries of a policy to the executor changes no access. *)
Lemma materialize_access l context l' path :
  materialize_context_dependent_entries l context = Some l' ->
  resolve_access (restricted l') path context = resolve_access (restricted l) path context.
Proof.
  intros Hm. apply same_targets_access; [done..|]. intros u a. unfold resolved_entries. simpl.
  by rewrite (materialize_targets l context l' Hm).
Qed.

(** An entry bound to the executor has at most one target. *)
Definition bound context e : Prop :=
  match entry_path e with
  | Special (ProjectRoots _) => False
  | Special Tmpdir => temporary_directories context = None
  | _ => True
  end.

Lemma materialize_roots_bound e context roots l :
  materialize_roots e context roots = Some l -> Forall (bound context) l.
Proof.
  revert l. induction roots as [|r roots IH]; intros l; simpl; [by intros [= <-]|].
  destruct (resolve_permission_path _ _); [|by destruct (is_deny e); [|apply IH]].
  destruct (materialize_roots e context roots); [|done]. simpl. intros [= <-].
  constructor; [done|by apply IH].
Qed.

Lemma materialize_bound l context l' :
  materialize_context_dependent_entries l context = Some l' -> Forall (bound context) l'.
Proof.
  revert l'. induction l as [|e l IH]; intros l'; simpl; [by intros [= <-]|].
  destruct (materialize_entry e context) as [first|] eqn:E; [|done]. simpl.
  destruct (materialize_context_dependent_entries l context); [|done]. intros [= <-].
  apply Forall_app. split; [|by apply IH]. clear IH.
  unfold materialize_entry, materialize_cwd_dependent_entry in E.
  destruct (entry_path e) as [u|p|v] eqn:He.
  - injection E as <-. constructor; [|done]. unfold bound. by rewrite He.
  - destruct (match glob_home_relative _ _ with Some _ => _ | None => _ end) as [[r q]|]; simpl in E;
      [destruct (res_ok (join_uri r q))|]; simpl in E; simplify_eq; try (by constructor);
      destruct (is_deny e); simplify_eq; constructor.
  - destruct v as [| |sub| | |s sub]; try (injection E as <-; constructor; [|done]; unfold bound; by rewrite He).
    + destruct (resolve_permission_path _ _); [|done]. injection E as <-.
      constructor; [|done]. unfold bound. by rewrite He.
    + destruct (materialize_roots e context _) as [l1|] eqn:Er; [|done]. simpl in E.
      destruct (is_deny e && _); [done|]. injection E as <-. by eapply materialize_roots_bound.
    + destruct (temporary_directories context) as [dirs|] eqn:Ed.
      * injection E as <-. apply Forall_forall. intros f (u & -> & _)%list_elem_of_fmap. done.
      * destruct (is_deny e); [done|]. injection E as <-. constructor; [|done]. unfold bound. by rewrite He.
Qed.

Lemma bound_target context e u :
  bound context e -> stands_for context e u -> resolve_permission_path (entry_path e) context = Some u.
Proof.
  unfold bound, stands_for. intros Hb [_ Hu]. destruct (entry_path e) as [v|p|v]; simpl in *; [congruence|done|].
  destruct v; simpl in *; try done.
  - destruct (file_system_root context); [|done]. by destruct Hu as [->|[]].
  - by rewrite Hb in Hu.
  - case_bool_decide; [|done]. destruct (join_uri _ _); [|done]. by destruct Hu as [->|[]].
Qed.


(** ** Entries above a path, on POSIX *)

(** Of two entries that apply to a path, the shallower one applies at the root
    of the other. *)
Lemma applies_above p q context path r a d u b n :
  posix_context context -> lexical Posix path ->
  applies p context path r a d -> applies q context path u b n -> d <= n -> applies p context u r a d.
Proof.
  intros Hctx Hp Hr Hu Hle.
  pose proof (applies_lexical _ _ _ _ _ _ Hctx Hr) as Hrl. pose proof (applies_lexical _ _ _ _ _ _ Hctx Hu) as Hul.
  destruct Hr as (Hin & Hd & Hs), Hu as (_ & Hn & Hs'). split_and!; [done|done|].
  rewrite (names_depth Posix r Hrl) in Hd. rewrite (names_depth Posix u Hul) in Hn. simplify_eq.
  rewrite starts_with_posix in Hs, Hs' |- * by done.
  destruct (prefix_weak_total _ _ _ Hs Hs') as [|Hback]; [done|].
  by rewrite (prefix_length_eq _ _ Hback Hle).
Qed.

Lemma applies_below p context path r a d u b n q :
  posix_context context -> lexical Posix path ->
  applies p context u r a d -> applies q context path u b n -> applies p context path r a d.
Proof.
  intros Hctx Hp Hr Hu.
  pose proof (applies_lexical _ _ _ _ _ _ Hctx Hr) as Hrl. pose proof (applies_lexical _ _ _ _ _ _ Hctx Hu) as Hul.
  destruct Hr as (Hin & Hd & Hs), Hu as (_ & Hn & Hs'). split_and!; [done|done|].
  rewrite starts_with_posix in Hs, Hs' |- * by done. by trans (names u).
Qed.

Lemma applies_overlap p q context path r a d u b n :
  posix_context context -> lexical Posix path ->
  applies p context path r a d -> applies q context path u b n -> paths_overlap r u = true.
Proof.
  intros Hctx Hp Hr Hu.
  pose proof (applies_lexical _ _ _ _ _ _ Hctx Hr) as Hrl. pose proof (applies_lexical _ _ _ _ _ _ Hctx Hu) as Hul.
  destruct Hr as (_ & Hd & Hs), Hu as (_ & Hn & Hs'). unfold paths_overlap, overlaps.
  destruct (uri_eq r u); [done|]. rewrite Hd, Hn. simpl. rewrite orb_true_iff.
  rewrite !starts_with_posix in * by done. destruct (prefix_weak_total _ _ _ Hs Hs'); [by right|by left].
Qed.

(** ** The intersection *)

Lemma push_missing_In (l base : list Entry) e :
  In e (fold_left push_missing l base) -> In e base \/ In e l.
Proof.
  destruct (push_missing_all l base) as (extra & -> & Hin & _). rewrite in_app_iff.
  intros [?|?%Hin]; [by left|by right].
Qed.

Lemma push_missing_keeps (l base : list Entry) e :
  In e base -> In e (fold_left push_missing l base).
Proof. destruct (push_missing_all l base) as (extra & -> & _). rewrite in_app_iff. by left. Qed.

Lemma contains_more (l m : list Entry) e :
  contains_entry l e = true -> contains_entry (fold_left push_missing m l) e = true.
Proof.
  destruct (push_missing_all m l) as (extra & -> & _). unfold contains_entry.
  rewrite existsb_app. by intros ->.
Qed.

(** What an entry of the intersection is. *)
Lemma intersection_entries rfs gfs context fs :
  intersect_file_system build_glob show_path_error rfs gfs context = Some fs ->
  exists requested granted accepted,
    materialize_context_dependent_entries (fs_entries rfs) context = Some requested
    /\ materialize_context_dependent_entries (fs_entries gfs) context = Some granted
    /\ (forall e, In e accepted -> In e (fs_entries fs) /\ In e granted
          /\ granted_file_system_entry_within_request rfs (restricted requested)
               (matcher_from_context build_glob show_path_error (restricted requested) context) e context = true)
    /\ (forall e, In e (fs_entries fs) -> access e <> Deny -> In e accepted)
    /\ (forall e, In e (requested ++ granted) -> access e = Deny ->
          deny_entry_constrains_accepted_grant e accepted context = true ->
          contains_entry (fs_entries fs) e = true).
Proof.
  unfold intersect_file_system.
  destruct (materialize_context_dependent_entries (fs_entries rfs) context) as [requested|] eqn:Er; [|done].
  destruct (materialize_context_dependent_entries (fs_entries gfs) context) as [granted|] eqn:Eg; [|done].
  simpl. set (accepted := accepted_grants _ _ rfs requested granted context). intros [= <-]. simpl.
  exists requested, granted, accepted. split_and!; [done..| | |].
  - intros e He. split; [by do 2 apply push_missing_keeps|].
    apply push_missing_In in He as [[]|He]. by apply filter_In in He.
  - assert (Hret : forall src e, In e (retained_denials src accepted context) -> access e = Deny).
    { intros src e (Hin & _)%filter_In. apply filter_In in Hin as (_ & Hd). by apply bool_decide_eq_true in Hd. }
    intros e He Hne. apply push_missing_In in He as [He|He]; [|by apply Hret in He].
    apply push_missing_In in He as [He|He]; [done|by apply Hret in He].
  - assert (Hin : forall src e, In e src -> access e = Deny ->
      deny_entry_constrains_accepted_grant e accepted context = true -> In e (retained_denials src accepted context)).
    { intros src e Hs Hd Hc. apply filter_In. split; [|done]. apply filter_In. split; [done|].
      by apply bool_decide_eq_true. }
    intros e [He|He]%in_app_iff Hd Hc.
    + apply contains_more. destruct (push_missing_all (retained_denials requested accepted context) accepted)
        as (extra & -> & _ & Hall). by apply Hall, Hin.
    + set (base := fold_left _ _ accepted).
      destruct (push_missing_all (retained_denials granted accepted context) base) as (extra & -> & _ & Hall).
      by apply Hall, Hin.
Qed.


(** An accepted grant and the request at its root. *)
Lemma accepted_root rfs requested matcher e context u :
  bound context e -> stands_for context e u ->
  granted_file_system_entry_within_request rfs requested matcher e context = true ->
  access_covers (resolve_access requested u context) (access e) = true.
Proof.
  intros Hb Hs. unfold granted_file_system_entry_within_request.
  destruct (negb _ || _); [done|]. destruct (_ && negb _); [done|].
  rewrite (bound_target context e u Hb Hs). by destruct (_ || _).
Qed.

Lemma covers_readable a b : access_covers a b = true -> a <> Deny /\ b <> Deny /\ (b = Write -> a = Write).
Proof. by destruct a, b. Qed.

(** A denial that applies to a path under an accepted grant is kept. *)
Lemma retained_applies context path (accepted : list Entry) e f r d u b n fs q :
  posix_context context -> lexical Posix path ->
  In f accepted -> access f <> Deny -> bound context f -> stands_for context f u ->
  applies q context path u b n ->
  access e = Deny -> bound context e -> stands_for context e r ->
  lexical_depth r = Some d -> uri_starts_with path r = true ->
  (deny_entry_constrains_accepted_grant e accepted context = true -> contains_entry fs e = true) ->
  applies (restricted fs) context path r Deny d.
Proof.
  intros Hctx Hp Hf Hfa Hfb Hfs Hu He Heb Hes Hd Hr Hkeep.
  assert (Hre : applies (restricted [e]) context path r Deny d).
  { apply applies_iff. split_and!; [done..|]. exists e. split_and!; [by left|done|done]. }
  assert (Hc : deny_entry_constrains_accepted_grant e accepted context = true).
  { apply existsb_exists. exists f. split; [done|]. apply andb_true_iff. split; [by destruct (access f)|].
    apply orb_true_iff. right. rewrite (bound_target context f u Hfb Hfs).
    pose proof (bound_target context e r Heb Hes) as Ht.
    pose proof (applies_overlap _ _ _ _ _ _ _ _ _ _ Hctx Hp Hre Hu) as Ho.
    destruct Hes as [_ Hes]. destruct (entry_path e); [by rewrite Ht|done|by rewrite Ht]. }
  apply Hkeep, existsb_exists in Hc as (g & Hg & Heq).
  pose proof Hctx as [_ (Hcwd & _ & _)%lexical_iff].
  destruct (entry_eq_stands_for context e g r Hcwd Heq Hes) as [Hgs Hga].
  apply applies_iff. split_and!; [done..|]. exists g. split_and!; [done|done|congruence].
Qed.

(** The grant that decides the access of a path in the intersection, with the
    denials of either side that apply to the path above it. *)
Lemma intersection_decided rfs gfs context fs path a :
  posix_context context -> lexical Posix path ->
  intersect_file_system build_glob show_path_error rfs gfs context = Some fs ->
  a <> Deny -> resolve_access (restricted (fs_entries fs)) path context = a ->
  exists u d,
    decides (restricted (fs_entries fs)) context path u a d
    /\ access_covers (resolve_access (restricted (fs_entries rfs)) u context) a = true
    /\ applies (restricted (fs_entries gfs)) context path u a d
    /\ forall r n, applies (restricted (fs_entries rfs)) context path r Deny n
         \/ applies (restricted (fs_entries gfs)) context path r Deny n -> n < d.
Proof.
  intros Hctx Hp Hi Ha Hacc.
  apply intersection_entries in Hi as (requested & granted & accepted & Hr & Hg & Hin & Hallow & Hdeny).
  pose proof (materialize_bound _ _ _ Hr) as Hrb. pose proof (materialize_bound _ _ _ Hg) as Hgb.
  rewrite Forall_forall in Hrb, Hgb. setoid_rewrite list_elem_of_In in Hrb. setoid_rewrite list_elem_of_In in Hgb.
  assert (Hsame : forall l l' r b n, materialize_context_dependent_entries l context = Some l' ->
    applies (restricted l) context path r b n <-> applies (restricted l') context path r b n).
  { intros l l' r b n Hm. unfold applies, resolved_entries. simpl. by rewrite (materialize_targets l context l' Hm). }
  apply resolve_access_granted in Hacc as (_ & _ & u & d & Hdec); [|done..].
  pose proof Hdec as [Happ Hmax]. pose proof Happ as (Hd & Hu & e & He & Hst & Hae)%applies_iff.
  assert (Hacc : In e accepted) by (apply Hallow; [done|congruence]).
  pose proof (Hin e Hacc) as (_ & Heg & Hwithin). pose proof (Hgb e Heg) as Heb.
  exists u, d. split; [done|]. split; [|split].
  - rewrite <- (materialize_access _ _ _ u Hr), <- Hae. by eapply accepted_root.
  - apply (Hsame _ _ _ _ _ Hg). apply applies_iff. split_and!; [done..|]. by exists e.
  - assert (Hkeep : forall f r n, In f (requested ++ granted) -> stands_for context f r -> access f = Deny ->
              lexical_depth r = Some n -> uri_starts_with path r = true -> n < d).
    { intros f r n Hf Hfs Hfa Hn Hsw. destruct (Hmax r Deny n) as [|[_ Hle]]; [|done|destruct a; simpl in Hle; [lia|lia|done]].
      eapply (retained_applies context path accepted f e); try done.
      - congruence.
      - apply in_app_iff in Hf as [Hf|Hf]; [by apply Hrb|by apply Hgb].
      - by apply Hdeny. }
    intros r n [Hden|Hden].
    + apply (Hsame _ _ _ _ _ Hr), applies_iff in Hden as (Hn & Hsw & f & Hf & Hfs & Hfa).
      by apply (Hkeep f r n); [apply in_app_iff; left|..].
    + apply (Hsame _ _ _ _ _ Hg), applies_iff in Hden as (Hn & Hsw & f & Hf & Hfs & Hfa).
      by apply (Hkeep f r n); [apply in_app_iff; right|..].
Qed.

(** The directory a glob starts from covers [path]; [None]: no directory bounds it. *)
Definition glob_may_cover context path (pattern : str) : Prop :=
  match glob_static_prefix_path pattern context with
  | Some prefix => lexical Posix prefix /\ uri_starts_with path prefix = true
  | None => True
  end.

(** The pattern of a glob denial of a list, bound to the executor. *)
Definition denied_glob context (l : list Entry) (pattern : str) : Prop :=
  exists bound m, materialize_context_dependent_entries l context = Some bound
    /\ In (mkEntry (GlobPattern pattern) Deny m) bound.

Lemma glob_constrains context path (accepted : list Entry) f u b n q pattern m :
  posix_context context -> lexical Posix path ->
  In f accepted -> access f <> Deny -> bound context f -> stands_for context f u ->
  applies q context path u b n -> glob_may_cover context path pattern ->
  deny_entry_constrains_accepted_grant (mkEntry (GlobPattern pattern) Deny m) accepted context = true.
Proof.
  intros Hctx Hp Hf Hfa Hfb Hfs Hu Hcover. pose proof (applies_lexical _ _ _ _ _ _ Hctx Hu) as Hul.
  apply existsb_exists. exists f. split; [done|]. apply andb_true_iff. split; [by destruct (access f)|].
  apply orb_true_iff. right. rewrite (bound_target context f u Hfb Hfs). cbn [entry_path].
  unfold glob_may_cover in Hcover. destruct (glob_static_prefix_path pattern context) as [prefix|]; [|done].
  destruct Hcover as [Hpl Hs]. cbn [none_or]. unfold paths_overlap, overlaps. destruct (uri_eq prefix u); [done|].
  rewrite (names_depth Posix prefix Hpl), (names_depth Posix u Hul). simpl. rewrite orb_true_iff.
  destruct Hu as (_ & _ & Hs'). rewrite !starts_with_posix in * by done.
  destruct (prefix_weak_total _ _ _ Hs Hs'); [by right|by left].
Qed.

Definition glob_denied (l : list Entry) (pattern : str) : Prop :=
  exists m, In (mkEntry (GlobPattern pattern) Deny m) l.

Lemma contains_glob (l : list Entry) pattern m :
  contains_entry l (mkEntry (GlobPattern pattern) Deny m) = true -> glob_denied l pattern.
Proof.
  intros (g & Hg & Heq)%existsb_exists. destruct g as [gp ga gm]. unfold entry_eq in Heq. cbn in Heq.
  apply andb_prop in Heq as [[Hpe Ha]%andb_prop _].
  destruct gp as [v|t|v]; try done. apply bool_decide_eq_true in Hpe, Ha. subst. by exists gm.
Qed.

(** Where the intersection gives access, it keeps the glob denials of both sides. *)
Lemma intersection_keeps_globs rfs gfs context fs path pattern :
  posix_context context -> lexical Posix path ->
  intersect_file_system build_glob show_path_error rfs gfs context = Some fs ->
  resolve_access (restricted (fs_entries fs)) path context <> Deny ->
  denied_glob context (fs_entries rfs) pattern \/ denied_glob context (fs_entries gfs) pattern ->
  glob_may_cover context path pattern ->
  glob_denied (fs_entries fs) pattern.
Proof.
  intros Hctx Hp Hi Hne Hden Hcover.
  apply intersection_entries in Hi as (requested & granted & accepted & Hr & Hg & Hin & Hallow & Hdeny).
  pose proof (materialize_bound _ _ _ Hg) as Hgb. rewrite Forall_forall in Hgb. setoid_rewrite list_elem_of_In in Hgb.
  destruct (proj1 (resolve_access_granted (restricted (fs_entries fs)) context path _ eq_refl Hne) eq_refl)
    as (_ & _ & u & d & Happ & _).
  pose proof Happ as (_ & _ & e & He & Hst & Hae)%applies_iff.
  assert (Hacc : In e accepted) by (apply Hallow; [done|congruence]).
  destruct (Hin e Hacc) as (_ & Heg & _).
  assert (Hd : exists m, In (mkEntry (GlobPattern pattern) Deny m) (requested ++ granted)).
  { destruct Hden as [(l & m & Hl & Hm)|(l & m & Hl & Hm)]; exists m; apply in_app_iff; [left|right]; congruence. }
  destruct Hd as [m Hm]. specialize (Hdeny _ Hm eq_refl).
  rewrite (glob_constrains context path accepted e u _ _ _ pattern m Hctx Hp Hacc ltac:(congruence) (Hgb e Heg) Hst Happ Hcover)
    in Hdeny. by apply contains_glob with (m := m), Hdeny.
Qed.

(** A union keeps the glob denials of its parts. *)
Lemma pushed_glob (l base : list Entry) pattern :
  glob_denied base pattern \/ glob_denied l pattern -> glob_denied (fold_left push_missing l base) pattern.
Proof.
  intros [[m Hm]|[m Hm]]; [exists m; by apply push_missing_keeps|].
  destruct (push_missing_all l base) as (extra & -> & _ & Hall). by apply contains_glob with (m := m), Hall.
Qed.

(** A path below a readable root with no denial as deep as it is readable. *)
Lemma readable_below p context path u b d q a :
  posix_context context -> lexical Posix path -> kind p = Restricted ->
  applies q context path u a d -> lexical Posix u ->
  resolve_access p u context = b -> b <> Deny ->
  (forall r n, applies p context path r Deny n -> n < d) ->
  resolve_access p path context <> Deny.
Proof.
  intros Hctx Hp Hk Hq Hul Hb Hne Hdeny.
  pose proof Hb as (_ & Hdepths & r & n & Happ & Hmax)%(resolve_access_granted p context u b Hk Hne).
  destruct (with_depths (resolved_entries p context)) as [l|] eqn:El; [|done].
  pose proof (applies_below _ _ _ _ _ _ _ _ _ _ Hctx Hp Happ Hq) as Happ'.
  destruct (resolve_access_decides p context path l Hk) as (r' & a' & n' & [Happ1 Hmax1] & ->);
    [by apply posix_resolvable|done|by eexists _, _, _|].
  intros ->. pose proof (Hdeny _ _ Happ1) as Hlt.
  pose proof (applies_above _ _ _ _ _ _ _ _ _ _ Hctx Hp Happ1 Hq ltac:(lia)) as Hat.
  destruct (Hmax _ _ _ Hat) as [Hn|[-> Hle]]; [|destruct b; simpl in Hle; [lia|lia|done]].
  destruct (Hmax1 _ _ _ Happ') as [|[? _]]; lia.
Qed.


(** ** Unions *)

(** The targets of a policy whose entries are those of two lists. *)
Lemma union_targets p (base added : list Entry) context u a :
  path_convention (cwd context) = Some Posix -> entries p = fold_left push_missing added base ->
  In (u, a) (resolved_entries p context)
  <-> In (u, a) (resolved_entries (restricted base) context)
      \/ In (u, a) (resolved_entries (restricted added) context).
Proof.
  intros Hc He. rewrite !resolved_entries_In, He. simpl.
  destruct (push_missing_all added base) as (extra & -> & Hin & Hall). setoid_rewrite in_app_iff. split.
  - intros (e & [Hb|Hx%Hin] & Hu); [left; by exists e|right; by exists e].
  - intros [(e & Hb & Hu)|(e & Hx & Hu)]; [exists e; by split; [left|]|].
    apply Hall, existsb_exists in Hx as (f & Hf & Heq). apply in_app_iff in Hf. exists f. split; [done|].
    apply entry_targets_In in Hu as [Hs ->]. apply entry_targets_In.
    destruct (entry_eq_stands_for context e f u Hc Heq Hs) as [? ->]. done.
Qed.

Lemma union_applies p (base added : list Entry) context path u a d :
  path_convention (cwd context) = Some Posix -> entries p = fold_left push_missing added base ->
  applies p context path u a d
  <-> applies (restricted base) context path u a d \/ applies (restricted added) context path u a d.
Proof. intros Hc He. unfold applies. rewrite (union_targets p base added context u a Hc He). tauto. Qed.

Lemma applies_entries p q context path u a d :
  entries p = entries q -> applies p context path u a d -> applies q context path u a d.
Proof. unfold applies, resolved_entries. by intros ->. Qed.

Lemma depths_sub p q context :
  (forall u a, In (u, a) (resolved_entries q context) -> In (u, a) (resolved_entries p context)) ->
  is_some (with_depths (resolved_entries p context)) = true ->
  is_some (with_depths (resolved_entries q context)) = true.
Proof. intros Hs. rewrite !with_depths_some. intros Hp u a Hin. by apply (Hp u a), Hs. Qed.

(** Which part of a union decides the access to a path. *)
Lemma union_granted p (base added : list Entry) context path a :
  path_convention (cwd context) = Some Posix -> kind p = Restricted ->
  entries p = fold_left push_missing added base ->
  a <> Deny -> resolve_access p path context = a ->
  exists u d, decides p context path u a d
    /\ (resolve_access (restricted base) path context = a /\ decides (restricted base) context path u a d
        \/ resolve_access (restricted added) path context = a /\ decides (restricted added) context path u a d).
Proof.
  intros Hc Hk He Ha Hacc.
  apply (resolve_access_granted p context path a Hk Ha) in Hacc as (Hr & Hd & u & d & Happ & Hmax).
  exists u, d. split; [done|].
  assert (Hpart : forall l, (forall u a, In (u, a) (resolved_entries (restricted l) context) ->
                               In (u, a) (resolved_entries p context)) ->
            applies (restricted l) context path u a d ->
            resolve_access (restricted l) path context = a /\ decides (restricted l) context path u a d).
  { intros l Hsub Hl. assert (Hdl : decides (restricted l) context path u a d).
    { split; [done|]. intros r b n (Hin & Hrest). apply (Hmax r). by split; [apply Hsub|]. }
    split; [|done]. apply resolve_access_granted; [done..|]. split_and!; [done| |by exists u, d].
    by apply (depths_sub p). }
  destruct (proj1 (union_applies p base added context path u a d Hc He) Happ) as [Hb|Hx].
  - left. apply Hpart; [|done]. intros. apply (union_targets p base added context _ _ Hc He). by left.
  - right. apply Hpart; [|done]. intros. apply (union_targets p base added context _ _ Hc He). by right.
Qed.

(** A decisive entry of one part, deeper than all of the other, decides. *)
Lemma union_decided p (base added : list Entry) context path u a d :
  path_convention (cwd context) = Some Posix -> kind p = Restricted ->
  entries p = fold_left push_missing added base -> a <> Deny -> resolvable context path ->
  is_some (with_depths (resolved_entries (restricted base) context)) = true ->
  is_some (with_depths (resolved_entries (restricted added) context)) = true ->
  decides (restricted added) context path u a d ->
  (forall r b n, applies (restricted base) context path r b n -> n < d) ->
  resolve_access p path context = a.
Proof.
  intros Hc Hk He Ha Hr Hdb Hda [Happ Hmax] Hdeep. apply resolve_access_granted; [done..|].
  split_and!; [done| |].
  - rewrite with_depths_some in *. intros v b [Hin|Hin]%(union_targets p base added context _ _ Hc He);
      [by apply (Hdb v b)|by apply (Hda v b)].
  - exists u, d. split; [by apply (union_applies p base added context path _ _ _ Hc He); right|].
    intros r b n [Hin|Hin]%(union_applies p base added context path _ _ _ Hc He); [left|]; eauto.
Qed.

(** ** The profile of a sandbox *)

Lemma policy_roundtrip (p : @PermissionProfile Url) (q : FsPolicy) network :
  kind q = kind (file_system_sandbox_policy p) ->
  let made := from_runtime_permissions_with_enforcement (enforcement p) q network in
  enforcement made = enforcement p
  /\ (network_sandbox_policy made = network
      \/ network_sandbox_policy made = NetworkEnabled /\ network_sandbox_policy p = NetworkEnabled)
  /\ kind (file_system_sandbox_policy made) = kind q
  /\ (kind q = Restricted -> entries (file_system_sandbox_policy made) = entries q).
Proof.
  unfold from_runtime_permissions_with_enforcement, from_sandbox_policy.
  destruct p as [[m d|]| |]; simpl; intros Hk; rewrite !Hk; simpl;
    split_and!; try done; by (left + right).
Qed.

(** The entries permissions add. *)
Definition given_entries (a : @AdditionalPermissionProfile Url) : list Entry :=
  match add_file_system a with Some fs => fs_entries fs | None => [] end.

Lemma effective_policy_union (policy : FsPolicy) (additional : AdditionalPermissionProfile) :
  let q := effective_file_system_sandbox_policy policy (Some additional) in
  kind q = kind policy
  /\ (kind policy = Restricted -> entries q = fold_left push_missing (given_entries additional) (entries policy)).
Proof.
  unfold effective_file_system_sandbox_policy, merge_file_system_policy_with_additional_permissions, fs_is_empty,
    given_entries. simpl. destruct (add_file_system additional) as [fs|]; [|done].
  destruct (fs_entries fs); [done|]. cbn [is_empty]. destruct policy as [[] d m]; simpl; by split.
Qed.

(** ** What permissions let be read *)

Lemma intersection_file_system (requested granted : @AdditionalPermissionProfile Url) context fs :
  add_file_system (intersect_permission_profiles_with_context build_glob show_path_error requested granted context)
    = Some fs ->
  exists rfs, add_file_system requested = Some rfs
    /\ intersect_file_system build_glob show_path_error rfs (default default_fs (add_file_system granted)) context
       = Some fs.
Proof.
  simpl. destruct (add_file_system requested) as [rfs|]; [|done]. simpl. intros Hfs. exists rfs. split; [done|].
  destruct (intersect_file_system _ _ rfs _ context) as [fs'|]; [|done]. simpl in Hfs. by destruct (negb _).
Qed.

Lemma intersection_readable rfs gfs context fs path :
  posix_context context -> lexical Posix path ->
  intersect_file_system build_glob show_path_error rfs gfs context = Some fs ->
  resolve_access (restricted (fs_entries fs)) path context <> Deny ->
  resolve_access (restricted (fs_entries rfs)) path context <> Deny
  /\ (is_some (with_depths (resolved_entries (restricted (fs_entries gfs)) context)) = true ->
      resolve_access (restricted (fs_entries gfs)) path context <> Deny).
Proof.
  intros Hctx Hp Hi Hne.
  destruct (intersection_decided _ _ _ _ path _ Hctx Hp Hi Hne eq_refl) as (u & d & _ & Hroot & Hg & Hden).
  pose proof (applies_lexical _ _ _ _ _ _ Hctx Hg) as Hul.
  destruct (covers_readable _ _ Hroot) as (Hrne & _ & _). split.
  - eapply readable_below; eauto.
  - intros Hdepths Hanswer.
    destruct (with_depths (resolved_entries (restricted (fs_entries gfs)) context)) as [l|] eqn:El; [|done].
    destruct (resolve_access_decides (restricted (fs_entries gfs)) context path l eq_refl)
      as (r & b & n & [Happ Hmax] & Hb); [by apply posix_resolvable|done|by eexists _, _, _|].
    rewrite Hanswer in Hb. subst b. pose proof (Hden _ _ (or_intror Happ)).
    destruct (Hmax _ _ _ Hg) as [|[? _]]; lia.
Qed.

(** The access permissions give by themselves. *)
Definition permissions_access (a : option (@AdditionalPermissionProfile Url)) context path : FileSystemAccessMode :=
  match a ≫= add_file_system with
  | Some fs => resolve_access (restricted (fs_entries fs)) path context
  | None => Deny
  end.

Definition permissions_network (a : option (@AdditionalPermissionProfile Url)) : bool :=
  network_on (a ≫= add_network).

Lemma no_entries_access context path : resolve_access (restricted []) path context = Deny.
Proof.
  unfold resolve_access. simpl. destruct (path_convention (cwd context)); [|done]. by destruct (_ || _).
Qed.

Lemma given_access (a : @AdditionalPermissionProfile Url) context path :
  permissions_access (Some a) context path = resolve_access (restricted (given_entries a)) path context.
Proof.
  unfold permissions_access, given_entries. simpl. destruct (add_file_system a); [done|].
  by rewrite no_entries_access.
Qed.

Lemma union_access context path (base added : list Entry) a :
  path_convention (cwd context) = Some Posix -> a <> Deny ->
  resolve_access (restricted (merge_permission_entries base added)) path context = a ->
  resolve_access (restricted base) path context = a \/ resolve_access (restricted added) path context = a.
Proof.
  intros Hc Ha. unfold merge_permission_entries. rewrite fold_left_app. intros Hacc.
  destruct (union_granted (restricted _) _ added context path a Hc eq_refl eq_refl Ha Hacc) as (u & d & _ & [[Hb _]|[Hx _]]);
    [left|by right].
  destruct (union_granted (restricted _) [] base context path a Hc eq_refl eq_refl Ha Hb) as (v & n & _ & [[Hn _]|[Hn _]]);
    [|done].
  rewrite no_entries_access in Hn. by subst.
Qed.

Lemma non_empty_access a context path :
  permissions_access (non_empty_profile a) context path = permissions_access a context path.
Proof. by destruct a as [[[network|] [fs|]]|]. Qed.

Lemma non_empty_network a : permissions_network (non_empty_profile a) = permissions_network a.
Proof. by destruct a as [[[network|] [fs|]]|]. Qed.

Lemma merge_keeps_glob base permissions g pattern :
  merge_permission_profiles base (Some permissions) = Some g ->
  (exists b, base = Some b /\ glob_denied (given_entries b) pattern) \/ glob_denied (given_entries permissions) pattern ->
  glob_denied (given_entries g) pattern.
Proof.
  assert (Hsome : forall a b : @AdditionalPermissionProfile Url, non_empty_profile (Some a) = Some b -> b = a).
  { intros a b. unfold non_empty_profile. simpl. destruct (negb _); [by intros [= ->]|done]. }
  destruct base as [b|]; cbn [merge_permission_profiles]; intros ->%Hsome; [|by intros [(b & [=] & _)|?]].
  intros Hg. assert (Hd : glob_denied (given_entries b) pattern \/ glob_denied (given_entries permissions) pattern)
    by (destruct Hg as [(b' & [= <-] & ?)|?]; auto). clear Hg. unfold given_entries in *. cbn [add_file_system].
  destruct (add_file_system b) as [bfs|], (add_file_system permissions) as [pfs|]; cbn in *;
    [|by destruct Hd as [?|[? []]]|by destruct Hd as [[? []]|?]|by destruct Hd].
  assert (Hm : glob_denied (merge_permission_entries (fs_entries bfs) (fs_entries pfs)) pattern).
  { apply pushed_glob. right. destruct Hd as [[m ?]|[m ?]]; exists m; apply in_app_iff; auto. }
  unfold fs_is_empty. simpl. destruct (merge_permission_entries _ _); [by destruct Hm|done].
Qed.

(** A union gives the access and the network of one of its parts. *)
Lemma merge_access base permissions context path a :
  path_convention (cwd context) = Some Posix -> a <> Deny ->
  permissions_access (merge_permission_profiles base permissions) context path = a ->
  permissions_access base context path = a \/ permissions_access permissions context path = a.
Proof.
  intros Hc Ha. destruct permissions as [p|]; [|by left].
  destruct base as [b|]; cbn [merge_permission_profiles]; rewrite non_empty_access; [|by right].
  unfold permissions_access. simpl.
  destruct (add_file_system b) as [bfs|], (add_file_system p) as [pfs|]; simpl; [|by left|by right|by left].
  set (m := merge_permission_entries _ _). unfold fs_is_empty. simpl.
  destruct (is_empty m) eqn:Em; simpl; [by intros <-|]. by apply union_access.
Qed.

Lemma merge_network base permissions :
  permissions_network (merge_permission_profiles base permissions) = true ->
  permissions_network base = true \/ permissions_network permissions = true.
Proof.
  destruct permissions as [p|]; [|by left]. destruct base as [b|]; cbn [merge_permission_profiles];
    rewrite non_empty_network; [|by right].
  unfold permissions_network. simpl. destruct (network_on (add_network b)); [by left|].
  destruct (network_on (add_network p)); [by right|done].
Qed.

Lemma effective_profile_entries (p : @PermissionProfile Url) (additional : @AdditionalPermissionProfile Url) :
  kind (file_system_sandbox_policy p) = Restricted ->
  entries (file_system_sandbox_policy (effective_permission_profile p (Some additional)))
  = fold_left push_missing (given_entries additional) (entries (file_system_sandbox_policy p)).
Proof.
  intros HR. set (policy := file_system_sandbox_policy p) in *.
  destruct (effective_policy_union policy additional) as [Hk He].
  destruct (policy_roundtrip p (effective_file_system_sandbox_policy policy (Some additional))
              (effective_network_sandbox_policy (network_sandbox_policy p) (Some (additional_network additional))) Hk)
    as (_ & _ & _ & He').
  unfold effective_permission_profile. cbn [option_map]. fold policy. rewrite He' by congruence. by apply He.
Qed.

Lemma effective_profile_union (p : @PermissionProfile Url) (additional : @AdditionalPermissionProfile Url) context path a :
  path_convention (cwd context) = Some Posix -> a <> Deny ->
  let added := restricted (given_entries additional) in
  let effective := effective_permission_profile p (Some additional) in
  let policy := file_system_sandbox_policy p in
  let policy' := file_system_sandbox_policy effective in
  enforcement effective = enforcement p
  /\ (network_sandbox_policy effective = NetworkEnabled <->
      network_sandbox_policy p = NetworkEnabled \/ network_on (add_network additional) = true)
  /\ kind policy' = kind policy
  /\ (kind policy = Restricted -> resolve_access policy' path context = a ->
      (resolve_access policy path context = a \/ resolve_access added path context = a)
      /\ forall r n, applies policy context path r Deny n ->
           exists u d, decides policy' context path u a d /\ n < d)
  /\ (kind policy = Restricted ->
      is_some (with_depths (resolved_entries policy context)) = true ->
      resolve_access added path context = a ->
      (forall u d, decides added context path u a d ->
         forall r b n, applies policy context path r b n -> n < d) ->
      resolve_access policy' path context = a).
Proof.
  intros Hc Ha added effective policy policy'.
  destruct (effective_policy_union policy additional) as [Hk He].
  destruct (policy_roundtrip p (effective_file_system_sandbox_policy policy (Some additional))
              (effective_network_sandbox_policy (network_sandbox_policy p) (Some (additional_network additional))) Hk)
    as (Henf & Hnet & Hk' & He').
  change (from_runtime_permissions_with_enforcement _ _ _) with effective in Henf, Hnet, Hk', He'.
  fold policy' in Hk', He'.
  assert (Hpol : kind policy = Restricted -> policy = mkPolicy Restricted (glob_scan_max_depth policy) (entries policy)).
  { intros <-. by destruct policy. }
  assert (Hent : kind policy = Restricted -> entries policy' = fold_left push_missing (given_entries additional) (entries policy)).
  { intros HR. rewrite He' by congruence. by apply He. }
  split_and!; [done| |congruence| |].
  - assert (Heff : effective_network_sandbox_policy (network_sandbox_policy p) (Some (additional_network additional))
              = NetworkEnabled
            <-> network_sandbox_policy p = NetworkEnabled \/ network_on (add_network additional) = true).
    { unfold effective_network_sandbox_policy, merge_network_access, additional_network, network_on.
      destruct (network_sandbox_policy p); [|by split; [left|]].
      destruct (add_network additional) as [[[[]|]]|]; simpl; naive_solver. }
    destruct Hnet as [->|[-> ->]]; [done|]. split; [by left|done].
  - intros HR Hacc. specialize (Hpol HR).
    destruct (union_granted policy' _ _ context path a Hc ltac:(congruence) (Hent HR) Ha Hacc)
      as (u & d & Hdec & Hpart). split.
    + rewrite Hpol. by destruct Hpart as [[? _]|[? _]]; [left|right].
    + intros r n Happ. exists u, d. split; [done|]. destruct Hdec as [_ Hmax].
      destruct (Hmax r Deny n) as [|[_ Hle]]; [|done|destruct a; simpl in Hle; [lia|lia|done]].
      apply (union_applies policy' _ _ context path r Deny n Hc (Hent HR)). left.
      by apply (applies_entries policy).
  - intros HR Hdepths Hacc Hdeep. specialize (Hpol HR).
    destruct (proj1 (resolve_access_granted added context path a eq_refl Ha) Hacc)
      as (Hr & Hd & u & d & Hdec).
    apply (union_decided policy' (entries policy) (given_entries additional) context path u a d); try done.
    + congruence.
    + by apply Hent.
    + intros r b n Happ. apply (Hdeep u d Hdec r b n).
      by apply (applies_entries (restricted (entries policy)) policy).
Qed.

(** ** Permissions bound to the executor, in normal form *)

Lemma push_missing_NoDup (l base : list Entry) : List.NoDup base -> List.NoDup (fold_left push_missing l base).
Proof.
  revert base. induction l as [|e l IH]; intros base Hb; [done|]. cbn [fold_left]. apply IH.
  unfold push_missing. destruct (contains_entry base e) eqn:Ec; [done|].
  apply List.NoDup_app; [done|by repeat constructor; intros []|].
  intros f Hf [<-|[]]. apply not_true_iff_false in Ec. apply Ec, existsb_exists. exists e.
  by split; [|apply entry_eq_refl].
Qed.

Lemma materialize_additional_ok a context a' :
  path_convention (cwd context) = Some Posix ->
  materialize_additional_permissions_with_context a context = Ok a' ->
  permissions_network (Some a') = permissions_network (Some a)
  /\ (forall path, permissions_access (Some a') context path = permissions_access (Some a) context path)
  /\ List.NoDup (given_entries a')
  /\ (forall e u, In e (given_entries a') -> entry_path e = Path u -> path_convention u = Some Posix).
Proof.
  intros Hc. unfold materialize_additional_permissions_with_context.
  destruct (match add_file_system a with Some _ => _ | None => _ end) as [m|] eqn:Em; [|done].
  assert (Ha : add_network m = add_network a
    /\ forall path, permissions_access (Some m) context path = permissions_access (Some a) context path).
  { setoid_rewrite given_access. unfold given_entries. destruct (add_file_system a) as [fs|] eqn:Efs.
    - destruct (materialize_context_dependent_entries (fs_entries fs) context) as [l|] eqn:El; [|done].
      injection Em as <-. simpl. split; [done|]. intros path. by apply materialize_access.
    - injection Em as <-. by rewrite Efs. }
  destruct Ha as [Hn Hacc]. clear Em. unfold normalize_additional_permissions_with_context, normalize_additional_permissions.
  assert (Hnet : permissions_network (Some (mkAdditional (keep_if (fun n => negb (network_is_empty n)) (add_network m)) None))
            = permissions_network (Some a)).
  { unfold permissions_network. simpl. rewrite Hn. by destruct (add_network a) as [[[|]]|]. }
  destruct (add_file_system m) as [fs|] eqn:Efs.
  - destruct (existsb is_glob_grant (fs_entries fs)); [done|].
    set (l := fold_left push_missing (fs_entries fs) []). unfold fs_is_empty. cbn [fs_entries].
    assert (Hl : forall path, resolve_access (restricted l) path context = permissions_access (Some a) context path).
    { intros path. rewrite <- Hacc, given_access. unfold given_entries. rewrite Efs.
      apply same_targets_access; [done..|]. intros u b.
      rewrite (union_targets (restricted l) [] (fs_entries fs) context u b Hc eq_refl). split; [|by right].
      by intros [[]|?]. }
    destruct (is_empty l) eqn:Eempty; cbn [add_file_system fs_entries].
    + intros [= <-]. split_and!; [exact Hnet| |constructor|by intros e u []]. intros path. rewrite <- Hl.
      destruct l; [|done]. by rewrite no_entries_access.
    + destruct (existsb (is_foreign context) l) eqn:Ef; [done|]. intros [= <-].
      split_and!; [exact Hnet|by intros path; rewrite given_access|apply push_missing_NoDup; constructor|].
      intros e u He Hu. simpl in He. apply not_true_iff_false in Ef.
      destruct (is_foreign context e) eqn:Efe; [destruct Ef; apply existsb_exists; by exists e|].
      unfold is_foreign in Efe. rewrite Hu, !orb_false_iff, negb_false_iff, bool_decide_eq_true in Efe.
      destruct Efe as [[_ Hcv] _]. congruence.
  - cbn [add_file_system]. intros [= <-]. split_and!; [exact Hnet| |constructor|by intros e u []].
    intros path. rewrite <- Hacc, !given_access. unfold given_entries. by rewrite Efs.
Qed.

(** Two lists in normal form, of the same length and one inside the other, give
    the same access. *)
Lemma same_list_access l m context path :
  List.NoDup l -> length m <= length l ->
  (forall e u, In e l -> entry_path e = Path u -> path_convention u = Some Posix) ->
  forallb (contains_entry m) l = true ->
  resolve_access (restricted l) path context = resolve_access (restricted m) path context.
Proof.
  intros Hl Hlen Hposix Hsub. rewrite forallb_forall in Hsub.
  assert (Hincl : incl l m).
  { intros e He. pose proof (Hsub e He) as (f & Hf & Heq)%existsb_exists.
    assert (f = e) as <-; [|done]. destruct e as [pe ae me], f as [pf af mf].
    unfold entry_eq in Heq. simpl in Heq. rewrite !andb_true_iff, !bool_decide_eq_true in Heq.
    destruct Heq as [[Hp ->] ->]. f_equal.
    destruct pf as [uf|sf|vf], pe as [ue|se|ve]; simpl in Hp; try done;
      try (apply bool_decide_eq_true in Hp; by subst).
    unfold uri_eq in Hp. case_bool_decide as Heq; [by subst|].
    assert (windows_identity_path_bytes ue = None) as Hn
      by (unfold windows_identity_path_bytes; by rewrite (Hposix _ ue He eq_refl)).
    rewrite Hn in Hp. by destruct (windows_identity_path_bytes uf). }
  apply same_targets_access; [done..|]. intros u a. rewrite !resolved_entries_In. simpl.
  pose proof (NoDup_length_incl Hl Hlen Hincl) as Hback.
  split; intros (e & He & Hu); exists e; (split; [|done]); [by apply Hincl|by apply Hback].
Qed.

(** ** Properties *)

(** C8: On POSIX, the intersection of a request with its answer lets a path be
    read only where the request lets it be read, and where the answer, were it
    a policy, does; and wherever it gives access, it keeps every glob denial of
    the request and of the answer that starts at or above the path or cannot be
    placed.  A write is given by an accepted grant at whose root the request
    lets write.  The network is enabled only if both enable it, and a request
    without file-system permissions gets none. *)
Theorem intersection_within_request (requested granted : @AdditionalPermissionProfile Url) context path :
  posix_context context -> lexical Posix path ->
  let i := intersect_permission_profiles_with_context build_glob show_path_error requested granted context in
  network_on (add_network i) = network_on (add_network requested) && network_on (add_network granted)
  /\ forall fs, add_file_system i = Some fs ->
     let given := resolve_access (restricted (fs_entries fs)) path context in
     let answered := fs_entries (default default_fs (add_file_system granted)) in
     let answer := restricted answered in
     exists rfs, add_file_system requested = Some rfs
     /\ (given <> Deny ->
         resolve_access (restricted (fs_entries rfs)) path context <> Deny
         /\ (is_some (with_depths (resolved_entries answer context)) = true ->
             resolve_access answer path context <> Deny)
         /\ forall pattern, denied_glob context (fs_entries rfs) pattern \/ denied_glob context answered pattern ->
              glob_may_cover context path pattern -> glob_denied (fs_entries fs) pattern)
     /\ (given = Write ->
         exists u d, decides (restricted (fs_entries fs)) context path u Write d
           /\ resolve_access (restricted (fs_entries rfs)) u context = Write
           /\ applies answer context path u Write d).
Proof.
  intros Hctx Hp i. split.
  { unfold i. simpl. by destruct (network_on _ && network_on _) eqn:E. }
  intros fs Hfs given answered answer. apply intersection_file_system in Hfs as (rfs & -> & Hi).
  exists rfs. split_and!; [done| |].
  - intros Hne. destruct (intersection_readable rfs _ context fs path Hctx Hp Hi Hne) as [Hr Ha].
    split_and!; [done|done|]. intros pattern. by eapply intersection_keeps_globs.
  - intros Hw. destruct (intersection_decided _ _ _ _ path Write Hctx Hp Hi ltac:(done) Hw)
      as (u & d & Hdec & Hroot & Hg & _). exists u, d. split_and!; [done| |done].
    by apply covers_readable in Hroot as (_ & _ & ->).
Qed.

(** The policy a sandbox is given under additional permissions.  On POSIX
    a path can be read or written under it only as the profile's own policy or
    the permissions by themselves say, and against a denial of the profile only
    by a strictly deeper grant; a grant deeper than every entry of the
    profile's policy takes effect.  The kind of enforcement is the profile's,
    and the network is enabled only if one of the two enables it. *)
Theorem effective_profile_access (p : @PermissionProfile Url) (additional : @AdditionalPermissionProfile Url) context path a :
  path_convention (cwd context) = Some Posix -> a <> Deny ->
  let added := restricted (given_entries additional) in
  let effective := effective_permission_profile p (Some additional) in
  let policy := file_system_sandbox_policy p in
  let policy' := file_system_sandbox_policy effective in
  enforcement effective = enforcement p
  /\ (network_sandbox_policy effective = NetworkEnabled <->
      network_sandbox_policy p = NetworkEnabled \/ network_on (add_network additional) = true)
  /\ kind policy' = kind policy
  /\ (kind policy = Restricted -> resolve_access policy' path context = a ->
      (resolve_access policy path context = a \/ resolve_access added path context = a)
      /\ forall r n, applies policy context path r Deny n ->
           exists u d, decides policy' context path u a d /\ n < d)
  /\ (kind policy = Restricted ->
      is_some (with_depths (resolved_entries policy context)) = true ->
      resolve_access added path context = a ->
      (forall u d, decides added context path u a d ->
         forall r b n, applies policy context path r b n -> n < d) ->
      resolve_access policy' path context = a).
Proof. apply effective_profile_union. Qed.

End transforms.
