(* ===== verification/PermissionGrants.v ===== *)
(** * Permissions granted to a turn or a session

    core/src/session/mod.rs (request and answer), core/src/state (what a turn
    and a session remember), core/src/tools/handlers/mod.rs and
    unified_exec/exec_command.rs (what a command is given).  A request waits for
    a review, then for the user; turns are shared objects, so an answer may
    reach a turn that is no longer active.  Error texts are not modelled. *)

From stdpp Require Import strings gmap.
From S2P Require Import Prelude RustStr PatchTypes ExecutorFs PathUri ApiPath ReadDeny ExecApproval ToolApproval SandboxPolicy PermissionTransforms.

Inductive PermissionGrantScope : Type := TurnScope | SessionScope.

#[export] Instance PermissionGrantScope_eq_dec : EqDecision PermissionGrantScope.
Proof. solve_decision. Defined.

Inductive GrantError : Type :=
| UnknownEnvironment
| NoEnvironment
| NothingRequested
| PermissionsDisabled
| PolicyRejects
| MissingPermissions
| UnexpectedPermissions
| InvalidPermissions (e : PermissionsError).

Definition uses_additional_permissions (p : SandboxPermissions) : bool :=
  bool_decide (p = WithAdditionalPermissions).

(** Does the approval policy let permissions be requested at all? *)
Definition may_request_permissions (policy : AskForApproval) : bool :=
  match policy with
  | Never => false
  | Granular config => request_permissions config
  | OnRequest | UnlessTrusted => true
  end.

Section grants.
Context {Url : Type} `{UrlCrates Url} `{Unreachable Url}.
Context (build_glob : str -> bool -> bool -> result (list N -> bool) str).
Context (show_path_error : LegacyAppPathStringError -> str).
Abbreviation Ctx := (@PolicyContext Url).
Abbreviation Permissions := (@AdditionalPermissionProfile Url).

(** ** Requests and answers (protocol/src/request_permissions.rs)

    A [RequestPermissionProfile] has the fields of an additional permission
    profile and is converted from and to it field by field. *)

Record RequestPermissionsResponse : Type := mkResponse {
  granted : Permissions;
  scope : PermissionGrantScope;
  strict_auto_review : bool;
}.

Definition nothing_granted : RequestPermissionsResponse := mkResponse no_permissions TurnScope false.

Record Environment : Type := mkEnvironment {
  environment_id : str;
  policy_context : Ctx;
}.

Record PendingRequestPermissions : Type := mkPending {
  requested_permissions : Permissions;
  pending_environment : Environment;
}.

(** [normalize_request_permissions_response]. *)
Definition normalize_request_permissions_response (requested : Permissions) (response : RequestPermissionsResponse)
    (context : Ctx) : RequestPermissionsResponse :=
  if strict_auto_review response && bool_decide (scope response = SessionScope) then nothing_granted
  else if add_is_empty (granted response) then response
  else mkResponse (intersect_permission_profiles_with_context build_glob show_path_error
                     requested (granted response) context)
         (scope response) (strict_auto_review response).

(** The answer a review stands for. *)
Definition response_of_decision (requested : Permissions) (decision : ReviewDecision) : RequestPermissionsResponse :=
  let permissions_scope :=
    match decision with
    | Approved | ApprovedExecpolicyAmendment _ => (requested, TurnScope)
    | NetworkPolicyAmended amendment =>
        match amendment_action amendment with
        | AllowHost => (requested, TurnScope)
        | DenyHost => (no_permissions, TurnScope)
        end
    | ApprovedForSession => (requested, SessionScope)
    | ApprovedMcpPolicyAmendment | Abort | Denied _ | TimedOut => (no_permissions, TurnScope)
    end in
  mkResponse permissions_scope.1 permissions_scope.2 false.

(** ** What is remembered (core/src/state) *)

Abbreviation Grants := (gmap str Permissions) (only parsing).

(** [record_granted_permissions] of a turn and of a session. *)
Definition record_granted_permissions (grants : Grants) (id : str) (permissions : Permissions) : Grants :=
  match merge_permission_profiles (grants !! id) (Some permissions) with
  | Some merged => <[id := merged]> grants
  | None => grants
  end.

Record TurnState : Type := mkTurn {
  pending_request_permissions : gmap str PendingRequestPermissions;
  turn_grants : Grants;
  strict_auto_review_enabled : bool;
}.

Definition new_turn : TurnState := mkTurn ∅ ∅ false.

(** [clear_pending_waiters]. *)
Definition clear_pending_waiters (t : TurnState) : TurnState :=
  mkTurn ∅ (turn_grants t) (strict_auto_review_enabled t).

Definition insert_pending (call_id : str) (pending : PendingRequestPermissions) (t : TurnState) : TurnState :=
  mkTurn (<[call_id := pending]> (pending_request_permissions t)) (turn_grants t) (strict_auto_review_enabled t).

Definition remove_pending (call_id : str) (t : TurnState) : TurnState :=
  mkTurn (delete call_id (pending_request_permissions t)) (turn_grants t) (strict_auto_review_enabled t).

(** A request whose review has not been decided, with the turn it came from. *)
Record Review : Type := mkReview {
  review_call : str;
  review_pending : PendingRequestPermissions;
  originating_turn : option nat;
}.

(** Turns are shared and live on after they end; [active_turn] is the one the
    session points to. *)
Record GrantState : Type := mkGrants {
  turns : list TurnState;
  active_turn : option nat;
  session_grants : Grants;
  reviews : list Review;
}.

Definition grants_start : GrantState := mkGrants [] None ∅ [].

Definition on_turn (f : TurnState -> TurnState) (turn : option nat) (s : GrantState) : GrantState :=
  match turn with
  | Some i => mkGrants (alter f i (turns s)) (active_turn s) (session_grants s) (reviews s)
  | None => s
  end.

(** [record_granted_request_permissions_for_turn]. *)
Definition record_granted_request_permissions_for_turn (response : RequestPermissionsResponse) (id : str)
    (originating : option nat) (s : GrantState) : GrantState :=
  if add_is_empty (granted response) then s
  else
    match scope response with
    | TurnScope =>
        on_turn (fun t => mkTurn (pending_request_permissions t)
                            (record_granted_permissions (turn_grants t) id (granted response))
                            (strict_auto_review_enabled t || strict_auto_review response)) originating s
    | SessionScope =>
        mkGrants (turns s) (active_turn s) (record_granted_permissions (session_grants s) id (granted response))
          (reviews s)
    end.

(** An answer to a request: normal form, record, and what the tool is told. *)
Definition settle (pending : PendingRequestPermissions) (response : RequestPermissionsResponse) (originating : option nat)
    (s : GrantState) : RequestPermissionsResponse * GrantState :=
  let env := pending_environment pending in
  let response := normalize_request_permissions_response (requested_permissions pending) response
                    (policy_context env) in
  (response, record_granted_request_permissions_for_turn response (environment_id env) originating s).

(** ** The tool (handlers/request_permissions.rs) *)

(** [resolve_tool_environment]; the primary environment comes first. *)
Definition resolve_tool_environment (environments : list Environment) (id : option str)
  : result (option Environment) GrantError :=
  match id with
  | None => Ok (head environments)
  | Some id =>
      match List.find (fun e => bool_decide (environment_id e = id)) environments with
      | Some e => Ok (Some e)
      | None => Err UnknownEnvironment
      end
  end.

(** The request of the tool, its paths already resolved. *)
Definition validated_request (environments : list Environment) (id : option str) (permissions : Permissions)
  : result PendingRequestPermissions GrantError :=
  let? found := resolve_tool_environment environments id in
  match found with
  | None => Err NoEnvironment
  | Some env =>
      match normalize_additional_permissions_with_context permissions (policy_context env) with
      | Err e => Err (InvalidPermissions e)
      | Ok permissions =>
          if add_is_empty permissions then Err NothingRequested else Ok (mkPending permissions env)
      end
  end.

(** [request_permissions_for_environment] up to the review: answered at once
    for an unknown environment or when the policy forbids requests. *)
Definition request_permissions_for_environment (environments : list Environment) (policy : AskForApproval)
    (call_id : str) (requested : Permissions) (id : str) (s : GrantState) : option RequestPermissionsResponse * GrantState :=
  match List.find (fun e => bool_decide (environment_id e = id)) environments with
  | None => (Some nothing_granted, s)
  | Some env =>
      if may_request_permissions policy
      then (None, mkGrants (turns s) (active_turn s) (session_grants s)
                    (reviews s ++ [mkReview call_id (mkPending requested env) (active_turn s)]))
      else (Some nothing_granted, s)
  end.

(** The rest, once the review has a decision, or leaves the user to decide. *)
Definition review_decided (r : Review) (decision : option ReviewDecision) (s : GrantState)
  : option RequestPermissionsResponse * GrantState :=
  match decision with
  | Some decision =>
      let requested := requested_permissions (review_pending r) in
      let '(response, s) := settle (review_pending r) (response_of_decision requested decision)
                              (originating_turn r) s in
      (Some response, s)
  | None => (None, on_turn (insert_pending (review_call r) (review_pending r)) (active_turn s) s)
  end.

(** [notify_request_permissions_response]. *)
Definition notify_request_permissions_response (call_id : str) (response : RequestPermissionsResponse) (s : GrantState)
  : option RequestPermissionsResponse * GrantState :=
  match active_turn s ≫= fun i => turns s !! i ≫= fun t => pending_request_permissions t !! call_id with
  | Some pending =>
      let s' := on_turn (remove_pending call_id) (active_turn s) s in
      let '(response, s') := settle pending response (active_turn s) s' in
      (Some response, s')
  | None => (None, s)
  end.

(** [granted_turn_permissions] and [granted_session_permissions]. *)
Definition granted_turn_permissions (s : GrantState) (id : str) : option Permissions :=
  active_turn s ≫= fun i => turns s !! i ≫= fun t => turn_grants t !! id.

Definition granted_session_permissions (s : GrantState) (id : str) : option Permissions :=
  session_grants s !! id.

(** ** What a command is given (core/src/tools/handlers/mod.rs) *)

(** [normalize_and_validate_additional_permissions]. *)
Definition normalize_and_validate_additional_permissions (allowed : bool) (policy : AskForApproval)
    (sandbox_permissions : SandboxPermissions) (additional : option Permissions) (preapproved : bool)
    (context : Ctx) : result (option Permissions) GrantError :=
  let uses := uses_additional_permissions sandbox_permissions in
  if negb preapproved && negb allowed && (uses || is_some additional) then Err PermissionsDisabled
  else if uses then
    if negb preapproved && negb match policy with OnRequest => true | _ => false end then Err PolicyRejects
    else
      match additional with
      | None => Err MissingPermissions
      | Some additional =>
          match normalize_additional_permissions_with_context additional context with
          | Err e => Err (InvalidPermissions e)
          | Ok normalized => if add_is_empty normalized then Err NothingRequested else Ok (Some normalized)
          end
      end
  else if is_some additional then Err UnexpectedPermissions else Ok None.

Record EffectiveAdditionalPermissions : Type := mkEffective {
  eff_sandbox_permissions : SandboxPermissions;
  eff_additional_permissions : option Permissions;
  permissions_preapproved : bool;
}.

(** [implicit_granted_permissions]. *)
Definition implicit_granted_permissions (sandbox_permissions : SandboxPermissions)
    (additional : option Permissions) (effective : EffectiveAdditionalPermissions) : option Permissions :=
  if negb (uses_additional_permissions sandbox_permissions)
     && negb (requires_escalated_permissions sandbox_permissions) && is_none additional
  then eff_additional_permissions effective else None.

(** A symbol that stands for nothing on this executor. *)
Definition stands_for_nothing (context : Ctx) (e : @FileSystemSandboxEntry Url) : bool :=
  match entry_path e with
  | Special Tmpdir => match temporary_directories context with None | Some [] => true | _ => false end
  | Special (ProjectRoots _) => is_empty (workspace_roots context)
  | _ => false
  end.

Definition same_file_system (effective granted : option (@FileSystemPermissions Url)) : bool :=
  match effective, granted with
  | Some effective, Some granted =>
      bool_decide (fs_glob_scan_max_depth effective = fs_glob_scan_max_depth granted)
      && (length (fs_entries effective) =? length (fs_entries granted))
      && forallb (contains_entry (fs_entries granted)) (fs_entries effective)
  | None, None => true
  | _, _ => false
  end.

(** [preapproved_permission_profile]. *)
Definition preapproved_permission_profile (effective granted : Permissions) (context : Ctx)
  : option Permissions :=
  if match add_file_system effective with
     | Some fs => existsb (stands_for_nothing context) (fs_entries fs)
     | None => false
     end
  then None
  else
    match materialize_additional_permissions_with_context effective context,
          materialize_additional_permissions_with_context granted context with
    | Ok effective, Ok granted' =>
        if negb (bool_decide (add_network effective = add_network granted')) then None
        else if same_file_system (add_file_system effective) (add_file_system granted')
        then Some granted else None
    | _, _ => None
    end.

(** [apply_granted_turn_permissions]; [context] has the command's directory. *)
Definition apply_granted_turn_permissions (s : GrantState) (id : str) (context : Ctx)
    (sandbox_permissions : SandboxPermissions) (additional : option Permissions)
  : EffectiveAdditionalPermissions :=
  if requires_escalated_permissions sandbox_permissions
  then mkEffective sandbox_permissions additional false
  else
    let granted := merge_permission_profiles (granted_session_permissions s id) (granted_turn_permissions s id) in
    let effective := merge_permission_profiles additional granted in
    let preapproved :=
      granted ← granted;
      match additional with
      | None => Some granted
      | Some _ => effective ← effective; preapproved_permission_profile effective granted context
      end in
    let effective := match preapproved with Some p => Some p | None => effective end in
    mkEffective
      (if is_some effective && negb (uses_additional_permissions sandbox_permissions)
       then WithAdditionalPermissions else sandbox_permissions)
      effective (is_some preapproved).

(** The additional permissions of a command (unified_exec/exec_command.rs). *)
Definition command_permissions (exec_permission_approvals request_permissions_tool : bool)
    (policy : AskForApproval) (s : GrantState) (id : str) (context : Ctx)
    (sandbox_permissions : SandboxPermissions) (additional : option Permissions)
  : result (SandboxPermissions * option Permissions * bool) GrantError :=
  let effective := apply_granted_turn_permissions s id context sandbox_permissions additional in
  let allowed := exec_permission_approvals || request_permissions_tool && permissions_preapproved effective in
  if requests_sandbox_override (eff_sandbox_permissions effective)
     && negb (permissions_preapproved effective)
     && is_some (prompt_is_rejected_by_policy policy false)
  then Err PolicyRejects
  else
    let? normalized :=
      match implicit_granted_permissions sandbox_permissions additional effective with
      | Some permissions => Ok (Some permissions)
      | None =>
          normalize_and_validate_additional_permissions allowed policy (eff_sandbox_permissions effective)
            (eff_additional_permissions effective) (permissions_preapproved effective) context
      end in
    Ok (eff_sandbox_permissions effective, normalized, permissions_preapproved effective).

(** ** Histories *)

(** What an answer settled: the environment, the request, the answer. *)
Record Answer : Type := mkAnswer {
  answer_environment : Environment;
  answer_requested : Permissions;
  answer_response : RequestPermissionsResponse;
}.

Definition answer_to (pending : PendingRequestPermissions) (response : RequestPermissionsResponse) : Answer :=
  mkAnswer (pending_environment pending) (requested_permissions pending) response.

(** One step of a session, with the answers it settles. *)
Inductive grant_step (s : GrantState) : list Answer -> GrantState -> Prop :=
| step_turn_starts :
    active_turn s = None ->
    grant_step s [] (mkGrants (turns s ++ [new_turn]) (Some (length (turns s))) (session_grants s) (reviews s))
| step_turn_ends :
    grant_step s [] (mkGrants (turns s) None (session_grants s) (reviews s))
| step_clear_pending i :
    grant_step s [] (on_turn clear_pending_waiters (Some i) s)
| step_tool environments id permissions policy call_id pending :
    validated_request environments id permissions = Ok pending ->
    grant_step s []
      (request_permissions_for_environment environments policy call_id (requested_permissions pending)
         (environment_id (pending_environment pending)) s).2
| step_review before r after decision :
    reviews s = before ++ r :: after ->
    let s1 := mkGrants (turns s) (active_turn s) (session_grants s) (before ++ after) in
    grant_step s
      (match decision with
       | Some d => [answer_to (review_pending r) (response_of_decision (requested_permissions (review_pending r)) d)]
       | None => []
       end)
      (review_decided r decision s1).2
| step_review_cancelled before r after :
    reviews s = before ++ r :: after ->
    grant_step s [] (mkGrants (turns s) (active_turn s) (session_grants s) (before ++ after))
| step_cancelled call_id :
    grant_step s [] (on_turn (remove_pending call_id) (active_turn s) s)
| step_answer call_id response i t pending :
    active_turn s = Some i -> turns s !! i = Some t -> pending_request_permissions t !! call_id = Some pending ->
    grant_step s [answer_to pending response] (notify_request_permissions_response call_id response s).2
| step_stray_answer call_id response :
    (notify_request_permissions_response call_id response s).1 = None ->
    grant_step s [] (notify_request_permissions_response call_id response s).2.

(** States with the answers that led there. *)
Inductive grant_reachable : list Answer -> GrantState -> Prop :=
| grants_begin : grant_reachable [] grants_start
| grants_go answers s settled s' :
    grant_reachable answers s -> grant_step s settled s' -> grant_reachable (answers ++ settled) s'.

End grants.
