(* ===== verification/PermissionGrantsProps.v ===== *)
(** * What granted permissions let a command do

    Whatever a session has remembered, in any order of requests, reviews,
    answers and turns, lets a path be read only if a request for that
    environment and its answer both did; a command run without asking has
    exactly the remembered permissions. *)

From stdpp Require Import strings gmap.
From S2P Require Import Prelude RustStr PatchTypes ExecutorFs PathUri ApiPath PathUriSpec FileUrls PathUriProps ReadDeny ExecApproval ToolApproval ToolOrchestrator SandboxPolicy SandboxPolicyProps WorkspacePolicy PermissionTransforms PermissionTransformsProps PermissionGrants.

Section grants.
Context {Url : Type} `{UrlLaws Url} `{Unreachable Url}.
Context (build_glob : str -> bool -> bool -> result (list N -> bool) str).
Context (show_path_error : LegacyAppPathStringError -> str).
Abbreviation Permissions := (@AdditionalPermissionProfile Url).
Abbreviation Ans := (@Answer Url).
Implicit Types (c context : @PolicyContext Url) (g p : Permissions) (x : Ans) (answers : list Ans) (s : @GrantState Url).

(** ** Permissions within what was answered *)

Definition well_placed c g : Prop :=
  match add_file_system g with
  | Some fs => is_some (with_depths (resolved_entries (restricted (fs_entries fs)) c)) = true
  | None => True
  end.

(** An answer given to the environment, kept where [where_kept] says. *)
Definition answer_for (where_kept : PermissionGrantScope) (id : str) x : Prop :=
  environment_id (answer_environment x) = id /\ scope (answer_response x) = where_kept
  /\ (where_kept = SessionScope -> strict_auto_review (answer_response x) = false).

(** A request and its answer agree to the access [a] of [path]: both let it be
    read; a write comes from a place where the request lets write and which the
    answer gives; and their glob denials that start at or above the path, or
    cannot be placed, are among the entries [kept]. *)
Definition consented c (path : Url) (a : FileSystemAccessMode) (kept : list (@FileSystemSandboxEntry Url)) x : Prop :=
  let requested := answer_requested x in
  let answered := granted (answer_response x) in
  permissions_access (Some requested) c path <> Deny
  /\ (well_placed c answered -> permissions_access (Some answered) c path <> Deny)
  /\ (a = Write -> exists u d, permissions_access (Some requested) c u = Write
        /\ applies (restricted (given_entries answered)) c path u Write d)
  /\ forall pattern,
       denied_glob c (given_entries requested) pattern \/ denied_glob c (given_entries answered) pattern ->
       glob_may_cover c path pattern -> glob_denied kept pattern.

Lemma consented_more c path a kept kept' x :
  (forall pattern, glob_denied kept pattern -> glob_denied kept' pattern) ->
  consented c path a kept x -> consented c path a kept' x.
Proof. intros Hk (? & ? & ? & Hg). split_and!; [done..|]. intros pattern Hd Hc. by apply Hk, Hg. Qed.

Definition consented_network x : Prop :=
  permissions_network (Some (answer_requested x)) = true
  /\ permissions_network (Some (granted (answer_response x))) = true.

Definition within answers where_kept id c g : Prop :=
  (permissions_network (Some g) = true ->
     exists x, In x answers /\ answer_for where_kept id x /\ consented_network x)
  /\ forall path a, lexical Posix path -> a <> Deny -> permissions_access (Some g) c path = a ->
     exists x, In x answers /\ answer_for where_kept id x /\ consented c path a (given_entries g) x.

Lemma within_more answers more k id c g : within answers k id c g -> within (answers ++ more) k id c g.
Proof.
  intros [Hn Hr]. split.
  - intros Hg. destruct (Hn Hg) as (x & Hx & ?). exists x. rewrite in_app_iff. split; [by left|done].
  - intros path a Hp Ha Hg. destruct (Hr path a Hp Ha Hg) as (x & Hx & ?). exists x. rewrite in_app_iff. split; [by left|done].
Qed.

Lemma within_merge answers k id c old new g :
  path_convention (cwd c) = Some Posix ->
  (forall o, old = Some o -> within answers k id c o) -> within answers k id c new ->
  merge_permission_profiles old (Some new) = Some g -> within answers k id c g.
Proof.
  intros Hc Hold [Hn Hr] Hm. split.
  - intros Hg. rewrite <- Hm in Hg. apply merge_network in Hg as [Ho|?]; [|by apply Hn].
    destruct old as [o|]; [|done]. by apply (proj1 (Hold o eq_refl)).
  - intros path a Hp Ha Hg. rewrite <- Hm in Hg.
    assert (Hk : forall pattern, (exists o, old = Some o /\ glob_denied (given_entries o) pattern)
               \/ glob_denied (given_entries new) pattern -> glob_denied (given_entries g) pattern)
      by (intros pattern; by apply merge_keeps_glob).
    destruct (merge_access old (Some new) c path _ Hc Ha Hg) as [Ho|Hnew].
    + destruct old as [o|]; [|by destruct Ha]. destruct (proj2 (Hold o eq_refl) path a Hp Ha Ho) as (x & ? & ? & Hx).
      exists x. split_and!; [done..|]. eapply consented_more, Hx. intros pattern ?. apply Hk. left. by exists o.
    + destruct (Hr path a Hp Ha Hnew) as (x & ? & ? & Hx).
      exists x. split_and!; [done..|]. eapply consented_more, Hx. intros pattern ?. apply Hk. by right.
Qed.

(** What one answer grants. *)
Lemma within_answer answers k id c x :
  posix_context c -> In x answers -> answer_for k id x ->
  within answers k id c
    (intersect_permission_profiles_with_context build_glob show_path_error
       (answer_requested x) (granted (answer_response x)) c).
Proof.
  intros Hctx Hx Hfor. split.
  - unfold permissions_network, consented_network. simpl. intros Hn. exists x. split_and!; [done..| |];
      unfold permissions_network; simpl;
      destruct (network_on (add_network (answer_requested x))), (network_on (add_network (granted (answer_response x)))); done.
  - intros path a Hp Ha Hr. exists x. split; [done|]. split; [done|].
    set (i := intersect_permission_profiles_with_context _ _ _ _ c) in *.
    destruct (add_file_system i) as [fs|] eqn:Efs; [|unfold permissions_access in Hr; cbn [mbind option_bind] in Hr; rewrite Efs in Hr; by destruct Ha].
    apply intersection_file_system in Efs as Hi. destruct Hi as (rfs & Hrfs & Hi).
    assert (Hacc : resolve_access (restricted (fs_entries fs)) path c = a).
    { unfold permissions_access in Hr. cbn [mbind option_bind] in Hr. by rewrite Efs in Hr. }
    assert (Hans : forall u, permissions_access (Some (answer_requested x)) c u = resolve_access (restricted (fs_entries rfs)) u c)
      by (intros u; unfold permissions_access; simpl; by rewrite Hrfs).
    assert (Hge : given_entries (granted (answer_response x))
      = fs_entries (default default_fs (add_file_system (granted (answer_response x)))))
      by (unfold given_entries; by destruct (add_file_system (granted (answer_response x)))).
    assert (Hne : resolve_access (restricted (fs_entries fs)) path c <> Deny) by congruence.
    destruct (intersection_readable _ _ _ _ _ _ path Hctx Hp Hi Hne) as [Hreq Hgr]. unfold consented. rewrite !given_access, !Hge.
    split_and!.
    + rewrite <- given_access. by rewrite Hans.
    + intros Hw. apply Hgr. unfold well_placed in Hw. by destruct (add_file_system (granted (answer_response x))).
    + intros ->. destruct (intersection_decided _ _ _ _ _ _ path Write Hctx Hp Hi ltac:(done) Hacc) as (u & d & _ & Hu & Happ & _).
      exists u, d. rewrite Hans. by apply covers_readable in Hu as (_ & _ & ->).
    + intros pattern Hd Hc. assert (Egi : given_entries i = fs_entries fs) by (unfold given_entries; by rewrite Efs).
      rewrite Egi. apply (intersection_keeps_globs _ _ _ _ _ _ path pattern Hctx Hp Hi Hne); [|done]. assert (Er : given_entries (answer_requested x) = fs_entries rfs)
        by (unfold given_entries; by rewrite Hrfs). by rewrite Er in Hd.
Qed.

(** ** Every state *)

Definition placed answers id c : Prop :=
  forall x, In x answers -> environment_id (answer_environment x) = id -> policy_context (answer_environment x) = c.

Definition grants_within answers (id : str) c s : Prop :=
  (forall g, session_grants s !! id = Some g -> within answers SessionScope id c g)
  /\ forall t g, t ∈ turns s -> turn_grants t !! id = Some g -> within answers TurnScope id c g.

Lemma grants_within_more answers more id c s :
  grants_within answers id c s -> grants_within (answers ++ more) id c s.
Proof. intros [Hs Ht]. split; intros; apply within_more; eauto. Qed.

Lemma recorded answers (k : PermissionGrantScope) (id : str) c (grants : gmap str Permissions) (id' : str) (new : Permissions) :
  path_convention (cwd c) = Some Posix ->
  (forall g, grants !! id = Some g -> within answers k id c g) ->
  (id' = id -> within answers k id c new) ->
  forall g, record_granted_permissions grants id' new !! id = Some g -> within answers k id c g.
Proof.
  intros Hc Hold Hnew g. unfold record_granted_permissions.
  destruct (merge_permission_profiles (grants !! id') (Some new)) as [m|] eqn:Em; [|apply Hold].
  destruct (decide (id' = id)) as [->|Hne].
  - rewrite lookup_insert_eq. intros [= <-]. by apply (within_merge _ _ _ _ (grants !! id) new); [| |apply Hnew|].
  - rewrite lookup_insert_ne by done. apply Hold.
Qed.

Lemma on_turn_elem f i s t :
  t ∈ turns (on_turn f i s) -> t ∈ turns s \/ exists t0, t0 ∈ turns s /\ t = f t0.
Proof.
  destruct i as [i|]; [|by left]. simpl. intros [j Hj]%list_elem_of_lookup.
  rewrite list_lookup_alter in Hj. case_decide.
  - apply fmap_Some in Hj as (t0 & Ht0 & ->). right. exists t0. split; [by eapply list_elem_of_lookup_2|done].
  - left. by eapply list_elem_of_lookup_2.
Qed.

(** A change of turns that leaves what they remember. *)
Lemma on_turn_within answers id c f i s :
  (forall t, turn_grants (f t) = turn_grants t) ->
  grants_within answers id c s -> grants_within answers id c (on_turn f i s).
Proof.
  intros Hf [Hs Ht]. split; [by destruct i|].
  intros t g [Hin|(t0 & Hin & ->)]%on_turn_elem Hg; [by eapply Ht|]. rewrite Hf in Hg. by eapply Ht.
Qed.

Lemma same_grants_within answers id c s s' :
  session_grants s' = session_grants s -> turns s' = turns s ->
  grants_within answers id c s -> grants_within answers id c s'.
Proof. unfold grants_within. by intros -> ->. Qed.

Lemma settle_within answers id c pending response i s :
  posix_context c -> placed answers id c -> In (answer_to pending response) answers ->
  grants_within answers id c s ->
  grants_within answers id c (settle build_glob show_path_error pending response i s).2.
Proof.
  intros Hctx Hpl Hin [Hs Ht]. pose proof Hctx as [_ (Hc & _ & _)%lexical_iff].
  unfold settle, record_granted_request_permissions_for_turn, normalize_request_permissions_response. cbn [snd].
  destruct (strict_auto_review response && bool_decide (scope response = SessionScope)) eqn:Estrict; [done|].
  destruct (add_is_empty (granted response)) eqn:Ee; [by rewrite Ee|]. cbn [granted scope strict_auto_review].
  set (env := pending_environment pending). set (new := intersect_permission_profiles_with_context _ _ _ _ _).
  destruct (add_is_empty new); [done|].
  assert (Hnew : forall k, scope response = k -> environment_id env = id -> within answers k id c new).
  { intros k Hk Hid. unfold new. rewrite (Hpl _ Hin Hid : policy_context env = c).
    apply (within_answer answers k id c (answer_to pending response) Hctx Hin). split_and!; [done|done|].
    simpl. intros ->. rewrite Hk, bool_decide_true, andb_true_r in Estrict by done. done. }
  destruct (scope response) eqn:Escope.
  - split; [by destruct i|]. intros t g [Hti|(t0 & Hti & ->)]%on_turn_elem; [by apply Ht|]. simpl.
    apply (recorded answers TurnScope id c (turn_grants t0) (environment_id env) new Hc); [|by apply Hnew].
    intros g'. by apply Ht.
  - split; [|done]. simpl.
    apply (recorded answers SessionScope id c (session_grants s) (environment_id env) new Hc Hs). by apply Hnew.
Qed.

Lemma step_within answers id c s settled s' :
  posix_context c -> grant_step build_glob show_path_error s settled s' ->
  placed (answers ++ settled) id c -> grants_within answers id c s ->
  grants_within (answers ++ settled) id c s'.
Proof.
  intros Hctx Hstep Hpl Hw. apply (grants_within_more answers settled) in Hw.
  destruct Hstep as [Hnone| |i|environments eid permissions policy call_id pending _|before r after decision Hr s1
    |before r after Hr|call_id|call_id response i t pending Ha Ht Hpend|call_id response Hstray].
  - destruct Hw as [Hs Ht]. split; [done|]. simpl.
    intros t g [Hin| ->%list_elem_of_singleton]%elem_of_app Hg; [by eapply Ht|]. cbn [turn_grants new_turn] in Hg. by rewrite lookup_empty in Hg.
  - by eapply same_grants_within.
  - by apply on_turn_within.
  - unfold request_permissions_for_environment. destruct (List.find _ _); [|done].
    destruct (may_request_permissions policy); [|done]. by eapply same_grants_within.
  - assert (Hw1 : grants_within (answers ++
        match decision with
        | Some d => [answer_to (review_pending r) (response_of_decision (requested_permissions (review_pending r)) d)]
        | None => []
        end) id c s1) by (by eapply same_grants_within).
    destruct decision as [d|]; simpl; [|by apply on_turn_within].
    apply (settle_within _ id c (review_pending r) _ _ _ Hctx Hpl); [|done]. apply in_app_iff. right. by left.
  - by eapply same_grants_within.
  - by apply on_turn_within.
  - unfold notify_request_permissions_response. rewrite Ha. cbn [mbind option_bind]. rewrite Ht.
    cbn [mbind option_bind]. rewrite Hpend. simpl.
    apply (settle_within _ id c pending _ _ _ Hctx Hpl); [apply in_app_iff; right; by left|].
    by apply (on_turn_within _ _ _ _ (Some i)).
  - unfold notify_request_permissions_response in *. destruct (active_turn s ≫= _); [done|done].
Qed.

Lemma reachable_within answers id c s :
  posix_context c -> grant_reachable build_glob show_path_error answers s ->
  placed answers id c -> grants_within answers id c s.
Proof.
  intros Hctx. induction 1 as [|answers s settled s' _ IH Hstep]; intros Hpl.
  - split; [intros g Hg; cbn [session_grants grants_start] in Hg; by rewrite lookup_empty in Hg|]. intros t g Ht. by apply elem_of_nil in Ht.
  - apply (step_within _ _ _ _ _ _ Hctx Hstep Hpl), IH. intros x Hx. apply Hpl, in_app_iff. by left.
Qed.

(** ** Preapproved commands *)

Lemma same_file_system_access effective granted context path :
  path_convention (cwd context) = Some Posix ->
  List.NoDup (given_entries effective) ->
  (forall e u, In e (given_entries effective) -> entry_path e = Path u -> path_convention u = Some Posix) ->
  same_file_system (add_file_system effective) (add_file_system granted) = true ->
  permissions_access (Some effective) context path = permissions_access (Some granted) context path.
Proof.
  intros Hc. rewrite !given_access. unfold given_entries, same_file_system.
  destruct (add_file_system effective) as [ef|], (add_file_system granted) as [gf|]; try done.
  intros Hnd Hposix. rewrite !andb_true_iff, Nat.eqb_eq. intros [[_ Hlen] Hall].
  apply same_list_access; [done|lia|done|done].
Qed.

Lemma preapproved_same effective granted context g path :
  path_convention (cwd context) = Some Posix ->
  preapproved_permission_profile effective granted context = Some g ->
  g = granted
  /\ permissions_network (Some effective) = permissions_network (Some granted)
  /\ permissions_access (Some effective) context path = permissions_access (Some granted) context path.
Proof.
  intros Hc. unfold preapproved_permission_profile. destruct (match add_file_system effective with Some _ => _ | None => _ end); [done|].
  destruct (materialize_additional_permissions_with_context effective context) as [e'|] eqn:Ee; [|done].
  destruct (materialize_additional_permissions_with_context granted context) as [g'|] eqn:Eg; [|done].
  destruct (materialize_additional_ok _ _ _ Hc Ee) as (Hen & Hea & Hnd & Hposix).
  destruct (materialize_additional_ok _ _ _ Hc Eg) as (Hgn & Hga & _ & _).
  destruct (bool_decide (add_network e' = add_network g')) eqn:En; [|done]. apply bool_decide_eq_true in En. simpl.
  destruct (same_file_system _ _) eqn:Es; [|done]. intros [= <-]. split; [done|].
  rewrite <- Hen, <- Hgn, <- Hea, <- Hga. split; [unfold permissions_network; simpl; by rewrite En|].
  by apply same_file_system_access.
Qed.

(** What a session and its active turn remember for an environment. *)
Definition remembered s (id : str) : option Permissions :=
  merge_permission_profiles (granted_session_permissions s id) (granted_turn_permissions s id).

Lemma remembered_glob s (id : str) g o pattern :
  remembered s id = Some g -> o = granted_session_permissions s id \/ o = granted_turn_permissions s id ->
  (exists p, o = Some p /\ glob_denied (given_entries p) pattern) -> glob_denied (given_entries g) pattern.
Proof.
  unfold remembered. intros Hg Ho (p & -> & Hp).
  destruct (granted_turn_permissions s id) as [turn|] eqn:Et.
  - apply (merge_keeps_glob _ _ _ _ Hg). destruct Ho as [Ho|[= ->]]; [left; by exists p|by right].
  - simpl in Hg. destruct Ho as [Ho|[=]]. rewrite Hg in Ho. by injection Ho as ->.
Qed.

Lemma remembered_within answers (id : str) c s g path a :
  posix_context c -> lexical Posix path -> grants_within answers id c s -> remembered s id = Some g ->
  (permissions_network (Some g) = true ->
     exists x, In x answers /\ environment_id (answer_environment x) = id /\ consented_network x)
  /\ (a <> Deny -> permissions_access (Some g) c path = a ->
     exists x, In x answers /\ environment_id (answer_environment x) = id
       /\ consented c path a (given_entries g) x).
Proof.
  intros Hctx Hp [Hs Ht] Hg. pose proof Hctx as [_ (Hc & _ & _)%lexical_iff].
  assert (Hpart : forall o, o = granted_session_permissions s id \/ o = granted_turn_permissions s id ->
            forall g, o = Some g -> exists k, within answers k id c g).
  { intros o [->| ->] g'; [intros Hg'; exists SessionScope; by apply Hs|]. unfold granted_turn_permissions.
    destruct (active_turn s) as [i|]; [|done]. simpl. destruct (turns s !! i) as [t|] eqn:Et; [|done].
    simpl. intros Hg'. exists TurnScope. apply (Ht t); [by eapply list_elem_of_lookup_2|done]. }
  assert (Hnet : forall o, o = granted_session_permissions s id \/ o = granted_turn_permissions s id ->
            permissions_network o = true ->
            exists x, In x answers /\ environment_id (answer_environment x) = id /\ consented_network x).
  { intros [p|] Ho Hn; [|done]. destruct (Hpart _ Ho p eq_refl) as (k & Hw & _).
    destruct (Hw Hn) as (x & ? & (? & _) & ?). by exists x. }
  assert (Hread : forall o, o = granted_session_permissions s id \/ o = granted_turn_permissions s id ->
            a <> Deny -> permissions_access o c path = a ->
            exists x, In x answers /\ environment_id (answer_environment x) = id
              /\ consented c path a (given_entries g) x).
  { intros [p|] Ho Ha Hn; [|by destruct Ha]. destruct (Hpart _ Ho p eq_refl) as (k & _ & Hw).
    destruct (Hw path a Hp Ha Hn) as (x & ? & (? & _) & Hx). exists x. split_and!; [done..|].
    eapply consented_more, Hx. intros pattern ?. apply (remembered_glob _ _ _ _ _ Hg Ho). by exists p. }
  rewrite <- Hg. unfold remembered. split.
  - intros [Hn|Hn]%merge_network; [exact (Hnet _ (or_introl eq_refl) Hn)|exact (Hnet _ (or_intror eq_refl) Hn)].
  - intros Hne Ha. destruct (merge_access _ _ c path _ Hc Hne Ha) as [Ho|Ho];
      [exact (Hread _ (or_introl eq_refl) Hne Ho)|exact (Hread _ (or_intror eq_refl) Hne Ho)].
Qed.

(** ** Properties *)


(** C9: A command runs without being asked about only with what was already
    granted: its additional permissions are then exactly the ones remembered,
    not what it asked for, and on a POSIX executor what it asked for together
    with them would give every path and the network the same access.
    Otherwise it gets, unapproved, the union of what is remembered and what it
    asks for; and a command that asks to leave the sandbox gets, unapproved, only
    what it asks for. *)
Theorem preapproved_commands_add_nothing s (id : str) context sandbox_permissions additional path :
  path_convention (cwd context) = Some Posix ->
  let effective := apply_granted_turn_permissions s id context sandbox_permissions additional in
  let asked := merge_permission_profiles additional (remembered s id) in
  (permissions_preapproved effective = true ->
     sandbox_permissions <> RequireEscalated
     /\ (exists g, remembered s id = Some g /\ eff_additional_permissions effective = Some g)
     /\ (is_some additional = true ->
         permissions_network asked = permissions_network (remembered s id)
         /\ permissions_access asked context path = permissions_access (remembered s id) context path))
  /\ (permissions_preapproved effective = false ->
      eff_additional_permissions effective
      = if bool_decide (sandbox_permissions = RequireEscalated) then additional else asked).
Proof.
  intros Hc effective asked. unfold effective, apply_granted_turn_permissions, requires_escalated_permissions.
  fold (remembered s id). case_bool_decide as Es; [done|].
  destruct (remembered s id) as [g|] eqn:Eg; [|done]. fold asked. cbn [mbind option_bind].
  destruct additional as [p|]; simpl.
  - destruct asked as [m|] eqn:Em; [|done]. simpl.
    destruct (preapproved_permission_profile m g context) as [g'|] eqn:Ep; [|done]. simpl.
    destruct (preapproved_same _ _ _ _ path Hc Ep) as (-> & Hn & Ha). split; [|done]. intros _.
    split_and!; [done|by exists g|]. by intros _.
  - split; [|done]. intros _. split_and!; [done|by exists g|done].
Qed.

Lemma validated_some allowed policy sandbox_permissions (additional : option Permissions) context g :
  normalize_and_validate_additional_permissions allowed policy sandbox_permissions additional false context
    = Ok (Some g) ->
  policy = OnRequest /\ allowed = true /\ sandbox_permissions = WithAdditionalPermissions /\ is_some additional = true.
Proof.
  unfold normalize_and_validate_additional_permissions, uses_additional_permissions.
  case_bool_decide as Es; destruct allowed, additional as [p|]; simpl; try done; destruct policy; try done.
Qed.

(** Permissions that were not approved before reach a command only when it asks
    for them, the feature is on and the policy lets the user be asked; under any
    other policy it is refused or runs without them. *)
Theorem unapproved_permissions_are_asked exec_approvals tool policy s (id : str) context sandbox_permissions
    additional sandbox_permissions' g :
  command_permissions exec_approvals tool policy s id context sandbox_permissions additional
    = Ok (sandbox_permissions', Some g, false) ->
  policy = OnRequest /\ exec_approvals = true /\ is_some additional = true
  /\ sandbox_permissions' = WithAdditionalPermissions /\ sandbox_permissions <> RequireEscalated.
Proof.
  unfold command_permissions. set (e := apply_granted_turn_permissions s id context sandbox_permissions additional).
  destruct (_ && _ && _); [done|].
  assert (Hshape : permissions_preapproved e = false ->
    implicit_granted_permissions sandbox_permissions additional e = None
    /\ (is_some (eff_additional_permissions e) = true -> is_some additional = true)
    /\ (eff_sandbox_permissions e = WithAdditionalPermissions -> sandbox_permissions <> RequireEscalated)).
  { unfold e, apply_granted_turn_permissions, implicit_granted_permissions, requires_escalated_permissions.
    case_bool_decide as Es; [by subst; destruct additional|]. fold (remembered s id).
    destruct additional as [p|]; [by rewrite !andb_false_r|].
    destruct (remembered s id); simpl; [done|]. by rewrite !andb_true_r; destruct (negb _). }
  destruct (permissions_preapproved e) eqn:Epre.
  { destruct (implicit_granted_permissions _ _ _); [done|]. by destruct (normalize_and_validate_additional_permissions _ _ _ _ _ _). }
  destruct (Hshape eq_refl) as (-> & Hadd & Hesc). rewrite andb_false_r, orb_false_r.
  destruct (normalize_and_validate_additional_permissions _ _ _ _ _ _) as [o|] eqn:Eo; [|done]. intros [= <- ->].
  apply validated_some in Eo as (-> & -> & Hsp & Hsome). split_and!; auto.
Qed.

End grants.

(** ** Witnesses *)

Import FileUrls.

Abbreviation no_globs := (fun (_ : str) (_ _ : bool) => Err [] : result (list N -> bool) str).
Abbreviation no_text := (fun _ : LegacyAppPathStringError => [] : str).

Definition fs_permissions (l : list (@FileSystemSandboxEntry FileUrl)) : @AdditionalPermissionProfile FileUrl :=
  mkAdditional None (Some (mkFsPermissions l None)).

Definition asked_work : @AdditionalPermissionProfile FileUrl :=
  fs_permissions [grant (Path work) Write; grant (Path (work_file [$"secret"])) Deny].

Definition answered_work : @AdditionalPermissionProfile FileUrl :=
  fs_permissions [grant (Path work) Write; grant (Path (mkFile None [$"etc"])) Write].

Definition shared_work : @AdditionalPermissionProfile FileUrl :=
  intersect_permission_profiles_with_context no_globs no_text asked_work answered_work work_context.

(** The grant outside of the request is dropped, its denial is kept. *)
Example shared_entries :
  given_entries shared_work = [grant (Path work) Write; grant (Path (work_file [$"secret"])) Deny].
Proof. vm_compute. reflexivity. Qed.

Lemma intersection_within_request_witness :
  posix_context work_context /\ lexical Posix (work_file [$"a"])
  /\ permissions_access (Some shared_work) work_context (work_file [$"a"]) = Write
  /\ permissions_access (Some asked_work) work_context (work_file [$"a"]) <> Deny.
Proof.
  assert (Hl : lexical Posix (work_file [$"a"])) by (split; [reflexivity|exists 2; reflexivity]).
  split; [exact work_posix|]. split; [exact Hl|]. split; [vm_compute; reflexivity|].
  destruct (proj2 (intersection_within_request no_globs no_text asked_work answered_work work_context
    (work_file [$"a"]) work_posix Hl) (mkFsPermissions (given_entries shared_work) None) ltac:(vm_compute; reflexivity))
    as (rfs & Hr & Hread & _).
  injection Hr as <-. exact (proj1 (Hread ltac:(vm_compute; discriminate))).
Defined.

(** A request for write access to a directory but only read access to a part of
    it, answered by write access to the directory, gives write access to the
    part: of the narrower entries of a request only denials are kept. *)
Example narrower_read_is_widened :
  let docs := work_file [$"docs"] in
  let asked := fs_permissions [grant (Path work) Write; grant (Path docs) Read] in
  let answered := fs_permissions [grant (Path work) Write] in
  let shared := intersect_permission_profiles_with_context no_globs no_text asked answered work_context in
  permissions_access (Some asked) work_context docs = Read
  /\ permissions_access (Some shared) work_context docs = Write.
Proof. split; vm_compute; reflexivity. Qed.

Definition work_profile : @PermissionProfile FileUrl :=
  Managed (ManagedRestricted [grant (Special Root) Read; grant (Path (work_file [$"secret"])) Deny] None)
    NetworkRestricted.

Lemma effective_profile_access_witness :
  let effective := effective_permission_profile work_profile (Some shared_work) in
  path_convention (cwd work_context) = Some Posix
  /\ resolve_access (file_system_sandbox_policy effective) (work_file [$"secret"]) work_context = Deny
  /\ resolve_access (file_system_sandbox_policy effective) (work_file [$"a"]) work_context = Write
  /\ (resolve_access (file_system_sandbox_policy work_profile) (work_file [$"a"]) work_context = Write
      \/ resolve_access (restricted (given_entries shared_work)) (work_file [$"a"]) work_context = Write).
Proof.
  assert (Hc : path_convention (cwd work_context) = Some Posix) by reflexivity.
  split; [exact Hc|]. split; [vm_compute; reflexivity|].
  assert (Hw : resolve_access (file_system_sandbox_policy (effective_permission_profile work_profile (Some shared_work)))
                 (work_file [$"a"]) work_context = Write) by (vm_compute; reflexivity).
  split; [exact Hw|].
  destruct (effective_profile_access work_profile shared_work work_context (work_file [$"a"]) Write Hc
    ltac:(discriminate)) as (_ & _ & _ & Hu & _).
  exact (proj1 (Hu eq_refl Hw)).
Defined.

Definition local : @Environment FileUrl := mkEnvironment ($"local") work_context.
Definition asked_pending : @PendingRequestPermissions FileUrl := mkPending asked_work local.
Definition session_answer : @RequestPermissionsResponse FileUrl := mkResponse answered_work SessionScope false.

Definition turn_started : @GrantState FileUrl := mkGrants [new_turn] (Some 0) ∅ [].
Definition being_reviewed : @GrantState FileUrl :=
  (request_permissions_for_environment [local] OnRequest ($"call") asked_work ($"local") turn_started).2.
Definition waiting : @GrantState FileUrl :=
  (review_decided no_globs no_text (mkReview ($"call") asked_pending (Some 0)) None
     (mkGrants (turns being_reviewed) (active_turn being_reviewed) (session_grants being_reviewed) [])).2.
Definition granted_state : @GrantState FileUrl :=
  (notify_request_permissions_response no_globs no_text ($"call") session_answer waiting).2.

Lemma granted_reachable :
  grant_reachable no_globs no_text [answer_to asked_pending session_answer] granted_state.
Proof.
  change [answer_to asked_pending session_answer] with ((([] ++ []) ++ []) ++ [] ++ [answer_to asked_pending session_answer]).
  apply (grants_go _ _ _ waiting).
  - apply (grants_go _ _ ([] ++ []) being_reviewed []).
    + apply (grants_go _ _ [] turn_started []).
      * apply (grants_go _ _ [] grants_start []); [constructor|exact (step_turn_starts no_globs no_text grants_start eq_refl)].
      * exact (step_tool no_globs no_text turn_started [local] None asked_work OnRequest ($"call") asked_pending eq_refl).
    + exact (step_review no_globs no_text being_reviewed [] (mkReview ($"call") asked_pending (Some 0)) [] None eq_refl).
  - by apply (step_answer no_globs no_text waiting ($"call") session_answer 0
      (insert_pending ($"call") asked_pending new_turn) asked_pending).
Defined.


(** A command that asks for part of what was granted is preapproved with all of
    it; one that asks for a path below a denial is not. *)
Definition effective_for (l : list (@FileSystemSandboxEntry FileUrl)) : EffectiveAdditionalPermissions :=
  apply_granted_turn_permissions granted_state ($"local") work_context WithAdditionalPermissions
    (Some (fs_permissions l)).

Lemma preapproved_commands_add_nothing_witness :
  permissions_preapproved (effective_for [grant (Path work) Write]) = true
  /\ permissions_preapproved (effective_for [grant (Path (work_file [$"secret"; $"key"])) Read]) = false
  /\ exists g, eff_additional_permissions (effective_for [grant (Path work) Write]) = Some g
       /\ permissions_access (Some g) work_context (work_file [$"secret"]) = Deny.
Proof.
  assert (Hp : permissions_preapproved (effective_for [grant (Path work) Write]) = true)
    by (vm_compute; reflexivity).
  split; [exact Hp|]. split; [vm_compute; reflexivity|].
  assert (Hc : path_convention (cwd work_context) = Some Posix) by reflexivity.
  destruct (proj1 (preapproved_commands_add_nothing granted_state ($"local") work_context WithAdditionalPermissions
    (Some (fs_permissions [grant (Path work) Write])) (work_file [$"secret"]) Hc) Hp) as (_ & (g & Hg & He) & _).
  exists g. split; [exact He|].
  assert (Hs : remembered granted_state ($"local") = Some shared_work) by (vm_compute; reflexivity).
  rewrite Hs in Hg. injection Hg as <-. vm_compute. reflexivity.
Defined.
