(* ===== verification/PatchSafety.v ===== *)
(** * Whether a patch needs approval (core/src/safety.rs, core/src/apply_patch.rs,
      core/src/tools/handlers/apply_patch.rs)

    A verified patch is applied unasked when the policy lets every file it names
    be written, and then, whatever fails, it asks to change only such files.
    Also here: the files named in
    the request for approval, and the runtime of the tool as the orchestrator
    sees it (core/src/tools/runtimes/apply_patch.rs). *)

From S2P Require Import Prelude RustStr Utf8 PatchTypes FileUpdate PatchParser StateM ExecutorFs PathUri ApiPath FileUrls SandboxPolicy SandboxPolicyProps WorkspacePolicy PatchApply PatchApplySpec Invocation ExecRules ExecPolicy ShellTree PowerShell ExecApproval NetworkDecision ToolApproval ToolOrchestrator.

Import PatchApplySpec Invocation InvocationSpec.

(** ** Assessment *)

Definition PATCH_REJECTED_OUTSIDE_PROJECT_REASON : str :=
  $"writing outside of the project; rejected by user approval settings".
Definition PATCH_REJECTED_READ_ONLY_REASON : str :=
  $"writing is blocked by read-only sandbox; rejected by user approval settings".

Inductive SafetyCheck : Type := AutoApprove | AskUser | Reject (reason : str).

Inductive PatchSandboxRoute : Type :=
| ExecutorManaged
| Platform (windows_sandbox_level : WindowsSandboxLevel).

Section safety.
Context {Url : Type} `{UrlCrates Url} `{Unreachable Url} `{HC : @Countable Url url_eq_dec}.
Context (os : HostOs).
Abbreviation Action := (@ApplyPatchAction Url url_eq_dec HC) (only parsing).
Abbreviation Policy := (@FileSystemSandboxPolicy Url) (only parsing).
Abbreviation PolicyContext := (@SandboxPolicy.PolicyContext Url) (only parsing).

(** The files a change names. *)
Definition change_paths (path : Url) (c : ApplyPatchFileChange.t Url) : list Url :=
  match c with
  | ApplyPatchFileChange.Add _ | ApplyPatchFileChange.Delete _ => [path]
  | ApplyPatchFileChange.Update _ move_path _ =>
      path :: match move_path with Some dest => [dest] | None => [] end
  end.

(** The order is that of the hash map. *)
Definition file_paths_for_action (action : Action) : list Url :=
  concat (map (fun '(path, c) => change_paths path c) (map_to_list (action_changes action))).

Definition is_write_patch_constrained_to_writable_paths (action : Action) (policy : Policy)
    (context : PolicyContext) : bool :=
  has_full_disk_write_access_with_context policy context
  || forallb (fun path => can_write_path policy path context) (file_paths_for_action action).

Definition is_managed (p : @PermissionProfile Url) : bool :=
  match p with Managed _ _ => true | ProfileDisabled | External _ => false end.

Definition patch_rejection_reason (p : @PermissionProfile Url) (policy : Policy)
    (context : PolicyContext) : str :=
  if is_managed p && negb (has_full_disk_write_access_with_context policy context)
     && negb (has_configured_writable_roots policy context)
  then PATCH_REJECTED_READ_ONLY_REASON else PATCH_REJECTED_OUTSIDE_PROJECT_REASON.

Definition rejects_sandbox_approval (policy : AskForApproval) : bool :=
  match policy with
  | Never => true
  | Granular config => negb (sandbox_approval config)
  | _ => false
  end.

Definition sandbox_available (route : PatchSandboxRoute) : bool :=
  match route with
  | ExecutorManaged => true
  | Platform level =>
      is_some (get_platform_sandbox os (negb (bool_decide (level = LevelDisabled))))
  end.

Definition assess_patch_safety (action : Action) (policy : AskForApproval)
    (p : @PermissionProfile Url) (fs_policy : Policy) (context : PolicyContext)
    (route : PatchSandboxRoute) : SafetyCheck :=
  if bool_decide (action_changes action = ∅) then Reject ($"empty patch")
  else
    match policy with
    | UnlessTrusted => AskUser
    | Never | OnRequest | Granular _ =>
        if is_write_patch_constrained_to_writable_paths action fs_policy context
           && (negb (is_managed p) || sandbox_available route)
        then AutoApprove
        else if rejects_sandbox_approval policy
        then Reject (patch_rejection_reason p fs_policy context)
        else AskUser
    end.

(** ** The request *)

Record ApplyPatchRuntimeInvocation : Type := mkInvocation {
  invocation_action : Action;
  auto_approved : bool;
  invocation_requirement : ExecApprovalRequirement.t;
}.

(** [prepare_apply_patch]; the error is what the model is told. *)
Definition prepare_apply_patch (policy : AskForApproval) (p : @PermissionProfile Url)
    (fs_policy : Policy) (context : PolicyContext) (route : PatchSandboxRoute) (action : Action)
  : result ApplyPatchRuntimeInvocation str :=
  match assess_patch_safety action policy p fs_policy context route with
  | AutoApprove => Ok (mkInvocation action true (ExecApprovalRequirement.Skip false None))
  | AskUser => Ok (mkInvocation action false (ExecApprovalRequirement.NeedsApproval None None))
  | Reject reason => Err ($"patch rejected: " ++ reason)
  end.

(** The runtime of the tool, as the orchestrator sees it. *)
Definition patch_tool {Spec Proxy : Type} (remote : bool) (i : ApplyPatchRuntimeInvocation)
  : @ToolRuntime Url Spec Proxy := {|
  tool_sandbox_permissions := UseDefault;
  exec_approval_requirement := Some (invocation_requirement i);
  should_bypass_approval := default_should_bypass_approval;
  wants_no_sandbox_approval := apply_patch_wants_no_sandbox_approval;
  approval_action := Ok ();
  sandbox_preference := AutoSandbox;
  escalate_on_failure := true;
  uses_executor_managed_process_sandbox := remote;
  tool_sandbox_cwd := Some (action_cwd (invocation_action i));
  network_approval_spec := fun _ => None;
|}.

(** Links are refused when the sandbox the policy asks for was left. *)
Definition follow_symlinks_in {Proxy : Type} (a : @SandboxAttempt Url Proxy) : bool :=
  sandbox_requested a
  || negb (should_sandbox os (permissions a) AutoSandbox (enforce_managed_network a)).

(** [None] when the attempt is outside the sandbox. *)
Definition sandboxed_policy {Proxy : Type} (a : @SandboxAttempt Url Proxy)
    (effective_permission_profile : @PermissionProfile Url -> @PermissionProfile Url)
  : option (@PermissionProfile Url) :=
  if sandbox_requested a then Some (effective_permission_profile (exec_server_permissions a))
  else None.

End safety.

(** ** What a patch can change *)

Section frame.
Context {W P : Type} `{Countable P} `{!PathUriOps P} `{!ExecutorFileSystem W P}.
Context (cwd : P).

Lemma hunk_effect_frame mode' h v v' p :
  hunk_effect mode' cwd h v v' -> p ∉ touched cwd h -> v' p = v p.
Proof.
  intros (u & Hu & He). unfold touched. rewrite Hu. intros Hp. apply not_elem_of_cons in Hp as [Hpu Hp].
  destruct h as [q t|q|q mv chunks]; simpl in *; [rewrite (He p); by apply upd_other..|].
  destruct He as (old & new & _ & _ & He). destruct mv as [dest|]; [|rewrite (He p); by apply upd_other].
  destruct He as (d & Hd & He). rewrite Hd in Hp. apply not_elem_of_cons in Hp as [Hpd _].
  by rewrite (He p), !upd_other.
Qed.

(** A patch that is applied leaves the files that it does not name alone. *)
Lemma effects_frame mode' hs v v' p :
  effects mode' cwd hs v v' -> p ∉ concat (map (touched cwd) hs) -> v' p = v p.
Proof.
  induction 1 as [v v' E|hs h v v1 v2 _ IH Hh]; [intros _; apply E|].
  rewrite map_app, concat_app, not_elem_of_app. simpl. rewrite app_nil_r. intros [Hp Hp'].
  rewrite (hunk_effect_frame mode' h v1 v2 p Hh Hp'). by apply IH.
Qed.

End frame.

(** ** What verification records *)

Section recorded.
Context {W P : Type} `{Countable P} `{!PathUriOps P} `{!ExecutorFileSystem W P}.
Context (unified_diff : str -> str -> nat -> str).
Context (cwd : P) (mode : ApplyPatchFileUpdateMode).

Lemma hunk_change_paths p h w c w' :
  resolve_path h cwd = Ok p -> hunk_change unified_diff cwd mode p h w = (Done c, w') ->
  touched cwd h = change_paths p c.
Proof.
  intros Hp. unfold touched, hunk_change. rewrite Hp. destruct h as [q t|q|q mv chunks]; [by intros [= <- _]|..];
    unfold st_bind, st_ret, st_try, of_result; [destruct (read_for_verify p w) as [[]]; naive_solver|].
  destruct (unified_diff_from_chunks_with_mode _ _ _ _ _) as [[]]; try done.
  unfold resolve_move. destruct mv as [dest|]; [|by intros [= <- _]].
  destruct (uri_join cwd dest); [|done]. by intros [= <- _].
Qed.

(** Verification records a change for every hunk. *)
Lemma verify_hunks_all hs : forall changes w changes' w',
  verify_hunks unified_diff cwd mode hs changes w = (Done changes', w') ->
  (forall p c, changes !! p = Some c -> changes' !! p = Some c)
  /\ forall h, In h hs -> exists p c, resolve_path h cwd = Ok p /\ changes' !! p = Some c
       /\ touched cwd h = change_paths p c.
Proof.
  induction hs as [|h hs IH]; simpl; intros changes w changes' w'.
  { intros [= -> ->]. by split. }
  unfold st_bind at 1, st_try. destruct (resolve_path h cwd) as [p|e] eqn:Ep; simpl; [|done].
  case_bool_decide as Hfree; [done|]. unfold st_bind.
  destruct (hunk_change unified_diff cwd mode p h w) as [[c|e|] w1] eqn:Ec; [|done..].
  apply (hunk_change_paths p) in Ec; [|done]. intros E.
  apply IH in E as [Hkeep Hall].
  assert (Hp : changes' !! p = Some c) by (apply Hkeep, lookup_insert_eq).
  split.
  - intros q d Hq. apply Hkeep. rewrite lookup_insert_ne; [done|]. intros ->. apply Hfree. by exists d.
  - intros h' [<-|Hin]; [by exists p, c|]. by apply Hall.
Qed.
End recorded.

(** ** What applying asks of the file system *)

Inductive Asked (P : Type) : Type :=
| AskedWrite (path : P) | AskedRemove (path : P) | AskedDirectory (path : P).
Arguments AskedWrite {P}.
Arguments AskedRemove {P}.
Arguments AskedDirectory {P}.

#[export] Instance Asked_eq_dec {P} `{EqDecision P} : EqDecision (Asked P).
Proof. solve_decision. Defined.

(** Any file system, with a record of the calls that may change it. *)
Definition recording {W P : Type} `{!ExecutorFileSystem W P}
  : ExecutorFileSystem (W * list (Asked P)) P := {|
  read_file_text path follow w :=
    let (r, w') := read_file_text path follow (fst w) in (r, (w', snd w));
  write_file path contents follow w :=
    let (r, w') := write_file path contents follow (fst w) in (r, (w', snd w ++ [AskedWrite path]));
  create_directory path options w :=
    let (r, w') := create_directory path options (fst w) in (r, (w', snd w ++ [AskedDirectory path]));
  get_metadata path follow w :=
    let (r, w') := get_metadata path follow (fst w) in (r, (w', snd w));
  remove path options w :=
    let (r, w') := remove path options (fst w) in (r, (w', snd w ++ [AskedRemove path]));
|}.

(** Only allowed files are written or removed, and directories made to hold one. *)
Definition confined {P : Type} `{!PathUriOps P} (allowed : P -> Prop) (a : Asked P) : Prop :=
  match a with
  | AskedWrite path | AskedRemove path => allowed path
  | AskedDirectory directory => exists path, allowed path /\ uri_parent path = Some directory
  end.

Section asking.
Context {W P : Type} `{EqDecision P} `{!PathUriOps P} `{!ExecutorFileSystem W P}.
Context (allowed : P -> Prop).
#[local] Existing Instance recording.
Abbreviation M := (@patchM (W * list (Asked P)) P).

(** Whatever the outcome, only confined calls are added. *)
Definition stays {A} (m : M A) : Prop :=
  forall s, Forall (confined allowed) (snd (fs s)) -> Forall (confined allowed) (snd (fs (snd (m s)))).

Lemma stays_bind {A B} (m : M A) (k : A -> M B) : stays m -> (forall a, stays (k a)) -> stays (st_bind m k).
Proof.
  intros Hm Hk s Hs. specialize (Hm s Hs). unfold st_bind. destruct (m s) as [[a|e|] s']; [by apply Hk|done..].
Qed.

Lemma stays_get {A} (k : _ -> M A) : (forall a, stays (k a)) -> stays (st_bind st_get k).
Proof. intros Hk s Hs. by apply Hk. Qed.

Lemma stays_silent {A} (m : M A) : (forall s, snd (fs (snd (m s))) = snd (fs s)) -> stays m.
Proof. intros E s Hs. by rewrite E. Qed.

Lemma stays_read path follow : stays (call (read_file_text path follow)).
Proof. apply stays_silent. intros s. unfold call. simpl. by destruct (read_file_text _ _ _). Qed.

Lemma stays_metadata path follow : stays (call (get_metadata path follow)).
Proof. apply stays_silent. intros s. unfold call. simpl. by destruct (get_metadata _ _ _). Qed.

Lemma stays_write path contents follow : allowed path -> stays (call (write_file path contents follow)).
Proof.
  intros Ha s Hs. unfold call. simpl. destruct (write_file _ _ _ _). simpl. by apply Forall_snoc.
Qed.

Lemma stays_remove path options : allowed path -> stays (call (remove path options)).
Proof. intros Ha s Hs. unfold call. simpl. destruct (remove _ _ _). simpl. by apply Forall_snoc. Qed.

Lemma stays_try {A} (r : result A anyhow_error) : stays (st_try r).
Proof. by apply stays_silent. Qed.

Lemma stays_ret {A} (a : A) : stays (st_ret a).
Proof. by apply stays_silent. Qed.

Lemma stays_fail {A} e : stays (st_fail e : M A).
Proof. by apply stays_silent. Qed.

Lemma stays_note f : stays (record f).
Proof. by apply stays_silent. Qed.

Lemma stays_set_change i c : stays (set_change i c).
Proof. apply stays_silent. intros s. unfold set_change. by case_match. Qed.

Create HintDb asking.
#[local] Hint Resolve stays_read stays_metadata stays_write stays_remove stays_try stays_ret stays_fail
  stays_note stays_set_change : asking.

(** Follows the code, into both sides of its branches. *)
Ltac asks := repeat match goal with
  | |- stays (st_bind st_get _) => apply stays_get; intros ?
  | |- stays (st_bind _ _) => apply stays_bind; [|intros ?]
  | |- stays (match ?x with _ => _ end) => destruct x
  | |- stays (st_modify _) => by apply stays_silent
  | |- _ => progress (auto 3 with asking nocore)
  end.

Lemma stays_note_support path follow : stays (note_existing_path_delta_support path follow).
Proof. unfold note_existing_path_delta_support, mark_inexact. asks. Qed.

Lemma stays_read_optional path follow : stays (read_optional_file_text_for_delta path follow).
Proof. unfold read_optional_file_text_for_delta, mark_inexact. pose proof (stays_note_support path follow). asks; done. Qed.

Lemma stays_create_parent path follow : allowed path -> stays (create_parent path follow).
Proof.
  intros Ha. unfold create_parent. destruct (uri_parent path) as [parent|] eqn:Ep; [|asks].
  apply stays_bind; [|intros; asks]. intros s Hs. unfold call. simpl. destruct (create_directory _ _ _). simpl.
  apply Forall_snoc; [done|]. by exists path.
Qed.

Lemma stays_try_write {A} (m : M (result A anyhow_error)) : stays m -> stays (try_write m).
Proof. intros Hm. unfold try_write, mark_inexact. asks; done. Qed.

Lemma stays_write_retry path contents follow :
  allowed path -> stays (write_file_with_missing_parent_retry path contents follow).
Proof.
  intros Ha. unfold write_file_with_missing_parent_retry. pose proof (stays_create_parent path follow Ha). asks; done.
Qed.

Lemma stays_remove_checked path expected failed follow :
  allowed path -> stays (remove_checked path expected failed follow).
Proof.
  intros Ha. unfold remove_checked, ensure_not_directory, remove_failure_was_side_effect_free, and_exact. asks.
Qed.

Lemma stays_derive path chunks mode follow : stays (on_fs (derive_new_contents_from_chunks path chunks mode follow)).
Proof.
  apply stays_silent. intros s. unfold on_fs, derive_new_contents_from_chunks. simpl.
  by destruct (read_file_text _ _ _) as [[]].
Qed.

#[local] Hint Resolve stays_note_support stays_read_optional stays_try_write stays_write_retry
  stays_remove_checked stays_derive : asking.

Lemma stays_apply_add path affected contents follow : allowed path -> stays (apply_add path affected contents follow).
Proof. intros Ha. unfold apply_add, push_change. asks. Qed.

Lemma stays_apply_delete path affected follow : allowed path -> stays (apply_delete path affected follow).
Proof. intros Ha. unfold apply_delete, push_change, mark_inexact. asks. Qed.

Lemma stays_apply_move path dest affected patched follow :
  allowed path -> allowed dest -> stays (apply_move path dest affected patched follow).
Proof. intros Ha Hd. unfold apply_move, push_change. asks. Qed.

Lemma stays_apply_in_place path affected patched follow :
  allowed path -> stays (apply_in_place path affected patched follow).
Proof.
  intros Ha. unfold apply_in_place, push_change. apply stays_bind; [apply stays_try_write; asks|intros ?; asks].
Qed.

#[local] Hint Resolve stays_apply_add stays_apply_delete stays_apply_move stays_apply_in_place : asking.

Lemma stays_bind_try {A B E} (r : result A E) (f : E -> anyhow_error) (k : A -> M B) :
  (forall a, r = Ok a -> stays (k a)) -> stays (st_bind (st_try (map_err f r)) k).
Proof. destruct r as [a|e]; intros Hk; [intros s Hs; by apply Hk|by apply stays_silent]. Qed.

Lemma stays_hunk options cwd h :
  (forall p, p ∈ touched cwd h -> allowed p) -> stays (apply_hunk options cwd h).
Proof.
  intros Ha. apply stays_bind_try. intros p Hp. unfold touched in Ha. rewrite Hp in Ha.
  assert (Hpath : allowed p) by (apply Ha; by left). destruct h as [q t|q|q mv chunks]; [asks..|].
  apply stays_bind; [asks|intros _]. apply stays_bind; [asks|intros patched].
  destruct mv as [dest|]; [|asks]. apply stays_bind_try. intros d Hd. rewrite Hd in Ha.
  apply stays_apply_move; [done|]. apply Ha. right. by left.
Qed.

Lemma stays_hunks hs options cwd :
  (forall p, p ∈ concat (map (touched cwd) hs) -> allowed p) -> stays (apply_hunks_to_files hs options cwd).
Proof.
  intros Ha. unfold apply_hunks_to_files. destruct (is_empty hs); [asks|]. apply stays_bind; [asks|intros _].
  apply stays_bind; [|intros _; asks]. induction hs as [|h hs IH]; simpl; [asks|].
  apply stays_bind; [|intros _; apply IH; intros p Hp; apply Ha; simpl; set_solver].
  apply stays_hunk. intros p Hp. apply Ha. simpl. set_solver.
Qed.
End asking.

(** ** Theorems *)

Section theorems.
Context {Url : Type} `{UrlCrates Url} `{Unreachable Url} `{HC : @Countable Url url_eq_dec}.
Context {W : Type} `{!ExecutorFileSystem W Url}.
Context (unified_diff : str -> str -> nat -> str).
Context (os : HostOs).

Abbreviation Action := (@ApplyPatchAction Url url_eq_dec HC) (only parsing).
Implicit Types (action : Action).

(** The files that verification found are the files of the patch. *)
Lemma verified_paths args cwd0 mode w action w1 :
  try_verify_apply_patch_args unified_diff args cwd0 mode w = (Done action, w1) ->
  forall p, p ∈ concat (map (touched (action_cwd action)) (hunks args)) ->
  p ∈ file_paths_for_action action.
Proof.
  unfold try_verify_apply_patch_args, st_bind, st_try.
  destruct (map_err _ _) as [eff|]; simpl; [|done].
  destruct (verify_hunks unified_diff eff mode (hunks args) ∅ w) as [[ch|e|] w2] eqn:Ev; [|done..].
  intros [= <- <-] p. simpl. intros Hp.
  apply verify_hunks_all in Ev as [_ Hall].
  apply list_elem_of_In, in_concat in Hp as (ps & Hps & Hp). apply in_map_iff in Hps as (h & <- & Hh).
  destruct (Hall h Hh) as (q & c & Hq & Hc & Hpaths). rewrite Hpaths in Hp.
  unfold file_paths_for_action. apply list_elem_of_In, in_concat. eexists. split; [|exact Hp].
  apply in_map_iff. exists (q, c). split; [done|]. by apply list_elem_of_In, elem_of_map_to_list.
Qed.

Definition unless_trusted (policy : AskForApproval) : bool :=
  match policy with UnlessTrusted => true | _ => false end.

Lemma assess_cases action policy p fs_policy context route :
  assess_patch_safety os action policy p fs_policy context route
  = if bool_decide (action_changes action = ∅) then Reject ($"empty patch")
    else if unless_trusted policy then AskUser
    else if is_write_patch_constrained_to_writable_paths action fs_policy context
            && (negb (is_managed p) || sandbox_available os route)
    then AutoApprove
    else if rejects_sandbox_approval policy
    then Reject (patch_rejection_reason p fs_policy context) else AskUser.
Proof. unfold assess_patch_safety. by destruct policy. Qed.

Lemma assess_auto_approve action policy p fs_policy context route :
  assess_patch_safety os action policy p fs_policy context route = AutoApprove ->
  is_write_patch_constrained_to_writable_paths action fs_policy context = true
  /\ (is_managed p = false \/ sandbox_available os route = true) /\ policy <> UnlessTrusted.
Proof.
  intros Hs. rewrite assess_cases in Hs. destruct (bool_decide _); [done|].
  destruct (unless_trusted policy) eqn:Ep; [done|].
  destruct (is_write_patch_constrained_to_writable_paths _ _ _); simpl in Hs;
    [|by destruct (rejects_sandbox_approval policy)].
  split; [done|]. split; [|by intros ->].
  destruct (is_managed p), (sandbox_available os route); simpl in Hs; auto.
  by destruct (rejects_sandbox_approval policy).
Qed.

(** What the policy lets be written. *)
Definition writable fs_policy context path : Prop :=
  has_full_disk_write_access_with_context fs_policy context = true \/ can_write_path fs_policy path context = true.

(** The files of a patch that is applied unasked. *)
Lemma auto_approved_paths args cwd0 mode w action w1 policy p fs_policy context route path :
  try_verify_apply_patch_args unified_diff args cwd0 mode w = (Done action, w1) ->
  assess_patch_safety os action policy p fs_policy context route = AutoApprove ->
  path ∈ concat (map (touched (action_cwd action)) (hunks args)) -> writable fs_policy context path.
Proof.
  intros Hv Hs Hp. apply assess_auto_approve in Hs as (Hc & _ & _). unfold writable.
  unfold is_write_patch_constrained_to_writable_paths in Hc. apply orb_true_iff in Hc as [?|Hc]; [by left|right].
  rewrite forallb_forall in Hc. apply Hc, list_elem_of_In. by eapply verified_paths.
Qed.

(** C15: A patch is applied unasked only when the policy of approvals trusts the
    sandbox, and a sandbox is there or the profile wants none.  Applying it then,
    on whatever file system and whatever happened to the files in between, and
    whether it succeeds or fails at any point, asks to write or remove only paths
    that the policy lets be written, the destinations of moves included, and to
    make only the directories that hold such a path.  What such a path leads to
    (a hard or symbolic link) is for the sandbox to bound. *)
Theorem auto_approved_patch_stays_inside args cwd0 mode w action w1 policy p fs_policy context route
    w2 mode2 follow outcome s :
  try_verify_apply_patch_args unified_diff args cwd0 mode w = (Done action, w1) ->
  assess_patch_safety os action policy p fs_policy context route = AutoApprove ->
  @apply_hunks_to_files _ _ _ recording (hunks args) (mkOptions mode2 follow) (action_cwd action) (fresh (w2, []))
    = (outcome, s) ->
  policy <> UnlessTrusted /\ (is_managed p = false \/ sandbox_available os route = true)
  /\ Forall (confined (writable fs_policy context)) (snd (fs s)).
Proof.
  intros Hv Hs Ha. destruct (assess_auto_approve _ _ _ _ _ _ Hs) as (_ & Hsb & Hpol).
  split_and!; [done|done|].
  pose proof (stays_hunks (writable fs_policy context) (hunks args) (mkOptions mode2 follow) (action_cwd action)) as Hst.
  specialize (Hst (fun q => auto_approved_paths _ _ _ _ _ _ _ _ _ _ _ q Hv Hs) (fresh (w2, []))).
  rewrite Ha in Hst. by apply Hst.
Qed.

(** When distinct paths are distinct files ([FileSystemLaws]) and the patch is
    applied, every file that is not writable is as it was. *)
Theorem auto_approved_patch_effect (look : W -> view Url) `{!FileSystemLaws W Url look}
    args cwd0 mode w action w1 policy p fs_policy context route w2 mode2 follow a s path :
  try_verify_apply_patch_args unified_diff args cwd0 mode w = (Done action, w1) ->
  assess_patch_safety os action policy p fs_policy context route = AutoApprove ->
  Forall wf_hunk (hunks args) ->
  apply_hunks_to_files (hunks args) (mkOptions mode2 follow) (action_cwd action) (fresh w2) = (Done a, s) ->
  look (fs s) path <> look w2 path -> writable fs_policy context path.
Proof.
  intros Hv Hs Hwf Ha Hne. eapply auto_approved_paths; [exact Hv|exact Hs|].
  destruct (decide (path ∈ concat (map (touched (action_cwd action)) (hunks args)))) as [|Hn]; [done|].
  destruct Hne. pose proof (apply_hunks_point look (hunks args) (mkOptions mode2 follow)
    (action_cwd action) (fresh w2) Hwf eq_refl) as Hp.
  rewrite Ha in Hp. destruct Hp as (_ & He & _). by eapply effects_frame.
Qed.

(** Otherwise: an empty patch is refused, nothing is asked when the policy
    never asks, something outside is refused only when the policy forbids to ask,
    and the reason says whether nothing at all may be written or only this. *)
Theorem patch_refusals action policy p fs_policy context route :
  let check := assess_patch_safety os action policy p fs_policy context route in
  (check = Reject ($"empty patch") <-> action_changes action = ∅)
  /\ (check = AskUser -> rejects_sandbox_approval policy = false)
  /\ (forall reason, check = Reject reason -> action_changes action <> ∅ ->
        rejects_sandbox_approval policy = true
        /\ (reason = PATCH_REJECTED_READ_ONLY_REASON <->
             is_managed p = true /\ has_full_disk_write_access_with_context fs_policy context = false
             /\ forall q access, In (q, access) (resolved_entries fs_policy context) ->
                  can_write access = true -> can_write_path fs_policy q context = false)).
Proof.
  intros check.
  assert (Hne : PATCH_REJECTED_OUTSIDE_PROJECT_REASON <> PATCH_REJECTED_READ_ONLY_REASON) by (vm_compute; done).
  assert (Hreason : patch_rejection_reason p fs_policy context = PATCH_REJECTED_READ_ONLY_REASON <->
     is_managed p = true /\ has_full_disk_write_access_with_context fs_policy context = false
     /\ forall q access, In (q, access) (resolved_entries fs_policy context) ->
          can_write access = true -> can_write_path fs_policy q context = false).
  { unfold patch_rejection_reason, has_configured_writable_roots.
    destruct (is_managed p), (has_full_disk_write_access_with_context fs_policy context); simpl;
      try (split; [done|]; intros (? & ? & _); done).
    destruct (existsb _ _) eqn:Ex; simpl; (split; [try done|]).
    - intros (_ & _ & Hall). apply existsb_exists in Ex as ([q access] & Hin & Hw).
      apply andb_prop in Hw as [Ha Hw]. simpl in *. by rewrite (Hall q access Hin Ha) in Hw.
    - intros _. split_and!; [done|done|]. intros q access Hin Ha. apply not_true_is_false. intros Hw.
      enough (existsb (fun e => can_write e.2 && can_write_path fs_policy e.1 context)
        (resolved_entries fs_policy context) = true) by congruence.
      apply existsb_exists. exists (q, access). simpl. by rewrite Ha, Hw.
    - done. }
  unfold check. rewrite assess_cases. case_bool_decide as Ee.
  { split_and!; [done|done|]. intros reason _ Hn. by destruct Hn. }
  destruct (unless_trusted policy) eqn:Eu; [by split_and!; destruct policy|].
  destruct (_ && (_ || _)); [by split_and!|].
  destruct (rejects_sandbox_approval policy); [|by split_and!].
  split_and!; [|done|].
  - split; [|done]. unfold patch_rejection_reason. destruct (_ && _ && _); intros E; vm_compute in E; done.
  - intros reason [= <-] _. by split.
Qed.

End theorems.

(** ** A flat file system

    Texts by path, with a directory wherever one is needed. *)

Module FlatFs.
Section flat.
Context {P : Type} `{Countable P}.

#[global] Instance flat_fs : ExecutorFileSystem (gmap P str) P := {
  read_file_text path _ w :=
    (match w !! path with
     | Some t => Ok t
     | None => Err (mkIo KNotFound ($"No such file or directory"))
     end, w);
  write_file path t _ w := (Ok (), <[path := t]> w);
  create_directory _ _ w := (Ok (), w);
  get_metadata path _ w :=
    (match w !! path with
     | Some t => Ok (mkMetadata false true false (N.of_nat (byte_len t)) 0 0)
     | None => Err (mkIo KNotFound ($"No such file or directory"))
     end, w);
  remove path _ w := (Ok (), delete path w);
}.

Definition look (w : gmap P str) : view P := fun p => w !! p.

#[global] Instance flat_laws : FileSystemLaws (gmap P str) P look.
Proof.
  split; unfold look.
  - intros p fl w r w' [= <- <-]. split; [done|]. by destruct (w !! p).
  - intros p fl w r w' [= _ <-]. done.
  - intros p o w r w' [= _ <-]. done.
  - intros p t fl w r w' [= <- <-] q. unfold upd.
    case_decide; subst; by rewrite ?lookup_insert_eq, ?lookup_insert_ne.
  - intros p o w r w' _ [= <- <-] q. unfold upd.
    case_decide; subst; by rewrite ?lookup_delete_eq, ?lookup_delete_ne.
Qed.
End flat.
End FlatFs.

Import FileUrls.

#[export] Instance FileUrl_countable : Countable FileUrl.
Proof.
  by refine (inj_countable' (fun u => (authority u, raw_segments u))
               (fun '(a, l) => mkFile a l) _); intros [].
Defined.

(** ** Concrete patches *)

Definition demo_patch_args (path : str) : ApplyPatchArgs :=
  mkArgs [] [AddFile path ($"x" ++ [LF])] None None.

Definition demo_verified (path : str) :=
  try_verify_apply_patch_args (W := gmap FileUrl str) (fun _ _ _ => [])
    (demo_patch_args path) work NormalizeToLf ∅.

(** What is decided about a patch, with a policy that protects a secret. *)
Definition demo_profile : @PermissionProfile FileUrl :=
  Managed (ManagedRestricted (entries secret_policy) None) NetworkRestricted.

Definition demo_assess (action : @ApplyPatchAction FileUrl _ FileUrl_countable)
    (policy : AskForApproval) : SafetyCheck :=
  @assess_patch_safety FileUrl _ _ FileUrl_countable LinuxOs action policy demo_profile
    secret_policy work_context (Platform LevelDisabled).

Definition demo_check (path : str) (policy : AskForApproval) : option SafetyCheck :=
  match demo_verified path with
  | (Done action, _) => Some (demo_assess action policy)
  | _ => None
  end.

Example demo_checks :
  demo_check ($"a") OnRequest = Some AutoApprove
  /\ demo_check ($"a") UnlessTrusted = Some AskUser
  /\ demo_check ($"../b") OnRequest = Some AskUser
  /\ demo_check ($".git/config") Never = Some (Reject PATCH_REJECTED_OUTSIDE_PROJECT_REASON).
Proof. repeat split; vm_compute; reflexivity. Qed.

(** A file system that takes nothing: the patch fails, after it asked. *)
Definition full_disk : ExecutorFileSystem () FileUrl := {|
  read_file_text path _ w := (Err (mkIo KNotFound ($"No such file or directory")), w);
  write_file path t _ w := (Err (mkIo KNotFound ($"No such file or directory")), w);
  create_directory _ _ w := (Err (mkIo KOther ($"No space left on device")), w);
  get_metadata path _ w := (Err (mkIo KNotFound ($"No such file or directory")), w);
  remove path _ w := (Err (mkIo KNotFound ($"No such file or directory")), w);
|}.

Definition full_verified :=
  @try_verify_apply_patch_args () FileUrl _ FileUrl_countable _ full_disk (fun _ _ _ => [])
    (demo_patch_args ($"a")) work NormalizeToLf ().

Definition full_applied (cwd : FileUrl)
  : outcome AffectedPaths anyhow_error * @applying (() * list (Asked FileUrl)) FileUrl :=
  @apply_hunks_to_files _ _ _ (@recording _ _ full_disk) (hunks (demo_patch_args ($"a")))
    (mkOptions NormalizeToLf true) cwd (fresh ((), [])).

Lemma auto_approved_patch_stays_inside_witness :
  exists action (s : @applying (() * list (Asked FileUrl)) FileUrl), fst full_verified = Done action /\ demo_assess action OnRequest = AutoApprove
    /\ snd (fs s) = [AskedWrite (work_file [$"a"]); AskedDirectory work]
    /\ Forall (confined (writable secret_policy work_context)) (snd (fs s)).
Proof.
  assert (Hok : match full_verified with
    | (Done action, _) =>
        bool_decide (snd (fs (snd (full_applied (action_cwd action))))
                     = [AskedWrite (work_file [$"a"]); AskedDirectory work])
        && match demo_assess action OnRequest with AutoApprove => true | _ => false end
    | _ => false
    end = true) by (vm_compute; reflexivity).
  destruct full_verified as [[action|e|] w1] eqn:Ev; [|discriminate Hok..].
  destruct (full_applied (action_cwd action)) as [outcome s] eqn:Er.
  apply andb_prop in Hok as [Hok Hs]. apply bool_decide_eq_true in Hok.
  destruct (demo_assess action OnRequest) eqn:Ea; [|discriminate Hs..].
  exists action, s. split; [reflexivity|]. split; [exact Ea|]. split; [exact Hok|].
  exact (proj2 (proj2 (@auto_approved_patch_stays_inside FileUrl file_urls file_unreachable FileUrl_countable
    () full_disk (fun _ _ _ => []) LinuxOs
    (demo_patch_args ($"a")) work NormalizeToLf () action w1 OnRequest demo_profile secret_policy
    work_context (Platform LevelDisabled) () NormalizeToLf true outcome s Ev Ea Er))).
Defined.
