(* ===== verification/AgentPath.v ===== *)
(** * Paths of agents (protocol/src/agent_path.rs)

    Agents of a session form a tree that starts at [/root]; a path is the text of
    the names on the way down.  Here: the checks, joining, resolution of what a
    model refers to, and the parent a finished agent reports to
    (core/src/agent/control.rs). *)

From S2P Require Import Prelude RustStr.

(** ** Names and paths *)

(** Build a value with [from_string] or from the constants; the field is private. *)
Record AgentPath : Type := mkAgentPath { as_str : str }.

#[export] Instance AgentPath_eq_dec : EqDecision AgentPath.
Proof. solve_decision. Defined.

Definition ROOT : str := $"/root".
Definition MORPHEUS : str := $"/morpheus".
Definition ROOT_SEGMENT : str := $"root".
Definition SLASH : char := 47%N.

Definition root : AgentPath := mkAgentPath ROOT.
Definition morpheus : AgentPath := mkAgentPath MORPHEUS.

Definition is_root (p : AgentPath) : bool := bool_decide (as_str p = ROOT).

Definition is_name_char (ch : char) : bool :=
  ((97 <=? ch) && (ch <=? 122))%N || is_ascii_digit ch || (ch =? 95)%N.

Definition validate_agent_name (agent_name : str) : result unit str :=
  if is_empty agent_name then Err ($"agent_name must not be empty")
  else if bool_decide (agent_name = ROOT_SEGMENT) then Err ($"agent_name `root` is reserved")
  else if bool_decide (agent_name = $".") || bool_decide (agent_name = $"..")
  then Err ($"agent_name `" ++ agent_name ++ $"` is reserved")
  else if contains_char SLASH agent_name then Err ($"agent_name must not contain `/`")
  else if negb (forallb is_name_char agent_name)
  then Err ($"agent_name must use only lowercase letters, digits, and underscores")
  else Ok tt.

Fixpoint validate_names (segments : list str) : result unit str :=
  match segments with
  | [] => Ok tt
  | s :: rest => let? _ := validate_agent_name s in validate_names rest
  end.

Definition must_start : str := $"absolute agent paths must start with `/root` or be `/morpheus`".

Definition validate_absolute_path (path : str) : result unit str :=
  if bool_decide (path = MORPHEUS) then Ok tt
  else
    match strip_prefix [SLASH] path with
    | None => Err must_start
    | Some stripped =>
        match split_char SLASH stripped with
        | [] => Err ($"absolute agent path must not be empty")
        | first :: segments =>
            if negb (bool_decide (first = ROOT_SEGMENT)) then Err must_start
            else if ends_with stripped [SLASH]
            then Err ($"absolute agent path must not end with `/`")
            else validate_names segments
        end
    end.

Definition validate_relative_reference (reference : str) : result unit str :=
  if ends_with reference [SLASH] then Err ($"relative agent path must not end with `/`")
  else validate_names (split_char SLASH reference).

Definition from_string (path : str) : result AgentPath str :=
  let? _ := validate_absolute_path path in Ok (mkAgentPath path).

(** The last segment. *)
Definition name (p : AgentPath) : str :=
  if is_root p then ROOT_SEGMENT
  else
    match last (split_char SLASH (as_str p)) with
    | Some segment => if is_empty segment then ROOT_SEGMENT else segment
    | None => ROOT_SEGMENT
    end.

Definition join_name (p : AgentPath) (agent_name : str) : result AgentPath str :=
  let? _ := validate_agent_name agent_name in
  from_string (as_str p ++ [SLASH] ++ agent_name).

Definition resolve (p : AgentPath) (reference : str) : result AgentPath str :=
  if is_empty reference then Err ($"agent path must not be empty")
  else if bool_decide (reference = ROOT) then Ok root
  else if starts_with reference [SLASH] then from_string reference
  else
    let? _ := validate_relative_reference reference in
    from_string (as_str p ++ [SLASH] ++ reference).

(** Whom a finished agent reports to. *)
Definition parent_agent_path (child : AgentPath) : option AgentPath :=
  match rsplit_once SLASH (as_str child) with
  | Some (parent, _) => res_ok (from_string parent)
  | None => None
  end.

(** Whether an agent is listed for a prefix. *)
Definition agent_matches_prefix (agent_path : option AgentPath) (prefix : AgentPath) : bool :=
  if is_root prefix then true
  else
    match agent_path with
    | Some path =>
        bool_decide (path = prefix)
        || match strip_prefix (as_str prefix) (as_str path) with
           | Some suffix => starts_with suffix [SLASH]
           | None => false
           end
    | None => false
    end.

(** ** Specification: a path is the list of names below the root *)

Definition valid_name (n : str) : Prop := validate_agent_name n = Ok tt.

Definition render_names (names : list str) : str := ROOT ++ concat (map (cons SLASH) names).

Lemma valid_name_plain n : valid_name n -> n <> [] /\ ~ In SLASH n.
Proof.
  unfold valid_name, validate_agent_name.
  destruct (is_empty n) eqn:He; [done|]. apply is_empty_false in He.
  case_bool_decide; [done|]. destruct (_ || _); [done|].
  destruct (contains_char SLASH n) eqn:Hc; [done|]. by apply contains_char_false in Hc.
Qed.

Lemma valid_not_root n : valid_name n -> n <> ROOT_SEGMENT.
Proof.
  unfold valid_name, validate_agent_name. destruct (is_empty n); [done|].
  by case_bool_decide.
Qed.

Lemma validate_names_ok ns : validate_names ns = Ok tt <-> Forall valid_name ns.
Proof.
  induction ns as [|n ns IH]; simpl; [done|]. rewrite Forall_cons, <- IH. unfold valid_name.
  destruct (validate_agent_name n) as [[]|e]; naive_solver.
Qed.

Definition below_slash (names : list str) : str := ROOT_SEGMENT ++ concat (map (cons SLASH) names).

Lemma render_slash names : render_names names = SLASH :: below_slash names.
Proof. reflexivity. Qed.

Lemma below_slash_split names : Forall valid_name names ->
  split_char SLASH (below_slash names) = ROOT_SEGMENT :: names.
Proof.
  intros Hn.
  assert (Hr : forall w, ~ In SLASH w ->
    split_char SLASH (w ++ concat (map (cons SLASH) names)) = w :: names).
  { induction Hn as [|n ns Hv Hn IH]; intros w Hw; simpl.
    - rewrite app_nil_r. by apply split_char_plain.
    - change (w ++ SLASH :: n ++ concat (map (cons SLASH) ns))
        with (w ++ SLASH :: (n ++ concat (map (cons SLASH) ns))).
      rewrite split_char_app by done. f_equal. apply IH. by destruct (valid_name_plain n Hv). }
  apply Hr. by apply contains_char_false.
Qed.

Lemma render_split names : Forall valid_name names ->
  split_char SLASH (render_names names) = [] :: ROOT_SEGMENT :: names.
Proof.
  intros Hn. rewrite render_slash. change (SLASH :: ?l) with ([] ++ SLASH :: l).
  rewrite split_char_app by (intros []). f_equal. by apply below_slash_split.
Qed.

Lemma join_names ns : join [SLASH] (ROOT_SEGMENT :: ns) = below_slash ns.
Proof.
  unfold below_slash. generalize ROOT_SEGMENT. induction ns as [|n ns IH]; intros w; [symmetry; apply app_nil_r|].
  change (w ++ [SLASH] ++ join [SLASH] (n :: ns) = w ++ concat (map (cons SLASH) (n :: ns))).
  by rewrite IH.
Qed.

Lemma render_no_trailing names : Forall valid_name names -> ends_with (render_names names) [SLASH] = false.
Proof.
  intros Hn. apply not_true_is_false. rewrite ends_with_true. intros [t Ht].
  destruct (snoc_cases names) as [->|(ns & n & ->)].
  { apply (f_equal (@last _)) in Ht. rewrite last_snoc in Ht. vm_compute in Ht. discriminate. }
  apply Forall_app in Hn as [_ Hn%Forall_inv]. apply valid_name_plain in Hn as [Hne Hs].
  destruct (snoc_cases n) as [->|(n' & c & ->)]; [done|].
  assert (E : render_names (ns ++ [n' ++ [c]]) = (render_names ns ++ SLASH :: n') ++ [c]).
  { unfold render_names. rewrite map_app, concat_app. simpl. by rewrite app_nil_r, <- !app_assoc. }
  rewrite E in Ht. apply app_inj_tail in Ht as [_ ->]. apply Hs. apply in_or_app. right. by left.
Qed.

(** What passes the check. *)
Lemma validate_absolute_ok path : validate_absolute_path path = Ok tt <->
  path = MORPHEUS \/ exists names, Forall valid_name names /\ path = render_names names.
Proof.
  unfold validate_absolute_path. case_bool_decide as Hm; [naive_solver|].
  split.
  - intros H. right. destruct (strip_prefix [SLASH] path) as [t|] eqn:Ep; [|done].
    apply strip_prefix_Some in Ep as ->. pose proof (join_split_char SLASH t) as Hj.
    destruct (split_char SLASH t) as [|f ns]; [done|].
    case_bool_decide as Hf; [|done]. subst f. simpl in H.
    destruct (ends_with t [SLASH]); [done|]. apply validate_names_ok in H.
    exists ns. split; [done|]. rewrite <- Hj, join_names. reflexivity.
  - intros [->|(ns & Hn & ->)]; [done|]. pose proof (render_no_trailing ns Hn) as He.
    rewrite render_slash in *. change (SLASH :: ?l) with ([SLASH] ++ l).
    rewrite strip_prefix_app, below_slash_split by done.
    destruct (ends_with (below_slash ns) [SLASH]) eqn:E.
    + apply ends_with_true in E as [t E]. exfalso. apply not_true_iff_false in He. apply He.
      apply ends_with_true. exists (SLASH :: t). simpl. by rewrite <- E.
    + simpl. rewrite E. by apply validate_names_ok.
Qed.

Lemma render_app a b : render_names (a ++ b) = render_names a ++ concat (map (cons SLASH) b).
Proof. unfold render_names. by rewrite map_app, concat_app, app_assoc. Qed.

Lemma render_inj a b : Forall valid_name a -> Forall valid_name b -> render_names a = render_names b -> a = b.
Proof.
  intros Ha Hb H. apply (f_equal (split_char SLASH)) in H. rewrite !render_split in H by done. congruence.
Qed.

Lemma render_not_morpheus ns : render_names ns <> MORPHEUS.
Proof. vm_compute. discriminate. Qed.

Lemma from_string_render ns : Forall valid_name ns -> from_string (render_names ns) = Ok (mkAgentPath (render_names ns)).
Proof.
  intros Hn. unfold from_string.
  by rewrite (proj2 (validate_absolute_ok (render_names ns)) ltac:(right; by exists ns)).
Qed.

Lemma agent_path_cases p q : from_string p = Ok q <->
  q = mkAgentPath p /\ (p = MORPHEUS \/ exists names, Forall valid_name names /\ p = render_names names).
Proof.
  unfold from_string. rewrite <- validate_absolute_ok.
  destruct (validate_absolute_path p) as [[]|e]; naive_solver.
Qed.

Lemma rsplit_once_plain c a b : ~ In c b -> rsplit_once c (a ++ c :: b) = Some (a, b).
Proof.
  intros H. unfold rsplit_once. rewrite rev_app_distr. simpl. rewrite <- app_assoc. simpl.
  rewrite split_once_plain; [by rewrite !rev_involutive|]. by rewrite <- in_rev.
Qed.

Lemma split_char_cut c a b : split_char c (a ++ c :: b) = split_char c a ++ split_char c b.
Proof.
  induction a as [|d a IH]; simpl; [by rewrite bool_decide_true|]. case_bool_decide; [by rewrite IH|].
  rewrite IH. pose proof (split_char_nonempty c a). by destruct (split_char c a).
Qed.

Lemma names_snoc ns n : render_names (ns ++ [n]) = render_names ns ++ SLASH :: n.
Proof. rewrite render_app. simpl. by rewrite app_nil_r. Qed.

Lemma rsplit_render ns n : valid_name n ->
  rsplit_once SLASH (render_names (ns ++ [n])) = Some (render_names ns, n).
Proof. intros Hn. rewrite names_snoc. apply rsplit_once_plain. by destruct (valid_name_plain n Hn). Qed.

Lemma concat_slash_names ms : ms <> [] -> concat (map (cons SLASH) ms) = SLASH :: join [SLASH] ms.
Proof.
  induction ms as [|n ms IH]; [done|]. intros _. destruct ms as [|m ms]; [simpl; by rewrite app_nil_r|].
  rewrite join_cons by done. change (concat (map (cons SLASH) (n :: m :: ms)))
    with (SLASH :: n ++ concat (map (cons SLASH) (m :: ms))).
  by rewrite IH.
Qed.

Lemma relative_ok r : validate_relative_reference r = Ok tt <->
  exists ms, ms <> [] /\ Forall valid_name ms /\ r = join [SLASH] ms.
Proof.
  unfold validate_relative_reference. split.
  - destruct (ends_with r [SLASH]); [done|]. intros H%validate_names_ok.
    exists (split_char SLASH r). split_and!; [apply split_char_nonempty|done|by rewrite join_split_char].
  - intros (ms & Hne & Hms & ->).
    assert (Hs : split_char SLASH (join [SLASH] ms) = ms).
    { apply split_char_join; [done|]. eapply Forall_impl; [exact Hms|].
      intros n Hn. by destruct (valid_name_plain n Hn). }
    rewrite Hs. destruct (ends_with _ _) eqn:E; [|by apply validate_names_ok].
    exfalso. apply ends_with_true in E as [t E]. pose proof (render_no_trailing ms Hms) as He.
    apply not_true_iff_false in He. apply He, ends_with_true. exists (ROOT ++ SLASH :: t).
    unfold render_names. rewrite concat_slash_names, E, <- app_assoc by done. done.
Qed.

Lemma join_name_render ns n q : Forall valid_name ns ->
  join_name (mkAgentPath (render_names ns)) n = Ok q <-> valid_name n /\ as_str q = render_names (ns ++ [n]).
Proof.
  intros Hns. unfold join_name, valid_name.
  destruct (validate_agent_name n) as [[]|e] eqn:En; [|naive_solver].
  assert (E : as_str (mkAgentPath (render_names ns)) ++ [SLASH] ++ n = render_names (ns ++ [n]))
    by (by rewrite names_snoc).
  rewrite E, from_string_render by (apply Forall_app; by repeat constructor).
  destruct q. simpl. naive_solver.
Qed.

Lemma resolve_render ns r q : Forall valid_name ns ->
  resolve (mkAgentPath (render_names ns)) r = Ok q <->
  from_string r = Ok q
  \/ exists ms, ms <> [] /\ Forall valid_name ms /\ r = join [SLASH] ms /\ as_str q = render_names (ns ++ ms).
Proof.
  intros Hns. unfold resolve.
  assert (Hnot : forall ms, ms <> [] -> Forall valid_name ms ->
    exists c t, join [SLASH] ms = c :: t /\ c <> SLASH).
  { intros [|m ms] Hne Hms; [done|]. apply Forall_inv, valid_name_plain in Hms as [Hm Hs].
    destruct m as [|c m]; [done|]. rewrite join_head_cons. exists c, (join [SLASH] (m :: ms)).
    split; [done|]. intros ->. apply Hs. by left. }
  destruct r as [|c r].
  { simpl. split; [done|]. intros [H|(ms & Hne & Hms & E & _)].
    - by apply agent_path_cases in H as (_ & [H|(ns' & _ & H)]).
    - destruct (Hnot ms Hne Hms) as (c & t & E' & _). congruence. }
  simpl is_empty. cbv iota. case_bool_decide as Er.
  { pose proof (from_string_render [] ltac:(constructor)) as Hroot. change (render_names []) with ROOT in Hroot.
    rewrite Er, Hroot. split; [by left|].
    intros [H|(ms & Hne & Hms & E & _)]; [done|].
    destruct (Hnot ms Hne Hms) as (d & t & E' & Hd). rewrite E' in E. by injection E as <-. }
  destruct (starts_with (c :: r) [SLASH]) eqn:Es.
  { apply starts_with_true in Es as [t [= -> ->]]. split; [by left|].
    intros [H|(ms & Hne & Hms & E & _)]; [done|].
    destruct (Hnot ms Hne Hms) as (d & u & E' & Hd). rewrite E' in E. by injection E as <-. }
  assert (Hf : forall q', from_string (c :: r) <> Ok q').
  { intros q' H. apply not_true_iff_false in Es. apply Es. apply starts_with_true.
    apply agent_path_cases in H as (_ & [->|(ns' & _ & ->)]); eexists; reflexivity. }
  destruct (validate_relative_reference (c :: r)) as [[]|e] eqn:Ev.
  - apply relative_ok in Ev as (ms & Hne & Hms & E).
    assert (Hj : as_str (mkAgentPath (render_names ns)) ++ [SLASH] ++ c :: r = render_names (ns ++ ms))
      by (by rewrite E, render_app, concat_slash_names).
    cbv beta iota. rewrite Hj, from_string_render by (by apply Forall_app). split.
    + intros [= <-]. right. exists ms. by split_and!.
    + intros [H|(ms' & Hne' & Hms' & E' & Hq)]; [by apply Hf in H|]. destruct q as [q]. simpl in Hq.
      rewrite Hq. do 2 f_equal. rewrite !render_app. f_equal. by rewrite !concat_slash_names, <- E, <- E'.
  - simpl. split; [done|]. intros [H|(ms & Hne & Hms & E & _)]; [by apply Hf in H|].
    assert (validate_relative_reference (c :: r) = Ok tt) by (apply relative_ok; by exists ms). congruence.
Qed.

Lemma parent_render ns : Forall valid_name ns ->
  parent_agent_path (mkAgentPath (render_names ns))
  = if is_empty ns then None else Some (mkAgentPath (render_names (removelast ns))).
Proof.
  intros Hns. destruct (snoc_cases ns) as [->|(ms & n & ->)]; [by vm_compute|].
  apply Forall_app in Hns as [Hms Hn%Forall_inv]. unfold parent_agent_path. simpl as_str.
  rewrite rsplit_render, from_string_render, removelast_last by done. by destruct ms.
Qed.

Lemma name_render ns : Forall valid_name ns ->
  name (mkAgentPath (render_names ns)) = default ROOT_SEGMENT (last ns).
Proof.
  intros Hns. destruct (snoc_cases ns) as [->|(ms & n & ->)]; [by vm_compute|].
  pose proof Hns as [_ Hn%Forall_inv]%Forall_app. unfold name, is_root. simpl as_str.
  rewrite bool_decide_false, render_split, last_snoc; [|done|].
  - change ([] :: ROOT_SEGMENT :: ms ++ [n]) with (([] :: ROOT_SEGMENT :: ms) ++ [n]).
    rewrite last_snoc. simpl. by destruct n; [destruct (valid_name_plain [] Hn)|].
  - intros E. change ROOT with (render_names []) in E. apply render_inj in E; [|done|by constructor].
    by destruct ms.
Qed.

Lemma matches_render ns ms : Forall valid_name ns -> Forall valid_name ms ->
  agent_matches_prefix (Some (mkAgentPath (render_names ms))) (mkAgentPath (render_names ns)) = true
  <-> exists k, ms = ns ++ k.
Proof.
  intros Hns Hms. unfold agent_matches_prefix, is_root. simpl as_str. case_bool_decide as Er.
  { change ROOT with (render_names []) in Er. apply render_inj in Er as ->; [|done|by constructor].
    split; [by exists ms|done]. }
  rewrite orb_true_iff, bool_decide_eq_true. split.
  - intros [E|H]; [apply (f_equal as_str) in E; cbn [as_str] in E; apply render_inj in E as ->; [by exists []; rewrite app_nil_r|done..]|].
    destruct (strip_prefix (render_names ns) (render_names ms)) as [t|] eqn:Et; [|done].
    apply strip_prefix_Some in Et. apply starts_with_true in H as [u ->].
    apply (f_equal (split_char SLASH)) in Et. change (render_names ns ++ [SLASH] ++ u) with (render_names ns ++ SLASH :: u) in Et.
    rewrite split_char_cut, !render_split in Et by done. injection Et as ->. by eexists.
  - intros [k ->]. destruct k as [|n k]; [left; by rewrite app_nil_r|right].
    rewrite render_app. rewrite strip_prefix_app. by apply starts_with_true; eexists.
Qed.

(** A path is [/morpheus] or the names on the way from the root.  Joining a
    valid name, and resolving a relative reference, append names; anything else
    resolves only when it is itself such a path.  A child reports to the path it
    was joined to, carries the name it was given, and is listed under a prefix
    exactly when the names of the prefix start its own. *)
Theorem agent_paths_are_names path p :
  from_string path = Ok p ->
  (as_str p = path /\ (path = MORPHEUS \/ exists ns, Forall valid_name ns /\ path = render_names ns))
  /\ (forall n q, join_name morpheus n <> Ok q)
  /\ forall ns, Forall valid_name ns -> path = render_names ns ->
     (forall n q, join_name p n = Ok q <-> valid_name n /\ as_str q = render_names (ns ++ [n]))
     /\ (forall r q, resolve p r = Ok q <->
           from_string r = Ok q
           \/ exists ms, ms <> [] /\ Forall valid_name ms /\ r = join [SLASH] ms
              /\ as_str q = render_names (ns ++ ms))
     /\ parent_agent_path p = (if is_empty ns then None else Some (mkAgentPath (render_names (removelast ns))))
     /\ name p = default ROOT_SEGMENT (last ns)
     /\ (forall ms, Forall valid_name ms ->
           agent_matches_prefix (Some (mkAgentPath (render_names ms))) p = true <-> exists k, ms = ns ++ k).
Proof.
  intros Hp. apply agent_path_cases in Hp as (-> & Hp). split; [by split|]. split.
  { intros n q H. unfold join_name in H. destruct (validate_agent_name n) as [[]|e]; [|done].
    simpl in H. by apply agent_path_cases in H as (_ & [H|(ns & _ & H)]). }
  intros ns Hns ->. split_and!.
  - intros n q. by apply join_name_render.
  - intros r q. by apply resolve_render.
  - by apply parent_render.
  - by apply name_render.
  - intros ms Hms. by apply matches_render.
Qed.

Lemma agent_paths_are_names_witness :
  exists p, from_string ($"/root/task_3") = Ok p
  /\ (exists q, resolve p ($"a/b") = Ok q /\ as_str q = $"/root/task_3/a/b")
  /\ parent_agent_path p = Some root /\ name p = $"task_3"
  /\ agent_matches_prefix (Some (mkAgentPath ($"/root/task_34"))) p = false.
Proof.
  assert (Hp : from_string ($"/root/task_3") = Ok (mkAgentPath ($"/root/task_3")))
    by (vm_compute; reflexivity).
  destruct (agent_paths_are_names _ _ Hp) as (_ & _ & H).
  destruct (H [$"task_3"] ltac:(by repeat constructor) eq_refl) as (_ & Hr & Hpar & Hn & Hm).
  eexists. split; [exact Hp|]. split_and!; [|exact Hpar|exact Hn|].
  - eexists (mkAgentPath ($"/root/task_3/a/b")). split; [|reflexivity]. apply Hr. right.
    exists [$"a"; $"b"]. split_and!; [done|by repeat constructor|reflexivity|reflexivity].
  - apply not_true_iff_false. intros E.
    apply (Hm [$"task_34"] ltac:(by repeat constructor)) in E as [k E]. discriminate E.
Defined.
