(* ===== verification/AgentRegistry.v ===== *)
(** * The registry of agents (core/src/agent/registry.rs)

    The agents of a session share one registry: a table of agents by path, one of
    paths by thread, the nicknames in use, and an atomic count of the slots taken.
    Thread ids are an argument with their [Display]; so are the environments kept
    for an evicted agent, and the random draws.  The two halves of an operation
    that leaves the lock between the tables and the count are definitions of
    their own; the second part interleaves them. *)

From S2P Require Import Prelude RustStr AgentPath.

Section registry.
Context {ThreadId Env : Type} `{Countable ThreadId} (show_thread : ThreadId -> str).

(** ** State *)

Record AgentMetadata : Type := mkMeta {
  agent_id : option ThreadId;
  agent_path : option AgentPath;
  agent_nickname : option str;
  agent_role : option str;
}.

#[global] Instance AgentMetadata_eq_dec : EqDecision AgentMetadata.
Proof. solve_decision. Defined.

Record RegisteredAgent : Type := mkRegistered {
  registered_path : str;
  environments : option (list Env);
}.

Definition new_registered (path : str) : RegisteredAgent := mkRegistered path None.

Record AgentRegistry : Type := mkRegistry {
  agent_tree : gmap str AgentMetadata;
  thread_paths : gmap ThreadId RegisteredAgent;
  used_agent_nicknames : gset str;
  nickname_reset_count : N;
  total_count : N;
}.

Definition empty_registry : AgentRegistry := mkRegistry ∅ ∅ ∅ 0 0.

Definition with_tables (tree : gmap str AgentMetadata) (threads : gmap ThreadId RegisteredAgent)
    (r : AgentRegistry) : AgentRegistry :=
  mkRegistry tree threads (used_agent_nicknames r) (nickname_reset_count r) (total_count r).

Definition with_nicknames (used : gset str) (resets : N) (r : AgentRegistry) : AgentRegistry :=
  mkRegistry (agent_tree r) (thread_paths r) used resets (total_count r).

Definition with_count (n : N) (r : AgentRegistry) : AgentRegistry :=
  mkRegistry (agent_tree r) (thread_paths r) (used_agent_nicknames r) (nickname_reset_count r) n.

(** Atomic arithmetic wraps. *)
Definition fetch_add (r : AgentRegistry) : AgentRegistry :=
  with_count ((total_count r + 1) mod 2 ^ 64)%N r.
Definition fetch_sub (r : AgentRegistry) : AgentRegistry :=
  with_count ((total_count r + (2 ^ 64 - 1)) mod 2 ^ 64)%N r.

Definition path_is_root (m : AgentMetadata) : bool :=
  match agent_path m with Some p => is_root p | None => false end.

Definition meta_key (thread_id : ThreadId) (m : AgentMetadata) : str :=
  match agent_path m with
  | Some p => as_str p
  | None => $"thread:" ++ show_thread thread_id
  end.

(** ** Nicknames and depth *)

Definition format_agent_nickname (name : str) (nickname_reset_count : N) : str :=
  if (nickname_reset_count =? 0)%N then name
  else
    let value := (nickname_reset_count + 1)%N in
    let suffix :=
      if (11 <=? value mod 100)%N && (value mod 100 <=? 13)%N then $"th"
      else match (value mod 10)%N with
           | 1%N => $"st" | 2%N => $"nd" | 3%N => $"rd" | _ => $"th"
           end in
    name ++ $" the " ++ show_N value ++ suffix.

(** [choose], with the draw as an argument. *)
Definition choose {A : Type} (draw : nat) (l : list A) : option A := l !! (draw mod length l).

Definition available_names (names : list str) (r : AgentRegistry) : list str :=
  List.filter (fun n => negb (bool_decide (n ∈ used_agent_nicknames r)))
    (map (fun n => format_agent_nickname n (nickname_reset_count r)) names).

Definition reserve_agent_nickname (names : list str) (preferred : option str) (draw draw' : nat)
    (r : AgentRegistry) : option str * AgentRegistry :=
  let take n r := (Some n, with_nicknames ({[n]} ∪ used_agent_nicknames r) (nickname_reset_count r) r) in
  match preferred with
  | Some n => take n r
  | None =>
      if is_empty names then (None, r)
      else
        match choose draw (available_names names r) with
        | Some n => take n r
        | None =>
            let r := with_nicknames ∅ (nickname_reset_count r + 1) r in
            match choose draw' names with
            | Some n => take (format_agent_nickname n (nickname_reset_count r)) r
            | None => (None, r)
            end
        end
  end.

Inductive InternalSessionSource : Type := InternalMemoryConsolidation | Guardian.

Inductive SubAgentSource : Type :=
| Review
| Compact
| ThreadSpawn (parent_thread_id : ThreadId) (depth : Z) (agent_path : option AgentPath)
    (agent_nickname agent_role : option str)
| MemoryConsolidation
| OtherSubAgent (label : str).

Inductive SessionSource : Type :=
| Cli | VSCode | FromExec | FromMcp
| CustomSource (label : str)
| InternalSource (source : InternalSessionSource)
| SubAgent (source : SubAgentSource)
| UnknownSource.

(** A depth is a 32-bit integer. *)
Definition session_depth (source : SessionSource) : Z :=
  match source with SubAgent (ThreadSpawn _ depth _ _ _) => depth | _ => 0%Z end.

Definition next_thread_spawn_depth (source : SessionSource) : Z :=
  Z.min (2 ^ 31 - 1) (session_depth source + 1).
Definition exceeds_thread_spawn_depth_limit (depth max_depth : Z) : bool := (max_depth <? depth)%Z.

(** ** Tables *)

(** The half of [release_spawned_thread] under the lock; [true] when a counted
    agent was removed. *)
Definition release_tables (thread_id : ThreadId) (r : AgentRegistry) : bool * AgentRegistry :=
  match thread_paths r !! thread_id with
  | None => (false, r)
  | Some agent =>
      let removed := agent_tree r !! registered_path agent in
      (match removed with Some m => negb (path_is_root m) | None => false end,
       with_tables (delete (registered_path agent) (agent_tree r)) (delete thread_id (thread_paths r)) r)
  end.

Definition release_spawned_thread (thread_id : ThreadId) (r : AgentRegistry) : AgentRegistry :=
  let '(counted, r) := release_tables thread_id r in if counted then fetch_sub r else r.

Definition register_root_thread (thread_id : ThreadId) (r : AgentRegistry) : AgentRegistry :=
  let entry := default (mkMeta (Some thread_id) (Some root) None None) (agent_tree r !! ROOT) in
  let tree := <[ROOT := entry]> (agent_tree r) in
  match agent_id entry with
  | Some id => with_tables tree (<[id := new_registered ROOT]> (thread_paths r)) r
  | None => with_tables tree (thread_paths r) r
  end.

Definition agent_id_for_path (p : AgentPath) (r : AgentRegistry) : option ThreadId :=
  match agent_tree r !! as_str p with Some m => agent_id m | None => None end.

Definition agent_metadata_for_thread (thread_id : ThreadId) (r : AgentRegistry) : option AgentMetadata :=
  match thread_paths r !! thread_id with
  | Some agent => agent_tree r !! registered_path agent
  | None => None
  end.

Definition save_evicted_environments (thread_id : ThreadId) (envs : list Env) (r : AgentRegistry)
  : AgentRegistry :=
  with_tables (agent_tree r)
    (alter (fun a => mkRegistered (registered_path a) (Some envs)) thread_id (thread_paths r)) r.

Definition evicted_environments (thread_id : ThreadId) (r : AgentRegistry) : option (list Env) :=
  match thread_paths r !! thread_id with Some a => environments a | None => None end.

Definition clear_evicted_environments (thread_id : ThreadId) (r : AgentRegistry) : AgentRegistry :=
  with_tables (agent_tree r)
    (alter (fun a => mkRegistered (registered_path a) None) thread_id (thread_paths r)) r.

Definition is_live (m : AgentMetadata) : bool := is_some (agent_id m) && negb (path_is_root m).

(** In the order of the hash map. *)
Definition live_agents (r : AgentRegistry) : list AgentMetadata :=
  List.filter is_live (map snd (map_to_list (agent_tree r))).

Definition register_spawned_thread (m : AgentMetadata) (r : AgentRegistry) : AgentRegistry :=
  match agent_id m with
  | None => r
  | Some thread_id =>
      let key := meta_key thread_id m in
      let used := match agent_nickname m with
                  | Some n => {[n]} ∪ used_agent_nicknames r
                  | None => used_agent_nicknames r
                  end in
      let threads := <[thread_id := new_registered key]> (thread_paths r) in
      let tree := match thread_paths r !! thread_id with
                  | Some previous =>
                      if bool_decide (registered_path previous = key) then agent_tree r
                      else delete (registered_path previous) (agent_tree r)
                  | None => agent_tree r
                  end in
      let threads := match tree !! key with
                     | Some previous =>
                         match agent_id previous with
                         | Some id => if bool_decide (id = thread_id) then threads else delete id threads
                         | None => threads
                         end
                     | None => threads
                     end in
      with_nicknames used (nickname_reset_count r) (with_tables (<[key := m]> tree) threads r)
  end.

Definition reserve_agent_path (p : AgentPath) (r : AgentRegistry) : result unit str * AgentRegistry :=
  match agent_tree r !! as_str p with
  | Some _ => (Err ($"agent path `" ++ as_str p ++ $"` already exists"), r)
  | None =>
      (Ok tt, with_tables (<[as_str p := mkMeta None (Some p) None None]> (agent_tree r))
                (thread_paths r) r)
  end.

Definition release_reserved_agent_path (p : AgentPath) (r : AgentRegistry) : AgentRegistry :=
  match agent_tree r !! as_str p with
  | Some m =>
      if is_none (agent_id m)
      then with_tables (delete (as_str p) (agent_tree r)) (thread_paths r) r
      else r
  | None => r
  end.

(** ** Reservations *)

(** A reservation that is still active; committing or dropping ends it. *)
Record SpawnReservation : Type := mkReservation {
  reserved_agent_nickname : option str;
  reserved_agent_path : option AgentPath;
}.

Definition fresh_reservation : SpawnReservation := mkReservation None None.

Definition reservation_nickname (names : list str) (preferred : option str) (draw draw' : nat)
    (s : SpawnReservation) (r : AgentRegistry) : result str str * SpawnReservation * AgentRegistry :=
  match reserve_agent_nickname names preferred draw draw' r with
  | (Some n, r) => (Ok n, mkReservation (Some n) (reserved_agent_path s), r)
  | (None, r) => (Err ($"no available agent nicknames"), s, r)
  end.

Definition reservation_path (p : AgentPath) (s : SpawnReservation) (r : AgentRegistry)
  : result unit str * SpawnReservation * AgentRegistry :=
  match reserve_agent_path p r with
  | (Ok _, r) => (Ok tt, mkReservation (reserved_agent_nickname s) (Some p), r)
  | (Err e, r) => (Err e, s, r)
  end.

(** What dropping an active reservation does before it gives back its slot. *)
Definition drop_path (s : SpawnReservation) (r : AgentRegistry) : AgentRegistry :=
  match reserved_agent_path s with
  | Some p => release_reserved_agent_path p r
  | None => r
  end.

(** [AgentControl::prepare_agent_metadata]; the candidates are the role's. *)
Definition prepare_agent_metadata (candidates : list str) (path : option AgentPath)
    (role preferred : option str) (draw draw' : nat) (s : SpawnReservation) (r : AgentRegistry)
  : result AgentMetadata str * SpawnReservation * AgentRegistry :=
  let '(reserved, s, r) :=
    match path with Some p => reservation_path p s r | None => (Ok tt, s, r) end in
  match reserved with
  | Err e => (Err e, s, r)
  | Ok _ =>
      match reservation_nickname candidates preferred draw draw' s r with
      | (Ok n, s, r) => (Ok (mkMeta None path (Some n) role), s, r)
      | (Err e, s, r) => (Err e, s, r)
      end
  end.

End registry.

(** * The limit on agents holds under any interleaving (core/src/agent/registry.rs)

    The tables are behind a lock, the count is atomic, and several operations touch
    both: a step here is one of those atomic actions, of any number of tasks that
    reserve, fill, commit and drop reservations or release agents.  A task that
    tries to reserve has read the count; its exchange may fail although nothing
    changed. *)

(** ** Counting the values of a map *)

Section counting.
Context {K A : Type} `{Countable K} (p : A -> bool).

Definition tally (m : gmap K A) : nat := length (List.filter p (map snd (map_to_list m))).

Definition tally_opt (o : option A) : nat :=
  match o with Some x => if p x then 1 else 0 | None => 0 end.

Lemma filter_length_perm (l k : list A) :
  Permutation l k -> length (List.filter p l) = length (List.filter p k).
Proof. induction 1; simpl; repeat case_match; simpl; congruence. Qed.

Lemma tally_delete m i : tally (delete i m) + tally_opt (m !! i) = tally m.
Proof.
  destruct (m !! i) as [x|] eqn:E; simpl; [|by rewrite delete_id, Nat.add_0_r].
  pose proof (map_to_list_delete m i x E) as Hp. apply (Permutation_map snd), filter_length_perm in Hp.
  unfold tally. rewrite <- Hp. simpl. case_match; simpl; lia.
Qed.

Lemma tally_insert m i x : tally (<[i := x]> m) + tally_opt (m !! i) = tally m + tally_opt (Some x).
Proof.
  rewrite <- (tally_delete m i), <- (tally_delete (<[i := x]> m) i), delete_insert_eq, lookup_insert_eq.
  lia.
Qed.

Lemma tally_insert_same m i x : tally_opt (m !! i) = tally_opt (Some x) -> tally (<[i := x]> m) = tally m.
Proof. intros E. pose proof (tally_insert m i x). lia. Qed.
End counting.

Section slots.
Context {ThreadId Env : Type} `{Countable ThreadId} (show_thread : ThreadId -> str).

Abbreviation Registry := (@AgentRegistry ThreadId Env _ _) (only parsing).
Abbreviation Metadata := (@AgentMetadata ThreadId) (only parsing).

(** ** Steps *)

Inductive task : Type :=
| Trying (max_threads current : N)
| Holding (s : SpawnReservation)
| Dropping
| Releasing.

Record world : Type := mkWorld { shared : Registry; tasks : gmap nat task }.

Definition start : world := mkWorld empty_registry ∅.

Inductive event : Type :=
| Reserve (k : nat) (max_threads : option N)
| Exchange (k : nat) (spurious : bool)
| TakePath (k : nat) (p : AgentPath)
| TakeNickname (k : nat) (names : list str) (preferred : option str) (draw draw' : nat)
| Commit (k : nat) (m : Metadata)
| Drop (k : nat)
| GiveBack (k : nat)
| Release (k : nat) (thread_id : ThreadId)
| RegisterRoot (thread_id : ThreadId)
| SaveEvicted (thread_id : ThreadId) (envs : list Env)
| ClearEvicted (thread_id : ThreadId).

Definition set_task (k : nat) (t : task) (r : Registry) (w : world) : world :=
  mkWorld r (<[k := t]> (tasks w)).
Definition end_task (k : nat) (r : Registry) (w : world) : world := mkWorld r (delete k (tasks w)).

(** One turn of the loop of [try_increment_spawned]; a task gone was refused. *)
Definition exchange (k : nat) (spurious : bool) (max_threads current : N) (w : world) : world :=
  let r := shared w in
  if (max_threads <=? current)%N then end_task k r w
  else if (total_count r =? current)%N && negb spurious
  then set_task k (Holding fresh_reservation) (with_count (current + 1) r) w
  else set_task k (Trying max_threads (total_count r)) r w.

Definition step (e : event) (w : world) : option world :=
  let r := shared w in
  match e with
  | Reserve k None =>
      if is_none (tasks w !! k) then Some (set_task k (Holding fresh_reservation) (fetch_add r) w)
      else None
  | Reserve k (Some max_threads) =>
      if is_none (tasks w !! k) then Some (set_task k (Trying max_threads (total_count r)) r w)
      else None
  | Exchange k spurious =>
      match tasks w !! k with
      | Some (Trying max_threads current) => Some (exchange k spurious max_threads current w)
      | _ => None
      end
  | TakePath k p =>
      match tasks w !! k with
      | Some (Holding s) =>
          let '(_, s, r) := reservation_path p s r in Some (set_task k (Holding s) r w)
      | _ => None
      end
  | TakeNickname k names preferred draw draw' =>
      match tasks w !! k with
      | Some (Holding s) =>
          let '(_, s, r) := reservation_nickname names preferred draw draw' s r in
          Some (set_task k (Holding s) r w)
      | _ => None
      end
  | Commit k m =>
      match tasks w !! k with
      | Some (Holding _) => Some (end_task k (register_spawned_thread show_thread m r) w)
      | _ => None
      end
  | Drop k =>
      match tasks w !! k with
      | Some (Holding s) => Some (set_task k Dropping (drop_path s r) w)
      | _ => None
      end
  | GiveBack k =>
      match tasks w !! k with
      | Some Dropping | Some Releasing => Some (end_task k (fetch_sub r) w)
      | _ => None
      end
  | Release k thread_id =>
      if is_none (tasks w !! k) then
        let '(counted, r) := release_tables thread_id r in
        Some (if counted then set_task k Releasing r w else end_task k r w)
      else None
  | RegisterRoot thread_id => Some (mkWorld (register_root_thread thread_id r) (tasks w))
  | SaveEvicted thread_id envs => Some (mkWorld (save_evicted_environments thread_id envs r) (tasks w))
  | ClearEvicted thread_id => Some (mkWorld (clear_evicted_environments thread_id r) (tasks w))
  end.

(** Worlds reached by events that are allowed where they happen. *)
Inductive reached (allowed : event -> world -> Prop) : nat -> world -> Prop :=
| reached_start : reached allowed 0 start
| reached_step n e w w' :
    reached allowed n w -> allowed e w -> step e w = Some w' -> reached allowed (S n) w'.

(** ** The tables *)

(** Every entry is under the path it names. *)
Definition entry_ok (key : str) (m : Metadata) : Prop :=
  match agent_path m with
  | Some p => as_str p = key
  | None => exists t, agent_id m = Some t /\ key = meta_key show_thread t m
  end.

Definition tree_ok (r : Registry) : Prop :=
  forall key m, agent_tree r !! key = Some m -> entry_ok key m.

(** Every thread is in the tree, as the agent that names it. *)
Definition threads_ok (r : Registry) : Prop :=
  forall t a, thread_paths r !! t = Some a ->
    exists m, agent_tree r !! registered_path a = Some m /\ agent_id m = Some t.

Definition tables_ok (r : Registry) : Prop := tree_ok r /\ threads_ok r.

Lemma tables_ok_same (r r' : Registry) :
  agent_tree r' = agent_tree r -> thread_paths r' = thread_paths r -> tables_ok r -> tables_ok r'.
Proof. unfold tables_ok, tree_ok, threads_ok. by intros -> ->. Qed.

Lemma with_tables_ok tree threads (r : Registry) :
  (forall key m, tree !! key = Some m -> entry_ok key m) ->
  (forall t a, threads !! t = Some a ->
     exists m, tree !! registered_path a = Some m /\ agent_id m = Some t) ->
  tables_ok (with_tables tree threads r).
Proof. done. Qed.

Lemma release_tables_ok t r : tables_ok r -> tables_ok (release_tables t r).2.
Proof.
  intros [Ht Hp]. unfold release_tables. destruct (thread_paths r !! t) as [a|] eqn:Ea; [|done].
  simpl. destruct (Hp t a Ea) as (m & Hm & Hid). apply with_tables_ok.
  - intros key m' [_ Hk]%lookup_delete_Some. by apply Ht.
  - intros t' a' [Hne Ha']%lookup_delete_Some.
    destruct (Hp t' a' Ha') as (m' & Hm' & Hid'). exists m'. split; [|done].
    simpl. rewrite lookup_delete_ne; [done|]. intros E. rewrite E in Hm. congruence.
Qed.

Lemma register_root_ok t r : tables_ok r -> tables_ok (register_root_thread t r).
Proof.
  intros [Ht Hp]. unfold register_root_thread.
  set (entry := default _ _).
  assert (Htree : forall key m, <[ROOT := entry]> (agent_tree r) !! key = Some m ->
    entry_ok key m).
  { intros key m [[<- <-]|[_ Hk]]%lookup_insert_Some; [|by apply Ht].
    unfold entry. destruct (agent_tree r !! ROOT) eqn:E; [by apply Ht in E|done]. }
  assert (Hthr : forall t' a, thread_paths r !! t' = Some a ->
    exists m, <[ROOT := entry]> (agent_tree r) !! registered_path a = Some m /\ agent_id m = Some t').
  { intros t' a Ha. destruct (Hp t' a Ha) as (m & Hm & Hid). exists m. split; [|done].
    destruct (decide (registered_path a = ROOT)) as [E|]; [|by rewrite lookup_insert_ne].
    rewrite E in *. rewrite lookup_insert_eq. unfold entry. by rewrite Hm. }
  destruct (agent_id entry) as [id|] eqn:Eid; apply with_tables_ok; [exact Htree| |exact Htree|exact Hthr].
  intros t' a [[<- <-]|[_ Ha]]%lookup_insert_Some; [|by apply Hthr].
  simpl. exists entry. by rewrite lookup_insert_eq.
Qed.

Lemma reserve_agent_path_ok p r : tables_ok r -> tables_ok (reserve_agent_path p r).2.
Proof.
  intros [Ht Hp]. unfold reserve_agent_path. destruct (agent_tree r !! as_str p) eqn:E; [done|].
  apply with_tables_ok.
  - intros key m [[<- <-]|[_ Hk]]%lookup_insert_Some; [done|by apply Ht].
  - intros t a Ha. destruct (Hp t a Ha) as (m & Hm & Hid). exists m. split; [|done]. simpl.
    rewrite lookup_insert_ne; [done|]. intros E'. congruence.
Qed.

Lemma release_reserved_ok p r : tables_ok r -> tables_ok (release_reserved_agent_path p r).
Proof.
  intros [Ht Hp]. unfold release_reserved_agent_path.
  destruct (agent_tree r !! as_str p) as [m|] eqn:E; [|done].
  destruct (agent_id m) eqn:Eid; simpl; [done|]. apply with_tables_ok.
  - intros key m' [_ Hk]%lookup_delete_Some. by apply Ht.
  - intros t a Ha. destruct (Hp t a Ha) as (m' & Hm' & Hid). exists m'. split; [|done].
    simpl. rewrite lookup_delete_ne; [done|]. intros E'. congruence.
Qed.

Lemma evicted_ok (f : @RegisteredAgent Env -> RegisteredAgent) t r :
  (forall a, registered_path (f a) = registered_path a) ->
  tables_ok r -> tables_ok (with_tables (agent_tree r) (alter f t (thread_paths r)) r).
Proof.
  intros Hf [Ht Hp]. apply with_tables_ok; [done|]. intros t' a Ha.
  destruct (decide (t = t')) as [<-|Hne]; [|rewrite lookup_alter_ne in Ha by done; by apply Hp].
  rewrite lookup_alter_eq in Ha. apply fmap_Some in Ha as (a' & Ha' & ->). rewrite Hf. by apply Hp.
Qed.

(** What the tables are after a commit. *)
Lemma register_spawned_lookup t m r : tables_ok r -> agent_id m = Some t ->
  let key := meta_key show_thread t m in
  let r' := register_spawned_thread show_thread m r in
  agent_tree r' !! key = Some m
  /\ (forall key', key' <> key -> agent_tree r' !! key'
        = if decide (registered_path <$> thread_paths r !! t = Some key') then None
          else agent_tree r !! key')
  /\ thread_paths r' !! t = Some (new_registered key)
  /\ forall t' a, t' <> t -> thread_paths r' !! t' = Some a ->
       thread_paths r !! t' = Some a /\ registered_path a <> key.
Proof.
  intros [Ht Hp] Hid key r'. unfold r', register_spawned_thread. rewrite Hid. fold key.
  set (tree := match thread_paths r !! t with Some _ => _ | None => _ end).
  assert (Htree : forall key', key' <> key -> tree !! key'
    = if decide (registered_path <$> thread_paths r !! t = Some key') then None
      else agent_tree r !! key').
  { intros key' Hne. unfold tree. destruct (thread_paths r !! t) as [a|].
    - simpl. case_bool_decide as Ea; case_decide as Ed; try congruence.
      + injection Ed as ->. by rewrite lookup_delete_eq.
      + rewrite lookup_delete_ne; [done|]. congruence.
    - by case_decide. }
  assert (Hkey : tree !! key = agent_tree r !! key).
  { unfold tree. destruct (thread_paths r !! t) as [a|]; [|done].
    case_bool_decide; [done|]. by rewrite lookup_delete_ne. }
  simpl. split_and!.
  - by rewrite lookup_insert_eq.
  - intros key' Hne. rewrite lookup_insert_ne by done. by apply Htree.
  - destruct (tree !! key) as [prev|]; [|by rewrite lookup_insert_eq].
    destruct (agent_id prev) as [id|]; [|by rewrite lookup_insert_eq].
    case_bool_decide; [|rewrite lookup_delete_ne by done]; by rewrite lookup_insert_eq.
  - intros t' a Hne Ha.
    assert (Ha' : thread_paths r !! t' = Some a).
    { revert Ha. destruct (tree !! key) as [prev|]; [|by rewrite lookup_insert_ne].
      destruct (agent_id prev) as [id|]; [|by rewrite lookup_insert_ne].
      case_bool_decide; [by rewrite lookup_insert_ne|].
      intros [_ Ha]%lookup_delete_Some. by rewrite lookup_insert_ne in Ha. }
    split; [done|]. intros E. destruct (Hp t' a Ha') as (m' & Hm' & Hid').
    rewrite E in Hm'. revert Ha. rewrite Hkey, Hm', Hid', bool_decide_false by done.
    by rewrite lookup_delete_eq.
Qed.

Lemma register_spawned_ok m r : tables_ok r -> tables_ok (register_spawned_thread show_thread m r).
Proof.
  intros Hok. destruct (agent_id m) as [t|] eqn:Hid.
  2: { unfold register_spawned_thread. by rewrite Hid. }
  destruct (register_spawned_lookup t m r Hok Hid) as (Hk & Hother & Ht & Hthreads).
  destruct Hok as [Htree Hp]. split.
  - intros key m'. destruct (decide (key = meta_key show_thread t m)) as [->|Hne].
    + rewrite Hk. intros [= <-]. unfold entry_ok. destruct (agent_path m) eqn:E; [unfold meta_key; by rewrite E|]. by exists t.
    + rewrite Hother by done. case_decide; [done|]. apply Htree.
  - intros t' a. destruct (decide (t' = t)) as [->|Hne].
    + rewrite Ht. intros [= <-]. by exists m.
    + intros [Ha Hpath]%Hthreads; [|done]. destruct (Hp t' a Ha) as (m' & Hm' & Hid').
      exists m'. split; [|done]. rewrite Hother by done.
      case_decide as Ed; [|done]. apply fmap_Some in Ed as (b & Hb & E).
      destruct (Hp t b Hb) as (mb & Hmb & Hidb). congruence.
Qed.

Definition live (r : Registry) : nat := tally is_live (agent_tree r).

Lemma live_agents_length r : length (live_agents r) = live r.
Proof. done. Qed.

(** ** What the operations do to the number of agents *)

Lemma live_release t r : tables_ok r ->
  live r = live (release_tables t r).2 + (if (release_tables t r).1 then 1 else 0).
Proof.
  intros [Ht Hp]. unfold release_tables, live. destruct (thread_paths r !! t) as [a|] eqn:Ea; [|simpl; lia].
  destruct (Hp t a Ea) as (m & Hm & Hid). simpl.
  rewrite <- (tally_delete is_live (agent_tree r) (registered_path a)), Hm. simpl.
  unfold is_live. rewrite Hid. simpl. done.
Qed.

Lemma root_entry_not_live m : entry_ok ROOT m -> is_live m = false.
Proof.
  unfold entry_ok, is_live, path_is_root, is_root. destruct (agent_path m) as [p|] eqn:Ep.
  - intros ->. rewrite bool_decide_true by done. apply andb_false_r.
  - intros (id & _ & E). unfold meta_key in E. rewrite Ep in E. discriminate E.
Qed.

Lemma live_root t r : tree_ok r -> live (register_root_thread t r) = live r.
Proof.
  intros Ht. unfold register_root_thread. set (entry := default _ _).
  assert (He : entry_ok ROOT entry).
  { unfold entry. destruct (agent_tree r !! ROOT) as [m|] eqn:E; [by apply Ht|done]. }
  assert (live r = tally is_live (<[ROOT := entry]> (agent_tree r))) as ->.
  { symmetry. apply tally_insert_same. simpl. rewrite (root_entry_not_live entry He).
    destruct (agent_tree r !! ROOT) as [m|] eqn:E; [|done]. simpl.
    by rewrite (root_entry_not_live m (Ht _ _ E)). }
  by destruct (agent_id entry).
Qed.

Lemma live_reserve_path p r : live (reserve_agent_path p r).2 = live r.
Proof.
  unfold reserve_agent_path. destruct (agent_tree r !! as_str p) eqn:E; [done|].
  unfold live. simpl. apply tally_insert_same. by rewrite E.
Qed.

Lemma live_release_reserved p r : live (release_reserved_agent_path p r) = live r.
Proof.
  unfold release_reserved_agent_path, live. destruct (agent_tree r !! as_str p) as [m|] eqn:E; [|done].
  destruct (agent_id m) eqn:Eid; simpl; [done|].
  rewrite <- (tally_delete is_live (agent_tree r) (as_str p)), E. simpl.
  unfold is_live. rewrite Eid. simpl. lia.
Qed.

Lemma live_commit_le m r : live (register_spawned_thread show_thread m r) <= live r + 1.
Proof.
  unfold register_spawned_thread, live. destruct (agent_id m) as [t|]; [|simpl; lia]. simpl.
  set (key := meta_key show_thread t m).
  assert (Hd : forall tree, tally is_live tree <= tally is_live (agent_tree r) ->
    tally is_live (<[key := m]> tree) <= tally is_live (agent_tree r) + 1).
  { intros tree Hle. pose proof (tally_insert is_live tree key m) as E. simpl in E.
    destruct (is_live m); lia. }
  apply Hd. destruct (thread_paths r !! t) as [a|]; [|done]. case_bool_decide; [done|].
  pose proof (tally_delete is_live (agent_tree r) (registered_path a)). lia.
Qed.

(** A commit that takes nothing from another agent. *)
Definition fresh_commit (m : Metadata) (r : Registry) : bool :=
  match agent_id m with
  | None => false
  | Some t =>
      is_none (thread_paths r !! t) && negb (path_is_root m)
      && match agent_tree r !! meta_key show_thread t m with
         | Some old => is_none (agent_id old)
         | None => true
         end
  end.

Lemma live_commit_fresh m r : fresh_commit m r = true ->
  live (register_spawned_thread show_thread m r) = live r + 1.
Proof.
  unfold fresh_commit, register_spawned_thread, live. destruct (agent_id m) as [t|] eqn:Hid; [|done].
  destruct (thread_paths r !! t); [done|]. destruct (path_is_root m) eqn:Hroot; [done|]. simpl. intros Hold.
  pose proof (tally_insert is_live (agent_tree r) (meta_key show_thread t m) m) as E.
  assert (tally_opt is_live (agent_tree r !! meta_key show_thread t m) = 0) as Ez.
  { revert Hold. destruct (agent_tree r !! meta_key show_thread t m) as [old|]; [|done].
    unfold is_live. simpl. by destruct (agent_id old). }
  assert (is_live m = true) as El by (unfold is_live; by rewrite Hid, Hroot).
  simpl in E. rewrite El in E. lia.
Qed.

Lemma reservation_nickname_tables names preferred draw draw' s (r : Registry) :
  let r' := (reservation_nickname names preferred draw draw' s r).2 in
  agent_tree r' = agent_tree r /\ thread_paths r' = thread_paths r /\ total_count r' = total_count r.
Proof.
  unfold reservation_nickname, reserve_agent_nickname. repeat case_match; simplify_eq; done.
Qed.

(** ** The ledger of the count *)

Definition takes_slot (t : task) : bool := match t with Trying _ _ => false | _ => true end.

Definition slots (w : world) : nat := tally takes_slot (tasks w).

(** What is accounted for: agents, and reservations and releases under way. *)
Definition accounted (w : world) : N := N.of_nat (live (shared w) + slots w).

Lemma slots_set k t r w :
  slots (set_task k t r w) + tally_opt takes_slot (tasks w !! k) = slots w + tally_opt takes_slot (Some t).
Proof. apply tally_insert. Qed.

Lemma slots_end k r w : slots (end_task k r w) + tally_opt takes_slot (tasks w !! k) = slots w.
Proof. apply tally_delete. Qed.

Lemma fetch_sub_exact (r : Registry) :
  (0 < total_count r < 2 ^ 64)%N -> total_count (fetch_sub r) = (total_count r - 1)%N.
Proof.
  intros Hc. simpl. replace (total_count r + (2 ^ 64 - 1))%N with (total_count r - 1 + 1 * 2 ^ 64)%N by lia.
  rewrite N.Div0.mod_add. apply N.mod_small. lia.
Qed.

Lemma fetch_add_exact (r : Registry) :
  (total_count r + 1 < 2 ^ 64)%N -> total_count (fetch_add r) = (total_count r + 1)%N.
Proof. intros Hc. simpl. by apply N.mod_small. Qed.

(** The tables may change, and what is accounted for with the count. *)
Definition balanced (lost : N) (w w' : world) : Prop :=
  tables_ok (shared w')
  /\ (total_count (shared w') + accounted w = total_count (shared w) + accounted w' + lost)%N.

Lemma balanced_shared r' w :
  tables_ok r' -> live r' = live (shared w) -> total_count r' = total_count (shared w) ->
  balanced 0 w (mkWorld r' (tasks w)).
Proof. intros Hok Hl Hc. split; [done|]. unfold accounted, slots. simpl. lia. Qed.

(** A task that keeps its slot, or goes on without one. *)
Lemma balanced_task k t t' r' w :
  tables_ok r' -> live r' = live (shared w) -> total_count r' = total_count (shared w) ->
  tasks w !! k = Some t -> takes_slot t' = takes_slot t ->
  balanced 0 w (set_task k t' r' w).
Proof.
  intros Hok Hl Hc Ht Hs. split; [done|]. pose proof (slots_set k t' r' w) as E.
  rewrite Ht in E. simpl in E. rewrite Hs in E. unfold accounted. simpl. lia.
Qed.

(** Unlimited requests do not wrap the count. *)
Definition in_range (e : event) (w : world) : Prop :=
  match e with
  | Reserve _ None => (total_count (shared w) + 1 < 2 ^ 64)%N
  | _ => True
  end.

Lemma exchange_balanced k spurious max current w :
  tables_ok (shared w) -> tasks w !! k = Some (Trying max current) ->
  balanced 0 w (exchange k spurious max current w).
Proof.
  intros Hok Ht. unfold exchange. destruct (max <=? current)%N.
  { split; [done|]. pose proof (slots_end k (shared w) w) as E. rewrite Ht in E. simpl in E.
    unfold accounted. simpl. lia. }
  destruct (_ && _) eqn:E; [|by eapply balanced_task].
  apply andb_prop in E as [E _]. apply N.eqb_eq in E. subst current. split; [done|].
  pose proof (slots_set k (Holding fresh_reservation) (with_count (total_count (shared w) + 1) (shared w)) w) as E.
  rewrite Ht in E. simpl in E. unfold accounted, live in *. simpl. lia.
Qed.

Lemma give_back_balanced k t w :
  tables_ok (shared w) -> (accounted w <= total_count (shared w) < 2 ^ 64)%N ->
  tasks w !! k = Some t -> takes_slot t = true ->
  balanced 0 w (end_task k (fetch_sub (shared w)) w).
Proof.
  intros Hok Hc Ht Hs. split; [done|]. pose proof (slots_end k (fetch_sub (shared w)) w) as E.
  rewrite Ht in E. simpl in E. rewrite Hs in E. unfold accounted in *.
  pose proof (fetch_sub_exact (shared w) ltac:(lia)) as Ef. cbn [shared end_task] in *. rewrite Ef.
  change (live (fetch_sub (shared w))) with (live (shared w)). lia.
Qed.

Lemma reserve_balanced k w :
  tables_ok (shared w) -> (total_count (shared w) + 1 < 2 ^ 64)%N -> tasks w !! k = None ->
  balanced 0 w (set_task k (Holding fresh_reservation) (fetch_add (shared w)) w).
Proof.
  intros Hok Hc Ht. split; [done|].
  pose proof (slots_set k (Holding fresh_reservation) (fetch_add (shared w)) w) as E.
  rewrite Ht in E. simpl in E. unfold accounted in *.
  pose proof (fetch_add_exact (shared w) Hc) as Ef. cbn [shared set_task] in *. rewrite Ef.
  change (live (fetch_add (shared w))) with (live (shared w)). lia.
Qed.

Lemma commit_balanced k s m w :
  tables_ok (shared w) -> tasks w !! k = Some (Holding s) ->
  exists lost, balanced lost w (end_task k (register_spawned_thread show_thread m (shared w)) w)
    /\ (fresh_commit m (shared w) = true -> lost = 0%N).
Proof.
  intros Hok Ht. set (r' := register_spawned_thread _ _ _).
  pose proof (slots_end k r' w) as E. rewrite Ht in E. simpl in E.
  pose proof (live_commit_le m (shared w)) as Hle. fold r' in Hle.
  exists (N.of_nat (live (shared w) + 1 - live r')). split; [split|].
  - apply (register_spawned_ok m _ Hok).
  - assert (total_count r' = total_count (shared w)) as Hc.
    { unfold r', register_spawned_thread. by destruct (agent_id m). }
    unfold accounted. cbn [shared end_task] in *. lia.
  - intros Hf%live_commit_fresh. fold r' in Hf. lia.
Qed.

Lemma release_balanced k t w :
  tables_ok (shared w) -> tasks w !! k = None ->
  balanced 0 w (let '(counted, r) := release_tables t (shared w) in
                if counted then set_task k Releasing r w else end_task k r w).
Proof.
  intros Hok Ht. pose proof (live_release t (shared w) Hok) as Hl.
  pose proof (release_tables_ok t (shared w) Hok) as Hok'.
  assert (total_count (release_tables t (shared w)).2 = total_count (shared w)) as Hc.
  { unfold release_tables. by destruct (thread_paths (shared w) !! t). }
  destruct (release_tables t (shared w)) as [counted r]. simpl in *. split; [by destruct counted|].
  pose proof (slots_set k Releasing r w) as Es. pose proof (slots_end k r w) as Ee.
  rewrite Ht in Es, Ee. simpl in Es, Ee. unfold accounted. destruct counted; simpl; lia.
Qed.

Lemma step_balanced e w w' :
  tables_ok (shared w) -> (accounted w <= total_count (shared w) < 2 ^ 64)%N -> in_range e w ->
  step e w = Some w' ->
  exists lost, balanced lost w w'
    /\ ((forall k m, e = Commit k m -> fresh_commit m (shared w) = true) -> lost = 0%N).
Proof.
  intros Hok Hc Hr Hstep.
  assert (H0 : (exists k m, e = Commit k m) \/ balanced 0 w w' -> exists lost, balanced lost w w'
    /\ ((forall k m, e = Commit k m -> fresh_commit m (shared w) = true) -> lost = 0%N)).
  { intros [(k & m & ->)|H0]; [|by exists 0%N]. simpl in Hstep.
    destruct (tasks w !! k) as [[]|] eqn:Et; try discriminate. injection Hstep as <-.
    destruct (commit_balanced k s m w Hok Et) as (lost & Hb & Hf). exists lost. split; [done|].
    intros Hall. by apply Hf, (Hall k). }
  apply H0. destruct e; try (left; by eauto); right; simpl in Hstep.
  - destruct max_threads as [max|]; destruct (tasks w !! k) eqn:Et; try discriminate;
      injection Hstep as <-; [|by apply reserve_balanced].
    split; [done|]. pose proof (slots_set k (Trying max (total_count (shared w))) (shared w) w) as E.
    rewrite Et in E. simpl in E. unfold accounted. simpl. lia.
  - destruct (tasks w !! k) as [[]|] eqn:Et; try discriminate. injection Hstep as <-.
    by apply exchange_balanced.
  - destruct (tasks w !! k) as [[| s | |]|] eqn:Et; try discriminate.
    pose proof (reserve_agent_path_ok p (shared w) Hok) as Hok'.
    pose proof (live_reserve_path p (shared w)) as Hl.
    assert (total_count (reserve_agent_path p (shared w)).2 = total_count (shared w)) as Hc'.
    { unfold reserve_agent_path. by destruct (agent_tree (shared w) !! as_str p). }
    unfold reservation_path in Hstep. destruct (reserve_agent_path p (shared w)) as [[] r'];
      injection Hstep as <-; by eapply balanced_task.
  - destruct (tasks w !! k) as [[| s | |]|] eqn:Et; try discriminate.
    pose proof (reservation_nickname_tables names preferred draw draw' s (shared w)) as (H1 & H2 & H3).
    destruct (reservation_nickname _ _ _ _ _ _) as [[res s'] r']. injection Hstep as <-. simpl in *.
    eapply balanced_task; [by eapply tables_ok_same|unfold live; by rewrite H1|done..].
  - destruct (tasks w !! k) as [[| s | |]|] eqn:Et; try discriminate. injection Hstep as <-.
    unfold drop_path. destruct (reserved_agent_path s) as [p|]; [|by eapply balanced_task].
    eapply balanced_task; [by apply release_reserved_ok|by apply live_release_reserved| |done..].
    unfold release_reserved_agent_path. by repeat case_match.
  - destruct (tasks w !! k) as [[]|] eqn:Et; try discriminate; injection Hstep as <-;
      by eapply give_back_balanced.
  - destruct (tasks w !! k) eqn:Et; try discriminate. pose proof (release_balanced k thread_id w Hok Et) as Hb.
    destruct (release_tables thread_id (shared w)) as [[] r]; by injection Hstep as <-.
  - injection Hstep as <-. destruct Hok as [Htree Hthreads].
    apply balanced_shared; [by apply register_root_ok|by apply live_root|].
    unfold register_root_thread. by destruct (agent_id _).
  - injection Hstep as <-. apply balanced_shared; [|done..]. by apply evicted_ok.
  - injection Hstep as <-. apply balanced_shared; [|done..]. by apply evicted_ok.
Qed.

(** How far one event moves the count. *)
Lemma step_count e w w' : step e w = Some w' ->
  total_count (shared w') = total_count (shared w)
  \/ (exists k, e = GiveBack k /\ total_count (shared w') = total_count (fetch_sub (shared w)))
  \/ (exists k, e = Reserve k None /\ total_count (shared w') = total_count (fetch_add (shared w)))
  \/ (exists k max, tasks w !! k = Some (Trying max (total_count (shared w)))
       /\ (total_count (shared w) < max)%N
       /\ total_count (shared w') = (total_count (shared w) + 1)%N).
Proof.
  intros Hstep. destruct e; simpl in Hstep.
  - destruct max_threads, (tasks w !! k); try discriminate; injection Hstep as <-; [by left|].
    right. right. left. by exists k.
  - destruct (tasks w !! k) as [[max current| | |]|] eqn:Et; try discriminate. injection Hstep as <-.
    unfold exchange. destruct (max <=? current)%N eqn:Em; [by left|]. apply N.leb_gt in Em.
    destruct (_ && _) eqn:E; [|by left]. apply andb_prop in E as [->%N.eqb_eq _].
    right. right. right. by exists k, max.
  - left. destruct (tasks w !! k) as [[| s | |]|]; try discriminate.
    unfold reservation_path, reserve_agent_path in Hstep.
    by destruct (agent_tree (shared w) !! as_str p); injection Hstep as <-.
  - left. destruct (tasks w !! k) as [[| s | |]|]; try discriminate.
    pose proof (reservation_nickname_tables names preferred draw draw' s (shared w)) as (_ & _ & E).
    destruct (reservation_nickname _ _ _ _ _ _) as [[res s'] r']. by injection Hstep as <-.
  - left. destruct (tasks w !! k) as [[| s | |]|]; try discriminate. injection Hstep as <-.
    simpl. unfold register_spawned_thread. by destruct (agent_id m).
  - left. destruct (tasks w !! k) as [[| s | |]|]; try discriminate. injection Hstep as <-.
    simpl. unfold drop_path, release_reserved_agent_path. by repeat case_match.
  - right. left. exists k. split; [done|].
    by destruct (tasks w !! k) as [[]|]; try discriminate; injection Hstep as <-.
  - left. destruct (tasks w !! k); try discriminate. unfold release_tables in Hstep.
    by destruct (thread_paths (shared w) !! thread_id); simpl in Hstep; [case_match|]; injection Hstep as <-.
  - left. injection Hstep as <-. simpl. unfold register_root_thread. by destruct (agent_id _).
  - left. by injection Hstep as <-.
  - left. by injection Hstep as <-.
Qed.

(** Giving back never takes the count below zero. *)
Lemma give_back_count k w w' : step (GiveBack k) w = Some w' ->
  (accounted w <= total_count (shared w) < 2 ^ 64)%N ->
  total_count (fetch_sub (shared w)) = (total_count (shared w) - 1)%N.
Proof.
  intros Hstep Hc. simpl in Hstep.
  assert (Hs : exists t, tasks w !! k = Some t /\ takes_slot t = true)
    by (destruct (tasks w !! k) as [[]|]; try discriminate; by eexists).
  destruct Hs as (t & Ht & Hs). pose proof (slots_end k (shared w) w) as Ee.
  rewrite Ht in Ee. simpl in Ee. rewrite Hs in Ee. unfold accounted in Hc.
  apply fetch_sub_exact. lia.
Qed.

(** Who is trying was let to try. *)
Lemma step_trying e w w' k max current : step e w = Some w' ->
  tasks w' !! k = Some (Trying max current) ->
  e = Reserve k (Some max) \/ exists c, tasks w !! k = Some (Trying max c).
Proof.
  intros Hstep Ht. destruct e; simpl in Hstep; unfold exchange in *;
    repeat case_match; simplify_eq; simpl in Ht;
    repeat match goal with
      | H : <[_ := _]> _ !! _ = Some _ |- _ => apply lookup_insert_Some in H as [[? ?]|[? ?]]
      | H : delete _ _ !! _ = Some _ |- _ => apply lookup_delete_Some in H as [? ?]
    end; simplify_eq; eauto.
Qed.

(** ** Theorems *)

(** Every request has the same limit. *)
Definition limited (max_threads : N) (e : event) (_ : world) : Prop :=
  forall k m, e = Reserve k m -> m = Some max_threads.

Definition within (max_threads : N) (w : world) : Prop :=
  tables_ok (shared w) /\ (accounted w <= total_count (shared w) <= max_threads)%N
  /\ forall k max current, tasks w !! k = Some (Trying max current) -> max = max_threads.

Lemma tables_ok_empty : tables_ok empty_registry.
Proof. split; intros ? ? Hl; simpl in Hl; by apply lookup_empty_Some in Hl. Qed.

Lemma accounted_start : accounted start = 0%N.
Proof. reflexivity. Qed.

Lemma limited_within max_threads n w :
  (max_threads < 2 ^ 64)%N -> reached (limited max_threads) n w -> within max_threads w.
Proof.
  intros HM. induction 1 as [|n e w w' _ (Hok & Hc & Htry) Hallowed Hstep].
  { split; [apply tables_ok_empty|]. split; [rewrite accounted_start; simpl; lia|].
    intros ? ? ? Hl. simpl in Hl. by apply lookup_empty_Some in Hl. }
  destruct (step_balanced e w w') as (lost & (Hok' & Hb) & _); [done|lia| |done|].
  { destruct e as [k [m|]| | | | | | | | | |]; simpl; try done. by specialize (Hallowed k None eq_refl). }
  split; [done|]. split; [split; [lia|]|].
  - destruct (step_count e w w' Hstep) as [->|[(k & -> & Hg)|[(k & -> & _)|(k & max & Ht & Hlt & ->)]]].
    + lia.
    + rewrite Hg, (give_back_count k w w') by (done || lia). lia.
    + by specialize (Hallowed k None eq_refl).
    + apply Htry in Ht as ->. lia.
  - intros k max current Ht. destruct (step_trying e w w' k max current Hstep Ht) as [->|[c Ht']].
    + specialize (Hallowed k (Some max) eq_refl). congruence.
    + by eapply Htry.
Qed.

(** C14: While every request carries the same limit, in whatever order the atomic
    actions of any tasks interleave and whichever exchanges fail, the agents of the
    session together with the reservations and releases under way never exceed it,
    the count never goes below them, and a registered thread is the one its path
    leads to. *)
Theorem agents_within_limit max_threads n w :
  (max_threads < 2 ^ 64)%N -> reached (limited max_threads) n w ->
  (N.of_nat (length (live_agents (shared w)) + slots w) <= total_count (shared w) <= max_threads)%N
  /\ forall t m, agent_metadata_for_thread t (shared w) = Some m ->
       agent_id m = Some t
       /\ forall p, agent_path m = Some p -> agent_id_for_path p (shared w) = Some t.
Proof.
  intros HM Hr. destruct (limited_within max_threads n w HM Hr) as ([Htree Hthreads] & Hc & _).
  split; [exact Hc|]. intros t m. unfold agent_metadata_for_thread, agent_id_for_path.
  destruct (thread_paths (shared w) !! t) as [a|] eqn:Ea; [|done]. intros Hm.
  destruct (Hthreads t a Ea) as (m' & Hm' & Hid). assert (m' = m) as -> by congruence.
  split; [done|]. intros p Hp. pose proof (Htree _ _ Hm) as He. unfold entry_ok in He.
  rewrite Hp in He. by rewrite He, Hm.
Qed.

(** Every commit is of a new agent; requests may be unlimited. *)
Definition fresh_commits (e : event) (w : world) : Prop :=
  forall k m, e = Commit k m -> fresh_commit m (shared w) = true.

Lemma fresh_exact n w : (N.of_nat n < 2 ^ 64)%N -> reached fresh_commits n w ->
  tables_ok (shared w) /\ total_count (shared w) = accounted w /\ (accounted w <= N.of_nat n)%N.
Proof.
  intros Hn. induction 1 as [|n e w w' _ IH Hallowed Hstep].
  { split; [apply tables_ok_empty|]. by rewrite accounted_start. }
  destruct IH as (Hok & Hc & Hle); [lia|].
  destruct (step_balanced e w w') as (lost & (Hok' & Hb) & Hl); [done|lia| |done|].
  { destruct e as [k [m|]| | | | | | | | | |]; simpl; try done. lia. }
  specialize (Hl Hallowed). subst lost. split; [done|].
  split; [lia|]. destruct (step_count e w w' Hstep) as [E|[(k & -> & E)|[(k & -> & E)|(k & max & _ & _ & E)]]].
  - lia.
  - rewrite (give_back_count k w w') in E by (done || lia). lia.
  - rewrite fetch_add_exact in E; lia.
  - lia.
Qed.

(** No slot is lost or given back twice: as long as commits are of new agents,
    the count is exactly the agents plus the reservations and releases under way,
    so a request that has just read the count is refused exactly when that many
    slots are taken, and after the last task only the agents count. *)
Theorem no_slot_lost n w :
  (N.of_nat n < 2 ^ 64)%N -> reached fresh_commits n w ->
  total_count (shared w) = N.of_nat (length (live_agents (shared w)) + slots w)
  /\ (forall k max spurious, tasks w !! k = Some (Trying max (total_count (shared w))) ->
       step (Exchange k spurious) w = Some (end_task k (shared w) w)
       <-> (max <= N.of_nat (length (live_agents (shared w)) + slots w))%N)
  /\ (tasks w = ∅ -> total_count (shared w) = N.of_nat (length (live_agents (shared w)))).
Proof.
  intros Hn Hr. destruct (fresh_exact n w Hn Hr) as (_ & Hc & _).
  assert (E : total_count (shared w) = N.of_nat (length (live_agents (shared w)) + slots w)) by done.
  split_and!; [done| |].
  - intros k max spurious Ht. simpl. rewrite Ht. unfold exchange. rewrite <- E.
    destruct (max <=? total_count (shared w))%N eqn:Em; [apply N.leb_le in Em; done|].
    apply N.leb_gt in Em. split; [|lia]. intros [= Heq]. exfalso.
    assert (Hk : tasks (end_task k (shared w) w) !! k = None) by (simpl; apply lookup_delete_eq).
    rewrite <- Heq in Hk. destruct (_ && _); simpl in Hk; by rewrite lookup_insert_eq in Hk.
  - intros He. rewrite E. unfold slots. rewrite He. f_equal. change (tally takes_slot ∅) with 0. lia.
Qed.
End slots.

(** ** Concrete runs *)

Abbreviation demo_world := (@world N unit _ _) (only parsing).
Abbreviation demo_event := (@event N unit) (only parsing).

(** A run whose events all pass a check. *)
Fixpoint run (ok : demo_event -> demo_world -> bool) (es : list demo_event) (w : demo_world)
  : option demo_world :=
  match es with
  | [] => Some w
  | e :: es =>
      if ok e w then match step show_N e w with Some w => run ok es w | None => None end else None
  end.

Lemma run_reached ok (allowed : demo_event -> demo_world -> Prop) es :
  (forall e v, ok e v = true -> allowed e v) -> forall n w w',
  reached show_N allowed n w -> run ok es w = Some w' -> reached show_N allowed (n + length es) w'.
Proof.
  intros Hok. induction es as [|e es IH]; simpl; intros n w w' Hr Hrun; [injection Hrun as <-; by rewrite Nat.add_0_r|].
  destruct (ok e w) eqn:Ee; [|done]. destruct (step show_N e w) as [v|] eqn:Es; [|done].
  rewrite <- Nat.add_succ_comm. apply (IH (S n) v w'); [|done].
  eapply reached_step; [exact Hr|by apply Hok|exact Es].
Qed.

Definition any_event (_ : demo_event) (_ : demo_world) : bool := true.
Definition one_slot (e : demo_event) (_ : demo_world) : bool :=
  match e with Reserve _ m => bool_decide (m = Some 1%N) | _ => true end.
Definition new_agents (e : demo_event) (w : demo_world) : bool :=
  match e with Commit _ m => fresh_commit show_N m (shared w) | _ => true end.

Definition demo_meta (t : N) (p : option AgentPath) : @AgentMetadata N :=
  mkMeta (Some t) p (Some ($"Ada")) None.

(** Two requests race for one slot, the loser is refused; the winner commits. *)
Definition race : list demo_event :=
  [Reserve 0 (Some 1%N); Reserve 1 (Some 1%N); Exchange 1 true; Exchange 0 false; Exchange 1 false;
   Exchange 1 false; TakePath 0 (mkAgentPath ($"/root/a")); TakeNickname 0 [$"Ada"] None 5 0;
   Commit 0 (demo_meta 7 (Some (mkAgentPath ($"/root/a"))))].

(** A thread registered a second time leaves a slot taken after it is released. *)
Definition registered_twice : list demo_event :=
  [Reserve 0 None; Commit 0 (demo_meta 7 None); Reserve 0 None; Commit 0 (demo_meta 7 None);
   Release 0 7%N; GiveBack 0].

Example slot_leaks_when_registered_twice :
  match run any_event registered_twice start with
  | Some w => total_count (shared w) = 1%N /\ live_agents (shared w) = [] /\ tasks w = ∅
  | None => False
  end.
Proof. vm_compute. auto. Qed.

Lemma agents_within_limit_witness :
  match run one_slot race start with
  | Some w => (N.of_nat (length (live_agents (shared w)) + slots w) <= total_count (shared w) <= 1)%N
              /\ agent_id_for_path (mkAgentPath ($"/root/a")) (shared w) = Some 7%N
  | None => False
  end.
Proof.
  assert (Hok : match run one_slot race start with
    | Some w => bool_decide (agent_metadata_for_thread 7%N (shared w)
                             = Some (demo_meta 7 (Some (mkAgentPath ($"/root/a")))))
    | None => false
    end = true) by (vm_compute; reflexivity).
  destruct (run one_slot race start) as [w|] eqn:E; [|discriminate Hok]. apply bool_decide_eq_true in Hok.
  assert (Hr : reached show_N (limited 1) (0 + length race) w).
  { eapply run_reached; [|constructor|exact E]. intros e v He k m ->. by apply bool_decide_eq_true in He. }
  destruct (agents_within_limit show_N 1 _ w eq_refl Hr) as [Hc Hd]. split; [exact Hc|].
  destruct (Hd 7%N _ Hok) as [_ Hp]. by apply Hp.
Defined.

Lemma no_slot_lost_witness :
  match run new_agents race start with
  | Some w => tasks w = ∅ /\ total_count (shared w) = N.of_nat (length (live_agents (shared w)))
  | None => False
  end.
Proof.
  assert (Hok : match run new_agents race start with
    | Some w => match tasks w !! 0 with None => is_empty (map_to_list (tasks w)) | _ => false end
    | None => false
    end = true) by (vm_compute; reflexivity).
  destruct (run new_agents race start) as [w|] eqn:E; [|discriminate Hok].
  destruct (tasks w !! 0); [discriminate Hok|].
  apply is_empty_true, map_to_list_empty_iff in Hok.
  assert (Hr : reached show_N (fresh_commits show_N) (0 + length race) w).
  { eapply run_reached; [|constructor|exact E]. intros e v He k m ->. exact He. }
  split; [exact Hok|].
  destruct (no_slot_lost show_N (0 + length race) w ltac:(reflexivity) Hr) as (_ & _ & H). exact (H Hok).
Defined.
