(* ===== verification/Residency.v ===== *)
(** * Agents kept loaded (core/src/agent/control/residency.rs)

    Version-2 agents may outnumber the threads kept in memory: a new one takes a
    slot, and the least recently used idle thread is unloaded to make room.  The
    lock is taken for each operation on the queue and released in between, so
    that a reservation is a sequence of steps, and those of other reservations
    and other operations may come between any two of them.  What a look at a
    thread finds - whether it is loaded and counts, is idle, shuts down - comes
    with the step, anew each time. *)

From S2P Require Import Prelude RustStr.

Section residency.
Context {ThreadId : Type} `{EqDecision ThreadId}.

(** ** State and atomic operations *)

Record V2ResidencyState : Type := mkResidency {
  residents : list ThreadId;
  pending_slots : N;
}.

Definition remove_resident (t : ThreadId) (l : list ThreadId) : list ThreadId :=
  List.filter (fun x => negb (bool_decide (x = t))) l.

Definition touch_resident (t : ThreadId) (l : list ThreadId) : list ThreadId := remove_resident t l ++ [t].

Definition touch (t : ThreadId) (s : V2ResidencyState) : V2ResidencyState :=
  mkResidency (touch_resident t (residents s)) (pending_slots s).

Definition remove (t : ThreadId) (s : V2ResidencyState) : V2ResidencyState :=
  mkResidency (remove_resident t (residents s)) (pending_slots s).

Definition release_pending_slot (s : V2ResidencyState) : V2ResidencyState :=
  mkResidency (residents s) (pending_slots s - 1).

Definition commit_slot (t : ThreadId) (s : V2ResidencyState) : V2ResidencyState :=
  touch t (release_pending_slot s).

Definition occupied (s : V2ResidencyState) : N :=
  sat_add (N.of_nat (length (residents s))) (pending_slots s).

Definition try_reserve_pending_slot (capacity : N) (s : V2ResidencyState) : bool * V2ResidencyState :=
  if (capacity <=? occupied s)%N then (false, s)
  else (true, mkResidency (residents s) (pending_slots s + 1)).

(** The front resident that is not protected; the protected one goes to the back. *)
Fixpoint pop_scan (protected : option ThreadId) (fuel : nat) (l : list ThreadId)
  : option ThreadId * list ThreadId :=
  match fuel, l with
  | S fuel, t :: l =>
      if bool_decide (Some t = protected) then pop_scan protected fuel (l ++ [t]) else (Some t, l)
  | _, _ => (None, l)
  end.

Definition pop_lru_candidate (protected : option ThreadId) (s : V2ResidencyState)
  : option ThreadId * V2ResidencyState :=
  let '(t, l) := pop_scan protected (length (residents s)) (residents s) in
  (t, mkResidency l (pending_slots s)).

(** ** A reservation *)

(** What a look at a thread finds. *)
Inductive Look : Type :=
| NotLoaded   (* unknown to the manager, or not a version-2 agent *)
| Busy        (* not finished, in a turn, or with mail *)
| ShutdownFailed
| Unloaded.

(** Where the loop of [reserve_slot] and that of [try_unload_one_resident] are. *)
Inductive Point : Type :=
| Trying                                  (* about to try for a slot *)
| Counting                                (* refused, about to count the residents *)
| Scanning (turns : nat)
| Looking (t : ThreadId) (turns : nat)    (* taken from the queue *)
| Returning (t : ThreadId) (turns : nat)
| Reserved                                (* a slot is held *)
| Failed
| Finished.                               (* committed, released or cancelled *)

#[export] Instance Point_eq_dec : EqDecision Point.
Proof. solve_decision. Defined.

(** [refusals] and [unloads] record what has happened. *)
Record Reservation : Type := mkReservation {
  point : Point;
  protected : option ThreadId;
  refusals : nat;
  unloads : list ThreadId;
}.

Definition at_point (p : Point) (r : Reservation) : Reservation :=
  mkReservation p (protected r) (refusals r) (unloads r).

(** A step of a reservation: one use of the lock, or one look. *)
Definition reserve_slot (capacity : N) (look : Look) (r : Reservation) (s : V2ResidencyState)
  : option (Reservation * V2ResidencyState) :=
  match point r with
  | Trying =>
      let '(reserved, s) := try_reserve_pending_slot capacity s in
      Some (if reserved : bool then at_point Reserved r
            else mkReservation Counting (protected r) (S (refusals r)) (unloads r), s)
  | Counting => Some (at_point (Scanning (length (residents s))) r, s)
  | Scanning O => Some (at_point Failed r, s)
  | Scanning (S turns) =>
      match pop_lru_candidate (protected r) s with
      | (None, s) => Some (at_point Failed r, s)
      | (Some t, s) => Some (at_point (Looking t turns) r, s)
      end
  | Looking t turns =>
      match look with
      | NotLoaded => Some (at_point (Scanning turns) r, s)
      | Busy | ShutdownFailed => Some (at_point (Returning t turns) r, s)
      | Unloaded => Some (mkReservation Trying (protected r) (refusals r) (unloads r ++ [t]), s)
      end
  | Returning t turns => Some (at_point (Scanning turns) r, touch t s)
  | Reserved | Failed | Finished => None
  end.

Definition in_progress (p : Point) : bool :=
  match p with Reserved | Failed | Finished => false | _ => true end.

Definition held_at (p : Point) : option ThreadId :=
  match p with Looking t _ | Returning t _ => Some t | _ => None end.

(** ** All reservations *)

(** [adopted]: how often a thread came in by being touched alone. *)
Record world : Type := mkWorld {
  state : V2ResidencyState;
  reservations : list Reservation;
  adopted : nat;
}.

Definition start : world := mkWorld (mkResidency [] 0) [] 0.

Inductive event : Type :=
| Begin (p : option ThreadId)
| Step (i : nat) (look : Look)
| Cancel (i : nat)                 (* the future of a reservation is dropped *)
| Commit (i : nat) (t : ThreadId)
| Release (i : nat)                (* its slot is dropped *)
| Touched (t : ThreadId)           (* [touch_loaded_v2_residency] *)
| Removed (t : ThreadId).          (* [forget_v2_residency] *)

Definition count_points (p : Point -> bool) (l : list Reservation) : nat :=
  length (List.filter (fun r => p (point r)) l).

#[global] Arguments count_points : simpl never.

Definition is_reserved (p : Point) : bool := match p with Reserved => true | _ => false end.

Definition held (w : world) : list ThreadId := omap (fun r => held_at (point r)) (reservations w).

(** What is kept: in the queue, or taken from it by a reservation. *)
Definition kept (w : world) (t : ThreadId) : Prop := t ∈ residents (state w) \/ t ∈ held w.

#[export] Instance kept_dec w t : Decision (kept w t).
Proof. unfold kept. apply _. Defined.

(** The reservation [i] at a point that fits moves on. *)
Definition move (w : world) (i : nat) (fits : Point -> bool) (s : V2ResidencyState) : option world :=
  r ← reservations w !! i;
  if fits (point r) then Some (mkWorld s (<[i := at_point Finished r]> (reservations w)) (adopted w)) else None.

(** [limit]: how many reservations are in progress at once, at most. *)
Definition step (capacity : N) (limit : nat) (e : event) (w : world) : option world :=
  let s := state w in
  match e with
  | Begin p =>
      if decide (count_points in_progress (reservations w) < limit)
      then Some (mkWorld s (reservations w ++ [mkReservation Trying p 0 []]) (adopted w)) else None
  | Step i look =>
      r ← reservations w !! i;
      '(r, s) ← reserve_slot capacity look r s;
      Some (mkWorld s (<[i := r]> (reservations w)) (adopted w))
  | Cancel i => move w i in_progress s
  | Commit i t => move w i is_reserved (commit_slot t s)
  | Release i => move w i is_reserved (release_pending_slot s)
  | Touched t =>
      Some (mkWorld (touch t s) (reservations w) (if decide (kept w t) then adopted w else S (adopted w)))
  | Removed t => Some (mkWorld (remove t s) (reservations w) (adopted w))
  end.

Inductive reached (capacity : N) (limit : nat) : world -> Prop :=
| reached_start : reached capacity limit start
| reached_step w e w' : reached capacity limit w -> step capacity limit e w = Some w' -> reached capacity limit w'.

(** ** The queue *)

(** The reservation may take it. *)
Definition candidate (protected : option ThreadId) (t : ThreadId) : bool :=
  negb (bool_decide (Some t = protected)).

Lemma remove_fresh t l : t ∉ l -> remove_resident t l = l.
Proof.
  intros Ht. unfold remove_resident. induction l as [|x l IH]; [done|]. simpl.
  apply not_elem_of_cons in Ht as [Hx Ht]. rewrite bool_decide_false by done. simpl. by rewrite IH.
Qed.

(** What a pop does to the queue: the candidates lose their first, all else stays. *)
Lemma pop_spec protected l : NoDup l ->
  let '(o, l') := pop_scan protected (length l) l in
  o = head (List.filter (candidate protected) l)
  /\ List.filter (candidate protected) l' = tail (List.filter (candidate protected) l)
  /\ Permutation l (match o with Some t => t :: l' | None => l' end).
Proof.
  intros Hnd. destruct l as [|t l]; [done|]. simpl.
  change (candidate protected t) with (negb (bool_decide (Some t = protected))).
  case_bool_decide as Et; simpl; [|done].
  apply NoDup_cons in Hnd as [Ht Hnd].
  assert (Hp : candidate protected t = false) by (unfold candidate; by rewrite bool_decide_true).
  destruct l as [|u l]; simpl; [by rewrite Hp|].
  assert (Hu : bool_decide (Some u = protected) = false).
  { apply bool_decide_false. intros E. rewrite <- Et in E. injection E as ->. apply Ht. left. }
  change (candidate protected u) with (negb (bool_decide (Some u = protected))).
  rewrite Hu. simpl. split_and!; [done| |].
  - rewrite List.filter_app. simpl. rewrite Hp. apply app_nil_r.
  - rewrite <- Permutation_cons_append. apply Permutation_swap.
Qed.

Lemma filter_perm {A} (p : A -> bool) l k :
  Permutation l k -> Permutation (List.filter p l) (List.filter p k).
Proof.
  induction 1 as [|x l k _ IH|x y l|]; simpl; [done| | |by etrans].
  - by destruct (p x); rewrite ?IH.
  - destruct (p x), (p y); try done. apply Permutation_swap.
Qed.

Lemma pop_facts p s : NoDup (residents s) ->
  let '(o, s') := pop_lru_candidate p s in
  o = head (List.filter (candidate p) (residents s)) /\ pending_slots s' = pending_slots s
  /\ Permutation (residents s) (match o with Some t => t :: residents s' | None => residents s' end).
Proof.
  intros Hnd. unfold pop_lru_candidate. pose proof (pop_spec p (residents s) Hnd) as Hp.
  destruct (pop_scan _ _ _) as [o l]. destruct Hp as (? & _ & ?). by split_and!.
Qed.

Lemma elem_of_remove_resident t x l : x ∈ remove_resident t l <-> x <> t /\ x ∈ l.
Proof.
  unfold remove_resident. rewrite !list_elem_of_In, filter_In, negb_true_iff, bool_decide_eq_false. tauto.
Qed.

Lemma elem_of_touch t x s : x ∈ residents (touch t s) <-> x = t \/ x ∈ residents s.
Proof.
  unfold touch, touch_resident. cbn [residents]. rewrite elem_of_app, elem_of_remove_resident, list_elem_of_singleton.
  destruct (decide (x = t)); naive_solver.
Qed.

Lemma NoDup_remove_resident t l : NoDup l -> NoDup (remove_resident t l).
Proof. intros Hl. unfold remove_resident. apply NoDup_ListNoDup, List.NoDup_filter, NoDup_ListNoDup, Hl. Qed.

Lemma NoDup_touch t s : NoDup (residents s) -> NoDup (residents (touch t s)).
Proof.
  intros Hnd. unfold touch, touch_resident. cbn [residents]. apply NoDup_app. split; [by apply NoDup_remove_resident|].
  split; [|apply NoDup_singleton]. intros x Hx ->%list_elem_of_singleton. by apply elem_of_remove_resident in Hx as [? _].
Qed.

Lemma length_touch t s : length (residents (touch t s)) <= S (length (residents s)).
Proof.
  unfold touch, touch_resident, remove_resident. cbn [residents]. rewrite length_app. simpl.
  pose proof (List.filter_length_le (fun x => negb (bool_decide (x = t))) (residents s)). lia.
Qed.

(** ** One step of a reservation *)

Lemma try_reserve_cases capacity s : (capacity <= usize_max)%N ->
  let all := (N.of_nat (length (residents s)) + pending_slots s)%N in
  try_reserve_pending_slot capacity s = (true, mkResidency (residents s) (pending_slots s + 1)) /\ (all < capacity)%N
  \/ try_reserve_pending_slot capacity s = (false, s) /\ (capacity <= all)%N.
Proof.
  intros Hc. cbv zeta. unfold try_reserve_pending_slot, occupied, sat_add. destruct (capacity <=? _)%N eqn:E; [right|left].
  - apply N.leb_le in E. split; [done|lia].
  - apply N.leb_gt in E. split; [done|lia].
Qed.

(** What a reservation may do in a step: it reserves only below the capacity and
    is refused only when it is reached; it unloads only a thread it holds, found
    idle; it takes the least recently used thread that it may take; it loses
    only threads found idle or not loaded; it fails only when its turns are over
    or nothing may be taken. *)
Record moves (capacity : N) (look : Look) (r r' : Reservation) (s s' : V2ResidencyState) : Prop := mkMoves {
  reserves_below : point r' = Reserved ->
    (N.of_nat (length (residents s)) + pending_slots s < capacity)%N
    /\ residents s' = residents s /\ pending_slots s' = (pending_slots s + 1)%N;
  keeps_pending : point r' <> Reserved -> pending_slots s' = pending_slots s;
  refused_at_limit : refusals r' = refusals r
    \/ refusals r' = S (refusals r) /\ (capacity <= N.of_nat (length (residents s)) + pending_slots s)%N;
  unloads_idle : unloads r' = unloads r
    \/ exists t, unloads r' = unloads r ++ [t] /\ look = Unloaded /\ held_at (point r) = Some t;
  takes_oldest : forall t, held_at (point r') = Some t -> held_at (point r) <> Some t ->
    head (List.filter (candidate (protected r)) (residents s)) = Some t;
  loses_none : forall t, t ∈ residents s \/ held_at (point r) = Some t ->
    t ∈ residents s' \/ held_at (point r') = Some t
    \/ held_at (point r) = Some t /\ (look = NotLoaded \/ look = Unloaded);
  gains_none : forall t, t ∈ residents s' \/ held_at (point r') = Some t ->
    t ∈ residents s \/ held_at (point r) = Some t;
  fails_empty : point r' = Failed ->
    point r = Scanning 0 \/ List.filter (candidate (protected r)) (residents s) = [];
}.

Lemma reserve_slot_moves capacity look r s r' s' : (capacity <= usize_max)%N -> NoDup (residents s) ->
  reserve_slot capacity look r s = Some (r', s') ->
  moves capacity look r r' s s' /\ NoDup (residents s') /\ protected r' = protected r.
Proof.
  intros Hc Hnd. unfold reserve_slot. destruct (point r) as [| |[|k]|t k|t k| | |] eqn:Ep; try done.
  - destruct (try_reserve_cases capacity s Hc) as [[-> Hlt]|[-> Hle]]; intros [= <- <-];
      (split; [|done]); split; cbn; rewrite ?Ep; naive_solver.
  - intros [= <- <-]. split; [|done]. split; cbn; rewrite ?Ep; naive_solver.
  - intros [= <- <-]. split; [|done]. split; cbn; rewrite ?Ep; naive_solver.
  - pose proof (pop_facts (protected r) s Hnd) as Hp.
    destruct (pop_lru_candidate (protected r) s) as [[t|] s1]; destruct Hp as (Ho & Hpend & Hperm); intros [= <- <-].
    + rewrite Hperm in Hnd. apply NoDup_cons in Hnd as [_ Hnd]. split; [|done].
      split; cbn; rewrite ?Ep; try naive_solver.
      * intros x [Hx|?]; [|done]. rewrite Hperm, elem_of_cons in Hx. naive_solver.
      * intros x. rewrite Hperm, elem_of_cons. naive_solver.
    + rewrite Hperm in Hnd. split; [|done]. split; cbn; rewrite ?Ep; try naive_solver.
      * intros x. rewrite Hperm. naive_solver.
      * intros x. rewrite Hperm. naive_solver.
      * intros _. right. by destruct (List.filter _ _).
  - destruct look; intros [= <- <-]; (split; [|done]); split; cbn; rewrite ?Ep; naive_solver.
  - intros [= <- <-]. split; [|split; [by apply NoDup_touch|done]].
    split; cbn -[touch]; rewrite ?Ep; try naive_solver.
    + intros x. rewrite elem_of_touch. naive_solver.
    + intros x. rewrite elem_of_touch. naive_solver.
Qed.

(** ** Every state *)

Definition bit (b : bool) : nat := if b then 1 else 0.

Lemma count_insert p l i r r' : l !! i = Some r ->
  count_points p (<[i := r']> l) + bit (p (point r)) = count_points p l + bit (p (point r')).
Proof.
  intros Hi. rewrite <- (take_drop_middle l i r Hi) at 2.
  rewrite insert_take_drop by (by eapply lookup_lt_Some). unfold count_points.
  rewrite !List.filter_app, !length_app. simpl. destruct (p (point r)), (p (point r')); simpl; lia.
Qed.

Lemma count_points_snoc p l r : count_points p (l ++ [r]) = count_points p l + bit (p (point r)).
Proof. unfold count_points. rewrite List.filter_app, length_app. simpl. by destruct (p (point r)). Qed.

Lemma elem_of_held w t : t ∈ held w <-> exists i r, reservations w !! i = Some r /\ held_at (point r) = Some t.
Proof.
  unfold held. rewrite list_elem_of_omap. split.
  - intros (r & [i Hi]%list_elem_of_lookup & Ht). by exists i, r.
  - intros (i & r & Hi & Ht). exists r. split; [by eapply list_elem_of_lookup_2|done].
Qed.

Lemma length_held w : length (held w) <= count_points in_progress (reservations w).
Proof.
  unfold held, count_points. induction (reservations w) as [|r l IH]; [done|]. cbn [omap list_omap List.filter].
  destruct (point r); simpl; unfold omap in *; lia.
Qed.

(** The record of a reservation: a refusal for every thread it unloaded. *)
Definition recorded (r : Reservation) : Prop :=
  (forall t, t ∈ unloads r \/ held_at (point r) = Some t -> Some t <> protected r)
  /\ match point r with
     | Trying | Reserved => refusals r = length (unloads r)
     | Finished => length (unloads r) <= refusals r
     | _ => refusals r = S (length (unloads r))
     end.

Lemma candidate_unprotected p l t : head (List.filter (candidate p) l) = Some t -> Some t <> p.
Proof.
  intros Hh E. destruct (List.filter (candidate p) l) as [|x k] eqn:Ef; [done|]. injection Hh as ->.
  assert (Hin : In t (List.filter (candidate p) l)) by (rewrite Ef; by left).
  apply filter_In in Hin as [_ Hc]. unfold candidate in Hc. by rewrite bool_decide_true in Hc.
Qed.

Lemma reserve_slot_recorded capacity look r s r' s' : (capacity <= usize_max)%N -> NoDup (residents s) ->
  reserve_slot capacity look r s = Some (r', s') -> recorded r -> recorded r'.
Proof.
  intros Hc Hnd Hs [Hp Hn]. pose proof (reserve_slot_moves _ _ _ _ _ _ Hc Hnd Hs) as ([] & _ & Epr). split.
  - intros t Ht. rewrite Epr. destruct Ht as [Ht|Ht].
    + destruct unloads_idle0 as [E|(u & E & _ & Hu)]; rewrite E in Ht; [by apply Hp; left|].
      apply elem_of_app in Ht as [Ht| ->%list_elem_of_singleton]; apply Hp; [by left|by right].
    + destruct (decide (held_at (point r) = Some t)) as [Hh|Hh]; [by apply Hp; right|].
      by eapply candidate_unprotected, takes_oldest0.
  - unfold reserve_slot in Hs. destruct (point r) as [| |[|k]|t k|t k| | |]; try done.
    + destruct (try_reserve_pending_slot _ _) as [[] s1]; injection Hs as <- <-; cbn; [done|by rewrite Hn].
    + by injection Hs as <- <-.
    + by injection Hs as <- <-.
    + by destruct (pop_lru_candidate _ _) as [[t|] s1]; injection Hs as <- <-.
    + destruct look; injection Hs as <- <-; try done. cbn. rewrite length_app. simpl. lia.
    + by injection Hs as <- <-.
Qed.

(** However the threads that are kept are counted, they and the slots promised
    exceed the capacity by no more than the reservations in progress beside the
    last that was granted, and the threads adopted. *)
Definition spread (capacity : N) (limit : nat) (w : world) : Prop :=
  forall l, NoDup l -> (forall t, t ∈ l -> kept w t) ->
  (N.of_nat (length l) + pending_slots (state w) <= capacity + N.of_nat (limit - 1 + adopted w))%N.

Record sound (capacity : N) (limit : nat) (w : world) : Prop := mkSound {
  sound_queue : NoDup (residents (state w));
  sound_pending : pending_slots (state w) = N.of_nat (count_points is_reserved (reservations w));
  sound_limit : count_points in_progress (reservations w) <= limit;
  sound_spread : spread capacity limit w;
  sound_records : forall i r, reservations w !! i = Some r -> recorded r;
}.

Lemma spread_less capacity limit w w' :
  spread capacity limit w -> (forall t, kept w' t -> kept w t) ->
  (pending_slots (state w') <= pending_slots (state w))%N -> adopted w' = adopted w -> spread capacity limit w'.
Proof.
  intros Hs Hk Hp Ha l Hl Hin. rewrite Ha. pose proof (Hs l Hl (fun t Ht => Hk t (Hin t Ht))). lia.
Qed.

(** One more thread for a slot less, or adopted. *)
Lemma spread_one capacity limit w w' t :
  spread capacity limit w -> (forall x, kept w' x -> x = t \/ kept w x) ->
  (pending_slots (state w') + N.of_nat (1 + adopted w) <= pending_slots (state w) + N.of_nat (adopted w'))%N ->
  spread capacity limit w'.
Proof.
  intros Hs Hk Hp l Hl Hin. pose proof (Hs (remove_resident t l) (NoDup_remove_resident t l Hl)) as H1.
  assert (Hlen : length l <= S (length (remove_resident t l))).
  { destruct (decide (t ∈ l)) as [Ht|Ht]; [|by rewrite remove_fresh by done; lia].
    destruct (proj1 (elem_of_Permutation l t) Ht) as [k Hperm]. rewrite Hperm in Hl. apply NoDup_cons in Hl as [Hf _].
    assert (E : length (remove_resident t l) = length (remove_resident t (t :: k)))
      by (apply Permutation_length, filter_perm, Hperm).
    rewrite E, Hperm. unfold remove_resident. cbn [List.filter]. rewrite bool_decide_true by done. cbn [negb].
    fold (remove_resident t k). rewrite remove_fresh by done. simpl. lia. }
  assert (H2 : forall x, x ∈ remove_resident t l -> kept w x).
  { intros x [Hx Hxl]%elem_of_remove_resident. by destruct (Hk x (Hin x Hxl)). }
  specialize (H1 H2). lia.
Qed.

(** A slot is granted below the capacity: only the others hold threads then. *)
Lemma spread_granted capacity limit w :
  (N.of_nat (length (residents (state w))) + pending_slots (state w) <= capacity)%N ->
  S (count_points in_progress (reservations w)) <= limit -> spread capacity limit w.
Proof.
  intros Hc Hn l Hl Hin. pose proof (length_held w).
  assert (length l <= length (residents (state w) ++ held w)).
  { apply submseteq_length, NoDup_submseteq; [done|]. intros t Ht. apply elem_of_app. by apply Hin. }
  rewrite length_app in *. lia.
Qed.

(** The threads held after one reservation moved. *)
Lemma held_insert w i r r' s n t : reservations w !! i = Some r ->
  t ∈ held (mkWorld s (<[i := r']> (reservations w)) n) -> t ∈ held w \/ held_at (point r') = Some t.
Proof.
  rewrite !elem_of_held. intros Hi (j & x & Hj & Hx). cbn in Hj. destruct (decide (i = j)) as [<-|Hne].
  - rewrite list_lookup_insert_eq in Hj by (by eapply lookup_lt_Some). injection Hj as <-. by right.
  - rewrite list_lookup_insert_ne in Hj by done. left. by exists j, x.
Qed.

Lemma sound_move capacity limit w i fits s w' :
  sound capacity limit w -> move w i fits s = Some w' ->
  (forall p, fits p = true -> held_at p = None \/ in_progress p = true) ->
  exists r, reservations w !! i = Some r /\ fits (point r) = true /\ w' = mkWorld s (<[i := at_point Finished r]> (reservations w)) (adopted w)
  /\ (forall t, t ∈ held w' -> t ∈ held w)
  /\ count_points in_progress (reservations w') <= limit
  /\ count_points is_reserved (reservations w') + bit (is_reserved (point r)) = count_points is_reserved (reservations w)
  /\ forall j x, reservations w' !! j = Some x -> recorded x.
Proof.
  intros [] Hm _. unfold move in Hm. destruct (reservations w !! i) as [r|] eqn:Hi; [|done]. cbn in Hm.
  destruct (fits (point r)) eqn:Hf; [|done]. injection Hm as <-. exists r. split_and!; try done; cbn [reservations].
  - intros t Ht. by destruct (held_insert _ _ _ _ _ _ _ Hi Ht).
  - pose proof (count_insert in_progress _ _ _ (at_point Finished r) Hi). cbn in *. lia.
  - pose proof (count_insert is_reserved _ _ _ (at_point Finished r) Hi). cbn in *. lia.
  - intros j x Hj. destruct (decide (i = j)) as [<-|Hne].
    + rewrite list_lookup_insert_eq in Hj by (by eapply lookup_lt_Some). injection Hj as <-.
      destruct (sound_records0 _ _ Hi) as [Hp Hn]. split; [intros t [?|[=]]; apply Hp; by left|]. cbn.
      destruct (point r); lia.
    + rewrite list_lookup_insert_ne in Hj by done. by eapply sound_records0.
Qed.

Lemma sound_step_own capacity limit w i look w' : (capacity <= usize_max)%N ->
  sound capacity limit w -> step capacity limit (Step i look) w = Some w' -> sound capacity limit w'.
Proof.
  intros Hc [] Hs. cbn in Hs. destruct (reservations w !! i) as [r|] eqn:Hi; [|done]. cbn in Hs.
  destruct (reserve_slot capacity look r (state w)) as [[r' s']|] eqn:Er; [|done]. injection Hs as <-.
  pose proof (reserve_slot_moves _ _ _ _ _ _ Hc sound_queue0 Er) as (Hmv & Hnd & Epr).
  pose proof (reserve_slot_recorded _ _ _ _ _ _ Hc sound_queue0 Er (sound_records0 _ _ Hi)) as Hrec.
  pose proof (count_insert in_progress _ _ _ r' Hi) as Hin. pose proof (count_insert is_reserved _ _ _ r' Hi) as Hres.
  assert (Hnow : in_progress (point r) = true /\ is_reserved (point r) = false)
    by (unfold reserve_slot in Er; by destruct (point r)).
  destruct Hnow as [Hnow Hnot]. rewrite Hnow in Hin. rewrite Hnot in Hres. destruct Hmv. cbn in *.
  assert (Hkept : forall x, kept (mkWorld s' (<[i := r']> (reservations w)) (adopted w)) x -> kept w x).
  { intros x [Hx|Hx].
    - cbn in Hx. destruct (gains_none0 x (or_introl Hx)) as [?|?]; [by left|right]. apply elem_of_held. by exists i, r.
    - apply (held_insert _ _ _ _ _ _ _ Hi) in Hx as [?|Hx]; [by right|].
      destruct (gains_none0 x (or_intror Hx)) as [?|?]; [by left|right]. apply elem_of_held. by exists i, r. }
  split; cbn.
  - done.
  - destruct (decide (point r' = Reserved)) as [E|E].
    + destruct (reserves_below0 E) as (_ & _ & ->). rewrite E in Hres. cbn in Hres. lia.
    + rewrite keeps_pending0 by done. assert (is_reserved (point r') = false) as Hb by (by destruct (point r')).
      rewrite Hb in Hres. cbn in Hres. rewrite sound_pending0. f_equal. lia.
  - destruct (in_progress (point r')); cbn in Hin; lia.
  - destruct (decide (point r' = Reserved)) as [E|E].
    + destruct (reserves_below0 E) as (Hlt & Er1 & Ep). apply spread_granted; cbn; [rewrite Er1; lia|].
      rewrite E in Hin. cbn in Hin. lia.
    + apply (spread_less capacity limit w); [done|done|cbn; by rewrite keeps_pending0|done].
  - intros j x Hj. destruct (decide (i = j)) as [<-|Hne].
    + rewrite list_lookup_insert_eq in Hj by (by eapply lookup_lt_Some). by injection Hj as <-.
    + rewrite list_lookup_insert_ne in Hj by done. by eapply sound_records0.
Qed.

Lemma sound_step capacity limit e w w' : (capacity <= usize_max)%N ->
  sound capacity limit w -> step capacity limit e w = Some w' -> sound capacity limit w'.
Proof.
  intros Hc Hw Hs. destruct e as [p|i look|i|i t|i|t|t]; [|by eapply sound_step_own|..]; cbn [step] in Hs.
  - destruct Hw. case_decide as Hd; [|done]. injection Hs as <-. split; cbn.
    + done.
    + by rewrite count_points_snoc, Nat.add_0_r.
    + rewrite count_points_snoc. cbn. lia.
    + apply (spread_less capacity limit w); [done| |done|done]. intros t [?|Ht]; [by left|right].
      unfold held in Ht |- *. cbn in Ht. rewrite omap_app in Ht. cbn in Ht. by rewrite app_nil_r in Ht.
    + intros i r [Hi|[_ Hr]]%lookup_app_Some; [by eapply sound_records0|].
      apply list_lookup_singleton_Some in Hr as [_ <-]. split; cbn; [|done]. by intros t [?%elem_of_nil|?].
  - pose proof (sound_move _ _ _ _ _ _ _ Hw Hs ltac:(by auto)) as (r & Hi & Hf & -> & Hh & Hl & Hr & Hrec).
    destruct Hw. assert (is_reserved (point r) = false) as Eb by (by destruct (point r)). rewrite Eb in Hr. cbn in Hr.
    split; try done; [cbn in *; rewrite sound_pending0; f_equal; lia|].
    apply (spread_less capacity limit w); [done| |done|done]. intros t [?|?]; [by left|right; by apply Hh].
  - pose proof (sound_move _ _ _ _ _ _ _ Hw Hs ltac:(by intros []; auto)) as (r & Hi & Hf & -> & Hh & Hl & Hr & Hrec).
    destruct Hw. rewrite Hf in Hr. cbn -[touch] in *. split; cbn -[touch]; try done.
    + by apply NoDup_touch.
    + change (pending_slots (commit_slot t (state w))) with (pending_slots (state w) - 1)%N. lia.
    + apply (spread_one capacity limit w _ t); [done| |cbn; lia]. intros x [Hx|Hx]; [|right; right; by apply Hh].
      cbn -[touch] in Hx. apply elem_of_touch in Hx as [?|?]; [by left|right; by left].
  - pose proof (sound_move _ _ _ _ _ _ _ Hw Hs ltac:(by intros []; auto)) as (r & Hi & Hf & -> & Hh & Hl & Hr & Hrec).
    destruct Hw. rewrite Hf in Hr. cbn in *. split; cbn; try done; [lia|].
    apply (spread_less capacity limit w); [done| |cbn; lia|done]. intros x [?|?]; [by left|right; by apply Hh].
  - destruct Hw. injection Hs as <-. split; cbn -[touch]; try done; [by apply NoDup_touch|]. case_decide as Hk.
    + apply (spread_less capacity limit w); [done| |done|done]. intros x [Hx|?]; [|by right].
      cbn -[touch] in Hx. apply elem_of_touch in Hx as [->|?]; [done|by left].
    + apply (spread_one capacity limit w _ t); [done| |cbn [state adopted pending_slots touch]; lia]. intros x [Hx|?]; [|right; by right].
      cbn -[touch] in Hx. apply elem_of_touch in Hx as [?|?]; [by left|right; by left].
  - destruct Hw. injection Hs as <-. split; cbn; try done; [by apply NoDup_remove_resident|].
    apply (spread_less capacity limit w); [done| |done|done]. intros x [Hx|?]; [|by right].
    apply elem_of_remove_resident in Hx as [_ ?]. by left.
Qed.

Lemma reached_sound capacity limit w : (capacity <= usize_max)%N -> reached capacity limit w -> sound capacity limit w.
Proof.
  intros Hc. induction 1; [|by eapply sound_step]. split; cbn; try done; [apply NoDup_nil_2|unfold count_points; cbn; lia|].
  intros l Hl Hin. destruct l as [|t l]; [cbn; lia|]. destruct (Hin t ltac:(left)) as [Ht|Ht]; by apply elem_of_nil in Ht.
Qed.

(** ** Alone *)

(** Steps that the turns of a reservation may take, by the residents left. *)
Fixpoint spent (n : nat) : nat := match n with O => 0 | S n => spent n + 3 * n + 3 end.

Definition work (p : Point) (n : nat) : nat :=
  match p with
  | Trying => spent (S n)
  | Counting => spent n + 3 * n + 2
  | Scanning k => spent n + 3 * k + 1
  | Looking _ k => spent (S n) + 3 * k + 3
  | Returning _ k => spent (S n) + 3 * k + 2
  | Reserved | Failed | Finished => 0
  end.

Lemma spent_le n m : n <= m -> spent n <= spent m.
Proof. induction 1; simpl; lia. Qed.

Lemma reserve_slot_works capacity look r s : NoDup (residents s) -> in_progress (point r) = true ->
  exists r' s', reserve_slot capacity look r s = Some (r', s')
  /\ work (point r') (length (residents s')) < work (point r) (length (residents s)).
Proof.
  intros Hnd Hp. unfold reserve_slot. destruct (point r) as [| |[|k]|t k|t k| | |] eqn:Ep; try done.
  - unfold try_reserve_pending_slot. destruct (capacity <=? occupied s)%N; do 2 eexists; (split; [done|]); cbn; lia.
  - do 2 eexists. split; [done|]. cbn. lia.
  - do 2 eexists. split; [done|]. cbn. lia.
  - pose proof (pop_facts (protected r) s Hnd) as Hf.
    destruct (pop_lru_candidate (protected r) s) as [[t|] s1]; destruct Hf as (_ & _ & Hperm);
      apply Permutation_length in Hperm; do 2 eexists; (split; [done|]); cbn -[spent] in *; rewrite Hperm; lia.
  - assert (spent (length (residents s)) <= spent (S (length (residents s)))) by (apply spent_le; lia).
    destruct look; do 2 eexists; (split; [done|]); cbn -[spent]; lia.
  - do 2 eexists. split; [done|]. cbn -[spent touch].
    pose proof (spent_le _ _ (length_touch t s)). lia.
Qed.

(** The steps of one reservation, while it takes any, with what its looks find. *)
Fixpoint run_alone (capacity : N) (limit i : nat) (looks : list Look) (w : world) : world :=
  match looks with
  | [] => w
  | look :: looks =>
      match step capacity limit (Step i look) w with
      | Some w => run_alone capacity limit i looks w
      | None => w
      end
  end.

Lemma alone_ends capacity limit i : (capacity <= usize_max)%N -> forall looks w r,
  sound capacity limit w -> reservations w !! i = Some r ->
  work (point r) (length (residents (state w))) <= length looks ->
  exists r', reservations (run_alone capacity limit i looks w) !! i = Some r' /\ in_progress (point r') = false.
Proof.
  intros Hc looks. induction looks as [|look looks IH]; intros w r Hw Hi Hn.
  - exists r. split; [done|]. destruct (point r); cbn in *; try done; lia.
  - destruct (in_progress (point r)) eqn:Ep.
    + destruct (reserve_slot_works capacity look r (state w) (sound_queue _ _ _ Hw) Ep) as (r' & s' & Er & Hlt).
      pose proof (sound_step_own capacity limit w i look) as Hnext. cbn -[reserve_slot work] in *. rewrite Hi in *.
      cbn -[reserve_slot work] in *. rewrite Er in *. cbn -[reserve_slot work] in *.
      eapply (IH _ r'); [by apply Hnext|cbn; apply list_lookup_insert_eq; by eapply lookup_lt_Some|cbn -[work]; lia].
    + exists r. cbn. rewrite Hi. cbn. assert (reserve_slot capacity look r (state w) = None) as ->
        by (unfold reserve_slot; by destruct (point r)). done.
Qed.

(** ** Properties *)

(** C23: Reservations share the queue and may come between any two steps of each
    other, as may touches, removals, commits and releases.  In every state that
    can be reached by [limit] reservations in progress at once, no thread is
    listed twice, the slots promised are those of the reservations that hold one,
    and the threads and slots exceed the capacity by at most one for every
    reservation but one, and one for every thread that came in by a touch alone.
    Every step of a reservation is one of [moves]: it is granted a slot only
    below the capacity, and is refused only when the capacity is reached; it
    takes the least recently used thread but the protected one, and unloads it
    only when found idle; it fails only when its turns are over or there is
    nothing to take; and it loses no other thread.  It never unloads the
    protected thread, and has been refused at least once for every thread it
    unloaded.  Left alone it ends, whatever its looks find. *)
Theorem residency_slot capacity limit w :
  (capacity <= usize_max)%N -> reached capacity limit w ->
  (NoDup (residents (state w))
   /\ pending_slots (state w) = N.of_nat (count_points is_reserved (reservations w))
   /\ (N.of_nat (length (residents (state w))) + pending_slots (state w)
       <= capacity + N.of_nat (limit - 1 + adopted w))%N)
  /\ forall i r, reservations w !! i = Some r ->
     (forall t, t ∈ unloads r -> Some t <> protected r)
     /\ length (unloads r) <= refusals r
     /\ (forall look r' s', reserve_slot capacity look r (state w) = Some (r', s') ->
         moves capacity look r r' (state w) s'
         /\ (unloads r' <> unloads r -> length (unloads r') = refusals r))
     /\ forall looks, work (point r) (length (residents (state w))) <= length looks ->
        exists r', reservations (run_alone capacity limit i looks w) !! i = Some r'
          /\ in_progress (point r') = false.
Proof.
  intros Hc Hw%reached_sound; [|done]. pose proof Hw as []. split.
  { split_and!; [done|done|]. apply sound_spread0; [done|]. intros t ?. by left. }
  intros i r Hi. destruct (sound_records0 i r Hi) as [Hp Hn]. split_and!.
  - intros t Ht. apply Hp. by left.
  - destruct (point r); lia.
  - intros look r' s' Hs. destruct (reserve_slot_moves _ _ _ _ _ _ Hc sound_queue0 Hs) as (Hm & _). split; [done|].
    intros Hu. destruct (unloads_idle _ _ _ _ _ _ Hm) as [|(t & E & _ & Ht)]; [done|].
    rewrite E, length_app. simpl. destruct (point r); try done; lia.
  - intros looks. by apply alone_ends.
Qed.

End residency.

(** ** Concrete queues *)

Definition run (capacity : N) (limit : nat) (es : list event) : option (@world N) :=
  foldl (fun w e => w ← w; step capacity limit e w) (Some start) es.

Lemma run_reached_residency capacity limit es w : run capacity limit es = Some w -> reached capacity limit w.
Proof.
  unfold run. revert w. induction es as [|e es IH] using rev_ind; intros w; [intros [= <-]; constructor|].
  rewrite foldl_app. cbn. destruct (foldl _ _ es) as [w0|]; [cbn|done]. intros Hs.
  eapply reached_step; [by apply IH|exact Hs].
Qed.

(** A thread with the slot reserved for it. *)
Definition load (i : nat) (t : N) : list event := [Begin None; Step i Busy; Commit i t].

Definition full : list event := load 0 1 ++ load 1 2 ++ load 2 3.

(** The thread 1 is busy and goes to the back, 2 is unloaded for the new one; 3 is
    protected. *)
Example slot_by_unloading :
  match run 3 1 (full ++ [Begin (Some 3); Step 3 Busy; Step 3 Busy; Step 3 Busy; Step 3 Busy; Step 3 Busy; Step 3 Busy;
                  Step 3 Unloaded; Step 3 Busy]%N) with
  | Some w => residents (state w) = [3; 1]%N /\ pending_slots (state w) = 1%N
              /\ map unloads (reservations w) = [[]; []; []; [2%N]]
  | None => False
  end.
Proof. by vm_compute. Qed.

(** Another reservation takes the place of a thread that is being looked at, which
    is busy after all: more are resident than the capacity. *)
Definition overshooting : list event :=
  load 0 1 ++ [Begin None; Step 1 Busy; Step 1 Busy; Step 1 Busy]%N ++ load 2 2 ++ [Step 1 Busy; Step 1 Busy]%N.

Example overshoot :
  match run 1 2 overshooting with Some w => residents (state w) = [2; 1]%N | None => False end.
Proof. by vm_compute. Qed.

Lemma residency_slot_witness :
  match run 1 2 overshooting with
  | Some w => length (residents (state w)) = 2
      /\ (N.of_nat (length (residents (state w))) + pending_slots (state w) <= 1 + N.of_nat (1 + adopted w))%N
  | None => False
  end.
Proof.
  assert (Hok : match run 1 2 overshooting with Some w => length (residents (state w)) =? 2 | None => false end = true)
    by (vm_compute; reflexivity).
  destruct (run 1 2 overshooting) as [w|] eqn:E; [|discriminate Hok]. split; [by apply Nat.eqb_eq|].
  destruct (residency_slot 1 2 w ltac:(vm_compute; discriminate) (run_reached_residency 1 2 overshooting w E)) as ((_ & _ & Hb) & _).
  exact Hb.
Defined.
