(* ===== verification/Wildcard.v ===== *)
(** * Texts with wildcards

    The language of simple globs: a star stands for any text, a question mark for
    one character, anything else for itself.  It is what the documentation of the
    pattern crates promises of such texts, and so the measure of theorems about
    patterns and the concrete language of their witnesses. *)

From S2P Require Import Prelude RustStr.

(** A text without wildcards. *)
Definition plain (w : str) : Prop := Forall (fun c => c <> 42%N /\ c <> 63%N) w.

#[export] Instance plain_dec w : Decision (plain w).
Proof. unfold plain. apply _. Defined.

Definition ascii (w : str) : Prop := Forall (fun c => c < 128)%N w.

#[export] Instance ascii_dec w : Decision (ascii w).
Proof. unfold ascii. apply _. Defined.

Fixpoint wild (p : str) : str -> bool :=
  match p with
  | [] => is_empty
  | c :: p =>
      if (c =? 42)%N then
        fix any (n : str) : bool := wild p n || match n with [] => false | _ :: n => any n end
      else fun n => match n with [] => false | d :: n => ((c =? 63)%N || (c =? d)%N) && wild p n end
  end.

Lemma lower_plain w : plain w -> plain (to_ascii_lowercase w).
Proof.
  unfold plain, to_ascii_lowercase. rewrite Forall_map. intros Hw. eapply Forall_impl; [exact Hw|]. intros c [H1 H2]. simpl.
  unfold char_to_ascii_lowercase, is_ascii_upper. destruct (_ && _) eqn:E; [|done].
  apply andb_prop in E as [E1%N.leb_le E2%N.leb_le]. lia.
Qed.

Lemma wild_plain w : plain w -> forall n, wild w n = bool_decide (w = n).
Proof.
  induction 1 as [|c w [H1 H2] _ IH]; intros n; simpl.
  - destruct n; [done|]. by rewrite bool_decide_false.
  - apply N.eqb_neq in H1 as ->. apply N.eqb_neq in H2 as ->. simpl.
    destruct n as [|d n]; [by rewrite bool_decide_false|]. rewrite IH.
    destruct (c =? d)%N eqn:E; simpl.
    + apply N.eqb_eq in E as ->. apply bool_decide_ext. split; [by intros ->|by intros [= ->]].
    + apply N.eqb_neq in E. rewrite bool_decide_false; [done|]. by intros [= ? ?].
Qed.

Lemma wild_any p n : wild (42%N :: p) n = wild p n || match n with [] => false | _ :: n => wild (42%N :: p) n end.
Proof. by destruct n. Qed.

Lemma wild_star_end w : plain w -> forall n, wild (w ++ [42%N]) n = starts_with n w.
Proof.
  induction 1 as [|c w [H1 H2] _ IH]; intros n; simpl.
  - transitivity true; [|done]. induction n as [|d n IH]; [done|]. simpl. by rewrite IH.
  - apply N.eqb_neq in H1 as ->. apply N.eqb_neq in H2 as ->. simpl.
    unfold starts_with. destruct n as [|d n]; [done|]. simpl. rewrite IH. unfold starts_with.
    destruct (c =? d)%N eqn:E; simpl.
    + apply N.eqb_eq in E as ->. by rewrite bool_decide_true.
    + apply N.eqb_neq in E. by rewrite bool_decide_false.
Qed.

Lemma wild_stars w : plain w -> forall n, wild ([42%N] ++ w ++ [42%N]) n = contains_str w n.
Proof.
  intros Hw n. change ([42%N] ++ w ++ [42%N]) with (42%N :: (w ++ [42%N])).
  induction n as [|d n IH]; rewrite wild_any, wild_star_end by done; [|rewrite IH];
    unfold contains_str; simpl.
  - by destruct (starts_with [] w).
  - destruct (starts_with (d :: n) w); [done|]. by destruct (find_str w n).
Qed.

(** ** Splitting a match *)

Lemma wild_star p n : wild (42%N :: p) n = true <-> exists w m, n = w ++ m /\ wild p m = true.
Proof.
  induction n as [|d n IH]; rewrite wild_any.
  - rewrite orb_false_r. split; [intros H; by exists [], []|]. intros (w & m & E & H).
    by symmetry in E; apply app_nil in E as [-> ->].
  - rewrite orb_true_iff, IH. split.
    + intros [H|(w & m & -> & H)]; [by exists [], (d :: n)|by exists (d :: w), m].
    + intros ([|e w] & m & E & H); [left; simpl in E; by subst|right]. injection E as -> ->. by exists w, m.
Qed.

Lemma wild_app p q n :
  wild (p ++ q) n = true <-> exists m k, n = m ++ k /\ wild p m = true /\ wild q k = true.
Proof.
  revert n. induction p as [|c p IH]; intros n.
  - simpl. split; [intros H; by exists [], n|]. intros (m & k & -> & Hm & H). by destruct m.
  - destruct (N.eq_dec c 42%N) as [->|Hc].
    + simpl app. rewrite wild_star. split.
      * intros (w & m & -> & (m1 & m2 & -> & H1 & H2)%IH). exists (w ++ m1), m2.
        rewrite <- app_assoc. repeat split; [|done]. apply wild_star. by exists w, m1.
      * intros (m & k & -> & (w & m1 & -> & H1)%wild_star & H2). exists w, (m1 ++ k).
        rewrite app_assoc. split; [done|]. apply IH. by exists m1, k.
    + apply N.eqb_neq in Hc. simpl. rewrite Hc. split.
      * destruct n as [|d n]; [done|]. intros [Hd (m & k & -> & H1 & H2)%IH]%andb_prop.
        exists (d :: m), k. repeat split; [|done]. by rewrite Hd, H1.
      * intros ([|d m] & k & -> & H1 & H2); [done|]. apply andb_prop in H1 as [Hd H1]. simpl.
        rewrite Hd. apply IH. by exists m, k.
Qed.

Lemma wild_char c n : c <> 42%N -> c <> 63%N -> wild [c] n = true <-> n = [c].
Proof.
  intros H1 H2. rewrite (wild_plain [c]) by (by repeat constructor).
  rewrite bool_decide_eq_true. by split.
Qed.

(** [?*]: any text that is not empty. *)
Lemma wild_some n : wild [63%N; 42%N] n = true <-> n <> [].
Proof.
  split; [by destruct n|]. intros H. destruct n as [|d n]; [done|]. change (wild [42%N] n = true).
  apply wild_star. exists n, []. by rewrite app_nil_r.
Qed.

(** Stars that are not neighbours: a pattern of more than one star has more. *)
Fixpoint single_stars (p : str) : bool :=
  match p with
  | c :: (d :: _) as t => negb ((c =? 42) && (d =? 42))%N && single_stars t
  | _ => true
  end.

Lemma wild_not_empty p n : single_stars p = true -> p <> [] -> p <> [42%N] -> wild p n = true -> n <> [].
Proof.
  intros Hs Hp Hp' Hw ->. destruct p as [|c p]; [done|]. destruct (N.eq_dec c 42%N) as [->|Hc].
  - destruct p as [|d p]; [done|]. rewrite wild_any, orb_false_r in Hw. cbn in Hs, Hw.
    destruct (d =? 42)%N; [done|]. by destruct p.
  - apply N.eqb_neq in Hc. cbn in Hw. by rewrite Hc in Hw.
Qed.
