(* ===== verification/ShellEnvironment.v ===== *)
(** * The environment of commands (protocol/src/shell_environment.rs,
      core/src/exec_env.rs, config/src/shell_environment_policy.rs and the parts of
      core/src/unified_exec/process_manager.rs and
      exec-server/src/local_process.rs that hand it on)

    What a command sees of the variables of its parent is decided by a policy;
    variables that carry the launch context of the program never pass.  A remote
    executor rebuilds the environment from its own variables, a copy of the policy
    and an overlay of what differs.  The wildcard patterns are an argument, and so
    are the operating system and the version of the build. *)

From S2P Require Import Prelude RustStr Wildcard.

Abbreviation env := (gmap str str) (only parsing).

(** ** Maps as the code uses them *)

Definition retain (p : str -> str -> bool) (m : env) : env := filter (fun kv => p kv.1 kv.2 = true) m.

(** Collecting pairs: the last of a key wins. *)
Definition extend (m : env) (l : list (str * str)) : env := foldl (fun m '(k, v) => <[k := v]> m) m l.

Definition CODEX_SESSION_ID_ENV_VAR : str := $"CODEX_SESSION_ID".
Definition CODEX_THREAD_ID_ENV_VAR : str := $"CODEX_THREAD_ID".
Definition CODEX_VERSION_ENV_VAR : str := $"CODEX_VERSION".
Definition CODEX_PERMISSION_PROFILE_ENV_VAR : str := $"CODEX_PERMISSION_PROFILE".
Definition CODEX_APPLY_PATCH_PRESERVE_LINE_ENDINGS_ENV_VAR : str :=
  $"CODEX_APPLY_PATCH_PRESERVE_LINE_ENDINGS".
Definition PLUGIN_METRICS_OUTPUT_ENV_VAR : str := $"CODEX_PLUGIN_METRICS_OUTPUT".
Definition CODEX_EXEC_SERVER_EXIT_ON_STDIN_CLOSE_ENV_VAR : str :=
  $"CODEX_EXEC_SERVER_EXIT_ON_STDIN_CLOSE".

Definition NON_INHERITABLE_ENV_VARS : list str :=
  [$"CODEX_EXEC_SERVER_NOISE_AUTH_TOKEN"; $"NODE_REPL_AUTH_TOKEN"; $"OPENAI_FEDERATION_RULE_ID";
   $"OPENAI_IDENTITY_TOKEN_FILE"; $"OPENAI_WORKLOAD_IDENTITY_CONTEXT"].

Definition is_non_inheritable_env_var (name : str) : bool :=
  existsb (fun restricted => eq_ignore_ascii_case restricted name) NON_INHERITABLE_ENV_VARS.

Definition UNIX_CORE_ENV_VARS : list str :=
  [$"PATH"; $"SHELL"; $"TMPDIR"; $"TEMP"; $"TMP"; $"HOME"; $"LANG"; $"LC_ALL"; $"LC_CTYPE";
   $"LOGNAME"; $"USER"].

Definition WINDOWS_CORE_ENV_VARS : list str :=
  [$"PATH"; $"PATHEXT"; $"SHELL"; $"COMSPEC"; $"SYSTEMROOT"; $"WINDIR"; $"SYSTEMDRIVE"; $"USERNAME";
   $"USERDOMAIN"; $"USERPROFILE"; $"HOMEDRIVE"; $"HOMEPATH"; $"PROGRAMFILES"; $"PROGRAMFILES(X86)";
   $"PROGRAMW6432"; $"PROGRAMDATA"; $"LOCALAPPDATA"; $"APPDATA"; $"TEMP"; $"TMP"; $"TMPDIR";
   $"POWERSHELL"; $"PWSH"].

Definition UNIFIED_EXEC_ENV : list (str * str) :=
  [($"NO_COLOR", $"1"); ($"TERM", $"dumb"); ($"LANG", $"C.UTF-8"); ($"LC_CTYPE", $"C.UTF-8");
   ($"LC_ALL", $"C.UTF-8"); ($"COLORTERM", []); ($"PAGER", $"cat"); ($"GIT_PAGER", $"cat");
   ($"GH_PAGER", $"cat"); ($"CODEX_CI", $"1")].

Inductive ShellEnvironmentPolicyInherit : Type := InheritCore | InheritAll | InheritNone.
Inductive ShellEnvironmentPolicyFilter : Type := FilterInclude | FilterExclude.

(** What crosses to the executor. [exec_set] is in the order of the hash map. *)
Record ExecEnvPolicy : Type := mkExecEnvPolicy {
  exec_inherit : ShellEnvironmentPolicyInherit;
  exec_ignore_default_excludes : bool;
  exec_exclude : list str;
  exec_set : list (str * str);
  exec_include_only : list str;
}.

Record ExecParams : Type := mkExecParams { env_policy : option ExecEnvPolicy; params_env : list (str * str) }.

Record ShellEnvironmentPolicyToml : Type := mkPolicyToml {
  toml_inherit : option ShellEnvironmentPolicyInherit;
  toml_ignore_default_excludes : option bool;
  toml_exclude : option (list str);
  toml_set : option (list (str * str));
  toml_include_only : option (list str);
  toml_filters : option (list (str * ShellEnvironmentPolicyFilter));
  experimental_use_profile : option bool;
}.

Section environment.
Context {Pattern : Type} (new_case_insensitive : str -> Pattern) (matches : Pattern -> str -> bool)
  (pattern_text : Pattern -> str).
Context (windows : bool) (version : str).

Record ShellEnvironmentPolicy : Type := mkShellEnvironmentPolicy {
  inherit : ShellEnvironmentPolicyInherit;
  ignore_default_excludes : bool;
  exclude : list Pattern;
  env_set : list (str * str);
  include_only : list Pattern;
  use_profile : bool;
}.

(** The checks of deserialization; [to_lowercase] is that of Unicode. *)
Fixpoint duplicate_ignoring_case (to_lowercase : str -> str) (seen : list str)
    (filters : list (str * ShellEnvironmentPolicyFilter)) : option str :=
  match filters with
  | [] => None
  | (p, _) :: rest =>
      if one_of (to_lowercase p) seen then Some p
      else duplicate_ignoring_case to_lowercase (to_lowercase p :: seen) rest
  end.

Definition deserialize_policy (to_lowercase : str -> str) (t : ShellEnvironmentPolicyToml)
  : result ShellEnvironmentPolicyToml str :=
  if is_some (toml_filters t) && (is_some (toml_exclude t) || is_some (toml_include_only t))
  then Err ($"cannot mix `filters` with legacy `exclude` or `include_only`")
  else
    match duplicate_ignoring_case to_lowercase [] (default [] (toml_filters t)) with
    | Some p => Err ($"duplicate shell environment filter `" ++ p ++ $"` ignoring case")
    | None => Ok t
    end.

(** The table of filters is sorted by pattern. *)
Definition policy_from_toml (t : ShellEnvironmentPolicyToml) : ShellEnvironmentPolicy :=
  let '(exclude, include_only) :=
    match toml_filters t with
    | Some filters =>
        (omap (fun '(p, f) => match f with FilterExclude => Some p | FilterInclude => None end) filters,
         omap (fun '(p, f) => match f with FilterInclude => Some p | FilterExclude => None end) filters)
    | None => (default [] (toml_exclude t), default [] (toml_include_only t))
    end in
  mkShellEnvironmentPolicy (default InheritAll (toml_inherit t))
    (default true (toml_ignore_default_excludes t)) (map new_case_insensitive exclude)
    (default [] (toml_set t)) (map new_case_insensitive include_only)
    (default false (experimental_use_profile t)).

(** ** From the policy *)

Definition matches_any (name : str) (patterns : list Pattern) : bool :=
  existsb (fun p => matches p name) patterns.

Definition core_env_vars : list str := if windows then WINDOWS_CORE_ENV_VARS else UNIX_CORE_ENV_VARS.

Definition default_excludes : list Pattern :=
  map new_case_insensitive [$"*KEY*"; $"*SECRET*"; $"*TOKEN*"].

Definition starting_vars (vars : list (str * str)) (policy : ShellEnvironmentPolicy) : env :=
  match inherit policy with
  | InheritAll => extend ∅ vars
  | InheritNone => ∅
  | InheritCore =>
      extend ∅ (List.filter (fun kv => existsb (fun a => eq_ignore_ascii_case a kv.1) core_env_vars) vars)
  end.

Definition set_var (m : env) (kv : str * str) : env :=
  <[kv.1 := kv.2]> (if windows then retain (fun k _ => negb (eq_ignore_ascii_case k kv.1)) m else m).

Definition populate_env (vars : list (str * str)) (policy : ShellEnvironmentPolicy)
    (thread_id : option str) : env :=
  let m := starting_vars vars policy in
  let m := if ignore_default_excludes policy then m
           else retain (fun k _ => negb (matches_any k default_excludes)) m in
  let m := if is_empty (exclude policy) then m
           else retain (fun k _ => negb (matches_any k (exclude policy))) m in
  let m := foldl set_var m (env_set policy) in
  let m := if is_empty (include_only policy) then m
           else retain (fun k _ => matches_any k (include_only policy)) m in
  let m := match thread_id with Some id => <[CODEX_THREAD_ID_ENV_VAR := id]> m | None => m end in
  retain (fun k _ => negb (is_non_inheritable_env_var k)) m.

Definition create_env_from_vars (vars : list (str * str)) (policy : ShellEnvironmentPolicy)
    (thread_id : option str) : env :=
  let m := populate_env vars policy thread_id in
  if windows && negb (existsb (fun kv => eq_ignore_ascii_case kv.1 ($"PATHEXT")) (map_to_list m))
  then <[$"PATHEXT" := $".COM;.EXE;.BAT;.CMD"]> m else m.

(** ** What the session adds *)

Definition inject_session_env (session_id : str) (m : env) : env :=
  let m := <[CODEX_SESSION_ID_ENV_VAR := session_id]> m in
  let m := if windows then retain (fun k _ => negb (eq_ignore_ascii_case k CODEX_VERSION_ENV_VAR)) m else m in
  <[CODEX_VERSION_ENV_VAR := version]> m.

Definition inject_permission_profile_env (active : option str) (m : env) : env :=
  let m := if windows
           then retain (fun k _ => negb (eq_ignore_ascii_case k CODEX_PERMISSION_PROFILE_ENV_VAR)) m
           else delete CODEX_PERMISSION_PROFILE_ENV_VAR m in
  match active with Some id => <[CODEX_PERMISSION_PROFILE_ENV_VAR := id]> m | None => m end.

Definition inject_apply_patch_env (preserve_line_endings : bool) (m : env) : env :=
  let m := retain (fun k _ =>
             negb (eq_ignore_ascii_case k CODEX_APPLY_PATCH_PRESERVE_LINE_ENDINGS_ENV_VAR)) m in
  if preserve_line_endings then <[CODEX_APPLY_PATCH_PRESERVE_LINE_ENDINGS_ENV_VAR := $"1"]> m else m.

Definition apply_unified_exec_env (m : env) : env := extend m UNIFIED_EXEC_ENV.

Definition strip_output_env (m : env) : env :=
  if windows then retain (fun k _ => negb (eq_ignore_ascii_case k PLUGIN_METRICS_OUTPUT_ENV_VAR)) m
  else delete PLUGIN_METRICS_OUTPUT_ENV_VAR m.

Record session : Type := mkSession {
  session_id : str;
  thread_id : str;
  preserve_line_endings : bool;
  active_profile : option str;
}.

(** The environment a command is requested with, and the part the policy gave. *)
Definition session_env (s : session) (vars : list (str * str)) (policy : ShellEnvironmentPolicy)
  : env * env :=
  let local_policy_env := create_env_from_vars vars policy None in
  let m := <[CODEX_THREAD_ID_ENV_VAR := thread_id s]> local_policy_env in
  let m := inject_session_env (session_id s) m in
  let m := inject_apply_patch_env (preserve_line_endings s) m in
  let m := inject_permission_profile_env (active_profile s) m in
  (strip_output_env (apply_unified_exec_env m), local_policy_env).

(** ** To an executor and back *)

Definition runtime_keys : list str :=
  [CODEX_PERMISSION_PROFILE_ENV_VAR; CODEX_VERSION_ENV_VAR;
   CODEX_APPLY_PATCH_PRESERVE_LINE_ENDINGS_ENV_VAR; PLUGIN_METRICS_OUTPUT_ENV_VAR].

Definition is_runtime_key (k : str) : bool := existsb (fun r => eq_ignore_ascii_case k r) runtime_keys.

Definition exec_env_policy_from_shell_policy (policy : ShellEnvironmentPolicy) : ExecEnvPolicy :=
  mkExecEnvPolicy (inherit policy) (ignore_default_excludes policy)
    (map pattern_text (exclude policy) ++ runtime_keys)
    (List.filter (fun kv => negb (is_runtime_key kv.1) && negb (is_non_inheritable_env_var kv.1))
       (env_set policy))
    (map pattern_text (include_only policy)).

Definition env_overlay_for_exec_server (request_env local_policy_env : env) : env :=
  retain (fun k v =>
    negb (is_non_inheritable_env_var k)
    && (one_of k [CODEX_PERMISSION_PROFILE_ENV_VAR; CODEX_VERSION_ENV_VAR;
                  CODEX_APPLY_PATCH_PRESERVE_LINE_ENDINGS_ENV_VAR]
        || negb (bool_decide (local_policy_env !! k = Some v)))) request_env.

(** The variables the network proxy manages (network-proxy/src/proxy.rs).
    [trust_bundle]: the text is the path of a certificate bundle the proxy made. *)
Context (macos : bool) (trust_bundle : str -> bool).

Definition PROXY_ENV_KEYS : list str :=
  [$"CODEX_NETWORK_PROXY_ACTIVE"; $"CODEX_NETWORK_PROXY_CREDENTIAL_BROKER_ACTIVE";
   $"CODEX_NETWORK_PROXY_BROKERED_CREDENTIALS"; $"CODEX_NETWORK_ALLOW_LOCAL_BINDING"]
  ++ (if windows then [$"CODEX_WINDOWS_SANDBOX_PROXY_PORTS"] else [])
  ++ [$"CODEX_NETWORK_PROXY_ATTRIBUTION"; $"ELECTRON_GET_USE_PROXY"; $"NODE_USE_ENV_PROXY";
      $"HTTP_PROXY"; $"HTTPS_PROXY"; $"http_proxy"; $"https_proxy"; $"YARN_HTTP_PROXY"; $"YARN_HTTPS_PROXY";
      $"npm_config_http_proxy"; $"npm_config_https_proxy"; $"npm_config_proxy"; $"NPM_CONFIG_HTTP_PROXY";
      $"NPM_CONFIG_HTTPS_PROXY"; $"NPM_CONFIG_PROXY"; $"BUNDLE_HTTP_PROXY"; $"BUNDLE_HTTPS_PROXY"; $"PIP_PROXY";
      $"DOCKER_HTTP_PROXY"; $"DOCKER_HTTPS_PROXY"; $"WS_PROXY"; $"WSS_PROXY"; $"ws_proxy"; $"wss_proxy";
      $"NO_PROXY"; $"no_proxy"; $"npm_config_noproxy"; $"NPM_CONFIG_NOPROXY"; $"YARN_NO_PROXY"; $"BUNDLE_NO_PROXY";
      $"ALL_PROXY"; $"all_proxy"; $"FTP_PROXY"; $"ftp_proxy"].

Definition CUSTOM_CA_ENV_KEYS : list str :=
  [$"CODEX_CA_CERTIFICATE"; $"SSL_CERT_FILE"; $"REQUESTS_CA_BUNDLE"; $"CURL_CA_BUNDLE"; $"NODE_EXTRA_CA_CERTS";
   $"GIT_SSL_CAINFO"; $"CARGO_HTTP_CAINFO"; $"PIP_CERT"; $"BUNDLE_SSL_CA_CERT"; $"npm_config_cafile";
   $"NPM_CONFIG_CAFILE"].

Definition is_managed_proxy_env_var (key value : str) : bool :=
  if one_of key PROXY_ENV_KEYS then true
  else if one_of key CUSTOM_CA_ENV_KEYS then trust_bundle value
  else macos && bool_decide (key = $"GIT_SSH_COMMAND") && starts_with value ($"CODEX_PROXY_GIT_SSH_COMMAND=1 ").

Definition PATH : str := $"PATH".

Definition sets_path (l : list (str * str)) : bool := existsb (fun kv => bool_decide (kv.1 = PATH)) l.

(** What is sent for a request: the policy and the local environment it was built
    from, when an executor is to rebuild it, and the variables to set.
    [shell_snapshot]: the executor restores a shell's state, which has its own
    [PATH]. *)
Definition exec_server_env_for_request (shell_snapshot managed_network : bool)
    (exec_server_env_config : option (ExecEnvPolicy * env)) (request_env : env)
  : option ExecEnvPolicy * env :=
  match exec_server_env_config with
  | Some (policy, local_policy_env) =>
      let m := env_overlay_for_exec_server request_env local_policy_env in
      let m := if shell_snapshot && negb (sets_path (exec_set policy)) then delete PATH m else m in
      (Some policy, if managed_network then retain is_managed_proxy_env_var request_env ∪ m else m)
  | None => (None, request_env)
  end.

Definition shell_environment_policy (p : ExecEnvPolicy) : ShellEnvironmentPolicy :=
  mkShellEnvironmentPolicy (exec_inherit p) (exec_ignore_default_excludes p)
    (map new_case_insensitive (exec_exclude p)) (exec_set p)
    (map new_case_insensitive (exec_include_only p)) false.

Definition child_env (server_vars : list (str * str)) (p : ExecParams) : env :=
  let m := match env_policy p with
           | Some policy =>
               extend (create_env_from_vars server_vars (shell_environment_policy policy) None) (params_env p)
           | None => extend ∅ (params_env p)
           end in
  let m := delete CODEX_EXEC_SERVER_EXIT_ON_STDIN_CLOSE_ENV_VAR m in
  retain (fun k _ => negb (is_non_inheritable_env_var k)) m.

(** [command/exec]: the client of the application server overrides variables. *)
Definition command_exec_env (vars : list (str * str)) (policy : ShellEnvironmentPolicy)
    (overrides : list (str * option str)) (preserve_line_endings : bool) : env :=
  let m := create_env_from_vars vars policy None in
  let m := foldl (fun m '(k, v) => match v with Some v => <[k := v]> m | None => delete k m end)
             m overrides in
  inject_apply_patch_env preserve_line_endings
    (retain (fun k _ => negb (is_non_inheritable_env_var k)) m).

End environment.

(** ** Lookups *)

Lemma lookup_retain (f : str -> str -> bool) (m : env) k :
  retain f m !! k = match m !! k with Some v => if f k v then Some v else None | None => None end.
Proof.
  unfold retain. rewrite map_lookup_filter. destruct (m !! k) as [v|]; simpl; [|done].
  case_guard as E; simpl in E; destruct (f k v); done.
Qed.

(** The value of the last pair of a key. *)
Definition last_value (l : list (str * str)) (k : str) : option str :=
  foldl (fun acc '(k', v) => if bool_decide (k' = k) then Some v else acc) None l.

Lemma last_value_snoc l k' v k :
  last_value (l ++ [(k', v)]) k = if bool_decide (k' = k) then Some v else last_value l k.
Proof. unfold last_value. by rewrite foldl_app. Qed.

Lemma lookup_extend (m : env) l k :
  extend m l !! k = match last_value l k with Some v => Some v | None => m !! k end.
Proof.
  induction l as [|[k' v] l IH] using rev_ind; [done|].
  rewrite last_value_snoc. unfold extend in *. rewrite foldl_app. simpl. case_bool_decide as E.
  - by rewrite E, lookup_insert_eq.
  - by rewrite lookup_insert_ne.
Qed.

Lemma last_value_filter (p : str * str -> bool) l k : (forall v, p (k, v) = true) -> last_value (List.filter p l) k = last_value l k.
Proof.
  intros Hp. induction l as [|[k' v] l IH] using rev_ind; [done|].
  rewrite List.filter_app, last_value_snoc. simpl. destruct (p (k', v)) eqn:E.
  - by rewrite last_value_snoc, IH.
  - rewrite app_nil_r, IH. case_bool_decide as Ek; [|done]. subst. by rewrite Hp in E.
Qed.

Lemma last_value_filter_none (p : str * str -> bool) l k : (forall v, p (k, v) = false) -> last_value (List.filter p l) k = None.
Proof.
  intros Hp. induction l as [|[k' v] l IH] using rev_ind; [done|].
  rewrite List.filter_app. simpl. destruct (p (k', v)) eqn:E; [|by rewrite app_nil_r].
  rewrite last_value_snoc, IH, bool_decide_false; [done|]. intros ->. by rewrite Hp in E.
Qed.

#[export] Hint Rewrite lookup_retain lookup_extend : env.

Section theorems.
Context {Pattern : Type} (new_case_insensitive : str -> Pattern) (matches : Pattern -> str -> bool)
  (pattern_text : Pattern -> str).

Abbreviation Policy := (@ShellEnvironmentPolicy Pattern) (only parsing).
Abbreviation matching := (matches_any matches) (only parsing).

(** ** One variable at a time *)

Definition inherited (i : ShellEnvironmentPolicyInherit) (vars : list (str * str)) (k : str) : option str :=
  match i with
  | InheritAll => last_value vars k
  | InheritNone => None
  | InheritCore =>
      if existsb (fun a => eq_ignore_ascii_case a k) UNIX_CORE_ENV_VARS then last_value vars k else None
  end.

Definition unless (b : bool) (o : option str) : option str := if b then None else o.
Definition or_else (o o' : option str) : option str := match o with Some v => Some v | None => o' end.

(** What a policy gives a variable. *)
Definition policy_value (vars : list (str * str)) (policy : Policy) (k : str) : option str :=
  unless (negb (is_empty (include_only policy)) && negb (matching k (include_only policy)))
    (or_else (last_value (env_set policy) k)
       (unless (negb (is_empty (exclude policy)) && matching k (exclude policy))
          (unless (negb (ignore_default_excludes policy)
                   && matching k (default_excludes new_case_insensitive))
             (inherited (inherit policy) vars k)))).

Lemma starting_vars_lookup vars (policy : Policy) k :
  starting_vars false vars policy !! k = inherited (inherit policy) vars k.
Proof.
  unfold starting_vars, inherited. destruct (inherit policy); autorewrite with env; try done.
  - change (core_env_vars false) with UNIX_CORE_ENV_VARS.
    destruct (existsb _ UNIX_CORE_ENV_VARS) eqn:E.
    + rewrite last_value_filter by (intros; exact E). by destruct (last_value vars k).
    + by rewrite last_value_filter_none by (intros; exact E).
  - by destruct (last_value vars k).
Qed.

Lemma foldl_set_var m l : foldl (set_var false) m l = extend m l.
Proof. unfold extend. revert m. induction l as [|[k v] l IH]; intros m; [done|]. apply IH. Qed.

Lemma populate_env_lookup vars (policy : Policy) thread k :
  populate_env new_case_insensitive matches false vars policy thread !! k
  = unless (is_non_inheritable_env_var k)
      (or_else (if bool_decide (k = CODEX_THREAD_ID_ENV_VAR) then thread else None)
         (policy_value vars policy k)).
Proof.
  unfold populate_env. rewrite lookup_retain.
  set (m := if is_empty (include_only policy) then _ else _).
  assert (Hm : m !! k = policy_value vars policy k).
  { unfold m, policy_value. rewrite foldl_set_var.
    assert (Hr : forall (b : bool) (p : str -> str -> bool) (x : env), (if b then x else retain p x) !! k
      = match x !! k with Some v => if negb b && negb (p k v) then None else Some v | None => None end).
    { intros b p x. destruct b; [by destruct (x !! k)|]. rewrite lookup_retain.
      destruct (x !! k) as [v|]; [|done]. simpl. by destruct (p k v). }
    rewrite Hr, lookup_extend, Hr, Hr, starting_vars_lookup. rewrite !negb_involutive.
    unfold unless, or_else. destruct (last_value (env_set policy) k); [done|].
    destruct (inherited _ _ _); repeat case_match; done. }
  clearbody m. unfold unless. cbv beta. destruct (is_non_inheritable_env_var k) eqn:En.
  { destruct (match thread with Some _ => _ | None => _ end !! k); done. }
  assert (E : match thread with Some id => <[CODEX_THREAD_ID_ENV_VAR:=id]> m | None => m end !! k
    = or_else (if bool_decide (k = CODEX_THREAD_ID_ENV_VAR) then thread else None)
        (policy_value vars policy k)).
  { destruct thread as [id|]; [|by case_bool_decide]. case_bool_decide as Ek.
    - by rewrite Ek, lookup_insert_eq.
    - by rewrite lookup_insert_ne. }
  rewrite E. by destruct (or_else _ _).
Qed.

Lemma create_env_lookup vars (policy : Policy) k :
  create_env_from_vars new_case_insensitive matches false vars policy None !! k
  = unless (is_non_inheritable_env_var k) (policy_value vars policy k).
Proof.
  unfold create_env_from_vars. simpl. rewrite populate_env_lookup. by case_bool_decide.
Qed.

(** ** The launch context stays *)

Lemma populate_no_context windows vars (policy : Policy) thread name :
  is_non_inheritable_env_var name = true ->
  populate_env new_case_insensitive matches windows vars policy thread !! name = None.
Proof. intros Hn. unfold populate_env. rewrite lookup_retain, Hn. by destruct (_ !! name). Qed.

Lemma create_no_context windows vars (policy : Policy) thread name :
  is_non_inheritable_env_var name = true ->
  create_env_from_vars new_case_insensitive matches windows vars policy thread !! name = None.
Proof.
  intros Hn. unfold create_env_from_vars. destruct (_ && _); [|by apply populate_no_context].
  rewrite lookup_insert_ne; [by apply populate_no_context|]. intros <-. vm_compute in Hn. discriminate.
Qed.

(** Variables the program sets itself are not of the launch context. *)
Definition own_keys : list str :=
  [CODEX_THREAD_ID_ENV_VAR; CODEX_SESSION_ID_ENV_VAR] ++ runtime_keys ++ map fst UNIFIED_EXEC_ENV.

Lemma own_keys_inheritable k : k ∈ own_keys -> is_non_inheritable_env_var k = false.
Proof.
  assert (H : forallb (fun k => negb (is_non_inheritable_env_var k)) own_keys = true) by (vm_compute; reflexivity).
  rewrite forallb_forall in H. intros Hk. apply negb_true_iff, H. by apply list_elem_of_In.
Qed.

Lemma lookup_own_insert (m : env) (k v name : str) :
  is_non_inheritable_env_var name = true -> k ∈ own_keys -> m !! name = None -> <[k := v]> m !! name = None.
Proof.
  intros Hn Hk Hm. rewrite lookup_insert_ne; [done|]. intros ->. by rewrite (own_keys_inheritable _ Hk) in Hn.
Qed.

Lemma lookup_retain_None (f : str -> str -> bool) (m : env) (name : str) : m !! name = None -> retain f m !! name = None.
Proof. intros Hm. by rewrite lookup_retain, Hm. Qed.

Lemma lookup_delete_None_env (m : env) (k name : str) : m !! name = None -> delete k m !! name = None.
Proof. intros Hm. apply lookup_delete_None. by right. Qed.

Lemma inject_apply_patch_no_context (b : bool) (m : env) (name : str) :
  is_non_inheritable_env_var name = true -> m !! name = None -> inject_apply_patch_env b m !! name = None.
Proof.
  intros Hn Hm. unfold inject_apply_patch_env. destruct b; [|by apply lookup_retain_None].
  apply lookup_own_insert; [done| |by apply lookup_retain_None]. by apply (bool_decide_unpack _).
Qed.

Lemma unified_no_context (m : env) (name : str) :
  is_non_inheritable_env_var name = true -> m !! name = None -> apply_unified_exec_env m !! name = None.
Proof.
  intros Hn Hm. unfold apply_unified_exec_env. rewrite lookup_extend, Hm.
  destruct (last_value UNIFIED_EXEC_ENV name) eqn:E; [|done]. exfalso.
  assert (Hk : name ∈ own_keys).
  { unfold own_keys. rewrite !elem_of_app. right. right. revert E. unfold last_value. simpl.
    repeat (case_bool_decide; [intros _; subst; simpl; set_solver|]). done. }
  by rewrite (own_keys_inheritable _ Hk) in Hn.
Qed.

Lemma session_no_context windows version (s : session) vars (policy : Policy) name :
  is_non_inheritable_env_var name = true ->
  (session_env new_case_insensitive matches windows version s vars policy).1 !! name = None.
Proof.
  intros Hn. assert (Hown : forall k, bool_decide (k ∈ own_keys) = true -> k ∈ own_keys)
    by (intros k; apply bool_decide_eq_true).
  pose proof (create_no_context windows vars policy None name Hn) as H0.
  unfold session_env. simpl. set (m0 := create_env_from_vars _ _ _ _ _ _) in *. clearbody m0.
  assert (H1 : inject_session_env windows version (session_id s)
    (<[CODEX_THREAD_ID_ENV_VAR := thread_id s]> m0) !! name = None).
  { unfold inject_session_env. apply lookup_own_insert; [done|by apply Hown|].
    destruct windows; [apply lookup_retain_None|];
      by repeat (apply lookup_own_insert; [done|by apply Hown|]). }
  apply (inject_apply_patch_no_context (preserve_line_endings s)) in H1; [|done].
  assert (H2 : inject_permission_profile_env windows (active_profile s)
    (inject_apply_patch_env (preserve_line_endings s) (inject_session_env windows version (session_id s)
       (<[CODEX_THREAD_ID_ENV_VAR := thread_id s]> m0))) !! name = None).
  { unfold inject_permission_profile_env.
    destruct (active_profile s); [apply lookup_own_insert; [done|by apply Hown|]|]; clear H0;
      (destruct windows; [by apply lookup_retain_None|by apply lookup_delete_None_env]). }
  apply unified_no_context in H2; [|done]. unfold strip_output_env.
  destruct windows; [by apply lookup_retain_None|by apply lookup_delete_None_env].
Qed.

(** The names of the launch context, in any case. *)
Lemma launch_context_names name :
  In (to_ascii_lowercase name)
    [$"codex_exec_server_noise_auth_token"; $"node_repl_auth_token"; $"openai_federation_rule_id";
     $"openai_identity_token_file"; $"openai_workload_identity_context"] ->
  is_non_inheritable_env_var name = true.
Proof.
  intros Hin. unfold is_non_inheritable_env_var, NON_INHERITABLE_ENV_VARS, eq_ignore_ascii_case. cbn [existsb].
  destruct Hin as [E|[E|[E|[E|[E|[]]]]]]; rewrite <- E; by vm_compute.
Qed.

(** C16: Whatever the platform, the policy and the overrides, none of the variables
    CODEX_EXEC_SERVER_NOISE_AUTH_TOKEN, NODE_REPL_AUTH_TOKEN,
    OPENAI_FEDERATION_RULE_ID, OPENAI_IDENTITY_TOKEN_FILE and
    OPENAI_WORKLOAD_IDENTITY_CONTEXT, in any case of their letters, is in an
    environment for a command: not from the policy, not from the session, not in
    an executor, not from the application server. *)
Theorem launch_context_stays windows version s vars server_vars (policy : Policy) thread overrides
    preserve p name :
  In (to_ascii_lowercase name)
    [$"codex_exec_server_noise_auth_token"; $"node_repl_auth_token"; $"openai_federation_rule_id";
     $"openai_identity_token_file"; $"openai_workload_identity_context"] ->
  create_env_from_vars new_case_insensitive matches windows vars policy thread !! name = None
  /\ (session_env new_case_insensitive matches windows version s vars policy).1 !! name = None
  /\ child_env new_case_insensitive matches windows server_vars p !! name = None
  /\ command_exec_env new_case_insensitive matches windows vars policy overrides preserve !! name = None.
Proof.
  intros Hn%launch_context_names. split_and!; [by apply create_no_context|by apply session_no_context| |].
  - unfold child_env. rewrite lookup_retain, Hn. by destruct (_ !! name).
  - unfold command_exec_env. apply inject_apply_patch_no_context; [done|].
    rewrite lookup_retain, Hn. by destruct (_ !! name).
Qed.
End theorems.

(** * What the environment of a command holds

    The policy decides one variable at a time; names that look like secrets pass
    only when the user sets them; and an executor that rebuilds the environment
    from the same variables arrives at the one that was asked for. *)

Lemma last_value_in (l : list (str * str)) k v : NoDup l.*1 -> last_value l k = Some v <-> (k, v) ∈ l.
Proof.
  induction l as [|[k' v'] l IH] using rev_ind.
  { intros _. split; [done|]. by intros ?%elem_of_nil. }
  rewrite fmap_app, NoDup_app. simpl.
  intros (Hnd & Hdis & _). rewrite last_value_snoc, elem_of_app, list_elem_of_singleton.
  assert (Hk : k' ∉ l.*1) by (intros Hin; apply (Hdis k' Hin); left).
  case_bool_decide as E.
  - subst k'. split; [intros [= ->]; by right|]. intros [Hin|[= ->]]; [|done]. exfalso. apply Hk.
    apply list_elem_of_fmap. by exists (k, v).
  - rewrite IH by done. split; [by left|]. intros [?|[= -> ->]]; done.
Qed.

Lemma last_value_map (m : gmap str str) k : last_value (map_to_list m) k = m !! k.
Proof.
  apply option_eq. intros v. rewrite last_value_in by apply NoDup_fst_map_to_list.
  apply elem_of_map_to_list.
Qed.

(** What the documentation of the pattern crate says of patterns built to ignore
    case: they read as they were written, and on ASCII names a plain one matches
    its own text, and stars around it match any text that has it. *)
Class WildPatterns {Pattern : Type} (new_case_insensitive : str -> Pattern)
    (matches : Pattern -> str -> bool) (pattern_text : Pattern -> str) : Prop := {
  text_of_new : forall w, pattern_text (new_case_insensitive w) = w;
  plain_matches : forall w name, plain w -> ascii name ->
    matches (new_case_insensitive w) name = eq_ignore_ascii_case w name;
  stars_match : forall w name, plain w -> ascii name ->
    matches (new_case_insensitive ([42%N] ++ w ++ [42%N])) name
    = contains_str (to_ascii_lowercase w) (to_ascii_lowercase name);
}.

Section theorems.
Context {Pattern : Type} (new_case_insensitive : str -> Pattern) (matches : Pattern -> str -> bool)
  (pattern_text : Pattern -> str)
  `{!WildPatterns new_case_insensitive matches pattern_text}.

Abbreviation Policy := (@ShellEnvironmentPolicy Pattern) (only parsing).

Definition looks_secret (name : str) : bool :=
  existsb (fun w => contains_str (to_ascii_lowercase w) (to_ascii_lowercase name))
    [$"KEY"; $"SECRET"; $"TOKEN"].

Lemma default_excludes_secret name : ascii name ->
  matches_any matches name (default_excludes new_case_insensitive) = looks_secret name.
Proof.
  intros Ha. unfold matches_any, default_excludes, looks_secret.
  change [$"*KEY*"; $"*SECRET*"; $"*TOKEN*"]
    with (map (fun w => [42%N] ++ w ++ [42%N]) [$"KEY"; $"SECRET"; $"TOKEN"]).
  cbn [map existsb]. by rewrite !stars_match by (done || by apply (bool_decide_unpack _)).
Qed.

(** A variable of a command has the value the policy gives it, decided by its
    name alone: an override wins over what is inherited, exclusions hold back what
    is inherited, and a list of inclusions holds back both.  With the default
    exclusions an ASCII name that has KEY, SECRET or TOKEN in it, in any case, passes only
    with the value the user set. *)
Theorem environment_by_policy vars (policy : Policy) thread name :
  let env := populate_env new_case_insensitive matches false vars policy thread in
  env !! name
  = unless (is_non_inheritable_env_var name)
      (or_else (if bool_decide (name = CODEX_THREAD_ID_ENV_VAR) then thread else None)
         (policy_value new_case_insensitive matches vars policy name))
  /\ (ignore_default_excludes policy = false -> ascii name -> looks_secret name = true ->
      forall v, env !! name = Some v -> last_value (env_set policy) name = Some v)
  /\ (include_only policy <> [] -> name <> CODEX_THREAD_ID_ENV_VAR ->
      is_some (env !! name) = true -> matches_any matches name (include_only policy) = true).
Proof.
  intros env. unfold env. rewrite populate_env_lookup. split_and!; [done| |].
  - intros Hd Ha Hs v. unfold unless. destruct (is_non_inheritable_env_var name); [done|].
    rewrite bool_decide_false by (intros ->; vm_compute in Hs; discriminate). simpl.
    unfold policy_value. rewrite Hd, default_excludes_secret, Hs by done. unfold unless, or_else. simpl.
    destruct (_ && negb _); [done|]. destruct (last_value (env_set policy) name); [done|].
    by destruct (_ && _).
  - intros Hi Hne. rewrite bool_decide_false by done. unfold unless.
    destruct (is_non_inheritable_env_var name); [done|]. simpl. unfold policy_value, unless.
    destruct (matches_any matches name (include_only policy)) eqn:E; [done|].
    destruct (include_only policy); done.
Qed.

(** ** The trip to an executor *)

(** Names that the trip may lose: another spelling of a key the session owns, and
    the switch of the executor itself. *)
Definition other_spelling (k : str) : bool := is_runtime_key k && negb (one_of k runtime_keys).

Lemma runtime_patterns k : ascii k ->
  matches_any matches k (map new_case_insensitive runtime_keys) = is_runtime_key k.
Proof.
  intros Ha. unfold matches_any, is_runtime_key, runtime_keys. cbn [map existsb].
  rewrite !plain_matches by (done || by apply (bool_decide_unpack _)). unfold eq_ignore_ascii_case.
  repeat f_equal; apply bool_decide_ext; split; by intros ->.
Qed.

Definition built (ps : list Pattern) : Prop := Forall (fun p => exists w, p = new_case_insensitive w) ps.

Lemma patterns_survive ps : built ps -> map new_case_insensitive (map pattern_text ps) = ps.
Proof. induction 1 as [|p ps [w ->] _ IH]; simpl; [done|]. by rewrite text_of_new, IH. Qed.

Lemma last_value_set_sent l k :
  last_value (List.filter (fun kv => negb (is_runtime_key kv.1) && negb (is_non_inheritable_env_var kv.1)) l) k
  = if is_runtime_key k || is_non_inheritable_env_var k then None else last_value l k.
Proof.
  destruct (is_runtime_key k || is_non_inheritable_env_var k) eqn:E.
  - apply last_value_filter_none. intros v. simpl. by rewrite <- negb_orb, E.
  - apply last_value_filter. intros v. simpl. by rewrite <- negb_orb, E.
Qed.

(** What the executor's copy of the policy gives a variable. *)
Lemma sent_policy_value vars (policy : Policy) k :
  ascii k -> built (exclude policy) -> built (include_only policy) -> is_non_inheritable_env_var k = false ->
  policy_value new_case_insensitive matches vars
    (shell_environment_policy new_case_insensitive (exec_env_policy_from_shell_policy pattern_text policy)) k
  = if is_runtime_key k then None else policy_value new_case_insensitive matches vars policy k.
Proof.
  intros Ha Hex Hin Hn. unfold policy_value. simpl.
  rewrite last_value_set_sent, Hn, orb_false_r, map_app, !patterns_survive by done.
  assert (He : negb (is_empty (exclude policy ++ map new_case_insensitive runtime_keys)) = true)
    by (by destruct (exclude policy)).
  rewrite He. unfold matches_any at 2. rewrite existsb_app.
  change (existsb (fun p => matches p k) (map new_case_insensitive runtime_keys))
    with (matches_any matches k (map new_case_insensitive runtime_keys)).
  rewrite runtime_patterns by done. fold (matches_any matches k (exclude policy)).
  destruct (is_runtime_key k); simpl.
  - rewrite orb_true_r. unfold unless. by destruct (_ && _).
  - rewrite orb_false_r. f_equal. f_equal. destruct (exclude policy); [|done].
    by destruct (matches_any matches k []) eqn:E.
Qed.

(** What the session sets, one variable at a time. *)
Definition session_value (version : str) (s : session) (local : option str) (k : str) : option str :=
  if bool_decide (k = PLUGIN_METRICS_OUTPUT_ENV_VAR) then None
  else or_else (last_value UNIFIED_EXEC_ENV k)
    (if bool_decide (k = CODEX_PERMISSION_PROFILE_ENV_VAR) then active_profile s
     else if bool_decide (k = CODEX_APPLY_PATCH_PRESERVE_LINE_ENDINGS_ENV_VAR)
     then if preserve_line_endings s then Some ($"1") else None
     else if eq_ignore_ascii_case k CODEX_APPLY_PATCH_PRESERVE_LINE_ENDINGS_ENV_VAR then None
     else if bool_decide (k = CODEX_VERSION_ENV_VAR) then Some version
     else if bool_decide (k = CODEX_SESSION_ID_ENV_VAR) then Some (session_id s)
     else if bool_decide (k = CODEX_THREAD_ID_ENV_VAR) then Some (thread_id s)
     else local).

Lemma session_env_lookup version (s : session) vars (policy : Policy) k :
  let '(request, local) := session_env new_case_insensitive matches false version s vars policy in
  request !! k = session_value version s (local !! k) k.
Proof.
  unfold session_env, session_value, strip_output_env, apply_unified_exec_env. set (local := create_env_from_vars _ _ _ _ _ _).
  case_bool_decide as E1; [by rewrite E1, lookup_delete_eq|].
  rewrite lookup_delete_ne, lookup_extend by done. unfold or_else.
  destruct (last_value UNIFIED_EXEC_ENV k); [done|]. unfold inject_permission_profile_env.
  case_bool_decide as E2.
  { rewrite E2. by destruct (active_profile s); rewrite ?lookup_insert_eq, ?lookup_delete_eq. }
  assert (Hp : forall m : gmap str str, (match active_profile s with
    | Some id => <[CODEX_PERMISSION_PROFILE_ENV_VAR := id]> m | None => m end) !! k = m !! k).
  { intros m. destruct (active_profile s); [|done]. by rewrite lookup_insert_ne. }
  rewrite Hp, lookup_delete_ne by done. unfold inject_apply_patch_env.
  case_bool_decide as E3.
  { rewrite E3. destruct (preserve_line_endings s); [by rewrite lookup_insert_eq|].
    rewrite lookup_retain. by destruct (_ !! _). }
  assert (Ha : forall m : gmap str str, (if preserve_line_endings s
    then <[CODEX_APPLY_PATCH_PRESERVE_LINE_ENDINGS_ENV_VAR := $"1"]> m else m) !! k = m !! k).
  { intros m. destruct (preserve_line_endings s); [|done]. by rewrite lookup_insert_ne. }
  rewrite Ha, lookup_retain.
  destruct (eq_ignore_ascii_case k CODEX_APPLY_PATCH_PRESERVE_LINE_ENDINGS_ENV_VAR); simpl.
  { by destruct (_ !! k). }
  unfold inject_session_env. case_bool_decide as E4; [by rewrite E4, lookup_insert_eq|].
  rewrite lookup_insert_ne by done. case_bool_decide as E5; [by rewrite E5, lookup_insert_eq|].
  rewrite lookup_insert_ne by done. case_bool_decide as E6; [by rewrite E6, lookup_insert_eq|].
  rewrite lookup_insert_ne by done. by destruct (local !! k).
Qed.

Lemma child_env_lookup server_vars (policy : ExecEnvPolicy) overlay k :
  k <> CODEX_EXEC_SERVER_EXIT_ON_STDIN_CLOSE_ENV_VAR ->
  child_env new_case_insensitive matches false server_vars
    (mkExecParams (Some policy) (map_to_list overlay)) !! k
  = unless (is_non_inheritable_env_var k)
      (or_else (overlay !! k)
         (policy_value new_case_insensitive matches server_vars
            (shell_environment_policy new_case_insensitive policy) k)).
Proof.
  intros Hk. unfold child_env. rewrite lookup_retain, lookup_delete_ne by done. simpl.
  rewrite lookup_extend, create_env_lookup, last_value_map.
  unfold unless, or_else. destruct (is_non_inheritable_env_var k), (overlay !! k); simpl; try done.
  by destruct (policy_value _ _ _ _ _).
Qed.

(** What the session leaves as the policy gave it, and what it takes away. *)
Lemma session_value_None version (s : session) local k :
  is_runtime_key k = false -> session_value version s local k = None -> local = None.
Proof.
  unfold is_runtime_key, runtime_keys. cbn [existsb]. rewrite !orb_false_iff. intros (E1 & E2 & E3 & E4 & _).
  unfold session_value, or_else.
  assert (Hne : forall r, eq_ignore_ascii_case k r = false -> bool_decide (k = r) = false).
  { intros r Hr. apply bool_decide_false. intros ->. unfold eq_ignore_ascii_case in Hr. by rewrite bool_decide_true in Hr. }
  rewrite E3, !Hne by done. by repeat case_match.
Qed.

Lemma session_value_runtime version (s : session) local k :
  is_runtime_key k = true -> other_spelling k = false ->
  one_of k [CODEX_PERMISSION_PROFILE_ENV_VAR; CODEX_VERSION_ENV_VAR;
            CODEX_APPLY_PATCH_PRESERVE_LINE_ENDINGS_ENV_VAR] = true
  \/ session_value version s local k = None.
Proof.
  unfold other_spelling. intros -> Hsp. unfold one_of, runtime_keys in Hsp. cbn [existsb andb] in Hsp.
  apply negb_false_iff in Hsp.
  repeat (apply orb_true_iff in Hsp as [Hsp|Hsp]); try discriminate Hsp;
    apply bool_decide_eq_true in Hsp; subst k; try (left; reflexivity).
  right. unfold session_value. by rewrite bool_decide_true.
Qed.

Lemma sent_sets_path (policy : Policy) :
  sets_path (exec_set (exec_env_policy_from_shell_policy pattern_text policy)) = sets_path (env_set policy).
Proof.
  unfold sets_path. cbn [exec_set exec_env_policy_from_shell_policy].
  induction (env_set policy) as [|[k v] l IH]; [done|]. cbn [List.filter existsb fst].
  case_bool_decide as E; [subst k; by vm_compute|]. destruct (_ && _); cbn [existsb fst]; [|done].
  by rewrite bool_decide_false.
Qed.

Abbreviation sent := (exec_server_env_for_request false).

(** A variable of what is sent. *)
Lemma sent_lookup (macos : bool) (trust_bundle : str -> bool) (shell_snapshot managed : bool) (policy : ExecEnvPolicy) (local request : gmap str str) (k : str) :
  is_non_inheritable_env_var k = false ->
  (sent macos trust_bundle shell_snapshot managed (Some (policy, local)) request).2 !! k
  = match request !! k with
    | Some v =>
        if managed && is_managed_proxy_env_var false macos trust_bundle k v then Some v
        else if shell_snapshot && negb (sets_path (exec_set policy)) && bool_decide (k = PATH) then None
        else if one_of k [CODEX_PERMISSION_PROFILE_ENV_VAR; CODEX_VERSION_ENV_VAR;
                          CODEX_APPLY_PATCH_PRESERVE_LINE_ENDINGS_ENV_VAR]
                || negb (bool_decide (local !! k = Some v)) then Some v else None
    | None => None
    end.
Proof.
  intros Hn. unfold exec_server_env_for_request. cbn [snd].
  set (m := if shell_snapshot && _ then _ else _).
  assert (Hm : m !! k = if shell_snapshot && negb (sets_path (exec_set policy)) && bool_decide (k = PATH) then None
    else env_overlay_for_exec_server request local !! k).
  { unfold m. destruct (shell_snapshot && _); cbn [andb]; [|done]. case_bool_decide as E.
    - by rewrite E, lookup_delete_eq.
    - by rewrite lookup_delete_ne. }
  unfold env_overlay_for_exec_server in Hm. rewrite lookup_retain, Hn in Hm. cbn [negb andb] in Hm.
  destruct managed; cbn [andb].
  - rewrite lookup_union, Hm, lookup_retain. destruct (request !! k) as [v|]; [|by case_if].
    destruct (is_managed_proxy_env_var _ _ _ k v); [by repeat case_match|]. by rewrite (left_id None _).
  - rewrite Hm. destruct (request !! k); [done|by case_if].
Qed.

Lemma path_not_managed macos trust_bundle v : is_managed_proxy_env_var false macos trust_bundle PATH v = false.
Proof. by destruct macos. Qed.

End theorems.

(** ** A concrete pattern language *)

Definition wild_matches (p name : str) : bool := wild (to_ascii_lowercase p) (to_ascii_lowercase name).

#[export] Instance wild_patterns : WildPatterns (fun w : str => w) wild_matches (fun p => p).
Proof.
  split; [done| |].
  - intros w name Hw _. apply wild_plain. by apply lower_plain.
  - intros w name Hw _. unfold wild_matches, to_ascii_lowercase. rewrite !map_app.
    apply wild_stars. by apply lower_plain.
Qed.

Definition demo_vars : list (str * str) :=
  [($"HOME", $"/home/ada"); ($"Api_Key", $"k"); ($"openai_identity_token_file", $"/t");
   ($"CODEX_VERSION", $"0"); ($"PAGER", $"less")].

Definition demo_policy : @ShellEnvironmentPolicy str :=
  mkShellEnvironmentPolicy InheritAll false [$"P?G*"] [($"MY_TOKEN", $"t"); ($"NODE_REPL_AUTH_TOKEN", $"x")]
    [] false.

Definition demo_session : session := mkSession ($"s") ($"t") true (Some ($"dev")).

Example demo_environment :
  map_to_list (populate_env (fun w => w) wild_matches false demo_vars demo_policy None)
  ≡ₚ [($"HOME", $"/home/ada"); ($"CODEX_VERSION", $"0"); ($"MY_TOKEN", $"t")].
Proof. by apply (bool_decide_unpack _); vm_compute. Qed.

Lemma launch_context_stays_witness :
  child_env (fun w => w) wild_matches false demo_vars
    (mkExecParams None [($"node_repl_auth_token", $"x")]) !! $"node_repl_auth_token" = None.
Proof.
  destruct (launch_context_stays (fun w => w) wild_matches false ($"1") demo_session demo_vars demo_vars
    demo_policy None [] true (mkExecParams None [($"node_repl_auth_token", $"x")])
    ($"node_repl_auth_token")) as (_ & _ & H & _).
  - right. left. vm_compute. reflexivity.
  - exact H.
Defined.

Lemma environment_by_policy_witness :
  populate_env (fun w => w) wild_matches false demo_vars demo_policy None !! $"MY_TOKEN" = Some ($"t")
  /\ last_value (env_set demo_policy) ($"MY_TOKEN") = Some ($"t").
Proof.
  assert (E : populate_env (fun w => w) wild_matches false demo_vars demo_policy None !! $"MY_TOKEN"
    = Some ($"t")) by (vm_compute; reflexivity).
  split; [exact E|].
  destruct (environment_by_policy (fun w => w) wild_matches (fun p => p) demo_vars demo_policy None
    ($"MY_TOKEN")) as (_ & H & _).
  apply H; [reflexivity|by apply (bool_decide_unpack _)|vm_compute; reflexivity|exact E].
Defined.

