(* ===== verification/IpAddr.v ===== *)
(** * IP addresses (std::net, network-proxy/src/policy.rs)

    The addresses of the standard library as numbers of 32 and 128 bits, its
    parser with every shortening it accepts, the classifications the proxy uses,
    and [is_non_public_ip], which decides what counts as the local network.  The
    theorem gives the addresses it rejects as intervals. *)

From Stdlib Require Import ZifyN ZifyBool Btauto.
From S2P Require Import Prelude RustStr.

(** ** The parser of the standard library *)

Inductive IpAddr : Type :=
| V4 (bits : N)
| V6 (bits : N).

#[export] Instance IpAddr_eq_dec : EqDecision IpAddr.
Proof. solve_decision. Defined.

Definition COLON : char := 58%N.
Definition DOT : char := 46%N.

(** [char::to_digit]. *)
Definition to_digit (radix : N) (c : char) : option N :=
  let d := if is_ascii_digit c then Some (c - 48)%N
           else if ((97 <=? c) && (c <=? 122))%N then Some (c - 87)%N
           else if is_ascii_upper c then Some (c - 55)%N
           else None in
  match d with Some d => if (d <? radix)%N then Some d else None | None => None end.

Fixpoint read_digits (radix : N) (s : str) : list N * str :=
  match s with
  | c :: t => match to_digit radix c with
              | Some d => let '(ds, rest) := read_digits radix t in (d :: ds, rest)
              | None => ([], s)
              end
  | [] => ([], [])
  end.

Definition number (radix : N) (ds : list N) : N := fold_left (fun n d => n * radix + d)%N ds 0%N.

(** [read_number] at the widths of the parser: a group of digits that is too
    long, too large or padded is refused, not cut. *)
Definition read_number (radix limit : N) (max_digits : nat) (allow_zero_prefix : bool) (s : str)
  : option (N * str) :=
  let '(ds, rest) := read_digits radix s in
  let leading_zero := match ds with 0%N :: _ :: _ => true | _ => false end in
  if (max_digits <? length ds) || is_empty ds then None
  else if negb allow_zero_prefix && leading_zero then None
  else if (limit <? number radix ds)%N then None
  else Some (number radix ds, rest).

Definition read_separator (sep : char) (first : bool) (s : str) : option str :=
  if first then Some s
  else match s with c :: t => if (c =? sep)%N then Some t else None | [] => None end.

Fixpoint read_octets (slots : nat) (first : bool) (acc : N) (s : str) : option (N * str) :=
  match slots with
  | O => Some (acc, s)
  | S slots' =>
      s' ← read_separator DOT first s;
      '(octet, rest) ← read_number 10 255 3 false s';
      read_octets slots' false (acc * 256 + octet)%N rest
  end.

Definition read_ipv4_addr (s : str) : option (N * str) := read_octets 4 true 0 s.

(** The groups read, whether they end in an embedded IPv4 address, the rest. *)
Fixpoint read_groups (slots : nat) (first : bool) (s : str) : list N * bool * str :=
  match slots with
  | O => ([], false, s)
  | S slots' =>
      let ipv4 := if (1 <=? slots')
                  then s' ← read_separator COLON first s; read_ipv4_addr s' else None in
      match ipv4 with
      | Some (bits, rest) => ([bits / 65536; bits mod 65536]%N, true, rest)
      | None =>
          match s' ← read_separator COLON first s; read_number 16 65535 4 true s' with
          | Some (group, rest) =>
              let '(groups, v4, rest) := read_groups slots' false rest in
              (group :: groups, v4, rest)
          | None => ([], false, s)
          end
      end
  end.

Definition read_ipv6_addr (s : str) : option (N * str) :=
  let '(head, head_ipv4, rest) := read_groups 8 true s in
  if (length head =? 8) then Some (number 65536 head, rest)
  else if head_ipv4 then None
  else match rest with
       | c :: d :: rest =>
           if ((c =? COLON) && (d =? COLON))%N then
             let '(tail, _, rest) := read_groups (8 - (length head + 1)) true rest in
             Some (number 65536 (head ++ repeat 0%N (8 - length head - length tail) ++ tail), rest)
           else None
       | _ => None
       end.

(** [str::parse::<IpAddr>]: the whole text must be read. *)
Definition parse_ip (s : str) : option IpAddr :=
  match read_ipv4_addr s with
  | Some (bits, rest) => if is_empty rest then Some (V4 bits) else None
  | None => '(bits, rest) ← read_ipv6_addr s; if is_empty rest then Some (V6 bits) else None
  end.

(** ** Classification *)

Definition octet (i : N) (ip : N) : N := N.land (N.shiftr ip (8 * (3 - i))) 255.
Definition segment (i : N) (ip : N) : N := N.land (N.shiftr ip (16 * (7 - i))) 65535.

Definition ipv4 (a b c d : N) : N := (((a * 256 + b) * 256 + c) * 256 + d)%N.
Definition LOCALHOST4 : N := ipv4 127 0 0 1.
Definition LOCALHOST6 : N := 1.

Definition ipv4_is_loopback (ip : N) : bool := (octet 0 ip =? 127)%N.
Definition ipv4_is_private (ip : N) : bool :=
  ((octet 0 ip =? 10)
   || (octet 0 ip =? 172) && (16 <=? octet 1 ip) && (octet 1 ip <=? 31)
   || (octet 0 ip =? 192) && (octet 1 ip =? 168))%N.
Definition ipv4_is_link_local (ip : N) : bool := ((octet 0 ip =? 169) && (octet 1 ip =? 254))%N.
Definition ipv4_is_unspecified (ip : N) : bool := (ip =? 0)%N.
Definition ipv4_is_multicast (ip : N) : bool := ((224 <=? octet 0 ip) && (octet 0 ip <=? 239))%N.
Definition ipv4_is_broadcast (ip : N) : bool := (ip =? ipv4 255 255 255 255)%N.

Definition ipv6_is_loopback (ip : N) : bool := (ip =? LOCALHOST6)%N.
Definition ipv6_is_unspecified (ip : N) : bool := (ip =? 0)%N.
Definition ipv6_is_multicast (ip : N) : bool := (N.land (segment 0 ip) 65280 =? 65280)%N.
Definition ipv6_is_unique_local (ip : N) : bool := (N.land (segment 0 ip) 65024 =? 64512)%N.
Definition ipv6_is_unicast_link_local (ip : N) : bool := (N.land (segment 0 ip) 65472 =? 65152)%N.

(** [Ipv6Addr::to_ipv4]: compatible and mapped addresses. *)
Definition ipv6_to_ipv4 (ip : N) : option N :=
  if (forallb (fun i => segment i ip =? 0) [0; 1; 2; 3; 4]
      && ((segment 5 ip =? 0) || (segment 5 ip =? 65535)))%N
  then Some (segment 6 ip * 65536 + segment 7 ip)%N else None.

Definition is_loopback (ip : IpAddr) : bool :=
  match ip with V4 ip => ipv4_is_loopback ip | V6 ip => ipv6_is_loopback ip end.

(** ** Addresses that are not public (policy.rs) *)

Definition U32_MAX : N := 4294967295.

Definition ipv4_in_cidr (ip base prefix : N) : bool :=
  let mask := if (prefix =? 0)%N then 0%N else N.land (N.shiftl U32_MAX (32 - prefix)) U32_MAX in
  (N.land ip mask =? N.land base mask)%N.

Definition is_non_public_ipv4 (ip : N) : bool :=
  ipv4_is_loopback ip || ipv4_is_private ip || ipv4_is_link_local ip || ipv4_is_unspecified ip
  || ipv4_is_multicast ip || ipv4_is_broadcast ip
  || ipv4_in_cidr ip (ipv4 0 0 0 0) 8 || ipv4_in_cidr ip (ipv4 100 64 0 0) 10
  || ipv4_in_cidr ip (ipv4 192 0 0 0) 24 || ipv4_in_cidr ip (ipv4 192 0 2 0) 24
  || ipv4_in_cidr ip (ipv4 198 18 0 0) 15 || ipv4_in_cidr ip (ipv4 198 51 100 0) 24
  || ipv4_in_cidr ip (ipv4 203 0 113 0) 24 || ipv4_in_cidr ip (ipv4 240 0 0 0) 4.

Definition is_non_public_ipv6 (ip : N) : bool :=
  match ipv6_to_ipv4 ip with
  | Some v4 => is_non_public_ipv4 v4 || ipv6_is_loopback ip
  | None => ipv6_is_loopback ip || ipv6_is_unspecified ip || ipv6_is_multicast ip
            || ipv6_is_unique_local ip || ipv6_is_unicast_link_local ip
  end.

Definition is_non_public_ip (ip : IpAddr) : bool :=
  match ip with V4 ip => is_non_public_ipv4 ip | V6 ip => is_non_public_ipv6 ip end.

(** ** As intervals *)

Definition in_range (ip : N) (range : N * N) : bool := ((range.1 <=? ip) && (ip <=? range.2))%N.

Definition cidr (base prefix : N) : N * N := (base, base + 2 ^ (32 - prefix) - 1)%N.

Definition non_public_ranges4 : list (N * N) :=
  [cidr (ipv4 0 0 0 0) 8; cidr (ipv4 10 0 0 0) 8; cidr (ipv4 100 64 0 0) 10;
   cidr (ipv4 127 0 0 0) 8; cidr (ipv4 169 254 0 0) 16; cidr (ipv4 172 16 0 0) 12;
   cidr (ipv4 192 0 0 0) 24; cidr (ipv4 192 0 2 0) 24; cidr (ipv4 192 168 0 0) 16;
   cidr (ipv4 198 18 0 0) 15; cidr (ipv4 198 51 100 0) 24; cidr (ipv4 203 0 113 0) 24;
   (ipv4 224 0 0 0, U32_MAX)].

Definition MAPPED : N := (65535 * 2 ^ 32)%N.
Definition shifted (offset : N) (range : N * N) : N * N := (offset + range.1, offset + range.2)%N.
Definition top (segment width : N) : N * N :=
  (segment * 2 ^ 112, (segment + width) * 2 ^ 112 - 1)%N.

(** The IPv4 ranges, compatible and mapped; fc00::/7, fe80::/10, ff00::/8. *)
Definition non_public_ranges6 : list (N * N) :=
  non_public_ranges4 ++ map (shifted MAPPED) non_public_ranges4
  ++ [top 64512 512; top 65152 64; top 65280 256].

Example parse_ip_texts :
  map parse_ip [$"127.0.0.1"; $"::1"; $"::ffff:10.0.0.1"; $"1:2:3:4:5:6:7:8"; $"1::"; $"::"]
  = [Some (V4 LOCALHOST4); Some (V6 1); Some (V6 (MAPPED + ipv4 10 0 0 0 + 1));
     Some (V6 (number 65536 [1; 2; 3; 4; 5; 6; 7; 8]%N)); Some (V6 (2 ^ 112)); Some (V6 0)]
  /\ map parse_ip [$"1.2.3"; $"01.2.3.4"; $"1.2.3.256"; $"fe80::1%lo0"; $"1:2:3:4:5:6:7::8:9"; $"1.2.3.4."; $"0x7f.1"]
     = repeat None 7.
Proof. by vm_compute. Qed.

(** ** Bounds of what is parsed *)

Lemma number_snoc radix ds d : number radix (ds ++ [d]) = (number radix ds * radix + d)%N.
Proof. unfold number. by rewrite fold_left_app. Qed.

Lemma number_bound radix ds : Forall (fun d => d < radix)%N ds ->
  (number radix ds < radix ^ N.of_nat (length ds))%N.
Proof.
  induction ds as [|d ds IH] using rev_ind; intros H; [simpl; rewrite N.pow_0_r; unfold number; simpl; lia|].
  apply Forall_app in H as [H Hd]. apply Forall_inv in Hd. specialize (IH H).
  rewrite number_snoc, length_app, Nat2N.inj_add, N.pow_add_r. cbn [length N.of_nat Pos.of_succ_nat].
  rewrite N.pow_1_r. nia.
Qed.

Lemma read_number_bound radix limit k z s n rest :
  read_number radix limit k z s = Some (n, rest) -> (n <= limit)%N.
Proof.
  unfold read_number. destruct (read_digits radix s) as [ds r]. cbv zeta.
  destruct (_ || _); [done|]. destruct (_ && _); [done|].
  destruct (limit <? number radix ds)%N eqn:E; [done|]. intros [= <- _]. by apply N.ltb_ge.
Qed.

Lemma read_octets_bound slots : forall first acc s n rest,
  read_octets slots first acc s = Some (n, rest) -> (n < (acc + 1) * 256 ^ N.of_nat slots)%N.
Proof.
  induction slots as [|slots IH]; intros first acc s n rest; cbn [read_octets].
  - intros [= <- _]. simpl. lia.
  - destruct (read_separator DOT first s) as [s'|]; [cbn|done].
    destruct (read_number 10 255 3 false s') as [[o r]|] eqn:E; [cbn|done]. intros Hr.
    apply read_number_bound in E. apply IH in Hr. rewrite Nat2N.inj_succ, N.pow_succ_r'. nia.
Qed.

Lemma read_ipv4_bound s n rest : read_ipv4_addr s = Some (n, rest) -> (n < 2 ^ 32)%N.
Proof. intros H%read_octets_bound. simpl in *. lia. Qed.

Lemma read_groups_bound slots : forall first s,
  let '(gs, _, _) := read_groups slots first s in
  Forall (fun g => g < 65536)%N gs /\ length gs <= slots.
Proof.
  induction slots as [|slots IH]; intros first s; cbn [read_groups]; [split; [constructor|simpl; lia]|].
  set (ip := if 1 <=? slots then _ else _).
  destruct ip as [[bits rest]|] eqn:E.
  - unfold ip in E. destruct slots as [|slots]; [done|]. simpl in E.
    destruct (read_separator COLON first s); [|done]. apply read_ipv4_bound in E.
    split; [|simpl; lia]. repeat constructor; [apply N.Div0.div_lt_upper_bound|apply N.mod_lt]; lia.
  - destruct (s' ← read_separator COLON first s; read_number 16 65535 4 true s') as [[g rest]|] eqn:Eg;
      [|split; [constructor|simpl; lia]].
    destruct (read_separator COLON first s); [|done]. apply read_number_bound in Eg.
    specialize (IH false rest). destruct (read_groups slots false rest) as [[gs v4] r].
    destruct IH. split; [constructor; [lia|done]|simpl; lia].
Qed.

Lemma read_ipv6_bound s n rest : read_ipv6_addr s = Some (n, rest) -> (n < 2 ^ 128)%N.
Proof.
  unfold read_ipv6_addr. pose proof (read_groups_bound 8 true s) as Hh.
  destruct (read_groups 8 true s) as [[head v4] r]. destruct Hh as [Hh Hl].
  destruct (length head =? 8) eqn:E.
  { intros [= <- _]. apply Nat.eqb_eq in E. pose proof (number_bound _ _ Hh) as B. by rewrite E in B. }
  destruct v4; [done|]. destruct r as [|c [|d r]]; [done..|]. case_if; [|done].
  pose proof (read_groups_bound (8 - (length head + 1)) true r) as Ht.
  destruct (read_groups _ true r) as [[tail v4] r']. destruct Ht as [Ht Hn]. intros [= <- _].
  assert (Ha : Forall (fun g => g < 65536)%N (head ++ repeat 0%N (8 - length head - length tail) ++ tail)).
  { repeat (apply Forall_app; split); [done| |done]. apply List.Forall_forall. intros x ->%repeat_spec. lia. }
  apply number_bound in Ha. rewrite !length_app, repeat_length in Ha. apply Nat.eqb_neq in E.
  replace (length head + _) with 8 in Ha by lia. done.
Qed.

Definition ip_wf (ip : IpAddr) : Prop :=
  match ip with V4 bits => (bits < 2 ^ 32)%N | V6 bits => (bits < 2 ^ 128)%N end.

Lemma parse_ip_wf s ip : parse_ip s = Some ip -> ip_wf ip.
Proof.
  unfold parse_ip. destruct (read_ipv4_addr s) as [[b r]|] eqn:E.
  - case_if; [|done]. intros [= <-]. by eapply read_ipv4_bound.
  - destruct (read_ipv6_addr s) as [[b r]|] eqn:E6; [cbn|done]. case_if; [|done].
    intros [= <-]. by eapply read_ipv6_bound.
Qed.

(** ** Masks and intervals *)

Lemma octet_div i ip : octet i ip = ((ip / 2 ^ (8 * (3 - i))) mod 256)%N.
Proof. unfold octet. rewrite N.shiftr_div_pow2. exact (N.land_ones _ 8). Qed.

Lemma segment_div i ip : segment i ip = ((ip / 2 ^ (16 * (7 - i))) mod 65536)%N.
Proof. unfold segment. rewrite N.shiftr_div_pow2. exact (N.land_ones _ 16). Qed.

(** The mask of a prefix clears the low bits. *)
Lemma land_mask ip k : (ip < 2 ^ 32)%N -> (k <= 32)%N ->
  N.land ip (N.land (N.shiftl U32_MAX k) U32_MAX) = (ip / 2 ^ k * 2 ^ k)%N.
Proof.
  intros Hi Hk. rewrite (N.land_comm (N.shiftl _ _)), N.land_assoc.
  change U32_MAX with (N.ones 32) at 1. rewrite N.land_ones, N.mod_small by done.
  rewrite <- N.shiftl_mul_pow2, <- N.shiftr_div_pow2. apply N.bits_inj. intros i.
  rewrite N.land_spec. destruct (N.lt_ge_cases i k) as [L|L].
  { rewrite !N.shiftl_spec_low by done. apply andb_false_r. }
  rewrite !N.shiftl_spec_high', N.shiftr_spec' by done. replace (i - k + k)%N with i by lia.
  change U32_MAX with (N.ones 32). destruct (N.lt_ge_cases (i - k) 32) as [M|M].
  { rewrite N.ones_spec_low by done. apply andb_true_r. }
  rewrite N.ones_spec_high by done. rewrite andb_false_r. symmetry.
  apply N.bits_above_log2. destruct (N.eq_dec ip 0%N) as [->|]; [simpl; lia|].
  assert (N.log2 ip < 32)%N by (apply N.log2_lt_pow2; lia). lia.
Qed.

Lemma ipv4_in_cidr_range ip base prefix :
  (ip < 2 ^ 32)%N -> (base < 2 ^ 32)%N -> (0 < prefix <= 32)%N ->
  (base mod 2 ^ (32 - prefix) = 0)%N ->
  ipv4_in_cidr ip base prefix = in_range ip (cidr base prefix).
Proof.
  intros Hi Hb Hp Hm. unfold ipv4_in_cidr, in_range, cidr. cbn [fst snd].
  destruct (prefix =? 0)%N eqn:E; [apply N.eqb_eq in E; lia|]. rewrite !land_mask by (lia || done).
  assert (Hw : (0 < 2 ^ (32 - prefix))%N) by (apply N.neq_0_lt_0, N.pow_nonzero; lia).
  generalize dependent (2 ^ (32 - prefix))%N. intros w Hm Hw.
  pose proof (N.div_mod' ip w) as Ei. pose proof (N.div_mod' base w) as Eb.
  pose proof (N.mod_lt ip w ltac:(lia)) as Hr. rewrite Hm in Eb.
  generalize dependent (ip mod w)%N. generalize dependent (base / w)%N. generalize dependent (ip / w)%N.
  intros q b Eb r Ei Hr. apply eq_true_iff_eq. rewrite andb_true_iff, N.eqb_eq, !N.leb_le.
  split; [intros E'; split; lia|]. intros [? ?].
  assert (q < b + 1)%N by (apply (N.mul_lt_mono_pos_l w); lia).
  assert (b < q + 1)%N by (apply (N.mul_lt_mono_pos_l w); lia). assert (q = b) as -> by lia. done.
Qed.

(** Octets and segments of an address in range, and sums of powers, for [lia]. *)
Ltac Zify.zify_post_hook ::= Z.div_mod_to_equations.

Ltac intervals :=
  apply eq_true_iff_eq; unfold in_range; cbn [fst snd];
  repeat (rewrite orb_true_iff || rewrite andb_true_iff || rewrite N.eqb_eq || rewrite N.leb_le);
  lia.

(** The octets and segments used, with their powers computed. *)
Lemma octet_0 ip : octet 0 ip = ((ip / 16777216) mod 256)%N.
Proof. apply octet_div. Qed.
Lemma octet_1 ip : octet 1 ip = ((ip / 65536) mod 256)%N.
Proof. apply octet_div. Qed.

Lemma ipv4_loopback_range ip : (ip < 2 ^ 32)%N ->
  ipv4_is_loopback ip = in_range ip (2130706432, 2147483647)%N.
Proof. intros H. unfold ipv4_is_loopback. rewrite octet_0. intervals. Qed.

Lemma ipv4_private_ranges ip : (ip < 2 ^ 32)%N ->
  ipv4_is_private ip = in_range ip (167772160, 184549375)%N || in_range ip (2886729728, 2887778303)%N
                       || in_range ip (3232235520, 3232301055)%N.
Proof. intros H. unfold ipv4_is_private. rewrite octet_0, octet_1. intervals. Qed.

Lemma ipv4_link_local_range ip : (ip < 2 ^ 32)%N ->
  ipv4_is_link_local ip = in_range ip (2851995648, 2852061183)%N.
Proof. intros H. unfold ipv4_is_link_local. rewrite octet_0, octet_1. intervals. Qed.

Lemma ipv4_multicast_range ip : (ip < 2 ^ 32)%N ->
  ipv4_is_multicast ip = in_range ip (3758096384, 4026531839)%N.
Proof. intros H. unfold ipv4_is_multicast. rewrite octet_0. intervals. Qed.

Lemma non_public_ranges4_eq : non_public_ranges4 =
  [(0, 16777215); (167772160, 184549375); (1681915904, 1686110207); (2130706432, 2147483647);
   (2851995648, 2852061183); (2886729728, 2887778303); (3221225472, 3221225727);
   (3221225984, 3221226239); (3232235520, 3232301055); (3323068416, 3323199487);
   (3325256704, 3325256959); (3405803776, 3405804031); (3758096384, 4294967295)]%N.
Proof. by vm_compute. Qed.

Ltac cidr_range :=
  rewrite ipv4_in_cidr_range by (done || (vm_compute; split; done)); f_equal; by vm_compute.

Lemma cidr_ranges ip : (ip < 2 ^ 32)%N ->
  ipv4_in_cidr ip (ipv4 0 0 0 0) 8 = in_range ip (0, 16777215)%N
  /\ ipv4_in_cidr ip (ipv4 100 64 0 0) 10 = in_range ip (1681915904, 1686110207)%N
  /\ ipv4_in_cidr ip (ipv4 192 0 0 0) 24 = in_range ip (3221225472, 3221225727)%N
  /\ ipv4_in_cidr ip (ipv4 192 0 2 0) 24 = in_range ip (3221225984, 3221226239)%N
  /\ ipv4_in_cidr ip (ipv4 198 18 0 0) 15 = in_range ip (3323068416, 3323199487)%N
  /\ ipv4_in_cidr ip (ipv4 198 51 100 0) 24 = in_range ip (3325256704, 3325256959)%N
  /\ ipv4_in_cidr ip (ipv4 203 0 113 0) 24 = in_range ip (3405803776, 3405804031)%N
  /\ ipv4_in_cidr ip (ipv4 240 0 0 0) 4 = in_range ip (4026531840, 4294967295)%N.
Proof. intros H. repeat split; cidr_range. Qed.

Lemma is_non_public_ipv4_ranges ip : (ip < 2 ^ 32)%N ->
  is_non_public_ipv4 ip = existsb (in_range ip) non_public_ranges4.
Proof.
  intros H. rewrite non_public_ranges4_eq. unfold is_non_public_ipv4.
  destruct (cidr_ranges ip H) as (-> & -> & -> & -> & -> & -> & -> & ->).
  rewrite ipv4_loopback_range, ipv4_private_ranges, ipv4_link_local_range, ipv4_multicast_range by done.
  unfold ipv4_is_unspecified, ipv4_is_broadcast.
  assert (E : ipv4 255 255 255 255 = 4294967295%N) by by vm_compute. rewrite E.
  cbn [existsb]. rewrite orb_false_r. intervals.
Qed.

(** ** IPv6 *)

Lemma segment_mask x k : (x < 65536)%N -> (k <= 16)%N ->
  N.land x (N.land 65535 (N.land (N.shiftl U32_MAX k) U32_MAX)) = (x / 2 ^ k * 2 ^ k)%N.
Proof.
  intros Hx Hk. rewrite N.land_assoc. rewrite (N.land_ones x 16 : N.land x 65535 = _), N.mod_small by done.
  apply land_mask; lia.
Qed.

Lemma segment_small i ip : (segment i ip < 65536)%N.
Proof. rewrite segment_div. by apply N.mod_lt. Qed.

Lemma segment_0 ip : (ip < 2 ^ 128)%N -> segment 0 ip = (ip / 2 ^ 112)%N.
Proof.
  intros H. rewrite segment_div. change (16 * (7 - 0))%N with 112%N. apply N.mod_small.
  apply N.Div0.div_lt_upper_bound. done.
Qed.

(** The addresses whose first segment has a given prefix. *)
Lemma top_range ip k base :
  (ip < 2 ^ 128)%N -> (k <= 16)%N -> (base mod 2 ^ k = 0)%N ->
  (N.land (segment 0 ip) (N.land 65535 (N.land (N.shiftl U32_MAX k) U32_MAX)) =? base)%N
  = in_range ip (top base (2 ^ k)).
Proof.
  intros H Hk Hb. rewrite segment_mask by (apply segment_small || done). rewrite segment_0 by done.
  assert (Hw : (0 < 2 ^ k)%N) by (apply N.neq_0_lt_0, N.pow_nonzero; lia).
  unfold in_range, top. cbn [fst snd]. assert (Hw' : (0 < 2 ^ 112)%N) by done.
  pose proof (N.div_mod' base (2 ^ k)) as Eb. rewrite Hb in Eb.
  pose proof (N.div_mod' ip (2 ^ 112)) as Ei. pose proof (N.mod_lt ip (2 ^ 112) ltac:(lia)) as Hr.
  pose proof (N.div_mod' (ip / 2 ^ 112) (2 ^ k)) as Eq.
  pose proof (N.mod_lt (ip / 2 ^ 112) (2 ^ k) ltac:(lia)) as Hq.
  clear H Hk Hb. generalize dependent (2 ^ 112)%N. generalize dependent (2 ^ k)%N. intros w Hw Eb v Hv Ei Hr Eq Hq.
  generalize dependent (ip / v)%N. intros s Ei Eq Hq. generalize dependent (ip mod v)%N. intros r Ei Hr.
  generalize dependent (s mod w)%N. generalize dependent (s / w)%N. intros q m Eq Hm.
  apply eq_true_iff_eq. rewrite andb_true_iff, N.eqb_eq, !N.leb_le. split.
  - intros E. assert (base <= s <= base + w - 1)%N as [? ?] by lia. split; [nia|].
    assert (s + 1 <= base + w)%N by lia. nia.
  - intros [H1 H2]. assert (base <= s)%N by nia. assert (s < base + w)%N by nia.
    generalize dependent (base / w)%N. intros b Eb. assert (q < b + 1)%N by nia. assert (b < q + 1)%N by nia. nia.
Qed.

Lemma segments_zero ip : (ip < 2 ^ 128)%N ->
  forallb (fun i => segment i ip =? 0)%N [0; 1; 2; 3; 4]%N = (ip <? 2 ^ 48)%N.
Proof.
  intros H. cbn [forallb]. rewrite segment_0 by done. rewrite !segment_div.
  change (2 ^ (16 * (7 - 1)))%N with (2 ^ 96)%N. change (2 ^ (16 * (7 - 2)))%N with (2 ^ 80)%N.
  change (2 ^ (16 * (7 - 3)))%N with (2 ^ 64)%N. change (2 ^ (16 * (7 - 4)))%N with (2 ^ 48)%N.
  apply eq_true_iff_eq. rewrite !andb_true_iff, !N.eqb_eq, N.ltb_lt. lia.
Qed.

Lemma ipv6_to_ipv4_spec ip : (ip < 2 ^ 128)%N ->
  ipv6_to_ipv4 ip = if (ip <? 2 ^ 32)%N then Some ip
                    else if in_range ip (281470681743360, 281474976710655)%N
                    then Some (ip - 281470681743360)%N else None.
Proof.
  intros H. unfold ipv6_to_ipv4. rewrite segments_zero by done. rewrite !segment_div.
  change (2 ^ (16 * (7 - 5)))%N with (2 ^ 32)%N. change (2 ^ (16 * (7 - 6)))%N with (2 ^ 16)%N.
  change (2 ^ (16 * (7 - 7)))%N with 1%N. rewrite N.div_1_r. unfold in_range. cbn [fst snd].
  destruct (ip <? 2 ^ 48)%N eqn:E; cbn [andb].
  - destruct (ip <? 2 ^ 32)%N eqn:E'.
    + replace (_ || _) with true by lia. f_equal. lia.
    + destruct (_ && _) eqn:Er; [replace (_ || _) with true by lia; f_equal; lia|].
      replace (_ || _) with false; [done|]. lia.
  - replace (ip <? 2 ^ 32)%N with false by lia. by replace (_ && _) with false by lia.
Qed.

Lemma non_public_ranges6_eq : non_public_ranges6 =
  non_public_ranges4 ++ map (shifted 281470681743360) non_public_ranges4
  ++ [top 64512 512; top 65152 64; top 65280 256].
Proof. by vm_compute. Qed.

Lemma in_shifted d ip range : (d <= ip)%N -> in_range (ip - d) range = in_range ip (shifted d range).
Proof. intros H. unfold in_range, shifted. cbn [fst snd]. lia. Qed.

Lemma existsb_shifted d ip l : (d <= ip)%N ->
  existsb (in_range (ip - d)) l = existsb (in_range ip) (map (shifted d) l).
Proof. intros H. induction l as [|r l IH]; [done|]. cbn. by rewrite in_shifted, IH. Qed.

(** Nothing of a list of ranges that lie below, or above. *)
Lemma existsb_out ip l :
  (Forall (fun r => r.2 < ip)%N l \/ Forall (fun r => ip < r.1)%N l) -> existsb (in_range ip) l = false.
Proof. intros [H|H]; induction H as [|r l Hr _ IH]; try done; cbn; rewrite IH; unfold in_range; lia. Qed.

Definition tops : list (N * N) := [top 64512 512; top 65152 64; top 65280 256].

Lemma tops_spec ip : (ip < 2 ^ 128)%N ->
  existsb (in_range ip) tops
  = ipv6_is_multicast ip || ipv6_is_unique_local ip || ipv6_is_unicast_link_local ip.
Proof.
  intros H. cbn [existsb tops]. rewrite orb_false_r.
  pose proof (top_range ip 9 64512 H ltac:(done) ltac:(done)) as E1.
  pose proof (top_range ip 6 65152 H ltac:(done) ltac:(done)) as E2.
  pose proof (top_range ip 8 65280 H ltac:(done) ltac:(done)) as E3.
  change (2 ^ 9)%N with 512%N in E1. change (2 ^ 6)%N with 64%N in E2. change (2 ^ 8)%N with 256%N in E3.
  rewrite <- E1, <- E2, <- E3.
  unfold ipv6_is_multicast, ipv6_is_unique_local, ipv6_is_unicast_link_local.
  change (N.land 65535 (N.land (N.shiftl U32_MAX 9) U32_MAX)) with 65024%N.
  change (N.land 65535 (N.land (N.shiftl U32_MAX 6) U32_MAX)) with 65472%N.
  change (N.land 65535 (N.land (N.shiftl U32_MAX 8) U32_MAX)) with 65280%N. btauto.
Qed.

Lemma tops_high ip : (ip < 2 ^ 48)%N -> existsb (in_range ip) tops = false.
Proof. intros H. apply existsb_out. right. repeat constructor; unfold top; cbn [fst]; lia. Qed.

Lemma ranges4_low ip : (2 ^ 32 <= ip)%N -> existsb (in_range ip) non_public_ranges4 = false.
Proof. intros H. apply existsb_out. left. rewrite non_public_ranges4_eq. repeat constructor; cbn [snd]; lia. Qed.

Lemma ranges4_shifted_out ip :
  in_range ip (281470681743360, 281474976710655)%N = false ->
  existsb (in_range ip) (map (shifted 281470681743360) non_public_ranges4) = false.
Proof.
  unfold in_range. cbn [fst snd]. intros H. apply existsb_out. rewrite non_public_ranges4_eq.
  destruct (281470681743360 <=? ip)%N eqn:E; [left|right]; repeat constructor; unfold shifted; cbn [fst snd]; lia.
Qed.

Lemma is_non_public_ipv6_ranges ip : (ip < 2 ^ 128)%N ->
  is_non_public_ipv6 ip = existsb (in_range ip) non_public_ranges6.
Proof.
  intros H. rewrite non_public_ranges6_eq, !existsb_app. fold tops.
  unfold is_non_public_ipv6. rewrite ipv6_to_ipv4_spec by done. destruct (ip <? 2 ^ 32)%N eqn:E.
  - rewrite tops_high, ranges4_shifted_out by (unfold in_range; cbn [fst snd]; lia).
    rewrite is_non_public_ipv4_ranges, !orb_false_r by lia.
    destruct (ipv6_is_loopback ip) eqn:El; [|apply orb_false_r].
    apply N.eqb_eq in El as ->. by vm_compute.
  - rewrite ranges4_low by lia. destruct (in_range ip _) eqn:Em.
    + unfold in_range in Em. cbn [fst snd] in Em. rewrite tops_high by lia.
      rewrite is_non_public_ipv4_ranges, existsb_shifted, orb_false_r by lia.
      replace (ipv6_is_loopback ip) with false by (unfold ipv6_is_loopback, LOCALHOST6; lia).
      apply orb_false_r.
    + rewrite ranges4_shifted_out, tops_spec by done.
      replace (ipv6_is_loopback ip) with false by (unfold ipv6_is_loopback, LOCALHOST6; lia).
      by replace (ipv6_is_unspecified ip) with false by (unfold ipv6_is_unspecified; lia).
Qed.

(** An address counts as not public exactly when it lies in one of the listed
    ranges: for IPv4 thirteen intervals (this network, private, shared, loopback,
    link-local, the reserved blocks, multicast and above), for IPv6 the same as
    compatible and as mapped addresses, and unique-local, link-local and
    multicast addresses.  Whatever a text parses to has an address in bounds. *)
Theorem non_public_addresses :
  (forall s ip, parse_ip s = Some ip -> ip_wf ip)
  /\ (forall ip, ip_wf ip ->
        is_non_public_ip ip
        = existsb (in_range (match ip with V4 bits | V6 bits => bits end))
            (match ip with V4 _ => non_public_ranges4 | V6 _ => non_public_ranges6 end)).
Proof.
  split; [apply parse_ip_wf|]. intros [ip|ip] H; [by apply is_non_public_ipv4_ranges|].
  by apply is_non_public_ipv6_ranges.
Qed.

Lemma non_public_addresses_witness :
  parse_ip ($"::ffff:192.168.0.7") = Some (V6 281473913978887) /\ ip_wf (V6 281473913978887)
  /\ is_non_public_ip (V6 281473913978887)
     = existsb (in_range 281473913978887) non_public_ranges6
  /\ existsb (in_range 281473913978887) non_public_ranges6 = true.
Proof.
  assert (E : parse_ip ($"::ffff:192.168.0.7") = Some (V6 281473913978887)) by by vm_compute.
  destruct non_public_addresses as [Hwf Hin].
  refine (conj E (conj (Hwf _ _ E) (conj (Hin _ (Hwf _ _ E)) _))). by vm_compute.
Defined.
