(* ===== verification/NetworkHost.v ===== *)
(** * Hosts and domain patterns (network-proxy/src/policy.rs)

    How the proxy brings host names and patterns into normal form, which globs a
    pattern stands for, and the comparison of patterns that managed constraints
    use.  The crates globset and url are a class: how a glob compiles with given
    options, whether a set of globs can be built, and the text of the host that
    [url::Host::parse] accepts. *)

From S2P Require Import Prelude RustStr IpAddr.

Definition PERCENT : char := 37%N.
Definition STAR : char := 42%N.
Definition QUESTION : char := 63%N.
Definition LBRACKET : char := 91%N.
Definition RBRACKET : char := 93%N.

(** Options left alone depend on the platform ([backslash_escape]) or are off. *)
Record GlobOptions : Type := mkGlobOptions {
  case_insensitive : bool;
  literal_separator : bool;
  backslash_escape : option bool;
}.

Class HostCrates : Type := {
  glob_build : GlobOptions -> str -> option (str -> bool);
  globset_build : list str -> bool;
  url_host : str -> option str;
}.

(** ** Hosts in normal form *)

Definition unscoped_ip_literal (host : str) : option str :=
  '(ip, _) ← split_once PERCENT host;
  _ ← parse_ip ip;
  Some ip.

Definition normalize_ip_literal (host : str) : option str :=
  if is_some (parse_ip host) then Some host
  else find_map (fun delimiter =>
         '(ip, scope) ← split_once_str delimiter host;
         if is_some (parse_ip ip) then Some (ip ++ [PERCENT] ++ scope) else None)
       [$"%25"; $"%"].

Definition normalize_dns_host_or_ip_literal (host : str) : str :=
  let host := trim_end_matches DOT (to_ascii_lowercase host) in
  default host (normalize_ip_literal host).

Definition bracketed (host : str) : option str :=
  if starts_with host [LBRACKET]
  then until ← find_str [RBRACKET] host; Some (take (until - 1) (drop 1 host))
  else None.

Definition normalize_host (host : str) : str :=
  let host := trim host in
  match bracketed host with
  | Some inside => normalize_dns_host_or_ip_literal inside
  | None =>
      if count_char COLON host =? 1
      then normalize_dns_host_or_ip_literal (default [] (head (split_char COLON host)))
      else normalize_dns_host_or_ip_literal host
  end.

(** [Host::parse]. *)
Definition Host_parse (input : str) : option str :=
  let normalized := normalize_host input in
  if is_empty normalized then None else Some normalized.

Definition is_loopback_host (host : str) : bool :=
  let host := default host (unscoped_ip_literal host) in
  if bool_decide (host = $"localhost") then true
  else match parse_ip host with Some ip => is_loopback ip | None => false end.

Definition is_default_proxy_bypass_host (host : str) : bool :=
  let host := normalize_host host in
  match parse_ip host with
  | Some (V4 ip) => (ip =? LOCALHOST4)%N || ipv4_is_private ip
  | Some (V6 ip) => (ip =? LOCALHOST6)%N
  | None => bool_decide (host = $"localhost") || ends_with host ($".localhost")
  end.

(** ** Patterns *)

Definition DEEP : str := $"**.".
Definition SUB : str := $"*.".

Definition normalize_pattern (pattern : str) : str :=
  let pattern := trim pattern in
  if bool_decide (pattern = [STAR]) then [STAR]
  else match strip_prefix DEEP pattern with
       | Some domain => DEEP ++ normalize_host domain
       | None => match strip_prefix SUB pattern with
                 | Some domain => SUB ++ normalize_host domain
                 | None => normalize_host pattern
                 end
       end.

Inductive DomainPattern : Type :=
| ApexAndSubdomains (domain : str)
| SubdomainsOnly (domain : str)
| Exact (domain : str).

Definition parse_domain (domain : str) (build : str -> DomainPattern) : DomainPattern :=
  let domain := trim domain in if is_empty domain then Exact [] else build domain.

Definition DomainPattern_parse (input : str) : DomainPattern :=
  let input := trim input in
  if is_empty input then Exact []
  else match strip_prefix DEEP input with
       | Some domain => parse_domain domain ApexAndSubdomains
       | None => match strip_prefix SUB input with
                 | Some domain => parse_domain domain SubdomainsOnly
                 | None => Exact input
                 end
       end.

Definition expand_domain_pattern (pattern : str) : list str :=
  match DomainPattern_parse pattern with
  | Exact domain => [domain]
  | SubdomainsOnly domain => [$"?*." ++ domain]
  | ApexAndSubdomains domain => [domain; $"?*." ++ domain]
  end.

Definition is_global_wildcard_domain_pattern (pattern : str) : bool :=
  existsb (fun candidate => bool_decide (candidate = [STAR]))
    (expand_domain_pattern (normalize_pattern pattern)).

(** ** Comparing patterns *)

Definition normalize_domain (domain : str) : str := to_ascii_lowercase (trim_end_matches DOT domain).

Definition domain_eq (left right : str) : bool :=
  bool_decide (normalize_domain left = normalize_domain right).

Definition is_subdomain_or_equal (child parent : str) : bool :=
  let child := normalize_domain child in
  let parent := normalize_domain parent in
  if bool_decide (child = parent) then true else ends_with child (DOT :: parent).

Definition is_strict_subdomain (child parent : str) : bool :=
  let child := normalize_domain child in
  let parent := normalize_domain parent in
  bool_decide (child <> parent) && ends_with child (DOT :: parent).

Definition allows (self candidate : DomainPattern) : bool :=
  match self, candidate with
  | Exact domain, Exact c => domain_eq c domain
  | Exact _, _ => false
  | SubdomainsOnly domain, Exact c => is_strict_subdomain c domain
  | SubdomainsOnly domain, SubdomainsOnly c => is_subdomain_or_equal c domain
  | SubdomainsOnly domain, ApexAndSubdomains c => is_strict_subdomain c domain
  | ApexAndSubdomains domain, Exact c
  | ApexAndSubdomains domain, SubdomainsOnly c
  | ApexAndSubdomains domain, ApexAndSubdomains c => is_subdomain_or_equal c domain
  end.

Section crates.
Context `{HostCrates}.

Definition parse_domain_for_constraints (domain : str) : str :=
  let domain := trim_end_matches DOT (trim domain) in
  if is_empty domain then []
  else
    let host := if starts_with domain [LBRACKET] && ends_with domain [RBRACKET]
                then take (length domain - 2) (drop 1 domain) else domain in
    if contains_char STAR host || contains_char QUESTION host || contains_char PERCENT host
    then domain
    else default [] (url_host host).

Definition parse_for_constraints (input : str) : DomainPattern :=
  let input := trim input in
  if is_empty input then Exact []
  else match strip_prefix DEEP input with
       | Some domain => ApexAndSubdomains (parse_domain_for_constraints domain)
       | None => match strip_prefix SUB input with
                 | Some domain => SubdomainsOnly (parse_domain_for_constraints domain)
                 | None => Exact (parse_domain_for_constraints input)
                 end
       end.

(** ** Sets of globs *)

Definition host_glob : GlobOptions := mkGlobOptions true false None.

Inductive GlobsetError : Type :=
| UnsupportedGlobalWildcard
| InvalidGlobPattern (candidate : str)
| SetNotBuilt.

(** A set is the list of its globs, each once. *)
Definition GlobSet : Type := list str.

Fixpoint add_candidates (candidates : list str) (seen : GlobSet) : result GlobSet GlobsetError :=
  match candidates with
  | [] => Ok seen
  | candidate :: rest =>
      if one_of candidate seen then add_candidates rest seen
      else match glob_build host_glob candidate with
           | Some _ => add_candidates rest (seen ++ [candidate])
           | None => Err (InvalidGlobPattern candidate)
           end
  end.

Fixpoint add_patterns (reject_global : bool) (patterns : list str) (seen : GlobSet)
  : result GlobSet GlobsetError :=
  match patterns with
  | [] => Ok seen
  | pattern :: rest =>
      if reject_global && is_global_wildcard_domain_pattern pattern
      then Err UnsupportedGlobalWildcard
      else let? seen := add_candidates (expand_domain_pattern (normalize_pattern pattern)) seen in
           add_patterns reject_global rest seen
  end.

Definition compile_globset_with_policy (patterns : list str) (reject_global : bool)
  : result GlobSet GlobsetError :=
  let? set := add_patterns reject_global patterns [] in
  if globset_build set then Ok set else Err SetNotBuilt.

Definition compile_allowlist_globset (patterns : list str) : result GlobSet GlobsetError :=
  compile_globset_with_policy patterns false.
Definition compile_denylist_globset (patterns : list str) : result GlobSet GlobsetError :=
  compile_globset_with_policy patterns true.

Definition glob_matches (pattern host : str) : bool :=
  match glob_build host_glob pattern with Some matches => matches host | None => false end.

(** [GlobSet::globset_is_match]: one of the globs matches. *)
Definition globset_is_match (set : GlobSet) (host : str) : bool := existsb (fun p => glob_matches p host) set.

End crates.

Example hosts_in_normal_form :
  map normalize_host
    [$"  ExAmPlE.CoM  "; $"example.com.:443"; $"2001:db8::1"; $"[::1]:443"; $"[fe80::1%25lo0]"; $"fe80::1%lo0"]
  = [$"example.com"; $"example.com"; $"2001:db8::1"; $"::1"; $"fe80::1%lo0"; $"fe80::1%lo0"]
  /\ map is_loopback_host [$"localhost"; $"127.8.0.1"; $"::1%lo0"; $"notlocalhost"; $"1.2.3.4"]
     = [true; true; true; false; false]
  /\ map (fun p => expand_domain_pattern (normalize_pattern p)) [$" *.Example.COM."; $"**.a.b"; $"*"; $"[::1]"]
     = [[$"?*.example.com"]; [$"a.b"; $"?*.a.b"]; [[STAR]]; [$"::1"]].
Proof. by vm_compute. Qed.
