(* ===== verification/NetworkPatterns.v ===== *)
(** * What domain patterns stand for (network-proxy/src/policy.rs)

    The comparison of domain patterns, and the globs they compile to; the normal
    form of a pattern does not depend on its case; for entries in plain
    characters, one that a managed one allows compiles to globs that match only
    hosts that those of the managed one match. *)

From S2P Require Import Prelude RustStr Wildcard IpAddr NetworkHost.

(** ** Domains below domains *)

Definition below (h domain : str) : Prop :=
  exists w, normalize_domain h = w ++ DOT :: normalize_domain domain.

Lemma subdomain_or_equal_iff c d :
  is_subdomain_or_equal c d = true <-> normalize_domain c = normalize_domain d \/ below c d.
Proof.
  unfold is_subdomain_or_equal, below. case_bool_decide as E; [by split; [left|]|].
  rewrite ends_with_true. split; [by right|by intros [?|?]].
Qed.

Lemma strict_subdomain_iff c d : is_strict_subdomain c d = true <-> below c d.
Proof.
  unfold is_strict_subdomain, below. rewrite andb_true_iff, bool_decide_eq_true, ends_with_true.
  split; [by intros [_ ?]|]. intros [w E]. split; [|by exists w]. intros E'. rewrite E' in E.
  apply (f_equal length) in E. rewrite length_app in E. simpl in E. lia.
Qed.

Lemma trim_end_matches_snoc c s d : d <> c -> trim_end_matches c (s ++ [d]) = s ++ [d].
Proof.
  intros H. unfold trim_end_matches. rewrite rev_app_distr. simpl. rewrite bool_decide_false by done.
  simpl. by rewrite rev_involutive.
Qed.

Lemma trim_end_matches_last c s : trim_end_matches c s = [] \/ exists t d, d <> c /\ trim_end_matches c s = t ++ [d].
Proof.
  unfold trim_end_matches. induction (rev s) as [|d r IH]; [by left|]. simpl. case_bool_decide; [done|].
  right. by exists (rev r), d.
Qed.

Lemma lower_dot c : char_to_ascii_lowercase c = DOT -> c = DOT.
Proof. intros H. by apply lowercase_char_special in H. Qed.

Lemma normalize_domain_lower d : to_ascii_lowercase (normalize_domain d) = normalize_domain d.
Proof. apply to_ascii_lowercase_idemp. Qed.

Lemma normalize_domain_last d :
  normalize_domain d = [] \/ exists m f, f <> DOT /\ normalize_domain d = m ++ [f].
Proof.
  unfold normalize_domain. destruct (trim_end_matches_last DOT d) as [->|(t & e & He & ->)]; [by left|right].
  exists (to_ascii_lowercase t), (char_to_ascii_lowercase e). split; [|apply lowercase_app].
  intros E. by apply lower_dot in E.
Qed.

(** What ends in a normal domain that is not empty is normal but for its case. *)
Lemma normalize_domain_app s d :
  normalize_domain d <> [] -> normalize_domain (s ++ normalize_domain d) = to_ascii_lowercase s ++ normalize_domain d.
Proof.
  intros H. destruct (normalize_domain_last d) as [?|(m & f & Hf & E)]; [done|].
  pose proof (normalize_domain_lower d) as El. revert El. rewrite E. intros El.
  unfold normalize_domain. rewrite app_assoc, trim_end_matches_snoc by done.
  by rewrite <- app_assoc, lowercase_app, El.
Qed.

Lemma normalize_domain_idemp d : normalize_domain (normalize_domain d) = normalize_domain d.
Proof.
  destruct (normalize_domain_last d) as [->|(m & f & Hf & E)]; [done|].
  rewrite <- (app_nil_l (normalize_domain d)) at 1. rewrite normalize_domain_app; [done|].
  rewrite E. by destruct m.
Qed.

(** A host directly below a domain, with one letter before the dot. *)
Lemma child_below c d : normalize_domain d <> [] -> c <> DOT ->
  below ([c; DOT] ++ normalize_domain d) d
  /\ normalize_domain ([c; DOT] ++ normalize_domain d) = [char_to_ascii_lowercase c; DOT] ++ normalize_domain d.
Proof.
  intros Hd Hc. rewrite normalize_domain_app by done. split; [|done].
  exists [char_to_ascii_lowercase c]. by rewrite normalize_domain_app.
Qed.

(** A domain that has a child of another is that other or lies above it. *)
Lemma child_inv c n m : c <> DOT ->
  (exists w, c :: DOT :: n = w ++ DOT :: m) -> n = m \/ exists w, n = w ++ DOT :: m.
Proof.
  intros Hc [[|a [|b w]] E].
  - by injection E as -> _.
  - injection E as -> E. by left.
  - injection E as -> <- E. right. by exists w.
Qed.

(** ** Case does not matter *)

Definition caseless (c : char) : Prop := (c < 65 \/ 91 <= c < 97)%N.

Lemma lower_caseless_iff c d : caseless c -> char_to_ascii_lowercase d = c <-> d = c.
Proof.
  intros H. split; [intros E; apply lowercase_char_special in E; [done|]|intros ->];
    unfold caseless in H; [lia|].
  unfold char_to_ascii_lowercase, is_ascii_upper. destruct (_ && _) eqn:E; [|done].
  apply andb_prop in E as [E1%N.leb_le E2%N.leb_le]. lia.
Qed.

Lemma lower_caseless c d : caseless c -> bool_decide (char_to_ascii_lowercase d = c) = bool_decide (d = c).
Proof. intros H. apply bool_decide_ext. by apply lower_caseless_iff. Qed.

Lemma lower_caseless' c d : caseless c -> bool_decide (c = char_to_ascii_lowercase d) = bool_decide (c = d).
Proof.
  intros H. rewrite (bool_decide_ext (c = char_to_ascii_lowercase d) (char_to_ascii_lowercase d = c)) by done.
  rewrite lower_caseless by done. by apply bool_decide_ext.
Qed.

Lemma strip_prefix_lower p s : Forall caseless p ->
  strip_prefix p (to_ascii_lowercase s) = to_ascii_lowercase <$> strip_prefix p s.
Proof.
  intros H. revert s. induction H as [|c p Hc _ IH]; intros s; [done|]. destruct s as [|d s]; [done|].
  simpl. rewrite lower_caseless', IH by done. by case_bool_decide.
Qed.

Lemma starts_with_lower p s : Forall caseless p -> starts_with (to_ascii_lowercase s) p = starts_with s p.
Proof. intros Hp. unfold starts_with. rewrite strip_prefix_lower by done. by destruct (strip_prefix p s). Qed.

Lemma starts_char_lower c s : caseless c -> starts_with (to_ascii_lowercase s) [c] = starts_with s [c].
Proof. intros Hc. apply starts_with_lower. by constructor. Qed.

Lemma find_char_lower c s : caseless c -> find_str [c] (to_ascii_lowercase s) = find_str [c] s.
Proof.
  intros Hc. induction s as [|d s IH]; [done|]. pose proof (starts_char_lower c (d :: s) Hc) as E.
  cbn [to_ascii_lowercase map] in *. cbn [find_str]. fold (to_ascii_lowercase s) in *. by rewrite E, IH.
Qed.

Lemma count_char_lower c s : caseless c -> count_char c (to_ascii_lowercase s) = count_char c s.
Proof.
  intros Hc. unfold count_char. induction s as [|d s IH]; [done|]. cbn [to_ascii_lowercase map].
  rewrite !filter_cons. pose proof (lower_caseless_iff c d Hc).
  do 2 case_decide; cbn [length]; rewrite <- ?IH; tauto.
Qed.

Lemma split_char_lower c s : caseless c -> split_char c (to_ascii_lowercase s) = map to_ascii_lowercase (split_char c s).
Proof.
  intros Hc. induction s as [|d s IH]; [done|]. simpl. rewrite lower_caseless, IH by done.
  case_bool_decide; [done|]. by destruct (split_char c s).
Qed.

Lemma dns_host_lower h :
  normalize_dns_host_or_ip_literal (to_ascii_lowercase h) = normalize_dns_host_or_ip_literal h.
Proof. unfold normalize_dns_host_or_ip_literal. by rewrite to_ascii_lowercase_idemp. Qed.

Lemma normalize_host_lower h : normalize_host (to_ascii_lowercase h) = normalize_host h.
Proof.
  assert (Hl : caseless LBRACKET) by (unfold caseless, LBRACKET; lia).
  assert (Hr : caseless RBRACKET) by (unfold caseless, RBRACKET; lia).
  assert (Hc : caseless COLON) by (unfold caseless, COLON; lia).
  unfold normalize_host, bracketed. rewrite trim_lowercase, starts_char_lower, find_char_lower, count_char_lower, split_char_lower by done.
  destruct (starts_with (trim h) [LBRACKET]); [destruct (find_str [RBRACKET] (trim h)) as [k|]|]; cbn.
  - unfold to_ascii_lowercase. rewrite skipn_map, firstn_map. apply dns_host_lower.
  - rewrite dns_host_lower. case_if; [|done]. destruct (split_char COLON (trim h)); [done|]. apply dns_host_lower.
  - rewrite dns_host_lower. case_if; [|done]. destruct (split_char COLON (trim h)); [done|]. apply dns_host_lower.
Qed.

Lemma lower_star s : bool_decide (to_ascii_lowercase s = [STAR]) = bool_decide (s = [STAR]).
Proof.
  apply bool_decide_ext. split; [|by intros ->]. destruct s as [|d [|e s]]; try done.
  intros [= E]. by apply lowercase_char_special in E as ->.
Qed.

(** The globs of a pattern are those of its text in lower case. *)
Lemma normalize_pattern_lower e : normalize_pattern (to_ascii_lowercase e) = normalize_pattern e.
Proof.
  assert (Hd : Forall caseless DEEP) by (repeat constructor; unfold caseless; lia).
  assert (Hs : Forall caseless SUB) by (repeat constructor; unfold caseless; lia).
  unfold normalize_pattern. rewrite trim_lowercase, lower_star, !strip_prefix_lower by done.
  case_if; [done|].
  destruct (strip_prefix DEEP (trim e)); cbn [fmap option_fmap option_map]; [by rewrite normalize_host_lower|].
  destruct (strip_prefix SUB (trim e)); cbn [fmap option_fmap option_map]; by rewrite normalize_host_lower.
Qed.

(** ** Compiled sets *)

Section compiled.
Context `{HostCrates}.

Definition pattern_matches (pattern host : str) : bool :=
  globset_is_match (expand_domain_pattern (normalize_pattern pattern)) host.

Lemma is_match_app s t h : globset_is_match (s ++ t) h = globset_is_match s h || globset_is_match t h.
Proof. apply existsb_app. Qed.

Lemma is_match_one s c h : one_of c s = true -> glob_matches c h = true -> globset_is_match s h = true.
Proof.
  intros Hc Hm. unfold one_of in Hc. apply existsb_exists in Hc as (x & Hx & E%bool_decide_eq_true).
  apply existsb_exists. exists x. split; [done|]. by rewrite <- E.
Qed.

Lemma add_candidates_match cs : forall seen set h, add_candidates cs seen = Ok set ->
  globset_is_match set h = globset_is_match seen h || globset_is_match cs h.
Proof.
  induction cs as [|c cs IH]; intros seen set h; cbn [add_candidates].
  { intros [= <-]. by rewrite orb_false_r. }
  destruct (one_of c seen) eqn:Ec.
  - intros ->%(fun E => IH _ _ h E). cbn [globset_is_match existsb]. fold (globset_is_match cs h).
    destruct (glob_matches c h) eqn:Em; [|done]. by rewrite (is_match_one seen c) by done.
  - destruct (glob_build host_glob c); [|done]. intros ->%(fun E => IH _ _ h E).
    rewrite is_match_app. cbn [globset_is_match existsb]. by rewrite orb_false_r, orb_assoc.
Qed.

Lemma add_patterns_match reject ps : forall seen set h, add_patterns reject ps seen = Ok set ->
  globset_is_match set h = globset_is_match seen h || existsb (fun p => pattern_matches p h) ps.
Proof.
  induction ps as [|p ps IH]; intros seen set h; cbn [add_patterns].
  { intros [= <-]. by rewrite orb_false_r. }
  destruct (_ && _); [done|]. destruct (add_candidates _ seen) as [s|] eqn:E; [|done].
  intros ->%(fun E => IH _ _ h E). rewrite (add_candidates_match _ _ _ h E). cbn. by rewrite orb_assoc.
Qed.

(** A compiled set matches what one of its patterns matches. *)
Lemma compile_match reject ps set h : compile_globset_with_policy ps reject = Ok set ->
  globset_is_match set h = existsb (fun p => pattern_matches p h) ps.
Proof.
  unfold compile_globset_with_policy. destruct (add_patterns reject ps []) eqn:E; [|done].
  case_if; [|done]. intros [= <-]. by rewrite (add_patterns_match _ _ _ _ h E).
Qed.

Lemma pattern_matches_lower p h : pattern_matches (to_ascii_lowercase p) h = pattern_matches p h.
Proof. unfold pattern_matches. by rewrite normalize_pattern_lower. Qed.

End compiled.

(** ** Patterns in plain letters *)

Definition plain_char (c : char) : bool :=
  is_ascii_digit c || is_ascii_upper c || ((97 <=? c) && (c <=? 122))%N
  || char_in ($"-_.*?") c.

Definition plain_glob (p : str) : bool := forallb plain_char p && single_stars p.

(** What globset documents of such a glob, compiled to ignore case and with
    wildcards that cross separators. *)
Class HostLaws `{HostCrates} : Prop := {
  glob_plain : forall p, plain_glob p = true ->
    exists m, glob_build host_glob p = Some m
      /\ forall t, ascii t -> m t = wild (to_ascii_lowercase p) (to_ascii_lowercase t);
}.

Lemma plain_char_lower c : plain_char (char_to_ascii_lowercase c) = plain_char c.
Proof.
  unfold char_to_ascii_lowercase. destruct (is_ascii_upper c) eqn:E; [|done].
  unfold plain_char. rewrite E. unfold is_ascii_upper in E. apply andb_prop in E as [E1%N.leb_le E2%N.leb_le].
  replace (97 <=? c + 32)%N with true by (symmetry; apply N.leb_le; lia).
  replace (c + 32 <=? 122)%N with true by (symmetry; apply N.leb_le; lia).
  by rewrite !orb_true_r.
Qed.

Lemma single_stars_lower p : single_stars (to_ascii_lowercase p) = single_stars p.
Proof.
  assert (Hs : forall c, (char_to_ascii_lowercase c =? 42)%N = (c =? 42)%N).
  { intros c. apply eq_true_iff_eq. rewrite !N.eqb_eq. apply lower_caseless_iff. unfold caseless. lia. }
  induction p as [|c p IH]; [done|]. destruct p as [|d p]; [done|].
  change (negb ((char_to_ascii_lowercase c =? 42)%N && (char_to_ascii_lowercase d =? 42)%N)
          && single_stars (to_ascii_lowercase (d :: p)) = single_stars (c :: d :: p)).
  by rewrite !Hs, IH.
Qed.

Lemma plain_glob_lower p : plain_glob (to_ascii_lowercase p) = plain_glob p.
Proof.
  unfold plain_glob. rewrite single_stars_lower. f_equal. induction p as [|c p IH]; [done|].
  cbn [to_ascii_lowercase map forallb]. by rewrite plain_char_lower, <- IH.
Qed.

Lemma plain_char_not c d : plain_char d = false -> plain_char c = true -> c <> d.
Proof. intros H1 H2 ->. by rewrite H1 in H2. Qed.

Lemma plain_glob_In p c : plain_glob p = true -> plain_char c = false -> ~ In c p.
Proof.
  intros [Hp _]%andb_prop Hc Hin. rewrite forallb_forall in Hp. apply Hp in Hin. by rewrite Hc in Hin.
Qed.

Lemma plain_not_space c : plain_char c = true -> is_whitespace c = false.
Proof.
  intros H. destruct (is_whitespace c) eqn:E; [|done]. exfalso. revert H E.
  unfold plain_char, is_whitespace, is_ascii_digit, is_ascii_upper.
  change (char_in ($"-_.*?") c) with (existsb (fun d => bool_decide (d = c)) [45; 95; 46; 42; 63]%N).
  cbn [existsb]. rewrite !orb_true_iff, !andb_true_iff, !N.leb_le, ?N.eqb_eq, !bool_decide_eq_true. lia.
Qed.

Lemma no_space_trimmed s : (forall c, In c s -> is_whitespace c = false) -> trim s = s.
Proof.
  intros H. assert (Hi : forall t, (forall c, In c t -> is_whitespace c = false) -> trim_start t = t).
  { intros [|c t] Ht; [done|]. apply trim_start_id, Ht. by left. }
  unfold trim, trim_end. rewrite (Hi s H), Hi, rev_involutive; [done|].
  intros c Hc. by apply H, in_rev.
Qed.

Lemma plain_glob_trim p : plain_glob p = true -> trim p = p.
Proof.
  intros [Hp _]%andb_prop. apply no_space_trimmed. intros c Hc. rewrite forallb_forall in Hp.
  by apply plain_not_space, Hp.
Qed.

Lemma trim_end_matches_prefix c s : exists k, s = trim_end_matches c s ++ repeat c k.
Proof.
  assert (H : forall r, exists k, rev r = rev (trim_start_matches c r) ++ repeat c k).
  { induction r as [|d r [k IH]]; [by exists 0|]. simpl. case_bool_decide as E.
    - subst d. exists (S k). rewrite IH. cbn [repeat]. by rewrite repeat_cons, app_assoc.
    - exists 0. by rewrite app_nil_r. }
  destruct (H (rev s)) as [k E]. exists k. by rewrite rev_involutive in E.
Qed.

Lemma trim_end_matches_idemp c s : trim_end_matches c (trim_end_matches c s) = trim_end_matches c s.
Proof.
  destruct (trim_end_matches_last c s) as [->|(t & d & Hd & ->)]; [done|]. by apply trim_end_matches_snoc.
Qed.

Lemma trim_dots_lower s : trim_end_matches DOT (to_ascii_lowercase s) = to_ascii_lowercase (trim_end_matches DOT s).
Proof.
  unfold trim_end_matches. rewrite <- lowercase_rev. induction (rev s) as [|d r IH]; [done|].
  cbn [trim_start_matches to_ascii_lowercase map]. rewrite lower_caseless by (unfold caseless, DOT; lia).
  destruct (bool_decide (d = DOT)); [done|].
  change (rev (to_ascii_lowercase (d :: r)) = to_ascii_lowercase (rev (d :: r))). by rewrite lowercase_rev.
Qed.

(** ** Entries of a list of domains *)

Definition entry_text (e : str) : str :=
  let input := trim e in
  match strip_prefix DEEP input with
  | Some d => d
  | None => match strip_prefix SUB input with Some d => d | None => input end
  end.

Definition entry_kind (e : str) : str -> DomainPattern :=
  let input := trim e in
  match strip_prefix DEEP input with
  | Some _ => ApexAndSubdomains
  | None => match strip_prefix SUB input with Some _ => SubdomainsOnly | None => Exact end
  end.

Definition entry_domain (e : str) : str := trim_end_matches DOT (trim (entry_text e)).

Section entries.
Context `{HostCrates}.

(** An entry in plain letters, whose domain the url crate keeps as it is. *)
Definition plain_entry (e : str) : bool :=
  let d := entry_domain e in
  plain_glob d && negb (is_empty d) && negb (starts_with d [DOT]) && negb (starts_with d SUB)
  && (contains_char STAR d || contains_char QUESTION d || bool_decide (url_host d = Some (to_ascii_lowercase d))).

Lemma plain_entry_inv e : plain_entry e = true ->
  let d := entry_domain e in
  plain_glob d = true /\ d <> [] /\ starts_with d [DOT] = false /\ starts_with d SUB = false
  /\ (contains_char STAR d || contains_char QUESTION d = false -> url_host d = Some (to_ascii_lowercase d)).
Proof.
  unfold plain_entry. cbv zeta. rewrite !andb_true_iff, !negb_true_iff. intros ((((Hp & He) & Hd) & Hs) & Hu).
  apply is_empty_false in He. repeat split; try done. intros E. rewrite E in Hu. by apply bool_decide_eq_true in Hu.
Qed.

(** The text before its dots are trimmed: what both readings of an entry start from. *)
Lemma plain_text r : plain_glob (trim_end_matches DOT (trim r)) = true ->
  trim_end_matches DOT (trim r) <> [] ->
  normalize_host r = to_ascii_lowercase (trim_end_matches DOT (trim r)).
Proof.
  intros Hp Hne. destruct (trim_end_matches_prefix DOT (trim r)) as [k E].
  set (d := trim_end_matches DOT (trim r)) in *.
  assert (Hin : forall c, plain_char c = false -> ~ In c (trim r)).
  { intros c Hc Hi. rewrite E in Hi. apply in_app_iff in Hi as [Hi|Hi%repeat_spec].
    - by apply (plain_glob_In d c).
    - by rewrite Hi in Hc. }
  assert (Hnorm : normalize_dns_host_or_ip_literal (trim r) = to_ascii_lowercase d).
  { unfold normalize_dns_host_or_ip_literal. rewrite trim_dots_lower. fold d.
    unfold normalize_ip_literal. case_if; [done|].
    rewrite (proj2 (find_map_None _ _)); [done|]. intros delimiter Hdel.
    unfold split_once_str. destruct (find_str delimiter _) as [i|] eqn:F; [cbn|done].
    exfalso. apply find_str_cut in F. assert (Hpc : In PERCENT (to_ascii_lowercase d)).
    { rewrite F. apply in_app_iff. right. apply in_app_iff. left. destruct Hdel as [<-|[<-|[]]]; by left. }
    revert Hpc. apply plain_glob_In; [by rewrite plain_glob_lower|done]. }
  unfold normalize_host, bracketed. destruct (starts_with (trim r) [LBRACKET]) eqn:Es.
  { apply starts_with_true in Es as [t Et]. destruct (Hin LBRACKET ltac:(done)). rewrite Et. by left. }
  replace (count_char COLON (trim r)) with 0; [done|]. symmetry. unfold count_char.
  destruct (filter _ (trim r)) as [|c l] eqn:F; [done|]. destruct (Hin COLON ltac:(done)).
  assert (Hc : c ∈ filter (fun d => d = COLON) (trim r)) by (rewrite F; by left).
  apply list_elem_of_filter in Hc as [-> Hc]. by apply list_elem_of_In.
Qed.

(** What constraints compare: the domain, up to case. *)
Lemma constraints_plain e : plain_entry e = true ->
  exists domain, parse_for_constraints e = entry_kind e domain
    /\ normalize_domain domain = to_ascii_lowercase (entry_domain e).
Proof.
  intros (Hp & Hne & _ & _ & Hu)%plain_entry_inv. cbv zeta in *.
  assert (Hd : exists domain, parse_domain_for_constraints (entry_text e) = domain
                 /\ normalize_domain domain = to_ascii_lowercase (entry_domain e)).
  { unfold parse_domain_for_constraints. fold (entry_domain e). set (d := entry_domain e) in *.
    rewrite (proj2 (is_empty_false d)) by done. cbv zeta.
    assert (Eb : starts_with d [LBRACKET] = false).
    { destruct (starts_with d [LBRACKET]) eqn:E; [|done]. apply starts_with_true in E as [t E].
      destruct (plain_glob_In d LBRACKET Hp ltac:(done)). rewrite E. by left. }
    rewrite Eb. cbn [andb].
    assert (Ep : contains_char PERCENT d = false) by (apply contains_char_false, plain_glob_In; done).
    assert (Et : trim_end_matches DOT d = d) by apply trim_end_matches_idemp.
    rewrite Ep, orb_false_r. destruct (_ || _) eqn:Ew.
    - exists d. split; [done|]. unfold normalize_domain. by rewrite Et.
    - exists (to_ascii_lowercase d). rewrite Hu by done. split; [done|]. unfold normalize_domain.
      by rewrite trim_dots_lower, Et, to_ascii_lowercase_idemp. }
  destruct Hd as (domain & E & En). exists domain. split; [|done].
  unfold parse_for_constraints, entry_kind. destruct (is_empty (trim e)) eqn:Ee.
  { apply is_empty_true in Ee. destruct Hne. unfold entry_domain, entry_text. by rewrite Ee. }
  unfold entry_text in E. destruct (strip_prefix DEEP (trim e)); [by rewrite E|].
  destruct (strip_prefix SUB (trim e)); by rewrite E.
Qed.

Lemma strip_none_prefix p s t : strip_prefix p (s ++ t) = None -> strip_prefix p s = None.
Proof.
  intros Hn. destruct (strip_prefix p s) as [u|] eqn:E; [|done]. apply strip_prefix_Some in E as ->.
  by rewrite <- app_assoc, strip_prefix_app in Hn.
Qed.

(** The globs an entry compiles to. *)
Lemma candidates_plain e : plain_entry e = true ->
  expand_domain_pattern (normalize_pattern e)
  = match entry_kind e (to_ascii_lowercase (entry_domain e)) with
    | Exact d => [d]
    | SubdomainsOnly d => [$"?*." ++ d]
    | ApexAndSubdomains d => [d; $"?*." ++ d]
    end.
Proof.
  intros (Hp & Hne & Hdot & Hsub & _)%plain_entry_inv. cbv zeta in *.
  assert (Hn : normalize_host (entry_text e) = to_ascii_lowercase (entry_domain e)) by by apply plain_text.
  set (d := entry_domain e) in *. set (D := to_ascii_lowercase d) in *.
  assert (HpD : plain_glob D = true) by (unfold D; by rewrite plain_glob_lower).
  assert (HneD : D <> []) by (unfold D; by destruct d).
  assert (Hdomain : forall build, parse_domain D build = build D).
  { intros build. unfold parse_domain. rewrite plain_glob_trim by done. by rewrite (proj2 (is_empty_false D)). }
  unfold normalize_pattern, entry_kind. unfold entry_text in Hn.
  assert (Hfree : forall c, In c D -> is_whitespace c = false).
  { intros c Hc. apply plain_not_space. apply andb_prop in HpD as [HpD _]. rewrite forallb_forall in HpD. by apply HpD. }
  case_bool_decide as Estar.
  { assert (Ed : d = [STAR]) by (unfold d, entry_domain, entry_text; by rewrite Estar).
    unfold D. rewrite Estar, Ed. by vm_compute. }
  destruct (strip_prefix DEEP (trim e)) as [r|] eqn:E1; [|destruct (strip_prefix SUB (trim e)) as [r|] eqn:E2];
    rewrite Hn; unfold expand_domain_pattern, DomainPattern_parse.
  - rewrite no_space_trimmed by (intros c [Hc|Hc]%in_app_iff; [by destruct Hc as [<-|[<-|[<-|[]]]]|by apply Hfree]).
    change (is_empty (DEEP ++ D)) with false. by rewrite strip_prefix_app, Hdomain.
  - rewrite no_space_trimmed by (intros c [Hc|Hc]%in_app_iff; [by destruct Hc as [<-|[<-|[]]]|by apply Hfree]).
    change (is_empty (SUB ++ D)) with false. change (strip_prefix DEEP (SUB ++ D)) with (@None str).
    by rewrite strip_prefix_app, Hdomain.
  - rewrite plain_glob_trim, (proj2 (is_empty_false D)) by done.
    assert (Hinput : exists k, trim e = d ++ repeat DOT k).
    { unfold d, entry_domain, entry_text. rewrite E1, E2, trim_idemp. apply trim_end_matches_prefix. }
    destruct Hinput as [k Ek]. rewrite Ek in E1, E2. apply strip_none_prefix in E1, E2.
    unfold D. rewrite !strip_prefix_lower, E1, E2 by (repeat constructor; unfold caseless; lia). done.
Qed.
End entries.

(** ** Inclusion of what is compiled *)

Definition SOME_SUB : str := $"?*.".

(** What a pattern in plain letters matches, by the language of wildcards. *)
Definition stands (p : DomainPattern) (t : str) : bool :=
  match p with
  | Exact d => wild d t
  | SubdomainsOnly d => wild (SOME_SUB ++ d) t
  | ApexAndSubdomains d => wild d t || wild (SOME_SUB ++ d) t
  end.

Lemma single_stars_app_l p q : single_stars (p ++ q) = true -> single_stars p = true.
Proof.
  induction p as [|c p IH]; [done|]. destruct p as [|d p]; [done|].
  change (negb ((c =? 42)%N && (d =? 42)%N) && single_stars ((d :: p) ++ q) = true
          -> negb ((c =? 42)%N && (d =? 42)%N) && single_stars (d :: p) = true).
  intros [-> Hs]%andb_prop. by apply IH.
Qed.

Lemma wild_dot d t : wild (DOT :: d) t = true <-> exists u, t = DOT :: u /\ wild d u = true.
Proof.
  change (DOT :: d) with ([DOT] ++ d). rewrite wild_app. split.
  - intros (x & u & -> & Hx & Hd). apply wild_char in Hx; [|done..]. subst x. by exists u.
  - intros (u & -> & Hd). by exists [DOT], u.
Qed.

Lemma wild_sub d t :
  wild (SOME_SUB ++ d) t = true <-> exists w u, w <> [] /\ t = w ++ DOT :: u /\ wild d u = true.
Proof.
  change (SOME_SUB ++ d) with ([63%N; 42%N] ++ DOT :: d). rewrite wild_app. split.
  - intros (w & r & -> & Hw%wild_some & (u & -> & Hd)%wild_dot). by exists w, u.
  - intros (w & u & Hw & -> & Hd). exists w, (DOT :: u). split; [done|].
    split; [by apply wild_some|]. apply wild_dot. by exists u.
Qed.

(** A domain below another matches only below what the other matches. *)
Lemma wild_below v d t :
  plain_glob (v ++ DOT :: d) = true -> starts_with (v ++ DOT :: d) [DOT] = false ->
  starts_with (v ++ DOT :: d) SUB = false ->
  wild (v ++ DOT :: d) t = true -> wild (SOME_SUB ++ d) t = true.
Proof.
  intros [_ Hs]%andb_prop Hdot Hsub (w & r & -> & Hv & (u & -> & Hd)%wild_dot)%wild_app.
  apply wild_sub. exists w, u. split; [|done].
  apply (wild_not_empty v w); [by eapply single_stars_app_l| | |done].
  - intros ->. by rewrite (proj2 (starts_with_true _ _)) in Hdot by by exists d.
  - intros ->. by rewrite (proj2 (starts_with_true _ _)) in Hsub by by exists d.
Qed.

Lemma sub_below v d t : wild (SOME_SUB ++ v ++ DOT :: d) t = true -> wild (SOME_SUB ++ d) t = true.
Proof.
  intros (w & r & Hw & -> & (x & s & -> & _ & (u & -> & Hd)%wild_dot)%wild_app)%wild_sub.
  apply wild_sub. exists (w ++ DOT :: x), u. split; [by destruct w|].
  split; [|done]. by rewrite <- !app_assoc.
Qed.

Lemma kind_cases e :
  entry_kind e = Exact \/ entry_kind e = SubdomainsOnly \/ entry_kind e = ApexAndSubdomains.
Proof. unfold entry_kind. repeat case_match; auto. Qed.

Section inclusion.
Context `{HostLaws}.

Lemma plain_glob_sub d : plain_glob d = true -> plain_glob (SOME_SUB ++ d) = true.
Proof.
  intros [Hd Hs]%andb_prop. unfold plain_glob. rewrite forallb_app, Hd, andb_true_r.
  change (single_stars (63%N :: 42%N :: DOT :: d) = true). by destruct d.
Qed.

Lemma glob_matches_plain p h : plain_glob p = true -> to_ascii_lowercase p = p -> ascii h ->
  glob_matches p h = wild p (to_ascii_lowercase h).
Proof.
  intros Hp El Hh. unfold glob_matches. destruct (glob_plain p Hp) as (m & -> & Hm). by rewrite Hm, El.
Qed.

Lemma pattern_matches_plain e h : plain_entry e = true -> ascii h ->
  pattern_matches e h = stands (entry_kind e (to_ascii_lowercase (entry_domain e))) (to_ascii_lowercase h).
Proof.
  intros He Hh. unfold pattern_matches. rewrite candidates_plain by done.
  apply plain_entry_inv in He as (Hp & _). cbv zeta in Hp. rewrite <- plain_glob_lower in Hp.
  set (D := to_ascii_lowercase (entry_domain e)) in *.
  assert (El : to_ascii_lowercase D = D) by apply to_ascii_lowercase_idemp.
  assert (Els : to_ascii_lowercase (SOME_SUB ++ D) = SOME_SUB ++ D) by (by rewrite lowercase_app, El).
  pose proof (plain_glob_sub _ Hp) as Hps.
  destruct (kind_cases e) as [->|[->| ->]]; cbn [globset_is_match existsb stands]; rewrite ?orb_false_r;
    fold SOME_SUB; rewrite ?glob_matches_plain by done; done.
Qed.

Lemma allowed_inside m c h :
  plain_entry m = true -> plain_entry c = true -> ascii h ->
  allows (parse_for_constraints m) (parse_for_constraints c) = true ->
  pattern_matches c h = true -> pattern_matches m h = true.
Proof.
  intros Hm Hc Hh Ha. rewrite !pattern_matches_plain by done.
  destruct (constraints_plain m Hm) as (dm & Em & Nm). destruct (constraints_plain c Hc) as (dc & Ec & Nc).
  apply plain_entry_inv in Hc as (Hp & Hne & Hdot & Hsub & _). cbv zeta in *.
  rewrite Em, Ec in Ha. set (D := to_ascii_lowercase (entry_domain m)) in *.
  set (C := to_ascii_lowercase (entry_domain c)) in *. set (t := to_ascii_lowercase h).
  assert (HpC : plain_glob C = true) by (unfold C; by rewrite plain_glob_lower).
  assert (HdotC : starts_with C [DOT] = false)
    by (rewrite <- Hdot; apply starts_with_lower; repeat constructor; unfold caseless, DOT; lia).
  assert (HsubC : starts_with C SUB = false)
    by (rewrite <- Hsub; apply starts_with_lower; repeat constructor; unfold caseless; lia).
  assert (Hbelow : below dc dm -> (wild C t = true -> wild (SOME_SUB ++ D) t = true)
                    /\ (wild (SOME_SUB ++ C) t = true -> wild (SOME_SUB ++ D) t = true)).
  { intros [v Ev]. rewrite Nc, Nm in Ev. rewrite Ev in *. split; [by apply wild_below|apply sub_below]. }
  assert (Heq : is_subdomain_or_equal dc dm = true -> C = D \/ below dc dm).
  { intros [E|E]%subdomain_or_equal_iff; [left; congruence|by right]. }
  destruct (kind_cases m) as [Km|[Km|Km]], (kind_cases c) as [Kc|[Kc|Kc]];
    rewrite Km, Kc in *; cbn [allows stands] in *; try done.
  - apply bool_decide_eq_true in Ha. assert (C = D) as -> by congruence. done.
  - by apply Hbelow, strict_subdomain_iff.
  - destruct (Heq Ha) as [->|Hb]; [done|]. by apply Hbelow.
  - apply strict_subdomain_iff in Ha. destruct (Hbelow Ha). intros [?|?]%orb_prop; auto.
  - rewrite orb_true_iff. destruct (Heq Ha) as [->|Hb]; [auto|]. destruct (Hbelow Hb). auto.
  - rewrite orb_true_iff. destruct (Heq Ha) as [->|Hb]; [auto|]. destruct (Hbelow Hb). auto.
  - rewrite !orb_true_iff. destruct (Heq Ha) as [->|Hb]; [auto|]. destruct (Hbelow Hb). intros [?|?]; auto.
Qed.
(** What a domain without wildcards matches. *)
Definition below_or_at (p : DomainPattern) (t : str) : Prop :=
  match p with
  | Exact d => t = d
  | SubdomainsOnly d => exists w, w <> [] /\ t = w ++ DOT :: d
  | ApexAndSubdomains d => t = d \/ exists w, w <> [] /\ t = w ++ DOT :: d
  end.

Lemma stands_plain p t : plain (match p with Exact d | SubdomainsOnly d | ApexAndSubdomains d => d end) ->
  stands p t = true <-> below_or_at p t.
Proof.
  intros Hp.
  assert (Hd : forall d, plain d -> wild d t = true <-> t = d)
    by (intros d Hw; rewrite wild_plain, bool_decide_eq_true by done; by split).
  assert (Hs : forall d, plain d -> wild (SOME_SUB ++ d) t = true <-> exists w, w <> [] /\ t = w ++ DOT :: d).
  { intros d Hw. rewrite wild_sub. split.
    - intros (w & u & Hne & -> & Hu). rewrite wild_plain, bool_decide_eq_true in Hu by done. subst u. by exists w.
    - intros (w & Hne & ->). exists w, d. rewrite wild_plain, bool_decide_eq_true by done. done. }
  destruct p as [d|d|d]; cbn [stands below_or_at]; rewrite ?orb_true_iff, ?Hd, ?Hs by done; done.
Qed.

Lemma plain_ascii p : plain_glob p = true -> ascii p.
Proof.
  intros [Hp _]%andb_prop. apply Forall_forall. intros c Hc%list_elem_of_In.
  rewrite forallb_forall in Hp. specialize (Hp c Hc). revert Hp.
  unfold plain_char, is_ascii_digit, is_ascii_upper.
  change (char_in ($"-_.*?") c) with (existsb (fun d => bool_decide (d = c)) [45; 95; 46; 42; 63]%N).
  cbn [existsb]. rewrite !orb_true_iff, !andb_true_iff, !N.leb_le, !bool_decide_eq_true. lia.
Qed.

(** The domain itself and two different children tell it from those it lies
    below. *)
Lemma included_allowed m c dm dc C D :
  normalize_domain dm = D -> normalize_domain dc = C ->
  (forall t, t = C \/ t = [120%N; DOT] ++ C \/ t = [121%N; DOT] ++ C ->
     below_or_at (entry_kind c C) t -> below_or_at (entry_kind m D) t) ->
  allows (entry_kind m dm) (entry_kind c dc) = true.
Proof.
  intros Nm Nc Hinc.
  assert (Hx : exists w, w <> [] /\ [120%N; DOT] ++ C = w ++ DOT :: C) by by exists [120%N].
  assert (Hy : exists w, w <> [] /\ [121%N; DOT] ++ C = w ++ DOT :: C) by by exists [121%N].
  pose proof (Hinc C (or_introl eq_refl)) as HC.
  pose proof (Hinc _ (or_intror (or_introl eq_refl))) as H1.
  pose proof (Hinc _ (or_intror (or_intror eq_refl))) as H2.
  assert (Hchild : forall n, n <> DOT -> (exists w, w <> [] /\ [n; DOT] ++ C = w ++ DOT :: D) ->
            is_subdomain_or_equal dc dm = true).
  { intros n Hn (w & _ & E). apply subdomain_or_equal_iff. unfold below. rewrite Nm, Nc.
    apply (child_inv n); [done|]. by exists w. }
  assert (Hself : (exists w, w <> [] /\ C = w ++ DOT :: D) -> is_strict_subdomain dc dm = true).
  { intros (w & _ & E). apply strict_subdomain_iff. exists w. by rewrite Nm, Nc. }
  assert (Heq : C = D -> is_subdomain_or_equal dc dm = true).
  { intros E. apply subdomain_or_equal_iff. left. congruence. }
  assert (Hor : is_strict_subdomain dc dm = true -> is_subdomain_or_equal dc dm = true).
  { rewrite strict_subdomain_iff, subdomain_or_equal_iff. by right. }
  assert (Hxy : [120%N; DOT] ++ C <> [121%N; DOT] ++ C) by done.
  destruct (kind_cases m) as [Km|[Km|Km]], (kind_cases c) as [Kc|[Kc|Kc]];
    rewrite Km, Kc in *; cbn [allows below_or_at] in *.
  - apply bool_decide_eq_true. rewrite Nm, Nc. by apply HC.
  - destruct Hxy. by rewrite (H1 Hx), (H2 Hy).
  - destruct Hxy. by rewrite (H1 (or_intror Hx)), (H2 (or_intror Hy)).
  - by apply Hself, HC.
  - by apply (Hchild 120%N), H1.
  - by apply Hself, HC; left.
  - destruct (HC eq_refl); auto.
  - destruct (H1 Hx) as [E1|?]; [|by apply (Hchild 120%N)]. destruct (H2 Hy) as [E2|?]; [congruence|by apply (Hchild 121%N)].
  - destruct (HC (or_introl eq_refl)); auto.
Qed.


End inclusion.
