(* ===== verification/NetworkConfig.v ===== *)
(** * Settings of the network proxy (network-proxy/src/config.rs)

    The configuration with its domain and socket permissions and the addresses
    the proxy listens on.  [Url::parse] is an argument: the host and the port of
    the URL it accepts; so are the settings of the credential broker that these
    operations only carry along. *)

From S2P Require Import Prelude RustStr PatchTypes AbsolutePath IpAddr NetworkHost.

(** ** Permissions *)

Inductive NetworkDomainPermission : Type := PermissionNone | PermissionAllow | PermissionDeny.

#[export] Instance NetworkDomainPermission_eq_dec : EqDecision NetworkDomainPermission.
Proof. solve_decision. Defined.

Definition permission_rank (p : NetworkDomainPermission) : nat :=
  match p with PermissionNone => 0 | PermissionAllow => 1 | PermissionDeny => 2 end.

Record NetworkDomainPermissionEntry : Type := mkPermission {
  entry_pattern : str;
  entry_permission : NetworkDomainPermission;
}.

#[export] Instance NetworkDomainPermissionEntry_eq_dec : EqDecision NetworkDomainPermissionEntry.
Proof. solve_decision. Defined.

Definition NetworkDomainPermissions : Type := list NetworkDomainPermissionEntry.

(** The patterns in the order they first appear, each with its strictest permission. *)
Definition effective_step (acc : list str * gmap str NetworkDomainPermission)
    (entry : NetworkDomainPermissionEntry) : list str * gmap str NetworkDomainPermission :=
  let '(order, effective) := acc in
  match effective !! entry_pattern entry with
  | None => (order ++ [entry_pattern entry], <[entry_pattern entry := entry_permission entry]> effective)
  | Some permission =>
      (order, if permission_rank permission <? permission_rank (entry_permission entry)
              then <[entry_pattern entry := entry_permission entry]> effective else effective)
  end.

Fixpoint take_in_order (order : list str) (effective : gmap str NetworkDomainPermission)
  : NetworkDomainPermissions :=
  match order with
  | [] => []
  | pattern :: order =>
      match effective !! pattern with
      | Some permission => mkPermission pattern permission :: take_in_order order (delete pattern effective)
      | None => take_in_order order effective
      end
  end.

Definition effective_entries (entries : NetworkDomainPermissions) : NetworkDomainPermissions :=
  let '(order, effective) := foldl effective_step ([], ∅) entries in take_in_order order effective.

Inductive NetworkUnixSocketPermission : Type := SocketAllow | SocketDeny.

#[export] Instance NetworkUnixSocketPermission_eq_dec : EqDecision NetworkUnixSocketPermission.
Proof. solve_decision. Defined.

(** A [BTreeMap] in the order of its keys. *)
Fixpoint str_leb (a b : str) : bool :=
  match a, b with
  | [], _ => true
  | _ :: _, [] => false
  | c :: a, d :: b => (c <? d)%N || (c =? d)%N && str_leb a b
  end.

Fixpoint insert_key {A} (x : str * A) (l : list (str * A)) : list (str * A) :=
  match l with
  | [] => [x]
  | y :: l => if str_leb x.1 y.1 then x :: y :: l else y :: insert_key x l
  end.

Definition btree_iter {A} (m : gmap str A) : list (str * A) := foldr insert_key [] (map_to_list m).

(** ** Hooks *)

Record InjectedHeaderConfig : Type := mkInjected {
  injected_name : str;
  secret_env_var : option str;
  secret_file : option str;
  injected_prefix : option str;
}.

#[export] Instance InjectedHeaderConfig_eq_dec : EqDecision InjectedHeaderConfig.
Proof. solve_decision. Defined.

Record MitmHookMatchConfig (Json : Type) : Type := mkMatch {
  match_methods : list str;
  match_path_prefixes : list str;
  match_query : gmap str (list str);
  match_headers : gmap str (list str);
  match_body : option Json;
}.
Arguments mkMatch {Json}.
Arguments match_methods {Json}.
Arguments match_path_prefixes {Json}.
Arguments match_query {Json}.
Arguments match_headers {Json}.
Arguments match_body {Json}.

#[export] Instance MitmHookMatchConfig_eq_dec {J} `{EqDecision J} : EqDecision (MitmHookMatchConfig J).
Proof. solve_decision. Defined.

Record MitmHookConfig (Json : Type) : Type := mkHookConfig {
  hook_config_host : str;
  hook_config_match : MitmHookMatchConfig Json;
  strip_request_headers : list str;
  inject_request_headers : list InjectedHeaderConfig;
}.
Arguments mkHookConfig {Json}.
Arguments hook_config_host {Json}.
Arguments hook_config_match {Json}.
Arguments strip_request_headers {Json}.
Arguments inject_request_headers {Json}.

#[export] Instance MitmHookConfig_eq_dec {J} `{EqDecision J} : EqDecision (MitmHookConfig J).
Proof. solve_decision. Defined.

(** ** The configuration *)

Inductive NetworkMode : Type := Limited | Full.

#[export] Instance NetworkMode_eq_dec : EqDecision NetworkMode.
Proof. solve_decision. Defined.

Definition allows_method (self : NetworkMode) (method : str) : bool :=
  match self with
  | Full => true
  | Limited => one_of method [$"GET"; $"HEAD"; $"OPTIONS"]
  end.

Record NetworkProxyConfig (Json Credentials : Type) : Type := mkConfig {
  enabled : bool;
  proxy_url : str;
  enable_socks5 : bool;
  socks_url : str;
  enable_socks5_udp : bool;
  allow_upstream_proxy : bool;
  dangerously_allow_non_loopback_proxy : bool;
  dangerously_allow_all_unix_sockets : option bool;
  mode : NetworkMode;
  domains : option NetworkDomainPermissions;
  unix_sockets : option (gmap str NetworkUnixSocketPermission);
  allow_local_binding : bool;
  mitm : bool;
  credential_broker : bool;
  credential_broker_enabled_mitm : bool;
  credentials : Credentials;
  dangerously_allow_plaintext_credential_injection : bool;
  mitm_hooks : list (MitmHookConfig Json);
}.
Arguments mkConfig {Json Credentials}.
Arguments enabled {Json Credentials}.
Arguments proxy_url {Json Credentials}.
Arguments enable_socks5 {Json Credentials}.
Arguments socks_url {Json Credentials}.
Arguments enable_socks5_udp {Json Credentials}.
Arguments allow_upstream_proxy {Json Credentials}.
Arguments dangerously_allow_non_loopback_proxy {Json Credentials}.
Arguments dangerously_allow_all_unix_sockets {Json Credentials}.
Arguments mode {Json Credentials}.
Arguments domains {Json Credentials}.
Arguments unix_sockets {Json Credentials}.
Arguments allow_local_binding {Json Credentials}.
Arguments mitm {Json Credentials}.
Arguments credential_broker {Json Credentials}.
Arguments credential_broker_enabled_mitm {Json Credentials}.
Arguments credentials {Json Credentials}.
Arguments dangerously_allow_plaintext_credential_injection {Json Credentials}.
Arguments mitm_hooks {Json Credentials}.

#[export] Instance NetworkProxyConfig_eq_dec {J C} `{EqDecision J, EqDecision C} :
  EqDecision (NetworkProxyConfig J C).
Proof. solve_decision. Defined.

Section config.
Context {Json Credentials : Type}.
Abbreviation Config := (NetworkProxyConfig Json Credentials).
Implicit Types c : Config.

Definition default_proxy_url : str := $"http://127.0.0.1:3128".
Definition default_socks_url : str := $"http://127.0.0.1:8081".

Definition default_config (no_credentials : Credentials) : Config :=
  mkConfig false default_proxy_url true default_socks_url true true false None Full None None
    false false false false no_credentials false [].

Definition set_enabled (b : bool) (c : Config) : Config :=
  mkConfig b (proxy_url c) (enable_socks5 c) (socks_url c) (enable_socks5_udp c) (allow_upstream_proxy c)
    (dangerously_allow_non_loopback_proxy c) (dangerously_allow_all_unix_sockets c) (mode c) (domains c)
    (unix_sockets c) (allow_local_binding c) (mitm c) (credential_broker c)
    (credential_broker_enabled_mitm c) (credentials c)
    (dangerously_allow_plaintext_credential_injection c) (mitm_hooks c).

Definition set_mode (m : NetworkMode) (c : Config) : Config :=
  mkConfig (enabled c) (proxy_url c) (enable_socks5 c) (socks_url c) (enable_socks5_udp c)
    (allow_upstream_proxy c) (dangerously_allow_non_loopback_proxy c)
    (dangerously_allow_all_unix_sockets c) m (domains c) (unix_sockets c) (allow_local_binding c)
    (mitm c) (credential_broker c) (credential_broker_enabled_mitm c) (credentials c)
    (dangerously_allow_plaintext_credential_injection c) (mitm_hooks c).

Definition set_domains (d : option NetworkDomainPermissions) (c : Config) : Config :=
  mkConfig (enabled c) (proxy_url c) (enable_socks5 c) (socks_url c) (enable_socks5_udp c)
    (allow_upstream_proxy c) (dangerously_allow_non_loopback_proxy c)
    (dangerously_allow_all_unix_sockets c) (mode c) d (unix_sockets c) (allow_local_binding c)
    (mitm c) (credential_broker c) (credential_broker_enabled_mitm c) (credentials c)
    (dangerously_allow_plaintext_credential_injection c) (mitm_hooks c).

Definition set_unix_sockets (u : option (gmap str NetworkUnixSocketPermission)) (c : Config) : Config :=
  mkConfig (enabled c) (proxy_url c) (enable_socks5 c) (socks_url c) (enable_socks5_udp c)
    (allow_upstream_proxy c) (dangerously_allow_non_loopback_proxy c)
    (dangerously_allow_all_unix_sockets c) (mode c) (domains c) u (allow_local_binding c)
    (mitm c) (credential_broker c) (credential_broker_enabled_mitm c) (credentials c)
    (dangerously_allow_plaintext_credential_injection c) (mitm_hooks c).

(** The broker and its claim on interception: [broker], [mitm], whether it turned
    the latter on. *)
Definition set_broker (broker mitm' claimed : bool) (c : Config) : Config :=
  mkConfig (enabled c) (proxy_url c) (enable_socks5 c) (socks_url c) (enable_socks5_udp c)
    (allow_upstream_proxy c) (dangerously_allow_non_loopback_proxy c)
    (dangerously_allow_all_unix_sockets c) (mode c) (domains c) (unix_sockets c)
    (allow_local_binding c) mitm' broker claimed (credentials c)
    (dangerously_allow_plaintext_credential_injection c) (mitm_hooks c).

Definition set_credential_broker_enabled (b : bool) (c : Config) : Config :=
  if b then set_broker true true (credential_broker_enabled_mitm c || negb (mitm c)) c
  else if credential_broker_enabled_mitm c
  then set_broker false (negb (is_empty (mitm_hooks c))) false c
  else set_broker false (mitm c) false c.

(** ** Domains and sockets *)

Definition domain_entries (permission : NetworkDomainPermission) (c : Config) : option (list str) :=
  match domains c with
  | Some entries =>
      let patterns := map entry_pattern
        (List.filter (fun e => bool_decide (entry_permission e = permission)) (effective_entries entries)) in
      if is_empty patterns then None else Some patterns
  | None => None
  end.

Definition allowed_domains (c : Config) : option (list str) := domain_entries PermissionAllow c.
Definition denied_domains (c : Config) : option (list str) := domain_entries PermissionDeny c.

Definition some_domains (d : NetworkDomainPermissions) : option NetworkDomainPermissions :=
  if is_empty d then None else Some d.

Definition push_domain (permission : NetworkDomainPermission) (d : NetworkDomainPermissions) (entry : str)
  : NetworkDomainPermissions :=
  if existsb (fun e => bool_decide (e = mkPermission entry permission)) d
  then d else d ++ [mkPermission entry permission].

Definition set_domain_entries (entries : list str) (permission : NetworkDomainPermission) (c : Config)
  : Config :=
  let kept := List.filter (fun e => negb (bool_decide (entry_permission e = permission)))
                (default [] (domains c)) in
  set_domains (some_domains (foldl (push_domain permission) kept entries)) c.

Definition set_allowed_domains (l : list str) : Config -> Config := set_domain_entries l PermissionAllow.
Definition set_denied_domains (l : list str) : Config -> Config := set_domain_entries l PermissionDeny.

Definition upsert_domain_permission (host : str) (permission : NetworkDomainPermission)
    (normalize : str -> str) (c : Config) : Config :=
  let normalized_host := normalize host in
  let kept := List.filter (fun e => negb (bool_decide (normalize (entry_pattern e) = normalized_host)))
                (default [] (domains c)) in
  set_domains (some_domains (kept ++ [mkPermission host permission])) c.

Definition allow_unix_sockets (c : Config) : list str :=
  match unix_sockets c with
  | Some entries =>
      map fst (List.filter (fun kv => bool_decide (kv.2 = SocketAllow)) (btree_iter entries))
  | None => []
  end.

Definition set_unix_socket_entries (entries : list str) (permission : NetworkUnixSocketPermission)
    (c : Config) : Config :=
  let kept := filter (fun kv : str * NetworkUnixSocketPermission => kv.2 <> permission)
                (default ∅ (unix_sockets c)) in
  set_unix_sockets (Some (foldl (fun m e => <[e := permission]> m) kept entries)) c.

Definition set_allow_unix_sockets (l : list str) : Config -> Config :=
  set_unix_socket_entries l SocketAllow.

(** ** Listeners *)

Record SocketAddr : Type := mkAddr { addr_ip : IpAddr; addr_port : N }.

Definition loopback_addr (port : N) : SocketAddr := mkAddr (V4 LOCALHOST4) port.

Definition clamp_non_loopback (addr : SocketAddr) (allow_non_loopback : bool) : SocketAddr :=
  if is_loopback (addr_ip addr) then addr
  else if allow_non_loopback then addr
  else loopback_addr (addr_port addr).

Definition clamp_bind_addrs (http_addr socks_addr : SocketAddr) (cfg : Config) : SocketAddr * SocketAddr :=
  let http_addr := clamp_non_loopback http_addr (dangerously_allow_non_loopback_proxy cfg) in
  let socks_addr := clamp_non_loopback socks_addr (dangerously_allow_non_loopback_proxy cfg) in
  if is_empty (allow_unix_sockets cfg) && negb (default false (dangerously_allow_all_unix_sockets cfg))
  then (http_addr, socks_addr)
  else (loopback_addr (addr_port http_addr), loopback_addr (addr_port socks_addr)).

Inductive ConfigError : Type :=
| SocketPathNotNormalized (socket_path : str) (e : io_error)
| ExpectedAbsolutePath (socket_path : str)
| InvalidSocketAt (index : nat) (e : ConfigError)
| MissingHost (address : str)
| InvalidProxyUrl (e : ConfigError)
| InvalidSocksUrl (e : ConfigError)
| PortZero (field : str).

Inductive ValidatedUnixSocketPath : Type :=
| Native (path : str)
| UnixStyleAbsolute (path : str).

Section env.
(** The home and current directories of the process; [Url::parse] of a text: the
    host of the URL, if it has one, and its port, if it is not the default one. *)
Context (home_directory : option str) (current_dir : result str io_error).
Context (url_parse : str -> option (option str * option N)).

Definition validated_socket_path (socket_path : str) : result ValidatedUnixSocketPath ConfigError :=
  if AbsolutePath.is_absolute socket_path
  then match AbsolutePath.from_absolute_path home_directory current_dir socket_path with
       | Ok path => Ok (Native path)
       | Err e => Err (SocketPathNotNormalized socket_path e)
       end
  else if starts_with socket_path [47%N] then Ok (UnixStyleAbsolute socket_path)
  else Err (ExpectedAbsolutePath socket_path).

Fixpoint validate_socket_paths (index : nat) (paths : list str) : result unit ConfigError :=
  match paths with
  | [] => Ok ()
  | path :: paths =>
      match validated_socket_path path with
      | Ok _ => validate_socket_paths (S index) paths
      | Err e => Err (InvalidSocketAt index e)
      end
  end.

Definition validate_unix_socket_allowlist_paths (cfg : Config) : result unit ConfigError :=
  validate_socket_paths 0 (allow_unix_sockets cfg).

(** [str::parse::<u16>]: a sign may lead. *)
Definition parse_u16 (s : str) : option N :=
  let digits := default s (strip_prefix [43%N] s) in
  if negb (is_empty digits) && forallb is_ascii_digit digits
  then let n := number 10 (map (fun d => (d - 48)%N) digits) in
       if (n <=? 65535)%N then Some n else None
  else None.

Record SocketAddressParts : Type := mkParts { parts_host : str; parts_port : N }.

Definition parse_host_port_fallback (input : str) (default_port : N)
  : result SocketAddressParts ConfigError :=
  let without_scheme := match split_once_str ($"://") input with Some (_, rest) => rest | None => input end in
  let host_port := default without_scheme (head (split_char 47%N without_scheme)) in
  let host_port := match rsplit_once 64%N host_port with Some (_, rest) => rest | None => host_port end in
  match (if starts_with host_port [LBRACKET] then find_str [RBRACKET] host_port else None) with
  | Some until =>
      let host := take (until - 1) (drop 1 host_port) in
      let port := default default_port
        (port ← strip_prefix [COLON] (drop (until + 1) host_port); parse_u16 port) in
      if is_empty host then Err (MissingHost input) else Ok (mkParts host port)
  | None =>
      match (if count_char COLON host_port =? 1 then rsplit_once COLON host_port else None) with
      | Some (host, port) =>
          if is_empty host then Err (MissingHost input)
          else Ok (mkParts host (default default_port (parse_u16 port)))
      | None =>
          if is_empty host_port then Err (MissingHost input)
          else Ok (mkParts host_port default_port)
      end
  end.

(** [trim_matches] of the brackets, in any number. *)
Fixpoint trim_start_brackets (s : str) : str :=
  match s with
  | c :: t => if (c =? LBRACKET)%N || (c =? RBRACKET)%N then trim_start_brackets t else s
  | [] => []
  end.
Definition trim_brackets (s : str) : str := rev (trim_start_brackets (rev (trim_start_brackets s))).

Definition is_ipv6 (s : str) : bool := match parse_ip s with Some (V6 _) => true | _ => false end.

Definition parse_host_port (url : str) (default_port : N) : result SocketAddressParts ConfigError :=
  let trimmed := trim url in
  if is_empty trimmed then Err (MissingHost url)
  else if is_ipv6 trimmed && negb (starts_with trimmed [LBRACKET])
  then Ok (mkParts trimmed default_port)
  else
    let candidate := if contains_str ($"://") trimmed then trimmed else $"http://" ++ trimmed in
    match url_parse candidate with
    | Some (Some host, port) =>
        let host := trim_brackets host in
        if is_empty host then Err (MissingHost url)
        else Ok (mkParts host (default default_port port))
    | _ => parse_host_port_fallback trimmed default_port
    end.

Definition resolve_addr (url : str) (default_port : N) : result SocketAddr ConfigError :=
  let? addr_parts := parse_host_port url default_port in
  let host := if eq_ignore_ascii_case (parts_host addr_parts) ($"localhost")
              then $"127.0.0.1" else parts_host addr_parts in
  match parse_ip host with
  | Some ip => Ok (mkAddr ip (parts_port addr_parts))
  | None => Ok (loopback_addr (parts_port addr_parts))
  end.

Definition format_host_and_port (host : str) (port : N) : str :=
  if contains_char COLON host then $"[" ++ host ++ $"]:" ++ show_N port
  else host ++ $":" ++ show_N port.

Definition host_and_port_from_network_addr (value : str) (default_port : N) : str :=
  let trimmed := trim value in
  if is_empty trimmed then $"<missing>"
  else match parse_host_port trimmed default_port with
       | Ok parts => format_host_and_port (parts_host parts) (parts_port parts)
       | Err _ => format_host_and_port trimmed default_port
       end.

Record RuntimeConfig : Type := mkRuntime { http_addr : SocketAddr; socks_addr : SocketAddr }.

Definition resolve_runtime (cfg : Config) : result RuntimeConfig ConfigError :=
  let? _ := validate_unix_socket_allowlist_paths cfg in
  let? http := map_err InvalidProxyUrl (resolve_addr (proxy_url cfg) 3128) in
  let? socks := map_err InvalidSocksUrl (resolve_addr (socks_url cfg) 8081) in
  let '(http, socks) := clamp_bind_addrs http socks cfg in
  Ok (mkRuntime http socks).

(** [sort_unstable] and [dedup] of at most two ports. *)
Definition sorted_ports (a b : N) : list N :=
  if (a <? b)%N then [a; b] else if (a =? b)%N then [a] else [b; a].

Definition managed_proxy_ports (cfg : Config) : result (list N) ConfigError :=
  let? runtime := resolve_runtime cfg in
  if (addr_port (http_addr runtime) =? 0)%N then Err (PortZero ($"network.proxy_url"))
  else if enable_socks5 cfg
  then if (addr_port (socks_addr runtime) =? 0)%N then Err (PortZero ($"network.socks_url"))
       else Ok (sorted_ports (addr_port (http_addr runtime)) (addr_port (socks_addr runtime)))
  else Ok [addr_port (http_addr runtime)].

End env.
End config.

(** ** Effective permissions *)

Definition strictest (pattern : str) (entries : NetworkDomainPermissions) : option NetworkDomainPermission :=
  fold_left (fun acc e =>
    if bool_decide (entry_pattern e = pattern)
    then Some (match acc with
               | Some p => if permission_rank p <? permission_rank (entry_permission e)
                           then entry_permission e else p
               | None => entry_permission e
               end)
    else acc) entries None.

Lemma effective_step_fold entries :
  let '(order, effective) := foldl effective_step ([], ∅) entries in
  NoDup order /\ (forall p, p ∈ order <-> is_Some (effective !! p))
  /\ (forall p, effective !! p = strictest p entries).
Proof.
  induction entries as [|e entries IH] using rev_ind.
  { cbn. split; [constructor|]. split; [|by intros p]. intros p. rewrite lookup_empty.
    split; [by intros ?%elem_of_nil|by intros []]. }
  rewrite foldl_app. destruct (foldl effective_step ([], ∅) entries) as [order eff].
  destruct IH as (Hnd & Hin & Hs). cbn [foldl effective_step].
  assert (Hst : forall p, strictest p (entries ++ [e])
    = if bool_decide (entry_pattern e = p)
      then Some (match strictest p entries with
                 | Some q => if permission_rank q <? permission_rank (entry_permission e)
                             then entry_permission e else q
                 | None => entry_permission e end)
      else strictest p entries).
  { intros p. unfold strictest. by rewrite fold_left_app. }
  destruct (eff !! entry_pattern e) as [q|] eqn:E.
  - split; [done|]. split.
    + intros p. rewrite Hin. case_match; [|done].
      destruct (decide (p = entry_pattern e)) as [->|Hne]; [by rewrite lookup_insert_eq, E|].
      by rewrite lookup_insert_ne.
    + intros p. rewrite Hst. case_bool_decide as Ep.
      * subst p. rewrite <- Hs, E. case_match; [by rewrite lookup_insert_eq|done].
      * rewrite <- Hs. case_match; [|done]. by rewrite lookup_insert_ne.
  - assert (Hni : entry_pattern e ∉ order) by (rewrite Hin, E; by intros []).
    split; [|split].
    + apply NoDup_app. split; [done|]. split; [|apply NoDup_singleton].
      intros p Hp Hp'%list_elem_of_singleton. by subst p.
    + intros p. rewrite elem_of_app, list_elem_of_singleton, Hin.
      destruct (decide (p = entry_pattern e)) as [->|Hne].
      * rewrite lookup_insert_eq. split; [eauto|by right].
      * rewrite lookup_insert_ne by done. split; [by intros [?|?]|by left].
    + intros p. rewrite Hst. case_bool_decide as Ep.
      * subst p. by rewrite lookup_insert_eq, <- Hs, E.
      * by rewrite lookup_insert_ne, <- Hs.
Qed.

Lemma take_in_order_spec order : forall effective, NoDup order ->
  (forall p, p ∈ order -> is_Some (effective !! p)) ->
  map entry_pattern (take_in_order order effective) = order
  /\ forall p q, In (mkPermission p q) (take_in_order order effective) <-> p ∈ order /\ effective !! p = Some q.
Proof.
  induction order as [|p order IH]; intros eff Hnd Hs; cbn [take_in_order].
  { split; [done|]. intros p q. split; [done|]. by intros [?%elem_of_nil _]. }
  apply NoDup_cons in Hnd as [Hni Hnd]. destruct (Hs p) as [x Hx]; [by left|]. rewrite Hx.
  destruct (IH (delete p eff) Hnd) as [E Hin].
  { intros r Hr. rewrite lookup_delete_ne by (by intros ->). apply Hs. by right. }
  split; [cbn; by rewrite E|]. intros r q. cbn [In]. rewrite Hin, elem_of_cons. split.
  - intros [[= <- <-]|[Hr Hq]]; [by split; [left|]|]. split; [by right|].
    by rewrite lookup_delete_ne in Hq by (by intros ->).
  - intros [[->|Hr] Hq]; [left; congruence|right]. split; [done|]. rewrite lookup_delete_ne; [done|by intros ->].
Qed.

(** One entry for each pattern, with the strictest of its permissions. *)
Lemma effective_entries_spec entries :
  NoDup (map entry_pattern (effective_entries entries))
  /\ forall p q, In (mkPermission p q) (effective_entries entries) <-> strictest p entries = Some q.
Proof.
  unfold effective_entries. pose proof (effective_step_fold entries) as Hf.
  destruct (foldl effective_step ([], ∅) entries) as [order eff]. destruct Hf as (Hnd & Hin & Hs).
  destruct (take_in_order_spec order eff Hnd) as [E Ht]; [intros p Hp; by apply Hin|].
  rewrite E. split; [done|]. intros p q. rewrite Ht, Hs. split; [by intros [_ ?]|].
  intros Hq. split; [|done]. apply Hin. rewrite Hs. eauto.
Qed.
