(* ===== verification/MitmHook.v ===== *)
(** * Hooks on intercepted requests (network-proxy/src/mitm_hook.rs)

    Validation of the configured hooks, their compilation with the secrets they
    inject, and the choice of the hook for a request.  Header names and values
    are those of the http crate, which is a class like globset; the environment
    and the files with secrets are arguments.  A hook authorizes a
    request by its path before the server that receives it decodes and
    normalises the path: the check that rejects paths with more than one reading
    (authorization_path.rs) comes first. *)

From S2P Require Import Prelude RustStr PatchTypes Utf8 PathUri PathUriSpec FileUrls AbsolutePath Wildcard IpAddr NetworkHost NetworkConfig.

(** ** Paths with one reading (network-proxy/src/authorization_path.rs)

    Characterised by percent-decoding, for which the model of FileUrls.v
    serves. *)

Definition decode_hex_digit (byte : N) : option N :=
  (if (48 <=? byte) && (byte <=? 57) then Some (byte - 48)
   else if (97 <=? byte) && (byte <=? 102) then Some (byte - 97 + 10)
   else if (65 <=? byte) && (byte <=? 70) then Some (byte - 65 + 10)
   else None)%N.

(** The loop over the bytes of a segment, with its counters. *)
Fixpoint safe_segment_loop (bytes : list N) (decoded_dots : nat) (has_non_dot : bool) : bool :=
  match bytes with
  | [] => has_non_dot || negb ((decoded_dots =? 1) || (decoded_dots =? 2))
  | byte :: rest =>
      if (byte =? 46)%N then safe_segment_loop rest (S decoded_dots) has_non_dot
      else if (byte =? 92)%N then false
      else if (byte =? 37)%N then
        match rest with
        | h :: l :: rest =>
            match decode_hex_digit h, decode_hex_digit l with
            | Some high, Some low =>
                let decoded := N.lor (N.shiftl high 4) low in
                if ((decoded =? 37) || (decoded =? 47) || (decoded =? 92))%N then false
                else if (decoded =? 46)%N then safe_segment_loop rest (S decoded_dots) has_non_dot
                else safe_segment_loop rest decoded_dots true
            | _, _ => false
            end
        | _ => false
        end
      else safe_segment_loop rest decoded_dots true
  end.

Definition is_safe_segment_for_authorization (segment : str) : bool :=
  safe_segment_loop (encode segment) 0 false.

Definition is_safe_for_authorization (path : str) : bool :=
  forallb is_safe_segment_for_authorization (split_char FORWARD_SLASH path).

(** ** What a server reads *)

Definition decoded (segment : str) : list N := FileUrls.percent_decode (encode segment).

Definition dot_segment (s : list N) : bool := bool_decide (s = [46%N]) || bool_decide (s = [46%N; 46%N]).

(** Bytes that would give a decoded segment another reading. *)
Definition ambiguous (byte : N) : bool := ((byte =? 37) || (byte =? 47) || (byte =? 92))%N.

Definition one_reading (s : list N) : bool := forallb (fun b => negb (ambiguous b)) s && negb (dot_segment s).

Lemma hex_digit_same h : decode_hex_digit h = hex_value h.
Proof.
  unfold decode_hex_digit, hex_value. repeat match goal with
    | |- context [(?a <=? ?b)%N] => destruct (N.leb_spec a b)
    end; simpl; try done; try (f_equal; lia); lia.
Qed.

Lemma nibbles high low : (high < 16)%N -> (low < 16)%N -> N.lor (N.shiftl high 4) low = (16 * high + low)%N.
Proof.
  intros Hh Hl.
  assert (H : forallb (fun h => forallb (fun l => N.lor (N.shiftl h 4) l =? 16 * h + l)%N
                (map N.of_nat (seq 0 16))) (map N.of_nat (seq 0 16)) = true) by by vm_compute.
  assert (Hin : forall n, (n < 16)%N -> In n (map N.of_nat (seq 0 16))).
  { intros n Hn. apply in_map_iff. exists (N.to_nat n). split; [apply N2Nat.id|]. apply in_seq. lia. }
  rewrite forallb_forall in H. specialize (H high (Hin _ Hh)). rewrite forallb_forall in H.
  by apply N.eqb_eq, H, Hin.
Qed.

Lemma hex_value_bound h n : hex_value h = Some n -> (n < 16)%N.
Proof.
  unfold hex_value. repeat case_match; intros [= <-];
    repeat match goal with H : (_ && _)%bool = true |- _ => apply andb_prop in H as [?%N.leb_le ?%N.leb_le] end; lia.
Qed.

Lemma decode_bad l : (forall h1 h2 rest a b, l = h1 :: h2 :: rest ->
    hex_value h1 = Some a -> hex_value h2 = Some b -> False) ->
  FileUrls.percent_decode (37%N :: l) = 37%N :: FileUrls.percent_decode l.
Proof.
  intros H. destruct l as [|h1 [|h2 rest]]; [done..|]. cbn. 
  destruct (hex_value h1) as [a|] eqn:E1; [|done]. destruct (hex_value h2) as [b|] eqn:E2; [|done].
  by destruct (H h1 h2 rest a b).
Qed.

(** What the loop has found so far, and what it still finds. *)
Definition accepts (dots : nat) (has_non_dot : bool) (s : list N) : bool :=
  forallb (fun b => negb (ambiguous b)) s
  && (has_non_dot || existsb (fun b => negb (b =? 46)%N) s
      || negb ((dots + length s =? 1) || (dots + length s =? 2))).

Lemma accepts_cons dots nd b s :
  accepts dots nd (b :: s)
  = negb (ambiguous b) && (if (b =? 46)%N then accepts (S dots) nd s else accepts dots true s).
Proof.
  unfold accepts. cbn [forallb existsb length]. destruct (b =? 46)%N eqn:E; cbn [negb orb].
  - replace (dots + S (length s)) with (S dots + length s) by lia. by rewrite andb_assoc.
  - by rewrite orb_true_r, andb_assoc.
Qed.

Lemma safe_segment_loop_spec n : forall bytes dots nd, length bytes <= n -> ~ In 47%N bytes ->
  safe_segment_loop bytes dots nd = accepts dots nd (FileUrls.percent_decode bytes).
Proof.
  induction n as [|n IH]; intros bytes dots nd Hl Hs; [destruct bytes; [|simpl in Hl; lia]|].
  { cbn. unfold accepts. cbn. by rewrite orb_false_r, Nat.add_0_r. }
  destruct bytes as [|b bytes]; [cbn; unfold accepts; cbn; by rewrite orb_false_r, Nat.add_0_r|].
  simpl in Hl. cbn [safe_segment_loop].
  assert (Hs' : ~ In 47%N bytes) by (intros ?; apply Hs; by right).
  destruct (b =? 46)%N eqn:E1.
  { apply N.eqb_eq in E1 as ->. rewrite FileUrls.decode_other, accepts_cons by done. cbn.
    apply IH; [lia|done]. }
  destruct (b =? 92)%N eqn:E2.
  { apply N.eqb_eq in E2 as ->. by rewrite FileUrls.decode_other, accepts_cons. }
  destruct (b =? 37)%N eqn:E3.
  - apply N.eqb_eq in E3 as ->.
    destruct bytes as [|h [|l bytes]]; [by rewrite decode_bad, accepts_cons|by rewrite decode_bad, accepts_cons|].
    rewrite !hex_digit_same. destruct (hex_value h) as [high|] eqn:Eh;
      [destruct (hex_value l) as [low|] eqn:El|];
      [|by rewrite decode_bad, accepts_cons by (intros ????? [= <- <- <-]; congruence)..].
    rewrite (FileUrls.decode_hex _ _ _ _ _ Eh El), accepts_cons, nibbles by by eapply hex_value_bound.
    cbv zeta. unfold ambiguous. destruct (_ || _); [done|]. cbn [negb andb].
    simpl in Hl. assert (~ In 47%N bytes) by (intros ?; apply Hs; by do 3 right).
    case_if; apply IH; [lia|done|lia|done].
  - rewrite FileUrls.decode_other by (by apply N.eqb_neq). rewrite accepts_cons. unfold ambiguous.
    rewrite E1, E2, E3. assert (b =? 47 = false)%N as ->.
    { apply N.eqb_neq. intros ->. apply Hs. by left. }
    cbn. apply IH; [lia|done].
Qed.

(** All dots: the counters tell one and two dots from other names. *)
Lemma accepts_start s : accepts 0 false s = one_reading s.
Proof.
  unfold accepts, one_reading, dot_segment. f_equal. cbn [orb].
  destruct (existsb (fun b => negb (b =? 46)%N) s) eqn:E; cbn [orb].
  - symmetry. rewrite !bool_decide_false; [done|by intros ->..].
  - assert (Hd : s = repeat 46%N (length s)).
    { clear -E. induction s as [|b s IH]; [done|]. cbn in *. apply orb_false_elim in E as [E1 E2].
      apply negb_false_iff, N.eqb_eq in E1 as ->. f_equal. by apply IH. }
    set (n := length s) in *. clearbody n. subst s. destruct n as [|[|[|n]]]; [done..|].
    cbn. by rewrite !bool_decide_false.
Qed.

Lemma safe_segment_iff segment : ~ In FORWARD_SLASH segment ->
  is_safe_segment_for_authorization segment = one_reading (decoded segment).
Proof.
  intros Hs. unfold is_safe_segment_for_authorization, decoded.
  rewrite (safe_segment_loop_spec (length (encode segment))), accepts_start; [done|done|].
  intros Hin. by apply encode_low in Hin.
Qed.

Lemma split_no_slash path : Forall (fun s => ~ In FORWARD_SLASH s) (split_char FORWARD_SLASH path).
Proof. apply split_char_pieces. Qed.

Lemma safe_path_iff path :
  is_safe_for_authorization path
  = forallb (fun s => one_reading (decoded s)) (split_char FORWARD_SLASH path).
Proof.
  unfold is_safe_for_authorization. pose proof (split_no_slash path) as Hs.
  induction Hs as [|s l Hs _ IH]; [done|]. cbn. by rewrite safe_segment_iff, IH.
Qed.

(** ** Decoding keeps the segments *)

Lemma decode_join ws : ws <> [] ->
  FileUrls.percent_decode (encode (join [FORWARD_SLASH] ws)) = join [FORWARD_SLASH] (map decoded ws).
Proof.
  induction ws as [|w ws IH]; [done|]. intros _. destruct ws as [|v ws]; [done|].
  rewrite join_cons by done. change (map decoded (w :: v :: ws)) with (decoded w :: map decoded (v :: ws)).
  rewrite (join_cons _ (decoded w)) by discriminate. rewrite <- IH by done. cbn [app].
  rewrite encode_slash. by apply (FileUrls.decode_at_slash _ (length (encode w))).
Qed.

Lemma decode_clean s : ~ In 37%N s -> FileUrls.percent_decode s = s.
Proof.
  induction s as [|b s IH]; [done|]. intros Hs. rewrite FileUrls.decode_other, IH; [done| |].
  - intros ?. apply Hs. by right.
  - intros ->. apply Hs. by left.
Qed.

Lemma one_reading_inv s : one_reading s = true ->
  ~ In 37%N s /\ ~ In FORWARD_SLASH s /\ ~ In 92%N s /\ dot_segment s = false.
Proof.
  unfold one_reading. rewrite andb_true_iff, negb_true_iff, forallb_forall. intros [H Hd].
  repeat split; [intros Hi; by apply H in Hi..|done].
Qed.

Lemma join_In sep ws c : In c (join sep ws) -> In c sep \/ exists w, In w ws /\ In c w.
Proof.
  induction ws as [|w ws IH]; [done|]. destruct ws as [|v ws]; [intros H; right; exists w; by split; [left|]|].
  rewrite join_cons, !in_app_iff by done. intros [H|[H|H]]; [right; exists w; by split; [left|]|by left|].
  destruct (IH H) as [?|(u & Hu & Hc)]; [by left|right]. exists u. by split; [right|].
Qed.

(** C20: A path passes the check exactly when every segment, percent-decoded, has
    neither a percent sign, a slash nor a backslash and is not one or two dots.
    Then decoding it once gives the same segments decoded one by one, decoding it
    again changes nothing, and there is nothing for a server to normalise: the
    path that was authorized is the one that is served. *)
Theorem authorized_path_has_one_reading path :
  is_safe_for_authorization path
  = forallb (fun s => one_reading (decoded s)) (split_char FORWARD_SLASH path)
  /\ (is_safe_for_authorization path = true ->
      let served := FileUrls.percent_decode (encode path) in
      split_char FORWARD_SLASH served = map decoded (split_char FORWARD_SLASH path)
      /\ FileUrls.percent_decode served = served /\ ~ In 92%N served
      /\ forall s, In s (split_char FORWARD_SLASH served) -> dot_segment s = false).
Proof.
  split; [apply safe_path_iff|]. rewrite safe_path_iff, forallb_forall. intros H. cbv zeta.
  assert (Hs : forall s, In s (map decoded (split_char FORWARD_SLASH path)) ->
            ~ In 37%N s /\ ~ In FORWARD_SLASH s /\ ~ In 92%N s /\ dot_segment s = false).
  { intros s (w & <- & Hw)%in_map_iff. by apply one_reading_inv, H. }
  pose proof (split_char_nonempty FORWARD_SLASH path) as Hne.
  pose proof (decode_join _ Hne) as E. rewrite join_split_char in E. rewrite E.
  set (ws := map decoded (split_char FORWARD_SLASH path)) in *.
  assert (Hw : ws <> []) by (unfold ws; by destruct (split_char FORWARD_SLASH path)).
  assert (Hsplit : split_char FORWARD_SLASH (join [FORWARD_SLASH] ws) = ws).
  { apply split_char_join; [done|]. apply List.Forall_forall. intros s Hin. by apply Hs. }
  assert (Hfree : forall c, c <> FORWARD_SLASH -> (forall s, In s ws -> ~ In c s) -> ~ In c (join [FORWARD_SLASH] ws)).
  { intros c Hc Hn [[Ec|[]]|(w & Hw' & Hi)]%join_In; [by destruct Hc|]. by apply (Hn w). }
  split; [done|]. split; [apply decode_clean, Hfree; [done|]; intros s Hin; by apply Hs|].
  split; [apply Hfree; [done|]; intros s Hin; by apply Hs|]. intros s Hin. rewrite Hsplit in Hin. by apply Hs.
Qed.

Lemma authorized_path_has_one_reading_witness :
  is_safe_for_authorization ($"/v1/a%20b/...") = true
  /\ split_char FORWARD_SLASH (FileUrls.percent_decode (encode ($"/v1/a%20b/...")))
     = map decoded (split_char FORWARD_SLASH ($"/v1/a%20b/..."))
  /\ map is_safe_for_authorization [$"/v1/../x"; $"/v1/%2e%2E/x"; $"/v1%2fx"; $"/v1/%252e"; $"/v1/%"; $"/a\b"]
     = repeat false 6.
Proof.
  assert (Hok : is_safe_for_authorization ($"/v1/a%20b/...") = true) by (vm_compute; reflexivity).
  split; [exact Hok|]. split; [|by vm_compute].
  by apply (authorized_path_has_one_reading ($"/v1/a%20b/...")).
Defined.

(** ** Hooks *)

Definition PATTERN_PREFIX : str := $"pattern:".
Definition LITERAL_PREFIX : str := $"literal:".

(** [HeaderName::from_bytes] (its text in normal form), [HeaderValue::from_str],
    [HeaderValue::to_str]; [form_urlencoded::parse]. *)
Class HttpCrates (Value : Type) : Type := {
  header_name : str -> option str;
  header_value : str -> option Value;
  header_text : Value -> option str;
  form_urlencoded : str -> list (str * str);
}.

Definition to_ascii_uppercase (s : str) : str := map char_to_ascii_uppercase s.

Inductive PathMatcher : Type :=
| PathPrefix (prefix : str)
| PathGlob (pattern : str).

Inductive ValueMatcher : Type :=
| ValueExact (value : str)
| ValueGlob (pattern : str).

Inductive MatcherPattern : Type :=
| Literal (text : str)
| Glob (pattern : str).

Record QueryConstraint : Type := mkQuery { query_name : str; query_values : list ValueMatcher }.
Record HeaderConstraint : Type := mkHeader { constraint_name : str; constraint_values : list ValueMatcher }.

Record MitmHookMatcher : Type := mkMatcher {
  methods : list str;
  path_prefixes : list PathMatcher;
  query : list QueryConstraint;
  headers : list HeaderConstraint;
}.

Inductive SecretSource : Type := EnvVar (name : str) | SecretFile (path : str).

Record ResolvedInjectedHeader (Value : Type) : Type := mkResolved {
  resolved_name : str;
  resolved_value : Value;
  resolved_source : SecretSource;
}.
Arguments mkResolved {Value}.
Arguments resolved_name {Value}.
Arguments resolved_value {Value}.
Arguments resolved_source {Value}.

Record MitmHookActions (Value : Type) : Type := mkActions {
  stripped_headers : list str;
  injected_headers : list (ResolvedInjectedHeader Value);
}.
Arguments mkActions {Value}.
Arguments stripped_headers {Value}.
Arguments injected_headers {Value}.

Record MitmHook (Value : Type) : Type := mkHook {
  hook_host : str;
  hook_matcher : MitmHookMatcher;
  hook_actions : MitmHookActions Value;
}.
Arguments mkHook {Value}.
Arguments hook_host {Value}.
Arguments hook_matcher {Value}.
Arguments hook_actions {Value}.

Record Request (Value : Type) : Type := mkRequest {
  request_method : str;
  request_path : str;
  request_query : option str;
  request_headers : list (str * Value);
}.
Arguments mkRequest {Value}.
Arguments request_method {Value}.
Arguments request_path {Value}.
Arguments request_query {Value}.
Arguments request_headers {Value}.

Inductive HookEvaluation (Value : Type) : Type :=
| NoHooksForHost
| Matched (actions : MitmHookActions Value)
| HookedHostNoMatch.
Arguments NoHooksForHost {Value}.
Arguments Matched {Value}.
Arguments HookedHostNoMatch {Value}.

(** The reasons behind the error texts. *)
Inductive HookError : Type :=
| HooksRequireMitm
| HookAt (hook_index : nat) (e : HookError)
| HostEmpty
| HostWildcard
| EmptyMethod
| NoMethods
| EmptyPrefix
| NoPrefixes
| EmptyGlob
| InvalidGlob (pattern : str)
| BodyReserved
| EmptyQueryKey
| NoQueryValues (name : str)
| InvalidHeaderName (name : str)
| SecretEnvVarEmpty
| SecretFileEmpty
| SecretFileNotAbsolute (path : str)
| SecretSourceCount
| MissingEnvVar (name : str)
| UnreadableSecret (path : str)
| InvalidHeaderValue (name : str).

Section hooks.
Context {Json Credentials Value : Type} `{HostCrates} `{HttpCrates Value}.
Context (home_directory : option str) (current_dir : result str io_error).
Abbreviation Config := (NetworkProxyConfig Json Credentials).
Abbreviation MitmHooksByHost := (gmap str (list (MitmHook Value))).

(** ** Parts of a hook *)

Definition path_glob : GlobOptions := mkGlobOptions false true (Some true).
Definition value_glob : GlobOptions := mkGlobOptions false false (Some true).

Definition parse_matcher_pattern (pattern : str) : result MatcherPattern HookError :=
  match strip_prefix LITERAL_PREFIX pattern with
  | Some literal => Ok (Literal literal)
  | None =>
      match strip_prefix PATTERN_PREFIX pattern with
      | None => Ok (Literal pattern)
      | Some glob_pattern => if is_empty glob_pattern then Err EmptyGlob else Ok (Glob glob_pattern)
      end
  end.

Definition compile_glob_matcher (options : GlobOptions) (pattern : str) : result str HookError :=
  match glob_build options pattern with Some _ => Ok pattern | None => Err (InvalidGlob pattern) end.

Definition compile_path_matcher (prefix : str) : result PathMatcher HookError :=
  let? parsed := parse_matcher_pattern prefix in
  match parsed with
  | Literal prefix => if is_empty prefix then Err EmptyPrefix else Ok (PathPrefix prefix)
  | Glob pattern => let? pattern := compile_glob_matcher path_glob pattern in Ok (PathGlob pattern)
  end.

Definition compile_path_matchers : list str -> result (list PathMatcher) HookError :=
  collect_results compile_path_matcher.

Definition compile_value_matcher (value : str) : result ValueMatcher HookError :=
  let? parsed := parse_matcher_pattern value in
  match parsed with
  | Literal value => Ok (ValueExact value)
  | Glob pattern => let? pattern := compile_glob_matcher value_glob pattern in Ok (ValueGlob pattern)
  end.

Definition compile_value_matchers : list str -> result (list ValueMatcher) HookError :=
  collect_results compile_value_matcher.

Definition normalize_hook_host (host : str) : result str HookError :=
  let normalized := normalize_host host in
  if is_empty normalized then Err HostEmpty
  else if contains_char STAR normalized then Err HostWildcard
  else Ok normalized.

Definition normalize_method (method : str) : result str HookError :=
  let normalized := to_ascii_uppercase (trim method) in
  if is_empty normalized then Err EmptyMethod else Ok normalized.

Definition normalize_methods : list str -> result (list str) HookError := collect_results normalize_method.

Definition normalize_query_name (name : str) : result str HookError :=
  if is_empty name then Err EmptyQueryKey else Ok name.

Definition parse_header_name (name : str) : result str HookError :=
  ok_or (header_name name) (InvalidHeaderName name).

Definition parse_secret_file (path : str) : result str HookError :=
  if is_empty (trim path) then Err SecretFileEmpty
  else if negb (AbsolutePath.is_absolute path) then Err (SecretFileNotAbsolute path)
  else map_err (fun _ => SecretFileNotAbsolute path)
         (AbsolutePath.from_absolute_path home_directory current_dir path).

(** ** Validation *)

(** [for x in l { check(x)?; }]. *)
Fixpoint check_all {A} (check : A -> result unit HookError) (l : list A) : result unit HookError :=
  match l with [] => Ok () | x :: l => let? _ := check x in check_all check l end.

Definition validate_query_constraint (kv : str * list str) : result unit HookError :=
  let '(name, values) := kv in
  let? normalized := normalize_query_name name in
  if is_empty normalized then Err EmptyQueryKey
  else if is_empty values then Err (NoQueryValues name)
  else let? _ := compile_value_matchers values in Ok ().

Definition validate_header_constraint (kv : str * list str) : result unit HookError :=
  let '(name, values) := kv in
  let? _ := parse_header_name name in
  let? _ := compile_value_matchers values in Ok ().

Definition validate_strip_request_header (name : str) : result unit HookError :=
  let? _ := parse_header_name name in Ok ().

Definition validate_injected_header (header : InjectedHeaderConfig) : result unit HookError :=
  let? _ := parse_header_name (injected_name header) in
  match secret_env_var header, secret_file header with
  | Some secret_env_var, None => if is_empty (trim secret_env_var) then Err SecretEnvVarEmpty else Ok ()
  | None, Some secret_file => let? _ := parse_secret_file secret_file in Ok ()
  | _, _ => Err SecretSourceCount
  end.

Definition validate_hook (hook : MitmHookConfig Json) : result unit HookError :=
  let matcher := hook_config_match hook in
  let? host := normalize_hook_host (hook_config_host hook) in
  let? methods := normalize_methods (match_methods matcher) in
  if is_empty methods then Err NoMethods
  else
    let? path_prefixes := compile_path_matchers (match_path_prefixes matcher) in
    if is_empty path_prefixes then Err NoPrefixes
    else if is_some (match_body matcher) then Err BodyReserved
    else
      let? _ := check_all validate_query_constraint (btree_iter (match_query matcher)) in
      let? _ := check_all validate_header_constraint (btree_iter (match_headers matcher)) in
      let? _ := check_all validate_strip_request_header (strip_request_headers hook) in
      let? _ := check_all validate_injected_header (inject_request_headers hook) in
      if is_empty host then Err HostEmpty else Ok ().

Fixpoint validate_hooks (index : nat) (hooks : list (MitmHookConfig Json)) : result unit HookError :=
  match hooks with
  | [] => Ok ()
  | hook :: hooks =>
      match validate_hook hook with
      | Ok _ => validate_hooks (S index) hooks
      | Err e => Err (HookAt index e)
      end
  end.

Definition validate_mitm_hook_config (config : Config) : result unit HookError :=
  if is_empty (mitm_hooks config) then Ok ()
  else if negb (mitm config) then Err HooksRequireMitm
  else validate_hooks 0 (mitm_hooks config).

(** ** Compilation *)

Section compile.
Context (resolve_env_var : str -> option str) (read_secret_file : str -> option str).

Definition compile_injected_header (header : InjectedHeaderConfig)
  : result (ResolvedInjectedHeader Value) HookError :=
  let? name := parse_header_name (injected_name header) in
  let? secret_source :=
    match secret_env_var header, secret_file header with
    | Some env_var, None =>
        let? value := ok_or (resolve_env_var env_var) (MissingEnvVar env_var) in Ok (value, EnvVar env_var)
    | None, Some secret_file =>
        let? path := parse_secret_file secret_file in
        let? value := ok_or (read_secret_file path) (UnreadableSecret path) in Ok (value, SecretFile path)
    | _, _ => Err SecretSourceCount
    end in
  let '(secret, source) := secret_source in
  let? value := ok_or (header_value (default [] (injected_prefix header) ++ secret))
                  (InvalidHeaderValue (injected_name header)) in
  Ok (mkResolved name value source).

Definition compile_query (kv : str * list str) : result QueryConstraint HookError :=
  let? name := normalize_query_name kv.1 in
  let? values := compile_value_matchers kv.2 in Ok (mkQuery name values).

Definition compile_header (kv : str * list str) : result HeaderConstraint HookError :=
  let? name := parse_header_name kv.1 in
  let? values := compile_value_matchers kv.2 in Ok (mkHeader name values).

Definition compile_hook (hook : MitmHookConfig Json) : result (MitmHook Value) HookError :=
  let matcher := hook_config_match hook in
  let? host := normalize_hook_host (hook_config_host hook) in
  let? methods := normalize_methods (match_methods matcher) in
  let? path_prefixes := compile_path_matchers (match_path_prefixes matcher) in
  let? query := collect_results compile_query (btree_iter (match_query matcher)) in
  let? headers := collect_results compile_header (btree_iter (match_headers matcher)) in
  let? stripped := collect_results parse_header_name (strip_request_headers hook) in
  let? injected := collect_results compile_injected_header (inject_request_headers hook) in
  Ok (mkHook host (mkMatcher methods path_prefixes query headers) (mkActions stripped injected)).

Fixpoint compile_hooks (hooks : list (MitmHookConfig Json)) (by_host : MitmHooksByHost)
  : result MitmHooksByHost HookError :=
  match hooks with
  | [] => Ok by_host
  | config :: hooks =>
      let? hook := compile_hook config in
      compile_hooks hooks
        (<[hook_host hook := default [] (by_host !! hook_host hook) ++ [hook]]> by_host)
  end.

Definition compile_mitm_hooks_with_resolvers (config : Config) : result MitmHooksByHost HookError :=
  let? _ := validate_mitm_hook_config config in
  compile_hooks (mitm_hooks config) ∅.

End compile.

(** The resolvers of the running program: variables that are valid text, and
    files read with the white space around their text dropped. *)
Definition compile_mitm_hooks (env_var : str -> option str) (read_to_string : str -> option str)
    (config : Config) : result MitmHooksByHost HookError :=
  compile_mitm_hooks_with_resolvers env_var (fun path => trim <$> read_to_string path) config.

(** ** Evaluation *)

Definition glob_is_match (options : GlobOptions) (pattern candidate : str) : bool :=
  match glob_build options pattern with Some matches => matches candidate | None => false end.

Definition path_matcher_matches (self : PathMatcher) (candidate : str) : bool :=
  match self with
  | PathPrefix prefix => starts_with candidate prefix
  | PathGlob pattern => glob_is_match path_glob pattern candidate
  end.

Definition value_matches (self : ValueMatcher) (candidate : str) : bool :=
  match self with
  | ValueExact value => bool_decide (value = candidate)
  | ValueGlob pattern => glob_is_match value_glob pattern candidate
  end.

Definition query_matches (constraints : list QueryConstraint) (req : Request Value) : bool :=
  if is_empty constraints then true
  else
    let actual := form_urlencoded (default [] (request_query req)) in
    forallb (fun constraint =>
      existsb (fun kv => bool_decide (kv.1 = query_name constraint)
                         && existsb (fun allowed => value_matches allowed kv.2) (query_values constraint))
        actual) constraints.

Definition headers_match (constraints : list HeaderConstraint) (req : Request Value) : bool :=
  forallb (fun constraint =>
    let actual := map snd (List.filter (fun kv => bool_decide (kv.1 = constraint_name constraint))
                             (request_headers req)) in
    if is_empty actual then false
    else if is_empty (constraint_values constraint) then true
    else existsb (fun value =>
           match header_text value with
           | Some candidate => existsb (fun allowed => value_matches allowed candidate) (constraint_values constraint)
           | None => false
           end) actual) constraints.

Definition path_matches (prefixes : list PathMatcher) (path : str) : bool :=
  existsb (fun m => path_matcher_matches m path) prefixes.

Definition hook_matches (hook : MitmHook Value) (req : Request Value) : bool :=
  let matcher := hook_matcher hook in
  if negb (one_of (to_ascii_uppercase (request_method req)) (methods matcher)) then false
  else if negb (is_safe_for_authorization (request_path req))
          || negb (path_matches (path_prefixes matcher) (request_path req)) then false
  else if negb (query_matches (query matcher) req) then false
  else headers_match (headers matcher) req.

Definition evaluate_mitm_hooks (hooks_by_host : MitmHooksByHost) (host : str) (req : Request Value)
  : HookEvaluation Value :=
  match hooks_by_host !! normalize_host host with
  | None => NoHooksForHost
  | Some hooks =>
      match List.find (fun hook => hook_matches hook req) hooks with
      | Some hook => Matched (hook_actions hook)
      | None => HookedHostNoMatch
      end
  end.

End hooks.

(** * Theorems on hooks (network-proxy/src/mitm_hook.rs)

    Which hook decides a request, and why compiling validated hooks can fail. *)

Section props.
Context {Json Credentials Value : Type} `{HostCrates} `{HttpCrates Value}.
Context (home_directory : option str) (current_dir : result str io_error).
Context (resolve_env_var : str -> option str) (read_secret_file : str -> option str).
Abbreviation Config := (NetworkProxyConfig Json Credentials).
Abbreviation compile_hook := (@compile_hook Json Value _ _ home_directory current_dir resolve_env_var read_secret_file).
Abbreviation compile_hooks := (@compile_hooks Json Value _ _ home_directory current_dir resolve_env_var read_secret_file).
Abbreviation compile :=
  (@compile_mitm_hooks_with_resolvers Json Credentials Value _ _ home_directory current_dir resolve_env_var read_secret_file).
Abbreviation validate := (@validate_mitm_hook_config Json Credentials Value _ _ home_directory current_dir).

(** ** The hooks of a host *)

Definition for_host (host : str) (l : list (MitmHook Value)) : list (MitmHook Value) :=
  List.filter (fun hook => bool_decide (hook_host hook = host)) l.

Lemma compile_hooks_spec hooks : forall by_host by_host',
  compile_hooks hooks by_host = Ok by_host' ->
  exists l, collect_results compile_hook hooks = Ok l
    /\ forall host, by_host' !! host
       = if is_empty (for_host host l) then by_host !! host
         else Some (default [] (by_host !! host) ++ for_host host l).
Proof.
  induction hooks as [|c hooks IH]; intros m m'; cbn [MitmHook.compile_hooks collect_results].
  { intros [= <-]. by exists []. }
  destruct (compile_hook c) as [hook|e] eqn:E; [|done]. intros (l & -> & Hl)%IH.
  exists (hook :: l). split; [done|]. intros host. rewrite Hl. cbn [for_host List.filter].
  fold (for_host host l). case_bool_decide as Eh.
  - subst host. rewrite lookup_insert_eq. cbn [is_empty default].
    destruct (is_empty (for_host (hook_host hook) l)) eqn:Ee.
    + apply is_empty_true in Ee. by rewrite Ee.
    + cbn. by rewrite <- app_assoc.
  - by rewrite lookup_insert_ne.
Qed.

Lemma compile_hook_host c hook : compile_hook c = Ok hook ->
  hook_host hook = normalize_host (hook_config_host c)
  /\ hook_host hook <> [] /\ ~ In STAR (hook_host hook).
Proof.
  unfold MitmHook.compile_hook, normalize_hook_host. destruct (is_empty (normalize_host _)) eqn:E1; [done|].
  destruct (contains_char STAR _) eqn:E2; [done|]. intros Hc. repeat case_match; try done.
  injection Hc as <-. cbn. split; [done|]. split; [by apply is_empty_false|]. by apply contains_char_false.
Qed.

(** ** First match *)

Lemma find_first {A} (p : A -> bool) l x : List.find p l = Some x ->
  exists pre post, l = pre ++ x :: post /\ p x = true /\ Forall (fun y => p y = false) pre.
Proof.
  induction l as [|y l IH]; [done|]. cbn. destruct (p y) eqn:E.
  - intros [= <-]. exists [], l. by repeat split.
  - intros (pre & post & -> & Hx & Hpre)%IH. exists (y :: pre), post. split; [done|]. split; [done|]. by constructor.
Qed.

Lemma filter_split {A} (p : A -> bool) l pre x post : List.filter p l = pre ++ x :: post ->
  exists l1 l2, l = l1 ++ x :: l2 /\ List.filter p l1 = pre /\ p x = true.
Proof.
  revert pre. induction l as [|y l IH]; intros pre; [by destruct pre|]. cbn. destruct (p y) eqn:E.
  - destruct pre as [|z pre].
    + intros [= -> _]. by exists [], l.
    + intros [= -> E']. apply IH in E' as (l1 & l2 & -> & <- & Hx). exists (z :: l1), l2. cbn. by rewrite E.
  - intros (l1 & l2 & -> & <- & Hx)%IH. exists (y :: l1), l2. cbn. by rewrite E.
Qed.

Lemma Forall2_split_r {A B} (R : A -> B -> Prop) l k1 y k2 : Forall2 R l (k1 ++ y :: k2) ->
  exists l1 x l2, l = l1 ++ x :: l2 /\ Forall2 R l1 k1 /\ R x y.
Proof.
  intros (l1 & l' & Hl1 & Hl' & ->)%Forall2_app_inv_r. inversion Hl' as [|x ? l2 ? Hx]; subst. by exists l1, x, l2.
Qed.

(** What it means that a hook accepts a request. *)
Definition fits_glob (options : GlobOptions) (pattern candidate : str) : Prop :=
  exists matches, glob_build options pattern = Some matches /\ matches candidate = true.

Definition fits_path (path : str) (m : PathMatcher) : Prop :=
  match m with
  | PathPrefix prefix => exists rest, path = prefix ++ rest
  | PathGlob pattern => fits_glob path_glob pattern path
  end.

Definition fits_value (candidate : str) (m : ValueMatcher) : Prop :=
  match m with
  | ValueExact value => candidate = value
  | ValueGlob pattern => fits_glob value_glob pattern candidate
  end.

(** The method is one of the hook's; the path has one reading and fits one of its
    paths; every query parameter it names is there with a value that fits; every
    header it names is there, with a readable value that fits if it lists any. *)
Definition satisfies (hook : MitmHook Value) (req : Request Value) : Prop :=
  let m := hook_matcher hook in
  In (to_ascii_uppercase (request_method req)) (methods m)
  /\ is_safe_for_authorization (request_path req) = true
  /\ Exists (fits_path (request_path req)) (path_prefixes m)
  /\ (forall c, In c (query m) ->
       exists v, In (query_name c, v) (form_urlencoded (default [] (request_query req)))
         /\ Exists (fits_value v) (query_values c))
  /\ (forall c, In c (headers m) ->
       exists v, In (constraint_name c, v) (request_headers req)
         /\ (constraint_values c = []
             \/ exists text, header_text v = Some text /\ Exists (fits_value text) (constraint_values c))).

Lemma glob_is_match_iff options pattern candidate :
  glob_is_match options pattern candidate = true <-> fits_glob options pattern candidate.
Proof.
  unfold glob_is_match, fits_glob. destruct (glob_build options pattern) as [f|]; [|naive_solver].
  split; [by exists f|]. by intros (g & [= <-] & ?).
Qed.

Lemma existsb_Exists {A} (p : A -> bool) (P : A -> Prop) l :
  (forall x, p x = true <-> P x) -> existsb p l = true <-> Exists P l.
Proof.
  intros Hp. rewrite existsb_exists, Exists_exists. setoid_rewrite list_elem_of_In. by setoid_rewrite Hp.
Qed.

Lemma path_matches_iff l path : path_matches l path = true <-> Exists (fits_path path) l.
Proof.
  apply existsb_Exists. intros [prefix|pattern]; cbn; [apply starts_with_true|apply glob_is_match_iff].
Qed.

Lemma value_matches_iff l v : existsb (fun allowed => value_matches allowed v) l = true <-> Exists (fits_value v) l.
Proof.
  apply existsb_Exists. intros [value|pattern]; cbn; [|apply glob_is_match_iff].
  rewrite bool_decide_eq_true. by split.
Qed.

Lemma query_matches_iff l req : query_matches l req = true <->
  forall c, In c l -> exists v, In (query_name c, v) (form_urlencoded (default [] (request_query req)))
    /\ Exists (fits_value v) (query_values c).
Proof.
  unfold query_matches. destruct l as [|c0 l0]; [by split|]. cbn [is_empty]. rewrite forallb_forall.
  apply forall_proper. intros c. apply forall_proper. intros _. rewrite existsb_exists. split.
  - intros ([k v] & Hin & [Ek Hv%value_matches_iff]%andb_prop). cbn [fst snd] in *.
    apply bool_decide_eq_true in Ek as ->. by exists v.
  - intros (v & Hin & Hv%value_matches_iff). exists (query_name c, v). split; [done|]. cbn.
    by rewrite bool_decide_true.
Qed.

Lemma headers_match_iff l req : headers_match l req = true <->
  forall c, In c l -> exists v, In (constraint_name c, v) (request_headers req)
    /\ (constraint_values c = []
        \/ exists text, header_text v = Some text /\ Exists (fits_value text) (constraint_values c)).
Proof.
  unfold headers_match. rewrite forallb_forall. apply forall_proper. intros c. apply forall_proper. intros _. cbv zeta.
  set (actual := map snd _).
  assert (Ha : forall v, In v actual <-> In (constraint_name c, v) (request_headers req)).
  { intros v. unfold actual. rewrite in_map_iff. split.
    - intros ([k w] & <- & [Hin E%bool_decide_eq_true]%filter_In). cbn in *. by subst.
    - intros Hin. exists (constraint_name c, v). split; [done|]. apply filter_In. split; [done|]. by apply bool_decide_eq_true. }
  setoid_rewrite <- Ha. destruct actual as [|v0 vs]; cbn [is_empty]; [naive_solver|].
  destruct (constraint_values c) as [|m ms] eqn:Em; cbn [is_empty].
  - split; [intros _; exists v0; split; [by left|by left]|done].
  - rewrite existsb_exists. apply exist_proper. intros v. apply and_iff_compat_l.
    destruct (header_text v) as [text|]; [|naive_solver]. rewrite value_matches_iff. naive_solver.
Qed.

Lemma hook_matches_iff hook req : hook_matches hook req = true <-> satisfies hook req.
Proof.
  unfold hook_matches, satisfies. cbv zeta.
  rewrite <- path_matches_iff, <- query_matches_iff, <- headers_match_iff.
  assert (Hm : In (to_ascii_uppercase (request_method req)) (methods (hook_matcher hook))
    <-> one_of (to_ascii_uppercase (request_method req)) (methods (hook_matcher hook)) = true).
  { unfold one_of. rewrite existsb_exists. setoid_rewrite bool_decide_eq_true. naive_solver. }
  rewrite Hm. destruct (one_of _ _), (is_safe_for_authorization _), (path_matches _ _), (query_matches _ _); cbn; naive_solver.
Qed.

(** The configured hook [c] is for the host of the request and accepts it. *)
Definition decides (host : str) (req : Request Value) (c : MitmHookConfig Json) (hook : MitmHook Value) : Prop :=
  compile_hook c = Ok hook /\ normalize_host (hook_config_host c) = normalize_host host /\ satisfies hook req.


(** ** Validated hooks compile *)

Definition secret_error (e : HookError) : bool :=
  match e with MissingEnvVar _ | UnreadableSecret _ | InvalidHeaderValue _ => true | _ => false end.

Definition compiles {A} (r : result A HookError) : Prop :=
  match r with Ok _ => True | Err e => secret_error e = true end.

Lemma compiles_collect {A B} (check : A -> result unit HookError) (f : A -> result B HookError) l :
  (forall x, check x = Ok () -> compiles (f x)) -> check_all check l = Ok () -> compiles (collect_results f l).
Proof.
  intros Hf. induction l as [|x l IH]; [done|]. cbn. destruct (check x) as [[]|] eqn:E; [|done]. intros Hl.
  specialize (Hf x E). destruct (f x); [cbn in *|done]. specialize (IH Hl). by destruct (collect_results f l).
Qed.

Lemma injected_compiles header :
  validate_injected_header home_directory current_dir header = Ok () ->
  compiles (compile_injected_header home_directory current_dir resolve_env_var read_secret_file header).
Proof.
  unfold validate_injected_header, compile_injected_header.
  destruct (parse_header_name (injected_name header)); [|done].
  destruct (secret_env_var header), (secret_file header) as [f|]; try done.
  - intros _. destruct (resolve_env_var _); [cbn|done]. by destruct (header_value _).
  - destruct (parse_secret_file _ _ f) as [p|]; [|done]. intros _.
    destruct (read_secret_file p); [cbn|done]. by destruct (header_value _).
Qed.

Lemma hook_compiles c : validate_hook home_directory current_dir c = Ok () -> compiles (compile_hook c).
Proof.
  unfold validate_hook, MitmHook.compile_hook. cbv zeta.
  destruct (normalize_hook_host _); [|done]. destruct (normalize_methods _) as [ms|]; [|done].
  destruct (is_empty ms); [done|]. destruct (compile_path_matchers _) as [ps|]; [|done].
  destruct (is_empty ps); [done|]. destruct (is_some (match_body _)); [done|].
  destruct (check_all validate_query_constraint _) as [[]|] eqn:Eq; [|done].
  destruct (check_all validate_header_constraint _) as [[]|] eqn:Eh; [|done].
  destruct (check_all validate_strip_request_header _) as [[]|] eqn:Es; [|done].
  destruct (check_all (validate_injected_header _ _) _) as [[]|] eqn:Ei; [|done]. intros _.
  assert (Hq : compiles (collect_results compile_query (btree_iter (match_query (hook_config_match c))))).
  { eapply compiles_collect; [|exact Eq]. intros [name values]. cbn. unfold compile_query. cbn.
    destruct (normalize_query_name name) as [n|]; [|done]. destruct (is_empty n); [done|].
    destruct (is_empty values); [done|]. by destruct (compile_value_matchers values). }
  assert (Hh : compiles (collect_results compile_header (btree_iter (match_headers (hook_config_match c))))).
  { eapply compiles_collect; [|exact Eh]. intros [name values]. cbn. unfold compile_header. cbn.
    destruct (parse_header_name name); [|done]. by destruct (compile_value_matchers values). }
  assert (Hs : compiles (collect_results parse_header_name (strip_request_headers c))).
  { eapply compiles_collect; [|exact Es]. intros name. unfold validate_strip_request_header.
    by destruct (parse_header_name name). }
  pose proof (compiles_collect _ (compile_injected_header home_directory current_dir resolve_env_var read_secret_file)
                _ injected_compiles Ei) as Hi.
  do 4 (case_match; [|done]). done.
Qed.

Lemma hooks_compile hooks : forall index by_host,
  validate_hooks home_directory current_dir index hooks = Ok () -> compiles (compile_hooks hooks by_host).
Proof.
  induction hooks as [|c hooks IH]; intros i m; [done|]. cbn.
  destruct (validate_hook _ _ c) as [[]|] eqn:E; [|done]. intros Hv.
  pose proof (hook_compiles c E) as Hc. destruct (compile_hook c); [|done]. by eapply IH.
Qed.

(** Hooks that were validated compile, unless a secret is missing: the
    variable is not set, the file cannot be read, or the value is no header
    value.  Without interception no hook is accepted, and what is not valid does
    not compile. *)
Theorem validated_hooks_compile config :
  (validate config = Ok () ->
     compiles (compile config) /\ (mitm config = true \/ mitm_hooks config = []))
  /\ (forall e, validate config = Err e -> compile config = Err e).
Proof.
  split.
  - intros Hv. split.
    + unfold MitmHook.compile_mitm_hooks_with_resolvers. rewrite Hv. revert Hv.
      unfold MitmHook.validate_mitm_hook_config. destruct (mitm_hooks config); [done|].
      destruct (mitm config); [|done]. apply hooks_compile.
    + revert Hv. unfold MitmHook.validate_mitm_hook_config. destruct (mitm_hooks config); [by right|].
      destruct (mitm config); [by left|done].
  - intros e He. unfold MitmHook.compile_mitm_hooks_with_resolvers. by rewrite He.
Qed.

End props.

(** ** A concrete configuration *)

#[export] Instance demo_host_crates : HostCrates := {
  glob_build _ p :=
    if existsb (fun c => one_of [c] [$"["; $"]"; $"{"; $"}"; $"\"]) p then None
    else Some (fun t => wild (to_ascii_lowercase p) (to_ascii_lowercase t));
  globset_build _ := true;
  url_host h :=
    if existsb (fun c => one_of [c] [$":"; $"/"; $" "; $"%"; $"["; $"]"; $"{"; $"}"; $"\"; $"*"; $"?"]) h
    then None else Some (to_ascii_lowercase h);
}.

#[export] Instance demo_http_crates : HttpCrates str := {
  header_name s := if is_empty s || existsb is_whitespace s then None else Some (to_ascii_lowercase s);
  header_value s := if contains_char LF s then None else Some s;
  header_text v := Some v;
  form_urlencoded s :=
    if is_empty s then []
    else map (fun w => default (w, []) (split_once 61%N w)) (split_char 38%N s);
}.

Definition demo_hook (host : str) (prefixes : list str) : MitmHookConfig unit :=
  mkHookConfig host (mkMatch [$" get"] prefixes ∅ ∅ None) [$"Authorization"]
    [mkInjected ($"Authorization") (Some ($"TOKEN")) None (Some ($"Bearer "))].

Definition demo_hooked : NetworkProxyConfig unit unit :=
  mkConfig true default_proxy_url true default_socks_url true true false None Full None None false true
    false false () false
    [demo_hook ($"API.example.com.") [$"/v1/"]; demo_hook ($"api.example.com") [$"pattern:/*"]].

Definition demo_secret (name : str) : option str := if bool_decide (name = $"TOKEN") then Some ($"s3") else None.

Definition demo_request (path : str) : Request str := mkRequest ($"GET") path None [].

Example demo_evaluations :
  match compile_mitm_hooks_with_resolvers None (Ok ($"/")) demo_secret (fun _ => None) demo_hooked with
  | Ok hooks =>
      map (fun path => match evaluate_mitm_hooks hooks ($"api.example.com:443") (demo_request path) with
                       | Matched actions => Some (map resolved_value (injected_headers actions))
                       | _ => None end)
        [$"/v1/x"; $"/v2"; $"/v1/../v2"; $"v2"]
      = [Some [$"Bearer s3"]; Some [$"Bearer s3"]; None; None]
  | Err _ => False
  end.
Proof. by vm_compute. Qed.


Lemma validated_hooks_compile_witness :
  validate_mitm_hook_config None (Ok ($"/")) demo_hooked = Ok ()
  /\ compiles (compile_mitm_hooks_with_resolvers (Value := str) None (Ok ($"/")) demo_secret (fun _ => None) demo_hooked).
Proof.
  assert (Hv : validate_mitm_hook_config None (Ok ($"/")) demo_hooked = Ok ()) by (vm_compute; reflexivity).
  split; [exact Hv|].
  exact (proj1 (proj1 (validated_hooks_compile (Value := str) None (Ok ($"/")) demo_secret (fun _ => None) demo_hooked) Hv)).
Defined.
