(* ===== verification/NetworkConstraints.v ===== *)
(** * Managed constraints of the proxy (network-proxy/src/state.rs)

    The state built from a configuration, and the comparison of a configuration
    with the constraints an administrator sets.  Of an error the field is kept,
    not the texts of the rejected and the allowed value.  Creating the state of
    interception (certificates) is an argument. *)

From S2P Require Import Prelude RustStr PatchTypes AbsolutePath Wildcard IpAddr NetworkHost NetworkPatterns NetworkConfig MitmHook.

Record NetworkProxyConstraints : Type := mkConstraints {
  max_enabled : option bool;
  max_mode : option NetworkMode;
  max_allow_upstream_proxy : option bool;
  max_non_loopback_proxy : option bool;
  max_all_unix_sockets : option bool;
  managed_allowed_domains : option (list str);
  allowlist_expansion_enabled : option bool;
  managed_denied_domains : option (list str);
  denylist_expansion_enabled : option bool;
  managed_unix_sockets : option (list str);
  max_allow_local_binding : option bool;
}.

#[export] Instance NetworkProxyConstraints_eq_dec : EqDecision NetworkProxyConstraints.
Proof. solve_decision. Defined.

Definition no_constraints : NetworkProxyConstraints :=
  mkConstraints None None None None None None None None None None None.

Inductive NetworkProxyConstraintError : Type := InvalidValue (field_name : str).

Definition network_mode_rank (m : NetworkMode) : N := match m with Limited => 0 | Full => 1 end.

Definition validate_non_global_wildcard_domain_patterns (field_name : str) (patterns : list str)
  : result unit NetworkProxyConstraintError :=
  if existsb is_global_wildcard_domain_pattern patterns then Err (InvalidValue field_name) else Ok ().

Definition lower_set (l : list str) : gset str := list_to_set (map to_ascii_lowercase l).

Definition require (ok : bool) (field_name : str) : result unit NetworkProxyConstraintError :=
  if ok then Ok () else Err (InvalidValue field_name).

(** A setting that may be on only if the constraint does not forbid it. *)
Definition not_forbidden (candidate : bool) (max : option bool) : bool :=
  match max with Some false => negb candidate | _ => true end.

Section constraints.
Context {Json Credentials Value Mitm : Type} `{HostCrates} `{HttpCrates Value}.
Context (home_directory : option str) (current_dir : result str io_error).
Abbreviation Config := (NetworkProxyConfig Json Credentials).
Implicit Types config : Config.

Definition validate_allowed_domains config (constraints : NetworkProxyConstraints)
    (denied_domain_overrides : gset str) : result unit NetworkProxyConstraintError :=
  match managed_allowed_domains constraints with
  | None => Ok ()
  | Some managed =>
      let? _ := validate_non_global_wildcard_domain_patterns ($"network.allowed_domains") managed in
      let candidate := default [] (allowed_domains config) in
      require
        match allowlist_expansion_enabled constraints with
        | Some true =>
            forallb (fun entry => bool_decide (entry ∈ lower_set candidate)
                                  || bool_decide (entry ∈ denied_domain_overrides))
              (map to_ascii_lowercase managed)
        | Some false => bool_decide (lower_set candidate = lower_set managed ∖ denied_domain_overrides)
        | None =>
            forallb (fun entry =>
              existsb (fun m => allows (parse_for_constraints m) (parse_for_constraints entry)) managed)
              candidate
        end ($"network.allowed_domains")
  end.

Definition validate_denied_domains config (constraints : NetworkProxyConstraints)
  : result unit NetworkProxyConstraintError :=
  match managed_denied_domains constraints with
  | None => Ok ()
  | Some managed =>
      let? _ := validate_non_global_wildcard_domain_patterns ($"network.denied_domains") managed in
      let candidate := lower_set (default [] (denied_domains config)) in
      require
        match denylist_expansion_enabled constraints with
        | Some false => bool_decide (candidate = lower_set managed)
        | Some true | None =>
            forallb (fun entry => bool_decide (entry ∈ candidate)) (map to_ascii_lowercase managed)
        end ($"network.denied_domains")
  end.

Definition validate_unix_sockets config (constraints : NetworkProxyConstraints)
  : result unit NetworkProxyConstraintError :=
  match managed_unix_sockets constraints with
  | None => Ok ()
  | Some managed =>
      require (forallb (fun entry => bool_decide (to_ascii_lowercase entry ∈ lower_set managed))
                 (allow_unix_sockets config)) ($"network.allow_unix_sockets")
  end.

Definition validate_policy_against_constraints config (constraints : NetworkProxyConstraints)
  : result unit NetworkProxyConstraintError :=
  let config_denied_domains := default [] (denied_domains config) in
  let denied_domain_overrides := lower_set config_denied_domains in
  let? _ := map_err (fun _ => InvalidValue ($"network.mitm_hooks"))
              (validate_mitm_hook_config (Value := Value) home_directory current_dir config) in
  let? _ := validate_non_global_wildcard_domain_patterns ($"network.denied_domains") config_denied_domains in
  let? _ := require (not_forbidden (enabled config) (max_enabled constraints)) ($"network.enabled") in
  let? _ := require match max_mode constraints with
                    | Some max => (network_mode_rank (mode config) <=? network_mode_rank max)%N
                    | None => true end ($"network.mode") in
  let? _ := require (not_forbidden (allow_upstream_proxy config) (max_allow_upstream_proxy constraints))
              ($"network.allow_upstream_proxy") in
  let? _ := require (not_forbidden (dangerously_allow_non_loopback_proxy config)
                       (max_non_loopback_proxy constraints))
              ($"network.dangerously_allow_non_loopback_proxy") in
  let allow_all_unix_sockets :=
    default (is_none (managed_unix_sockets constraints)) (max_all_unix_sockets constraints) in
  let? _ := require (negb (default false (dangerously_allow_all_unix_sockets config)
                           && negb allow_all_unix_sockets))
              ($"network.dangerously_allow_all_unix_sockets") in
  let? _ := require (not_forbidden (allow_local_binding config) (max_allow_local_binding constraints))
              ($"network.allow_local_binding") in
  let? _ := validate_allowed_domains config constraints denied_domain_overrides in
  let? _ := validate_denied_domains config constraints in
  validate_unix_sockets config constraints.

(** ** The state of the proxy *)

Inductive BuildError : Type :=
| BadSocketPath (e : ConfigError)
| BrokerRequiresMitm
| ConstraintViolated (e : NetworkProxyConstraintError)
| BadGlobset (e : GlobsetError)
| BadHooks (e : HookError)
| MitmNotCreated (e : str).

Record BlockedRequest : Type := mkBlocked {
  blocked_host : str;
  blocked_reason : str;
  blocked_client : option str;
  blocked_method : option str;
  blocked_mode : option NetworkMode;
  blocked_protocol : str;
  blocked_execution_id : option str;
  blocked_decision : option str;
  blocked_source : option str;
  blocked_port : option N;
  blocked_timestamp : Z;
}.

Record ConfigState : Type := mkState {
  config : Config;
  brokerage_created_default_allowlist : bool;
  allow_set : GlobSet;
  deny_set : GlobSet;
  state_mitm : option Mitm;
  state_hooks : gmap str (list (MitmHook Value));
  constraints : NetworkProxyConstraints;
  blocked : list BlockedRequest;
  blocked_total : N;
}.

Context (mitm_state_new : bool -> result Mitm str).
Context (env_var : str -> option str) (read_to_string : str -> option str).

Definition brokered_config (config : Config) (constraints : NetworkProxyConstraints) : Config * bool :=
  let config := if bool_decide (max_enabled constraints = Some false)
                then set_broker false (mitm config) (credential_broker_enabled_mitm config) config
                else config in
  let brokerage_created_proxy := credential_broker config && negb (enabled config) in
  let default_allowlist := brokerage_created_proxy && is_none (allowed_domains config)
                           && is_none (managed_allowed_domains constraints) in
  let config := if brokerage_created_proxy then set_enabled true config else config in
  (if default_allowlist then set_allowed_domains [[STAR]] config else config, default_allowlist).

Definition build_config_state (config : Config) (constraints : NetworkProxyConstraints)
  : result ConfigState BuildError :=
  let '(config, default_allowlist) := brokered_config config constraints in
  let? _ := map_err BadSocketPath (validate_unix_socket_allowlist_paths home_directory current_dir config) in
  if credential_broker config && negb (mitm config) then Err BrokerRequiresMitm
  else
    let allowed := default [] (allowed_domains config) in
    let denied := default [] (denied_domains config) in
    let? _ := map_err ConstraintViolated
                (validate_non_global_wildcard_domain_patterns ($"network.denied_domains") denied) in
    let? deny_set := map_err BadGlobset (compile_denylist_globset denied) in
    let? allow_set := map_err BadGlobset (compile_allowlist_globset allowed) in
    let? hooks := map_err BadHooks
                    (compile_mitm_hooks home_directory current_dir env_var read_to_string config) in
    let? mitm := if mitm config
                 then match mitm_state_new (allow_upstream_proxy config) with
                      | Ok m => Ok (Some m) | Err e => Err (MitmNotCreated e) end
                 else Ok None in
    Ok (mkState config default_allowlist allow_set deny_set mitm hooks constraints [] 0).

End constraints.

(** * What validated settings guarantee (network-proxy/src/state.rs, config.rs)

    The checks of a validation one by one, the settings that keep them, and what
    they mean for the compiled sets of hosts and for the listeners. *)

(** ** Permissions of a pattern *)

Lemma strictest_snoc p l e : strictest p (l ++ [e])
  = if bool_decide (entry_pattern e = p)
    then Some (match strictest p l with
               | Some q => if permission_rank q <? permission_rank (entry_permission e)
                           then entry_permission e else q
               | None => entry_permission e end)
    else strictest p l.
Proof. unfold strictest. by rewrite fold_left_app. Qed.

Lemma strictest_rank p l :
  match strictest p l with
  | Some q => In (mkPermission p q) l
              /\ forall q', In (mkPermission p q') l -> permission_rank q' <= permission_rank q
  | None => forall q, ~ In (mkPermission p q) l
  end.
Proof.
  induction l as [|[r x] l IH] using rev_ind; [cbn; intros q []|]. rewrite strictest_snoc. cbn [entry_pattern entry_permission].
  case_bool_decide as E.
  - subst r. destruct (strictest p l) as [q|].
    + destruct IH as [Hin Hmax]. destruct (permission_rank q <? permission_rank x) eqn:Er.
      * apply Nat.ltb_lt in Er. split; [apply in_app_iff; right; by left|].
        intros q' [Hq|[[= ->]|[]]]%in_app_iff; [apply Hmax in Hq; lia|lia].
      * apply Nat.ltb_ge in Er. split; [apply in_app_iff; by left|].
        intros q' [Hq|[[= ->]|[]]]%in_app_iff; [by apply Hmax|lia].
    + split; [apply in_app_iff; right; by left|]. intros q' [Hq|[[= ->]|[]]]%in_app_iff; [by apply IH in Hq|done].
  - destruct (strictest p l) as [q|].
    + destruct IH as [Hin Hmax]. split; [apply in_app_iff; by left|].
      intros q' [Hq|[[= -> ->]|[]]]%in_app_iff; [by apply Hmax|done].
    + intros q [Hq|[[= -> ->]|[]]]%in_app_iff; [by apply (IH q)|done].
Qed.

Lemma strictest_deny p l : strictest p l = Some PermissionDeny <-> In (mkPermission p PermissionDeny) l.
Proof.
  pose proof (strictest_rank p l) as H. split; [intros E; rewrite E in H; apply H|]. intros Hin.
  destruct (strictest p l) as [q|]; [|by apply H in Hin]. apply H in Hin. by destruct q; cbn in Hin; try lia.
Qed.

Lemma strictest_is_allow p l : strictest p l = Some PermissionAllow ->
  In (mkPermission p PermissionAllow) l /\ ~ In (mkPermission p PermissionDeny) l.
Proof.
  pose proof (strictest_rank p l) as H. intros E. rewrite E in H. destruct H as [Hin Hmax].
  split; [done|]. intros Hd. apply Hmax in Hd. cbn in Hd. lia.
Qed.

Section props.
Context {Json Credentials Value Mitm : Type} `{HostCrates} `{HttpCrates Value}.
Context (home_directory : option str) (current_dir : result str io_error).
Abbreviation Config := (NetworkProxyConfig Json Credentials).
Implicit Types c : Config.

Lemma domain_entries_In permission c p :
  In p (default [] (domain_entries permission c)) <-> strictest p (default [] (domains c)) = Some permission.
Proof.
  unfold domain_entries. destruct (domains c) as [l|]; [|by split].
  pose proof (proj2 (effective_entries_spec l) p permission) as Hs. cbn [default]. rewrite <- Hs.
  assert (Hin : In p (map entry_pattern (List.filter (fun e => bool_decide (entry_permission e = permission))
                        (effective_entries l))) <-> In (mkPermission p permission) (effective_entries l)).
  { rewrite in_map_iff. split.
    - intros ([r x] & <- & [Hr Hx%bool_decide_eq_true]%filter_In). cbn in *. by subst x.
    - intros Hp. exists (mkPermission p permission). split; [done|]. apply filter_In. split; [done|].
      by apply bool_decide_eq_true. }
  rewrite <- Hin. by destruct (map _ _).
Qed.

Lemma denied_In c p :
  In p (default [] (denied_domains c)) <-> In (mkPermission p PermissionDeny) (default [] (domains c)).
Proof. unfold denied_domains. rewrite domain_entries_In. apply strictest_deny. Qed.

Lemma lower_set_elem x l : x ∈ lower_set l <-> exists y, In y l /\ x = to_ascii_lowercase y.
Proof.
  unfold lower_set. rewrite elem_of_list_to_set, list_elem_of_In, in_map_iff. split.
  - intros (y & <- & Hy). by exists y.
  - intros (y & Hy & ->). by exists y.
Qed.

Lemma lower_set_same l k : (forall p, In p l <-> In p k) -> lower_set l = lower_set k.
Proof. intros Hlk. apply set_eq. intros x. rewrite !lower_set_elem. by setoid_rewrite Hlk. Qed.

(** ** The checks of a validation *)

Definition mode_within c (k : NetworkProxyConstraints) : bool :=
  match max_mode k with Some max => (network_mode_rank (mode c) <=? network_mode_rank max)%N | None => true end.

Definition sockets_within c (k : NetworkProxyConstraints) : bool :=
  negb (default false (dangerously_allow_all_unix_sockets c)
        && negb (default (is_none (managed_unix_sockets k)) (max_all_unix_sockets k))).

Definition hooks_valid c : Prop :=
  validate_mitm_hook_config (Value := Value) home_directory current_dir c = Ok ().

Record within c (k : NetworkProxyConstraints) : Prop := mkWithin {
  w_hooks : hooks_valid c;
  w_denied_scoped : existsb is_global_wildcard_domain_pattern (default [] (denied_domains c)) = false;
  w_enabled : not_forbidden (enabled c) (max_enabled k) = true;
  w_mode : mode_within c k = true;
  w_upstream : not_forbidden (allow_upstream_proxy c) (max_allow_upstream_proxy k) = true;
  w_non_loopback : not_forbidden (dangerously_allow_non_loopback_proxy c) (max_non_loopback_proxy k) = true;
  w_all_sockets : sockets_within c k = true;
  w_local : not_forbidden (allow_local_binding c) (max_allow_local_binding k) = true;
  w_allowed : validate_allowed_domains c k (lower_set (default [] (denied_domains c))) = Ok ();
  w_denied : validate_denied_domains c k = Ok ();
  w_sockets : validate_unix_sockets c k = Ok ();
}.

Lemma unit_ok {E} (r : result unit E) x : r = Ok x -> r = Ok ().
Proof. by destruct x. Qed.

Lemma validate_within c k :
  validate_policy_against_constraints (Value := Value) home_directory current_dir c k = Ok () <-> within c k.
Proof.
  unfold validate_policy_against_constraints, require, validate_non_global_wildcard_domain_patterns.
  fold (mode_within c k). fold (sockets_within c k). cbv zeta. split.
  - intros Hv.
    destruct (validate_mitm_hook_config _ _ c) as [[]|] eqn:E0; [cbn [map_err] in Hv|done].
    destruct (existsb _ _) eqn:E1; [done|]. destruct (not_forbidden (enabled c) _) eqn:E2; [|done].
    destruct (mode_within c k) eqn:E3; [|done]. destruct (not_forbidden (allow_upstream_proxy c) _) eqn:E4; [|done].
    destruct (not_forbidden (dangerously_allow_non_loopback_proxy c) _) eqn:E5; [|done].
    destruct (sockets_within c k) eqn:E6; [|done]. destruct (not_forbidden (allow_local_binding c) _) eqn:E7; [|done].
    destruct (validate_allowed_domains c k _) as [[]|] eqn:E8; [|done].
    destruct (validate_denied_domains c k) as [[]|] eqn:E9; [|done]. by constructor.
  - intros [Hh Hs He Hm Hu Hn Ha Hl Hal Hd Hsk]. unfold hooks_valid in Hh.
    by rewrite Hh, Hs, He, Hm, Hu, Hn, Ha, Hl, Hal, Hd.
Qed.

(** Only the check of the mode looks at the mode. *)
Lemma within_mode c c' m k : within c k -> within (set_mode m c') k -> within (set_mode m c) k.
Proof.
  intros [Hh Hs He Hm Hu Hn Ha Hl Hal Hd Hsk] Hw. constructor; try done. exact (w_mode _ _ Hw).
Qed.

(** What the broker adds stays within the constraints. *)
Lemma set_allowed_denied c l p :
  In p (default [] (denied_domains (set_allowed_domains l c))) <-> In p (default [] (denied_domains c)).
Proof.
  rewrite !denied_In. unfold set_allowed_domains, set_domain_entries. cbn [domains set_domains].
  assert (Hd : forall d, default [] (some_domains d) = d) by by intros [].
  rewrite Hd. set (kept := List.filter _ _).
  assert (Hpush : forall l d, In (mkPermission p PermissionDeny) (foldl (push_domain PermissionAllow) d l)
                    <-> In (mkPermission p PermissionDeny) d).
  { clear. induction l as [|x l IH]; intros d; [done|]. cbn [foldl]. rewrite IH. unfold push_domain. case_if; [done|].
    rewrite in_app_iff. split; [intros [?|[?|[]]]; done|by left]. }
  rewrite Hpush. unfold kept. rewrite filter_In. split; [by intros [? _]|]. intros Hin. split; [done|].
  cbn. by rewrite bool_decide_false.
Qed.

Lemma existsb_same {A} (f : A -> bool) l k : (forall x, In x l <-> In x k) -> existsb f l = existsb f k.
Proof.
  intros Hlk. apply eq_true_iff_eq. rewrite !existsb_exists. by setoid_rewrite Hlk.
Qed.

Lemma brokered_within c k : within c k -> within (brokered_config c k).1 k.
Proof.
  intros [Hh Hs He Hm Hu Hn Ha Hl Hal Hd Hsk]. unfold brokered_config.
  set (c1 := if bool_decide (max_enabled k = Some false) then _ else c).
  assert (H1 : within c1 k /\ (max_enabled k = Some false -> credential_broker c1 = false)).
  { unfold c1. case_bool_decide; (split; [by constructor|done]). }
  destruct H1 as [H1 Hb]. clearbody c1. clear c Hh Hs He Hm Hu Hn Ha Hl Hal Hd Hsk. cbv zeta.
  destruct (credential_broker c1 && negb (enabled c1)) eqn:Eb; cbn [andb fst]; [|done].
  assert (H2 : within (set_enabled true c1) k).
  { destruct H1 as [Hh Hs He Hm Hu Hn Ha Hl Hal Hd Hsk]. constructor; try done.
    cbn. unfold not_forbidden. destruct (max_enabled k) as [[]|]; try done.
    rewrite Hb in Eb by done. done. }
  destruct (is_none (allowed_domains c1) && is_none (managed_allowed_domains k)) eqn:Ed; cbn [fst]; [|done].
  apply andb_prop in Ed as [_ Ed]. destruct (managed_allowed_domains k) eqn:Em; [done|].
  destruct H2 as [Hh Hs He Hm Hu Hn Ha Hl Hal Hd Hsk]. constructor; try done.
  - rewrite <- Hs. apply existsb_same. intros p. apply set_allowed_denied.
  - unfold validate_allowed_domains. by rewrite Em.
  - rewrite <- Hd. unfold validate_denied_domains.
    by rewrite (lower_set_same _ (default [] (denied_domains (set_enabled true c1)))) by (intros p; apply set_allowed_denied).
Qed.

(** ** The state that is built *)

Context (mitm_state_new : bool -> result Mitm str).
Context (env_var : str -> option str) (read_to_string : str -> option str).
Abbreviation State := (@ConfigState Json Credentials Value Mitm).

(** The sets and hooks of a state are those of its configuration. *)
Definition compiled (s : State) : Prop :=
  compile_denylist_globset (default [] (denied_domains (config s))) = Ok (deny_set s)
  /\ compile_allowlist_globset (default [] (allowed_domains (config s))) = Ok (allow_set s)
  /\ compile_mitm_hooks home_directory current_dir env_var read_to_string (config s) = Ok (state_hooks s).

Lemma map_err_Ok {A E F} (f : E -> F) (r : result A E) x : map_err f r = Ok x -> r = Ok x.
Proof. by destruct r; [intros [= ->]|]. Qed.

Lemma build_facts c k s :
  build_config_state home_directory current_dir mitm_state_new env_var read_to_string c k = Ok s ->
  config s = (brokered_config c k).1 /\ constraints s = k /\ compiled s /\ blocked s = [] /\ blocked_total s = 0%N
  /\ validate_unix_socket_allowlist_paths home_directory current_dir (config s) = Ok ()
  /\ (credential_broker (config s) = true -> mitm (config s) = true).
Proof.
  unfold build_config_state. destruct (brokered_config c k) as [c' default_allowlist].
  destruct (validate_unix_socket_allowlist_paths _ _ c') as [[]|] eqn:Ev; [cbn [map_err]|done].
  destruct (credential_broker c' && negb (mitm c')) eqn:Eb; [done|]. cbv zeta.
  destruct (map_err _ (validate_non_global_wildcard_domain_patterns _ _)); [|done].
  destruct (map_err BadGlobset (compile_denylist_globset _)) eqn:Ed; [|done].
  destruct (map_err BadGlobset (compile_allowlist_globset _)) eqn:Ea; [|done].
  destruct (map_err BadHooks _) eqn:Eh; [|done]. apply map_err_Ok in Ed, Ea, Eh.
  destruct (if mitm c' then _ else _); [|done]. intros [= <-]. cbn. repeat split; try done.
  intros E. rewrite E in Eb. by destruct (mitm c').
Qed.

(** What a managed denial matches, the compiled set matches. *)
Lemma denied_set_covers s managed m h :
  within (config s) (constraints s) -> compiled s ->
  managed_denied_domains (constraints s) = Some managed -> In m managed ->
  pattern_matches m h = true -> globset_is_match (deny_set s) h = true.
Proof.
  intros Hw (Hd & _ & _) Em Hm Hh. rewrite (compile_match _ _ _ h Hd).
  pose proof (w_denied _ _ Hw) as Hv. unfold validate_denied_domains in Hv. rewrite Em in Hv.
  destruct (validate_non_global_wildcard_domain_patterns _ managed); [|done].
  assert (Hin : to_ascii_lowercase m ∈ lower_set (default [] (denied_domains (config s)))).
  { unfold require in Hv. destruct (denylist_expansion_enabled (constraints s)) as [[]|];
      case_match eqn:Ev; try done.
    - rewrite forallb_forall in Ev. by apply (bool_decide_eq_true_1 _ (Ev _ (in_map _ _ _ Hm))).
    - apply bool_decide_eq_true in Ev. rewrite Ev. apply lower_set_elem. by exists m.
    - rewrite forallb_forall in Ev. by apply (bool_decide_eq_true_1 _ (Ev _ (in_map _ _ _ Hm))). }
  apply lower_set_elem in Hin as (y & Hy & El). apply existsb_exists. exists y. split; [done|].
  by rewrite <- pattern_matches_lower, <- El, pattern_matches_lower.
Qed.

(** Whether a managed allowlist bounds the hosts: it must match, or bound entries
    in plain letters. *)
Definition bounded_by (managed : list str) (k : NetworkProxyConstraints) (entries : list str) : Prop :=
  match allowlist_expansion_enabled k with
  | Some true => False
  | Some false => True
  | None => forallb plain_entry managed = true /\ forallb plain_entry entries = true
  end.

Lemma allowed_set_covered `{!HostLaws} s managed h :
  within (config s) (constraints s) -> compiled s ->
  managed_allowed_domains (constraints s) = Some managed ->
  bounded_by managed (constraints s) (default [] (allowed_domains (config s))) -> ascii h ->
  globset_is_match (allow_set s) h = true -> exists m, In m managed /\ pattern_matches m h = true.
Proof.
  intros Hw (_ & Ha & _) Em Hb Hh. rewrite (compile_match _ _ _ h Ha), existsb_exists. intros (e & He & Hmatch).
  pose proof (w_allowed _ _ Hw) as Hv. unfold validate_allowed_domains in Hv. rewrite Em in Hv.
  destruct (validate_non_global_wildcard_domain_patterns _ managed); [|done].
  unfold bounded_by, require in *. destruct (allowlist_expansion_enabled (constraints s)) as [[]|]; [done| |].
  - destruct (bool_decide _) eqn:Ev; [|done]. apply bool_decide_eq_true in Ev.
    assert (Hin : to_ascii_lowercase e ∈ lower_set managed).
    { assert (Hc : to_ascii_lowercase e ∈ lower_set (default [] (allowed_domains (config s))))
        by (apply lower_set_elem; by exists e).
      rewrite Ev in Hc. by apply elem_of_difference in Hc as [? _]. }
    apply lower_set_elem in Hin as (m & Hm & El). exists m. split; [done|].
    by rewrite <- pattern_matches_lower, <- El, pattern_matches_lower.
  - destruct (forallb _ (default [] (allowed_domains (config s)))) eqn:Ev in Hv; [|done].
    rewrite forallb_forall in Ev. specialize (Ev e He). apply existsb_exists in Ev as (m & Hm & Hal).
    destruct Hb as [Hpm Hpe]. rewrite forallb_forall in Hpm, Hpe. exists m. split; [done|].
    apply (allowed_inside m e); auto.
Qed.

(** ** Listeners *)

Definition exposed c : Prop :=
  dangerously_allow_non_loopback_proxy c = true /\ allow_unix_sockets c = []
  /\ dangerously_allow_all_unix_sockets c <> Some true.

Lemma clamp_local addr allow :
  is_loopback (addr_ip (clamp_non_loopback addr allow)) = true \/ allow = true.
Proof. unfold clamp_non_loopback. destruct (is_loopback (addr_ip addr)) eqn:E; [by left|]. destruct allow; auto. Qed.

Lemma clamp_bind_local a b c :
  let '(http, socks) := clamp_bind_addrs a b c in
  (is_loopback (addr_ip http) = true /\ is_loopback (addr_ip socks) = true \/ exposed c)
  /\ addr_port http = addr_port a /\ addr_port socks = addr_port b.
Proof.
  unfold clamp_bind_addrs. cbv zeta.
  assert (Hp : forall x allow, addr_port (clamp_non_loopback x allow) = addr_port x)
    by (intros x allow; unfold clamp_non_loopback; by repeat case_if).
  destruct (is_empty (allow_unix_sockets c) && _) eqn:E; cbn [addr_port loopback_addr]; rewrite ?Hp; [|by auto].
  apply andb_prop in E as [Ee%is_empty_true Ed]. split; [|done].
  destruct (dangerously_allow_non_loopback_proxy c) eqn:En.
  - right. repeat split; try done. intros E'. by rewrite E' in Ed.
  - left. split; [destruct (clamp_local a false)|destruct (clamp_local b false)]; done.
Qed.

Lemma validated_paths_absolute paths : forall i,
  validate_socket_paths home_directory current_dir i paths = Ok () ->
  Forall (fun p => AbsolutePath.is_absolute p = true) paths.
Proof.
  induction paths as [|p paths IH]; intros i; [by constructor|]. cbn.
  destruct (validated_socket_path _ _ p) as [v|] eqn:E; [|done]. intros Hv. constructor; [|by eapply IH].
  unfold validated_socket_path in E. destruct (AbsolutePath.is_absolute p) eqn:Ea; [done|].
  destruct (starts_with p [47%N]) eqn:Es; [|done]. exact (eq_trans (eq_sym Ea) Es).
Qed.

(** The proxy listens on loopback, with both listeners, unless the
    configuration asks for other addresses and opens no unix socket; then no
    constraint forbids it.  Sockets are opened by absolute path only, and within
    the managed list where there is one. *)
Theorem listeners_stay_local url_parse c k rt :
  validate_policy_against_constraints (Value := Value) home_directory current_dir c k = Ok () ->
  resolve_runtime home_directory current_dir url_parse c = Ok rt ->
  (is_loopback (addr_ip (http_addr rt)) = true /\ is_loopback (addr_ip (socks_addr rt)) = true
   \/ exposed c /\ max_non_loopback_proxy k <> Some false)
  /\ Forall (fun p => AbsolutePath.is_absolute p = true) (allow_unix_sockets c)
  /\ (forall managed, managed_unix_sockets k = Some managed ->
        Forall (fun p => to_ascii_lowercase p ∈ lower_set managed) (allow_unix_sockets c)
        /\ (max_all_unix_sockets k <> Some true -> dangerously_allow_all_unix_sockets c <> Some true)).
Proof.
  intros Hw%validate_within. unfold resolve_runtime.
  destruct (validate_unix_socket_allowlist_paths _ _ c) as [[]|] eqn:Ep; [|done].
  destruct (map_err _ (resolve_addr _ _ _)) as [a|]; [|done].
  destruct (map_err _ (resolve_addr _ _ _)) as [b|]; [|done].
  pose proof (clamp_bind_local a b c) as Hc. destruct (clamp_bind_addrs a b c) as [http socks].
  destruct Hc as [Hc _]. intros [= <-]. cbn [http_addr socks_addr]. split; [|split].
  - destruct Hc as [Hc|Hc]; [by left|right]. split; [done|]. intros E.
    pose proof (w_non_loopback _ _ Hw) as Hn. rewrite E, (proj1 Hc) in Hn. done.
  - by eapply validated_paths_absolute.
  - intros managed Em. pose proof (w_sockets _ _ Hw) as Hs. unfold validate_unix_sockets, require in Hs. rewrite Em in Hs.
    split.
    + destruct (forallb _ _) eqn:E; [|done]. rewrite forallb_forall in E. apply List.Forall_forall. intros p Hp.
      by apply (bool_decide_eq_true_1 _ (E p Hp)).
    + intros Hn E. pose proof (w_all_sockets _ _ Hw) as Ha. unfold sockets_within in Ha. rewrite Em, E in Ha. cbn in Ha.
      by destruct (max_all_unix_sockets k) as [[]|].
Qed.

End props.
