(* ===== verification/NetworkProxy.v ===== *)
(** * The running proxy (network-proxy/src/runtime.rs, network_policy.rs,
    connect_policy.rs, upstream.rs)

    The decision about a host, the decision about a request with the decider
    that may be asked, the check of the address a connection really reaches, and
    the state that several tasks read and write: the configuration, replaced by
    reloads and edited by optimistic updates, and the blocked requests.

    An update reads the state, validates and builds the next one, and writes it
    if what it read still holds; these are separate steps, so that other tasks
    may run in between.  DNS is an argument: [None] is a failed or late lookup. *)

From S2P Require Import Prelude RustStr PatchTypes AbsolutePath IpAddr NetworkDecision NetworkHost NetworkConfig MitmHook NetworkConstraints.

Definition MAX_BLOCKED_EVENTS : nat := 200.

Inductive HostBlockReason : Type := Denied | NotAllowed | NotAllowedLocal.
Inductive HostBlockDecision : Type := Allowed | Blocked (reason : HostBlockReason).

#[export] Instance HostBlockReason_eq_dec : EqDecision HostBlockReason.
Proof. solve_decision. Defined.
#[export] Instance HostBlockDecision_eq_dec : EqDecision HostBlockDecision.
Proof. solve_decision. Defined.

Definition reason_text (r : HostBlockReason) : str :=
  match r with
  | Denied => REASON_DENIED
  | NotAllowed => REASON_NOT_ALLOWED
  | NotAllowedLocal => REASON_NOT_ALLOWED_LOCAL
  end.

(** ** Decisions on requests (network_policy.rs) *)

Record NetworkPolicyRequest : Type := mkPolicyRequest {
  policy_protocol : NetworkProtocol;
  policy_host : str;
  policy_port : N;
  policy_environment_id : option str;
  policy_client_addr : option str;
  policy_method : option str;
  policy_command : option str;
  policy_exec_hint : option str;
  policy_execution_id : option str;
}.

(** ** The host *)

Definition globset_matches_host_or_unscoped `{HostCrates} (set : GlobSet) (host : str) : bool :=
  globset_is_match set host
  || match unscoped_ip_literal host with Some ip => globset_is_match set ip | None => false end.

Definition is_explicit_local_allowlisted (allowed_domains : list str) (host : str) : bool :=
  let unscoped_host := unscoped_ip_literal host in
  existsb (fun pattern =>
    let pattern := trim pattern in
    if bool_decide (pattern = [STAR]) || starts_with pattern SUB || starts_with pattern DEEP then false
    else if contains_char STAR pattern || contains_char QUESTION pattern then false
    else
      let normalized_pattern := normalize_host pattern in
      bool_decide (normalized_pattern = host)
      || bool_decide (unscoped_host = Some normalized_pattern)) allowed_domains.

Definition is_local_literal (host : str) : bool :=
  if is_loopback_host host then true
  else match parse_ip (default host (unscoped_ip_literal host)) with
       | Some ip => is_non_public_ip ip
       | None => false
       end.

Inductive DomainListKind : Type := AllowList | DenyList.

Definition list_permission (k : DomainListKind) : NetworkDomainPermission :=
  match k with AllowList => PermissionAllow | DenyList => PermissionDeny end.

Section proxy.
Context {Json Credentials Value Mitm : Type} `{EqDecision Json, EqDecision Credentials}.
Context `{HostCrates} `{HttpCrates Value}.
Context (home_directory : option str) (current_dir : result str io_error).
Context (mitm_state_new : bool -> result Mitm str).
Context (env_var : str -> option str) (read_to_string : str -> option str).
Context (lookup_host : str -> N -> option (list IpAddr)).
Abbreviation Config := (NetworkProxyConfig Json Credentials).
Abbreviation State := (@ConfigState Json Credentials Value Mitm).
Abbreviation build_state := (@build_config_state Json Credentials Value Mitm _ _ home_directory current_dir
                         mitm_state_new env_var read_to_string).
Abbreviation validate := (@validate_policy_against_constraints Json Credentials Value _ _
                            home_directory current_dir).

Definition host_resolves_to_non_public_ip (host : str) (port : N) : bool :=
  match parse_ip host with
  | Some ip => is_non_public_ip ip
  | None => match lookup_host host port with
            | None => true
            | Some addrs => existsb is_non_public_ip addrs
            end
  end.

Definition host_blocked (s : State) (host : str) (port : N) : HostBlockDecision :=
  match Host_parse host with
  | None => Blocked NotAllowed
  | Some host =>
      let allowed := allowed_domains (config s) in
      if globset_matches_host_or_unscoped (deny_set s) host then Blocked Denied
      else
        let is_allowlisted := globset_matches_host_or_unscoped (allow_set s) host in
        let local_block :=
          if allow_local_binding (config s) then false
          else if is_local_literal host
          then negb (is_explicit_local_allowlisted (default [] allowed) host)
          else host_resolves_to_non_public_ip host port in
        if local_block then Blocked NotAllowedLocal
        else if is_none allowed || negb is_allowlisted then Blocked NotAllowed
        else Allowed
  end.

(** [decider]: what is asked about a host that is not on the list, if anything. *)
Definition evaluate_host_policy (s : State) (decider : option (NetworkPolicyRequest -> NetworkDecision))
    (environment_id execution_id : option str) (request : NetworkPolicyRequest)
  : NetworkDecision * AuditEvent :=
  let '(decision, policy_override) :=
    match host_blocked s (policy_host request) (policy_port request) with
    | Allowed => (AllowRequest, false)
    | Blocked NotAllowed =>
        match decider with
        | Some decide =>
            let request := mkPolicyRequest (policy_protocol request) (policy_host request) (policy_port request)
              (match policy_environment_id request with Some e => Some e | None => environment_id end)
              (policy_client_addr request) (policy_method request) (policy_command request)
              (policy_exec_hint request) execution_id in
            let d := map_decider_decision (decide request) in
            (d, match d with AllowRequest => true | _ => false end)
        | None => (deny_with_source (reason_text NotAllowed) BaselinePolicy, false)
        end
    | Blocked reason => (deny_with_source (reason_text reason) BaselinePolicy, false)
    end in
  let '(decided, source, reason) :=
    match decision with
    | AllowRequest =>
        ($"allow", if policy_override then Decider else BaselinePolicy,
         if policy_override then reason_text NotAllowed else $"allow")
    | DenyRequest reason source d => (policy_decision_text d, source, reason)
    end in
  (decision, mkAudit ($"domain") decided source reason (policy_protocol request) (policy_host request)
               (policy_port request) (policy_method request) (policy_client_addr request) policy_override).

(** ** The address reached (connect_policy.rs) *)

Inductive TargetHost : Type := Address (ip : IpAddr) | Name (name : str).

#[export] Instance TargetHost_eq_dec : EqDecision TargetHost.
Proof. solve_decision. Defined.

Definition is_localhost_name (name : str) : bool :=
  eq_ignore_ascii_case (trim_end_matches DOT name) ($"localhost").

Definition target_matches_non_public_addr (host : TargetHost) (addr : IpAddr) : bool :=
  match host with
  | Address ip => bool_decide (ip = addr)
  | Name name => is_localhost_name name && is_loopback addr
  end.

Definition is_non_public_target (host : TargetHost) : bool :=
  match host with Address ip => is_non_public_ip ip | Name name => is_localhost_name name end.

(** [host_text]: how the target's host is written.  Both looks at the state may
    fail, and the state may change between them. *)
Definition allows_non_public_target (host_text : TargetHost -> str) (view : nat -> option State) (host : TargetHost)
    (port : N) (addr : IpAddr) : bool :=
  match view 0 with
  | None => false
  | Some s =>
      if allow_local_binding (config s) then true
      else if negb (target_matches_non_public_addr host addr) then false
      else match view 1 with
           | Some s => bool_decide (host_blocked s (host_text host) port = Allowed)
           | None => false
           end
  end.

(** The proxies the environment names (upstream.rs).  [parse_proxy]:
    [ProxyAddress::try_from], and whether the protocol is HTTP or missing. *)
Section upstream.
Context {ProxyAddress : Type} (parse_proxy : str -> option (ProxyAddress * bool)).

Record ProxyConfig : Type := mkProxyConfig {
  proxy_http : option ProxyAddress;
  proxy_https : option ProxyAddress;
  proxy_all : option ProxyAddress;
}.

Fixpoint read_proxy_env (keys : list str) : option ProxyAddress :=
  match keys with
  | [] => None
  | key :: keys =>
      match env_var key with
      | None => read_proxy_env keys
      | Some value =>
          if is_empty (trim value) then read_proxy_env keys
          else match parse_proxy (trim value) with
               | Some (proxy, true) => Some proxy
               | _ => read_proxy_env keys
               end
      end
  end.

Definition from_env : ProxyConfig :=
  mkProxyConfig (read_proxy_env [$"HTTP_PROXY"; $"http_proxy"]) (read_proxy_env [$"HTTPS_PROXY"; $"https_proxy"])
    (read_proxy_env [$"ALL_PROXY"; $"all_proxy"]).

(** [UpstreamClient::direct]. *)
Definition no_proxies : ProxyConfig := mkProxyConfig None None None.

Definition or_else {A} (a b : option A) : option A := match a with Some _ => a | None => b end.

Definition proxy_for_protocol (c : ProxyConfig) (is_secure : bool) : option ProxyAddress :=
  if is_secure then or_else (or_else (proxy_https c) (proxy_http c)) (proxy_all c)
  else or_else (proxy_http c) (proxy_all c).

Definition proxy_for_target (c : ProxyConfig) (host : TargetHost) (is_secure : bool) : option ProxyAddress :=
  if is_non_public_target host then None else proxy_for_protocol c is_secure.

(** [false]: refused before the connection is made.  A proxy is connected to
    unchecked; it is up to it where the connection goes on. *)
Definition may_connect (proxy : option ProxyAddress) (host_text : TargetHost -> str) (view : nat -> option State)
    (host : TargetHost) (port : N) (addr : IpAddr) : bool :=
  match proxy with
  | Some _ => true
  | None => negb (is_non_public_ip addr && negb (allows_non_public_target host_text view host port addr))
  end.

End upstream.

(** ** The shared state *)

Definition with_blocked (l : list BlockedRequest) (total : N) (s : State) : State :=
  mkState (config s) (brokerage_created_default_allowlist s) (allow_set s) (deny_set s) (state_mitm s)
    (state_hooks s) (constraints s) l total.

Definition with_config_mode (m : NetworkMode) (s : State) : State :=
  mkState (set_mode m (config s)) (brokerage_created_default_allowlist s) (allow_set s) (deny_set s)
    (state_mitm s) (state_hooks s) (constraints s) (blocked s) (blocked_total s).

Definition with_execution_id (id : option str) (e : BlockedRequest) : BlockedRequest :=
  mkBlocked (blocked_host e) (blocked_reason e) (blocked_client e) (blocked_method e) (blocked_mode e)
    (blocked_protocol e) id (blocked_decision e) (blocked_source e) (blocked_port e) (blocked_timestamp e).

(** The newest entries are kept: [pop_front] while there are too many. *)
Definition keep_newest (l : list BlockedRequest) : list BlockedRequest :=
  drop (length l - MAX_BLOCKED_EVENTS) l.

Definition record_blocked (execution_id : option str) (entry : BlockedRequest) (s : State) : State :=
  with_blocked (keep_newest (blocked s ++ [with_execution_id execution_id entry]))
    (N.min u64_max (blocked_total s + 1)) s.

Definition drain_blocked (s : State) : list BlockedRequest * State :=
  (blocked s, with_blocked [] (blocked_total s) s).

(** [reload_if_needed] and [replace_config_state]: blocked requests are carried over. *)
Definition reloaded (new_state s : State) : State := with_blocked (blocked s) (blocked_total s) new_state.

(** [force_reload] carries over the requests, not their number. *)
Definition force_reloaded (new_state s : State) : State := with_blocked (blocked s) (blocked_total new_state) new_state.

Definition method_allowed (s : State) (method : str) : bool := allows_method (mode (config s)) method.

Inductive UpdateError : Type :=
| InvalidNetworkHost
| Constrained (e : NetworkProxyConstraintError)
| NotCompiled (e : BuildError).

Record Snapshot : Type := mkSnapshot {
  previous_cfg : Config;
  seen_constraints : NetworkProxyConstraints;
  seen_blocked : list BlockedRequest;
  seen_total : N;
}.

Definition take_snapshot (s : State) : Snapshot :=
  mkSnapshot (config s) (constraints s) (blocked s) (blocked_total s).

Definition list_entries (k : DomainListKind) (c : Config) : list str :=
  default [] (match k with AllowList => allowed_domains c | DenyList => denied_domains c end).

Definition opposite (k : DomainListKind) : DomainListKind :=
  match k with AllowList => DenyList | DenyList => AllowList end.

Definition contains_host (entries : list str) (host : str) : bool :=
  existsb (fun entry => bool_decide (normalize_host entry = host)) entries.

Definition already_listed (k : DomainListKind) (host : str) (c : Config) : bool :=
  contains_host (list_entries k c) host && negb (contains_host (list_entries (opposite k) c) host).

(** What an update computes from its snapshot: [None] when there is nothing to do. *)
Definition prepare_update (k : DomainListKind) (host : str) (snap : Snapshot)
  : result (option State) UpdateError :=
  if already_listed k host (previous_cfg snap) then Ok None
  else
    let candidate := upsert_domain_permission host (list_permission k) normalize_host (previous_cfg snap) in
    let? _ := map_err Constrained (validate candidate (seen_constraints snap)) in
    let? new_state := map_err NotCompiled (build_state candidate (seen_constraints snap)) in
    Ok (Some (with_blocked (seen_blocked snap) (seen_total snap) new_state)).

Definition still_current (snap : Snapshot) (s : State) : bool :=
  bool_decide (constraints s = seen_constraints snap) && bool_decide (config s = previous_cfg snap).

Inductive task : Type :=
| Updating (k : DomainListKind) (host : str) (snap : option Snapshot)
| SettingMode (m : NetworkMode) (snap : option Snapshot)
| Finished (r : result unit UpdateError).

Record world : Type := mkWorld { shared : State; tasks : gmap nat task }.

Inductive event : Type :=
| StartUpdate (t : nat) (k : DomainListKind) (host : str)
| StartMode (t : nat) (m : NetworkMode)
| Read (t : nat)
| Write (t : nat)
| RecordBlocked (execution_id : option str) (entry : BlockedRequest)
| DrainBlocked
| Replace (config : Config) (constraints : NetworkProxyConstraints)
| ForceReload (config : Config) (constraints : NetworkProxyConstraints).

Definition set_shared (s : State) (w : world) : world := mkWorld s (tasks w).
Definition set_task (t : nat) (x : task) (w : world) : world := mkWorld (shared w) (<[t := x]> (tasks w)).

(** The read half of a turn. *)
Definition read_step (t : nat) (w : world) : option world :=
  match tasks w !! t with
  | Some (Updating k host None) =>
      let snap := take_snapshot (shared w) in
      if already_listed k host (previous_cfg snap)
      then Some (set_task t (Finished (Ok ())) w)
      else Some (set_task t (Updating k host (Some snap)) w)
  | Some (SettingMode m None) =>
      Some (set_task t (SettingMode m (Some (take_snapshot (shared w)))) w)
  | _ => None
  end.

(** Validation and the write half; the turn starts again when what it read is no
    longer current.  Setting the mode only asks whether the constraints are the
    same, and keeps the rest of the configuration it finds. *)
Definition write_step (t : nat) (w : world) : option world :=
  match tasks w !! t with
  | Some (Updating k host (Some snap)) =>
      match prepare_update k host snap with
      | Err e => Some (set_task t (Finished (Err e)) w)
      | Ok None => Some (set_task t (Finished (Ok ())) w)
      | Ok (Some new_state) =>
          if still_current snap (shared w)
          then Some (set_shared new_state (set_task t (Finished (Ok ())) w))
          else Some (set_task t (Updating k host None) w)
      end
  | Some (SettingMode m (Some snap)) =>
      match validate (set_mode m (previous_cfg snap)) (seen_constraints snap) with
      | Err e => Some (set_task t (Finished (Err (Constrained e))) w)
      | Ok _ =>
          if bool_decide (constraints (shared w) = seen_constraints snap)
          then Some (set_shared (with_config_mode m (shared w)) (set_task t (Finished (Ok ())) w))
          else Some (set_task t (SettingMode m None) w)
      end
  | _ => None
  end.

Definition step (e : event) (w : world) : option world :=
  match e with
  | StartUpdate t k host =>
      if is_some (tasks w !! t) then None
      else Some (set_task t (match Host_parse host with
                             | Some host => Updating k host None
                             | None => Finished (Err InvalidNetworkHost)
                             end) w)
  | StartMode t m =>
      if is_some (tasks w !! t) then None else Some (set_task t (SettingMode m None) w)
  | Read t => read_step t w
  | Write t => write_step t w
  | RecordBlocked execution_id entry => Some (set_shared (record_blocked execution_id entry (shared w)) w)
  | DrainBlocked => Some (set_shared (drain_blocked (shared w)).2 w)
  | Replace config constraints =>
      match build_state config constraints with
      | Ok new_state => Some (set_shared (reloaded new_state (shared w)) w)
      | Err _ => None
      end
  | ForceReload config constraints =>
      match build_state config constraints with
      | Ok new_state => Some (set_shared (force_reloaded new_state (shared w)) w)
      | Err _ => None
      end
  end.

(** The configurations the program hands over were validated
    (core/src/config/network_proxy_spec.rs). *)
Definition trusted (e : event) : Prop :=
  match e with
  | Replace config constraints | ForceReload config constraints => validate config constraints = Ok ()
  | _ => True
  end.

Inductive reached : world -> Prop :=
| reached_start config constraints s :
    validate config constraints = Ok () -> build_state config constraints = Ok s ->
    reached (mkWorld s ∅)
| reached_step w e w' : reached w -> trusted e -> step e w = Some w' -> reached w'.

End proxy.
