(* ===== verification/NetworkProxyProps.v ===== *)
(** * Theorems on the running proxy (network-proxy/src/runtime.rs,
    connect_policy.rs)

    Every state the tasks can reach keeps to its constraints, so managed denials
    always block and a host that is let through is a managed one; connections
    reach the local network only where a literal was listed; an update works on
    the configuration it replaces. *)

From S2P Require Import Prelude RustStr PatchTypes AbsolutePath PathUri IpAddr NetworkDecision NetworkHost Wildcard NetworkPatterns NetworkConfig MitmHook NetworkConstraints NetworkProxy.

Section props.
Context {Json Credentials Value Mitm : Type} `{EqDecision Json, EqDecision Credentials}.
Context `{HostCrates} `{HttpCrates Value}.
Context (home_directory : option str) (current_dir : result str io_error).
Context (mitm_state_new : bool -> result Mitm str).
Context (env_var : str -> option str) (read_to_string : str -> option str).
Context (lookup_host : str -> N -> option (list IpAddr)).
Abbreviation Config := (NetworkProxyConfig Json Credentials).
Abbreviation State := (@ConfigState Json Credentials Value Mitm).
Abbreviation World := (@world Json Credentials Value Mitm).
Abbreviation reached := (@reached Json Credentials Value Mitm _ _ _ _ home_directory current_dir
                           mitm_state_new env_var read_to_string).
Abbreviation step := (@step Json Credentials Value Mitm _ _ _ _ home_directory current_dir
                        mitm_state_new env_var read_to_string).
Abbreviation trusted := (@trusted Json Credentials Value _ _ home_directory current_dir).
Abbreviation within := (@within Json Credentials Value _ _ home_directory current_dir).
Abbreviation compiled := (@compiled Json Credentials Value Mitm _ _ home_directory current_dir env_var read_to_string).
Abbreviation host_blocked := (host_blocked lookup_host).

(** ** The invariant *)

Definition buffer_ok (l : list BlockedRequest) (total : N) : Prop :=
  length l <= MAX_BLOCKED_EVENTS /\ (total <= u64_max)%N.

Definition policy_ok (s : State) : Prop := within (config s) (constraints s) /\ compiled s.

Definition state_ok (s : State) : Prop := policy_ok s /\ buffer_ok (blocked s) (blocked_total s).

Definition snapshot_ok (snap : @Snapshot Json Credentials) : Prop := buffer_ok (seen_blocked snap) (seen_total snap).

Definition task_ok (x : @task Json Credentials) : Prop :=
  match x with
  | Updating _ _ (Some snap) | SettingMode _ (Some snap) => snapshot_ok snap
  | _ => True
  end.

Definition world_ok (w : World) : Prop := state_ok (shared w) /\ map_Forall (fun _ => task_ok) (tasks w).

Lemma policy_blocked l n s : policy_ok (with_blocked l n s) <-> policy_ok s.
Proof. done. Qed.

Lemma built_policy c k s :
  within c k ->
  build_config_state home_directory current_dir mitm_state_new env_var read_to_string c k = Ok s ->
  policy_ok s /\ blocked s = [] /\ blocked_total s = 0%N /\ constraints s = k /\ config s = (brokered_config c k).1.
Proof.
  intros Hw (Ec & Ek & Hc & Eb & Et & _)%build_facts. split; [|done]. split; [|done].
  rewrite Ec, Ek. by apply brokered_within.
Qed.

Lemma prepared_ok k host snap s :
  prepare_update home_directory current_dir mitm_state_new env_var read_to_string k host snap = Ok (Some s) ->
  policy_ok s /\ blocked s = seen_blocked snap /\ blocked_total s = seen_total snap
  /\ constraints s = seen_constraints snap
  /\ config s = (brokered_config (upsert_domain_permission host (list_permission k) normalize_host (previous_cfg snap))
                   (seen_constraints snap)).1.
Proof.
  unfold prepare_update. case_if; [done|]. cbv zeta.
  destruct (validate_policy_against_constraints _ _ _ _) as [[]|] eqn:Ev; [cbn [map_err]|done].
  destruct (build_config_state _ _ _ _ _ _ _) as [new|] eqn:Eb; [cbn [map_err]|done]. intros [= <-].
  apply validate_within in Ev. destruct (built_policy _ _ _ Ev Eb) as (Hp & _ & _ & Ek & Ec). by split.
Qed.

Lemma mode_policy m s c :
  policy_ok s -> within (set_mode m c) (constraints s) -> policy_ok (with_config_mode m s).
Proof. intros [Hw Hc] Hm. split; [by eapply within_mode|exact Hc]. Qed.

Lemma record_ok id e s : state_ok s -> state_ok (record_blocked id e s).
Proof.
  intros [Hp [Hl Ht]]. split; [done|]. split; cbn.
  - unfold keep_newest, MAX_BLOCKED_EVENTS in *. rewrite length_drop, length_app. cbn. lia.
  - unfold u64_max in *. lia.
Qed.

Lemma write_ok t w w' : world_ok w ->
  write_step home_directory current_dir mitm_state_new env_var read_to_string t w = Some w' -> world_ok w'.
Proof.
  intros [Hs Ht]. unfold write_step. destruct (tasks w !! t) as [x|] eqn:E; [|done].
  pose proof (map_Forall_lookup_1 _ _ _ _ Ht E) as Hx.
  destruct x as [k host [snap|]|m [snap|]|r]; try done.
  - destruct (prepare_update _ _ _ _ _ k host snap) as [[new|]|e] eqn:Ep.
    + apply prepared_ok in Ep as (Hp & Eb & Et & _ & _). case_if; intros [= <-]; split; cbn.
      * split; [done|]. by rewrite Eb, Et.
      * by apply map_Forall_insert_2.
      * done.
      * by apply map_Forall_insert_2.
    + intros [= <-]. split; [done|]. by apply map_Forall_insert_2.
    + intros [= <-]. split; [done|]. by apply map_Forall_insert_2.
  - destruct (validate_policy_against_constraints _ _ _ _) as [[]|] eqn:Ev.
    + apply validate_within in Ev. case_bool_decide as Ek; intros [= <-]; split; cbn.
      * destruct Hs as [Hp Hb]. split; [|done]. eapply mode_policy; [done|]. by rewrite Ek.
      * by apply map_Forall_insert_2.
      * done.
      * by apply map_Forall_insert_2.
    + intros [= <-]. split; [done|]. by apply map_Forall_insert_2.
Qed.

Lemma step_ok e w w' : world_ok w -> trusted e -> step e w = Some w' -> world_ok w'.
Proof.
  intros Hok He. destruct e as [t k host|t m|t|t|id entry| |c k|c k]; cbn [NetworkProxy.step].
  - case_if; [done|]. intros [= <-]. destruct Hok as [Hs Ht]. split; [done|]. apply map_Forall_insert_2; [|done].
    by destruct (Host_parse host).
  - case_if; [done|]. intros [= <-]. destruct Hok as [Hs Ht]. split; [done|]. by apply map_Forall_insert_2.
  - unfold read_step. destruct Hok as [[Hp Hb] Ht]. destruct (tasks w !! t) as [[k host [|]|m [|]|]|]; try done.
    + cbv zeta. case_if; intros [= <-]; (split; [by split|]); by apply map_Forall_insert_2.
    + intros [= <-]. split; [done|]. by apply map_Forall_insert_2.
  - by apply write_ok.
  - intros [= <-]. destruct Hok as [Hs Ht]. split; [by apply record_ok|done].
  - intros [= <-]. destruct Hok as [[Hp [Hl Hn]] Ht]. split; [|done]. split; [done|]. split; [cbn; lia|done].
  - destruct (build_config_state _ _ _ _ _ c k) as [new|] eqn:Eb; [|done]. intros [= <-].
    destruct Hok as [[Hp Hb] Ht]. split; [|done]. split; [|done].
    apply validate_within in He. by destruct (built_policy _ _ _ He Eb).
  - destruct (build_config_state _ _ _ _ _ c k) as [new|] eqn:Eb; [|done]. intros [= <-].
    destruct Hok as [[Hp [Hl Hn]] Ht]. split; [|done]. apply validate_within in He.
    destruct (built_policy _ _ _ He Eb) as (Hpn & _ & En & _). split; [done|]. split; cbn; [done|]. rewrite En. done.
Qed.

Lemma reached_ok w : reached w -> world_ok w.
Proof.
  induction 1 as [c k s Hv Hb|w e w' _ IH He Hst]; [|by eapply step_ok].
  apply validate_within in Hv. destruct (built_policy _ _ _ Hv Hb) as (Hp & Eb & Et & _).
  split; [|apply map_Forall_empty]. split; [done|]. cbn. rewrite Eb, Et. split; [cbn; lia|done].
Qed.

(** ** Denials and the allowlist *)

Lemma denied_blocks (s : State) host port h :
  Host_parse host = Some h -> globset_is_match (deny_set s) h = true -> host_blocked s host port = Blocked Denied.
Proof.
  intros Eh Hm. unfold NetworkProxy.host_blocked. rewrite Eh. cbv zeta.
  unfold globset_matches_host_or_unscoped. by rewrite Hm.
Qed.

Lemma allowed_facts (s : State) host port : host_blocked s host port = Allowed ->
  exists h, Host_parse host = Some h
    /\ globset_matches_host_or_unscoped (deny_set s) h = false
    /\ globset_matches_host_or_unscoped (allow_set s) h = true
    /\ (allow_local_binding (config s) = false ->
        if is_local_literal h
        then is_explicit_local_allowlisted (default [] (allowed_domains (config s))) h = true
        else host_resolves_to_non_public_ip lookup_host h port = false).
Proof.
  unfold NetworkProxy.host_blocked. destruct (Host_parse host) as [h|]; [|done]. cbv zeta.
  destruct (globset_matches_host_or_unscoped (deny_set s) h) eqn:Ed; [done|].
  destruct (if allow_local_binding (config s) then _ else _) eqn:El; [done|].
  destruct (is_none _); [done|]. cbn [orb]. destruct (globset_matches_host_or_unscoped (allow_set s) h) eqn:Ea; [|done].
  intros _. exists h. repeat split; try done. intros E. rewrite E in El. destruct (is_local_literal h); [|done].
  by apply negb_false_iff in El.
Qed.

(** In every state the tasks can reach, whatever was added, removed, reloaded
    or switched in between, a host that a managed denial matches is refused as
    denied, and the configuration is within the constraints it runs under, its
    compiled sets are those of its lists, and at most two hundred blocked requests
    are kept. *)
Theorem managed_denials_always_block w :
  reached w ->
  let s := shared w in
  (forall managed m host port h,
     managed_denied_domains (constraints s) = Some managed -> In m managed ->
     Host_parse host = Some h -> pattern_matches m h = true ->
     host_blocked s host port = Blocked Denied)
  /\ validate_policy_against_constraints (Value := Value) home_directory current_dir (config s) (constraints s) = Ok ()
  /\ compiled s /\ length (blocked s) <= 200.
Proof.
  intros [[[Hw Hc] [Hl _]] _]%reached_ok. cbv zeta. split; [|split; [by apply validate_within|done]].
  intros managed m host port h Em Hm Eh Hp. apply (denied_blocks _ _ _ h Eh).
  eapply denied_set_covers; [exact Hw|exact Hc|exact Em|exact Hm|exact Hp].
Qed.

Lemma ascii_app_inv (a b : str) : ascii (a ++ b) -> ascii a /\ ascii b.
Proof. apply Forall_app. Qed.

Lemma unscoped_ascii h ip : ascii h -> unscoped_ip_literal h = Some ip -> ascii ip.
Proof.
  unfold unscoped_ip_literal. destruct (split_once PERCENT h) as [[a b]|] eqn:E; [cbn|done].
  destruct (parse_ip a); [cbn|done]. intros Hh [= <-]. apply split_once_app in E. subst h.
  by apply ascii_app_inv in Hh as [? _].
Qed.

(** A host a state lets through is one its bounded managed list matches. *)
Lemma allowed_by_managed `{!HostLaws} (s : State) managed host port :
  policy_ok s -> managed_allowed_domains (constraints s) = Some managed ->
  bounded_by managed (constraints s) (default [] (allowed_domains (config s))) ->
  host_blocked s host port = Allowed ->
  exists h, Host_parse host = Some h
    /\ (ascii h -> exists m, In m managed
          /\ (pattern_matches m h = true
              \/ exists ip, unscoped_ip_literal h = Some ip /\ pattern_matches m ip = true)).
Proof.
  intros [Hw Hc] Em Hb (h & Eh & _ & Ha & _)%allowed_facts.
  exists h. split; [done|]. intros Hascii. unfold globset_matches_host_or_unscoped in Ha.
  apply orb_prop in Ha as [Ha|Ha].
  - destruct (allowed_set_covered home_directory current_dir env_var read_to_string _ managed h Hw Hc Em Hb Hascii Ha)
      as (m & Hm & Hp). exists m. auto.
  - destruct (unscoped_ip_literal h) as [ip|] eqn:Eu; [|done].
    destruct (allowed_set_covered home_directory current_dir env_var read_to_string _ managed ip Hw Hc Em Hb
                (unscoped_ascii _ _ Hascii Eu) Ha) as (m & Hm & Hp). exists m. eauto.
Qed.

(** A host a managed denial matches is refused by every state within its constraints. *)
Lemma managed_denial_blocks (s : State) managed m host port h :
  policy_ok s -> managed_denied_domains (constraints s) = Some managed -> In m managed ->
  Host_parse host = Some h -> pattern_matches m h = true -> host_blocked s host port = Blocked Denied.
Proof.
  intros [Hw Hc] Em Hm Eh Hp. apply (denied_blocks _ _ _ h Eh).
  eapply denied_set_covers; [exact Hw|exact Hc|exact Em|exact Hm|exact Hp].
Qed.

(** Where the administrator sets an allowlist that cannot be extended, a host
    that is let through is one that a managed pattern matches, as it is written or
    without its scope: nothing a user, a task or a reload adds opens another. *)
Theorem allowed_hosts_are_managed `{!HostLaws} w managed host port :
  reached w ->
  let s := shared w in
  managed_allowed_domains (constraints s) = Some managed ->
  bounded_by managed (constraints s) (default [] (allowed_domains (config s))) ->
  host_blocked s host port = Allowed ->
  exists h, Host_parse host = Some h
    /\ (ascii h -> exists m, In m managed
          /\ (pattern_matches m h = true
              \/ exists ip, unscoped_ip_literal h = Some ip /\ pattern_matches m ip = true)).
Proof.
  intros [[Hp _] _]%reached_ok. cbv zeta. by apply allowed_by_managed.
Qed.

(** ** Addresses of the local network *)

(** Every character of an address is one of its digits or separators. *)
Definition ip_char (c : char) : bool := is_some (to_digit 16 c) || (c =? COLON)%N || (c =? DOT)%N.

Definition consumes (s rest : str) : Prop := exists w, s = w ++ rest /\ forallb ip_char w = true.

Lemma consumes_refl s : consumes s s.
Proof. by exists []. Qed.

Lemma consumes_trans s t u : consumes s t -> consumes t u -> consumes s u.
Proof.
  intros (w & -> & Hw) (v & -> & Hv). exists (w ++ v). rewrite app_assoc. split; [done|]. by rewrite forallb_app, Hw, Hv.
Qed.

Lemma to_digit_mono c d : to_digit 10 c = Some d -> to_digit 16 c = Some d.
Proof.
  unfold to_digit. destruct (if is_ascii_digit c then _ else _) as [e|]; [|done].
  destruct (e <? 10)%N eqn:E; [|done]. intros [= ->]. apply N.ltb_lt in E.
  by replace (d <? 16)%N with true by (symmetry; apply N.ltb_lt; lia).
Qed.

Lemma read_digits_consumes radix s : radix = 10%N \/ radix = 16%N ->
  consumes s (read_digits radix s).2.
Proof.
  intros Hr. induction s as [|c s IH]; [apply consumes_refl|]. cbn.
  destruct (to_digit radix c) as [d|] eqn:E; [|apply consumes_refl].
  destruct (read_digits radix s) as [ds rest]. cbn in *. destruct IH as (w & -> & Hw). exists (c :: w).
  split; [done|]. cbn. rewrite Hw, andb_true_r. unfold ip_char.
  assert (to_digit 16 c = Some d) as -> by (destruct Hr as [-> | ->]; [by apply to_digit_mono|done]). done.
Qed.

Lemma read_number_consumes radix limit k z s n rest : radix = 10%N \/ radix = 16%N ->
  read_number radix limit k z s = Some (n, rest) -> consumes s rest.
Proof.
  intros Hr. unfold read_number. pose proof (read_digits_consumes radix s Hr) as Hc.
  destruct (read_digits radix s) as [ds r]. cbv zeta. destruct (_ || _); [done|]. destruct (_ && _); [done|].
  destruct (_ <? _)%N; [done|]. by intros [= _ <-].
Qed.

Lemma read_separator_consumes sep first s t : sep = DOT \/ sep = COLON ->
  read_separator sep first s = Some t -> consumes s t.
Proof.
  intros Hsep. unfold read_separator. destruct first; [intros [= <-]; apply consumes_refl|].
  destruct s as [|c s]; [done|]. destruct (c =? sep)%N eqn:E; [|done]. intros [= <-]. exists [c].
  split; [done|]. apply N.eqb_eq in E as ->. by destruct Hsep as [-> | ->].
Qed.

Lemma read_octets_consumes slots : forall first acc s n rest,
  read_octets slots first acc s = Some (n, rest) -> consumes s rest.
Proof.
  induction slots as [|slots IH]; intros first acc s n rest; cbn [read_octets]; [intros [= _ <-]; apply consumes_refl|].
  destruct (read_separator DOT first s) as [t|] eqn:Es; [cbn|done].
  destruct (read_number 10 255 3 false t) as [[o r]|] eqn:En; [cbn|done]. intros Hr.
  eapply consumes_trans; [eapply read_separator_consumes; [by left|exact Es]|].
  eapply consumes_trans; [eapply read_number_consumes; [by left|exact En]|]. by eapply IH.
Qed.

Lemma read_groups_consumes slots : forall first s, consumes s (read_groups slots first s).2.
Proof.
  induction slots as [|slots IH]; intros first s; cbn [read_groups]; [apply consumes_refl|].
  set (ip := if 1 <=? slots then _ else _). destruct ip as [[bits rest]|] eqn:E.
  - unfold ip in E. destruct (1 <=? slots); [|done]. destruct (read_separator COLON first s) as [t|] eqn:Es; [|done].
    change (read_ipv4_addr t = Some (bits, rest)) in E.
    eapply consumes_trans; [eapply read_separator_consumes; [by right|exact Es]|]. by eapply read_octets_consumes.
  - destruct (read_separator COLON first s) as [t|] eqn:Es; cbn; [|apply consumes_refl].
    destruct (read_number 16 65535 4 true t) as [[g rest]|] eqn:En; [|apply consumes_refl].
    specialize (IH false rest). destruct (read_groups slots false rest) as [[gs v4] r]. cbn in *.
    eapply consumes_trans; [eapply read_separator_consumes; [by right|exact Es]|].
    eapply consumes_trans; [eapply read_number_consumes; [by right|exact En]|done].
Qed.

Lemma parse_ip_chars s ip : parse_ip s = Some ip -> forallb ip_char s = true.
Proof.
  assert (Hall : forall t, consumes t [] -> forallb ip_char t = true)
    by (intros t (w & -> & Hw); by rewrite app_nil_r).
  unfold parse_ip. destruct (read_ipv4_addr s) as [[b r]|] eqn:E4.
  - destruct r; [intros _|done]. apply Hall. by eapply read_octets_consumes.
  - destruct (read_ipv6_addr s) as [[b r]|] eqn:E6; [cbn|done]. destruct r; [intros _|done]. apply Hall. revert E6.
    unfold read_ipv6_addr. pose proof (read_groups_consumes 8 true s) as Hh.
    destruct (read_groups 8 true s) as [[head v4] r]. cbn in Hh. case_if; [by intros [= _ ->]|]. destruct v4; [done|].
    destruct r as [|c [|d r]]; [done..|]. destruct ((c =? COLON) && (d =? COLON))%N eqn:Ec; [|done].
    pose proof (read_groups_consumes (8 - (length head + 1)) true r) as Ht.
    destruct (read_groups _ true r) as [[tail v4] r']. intros [= _ ->]. cbn in Ht.
    eapply consumes_trans; [exact Hh|]. eapply consumes_trans; [|exact Ht]. exists [c; d]. split; [done|].
    apply andb_prop in Ec as [->%N.eqb_eq ->%N.eqb_eq]. done.
Qed.

Lemma parsed_unscoped h ip : parse_ip h = Some ip -> unscoped_ip_literal h = None.
Proof.
  intros Hp%parse_ip_chars. unfold unscoped_ip_literal. destruct (split_once PERCENT h) as [[a b]|] eqn:E; [|done].
  apply split_once_app in E. subst h. rewrite forallb_app in Hp. apply andb_prop in Hp as [_ Hp]. done.
Qed.

Lemma local_literal_ip h ip : parse_ip h = Some ip -> is_non_public_ip ip = true -> is_local_literal h = true.
Proof.
  intros Hp Hn. unfold is_local_literal. case_if; [done|]. rewrite (parsed_unscoped _ _ Hp). cbn. by rewrite Hp.
Qed.

Lemma localhost_normal n : is_localhost_name n = true -> normalize_host n = $"localhost".
Proof.
  unfold is_localhost_name, eq_ignore_ascii_case. rewrite bool_decide_eq_true. intros E.
  change (to_ascii_lowercase ($"localhost")) with ($"localhost") in E.
  destruct (trim_end_matches_prefix DOT n) as [k En]. set (d := trim_end_matches DOT n) in *.
  assert (Hp : plain_glob d = true) by (rewrite <- plain_glob_lower, E; by vm_compute).
  assert (Ht : trim n = n).
  { apply no_space_trimmed. intros c Hc. rewrite En in Hc. apply in_app_iff in Hc as [Hc|Hc%repeat_spec]; [|by rewrite Hc].
    apply plain_not_space. unfold plain_glob in Hp. apply andb_prop in Hp as [Hp _].
    rewrite forallb_forall in Hp. by apply Hp. }
  rewrite plain_text; rewrite Ht; fold d; [done|done|]. intros Ed. by rewrite Ed in E.
Qed.

Lemma read_proxy_from {ProxyAddress} (parse_proxy : str -> option (ProxyAddress * bool)) keys proxy :
  read_proxy_env env_var parse_proxy keys = Some proxy ->
  exists key value, In key keys /\ env_var key = Some value /\ parse_proxy (trim value) = Some (proxy, true).
Proof.
  induction keys as [|key keys IH]; cbn; [done|]. intros Hp.
  assert (Hrest : read_proxy_env env_var parse_proxy keys = Some proxy ->
    exists k v, (key = k \/ In k keys) /\ env_var k = Some v /\ parse_proxy (trim v) = Some (proxy, true)).
  { intros (k & v & ? & ?)%IH. exists k, v. by auto. }
  destruct (env_var key) as [value|] eqn:Ev; [|by apply Hrest].
  destruct (is_empty (trim value)); [by apply Hrest|].
  destruct (parse_proxy (trim value)) as [[p []]|] eqn:Ep; [|by apply Hrest|by apply Hrest].
  injection Hp as <-. exists key, value. by auto.
Qed.

(** A target let through to an address that is not public. *)
Lemma checked_target (host_text : TargetHost -> str) (view : nat -> option State) host port addr :
  match host with
  | Address ip => parse_ip (normalize_host (host_text host)) = Some ip
  | Name n => host_text host = n
  end ->
  (forall k s, view k = Some s -> allow_local_binding (config s) = false) ->
  is_non_public_ip addr = true ->
  allows_non_public_target lookup_host host_text view host port addr = true ->
  (host = Address addr \/ exists n, host = Name n /\ is_localhost_name n = true /\ is_loopback addr = true)
  /\ exists k s h pattern, view k = Some s /\ Host_parse (host_text host) = Some h
      /\ In pattern (default [] (allowed_domains (config s)))
      /\ ~ In STAR (trim pattern) /\ ~ In QUESTION (trim pattern)
      /\ (normalize_host pattern = h \/ unscoped_ip_literal h = Some (normalize_host pattern)).
Proof.
  intros Htext Hlocal Hn. unfold allows_non_public_target.
  destruct (view 0) as [s0|] eqn:E0; [|done]. rewrite (Hlocal _ _ E0).
  destruct (target_matches_non_public_addr host addr) eqn:Em; [cbn [negb]|done].
  destruct (view 1) as [s|] eqn:E1; [|done]. specialize (Hlocal _ _ E1).
  intros Ha%bool_decide_eq_true. apply allowed_facts in Ha as (h & Eh & _ & _ & Hcheck). specialize (Hcheck Hlocal).
  assert (Enorm : h = normalize_host (host_text host)).
  { unfold Host_parse in Eh. cbv zeta in Eh. destruct (is_empty _); [done|]. by injection Eh as <-. }
  split.
  { unfold target_matches_non_public_addr in Em. destruct host as [ip|n]; [left; by apply bool_decide_eq_true in Em as ->|right].
    apply andb_prop in Em as [? ?]. by exists n. }
  assert (Hlit : is_local_literal h = true).
  { unfold target_matches_non_public_addr in Em. subst h. destruct host as [ip|n].
    - apply bool_decide_eq_true in Em as ->. by eapply local_literal_ip.
    - apply andb_prop in Em as [Em _]. rewrite Htext, (localhost_normal n Em). by vm_compute. }
  rewrite Hlit in Hcheck. exists 1, s, h. unfold is_explicit_local_allowlisted in Hcheck. cbv zeta in Hcheck.
  apply existsb_exists in Hcheck as (pattern & Hin & Hp). exists pattern. split; [done|]. split; [done|]. split; [done|].
  destruct (_ || _); [done|]. destruct (contains_char STAR (trim pattern)) eqn:Es; [done|].
  destruct (contains_char QUESTION (trim pattern)) eqn:Eq; [done|].
  apply contains_char_false in Es, Eq. split; [done|]. split; [done|].
  assert (Etrim : normalize_host (trim pattern) = normalize_host pattern) by (unfold normalize_host; by rewrite trim_idemp).
  rewrite Etrim in Hp. apply orb_prop in Hp as [Hp%bool_decide_eq_true|Hp%bool_decide_eq_true]; auto.
Qed.

Lemma chosen_proxy {ProxyAddress : Type} (parse_proxy : str -> option (ProxyAddress * bool))
    (use_proxies is_secure : bool) host p :
  proxy_for_target (if use_proxies then from_env env_var parse_proxy else no_proxies) host is_secure = Some p ->
  use_proxies = true
  /\ match host with Address ip => is_non_public_ip ip = false | Name n => is_localhost_name n = false end
  /\ exists key value, In key [$"HTTP_PROXY"; $"http_proxy"; $"HTTPS_PROXY"; $"https_proxy"; $"ALL_PROXY"; $"all_proxy"]
     /\ env_var key = Some value /\ parse_proxy (trim value) = Some (p, true).
Proof.
  unfold proxy_for_target. destruct (is_non_public_target host) eqn:Eh; [done|].
  destruct use_proxies; [|by destruct is_secure]. intros Hp. split; [done|]. split; [by destruct host|].
  assert (Hc : read_proxy_env env_var parse_proxy [$"HTTP_PROXY"; $"http_proxy"] = Some p
    \/ read_proxy_env env_var parse_proxy [$"HTTPS_PROXY"; $"https_proxy"] = Some p
    \/ read_proxy_env env_var parse_proxy [$"ALL_PROXY"; $"all_proxy"] = Some p).
  { unfold proxy_for_protocol, from_env in Hp. cbn [proxy_http proxy_https proxy_all] in Hp. revert Hp.
    destruct (read_proxy_env _ _ [$"HTTP_PROXY"; _]), (read_proxy_env _ _ [$"HTTPS_PROXY"; _]), is_secure; cbn; auto. }
  destruct Hc as [Hc|[Hc|Hc]]; apply read_proxy_from in Hc as (key & value & Hin & Hk & Hv);
    exists key, value; (split; [revert Hin; clear; cbn; tauto|done]).
Qed.

(** C18: With local binding off in every state seen, a connection that is made
    reaches a proxy an environment variable names, and then only if upstream
    proxies are used and the target is no local name or address; or an address
    that is public; or else the target is that very address, or is the name
    localhost and the address a loopback one, and the target was let through
    because the allowlist spells it out, without wildcards: no name is resolved
    into the local network, not even when its resolution changes after the
    check. *)
Theorem local_network_only_by_literal {ProxyAddress : Type}
    (parse_proxy : str -> option (ProxyAddress * bool)) (use_proxies is_secure : bool)
    (host_text : TargetHost -> str) (view : nat -> option State) host port addr :
  let proxies := if use_proxies then from_env env_var parse_proxy else no_proxies in
  let proxy := proxy_for_target proxies host is_secure in
  match host with
  | Address ip => parse_ip (normalize_host (host_text host)) = Some ip
  | Name n => host_text host = n
  end ->
  (forall k s, view k = Some s -> allow_local_binding (config s) = false) ->
  may_connect lookup_host proxy host_text view host port addr = true ->
  match proxy with
  | Some p =>
      use_proxies = true
      /\ match host with Address ip => is_non_public_ip ip = false | Name n => is_localhost_name n = false end
      /\ exists key value, In key [$"HTTP_PROXY"; $"http_proxy"; $"HTTPS_PROXY"; $"https_proxy"; $"ALL_PROXY"; $"all_proxy"]
         /\ env_var key = Some value /\ parse_proxy (trim value) = Some (p, true)
  | None =>
      is_non_public_ip addr = false
      \/ (host = Address addr \/ exists n, host = Name n /\ is_localhost_name n = true /\ is_loopback addr = true)
         /\ exists k s h pattern, view k = Some s /\ Host_parse (host_text host) = Some h
            /\ In pattern (default [] (allowed_domains (config s)))
            /\ ~ In STAR (trim pattern) /\ ~ In QUESTION (trim pattern)
            /\ (normalize_host pattern = h \/ unscoped_ip_literal h = Some (normalize_host pattern))
  end.
Proof.
  cbn zeta. intros Htext Hlocal Hm.
  destruct (proxy_for_target _ host is_secure) as [p|] eqn:Ep; [by eapply chosen_proxy|].
  destruct (is_non_public_ip addr) eqn:Hn; [right|by left].
  unfold may_connect in Hm. rewrite Hn in Hm. cbn [andb] in Hm. rewrite negb_involutive in Hm.
  by apply checked_target in Hm.
Qed.

(** ** Updates *)

Definition updated (k : DomainListKind) (host : str) (s : State) : Config :=
  (brokered_config (upsert_domain_permission host (list_permission k) normalize_host (config s)) (constraints s)).1.

Lemma upsert_In c host perm p q :
  In (mkPermission p q) (default [] (domains (@upsert_domain_permission Json Credentials host perm normalize_host c)))
  <-> In (mkPermission p q) (default [] (domains c)) /\ normalize_host p <> normalize_host host
      \/ p = host /\ q = perm.
Proof.
  unfold upsert_domain_permission. cbn [domains set_domains]. set (kept := List.filter _ _).
  assert (Hd : default [] (some_domains (kept ++ [mkPermission host perm])) = kept ++ [mkPermission host perm])
    by by destruct kept.
  rewrite Hd, in_app_iff. unfold kept. rewrite filter_In, negb_true_iff, bool_decide_eq_false. cbn [In entry_pattern].
  split; [intros [?|[[= <- <-]|[]]]; auto|]. intros [?|[-> ->]]; [by left|right; by left].
Qed.

Lemma brokered_domains c k : allowed_domains c <> None -> domains (@brokered_config Json Credentials c k).1 = domains c.
Proof.
  intros Ha. unfold brokered_config. cbv zeta.
  set (c1 := if bool_decide (max_enabled k = Some false) then _ else c).
  assert (E : domains c1 = domains c /\ allowed_domains c1 = allowed_domains c) by (unfold c1; by case_if).
  destruct E as [E Ea]. rewrite Ea. destruct (allowed_domains c); [|done]. cbn [is_none andb].
  rewrite andb_false_r. cbn [andb fst]. by case_if.
Qed.

Lemma brokered_denied c k p :
  In p (default [] (denied_domains (@brokered_config Json Credentials c k).1)) <-> In p (default [] (denied_domains c)).
Proof.
  unfold brokered_config. cbv zeta. set (c1 := if bool_decide (max_enabled k = Some false) then _ else c).
  assert (E : denied_domains c1 = denied_domains c) by (unfold c1; by case_if). rewrite <- E.
  destruct (credential_broker c1 && negb (enabled c1) && is_none (allowed_domains c1)
            && is_none (managed_allowed_domains k)) eqn:Ed; cbn [fst].
  - rewrite set_allowed_denied. by case_if.
  - by case_if.
Qed.

Lemma wild_self p : wild p p = true.
Proof.
  induction p as [|c p IH]; [done|]. destruct (N.eq_dec c 42%N) as [->|Hc].
  - apply wild_star. by exists [42%N], p.
  - apply N.eqb_neq in Hc. cbn. rewrite Hc, N.eqb_refl, orb_true_r. exact IH.
Qed.

(** A host name in plain letters matches itself as a pattern. *)
Definition plain_host (h : str) : bool :=
  plain_entry h && negb (contains_char STAR h) && forallb (fun c => (c <? 128)%N) h
  && bool_decide (trim h = h) && bool_decide (normalize_domain h = h).

Lemma plain_host_matches `{!HostLaws} h : plain_host h = true -> pattern_matches h h = true.
Proof.
  unfold plain_host. rewrite !andb_true_iff, negb_true_iff, !bool_decide_eq_true.
  intros ((((Hp & Hs%contains_char_false) & Ha) & Ht) & Hn).
  assert (Hascii : ascii h).
  { apply List.Forall_forall. rewrite forallb_forall in Ha. intros c Hc. by apply N.ltb_lt, Ha. }
  rewrite pattern_matches_plain by done.
  assert (Hno : forall p, In STAR p -> strip_prefix p h = None).
  { intros p Hin. destruct (strip_prefix p h) as [r|] eqn:E; [|done]. apply strip_prefix_Some in E as ->.
    destruct Hs. apply in_app_iff. by left. }
  unfold entry_kind, entry_domain, entry_text. rewrite Ht, !Hno by by left. cbn [stands]. rewrite Ht.
  unfold normalize_domain in Hn. rewrite Hn. rewrite <- Hn at 2. rewrite to_ascii_lowercase_idemp, Hn. apply wild_self.
Qed.

(** An update that commits has worked on the configuration it replaces: the
    list then has the host, its other entries are those of that configuration,
    whatever happened while it was prepared, and the constraints are the same.
    A host that was denied is refused from then on; setting the mode changes
    nothing but the mode. *)
Theorem committed_update_is_current `{!HostLaws} t w w' :
  step (Write t) w = Some w' -> tasks w' !! t = Some (Finished (Ok ())) ->
  match tasks w !! t with
  | Some (Updating k host (Some snap)) =>
      already_listed k host (previous_cfg snap) = false ->
      config (shared w') = updated k host (shared w)
      /\ constraints (shared w') = constraints (shared w)
      /\ (forall p q, normalize_host p <> normalize_host host ->
            In (mkPermission p q) (default [] (domains (upsert_domain_permission host (list_permission k) normalize_host
                                                 (config (shared w)))))
            <-> In (mkPermission p q) (default [] (domains (config (shared w)))))
      /\ (k = DenyList -> plain_host host = true ->
            forall host' port, Host_parse host' = Some host -> host_blocked (shared w') host' port = Blocked Denied)
      /\ (k = AllowList -> plain_host host = true ->
            globset_is_match (allow_set (shared w')) host = true
            /\ ~ In host (default [] (denied_domains (config (shared w')))))
  | Some (SettingMode m _) => shared w' = with_config_mode m (shared w)
  | _ => False
  end.
Proof.
  cbn [NetworkProxy.step]. unfold write_step. destruct (tasks w !! t) as [x|] eqn:E; [|done].
  destruct x as [k host [snap|]|m [snap|]|r]; try done.
  - destruct (prepare_update _ _ _ _ _ k host snap) as [[new|]|e] eqn:Ep.
    + destruct (still_current snap (shared w)) eqn:Ec; intros [= <-]; cbn [shared tasks set_shared set_task];
        [|by rewrite lookup_insert_eq].
      intros _ _. unfold still_current in Ec. apply andb_prop in Ec as [Ek%bool_decide_eq_true Ecf%bool_decide_eq_true].
      apply prepared_ok in Ep as ([_ (Hd & Ha & _)] & _ & _ & Ekk & Ecc). rewrite <- Ek, <- Ecf in *. fold (updated k host (shared w)) in Ecc.
      split; [done|]. split; [done|]. split.
      { intros p q Hp.  rewrite upsert_In. split; [intros [[? _]|[-> _]]; done|auto]. }
      split.
      * intros -> Hplain host' port Eh. apply (denied_blocks _ _ _ host Eh). rewrite (compile_match _ _ _ host Hd), Ecc.
        apply existsb_exists. exists host. split; [|by apply plain_host_matches].
        unfold updated. rewrite brokered_denied, denied_In, upsert_In. by right.
      * intros -> Hplain.
        assert (Hin : In host (default [] (allowed_domains (upsert_domain_permission host PermissionAllow normalize_host (config (shared w)))))).
        { unfold allowed_domains. rewrite domain_entries_In. set (l := default [] _).
          pose proof (strictest_rank host l) as Hr. destruct (strictest host l) as [q|].
          - destruct Hr as [Hq _]. unfold l in Hq. rewrite upsert_In in Hq. destruct Hq as [[_ Hq]|[_ ->]]; done.
          - destruct (Hr PermissionAllow). unfold l. rewrite upsert_In. by right. }
        assert (Hne : allowed_domains (upsert_domain_permission host PermissionAllow normalize_host (config (shared w))) <> None)
          by (intros En; by rewrite En in Hin).
        split.
        -- rewrite (compile_match _ _ _ host Ha), Ecc. apply existsb_exists. exists host.
           split; [|by apply plain_host_matches]. unfold updated, allowed_domains, domain_entries in *.
           by rewrite brokered_domains.
        -- rewrite Ecc. unfold updated. rewrite brokered_denied, denied_In, upsert_In. intros [[_ ?]|[_ ?]]; done.
    + intros [= <-]. cbn. intros _ Hl. unfold prepare_update in Ep. rewrite Hl in Ep. cbv zeta in Ep.
      destruct (map_err Constrained _); [|done]. by destruct (map_err NotCompiled _).
    + intros [= <-]. cbn. by rewrite lookup_insert_eq.
  - destruct (validate_policy_against_constraints _ _ _ _) as [[]|] eqn:Ev.
    + case_bool_decide as Ek; intros [= <-]; cbn; [done|by rewrite lookup_insert_eq].
    + intros [= <-]. cbn. by rewrite lookup_insert_eq.
Qed.

End props.
