(* ===== verification/ProxyServer.v ===== *)
(** * What the proxy does with a connection

    The handlers of http_proxy.rs, socks5.rs, mitm.rs and brokered_tunnel.rs
    (network-proxy/src/): what they answer, what they send on, and what they
    record.  A handler takes the lock of the state several times, and the state
    may change in between: [view k] is the state at its [k]-th look, [None] when
    the settings cannot be reloaded.  Sockets, the parsers of rama, the credential
    broker and the protocol a tunnel turns out to speak are arguments. *)

From S2P Require Import Prelude RustStr PatchTypes AbsolutePath IpAddr NetworkDecision NetworkHost NetworkConfig MitmHook NetworkConstraints NetworkProxy.

(** ** Answers (responses.rs) *)

Inductive Body : Type :=
| TextBody (text : str)
| BlockedJson (host reason : str)
    (details : option (NetworkPolicyDecision * NetworkDecisionSource * NetworkProtocol * N)).

Record Response : Type := mkResponse { status : N; proxy_error : option str; response_body : Body }.

Definition text_response (code : N) (text : str) : Response := mkResponse code None (TextBody text).

Definition internal_error : Response := text_response 500 ($"error").

Definition blocked_header_value (reason : str) : str :=
  if one_of reason [REASON_NOT_ALLOWED; REASON_NOT_ALLOWED_LOCAL] then $"blocked-by-allowlist"
  else if bool_decide (reason = REASON_DENIED) then $"blocked-by-denylist"
  else if bool_decide (reason = REASON_METHOD_NOT_ALLOWED) then $"blocked-by-method-policy"
  else if bool_decide (reason = REASON_MITM_HOOK_DENIED) then $"blocked-by-mitm-hook"
  else if bool_decide (reason = REASON_MITM_REQUIRED) then $"blocked-by-mitm-required"
  else $"blocked-by-policy".

Definition blocked_message (reason : str) : str :=
  if bool_decide (reason = REASON_NOT_ALLOWED) then $"Domain not in allowlist."
  else if bool_decide (reason = REASON_NOT_ALLOWED_LOCAL)
  then $"Sandbox policy blocks local/private network addresses."
  else if bool_decide (reason = REASON_DENIED) then $"Domain denied by the sandbox policy."
  else if bool_decide (reason = REASON_METHOD_NOT_ALLOWED) then $"Method not allowed in limited mode."
  else if bool_decide (reason = REASON_MITM_HOOK_DENIED) then $"HTTPS request denied by MITM hook policy."
  else if bool_decide (reason = REASON_MITM_REQUIRED) then $"MITM required for limited HTTPS."
  else if bool_decide (reason = REASON_PROXY_DISABLED) then $"network proxy is disabled"
  else $"Request blocked by network policy.".

(** Also [blocked_text_response_with_policy]: the details do not show. *)
Definition blocked_text_response (reason : str) : Response :=
  mkResponse 403 (Some (blocked_header_value reason)) (TextBody (blocked_message reason)).

Definition json_blocked (host reason : str)
    (details : option (NetworkPolicyDecision * NetworkDecisionSource * NetworkProtocol * N)) : Response :=
  mkResponse 403 (Some (blocked_header_value reason)) (BlockedJson host reason details).

(** ** What a handler leaves behind *)

Inductive effect : Type :=
| Recorded (entry : BlockedRequest)
| Audited (e : AuditEvent).

Definition tell {A} (fx : list effect) (r : A * list effect) : A * list effect := (r.1, fx ++ r.2).

(** ** Tunnels *)

Record BrokeredProtocols : Type := mkBrokered { broker_tls : bool; broker_http : bool }.

Inductive HostMitmRequirement : Type :=
| MitmNone
| MitmCredential (protocols : BrokeredProtocols)
| MitmAlways.

(** [ConnectMitmMode] and [SocksMitmMode]. *)
Inductive MitmMode : Type :=
| MitmDisabled
| MitmEnabled
| DetectProtocol (protocols : BrokeredProtocols).

Inductive TunnelProtocol : Type := Tls | PlainHttp | Opaque.
Inductive Scheme : Type := SchemeHttp | SchemeHttps.

Definition scheme_text (s : Scheme) : str := match s with SchemeHttp => $"http" | SchemeHttps => $"https" end.

(** Where the bytes of a tunnel go. *)
Inductive Route : Type :=
| Forwarded
| Intercepted (scheme : Scheme)
| Dropped (message : str).

Definition is_brokered_http (r : HostMitmRequirement) : bool :=
  match r with MitmCredential p => broker_http p | _ => false end.

Definition mitm_mode (mode : NetworkMode) (requirement : HostMitmRequirement) : MitmMode :=
  if bool_decide (mode = Limited) && negb (is_brokered_http requirement) then MitmEnabled
  else match requirement with
       | MitmNone => MitmDisabled
       | MitmCredential protocols => DetectProtocol protocols
       | MitmAlways => MitmEnabled
       end.

Definition relays_bytes (m : MitmMode) : bool := match m with MitmDisabled => true | _ => false end.
Definition always_inspects (m : MitmMode) : bool := match m with MitmEnabled => true | _ => false end.

(** ** Headers *)

Section headers.
Context {Value : Type} `{HttpCrates Value}.

Definition COMMA : char := 44%N.
Definition CONNECTION : str := $"connection".
Definition UPGRADE : str := $"upgrade".
Definition HOST : str := $"host".
Definition HTTP2_SETTINGS : str := $"http2-settings".
Definition X_UNIX_SOCKET : str := $"x-unix-socket".

Definition header_values (name : str) (headers : list (str * Value)) : list Value :=
  map snd (List.filter (fun kv => bool_decide (kv.1 = name)) headers).

Definition remove_header (name : str) (headers : list (str * Value)) : list (str * Value) :=
  List.filter (fun kv => negb (bool_decide (kv.1 = name))) headers.

Definition insert_header (name : str) (value : Value) (headers : list (str * Value)) : list (str * Value) :=
  remove_header name headers ++ [(name, value)].

Definition remove_headers (names : list str) (headers : list (str * Value)) : list (str * Value) :=
  fold_left (fun h name => remove_header name h) names headers.

(** The names a [Connection] header lists. *)
Definition connection_headers (raw_connection : Value) : list str :=
  match header_text raw_connection with
  | Some text =>
      omap header_name (List.filter (fun token => negb (is_empty token)) (map trim (split_char COMMA text)))
  | None => []
  end.

Fixpoint remove_connection (fuel : nat) (headers : list (str * Value)) : list (str * Value) :=
  match fuel with
  | O => headers
  | S fuel =>
      match header_values CONNECTION headers with
      | [] => headers
      | raw_connection :: _ =>
          remove_connection fuel
            (remove_headers (connection_headers raw_connection) (remove_header CONNECTION headers))
      end
  end.

Definition HOP_BY_HOP : list str :=
  [$"keep-alive"; $"proxy-connection"; $"proxy-authorization"; $"trailer"; $"transfer-encoding"; UPGRADE; $"te"].

(** A turn removes every [Connection] header, so two turns are the last. *)
Definition remove_hop_by_hop_request_headers (headers : list (str * Value)) : list (str * Value) :=
  remove_headers HOP_BY_HOP (remove_connection 2 headers).

Definition lists_token (token : str) (value : Value) : bool :=
  match header_text value with
  | Some text => existsb (fun part => eq_ignore_ascii_case (trim part) token) (split_char COMMA text)
  | None => false
  end.

(** The protocol a request asks to switch to, when [Connection] says so. *)
Definition requested_upgrade (headers : list (str * Value)) : option Value :=
  match header_values UPGRADE headers with
  | value :: _ => if existsb (lists_token UPGRADE) (header_values CONNECTION headers) then Some value else None
  | [] => None
  end.

(** The headers [forward_http_request] sends: an upgrade the request asks for is
    kept, with the settings of h2c. *)
Definition forwarded_headers (headers : list (str * Value)) : list (str * Value) :=
  let upgrade := requested_upgrade headers in
  let h2c_settings :=
    match upgrade with
    | Some value => if lists_token ($"h2c") value then header_values HTTP2_SETTINGS headers else []
    | None => []
    end in
  let headers := remove_hop_by_hop_request_headers headers in
  match upgrade with
  | None => headers
  | Some value =>
      let headers := insert_header UPGRADE value headers in
      let headers :=
        if is_empty h2c_settings then headers
        else remove_header HTTP2_SETTINGS headers ++ map (pair HTTP2_SETTINGS) h2c_settings in
      match header_value (if is_empty h2c_settings then UPGRADE else $"upgrade, http2-settings") with
      | Some connection => insert_header CONNECTION connection headers
      | None => headers
      end
  end.

Definition apply_mitm_hook_actions (actions : option (MitmHookActions Value)) (headers : list (str * Value))
  : list (str * Value) :=
  match actions with
  | None => headers
  | Some actions =>
      fold_left (fun h i => insert_header (resolved_name i) (resolved_value i) h) (injected_headers actions)
        (remove_headers (stripped_headers actions) headers)
  end.

End headers.

Definition authority_header_value (host : str) (port : N) (scheme : Scheme) : str :=
  let default_port := match scheme with SchemeHttp => 80%N | SchemeHttps => 443%N end in
  let host := if contains_char COLON host then $"[" ++ host ++ $"]" else host in
  if (port =? default_port)%N then host else host ++ [COLON] ++ show_N port.

Section server.
Context {Json Credentials Value Mitm : Type} `{EqDecision Json, EqDecision Credentials}.
Context `{HostCrates} `{HttpCrates Value}.
Context (home_directory : option str) (current_dir : result str io_error).
Context (lookup_host : str -> N -> option (list IpAddr)).
Context (decider : option (NetworkPolicyRequest -> NetworkDecision)).
Context (own_environment execution_id : option str) (now : Z).
Context (host_protocols : str -> N -> BrokeredProtocols).
Abbreviation Config := (NetworkProxyConfig Json Credentials).
Abbreviation State := (@ConfigState Json Credentials Value Mitm).
Abbreviation View := (nat -> option State).

(** A look at the state; [failed] when the settings cannot be reloaded. *)
Definition look {A} (view : View) (k : nat) (failed : A) (f : State -> A * list effect) : A * list effect :=
  match view k with Some s => f s | None => (failed, []) end.

Definition blocked_entry (host reason : str) (client method : option str) (mode : option NetworkMode)
    (protocol : str) (decision : option (NetworkPolicyDecision * NetworkDecisionSource)) (port : N)
  : BlockedRequest :=
  mkBlocked host reason client method mode protocol None
    ((fun d => policy_decision_text d.1) <$> decision) ((fun d => decision_source_text d.2) <$> decision) (Some port) now.

Definition host_mitm_requirement (s : State) (host : str) (port : N) : HostMitmRequirement :=
  let host := normalize_host host in
  let protocols := host_protocols host port in
  if is_some (state_hooks s !! host) then MitmAlways
  else if broker_tls protocols || broker_http protocols then MitmCredential protocols
  else MitmNone.

Definition proxy_disabled_response (host : str) (port : N) (client method : option str)
    (protocol : NetworkProtocol) (audit_endpoint : option (str * N)) : Response * list effect :=
  let '(audit_host, audit_port) := default (host, port) audit_endpoint in
  (text_response 503 (blocked_message REASON_PROXY_DISABLED),
   [Audited (block_audit ProxyState REASON_PROXY_DISABLED protocol audit_host audit_port method client);
    Recorded (blocked_entry host REASON_PROXY_DISABLED client method None (as_policy_protocol protocol)
                (Some (NetworkDeny, ProxyState)) port)]).

(** ** CONNECT (http_proxy.rs) *)

Record Tunnel : Type := mkTunnel {
  tunnel_host : str;
  tunnel_port : N;
  tunnel_mode : NetworkMode;
  tunnel_mitm_mode : MitmMode;
  tunnel_mitm : option Mitm;
}.

Definition CONNECT : str := $"CONNECT".

(** [authority]: the host as it is written, and the port. *)
Definition http_connect_accept (view : View) (environment_id client : option str) (authority : option (str * N))
  : result Tunnel Response * list effect :=
  match authority with
  | None => (Err (text_response 400 ($"missing authority")), [])
  | Some (written, port) =>
      let host := normalize_host written in
      if is_empty host then (Err (text_response 400 ($"invalid host")), [])
      else look view 0 (Err internal_error) (fun s =>
        if negb (enabled (config s))
        then let '(response, fx) := proxy_disabled_response host port client (Some CONNECT) HttpsConnect None in
             (Err response, fx)
        else
          let request := mkPolicyRequest HttpsConnect host port environment_id client (Some CONNECT) None None None in
          look view 1 (Err internal_error) (fun s =>
            let '(decision, audit) := evaluate_host_policy lookup_host s decider own_environment execution_id request in
            tell [Audited audit]
            match decision with
            | DenyRequest reason source d =>
                (Err (blocked_text_response reason),
                 [Recorded (blocked_entry host reason client (Some CONNECT) None ($"http-connect")
                              (Some (d, source)) port)])
            | AllowRequest =>
                look view 2 (Err internal_error) (fun s =>
                  let mode := mode (config s) in
                  look view 3 (Err internal_error) (fun s =>
                    let mitm_state := state_mitm s in
                    look view 4 (Err internal_error) (fun s =>
                      let connect_mitm_mode := mitm_mode mode (host_mitm_requirement s host port) in
                      if always_inspects connect_mitm_mode && is_none mitm_state
                      then (Err (blocked_text_response REASON_MITM_REQUIRED),
                            [Audited (block_audit ModeGuard REASON_MITM_REQUIRED HttpsConnect host port
                                        (Some CONNECT) client);
                             Recorded (blocked_entry host REASON_MITM_REQUIRED client (Some CONNECT) (Some mode)
                                         ($"http-connect") (Some (NetworkDeny, ModeGuard)) port)])
                      else (Ok (mkTunnel written port mode connect_mitm_mode
                                  (if relays_bytes connect_mitm_mode then None else mitm_state)), []))))
            end))
  end.

Definition mitm_connect_tunnel (tunnel : Tunnel) : Route :=
  if is_none (tunnel_mitm tunnel) then Dropped ($"cannot enable MITM without state") else Intercepted SchemeHttps.

(** [mitm_stream] of a plain tunnel. *)
Definition mitm_plain_tunnel (tunnel : Tunnel) : Route :=
  if is_none (tunnel_mitm tunnel) then Dropped ($"missing MITM state") else Intercepted SchemeHttp.

(** [detected]: what [peek_protocol] finds, [None] when it fails. *)
Definition http_connect_proxy (tunnel : Tunnel) (detected : option TunnelProtocol) : Route :=
  match tunnel_mitm_mode tunnel with
  | MitmDisabled => Forwarded
  | MitmEnabled => mitm_connect_tunnel tunnel
  | DetectProtocol _ =>
      match detected with
      | Some Tls => mitm_connect_tunnel tunnel
      | Some PlainHttp => mitm_plain_tunnel tunnel
      | Some Opaque =>
          if bool_decide (tunnel_mode tunnel = Limited)
          then Dropped ($"opaque tunnels are not allowed in limited mode")
          else Forwarded
      | None => Dropped ($"detect tunnel protocol")
      end
  end.

(** ** SOCKS5 (socks5.rs) *)

(** [io::Error]s: [InvalidInput], [PermissionDenied] with the message for the
    reason, [Other]. *)
Inductive SocksError : Type :=
| InvalidHost
| PolicyDenied (message : str)
| ProxyError.

Inductive Socks5TcpConnection : Type :=
| SocksDirect
| SocksMitm (tunnel : Tunnel)
| SocksDetect (tunnel : Tunnel).

Definition socks_refused {A} (host reason : str) (client : option str) (mode : option NetworkMode)
    (protocol : NetworkProtocol) (written_protocol : str) (source : NetworkDecisionSource) (port : N)
  : result A SocksError * list effect :=
  (Err (PolicyDenied (blocked_message reason)),
   [Audited (block_audit source reason protocol host port None client);
    Recorded (blocked_entry host reason client None mode written_protocol (Some (NetworkDeny, source)) port)]).

(** [Ok SocksDirect]: the target is connected to, if its address may be. *)
Definition handle_socks5_tcp (view : View) (environment_id client : option str) (written : str) (port : N)
  : result Socks5TcpConnection SocksError * list effect :=
  let host := normalize_host written in
  if is_empty host then (Err InvalidHost, [])
  else look view 0 (Err ProxyError) (fun s =>
    if negb (enabled (config s))
    then socks_refused host REASON_PROXY_DISABLED client None Socks5Tcp ($"socks5") ProxyState port
    else look view 1 (Err ProxyError) (fun s =>
      let mode := mode (config s) in
      look view 2 (Err ProxyError) (fun s =>
        let requirement := host_mitm_requirement s host port in
        let target_is_https := (port =? 443)%N in
        if bool_decide (mode = Limited) && negb target_is_https && negb (is_brokered_http requirement)
        then socks_refused host REASON_METHOD_NOT_ALLOWED client (Some Limited) Socks5Tcp ($"socks5") ModeGuard port
        else
          let request := mkPolicyRequest Socks5Tcp host port environment_id client None None None None in
          look view 3 (Err ProxyError) (fun s =>
            let '(decision, audit) := evaluate_host_policy lookup_host s decider own_environment execution_id request in
            tell [Audited audit]
            match decision with
            | DenyRequest reason source d =>
                (Err (PolicyDenied (blocked_message reason)),
                 [Recorded (blocked_entry host reason client None None ($"socks5") (Some (d, source)) port)])
            | AllowRequest =>
                look view 4 (Err ProxyError) (fun s =>
                  let mitm_state := state_mitm s in
                  let socks_mitm_mode := mitm_mode mode requirement in
                  let unsupported_hook_protocol :=
                    match requirement with MitmAlways => negb target_is_https | _ => false end in
                  if unsupported_hook_protocol || (negb (relays_bytes socks_mitm_mode) && is_none mitm_state)
                  then socks_refused host REASON_MITM_REQUIRED client (Some mode) Socks5Tcp ($"socks5") ModeGuard port
                  else
                    let tunnel := mkTunnel written port mode socks_mitm_mode mitm_state in
                    (Ok match mitm_state, socks_mitm_mode with
                        | Some _, MitmEnabled => SocksMitm tunnel
                        | Some _, DetectProtocol _ => SocksDetect tunnel
                        | _, _ => SocksDirect
                        end, []))
            end)))).

Definition proxy_socks5_tcp (connection : Socks5TcpConnection) (detected : option TunnelProtocol) : Route :=
  match connection with
  | SocksDirect => Forwarded
  | SocksMitm _ => Intercepted SchemeHttps
  | SocksDetect tunnel =>
      match detected with
      | Some Tls => Intercepted SchemeHttps
      | Some PlainHttp => Intercepted SchemeHttp
      | Some Opaque =>
          if bool_decide (tunnel_mode tunnel = Limited)
          then Dropped ($"opaque tunnels are not allowed in limited mode")
          else Forwarded
      | None => Dropped ($"detect tunnel protocol")
      end
  end.

(** [Ok ()]: the payload is relayed.  [address]: the text of an IP address. *)
Definition inspect_socks5_udp (view : View) (environment_id client : option str) (address : str) (port : N)
  : result unit SocksError * list effect :=
  let host := normalize_host address in
  if is_empty host then (Err InvalidHost, [])
  else look view 0 (Err ProxyError) (fun s =>
    if negb (enabled (config s))
    then socks_refused host REASON_PROXY_DISABLED client None Socks5Udp ($"socks5-udp") ProxyState port
    else look view 1 (Err ProxyError) (fun s =>
      if bool_decide (mode (config s) = Limited)
      then socks_refused host REASON_METHOD_NOT_ALLOWED client (Some Limited) Socks5Udp ($"socks5-udp") ModeGuard port
      else
        let request := mkPolicyRequest Socks5Udp host port environment_id client None None None None in
        look view 2 (Err ProxyError) (fun s =>
          let '(decision, audit) := evaluate_host_policy lookup_host s decider own_environment execution_id request in
          tell [Audited audit]
          match decision with
          | DenyRequest reason source d =>
              (Err (PolicyDenied (blocked_message reason)),
               [Recorded (blocked_entry host reason client None None ($"socks5-udp") (Some (d, source)) port)])
          | AllowRequest => (Ok (), [])
          end))).

(** ** Requests inside a tunnel (mitm.rs) *)

(** [Authority] of rama: its text, host and port. *)
Record Authority : Type := mkAuthority {
  authority_text : str;
  authority_host : str;
  authority_port : option N;
}.

Context (parse_authority : str -> option Authority).
(** [Uri::builder] accepts a scheme, an authority and a path. *)
Context (uri_builds : str -> str -> str -> bool).
(** The broker puts the credentials of a destination in headers. *)
Context (inject_request_credentials : str -> list (str * Value) -> list (str * Value)).

(** [downstream_upgrade]: the HTTP server keeps a handle ([OnUpgrade]) with which
    the client's stream can be taken over. *)
Record InnerRequest : Type := mkInner {
  inner : Request Value;
  uri_scheme : option str;
  uri_authority : option Authority;
  inner_client : option str;
  downstream_upgrade : bool;
}.

Record MitmPolicyContext : Type := mkContext {
  target_host : str;
  target_port : N;
  target_scheme : Scheme;
  target_mode : NetworkMode;
}.

Definition mitm_context (tunnel : Tunnel) (scheme : Scheme) : MitmPolicyContext :=
  mkContext (normalize_host (tunnel_host tunnel)) (tunnel_port tunnel) scheme (tunnel_mode tunnel).

Inductive MitmPolicyDecision : Type :=
| MitmAllow (hook_actions : option (MitmHookActions Value))
| MitmBlock (response : Response)
| MitmFailed.

Definition AT : char := 64%N.

Definition matches_target (policy : MitmPolicyContext) (authority : Authority) : bool :=
  negb (contains_char AT (authority_text authority))
  && bool_decide (normalize_host (authority_host authority) = target_host policy)
  && (default 80 (authority_port authority) =? target_port policy)%N.

Definition invalid_destination (policy : MitmPolicyContext) (req : InnerRequest) : bool :=
  match uri_scheme req with Some scheme => negb (bool_decide (scheme = scheme_text SchemeHttp)) | None => false end
  || match uri_authority req with Some authority => negb (matches_target policy authority) | None => false end
  || existsb (fun value =>
       match header_text value ≫= parse_authority with
       | Some authority => negb (matches_target policy authority)
       | None => true
       end) (header_values HOST (request_headers (inner req))).

Definition extract_request_host (req : InnerRequest) : option str :=
  match head (header_values HOST (request_headers (inner req))) ≫= header_text with
  | Some host => Some host
  | None => authority_text <$> uri_authority req
  end.

Definition is_http (s : Scheme) : bool := match s with SchemeHttp => true | SchemeHttps => false end.

Definition evaluate_mitm_policy (view : View) (policy : MitmPolicyContext) (req : InnerRequest)
  : MitmPolicyDecision * list effect :=
  let method := request_method (inner req) in
  let record reason := Recorded (blocked_entry (target_host policy) reason (inner_client req) (Some method)
                                   (Some (target_mode policy)) (scheme_text (target_scheme policy)) None
                                   (target_port policy)) in
  if is_http (target_scheme policy) && invalid_destination policy req
  then (MitmBlock (text_response 400 ($"tunnel destination mismatch")), [])
  else if bool_decide (method = CONNECT)
  then (MitmBlock (text_response 405 ($"CONNECT not supported inside MITM")), [])
  else if match extract_request_host req with
          | Some request_host =>
              let normalized := normalize_host request_host in
              negb (is_empty normalized) && negb (bool_decide (normalized = target_host policy))
          | None => false
          end
  then (MitmBlock (text_response 400 ($"host mismatch")), [])
  else look view 0 MitmFailed (fun s =>
    if bool_decide (host_blocked lookup_host s (target_host policy) (target_port policy) = Blocked NotAllowedLocal)
    then (MitmBlock (blocked_text_response REASON_NOT_ALLOWED_LOCAL), [record REASON_NOT_ALLOWED_LOCAL])
    else look view 1 MitmFailed (fun s =>
      let guarded (hook_actions : option (MitmHookActions Value)) :=
        let opaque_http_upgrade :=
          is_http (target_scheme policy) && bool_decide (target_mode policy = Limited)
          && negb (is_empty (header_values UPGRADE (request_headers (inner req)))) in
        if negb (allows_method (target_mode policy) method) || opaque_http_upgrade
        then (MitmBlock (blocked_text_response REASON_METHOD_NOT_ALLOWED), [record REASON_METHOD_NOT_ALLOWED])
        else (MitmAllow hook_actions, []) in
      match evaluate_mitm_hooks (state_hooks s) (target_host policy) (inner req) with
      | Matched actions => guarded (Some actions)
      | HookedHostNoMatch =>
          (MitmBlock (blocked_text_response REASON_MITM_HOOK_DENIED), [record REASON_MITM_HOOK_DENIED])
      | NoHooksForHost => guarded None
      end)).

(** A request on its way to the upstream server, and the upgrade it asks for. *)
Record UpstreamRequest : Type := mkUpstream {
  upstream_scheme : Scheme;
  upstream_authority : str;
  upstream_method : str;
  upstream_path : str;
  upstream_headers : list (str * Value);
  upstream_asks : option Value;
}.

(** An answer 101: the protocol it selects, and whether the server's stream can be
    taken over. *)
Record Switching : Type := mkSwitching { selected : option Value; upstream_upgrade : bool }.

(** What the server answers to a request of a tunnel, [None] when it does not
    switch protocols. *)
Context (server_switches : InnerRequest -> UpstreamRequest -> option Switching).

(** The rest of [forward_http_request]: both streams are handed to each other. *)
Definition relays_upgraded (req : InnerRequest) (request : UpstreamRequest) : bool :=
  match server_switches req request with
  | Some switching =>
      match upstream_asks request ≫= header_text, selected switching with
      | Some expected, Some selected =>
          existsb (fun protocol => eq_ignore_ascii_case (trim protocol) (default [] (header_text selected)))
            (split_char COMMA expected)
          && downstream_upgrade req && upstream_upgrade switching
      | _, _ => false
      end
  | None => false
  end.

Definition path_and_query (req : Request Value) : str :=
  match request_query req with
  | Some q => request_path req ++ QUESTION :: q
  | None => if is_empty (request_path req) then $"/" else request_path req
  end.

(** [Err]: the answer given instead. *)
Definition forward_request (view : View) (policy : MitmPolicyContext) (req : InnerRequest)
  : result UpstreamRequest Response * list effect :=
  let failed := Err (text_response 502 ($"mitm upstream error")) in
  let '(decision, fx) := evaluate_mitm_policy view policy req in
  (match decision with
   | MitmFailed => failed
   | MitmBlock response => Err response
   | MitmAllow hook_actions =>
       let scheme := target_scheme policy in
       let path := path_and_query (inner req) in
       let authority := authority_header_value (target_host policy) (target_port policy) scheme in
       if negb (uri_builds (scheme_text scheme) authority path) then failed
       else
         let credential_path := if bool_decide (path = [STAR]) then $"/" else path in
         let destination := scheme_text scheme ++ $"://" ++ authority ++ credential_path in
         let headers := apply_mitm_hook_actions hook_actions
                          (inject_request_credentials destination (request_headers (inner req))) in
         match header_value authority with
         | None => failed
         | Some host =>
             let headers := insert_header HOST host headers in
             Ok (mkUpstream scheme authority (request_method (inner req)) path
                   (if is_http scheme then forwarded_headers headers else headers)
                   (if is_http scheme then requested_upgrade headers else None))
         end
   end, fx).

(** ** Plain requests (http_proxy.rs) *)

(** [unix_supported]: the platform is macOS; [canonicalize] is [std::fs::canonicalize]. *)
Context (unix_supported : bool) (canonicalize : str -> option str).

Definition same_canonical (allowed requested : str) : bool :=
  match canonicalize requested with
  | Some requested => bool_decide (canonicalize allowed = Some requested)
  | None => false
  end.

Definition is_unix_socket_allowed (s : State) (path : str) : bool :=
  if negb unix_supported then false
  else if negb (AbsolutePath.is_absolute path) then false
  else if default false (dangerously_allow_all_unix_sockets (config s)) then true
  else match AbsolutePath.from_absolute_path home_directory current_dir path with
       | Err _ => false
       | Ok requested =>
           existsb (fun allowed =>
             match validated_socket_path home_directory current_dir allowed with
             | Ok (Native allowed) => bool_decide (allowed = requested) || same_canonical allowed requested
             | _ => false
             end) (allow_unix_sockets (config s))
       end.

(** [RequestContext] of rama: the authority of a request, how its host is written,
    its port and the text of both, and whether that is the port of its protocol. *)
Record RequestContext : Type := mkRequestContext {
  ctx_host : TargetHost;
  ctx_port : option N;
  ctx_written : str;
  ctx_effective_port : N;
  ctx_authority : str;
  ctx_has_default_port : bool;
}.

(** [host_header]: the typed [Host] header, [Err] when it cannot be read. *)
Record PlainRequest : Type := mkPlain {
  plain : Request Value;
  plain_scheme : option str;
  plain_context : option RequestContext;
  host_header : result (option (TargetHost * option N)) unit;
}.

Definition validate_absolute_form_host_header (req : PlainRequest) (context : RequestContext)
  : result unit str :=
  if is_none (plain_scheme req) then Ok ()
  else match host_header req with
       | Err _ => Err ($"invalid Host header")
       | Ok None => Ok ()
       | Ok (Some (host, port)) =>
           let mismatch := Err ($"Host header does not match request target") in
           if negb (bool_decide (host = ctx_host context)) then mismatch
           else match port with
                | Some port => if bool_decide (Some port = ctx_port context) then Ok () else mismatch
                | None => if ctx_has_default_port context then Ok () else mismatch
                end
       end.

Inductive PlainOutcome : Type :=
| Answered (response : Response)
| ToSocket (socket_path method path : str) (headers : list (str * Value))
| ToUpstream (request : UpstreamRequest) (env_proxy : bool).

Definition UNIX_SOCKET : str := $"unix-socket".

Definition unix_socket_request (view : View) (client : option str) (method_allowed : bool) (req : PlainRequest)
    (socket_path : str) : PlainOutcome * list effect :=
  let method := request_method (plain req) in
  let block source reason :=
    Audited (block_audit source reason ProtoHttp UNIX_SOCKET 0 (Some method) client) in
  look view 1 (Answered internal_error) (fun s =>
    if negb (enabled (config s))
    then let '(response, fx) := proxy_disabled_response socket_path 0 client (Some method) ProtoHttp
                                  (Some (UNIX_SOCKET, 0%N)) in (Answered response, fx)
    else if negb method_allowed
    then (Answered (json_blocked UNIX_SOCKET REASON_METHOD_NOT_ALLOWED None),
          [block ModeGuard REASON_METHOD_NOT_ALLOWED])
    else if negb unix_supported
    then (Answered (text_response 501 ($"unix sockets unsupported")),
          [block ProxyState REASON_UNIX_SOCKET_UNSUPPORTED])
    else look view 2 (Answered internal_error) (fun s =>
      if is_unix_socket_allowed s socket_path
      then (ToSocket socket_path method (path_and_query (plain req))
              (remove_hop_by_hop_request_headers (remove_header X_UNIX_SOCKET (request_headers (plain req)))),
            [Audited (allow_audit ProxyState ($"allow") ProtoHttp UNIX_SOCKET 0 (Some method) client)])
      else (Answered (json_blocked UNIX_SOCKET REASON_NOT_ALLOWED None), [block ProxyState REASON_NOT_ALLOWED]))).

(** [inject_forward_request_credentials], once the plaintext setting is known. *)
Definition inject_forward_request_credentials (unrestricted_plaintext : bool) (context : RequestContext)
    (req : PlainRequest) : list (str * Value) :=
  let path := path_and_query (plain req) in
  let request_path := if bool_decide (path = [STAR]) then $"/" else path in
  let destination := default ($"http") (plain_scheme req) ++ $"://"
                     ++ ctx_authority context ++ request_path in
  let headers := inject_request_credentials destination (request_headers (plain req)) in
  if unrestricted_plaintext
  then inject_request_credentials (normalize_host (ctx_written context)) headers
  else headers.

Definition http_plain_proxy (view : View) (environment_id client : option str) (req : PlainRequest)
  : PlainOutcome * list effect :=
  let method := request_method (plain req) in
  let respond status text := (Answered (text_response status text), []) in
  look view 0 (Answered internal_error) (fun s =>
    let method_allowed := method_allowed s method in
    match header_values X_UNIX_SOCKET (request_headers (plain req)) with
    | value :: _ =>
        match header_text value with
        | None => respond 400%N ($"invalid x-unix-socket header")
        | Some socket_path => unix_socket_request view client method_allowed req socket_path
        end
    | [] =>
        match plain_context req with
        | None => respond 400%N ($"missing host")
        | Some context =>
            let host := normalize_host (ctx_written context) in
            let port := ctx_effective_port context in
            let refuse reason mode source :=
              (Answered (json_blocked host reason (Some (NetworkDeny, source, ProtoHttp, port))),
               [Audited (block_audit source reason ProtoHttp host port (Some method) client);
                Recorded (blocked_entry host reason client (Some method) mode ($"http")
                            (Some (NetworkDeny, source)) port)]) in
            match validate_absolute_form_host_header req context with
            | Err reason => respond 400%N reason
            | Ok _ =>
                look view 1 (Answered internal_error) (fun s =>
                  if negb (enabled (config s))
                  then let '(response, fx) := proxy_disabled_response host port client (Some method) ProtoHttp None in
                       (Answered response, fx)
                  else
                    let request := mkPolicyRequest ProtoHttp host port environment_id client (Some method)
                                     None None None in
                    look view 2 (Answered internal_error) (fun s =>
                      let '(decision, audit) :=
                        evaluate_host_policy lookup_host s decider own_environment execution_id request in
                      tell [Audited audit]
                      match decision with
                      | DenyRequest reason source d =>
                          (Answered (json_blocked host reason (Some (d, source, ProtoHttp, port))),
                           [Recorded (blocked_entry host reason client (Some method) None ($"http")
                                        (Some (d, source)) port)])
                      | AllowRequest =>
                          look view 3 (Answered internal_error) (fun s =>
                            match host_mitm_requirement s host port with
                            | MitmAlways => refuse REASON_MITM_REQUIRED None ModeGuard
                            | _ =>
                                if negb method_allowed
                                then refuse REASON_METHOD_NOT_ALLOWED (Some Limited) ModeGuard
                                else look view 4 (Answered internal_error) (fun s =>
                                  let headers := inject_forward_request_credentials
                                    (dangerously_allow_plaintext_credential_injection (config s)) context req in
                                  look view 5 (Answered internal_error) (fun s =>
                                    (ToUpstream
                                       (mkUpstream (if bool_decide (plain_scheme req = Some ($"https")) then SchemeHttps else SchemeHttp)
                                          (ctx_authority context) method (path_and_query (plain req))
                                          (remove_hop_by_hop_request_headers headers) None)
                                       (allow_upstream_proxy (config s)), [])))
                            end)
                      end))
            end
        end
    end).

(** ** What leaves the proxy *)

Inductive Traffic : Type :=
| Stream (host : str) (port : N)
| Datagram (host : str) (port : N)
| ToServer (host : str) (port : N) (request : UpstreamRequest)
| Upgraded (host : str) (port : N) (request : UpstreamRequest)
| ToUnixSocket (socket_path method : str).

(** The requests of an intercepted tunnel, each with the states its handler saw,
    and the stream of one after which the server switched protocols: its bytes
    are relayed unchanged. *)
Definition tunnel_traffic (tunnel : Tunnel) (route : Route) (requests : list (View * InnerRequest)) : list Traffic :=
  match route with
  | Forwarded => [Stream (normalize_host (tunnel_host tunnel)) (tunnel_port tunnel)]
  | Intercepted scheme =>
      let policy := mitm_context tunnel scheme in
      flat_map (fun vr =>
        match (forward_request vr.1 policy vr.2).1 with
        | Ok request =>
            ToServer (target_host policy) (target_port policy) request
            :: if is_http scheme && relays_upgraded vr.2 request
               then [Upgraded (target_host policy) (target_port policy) request] else []
        | Err _ => []
        end) requests
  | Dropped _ => []
  end.

Definition connect_traffic (view : View) (environment_id client : option str) (authority : option (str * N))
    (detected : option TunnelProtocol) (requests : list (View * InnerRequest)) : list Traffic :=
  match (http_connect_accept view environment_id client authority).1 with
  | Ok tunnel => tunnel_traffic tunnel (http_connect_proxy tunnel detected) requests
  | Err _ => []
  end.

Definition socks_tunnel (connection : Socks5TcpConnection) (written : str) (port : N) : Tunnel :=
  match connection with
  | SocksDirect => mkTunnel written port Full MitmDisabled None
  | SocksMitm tunnel | SocksDetect tunnel => tunnel
  end.

Definition socks_traffic (view : View) (environment_id client : option str) (written : str) (port : N)
    (detected : option TunnelProtocol) (requests : list (View * InnerRequest)) : list Traffic :=
  match (handle_socks5_tcp view environment_id client written port).1 with
  | Ok connection => tunnel_traffic (socks_tunnel connection written port) (proxy_socks5_tcp connection detected) requests
  | Err _ => []
  end.

Definition udp_traffic (view : View) (environment_id client : option str) (address : str) (port : N) : list Traffic :=
  match (inspect_socks5_udp view environment_id client address port).1 with
  | Ok _ => [Datagram (normalize_host address) port]
  | Err _ => []
  end.

Definition plain_traffic (view : View) (environment_id client : option str) (req : PlainRequest) : list Traffic :=
  match (http_plain_proxy view environment_id client req).1 with
  | ToUpstream request _ =>
      match plain_context req with
      | Some context => [ToServer (normalize_host (ctx_written context)) (ctx_effective_port context) request]
      | None => []
      end
  | ToSocket socket_path method _ _ => [ToUnixSocket socket_path method]
  | Answered _ => []
  end.

End server.
