(* ===== verification/ProxyServerProps.v ===== *)
(** * What leaves the proxy

    Whatever the state does between two looks of a handler, a stream, a datagram
    or a request leaves only when its host was approved; in limited mode only
    requests that read leave; and a host with hooks is reached over HTTP and
    tunnels by requests a hook accepts. *)

From S2P Require Import Prelude RustStr PatchTypes AbsolutePath IpAddr NetworkDecision NetworkHost NetworkConfig MitmHook NetworkConstraints NetworkProxy ProxyServer.

(** Follows a handler's answer to the branch it came from. *)
Ltac follow H :=
  repeat (unfold look, tell in H; cbn [fst snd] in H;
          lazymatch type of H with
          | (match ?x with _ => _ end).1 = _ => destruct x eqn:?; cbn [fst snd] in H; try discriminate H
          end).

Section props.
Context {Json Credentials Value Mitm : Type} `{EqDecision Json, EqDecision Credentials}.
Context `{HostCrates} `{HttpCrates Value}.
Context (home_directory : option str) (current_dir : result str io_error).
Context (lookup_host : str -> N -> option (list IpAddr)).
Context (decider : option (NetworkPolicyRequest -> NetworkDecision)).
Context (own_environment execution_id : option str) (now : Z).
Context (host_protocols : str -> N -> BrokeredProtocols).
Context (parse_authority : str -> option Authority) (uri_builds : str -> str -> str -> bool).
Context (inject_request_credentials : str -> list (str * Value) -> list (str * Value)).
Context (server_switches : @InnerRequest Value -> @UpstreamRequest Value -> option (@Switching Value)).
Context (unix_supported : bool) (canonicalize : str -> option str).
Abbreviation State := (@ConfigState Json Credentials Value Mitm).
Abbreviation View := (nat -> option State).
Abbreviation Tunnel := (@Tunnel Mitm).
Abbreviation accept := (@http_connect_accept Json Credentials Value Mitm _ lookup_host decider own_environment
                          execution_id now host_protocols).
Abbreviation socks := (@handle_socks5_tcp Json Credentials Value Mitm _ lookup_host decider own_environment
                         execution_id now host_protocols).
Abbreviation udp := (@inspect_socks5_udp Json Credentials Value Mitm _ lookup_host decider own_environment
                       execution_id now).
Abbreviation plain_proxy := (@http_plain_proxy Json Credentials Value Mitm _ _ home_directory current_dir lookup_host
                               decider own_environment execution_id now host_protocols inject_request_credentials
                               unix_supported canonicalize).
Abbreviation inner_policy := (@evaluate_mitm_policy Json Credentials Value Mitm _ _ lookup_host now parse_authority).
Abbreviation forward := (@forward_request Json Credentials Value Mitm _ _ lookup_host now parse_authority uri_builds
                           inject_request_credentials).

(** The host is on the list, or the decider was asked about it and agreed. *)
Definition allowed_by (s : State) (host : str) (port : N) : Prop :=
  host_blocked lookup_host s host port = Allowed
  \/ (host_blocked lookup_host s host port = Blocked NotAllowed
      /\ exists decide request, decider = Some decide /\ policy_host request = host
         /\ policy_port request = port /\ decide request = AllowRequest).

(** Among the states a handler saw there was one that was enabled and one that
    allowed the host. *)
Definition approved (view : View) (host : str) (port : N) : Prop :=
  (exists k s, view k = Some s /\ enabled (config s) = true)
  /\ exists k s, view k = Some s /\ allowed_by s host port.

Lemma evaluate_allows s request audit :
  evaluate_host_policy lookup_host s decider own_environment execution_id request = (AllowRequest, audit) ->
  allowed_by s (policy_host request) (policy_port request).
Proof.
  unfold evaluate_host_policy, allowed_by.
  destruct (host_blocked _ _ _ _) as [|[]]; try (by intros [=]); [intros _; by left|].
  destruct decider as [decide|]; [|done].
  destruct (decide _) eqn:Ed; [|done]. intros _. right. split; [done|]. exists decide. eexists.
  split; [done|]. split; [|split; [|exact Ed]]; done.
Qed.

Lemma approved_intro view k s k' s' request audit :
  view k = Some s -> negb (enabled (config s)) = false -> view k' = Some s' ->
  evaluate_host_policy lookup_host s' decider own_environment execution_id request = (AllowRequest, audit) ->
  approved view (policy_host request) (policy_port request).
Proof.
  intros Hk He%negb_false_iff Hk' Ha. split; [by exists k, s|]. exists k', s'. split; [done|].
  exact (evaluate_allows _ _ _ Ha).
Qed.

Ltac approve :=
  match goal with
  | Hv : ?view ?k = Some ?s, He : negb (enabled (config ?s)) = false, Hv' : ?view ?k' = Some ?s',
    Ha : evaluate_host_policy _ ?s' _ _ _ ?r = (AllowRequest, _) |- approved ?view _ _ =>
      exact (approved_intro view k s k' s' r _ Hv He Hv' Ha)
  end.

(** ** What the handlers let through *)

Lemma accept_ok view environment_id client authority tunnel :
  (accept view environment_id client authority).1 = Ok tunnel ->
  approved view (normalize_host (tunnel_host tunnel)) (tunnel_port tunnel)
  /\ exists s s', view 2 = Some s /\ view 4 = Some s' /\ tunnel_mode tunnel = mode (config s)
  /\ tunnel_mitm_mode tunnel = mitm_mode (mode (config s))
       (host_mitm_requirement host_protocols s' (normalize_host (tunnel_host tunnel)) (tunnel_port tunnel)).
Proof.
  intros Hok. unfold http_connect_accept in Hok. follow Hok. subst. injection Hok as <-. cbn.
  split; [approve|]. do 2 eexists. by repeat split.
Qed.

Lemma socks_ok view environment_id client written port connection :
  (socks view environment_id client written port).1 = Ok connection ->
  approved view (normalize_host written) port
  /\ exists s s', view 1 = Some s /\ view 2 = Some s'
     /\ let mm := mitm_mode (mode (config s))
                    (host_mitm_requirement host_protocols s' (normalize_host written) port) in
        let tunnel := socks_tunnel connection written port in
        tunnel_host tunnel = written /\ tunnel_port tunnel = port
        /\ match connection with
           | SocksDirect => mm = MitmDisabled
           | SocksMitm tunnel => mm = MitmEnabled /\ tunnel_mode tunnel = mode (config s)
           | SocksDetect tunnel => (exists p, mm = DetectProtocol p) /\ tunnel_mode tunnel = mode (config s)
           end.
Proof.
  intros Hok. unfold handle_socks5_tcp in Hok. follow Hok. subst. injection Hok as <-.
  split; [approve|]. do 2 eexists. split; [done|]. split; [done|]. cbn.
  match goal with E : orb _ (negb (relays_bytes ?m) && is_none ?st) = false |- _ =>
    apply orb_false_elim in E as [_ E]; destruct m, st; try discriminate E end;
    cbn; eauto 6.
Qed.

Lemma udp_ok view environment_id client address port u :
  (udp view environment_id client address port).1 = Ok u ->
  approved view (normalize_host address) port /\ exists s, view 1 = Some s /\ mode (config s) <> Limited.
Proof.
  intros Hok. unfold inspect_socks5_udp in Hok. follow Hok. subst.
  split; [approve|]. eexists. split; [done|]. by case_bool_decide.
Qed.

Abbreviation unix_request := (@unix_socket_request Json Credentials Value Mitm _ home_directory current_dir now
                                unix_supported canonicalize).

Lemma unix_request_ok view client allowed req socket_path r :
  (unix_request view client allowed req socket_path).1 = r ->
  match r with
  | Answered _ => True
  | ToUpstream _ _ => False
  | ToSocket path method _ _ =>
      path = socket_path /\ method = request_method (plain req) /\ allowed = true
      /\ (exists s, view 1 = Some s /\ enabled (config s) = true)
      /\ exists s, view 2 = Some s
         /\ is_unix_socket_allowed home_directory current_dir unix_supported canonicalize s path = true
  end.
Proof.
  intros <-. unfold unix_socket_request, look. destruct (view 1) as [s1|]; [|done].
  destruct (enabled (config s1)) eqn:He; [cbn [negb]|done]. destruct allowed; [cbn [negb]|done].
  destruct (negb unix_supported); [done|]. destruct (view 2) as [s2|]; [|done].
  destruct (is_unix_socket_allowed _ _ _ _ s2 socket_path) eqn:Ea; [|done]. cbn. eauto 10.
Qed.

Lemma plain_ok view environment_id client req request env_proxy :
  (plain_proxy view environment_id client req).1 = ToUpstream request env_proxy ->
  exists context s s', plain_context req = Some context
  /\ approved view (normalize_host (ctx_written context)) (ctx_effective_port context)
  /\ view 0 = Some s /\ allows_method (mode (config s)) (upstream_method request) = true
  /\ view 3 = Some s'
  /\ host_mitm_requirement host_protocols s' (normalize_host (ctx_written context)) (ctx_effective_port context)
     <> MitmAlways.
Proof.
  intros Hok. unfold http_plain_proxy in Hok. follow Hok; subst;
    [| |by apply unix_request_ok in Hok]; injection Hok as <- _; do 3 eexists;
    (split; [done|]; split; [approve|]; split; [done|]; split; [by apply negb_false_iff|]; split; [done|congruence]).
Qed.

Lemma plain_socket_ok view environment_id client req path method p headers :
  (plain_proxy view environment_id client req).1 = ToSocket path method p headers ->
  (exists s, view 0 = Some s /\ allows_method (mode (config s)) method = true)
  /\ (exists s, view 1 = Some s /\ enabled (config s) = true)
  /\ exists s, view 2 = Some s
     /\ is_unix_socket_allowed home_directory current_dir unix_supported canonicalize s path = true.
Proof.
  intros Hok. unfold http_plain_proxy in Hok. follow Hok; subst. apply unix_request_ok in Hok.
  destruct Hok as (-> & -> & Hm & He & Ha). split; [by eexists|]. by split.
Qed.

Lemma inner_ok view policy req actions :
  (inner_policy view policy req).1 = MitmAllow actions ->
  request_method (inner req) <> CONNECT
  /\ allows_method (target_mode policy) (request_method (inner req)) = true
  /\ (is_http (target_scheme policy) = true -> target_mode policy = Limited ->
      header_values UPGRADE (request_headers (inner req)) = [])
  /\ (exists s, view 0 = Some s
        /\ host_blocked lookup_host s (target_host policy) (target_port policy) <> Blocked NotAllowedLocal)
  /\ exists s, view 1 = Some s
     /\ evaluate_mitm_hooks (state_hooks s) (target_host policy) (inner req)
        = match actions with Some a => Matched a | None => NoHooksForHost end.
Proof.
  intros Hok. unfold evaluate_mitm_policy in Hok. follow Hok; injection Hok as <-;
    repeat match goal with E : bool_decide _ = false |- _ => apply bool_decide_eq_false in E end;
    match goal with E : orb (negb _) _ = false |- _ => apply orb_false_elim in E as [E%negb_false_iff Hup] end;
    (split; [done|split; [done|split; [|by eauto 10]]]); intros Hs Hmode;
    rewrite Hs, (bool_decide_eq_true_2 _ Hmode) in Hup; by destruct (header_values UPGRADE _).
Qed.

Lemma forward_ok view policy req r :
  (forward view policy req).1 = Ok r ->
  upstream_method r = request_method (inner req)
  /\ exists actions, (inner_policy view policy req).1 = MitmAllow actions.
Proof.
  intros Hok. unfold forward_request in Hok.
  destruct (inner_policy view policy req) as [decision fx]. cbn in Hok. destruct decision as [actions| |]; try done.
  destruct (negb _); [done|]. destruct (header_value _); [|done]. injection Hok as <-. cbn. eauto.
Qed.

(** ** Traffic *)

Abbreviation tunnel_traffic := (@tunnel_traffic Json Credentials Value Mitm _ _ lookup_host now parse_authority
                                  uri_builds inject_request_credentials server_switches).
Abbreviation connect_traffic := (@connect_traffic Json Credentials Value Mitm _ _ lookup_host decider own_environment
                                   execution_id now host_protocols parse_authority uri_builds
                                   inject_request_credentials server_switches).
Abbreviation socks_traffic := (@socks_traffic Json Credentials Value Mitm _ _ lookup_host decider own_environment
                                 execution_id now host_protocols parse_authority uri_builds
                                 inject_request_credentials server_switches).
Abbreviation udp_traffic := (@udp_traffic Json Credentials Value Mitm _ lookup_host decider own_environment
                               execution_id now).
Abbreviation plain_traffic := (@plain_traffic Json Credentials Value Mitm _ _ home_directory current_dir lookup_host
                                 decider own_environment execution_id now host_protocols inject_request_credentials
                                 unix_supported canonicalize).
Abbreviation relays := (relays_upgraded server_switches).
Abbreviation Requests := (list (View * @InnerRequest Value)).

Lemma mitm_mode_limited r : mitm_mode Limited r <> MitmDisabled.
Proof. unfold mitm_mode. rewrite bool_decide_eq_true_2 by done. by destruct r as [|[t []]|]. Qed.

Lemma mitm_mode_always m : mitm_mode m MitmAlways = MitmEnabled.
Proof. by destruct m. Qed.

(** What a request that is forwarded sends: itself, and the stream it is
    upgraded to. *)
Definition sends (scheme : Scheme) (req : @InnerRequest Value) r host port (t : @Traffic Value) : Prop :=
  t = ToServer host port r \/ (scheme = SchemeHttp /\ relays req r = true /\ t = Upgraded host port r).

Lemma tunnel_traffic_in tunnel route (requests : Requests) t :
  In t (tunnel_traffic tunnel route requests) ->
  match route with
  | Forwarded => t = Stream (normalize_host (tunnel_host tunnel)) (tunnel_port tunnel)
  | Intercepted scheme =>
      exists v req r, In (v, req) requests /\ (forward v (mitm_context tunnel scheme) req).1 = Ok r
        /\ sends scheme req r (normalize_host (tunnel_host tunnel)) (tunnel_port tunnel) t
  | Dropped _ => False
  end.
Proof.
  destruct route as [|scheme|]; cbn; [by intros [<-|[]]| |done].
  rewrite in_flat_map. intros ([v req] & Hin & Ht). cbn in Ht.
  destruct (forward v _ req).1 as [r|] eqn:E; [|done]. exists v, req, r. split; [done|]. split; [done|].
  destruct Ht as [<-|Ht]; [by left|]. right. destruct scheme; [|done]. cbn in Ht.
  destruct (relays req r); [|done]. by destruct Ht as [<-|[]].
Qed.

Lemma connect_forwards tunnel detected : http_connect_proxy (Mitm := Mitm) tunnel detected = Forwarded ->
  tunnel_mitm_mode tunnel <> MitmEnabled
  /\ (tunnel_mitm_mode tunnel = MitmDisabled \/ tunnel_mode tunnel <> Limited).
Proof.
  unfold http_connect_proxy. destruct (tunnel_mitm_mode tunnel) as [| |p].
  - by auto.
  - unfold mitm_connect_tunnel. by destruct (is_none _).
  - intros E. split; [done|right]. revert E. destruct detected as [[]|]; try done.
    + unfold mitm_connect_tunnel. by destruct (is_none _).
    + unfold mitm_plain_tunnel. by destruct (is_none _).
    + by case_bool_decide.
Qed.

(** A tunnel's bytes are relayed as they are, or its requests are inspected one by
    one with the mode the tunnel was opened in. *)
Lemma connect_in view environment_id client authority detected (requests : Requests) t :
  In t (connect_traffic view environment_id client authority detected requests) ->
  exists tunnel, (accept view environment_id client authority).1 = Ok tunnel
  /\ ((t = Stream (normalize_host (tunnel_host tunnel)) (tunnel_port tunnel)
       /\ http_connect_proxy tunnel detected = Forwarded)
      \/ exists scheme v req r, In (v, req) requests /\ (forward v (mitm_context tunnel scheme) req).1 = Ok r
         /\ sends scheme req r (normalize_host (tunnel_host tunnel)) (tunnel_port tunnel) t
         /\ (tunnel_mitm_mode tunnel = MitmEnabled -> scheme = SchemeHttps)).
Proof.
  unfold ProxyServer.connect_traffic. destruct (accept _ _ _ _).1 as [tunnel|] eqn:E; [|done].
  intros Hin%tunnel_traffic_in. exists tunnel. split; [done|].
  destruct (http_connect_proxy tunnel detected) as [|scheme|] eqn:Er; [by left| |done]. right.
  destruct Hin as (v & req & r & ? & ? & ?). exists scheme, v, req, r. split_and!; try done.
  intros Em. unfold http_connect_proxy, mitm_connect_tunnel in Er. rewrite Em in Er.
  destruct (is_none _); [done|]. by injection Er as <-.
Qed.

Lemma socks_in view environment_id client written port detected (requests : Requests) t :
  In t (socks_traffic view environment_id client written port detected requests) ->
  exists connection, (socks view environment_id client written port).1 = Ok connection
  /\ ((t = Stream (normalize_host written) port
       /\ match connection with
          | SocksDirect => True | SocksMitm _ => False | SocksDetect tunnel => tunnel_mode tunnel <> Limited end)
      \/ exists scheme v req r, In (v, req) requests
         /\ (forward v (mitm_context (socks_tunnel connection written port) scheme) req).1 = Ok r
         /\ connection <> SocksDirect /\ sends scheme req r (normalize_host written) port t
         /\ match connection with SocksMitm _ => scheme = SchemeHttps | _ => True end).
Proof.
  unfold ProxyServer.socks_traffic. destruct (socks _ _ _ _ _).1 as [connection|] eqn:E; [|done].
  intros Hin%tunnel_traffic_in. exists connection. split; [done|].
  destruct (socks_ok _ _ _ _ _ _ E) as (_ & s & s' & _ & _ & Hh & Hp & _). rewrite Hh, Hp in Hin.
  destruct connection as [|tunnel|tunnel]; cbn [proxy_socks5_tcp] in Hin; [by left| |].
  - right. destruct Hin as (v & req & r & ?). by exists SchemeHttps, v, req, r; naive_solver.
  - destruct detected as [[]|]; try done.
    + right. destruct Hin as (v & req & r & ?). by exists SchemeHttps, v, req, r; naive_solver.
    + right. destruct Hin as (v & req & r & ?). by exists SchemeHttp, v, req, r; naive_solver.
    + case_bool_decide; [done|]. by left.
Qed.

(** A socket the settings permit: its path is absolute, and they permit all
    sockets, or list one that is the same path, normalised or once links are
    followed. *)
Definition socket_permitted (s : State) (path : str) : Prop :=
  unix_supported = true /\ AbsolutePath.is_absolute path = true
  /\ (dangerously_allow_all_unix_sockets (config s) = Some true
      \/ exists requested written listed,
           AbsolutePath.from_absolute_path home_directory current_dir path = Ok requested
           /\ In written (allow_unix_sockets (config s))
           /\ validated_socket_path home_directory current_dir written = Ok (Native listed)
           /\ (listed = requested
               \/ exists target, canonicalize requested = Some target /\ canonicalize listed = Some target)).

Lemma socket_allowed_permitted s path :
  is_unix_socket_allowed home_directory current_dir unix_supported canonicalize s path = true ->
  socket_permitted s path.
Proof.
  unfold is_unix_socket_allowed, socket_permitted. destruct unix_supported; [cbn [negb]|done].
  destruct (AbsolutePath.is_absolute path); [cbn [negb]|done].
  destruct (dangerously_allow_all_unix_sockets (config s)) as [[]|]; cbn [default from_option]; [by auto| |];
    (destruct (AbsolutePath.from_absolute_path _ _ path) as [requested|]; [|done]);
    intros (written & Hin & Hw)%existsb_exists; (split; [done|split; [done|right]]);
    (destruct (validated_socket_path _ _ written) as [[listed|]|] eqn:Ev; try done);
    exists requested, written, listed; (split; [done|split; [done|split; [done|]]]);
    (apply orb_prop in Hw as [Hw%bool_decide_eq_true|Hw]; [by left|right]);
    unfold same_canonical in Hw; (destruct (canonicalize requested) as [target|]; [|done]);
    exists target; (split; [done|]); by apply bool_decide_eq_true in Hw.
Qed.

(** What the states seen say about a piece of traffic. *)
Definition approved_traffic (view : View) (t : @Traffic Value) : Prop :=
  match t with
  | Stream host port | Datagram host port | ToServer host port _ | Upgraded host port _ => approved view host port
  | ToUnixSocket path _ =>
      (exists k s, view k = Some s /\ enabled (config s) = true)
      /\ exists k s, view k = Some s /\ socket_permitted s path
  end.

(** The name of the host did not resolve to the local network when the request came. *)
Definition checked_again (requests : Requests) (t : @Traffic Value) : Prop :=
  match t with
  | ToServer host port r | Upgraded host port r =>
      exists v req s, In (v, req) requests /\ upstream_method r = request_method (inner req) /\ v 0 = Some s
      /\ host_blocked lookup_host s host port <> Blocked NotAllowedLocal
  | _ => True
  end.

Lemma forward_checked (requests : Requests) (tunnel : Tunnel) scheme v req r :
  In (v, req) requests -> (forward v (mitm_context tunnel scheme) req).1 = Ok r ->
  (forall t, sends scheme req r (normalize_host (tunnel_host tunnel)) (tunnel_port tunnel) t -> checked_again requests t)
  /\ allows_method (tunnel_mode tunnel) (upstream_method r) = true
  /\ exists s, v 1 = Some s
     /\ evaluate_mitm_hooks (state_hooks s) (normalize_host (tunnel_host tunnel)) (inner req) <> HookedHostNoMatch.
Proof.
  intros Hin (Hm & actions & Ha)%forward_ok. destruct (inner_ok _ _ _ _ Ha) as (_ & Hal & _ & (s & Hs & Hb) & s' & Hs' & He).
  rewrite Hm. split; [by intros t [->|(_ & _ & ->)]; exists v, req, s|]. split; [done|]. exists s'. split; [done|].
  cbn in He. rewrite He. by destruct actions.
Qed.

(** C3: Whatever happens between two looks of a handler, a stream, a datagram or a
    request leaves the proxy only when one of the states its handler saw was
    enabled and one allowed the host, or the decider did; a stream after an
    upgrade only after such a request; a socket only when its path is absolute
    and the settings list it, or permit all sockets; and a request inside a
    tunnel only when the host was, once more, found not to be on the local
    network. *)
Theorem only_approved_traffic view environment_id client :
  (forall authority detected (requests : Requests) t,
     In t (connect_traffic view environment_id client authority detected requests) ->
     approved_traffic view t /\ checked_again requests t)
  /\ (forall written port detected (requests : Requests) t,
     In t (socks_traffic view environment_id client written port detected requests) ->
     approved_traffic view t /\ checked_again requests t)
  /\ (forall address port t, In t (udp_traffic view environment_id client address port) -> approved_traffic view t)
  /\ (forall req t, In t (plain_traffic view environment_id client req) -> approved_traffic view t).
Proof.
  split; [|split; [|split]].
  - intros * (tunnel & Hok & Ht)%connect_in. apply accept_ok in Hok as [Ha _].
    destruct Ht as [[-> _]|(scheme & v & req & r & Hin & Hf & Hs & _)]; [done|].
    destruct (forward_checked requests tunnel scheme v req r Hin Hf) as [Hc _].
    split; [by destruct Hs as [->|(_ & _ & ->)]|by apply Hc].
  - intros * (c & Hok & Ht)%socks_in. apply socks_ok in Hok as (Ha & s & s' & _ & _ & Hh & Hp & _).
    destruct Ht as [[-> _]|(scheme & v & req & r & Hin & Hf & _ & Hs & _)]; [done|].
    destruct (forward_checked requests _ scheme v req r Hin Hf) as [Hc _]. rewrite Hh, Hp in Hc.
    split; [by destruct Hs as [->|(_ & _ & ->)]|by apply Hc].
  - intros * Hin. unfold ProxyServer.udp_traffic in Hin.
    destruct (udp _ _ _ _ _).1 eqn:E; [|done]. apply udp_ok in E as [Ha _]. by destruct Hin as [<-|[]].
  - intros * Hin. unfold ProxyServer.plain_traffic in Hin.
    destruct (plain_proxy _ _ _ _).1 as [|path method p headers|request env_proxy] eqn:E; [done| |].
    + apply plain_socket_ok in E as (_ & (s & ?) & s' & ? & Hs). destruct Hin as [<-|[]].
      split; [by exists 1, s|]. exists 2, s'. split; [done|]. by apply socket_allowed_permitted.
    + apply plain_ok in E as (context & s & s' & Ec & Ha & _). rewrite Ec in Hin. by destruct Hin as [<-|[]].
Qed.

Definition reads_only (t : @Traffic Value) : Prop :=
  match t with
  | ToServer _ _ r => In (upstream_method r) [$"GET"; $"HEAD"; $"OPTIONS"]
  | ToUnixSocket _ method => In method [$"GET"; $"HEAD"; $"OPTIONS"]
  | Stream _ _ | Datagram _ _ | Upgraded _ _ _ => False
  end.

Lemma limited_methods method : allows_method Limited method = true -> In method [$"GET"; $"HEAD"; $"OPTIONS"].
Proof.
  cbn [allows_method]. unfold one_of. rewrite existsb_exists. intros (m & Hm & ->%bool_decide_eq_true). done.
Qed.

(** The HTTP server can hand over a client's stream only when the request asked
    to be upgraded, as hyper documents [OnUpgrade]. *)
Definition upgrades_asked (requests : Requests) : Prop :=
  forall v req, In (v, req) requests -> downstream_upgrade req = true ->
  header_values UPGRADE (request_headers (inner req)) <> [].

Lemma forward_limited (requests : Requests) (tunnel : Tunnel) scheme v req r host port t :
  upgrades_asked requests -> tunnel_mode tunnel = Limited ->
  In (v, req) requests -> (forward v (mitm_context tunnel scheme) req).1 = Ok r ->
  sends scheme req r host port t -> reads_only t.
Proof.
  intros Hup Hm Hin Hf Hs. pose proof (forward_checked requests tunnel scheme v req r Hin Hf) as (_ & Ha & _).
  rewrite Hm in Ha. apply limited_methods in Ha. destruct Hs as [->|(-> & Hr & ->)]; [done|].
  apply forward_ok in Hf as (_ & actions & Hi). apply inner_ok in Hi as (_ & _ & Hnone & _).
  specialize (Hnone eq_refl Hm). unfold relays_upgraded in Hr.
  destruct (server_switches req r) as [sw|]; [|done]. destruct (upstream_asks r ≫= header_text); [|done].
  destruct (selected sw); [|done]. apply andb_prop in Hr as [[_ Hr]%andb_prop _]. by destruct (Hup v req Hin Hr).
Qed.

(** C6: In limited mode only requests with the methods GET, HEAD and OPTIONS leave
    the proxy, over HTTP, inside CONNECT and SOCKS tunnels and to sockets; no
    bytes are relayed that were not inspected, whatever protocol a tunnel speaks:
    no request is upgraded to a stream, provided that the HTTP server hands over
    only streams whose request asked for it; and the requests of a tunnel stay
    limited when the mode changes afterwards. *)
Theorem limited_mode_reads_only view environment_id client :
  (forall k s, view k = Some s -> mode (config s) = Limited) ->
  (forall authority detected (requests : Requests) t,
     upgrades_asked requests ->
     In t (connect_traffic view environment_id client authority detected requests) -> reads_only t)
  /\ (forall written port detected (requests : Requests) t,
     upgrades_asked requests ->
     In t (socks_traffic view environment_id client written port detected requests) -> reads_only t)
  /\ (forall address port, udp_traffic view environment_id client address port = [])
  /\ (forall req t, In t (plain_traffic view environment_id client req) -> reads_only t).
Proof.
  intros Hl. split; [|split; [|split]].
  - intros * Hup (tunnel & Hok & Ht)%connect_in. apply accept_ok in Hok as (_ & s & s' & Hs & _ & Hm & Hmm).
    rewrite (Hl _ _ Hs) in Hm, Hmm.
    destruct Ht as [[-> [_ [Hd|Hn]]%connect_forwards]|(scheme & v & req & r & Hin & Hf & Ht & _)]; [| |].
    + rewrite Hd in Hmm. by destruct (mitm_mode_limited _ (eq_sym Hmm)).
    + by destruct Hn.
    + by eapply forward_limited.
  - intros * Hup (c & Hok & Ht)%socks_in. apply socks_ok in Hok as (_ & s & s' & Hs & _ & Hh & Hp & Hc).
    rewrite (Hl _ _ Hs) in Hc.
    destruct Ht as [[-> Hd]|(scheme & v & req & r & Hin & Hf & Hne & Ht & _)].
    + destruct c as [| |tunnel]; [by destruct (mitm_mode_limited _ Hc)|done|]. by destruct Hc as [_ Hc].
    + eapply forward_limited; [exact Hup| |exact Hin|exact Hf|exact Ht].
      destruct c as [|tunnel|tunnel]; [done| |]; by destruct Hc as [_ Hc].
  - intros *. unfold ProxyServer.udp_traffic. destruct (udp _ _ _ _ _).1 eqn:E; [|done].
    apply udp_ok in E as (_ & s & Hs & Hn). by destruct (Hn (Hl _ _ Hs)).
  - intros * Hin. unfold ProxyServer.plain_traffic in Hin.
    destruct (plain_proxy _ _ _ _).1 as [|path method p headers|request env_proxy] eqn:E; [done| |].
    + apply plain_socket_ok in E as ((s & Hs & Ha) & _). rewrite (Hl _ _ Hs) in Ha.
      destruct Hin as [<-|[]]. by apply limited_methods.
    + apply plain_ok in E as (context & s & s' & Ec & _ & Hs & Ha & _). rewrite (Hl _ _ Hs) in Ha.
      rewrite Ec in Hin. destruct Hin as [<-|[]]. by apply limited_methods.
Qed.

(** Every state seen has hooks for the host. *)
Definition hooked (view : View) (host : str) : Prop :=
  forall k s, view k = Some s -> is_Some (state_hooks s !! normalize_host host).

Lemma hooked_always view host s k port : hooked view host -> view k = Some s ->
  host_mitm_requirement host_protocols s host port = MitmAlways.
Proof. intros Hh Hs. unfold host_mitm_requirement. by destruct (Hh _ _ Hs) as [l ->]. Qed.

(** A request that some hook of its host accepted. *)
Definition hook_accepted (requests : Requests) (host : str) (port : N) (t : @Traffic Value) : Prop :=
  exists v req r s actions, In (v, req) requests /\ t = ToServer host port r
  /\ upstream_method r = request_method (inner req) /\ v 1 = Some s
  /\ evaluate_mitm_hooks (state_hooks s) host (inner req) = Matched actions.

Lemma forward_hooked (requests : Requests) (tunnel : Tunnel) scheme v req r :
  (forall v req, In (v, req) requests -> hooked v (normalize_host (tunnel_host tunnel))) ->
  In (v, req) requests -> (forward v (mitm_context tunnel scheme) req).1 = Ok r ->
  hook_accepted requests (normalize_host (tunnel_host tunnel)) (tunnel_port tunnel)
    (ToServer (normalize_host (tunnel_host tunnel)) (tunnel_port tunnel) r).
Proof.
  intros Hh Hin (Hm & actions & Ha)%forward_ok. destruct (inner_ok _ _ _ _ Ha) as (_ & _ & _ & _ & s & Hs & He).
  destruct actions as [actions|]; [by exists v, req, r, s, actions|].
  unfold evaluate_mitm_hooks in He. cbn in He. destruct (Hh _ _ Hin _ _ Hs) as [l El]. rewrite El in He.
  by destruct (List.find _ l).
Qed.


(** ** Refusals *)

Definition recorded (fx : list effect) : list BlockedRequest :=
  omap (fun e => match e with Recorded entry => Some entry | Audited _ => None end) fx.

(** [Some reason]: refused for a reason of the policy. *)
Definition is_refusal (r : Response) : bool := (status r =? 403)%N || (status r =? 503)%N.

Definition recorded_once (host : str) (port : N) (refused : bool) (fx : list effect) : Prop :=
  match recorded fx with
  | [] => refused = false
  | [entry] => refused = true /\ blocked_host entry = host /\ blocked_port entry = Some port
  | _ => False
  end.

Definition refused {A E} (is_policy : E -> bool) (r : result A E) : bool :=
  match r with Ok _ => false | Err e => is_policy e end.

Definition socks_refusal (e : SocksError) : bool := match e with PolicyDenied _ => true | _ => false end.

Ltac branches :=
  repeat (unfold proxy_disabled_response, look, tell; cbn [fst snd default from_option];
          match goal with
          | |- context [match ?x with _ => _ end] =>
              lazymatch x with
              | context [match _ with _ => _ end] => fail
              | _ => destruct x eqn:?
              end
          end).

Lemma connect_refusals view environment_id client written port :
  let answer := accept view environment_id client (Some (written, port)) in
  recorded_once (normalize_host written) port (refused is_refusal answer.1) answer.2.
Proof.
  cbn zeta. unfold http_connect_accept. branches; by cbn.
Qed.

Lemma socks_refusals view environment_id client written port :
  let answer := socks view environment_id client written port in
  recorded_once (normalize_host written) port (refused socks_refusal answer.1) answer.2.
Proof. cbn zeta. unfold handle_socks5_tcp, socks_refused. branches; by cbn. Qed.

Lemma udp_refusals view environment_id client address port :
  let answer := udp view environment_id client address port in
  recorded_once (normalize_host address) port (refused socks_refusal answer.1) answer.2.
Proof. cbn zeta. unfold inspect_socks5_udp, socks_refused. branches; by cbn. Qed.

Lemma inner_refusals view policy req :
  let answer := inner_policy view policy req in
  recorded_once (target_host policy) (target_port policy)
    (match answer.1 with MitmBlock r => is_refusal r | _ => false end) answer.2.
Proof. cbn zeta. unfold evaluate_mitm_policy. branches; by cbn. Qed.

Lemma plain_refusals view environment_id client req context :
  plain_context req = Some context -> header_values X_UNIX_SOCKET (request_headers (plain req)) = [] ->
  let answer := plain_proxy view environment_id client req in
  recorded_once (normalize_host (ctx_written context)) (ctx_effective_port context)
    (match answer.1 with Answered r => is_refusal r | _ => false end) answer.2.
Proof.
  intros Ec Eh. cbn zeta. unfold http_plain_proxy. rewrite Ec, Eh. branches; by cbn.
Qed.

(** A request the policy refuses is recorded once, under its host and port, by
    every handler; what passes, and what fails for another reason, is not. *)
Theorem refusals_are_recorded view environment_id client :
  (forall written port, let answer := accept view environment_id client (Some (written, port)) in
     recorded_once (normalize_host written) port (refused is_refusal answer.1) answer.2)
  /\ (forall written port, let answer := socks view environment_id client written port in
     recorded_once (normalize_host written) port (refused socks_refusal answer.1) answer.2)
  /\ (forall address port, let answer := udp view environment_id client address port in
     recorded_once (normalize_host address) port (refused socks_refusal answer.1) answer.2)
  /\ (forall policy req, let answer := inner_policy view policy req in
     recorded_once (target_host policy) (target_port policy)
       (match answer.1 with MitmBlock r => is_refusal r | _ => false end) answer.2)
  /\ (forall req context, plain_context req = Some context ->
     header_values X_UNIX_SOCKET (request_headers (plain req)) = [] ->
     let answer := plain_proxy view environment_id client req in
     recorded_once (normalize_host (ctx_written context)) (ctx_effective_port context)
       (match answer.1 with Answered r => is_refusal r | _ => false end) answer.2).
Proof.
  split; [|split; [|split; [|split]]]; intros.
  - apply connect_refusals.
  - apply socks_refusals.
  - apply udp_refusals.
  - apply inner_refusals.
  - by apply plain_refusals.
Qed.

End props.

(** ** Headers of one hop *)

Section hops.
Context {Value : Type} `{HttpCrates Value}.
Implicit Types headers : list (str * Value).

Lemma header_values_remove name name' headers :
  header_values name (remove_header name' headers)
  = if bool_decide (name = name') then [] else header_values name headers.
Proof.
  unfold header_values, remove_header. induction headers as [|[n v] headers IH]; cbn.
  { by case_bool_decide. }
  destruct (decide (n = name')) as [->|Hne].
  - rewrite (bool_decide_eq_true_2 (name' = name')) by done. cbn. rewrite IH. case_bool_decide as E; [done|].
    by rewrite bool_decide_eq_false_2 by congruence.
  - rewrite (bool_decide_eq_false_2 (n = name')) by done. cbn.
    destruct (decide (n = name)) as [->|Hn].
    + rewrite (bool_decide_eq_true_2 (name = name)) by done. cbn. rewrite IH.
      by rewrite bool_decide_eq_false_2.
    + by rewrite (bool_decide_eq_false_2 (n = name)) by done.
Qed.

Lemma header_values_removes name names : forall headers,
  header_values name (remove_headers names headers)
  = if one_of name names then [] else header_values name headers.
Proof.
  induction names as [|n names IH]; intros headers; [done|].
  change (remove_headers (n :: names) headers) with (remove_headers names (remove_header n headers)).
  rewrite IH, header_values_remove. unfold one_of. cbn [existsb].
  by case_bool_decide; destruct (existsb _ names).
Qed.

(** What is removed: the headers of one hop, and those the first [Connection]
    header lists. *)
Definition hop_names (headers : list (str * Value)) : list str :=
  match header_values CONNECTION headers with
  | [] => []
  | raw_connection :: _ => CONNECTION :: connection_headers raw_connection
  end ++ HOP_BY_HOP.

Lemma hop_by_hop_removed name headers :
  header_values name (remove_hop_by_hop_request_headers headers)
  = if one_of name (hop_names headers) then [] else header_values name headers.
Proof.
  unfold remove_hop_by_hop_request_headers, hop_names. rewrite header_values_removes.
  assert (Eo : forall l, one_of name (l ++ HOP_BY_HOP) = one_of name l || one_of name HOP_BY_HOP)
    by (intros l; apply existsb_app).
  rewrite Eo. destruct (one_of name HOP_BY_HOP) eqn:Eh; [by rewrite orb_true_r|]. rewrite orb_false_r.
  cbn [remove_connection]. destruct (header_values CONNECTION headers) as [|raw rest]; [done|].
  rewrite header_values_removes, header_values_remove, bool_decide_eq_true_2 by done.
  assert (E : header_values name (remove_headers (connection_headers raw) (remove_header CONNECTION headers))
              = if one_of name (CONNECTION :: connection_headers raw) then [] else header_values name headers).
  { rewrite header_values_removes, header_values_remove. unfold one_of. cbn [existsb].
    by case_bool_decide; destruct (existsb _ (connection_headers raw)). }
  destruct (one_of CONNECTION _); exact E.
Qed.

End hops.
