(* ===== verification/NetworkSpec.v ===== *)
(** * The proxy settings of a session (core/src/config/network_proxy_spec.rs,
    network-proxy/src/environment_policy.rs and the network part of
    config/src/config_requirements.rs)

    How the settings the proxy runs with come from the configuration, what an
    administrator requires, the permission profile, the rules of the execution
    policy and, for a remote environment, the policy of its owner; and how a
    session starts its proxy with them and refreshes it. *)

From S2P Require Import Prelude RustStr PatchTypes AbsolutePath PathUri ExecRules ExecPolicy ExecApproval IpAddr NetworkDecision NetworkHost NetworkConfig MitmHook NetworkConstraints NetworkProxy.

(** ** Requirements *)

Inductive NetworkDomainPermissionToml : Type := TomlAllow | TomlDeny.

#[export] Instance NetworkDomainPermissionToml_eq_dec : EqDecision NetworkDomainPermissionToml.
Proof. solve_decision. Defined.

Inductive NetworkUnixSocketPermissionToml : Type := TomlSocketAllow | TomlSocketDeny.

#[export] Instance NetworkUnixSocketPermissionToml_eq_dec : EqDecision NetworkUnixSocketPermissionToml.
Proof. solve_decision. Defined.

Definition toml_patterns (permission : NetworkDomainPermissionToml)
    (entries : gmap str NetworkDomainPermissionToml) : option (list str) :=
  let l := map fst (List.filter (fun kv => bool_decide (kv.2 = permission)) (btree_iter entries)) in
  if is_empty l then None else Some l.

Definition toml_allowed_domains : gmap str NetworkDomainPermissionToml -> option (list str) :=
  toml_patterns TomlAllow.
Definition toml_denied_domains : gmap str NetworkDomainPermissionToml -> option (list str) :=
  toml_patterns TomlDeny.

Definition toml_allow_unix_sockets (entries : gmap str NetworkUnixSocketPermissionToml) : list str :=
  map fst (List.filter (fun kv => bool_decide (kv.2 = TomlSocketAllow)) (btree_iter entries)).

Record NetworkHeaderInjectionToml : Type := mkInjection {
  injection_host : str;
  injection_methods : list str;
  injection_path_prefixes : list str;
  injection_headers : gmap str str;
}.

(** [NetworkConstraints] of the crate config: [codex_config::NetworkConstraints]. *)
Record NetworkRequirements : Type := mkRequirements {
  req_enabled : option bool;
  req_http_port : option N;
  req_socks_port : option N;
  req_allow_upstream_proxy : option bool;
  req_non_loopback_proxy : option bool;
  req_all_unix_sockets : option bool;
  req_domains : option (gmap str NetworkDomainPermissionToml);
  req_managed_allowed_domains_only : option bool;
  req_unix_sockets : option (gmap str NetworkUnixSocketPermissionToml);
  req_allow_local_binding : option bool;
  req_header_injections : option (list NetworkHeaderInjectionToml);
}.

(** The table as it is written, with the legacy lists next to the fields above. *)
Record RawNetworkRequirementsToml : Type := mkRawRequirements {
  raw_fields : NetworkRequirements;
  raw_allowed_domains : option (list str);
  raw_denied_domains : option (list str);
  raw_allow_unix_sockets : option (list str);
}.

Definition insert_each {A} (x : A) (l : list str) (m : gmap str A) : gmap str A :=
  foldl (fun m k => <[k := x]> m) m l.

Definition some_map {A} (m : gmap str A) : option (gmap str A) := if bool_decide (map_to_list m = []) then None else Some m.

Definition legacy_domain_permissions_from_lists (allowed denied : option (list str))
  : option (gmap str NetworkDomainPermissionToml) :=
  some_map (insert_each TomlDeny (default [] denied) (insert_each TomlAllow (default [] allowed) ∅)).

Definition legacy_unix_socket_permissions_from_list (allow : option (list str))
  : option (gmap str NetworkUnixSocketPermissionToml) :=
  some_map (insert_each TomlSocketAllow (default [] allow) ∅).

Inductive RequirementsError : Type := DomainsWithLegacyLists | SocketsWithLegacyList.

(** [NetworkRequirementsToml::deserialize] after the table is read, and
    [NetworkConstraints::from]. *)
Definition requirements_from_raw (raw : RawNetworkRequirementsToml)
  : result NetworkRequirements RequirementsError :=
  let r := raw_fields raw in
  if is_some (req_domains r) && (is_some (raw_allowed_domains raw) || is_some (raw_denied_domains raw))
  then Err DomainsWithLegacyLists
  else if is_some (req_unix_sockets r) && is_some (raw_allow_unix_sockets raw)
  then Err SocketsWithLegacyList
  else Ok (mkRequirements (req_enabled r) (req_http_port r) (req_socks_port r) (req_allow_upstream_proxy r)
             (req_non_loopback_proxy r) (req_all_unix_sockets r)
             (match req_domains r with
              | Some d => Some d
              | None => legacy_domain_permissions_from_lists (raw_allowed_domains raw) (raw_denied_domains raw)
              end)
             (req_managed_allowed_domains_only r)
             (match req_unix_sockets r with
              | Some u => Some u
              | None => legacy_unix_socket_permissions_from_list (raw_allow_unix_sockets raw)
              end)
             (req_allow_local_binding r) (req_header_injections r)).

(** ** The policy of an environment's owner *)

Record EnvironmentNetworkPolicy : Type := mkEnvPolicy {
  env_domains : option NetworkDomainPermissions;
  env_unix_sockets : option (gmap str NetworkUnixSocketPermission);
  env_allow_upstream_proxy : bool;
  env_all_unix_sockets : bool;
  env_allow_local_binding : bool;
  env_managed_allowed_domains_only : bool;
}.

Definition denies_some (sockets : gmap str NetworkUnixSocketPermission) : bool :=
  existsb (fun kv => bool_decide (kv.2 = SocketDeny)) (map_to_list sockets).

(** The sockets left when a controller and an owner meet: shared grants, and every
    denial. *)
Definition retained_sockets (inherited_permits_all : bool)
    (inherited owner : gmap str NetworkUnixSocketPermission) : gmap str NetworkUnixSocketPermission :=
  filter (fun kv : str * NetworkUnixSocketPermission =>
            kv.2 = SocketDeny \/ inherited_permits_all = true \/ inherited !! kv.1 = Some SocketAllow) owner.

Definition insert_inherited (owner_permits_all : bool)
    (m : gmap str NetworkUnixSocketPermission) (kv : str * NetworkUnixSocketPermission)
  : gmap str NetworkUnixSocketPermission :=
  if owner_permits_all || bool_decide (kv.2 = SocketDeny) then <[kv.1 := kv.2]> m else m.

Definition effective_sockets (inherited_permits_all owner_permits_all : bool)
    (inherited owner : gmap str NetworkUnixSocketPermission) : gmap str NetworkUnixSocketPermission :=
  foldl (insert_inherited owner_permits_all) (retained_sockets inherited_permits_all inherited owner)
    (btree_iter inherited).

(** ** Settings that are assigned *)

Section setters.
Context {Json Credentials : Type}.
Abbreviation Config := (NetworkProxyConfig Json Credentials).
Implicit Types c : Config.

Definition set_proxy_url (u : str) c : Config :=
  mkConfig (enabled c) u (enable_socks5 c) (socks_url c) (enable_socks5_udp c) (allow_upstream_proxy c)
    (dangerously_allow_non_loopback_proxy c) (dangerously_allow_all_unix_sockets c) (mode c) (domains c)
    (unix_sockets c) (allow_local_binding c) (mitm c) (credential_broker c)
    (credential_broker_enabled_mitm c) (credentials c)
    (dangerously_allow_plaintext_credential_injection c) (mitm_hooks c).

Definition set_socks_url (u : str) c : Config :=
  mkConfig (enabled c) (proxy_url c) (enable_socks5 c) u (enable_socks5_udp c) (allow_upstream_proxy c)
    (dangerously_allow_non_loopback_proxy c) (dangerously_allow_all_unix_sockets c) (mode c) (domains c)
    (unix_sockets c) (allow_local_binding c) (mitm c) (credential_broker c)
    (credential_broker_enabled_mitm c) (credentials c)
    (dangerously_allow_plaintext_credential_injection c) (mitm_hooks c).

(** The four switches: upstream proxies, listeners off the loopback, every socket,
    local binding. *)
Definition set_switches (upstream non_loopback : bool) (all_sockets : option bool) (local : bool) c : Config :=
  mkConfig (enabled c) (proxy_url c) (enable_socks5 c) (socks_url c) (enable_socks5_udp c) upstream
    non_loopback all_sockets (mode c) (domains c) (unix_sockets c) local (mitm c) (credential_broker c)
    (credential_broker_enabled_mitm c) (credentials c)
    (dangerously_allow_plaintext_credential_injection c) (mitm_hooks c).

Definition set_allow_upstream_proxy (b : bool) c : Config :=
  set_switches b (dangerously_allow_non_loopback_proxy c) (dangerously_allow_all_unix_sockets c)
    (allow_local_binding c) c.
Definition set_non_loopback_proxy (b : bool) c : Config :=
  set_switches (allow_upstream_proxy c) b (dangerously_allow_all_unix_sockets c) (allow_local_binding c) c.
Definition set_all_unix_sockets (b : option bool) c : Config :=
  set_switches (allow_upstream_proxy c) (dangerously_allow_non_loopback_proxy c) b (allow_local_binding c) c.
Definition set_allow_local_binding (b : bool) c : Config :=
  set_switches (allow_upstream_proxy c) (dangerously_allow_non_loopback_proxy c)
    (dangerously_allow_all_unix_sockets c) b c.

(** [if let Some(x) = o { .. }]. *)
Definition when_some {A} (o : option A) (f : A -> Config -> Config) c : Config :=
  match o with Some x => f x c | None => c end.

Definition upsert_denial c (domain : str) : Config :=
  upsert_domain_permission domain PermissionDeny normalize_host c.

(** [EnvironmentNetworkPolicy::from_config]. *)
Definition from_config c (managed_allowed_domains_only : bool) : EnvironmentNetworkPolicy :=
  mkEnvPolicy (domains c) (unix_sockets c) (allow_upstream_proxy c)
    (default false (dangerously_allow_all_unix_sockets c)) (allow_local_binding c)
    managed_allowed_domains_only.

(** [EnvironmentNetworkPolicy::apply_to]. *)
Definition inherited_permits_all c : bool :=
  default (is_none (unix_sockets c)) (dangerously_allow_all_unix_sockets c)
  && negb (denies_some (default ∅ (unix_sockets c))).

Definition owner_permits_all (policy : EnvironmentNetworkPolicy) : bool :=
  env_all_unix_sockets policy && negb (denies_some (default ∅ (env_unix_sockets policy))).

Definition apply_to (policy : EnvironmentNetworkPolicy) c : Config :=
  let inherited_denials := default [] (denied_domains c) in
  let c := foldl upsert_denial (set_domains (env_domains policy) c) inherited_denials in
  let sockets := effective_sockets (inherited_permits_all c) (owner_permits_all policy)
                   (default ∅ (unix_sockets c)) (default ∅ (env_unix_sockets policy)) in
  let all := inherited_permits_all c && owner_permits_all policy in
  set_switches (allow_upstream_proxy c && env_allow_upstream_proxy policy)
    (dangerously_allow_non_loopback_proxy c) (Some all)
    (allow_local_binding c && env_allow_local_binding policy)
    (set_unix_sockets (if bool_decide (sockets = ∅) then None else Some sockets) c).

(** ** Rules of the execution policy *)

Fixpoint upsert_hosts (incoming : gset str) (hosts : list str) (permission : NetworkDomainPermission) c : Config :=
  match hosts with
  | [] => c
  | host :: hosts =>
      if bool_decide (host ∈ incoming) then upsert_hosts incoming hosts permission c
      else upsert_hosts ({[host]} ∪ incoming) hosts permission
             (upsert_domain_permission host permission normalize_host c)
  end.

Definition upsert_network_domains (hosts : list str) (allow : bool) c : Config :=
  upsert_hosts ∅ hosts (if allow then PermissionAllow else PermissionDeny) c.

Definition apply_exec_policy_network_rules (exec_policy : Policy.Policy) c : Config :=
  let '(allowed_domains, denied_domains) := Policy.compiled_network_domains exec_policy in
  upsert_network_domains denied_domains false (upsert_network_domains allowed_domains true c).

End setters.

(** ** Specifications *)

Definition managed_sandbox_active {Url} (profile : @PermissionProfile Url) : bool :=
  match profile with Managed _ _ => true | _ => false end.

Definition managed_allowed_domains_only (requirements : NetworkRequirements) : bool :=
  default false (req_managed_allowed_domains_only requirements).

Definition merge_domain_lists (managed user_entries : list str) : list str :=
  foldl (fun managed entry =>
           if existsb (fun managed_entry => eq_ignore_ascii_case managed_entry entry) managed
           then managed else managed ++ [entry]) managed user_entries.

Definition loopback_url (port : N) : str := $"http://127.0.0.1:" ++ show_N port.

Record NetworkProxySpec (Json Credentials : Type) : Type := mkSpec {
  base_config : NetworkProxyConfig Json Credentials;
  requirements : option NetworkRequirements;
  spec_config : NetworkProxyConfig Json Credentials;
  spec_constraints : NetworkProxyConstraints;
  hard_deny_allowlist_misses : bool;
}.
Arguments mkSpec {Json Credentials}.
Arguments base_config {Json Credentials}.
Arguments requirements {Json Credentials}.
Arguments spec_config {Json Credentials}.
Arguments spec_constraints {Json Credentials}.
Arguments hard_deny_allowlist_misses {Json Credentials}.

Inductive SpecError : Type :=
| ConstraintsInvalid (e : NetworkProxyConstraintError)
| RequiresManagedEnforcement
| ControllerDisabled
| ViolatesRequirements (e : NetworkProxyConstraintError)
| StateNotBuilt (e : BuildError).

(** The four fields about domains. *)
Definition set_domain_constraints (allowed : option (list str)) (allow_expansion : option bool)
    (denied : option (list str)) (deny_expansion : option bool) (k : NetworkProxyConstraints)
  : NetworkProxyConstraints :=
  mkConstraints (max_enabled k) (max_mode k) (max_allow_upstream_proxy k) (max_non_loopback_proxy k)
    (max_all_unix_sockets k) allowed allow_expansion denied deny_expansion (managed_unix_sockets k)
    (max_allow_local_binding k).

Section spec.
Context {Url Json Credentials Value Mitm : Type} `{EqDecision Json, EqDecision Credentials}.
Context `{HostCrates} `{HttpCrates Value}.
Context (home_directory : option str) (current_dir : result str io_error).
Context (mitm_state_new : bool -> result Mitm str).
Context (env_var : str -> option str) (read_to_string : str -> option str).
Context (default_credentials : Credentials).
Abbreviation Config := (NetworkProxyConfig Json Credentials).
Abbreviation Spec := (NetworkProxySpec Json Credentials).
Abbreviation Profile := (@PermissionProfile Url).
Abbreviation State := (@ConfigState Json Credentials Value Mitm).
Abbreviation validate := (@validate_policy_against_constraints Json Credentials Value _ _
                            home_directory current_dir).

(** What an administrator requires, on top of a configuration. *)
Definition apply_requirements (config : Config) (r : NetworkRequirements) (profile : Profile)
    (hard_deny : bool) : Config * NetworkProxyConstraints :=
  let allow_expansion := managed_sandbox_active profile && negb hard_deny in
  let deny_expansion := managed_sandbox_active profile in
  let config := when_some (req_enabled r) set_enabled config in
  let config := when_some (req_http_port r) (fun port => set_proxy_url (loopback_url port)) config in
  let config := when_some (req_socks_port r) (fun port => set_socks_url (loopback_url port)) config in
  let config := when_some (req_allow_upstream_proxy r) set_allow_upstream_proxy config in
  let config := when_some (req_non_loopback_proxy r) set_non_loopback_proxy config in
  let config := when_some (req_all_unix_sockets r) (fun b => set_all_unix_sockets (Some b)) config in
  let managed_allowed := if hard_deny then Some (default [] (req_domains r ≫= toml_allowed_domains))
                         else req_domains r ≫= toml_allowed_domains in
  let config := when_some managed_allowed (fun managed config =>
    set_allowed_domains (if allow_expansion
                         then merge_domain_lists managed (default [] (allowed_domains config))
                         else managed) config) config in
  let managed_denied := req_domains r ≫= toml_denied_domains in
  let config := when_some managed_denied (fun managed config =>
    set_denied_domains (if deny_expansion
                        then merge_domain_lists managed (default [] (denied_domains config))
                        else managed) config) config in
  let sockets := toml_allow_unix_sockets <$> req_unix_sockets r in
  let config := when_some sockets set_allow_unix_sockets config in
  let config := when_some (req_allow_local_binding r) set_allow_local_binding config in
  (config,
   mkConstraints (req_enabled r) None (req_allow_upstream_proxy r) (req_non_loopback_proxy r)
     (req_all_unix_sockets r) managed_allowed ((fun _ => allow_expansion) <$> managed_allowed)
     managed_denied ((fun _ => deny_expansion) <$> managed_denied) sockets (req_allow_local_binding r)).

Definition from_config_and_constraints (config : Config) (reqs : option NetworkRequirements)
    (profile : Profile) : result Spec SpecError :=
  let hard_deny := match reqs with Some r => managed_allowed_domains_only r | None => false end in
  let '(effective, constraints) := match reqs with
                                   | Some r => apply_requirements config r profile hard_deny
                                   | None => (config, no_constraints)
                                   end in
  let? _ := map_err ConstraintsInvalid (validate effective constraints) in
  Ok (mkSpec config reqs effective constraints hard_deny).

Definition recompute_for_permission_profile (s : Spec) (profile : Profile) : result Spec SpecError :=
  from_config_and_constraints (base_config s) (requirements s) profile.

Definition with_exec_policy_network_rules (s : Spec) (exec_policy : Policy.Policy) : result Spec SpecError :=
  let config := apply_exec_policy_network_rules exec_policy (spec_config s) in
  let? _ := map_err ConstraintsInvalid (validate config (spec_constraints s)) in
  Ok (mkSpec (base_config s) (requirements s) config (spec_constraints s) (hard_deny_allowlist_misses s)).

Definition environment_policy (s : Spec) : EnvironmentNetworkPolicy :=
  from_config (spec_config s) (hard_deny_allowlist_misses s).

Definition credential_broker_enabled (s : Spec) : bool :=
  credential_broker (spec_config s) && bool_decide (max_enabled (spec_constraints s) <> Some false).

(** The settings an owner's policy starts from when there is no controller. *)
Definition ownerless_config : Config :=
  set_allow_local_binding true (set_all_unix_sockets (Some true) (set_enabled true (default_config default_credentials))).

Definition for_environment (controller : option Spec) (policy : EnvironmentNetworkPolicy)
    (profile : Profile) (exec_policy : Policy.Policy) : result Spec SpecError :=
  if match profile with ProfileDisabled => true | _ => false end then Err RequiresManagedEnforcement
  else if match controller with Some c => negb (enabled (spec_config c)) | None => false end
  then Err ControllerDisabled
  else
    let? spec := match controller with
                 | Some c => recompute_for_permission_profile c profile
                 | None => from_config_and_constraints ownerless_config None profile
                 end in
    let config := apply_to policy (spec_config spec) in
    let constraints := spec_constraints spec in
    let protected_denials := default [] (denied_domains config) in
    let fixed_allowlist := hard_deny_allowlist_misses spec
                           || bool_decide (allowlist_expansion_enabled constraints = Some false) in
    let hard_deny := hard_deny_allowlist_misses spec || env_managed_allowed_domains_only policy
                     || negb (managed_sandbox_active profile) in
    let allow_owner_grants := negb hard_deny && negb fixed_allowlist in
    let '(managed_allowed, allow_expansion) :=
      if fixed_allowlist then (managed_allowed_domains constraints, None)
      else (Some (default [] (allowed_domains config)), Some allow_owner_grants) in
    let '(allowed_domains, denied) := Policy.compiled_network_domains exec_policy in
    let config := if allow_owner_grants then upsert_network_domains allowed_domains true config else config in
    let config := upsert_network_domains denied false config in
    let config := upsert_network_domains protected_denials false config in
    let constraints := set_domain_constraints managed_allowed allow_expansion (denied_domains config)
                         (Some true) constraints in
    let? _ := map_err ViolatesRequirements (validate config constraints) in
    Ok (mkSpec (base_config spec) (requirements spec) config constraints hard_deny).

Definition build_config_state_for_spec (s : Spec) : result State SpecError :=
  map_err StateNotBuilt
    (build_config_state home_directory current_dir mitm_state_new env_var read_to_string
       (spec_config s) (spec_constraints s)).

(** The decider [start_proxy] installs. *)
Definition installed_decider (s : Spec) (profile : Profile)
    (policy_decider : option (NetworkPolicyRequest -> NetworkDecision)) (enable_network_approval_flow : bool)
  : option (NetworkPolicyRequest -> NetworkDecision) :=
  if enable_network_approval_flow && negb (hard_deny_allowlist_misses s)
  then match policy_decider with
       | Some d => Some d
       | None => if managed_sandbox_active profile
                 then Some (fun _ => ask_with_source REASON_NOT_ALLOWED Decider) else None
       end
  else None.

(** ** The proxy of a session (core/src/session/mod.rs) *)

(** Rules that do not fit are left out. *)
Definition with_rules_or_without (s : Spec) (exec_policy : Policy.Policy) : Spec :=
  match with_exec_policy_network_rules s exec_policy with Ok s => s | Err _ => s end.

Definition refreshed_spec (s : Spec) (profile : Profile) (exec_policy : Policy.Policy) : result Spec SpecError :=
  let? s := recompute_for_permission_profile s profile in
  Ok (with_rules_or_without s exec_policy).

(** A session refreshes its proxy for the profile and the rules of the moment;
    in between the tasks of the proxy go on.  What they reload is the state the
    proxy was started with. *)
Inductive session_event : Type :=
| Refresh (profile : Profile) (exec_policy : Policy.Policy)
| Reload
| ProxyEvent (e : @event Json Credentials).

Abbreviation World := (@world Json Credentials Value Mitm).
Abbreviation step := (@step Json Credentials Value Mitm _ _ _ _ home_directory current_dir
                        mitm_state_new env_var read_to_string).

(** [spec]: the settings in the session's configuration; [started]: those the
    proxy was started with.  A refresh that fails, or finds the proxy disabled,
    leaves the state alone; a proxy that was given up or is routed differently is
    started anew. *)
Definition proxy_session_step (spec started : Spec) (e : session_event) (w : World) : option World :=
  match e with
  | Refresh profile exec_policy =>
      match refreshed_spec spec profile exec_policy with
      | Ok s => if enabled (spec_config s)
                then match step (Replace (spec_config s) (spec_constraints s)) w with
                     | Some w => Some w
                     | None => Some w
                     end
                else Some w
      | Err _ => Some w
      end
  | Reload => step (ForceReload (spec_config started) (spec_constraints started)) w
  | ProxyEvent (Replace _ _ | ForceReload _ _) => None
  | ProxyEvent e => step e w
  end.

Inductive session_reached (spec : Spec) : Spec -> World -> Prop :=
| session_start exec_policy s :
    build_config_state_for_spec (with_rules_or_without spec exec_policy) = Ok s ->
    session_reached spec (with_rules_or_without spec exec_policy) (mkWorld s ∅)
| session_restart started w profile exec_policy fresh s :
    session_reached spec started w -> refreshed_spec spec profile exec_policy = Ok fresh ->
    enabled (spec_config fresh) = true ->
    build_config_state_for_spec (with_rules_or_without fresh exec_policy) = Ok s ->
    session_reached spec (with_rules_or_without fresh exec_policy) (mkWorld s ∅)
| session_event_step started w e w' :
    session_reached spec started w -> proxy_session_step spec started e w = Some w' ->
    session_reached spec started w'.

End spec.
