(* ===== verification/NetworkSpecProps.v ===== *)
(** * Theorems on the settings of a session

    Whatever a session does to its proxy, what the administrator requires holds
    in every state of it; and the settings for a remote environment stay below
    those of the controller. *)

From S2P Require Import Prelude RustStr PatchTypes AbsolutePath PathUri ExecRules ExecPolicy ExecApproval IpAddr NetworkDecision NetworkHost Wildcard NetworkPatterns NetworkConfig MitmHook NetworkConstraints NetworkProxy NetworkProxyProps NetworkSpec.

(** ** Ordered maps *)

Lemma insert_key_In {A} (x y : str * A) l : In y (insert_key x l) <-> y = x \/ In y l.
Proof.
  induction l as [|z l IH]; cbn [insert_key]; [cbn; naive_solver|]. case_if; cbn; [naive_solver|].
  rewrite IH. naive_solver.
Qed.

Lemma btree_iter_In {A} (m : gmap str A) k v : In (k, v) (btree_iter m) <-> m !! k = Some v.
Proof.
  rewrite <- elem_of_map_to_list, list_elem_of_In. unfold btree_iter.
  induction (map_to_list m) as [|x l IH]; [done|]. cbn [foldr]. rewrite insert_key_In, IH. cbn. naive_solver.
Qed.

Lemma insert_key_perm {A} (x : str * A) l : Permutation (insert_key x l) (x :: l).
Proof.
  induction l as [|y l IH]; [done|]. cbn [insert_key]. case_if; [done|]. rewrite IH. by apply perm_swap.
Qed.

Lemma btree_iter_NoDup {A} (m : gmap str A) : NoDup (map fst (btree_iter m)).
Proof.
  assert (Hp : Permutation (btree_iter m) (map_to_list m)).
  { unfold btree_iter. induction (map_to_list m) as [|x l IH]; [done|]. cbn [foldr].
    rewrite insert_key_perm. by constructor. }
  rewrite Hp. apply NoDup_fst_map_to_list.
Qed.

Lemma toml_patterns_In permission entries p :
  In p (default [] (toml_patterns permission entries)) <-> entries !! p = Some permission.
Proof.
  unfold toml_patterns. set (l := map fst _).
  assert (Hl : In p l <-> entries !! p = Some permission).
  { unfold l. rewrite in_map_iff. split.
    - intros ([k v] & <- & [Hin Hv%bool_decide_eq_true]%filter_In). cbn in *. subst v. by apply btree_iter_In.
    - intros Hp. exists (p, permission). split; [done|]. apply filter_In. split; [by apply btree_iter_In|].
      by apply bool_decide_eq_true. }
  rewrite <- Hl. by destruct l.
Qed.

Lemma toml_patterns_Some permission entries : toml_patterns permission entries <> None <->
  exists p, entries !! p = Some permission.
Proof.
  setoid_rewrite <- toml_patterns_In. unfold toml_patterns. set (l := map fst _).
  destruct l as [|x l]; cbn; [split; [done|by intros [p []]]|]. split; [|done]. intros _. exists x. by left.
Qed.

Lemma NoDup_map_inj {A B} (f : A -> B) l x y :
  NoDup (map f l) -> In x l -> In y l -> f x = f y -> x = y.
Proof.
  induction l as [|z l IH]; [done|]. cbn. intros [Hz Hnd]%NoDup_cons Hx Hy E. rewrite list_elem_of_In, in_map_iff in Hz.
  destruct Hx as [<-|Hx], Hy as [<-|Hy]; [done|destruct Hz; by exists y|destruct Hz; by exists x|by apply IH].
Qed.

(** ** Legacy lists *)

Lemma insert_each_lookup {A} (x : A) l k : forall m,
  insert_each x l m !! k = if bool_decide (k ∈ l) then Some x else m !! k.
Proof.
  unfold insert_each. induction l as [|y l IH]; intros m; cbn [foldl].
  { rewrite bool_decide_false; [done|]. by intros ?%elem_of_nil. }
  rewrite IH. destruct (decide (y = k)) as [->|Hne].
  - rewrite lookup_insert_eq, (bool_decide_true (k ∈ k :: l)) by (by left). by case_bool_decide.
  - rewrite lookup_insert_ne by done. rewrite (bool_decide_ext (k ∈ y :: l) (k ∈ l)); [done|].
    rewrite elem_of_cons. split; [by intros [->|?]|by right].
Qed.

Lemma some_map_lookup {A} (m : gmap str A) k v : m !! k = Some v -> some_map m = Some m.
Proof.
  intros Hk. unfold some_map. case_bool_decide as E; [|done].
  apply elem_of_map_to_list in Hk. rewrite E in Hk. by apply elem_of_nil in Hk.
Qed.

(** A pattern of the legacy list of denials is denied, also when it is in the list
    of allowances. *)
Lemma legacy_denials raw r k :
  requirements_from_raw raw = Ok r -> k ∈ default [] (raw_denied_domains raw) ->
  exists entries, req_domains r = Some entries /\ entries !! k = Some TomlDeny.
Proof.
  unfold requirements_from_raw. cbv zeta. intros Hr Hk.
  destruct (raw_denied_domains raw) as [l|] eqn:El; [|by apply elem_of_nil in Hk]. cbn [default is_some] in *.
  rewrite orb_true_r, andb_true_r in Hr. destruct (req_domains (raw_fields raw)) as [d|] eqn:Ed; [done|]. cbn in Hr.
  case_match; [done|]. injection Hr as <-. cbn. unfold legacy_domain_permissions_from_lists. cbn [default id].
  match goal with |- context [some_map ?x] => set (m := x) end.
  assert (Hm : m !! k = Some TomlDeny) by (unfold m; by rewrite insert_each_lookup, bool_decide_true).
  exists m. by rewrite (some_map_lookup _ _ _ Hm).
Qed.

(** ** Sockets of an environment *)

Lemma insert_inherited_other b (l : list (str * NetworkUnixSocketPermission)) path : forall m,
  ~ In path (map fst l) -> foldl (insert_inherited b) m l !! path = m !! path.
Proof.
  induction l as [|[k v] l IH]; intros m Hl; [done|]. cbn [foldl]. cbn in Hl. rewrite IH by tauto.
  unfold insert_inherited. cbn [fst snd]. case_if; [|done]. rewrite lookup_insert_ne; [done|]. intros ->. tauto.
Qed.

Lemma insert_inherited_here b (l : list (str * NetworkUnixSocketPermission)) path v : forall m,
  NoDup (map fst l) -> In (path, v) l ->
  foldl (insert_inherited b) m l !! path = if b || bool_decide (v = SocketDeny) then Some v else m !! path.
Proof.
  induction l as [|[k w] l IH]; intros m Hnd Hin; [done|]. cbn [foldl]. cbn in Hnd.
  apply NoDup_cons in Hnd as [Hni Hnd]. rewrite list_elem_of_In in Hni. destruct Hin as [[= -> ->]|Hin].
  - rewrite insert_inherited_other by done. unfold insert_inherited. cbn [fst snd].
    case_if; [by rewrite lookup_insert_eq|done].
  - rewrite IH by done. case_if; [done|]. unfold insert_inherited. cbn [fst snd]. case_if; [|done].
    rewrite lookup_insert_ne; [done|]. intros ->. destruct Hni. apply in_map_iff. by exists (path, v).
Qed.

(** A socket is denied when one side denies it, and granted when one side grants it
    and the other does too or permits them all. *)
Lemma effective_sockets_spec ip op inherited owner path :
  (ip = true -> inherited !! path <> Some SocketDeny) -> (op = true -> owner !! path <> Some SocketDeny) ->
  effective_sockets ip op inherited owner !! path
  = match inherited !! path, owner !! path with
    | Some SocketDeny, _ | _, Some SocketDeny => Some SocketDeny
    | Some SocketAllow, Some SocketAllow => Some SocketAllow
    | Some SocketAllow, None => if op then Some SocketAllow else None
    | None, Some SocketAllow => if ip then Some SocketAllow else None
    | None, None => None
    end.
Proof.
  intros Hip Hop. unfold effective_sockets.
  assert (Hr : retained_sockets ip inherited owner !! path
    = match owner !! path with
      | Some SocketDeny => Some SocketDeny
      | Some SocketAllow => if ip || bool_decide (inherited !! path = Some SocketAllow) then Some SocketAllow else None
      | None => None
      end).
  { unfold retained_sockets. rewrite map_lookup_filter. destruct (owner !! path) as [v|]; [cbn|done].
    case_guard as Hg; cbn in *.
    - destruct v; [|done]. destruct Hg as [?|[->| Hg]]; [done|done|]. by rewrite Hg, orb_true_r.
    - destruct v; [|tauto]. destruct ip; [tauto|]. cbn. rewrite bool_decide_false; tauto. }
  destruct (inherited !! path) as [v|] eqn:Ei.
  - rewrite (insert_inherited_here _ _ _ v); [|apply btree_iter_NoDup|by apply btree_iter_In].
    destruct v; cbn [bool_decide orb].
    + rewrite bool_decide_false, orb_false_r, Hr, bool_decide_true, orb_true_r by done.
      destruct op; [|by destruct (owner !! path) as [[]|]].
      destruct (owner !! path) as [[]|]; try done. by destruct Hop.
    + by rewrite bool_decide_true, orb_true_r.
  - rewrite insert_inherited_other; [|intros ([k v] & Ek & Hin)%in_map_iff; cbn in Ek; subst k;
      apply btree_iter_In in Hin; congruence].
    rewrite Hr. rewrite bool_decide_false, orb_false_r by done. done.
Qed.

Lemma denies_some_false m path : denies_some m = false -> m !! path <> Some SocketDeny.
Proof.
  unfold denies_some. intros Hn Hp. apply not_true_iff_false in Hn. apply Hn, existsb_exists.
  exists (path, SocketDeny). split; [by apply list_elem_of_In, elem_of_map_to_list|done].
Qed.

Section props.
Context {Url Json Credentials Value Mitm : Type} `{EqDecision Json, EqDecision Credentials}.
Context `{HostCrates} `{HttpCrates Value}.
Context (home_directory : option str) (current_dir : result str io_error).
Context (mitm_state_new : bool -> result Mitm str).
Context (env_var : str -> option str) (read_to_string : str -> option str).
Context (lookup_host : str -> N -> option (list IpAddr)).
Context (default_credentials : Credentials).
Abbreviation Config := (NetworkProxyConfig Json Credentials).
Abbreviation Spec := (NetworkProxySpec Json Credentials).
Abbreviation Profile := (@PermissionProfile Url).
Abbreviation State := (@ConfigState Json Credentials Value Mitm).
Abbreviation World := (@world Json Credentials Value Mitm).
Abbreviation validate := (@validate_policy_against_constraints Json Credentials Value _ _
                            home_directory current_dir).
Abbreviation from_config_and_constraints :=
  (@from_config_and_constraints Url Json Credentials Value _ _ home_directory current_dir).
Abbreviation with_rules_or_without :=
  (@with_rules_or_without Json Credentials Value _ _ home_directory current_dir).
Abbreviation refreshed_spec := (@refreshed_spec Url Json Credentials Value _ _ home_directory current_dir).
Abbreviation build_spec := (@build_config_state_for_spec Json Credentials Value Mitm _ _ home_directory current_dir
                              mitm_state_new env_var read_to_string).
Abbreviation session_reached :=
  (@session_reached Url Json Credentials Value Mitm _ _ _ _ home_directory current_dir mitm_state_new env_var
     read_to_string).
Abbreviation proxy_session_step :=
  (@proxy_session_step Url Json Credentials Value Mitm _ _ _ _ home_directory current_dir mitm_state_new env_var
     read_to_string).
Abbreviation step := (@step Json Credentials Value Mitm _ _ _ _ home_directory current_dir
                        mitm_state_new env_var read_to_string).
Abbreviation reached := (@reached Json Credentials Value Mitm _ _ _ _ home_directory current_dir
                           mitm_state_new env_var read_to_string).
Abbreviation host_blocked := (host_blocked lookup_host).
Implicit Types s : Spec.

(** ** Requirements in constraints *)

(** The constraints carry the requirements. *)
Record requires (r : NetworkRequirements) (k : NetworkProxyConstraints) : Prop := mkRequires {
  rq_enabled : max_enabled k = req_enabled r;
  rq_upstream : max_allow_upstream_proxy k = req_allow_upstream_proxy r;
  rq_non_loopback : max_non_loopback_proxy k = req_non_loopback_proxy r;
  rq_all_sockets : max_all_unix_sockets k = req_all_unix_sockets r;
  rq_local : max_allow_local_binding k = req_allow_local_binding r;
  rq_sockets : managed_unix_sockets k = toml_allow_unix_sockets <$> req_unix_sockets r;
  rq_denied : managed_denied_domains k = req_domains r ≫= toml_denied_domains;
  rq_allowed : managed_allowed_domains_only r = true ->
    managed_allowed_domains k = Some (default [] (req_domains r ≫= toml_allowed_domains))
    /\ allowlist_expansion_enabled k = Some false;
}.

(** A specification that was checked, for the requirements it names. *)
Definition spec_ok s : Prop :=
  validate (spec_config s) (spec_constraints s) = Ok ()
  /\ match requirements s with
     | Some r => requires r (spec_constraints s) /\ hard_deny_allowlist_misses s = managed_allowed_domains_only r
     | None => spec_constraints s = no_constraints
     end.

Lemma applied_requires (c : Config) r (profile : Profile) :
  requires r (apply_requirements c r profile (managed_allowed_domains_only r)).2.
Proof.
  constructor; try done. intros E. cbn. by rewrite E, andb_false_r.
Qed.

Lemma from_config_ok (c : Config) reqs (profile : Profile) s :
  from_config_and_constraints c reqs profile = Ok s -> spec_ok s /\ base_config s = c /\ requirements s = reqs.
Proof.
  unfold NetworkSpec.from_config_and_constraints, spec_ok. cbv zeta. destruct reqs as [r|].
  - pose proof (applied_requires c r profile) as Hr. destruct (apply_requirements _ _ _ _) as [c' k].
    destruct (validate c' k) as [[]|] eqn:Ev; [|done]. intros [= <-]. by cbn.
  - destruct (validate c _) as [[]|] eqn:Ev; [|done]. intros [= <-]. by cbn.
Qed.

Lemma with_rules_same s p :
  requirements (with_rules_or_without s p) = requirements s
  /\ base_config (with_rules_or_without s p) = base_config s
  /\ spec_constraints (with_rules_or_without s p) = spec_constraints s
  /\ hard_deny_allowlist_misses (with_rules_or_without s p) = hard_deny_allowlist_misses s.
Proof.
  unfold NetworkSpec.with_rules_or_without, with_exec_policy_network_rules.
  destruct (validate _ _); by cbn.
Qed.

Lemma with_rules_ok s p : spec_ok s -> spec_ok (with_rules_or_without s p).
Proof.
  intros Hs. unfold NetworkSpec.with_rules_or_without, with_exec_policy_network_rules.
  destruct (validate (apply_exec_policy_network_rules p (spec_config s)) (spec_constraints s)) as [[]|] eqn:Ev;
    [|done]. cbn. split; [done|apply Hs].
Qed.

Lemma refreshed_ok s (profile : Profile) p s' :
  refreshed_spec s profile p = Ok s' ->
  spec_ok s' /\ requirements s' = requirements s /\ base_config s' = base_config s.
Proof.
  unfold NetworkSpec.refreshed_spec, recompute_for_permission_profile.
  destruct (from_config_and_constraints _ _ profile) as [s1|] eqn:E; [|done]. intros [= <-].
  apply from_config_ok in E as (Hok & Eb & Er). destruct (with_rules_same s1 p) as (-> & -> & _).
  split; [by apply with_rules_ok|done].
Qed.

(** ** The proxy of a session *)

Lemma build_spec_state s st : build_spec s = Ok st ->
  build_config_state home_directory current_dir mitm_state_new env_var read_to_string
    (spec_config s) (spec_constraints s) = Ok st.
Proof. unfold build_config_state_for_spec. by destruct (build_config_state _ _ _ _ _ _ _); [intros [= ->]|]. Qed.

Lemma built_requires s st r :
  spec_ok s -> requirements s = Some r -> build_spec s = Ok st -> requires r (constraints st).
Proof.
  intros [_ Hr] Er Hb%build_spec_state. rewrite Er in Hr. destruct Hr as [Hr _].
  apply build_facts in Hb as (_ & -> & _). done.
Qed.

(** Tasks do not change the constraints. *)
Lemma own_step_constraints e w w' :
  match e with Replace _ _ | ForceReload _ _ => False | _ => True end ->
  step e w = Some w' -> constraints (shared w') = constraints (shared w).
Proof.
  intros He. destruct e as [t k host|t m|t|t|id entry| |c k|c k]; try done; cbn [NetworkProxy.step].
  - case_if; [done|]. by intros [= <-].
  - case_if; [done|]. by intros [= <-].
  - unfold read_step. destruct (tasks w !! t) as [[k host [|]|m [|]|]|]; try done.
    + cbv zeta. case_if; by intros [= <-].
    + by intros [= <-].
  - unfold write_step. destruct (tasks w !! t) as [[k host [snap|]|m [snap|]|]|]; try done.
    + destruct (prepare_update _ _ _ _ _ k host snap) as [[new|]|] eqn:Ep; try by intros [= <-].
      apply prepared_ok in Ep as (_ & _ & _ & Ek & _). destruct (still_current snap (shared w)) eqn:Ec; intros [= <-]; [|done].
      cbn. rewrite Ek. unfold still_current in Ec. by apply andb_prop in Ec as [->%bool_decide_eq_true _].
    + destruct (validate _ _); [|by intros [= <-]]. case_if; by intros [= <-].
  - by intros [= <-].
  - by intros [= <-].
Qed.

(** What holds of a session: its specification was checked, so was the one the
    proxy was started with, and the proxy is a reachable one that carries the
    requirements. *)
Definition session_ok s (started : Spec) (w : World) : Prop :=
  spec_ok started /\ requirements started = requirements s /\ reached w
  /\ forall r, requirements s = Some r -> requires r (constraints (shared w)).

Lemma started_ok s started st : spec_ok started -> requirements started = requirements s ->
  build_spec started = Ok st -> session_ok s started (mkWorld st ∅).
Proof.
  intros Hok Er Hb. split; [done|]. split; [done|]. split.
  - eapply reached_start; [apply Hok|by apply build_spec_state].
  - intros r Hr. cbn. apply (built_requires started); [done|congruence|done].
Qed.

Lemma replaced_constraints e c k w w' : (e = Replace c k \/ e = ForceReload c k) ->
  step e w = Some w' -> constraints (shared w') = k.
Proof.
  intros [-> | ->]; cbn [NetworkProxy.step];
    (destruct (build_config_state _ _ _ _ _ c k) as [new|] eqn:Eb; [|done]); intros [= <-]; cbn;
    by apply build_facts in Eb as (_ & -> & _).
Qed.

Lemma proxy_session_step_ok s started e w w' :
  spec_ok s -> session_ok s started w -> proxy_session_step s started e w = Some w' -> session_ok s started w'.
Proof.
  intros Hs (Hst & Er & Hw & Hr) Hstep. split; [done|]. split; [done|].
  assert (Hreplace : forall ev c k r', (ev = Replace c k \/ ev = ForceReload c k) -> validate c k = Ok () ->
    (forall r, requirements s = Some r -> requires r k) -> step ev w = Some r' ->
    reached r' /\ forall r, requirements s = Some r -> requires r (constraints (shared r'))).
  { intros ev c k r' Hev Hv Hk Hst'. split.
    - eapply reached_step; [exact Hw| |exact Hst']. by destruct Hev as [-> | ->].
    - rewrite (replaced_constraints _ _ _ _ _ Hev Hst'). done. }
  assert (Hreq : forall x, spec_ok x -> requirements x = requirements s ->
    forall r, requirements s = Some r -> requires r (spec_constraints x)).
  { intros x [_ Hx] Ex r Erx. rewrite Ex, Erx in Hx. apply Hx. }
  destruct e as [profile p| |e]; cbn [NetworkSpec.proxy_session_step] in Hstep.
  - destruct (NetworkSpec.refreshed_spec _ _ s profile p) as [x|] eqn:Ex; [|by injection Hstep as <-].
    apply refreshed_ok in Ex as (Hx & Erx & _). destruct (enabled (spec_config x)); [|by injection Hstep as <-].
    destruct (step _ w) as [w1|] eqn:E1; injection Hstep as <-; [|done].
    eapply Hreplace; [by left|apply Hx|by apply Hreq|exact E1].
  - eapply Hreplace; [by right|apply Hst|by apply Hreq|exact Hstep].
  - assert (He : match e with Replace _ _ | ForceReload _ _ => False | _ => True end) by by destruct e.
    assert (Hstep' : step e w = Some w') by by destruct e.
    split; [|by rewrite (own_step_constraints _ _ _ He Hstep')].
    eapply reached_step; [exact Hw| |exact Hstep']. by destruct e.
Qed.

Lemma session_reached_ok s started w : spec_ok s -> session_reached s started w -> session_ok s started w.
Proof.
  intros Hs. induction 1 as [p st Hb|started w profile p fresh st _ IH Hf _ Hb|started w e w' _ IH Hstep].
  - apply started_ok; [by apply with_rules_ok|apply with_rules_same|done].
  - apply refreshed_ok in Hf as (Hf & Er & _). destruct (with_rules_same fresh p) as (Er' & _).
    apply started_ok; [by apply with_rules_ok|congruence|done].
  - by eapply proxy_session_step_ok.
Qed.

Lemma not_forbidden_off b m : not_forbidden b m = true -> m = Some false -> b = false.
Proof. intros Hb ->. by destruct b. Qed.

(** Sockets when a list is required. *)
Lemma listed_sockets (c : Config) k r sockets :
  within (Value := Value) home_directory current_dir c k -> requires r k ->
  req_unix_sockets r = Some sockets -> req_all_unix_sockets r <> Some true ->
  dangerously_allow_all_unix_sockets c <> Some true
  /\ forall path, In path (allow_unix_sockets c) ->
       exists p, sockets !! p = Some TomlSocketAllow /\ to_ascii_lowercase path = to_ascii_lowercase p.
Proof.
  intros Hw Hr Es Eall. split.
  - intros E. pose proof (w_all_sockets _ _ _ _ Hw) as Ha. revert Ha. unfold sockets_within.
    rewrite E, (rq_sockets _ _ Hr), (rq_all_sockets _ _ Hr), Es. cbn. by destruct (req_all_unix_sockets r) as [[]|].
  - intros path Hin. pose proof (w_sockets _ _ _ _ Hw) as Hv. unfold validate_unix_sockets, require in Hv.
    rewrite (rq_sockets _ _ Hr), Es in Hv. cbn in Hv. destruct (forallb _ _) eqn:Ef; [|done].
    rewrite forallb_forall in Ef. specialize (Ef path Hin). apply bool_decide_eq_true, lower_set_elem in Ef as (p & Hp & El).
    exists p. split; [|done]. unfold toml_allow_unix_sockets in Hp. apply in_map_iff in Hp as ([k' v] & Ek & Hf).
    apply filter_In in Hf as [Hf Hv'%bool_decide_eq_true]. cbn in *. subst. by apply btree_iter_In.
Qed.

(** C4: In every state of a session's proxy, whatever the session refreshes, rules
    it adds, tasks that run, reloads and restarts, the requirements hold: a host
    a required denial matches is refused; with managed domains only, a host is let
    through only if a required allowance matches it, and nobody is asked; what is
    required to be off is off; and no socket is reachable that is not listed. *)
Theorem requirements_hold_in_session `{!HostLaws} (c : Config) r (profile : Profile) s started w :
  from_config_and_constraints c (Some r) profile = Ok s -> session_reached s started w ->
  let st := shared w in
  (forall entries p host port h,
     req_domains r = Some entries -> entries !! p = Some TomlDeny ->
     Host_parse host = Some h -> pattern_matches p h = true -> host_blocked st host port = Blocked Denied)
  /\ (managed_allowed_domains_only r = true ->
      (forall profile' decider flow, @installed_decider Url _ _ started profile' decider flow = None)
      /\ forall host port, host_blocked st host port = Allowed ->
           exists h, Host_parse host = Some h
             /\ (ascii h -> exists entries p, req_domains r = Some entries /\ entries !! p = Some TomlAllow
                   /\ (pattern_matches p h = true
                       \/ exists ip, unscoped_ip_literal h = Some ip /\ pattern_matches p ip = true)))
  /\ (req_enabled r = Some false -> enabled (config st) = false)
  /\ (req_allow_upstream_proxy r = Some false -> allow_upstream_proxy (config st) = false)
  /\ (req_allow_local_binding r = Some false -> allow_local_binding (config st) = false)
  /\ (forall sockets, req_unix_sockets r = Some sockets -> req_all_unix_sockets r <> Some true ->
        dangerously_allow_all_unix_sockets (config st) <> Some true
        /\ forall path, In path (allow_unix_sockets (config st)) ->
             exists p, sockets !! p = Some TomlSocketAllow /\ to_ascii_lowercase path = to_ascii_lowercase p).
Proof.
  intros Hs Hreach. apply from_config_ok in Hs as (Hs & _ & Er). cbv zeta.
  destruct (session_reached_ok _ _ _ Hs Hreach) as (Hst & Ers & Hw & Hreq). specialize (Hreq r Er).
  apply reached_ok in Hw as [[Hp _] _]. pose proof Hp as [Hwithin _].
  split; [|split; [|split; [|split; [|split]]]].
  - intros entries p host port h Ed Hd Eh Hm.
    assert (Hin : In p (default [] (toml_denied_domains entries))) by by apply toml_patterns_In.
    destruct (toml_denied_domains entries) as [l|] eqn:El; [|done].
    eapply managed_denial_blocks; [exact Hp| |exact Hin|exact Eh|exact Hm].
    rewrite (rq_denied _ _ Hreq), Ed. exact El.
  - intros Eonly. split.
    { intros profile' decider flow. destruct Hst as [_ Hst]. rewrite Ers, Er in Hst. destruct Hst as [_ Eh].
      unfold installed_decider. by rewrite Eh, Eonly, andb_false_r. }
    intros host port Ha. destruct (rq_allowed _ _ Hreq Eonly) as [Em Ee].
    destruct (allowed_by_managed home_directory current_dir env_var read_to_string lookup_host _ _ host port Hp Em)
      as (h & Eh & Hh); [by unfold bounded_by; rewrite Ee|done|].
    exists h. split; [done|]. intros Hascii. destruct (Hh Hascii) as (p & Hin & Hm).
    destruct (req_domains r) as [entries|]; [|done]. exists entries, p.
    split; [done|]. split; [by apply toml_patterns_In|done].
  - apply not_forbidden_off. rewrite <- (rq_enabled _ _ Hreq). apply (w_enabled _ _ _ _ Hwithin).
  - apply not_forbidden_off. rewrite <- (rq_upstream _ _ Hreq). apply (w_upstream _ _ _ _ Hwithin).
  - apply not_forbidden_off. rewrite <- (rq_local _ _ Hreq). apply (w_local _ _ _ _ Hwithin).
  - intros sockets Es Eall. by apply (listed_sockets (config (shared w)) (constraints (shared w)) r).
Qed.

(** ** The settings of an environment *)

(** The only entry for its normal form, and a denial. *)
Definition sole (c : Config) (p : str) : Prop :=
  In (mkPermission p PermissionDeny) (default [] (domains c))
  /\ forall q x, In (mkPermission q x) (default [] (domains c)) -> normalize_host q = normalize_host p ->
       q = p /\ x = PermissionDeny.

Lemma upsert_makes_sole c p : sole (upsert_denial c p) p.
Proof.
  unfold sole, upsert_denial. setoid_rewrite (upsert_In c p PermissionDeny). split; [by right|].
  intros q x [[_ Hq]|[-> ->]]; done.
Qed.

Lemma upsert_keeps_sole c p h x :
  sole c p -> (normalize_host h = normalize_host p -> h = p /\ x = PermissionDeny) ->
  sole (upsert_domain_permission h x normalize_host c) p.
Proof.
  intros [Hin Hs] Hh. unfold sole. setoid_rewrite upsert_In. split.
  - destruct (decide (normalize_host h = normalize_host p)) as [E|E]; [destruct (Hh E) as [-> ->]; by right|].
    left. split; [done|congruence].
  - intros q y [[Hq _]|[-> ->]] E; [by apply Hs|by apply Hh].
Qed.

(** No other text of the list has the normal form. *)
Definition sole_form (l : list str) (p : str) : Prop :=
  forall q, In q l -> normalize_host q = normalize_host p -> q = p.

Lemma upsert_denials_sole l p : forall c,
  sole_form l p -> sole c p \/ In p l -> sole (foldl upsert_denial c l) p.
Proof.
  induction l as [|h l IH]; intros c Hf Hp; cbn [foldl]; [by destruct Hp|].
  apply IH; [intros q Hq; apply Hf; by right|]. destruct (decide (h = p)) as [->|Hne]; [left; apply upsert_makes_sole|].
  destruct Hp as [Hp|[?|Hp]]; [left|done|by right]. apply upsert_keeps_sole; [done|]. intros E.
  destruct Hne. apply Hf; [by left|done].
Qed.

Lemma upsert_hosts_sole l p : forall (incoming : gset str) c,
  sole_form l p -> sole c p \/ In p l /\ p ∉ incoming -> sole (upsert_hosts incoming l PermissionDeny c) p.
Proof.
  induction l as [|h l IH]; intros inc c Hf Hp; cbn [upsert_hosts]; [by destruct Hp as [?|[]]|].
  assert (Hf' : sole_form l p) by (intros q Hq; apply Hf; by right).
  case_bool_decide as Hh; apply IH; try done.
  - destruct Hp as [?|[[->|?] ?]]; [by left|done|by right].
  - destruct (decide (h = p)) as [->|Hne]; [left; apply upsert_makes_sole|].
    destruct Hp as [Hp|[[?|Hp] Hi]]; [left|done|right; set_solver].
    apply upsert_keeps_sole; [done|]. intros E. destruct Hne. apply Hf; [by left|done].
Qed.

(** Upserts touch the domains only. *)
Lemma upsert_hosts_rest l x : forall (incoming : gset str) (c : Config),
  exists d, upsert_hosts incoming l x c = set_domains d c.
Proof.
  induction l as [|h l IH]; intros inc c; cbn [upsert_hosts].
  - exists (domains c). by destruct c.
  - case_if; [apply IH|]. destruct (IH ({[h]} ∪ inc) (upsert_domain_permission h x normalize_host c)) as [d ->].
    by exists d.
Qed.

Lemma upsert_denials_rest l : forall (c : Config), exists d, foldl upsert_denial c l = set_domains d c.
Proof.
  induction l as [|h l IH]; intros c; cbn [foldl]; [exists (domains c); by destruct c|].
  destruct (IH (upsert_denial c h)) as [d ->]. by exists d.
Qed.

(** What [apply_to] leaves of a configuration. *)
Lemma apply_to_facts policy (c : Config) :
  let c' := apply_to policy c in
  allow_upstream_proxy c' = allow_upstream_proxy c && env_allow_upstream_proxy policy
  /\ allow_local_binding c' = allow_local_binding c && env_allow_local_binding policy
  /\ dangerously_allow_all_unix_sockets c' = Some (inherited_permits_all c && owner_permits_all policy)
  /\ default ∅ (unix_sockets c')
     = effective_sockets (inherited_permits_all c) (owner_permits_all policy)
         (default ∅ (unix_sockets c)) (default ∅ (env_unix_sockets policy))
  /\ domains c' = domains (foldl upsert_denial (set_domains (env_domains policy) c) (default [] (denied_domains c)))
  /\ enabled c' = enabled c.
Proof.
  unfold apply_to. cbv zeta.
  destruct (upsert_denials_rest (default [] (denied_domains c)) (set_domains (env_domains policy) c)) as [d ->].
  repeat split. cbn. case_bool_decide as E; [|done]. symmetry. exact E.
Qed.

Lemma applied_denials_sole policy (c : Config) p :
  NoDup (map normalize_host (default [] (denied_domains c))) -> In p (default [] (denied_domains c)) ->
  sole (apply_to policy c) p.
Proof.
  intros Hnd Hp. unfold sole. destruct (apply_to_facts policy c) as (_ & _ & _ & _ & -> & _).
  apply upsert_denials_sole; [|by right]. intros q Hq E. by apply (NoDup_map_inj normalize_host _ _ _ Hnd Hq Hp).
Qed.

Abbreviation recompute :=
  (@recompute_for_permission_profile Url Json Credentials Value _ _ home_directory current_dir).
Abbreviation for_environment :=
  (@for_environment Url Json Credentials Value _ _ home_directory current_dir default_credentials).

Definition fixed_allowlist s : bool :=
  hard_deny_allowlist_misses s || bool_decide (allowlist_expansion_enabled (spec_constraints s) = Some false).

Lemma for_environment_facts controller policy (profile : Profile) exec_policy d :
  for_environment (Some controller) policy profile exec_policy = Ok d ->
  exists base c0, recompute controller profile = Ok base
    /\ enabled (spec_config controller) = true
    /\ validate (spec_config d) (spec_constraints d) = Ok ()
    /\ (exists ds, c0 = set_domains ds (apply_to policy (spec_config base)))
    /\ spec_config d = upsert_hosts ∅ (default [] (denied_domains (apply_to policy (spec_config base)))) PermissionDeny c0
    /\ managed_denied_domains (spec_constraints d) = denied_domains (spec_config d)
    /\ (fixed_allowlist base = true ->
          managed_allowed_domains (spec_constraints d) = managed_allowed_domains (spec_constraints base)
          /\ allowlist_expansion_enabled (spec_constraints d) = None)
    /\ hard_deny_allowlist_misses d
       = hard_deny_allowlist_misses base || env_managed_allowed_domains_only policy || negb (managed_sandbox_active profile).
Proof.
  unfold NetworkSpec.for_environment, fixed_allowlist. destruct (match profile with ProfileDisabled => _ | _ => _ end); [done|].
  destruct (enabled (spec_config controller)) eqn:Een; cbn [negb]; [|intros [=]].
  destruct (recompute controller profile) as [base|] eqn:Eb; [|intros [=]]. cbv zeta.
  set (c1 := apply_to policy (spec_config base)).
  set (fixed := hard_deny_allowlist_misses base || _). set (hard := _ || _ || negb _).
  destruct (Policy.compiled_network_domains exec_policy) as [allowed denied].
  destruct (if fixed then _ else _) as [ma ae] eqn:Ea.
  unfold upsert_network_domains. set (c2 := if negb hard && negb fixed then _ else c1).
  destruct (validate _ _) as [[]|] eqn:Ev; [|done]. intros [= <-]. exists base, (upsert_hosts ∅ denied PermissionDeny c2).
  cbn. split; [done|]. split; [done|]. split; [exact Ev|]. split.
  { destruct (upsert_hosts_rest denied PermissionDeny ∅ c2) as [ds ->]. unfold c2. destruct (negb hard && negb fixed); [|by exists ds].
    destruct (upsert_hosts_rest allowed PermissionAllow ∅ c1) as [ds' ->]. by exists ds. }
  split; [done|]. split; [done|]. split; [|done]. intros Ef. change (fixed = true) in Ef. rewrite Ef in Ea. by injection Ea as <- <-.
Qed.

(** Whether a socket is open, and what a side permits. *)
Definition socket_open (c : Config) (path : str) : Prop :=
  default ∅ (unix_sockets c) !! path = Some SocketAllow \/ dangerously_allow_all_unix_sockets c = Some true.

Definition side_permits (sockets : option (gmap str NetworkUnixSocketPermission)) (all : bool) (path : str) : Prop :=
  default ∅ sockets !! path <> Some SocketDeny
  /\ (default ∅ sockets !! path = Some SocketAllow \/ all = true).

Lemma applied_sockets policy (c : Config) path :
  socket_open (apply_to policy c) path ->
  side_permits (unix_sockets c) (inherited_permits_all c) path
  /\ side_permits (env_unix_sockets policy) (owner_permits_all policy) path.
Proof.
  assert (Hi : inherited_permits_all c = true -> default ∅ (unix_sockets c) !! path <> Some SocketDeny).
  { unfold inherited_permits_all. intros [_ Hn%negb_true_iff]%andb_prop. by apply denies_some_false. }
  assert (Ho : owner_permits_all policy = true -> default ∅ (env_unix_sockets policy) !! path <> Some SocketDeny).
  { unfold owner_permits_all. intros [_ Hn%negb_true_iff]%andb_prop. by apply denies_some_false. }
  unfold socket_open, side_permits. destruct (apply_to_facts policy c) as (_ & _ & -> & -> & _ & _).
  rewrite effective_sockets_spec by done.
  destruct (inherited_permits_all c), (owner_permits_all policy); cbn;
    repeat match goal with |- context [match ?x with _ => _ end] => destruct x end; naive_solver.
Qed.


End props.
