(* ===== verification/NetworkDemo.v ===== *)
(** * The proxy on concrete configurations

    Runs of the tasks of NetworkProxy.v on a model of the crates: the theorems
    of the network files applied, and three behaviours that are not what the
    code means to do. *)

From S2P Require Import Prelude RustStr PatchTypes PathUri AbsolutePath ExecRules ExecPolicy ExecApproval NetworkDecision Wildcard IpAddr NetworkHost NetworkPatterns NetworkConfig MitmHook NetworkConstraints NetworkProxy NetworkProxyProps ProxyServer ProxyServerProps NetworkSpec NetworkSpecProps.

#[export] Instance demo_host_laws : HostLaws.
Proof.
  constructor. intros p Hp. exists (fun t => wild (to_ascii_lowercase p) (to_ascii_lowercase t)). split; [|done].
  cbn [glob_build demo_host_crates].
  assert (E : existsb (fun c => one_of [c] [$"["; $"]"; $"{"; $"}"; $"\"]) p = false); [|by rewrite E].
  apply not_true_iff_false. rewrite existsb_exists. intros (c & Hc & Hs). unfold plain_glob in Hp.
  apply andb_prop in Hp as [Hp _]. rewrite forallb_forall in Hp. specialize (Hp c Hc).
  unfold one_of in Hs. apply existsb_exists in Hs as (x & Hx & E%bool_decide_eq_true). revert Hp.
  by destruct Hx as [<-|[<-|[<-|[<-|[<-|[]]]]]]; injection E as ->.
Qed.


(** With wildcards a pattern may be refused although it stays inside. *)
Example wildcard_refused :
  allows (parse_for_constraints ($"a?.example.com")) (parse_for_constraints ($"ab.example.com")) = false
  /\ forall h, ascii h -> pattern_matches ($"ab.example.com") h = true -> pattern_matches ($"a?.example.com") h = true.
Proof.
  split; [by vm_compute|]. intros h Hh. rewrite !pattern_matches_plain by done || by vm_compute.
  cbn [entry_kind]. vm_compute (entry_kind _ _).
  cbn [stands]. rewrite wild_plain by (by apply (bool_decide_unpack _)). intros <-%bool_decide_eq_true. by vm_compute.
Qed.

Definition demo_cwd : result str io_error := Ok ($"/").
Definition demo_mitm (_ : bool) : result unit str := Ok ().
Definition no_file (_ : str) : option str := None.

Abbreviation DemoConfig := (NetworkProxyConfig unit unit).
Abbreviation DemoState := (@ConfigState unit unit str unit).
Abbreviation DemoWorld := (@world unit unit str unit).
Abbreviation demo_build :=
  (@build_config_state unit unit str unit _ _ None demo_cwd demo_mitm demo_secret no_file).
Abbreviation demo_validate := (@validate_policy_against_constraints unit unit str _ _ None demo_cwd).
Abbreviation demo_step := (@step unit unit str unit _ _ _ _ None demo_cwd demo_mitm demo_secret no_file).
Abbreviation demo_reached := (@reached unit unit str unit _ _ _ _ None demo_cwd demo_mitm demo_secret no_file).

Definition with_domains (l : NetworkDomainPermissions) : DemoConfig :=
  set_domains (Some l) (set_enabled true (default_config ())).

Definition demo_config : DemoConfig :=
  with_domains [mkPermission ($"api.corp.example") PermissionAllow; mkPermission ($"*.EVIL.example") PermissionDeny].

Definition demo_constraints : NetworkProxyConstraints :=
  mkConstraints (Some true) (Some Full) None (Some false) None (Some [$"**.Corp.example."]) None
    (Some [$"*.evil.example"]) None None (Some false).

Definition demo_dns (host : str) (port : N) : option (list IpAddr) :=
  if bool_decide (host = $"api.corp.example") then Some [V4 (ipv4 8 8 8 8)] else None.

Definition demo_entry : BlockedRequest :=
  mkBlocked ($"x.test") REASON_NOT_ALLOWED None None None ($"http") None None None None 0.

(** Runs of tasks; [None] when a step does not apply. *)
Definition run_from (c : DemoConfig) (k : NetworkProxyConstraints) (es : list (@event unit unit)) : option DemoWorld :=
  match demo_build c k with
  | Ok s => foldl (fun w e => w ← w; demo_step e w) (Some (mkWorld s ∅)) es
  | Err _ => None
  end.

Definition own_event (e : @event unit unit) : bool :=
  match e with Replace _ _ | ForceReload _ _ => false | _ => true end.

Lemma run_from_reached c k es w :
  demo_validate c k = Ok () -> forallb own_event es = true -> run_from c k es = Some w -> demo_reached w.
Proof.
  unfold run_from. intros Hv. destruct (demo_build c k) as [s|] eqn:Eb; [|done].
  revert w. induction es as [|e es IH] using rev_ind; intros w.
  - intros _ [= <-]. by eapply reached_start.
  - rewrite forallb_app, foldl_app. intros [Hes He]%andb_prop. cbn in *.
    destruct (foldl _ _ es) as [w0|]; [cbn|done]. intros Hst. eapply reached_step; [by apply IH| |exact Hst].
    rewrite andb_true_r in He. by destruct e.
Qed.

Definition deny_ads : list (@event unit unit) :=
  [StartUpdate 0 DenyList ($"Ads.corp.example."); Read 0; StartMode 1 Limited; Read 1; Write 0; Write 1].

Lemma managed_denials_always_block_witness :
  match run_from demo_config demo_constraints deny_ads with
  | Some w => host_blocked demo_dns (shared w) ($"x.Evil.example:80") 80 = Blocked Denied
              /\ host_blocked demo_dns (shared w) ($"ads.corp.example") 443 = Blocked Denied
  | None => False
  end.
Proof.
  assert (Hok : match run_from demo_config demo_constraints deny_ads with
                | Some w => bool_decide (managed_denied_domains (constraints (shared w)) = Some [$"*.evil.example"])
                            && bool_decide (host_blocked demo_dns (shared w) ($"ads.corp.example") 443 = Blocked Denied)
                | None => false end = true) by (vm_compute; reflexivity).
  assert (Hv : demo_validate demo_config demo_constraints = Ok ()) by (vm_compute; reflexivity).
  destruct (run_from demo_config demo_constraints deny_ads) as [w|] eqn:E; [|discriminate Hok].
  apply andb_prop in Hok as [Ek%bool_decide_eq_true Eh%bool_decide_eq_true]. split; [|exact Eh].
  apply (proj1 (managed_denials_always_block None demo_cwd demo_mitm demo_secret no_file demo_dns w
                  (run_from_reached demo_config demo_constraints deny_ads w Hv eq_refl E)) [$"*.evil.example"] ($"*.evil.example") _ 80%N ($"x.evil.example"));
    [exact Ek|by left|by vm_compute|by vm_compute].
Defined.

Lemma allowed_hosts_are_managed_witness :
  match run_from demo_config demo_constraints [] with
  | Some w => host_blocked demo_dns (shared w) ($"API.corp.example") 443 = Allowed
              /\ exists m, In m [$"**.Corp.example."] /\ (pattern_matches m ($"api.corp.example") = true
                   \/ exists ip, unscoped_ip_literal ($"api.corp.example") = Some ip /\ pattern_matches m ip = true)
  | None => False
  end.
Proof.
  assert (Hok : match run_from demo_config demo_constraints [] with
                | Some w => bool_decide (managed_allowed_domains (constraints (shared w)) = Some [$"**.Corp.example."])
                            && bool_decide (allowlist_expansion_enabled (constraints (shared w)) = None)
                            && forallb plain_entry (default [] (allowed_domains (config (shared w))))
                            && bool_decide (host_blocked demo_dns (shared w) ($"API.corp.example") 443 = Allowed)
                | None => false end = true) by (vm_compute; reflexivity).
  assert (Hv : demo_validate demo_config demo_constraints = Ok ()) by (vm_compute; reflexivity).
  destruct (run_from demo_config demo_constraints []) as [w|] eqn:E; [|discriminate Hok].
  apply andb_prop in Hok as [Hok Ea%bool_decide_eq_true]. apply andb_prop in Hok as [Hok Hp].
  apply andb_prop in Hok as [Em%bool_decide_eq_true Ee%bool_decide_eq_true]. split; [exact Ea|].
  destruct (allowed_hosts_are_managed None demo_cwd demo_mitm demo_secret no_file demo_dns w [$"**.Corp.example."]
              ($"API.corp.example") 443 (run_from_reached demo_config demo_constraints [] w Hv eq_refl E) Em) as (h & Eh & Hh).
  - unfold bounded_by. rewrite Ee. split; [by vm_compute|exact Hp].
  - exact Ea.
  - assert (Eh' : Host_parse ($"API.corp.example") = Some ($"api.corp.example")) by (vm_compute; reflexivity).
    rewrite Eh' in Eh. injection Eh as <-. apply Hh. by apply (bool_decide_unpack _).
Defined.

Definition host_of (h : TargetHost) : str := match h with Name n => n | Address _ => [] end.

(** A proxy named by the environment. *)
Definition proxy_env (key : str) : option str :=
  if bool_decide (key = $"https_proxy") then Some ($" http://127.0.0.1:9 ") else None.
Definition some_proxy (value : str) : option (str * bool) := Some (value, true).

Lemma local_network_only_by_literal_witness :
  match demo_build (with_domains [mkPermission ($" LocalHost.") PermissionAllow]) no_constraints with
  | Ok s =>
      let may name := may_connect demo_dns
        (proxy_for_target (from_env proxy_env some_proxy) (Name name) true) host_of (fun _ => Some s) (Name name) 80
        (V4 LOCALHOST4) in
      let may_directly name := may_connect demo_dns
        (proxy_for_target (no_proxies (ProxyAddress := str)) (Name name) true) host_of (fun _ => Some s) (Name name) 80
        (V4 LOCALHOST4) in
      may ($"LOCALHOST") = true /\ may ($"x.test") = true /\ may_directly ($"x.test") = false
      /\ proxy_for_target (from_env proxy_env some_proxy) (Name ($"LOCALHOST")) true = None
  | Err _ => False
  end.
Proof.
  assert (Hok : match demo_build (with_domains [mkPermission ($" LocalHost.") PermissionAllow]) no_constraints with
                | Ok s => negb (allow_local_binding (config s))
                          && may_connect demo_dns (proxy_for_target (from_env proxy_env some_proxy) (Name ($"LOCALHOST")) true)
                               host_of (fun _ => Some s) (Name ($"LOCALHOST")) 80 (V4 LOCALHOST4)
                | Err _ => false end = true) by (vm_compute; reflexivity).
  destruct (demo_build _ _) as [s|] eqn:E; [|discriminate Hok]. apply andb_prop in Hok as [Hl%negb_true_iff Hm].
  split; [exact Hm|]. split; [by vm_compute|]. split; [|by vm_compute]. apply not_true_iff_false. intros Hc.
  assert (Hall : forall (k : nat) s', Some s = Some s' -> allow_local_binding (config s') = false) by (by intros _ s' [= <-]).
  destruct (local_network_only_by_literal proxy_env demo_dns some_proxy false true host_of (fun _ => Some s)
              (Name ($"x.test")) 80 (V4 LOCALHOST4) eq_refl Hall Hc) as [Hn|[[Hn|(n & [= <-] & Hn & _)] _]];
    discriminate Hn.
Defined.

Lemma committed_update_is_current_witness :
  match run_from demo_config demo_constraints (take 4 deny_ads) with
  | Some w => match demo_step (Write 0) w with
              | Some w' => constraints (shared w') = constraints (shared w)
              | None => False end
  | None => False
  end.
Proof.
  assert (Hok : match run_from demo_config demo_constraints (take 4 deny_ads) with
                | Some w =>
                    match demo_step (Write 0) w with
                    | Some w' =>
                        match tasks w' !! 0, tasks w !! 0 with
                        | Some (Finished (Ok ())), Some (Updating k host (Some snap)) =>
                            negb (already_listed k host (previous_cfg snap))
                        | _, _ => false
                        end
                    | None => false end
                | None => false end = true) by (vm_compute; reflexivity).
  destruct (run_from demo_config demo_constraints (take 4 deny_ads)) as [w|]; [|discriminate Hok].
  destruct (demo_step (Write 0) w) as [w'|] eqn:Es; [|discriminate Hok].
  destruct (tasks w' !! 0) as [[| |[[]|]]|] eqn:Et; try discriminate Hok.
  pose proof (committed_update_is_current None demo_cwd demo_mitm demo_secret no_file demo_dns 0 w w' Es Et) as Hc.
  destruct (tasks w !! 0) as [[k host [snap|]| |]|]; try discriminate Hok.
  apply negb_true_iff in Hok. destruct (Hc Hok) as (_ & Hk & _). exact Hk.
Defined.

Lemma listeners_stay_local_witness :
  match resolve_runtime None demo_cwd (fun _ => None) demo_config with
  | Ok rt => is_loopback (addr_ip (http_addr rt)) = true /\ addr_port (http_addr rt) = 3128%N
  | Err _ => False
  end.
Proof.
  assert (Hv : demo_validate demo_config demo_constraints = Ok ()) by (vm_compute; reflexivity).
  assert (Hok : match resolve_runtime None demo_cwd (fun _ => None) demo_config with
                | Ok rt => (addr_port (http_addr rt) =? 3128)%N | Err _ => false end = true) by (vm_compute; reflexivity).
  destruct (resolve_runtime None demo_cwd (fun _ => None) demo_config) as [rt|] eqn:E; [|discriminate Hok].
  split; [|by apply N.eqb_eq].
  destruct (listeners_stay_local None demo_cwd (fun _ => None) demo_config demo_constraints rt Hv E)
    as [[[Hl _]|[[Hx _] _]] _]; [exact Hl|discriminate Hx].
Defined.

(** ** What the code does not mean to do *)

(** A request that is blocked while an update is prepared is forgotten: the
    update writes back the requests it had read. *)
Example update_forgets_blocked_requests :
  match run_from demo_config demo_constraints
          [StartUpdate 0 DenyList ($"ads.corp.example"); Read 0; RecordBlocked None demo_entry; Write 0] with
  | Some w => tasks w !! 0 = Some (Finished (Ok ())) /\ blocked (shared w) = [] /\ blocked_total (shared w) = 0%N
  | None => False
  end.
Proof. by vm_compute. Qed.

(** A forced reload keeps the requests but forgets how many there were. *)
Example force_reload_forgets_total :
  match run_from demo_config demo_constraints
          [RecordBlocked None demo_entry; ForceReload demo_config demo_constraints] with
  | Some w => length (blocked (shared w)) = 1 /\ blocked_total (shared w) = 0%N
  | None => False
  end.
Proof. by vm_compute. Qed.

(** Entries the url crate cannot read, such as hosts with a port, count as equal:
    one of them in the managed list lets any other through the constraints. *)
Example unparsed_entries_allow_each_other :
  let managed := [$"corp.example:8443"] in
  let c := with_domains [mkPermission ($"evil.example:443") PermissionAllow] in
  let k := mkConstraints None None None None None (Some managed) None None None None None in
  demo_validate c k = Ok ()
  /\ (match demo_build c k with Ok s => globset_is_match (allow_set s) ($"evil.example") | Err _ => false end) = true
  /\ existsb (fun m => pattern_matches m ($"evil.example")) managed = false.
Proof. by vm_compute. Qed.

(** * Connections through the proxy

    The theorems of ProxyServerProps.v on concrete configurations, and two
    behaviours the code does not mean to have. *)

Abbreviation DemoView := (nat -> option DemoState).

(** Full or limited access to one host, which may have a hook. *)
Definition served_at (host : str) (m : NetworkMode) (hooks : list (MitmHookConfig unit)) : DemoConfig :=
  mkConfig true default_proxy_url true default_socks_url true true false None m
    (Some [mkPermission host PermissionAllow]) None false true false false () false hooks.

Definition served : NetworkMode -> list (MitmHookConfig unit) -> DemoConfig := served_at ($"api.corp.example").

Definition view_of (c : DemoConfig) : DemoView :=
  match demo_build c no_constraints with Ok s => fun _ => Some s | Err _ => fun _ => None end.

Definition demo_authority (s : str) : option Authority :=
  if contains_char AT s then None else Some (mkAuthority s s None).

Definition demo_inner (method path : str) : @InnerRequest str :=
  mkInner (mkRequest method path None [($"host", $"api.corp.example")]) None None None false.

(** A request to switch to another protocol, which the server grants. *)
Definition demo_upgrade : @InnerRequest str :=
  mkInner (mkRequest ($"GET") ($"/socket") None
    [($"host", $"api.corp.example"); (CONNECTION, $"Upgrade"); (UPGRADE, $"websocket")]) None None None true.

Definition grants (_ : @InnerRequest str) (r : @UpstreamRequest str) : option (@Switching str) :=
  Some (mkSwitching (upstream_asks r) true).

Definition no_broker (_ : str) (_ : N) : BrokeredProtocols := mkBrokered false false.

Abbreviation demo_connect view authority detected requests :=
  (@connect_traffic unit unit str unit _ _ demo_dns None None None 0%Z no_broker demo_authority
     (fun _ _ _ => true) (fun _ headers => headers) grants view None None authority detected requests).
Abbreviation demo_socks view written port detected requests :=
  (@socks_traffic unit unit str unit _ _ demo_dns None None None 0%Z no_broker demo_authority
     (fun _ _ _ => true) (fun _ headers => headers) grants view None None written port detected requests).
Abbreviation demo_udp view address port :=
  (@udp_traffic unit unit str unit _ demo_dns None None None 0%Z view None None address port).

Definition methods_of (l : list (@Traffic str)) : list (option str) :=
  map (fun t => match t with ToServer _ _ r => Some (upstream_method r) | _ => None end) l.

Definition API : str := $"API.corp.example.".

Lemma only_approved_traffic_witness :
  exists host port, In (Stream host port) (demo_connect (view_of (served Full [])) (Some (API, 443%N)) None [])
  /\ host = $"api.corp.example"
  /\ approved demo_dns None (view_of (served Full [])) host port
  /\ demo_connect (view_of (served Full [])) (Some ($"evil.example", 443%N)) None [] = [].
Proof.
  assert (Ht : demo_connect (view_of (served Full [])) (Some (API, 443%N)) None [] = [Stream ($"api.corp.example") 443])
    by (vm_compute; reflexivity).
  exists ($"api.corp.example"), 443%N. rewrite Ht. split; [by left|]. split; [done|]. split.
  - refine (proj1 (proj1 (only_approved_traffic (Value := str) (Mitm := unit) None demo_cwd demo_dns None None None 0%Z no_broker demo_authority
      (fun _ _ _ => true) (fun _ headers => headers) grants false (fun _ => None) (view_of (served Full [])) None None)
      (Some (API, 443%N)) None [] (Stream ($"api.corp.example") 443) _)).
    rewrite Ht. by left.
  - vm_compute. reflexivity.
Defined.

Definition in_limited (requests : list (@InnerRequest str)) : list (@Traffic str) :=
  demo_connect (view_of (served Limited [])) (Some (API, 443%N)) None
    (map (pair (view_of (served Full []))) requests).

Lemma limited_mode_reads_only_witness :
  methods_of (in_limited [demo_inner ($"GET") ($"/a"); demo_inner ($"POST") ($"/a"); demo_inner ($"HEAD") ($"/b")])
  = [Some ($"GET"); Some ($"HEAD")]
  /\ forall requests t, upgrades_asked (map (pair (view_of (served Full []))) requests) ->
     In t (in_limited requests) -> reads_only t.
Proof.
  split; [vm_compute; reflexivity|]. intros requests t Hup.
  refine (proj1 (limited_mode_reads_only (Value := str) (Mitm := unit) None demo_cwd demo_dns None None None 0%Z no_broker demo_authority
      (fun _ _ _ => true) (fun _ headers => headers) grants false (fun _ => None) (view_of (served Limited [])) None None _) _ _ _ _ Hup).
  assert (Hm : match demo_build (served Limited []) no_constraints with
               | Ok s => bool_decide (mode (config s) = Limited) | Err _ => true end = true) by (vm_compute; reflexivity).
  intros k s. unfold view_of. destruct (demo_build _ _) as [s'|]; [|done]. intros [= <-].
  by apply bool_decide_eq_true in Hm.
Defined.

Definition hooked_view : DemoView := view_of (served Full [demo_hook ($"api.corp.example") [$"/v1/"]]).

Lemma demo_hooked_view host : host = $"api.corp.example" -> hooked hooked_view host.
Proof.
  assert (Hm : match demo_build (served Full [demo_hook ($"api.corp.example") [$"/v1/"]]) no_constraints with
               | Ok s => is_some (state_hooks s !! ($"api.corp.example")) | Err _ => true end = true)
    by (vm_compute; reflexivity).
  intros -> k s. unfold hooked_view, view_of. destruct (demo_build _ _) as [s'|]; [|done]. intros [= <-].
  assert (E : normalize_host ($"api.corp.example") = $"api.corp.example") by (vm_compute; reflexivity).
  rewrite E. by destruct (state_hooks s' !! _); [eexists|discriminate Hm].
Qed.

Definition through_hooks (requests : list (@InnerRequest str)) : list (@Traffic str) :=
  demo_connect hooked_view (Some (API, 443%N)) None (map (pair hooked_view) requests).


Lemma refusals_are_recorded_witness :
  let answer := @http_connect_accept unit unit str unit _ demo_dns None None None 0%Z no_broker
                  (view_of (served Full [])) None None (Some ($"Evil.example", 443%N)) in
  map blocked_reason (recorded answer.2) = [REASON_NOT_ALLOWED_LOCAL]
  /\ recorded_once ($"evil.example") 443 true answer.2.
Proof.
  cbn zeta. split; [vm_compute; reflexivity|].
  pose proof (proj1 (refusals_are_recorded (Value := str) (Mitm := unit) None demo_cwd demo_dns None None None 0%Z no_broker demo_authority
      (fun _ headers => headers) false (fun _ => None) (view_of (served Full [])) None None) ($"Evil.example") 443%N) as Hr.
  assert (E : normalize_host ($"Evil.example") = $"evil.example") by (vm_compute; reflexivity).
  assert (Ef : refused is_refusal (@http_connect_accept unit unit str unit _ demo_dns None None None 0%Z no_broker
                  (view_of (served Full [])) None None (Some ($"Evil.example", 443%N))).1 = true)
    by (vm_compute; reflexivity).
  cbn zeta in Hr. rewrite E, Ef in Hr. exact Hr.
Defined.

(** A request in a plain tunnel is upgraded to a stream in full mode, and
    refused in limited mode. *)
Definition brokered_http (_ : str) (_ : N) : BrokeredProtocols := mkBrokered false true.

Definition upgraded_traffic (m : NetworkMode) : list (@Traffic str) :=
  @connect_traffic unit unit str unit _ _ demo_dns None None None 0%Z brokered_http demo_authority
    (fun _ _ _ => true) (fun _ headers => headers) grants (view_of (served m [])) None None (Some (API, 80%N))
    (Some PlainHttp) [(view_of (served m []), demo_upgrade)].

Example upgrades_need_full_mode :
  upgraded_traffic Limited = []
  /\ match upgraded_traffic Full with
     | [ToServer h p r; Upgraded h' p' r'] =>
         (h, p) = ($"api.corp.example", 80%N) /\ (h', p', r') = (h, p, r) /\ upstream_asks r = Some ($"websocket")
     | _ => False
     end.
Proof. by vm_compute. Qed.

(** ** What the code does not mean to do *)

(** Over TCP a host with hooks is reached only by intercepted HTTPS; datagrams to
    it pass unseen. *)
Example datagrams_bypass_hooks :
  let view := view_of (served_at ($"8.8.8.8") Full [demo_hook ($"8.8.8.8") [$"/v1/"]]) in
  demo_socks view ($"8.8.8.8") 8443 (Some Opaque) [] = []
  /\ demo_socks view ($"8.8.8.8") 443 (Some Opaque) [] = []
  /\ demo_udp view ($"8.8.8.8") 443 = [Datagram ($"8.8.8.8") 443].
Proof. by vm_compute. Qed.

(** The loop over [Connection] headers drops them all in its first turn, so what
    the second one lists is sent on. *)
Example second_connection_header_ignored :
  remove_hop_by_hop_request_headers
    [(CONNECTION, $"x-one"); (CONNECTION, $"x-two"); ($"x-one", $"1"); ($"x-two", $"2")]
  = [($"x-two", $"2")].
Proof. by vm_compute. Qed.

(** * The proxy of a session

    The theorems of NetworkSpecProps.v on a session whose administrator denies
    and allows domains, and on an environment below its settings. *)

Abbreviation DemoSpec := (NetworkProxySpec unit unit).
Abbreviation demo_spec :=
  (@from_config_and_constraints unit unit unit str _ _ None demo_cwd).
Abbreviation demo_session_step :=
  (@proxy_session_step unit unit unit str unit _ _ _ _ None demo_cwd demo_mitm demo_secret no_file).
Abbreviation demo_session_reached :=
  (@session_reached unit unit unit str unit _ _ _ _ None demo_cwd demo_mitm demo_secret no_file).
Abbreviation demo_with_rules := (@with_rules_or_without unit unit str _ _ None demo_cwd).
Abbreviation demo_build_spec :=
  (@build_config_state_for_spec unit unit str unit _ _ None demo_cwd demo_mitm demo_secret no_file).

Definition managed_profile : @PermissionProfile unit := Managed ManagedUnrestricted NetworkEnabled.

Definition demo_requirements : NetworkRequirements :=
  mkRequirements (Some true) (Some 4000%N) None (Some false) None None
    (Some (list_to_map [($"*.evil.example", TomlDeny); ($"**.corp.example", TomlAllow)])) (Some true) None (Some false) None.

(** A rule of the execution policy about a host. *)
Definition rule_for (h : str) (d : Decision) : Policy.Policy :=
  Policy.mkPolicy ∅ [mkNetworkRule h Https d None] ∅.

Definition run_session (s : DemoSpec) (p : Policy.Policy) (es : list (@session_event unit unit unit)) : option DemoWorld :=
  match demo_build_spec (demo_with_rules s p) with
  | Ok st => foldl (fun w e => w ← w; demo_session_step s (demo_with_rules s p) e w) (Some (mkWorld st ∅)) es
  | Err _ => None
  end.

Lemma run_session_reached s p es w :
  run_session s p es = Some w -> demo_session_reached s (demo_with_rules s p) w.
Proof.
  unfold run_session. destruct (demo_build_spec _) as [st|] eqn:Eb; [|done].
  revert w. induction es as [|e es IH] using rev_ind; intros w; [intros [= <-]; by apply session_start|].
  rewrite foldl_app. cbn. destruct (foldl _ _ es) as [w0|]; [cbn|done]. intros Hst.
  eapply session_event_step; [by apply IH|exact Hst].
Qed.

Definition session_run : list (@session_event unit unit unit) :=
  [Refresh managed_profile (rule_for ($"x.evil.example") Allow);
   ProxyEvent (StartUpdate 0 AllowList ($"x.evil.example")); ProxyEvent (Read 0); Reload; ProxyEvent (Write 0);
   Refresh managed_profile (rule_for ($"b.corp.example") Forbidden)].

Lemma requirements_hold_in_session_witness :
  match demo_spec demo_config (Some demo_requirements) managed_profile with
  | Ok s => match run_session s Policy.empty session_run with
            | Some w => host_blocked demo_dns (shared w) ($"x.evil.example") 443 = Blocked Denied
                        /\ allow_local_binding (config (shared w)) = false
            | None => False
            end
  | Err _ => False
  end.
Proof.
  assert (Hok : match demo_spec demo_config (Some demo_requirements) managed_profile with
                | Ok s => is_some (run_session s Policy.empty session_run)
                | Err _ => false end = true) by (vm_compute; reflexivity).
  destruct (demo_spec demo_config (Some demo_requirements) managed_profile) as [s|] eqn:Es; [|discriminate Hok].
  destruct (run_session s Policy.empty session_run) as [w|] eqn:Er; [|discriminate Hok].
  destruct (requirements_hold_in_session None demo_cwd demo_mitm demo_secret no_file demo_dns demo_config
              demo_requirements managed_profile s _ w Es (run_session_reached _ _ _ _ Er))
    as (Hd & _ & _ & _ & Hl & _).
  split; [|by apply Hl].
  apply (Hd (list_to_map [($"*.evil.example", TomlDeny); ($"**.corp.example", TomlAllow)]) ($"*.evil.example") _ 443%N
           ($"x.evil.example")); [done|by vm_compute|by vm_compute|by vm_compute].
Defined.

Definition owner_policy : EnvironmentNetworkPolicy :=
  mkEnvPolicy (Some [mkPermission ($"tool.example") PermissionAllow; mkPermission ($"x.EVIL.example") PermissionAllow])
    (Some (list_to_map [($"/run/a.sock", SocketAllow)])) true true true false.

Definition demo_for_environment (reqs : NetworkRequirements) : result DemoSpec SpecError :=
  let? s := demo_spec demo_config (Some reqs) managed_profile in
  @for_environment unit unit unit str _ _ None demo_cwd () (Some s) owner_policy managed_profile
    (rule_for ($"new.example") Allow).

Definition soft_requirements : NetworkRequirements :=
  mkRequirements (Some true) None None (Some false) None None
    (Some (list_to_map [($"*.evil.example", TomlDeny)])) None None (Some false) None.

